(* ===== verification/_CoqProject ===== *)
-Q . S2P
Prelude.v
UInt128.v
Numeric.v
Exchange.v
LedgerEntries.v
Balances.v
BalancesSpec.v
LedgerTxn.v
TrustLines.v
LedgerTxnSpec.v
LedgerOffers.v
LedgerLogic.v
CrossOffers.v
CrossOffersSpec.v
BookSpec.v
OpTypes.v
RunLogic.v
ExactLogic.v
Lumens.v
OpSteps.v
Operations.v
AccountOps.v
OfferOps.v
OpSpec.v
OfferSpec.v
Signatures.v
SignatureSpec.v
Transactions.v
Gentle.v
TxSpec.v
OpExact.v
TxValidSpec.v
TxFailSpec.v
Buckets.v
BucketsSpec.v
BucketList.v
BucketWords.v
BucketListSpec.v
BucketLedger.v
BucketRestart.v
BucketSizes.v
BucketApply.v
BucketApplySpec.v
BucketWork.v
BucketCatchup.v
Catchup.v
CatchupSpec.v
TxSet.v
TxQueue.v
TxSetSpec.v
TxCheckSpec.v
TxProposal.v
TxQueueSpec.v
QuorumSet.v
Statement.v
LocalNode.v
Normalize.v
NodeWeight.v
CBitset.v
CBitsetSpec.v
BitSets.v
QuorumGraph.v
Tarjan.v
QuorumSearch.v
QuorumSearchSpec.v
QuorumIntersection.v
QuorumTracker.v
Slot.v
Ballot.v
BallotPure.v
Nomination.v
SlotProtocol.v
NominationOrder.v
BallotSafety.v
SlotSafety.v
SlotTheorems.v
SCPNode.v
Scenarios.v
