(* ===== verification/Prelude.v ===== *)
(** * Verification of vii-core: consensus, the ledger, its transactions and its buckets

    vii-core is the node of a payment network. Its nodes agree on a sequence of values, one
    per slot, with the federated Byzantine agreement protocol SCP (src/scp), check that their
    quorums intersect, collect transactions and propose sets of them (src/herder), and apply the agreed transactions to a ledger of accounts,
    trust lines, offers and data (src/transactions, src/ledger). The state of the ledger is also
    kept in a list of buckets (src/bucket), from which a new node rebuilds it after it has
    verified the chain of ledger headers (src/catchup). This library models these parts and
    proves what makes them correct. Paths below are relative to the root of the
    repository; theorems are cited by name, and the comment above each says what it states.

    ** How the code is modelled

    C++ objects are records with the fields of the source, member functions are
    functions in the monad [M]: a call returns a value in a new state, throws an
    exception in a new state, or brings the process down ([outcome]). [dbgAssert]
    is a crash in a debug build and nothing in a release build; [assert] and the
    dereferencing of a null smart pointer are crashes. Machine integers are [Z] with their
    wrap-around written out. [std::set] is the increasing list of its elements,
    [std::map] is a [gmap] iterated in the order of its keys, a [shared_ptr] whose
    identity is compared is a numbered pointer, and an unordered map is a [gmap] with an
    arbitrary order of iteration ([HashOrder]). XDR structs are records, unions are
    inductive types. Node identifiers and hashes are numbers; values are byte strings.

    Code that is virtual or external is a parameter: the record [SCPDriver] holds the
    answers of the application (quorum sets by hash, validity and combination of
    values, hashes for priorities, signatures), [Env] adds the local node, the clock
    and the kind of build, [Crypto] has the verification of signatures and the hash, and the
    check of invariants after an operation is an argument. The hash of a bucket file
    ([FileHash]), its length ([FileSize]), the hash of a header, the hashes of transactions and sets
    ([TxHashes]), the order of hash tables ([TableOrder]) and of equal elements in [std::sort]
    ([StdSort]), the bucket directory and the
    files got from an archive are parameters too. Theorems quantify over all of them; in the reachability relations of SCP they may change at every call, except for
    the identity of the node. Calls that only inform the driver are recorded, newest
    first, in [calls].

    ** Files: arithmetic and data structures

    - [Prelude]: this file. Automation, machine integers, the monad with its weakest
      preconditions, ordered sets, maps, counting.
    - [UInt128] (lib/util/uint128_t): 128-bit integers on two 64-bit halves;
      [uint128_ring], [uint128_divmod_exact], [uint128_shifts].
    - [Numeric] (src/util/numeric.cpp, types.cpp): [bigDivide], [bigMultiply],
      [addBalance], prices; [bigDivide_exact], [bigDivide128_agrees], [addBalance_exact].
    - [Exchange] (src/transactions/OfferExchange.cpp, the arithmetic): [exchangeV2],
      [exchangeV3], [exchangeV10], [adjustOffer]; [exchangeV10_ok], [exchangeV10_path_ok] and
      [adjustOffer_ok]: they never throw, respect all limits, favour the offer that stays,
      bound the price error; adjusting is idempotent and leaves only executable offers.
    - [CBitset], [CBitsetSpec], [BitSets] (lib/util/cbitset.h, cbitset.c, src/util/BitSet.h):
      bit sets as arrays of words; [bitset_refines_sets], [bitset_histories],
      [shift_roundtrip].

    ** Files: the ledger

    - [LedgerEntries] (src/xdr/vii-ledger-entries.x, vii-ledger.x): entries, keys, the header,
      the order of offers.
    - [Balances], [BalancesSpec] (src/transactions/TransactionUtils.cpp): balances, liabilities,
      reserves and subentries of one entry; [amounts_stay_in_bounds],
      [announced_amounts_exact].
    - [LedgerTxn] (src/ledger/LedgerTxn.cpp, LedgerTxnEntry.cpp, LedgerTxnHeader.cpp): nested
      transactions with entries, headers and handles. [LedgerTxnSpec]: the abstract
      specification, a stack of maps, and [nested_transactions_refine_stack].
      [LedgerOffers]: [best_offer_found].
    - [TrustLines] (src/ledger/TrustLineWrapper.cpp and the loading functions): the wrapper of
      trust lines and the scopes of handles.
    - [LedgerLogic], [RunLogic], [ExactLogic]: program logics over the stack of maps. [exec]
      follows what every transaction shows and which handles are in use; [run] forgets the
      handles and allows exceptions; [tidy] says that a call on the innermost transaction
      returns, and with what. Every proof about the ledger goes through their rules.
    - [CrossOffers] (the rest of OfferExchange.cpp): crossing offers and converting along the
      order book. [CrossOffersSpec], [BookSpec]: [convert_books_balance].

    ** Files: operations and transactions

    - [OpTypes], [Operations], [AccountOps], [OfferOps] (src/xdr/vii-transaction.x and the
      frames src/transactions/...OpFrame.cpp): the thirteen operations, [doCheckValid] and
      [doApply] of each.
    - [Lumens], [OpSteps], [OpSpec], [OfferSpec]: the sum of the native balances, the rules for
      the steps that operations share, the operations one by one. [TxSpec]:
      [operations_conserve_lumens] for all of them. [OpExact]: the operations that touch no
      offer as functions on maps, branch by branch; [direct_operations_exact].
    - [Signatures], [SignatureSpec] (src/transactions/SignatureChecker.cpp, SignatureUtils.cpp):
      [checked_signatures_suffice].
    - [Transactions], [TxValidSpec] (TransactionFrame.cpp, OperationFrame.cpp): validation, fees,
      application; [check_valid_exact], [fees_reach_the_pool]. [Gentle]: programs that leave the
      root of the ledger transactions alone. [TxFailSpec]: the application of a transaction whose
      source has less than its reserve, which loses the process when an operation is not signed
      for; [insufficient_balance_dangles].

    ** Files: transaction sets

    - [TxSet] (src/herder/TxSetFrame.cpp): a set of transactions, its hash, the queues of the
      accounts, the order of application, trimming, surge pricing, the check, base fee and total fees.
      [TxQueue] (src/herder/TransactionQueue.cpp, parts of HerderImpl.cpp): pending and banned
      transactions by age, and the proposal of a set.
    - [TxSetSpec]: [apply_order_agreed]: all nodes apply a set in the same order. [TxCheckSpec]: what
      trimming leaves and what the check accepts, account by account; [TxProposal]:
      [proposed_set_is_valid]. [TxQueueSpec]: the invariant of the queue, [admission_exact] and
      [pending_then_banned].

    ** Files: buckets and catchup

    - [Buckets] (src/bucket/Bucket.cpp, BucketInputIterator.cpp, BucketOutputIterator.cpp,
      LedgerCmp.h): a bucket is the list of entries of its file; reading, writing, fresh buckets,
      shadows and the merge of two buckets. [BucketsSpec]: what a merge means for each key.
    - [BucketList] (BucketList.cpp, FutureBucket.cpp, parts of BucketManagerImpl.cpp and of
      src/history/HistoryArchive.cpp): the schedule in 32-bit arithmetic (module [Schedule]),
      merges in the background as a state machine (module [FutureBuckets]), the levels with
      [addBatch], the state that is saved and how a node starts from it. [BucketWords],
      [BucketListSpec]: the invariant of the list, as words of entries per key.
    - [BucketLedger]: [bucket_list_represents_ledger]: the list shows the ledger that the batches
      of all ledgers describe. [BucketRestart]: [restart_is_transparent]. [BucketSizes]: the sizes
      and ages of buckets that the code computes, [bucket_ledger_ranges].
    - [BucketApply] (BucketApplicator.cpp, src/catchup/ApplyBucketsWork.cpp,
      src/invariant/BucketListIsConsistentWithDatabase.cpp): buckets applied to the database in
      batches, the work that does it level by level, the check after each bucket.
      [BucketApplySpec], [BucketWork]: the steps of the work; [BucketCatchup]:
      [catchup_rebuilds_ledger].
    - [Catchup] (src/catchup/CatchupWork.cpp, CatchupConfiguration.cpp, VerifyLedgerChainWork.cpp,
      src/history/HistoryManagerImpl.cpp): checkpoints, the range of a catchup, the verification
      of ledger headers. [CatchupSpec]: [catchup_range_correct], [verified_chain_is_genuine],
      [genuine_chain_is_verified], and a file that loses the process, [late_file_aborts].

    ** Files: consensus

    - [QuorumSet], [Normalize] (src/scp/QuorumSetUtils.cpp): [sane_quorum_set_iff],
      [normalization_preserves].
    - [Statement] (src/xdr/vii-SCP.x, static functions of both protocols): messages,
      the order of ballots, what a statement claims, newer and sane statements.
    - [LocalNode], [NodeWeight] (src/scp/LocalNode.cpp): slices, v-blocking sets, quorums,
      weights; [quorum_iff_self_sufficient], [vblocking_iff_meets_slices].
    - [Slot] (src/scp/Slot.h, SCPDriver.h, the constructors): state, environment,
      federated voting.
    - [Ballot] (src/scp/BallotProtocol.cpp): every member function of the ballot
      protocol. [BallotPure]: candidates and commit intervals,
      [accepted_commit_has_prepared].
    - [Nomination] (src/scp/NominationProtocol.cpp): every member function of the
      nomination protocol. [NominationOrder]: newer nominations.
    - [SlotProtocol] (src/scp/Slot.cpp): dispatch and entry points.
    - [BallotSafety]: the abstract protocol (open, locked on a value, decided on it),
      the invariant [Inv] of a slot and the relation [Rel] around a call; each
      member function of the ballot protocol keeps both. [SlotSafety]: the same for
      nomination and for the recursion through [processEnvelope].
    - [SlotTheorems]: the reachable states of a slot. [slot_refines_abstract],
      [externalized_at_most_once], [ballot_invariant], [ballot_calls_terminate],
      [release_crash_needs_conflict], [emitted_ballots_supersede], [emitted_nominations_grow],
      [latest_statements_monotone], [nomination_monotone], [confirm_commit_needs_quorum].
    - [SCPNode] (src/scp/SCP.cpp): the slots of a node; [node_slots_reachable],
      [node_slot_isolation].
    - [Scenarios]: concrete runs: instances of the theorems, and three runs in which the code
      does what it does not mean to.
    - [QuorumGraph], [Tarjan], [QuorumSearch], [QuorumSearchSpec], [QuorumIntersection]
      (src/herder/QuorumIntersectionCheckerImpl.cpp): the check that all quorums intersect;
      [slice_search_agrees_with_voting], [tarjan_correct], [contraction_greatest_quorum],
      [intersection_checker_correct].
    - [QuorumTracker] (src/herder/QuorumTracker.cpp): the transitive quorum;
      [tracker_expand_agrees_with_rebuild].

    ** How the components meet

    [SCPNode] forwards to a slot; [SlotProtocol] dispatches an envelope to [Ballot] or
    [Nomination]; both emit their own statements through [processEnvelope] again, and
    nomination starts ballots through [bumpState]. The recursive call is an argument of
    every member function, and [RecSpec] in [BallotSafety] is what it must guarantee: each
    function is verified against that interface, and [SlotSafety] shows that the recursion
    satisfies it.

    A transaction ([Transactions]) opens a ledger transaction per operation and applies the
    operation ([Operations], [AccountOps], [OfferOps]) in it; operations work through handles
    on entries ([LedgerTxn], [TrustLines]), compute with [Balances], and exchange with the
    order book by [CrossOffers], which computes with [Exchange]. The operations are verified
    against the abstract stack of maps: the refinement theorem of [LedgerTxnSpec] is what makes
    the rules of [LedgerLogic] and [RunLogic] sound.

    The queue ([TxQueue]) and the sets ([TxSet]) validate transactions with [checkValid] of
    [Transactions] in a ledger transaction on the root; [rootTxn] in [TxCheckSpec] brings what
    [check_valid_exact] rests on (the rules of [ExactLogic]) to the database.

    At the end of a ledger the entries that were created, changed and erased go to [addBatch]
    ([BucketList]) as a batch, which is merged level by level ([Buckets]). [BucketApply] reads
    the buckets back into the database through [LedgerTxn]; its proofs use the rules of
    [LedgerTxnSpec] for one open transaction and the invariant of [BucketListSpec] for what the
    buckets hold. [Catchup] decides whether buckets are applied at all: only by a node at the
    first ledger ([catchup_range_correct]), which is what [catchup_rebuilds_ledger] assumes.

    ** Bounds and fuel

    The recursion of [processEnvelope] runs on fuel; [ballot_calls_terminate] shows that 50 is
    enough for every call on the ballot protocol, because the code throws at 50 nested
    messages; the other theorems hold for every fuel. The loop of [advanceSlot] that bumps the
    counter runs at most three turns ([bumpLoop_ok] in [BallotSafety]). The loops of [isQuorum],
    [divmod], the contraction of quorums, Tarjan's algorithm and the search for quorums have
    fuel that is proved sufficient in the theorems about them. The loop of
    [convertWithOffers] erases an offer or stops in every turn, so that more fuel than there
    are offers suffices; [convert_books_balance] and [operations_conserve_lumens] assume that
    and show that the loop ends. A merge takes as many turns as its inputs have entries, and
    applying a bucket as many as it has entries, which is the fuel they are given; the recursion
    of the sizes of buckets needs at most 7 + 2 i nested calls for level i and is given 30
    ([sizeOf_Val] in [BucketSizes]). [txBatches] and [surgeLoop] take at most one turn for each
    transaction and are given that; [apply_order_agreed] and [proposed_set_is_valid] show that they end. The
    works are run by a scheduler until they are done: [catchup_rebuilds_ledger] and
    [genuine_chain_is_verified] say that from some number of turns on the result is there.

    ** What is not modelled

    Logging, JSON and text output. The herder apart from the quorum checks, the transaction sets and the queue, and the overlay,
    which drive and implement the interfaces above. The root of the ledger transactions is the
    map of rows in the database; its caches, the SQL and the votes for inflation are left out.
    Of buckets, the writing, adoption and collection of files and the counters of events; of
    catchup, the downloads, the order of the works in [CatchupWork] and the replay of ledgers; of
    history, the publishing; and the scheduler of works with its retries. The threads that merge
    buckets are followed as far as their result is ready or not. Before protocol version 8 a
    transaction caches its source account: the model has no result there, and the theorems
    about operations are for versions from 10 or 11 on. A timer that is still pending for a
    slot that has been purged is not followed. Termination of nomination calls is not proved.
    The agreement of several nodes is not stated: the theorems of SCP are about one node in an
    arbitrary environment.

    ** Plan

    Next: the whole of [TransactionFrame::apply], whose failing operations leave partial
    changes behind until the transaction is rolled back; upgrades of the protocol; the
    checks of src/invariant against the theorems on operations; agreement of two intertwined
    nodes; termination of nomination; the collection of bucket files; work items. *)
From stdpp Require Import base list sorting gmap strings.
From Stdlib Require Import ZArith Lia.
#[global] Open Scope Z_scope.

(** ** Automation *)

(** Turn the boolean tests of the code into the propositions they decide. *)
Ltac propify :=
  repeat match goal with
  | H : _ && _ = true |- _ => apply andb_prop in H; destruct H
  | H : _ || _ = false |- _ => apply orb_false_elim in H; destruct H
  | H : negb _ = true |- _ => apply negb_true_iff in H
  | H : negb _ = false |- _ => apply negb_false_iff in H
  | H : (_ <? _) = true |- _ => apply Z.ltb_lt in H
  | H : (_ <? _) = false |- _ => apply Z.ltb_ge in H
  | H : (_ <=? _) = true |- _ => apply Z.leb_le in H
  | H : (_ <=? _) = false |- _ => apply Z.leb_gt in H
  | H : (_ =? _) = true |- _ => apply Z.eqb_eq in H
  | H : (_ =? _) = false |- _ => apply Z.eqb_neq in H
  | H : bool_decide _ = true |- _ => apply bool_decide_eq_true in H
  | H : bool_decide _ = false |- _ => apply bool_decide_eq_false in H
  end.

(** ** Machine integers

    An unsigned [w]-bit integer is the [Z] between [0] and [2^w - 1]; every
    operation that can leave the range is written with its wrap-around. *)
Definition wrap (w x : Z) : Z := x mod 2 ^ w.
Definition u8 (x : Z) : Z := wrap 8 x.
Definition u32 (x : Z) : Z := wrap 32 x.
Definition u64 (x : Z) : Z := wrap 64 x.

(** The conversion of an integer to a signed [w]-bit one (two's complement). *)
Definition swrap (w x : Z) : Z :=
  let r := wrap w x in if r <? 2 ^ (w - 1) then r else r - 2 ^ w.
Definition s32 (x : Z) : Z := swrap 32 x.
Definition s64 (x : Z) : Z := swrap 64 x.

Definition UINT32_MAX : Z := 4294967295.
Definition UINT64_MAX : Z := 18446744073709551615.
Definition INT64_MAX : Z := 9223372036854775807.

Definition is_u32 (x : Z) : Prop := 0 <= x <= UINT32_MAX.
Definition is_u64 (x : Z) : Prop := 0 <= x <= UINT64_MAX.

Lemma u32_range x : is_u32 (u32 x).
Proof. unfold is_u32, u32, wrap, UINT32_MAX. pose proof (Z.mod_pos_bound x (2^32)). lia. Qed.
Lemma u64_range x : is_u64 (u64 x).
Proof. unfold is_u64, u64, wrap, UINT64_MAX. pose proof (Z.mod_pos_bound x (2^64)). lia. Qed.
Lemma u32_small x : is_u32 x → u32 x = x.
Proof. unfold is_u32, u32, wrap, UINT32_MAX. intros. apply Z.mod_small. lia. Qed.
Lemma u64_small x : is_u64 x → u64 x = x.
Proof. unfold is_u64, u64, wrap, UINT64_MAX. intros. apply Z.mod_small. lia. Qed.
Lemma s32_small x : - 2 ^ 31 <= x < 2 ^ 31 → s32 x = x.
Proof.
  intros Hx. unfold s32, swrap, wrap. cbn zeta. change (32 - 1) with 31.
  destruct (decide (0 <= x)).
  - rewrite Z.mod_small by lia. destruct (Z.ltb_spec x (2 ^ 31)); lia.
  - replace (x mod 2 ^ 32) with (x + 2 ^ 32)
      by (rewrite <- (Z.mod_add x 1 (2 ^ 32)) by lia; rewrite Z.mod_small; lia).
    destruct (Z.ltb_spec (x + 2 ^ 32) (2 ^ 31)); lia.
Qed.

(** ** Outcomes: the effects of a C++ call

    A call returns a value, throws an exception (the state keeps what was
    mutated before the throw), or brings the process down ([abort()], a failed
    assertion, a null dereference; the state is the one at that moment). [NoFuel] is not a behaviour of the code: it
    says that the model's recursion bound was too small. *)
Inductive outcome (S A : Type) : Type :=
| Ok (a : A) (s : S)
| Throw (what : string) (s : S)
| Crash (why : string) (s : S)
| NoFuel.
Arguments Ok {S A} a s.
Arguments Throw {S A} what s.
Arguments Crash {S A} why s.
Arguments NoFuel {S A}.

Definition M (S A : Type) : Type := S → outcome S A.

#[global] Instance M_ret S : MRet (M S) := λ A a s, Ok a s.
#[global] Instance M_bind S : MBind (M S) := λ A B k m s,
  match m s with
  | Ok a s' => k a s'
  | Throw e s' => Throw e s'
  | Crash w s' => Crash w s'
  | NoFuel => NoFuel
  end.

Definition get {S} : M S S := λ s, Ok s s.
Definition modify {S} (f : S → S) : M S unit := λ s, Ok tt (f s).
Definition throw {S A} (e : string) : M S A := λ s, Throw e s.
Definition crash {S A} (w : string) : M S A := λ s, Crash w s.
Definition nofuel {S A} : M S A := λ _, NoFuel.

(** Dereference of a smart pointer. *)
Definition deref {S A} (o : option A) : M S A :=
  match o with Some a => mret a | None => crash "null dereference" end.

(** Weakest preconditions: [Q] for a normal return, [X] for an exception, [C]
    for a crash and [F] for exhausted fuel. *)
Definition wp {S A} (C : S → Prop) (F : Prop) (m : M S A) (Q : A → S → Prop) (X : S → Prop)
    (s : S) : Prop :=
  match m s with
  | Ok a s' => Q a s'
  | Throw _ s' => X s'
  | Crash _ s' => C s'
  | NoFuel => F
  end.

Section Wp.
Context {S : Type} (C : S → Prop) (F : Prop) (X : S → Prop).

Lemma wp_bind {A B} (m : M S A) (k : A → M S B) Q s :
  wp C F m (λ a s', wp C F (k a) Q X s') X s → wp C F (m ≫= k) Q X s.
Proof. unfold wp, mbind, M_bind. by destruct (m s). Qed.
Lemma wp_ret {A} (a : A) (Q : A → S → Prop) s : Q a s → wp C F (mret a) Q X s.
Proof. done. Qed.
Lemma wp_mono {A} (m : M S A) (Q Q' : A → S → Prop) s :
  wp C F m Q X s → (∀ a s', Q a s' → Q' a s') → wp C F m Q' X s.
Proof. unfold wp. destruct (m s); naive_solver. Qed.
End Wp.

(** [m] returns normally from [s], with a result and state in [Q]. *)
Definition returns {S A} (m : M S A) (s : S) (Q : A → S → Prop) : Prop :=
  wp (λ _, False) False m Q (λ _, False) s.

Section Returns.
Context {S : Type}.
Lemma returns_ret {A} (a : A) (s : S) Q : Q a s → returns (mret a) s Q.
Proof. done. Qed.
Lemma returns_bind {A B} (m : M S A) (k : A → M S B) s Q R :
  returns m s R → (∀ a s', R a s' → returns (k a) s' Q) → returns (m ≫= k) s Q.
Proof. intros Hm Hk. apply wp_bind. eapply wp_mono; [exact Hm|]. exact Hk. Qed.
Lemma returns_mono {A} (m : M S A) s (Q R : A → S → Prop) :
  returns m s R → (∀ a s', R a s' → Q a s') → returns m s Q.
Proof. intros Hm Hk. by eapply wp_mono. Qed.
Lemma returns_Ok {A} (m : M S A) s Q : returns m s Q ↔ ∃ a s', m s = Ok a s' ∧ Q a s'.
Proof. unfold returns, wp. destruct (m s); naive_solver. Qed.
End Returns.

(** ** Ordered containers

    [std::set<A>] is the strictly increasing list of its elements; the
    comparison of the source is the instance of [StrictOrdB]. *)
Class StrictOrdB (A : Type) := {
  ltb : A → A → bool;
  ltb_irrefl x : ltb x x = false;
  ltb_trans x y z : ltb x y = true → ltb y z = true → ltb x z = true;
  ltb_total x y : ltb x y = false → ltb y x = false → x = y }.

#[global] Program Instance Z_ord : StrictOrdB Z := {| ltb := Z.ltb |}.
Next Obligation. intros. lia. Qed.
Next Obligation. intros. lia. Qed.
Next Obligation. intros. lia. Qed.

(** Lexicographic comparison, as [std::vector]'s [operator<]. *)
Fixpoint list_ltb {A} `{StrictOrdB A} (l k : list A) : bool :=
  match l, k with
  | [], [] => false
  | [], _ :: _ => true
  | _ :: _, [] => false
  | x :: l, y :: k => if ltb x y then true else if ltb y x then false else list_ltb l k
  end.

Section StrictOrdLemmas.
Context {A : Type} `{StrictOrdB A}.

Lemma ltb_asym x y : ltb x y = true → ltb y x = false.
Proof.
  intros Hxy. destruct (ltb y x) eqn:E; [|done].
  pose proof (ltb_trans _ _ _ Hxy E) as Hx. by rewrite ltb_irrefl in Hx.
Qed.

Lemma ltb_cases x y :
  (ltb x y = true ∧ ltb y x = false) ∨ (ltb x y = false ∧ ltb y x = true) ∨ x = y.
Proof.
  destruct (ltb x y) eqn:E1, (ltb y x) eqn:E2; [|by left|by right; left|].
  - by rewrite (ltb_asym _ _ E1) in E2.
  - right; right. by apply ltb_total.
Qed.

Lemma list_ltb_irrefl (l : list A) : list_ltb l l = false.
Proof. induction l as [|x l IH]; [done|]. simpl. by rewrite ltb_irrefl. Qed.

Lemma list_ltb_trans (l k m : list A) :
  list_ltb l k = true → list_ltb k m = true → list_ltb l m = true.
Proof.
  revert k m. induction l as [|x l IH]; intros [|y k] [|z m]; simpl; try done.
  destruct (ltb_cases x y) as [[Hxy Hyx]|[[Hxy Hyx]| ->]]; rewrite ?Hxy, ?Hyx; try done.
  - intros _. destruct (ltb_cases y z) as [[Hyz Hzy]|[[Hyz Hzy]| <-]];
      rewrite ?Hyz, ?Hzy; try done; [|by rewrite Hxy].
    by rewrite (ltb_trans x y z).
  - rewrite ltb_irrefl.
    destruct (ltb_cases y z) as [[Hyz Hzy]|[[Hyz Hzy]| <-]];
      rewrite ?Hyz, ?Hzy; try done. rewrite ltb_irrefl. eauto.
Qed.

Lemma list_ltb_total (l k : list A) :
  list_ltb l k = false → list_ltb k l = false → l = k.
Proof.
  revert k. induction l as [|x l IH]; intros [|y k]; simpl; try done.
  destruct (ltb_cases x y) as [[Hxy Hyx]|[[Hxy Hyx]| ->]]; rewrite ?Hxy, ?Hyx; try done.
  rewrite ltb_irrefl. intros. f_equal. auto.
Qed.
End StrictOrdLemmas.

#[global] Instance list_ord {A} `{StrictOrdB A} : StrictOrdB (list A) := {|
  ltb := list_ltb; ltb_irrefl := list_ltb_irrefl; ltb_trans := list_ltb_trans;
  ltb_total := list_ltb_total |}.

Definition ltP {A} `{StrictOrdB A} (x y : A) : Prop := ltb x y = true.
#[global] Instance ltP_dec {A} `{StrictOrdB A} (x y : A) : Decision (ltP x y).
Proof. unfold ltP. apply _. Defined.
#[global] Instance ltP_strict {A} `{StrictOrdB A} : StrictOrder (ltP (A:=A)).
Proof.
  split.
  - intros x. unfold complement, ltP. by rewrite ltb_irrefl.
  - intros x y z. apply ltb_trans.
Qed.

(** The invariant of a [std::set]: strictly increasing. *)
Definition SetOk {A} `{StrictOrdB A} (l : list A) : Prop := StronglySorted ltP l.

(** [std::set::insert] (and [emplace]): an equivalent element is kept. *)
Fixpoint set_insert {A} `{StrictOrdB A} (x : A) (l : list A) : list A :=
  match l with
  | [] => [x]
  | y :: r => if ltb x y then x :: l else if ltb y x then y :: set_insert x r else l
  end.

(** [std::set::find(x) != end()]. *)
Definition set_mem {A} `{StrictOrdB A} (x : A) (l : list A) : bool :=
  existsb (λ y, negb (ltb x y) && negb (ltb y x)) l.

Section OrderedSets.
Context {A : Type} `{StrictOrdB A}.
Implicit Types (x y : A) (l : list A).

Lemma set_mem_spec x l : set_mem x l = true ↔ x ∈ l.
Proof.
  unfold set_mem. rewrite existsb_exists. setoid_rewrite <- list_elem_of_In. split.
  - intros (y & Hy & E). propify. by rewrite (ltb_total x y).
  - intros Hx. exists x. by rewrite ltb_irrefl.
Qed.

Lemma elem_of_set_insert x y l : y ∈ set_insert x l ↔ y = x ∨ y ∈ l.
Proof.
  induction l as [|z l IH]; simpl; [set_solver|].
  destruct (ltb_cases x z) as [[E1 E2]|[[E1 E2]| ->]]; rewrite ?E1, ?E2; [set_solver| |].
  - rewrite elem_of_cons, IH. set_solver.
  - rewrite ltb_irrefl. set_solver.
Qed.

Lemma set_insert_ok x l : SetOk l → SetOk (set_insert x l).
Proof.
  unfold SetOk. induction l as [|z l IH]; simpl; intros Hl; [by repeat constructor|].
  apply StronglySorted_cons in Hl as [Hz Hl].
  destruct (ltb_cases x z) as [[E1 E2]|[[E1 E2]| ->]]; rewrite ?E1, ?E2.
  - apply StronglySorted_cons; split; [|by apply StronglySorted_cons].
    constructor; [done|]. eapply Forall_impl; [exact Hz|]. intros y Hy. by trans z.
  - apply StronglySorted_cons; split; [|auto].
    apply Forall_forall. intros y [->|Hy]%elem_of_set_insert; [done|].
    by apply (proj1 (Forall_forall _ _) Hz).
  - rewrite ltb_irrefl. by apply StronglySorted_cons.
Qed.

Lemma set_insert_mem x l : SetOk l → x ∈ l → set_insert x l = l.
Proof.
  unfold SetOk. induction l as [|z l IH]; simpl; intros Hl Hx; [set_solver|].
  apply StronglySorted_cons in Hl as [Hz Hl]. apply elem_of_cons in Hx as [->|Hx].
  - by rewrite !ltb_irrefl.
  - pose proof (proj1 (Forall_forall _ _) Hz x Hx) as Hlt. unfold ltP in Hlt.
    rewrite Hlt, (ltb_asym _ _ Hlt). f_equal. auto.
Qed.

Lemma set_insert_length x l :
  SetOk l → x ∉ l → length (set_insert x l) = S (length l).
Proof.
  unfold SetOk. induction l as [|z l IH]; simpl; intros Hl Hx; [done|].
  apply StronglySorted_cons in Hl as [Hz Hl].
  destruct (ltb_cases x z) as [[E1 E2]|[[E1 E2]| ->]]; rewrite ?E1, ?E2; [done| |set_solver].
  simpl. rewrite IH; [done|done|set_solver].
Qed.

Lemma SetOk_ext l k : SetOk l → SetOk k → (∀ x, x ∈ l ↔ x ∈ k) → l = k.
Proof.
  unfold SetOk. revert k. induction l as [|x l IH]; intros k Hl Hk Heq.
  - destruct k as [|y k]; [done|]. specialize (Heq y). set_solver.
  - destruct k as [|y k]; [specialize (Heq x); set_solver|].
    apply StronglySorted_cons in Hl as [Hx Hl], Hk as [Hy Hk].
    rewrite Forall_forall in Hx, Hy.
    assert (x = y) as ->.
    { destruct (ltb_cases x y) as [[E1 E2]|[[E1 E2]| ->]]; [| |done]; exfalso.
      - assert (x ∈ y :: k) as [->|Hin]%elem_of_cons by (apply Heq; set_solver).
        + by rewrite ltb_irrefl in E1.
        + specialize (Hy _ Hin). unfold ltP in Hy. congruence.
      - assert (y ∈ x :: l) as [->|Hin]%elem_of_cons by (apply Heq; set_solver).
        + by rewrite ltb_irrefl in E2.
        + specialize (Hx _ Hin). unfold ltP in Hx. congruence. }
    f_equal. apply IH; [done|done|]. intros z. specialize (Heq z).
    assert (y ∉ l) by (intros Hin; specialize (Hx _ Hin); unfold ltP in Hx; by rewrite ltb_irrefl in Hx).
    assert (y ∉ k) by (intros Hin; specialize (Hy _ Hin); unfold ltP in Hy; by rewrite ltb_irrefl in Hy).
    set_solver.
Qed.
End OrderedSets.
#[global] Hint Resolve set_insert_ok : core.

(** [std::map<Z, A>] is a [gmap]; its iteration goes through the keys in
    increasing order. *)
Definition key_le {A} (p q : Z * A) : Prop := p.1 <= q.1.
#[global] Instance key_le_dec {A} (p q : Z * A) : Decision (key_le p q).
Proof. unfold key_le. apply _. Defined.
Definition map_iter {A} (m : gmap Z A) : list (Z * A) := merge_sort key_le (map_to_list m).

Lemma elem_of_map_iter {A} (m : gmap Z A) k x : (k, x) ∈ map_iter m ↔ m !! k = Some x.
Proof. unfold map_iter. rewrite merge_sort_Permutation. apply elem_of_map_to_list. Qed.
Lemma NoDup_map_iter {A} (m : gmap Z A) : NoDup (map_iter m).*1.
Proof.
  unfold map_iter. rewrite (fmap_Permutation fst _ _ (merge_sort_Permutation _ _)).
  apply NoDup_fst_map_to_list.
Qed.

Lemma map_iter_sorted {A} (m : gmap Z A) : StronglySorted key_le (map_iter m).
Proof.
  unfold map_iter. apply StronglySorted_merge_sort.
  - intros p q r. unfold key_le. lia.
  - intros p q. unfold key_le. lia.
Qed.

(** ** Counting *)

Definition count {A} (p : A → bool) (l : list A) : Z := Z.of_nat (length (List.filter p l)).

Section Count.
Context {A : Type}.
Implicit Types (p q : A → bool) (l : list A).

Lemma count_nil p : count p [] = 0.
Proof. done. Qed.
Lemma count_cons p x l : count p (x :: l) = (if p x then 1 else 0) + count p l.
Proof. unfold count. simpl. destruct (p x); simpl; lia. Qed.
Lemma count_bounds p l : 0 <= count p l <= Z.of_nat (length l).
Proof. induction l as [|x l IH]; [done|]. rewrite count_cons. simpl length. destruct (p x); lia. Qed.
Lemma count_app p l k : count p (l ++ k) = count p l + count p k.
Proof. induction l as [|x l IH]; [done|]. simpl app. rewrite !count_cons. lia. Qed.
Lemma count_mono p q l :
  (∀ x, x ∈ l → p x = true → q x = true) → count p l <= count q l.
Proof.
  induction l as [|x l IH]; intros Hpq; [done|]. rewrite !count_cons.
  assert (count p l <= count q l) by (apply IH; set_solver).
  destruct (p x) eqn:E; [rewrite (Hpq x); [lia|set_solver|done]|destruct (q x); lia].
Qed.
Lemma count_ext p q l : (∀ x, x ∈ l → p x = q x) → count p l = count q l.
Proof. intros Hpq. apply Z.le_antisymm; apply count_mono; intros x Hx; rewrite (Hpq x Hx); done. Qed.
Lemma count_perm p l k : l ≡ₚ k → count p l = count p k.
Proof. induction 1; rewrite ?count_cons; lia. Qed.
Lemma count_negb p l : count p l + count (λ x, negb (p x)) l = Z.of_nat (length l).
Proof. induction l as [|x l IH]; [done|]. rewrite !count_cons. simpl length. destruct (p x); simpl; lia. Qed.
Lemma count_disj p q l :
  (∀ x, x ∈ l → p x = true → q x = true → False) →
  count p l + count q l <= Z.of_nat (length l).
Proof.
  induction l as [|x l IH]; intros Hpq; [done|]. rewrite !count_cons. simpl length.
  assert (count p l + count q l <= Z.of_nat (length l)) by (apply IH; set_solver).
  destruct (p x) eqn:E1, (q x) eqn:E2; try lia. exfalso. apply (Hpq x); set_solver.
Qed.
Lemma count_pos p l : 0 < count p l → ∃ x, x ∈ l ∧ p x = true.
Proof.
  induction l as [|x l IH]; [done|]. rewrite count_cons.
  destruct (p x) eqn:E; [set_solver|]. intros Hl. destruct IH as (y & ? & ?); [lia|set_solver].
Qed.
End Count.

Lemma count_map {A B} (f : A → B) p l : count p (map f l) = count (λ x, p (f x)) l.
Proof. induction l as [|x l IH]; [done|]. simpl map. by rewrite !count_cons, IH. Qed.
