(* ===== verification/UInt128.v ===== *)
(** * 128-bit arithmetic: [lib/util/uint128_t.cpp]

    The two-limb integers on which every amount computation of the ledger rests.
    Each operator is written on the limbs, as in the source, and related to
    arithmetic modulo [2^128]. *)
From stdpp Require Import base list.
From Stdlib Require Import ZArith Lia.
From S2P Require Import Prelude.

Record uint128_t := U128 { UPPER : Z; LOWER : Z }.

(** The number that the limbs represent, and the invariant of the limbs. *)
Definition val (x : uint128_t) : Z := UPPER x * 2 ^ 64 + LOWER x.
Definition limbs (x : uint128_t) : Prop := is_u64 (UPPER x) ∧ is_u64 (LOWER x).

(** The constructor from a machine integer: [LOWER = rhs]. *)
Definition of_u64 (x : Z) : uint128_t := U128 0 (u64 x).
Definition uint128_0 : uint128_t := of_u64 0.
Definition uint128_1 : uint128_t := of_u64 1.
Definition uint128_64 : uint128_t := of_u64 64.
Definition uint128_128 : uint128_t := of_u64 128.

Definition b2z (b : bool) : Z := if b then 1 else 0.

(** The conversion operators truncate the low limb. *)
Definition to_bool (x : uint128_t) : bool := negb (Z.lor (UPPER x) (LOWER x) =? 0).
Definition to_uint8 (x : uint128_t) : Z := u8 (LOWER x).
Definition to_uint32 (x : uint128_t) : Z := u32 (LOWER x).
Definition to_uint64 (x : uint128_t) : Z := LOWER x.

Definition u128_and (x y : uint128_t) : uint128_t :=
  U128 (Z.land (UPPER x) (UPPER y)) (Z.land (LOWER x) (LOWER y)).
Definition u128_or (x y : uint128_t) : uint128_t :=
  U128 (Z.lor (UPPER x) (UPPER y)) (Z.lor (LOWER x) (LOWER y)).
Definition u128_xor (x y : uint128_t) : uint128_t :=
  U128 (Z.lxor (UPPER x) (UPPER y)) (Z.lxor (LOWER x) (LOWER y)).
Definition u128_not (x : uint128_t) : uint128_t :=
  U128 (u64 (Z.lnot (UPPER x))) (u64 (Z.lnot (LOWER x))).

(** Shifts of a 64-bit word by less than 64. *)
Definition shl64 (x n : Z) : Z := u64 (Z.shiftl x n).
Definition shr64 (x n : Z) : Z := Z.shiftr x n.

Definition u128_shl (x rhs : uint128_t) : uint128_t :=
  let shift := LOWER rhs in
  if negb (UPPER rhs =? 0) || (128 <=? shift) then uint128_0
  else if shift =? 64 then U128 (LOWER x) 0
  else if shift =? 0 then x
  else if shift <? 64
       then U128 (u64 (shl64 (UPPER x) shift + shr64 (LOWER x) (64 - shift))) (shl64 (LOWER x) shift)
  else if (shift <? 128) && (64 <? shift) then U128 (shl64 (LOWER x) (shift - 64)) 0
  else uint128_0.

Definition u128_shr (x rhs : uint128_t) : uint128_t :=
  let shift := LOWER rhs in
  if negb (UPPER rhs =? 0) || (128 <=? shift) then uint128_0
  else if shift =? 64 then U128 0 (UPPER x)
  else if shift =? 0 then x
  else if shift <? 64
       then U128 (shr64 (UPPER x) shift) (u64 (shl64 (UPPER x) (64 - shift) + shr64 (LOWER x) shift))
  else if (shift <? 128) && (64 <? shift) then U128 0 (shr64 (UPPER x) (shift - 64))
  else uint128_0.

Definition u128_eqb (x y : uint128_t) : bool := (UPPER x =? UPPER y) && (LOWER x =? LOWER y).
Definition u128_gtb (x y : uint128_t) : bool :=
  if UPPER x =? UPPER y then LOWER y <? LOWER x else UPPER y <? UPPER x.
Definition u128_ltb (x y : uint128_t) : bool :=
  if UPPER x =? UPPER y then LOWER x <? LOWER y else UPPER x <? UPPER y.
Definition u128_geb (x y : uint128_t) : bool := u128_gtb x y || u128_eqb x y.
Definition u128_leb (x y : uint128_t) : bool := u128_ltb x y || u128_eqb x y.

(** [operator<=] against a 64-bit integer. *)
Definition u128_leb_u64 (x : uint128_t) (y : Z) : bool :=
  (if UPPER x =? 0 then LOWER x <? u64 y else false) || ((UPPER x =? 0) && (LOWER x =? u64 y)).

Definition u128_add (x y : uint128_t) : uint128_t :=
  U128 (u64 (UPPER x + UPPER y + b2z (u64 (LOWER x + LOWER y) <? LOWER x))) (u64 (LOWER x + LOWER y)).
Definition u128_sub (x y : uint128_t) : uint128_t :=
  U128 (u64 (UPPER x - UPPER y - b2z (LOWER x <? u64 (LOWER x - LOWER y)))) (u64 (LOWER x - LOWER y)).

(** [operator-] with a 64-bit right-hand side. *)
Definition u128_sub_u64 (x : uint128_t) (y : Z) : uint128_t :=
  U128 (u64 (UPPER x - b2z (LOWER x <? u64 (LOWER x - y)))) (u64 (LOWER x - y)).

(** [operator*]: the schoolbook product of the 32-bit halves. *)
Definition lo32 (x : Z) : Z := Z.land x 4294967295.
Definition hi32 (x : Z) : Z := shr64 x 32.

Definition u128_mul (x y : uint128_t) : uint128_t :=
  let top0 := hi32 (UPPER x) in let top1 := lo32 (UPPER x) in
  let top2 := hi32 (LOWER x) in let top3 := lo32 (LOWER x) in
  let bottom0 := hi32 (UPPER y) in let bottom1 := lo32 (UPPER y) in
  let bottom2 := hi32 (LOWER y) in let bottom3 := lo32 (LOWER y) in
  let p00 := u64 (top3 * bottom0) in let p01 := u64 (top3 * bottom1) in
  let p02 := u64 (top3 * bottom2) in let p03 := u64 (top3 * bottom3) in
  let p11 := u64 (top2 * bottom1) in let p12 := u64 (top2 * bottom2) in
  let p13 := u64 (top2 * bottom3) in
  let p22 := u64 (top1 * bottom2) in let p23 := u64 (top1 * bottom3) in
  let p33 := u64 (top0 * bottom3) in
  let fourth32 := lo32 p03 in
  let third32 := u64 (lo32 p02 + hi32 p03) in
  let second32 := u64 (lo32 p01 + hi32 p02) in
  let first32 := u64 (lo32 p00 + hi32 p01) in
  let third32 := u64 (third32 + lo32 p13) in
  let second32 := u64 (second32 + u64 (lo32 p12 + hi32 p13)) in
  let first32 := u64 (first32 + u64 (lo32 p11 + hi32 p12)) in
  let second32 := u64 (second32 + lo32 p23) in
  let first32 := u64 (first32 + u64 (lo32 p22 + hi32 p23)) in
  let first32 := u64 (first32 + lo32 p33) in
  u128_add (u128_add (u128_add (U128 (shl64 first32 32) 0)
                               (U128 (shr64 third32 32) (shl64 third32 32)))
                     (U128 second32 0))
           (of_u64 fourth32).

(** [bits]: the loops shift the limb right until it is zero; a limb has at most
    64 bits. *)
Fixpoint countBits (fuel : nat) (w out : Z) : Z :=
  match fuel with
  | O => out
  | S fuel => if w =? 0 then out else countBits fuel (shr64 w 1) (u8 (out + 1))
  end.
Definition u128_bits (x : uint128_t) : Z :=
  if negb (UPPER x =? 0) then countBits 64 (UPPER x) 64 else countBits 64 (LOWER x) 0.

(** The shift-and-subtract loop of [divmod]; the divisor is shifted right at
    every turn, so 128 turns are enough. *)
Fixpoint divmodLoop (fuel : nat) (rhs q r copyd adder : uint128_t) : option (uint128_t * uint128_t) :=
  match fuel with
  | O => None
  | S fuel =>
    if u128_geb r rhs then
      let '(q, r) := if u128_geb r copyd then (u128_or q adder, u128_sub r copyd) else (q, r) in
      divmodLoop fuel rhs q r (u128_shr copyd uint128_1) (u128_shr adder uint128_1)
    else Some (q, r)
  end.

(** [None] is the exception "division or modulus by 0" (or, before
    [divmod_correct] excludes it, exhausted fuel). *)
Definition u128_divmod (lhs rhs : uint128_t) : option (uint128_t * uint128_t) :=
  if u128_eqb rhs uint128_0 then None
  else if u128_eqb rhs uint128_1 then Some (lhs, uint128_0)
  else if u128_eqb lhs rhs then Some (uint128_1, uint128_0)
  else if u128_eqb lhs uint128_0 || u128_ltb lhs rhs then Some (uint128_0, lhs)
  else
    let shift := of_u64 (u128_bits lhs - u128_bits rhs) in
    let copyd := u128_shl rhs shift in
    let adder := u128_shl uint128_1 shift in
    let '(copyd, adder) :=
      if u128_gtb copyd lhs then (u128_shr copyd uint128_1, u128_shr adder uint128_1)
      else (copyd, adder) in
    divmodLoop 129 rhs uint128_0 lhs copyd adder.

Definition u128_div (x y : uint128_t) : option uint128_t := fst <$> u128_divmod x y.
Definition u128_mod (x y : uint128_t) : option uint128_t :=
  (λ q, u128_sub x (u128_mul y q)) <$> u128_div x y.

(** ** The representation *)

(** Arithmetic on limbs: constants are computed and every [mod] is replaced by
    its quotient and remainder. *)
Ltac limb_consts :=
  unfold u64, wrap, is_u64, UINT64_MAX in *;
  change (2 ^ 32) with 4294967296 in *;
  change (2 ^ 64) with 18446744073709551616 in *;
  change (2 ^ 128) with 340282366920938463463374607431768211456 in *.
Ltac limb_lia := limb_consts; Z.div_mod_to_equations; lia.

Lemma val_range x : limbs x → 0 <= val x < 2 ^ 128.
Proof. unfold limbs, val. limb_consts. lia. Qed.

Lemma val_inj x y : limbs x → limbs y → val x = val y → x = y.
Proof.
  destruct x as [u l], y as [u' l']. unfold limbs, val. simpl. limb_consts. intros.
  assert (u = u' ∧ l = l') as [-> ->] by lia. done.
Qed.

Lemma limbs_of_u64 x : limbs (of_u64 x).
Proof. split; [split; simpl; unfold UINT64_MAX; lia|apply u64_range]. Qed.
Lemma limbs_0 : limbs uint128_0.
Proof. apply limbs_of_u64. Qed.
Lemma limbs_1 : limbs uint128_1.
Proof. apply limbs_of_u64. Qed.
Lemma val_of_u64 x : is_u64 x → val (of_u64 x) = x.
Proof. intros Hx. unfold val, of_u64. simpl. rewrite u64_small; [lia|done]. Qed.

(** Facts about limbs and ranges that the arithmetic proofs discharge. *)
Create HintDb u128.

Lemma u128_add_limbs x y : limbs (u128_add x y).
Proof. split; apply u64_range. Qed.
Lemma u128_sub_limbs x y : limbs (u128_sub x y).
Proof. split; apply u64_range. Qed.
Lemma u128_sub_u64_limbs x y : limbs (u128_sub_u64 x y).
Proof. split; apply u64_range. Qed.
Lemma u128_mul_limbs x y : limbs (u128_mul x y).
Proof. apply u128_add_limbs. Qed.
#[global] Hint Resolve limbs_of_u64 limbs_0 limbs_1 u128_add_limbs u128_sub_limbs u128_sub_u64_limbs
  u128_mul_limbs val_range : u128.

(** ** Comparisons *)

Lemma u128_eqb_spec x y : limbs x → limbs y → u128_eqb x y = (val x =? val y).
Proof.
  destruct x as [u l], y as [u' l']. unfold limbs, val, u128_eqb. simpl. limb_consts. intros.
  destruct (Z.eqb_spec u u'), (Z.eqb_spec l l'); simpl; lia.
Qed.
Lemma u128_ltb_spec x y : limbs x → limbs y → u128_ltb x y = (val x <? val y).
Proof.
  destruct x as [u l], y as [u' l']. unfold limbs, val, u128_ltb. simpl. limb_consts. intros.
  destruct (Z.eqb_spec u u'); lia.
Qed.
Lemma u128_gtb_spec x y : limbs x → limbs y → u128_gtb x y = (val y <? val x).
Proof.
  destruct x as [u l], y as [u' l']. unfold limbs, val, u128_gtb. simpl. limb_consts. intros.
  destruct (Z.eqb_spec u u'); lia.
Qed.
Lemma u128_geb_spec x y : limbs x → limbs y → u128_geb x y = (val y <=? val x).
Proof. intros. unfold u128_geb. rewrite u128_gtb_spec, u128_eqb_spec by done. lia. Qed.
Lemma u128_leb_spec x y : limbs x → limbs y → u128_leb x y = (val x <=? val y).
Proof. intros. unfold u128_leb. rewrite u128_ltb_spec, u128_eqb_spec by done. lia. Qed.
Lemma u128_leb_u64_spec x y : limbs x → is_u64 y → u128_leb_u64 x y = (val x <=? y).
Proof.
  destruct x as [u l]. intros Hx Hy. unfold u128_leb_u64. rewrite u64_small by done.
  unfold limbs, val in *. simpl in *. limb_consts. destruct (Z.eqb_spec u 0); lia.
Qed.

(** ** Addition and subtraction *)

Lemma u128_add_spec x y : limbs x → limbs y → val (u128_add x y) = (val x + val y) mod 2 ^ 128.
Proof.
  destruct x as [u l], y as [u' l']. unfold limbs, val, u128_add. simpl. limb_consts. intros.
  destruct (Z.ltb_spec ((l + l') mod 18446744073709551616) l); simpl; Z.div_mod_to_equations; lia.
Qed.
Lemma u128_sub_spec x y : limbs x → limbs y → val (u128_sub x y) = (val x - val y) mod 2 ^ 128.
Proof.
  destruct x as [u l], y as [u' l']. unfold limbs, val, u128_sub. simpl. limb_consts. intros.
  destruct (Z.ltb_spec l ((l - l') mod 18446744073709551616)); simpl; Z.div_mod_to_equations; lia.
Qed.
Lemma u128_sub_u64_spec x y :
  limbs x → is_u64 y → val (u128_sub_u64 x y) = (val x - y) mod 2 ^ 128.
Proof.
  destruct x as [u l]. unfold limbs, val, u128_sub_u64. simpl. limb_consts. intros.
  destruct (Z.ltb_spec l ((l - y) mod 18446744073709551616)); simpl; Z.div_mod_to_equations; lia.
Qed.

(** ** Multiplication *)

Lemma lo32_mod x : lo32 x = x mod 2 ^ 32.
Proof. unfold lo32. change 4294967295 with (Z.ones 32). by rewrite Z.land_ones by lia. Qed.
Lemma hi32_div x : hi32 x = x / 2 ^ 32.
Proof. unfold hi32, shr64. by rewrite Z.shiftr_div_pow2 by lia. Qed.
Lemma shl64_mul x n : 0 <= n → shl64 x n = (x * 2 ^ n) mod 2 ^ 64.
Proof. intros. unfold shl64, u64, wrap. by rewrite Z.shiftl_mul_pow2. Qed.
Lemma shr64_div x n : 0 <= n → shr64 x n = x / 2 ^ n.
Proof. intros. unfold shr64. by rewrite Z.shiftr_div_pow2. Qed.

(** A product of two 32-bit halves fits in 64 bits. *)
Lemma half_product a b : 0 <= a < 2 ^ 32 → 0 <= b < 2 ^ 32 → u64 (a * b) = a * b ∧ 0 <= a * b < 2 ^ 64.
Proof. intros Ha Hb. assert (0 <= a * b < 2 ^ 64) by nia. split; [|done]. apply Z.mod_small. done. Qed.

Lemma halves x : is_u64 x →
  ∃ h l, hi32 x = h ∧ lo32 x = l ∧ x = h * 2 ^ 32 + l ∧ 0 <= h < 2 ^ 32 ∧ 0 <= l < 2 ^ 32.
Proof.
  intros. exists (x / 2 ^ 32), (x mod 2 ^ 32). rewrite hi32_div, lo32_mod. split_and!; limb_lia.
Qed.

(** The carries of the schoolbook product: with [p_ij = h_ij * 2^32 + l_ij], the
    four columns add up to the product modulo [2^128]. *)
Lemma columns a3 a2 a1 a0 b3 b2 b1 b0 h00 l00 h01 l01 h02 l02 l03 h10 l10 h11 l11 l12 h20 l20 l21 l30
    h03 h12 h21 h30 k :
  a0 * b0 = h00 * 2 ^ 32 + l00 → a0 * b1 = h01 * 2 ^ 32 + l01 → a0 * b2 = h02 * 2 ^ 32 + l02 →
  a0 * b3 = h03 * 2 ^ 32 + l03 → a1 * b0 = h10 * 2 ^ 32 + l10 → a1 * b1 = h11 * 2 ^ 32 + l11 →
  a1 * b2 = h12 * 2 ^ 32 + l12 → a2 * b0 = h20 * 2 ^ 32 + l20 → a2 * b1 = h21 * 2 ^ 32 + l21 →
  a3 * b0 = h30 * 2 ^ 32 + l30 →
  ((l03 + h02 + (l12 + h11) + (l21 + h20) + l30) * 2 ^ 96 - k * 2 ^ 128
   + (l01 + h00 + l10) * 2 ^ 32 + (l02 + h01 + (l11 + h10) + l20) * 2 ^ 64 + l00) mod 2 ^ 128 =
  (((a3 * 2 ^ 32 + a2) * 2 ^ 64 + (a1 * 2 ^ 32 + a0)) *
   ((b3 * 2 ^ 32 + b2) * 2 ^ 64 + (b1 * 2 ^ 32 + b0))) mod 2 ^ 128.
Proof.
  intros. set (K := h03 + h12 + h21 + h30 + k + (a1 * b3 + a2 * b2 + a3 * b1)
    + (a2 * b3 + a3 * b2) * 2 ^ 32 + a3 * b3 * 2 ^ 64).
  symmetry. etrans; [|apply (Z.mod_add _ K); lia]. f_equal. subst K.
  change (2 ^ 96) with (2 ^ 32 * 2 ^ 32 * 2 ^ 32). change (2 ^ 64) with (2 ^ 32 * 2 ^ 32).
  change (2 ^ 128) with (2 ^ 32 * 2 ^ 32 * 2 ^ 32 * 2 ^ 32). set (B := 2 ^ 32) in *.
  replace (((a3 * B + a2) * (B * B) + (a1 * B + a0)) * ((b3 * B + b2) * (B * B) + (b1 * B + b0)))
    with (a0 * b0 + (a0 * b1 + a1 * b0) * B + (a0 * b2 + a1 * b1 + a2 * b0) * (B * B)
          + (a0 * b3 + a1 * b2 + a2 * b1 + a3 * b0) * (B * B * B)
          + (a1 * b3 + a2 * b2 + a3 * b1) * (B * B * B * B)
          + (a2 * b3 + a3 * b2) * (B * B * B * B * B) + a3 * b3 * (B * B * B * B * B * B)) by ring.
  repeat match goal with H : ?a * ?b = _ |- _ => rewrite H; clear H end. ring.
Qed.

Lemma u128_add3_spec a b c d :
  limbs a → limbs b → limbs c → limbs d →
  val (u128_add (u128_add (u128_add a b) c) d) = (val a + val b + val c + val d) mod 2 ^ 128.
Proof.
  intros. rewrite !u128_add_spec by auto with u128.
  by rewrite Zplus_mod_idemp_l, <- Z.add_assoc, Zplus_mod_idemp_l, Z.add_assoc.
Qed.

Lemma u128_mul_spec x y : limbs x → limbs y → val (u128_mul x y) = (val x * val y) mod 2 ^ 128.
Proof.
  destruct x as [xu xl], y as [yu yl]. intros [Hxu Hxl] [Hyu Hyl]. unfold u128_mul. cbn [UPPER LOWER] in *.
  destruct (halves xu) as (a3 & a2 & -> & -> & Exu & ? & ?); [done|].
  destruct (halves xl) as (a1 & a0 & -> & -> & Exl & ? & ?); [done|].
  destruct (halves yu) as (b3 & b2 & -> & -> & Eyu & ? & ?); [done|].
  destruct (halves yl) as (b1 & b0 & -> & -> & Eyl & ? & ?); [done|].
  assert (∀ a b, 0 <= a < 2 ^ 32 → 0 <= b < 2 ^ 32 →
    ∃ h l, hi32 (u64 (a * b)) = h ∧ lo32 (u64 (a * b)) = l ∧ a * b = h * 2 ^ 32 + l ∧
           0 <= h < 2 ^ 32 ∧ 0 <= l < 2 ^ 32) as HP.
  { intros a b Ha Hb. destruct (half_product a b Ha Hb) as [-> ?]. apply halves.
    unfold is_u64, UINT64_MAX. lia. }
  destruct (HP a0 b0) as (h00 & l00 & -> & -> & E00 & ? & ?); [done..|].
  destruct (HP a0 b1) as (h01 & l01 & -> & -> & E01 & ? & ?); [done..|].
  destruct (HP a0 b2) as (h02 & l02 & -> & -> & E02 & ? & ?); [done..|].
  destruct (HP a0 b3) as (h03 & l03 & _ & -> & E03 & ? & ?); [done..|].
  destruct (HP a1 b0) as (h10 & l10 & -> & -> & E10 & ? & ?); [done..|].
  destruct (HP a1 b1) as (h11 & l11 & -> & -> & E11 & ? & ?); [done..|].
  destruct (HP a1 b2) as (h12 & l12 & _ & -> & E12 & ? & ?); [done..|].
  destruct (HP a2 b0) as (h20 & l20 & -> & -> & E20 & ? & ?); [done..|].
  destruct (HP a2 b1) as (h21 & l21 & _ & -> & E21 & ? & ?); [done..|].
  destruct (HP a3 b0) as (h30 & l30 & _ & -> & E30 & ? & ?); [done..|]. clear HP.
  rewrite (u64_small (l12 + h11)), (u64_small (l21 + h20)), (u64_small (l11 + h10)),
    (u64_small (l01 + h00)), (u64_small (l02 + h01)), (u64_small (l03 + h02))
    by (unfold is_u64, UINT64_MAX; lia).
  rewrite (u64_small (l01 + h00 + l10)), (u64_small (l02 + h01 + (l11 + h10))),
    (u64_small (l03 + h02 + (l12 + h11))) by (unfold is_u64, UINT64_MAX; lia).
  rewrite (u64_small (l02 + h01 + (l11 + h10) + l20)),
    (u64_small (l03 + h02 + (l12 + h11) + (l21 + h20))) by (unfold is_u64, UINT64_MAX; lia).
  rewrite (u64_small (_ + l30)) by (unfold is_u64, UINT64_MAX; lia).
  set (f := l03 + h02 + (l12 + h11) + (l21 + h20) + l30). set (t := l01 + h00 + l10).
  rewrite u128_add3_spec; [| | | |apply limbs_of_u64]; try (split; cbn [UPPER LOWER];
    rewrite ?shr64_div by lia; try apply u64_range; limb_lia).
  rewrite val_of_u64 by (unfold is_u64, UINT64_MAX; lia). unfold val. cbn [UPPER LOWER].
  rewrite (shl64_mul f), (shl64_mul t), shr64_div by lia.
  subst xu xl yu yl. rewrite <- (columns a3 a2 a1 a0 b3 b2 b1 b0 h00 l00 h01 l01 h02 l02 l03 h10 l10 h11 l11 l12 h20
    l20 l21 l30 h03 h12 h21 h30 (f * 2 ^ 32 / 2 ^ 64)) by done.
  fold f t. f_equal. limb_consts. change (2 ^ 96) with 79228162514264337593543950336.
  Z.div_mod_to_equations. lia.
Qed.

(** ** Shifts *)

Lemma pow2_split s : 0 <= s <= 64 → 2 ^ s * 2 ^ (64 - s) = 2 ^ 64.
Proof. intros. rewrite <- Z.pow_add_r by lia. f_equal. lia. Qed.

Lemma u128_shr_spec x s :
  limbs x → 0 <= s < 128 → limbs (u128_shr x (of_u64 s)) ∧ val (u128_shr x (of_u64 s)) = val x / 2 ^ s.
Proof.
  destruct x as [u l]. intros [Hu Hl] Hs. cbn [UPPER LOWER] in *.
  unfold u128_shr, of_u64. cbn [UPPER LOWER]. rewrite u64_small by (unfold is_u64, UINT64_MAX; lia).
  rewrite (proj2 (Z.leb_gt 128 s)) by lia. cbn [negb Z.eqb orb]. unfold limbs, val.
  destruct (Z.eqb_spec s 64) as [->|]; cbn [UPPER LOWER]; [split; limb_lia|].
  destruct (Z.eqb_spec s 0) as [->|]; cbn [UPPER LOWER]; [rewrite Z.pow_0_r, Z.div_1_r; done|].
  destruct (Z.ltb_spec s 64); cbn [UPPER LOWER].
  - pose proof (pow2_split s ltac:(lia)) as HPQ. rewrite !shr64_div, shl64_mul by lia.
    assert (0 < 2 ^ s ∧ 0 < 2 ^ (64 - s)) as [HP HQ] by (split; apply Z.pow_pos_nonneg; lia).
    set (P := 2 ^ s) in *. set (Q := 2 ^ (64 - s)) in *.
    pose proof (Z.div_mod u P ltac:(lia)) as Eu. pose proof (Z.mod_pos_bound u P HP).
    pose proof (Z.div_mod l P ltac:(lia)) as El. pose proof (Z.mod_pos_bound l P HP).
    set (a := u / P) in *. set (b := u mod P) in *. set (c := l / P) in *. set (d := l mod P) in *.
    assert (0 <= a <= u) by (unfold is_u64 in Hu; nia).
    assert (0 <= c < Q) by (unfold is_u64, UINT64_MAX in Hl; change (2 ^ 64) with (UINT64_MAX + 1) in HPQ; unfold UINT64_MAX in HPQ; nia).
    assert ((u * Q) mod 2 ^ 64 = b * Q) as ->.
    { rewrite Eu. replace ((P * a + b) * Q) with (b * Q + a * 2 ^ 64) by (rewrite <- HPQ; ring).
      rewrite Z.mod_add by lia. apply Z.mod_small. nia. }
    assert (is_u64 (b * Q + c)) as Hbc.
    { unfold is_u64. change UINT64_MAX with (2 ^ 64 - 1). rewrite <- HPQ. nia. }
    rewrite (u64_small _ Hbc). split; [split; [unfold is_u64 in *; lia|done]|].
    apply Z.div_unique with (r := d); [lia|]. rewrite Eu, El at 1. rewrite <- HPQ. ring.
  - rewrite (proj2 (Z.ltb_lt s 128)), (proj2 (Z.ltb_lt 64 s)) by lia. cbn [andb UPPER LOWER].
    rewrite shr64_div by lia. assert (0 < 2 ^ (s - 64)) by (apply Z.pow_pos_nonneg; lia).
    pose proof (Z.div_pos u (2 ^ (s - 64))). pose proof (Z.div_le_upper_bound u (2 ^ (s - 64)) u).
    unfold is_u64 in *. split; [split; nia|]. replace s with (64 + (s - 64)) at 2 by lia.
    rewrite Z.pow_add_r, <- Z.div_div, Z.mul_0_l, Z.add_0_l by lia. f_equal.
    rewrite Z.div_add_l, Z.div_small; unfold UINT64_MAX in *; lia.
Qed.

Lemma u128_shl_spec x s :
  limbs x → 0 <= s < 128 →
  limbs (u128_shl x (of_u64 s)) ∧ val (u128_shl x (of_u64 s)) = (val x * 2 ^ s) mod 2 ^ 128.
Proof.
  destruct x as [u l]. intros [Hu Hl] Hs. cbn [UPPER LOWER] in *.
  unfold u128_shl, of_u64. cbn [UPPER LOWER]. rewrite u64_small by (unfold is_u64, UINT64_MAX; lia).
  rewrite (proj2 (Z.leb_gt 128 s)) by lia. cbn [negb Z.eqb orb]. unfold limbs, val.
  destruct (Z.eqb_spec s 64) as [->|]; cbn [UPPER LOWER]; [split; limb_lia|].
  destruct (Z.eqb_spec s 0) as [->|]; cbn [UPPER LOWER]; [rewrite Z.pow_0_r, Z.mul_1_r; split; limb_lia|].
  destruct (Z.ltb_spec s 64); cbn [UPPER LOWER].
  - pose proof (pow2_split s ltac:(lia)) as HPQ. rewrite !shr64_div, !shl64_mul by lia.
    assert (0 < 2 ^ s ∧ 0 < 2 ^ (64 - s)) as [HP HQ] by (split; apply Z.pow_pos_nonneg; lia).
    set (P := 2 ^ s) in *. set (Q := 2 ^ (64 - s)) in *.
    pose proof (Z.div_mod u Q ltac:(lia)) as Eu. pose proof (Z.mod_pos_bound u Q HQ).
    pose proof (Z.div_mod l Q ltac:(lia)) as El. pose proof (Z.mod_pos_bound l Q HQ).
    set (a := u / Q) in *. set (b := u mod Q) in *. set (c := l / Q) in *. set (d := l mod Q) in *.
    assert (0 <= c < P) by (unfold is_u64 in Hl; change UINT64_MAX with (2 ^ 64 - 1) in Hl; rewrite <- HPQ in Hl; nia).
    assert (∀ y z, (Q * y + z) * P = z * P + y * 2 ^ 64) as HR by (intros; rewrite <- HPQ; ring).
    assert ((u * P) mod 2 ^ 64 = b * P) as ->
      by (rewrite Eu, HR, Z.mod_add by lia; apply Z.mod_small; nia).
    assert ((l * P) mod 2 ^ 64 = d * P) as ->
      by (rewrite El, HR, Z.mod_add by lia; apply Z.mod_small; nia).
    assert (is_u64 (b * P + c)) as Hbc
      by (unfold is_u64; change UINT64_MAX with (2 ^ 64 - 1); rewrite <- HPQ; nia).
    assert (is_u64 (d * P)) as Hdp
      by (unfold is_u64; change UINT64_MAX with (2 ^ 64 - 1); rewrite <- HPQ; nia).
    rewrite (u64_small _ Hbc). split; [done|]. symmetry.
    replace ((u * 2 ^ 64 + l) * P) with ((b * P + c) * 2 ^ 64 + d * P + a * 2 ^ 128)
      by (rewrite Eu, El; change (2 ^ 128) with (2 ^ 64 * 2 ^ 64); rewrite <- HPQ; ring).
    rewrite Z.mod_add by lia. apply Z.mod_small. unfold is_u64, UINT64_MAX in *. lia.
  - rewrite (proj2 (Z.ltb_lt s 128)), (proj2 (Z.ltb_lt 64 s)) by lia. cbn [andb UPPER LOWER].
    split; [split; [apply u64_range|unfold is_u64, UINT64_MAX; lia]|]. rewrite shl64_mul by lia.
    replace (2 ^ s) with (2 ^ (s - 64) * 2 ^ 64) by (rewrite <- Z.pow_add_r by lia; f_equal; lia).
    rewrite Z.add_0_r. set (P := 2 ^ (s - 64)). change (2 ^ 128) with (2 ^ 64 * 2 ^ 64).
    rewrite <- Z.mul_mod_distr_r by lia.
    replace ((u * 2 ^ 64 + l) * (P * 2 ^ 64)) with (l * P * 2 ^ 64 + u * P * (2 ^ 64 * 2 ^ 64)) by ring.
    by rewrite Z.mod_add by lia.
Qed.

(** ** Bits *)

Lemma val_testbit x n : limbs x → 0 <= n →
  Z.testbit (val x) n = if n <? 64 then Z.testbit (LOWER x) n else Z.testbit (UPPER x) (n - 64).
Proof.
  destruct x as [u l]. intros [Hu Hl] Hn. unfold val. cbn [UPPER LOWER] in *.
  destruct (Z.ltb_spec n 64).
  - rewrite <- (Z.mod_pow2_bits_low _ 64) by lia. by rewrite Z.add_comm, Z.mod_add, Z.mod_small by limb_lia.
  - replace n with ((n - 64) + 64) at 1 by lia. rewrite <- Z.div_pow2_bits by lia. f_equal.
    rewrite Z.div_add_l, Z.div_small by limb_lia. lia.
Qed.

Lemma lor_u64 a b : is_u64 a → is_u64 b → is_u64 (Z.lor a b).
Proof.
  unfold is_u64. change UINT64_MAX with (2 ^ 64 - 1). intros [Ha Ha'] [Hb Hb'].
  assert (0 <= Z.lor a b) by (by apply Z.lor_nonneg). split; [done|].
  destruct (decide (Z.lor a b = 0)) as [->|]; [lia|].
  enough (Z.lor a b < 2 ^ 64) by lia. apply Z.log2_lt_pow2; [lia|]. rewrite Z.log2_lor by done.
  assert (∀ c, c <= 2 ^ 64 - 1 → Z.log2 c < 64); [|apply Z.max_lub_lt; auto].
  intros c Hc. destruct (decide (0 < c)); [apply Z.log2_lt_pow2; lia|rewrite Z.log2_nonpos; lia].
Qed.

Lemma u128_or_limbs x y : limbs x → limbs y → limbs (u128_or x y).
Proof. intros [] []. split; by apply lor_u64. Qed.
#[global] Hint Resolve u128_or_limbs : u128.

Lemma u128_or_spec x y : limbs x → limbs y → val (u128_or x y) = Z.lor (val x) (val y).
Proof.
  intros. apply Z.bits_inj'. intros n Hn. rewrite Z.lor_spec, !val_testbit by auto with u128.
  destruct (n <? 64); cbn [u128_or UPPER LOWER]; by rewrite Z.lor_spec.
Qed.

(** Setting the bit below every bit of a number adds it. *)
Lemma lor_next_bit k s : 0 <= s → Z.lor (k * 2 ^ (s + 1)) (2 ^ s) = k * 2 ^ (s + 1) + 2 ^ s.
Proof.
  intros Hs. symmetry. rewrite <- Z.lxor_lor, <- Z.add_nocarry_lxor; [done| |].
  all: apply Z.bits_inj'; intros n Hn; rewrite Z.land_spec, Z.pow2_bits_eqb, Z.bits_0 by lia;
    destruct (Z.eqb_spec s n) as [<-|]; [|by rewrite andb_false_r];
    rewrite Z.mul_pow2_bits_low by lia; done.
Qed.

Lemma countBits_spec fuel w out :
  0 <= w < 2 ^ Z.of_nat fuel → 0 <= out → out + Z.of_nat fuel < 256 →
  countBits fuel w out = out + (if w =? 0 then 0 else Z.log2 w + 1).
Proof.
  revert w out. induction fuel as [|fuel IH]; intros w out Hw Ho Hf.
  - simpl in *. assert (w = 0) as -> by lia. simpl. lia.
  - rewrite Nat2Z.inj_succ, Z.pow_succ_r in Hw by lia. cbn [countBits].
    destruct (Z.eqb_spec w 0) as [->|]; [lia|]. unfold u8, wrap.
    rewrite (Z.mod_small (out + 1)) by lia. rewrite shr64_div by lia. change (2 ^ 1) with 2.
    rewrite IH by (Z.div_mod_to_equations; lia).
    destruct (Z.eqb_spec (w / 2) 0).
    + assert (w = 1) as -> by (Z.div_mod_to_equations; lia). simpl. lia.
    + enough (Z.log2 w = Z.succ (Z.log2 (w / 2))) by lia.
      destruct (decide (w mod 2 = 0)).
      * replace w with (2 * (w / 2)) at 1 by (Z.div_mod_to_equations; lia).
        rewrite Z.log2_double; Z.div_mod_to_equations; lia.
      * replace w with (2 * (w / 2) + 1) at 1 by (Z.div_mod_to_equations; lia).
        rewrite Z.log2_succ_double; Z.div_mod_to_equations; lia.
Qed.

Lemma u128_bits_spec x :
  limbs x → u128_bits x = if val x =? 0 then 0 else Z.log2 (val x) + 1.
Proof.
  destruct x as [u l]. intros [Hu Hl]. unfold u128_bits, val. cbn [UPPER LOWER] in *.
  destruct (Z.eqb_spec u 0) as [->|]; cbn [negb]; rewrite countBits_spec by (simpl; limb_lia).
  - by rewrite Z.mul_0_l, !Z.add_0_l.
  - rewrite (proj2 (Z.eqb_neq u 0)), (proj2 (Z.eqb_neq (_ + l) 0)) by limb_lia.
    enough (Z.log2 (u * 2 ^ 64 + l) = Z.log2 u + 64) by lia.
    apply Z.log2_unique; [pose proof (Z.log2_nonneg u); lia|].
    destruct (Z.log2_spec u) as [H1 H2]; [limb_lia|]. pose proof (Z.log2_nonneg u).
    rewrite <- Z.add_succ_l, !Z.pow_add_r by lia. change UINT64_MAX with (2 ^ 64 - 1) in *.
    unfold is_u64 in *. change UINT64_MAX with (2 ^ 64 - 1) in *. nia.
Qed.

(** ** Division *)

(** Where the loop of [divmod] is, [s] being the current shift of the divisor. *)
Definition divInv (lhs rhs q r s : Z) : Prop :=
  lhs = q * rhs + r ∧ 0 <= r < rhs * 2 ^ (s + 1) ∧ (∃ k, 0 <= k ∧ q = k * 2 ^ (s + 1)).

Lemma divInv_step lhs rhs q r s :
  0 < rhs → 0 <= s → divInv lhs rhs q r s →
  divInv lhs rhs (if rhs * 2 ^ s <=? r then Z.lor q (2 ^ s) else q)
                 (if rhs * 2 ^ s <=? r then r - rhs * 2 ^ s else r) (s - 1).
Proof.
  intros Hr Hs (El & Hb & k & Hk & ->). unfold divInv. rewrite Z.sub_add, lor_next_bit by done.
  replace (2 ^ (s + 1)) with (2 * 2 ^ s) in * by (rewrite Z.pow_add_r by lia; lia).
  destruct (Z.leb_spec (rhs * 2 ^ s) r); split_and!; try nia.
  - exists (2 * k + 1). lia.
  - exists (2 * k). lia.
Qed.

Lemma divmodLoop_spec fuel rhs q r copyd adder lhs s :
  limbs rhs → limbs q → limbs r → limbs copyd → limbs adder → 0 < val rhs → lhs < 2 ^ 128 →
  divInv lhs (val rhs) (val q) (val r) s → (s < 0 → val r < val rhs) → -1 <= s < 128 →
  (0 <= s → val copyd = val rhs * 2 ^ s ∧ val adder = 2 ^ s) → s + 1 < Z.of_nat fuel →
  ∃ q' r', divmodLoop fuel rhs q r copyd adder = Some (q', r') ∧ limbs q' ∧ limbs r' ∧
    lhs = val q' * val rhs + val r' ∧ 0 <= val r' < val rhs.
Proof.
  intros Hlr. revert q r copyd adder s. induction fuel as [|fuel IH];
    intros q r copyd adder s Hlq Hl Hlc Hla Hr Hmax Hinv Hneg Hs Hcopy Hf; [lia|]. cbn [divmodLoop].
  rewrite u128_geb_spec by done. destruct (Z.leb_spec (val rhs) (val r)).
  2: { destruct Hinv as (? & ? & ?). exists q, r. split_and!; auto; lia. }
  assert (0 <= s) as Hs0 by (destruct (decide (0 <= s)); [done|lia]).
  destruct (Hcopy Hs0) as [Ec Ea]. pose proof (divInv_step _ _ _ _ _ Hr Hs0 Hinv) as Hstep.
  rewrite u128_geb_spec, Ec by done. fold uint128_1 in *.
  pose proof (u128_shr_spec copyd 1 Hlc) as [Hlc' Hc']; [lia|].
  pose proof (u128_shr_spec adder 1 Hla) as [Hla' Ha']; [lia|]. fold uint128_1 in *.
  assert (∀ c, 0 <= s - 1 → c * 2 ^ s / 2 ^ 1 = c * 2 ^ (s - 1)) as Hhalf.
  { intros c Hc. replace s with ((s - 1) + 1) at 1 by lia.
    rewrite Z.pow_add_r, Z.mul_assoc, Z.div_mul by lia. done. }
  assert (0 <= s - 1 → val (u128_shr copyd uint128_1) = val rhs * 2 ^ (s - 1) ∧
                       val (u128_shr adder uint128_1) = 2 ^ (s - 1)) as Hcopy'.
  { intros Hs1. rewrite Hc', Ha', Ec, Ea, Hhalf by done. split; [done|].
    pose proof (Hhalf 1 Hs1) as Hh. by rewrite !Z.mul_1_l in Hh. }
  assert (s - 1 < 0 → ∀ r0 q0, divInv lhs (val rhs) q0 r0 (s - 1) → r0 < val rhs) as Hneg'.
  { intros Hs1 r0 q0 (_ & Hb & _). assert (s = 0) as -> by lia. change (2 ^ (0 - 1 + 1)) with 1 in Hb. lia. }
  pose proof (val_range r Hl).
  destruct (Z.leb_spec (val rhs * 2 ^ s) (val r)).
  - assert (0 <= val rhs * 2 ^ s) by (apply Z.mul_nonneg_nonneg; lia).
    apply (IH _ _ _ _ (s - 1)); auto with u128; rewrite ?u128_or_spec, ?u128_sub_spec, ?Ec, ?Ea by done;
      rewrite ?Z.mod_small by lia; eauto; lia.
  - apply (IH _ _ _ _ (s - 1)); eauto; lia.
Qed.

Lemma log2_shift_bound x y :
  0 < y → y <= x → let s := Z.log2 x - Z.log2 y in
  y * 2 ^ s < 2 ^ (Z.log2 x + 1) ∧ x < y * 2 ^ (s + 1) ∧ 0 <= s.
Proof.
  intros Hy Hyx s. pose proof (Z.log2_le_mono y x Hyx). pose proof (Z.log2_nonneg y).
  destruct (Z.log2_spec x) as [Hx1 Hx2]; [lia|]. destruct (Z.log2_spec y) as [Hy1 Hy2]; [lia|].
  rewrite Z.pow_succ_r in Hx2, Hy2 by lia. assert (2 ^ Z.log2 x = 2 ^ Z.log2 y * 2 ^ s) as E.
  { rewrite <- Z.pow_add_r by lia. f_equal. lia. }
  assert (0 < 2 ^ s) by (apply Z.pow_pos_nonneg; lia).
  rewrite !Z.pow_add_r by lia. split_and!; [nia|nia|lia].
Qed.

Lemma divmod_correct lhs rhs :
  limbs lhs → limbs rhs → val rhs ≠ 0 →
  ∃ q r, u128_divmod lhs rhs = Some (q, r) ∧ limbs q ∧ limbs r ∧
    val q = val lhs / val rhs ∧ val r = val lhs mod val rhs.
Proof.
  intros Hl Hr Hr0. pose proof (val_range lhs Hl) as Bl. pose proof (val_range rhs Hr) as Br.
  enough (∃ q r, u128_divmod lhs rhs = Some (q, r) ∧ limbs q ∧ limbs r ∧
    val lhs = val q * val rhs + val r ∧ 0 <= val r < val rhs) as (q & r & E & ? & ? & El & ?).
  { exists q, r. split_and!; [done..| |].
    - apply Z.div_unique with (val r); lia.
    - apply Z.mod_unique with (val q); lia. }
  unfold u128_divmod. rewrite !u128_eqb_spec, u128_ltb_spec by auto with u128.
  change (val uint128_0) with 0. change (val uint128_1) with 1.
  rewrite (proj2 (Z.eqb_neq (val rhs) 0)) by done.
  destruct (Z.eqb_spec (val rhs) 1) as [E1|];
    [exists lhs, uint128_0; change (val uint128_0) with 0; split_and!; auto with u128; lia|].
  destruct (Z.eqb_spec (val lhs) (val rhs)) as [E2|]; [exists uint128_1, uint128_0;
    change (val uint128_0) with 0; change (val uint128_1) with 1; split_and!; auto with u128; lia|].
  destruct (_ || _) eqn:E3.
  { apply orb_true_iff in E3 as [E3|E3]; propify; exists uint128_0, lhs;
      change (val uint128_0) with 0; split_and!; auto with u128; lia. }
  propify. rewrite !u128_bits_spec, (proj2 (Z.eqb_neq (val lhs) 0)), (proj2 (Z.eqb_neq (val rhs) 0)) by done.
  replace (Z.log2 (val lhs) + 1 - (Z.log2 (val rhs) + 1)) with (Z.log2 (val lhs) - Z.log2 (val rhs)) by lia.
  destruct (log2_shift_bound (val lhs) (val rhs)) as (B1 & B2 & B3); [lia..|].
  set (s := Z.log2 (val lhs) - Z.log2 (val rhs)) in *.
  assert (Z.log2 (val lhs) < 128) as Hlog by (apply Z.log2_lt_pow2; lia).
  assert (s < 128) by (pose proof (Z.log2_nonneg (val rhs)); lia).
  assert (2 ^ (Z.log2 (val lhs) + 1) <= 2 ^ 128) by (apply Z.pow_le_mono_r; lia).
  assert (2 ^ s < 2 ^ 128) by (apply Z.pow_lt_mono_r; lia).
  destruct (u128_shl_spec rhs s) as [Lc Vc]; [done|lia|].
  destruct (u128_shl_spec uint128_1 s) as [La Va]; [auto with u128|lia|].
  rewrite Z.mod_small in Vc by nia. change (val uint128_1) with 1 in Va.
  rewrite Z.mul_1_l, Z.mod_small in Va by lia. rewrite u128_gtb_spec, Vc by done.
  assert (divInv (val lhs) (val rhs) (val uint128_0) (val lhs) s) as Hinv.
  { unfold divInv. change (val uint128_0) with 0. split_and!; [lia..|exists 0; lia]. }
  destruct (Z.ltb_spec (val lhs) (val rhs * 2 ^ s)) as [Hgt|Hle].
  - assert (1 <= s) by (destruct (decide (s = 0)) as [Es|]; [rewrite Es in Hgt; lia|lia]).
    pose proof (divInv_step (val lhs) (val rhs) _ _ _ ltac:(lia) B3 Hinv) as Hstep.
    rewrite (proj2 (Z.leb_gt _ _) Hgt) in Hstep.
    destruct (u128_shr_spec (u128_shl rhs (of_u64 s)) 1 Lc) as [Lc' Vc']; [lia|].
    destruct (u128_shr_spec (u128_shl uint128_1 (of_u64 s)) 1 La) as [La' Va']; [lia|].
    apply (divmodLoop_spec _ _ _ _ _ _ _ (s - 1)); auto with u128; try lia.
    intros _. change (of_u64 1) with uint128_1 in *. rewrite Vc', Va', Vc, Va.
    replace s with ((s - 1) + 1) at 1 3 by lia.
    rewrite !Z.pow_add_r, Z.mul_assoc, !Z.div_mul by lia. done.
  - apply (divmodLoop_spec _ _ _ _ _ _ _ s); auto with u128; lia.
Qed.

Lemma u128_div_spec x y : limbs x → limbs y → val y ≠ 0 →
  ∃ q, u128_div x y = Some q ∧ limbs q ∧ val q = val x / val y.
Proof.
  intros Hx Hy H0. destruct (divmod_correct x y Hx Hy H0) as (q & r & E & Hq & _ & Ev & _).
  exists q. unfold u128_div. by rewrite E.
Qed.

Lemma u128_mod_spec x y : limbs x → limbs y → val y ≠ 0 →
  ∃ r, u128_mod x y = Some r ∧ limbs r ∧ val r = val x mod val y.
Proof.
  intros Hx Hy H0. unfold u128_mod. destruct (u128_div_spec x y Hx Hy H0) as (q & -> & Hq & Ev).
  eexists. split; [reflexivity|]. split; [auto with u128|].
  pose proof (val_range x Hx). pose proof (val_range y Hy). pose proof (val_range q Hq).
  rewrite u128_sub_spec, u128_mul_spec by auto with u128.
  pose proof (Z.mod_pos_bound (val x) (val y)). pose proof (Z.div_mod (val x) (val y) H0).
  rewrite Ev, (Z.mod_small (val y * _)) by nia. rewrite Z.mod_small; lia.
Qed.

(** ** The arithmetic of the class *)

(** [uint128_t]'s addition, subtraction and multiplication on two 64-bit
    halves are those of the integers modulo 2^128. *)
Theorem uint128_ring x y : limbs x → limbs y →
  val (u128_add x y) = (val x + val y) mod 2 ^ 128 ∧
  val (u128_sub x y) = (val x - val y) mod 2 ^ 128 ∧
  val (u128_mul x y) = (val x * val y) mod 2 ^ 128.
Proof. intros. split_and!; auto using u128_add_spec, u128_sub_spec, u128_mul_spec. Qed.

Lemma uint128_ring_witness :
  val (u128_mul (U128 1 5) (U128 2 7)) = ((1 * 2 ^ 64 + 5) * (2 * 2 ^ 64 + 7)) mod 2 ^ 128.
Proof.
  refine (proj2 (proj2 (uint128_ring (U128 1 5) (U128 2 7) _ _)));
    unfold limbs, is_u64, UINT64_MAX; simpl; lia.
Defined.

(** C39: the shift-and-subtract loop of [uint128_t::divmod] terminates within the
    129 turns that the model allows and returns the exact quotient and remainder, for every divisor
    but zero, for which it throws. *)
Theorem uint128_divmod_exact x y : limbs x → limbs y →
  (val y = 0 ∧ u128_divmod x y = None) ∨
  (val y ≠ 0 ∧ ∃ q r, u128_divmod x y = Some (q, r) ∧ limbs q ∧ limbs r ∧
     val q = val x / val y ∧ val r = val x mod val y).
Proof.
  intros Hx Hy. destruct (decide (val y = 0)) as [E|]; [|right; split; [done|by apply divmod_correct]].
  left. split; [done|]. unfold u128_divmod. rewrite u128_eqb_spec, E by auto with u128. done.
Qed.

Lemma uint128_divmod_exact_witness : ∃ q r,
  u128_divmod (U128 5 0) (U128 0 3) = Some (q, r) ∧ val q = 5 * 2 ^ 64 / 3 ∧ val r = (5 * 2 ^ 64) mod 3.
Proof.
  destruct (uint128_divmod_exact (U128 5 0) (U128 0 3)) as [[[=] _]|[_ (q & r & E & _ & _ & Hq & Hr)]];
    [unfold limbs, is_u64, UINT64_MAX; simpl; lia..|].
  exists q, r. split; [exact E|]. split; [exact Hq|exact Hr].
Defined.

(** The shifts multiply and divide by powers of two, for every amount that
    fits the word, and give zero beyond it. *)
Theorem uint128_shifts x s : limbs x → is_u64 s →
  val (u128_shl x (of_u64 s)) = (if s <? 128 then (val x * 2 ^ s) mod 2 ^ 128 else 0) ∧
  val (u128_shr x (of_u64 s)) = (if s <? 128 then val x / 2 ^ s else 0).
Proof.
  intros Hx Hs. destruct (Z.ltb_spec s 128).
  - split; [apply u128_shl_spec|apply u128_shr_spec]; try done; unfold is_u64 in *; lia.
  - unfold u128_shl, u128_shr, of_u64. cbn [LOWER UPPER]. rewrite u64_small by done.
    by rewrite (proj2 (Z.leb_le 128 s)) by done.
Qed.

Lemma uint128_shifts_witness : val (u128_shl (U128 0 3) (of_u64 70)) = (3 * 2 ^ 70) mod 2 ^ 128.
Proof.
  refine (proj1 (uint128_shifts (U128 0 3) 70 _ _)); unfold limbs, is_u64, UINT64_MAX; simpl; lia.
Defined.
