(* ===== verification/Numeric.v ===== *)
(** * Amount arithmetic: [util/numeric.cpp], [util/types.cpp]

    [bigDivide] in its six overloads, [bigMultiply], [addBalance] and the
    comparisons of prices, on the two-limb integers of [UInt128]. A call that
    can throw or fail an assertion lives in the monad of the prelude and leaves
    the state of its caller alone. *)
From stdpp Require Import base list strings.
From Stdlib Require Import ZArith Lia.
From S2P Require Import Prelude UInt128.

Inductive Rounding := ROUND_DOWN | ROUND_UP.
#[global] Instance Rounding_eq_dec : EqDecision Rounding.
Proof. solve_decision. Defined.

(** [assert]: the process aborts when the condition fails. *)
Definition assert_ {S} (b : bool) : M S unit := if b then mret tt else crash "assert".

Section Operations.
Context {S : Type}.

(** [operator/]; [divmod] throws on a zero divisor. *)
Definition u128_divM (x y : uint128_t) : M S uint128_t :=
  match u128_div x y with
  | Some q => mret q
  | None => throw "Error: division or modulus by 0"
  end.

(** [bool bigDivide(uint64_t& result, uint64_t A, B, C, rounding)]: the
    returned flag and what is written in [result]. *)
Definition bigDivide_u64 (A B C : Z) (rounding : Rounding) : M S (bool * Z) :=
  let a := of_u64 A in
  let b := of_u64 B in
  let c := of_u64 C in
  x ← match rounding with
      | ROUND_DOWN => u128_divM (u128_mul a b) c
      | ROUND_UP => u128_divM (u128_sub_u64 (u128_add (u128_mul a b) c) 1) c
      end;
  mret (u128_leb_u64 x UINT64_MAX, to_uint64 x).

(** [bool bigDivide(int64_t& result, int64_t A, B, C, rounding)]; [result] is
    the previous content of the reference. *)
Definition bigDivide_i64 (result A B C : Z) (rounding : Rounding) : M S (bool * Z) :=
  assert_ ((0 <=? A) && (0 <=? B) && (0 <? C));;
  '(res, r2) ← bigDivide_u64 (u64 A) (u64 B) (u64 C) rounding;
  mret (if (res : bool) then (r2 <=? INT64_MAX, s64 r2) else (false, result)).

(** [int64_t bigDivide(int64_t A, B, C, rounding)]. *)
Definition bigDivide (A B C : Z) (rounding : Rounding) : M S Z :=
  '(ok, res) ← bigDivide_i64 0 A B C rounding;
  if (ok : bool) then mret res else throw "overflow while performing bigDivide".

(** [bool bigDivide(uint64_t& result, uint128_t a, uint64_t B, rounding)]. *)
Definition bigDivide128_u64 (result : Z) (a : uint128_t) (B : Z) (rounding : Rounding) : M S (bool * Z) :=
  assert_ (negb (B =? 0));;
  let b := of_u64 B in
  let UINT128_MAX := u128_not uint128_0 in
  if bool_decide (rounding = ROUND_UP) && u128_gtb a (u128_sub UINT128_MAX (u128_sub_u64 b 1))
  then mret (false, result)
  else
    x ← match rounding with
        | ROUND_DOWN => u128_divM a b
        | ROUND_UP => u128_divM (u128_sub_u64 (u128_add a b) 1) b
        end;
    mret (u128_leb_u64 x UINT64_MAX, to_uint64 x).

(** [bool bigDivide(int64_t& result, uint128_t a, int64_t B, rounding)]. *)
Definition bigDivide128_i64 (result : Z) (a : uint128_t) (B : Z) (rounding : Rounding) : M S (bool * Z) :=
  assert_ (0 <? B);;
  '(res, r2) ← bigDivide128_u64 0 a (u64 B) rounding;
  mret (if (res : bool) then (r2 <=? INT64_MAX, s64 r2) else (false, result)).

(** [int64_t bigDivide(uint128_t a, int64_t B, rounding)]. *)
Definition bigDivide128 (a : uint128_t) (B : Z) (rounding : Rounding) : M S Z :=
  '(ok, res) ← bigDivide128_i64 0 a B rounding;
  if (ok : bool) then mret res else throw "overflow while performing bigDivide".

Definition bigMultiply_u64 (a b : Z) : uint128_t := u128_mul (of_u64 a) (of_u64 b).
Definition bigMultiply (a b : Z) : M S uint128_t :=
  assert_ ((0 <=? a) && (0 <=? b));;
  mret (bigMultiply_u64 (u64 a) (u64 b)).

(** [bool addBalance(int64_t& balance, int64_t delta, int64_t maxBalance)]:
    the flag and the balance after the call. *)
Definition addBalance (balance delta maxBalance : Z) : M S (bool * Z) :=
  assert_ (0 <=? balance);;
  assert_ (0 <=? maxBalance);;
  if delta =? 0 then mret (true, balance)
  else if delta <? - balance then mret (false, balance)
  else if s64 (maxBalance - balance) <? delta then mret (false, balance)
  else mret (true, s64 (balance + delta)).
End Operations.

(** [unsignedToSigned] for 32 and 64 bits. *)
Definition unsignedToSigned32 {S} (v : Z) : M S Z :=
  if 2147483647 <? v then throw "unsigned-to-signed overflow" else mret (s32 v).
Definition unsignedToSigned {S} (v : Z) : M S Z :=
  if INT64_MAX <? v then throw "unsigned-to-signed overflow" else mret (s64 v).

(** [struct Price]: [int32] numerator and denominator. *)
Record Price := mkPrice { price_n : Z; price_d : Z }.

Definition price_ge (a b : Price) : bool :=
  let l := of_u64 (price_n a) in
  let r := of_u64 (price_d a) in
  let l := u128_mul l (of_u64 (price_d b)) in
  let r := u128_mul r (of_u64 (price_n b)) in
  u128_geb l r.
Definition price_gt (a b : Price) : bool :=
  let l := of_u64 (price_n a) in
  let r := of_u64 (price_d a) in
  let l := u128_mul l (of_u64 (price_d b)) in
  let r := u128_mul r (of_u64 (price_n b)) in
  u128_gtb l r.
Definition price_eqb (a b : Price) : bool :=
  (price_n a =? price_n b) && (price_d a =? price_d b).

(** ** What the calls compute *)

(** The exact quotient in the given direction. *)
Definition divRound (rounding : Rounding) (x y : Z) : Z :=
  match rounding with ROUND_DOWN => x / y | ROUND_UP => (x + y - 1) / y end.

Definition is_i64 (x : Z) : Prop := 0 <= x <= INT64_MAX.

Lemma i64_u64 x : is_i64 x → is_u64 x.
Proof. unfold is_i64, is_u64, INT64_MAX, UINT64_MAX. lia. Qed.
#[global] Hint Resolve i64_u64 : u128.

Lemma s64_small x : - 2 ^ 63 <= x <= INT64_MAX → s64 x = x.
Proof.
  unfold INT64_MAX. intros Hx. unfold s64, swrap, wrap. cbn zeta. change (64 - 1) with 63.
  destruct (decide (0 <= x)).
  - rewrite Z.mod_small by lia. destruct (Z.ltb_spec x (2 ^ 63)); lia.
  - replace (x mod 2 ^ 64) with (x + 2 ^ 64)
      by (rewrite <- (Z.mod_add x 1 (2 ^ 64)) by lia; rewrite Z.mod_small; lia).
    destruct (Z.ltb_spec (x + 2 ^ 64) (2 ^ 63)); lia.
Qed.

Lemma divRound_ge0 r x y : 0 <= x → 0 < y → 0 <= divRound r x y.
Proof. intros. destruct r; apply Z.div_pos; lia. Qed.

(** The quotient is the bound of a product: Galois connections. *)
Lemma divRound_down_le x y z : 0 < y → z <= divRound ROUND_DOWN x y ↔ z * y <= x.
Proof. intros. simpl. split; intros; Z.div_mod_to_equations; nia. Qed.
Lemma divRound_up_le x y z : 0 < y → divRound ROUND_UP x y <= z ↔ x <= z * y.
Proof. intros. simpl. split; intros; Z.div_mod_to_equations; nia. Qed.
Lemma divRound_down_mul x y : 0 < y → divRound ROUND_DOWN x y * y <= x < divRound ROUND_DOWN x y * y + y.
Proof. intros. simpl. Z.div_mod_to_equations. nia. Qed.
Lemma divRound_up_mul x y : 0 < y → divRound ROUND_UP x y * y - y < x <= divRound ROUND_UP x y * y.
Proof. intros. simpl. Z.div_mod_to_equations. nia. Qed.

Lemma low64 x : limbs x → to_uint64 x = val x mod 2 ^ 64.
Proof.
  destruct x as [u l]. intros [Hu Hl]. unfold to_uint64, val. cbn [UPPER LOWER] in *.
  rewrite Z.add_comm, Z.mod_add, Z.mod_small by limb_lia. done.
Qed.

Lemma u128_divM_spec {S} x y (s : S) : limbs x → limbs y → val y ≠ 0 →
  ∃ q, u128_divM x y s = Ok q s ∧ limbs q ∧ val q = val x / val y.
Proof.
  intros Hx Hy H0. destruct (u128_div_spec x y Hx Hy H0) as (q & E & Hq & Ev).
  exists q. unfold u128_divM. by rewrite E.
Qed.

(** The dividend of a rounding up division, when it does not overflow. *)
Lemma round_up_dividend x y :
  limbs x → limbs y → 1 <= val y → val x + val y - 1 < 2 ^ 128 →
  val (u128_sub_u64 (u128_add x y) 1) = val x + val y - 1.
Proof.
  intros Hx Hy Hy1 Hb. pose proof (val_range x Hx). pose proof (val_range y Hy).
  rewrite u128_sub_u64_spec by (auto with u128; done). rewrite u128_add_spec by done.
  rewrite Zminus_mod_idemp_l. apply Z.mod_small. lia.
Qed.

Lemma u128_divRound_spec {S} x y r (s : S) :
  limbs x → limbs y → 1 <= val y → val x + val y - 1 < 2 ^ 128 →
  ∃ q, match r with
       | ROUND_DOWN => u128_divM x y
       | ROUND_UP => u128_divM (u128_sub_u64 (u128_add x y) 1) y
       end s = Ok q s ∧ limbs q ∧ val q = divRound r (val x) (val y).
Proof.
  intros. destruct r; simpl.
  - by apply u128_divM_spec; auto with u128; lia.
  - rewrite <- round_up_dividend by done. apply u128_divM_spec; auto with u128. lia.
Qed.

Lemma mul_u64_val a b : is_u64 a → is_u64 b →
  val (u128_mul (of_u64 a) (of_u64 b)) = a * b.
Proof.
  intros Ha Hb. rewrite u128_mul_spec, !val_of_u64 by auto with u128.
  apply Z.mod_small. unfold is_u64 in *. change UINT64_MAX with (2 ^ 64 - 1) in *. nia.
Qed.

Lemma u64_product a b : is_u64 a → is_u64 b → 0 <= a * b <= (2 ^ 64 - 1) * (2 ^ 64 - 1).
Proof. unfold is_u64. change UINT64_MAX with (2 ^ 64 - 1). nia. Qed.

Lemma bigDivide_u64_spec {S} A B C r (s : S) :
  is_u64 A → is_u64 B → is_u64 C → C ≠ 0 →
  bigDivide_u64 A B C r s =
    Ok (divRound r (A * B) C <=? UINT64_MAX, divRound r (A * B) C mod 2 ^ 64) s.
Proof.
  intros HA HB HC HC0. pose proof (u64_product A B HA HB).
  assert (0 < C <= 2 ^ 64 - 1) by (revert HC; unfold is_u64, UINT64_MAX; lia).
  unfold bigDivide_u64, mbind, M_bind.
  edestruct (u128_divRound_spec (S:=S) (u128_mul (of_u64 A) (of_u64 B)) (of_u64 C) r s)
    as (x & -> & Hx & Ev); auto with u128; rewrite ?mul_u64_val, ?val_of_u64 in * by done; [lia..|].
  unfold mret, M_ret. rewrite u128_leb_u64_spec, low64, Ev; done.
Qed.

Lemma mod_le_ok x : 0 <= x <= UINT64_MAX → x mod 2 ^ 64 = x.
Proof. unfold UINT64_MAX. intros. apply Z.mod_small. lia. Qed.

Lemma bigDivide_i64_spec {S} res A B C r (s : S) :
  is_i64 A → is_i64 B → is_i64 C → C ≠ 0 →
  ∃ v, bigDivide_i64 res A B C r s = Ok (divRound r (A * B) C <=? INT64_MAX, v) s ∧
       (divRound r (A * B) C <= INT64_MAX → v = divRound r (A * B) C).
Proof.
  intros HA HB HC HC0. unfold bigDivide_i64, assert_.
  assert ((0 <=? A) && (0 <=? B) && (0 <? C) = true) as -> by (unfold is_i64 in *; lia).
  rewrite !u64_small by auto with u128. unfold mbind, M_bind. cbn [mret M_ret].
  unfold mret, M_ret at 1. rewrite bigDivide_u64_spec by auto with u128.
  assert (0 <= divRound r (A * B) C) by (apply divRound_ge0; unfold is_i64 in *; nia).
  unfold INT64_MAX, UINT64_MAX in *.
  destruct (Z.leb_spec (divRound r (A * B) C) 18446744073709551615).
  - rewrite (mod_le_ok (divRound _ _ _)) by (unfold UINT64_MAX; lia). eexists. split; [done|].
    intros. apply s64_small. unfold INT64_MAX. lia.
  - exists res. split; [|lia]. f_equal. f_equal. lia.
Qed.

(** The throwing overload: the exact quotient, or the exception when it does
    not fit in an [int64_t]. *)
Lemma bigDivide_spec {S} A B C r (s : S) :
  is_i64 A → is_i64 B → is_i64 C → C ≠ 0 →
  bigDivide A B C r s =
    if divRound r (A * B) C <=? INT64_MAX then Ok (divRound r (A * B) C) s
    else Throw "overflow while performing bigDivide" s.
Proof.
  intros HA HB HC HC0. unfold bigDivide, mbind, M_bind.
  destruct (bigDivide_i64_spec 0 A B C r s) as (v & -> & Hv); [done..|].
  destruct (Z.leb_spec (divRound r (A * B) C) INT64_MAX); [rewrite Hv by done|]; done.
Qed.

(** The 128-bit dividend: the guard against overflow of the rounding up is exact
    but for dividends whose quotient would not fit anyway. *)
Lemma u128_max_minus B : is_u64 B → B ≠ 0 →
  val (u128_sub (u128_not uint128_0) (u128_sub_u64 (of_u64 B) 1)) = 2 ^ 128 - B.
Proof.
  intros HB HB0. assert (limbs (u128_not uint128_0)) by (split; apply u64_range).
  rewrite u128_sub_spec by auto with u128. rewrite u128_sub_u64_spec, val_of_u64 by (auto with u128; done).
  change (val (u128_not uint128_0)) with (2 ^ 128 - 1).
  unfold is_u64, UINT64_MAX in HB. rewrite (Z.mod_small (B - 1)), Z.mod_small; lia.
Qed.

Lemma bigDivide128_u64_spec {S} res a B r (s : S) :
  limbs a → is_u64 B → B ≠ 0 →
  ∃ v, bigDivide128_u64 res a B r s = Ok (divRound r (val a) B <=? UINT64_MAX, v) s ∧
       (divRound r (val a) B <= UINT64_MAX → v = divRound r (val a) B).
Proof.
  intros Ha HB HB0. pose proof (val_range a Ha) as Ba.
  assert (0 < B <= UINT64_MAX) as HB' by (revert HB; unfold is_u64; lia).
  unfold bigDivide128_u64, assert_. rewrite (proj2 (Z.eqb_neq B 0)) by done.
  unfold mbind, M_bind. cbn [negb]. unfold mret at 1, M_ret at 1.
  rewrite u128_gtb_spec, u128_max_minus by auto with u128.
  destruct (_ && _) eqn:Eg.
  - propify. subst r. exists res. unfold mret, M_ret.
    enough ((divRound ROUND_UP (val a) B <=? UINT64_MAX) = false) as E by (rewrite E; split; [done|propify; lia]).
    apply Z.leb_gt. enough (¬ divRound ROUND_UP (val a) B <= UINT64_MAX) by lia.
    rewrite divRound_up_le by lia. unfold UINT64_MAX in *. nia.
  - assert (∃ q, match r with
       | ROUND_DOWN => u128_divM a (of_u64 B)
       | ROUND_UP => u128_divM (u128_sub_u64 (u128_add a (of_u64 B)) 1) (of_u64 B)
       end s = Ok q s ∧ limbs q ∧ val q = divRound r (val a) B) as (q & -> & Hq & Ev).
    { destruct r.
      - edestruct (u128_divM_spec a (of_u64 B) s) as (q & ? & ? & Ev); auto with u128;
          rewrite val_of_u64 in * by done; eauto.
      - rewrite bool_decide_eq_true_2 in Eg by done. propify.
        edestruct (u128_divRound_spec a (of_u64 B) ROUND_UP s) as (q & ? & ? & Ev); auto with u128;
          rewrite val_of_u64 in * by done; eauto; lia. }
    assert (0 <= divRound r (val a) B) by (apply divRound_ge0; lia).
    unfold mret, M_ret. rewrite u128_leb_u64_spec, low64, Ev by done. eexists. split; [done|].
    intros. apply mod_le_ok. lia.
Qed.

Lemma bigDivide128_spec {S} a B r (s : S) :
  limbs a → is_i64 B → B ≠ 0 →
  bigDivide128 a B r s =
    if divRound r (val a) B <=? INT64_MAX then Ok (divRound r (val a) B) s
    else Throw "overflow while performing bigDivide" s.
Proof.
  intros Ha HB HB0. pose proof (val_range a Ha) as Ba.
  unfold bigDivide128, bigDivide128_i64, assert_.
  rewrite (proj2 (Z.ltb_lt 0 B)) by (unfold is_i64 in HB; lia). rewrite u64_small by auto with u128.
  unfold mbind, M_bind. unfold mret at 1, M_ret at 1.
  destruct (bigDivide128_u64_spec 0 a B r s) as (v & -> & Hv); [auto with u128..|].
  assert (0 <= divRound r (val a) B) by (apply divRound_ge0; unfold is_i64 in HB; lia).
  unfold mret, M_ret. destruct (Z.leb_spec (divRound r (val a) B) UINT64_MAX).
  - rewrite Hv by done. destruct (Z.leb_spec (divRound r (val a) B) INT64_MAX); [|done].
    rewrite s64_small by lia. done.
  - rewrite (proj2 (Z.leb_gt _ INT64_MAX)); [done|]. unfold INT64_MAX, UINT64_MAX in *. lia.
Qed.

Lemma bigMultiply_spec {S} a b (s : S) :
  is_i64 a → is_i64 b → ∃ x, bigMultiply a b s = Ok x s ∧ limbs x ∧ val x = a * b.
Proof.
  intros Ha Hb. unfold bigMultiply, assert_.
  assert ((0 <=? a) && (0 <=? b) = true) as -> by (unfold is_i64 in *; lia).
  rewrite !u64_small by auto with u128. eexists. split; [reflexivity|].
  split; [apply u128_mul_limbs|]. apply mul_u64_val; auto with u128.
Qed.

(** [addBalance] adds exactly, keeps the balance within [0 .. maxBalance] when it
    succeeds on a non-zero delta, and leaves it alone when it fails. *)
Lemma addBalance_cases {S} balance delta maxBalance (s : S) :
  is_i64 balance → is_i64 maxBalance → - 2 ^ 63 <= delta <= INT64_MAX →
  addBalance balance delta maxBalance s =
    if (delta =? 0) || ((0 <=? balance + delta) && (balance + delta <=? maxBalance))
    then Ok (true, balance + delta) s else Ok (false, balance) s.
Proof.
  intros Hb Hm Hd. unfold addBalance, assert_. unfold is_i64 in *.
  rewrite (proj2 (Z.leb_le 0 balance)), (proj2 (Z.leb_le 0 maxBalance)) by lia.
  unfold mbind, M_bind, mret, M_ret.
  destruct (Z.eqb_spec delta 0) as [->|]; [by rewrite Z.add_0_r|]. cbn [orb].
  rewrite s64_small by (unfold INT64_MAX in *; lia).
  destruct (Z.ltb_spec delta (- balance)).
  { rewrite (proj2 (Z.leb_gt 0 (balance + delta))) by lia. done. }
  rewrite (proj2 (Z.leb_le 0 (balance + delta))) by lia. cbn [andb].
  destruct (Z.ltb_spec (maxBalance - balance) delta).
  { rewrite (proj2 (Z.leb_gt (balance + delta) maxBalance)) by lia. done. }
  rewrite (proj2 (Z.leb_le (balance + delta) maxBalance)), s64_small by lia. done.
Qed.

Definition is_i32 (x : Z) : Prop := 0 <= x <= 2147483647.
Lemma i32_i64 x : is_i32 x → is_i64 x.
Proof. unfold is_i32, is_i64, INT64_MAX. lia. Qed.
#[global] Hint Resolve i32_i64 : u128.

(** Prices as fractions: cross multiplication is exact. *)
Lemma price_ge_cross a b :
  is_i32 (price_n a) → is_i32 (price_d a) → is_i32 (price_n b) → is_i32 (price_d b) →
  price_ge a b = (price_d a * price_n b <=? price_n a * price_d b).
Proof. intros. unfold price_ge. by rewrite u128_geb_spec, !mul_u64_val by auto with u128. Qed.
Lemma price_gt_cross a b :
  is_i32 (price_n a) → is_i32 (price_d a) → is_i32 (price_n b) → is_i32 (price_d b) →
  price_gt a b = (price_d a * price_n b <? price_n a * price_d b).
Proof. intros. unfold price_gt. by rewrite u128_gtb_spec, !mul_u64_val by auto with u128. Qed.

(** ** The guarantees to the callers *)

(** [bigDivide] returns the product divided with the requested rounding,
    computed without overflow for all non-negative 64-bit arguments, and throws
    exactly when the result does not fit in 64 signed bits. *)
Theorem bigDivide_exact {S} A B C r (s : S) :
  is_i64 A → is_i64 B → is_i64 C → C ≠ 0 →
  (divRound r (A * B) C <= INT64_MAX → bigDivide A B C r s = Ok (divRound r (A * B) C) s) ∧
  (INT64_MAX < divRound r (A * B) C →
   bigDivide A B C r s = Throw "overflow while performing bigDivide" s).
Proof.
  intros. rewrite bigDivide_spec by done. destruct (Z.leb_spec (divRound r (A * B) C) INT64_MAX); split; done || lia.
Qed.

Lemma bigDivide_exact_witness :
  bigDivide INT64_MAX INT64_MAX INT64_MAX ROUND_UP tt = Ok INT64_MAX tt ∧
  bigDivide INT64_MAX 2 1 ROUND_DOWN tt = Throw "overflow while performing bigDivide" tt.
Proof.
  split.
  - refine (proj1 (bigDivide_exact INT64_MAX INT64_MAX INT64_MAX ROUND_UP tt _ _ _ _) _);
      unfold is_i64, INT64_MAX; try lia. vm_compute. discriminate.
  - refine (proj2 (bigDivide_exact INT64_MAX 2 1 ROUND_DOWN tt _ _ _ _) _);
      unfold is_i64, INT64_MAX; try lia. vm_compute. reflexivity.
Defined.

(** Multiplying into 128 bits first and dividing afterwards, as the exchange
    code does, is the same as [bigDivide], the overflow exception included. *)
Theorem bigDivide128_agrees {S} a b c r (s : S) :
  is_i64 a → is_i64 b → is_i64 c → c ≠ 0 →
  (x ← bigMultiply a b; bigDivide128 x c r) s = bigDivide a b c r s.
Proof.
  intros Ha Hb Hc Hc0. unfold mbind, M_bind. destruct (bigMultiply_spec a b s Ha Hb) as (x & -> & Hx & Hv).
  by rewrite bigDivide128_spec, bigDivide_spec, Hv by done.
Qed.

Lemma bigDivide128_agrees_witness :
  (x ← bigMultiply 7 6; bigDivide128 x 4 ROUND_UP) tt = bigDivide 7 6 4 ROUND_UP tt.
Proof. refine (bigDivide128_agrees 7 6 4 ROUND_UP tt _ _ _ _); unfold is_i64, INT64_MAX; lia. Defined.

(** [addBalance] adds the delta when the result stays between zero and the
    limit, and otherwise leaves the balance alone and says so, for every 64-bit
    delta, without overflowing. *)
Theorem addBalance_exact {S} balance delta maxBalance (s : S) :
  is_i64 balance → is_i64 maxBalance → - 2 ^ 63 <= delta <= INT64_MAX →
  ∃ ok balance', addBalance balance delta maxBalance s = Ok (ok, balance') s ∧
    is_i64 balance' ∧
    (ok = true ↔ delta = 0 ∨ 0 <= balance + delta <= maxBalance) ∧
    balance' = (if ok then balance + delta else balance).
Proof.
  intros Hb Hm Hd. rewrite addBalance_cases by done. unfold is_i64 in *.
  destruct (Z.eqb_spec delta 0), (Z.leb_spec 0 (balance + delta)), (Z.leb_spec (balance + delta) maxBalance);
    simpl; eexists _, _; (split_and!; [done|lia..| |done]); (split; [intros _; lia|done]) || (split; [done|lia]).
Qed.

Lemma addBalance_exact_witness : ∃ ok b, addBalance 10 (-11) 100 tt = Ok (ok, b) tt ∧ ok = false ∧ b = 10.
Proof.
  destruct (addBalance_exact 10 (-11) 100 tt) as (ok & b & E & _ & Hok & Hb); [unfold is_i64, INT64_MAX; lia..|].
  exists ok, b. split; [exact E|]. destruct ok.
  - exfalso. pose proof (proj1 Hok eq_refl). lia.
  - split; [reflexivity|exact Hb].
Defined.

(** The comparison of prices by 128-bit cross multiplication is the order of
    the fractions. *)
Theorem price_order_exact a b :
  is_i32 (price_n a) → is_i32 (price_d a) → is_i32 (price_n b) → is_i32 (price_d b) →
  (price_ge a b = true ↔ price_n b * price_d a <= price_n a * price_d b) ∧
  (price_gt a b = true ↔ price_n b * price_d a < price_n a * price_d b) ∧
  (price_gt a b = true ↔ price_ge b a = false).
Proof. intros. rewrite !price_ge_cross, !price_gt_cross by done. lia. Qed.

Lemma price_order_exact_witness : price_gt (mkPrice 2 3) (mkPrice 1 2) = true ↔ 1 * 3 < 2 * 2.
Proof.
  refine (proj1 (proj2 (price_order_exact (mkPrice 2 3) (mkPrice 1 2) _ _ _ _)));
    unfold is_i32; simpl; lia.
Defined.
