(* ===== verification/Exchange.v ===== *)
(** * The exchange of two assets: [transactions/OfferExchange.cpp]

    The arithmetic of the order book: how much wheat and sheep an offer crossed
    at a price exchanges ([exchangeV2], [exchangeV3], [exchangeV10]), the bound
    on the price error, and [adjustOffer]. "Wheat" is what the offer in the book
    sells, "sheep" what it buys, and the price is sheep per wheat. *)
From stdpp Require Import base list strings.
From Stdlib Require Import ZArith Lia.
From S2P Require Import Prelude UInt128 Numeric.

Inductive ExchangeResultType := NORMAL | REDUCED_TO_ZERO | BOGUS.

Record ExchangeResult := mkExchangeResult {
  numWheatReceived : Z; numSheepSend : Z; reduced : bool }.

Definition ExchangeResult_type (r : ExchangeResult) : ExchangeResultType :=
  if negb (numWheatReceived r =? 0) && negb (numSheepSend r =? 0) then NORMAL
  else if reduced r then REDUCED_TO_ZERO else BOGUS.

Record ExchangeResultV10 := mkExchangeResultV10 {
  numWheatReceived10 : Z; numSheepSend10 : Z; wheatStays10 : bool }.

Section Operations.
Context {S : Type}.

Definition exchangeV2 (wheatReceived : Z) (price : Price) (maxWheatReceive maxSheepSend : Z)
    : M S ExchangeResult :=
  let reduced := maxWheatReceive <? wheatReceived in
  let wheatReceived := Z.min wheatReceived maxWheatReceive in
  '(ok, numSheepSend) ← bigDivide_i64 0 wheatReceived (price_n price) (price_d price) ROUND_DOWN;
  let numSheepSend := if (ok : bool) then numSheepSend else INT64_MAX in
  let reduced := reduced || (maxSheepSend <? numSheepSend) in
  let numSheepSend := Z.min numSheepSend maxSheepSend in
  numWheatReceived ← bigDivide numSheepSend (price_d price) (price_n price) ROUND_DOWN;
  mret (mkExchangeResult numWheatReceived numSheepSend reduced).

Definition exchangeV3 (wheatReceived : Z) (price : Price) (maxWheatReceive maxSheepSend : Z)
    : M S ExchangeResult :=
  let reduced := maxWheatReceive <? wheatReceived in
  let numWheatReceived := Z.min wheatReceived maxWheatReceive in
  '(ok, numSheepSend) ← bigDivide_i64 0 numWheatReceived (price_n price) (price_d price) ROUND_UP;
  let reduced := if (ok : bool) then reduced else true in
  let numSheepSend := if (ok : bool) then numSheepSend else INT64_MAX in
  let reduced := reduced || (maxSheepSend <? numSheepSend) in
  let numSheepSend := Z.min numSheepSend maxSheepSend in
  '(ok, newWheatReceived) ← bigDivide_i64 0 numSheepSend (price_d price) (price_n price) ROUND_DOWN;
  let newWheatReceived := if (ok : bool) then newWheatReceived else INT64_MAX in
  mret (mkExchangeResult (Z.min numWheatReceived newWheatReceived) numSheepSend reduced).

Definition checkPriceErrorBound (price : Price) (wheatReceive sheepSend : Z) (canFavorWheat : bool)
    : M S bool :=
  let errN := s64 (100 * price_n price) in
  let errD := s64 (100 * price_d price) in
  lhs ← bigMultiply errN wheatReceive;
  rhs ← bigMultiply errD sheepSend;
  if canFavorWheat && u128_gtb rhs lhs then mret true
  else
    let absDiff := if u128_gtb lhs rhs then u128_sub lhs rhs else u128_sub rhs lhs in
    cap ← bigMultiply (price_n price) wheatReceive;
    mret (u128_leb absDiff cap).

(** [std::min] of an initializer list keeps the first of two equal values. *)
Definition u128_min (x y : uint128_t) : uint128_t := if u128_ltb y x then y else x.

Definition calculateOfferValue (priceN priceD maxSend maxReceive : Z) : M S uint128_t :=
  sendValue ← bigMultiply maxSend priceN;
  receiveValue ← bigMultiply maxReceive priceD;
  mret (u128_min sendValue receiveValue).

Definition exchangeV10WithoutPriceErrorThresholds (price : Price)
    (maxWheatSend maxWheatReceive maxSheepSend maxSheepReceive : Z) (isPathPayment : bool)
    : M S ExchangeResultV10 :=
  let n := price_n price in
  let d := price_d price in
  wheatValue ← calculateOfferValue n d maxWheatSend maxSheepReceive;
  sheepValue ← calculateOfferValue d n maxSheepSend maxWheatReceive;
  let wheatStays := u128_gtb wheatValue sheepValue in
  '(wheatReceive, sheepSend) ←
    (if wheatStays then
       if (d <? n) || isPathPayment then
         wheatReceive ← bigDivide128 sheepValue n ROUND_DOWN;
         sheepSend ← bigDivide wheatReceive n d ROUND_UP;
         mret (wheatReceive, sheepSend)
       else
         sheepSend ← bigDivide128 sheepValue d ROUND_DOWN;
         wheatReceive ← bigDivide sheepSend d n ROUND_DOWN;
         mret (wheatReceive, sheepSend)
     else
       if d <? n then
         wheatReceive ← bigDivide128 wheatValue n ROUND_DOWN;
         sheepSend ← bigDivide wheatReceive n d ROUND_DOWN;
         mret (wheatReceive, sheepSend)
       else
         sheepSend ← bigDivide128 wheatValue d ROUND_DOWN;
         wheatReceive ← bigDivide sheepSend d n ROUND_UP;
         mret (wheatReceive, sheepSend));
  if (wheatReceive <? 0) || (Z.min maxWheatReceive maxWheatSend <? wheatReceive)
  then throw "wheatReceive out of bounds"
  else if (sheepSend <? 0) || (Z.min maxSheepReceive maxSheepSend <? sheepSend)
  then throw "sheepSend out of bounds"
  else mret (mkExchangeResultV10 wheatReceive sheepSend wheatStays).

Definition applyPriceErrorThresholds (price : Price) (wheatReceive sheepSend : Z)
    (wheatStays isPathPayment : bool) : M S ExchangeResultV10 :=
  if (0 <? wheatReceive) && (0 <? sheepSend) then
    wheatReceiveValue ← bigMultiply wheatReceive (price_n price);
    sheepSendValue ← bigMultiply sheepSend (price_d price);
    if wheatStays && u128_ltb sheepSendValue wheatReceiveValue
    then throw "favored sheep when wheat stays"
    else if negb wheatStays && u128_gtb sheepSendValue wheatReceiveValue
    then throw "favored wheat when sheep stays"
    else if negb isPathPayment then
      ok ← checkPriceErrorBound price wheatReceive sheepSend false;
      mret (if (ok : bool) then mkExchangeResultV10 wheatReceive sheepSend wheatStays
            else mkExchangeResultV10 0 0 wheatStays)
    else
      ok ← checkPriceErrorBound price wheatReceive sheepSend true;
      if (ok : bool) then mret (mkExchangeResultV10 wheatReceive sheepSend wheatStays)
      else throw "exceeded price error bound"
  else mret (mkExchangeResultV10 0 0 wheatStays).

Definition exchangeV10 (price : Price)
    (maxWheatSend maxWheatReceive maxSheepSend maxSheepReceive : Z) (isPathPayment : bool)
    : M S ExchangeResultV10 :=
  beforeThresholds ← exchangeV10WithoutPriceErrorThresholds price maxWheatSend maxWheatReceive
                       maxSheepSend maxSheepReceive isPathPayment;
  applyPriceErrorThresholds price (numWheatReceived10 beforeThresholds)
    (numSheepSend10 beforeThresholds) (wheatStays10 beforeThresholds) isPathPayment.

Definition adjustOffer (price : Price) (maxWheatSend maxSheepReceive : Z) : M S Z :=
  res ← exchangeV10 price maxWheatSend INT64_MAX INT64_MAX maxSheepReceive false;
  mret (numWheatReceived10 res).
End Operations.

(** ** The exchange as integer arithmetic *)

Definition validPrice (p : Price) : Prop :=
  0 < price_n p ∧ is_i32 (price_n p) ∧ 0 < price_d p ∧ is_i32 (price_d p).

(** The values, in units of [1 / (n d)], that each side can put in. *)
Definition offerValue (n d maxSend maxReceive : Z) : Z := Z.min (maxSend * n) (maxReceive * d).

(** The amounts before the price error is looked at. *)
Definition exchangeAmounts (p : Price) (W Sh : Z) (path : bool) : Z * Z :=
  let n := price_n p in let d := price_d p in
  if Sh <? W then
    if (d <? n) || path
    then let w := divRound ROUND_DOWN Sh n in (w, divRound ROUND_UP (w * n) d)
    else let h := divRound ROUND_DOWN Sh d in (divRound ROUND_DOWN (h * d) n, h)
  else
    if d <? n
    then let w := divRound ROUND_DOWN W n in (w, divRound ROUND_DOWN (w * n) d)
    else let h := divRound ROUND_DOWN W d in (divRound ROUND_UP (h * d) n, h).

(** The price error is at most one percent of the wheat's value. *)
Definition priceErrorOk (p : Price) (w h : Z) : bool :=
  Z.abs (100 * price_n p * w - 100 * price_d p * h) <=? price_n p * w.

Lemma calculateOfferValue_spec {S} n d a b (s : S) :
  is_i64 n → is_i64 d → is_i64 a → is_i64 b →
  ∃ x, calculateOfferValue n d a b s = Ok x s ∧ limbs x ∧ val x = offerValue n d a b.
Proof.
  intros. unfold calculateOfferValue, mbind, M_bind.
  destruct (bigMultiply_spec a n s) as (x & -> & Hx & Ex); [done..|].
  destruct (bigMultiply_spec b d s) as (y & -> & Hy & Ey); [done..|].
  eexists. split; [reflexivity|]. unfold u128_min, offerValue. rewrite u128_ltb_spec by done.
  destruct (Z.ltb_spec (val y) (val x)); split; try done; lia.
Qed.

Lemma checkPriceErrorBound_spec {S} p w h fav (s : S) :
  validPrice p → is_i64 w → is_i64 h →
  checkPriceErrorBound p w h fav s =
    Ok ((fav && (price_n p * w <? price_d p * h)) || priceErrorOk p w h) s.
Proof.
  intros (Hn0 & Hn & Hd0 & Hd) Hw Hh. unfold checkPriceErrorBound.
  assert (is_i64 (100 * price_n p) ∧ is_i64 (100 * price_d p)) as [Hn' Hd']
    by (unfold is_i32, is_i64, INT64_MAX in *; lia).
  rewrite !s64_small by (unfold is_i64 in *; lia). unfold mbind, M_bind.
  destruct (bigMultiply_spec (100 * price_n p) w s) as (x & -> & Hx & Ex); [done..|].
  destruct (bigMultiply_spec (100 * price_d p) h s) as (y & -> & Hy & Ey); [done..|].
  pose proof (val_range x Hx). pose proof (val_range y Hy).
  rewrite !u128_gtb_spec, Ex, Ey by done. unfold priceErrorOk.
  replace (100 * price_n p * w <? 100 * price_d p * h) with (price_n p * w <? price_d p * h) by lia.
  destruct (fav && _); [done|]. cbn [orb].
  destruct (bigMultiply_spec (price_n p) w s) as (c & -> & Hc & Ec); [auto with u128..|].
  unfold mret, M_ret. f_equal. set (a := if _ <? _ then u128_sub x y else u128_sub y x).
  assert (limbs a ∧ val a = Z.abs (val x - val y)) as [Ha Ea].
  { subst a. rewrite <- Ex, <- Ey. destruct (Z.ltb_spec (val y) (val x));
      (split; [auto with u128|]); rewrite u128_sub_spec, Z.mod_small by (done || lia); lia. }
  by rewrite u128_leb_spec, Ea, Ec, Ex, Ey by done.
Qed.

(** The amounts stay within every limit of both sides, and never favour the side
    that is used up. *)
Definition withinLimits (p : Price) (mws mwr mss msr : Z) (wh : Z * Z) : Prop :=
  0 <= wh.1 <= Z.min mwr mws ∧ 0 <= wh.2 <= Z.min msr mss.

(** A quotient in either direction is below a bound whose product is above the
    dividend. *)
Lemma divRound_within r x y a b :
  0 < y → 0 <= x → x <= a * y → x <= b * y → 0 <= divRound r x y <= Z.min a b.
Proof.
  intros Hy Hx Ha Hb. split; [by apply divRound_ge0|]. apply Z.min_glb; destruct r.
  1, 3: pose proof (divRound_down_mul x y Hy); nia.
  all: by apply divRound_up_le.
Qed.

Lemma exchangeAmounts_limits p mws mwr mss msr path :
  validPrice p → 0 <= mws → 0 <= mwr → 0 <= mss → 0 <= msr →
  withinLimits p mws mwr mss msr
    (exchangeAmounts p (offerValue (price_n p) (price_d p) mws msr)
                       (offerValue (price_d p) (price_n p) mss mwr) path).
Proof.
  intros (Hn & _ & Hd & _) Hws Hwr Hss Hsr. unfold exchangeAmounts, offerValue, withinLimits.
  set (n := price_n p) in *. set (d := price_d p) in *.
  set (W := Z.min (mws * n) (msr * d)). set (Sh := Z.min (mss * d) (mwr * n)).
  assert (0 <= W ∧ 0 <= Sh) as [HW HS] by (subst W Sh; nia).
  destruct (Z.ltb_spec Sh W); [destruct (_ || _)|destruct (d <? n)]; cbn [fst snd].
  all: match goal with |- context [divRound ROUND_DOWN ?V ?y * ?y] =>
         pose proof (divRound_down_mul V y ltac:(assumption)); pose proof (divRound_ge0 ROUND_DOWN V y) end.
  all: split; apply divRound_within; subst W Sh; nia.
Qed.

Lemma exchangeAmounts_favours p W Sh path :
  validPrice p →
  let '(w, h) := exchangeAmounts p W Sh path in
  if Sh <? W then price_n p * w <= price_d p * h else price_d p * h <= price_n p * w.
Proof.
  intros (Hn & _ & Hd & _). unfold exchangeAmounts.
  destruct (Sh <? W); [destruct (_ || _)|destruct (_ <? _)].
  - pose proof (divRound_up_mul (divRound ROUND_DOWN Sh (price_n p) * price_n p) (price_d p) Hd). lia.
  - pose proof (divRound_down_mul (divRound ROUND_DOWN Sh (price_d p) * price_d p) (price_n p) Hn). lia.
  - pose proof (divRound_down_mul (divRound ROUND_DOWN W (price_n p) * price_n p) (price_d p) Hd). lia.
  - pose proof (divRound_up_mul (divRound ROUND_DOWN W (price_d p) * price_d p) (price_n p) Hn). lia.
Qed.

(** The four limits that an exchange is given. *)
Definition validLimits (mws mwr mss msr : Z) : Prop := is_i64 mws ∧ is_i64 mwr ∧ is_i64 mss ∧ is_i64 msr.

Lemma bigDivide128_fits {S} a B r (s : S) :
  limbs a → is_i64 B → B ≠ 0 → divRound r (val a) B <= INT64_MAX →
  bigDivide128 a B r s = Ok (divRound r (val a) B) s.
Proof. intros. rewrite bigDivide128_spec by done. by rewrite (proj2 (Z.leb_le _ _)) by lia. Qed.
Lemma bigDivide_fits {S} A B C r (s : S) :
  is_i64 A → is_i64 B → is_i64 C → C ≠ 0 → divRound r (A * B) C <= INT64_MAX →
  bigDivide A B C r s = Ok (divRound r (A * B) C) s.
Proof. intros. rewrite bigDivide_spec by done. by rewrite (proj2 (Z.leb_le _ _)) by lia. Qed.

Lemma exchangeV10Without_spec {S} p mws mwr mss msr path (s : S) :
  validPrice p → validLimits mws mwr mss msr →
  let W := offerValue (price_n p) (price_d p) mws msr in
  let Sh := offerValue (price_d p) (price_n p) mss mwr in
  let wh := exchangeAmounts p W Sh path in
  exchangeV10WithoutPriceErrorThresholds p mws mwr mss msr path s =
    Ok (mkExchangeResultV10 wh.1 wh.2 (Sh <? W)) s.
Proof.
  intros Hp (Hws & Hwr & Hss & Hsr) W Sh wh.
  pose proof Hp as (Hn0 & Hn & Hd0 & Hd). pose proof (i32_i64 _ Hn) as Hn'. pose proof (i32_i64 _ Hd) as Hd'.
  assert (withinLimits p mws mwr mss msr wh) as [Hw Hh]
    by (unfold is_i64 in *; apply exchangeAmounts_limits; [done|lia..]).
  unfold exchangeV10WithoutPriceErrorThresholds, mbind, M_bind.
  destruct (calculateOfferValue_spec (price_n p) (price_d p) mws msr s) as (x & -> & Hx & Ex); [done..|].
  destruct (calculateOfferValue_spec (price_d p) (price_n p) mss mwr s) as (y & -> & Hy & Ey); [done..|].
  rewrite u128_gtb_spec, Ex, Ey by done. fold W Sh.
  assert (Z.min mwr mws <= INT64_MAX ∧ Z.min msr mss <= INT64_MAX) as [Hi1 Hi2] by (unfold is_i64 in *; lia).
  match goal with |- match ?m s with _ => _ end = _ => assert (m s = Ok wh s) as -> end.
  { subst wh. unfold exchangeAmounts in *. destruct (Sh <? W); [destruct (_ || _)|destruct (_ <? _)];
      cbn [fst snd] in *.
    all: rewrite bigDivide128_fits; rewrite ?Ex, ?Ey; fold W Sh; try done; try lia.
    all: cbn match beta; rewrite bigDivide_fits; try done; unfold is_i64; try lia. }
  destruct wh as [w h]. cbn [fst snd] in *.
  assert ((w <? 0) || (Z.min mwr mws <? w) = false) as -> by lia.
  assert ((h <? 0) || (Z.min msr mss <? h) = false) as -> by lia. done.
Qed.

(** When the exchange is cut to nothing, and when it throws. *)
Lemma applyPriceErrorThresholds_spec {S} p w h stays path (s : S) :
  validPrice p → is_i64 w → is_i64 h →
  (if stays : bool then price_n p * w <= price_d p * h else price_d p * h <= price_n p * w) →
  applyPriceErrorThresholds p w h stays path s =
    if (0 <? w) && (0 <? h) then
      if priceErrorOk p w h || (path && (price_n p * w <? price_d p * h))
      then Ok (mkExchangeResultV10 w h stays) s
      else if path then Throw "exceeded price error bound" s else Ok (mkExchangeResultV10 0 0 stays) s
    else Ok (mkExchangeResultV10 0 0 stays) s.
Proof.
  intros Hp Hw Hh Hfav. pose proof Hp as (Hn0 & Hn & Hd0 & Hd). unfold applyPriceErrorThresholds.
  destruct ((0 <? w) && (0 <? h)); [|done]. unfold mbind, M_bind.
  destruct (bigMultiply_spec w (price_n p) s) as (x & -> & Hx & Ex); [auto with u128..|].
  destruct (bigMultiply_spec h (price_d p) s) as (y & -> & Hy & Ey); [auto with u128..|].
  rewrite u128_ltb_spec, u128_gtb_spec, Ex, Ey by done.
  assert (stays && (h * price_d p <? w * price_n p) = false) as -> by (destruct stays; lia).
  assert (negb stays && (w * price_n p <? h * price_d p) = false) as -> by (destruct stays; simpl; lia).
  destruct path; cbn [negb]; rewrite checkPriceErrorBound_spec by done; cbn [andb];
    rewrite ?orb_false_l, ?orb_false_r.
  - rewrite orb_comm. by destruct (_ || _).
  - by destruct (priceErrorOk p w h).
Qed.

Lemma exchangeV10_spec {S} p mws mwr mss msr path (s : S) :
  validPrice p → validLimits mws mwr mss msr →
  let W := offerValue (price_n p) (price_d p) mws msr in
  let Sh := offerValue (price_d p) (price_n p) mss mwr in
  let '(w, h) := exchangeAmounts p W Sh path in
  exchangeV10 p mws mwr mss msr path s =
    if (0 <? w) && (0 <? h) then
      if priceErrorOk p w h || (path && (price_n p * w <? price_d p * h))
      then Ok (mkExchangeResultV10 w h (Sh <? W)) s
      else if path then Throw "exceeded price error bound" s else Ok (mkExchangeResultV10 0 0 (Sh <? W)) s
    else Ok (mkExchangeResultV10 0 0 (Sh <? W)) s.
Proof.
  intros Hp Hl W Sh. pose proof (exchangeV10Without_spec p mws mwr mss msr path s Hp Hl) as E.
  pose proof (exchangeAmounts_favours p W Sh path Hp) as Hf.
  destruct Hl as (Hws & Hwr & Hss & Hsr).
  assert (withinLimits p mws mwr mss msr (exchangeAmounts p W Sh path)) as [Hw Hh]
    by (unfold is_i64 in *; apply exchangeAmounts_limits; [done|lia..]).
  cbn zeta in E. fold W Sh in E. destruct (exchangeAmounts p W Sh path) as [w h].
  unfold exchangeV10, mbind, M_bind. rewrite E. cbn [fst snd numWheatReceived10 numSheepSend10 wheatStays10] in *.
  apply applyPriceErrorThresholds_spec; [done|unfold is_i64 in *; lia..|done].
Qed.

(** ** [adjustOffer] *)

(** With no limit on the other side the offer is always used up. *)
Lemma adjust_sheep_stays p m r :
  validPrice p → is_i64 m → is_i64 r →
  (offerValue (price_d p) (price_n p) INT64_MAX INT64_MAX <? offerValue (price_n p) (price_d p) m r) = false.
Proof.
  intros (Hn0 & Hn & Hd0 & Hd) Hm Hr. unfold is_i64 in *. apply Z.ltb_ge. unfold offerValue.
  destruct (Z.le_gt_cases (price_d p) (price_n p)).
  - etrans; [apply Z.le_min_r|]. apply Z.min_glb; nia.
  - etrans; [apply Z.le_min_l|]. apply Z.min_glb; nia.
Qed.

(** The amounts exchanged when the offer is used up. *)
Definition usedUp (p : Price) (W : Z) : Z * Z :=
  let n := price_n p in let d := price_d p in
  if d <? n
  then let w := divRound ROUND_DOWN W n in (w, divRound ROUND_DOWN (w * n) d)
  else let h := divRound ROUND_DOWN W d in (divRound ROUND_UP (h * d) n, h).

Lemma exchangeAmounts_usedUp p W Sh path : W <= Sh → exchangeAmounts p W Sh path = usedUp p W.
Proof. intros. unfold exchangeAmounts. by rewrite (proj2 (Z.ltb_ge Sh W)). Qed.

Definition adjusted (p : Price) (m r : Z) : Z :=
  let '(w, h) := usedUp p (offerValue (price_n p) (price_d p) m r) in
  if (0 <? w) && (0 <? h) && priceErrorOk p w h then w else 0.

Lemma adjustOffer_spec {S} p m r (s : S) :
  validPrice p → is_i64 m → is_i64 r → adjustOffer p m r s = Ok (adjusted p m r) s.
Proof.
  intros Hp Hm Hr. unfold adjustOffer, adjusted, mbind, M_bind.
  pose proof (exchangeV10_spec p m INT64_MAX INT64_MAX r false s Hp) as E. cbn zeta in E.
  pose proof (adjust_sheep_stays p m r Hp Hm Hr) as Hst. rewrite Hst in E. apply Z.ltb_ge in Hst.
  rewrite exchangeAmounts_usedUp in E by done.
  destruct (usedUp p _) as [w h]. rewrite E by (unfold validLimits, is_i64, INT64_MAX in *; lia).
  destruct ((0 <? w) && (0 <? h)); [|done]. cbn [andb orb]. rewrite orb_false_r.
  by destruct (priceErrorOk p w h).
Qed.

(** Giving up the part of an offer that cannot be exchanged does not change what
    is exchanged. *)
Lemma usedUp_stable p m r :
  validPrice p → 0 <= m → 0 <= r →
  let '(w, h) := usedUp p (offerValue (price_n p) (price_d p) m r) in
  usedUp p (offerValue (price_n p) (price_d p) w r) = (w, h).
Proof.
  intros (Hn0 & Hn & Hd0 & Hd) Hm Hr. unfold usedUp, offerValue.
  set (n := price_n p) in *. set (d := price_d p) in *. set (W := Z.min (m * n) (r * d)).
  assert (0 <= W) by (subst W; nia).
  destruct (Z.ltb_spec d n).
  - pose proof (divRound_down_mul W n Hn0). set (w := divRound ROUND_DOWN W n) in *.
    rewrite (Z.min_l (w * n)) by (subst W; lia). simpl. by rewrite Z.div_mul by lia.
  - pose proof (divRound_down_mul W d Hd0). set (h := divRound ROUND_DOWN W d) in *.
    pose proof (divRound_up_mul (h * d) n Hn0). set (w := divRound ROUND_UP (h * d) n) in *.
    enough (divRound ROUND_DOWN (Z.min (w * n) (r * d)) d = h) as -> by done. simpl. symmetry.
    apply Z.div_unique with (Z.min (w * n) (r * d) - d * h); subst W; lia.
Qed.

Lemma usedUp_0 p : validPrice p → usedUp p 0 = (0, 0).
Proof.
  intros (Hn0 & _ & Hd0 & _). unfold usedUp. destruct (_ <? _); simpl.
  all: rewrite ?(Z.div_small 0) by lia; f_equal; apply Z.div_small; lia.
Qed.

Lemma adjusted_cases p m r :
  validPrice p → 0 <= m → 0 <= r →
  (adjusted p m r = 0) ∨
  (∃ h, usedUp p (offerValue (price_n p) (price_d p) (adjusted p m r) r) = (adjusted p m r, h) ∧
    0 < adjusted p m r ∧ 0 < h ∧ priceErrorOk p (adjusted p m r) h = true).
Proof.
  intros Hp Hm Hr. pose proof (usedUp_stable p m r Hp Hm Hr) as Hs. unfold adjusted.
  destruct (usedUp p (offerValue (price_n p) (price_d p) m r)) as [w h].
  destruct (_ && _) eqn:E; [|by left]. propify. right. exists h. split_and!; done.
Qed.

Lemma offerValue_0 p r : validPrice p → 0 <= r → offerValue (price_n p) (price_d p) 0 r = 0.
Proof. intros (Hn0 & _ & Hd0 & _) Hr. unfold offerValue. nia. Qed.

Lemma adjusted_idem p m r :
  validPrice p → 0 <= m → 0 <= r → adjusted p (adjusted p m r) r = adjusted p m r.
Proof.
  intros Hp Hm Hr. destruct (adjusted_cases p m r Hp Hm Hr) as [->|(h & E & Hw & Hh & Hok)].
  - unfold adjusted. rewrite offerValue_0, usedUp_0 by done. done.
  - unfold adjusted at 1. rewrite E, Hok. by rewrite (proj2 (Z.ltb_lt _ _) Hw), (proj2 (Z.ltb_lt _ _) Hh).
Qed.

Lemma adjusted_range p m r : validPrice p → is_i64 m → is_i64 r → 0 <= adjusted p m r <= m.
Proof.
  intros Hp Hm Hr. pose proof (adjust_sheep_stays p m r Hp Hm Hr) as Hst. apply Z.ltb_ge in Hst.
  unfold is_i64 in *. destruct (exchangeAmounts_limits p m INT64_MAX INT64_MAX r false Hp) as [Hw Hh]; [lia..|].
  rewrite exchangeAmounts_usedUp in Hw, Hh by done. unfold adjusted.
  destruct (usedUp p _) as [w h]. simpl in *. destruct (_ && _); lia.
Qed.

(** ** The exchanges before protocol version 10 *)

(** What [exchangeV2] and [exchangeV3] guarantee to the taker and the maker: no
    limit is passed, and the maker is paid at least the price of the offer. *)
Definition fairExchange (p : Price) (wheatReceived maxWheatReceive maxSheepSend : Z)
    (r : ExchangeResult) : Prop :=
  0 <= numWheatReceived r <= Z.min wheatReceived maxWheatReceive ∧
  0 <= numSheepSend r <= maxSheepSend ∧
  numWheatReceived r * price_n p <= numSheepSend r * price_d p.

(** The result of a division capped at the largest amount. *)
Lemma capped_division {S} A B C r (s : S) :
  is_i64 A → is_i64 B → is_i64 C → C ≠ 0 →
  ∃ ok v, bigDivide_i64 0 A B C r s = Ok (ok, v) s ∧ ok = (divRound r (A * B) C <=? INT64_MAX) ∧
    (if ok : bool then v else INT64_MAX) = Z.min (divRound r (A * B) C) INT64_MAX.
Proof.
  intros HA HB HC HC0. destruct (bigDivide_i64_spec 0 A B C r s) as (v & -> & Hv); [done..|].
  do 2 eexists. split_and!; [done..|].
  destruct (Z.leb_spec (divRound r (A * B) C) INT64_MAX); [rewrite Hv by done|]; lia.
Qed.

(** [exchangeV2] returns for every valid offer and all limits. The sheep sent
    is the value of the available wheat rounded down, cut to what the taker can
    send; the wheat received is the value of that sheep rounded down; so no limit
    is passed and the seller of wheat is never underpaid. *)
Theorem exchangeV2_ok {S} p wr mwr mss (s : S) :
  validPrice p → is_i64 wr → is_i64 mwr → is_i64 mss →
  let value := divRound ROUND_DOWN (Z.min wr mwr * price_n p) (price_d p) in
  ∃ r, exchangeV2 wr p mwr mss s = Ok r s ∧ fairExchange p wr mwr mss r ∧
    numSheepSend r = Z.min (Z.min value INT64_MAX) mss ∧
    numWheatReceived r = divRound ROUND_DOWN (numSheepSend r * price_d p) (price_n p) ∧
    reduced r = (mwr <? wr) || (mss <? Z.min value INT64_MAX).
Proof.
  intros (Hn0 & Hn & Hd0 & Hd) Hwr Hmwr Hmss value. unfold exchangeV2, mbind, M_bind.
  assert (is_i64 (Z.min wr mwr)) as Hm by (unfold is_i64 in *; lia).
  destruct (capped_division (Z.min wr mwr) (price_n p) (price_d p) ROUND_DOWN s) as (ok & v & -> & Eok & Ev);
    [auto with u128; lia..|]. rewrite Ev.
  pose proof (divRound_down_mul (Z.min wr mwr * price_n p) (price_d p) Hd0).
  assert (0 <= divRound ROUND_DOWN (Z.min wr mwr * price_n p) (price_d p))
    by (apply divRound_ge0; unfold is_i64 in *; nia).
  set (q := divRound ROUND_DOWN (Z.min wr mwr * price_n p) (price_d p)) in *.
  set (h := Z.min (Z.min q INT64_MAX) mss).
  assert (is_i64 h ∧ h <= q) as [Hh Hhq] by (subst h; unfold is_i64 in *; lia).
  pose proof (divRound_down_mul (h * price_d p) (price_n p) Hn0).
  assert (0 <= divRound ROUND_DOWN (h * price_d p) (price_n p) <= Z.min wr mwr) as Hw.
  { split; [apply divRound_ge0; unfold is_i64 in *; nia|nia]. }
  rewrite bigDivide_fits by (auto with u128; unfold is_i64 in *; lia).
  eexists. split; [reflexivity|]. unfold fairExchange. cbn [numWheatReceived numSheepSend].
  subst h. unfold is_i64 in *. split_and!; first [lia|done].
Qed.

Lemma exchangeV2_ok_witness : ∃ r : ExchangeResult,
  exchangeV2 10 (mkPrice 3 2) 7 100 tt = Ok r tt ∧ fairExchange (mkPrice 3 2) 10 7 100 r.
Proof.
  destruct (exchangeV2_ok (mkPrice 3 2) 10 7 100 tt) as (r & E & Hr & _);
    [unfold validPrice, is_i32, is_i64, INT64_MAX; simpl; lia..|].
  exists r. split; [exact E|exact Hr].
Defined.

(** [exchangeV3] returns for every valid offer and all limits. The sheep sent
    is the value of the available wheat rounded up, cut to what the taker can
    send; the wheat received is what that sheep pays for, at most what is
    available; so no limit is passed and the seller of wheat is never underpaid. *)
Theorem exchangeV3_ok {S} p wr mwr mss (s : S) :
  validPrice p → is_i64 wr → is_i64 mwr → is_i64 mss →
  let value := divRound ROUND_UP (Z.min wr mwr * price_n p) (price_d p) in
  ∃ r, exchangeV3 wr p mwr mss s = Ok r s ∧ fairExchange p wr mwr mss r ∧
    numSheepSend r = Z.min (Z.min value INT64_MAX) mss ∧
    numWheatReceived r =
      Z.min (Z.min wr mwr) (Z.min (divRound ROUND_DOWN (numSheepSend r * price_d p) (price_n p)) INT64_MAX) ∧
    reduced r = (mwr <? wr) || (mss <? value).
Proof.
  intros (Hn0 & Hn & Hd0 & Hd) Hwr Hmwr Hmss value. unfold exchangeV3, mbind, M_bind.
  assert (is_i64 (Z.min wr mwr)) as Hm by (unfold is_i64 in *; lia).
  destruct (capped_division (Z.min wr mwr) (price_n p) (price_d p) ROUND_UP s) as (ok & v & -> & Eok & Ev);
    [auto with u128; lia..|]. rewrite Ev.
  assert (0 <= divRound ROUND_UP (Z.min wr mwr * price_n p) (price_d p))
    by (apply divRound_ge0; unfold is_i64 in *; nia).
  set (h := Z.min (Z.min (divRound ROUND_UP _ _) INT64_MAX) mss).
  assert (is_i64 h ∧ h <= mss) as [Hh Hhq] by (subst h; unfold is_i64 in *; lia).
  destruct (capped_division h (price_d p) (price_n p) ROUND_DOWN s) as (ok' & v' & -> & _ & Ev');
    [auto with u128; lia..|]. rewrite Ev'.
  pose proof (divRound_down_mul (h * price_d p) (price_n p) Hn0).
  pose proof (divRound_ge0 ROUND_DOWN (h * price_d p) (price_n p)).
  eexists. split; [reflexivity|]. unfold fairExchange. cbn [numWheatReceived numSheepSend].
  assert ((if ok then mwr <? wr else true) || (mss <? Z.min value INT64_MAX) = (mwr <? wr) || (mss <? value)) as Er.
  { subst ok. fold value. unfold is_i64 in *. destruct (Z.leb_spec value INT64_MAX), (mwr <? wr); simpl; lia. }
  split; [clear Er Eok Ev Ev' value; clearbody h; unfold is_i64, INT64_MAX in *; split_and!; nia|]. split_and!; [done..|exact Er].
Qed.

Lemma exchangeV3_ok_witness : ∃ r : ExchangeResult,
  exchangeV3 10 (mkPrice 3 2) 7 100 tt = Ok r tt ∧ fairExchange (mkPrice 3 2) 10 7 100 r.
Proof.
  destruct (exchangeV3_ok (mkPrice 3 2) 10 7 100 tt) as (r & E & Hr & _);
    [unfold validPrice, is_i32, is_i64, INT64_MAX; simpl; lia..|].
  exists r. split; [exact E|exact Hr].
Defined.

(** ** Properties *)

(** The price error of a successful exchange is at most one percent, or favours
    the offer that stays. *)
Definition fairExchange10 (p : Price) (mws mwr mss msr : Z) (path : bool) (r : ExchangeResultV10) : Prop :=
  let w := numWheatReceived10 r in let h := numSheepSend10 r in
  0 <= w <= Z.min mwr mws ∧ 0 <= h <= Z.min msr mss ∧
  (if wheatStays10 r then price_n p * w <= price_d p * h else price_d p * h <= price_n p * w) ∧
  ((path = true ∧ wheatStays10 r = true) ∨
   Z.abs (100 * price_n p * w - 100 * price_d p * h) <= price_n p * w).

Lemma fair_amounts p mws mwr mss msr path :
  validPrice p → validLimits mws mwr mss msr →
  let W := offerValue (price_n p) (price_d p) mws msr in
  let Sh := offerValue (price_d p) (price_n p) mss mwr in
  let '(w, h) := exchangeAmounts p W Sh path in
  (priceErrorOk p w h = true ∨ path = true ∧ Sh < W) →
  fairExchange10 p mws mwr mss msr path (mkExchangeResultV10 w h (Sh <? W)).
Proof.
  intros Hp (Hws & Hwr & Hss & Hsr) W Sh. unfold is_i64 in *.
  destruct (exchangeAmounts_limits p mws mwr mss msr path Hp) as [Hw Hh]; [lia..|].
  pose proof (exchangeAmounts_favours p W Sh path Hp) as Hf. fold W Sh in Hw, Hh.
  destruct (exchangeAmounts p W Sh path) as [w h]. cbn [fst snd] in *. intros Hok.
  unfold fairExchange10. cbn [numWheatReceived10 numSheepSend10 wheatStays10].
  split_and!; [lia..|exact Hf|]. destruct Hok as [Hok|[-> ?]]; [right|left; lia].
  unfold priceErrorOk in Hok. lia.
Qed.

Lemma fair_nothing p mws mwr mss msr path b :
  validPrice p → validLimits mws mwr mss msr →
  fairExchange10 p mws mwr mss msr path (mkExchangeResultV10 0 0 b).
Proof.
  intros _ (Hws & Hwr & Hss & Hsr). unfold is_i64 in *. unfold fairExchange10. simpl.
  rewrite !Z.mul_0_r. split_and!; try lia. by destruct b.
Qed.

(** In a path payment [exchangeV10] against an offer that has been adjusted
    never throws, whatever the limits of the taker; no limit is passed, and the
    price error is at most one percent or in favour of the offer that stays. *)
Theorem exchangeV10_path_ok {S} p m mwr mss msr (s : S) :
  validPrice p → validLimits m mwr mss msr →
  let amount := adjusted p m msr in
  ∃ r, exchangeV10 p amount mwr mss msr true s = Ok r s ∧ fairExchange10 p amount mwr mss msr true r.
Proof.
  intros Hp Hl amount. assert (validLimits amount mwr mss msr) as Hl'.
  { destruct Hl as (? & ? & ? & ?). pose proof (adjusted_range p m msr ltac:(done) ltac:(done) ltac:(done)).
    split_and!; try done. unfold is_i64 in *. subst amount. lia. }
  pose proof (exchangeV10_spec p amount mwr mss msr true s Hp Hl') as E.
  pose proof (fair_amounts p amount mwr mss msr true Hp Hl') as Hf. cbn zeta in E, Hf.
  pose proof (fair_nothing p amount mwr mss msr true) as H0.
  set (W := offerValue (price_n p) (price_d p) amount msr) in *.
  set (Sh := offerValue (price_d p) (price_n p) mss mwr) in *.
  destruct (Z.ltb_spec Sh W) as [Hlt|Hge].
  - pose proof (exchangeAmounts_favours p W Sh true Hp) as Hfav. rewrite (proj2 (Z.ltb_lt Sh W)) in Hfav by done.
    destruct (exchangeAmounts p W Sh true) as [w h]. rewrite E.
    destruct ((0 <? w) && (0 <? h)) eqn:Ep; [|eexists; split; [reflexivity|auto]].
    assert (priceErrorOk p w h || (true && (price_n p * w <? price_d p * h)) = true) as ->.
    { destruct (price_n p * w <? price_d p * h) eqn:E1; [by rewrite orb_true_r|].
      propify. unfold priceErrorOk. destruct Hp. lia. }
    eexists. split; [reflexivity|]. auto.
  - rewrite exchangeAmounts_usedUp in E, Hf by done.
    destruct (adjusted_cases p m msr Hp) as [E0|(h & Eu & Hw & Hh & Hok)];
      [destruct Hl as (? & ? & ? & ?); unfold is_i64 in *; lia..| |].
    + fold amount in E0. assert (W = 0) as EW
        by (subst W; rewrite E0; apply offerValue_0; [done|]; destruct Hl as (? & ? & ? & ?); unfold is_i64 in *; lia).
      rewrite EW, usedUp_0 in E by done. rewrite E. eexists. split; [reflexivity|auto].
    + fold amount in Eu, Hw, Hok. fold W in Eu. rewrite Eu in E, Hf. rewrite E, Hok.
      rewrite (proj2 (Z.ltb_lt _ _) Hw), (proj2 (Z.ltb_lt _ _) Hh). eexists. split; [reflexivity|auto].
Qed.

Lemma exchangeV10_path_ok_witness : ∃ r : ExchangeResultV10,
  exchangeV10 (mkPrice 3 2) (adjusted (mkPrice 3 2) 7 100) 5 100 100 true tt = Ok r tt.
Proof.
  destruct (exchangeV10_path_ok (mkPrice 3 2) 7 5 100 100 tt) as (r & E & _);
    [unfold validPrice, validLimits, is_i32, is_i64, INT64_MAX; simpl; lia..|].
  exists r. exact E.
Defined.

(** C40: [exchangeV10] outside path payments returns for every valid offer and all
    limits. The amounts are those of [exchangeAmounts], unless one of them is zero
    or the price error exceeds one percent, when nothing is exchanged; no limit is
    passed and the offer that stays is never worse off than at its own price. *)
Theorem exchangeV10_ok {S} p mws mwr mss msr (s : S) :
  validPrice p → validLimits mws mwr mss msr →
  let W := offerValue (price_n p) (price_d p) mws msr in
  let Sh := offerValue (price_d p) (price_n p) mss mwr in
  let '(w, h) := exchangeAmounts p W Sh false in
  let r := if (0 <? w) && (0 <? h) && priceErrorOk p w h
           then mkExchangeResultV10 w h (Sh <? W) else mkExchangeResultV10 0 0 (Sh <? W) in
  exchangeV10 p mws mwr mss msr false s = Ok r s ∧ fairExchange10 p mws mwr mss msr false r.
Proof.
  intros Hp Hl W Sh. pose proof (exchangeV10_spec p mws mwr mss msr false s Hp Hl) as E.
  pose proof (fair_amounts p mws mwr mss msr false Hp Hl) as Hf. cbn zeta in E, Hf. fold W Sh in E, Hf.
  pose proof (fair_nothing p mws mwr mss msr false) as H0.
  destruct (exchangeAmounts p W Sh false) as [w h]. rewrite E. cbn [andb]. rewrite orb_false_r.
  destruct ((0 <? w) && (0 <? h)); [destruct (priceErrorOk p w h)|]; simpl; auto.
Qed.

Lemma exchangeV10_ok_witness :
  exchangeV10 (mkPrice 3 2) 1000 2000 600 5000 false tt = Ok (mkExchangeResultV10 400 600 true) tt.
Proof.
  refine (proj1 (exchangeV10_ok (mkPrice 3 2) 1000 2000 600 5000 tt _ _));
    unfold validPrice, validLimits, is_i32, is_i64, INT64_MAX; simpl; lia.
Defined.

(** [adjustOffer] returns for every valid offer; it never increases the
    amount for sale, adjusting twice changes nothing more, and an adjusted offer
    that is not empty can be executed in full: against a taker without limits it
    is used up. *)
Theorem adjustOffer_ok {S} p m r (s : S) :
  validPrice p → is_i64 m → is_i64 r →
  ∃ a, adjustOffer p m r s = Ok a s ∧ 0 <= a <= m ∧ adjustOffer p a r s = Ok a s ∧
    (a ≠ 0 → ∃ h, 0 < h ∧ exchangeV10 p a INT64_MAX INT64_MAX r false s = Ok (mkExchangeResultV10 a h false) s).
Proof.
  intros Hp Hm Hr. pose proof (adjusted_range p m r Hp Hm Hr) as Ha. exists (adjusted p m r).
  assert (is_i64 (adjusted p m r)) as Ha' by (unfold is_i64 in *; lia).
  rewrite !adjustOffer_spec, adjusted_idem by (done || unfold is_i64 in *; lia). split_and!; try done; try lia.
  intros Hne. destruct (adjusted_cases p m r Hp) as [|(h & Eu & Hw & Hh & Hok)]; [unfold is_i64 in *; lia..|done|].
  exists h. split; [done|]. set (a := adjusted p m r) in *.
  pose proof (exchangeV10_spec p a INT64_MAX INT64_MAX r false s Hp) as E. cbn zeta in E.
  pose proof (adjust_sheep_stays p a r Hp Ha' Hr) as Hst. rewrite Hst in E. apply Z.ltb_ge in Hst.
  rewrite exchangeAmounts_usedUp, Eu in E by done. rewrite E by (unfold validLimits, is_i64, INT64_MAX in *; lia).
  by rewrite (proj2 (Z.ltb_lt _ _) Hw), (proj2 (Z.ltb_lt _ _) Hh), Hok.
Qed.

Lemma adjustOffer_ok_witness : ∃ a, adjustOffer (mkPrice 3 2) 7 100 tt = Ok a tt ∧ 0 <= a <= 7.
Proof.
  destruct (adjustOffer_ok (mkPrice 3 2) 7 100 tt) as (a & E & Ha & _);
    [unfold validPrice, is_i32, is_i64, INT64_MAX; simpl; lia..|].
  exists a. split; [exact E|exact Ha].
Defined.
