(* ===== verification/LedgerEntries.v ===== *)
(** * Ledger entries

    The XDR types of the ledger ([xdr/vii-ledger-entries.x], [xdr/vii-ledger.x]), the key of an entry
    ([util/types.cpp]) and the order of offers ([ledger/LedgerTxnOfferSQL.cpp]), which compares
    prices as doubles. A double is a [spec_float] of 53 bits, the division is the one of IEEE 754.

    Accounts are numbers, strings and opaque data are lists of bytes. *)
From stdpp Require Import base list gmap countable sorting.
From Stdlib Require Import ZArith Lia SpecFloat.
From S2P Require Import Prelude Numeric.

(** ** Assets and keys *)

Notation AccountID := Z (only parsing).
Notation Bytes := (list Z) (only parsing).

Inductive Asset : Type :=
| ASSET_TYPE_NATIVE
| ASSET_TYPE_CREDIT_ALPHANUM4 (assetCode : Bytes) (issuer : AccountID)
| ASSET_TYPE_CREDIT_ALPHANUM12 (assetCode : Bytes) (issuer : AccountID).
#[global] Instance Asset_eq_dec : EqDecision Asset.
Proof. solve_decision. Defined.
#[global] Instance Asset_countable : Countable Asset.
Proof.
  refine (inj_countable'
    (λ a, match a with
          | ASSET_TYPE_NATIVE => inl ()
          | ASSET_TYPE_CREDIT_ALPHANUM4 c i => inr (inl (c, i))
          | ASSET_TYPE_CREDIT_ALPHANUM12 c i => inr (inr (c, i))
          end)
    (λ s, match s with
          | inl _ => ASSET_TYPE_NATIVE
          | inr (inl (c, i)) => ASSET_TYPE_CREDIT_ALPHANUM4 c i
          | inr (inr (c, i)) => ASSET_TYPE_CREDIT_ALPHANUM12 c i
          end) _).
  by intros [].
Defined.

Definition isNative (a : Asset) : bool := match a with ASSET_TYPE_NATIVE => true | _ => false end.

(** [None]: the access to the union throws. *)
Definition getIssuer (a : Asset) : option AccountID :=
  match a with
  | ASSET_TYPE_NATIVE => None
  | ASSET_TYPE_CREDIT_ALPHANUM4 _ i => Some i
  | ASSET_TYPE_CREDIT_ALPHANUM12 _ i => Some i
  end.

Inductive LedgerKey : Type :=
| ACCOUNT (accountID : AccountID)
| TRUSTLINE (accountID : AccountID) (asset : Asset)
| OFFER (sellerID : AccountID) (offerID : Z)
| DATA (accountID : AccountID) (dataName : Bytes).
#[global] Instance LedgerKey_eq_dec : EqDecision LedgerKey.
Proof. solve_decision. Defined.
#[global] Instance LedgerKey_countable : Countable LedgerKey.
Proof.
  refine (inj_countable'
    (λ k, match k with
          | ACCOUNT a => inl (inl a)
          | TRUSTLINE a s => inl (inr (a, s))
          | OFFER a o => inr (inl (a, o))
          | DATA a d => inr (inr (a, d))
          end)
    (λ s, match s with
          | inl (inl a) => ACCOUNT a
          | inl (inr (a, s)) => TRUSTLINE a s
          | inr (inl (a, o)) => OFFER a o
          | inr (inr (a, d)) => DATA a d
          end) _).
  by intros [].
Defined.

Definition isOfferKey (k : LedgerKey) : bool := match k with OFFER _ _ => true | _ => false end.

(** ** Entries *)

Record Liabilities := mkLiabilities { buying_ : Z; selling_ : Z }.
(** Keys and hashes are numbers of 256 bits, the first byte the highest one. *)
Inductive SignerKey :=
| SIGNER_KEY_TYPE_ED25519 (ed25519 : Z)
| SIGNER_KEY_TYPE_PRE_AUTH_TX (preAuthTx : Z)
| SIGNER_KEY_TYPE_HASH_X (hashX : Z).
Record Signer := mkSigner { signer_key : SignerKey; signer_weight : Z }.

(** The extension of accounts and trust lines: nothing in version 0, liabilities in version 1. *)
Notation Ext := (option Liabilities) (only parsing).

Record AccountEntry := mkAccount {
  acc_accountID : AccountID; acc_balance : Z; acc_seqNum : Z; acc_numSubEntries : Z;
  acc_inflationDest : option AccountID; acc_flags : Z; acc_homeDomain : Bytes;
  acc_thresholds : Bytes; acc_signers : list Signer; acc_ext : Ext }.

Record TrustLineEntry := mkTrustLine {
  tl_accountID : AccountID; tl_asset : Asset; tl_balance : Z; tl_limit : Z; tl_flags : Z; tl_ext : Ext }.

Record OfferEntry := mkOffer {
  oe_sellerID : AccountID; oe_offerID : Z; oe_selling : Asset; oe_buying : Asset; oe_amount : Z;
  oe_price : Price; oe_flags : Z }.

Record DataEntry := mkData { data_accountID : AccountID; data_dataName : Bytes; data_dataValue : Bytes }.

Inductive EntryData : Type :=
| Account (a : AccountEntry)
| TrustLine (t : TrustLineEntry)
| Offer (o : OfferEntry)
| Data (d : DataEntry).

Record LedgerEntry := mkEntry { lastModifiedLedgerSeq : Z; data : EntryData }.

Record LedgerHeader := mkHeader {
  ledgerVersion : Z; ledgerSeq : Z; totalCoins : Z; feePool : Z; inflationSeq : Z; idPool : Z;
  baseFee : Z; baseReserve : Z; maxTxSetSize : Z; closeTime : Z }.

Definition LedgerEntryKey (e : LedgerEntry) : LedgerKey :=
  match data e with
  | Account a => ACCOUNT (acc_accountID a)
  | TrustLine t => TRUSTLINE (tl_accountID t) (tl_asset t)
  | Offer o => OFFER (oe_sellerID o) (oe_offerID o)
  | Data d => DATA (data_accountID d) (data_dataName d)
  end.

Definition accountKey (a : AccountID) : LedgerKey := ACCOUNT a.
Definition trustlineKey (a : AccountID) (s : Asset) : LedgerKey := TRUSTLINE a s.
Definition offerKey (a : AccountID) (o : Z) : LedgerKey := OFFER a o.
Definition dataKey (a : AccountID) (n : Bytes) : LedgerKey := DATA a n.

#[global] Instance Liabilities_eq_dec : EqDecision Liabilities.
Proof. solve_decision. Defined.
#[global] Instance SignerKey_eq_dec : EqDecision SignerKey.
Proof. solve_decision. Defined.
#[global] Instance Signer_eq_dec : EqDecision Signer.
Proof. solve_decision. Defined.
#[global] Instance Price_eq_dec : EqDecision Price.
Proof. solve_decision. Defined.
#[global] Instance AccountEntry_eq_dec : EqDecision AccountEntry.
Proof. solve_decision. Defined.
#[global] Instance TrustLineEntry_eq_dec : EqDecision TrustLineEntry.
Proof. solve_decision. Defined.
#[global] Instance OfferEntry_eq_dec : EqDecision OfferEntry.
Proof. solve_decision. Defined.
#[global] Instance DataEntry_eq_dec : EqDecision DataEntry.
Proof. solve_decision. Defined.
#[global] Instance EntryData_eq_dec : EqDecision EntryData.
Proof. solve_decision. Defined.
#[global] Instance LedgerEntry_eq_dec : EqDecision LedgerEntry.
Proof. solve_decision. Defined.
#[global] Instance LedgerHeader_eq_dec : EqDecision LedgerHeader.
Proof. solve_decision. Defined.

(** ** The order of offers *)

(** [double(x)] of a 32-bit integer, and the division of doubles. *)
Definition double (x : Z) : spec_float := binary_normalize 53 1024 x 0 false.
Definition priceDouble (p : Price) : spec_float := SFdiv 53 1024 (double (price_n p)) (double (price_d p)).

Definition isBetterOffer (lhs rhs : OfferEntry) : bool :=
  let lhsPrice := priceDouble (oe_price lhs) in
  let rhsPrice := priceDouble (oe_price rhs) in
  if SFltb lhsPrice rhsPrice then true
  else if SFeqb lhsPrice rhsPrice then oe_offerID lhs <? oe_offerID rhs
  else false.
