(* ===== verification/Balances.v ===== *)
(** * Balances and liabilities: [transactions/TransactionUtils.cpp]

    What transactions do to one entry: balances, the liabilities of offers, the number of
    subentries, flags. The functions of the source take handles on the header and on an entry; here
    they take the header and change the entry, and [TrustLines] gives them the handles. Below version
    10 there are no liabilities and reading them throws. *)
From stdpp Require Import base list gmap strings.
From Stdlib Require Import ZArith Lia.
From S2P Require Import Prelude UInt128 Numeric Exchange LedgerEntries.

Definition AUTH_REQUIRED_FLAG : Z := 1.
Definition AUTH_REVOCABLE_FLAG : Z := 2.
Definition AUTH_IMMUTABLE_FLAG : Z := 4.
Definition AUTHORIZED_FLAG : Z := 1.
Definition FIRST_PROTOCOL_SUPPORTING_OPERATION_LIMITS : Z := 11.
Definition ACCOUNT_SUBENTRY_LIMIT : Z := 1000.

(** ** Access to the union *)

Definition wrongUnion {S A} : M S A := throw "accessing wrong union field".
Definition account {S} (le : LedgerEntry) : M S AccountEntry :=
  match data le with Account a => mret a | _ => wrongUnion end.
Definition trustLine {S} (le : LedgerEntry) : M S TrustLineEntry :=
  match data le with TrustLine t => mret t | _ => wrongUnion end.
Definition offer {S} (le : LedgerEntry) : M S OfferEntry :=
  match data le with Offer o => mret o | _ => wrongUnion end.

Definition setAccount (a : AccountEntry) (e : LedgerEntry) : LedgerEntry := mkEntry (lastModifiedLedgerSeq e) (Account a).
Definition setTrustLine (t : TrustLineEntry) (e : LedgerEntry) : LedgerEntry := mkEntry (lastModifiedLedgerSeq e) (TrustLine t).
Definition setOffer (o : OfferEntry) (e : LedgerEntry) : LedgerEntry := mkEntry (lastModifiedLedgerSeq e) (Offer o).

Definition acc_setBalance (b : Z) (a : AccountEntry) : AccountEntry :=
  mkAccount (acc_accountID a) b (acc_seqNum a) (acc_numSubEntries a) (acc_inflationDest a) (acc_flags a)
    (acc_homeDomain a) (acc_thresholds a) (acc_signers a) (acc_ext a).
Definition acc_setNumSubEntries (n : Z) (a : AccountEntry) : AccountEntry :=
  mkAccount (acc_accountID a) (acc_balance a) (acc_seqNum a) n (acc_inflationDest a) (acc_flags a)
    (acc_homeDomain a) (acc_thresholds a) (acc_signers a) (acc_ext a).
Definition acc_setExt (x : option Liabilities) (a : AccountEntry) : AccountEntry :=
  mkAccount (acc_accountID a) (acc_balance a) (acc_seqNum a) (acc_numSubEntries a) (acc_inflationDest a) (acc_flags a)
    (acc_homeDomain a) (acc_thresholds a) (acc_signers a) x.
Definition tl_setBalance (b : Z) (t : TrustLineEntry) : TrustLineEntry :=
  mkTrustLine (tl_accountID t) (tl_asset t) b (tl_limit t) (tl_flags t) (tl_ext t).
Definition tl_setFlags (f : Z) (t : TrustLineEntry) : TrustLineEntry :=
  mkTrustLine (tl_accountID t) (tl_asset t) (tl_balance t) (tl_limit t) f (tl_ext t).
Definition tl_setExt (x : option Liabilities) (t : TrustLineEntry) : TrustLineEntry :=
  mkTrustLine (tl_accountID t) (tl_asset t) (tl_balance t) (tl_limit t) (tl_flags t) x.
Definition oe_setAmount (x : Z) (o : OfferEntry) : OfferEntry :=
  mkOffer (oe_sellerID o) (oe_offerID o) (oe_selling o) (oe_buying o) x (oe_price o) (oe_flags o).

(** [ext.v(1)] with zero liabilities when the extension is empty, then the assignment of a field. *)
Definition extV1 (x : option Liabilities) : Liabilities := default (mkLiabilities 0 0) x.
Definition setBuying (b : Z) (x : option Liabilities) : option Liabilities := Some (mkLiabilities b (selling_ (extV1 x))).
Definition setSelling (s : Z) (x : option Liabilities) : option Liabilities := Some (mkLiabilities (buying_ (extV1 x)) s).

(** ** Readers *)

Section Readers.
Context {S : Type} (header : LedgerHeader).

(** In version 8 and below the product of two 32-bit numbers wraps around. *)
Definition getMinBalance (ownerCount : Z) : Z :=
  if ledgerVersion header <=? 8 then u32 (u32 (2 + ownerCount) * baseReserve header)
  else s64 (u32 (2 + ownerCount) * baseReserve header).

Definition getBuyingLiabilities (le : LedgerEntry) : M S Z :=
  if ledgerVersion header <? 10 then throw "Liabilities accessed before version 10"
  else match data le with
  | Account acc => mret (match acc_ext acc with None => 0 | Some l => buying_ l end)
  | TrustLine tl => mret (match tl_ext tl with None => 0 | Some l => buying_ l end)
  | _ => throw "Unknown LedgerEntry type"
  end.

Definition getSellingLiabilities (le : LedgerEntry) : M S Z :=
  if ledgerVersion header <? 10 then throw "Liabilities accessed before version 10"
  else match data le with
  | Account acc => mret (match acc_ext acc with None => 0 | Some l => selling_ l end)
  | TrustLine tl => mret (match tl_ext tl with None => 0 | Some l => selling_ l end)
  | _ => throw "Unknown LedgerEntry type"
  end.

Definition isAuthorized (le : LedgerEntry) : M S bool :=
  tl ← trustLine le; mret (negb (Z.land (tl_flags tl) AUTHORIZED_FLAG =? 0)).
Definition isAuthRequired (le : LedgerEntry) : M S bool :=
  acc ← account le; mret (negb (Z.land (acc_flags acc) AUTH_REQUIRED_FLAG =? 0)).
Definition isImmutableAuth (le : LedgerEntry) : M S bool :=
  acc ← account le; mret (negb (Z.land (acc_flags acc) AUTH_IMMUTABLE_FLAG =? 0)).

Definition getAvailableBalance (le : LedgerEntry) : M S Z :=
  avail ← match data le with
          | Account acc => mret (s64 (acc_balance acc - getMinBalance (acc_numSubEntries acc)))
          | TrustLine tl => mret (tl_balance tl)
          | _ => throw "Unknown LedgerEntry type"
          end;
  if 10 <=? ledgerVersion header then
    selling ← getSellingLiabilities le; mret (s64 (avail - selling))
  else mret avail.

Definition getMaxAmountReceive (le : LedgerEntry) : M S Z :=
  match data le with
  | Account acc =>
    if 10 <=? ledgerVersion header then
      buying ← getBuyingLiabilities le; mret (s64 (INT64_MAX - s64 (acc_balance acc + buying)))
    else mret INT64_MAX
  | TrustLine tl =>
    auth ← isAuthorized le;
    if (auth : bool) then
      let amount := s64 (tl_limit tl - tl_balance tl) in
      if 10 <=? ledgerVersion header then
        buying ← getBuyingLiabilities le; mret (s64 (amount - buying))
      else mret amount
    else mret 0
  | _ => throw "Unknown LedgerEntry type"
  end.

Definition getMinimumLimit (le : LedgerEntry) : M S Z :=
  tl ← trustLine le;
  if 10 <=? ledgerVersion header then
    buying ← getBuyingLiabilities le; mret (s64 (tl_balance tl + buying))
  else mret (tl_balance tl).

Definition getOfferBuyingLiabilities (le : LedgerEntry) : M S Z :=
  if ledgerVersion header <? 10 then throw "Offer liabilities calculated before version 10"
  else
    oe ← offer le;
    res ← exchangeV10WithoutPriceErrorThresholds (oe_price oe) (oe_amount oe) INT64_MAX INT64_MAX INT64_MAX false;
    mret (numSheepSend10 res).

Definition getOfferSellingLiabilities (le : LedgerEntry) : M S Z :=
  if ledgerVersion header <? 10 then throw "Offer liabilities calculated before version 10"
  else
    oe ← offer le;
    res ← exchangeV10WithoutPriceErrorThresholds (oe_price oe) (oe_amount oe) INT64_MAX INT64_MAX INT64_MAX false;
    mret (numWheatReceived10 res).

Definition getStartingSequenceNumber : Z := u64 (Z.shiftl (u64 (ledgerSeq header)) 32).
End Readers.

(** ** Changes *)

Inductive AddSubentryResult := SUCCESS | LOW_RESERVE | TOO_MANY_SUBENTRIES.

Section Changes.
Context (header : LedgerHeader).

Definition addBalance (delta : Z) : M LedgerEntry bool :=
  entry ← get;
  match data entry with
  | Account acc =>
    if delta =? 0 then mret true
    else
      '(ok, newBalance) ← Numeric.addBalance (acc_balance acc) delta INT64_MAX;
      if negb (ok : bool) then mret false
      else
        enough ←
          (if 10 <=? ledgerVersion header then
             let minBalance := getMinBalance header (acc_numSubEntries acc) in
             low ← (if delta <? 0 then
                      selling ← getSellingLiabilities header entry;
                      mret (s64 (newBalance - minBalance) <? selling)
                    else mret false);
             if (low : bool) then mret false
             else
               buying ← getBuyingLiabilities header entry;
               mret (negb (s64 (INT64_MAX - buying) <? newBalance))
           else mret true);
        if (enough : bool) then modify (setAccount (acc_setBalance newBalance acc));; mret true
        else mret false
  | TrustLine tl =>
    if delta =? 0 then mret true
    else
      auth ← isAuthorized entry;
      if negb (auth : bool) then mret false
      else
        '(ok, newBalance) ← Numeric.addBalance (tl_balance tl) delta (tl_limit tl);
        if negb (ok : bool) then mret false
        else
          enough ←
            (if 10 <=? ledgerVersion header then
               selling ← getSellingLiabilities header entry;
               if newBalance <? selling then mret false
               else
                 buying ← getBuyingLiabilities header entry;
                 mret (negb (s64 (tl_limit tl - buying) <? newBalance))
             else mret true);
          if (enough : bool) then modify (setTrustLine (tl_setBalance newBalance tl));; mret true
          else mret false
  | _ => throw "Unknown LedgerEntry type"
  end.

Definition addBuyingLiabilities (delta : Z) : M LedgerEntry bool :=
  entry ← get;
  buyingLiab ← getBuyingLiabilities header entry;
  if delta =? 0 then mret true
  else match data entry with
  | Account acc =>
    let maxLiabilities := s64 (INT64_MAX - acc_balance acc) in
    '(res, buyingLiab) ← Numeric.addBalance buyingLiab delta maxLiabilities;
    (if (res : bool) then modify (setAccount (acc_setExt (setBuying buyingLiab (acc_ext acc)) acc)) else mret tt);;
    mret res
  | TrustLine tl =>
    auth ← isAuthorized entry;
    if negb (auth : bool) then mret false
    else
      let maxLiabilities := s64 (tl_limit tl - tl_balance tl) in
      '(res, buyingLiab) ← Numeric.addBalance buyingLiab delta maxLiabilities;
      (if (res : bool) then modify (setTrustLine (tl_setExt (setBuying buyingLiab (tl_ext tl)) tl)) else mret tt);;
      mret res
  | _ => throw "Unknown LedgerEntry type"
  end.

Definition addSellingLiabilities (delta : Z) : M LedgerEntry bool :=
  entry ← get;
  sellingLiab ← getSellingLiabilities header entry;
  if delta =? 0 then mret true
  else match data entry with
  | Account acc =>
    let maxLiabilities := s64 (acc_balance acc - getMinBalance header (acc_numSubEntries acc)) in
    if maxLiabilities <? 0 then mret false
    else
      '(res, sellingLiab) ← Numeric.addBalance sellingLiab delta maxLiabilities;
      (if (res : bool) then modify (setAccount (acc_setExt (setSelling sellingLiab (acc_ext acc)) acc)) else mret tt);;
      mret res
  | TrustLine tl =>
    auth ← isAuthorized entry;
    if negb (auth : bool) then mret false
    else
      let maxLiabilities := tl_balance tl in
      '(res, sellingLiab) ← Numeric.addBalance sellingLiab delta maxLiabilities;
      (if (res : bool) then modify (setTrustLine (tl_setExt (setSelling sellingLiab (tl_ext tl)) tl)) else mret tt);;
      mret res
  | _ => throw "Unknown LedgerEntry type"
  end.

(** [count] is an [int]; so is the sum. *)
Definition addNumEntries (count : Z) : M LedgerEntry AddSubentryResult :=
  entry ← get;
  acc ← account entry;
  n ← unsignedToSigned32 (acc_numSubEntries acc);
  let newEntriesCount := s32 (n + count) in
  if newEntriesCount <? 0 then throw "invalid account state"
  else if (FIRST_PROTOCOL_SUPPORTING_OPERATION_LIMITS <=? ledgerVersion header) && (0 <? count) &&
          (ACCOUNT_SUBENTRY_LIMIT <? newEntriesCount)
  then mret TOO_MANY_SUBENTRIES
  else
    let effMinBalance := getMinBalance header newEntriesCount in
    effMinBalance ← (if 10 <=? ledgerVersion header then
                       selling ← getSellingLiabilities header entry; mret (s64 (effMinBalance + selling))
                     else mret effMinBalance);
    if (0 <? count) && (acc_balance acc <? effMinBalance) then mret LOW_RESERVE
    else modify (setAccount (acc_setNumSubEntries newEntriesCount acc));; mret SUCCESS.

Definition setAuthorized (authorized : bool) : M LedgerEntry unit :=
  entry ← get;
  tl ← trustLine entry;
  modify (setTrustLine (tl_setFlags (if authorized then Z.lor (tl_flags tl) AUTHORIZED_FLAG
                                     else Z.ldiff (tl_flags tl) AUTHORIZED_FLAG) tl)).
End Changes.

(** [generateID], on the header: the counter is incremented first. *)
Definition generateID : M LedgerHeader Z :=
  lh ← get;
  let id := u64 (idPool lh + 1) in
  modify (λ lh, mkHeader (ledgerVersion lh) (ledgerSeq lh) (totalCoins lh) (feePool lh) (inflationSeq lh) id
                  (baseFee lh) (baseReserve lh) (maxTxSetSize lh) (closeTime lh));;
  mret id.
