(* ===== verification/BalancesSpec.v ===== *)
(** * What may be spent, received and promised

    The bounds on balances, liabilities and subentries that the operations of [Balances] keep, and
    the agreement of the readers with the operations: what [getAvailableBalance] and
    [getMaxAmountReceive] announce is exactly what [addBalance] moves and what liabilities can take. *)
From stdpp Require Import base list gmap strings.
From Stdlib Require Import ZArith Lia.
From S2P Require Import Prelude UInt128 Numeric Exchange LedgerEntries Balances.

(** ** Bounds *)

Definition headerOk (h : LedgerHeader) : Prop := 0 <= ledgerVersion h ∧ is_u32 (baseReserve h).

(** The number of subentries leaves room for the reserve to be computed in 64 bits. *)
Definition subEntriesOk (n : Z) : Prop := 0 <= n <= 2 ^ 31 - 3.

Section Bounds.
Context (h : LedgerHeader).

Definition amountsOk (e : LedgerEntry) : Prop :=
  match data e with
  | Account a =>
    is_i64 (acc_balance a) ∧ subEntriesOk (acc_numSubEntries a) ∧
    (10 <= ledgerVersion h →
     let l := extV1 (acc_ext a) in
     0 <= buying_ l ∧ acc_balance a + buying_ l <= INT64_MAX ∧ 0 <= selling_ l ∧
     (selling_ l = 0 ∨ selling_ l <= acc_balance a - getMinBalance h (acc_numSubEntries a)))
  | TrustLine t =>
    0 <= tl_balance t <= tl_limit t ∧ tl_limit t <= INT64_MAX ∧
    (10 <= ledgerVersion h →
     let l := extV1 (tl_ext t) in
     0 <= buying_ l ∧ tl_balance t + buying_ l <= tl_limit t ∧ 0 <= selling_ l <= tl_balance t)
  | _ => True
  end.

(** ** The amounts of an entry *)

Definition balanceOf (e : LedgerEntry) : Z :=
  match data e with Account a => acc_balance a | TrustLine t => tl_balance t | _ => 0 end.
Definition liabilitiesOf (e : LedgerEntry) : Liabilities :=
  match data e with Account a => extV1 (acc_ext a) | TrustLine t => extV1 (tl_ext t) | _ => mkLiabilities 0 0 end.
Definition holdsAsset (e : LedgerEntry) : bool :=
  match data e with Account _ | TrustLine _ => true | _ => false end.
Definition authorized (e : LedgerEntry) : bool :=
  match data e with TrustLine t => negb (Z.land (tl_flags t) AUTHORIZED_FLAG =? 0) | _ => true end.

(** What the balance cannot go below, and what it cannot exceed. *)
Definition floorOf (e : LedgerEntry) : Z :=
  match data e with Account a => getMinBalance h (acc_numSubEntries a) | _ => 0 end.
Definition ceilingOf (e : LedgerEntry) : Z :=
  match data e with TrustLine t => tl_limit t | _ => INT64_MAX end.

Definition withBalance (b : Z) (e : LedgerEntry) : LedgerEntry :=
  match data e with
  | Account a => setAccount (acc_setBalance b a) e
  | TrustLine t => setTrustLine (tl_setBalance b t) e
  | _ => e
  end.
Definition withLiabilities (l : Liabilities) (e : LedgerEntry) : LedgerEntry :=
  match data e with
  | Account a => setAccount (acc_setExt (Some l) a) e
  | TrustLine t => setTrustLine (tl_setExt (Some l) t) e
  | _ => e
  end.

Hypothesis Hh : headerOk h.

Lemma getMinBalance_range n : subEntriesOk n → 0 <= getMinBalance h n <= INT64_MAX.
Proof.
  intros Hn. destruct Hh as [_ Hr]. unfold getMinBalance, subEntriesOk, is_u32, INT64_MAX, UINT32_MAX in *.
  destruct (_ <=? _).
  - pose proof (u32_range (u32 (2 + n) * baseReserve h)) as Hu. unfold is_u32, UINT32_MAX in Hu. lia.
  - rewrite u32_small by (unfold is_u32, UINT32_MAX; lia). rewrite s64_small; unfold INT64_MAX; nia.
Qed.

(** From version 9 on the reserve is exact. *)
Lemma getMinBalance_exact n : subEntriesOk n → 9 <= ledgerVersion h → getMinBalance h n = (2 + n) * baseReserve h.
Proof.
  intros Hn Hv. destruct Hh as [_ Hr]. unfold getMinBalance, subEntriesOk, is_u32, UINT32_MAX in *.
  rewrite (proj2 (Z.leb_gt _ _)) by lia. rewrite u32_small by (unfold is_u32, UINT32_MAX; lia).
  apply s64_small. unfold INT64_MAX. nia.
Qed.

Lemma getSellingLiabilities_eq {S} e (s : S) :
  holdsAsset e = true → 10 <= ledgerVersion h → getSellingLiabilities h e s = Ok (selling_ (liabilitiesOf e)) s.
Proof.
  intros He Hv. unfold getSellingLiabilities, liabilitiesOf, holdsAsset in *. rewrite (proj2 (Z.ltb_ge _ _)) by lia.
  destruct (data e) as [[]|[]| |]; try done; simpl; by destruct (_ : option Liabilities).
Qed.

Lemma getBuyingLiabilities_eq {S} e (s : S) :
  holdsAsset e = true → 10 <= ledgerVersion h → getBuyingLiabilities h e s = Ok (buying_ (liabilitiesOf e)) s.
Proof.
  intros He Hv. unfold getBuyingLiabilities, liabilitiesOf, holdsAsset in *. rewrite (proj2 (Z.ltb_ge _ _)) by lia.
  destruct (data e) as [[]|[]| |]; try done; simpl; by destruct (_ : option Liabilities).
Qed.

(** The bounds in terms of the amounts. *)
Lemma amountsOk_iff e :
  holdsAsset e = true → amountsOk e →
  0 <= balanceOf e <= ceilingOf e ∧ ceilingOf e <= INT64_MAX ∧ 0 <= floorOf e <= INT64_MAX ∧
  (10 <= ledgerVersion h →
   0 <= buying_ (liabilitiesOf e) ∧ balanceOf e + buying_ (liabilitiesOf e) <= ceilingOf e ∧
   0 <= selling_ (liabilitiesOf e) ∧
   (selling_ (liabilitiesOf e) = 0 ∨ selling_ (liabilitiesOf e) <= balanceOf e - floorOf e)).
Proof.
  unfold amountsOk, holdsAsset, balanceOf, ceilingOf, floorOf, liabilitiesOf, is_i64.
  destruct (data e) as [a|t| |]; try done; intros _ Hok.
  - destruct Hok as (Hb & Hn & Hl). pose proof (getMinBalance_range _ Hn). cbv zeta in Hl. split_and!; lia.
  - destruct Hok as (Hb & Hn & Hl). cbv zeta in Hl. split_and!; lia.
Qed.

(** ** The operations in terms of the amounts *)

Ltac unfold_m := unfold mbind, M_bind, mret, M_ret, get, modify; cbv beta iota zeta.

(** Whether the balance may become [b + d]. *)
Definition mayMove (d : Z) (e : LedgerEntry) : bool :=
  let b := balanceOf e + d in
  let l := liabilitiesOf e in
  authorized e && (0 <=? b) && (b <=? ceilingOf e) &&
  (if 10 <=? ledgerVersion h then ((0 <=? d) || (selling_ l <=? b - floorOf e)) && (b + buying_ l <=? ceilingOf e)
   else true).

Lemma addBalance_eq d e :
  holdsAsset e = true → amountsOk e → - 2 ^ 63 <= d <= INT64_MAX →
  addBalance h d e =
    if d =? 0 then Ok true e
    else if mayMove d e then Ok true (withBalance (balanceOf e + d) e) else Ok false e.
Proof.
  intros He Hok Hd. destruct (amountsOk_iff e He Hok) as (Hb & Hc & Hf & Hl). unfold addBalance, mayMove. unfold_m.
  assert (Hsell : ∀ s : LedgerEntry, 10 <= ledgerVersion h → getSellingLiabilities h e s = Ok (selling_ (liabilitiesOf e)) s)
    by (intros; by apply getSellingLiabilities_eq).
  assert (Hbuy : ∀ s : LedgerEntry, 10 <= ledgerVersion h → getBuyingLiabilities h e s = Ok (buying_ (liabilitiesOf e)) s)
    by (intros; by apply getBuyingLiabilities_eq).
  unfold isAuthorized, trustLine, authorized, balanceOf, ceilingOf, floorOf, withBalance, holdsAsset in *. unfold_m.
  destruct (data e) as [a|t| |]; try done; (destruct (Z.eqb_spec d 0) as [->|Hd0]; [done|]).
  - rewrite addBalance_cases by (unfold is_i64; lia).
    rewrite (proj2 (Z.eqb_neq _ _)) by done. cbn [orb andb].
    destruct (Z.leb_spec 0 (acc_balance a + d)), (Z.leb_spec (acc_balance a + d) INT64_MAX); try done. cbn [andb negb].
    destruct (Z.leb_spec 10 (ledgerVersion h)); [|done]. specialize (Hl ltac:(done)).
    destruct (Z.ltb_spec d 0).
    + rewrite Hsell by done. rewrite s64_small by (unfold INT64_MAX in *; lia). rewrite (proj2 (Z.leb_gt 0 d)) by lia. cbn [orb].
      destruct (Z.ltb_spec (acc_balance a + d - getMinBalance h (acc_numSubEntries a)) (selling_ (liabilitiesOf e))).
      { rewrite (proj2 (Z.leb_gt (selling_ _) _)) by lia. done. }
      rewrite (proj2 (Z.leb_le (selling_ _) _)) by lia. cbn [andb].
      rewrite Hbuy by done. rewrite s64_small by (unfold INT64_MAX in *; lia).
      destruct (Z.ltb_spec (INT64_MAX - buying_ (liabilitiesOf e)) (acc_balance a + d));
        [rewrite (proj2 (Z.leb_gt _ _)) by lia|rewrite (proj2 (Z.leb_le (_ + _) _)) by lia]; done.
    + rewrite (proj2 (Z.leb_le 0 d)) by lia. cbn [orb andb].
      rewrite Hbuy by done. rewrite s64_small by (unfold INT64_MAX in *; lia).
      destruct (Z.ltb_spec (INT64_MAX - buying_ (liabilitiesOf e)) (acc_balance a + d));
        [rewrite (proj2 (Z.leb_gt _ _)) by lia|rewrite (proj2 (Z.leb_le (_ + _) _)) by lia]; done.
  - destruct (Z.land _ _ =? 0); [done|]. cbn [negb andb].
    rewrite addBalance_cases by (unfold is_i64; lia).
    rewrite (proj2 (Z.eqb_neq _ _)) by done. cbn [orb andb].
    destruct (Z.leb_spec 0 (tl_balance t + d)), (Z.leb_spec (tl_balance t + d) (tl_limit t)); try done. cbn [andb negb].
    destruct (Z.leb_spec 10 (ledgerVersion h)); [|done]. specialize (Hl ltac:(done)).
    rewrite Hsell by done. rewrite Z.sub_0_r.
    destruct (Z.ltb_spec (tl_balance t + d) (selling_ (liabilitiesOf e))).
    { rewrite (proj2 (Z.leb_gt 0 d)), (proj2 (Z.leb_gt (selling_ _) _)) by lia. done. }
    rewrite (proj2 (Z.leb_le (selling_ _) _)) by lia. rewrite orb_true_r. cbn [andb].
    rewrite Hbuy by done. rewrite s64_small by (unfold INT64_MAX in *; lia).
    destruct (Z.ltb_spec (tl_limit t - buying_ (liabilitiesOf e)) (tl_balance t + d));
      [rewrite (proj2 (Z.leb_gt (_ + _) _)) by lia|rewrite (proj2 (Z.leb_le (_ + _) _)) by lia]; done.
Qed.

Lemma addBuyingLiabilities_eq d e :
  holdsAsset e = true → amountsOk e → - 2 ^ 63 <= d <= INT64_MAX → 10 <= ledgerVersion h →
  let l := liabilitiesOf e in
  addBuyingLiabilities h d e =
    if d =? 0 then Ok true e
    else if authorized e && (0 <=? buying_ l + d) && (buying_ l + d <=? ceilingOf e - balanceOf e)
    then Ok true (withLiabilities (mkLiabilities (buying_ l + d) (selling_ l)) e) else Ok false e.
Proof.
  intros He Hok Hd Hv l. destruct (amountsOk_iff e He Hok) as (Hb & Hc & Hf & Hl). specialize (Hl Hv). fold l in Hl.
  unfold addBuyingLiabilities. unfold_m. rewrite getBuyingLiabilities_eq by done. fold l.
  destruct (Z.eqb_spec d 0) as [->|Hd0]; [done|].
  assert (El : l = liabilitiesOf e) by done. clearbody l.
  unfold isAuthorized, trustLine, authorized, balanceOf, ceilingOf, withLiabilities, holdsAsset, setBuying, liabilitiesOf in *.
  unfold_m. destruct (data e) as [a|t| |]; try done; rewrite <- ?El.
  - rewrite s64_small, addBalance_cases by (unfold is_i64, INT64_MAX in *; lia).
    rewrite (proj2 (Z.eqb_neq d 0)) by done. cbn [orb andb]. by destruct ((0 <=? _) && _).
  - destruct (Z.land _ _ =? 0); [done|]. cbn [negb].
    rewrite s64_small, addBalance_cases by (unfold is_i64, INT64_MAX in *; lia).
    rewrite (proj2 (Z.eqb_neq d 0)) by done. cbn [orb andb]. by destruct ((0 <=? _) && _).
Qed.

Lemma addSellingLiabilities_eq d e :
  holdsAsset e = true → amountsOk e → - 2 ^ 63 <= d <= INT64_MAX → 10 <= ledgerVersion h →
  let l := liabilitiesOf e in
  addSellingLiabilities h d e =
    if d =? 0 then Ok true e
    else if authorized e && (0 <=? selling_ l + d) && (selling_ l + d <=? balanceOf e - floorOf e)
    then Ok true (withLiabilities (mkLiabilities (buying_ l) (selling_ l + d)) e) else Ok false e.
Proof.
  intros He Hok Hd Hv l. destruct (amountsOk_iff e He Hok) as (Hb & Hc & Hf & Hl). specialize (Hl Hv). fold l in Hl.
  unfold addSellingLiabilities. unfold_m. rewrite getSellingLiabilities_eq by done. fold l.
  destruct (Z.eqb_spec d 0) as [->|Hd0]; [done|].
  assert (El : l = liabilitiesOf e) by done. clearbody l.
  unfold isAuthorized, trustLine, authorized, balanceOf, floorOf, ceilingOf, withLiabilities, holdsAsset, setSelling, liabilitiesOf in *.
  unfold_m. destruct (data e) as [a|t| |]; try done; rewrite <- ?El.
  - rewrite s64_small by (unfold INT64_MAX in *; lia). cbn [andb].
    destruct (Z.ltb_spec (acc_balance a - getMinBalance h (acc_numSubEntries a)) 0).
    { by destruct (Z.leb_spec 0 (selling_ l + d)), (Z.leb_spec (selling_ l + d) (acc_balance a - getMinBalance h (acc_numSubEntries a))); try lia. }
    rewrite addBalance_cases by (unfold is_i64, INT64_MAX in *; lia).
    rewrite (proj2 (Z.eqb_neq d 0)) by done. cbn [orb]. by destruct ((0 <=? _) && _).
  - destruct (Z.land _ _ =? 0); [done|]. cbn [negb]. rewrite Z.sub_0_r.
    rewrite addBalance_cases by (unfold is_i64, INT64_MAX in *; lia).
    rewrite (proj2 (Z.eqb_neq d 0)) by done. cbn [orb andb]. by destruct ((0 <=? _) && _).
Qed.

Lemma getAvailableBalance_eq {S} e (s : S) :
  holdsAsset e = true → amountsOk e → 10 <= ledgerVersion h →
  getAvailableBalance h e s = Ok (balanceOf e - floorOf e - selling_ (liabilitiesOf e)) s.
Proof.
  intros He Hok Hv. destruct (amountsOk_iff e He Hok) as (Hb & Hc & Hf & Hl). specialize (Hl Hv).
  unfold getAvailableBalance. rewrite (proj2 (Z.leb_le 10 _)) by done. unfold_m.
  pose proof (getSellingLiabilities_eq e s He Hv) as Hs. unfold balanceOf, floorOf, ceilingOf, holdsAsset in *.
  destruct (data e) as [a|t| |]; try done; rewrite Hs.
  - rewrite (s64_small (acc_balance a - _)), s64_small by (unfold INT64_MAX in *; lia). done.
  - rewrite s64_small by (unfold INT64_MAX in *; lia). by rewrite Z.sub_0_r.
Qed.

Lemma getMaxAmountReceive_eq {S} e (s : S) :
  holdsAsset e = true → authorized e = true → amountsOk e → 10 <= ledgerVersion h →
  getMaxAmountReceive h e s = Ok (ceilingOf e - balanceOf e - buying_ (liabilitiesOf e)) s.
Proof.
  intros He Ha Hok Hv. destruct (amountsOk_iff e He Hok) as (Hb & Hc & Hf & Hl). specialize (Hl Hv).
  unfold getMaxAmountReceive. rewrite (proj2 (Z.leb_le 10 _)) by done.
  pose proof (getBuyingLiabilities_eq e s He Hv) as Hs.
  unfold isAuthorized, trustLine, authorized, balanceOf, floorOf, ceilingOf, holdsAsset in *. unfold_m.
  destruct (data e) as [a|t| |]; try done; rewrite ?Ha, Hs.
  - rewrite (s64_small (acc_balance a + _)), s64_small by (unfold INT64_MAX in *; lia). f_equal. lia.
  - rewrite (s64_small (tl_limit t - _)), s64_small by (unfold INT64_MAX in *; lia). done.
Qed.
End Bounds.

(** ** Every operation keeps the bounds *)

Inductive AmountOp :=
| AddBalance (delta : Z)
| AddBuyingLiabilities (delta : Z)
| AddSellingLiabilities (delta : Z)
| AddNumEntries (count : Z)
| SetAuthorized (b : bool).

Definition runAmountOp (h : LedgerHeader) (op : AmountOp) : M LedgerEntry unit :=
  match op with
  | AddBalance d => addBalance h d;; mret tt
  | AddBuyingLiabilities d => addBuyingLiabilities h d;; mret tt
  | AddSellingLiabilities d => addSellingLiabilities h d;; mret tt
  | AddNumEntries c => addNumEntries h c;; mret tt
  | SetAuthorized b => setAuthorized b
  end.

(** 64-bit amounts; a count that keeps the number of subentries below its limit, and balances so
    far from the largest integer (the total of all coins is) that the new reserves fit. *)
Definition amountOpOk (h : LedgerHeader) (op : AmountOp) (e : LedgerEntry) : Prop :=
  match op with
  | AddBalance d | AddBuyingLiabilities d | AddSellingLiabilities d => - 2 ^ 63 <= d <= INT64_MAX
  | AddNumEntries c =>
    - 2 ^ 31 <= c ∧
    match data e with
    | Account a => acc_numSubEntries a + c <= 2 ^ 31 - 3 ∧ (0 < c → acc_balance a + c * baseReserve h <= INT64_MAX)
    | _ => True
    end
  | SetAuthorized _ => True
  end.

Section Keeps.
Context (h : LedgerHeader) (Hh : headerOk h).

Definition keepsAmounts (e e' : LedgerEntry) : Prop := amountsOk h e' ∧ LedgerEntryKey e' = LedgerEntryKey e.

Lemma withBalance_ok d e :
  holdsAsset e = true → amountsOk h e → mayMove h d e = true → keepsAmounts e (withBalance (balanceOf e + d) e).
Proof.
  unfold keepsAmounts, mayMove, amountsOk, withBalance, holdsAsset, balanceOf, ceilingOf, floorOf, liabilitiesOf, LedgerEntryKey, is_i64, subEntriesOk, extV1.
  intros He Hok Hm. destruct (data e) as [a|t| |] eqn:Ed; try done; cbv zeta in *; propify; (split; [|done]); cbn;
    destruct (Z.leb_spec 10 (ledgerVersion h)), (Z.leb_spec 0 d); cbn [orb] in *; propify; try lia.
Qed.

Lemma withLiabilities_ok b s e :
  holdsAsset e = true → amountsOk h e →
  0 <= b <= ceilingOf e - balanceOf e → 0 <= s → s = 0 ∨ s <= balanceOf e - floorOf h e →
  keepsAmounts e (withLiabilities (mkLiabilities b s) e).
Proof.
  unfold keepsAmounts, amountsOk, withLiabilities, holdsAsset, balanceOf, ceilingOf, floorOf, LedgerEntryKey, is_i64, subEntriesOk, extV1.
  intros He Hok Hb Hs Hf. destruct (data e) as [a|t| |] eqn:Ed; try done; cbv zeta in *; (split; [|done]); cbn; lia.
Qed.

Lemma keepsAmounts_refl e : amountsOk h e → keepsAmounts e e.
Proof. done. Qed.

(** An operation returns and keeps the bounds, or throws and changes nothing. *)
Definition amountOpSafe (e : LedgerEntry) (o : outcome LedgerEntry unit) : Prop :=
  match o with
  | Ok _ e' => keepsAmounts e e'
  | Throw _ e' => e' = e
  | Crash _ _ | NoFuel => False
  end.

Lemma addBalance_safe d e :
  amountsOk h e → - 2 ^ 63 <= d <= INT64_MAX → amountOpSafe e (runAmountOp h (AddBalance d) e).
Proof.
  intros Hok Hd. destruct (holdsAsset e) eqn:He.
  - unfold runAmountOp, amountOpSafe, mbind, M_bind, mret, M_ret. rewrite (addBalance_eq h Hh) by done.
    destruct (d =? 0); [by apply keepsAmounts_refl|].
    destruct (mayMove h d e) eqn:Em; [by apply withBalance_ok|by apply keepsAmounts_refl].
  - unfold holdsAsset in He. simpl. unfold addBalance, mbind, M_bind, get. by destruct (data e).
Qed.

Lemma getLiabilities_old {S} e (s : S) : ledgerVersion h < 10 →
  getBuyingLiabilities h e s = Throw "Liabilities accessed before version 10" s ∧
  getSellingLiabilities h e s = Throw "Liabilities accessed before version 10" s.
Proof. intros Hv. unfold getBuyingLiabilities, getSellingLiabilities. by rewrite (proj2 (Z.ltb_lt _ _)) by done. Qed.

Lemma getLiabilities_other {S} e (s : S) : holdsAsset e = false → 10 <= ledgerVersion h →
  getBuyingLiabilities h e s = Throw "Unknown LedgerEntry type" s ∧
  getSellingLiabilities h e s = Throw "Unknown LedgerEntry type" s.
Proof.
  intros He Hv. unfold getBuyingLiabilities, getSellingLiabilities, holdsAsset in *. rewrite (proj2 (Z.ltb_ge _ _)) by done.
  by destruct (data e).
Qed.

Lemma liabilities_safe op d e :
  amountsOk h e → - 2 ^ 63 <= d <= INT64_MAX → op = AddBuyingLiabilities d ∨ op = AddSellingLiabilities d →
  amountOpSafe e (runAmountOp h op e).
Proof.
  intros Hok Hd Hop. destruct (decide (10 <= ledgerVersion h)) as [Hv|Hv].
  2: { destruct (getLiabilities_old e e ltac:(lia)) as [H1 H2].
       destruct Hop as [->| ->]; simpl; unfold addBuyingLiabilities, addSellingLiabilities, mbind, M_bind, get; by rewrite ?H1, ?H2. }
  destruct (holdsAsset e) eqn:He.
  2: { destruct (getLiabilities_other e e He Hv) as [H1 H2].
       destruct Hop as [->| ->]; simpl; unfold addBuyingLiabilities, addSellingLiabilities, mbind, M_bind, get; by rewrite ?H1, ?H2. }
  destruct (amountsOk_iff h Hh e He Hok) as (Hb & Hc & Hf & Hl). specialize (Hl Hv).
  destruct Hop as [->| ->]; unfold runAmountOp, amountOpSafe, mbind, M_bind, mret, M_ret.
  - rewrite (addBuyingLiabilities_eq h Hh) by done. destruct (d =? 0); [by apply keepsAmounts_refl|].
    destruct (authorized e && _ && _) eqn:Em; [|by apply keepsAmounts_refl]. propify. apply withLiabilities_ok; [done..|lia|lia|lia].
  - rewrite (addSellingLiabilities_eq h Hh) by done. destruct (d =? 0); [by apply keepsAmounts_refl|].
    destruct (authorized e && _ && _) eqn:Em; [|by apply keepsAmounts_refl]. propify. apply withLiabilities_ok; [done..|lia|lia|lia].
Qed.

Lemma addNumEntries_safe c e :
  amountsOk h e → amountOpOk h (AddNumEntries c) e → amountOpSafe e (runAmountOp h (AddNumEntries c) e).
Proof.
  intros Hok [Hc Hn]. unfold runAmountOp, addNumEntries, mbind, M_bind, get, account. pose proof (getSellingLiabilities_eq h e e) as Hs.
  unfold amountOpSafe, keepsAmounts, amountsOk, holdsAsset, liabilitiesOf, LedgerEntryKey, is_i64 in *.
  destruct (data e) as [a| | |] eqn:Ed; try done. unfold mret, M_ret. destruct Hok as (Hb & Hsub & Hl).
  assert (Hsub' := Hsub). unfold subEntriesOk in Hsub'. unfold unsignedToSigned32, mret, M_ret.
  rewrite (proj2 (Z.ltb_ge _ _)) by lia. rewrite (s32_small (acc_numSubEntries a)), s32_small by lia.
  destruct (Z.ltb_spec (acc_numSubEntries a + c) 0) as [|Hpos]; [done|].
  destruct (_ && _ && _); [by rewrite Ed|].
  assert (Hsub2 : subEntriesOk (acc_numSubEntries a + c)) by (unfold subEntriesOk; lia).
  pose proof (getMinBalance_range h Hh _ Hsub2) as Hmin.
  destruct (Z.leb_spec 10 (ledgerVersion h)) as [Hv|Hv].
  - rewrite Hs by done. specialize (Hl Hv). cbv zeta in Hl.
    pose proof (getMinBalance_exact h Hh _ Hsub ltac:(lia)) as Em. pose proof (getMinBalance_exact h Hh _ Hsub2 ltac:(lia)) as Em2.
    destruct Hh as [_ [Hr _]], Hn as [_ Hn]. rewrite s64_small by (unfold INT64_MAX in *; nia).
    destruct ((0 <? c) && _) eqn:Ec; [by rewrite Ed|]. unfold modify. simpl. split_and!; try done; nia.
  - destruct ((0 <? c) && _); [by rewrite Ed|]. simpl. split_and!; try done; lia.
Qed.
End Keeps.

(** C34: balances, liabilities and subentries stay within their bounds. Under a valid header, an
    operation with any 64-bit amount on an entry within its bounds returns an entry within its bounds
    and with the same key, or throws and changes nothing; no assertion fails. The bounds say that a
    balance lies between zero and its limit, that what offers may still bring fits under the limit,
    and that what offers may still take is there above the reserve. *)
Theorem amounts_stay_in_bounds h e op :
  headerOk h → amountsOk h e → amountOpOk h op e →
  match runAmountOp h op e with
  | Ok _ e' => amountsOk h e' ∧ LedgerEntryKey e' = LedgerEntryKey e
  | Throw _ e' => e' = e
  | Crash _ _ | NoFuel => False
  end.
Proof.
  intros Hh Hok Hop. change (amountOpSafe h e (runAmountOp h op e)). destruct op as [d|d|d|c|b].
  - by apply addBalance_safe.
  - apply (liabilities_safe h Hh _ d); auto.
  - apply (liabilities_safe h Hh _ d); auto.
  - by apply addNumEntries_safe.
  - simpl. unfold setAuthorized, trustLine, mbind, M_bind, get. unfold amountsOk in Hok.
    destruct (data e) as [|t| |] eqn:Ed; try done. simpl. split; [|unfold LedgerEntryKey; by rewrite Ed]. unfold amountsOk. by destruct b.
Qed.

(** What the readers announce is what the operations do. From version 10 on, for an account or
    an authorized trust line within its bounds and an amount above zero: exactly what is available can
    be taken away, and exactly that can be promised to offers; exactly the room that is left can be
    received, and promised. The entry changes by the amount, or not at all. *)
Theorem announced_amounts_exact h e x :
  headerOk h → 10 <= ledgerVersion h → holdsAsset e = true → authorized e = true → amountsOk h e → 0 < x <= INT64_MAX →
  ∃ available room, let l := liabilitiesOf e in
    getAvailableBalance h e tt = Ok available tt ∧ getMaxAmountReceive h e tt = Ok room tt ∧
    addBalance h (- x) e = (if x <=? available then Ok true (withBalance (balanceOf e - x) e) else Ok false e) ∧
    addSellingLiabilities h x e =
      (if x <=? available then Ok true (withLiabilities (mkLiabilities (buying_ l) (selling_ l + x)) e) else Ok false e) ∧
    addBalance h x e = (if x <=? room then Ok true (withBalance (balanceOf e + x) e) else Ok false e) ∧
    addBuyingLiabilities h x e =
      (if x <=? room then Ok true (withLiabilities (mkLiabilities (buying_ l + x) (selling_ l)) e) else Ok false e).
Proof.
  intros Hh Hv He Ha Hok Hx. destruct (amountsOk_iff h Hh e He Hok) as (Hb & Hc & Hf & Hl). specialize (Hl Hv).
  eexists _, _. intros l. split; [by apply getAvailableBalance_eq|]. split; [by apply getMaxAmountReceive_eq|]. fold l in Hl |- *.
  change (balanceOf e - x) with (balanceOf e + - x).
  assert (Hi : ∀ d, - INT64_MAX <= d <= INT64_MAX → - 2 ^ 63 <= d <= INT64_MAX) by (unfold INT64_MAX; lia).
  rewrite !(addBalance_eq h Hh), (addSellingLiabilities_eq h Hh), (addBuyingLiabilities_eq h Hh) by (done || apply Hi; lia).
  rewrite !(proj2 (Z.eqb_neq _ 0)) by lia. unfold mayMove. rewrite Ha, (proj2 (Z.leb_le 10 _)) by done. fold l. cbn [andb].
  set (available := balanceOf e - floorOf h e - selling_ l). set (room := ceilingOf e - balanceOf e - buying_ l).
  split_and!; match goal with |- (if ?b then _ else _) = (if ?c then _ else _) => replace b with c; [done|lia] end.
Qed.

(** A trust line with liabilities that has five to spend and nothing to receive. *)
Definition sampleLine : LedgerEntry :=
  mkEntry 3 (TrustLine (mkTrustLine 7 (ASSET_TYPE_CREDIT_ALPHANUM4 [65; 66; 67; 0] 9) 20 30 1 (Some (mkLiabilities 10 15)))).
Definition sampleTenHeader : LedgerHeader := mkHeader 10 5 0 0 0 0 100 5000000 100 0.

Lemma sampleLine_ok : headerOk sampleTenHeader ∧ amountsOk sampleTenHeader sampleLine.
Proof. unfold headerOk, amountsOk, is_u32, UINT32_MAX, INT64_MAX. simpl. lia. Qed.

Lemma amounts_stay_in_bounds_witness :
  match runAmountOp sampleTenHeader (AddBalance (-5)) sampleLine with
  | Ok _ e' => amountsOk sampleTenHeader e' ∧ LedgerEntryKey e' = LedgerEntryKey sampleLine
  | Throw _ e' => e' = sampleLine
  | Crash _ _ | NoFuel => False
  end.
Proof.
  apply amounts_stay_in_bounds; [apply sampleLine_ok..|]. unfold amountOpOk, INT64_MAX. lia.
Defined.

Lemma announced_amounts_exact_witness :
  getAvailableBalance sampleTenHeader sampleLine tt = Ok 5 tt ∧
  addBalance sampleTenHeader (-5) sampleLine = Ok true (withBalance 15 sampleLine) ∧
  addBuyingLiabilities sampleTenHeader 5 sampleLine = Ok false sampleLine.
Proof.
  destruct (announced_amounts_exact sampleTenHeader sampleLine 5) as (available & room & Ea & Er & Eb & _ & _ & El).
  - apply sampleLine_ok.
  - simpl. lia.
  - reflexivity.
  - reflexivity.
  - apply sampleLine_ok.
  - unfold INT64_MAX. lia.
  - assert (available = 5) as -> by (vm_compute in Ea; congruence).
    assert (room = 0) as -> by (vm_compute in Er; congruence).
    split; [exact Ea|]. split; [exact Eb|exact El].
Defined.
