(* ===== verification/LedgerTxn.v ===== *)
(** * Nested ledger transactions

    From [ledger/LedgerTxn.cpp], [LedgerTxnEntry.cpp] and [LedgerTxnHeader.cpp]. A [LedgerTxn] keeps
    the changes made to its parent, another [LedgerTxn] or the root, which holds the database. An
    entry is changed through a handle ([LedgerTxnEntry]); while the handle lives, its key is active
    and cannot be loaded again. Opening a child invalidates the handles of the parent, and a parent
    that has a child refuses to work.

    The transactions that are open are a list, the innermost first; a reference to one is its number
    [txn_id]. A handle is a weak pointer to an object [Impl], which is a number here: it is alive as
    long as the transaction has it in [mActive]. The root is the contents of its database; the caches
    in front of it are not modelled. Iteration over a hash table goes in the order of [HashOrder]. *)
From stdpp Require Import base list gmap strings.
From Stdlib Require Import ZArith Lia.
From S2P Require Import Prelude Numeric LedgerEntries.

Inductive LedgerTxnConsistency := EXACT | EXTRA_DELETES.
#[global] Instance LedgerTxnConsistency_eq_dec : EqDecision LedgerTxnConsistency.
Proof. solve_decision. Defined.

(** [nullptr] is an entry that has been erased. *)
Notation EntryMap := (gmap LedgerKey (option LedgerEntry)) (only parsing).

(** [EntryImplBase]: the objects behind the two kinds of handles, by number. *)
Inductive EntryImpl := MutableImpl (n : nat) | ConstImpl (n : nat).
#[global] Instance EntryImpl_eq_dec : EqDecision EntryImpl.
Proof. solve_decision. Defined.

Record LedgerTxn := mkTxn {
  txn_id : nat;
  mHeader : LedgerHeader;
  mActiveHeader : option nat;
  mEntry : EntryMap;
  mActive : gmap LedgerKey EntryImpl;
  mShouldUpdateLastModified : bool;
  mIsSealed : bool;
  mConsistency : LedgerTxnConsistency }.

Record LedgerTxnRoot := mkRoot { rootHeader : LedgerHeader; rootEntries : gmap LedgerKey LedgerEntry }.

Record Ledger := mkLedger { txns : list LedgerTxn; root : LedgerTxnRoot; nextImpl : nat }.

Definition setHeader (h : LedgerHeader) (t : LedgerTxn) : LedgerTxn :=
  mkTxn (txn_id t) h (mActiveHeader t) (mEntry t) (mActive t) (mShouldUpdateLastModified t) (mIsSealed t) (mConsistency t).
Definition setActiveHeader (a : option nat) (t : LedgerTxn) : LedgerTxn :=
  mkTxn (txn_id t) (mHeader t) a (mEntry t) (mActive t) (mShouldUpdateLastModified t) (mIsSealed t) (mConsistency t).
Definition setEntry (m : EntryMap) (t : LedgerTxn) : LedgerTxn :=
  mkTxn (txn_id t) (mHeader t) (mActiveHeader t) m (mActive t) (mShouldUpdateLastModified t) (mIsSealed t) (mConsistency t).
Definition setActive (a : gmap LedgerKey EntryImpl) (t : LedgerTxn) : LedgerTxn :=
  mkTxn (txn_id t) (mHeader t) (mActiveHeader t) (mEntry t) a (mShouldUpdateLastModified t) (mIsSealed t) (mConsistency t).
Definition setSealed (t : LedgerTxn) : LedgerTxn :=
  mkTxn (txn_id t) (mHeader t) (mActiveHeader t) (mEntry t) (mActive t) (mShouldUpdateLastModified t) true (mConsistency t).
Definition setConsistency (c : LedgerTxnConsistency) (t : LedgerTxn) : LedgerTxn :=
  mkTxn (txn_id t) (mHeader t) (mActiveHeader t) (mEntry t) (mActive t) (mShouldUpdateLastModified t) (mIsSealed t) c.

(** ** Finding a transaction *)

(** The open transactions inside number [id], the transaction, and those around it. *)
Fixpoint findTxn (id : nat) (l : list LedgerTxn) : option (list LedgerTxn * LedgerTxn * list LedgerTxn) :=
  match l with
  | [] => None
  | t :: r =>
    if decide (txn_id t = id) then Some ([], t, r)
    else match findTxn id r with
         | Some (inner, t', outer) => Some (t :: inner, t', outer)
         | None => None
         end
  end.

(** [LedgerTxn::getImpl]. *)
Definition getImpl (id : nat) : M Ledger (list LedgerTxn * LedgerTxn * list LedgerTxn) :=
  s ← get;
  match findTxn id (txns s) with
  | Some p => mret p
  | None => throw "LedgerTxnEntry was handled"
  end.

Definition putTxns (l : list LedgerTxn) : M Ledger unit := modify (λ s, mkLedger l (root s) (nextImpl s)).

(** [throwIfSealed]; [throwIfChild]. *)
Definition throwIfSealed (t : LedgerTxn) : M Ledger unit :=
  if mIsSealed t then throw "LedgerTxn is sealed" else mret tt.
Definition throwIfChild (inner : list LedgerTxn) : M Ledger unit :=
  match inner with [] => mret tt | _ :: _ => throw "LedgerTxn has child" end.

(** What the public operations do first: the transaction, unsealed and without a child, and its parents. *)
Definition openTxn (id : nat) : M Ledger (LedgerTxn * list LedgerTxn) :=
  '(inner, t, outer) ← getImpl id;
  throwIfSealed t;;
  throwIfChild inner;;
  mret (t, outer).

(** A fresh [Impl]. *)
Definition makeSharedImpl : M Ledger nat := λ s, Ok (nextImpl s) (mkLedger (txns s) (root s) (S (nextImpl s))).

(** ** Reading *)

(** [getNewestVersion] of a transaction with its parents, or of the root for []. *)
Fixpoint getNewestVersion (r : LedgerTxnRoot) (l : list LedgerTxn) (key : LedgerKey) : option LedgerEntry :=
  match l with
  | [] => rootEntries r !! key
  | t :: l =>
    match mEntry t !! key with
    | Some e => e
    | None => getNewestVersion r l key
    end
  end.

(** [getHeader]. *)
Definition getHeader (r : LedgerTxnRoot) (l : list LedgerTxn) : LedgerHeader :=
  match l with [] => rootHeader r | t :: _ => mHeader t end.

(** ** Children, commit and rollback *)

(** The constructor: copies the parent's header, then [addChild]. [None] is the root. *)
Definition newLedgerTxn (parent : option nat) (shouldUpdateLastModified : bool) : M Ledger nat :=
  s ← get;
  let child h := mkTxn (nextImpl s) h None ∅ ∅ shouldUpdateLastModified false EXACT in
  match parent with
  | None =>
    match txns s with
    | [] => makeSharedImpl ≫= λ _, putTxns [child (rootHeader (root s))]
    | _ :: _ => throw "LedgerTxnRoot already has child"
    end
  | Some id =>
    '(inner, t, outer) ← getImpl id;
    throwIfSealed t;;
    throwIfChild inner;;
    makeSharedImpl ≫= λ _,
    putTxns (child (mHeader t) :: setActiveHeader None (setActive ∅ t) :: outer)
  end;;
  mret (nextImpl s).

Definition joinConsistencyLevels (c1 c2 : LedgerTxnConsistency) : LedgerTxnConsistency :=
  match c1 with EXACT => c2 | EXTRA_DELETES => EXTRA_DELETES end.

(** The loop of [LedgerTxn::commitChild]; the entries come in any order, each key once. *)
Definition commitEntry (r : LedgerTxnRoot) (outer : list LedgerTxn) (m : EntryMap)
    (kv : LedgerKey * option LedgerEntry) : EntryMap :=
  match kv.2 with
  | Some e => <[kv.1 := Some e]> m
  | None =>
    match getNewestVersion r outer kv.1 with
    | None => delete kv.1 m
    | Some _ => <[kv.1 := None]> m
    end
  end.

(** The database after the changes; [None]: a row to delete is not there, which a consistency of
    [EXACT] takes for a fatal error. *)
Definition applyToRoot (cons : LedgerTxnConsistency) (db : option (gmap LedgerKey LedgerEntry))
    (kv : LedgerKey * option LedgerEntry) : option (gmap LedgerKey LedgerEntry) :=
  db ← db;
  match kv.2 with
  | Some e => Some (<[kv.1 := e]> db)
  | None =>
    match db !! kv.1, cons with
    | None, EXACT => None
    | _, _ => Some (delete kv.1 db)
    end
  end.

(** An iteration order for hash tables. *)
Class HashOrder := {
  iterate : ∀ {A}, gmap LedgerKey A → list (LedgerKey * A);
  iterate_perm A (m : gmap LedgerKey A) : iterate m ≡ₚ map_to_list m }.
#[global] Program Instance defaultOrder : HashOrder | 100 := {| iterate := λ A m, map_to_list m |}.
Next Obligation. done. Qed.

Section Operations.
Context `{HashOrder}.

(** [maybeUpdateLastModified]. *)
Definition maybeUpdateLastModified (t : LedgerTxn) : EntryMap :=
  (λ entry : option LedgerEntry,
     (λ e, if mShouldUpdateLastModified t then mkEntry (ledgerSeq (mHeader t)) (data e) else e) <$> entry)
  <$> mEntry t.

(** [commitChild], of the parent of a child with header [h] and entries [m]. *)
Definition commitChild (h : LedgerHeader) (m : EntryMap) (cons : LedgerTxnConsistency)
    (parents : list LedgerTxn) : M Ledger unit :=
  s ← get;
  match parents with
  | t :: outer =>
    let m' := fold_left (commitEntry (root s) outer) (iterate m) (mEntry t) in
    putTxns (setHeader h (setEntry m' (setConsistency (joinConsistencyLevels (mConsistency t) cons) t)) :: outer)
  | [] =>
    match fold_left (applyToRoot cons) (iterate m) (Some (rootEntries (root s))) with
    | None => crash "fatal error during commit to LedgerTxnRoot"
    | Some db => modify (λ s, mkLedger [] (mkRoot h db) (nextImpl s))
    end
  end.

(** [maybeUpdateLastModifiedThenInvokeThenSeal] for the readers: seals and returns the entries. *)
Definition sealTxn (id : nat) : M Ledger (LedgerTxn * list LedgerTxn) :=
  '(inner, t, outer) ← getImpl id;
  if mIsSealed t then mret (t, outer)
  else
    throwIfChild inner;;
    let t := setSealed (setActiveHeader None (setActive ∅ (setEntry (maybeUpdateLastModified t) t))) in
    putTxns (t :: outer);;
    mret (t, outer).

Definition commit (id : nat) : M Ledger unit :=
  '(inner, t, outer) ← getImpl id;
  if mIsSealed t then commitChild (mHeader t) (mEntry t) (mConsistency t) outer
  else
    throwIfChild inner;;
    commitChild (mHeader t) (maybeUpdateLastModified t) (mConsistency t) outer.

(** [rollback]: of the children first, innermost first; all are forgotten. *)
Definition rollback (id : nat) : M Ledger unit :=
  '(_, _, outer) ← getImpl id;
  putTxns outer.

(** The destructor [LedgerTxn::~LedgerTxn]. *)
Definition destroyTxn (id : nat) : M Ledger unit :=
  s ← get;
  match findTxn id (txns s) with Some _ => rollback id | None => mret tt end.

(** ** Entries *)

(** [LedgerTxnEntry] and [ConstLedgerTxnEntry]: empty, or a weak pointer to an [Impl]; the second
    has its own copy of the entry. *)
Record Handle := mkHandle { h_txn : nat; h_key : LedgerKey; h_impl : nat }.
Notation LedgerTxnEntry := (option Handle) (only parsing).
Notation ConstLedgerTxnEntry := (option (Handle * LedgerEntry)) (only parsing).

(** The transaction in which the handle is alive: [mImpl.lock()]. *)
Definition lockHandle (kind : nat → EntryImpl) (s : Ledger) (h : Handle) : option (list LedgerTxn * LedgerTxn * list LedgerTxn) :=
  match findTxn (h_txn h) (txns s) with
  | Some (inner, t, outer) =>
    if decide (mActive t !! h_key h = Some (kind (h_impl h))) then Some (inner, t, outer) else None
  | None => None
  end.

Definition isActive (kind : nat → EntryImpl) (s : Ledger) (h : LedgerTxnEntry) : bool :=
  match h with
  | Some h => match lockHandle kind s h with Some _ => true | None => false end
  | None => false
  end.

(** [current()]. *)
Definition current (h : LedgerTxnEntry) : M Ledger LedgerEntry :=
  s ← get;
  match h ≫= lockHandle MutableImpl s, h with
  | Some (_, t, _), Some h =>
    match mEntry t !! h_key h with
    | Some (Some e) => mret e
    | _ => crash "dangling reference"
    end
  | _, _ => throw "LedgerTxnEntry not active"
  end.

(** Assigning to [current()]. *)
Definition setCurrent (h : LedgerTxnEntry) (e : LedgerEntry) : M Ledger unit :=
  s ← get;
  match h ≫= lockHandle MutableImpl s, h with
  | Some (inner, t, outer), Some h =>
    putTxns (inner ++ setEntry (<[h_key h := Some e]> (mEntry t)) t :: outer)
  | _, _ => throw "LedgerTxnEntry not active"
  end.

Definition constCurrent (h : ConstLedgerTxnEntry) : M Ledger LedgerEntry :=
  s ← get;
  match h with
  | Some (h, e) => if isActive ConstImpl s (Some h) then mret e else throw "ConstLedgerTxnEntry not active"
  | None => throw "ConstLedgerTxnEntry not active"
  end.

(** [LedgerTxn::deactivate]. *)
Definition deactivateKey (id : nat) (key : LedgerKey) : M Ledger unit :=
  '(inner, t, outer) ← getImpl id;
  match mActive t !! key with
  | None => throw "Key is not active"
  | Some _ => putTxns (inner ++ setActive (delete key (mActive t)) t :: outer)
  end.

(** [LedgerTxnEntry::deactivate]. *)
Definition deactivate (h : LedgerTxnEntry) : M Ledger unit :=
  e ← current h;
  match h with Some h => deactivateKey (h_txn h) (LedgerEntryKey e) | None => mret tt end.

(** The destructors: an exception there ends the process. *)
Definition noexcept (m : M Ledger unit) : M Ledger unit := λ s,
  match m s with Throw _ s' => Crash "terminate" s' | r => r end.

Definition destroyEntry (h : LedgerTxnEntry) : M Ledger unit :=
  s ← get;
  if isActive MutableImpl s h then noexcept (deactivate h) else mret tt.

Definition destroyConst (h : ConstLedgerTxnEntry) : M Ledger unit :=
  s ← get;
  match h with
  | Some (h, e) =>
    if isActive ConstImpl s (Some h) then noexcept (deactivateKey (h_txn h) (LedgerEntryKey e)) else mret tt
  | None => mret tt
  end.

(** [LedgerTxn::create]. *)
Definition create (id : nat) (entry : LedgerEntry) : M Ledger LedgerTxnEntry :=
  '(t, outer) ← openTxn id;
  s ← get;
  let key := LedgerEntryKey entry in
  match getNewestVersion (root s) (t :: outer) key with
  | Some _ => throw "Key already exists"
  | None =>
    impl ← makeSharedImpl;
    let active := match mActive t !! key with
                  | Some _ => mActive t
                  | None => <[key := MutableImpl impl]> (mActive t)
                  end in
    putTxns (setEntry (<[key := Some entry]> (mEntry t)) (setActive active t) :: outer);;
    mret (Some (mkHandle id key impl))
  end.

Definition createOrUpdateWithoutLoading (id : nat) (entry : LedgerEntry) : M Ledger unit :=
  '(t, outer) ← openTxn id;
  let key := LedgerEntryKey entry in
  match mActive t !! key with
  | Some _ => throw "Key is already active"
  | None => putTxns (setEntry (<[key := Some entry]> (mEntry t)) t :: outer)
  end.

(** [LedgerTxn::erase]. *)
Definition erase (id : nat) (key : LedgerKey) : M Ledger unit :=
  '(t, outer) ← openTxn id;
  s ← get;
  match getNewestVersion (root s) (t :: outer) key with
  | None => throw "Key does not exist"
  | Some _ =>
    let m := match getNewestVersion (root s) outer key with
             | None => delete key (mEntry t)
             | Some _ => <[key := None]> (mEntry t)
             end in
    putTxns (setEntry m (setActive (delete key (mActive t)) t) :: outer)
  end.

(** [LedgerTxnEntry::erase]. *)
Definition eraseEntry (h : LedgerTxnEntry) : M Ledger unit :=
  e ← current h;
  match h with Some h => erase (h_txn h) (LedgerEntryKey e) | None => mret tt end.

Definition eraseWithoutLoading (id : nat) (key : LedgerKey) : M Ledger unit :=
  '(t, outer) ← openTxn id;
  putTxns (setConsistency EXTRA_DELETES
    (setEntry (<[key := None]> (mEntry t)) (setActive (delete key (mActive t)) t)) :: outer).

(** [LedgerTxn::load]: the entry is copied into this transaction. *)
Definition load (id : nat) (key : LedgerKey) : M Ledger LedgerTxnEntry :=
  '(t, outer) ← openTxn id;
  match mActive t !! key with
  | Some _ => throw "Key is active"
  | None =>
    s ← get;
    match getNewestVersion (root s) (t :: outer) key with
    | None => mret None
    | Some e =>
      impl ← makeSharedImpl;
      putTxns (setEntry (<[key := Some e]> (mEntry t))
                 (setActive (<[key := MutableImpl impl]> (mActive t)) t) :: outer);;
      mret (Some (mkHandle id key impl))
    end
  end.

Definition loadWithoutRecord (id : nat) (key : LedgerKey) : M Ledger ConstLedgerTxnEntry :=
  '(t, outer) ← openTxn id;
  match mActive t !! key with
  | Some _ => throw "Key is active"
  | None =>
    s ← get;
    match getNewestVersion (root s) (t :: outer) key with
    | None => mret None
    | Some e =>
      impl ← makeSharedImpl;
      putTxns (setActive (<[key := ConstImpl impl]> (mActive t)) t :: outer);;
      mret (Some (mkHandle id key impl, e))
    end
  end.

(** ** The header *)

(** [LedgerTxnHeader]: a weak pointer, by transaction and [Impl]. *)
Definition LedgerTxnHeader : Type := nat * nat.

Definition headerActive (s : Ledger) (h : LedgerTxnHeader) : option (list LedgerTxn * LedgerTxn * list LedgerTxn) :=
  match findTxn h.1 (txns s) with
  | Some (inner, t, outer) => if decide (mActiveHeader t = Some h.2) then Some (inner, t, outer) else None
  | None => None
  end.

Definition loadHeader (id : nat) : M Ledger LedgerTxnHeader :=
  '(t, outer) ← openTxn id;
  match mActiveHeader t with
  | Some _ => throw "LedgerTxnHeader is active"
  | None =>
    impl ← makeSharedImpl;
    putTxns (setActiveHeader (Some impl) t :: outer);;
    mret (id, impl)
  end.

Definition headerCurrent (h : LedgerTxnHeader) : M Ledger LedgerHeader :=
  s ← get;
  match headerActive s h with
  | Some (_, t, _) => mret (mHeader t)
  | None => throw "LedgerTxnHeader not active"
  end.

Definition setHeaderCurrent (h : LedgerTxnHeader) (lh : LedgerHeader) : M Ledger unit :=
  s ← get;
  match headerActive s h with
  | Some (inner, t, outer) => putTxns (inner ++ setHeader lh t :: outer)
  | None => throw "LedgerTxnHeader not active"
  end.

(** [LedgerTxn::deactivateHeader]. *)
Definition deactivateHeader (id : nat) : M Ledger unit :=
  '(inner, t, outer) ← getImpl id;
  match mActiveHeader t with
  | None => throw "LedgerTxnHeader is not active"
  | Some _ => putTxns (inner ++ setActiveHeader None t :: outer)
  end.

Definition destroyHeader (h : LedgerTxnHeader) : M Ledger unit :=
  s ← get;
  match headerActive s h with
  | Some _ => noexcept (deactivateHeader h.1)
  | None => mret tt
  end.

(** [unsealHeader]: the handle dies at the end of the call. *)
Definition unsealHeader (id : nat) (f : LedgerHeader → LedgerHeader) : M Ledger unit :=
  '(inner, t, outer) ← getImpl id;
  if negb (mIsSealed t) then throw "LedgerTxn is not sealed"
  else match mActiveHeader t with
  | Some _ => throw "LedgerTxnHeader is active"
  | None => impl ← makeSharedImpl; putTxns (inner ++ setHeader (f (mHeader t)) t :: outer)
  end.

(** ** Offers *)

(** The loop of [getBestOffer] over the entries of one transaction: the keys seen and the best so
    far. An entry under the key of an offer that is not one makes the access to the union throw. *)
Fixpoint bestOfferLoop (buying selling : Asset) (l : list (LedgerKey * option LedgerEntry))
    (exclude : gset LedgerKey) (best : option (LedgerEntry * OfferEntry))
    : option (gset LedgerKey * option (LedgerEntry * OfferEntry)) :=
  match l with
  | [] => Some (exclude, best)
  | (key, entry) :: l =>
    if negb (isOfferKey key) then bestOfferLoop buying selling l exclude best
    else if decide (key ∈ exclude) then bestOfferLoop buying selling l exclude best
    else
      let exclude := {[key]} ∪ exclude in
      match entry with
      | None => bestOfferLoop buying selling l exclude best
      | Some e =>
        match data e with
        | Offer o =>
          if negb (bool_decide (oe_buying o = buying) && bool_decide (oe_selling o = selling))
          then bestOfferLoop buying selling l exclude best
          else match best with
               | Some (_, b) =>
                 bestOfferLoop buying selling l exclude (if isBetterOffer o b then Some (e, o) else best)
               | None => bestOfferLoop buying selling l exclude (Some (e, o))
               end
        | _ => None
        end
      end
  end.

(** [getBestOffer] of a transaction and its parents. The root takes the first row in the order of
    price and offer that is not excluded. *)
Fixpoint getBestOffer (r : LedgerTxnRoot) (l : list LedgerTxn) (buying selling : Asset)
    (exclude : gset LedgerKey) : option (option (LedgerEntry * OfferEntry)) :=
  match l with
  | [] => snd <$> bestOfferLoop buying selling (iterate (Some <$> rootEntries r)) exclude None
  | t :: l =>
    '(exclude, bestOffer) ← bestOfferLoop buying selling (iterate (mEntry t)) exclude None;
    parentBestOffer ← getBestOffer r l buying selling exclude;
    Some (match bestOffer, parentBestOffer with
          | Some (e, o), Some (pe, po) => Some (if isBetterOffer o po then (e, o) else (pe, po))
          | Some b, None => Some b
          | None, _ => parentBestOffer
          end)
  end.

Definition loadBestOffer (id : nat) (buying selling : Asset) : M Ledger LedgerTxnEntry :=
  '(t, outer) ← openTxn id;
  s ← get;
  match getBestOffer (root s) (t :: outer) buying selling ∅ with
  | None => throw "accessing wrong union field"
  | Some None => mret None
  | Some (Some (e, _)) => load id (LedgerEntryKey e)
  end.

(** The offers of a transaction over those of its parents; [keep] selects them ([None]: the access
    to the union throws). *)
Definition overlayOffers (keep : LedgerEntry → option bool) (offers : option (gmap LedgerKey LedgerEntry))
    (kv : LedgerKey * option LedgerEntry) : option (gmap LedgerKey LedgerEntry) :=
  offers ← offers;
  if negb (isOfferKey kv.1) then Some offers
  else match kv.2 with
       | None => Some (delete kv.1 offers)
       | Some e => b ← keep e; Some (if b : bool then <[kv.1 := e]> offers else delete kv.1 offers)
       end.

(** The root selects in SQL, from the table of offers. *)
Definition rootOffers (keep : LedgerEntry → option bool) (r : LedgerTxnRoot) : gmap LedgerKey LedgerEntry :=
  filter (λ kv, isOfferKey kv.1 = true ∧ keep kv.2 = Some true) (rootEntries r).

Fixpoint offersOf (keep : LedgerEntry → option bool) (r : LedgerTxnRoot) (l : list LedgerTxn)
    : option (gmap LedgerKey LedgerEntry) :=
  match l with
  | [] => Some (rootOffers keep r)
  | t :: l => fold_left (overlayOffers keep) (iterate (mEntry t)) (offersOf keep r l)
  end.

Definition getAllOffers (r : LedgerTxnRoot) (l : list LedgerTxn) : option (gmap LedgerKey LedgerEntry) :=
  offersOf (λ _, Some true) r l.

Definition ofAccountAndAsset (account : AccountID) (asset : Asset) (e : LedgerEntry) : option bool :=
  match data e with
  | Offer oe => Some (bool_decide (oe_sellerID oe = account) &&
                      (bool_decide (oe_selling oe = asset) || bool_decide (oe_buying oe = asset)))
  | _ => None
  end.

Definition getOffersByAccountAndAsset (r : LedgerTxnRoot) (l : list LedgerTxn) (account : AccountID) (asset : Asset)
    : option (gmap LedgerKey LedgerEntry) :=
  offersOf (ofAccountAndAsset account asset) r l.

(** The loops of [loadAllOffers] and [loadOffersByAccountAndAsset]; on an exception the entries are
    restored, and the handles loaded so far die. *)
Fixpoint loadKeys (id : nat) (keys : list LedgerKey) : M Ledger (list LedgerTxnEntry) :=
  match keys with
  | [] => mret []
  | k :: keys => h ← load id k; hs ← loadKeys id keys; mret (h :: hs)
  end.

Definition restoreOnThrow {A} (id : nat) (previousEntries : EntryMap) (previousActive : gmap LedgerKey EntryImpl)
    (m : M Ledger A) : M Ledger A := λ s,
  match m s with
  | Throw w s' =>
    match findTxn id (txns s') with
    | Some (inner, t, outer) =>
      Throw w (mkLedger (inner ++ setEntry previousEntries (setActive previousActive t) :: outer) (root s') (nextImpl s'))
    | None => Throw w s'
    end
  | r => r
  end.

Definition loadOffers (id : nat) (select : LedgerTxnRoot → list LedgerTxn → option (gmap LedgerKey LedgerEntry))
    : M Ledger (list LedgerTxnEntry) :=
  '(t, outer) ← openTxn id;
  s ← get;
  match select (root s) (t :: outer) with
  | None => throw "accessing wrong union field"
  | Some offers => restoreOnThrow id (mEntry t) (mActive t) (loadKeys id (iterate offers).*1)
  end.

(** [offersByAccount[sellerID].emplace_back(...)]. *)
Definition bySeller (m : gmap AccountID (list LedgerTxnEntry)) (h : LedgerTxnEntry)
    : gmap AccountID (list LedgerTxnEntry) :=
  match h with
  | Some (mkHandle _ (OFFER sellerID _) _) => <[sellerID := default [] (m !! sellerID) ++ [h]]> m
  | _ => m
  end.

Definition loadAllOffers (id : nat) : M Ledger (gmap AccountID (list LedgerTxnEntry)) :=
  hs ← loadOffers id getAllOffers;
  mret (fold_left bySeller hs ∅).

Definition loadOffersByAccountAndAsset (id : nat) (accountID : AccountID) (asset : Asset)
    : M Ledger (list LedgerTxnEntry) :=
  loadOffers id (λ r l, getOffersByAccountAndAsset r l accountID asset).

(** ** What a transaction has changed *)

Inductive LedgerEntryChange :=
| LEDGER_ENTRY_STATE (e : LedgerEntry)
| LEDGER_ENTRY_UPDATED (e : LedgerEntry)
| LEDGER_ENTRY_REMOVED (k : LedgerKey)
| LEDGER_ENTRY_CREATED (e : LedgerEntry).

Definition throwIfNotExactConsistency (t : LedgerTxn) : M Ledger unit :=
  match mConsistency t with
  | EXACT => mret tt
  | EXTRA_DELETES => throw "LedgerTxn consistency level is not exact"
  end.

Fixpoint changesLoop (r : LedgerTxnRoot) (outer : list LedgerTxn) (l : list (LedgerKey * option LedgerEntry))
    : M Ledger (list LedgerEntryChange) :=
  match l with
  | [] => mret []
  | (key, entry) :: l =>
    match getNewestVersion r outer key, entry with
    | Some previous, Some e =>
      rest ← changesLoop r outer l; mret (LEDGER_ENTRY_STATE previous :: LEDGER_ENTRY_UPDATED e :: rest)
    | Some previous, None =>
      rest ← changesLoop r outer l; mret (LEDGER_ENTRY_STATE previous :: LEDGER_ENTRY_REMOVED key :: rest)
    | None, Some e => rest ← changesLoop r outer l; mret (LEDGER_ENTRY_CREATED e :: rest)
    | None, None => crash "assertion failed"
    end
  end.

Definition getChanges (id : nat) : M Ledger (list LedgerEntryChange) :=
  '(_, t, _) ← getImpl id;
  throwIfNotExactConsistency t;;
  '(t, outer) ← sealTxn id;
  s ← get;
  changesLoop (root s) outer (iterate (mEntry t)).

(** [getDelta]: the current and the previous version of every entry, and of the header. *)
Definition getDelta (id : nat)
    : M Ledger (gmap LedgerKey (option LedgerEntry * option LedgerEntry) * (LedgerHeader * LedgerHeader)) :=
  '(_, t, _) ← getImpl id;
  throwIfNotExactConsistency t;;
  '(t, outer) ← sealTxn id;
  s ← get;
  mret (map_imap (λ key e, Some (e, getNewestVersion (root s) outer key)) (mEntry t),
        (mHeader t, getHeader (root s) outer)).

(** [getAllEntries]: created, changed and erased. *)
Definition sortEntry (r : LedgerTxnRoot) (outer : list LedgerTxn)
    (acc : list LedgerEntry * list LedgerEntry * list LedgerKey) (kv : LedgerKey * option LedgerEntry)
    : list LedgerEntry * list LedgerEntry * list LedgerKey :=
  let '(resInit, resLive, resDead) := acc in
  match kv.2, getNewestVersion r outer kv.1 with
  | Some e, Some _ => (resInit, resLive ++ [e], resDead)
  | Some e, None => (resInit ++ [e], resLive, resDead)
  | None, _ => (resInit, resLive, resDead ++ [kv.1])
  end.

Definition getAllEntries (id : nat) : M Ledger (list LedgerEntry * list LedgerEntry * list LedgerKey) :=
  '(t, outer) ← sealTxn id;
  s ← get;
  mret (fold_left (sortEntry (root s) outer) (iterate (mEntry t)) ([], [], [])).
End Operations.
