(* ===== verification/TrustLines.v ===== *)
(** * Entries and trust lines through handles: [ledger/TrustLineWrapper.cpp], [transactions/TransactionUtils.cpp]

    The operations of [Balances] on the entries behind handles, the lifetime of local handles, and
    the two classes that make the issuer of an asset look like the owner of an unlimited trust line.
    A handle is destroyed at the end of its scope, also when an exception passes. *)
From stdpp Require Import base list gmap strings.
From Stdlib Require Import ZArith.
From S2P Require Import Prelude UInt128 Numeric Exchange LedgerEntries Balances LedgerTxn.

Notation LedgerTxnEntry := (option Handle) (only parsing).
Notation ConstLedgerTxnEntry := (option (Handle * LedgerEntry)) (only parsing).

(** ** Scopes *)

(** A local object with destructor [d]. *)
Definition scoped {S A} (d : M S unit) (body : M S A) : M S A := λ s,
  match body s with
  | Ok a s' => (d;; mret a) s'
  | Throw w s' => (d;; throw w) s'
  | r => r
  end.

Definition withEntry {A} (h : LedgerTxnEntry) (body : LedgerTxnEntry → M Ledger A) : M Ledger A :=
  scoped (destroyEntry h) (body h).
Definition withConst {A} (h : ConstLedgerTxnEntry) (body : ConstLedgerTxnEntry → M Ledger A) : M Ledger A :=
  scoped (destroyConst h) (body h).

(** [auto header = ltx.loadHeader()], and a local [LedgerTxn] over the transaction [parent]. *)
Definition withHeader {A} (id : nat) (body : LedgerTxnHeader → M Ledger A) : M Ledger A :=
  header ← loadHeader id; scoped (destroyHeader header) (body header).
Definition withTxn {A} (parent : nat) (body : nat → M Ledger A) : M Ledger A :=
  ltx ← newLedgerTxn (Some parent) true; scoped (destroyTxn ltx) (body ltx).

(** ** Operations on the entry behind a handle *)

Definition onEntry {A} (h : LedgerTxnEntry) (f : M LedgerEntry A) : M Ledger A :=
  e ← current h;
  match f e with
  | Ok a e' => setCurrent h e';; mret a
  | Throw w e' => setCurrent h e';; throw w
  | Crash w e' => setCurrent h e';; crash w
  | NoFuel => nofuel
  end.

(** [f] with the header behind its handle. *)
Definition underHeader {A} (header : LedgerTxnHeader) (f : LedgerHeader → M Ledger A) : M Ledger A :=
  lh ← headerCurrent header; f lh.

Definition readEntry {A} (f : LedgerHeader → LedgerEntry → M Ledger A) (header : LedgerTxnHeader) (h : LedgerTxnEntry) : M Ledger A :=
  underHeader header (λ lh, e ← current h; f lh e).
Definition readConst {A} (f : LedgerHeader → LedgerEntry → M Ledger A) (header : LedgerTxnHeader) (h : ConstLedgerTxnEntry) : M Ledger A :=
  underHeader header (λ lh, e ← constCurrent h; f lh e).

Definition entry_addBalance (header : LedgerTxnHeader) (h : LedgerTxnEntry) (delta : Z) : M Ledger bool :=
  underHeader header (λ lh, onEntry h (addBalance lh delta)).
Definition entry_addBuyingLiabilities (header : LedgerTxnHeader) (h : LedgerTxnEntry) (delta : Z) : M Ledger bool :=
  underHeader header (λ lh, onEntry h (addBuyingLiabilities lh delta)).
Definition entry_addSellingLiabilities (header : LedgerTxnHeader) (h : LedgerTxnEntry) (delta : Z) : M Ledger bool :=
  underHeader header (λ lh, onEntry h (addSellingLiabilities lh delta)).
Definition entry_addNumEntries (header : LedgerTxnHeader) (h : LedgerTxnEntry) (count : Z) : M Ledger AddSubentryResult :=
  underHeader header (λ lh, onEntry h (addNumEntries lh count)).

Definition loadAccount (ltx : nat) (accountID : AccountID) : M Ledger LedgerTxnEntry := load ltx (accountKey accountID).
Definition loadAccountWithoutRecord (ltx : nat) (accountID : AccountID) : M Ledger ConstLedgerTxnEntry :=
  loadWithoutRecord ltx (accountKey accountID).
Definition loadData (ltx : nat) (accountID : AccountID) (dataName : Bytes) : M Ledger LedgerTxnEntry :=
  load ltx (dataKey accountID dataName).
Definition loadOffer (ltx : nat) (sellerID : AccountID) (offerID : Z) : M Ledger LedgerTxnEntry :=
  load ltx (offerKey sellerID offerID).

(** ** Trust lines *)

(** [TrustLineWrapper]: no implementation, the entry of a holder, or the issuer. *)
Inductive TrustLineImpl :=
| NonIssuerImpl (mEntry : LedgerTxnEntry)
| IssuerImpl (mAccountID : AccountID) (mAsset : Asset).
Notation TrustLineWrapper := (option TrustLineImpl) (only parsing).

Definition newTrustLineWrapper (ltx : nat) (accountID : AccountID) (asset : Asset) : M Ledger TrustLineWrapper :=
  if isNative asset then throw "trustline for native asset"
  else match getIssuer asset with
  | None => wrongUnion
  | Some issuer =>
    if decide (issuer = accountID) then mret (Some (IssuerImpl accountID asset))
    else
      entry ← load ltx (TRUSTLINE accountID asset);
      s ← get;
      mret (if isActive MutableImpl s entry then Some (NonIssuerImpl entry) else None)
  end.

(** [operator bool] of the class and of its implementations. *)
Definition wrapper_bool (w : TrustLineWrapper) : M Ledger bool :=
  s ← get;
  mret (match w with
        | None => false
        | Some (NonIssuerImpl entry) => isActive MutableImpl s entry
        | Some (IssuerImpl _ _) => true
        end).

Definition wrapper_getImpl (w : TrustLineWrapper) : M Ledger TrustLineImpl :=
  b ← wrapper_bool w;
  match w with
  | Some impl => if (b : bool) then mret impl else throw "TrustLineWrapper not active"
  | None => throw "TrustLineWrapper not active"
  end.

Definition destroyWrapper (w : TrustLineWrapper) : M Ledger unit :=
  match w with Some (NonIssuerImpl entry) => destroyEntry entry | _ => mret tt end.
Definition withWrapper {A} (w : TrustLineWrapper) (body : TrustLineWrapper → M Ledger A) : M Ledger A :=
  scoped (destroyWrapper w) (body w).

(** A virtual call: of the holder's entry, or the constant of the issuer. *)
Definition wrapper_call {A} (w : TrustLineWrapper) (f : LedgerTxnEntry → M Ledger A) (issuer : A) : M Ledger A :=
  impl ← wrapper_getImpl w;
  match impl with NonIssuerImpl entry => f entry | IssuerImpl _ _ => mret issuer end.

Definition wrapper_getBalance (w : TrustLineWrapper) : M Ledger Z :=
  wrapper_call w (λ h, e ← current h; tl ← trustLine e; mret (tl_balance tl)) INT64_MAX.
Definition wrapper_addBalance (w : TrustLineWrapper) (header : LedgerTxnHeader) (delta : Z) : M Ledger bool :=
  wrapper_call w (λ h, entry_addBalance header h delta) true.
Definition wrapper_getBuyingLiabilities (w : TrustLineWrapper) (header : LedgerTxnHeader) : M Ledger Z :=
  wrapper_call w (readEntry getBuyingLiabilities header) 0.
Definition wrapper_getSellingLiabilities (w : TrustLineWrapper) (header : LedgerTxnHeader) : M Ledger Z :=
  wrapper_call w (readEntry getSellingLiabilities header) 0.
Definition wrapper_addBuyingLiabilities (w : TrustLineWrapper) (header : LedgerTxnHeader) (delta : Z) : M Ledger bool :=
  wrapper_call w (λ h, entry_addBuyingLiabilities header h delta) true.
Definition wrapper_addSellingLiabilities (w : TrustLineWrapper) (header : LedgerTxnHeader) (delta : Z) : M Ledger bool :=
  wrapper_call w (λ h, entry_addSellingLiabilities header h delta) true.
Definition wrapper_isAuthorized (w : TrustLineWrapper) : M Ledger bool :=
  wrapper_call w (λ h, e ← current h; isAuthorized e) true.
Definition wrapper_getAvailableBalance (w : TrustLineWrapper) (header : LedgerTxnHeader) : M Ledger Z :=
  wrapper_call w (readEntry getAvailableBalance header) INT64_MAX.
Definition wrapper_getMaxAmountReceive (w : TrustLineWrapper) (header : LedgerTxnHeader) : M Ledger Z :=
  wrapper_call w (readEntry getMaxAmountReceive header) INT64_MAX.

(** The readers of the key, the constructor from a handle, and [deactivate]. *)
Definition wrapper_getAccountID (w : TrustLineWrapper) : M Ledger AccountID :=
  impl ← wrapper_getImpl w;
  match impl with
  | NonIssuerImpl h => e ← current h; tl ← trustLine e; mret (tl_accountID tl)
  | IssuerImpl accountID _ => mret accountID
  end.
Definition wrapper_getAsset (w : TrustLineWrapper) : M Ledger Asset :=
  impl ← wrapper_getImpl w;
  match impl with
  | NonIssuerImpl h => e ← current h; tl ← trustLine e; mret (tl_asset tl)
  | IssuerImpl _ asset => mret asset
  end.
Definition wrapperOf (entry : LedgerTxnEntry) : M Ledger TrustLineWrapper :=
  s ← get; mret (if isActive MutableImpl s entry then Some (NonIssuerImpl entry) else None).
Definition wrapper_deactivate (w : TrustLineWrapper) : M Ledger TrustLineWrapper := destroyWrapper w;; mret None.

(** [ConstTrustLineWrapper]. *)
Inductive ConstTrustLineImpl :=
| ConstNonIssuerImpl (mEntry : ConstLedgerTxnEntry)
| ConstIssuerImpl.
Notation ConstTrustLineWrapper := (option ConstTrustLineImpl) (only parsing).

Definition constActive (s : Ledger) (h : ConstLedgerTxnEntry) : bool := isActive ConstImpl s (fst <$> h).

Definition newConstTrustLineWrapper (ltx : nat) (accountID : AccountID) (asset : Asset) : M Ledger ConstTrustLineWrapper :=
  match getIssuer asset with
  | None => wrongUnion
  | Some issuer =>
    if decide (issuer = accountID) then mret (Some ConstIssuerImpl)
    else
      entry ← loadWithoutRecord ltx (TRUSTLINE accountID asset);
      s ← get;
      mret (if constActive s entry then Some (ConstNonIssuerImpl entry) else None)
  end.

Definition constWrapper_bool (w : ConstTrustLineWrapper) : M Ledger bool :=
  s ← get;
  mret (match w with
        | None => false
        | Some (ConstNonIssuerImpl entry) => constActive s entry
        | Some ConstIssuerImpl => true
        end).

Definition constWrapper_getImpl (w : ConstTrustLineWrapper) : M Ledger ConstTrustLineImpl :=
  b ← constWrapper_bool w;
  match w with
  | Some impl => if (b : bool) then mret impl else throw "ConstTrustLineWrapper not active"
  | None => throw "ConstTrustLineWrapper not active"
  end.

Definition destroyConstWrapper (w : ConstTrustLineWrapper) : M Ledger unit :=
  match w with Some (ConstNonIssuerImpl entry) => destroyConst entry | _ => mret tt end.
Definition withConstWrapper {A} (w : ConstTrustLineWrapper) (body : ConstTrustLineWrapper → M Ledger A) : M Ledger A :=
  scoped (destroyConstWrapper w) (body w).

Definition constWrapper_call {A} (w : ConstTrustLineWrapper) (f : ConstLedgerTxnEntry → M Ledger A) (issuer : A) : M Ledger A :=
  impl ← constWrapper_getImpl w;
  match impl with ConstNonIssuerImpl entry => f entry | ConstIssuerImpl => mret issuer end.

Definition constWrapper_getBalance (w : ConstTrustLineWrapper) : M Ledger Z :=
  constWrapper_call w (λ h, e ← constCurrent h; tl ← trustLine e; mret (tl_balance tl)) INT64_MAX.
Definition constWrapper_isAuthorized (w : ConstTrustLineWrapper) : M Ledger bool :=
  constWrapper_call w (λ h, e ← constCurrent h; isAuthorized e) true.
Definition constWrapper_getAvailableBalance (w : ConstTrustLineWrapper) (header : LedgerTxnHeader) : M Ledger Z :=
  constWrapper_call w (readConst getAvailableBalance header) INT64_MAX.
Definition constWrapper_getMaxAmountReceive (w : ConstTrustLineWrapper) (header : LedgerTxnHeader) : M Ledger Z :=
  constWrapper_call w (readConst getMaxAmountReceive header) INT64_MAX.

Definition loadTrustLine (ltx : nat) (accountID : AccountID) (asset : Asset) : M Ledger TrustLineWrapper :=
  newTrustLineWrapper ltx accountID asset.
Definition loadTrustLineWithoutRecord (ltx : nat) (accountID : AccountID) (asset : Asset) : M Ledger ConstTrustLineWrapper :=
  newConstTrustLineWrapper ltx accountID asset.
Definition loadTrustLineIfNotNative (ltx : nat) (accountID : AccountID) (asset : Asset) : M Ledger TrustLineWrapper :=
  if isNative asset then mret None else newTrustLineWrapper ltx accountID asset.
Definition loadTrustLineWithoutRecordIfNotNative (ltx : nat) (accountID : AccountID) (asset : Asset) : M Ledger ConstTrustLineWrapper :=
  if isNative asset then mret None else newConstTrustLineWrapper ltx accountID asset.

(** ** The liabilities of an offer *)

Section Liabilities.
Context (ltx : nat) (header : LedgerTxnHeader) (offerEntry : LedgerTxnEntry).

Definition loadAccountAndValidate (sellerID : AccountID) : M Ledger LedgerTxnEntry :=
  acc ← loadAccount ltx sellerID;
  s ← get;
  if isActive MutableImpl s acc then mret acc else throw "account does not exist".

Definition loadTrustAndValidate (sellerID : AccountID) (asset : Asset) : M Ledger TrustLineWrapper :=
  trust ← loadTrustLine ltx sellerID asset;
  b ← wrapper_bool trust;
  if (b : bool) then mret trust else throw "trustline does not exist".

(** The liabilities of one asset: [onAccount] or [onTrust] must succeed. *)
Definition changeLiabilities (sellerID : AccountID) (asset : Asset)
    (onAccount : LedgerTxnEntry → M Ledger bool) (onTrust : TrustLineWrapper → M Ledger bool) (error : string) : M Ledger unit :=
  if isNative asset then
    acc ← loadAccountAndValidate sellerID;
    withEntry acc (λ acc, ok ← onAccount acc; if (ok : bool) then mret tt else throw error)
  else
    trust ← loadTrustAndValidate sellerID asset;
    withWrapper trust (λ trust, ok ← onTrust trust; if (ok : bool) then mret tt else throw error).

Definition acquireOrReleaseLiabilities (isAcquire : bool) : M Ledger unit :=
  e ← current offerEntry;
  o ← offer e;
  if decide (oe_buying o = oe_selling o) then throw "buying and selling same asset"
  else
    let sign x := if isAcquire then x else - x in
    lh ← headerCurrent header;
    buying ← getOfferBuyingLiabilities lh e;
    changeLiabilities (oe_sellerID o) (oe_buying o)
      (λ acc, entry_addBuyingLiabilities header acc (sign buying))
      (λ trust, wrapper_addBuyingLiabilities trust header (sign buying)) "could not add buying liabilities";;
    lh ← headerCurrent header;
    e ← current offerEntry;
    selling ← getOfferSellingLiabilities lh e;
    changeLiabilities (oe_sellerID o) (oe_selling o)
      (λ acc, entry_addSellingLiabilities header acc (sign selling))
      (λ trust, wrapper_addSellingLiabilities trust header (sign selling)) "could not add selling liabilities".

Definition acquireLiabilities : M Ledger unit := acquireOrReleaseLiabilities true.
Definition releaseLiabilities : M Ledger unit := acquireOrReleaseLiabilities false.
End Liabilities.
