(* ===== verification/LedgerTxnSpec.v ===== *)
(** * Nested ledger transactions: specification

    What a transaction promises: it shows a finite map of entries, a child starts with a copy of what
    its parent shows, a commit replaces what the parent shows by what the child shows, a rollback
    forgets the child. The maps of changes, the handles and the consistency levels of the code
    implement this stack of maps. *)
From stdpp Require Import base list gmap strings.
From Stdlib Require Import ZArith Lia.
From S2P Require Import Prelude Numeric LedgerEntries LedgerTxn.

(** ** What a transaction shows *)

Fixpoint visible (r : LedgerTxnRoot) (l : list LedgerTxn) : gmap LedgerKey LedgerEntry :=
  match l with
  | [] => rootEntries r
  | t :: l => omap id (mEntry t ∪ (Some <$> visible r l))
  end.

Lemma visible_lookup r l k : visible r l !! k = getNewestVersion r l k.
Proof.
  induction l as [|t l IH]; [done|]. simpl. rewrite lookup_omap, lookup_union, lookup_fmap, IH.
  destruct (mEntry t !! k) as [[e|]|]; simpl; [..|by destruct (getNewestVersion r l k)].
  - by destruct (getNewestVersion r l k).
  - by destruct (getNewestVersion r l k).
Qed.

Lemma visible_ext r l m : (∀ k, getNewestVersion r l k = m !! k) → visible r l = m.
Proof. intros Hk. apply map_eq. intros k. by rewrite visible_lookup. Qed.

Lemma visible_insert r t l k e :
  visible r (setEntry (<[k := Some e]> (mEntry t)) t :: l) = <[k := e]> (visible r (t :: l)).
Proof.
  apply visible_ext. intros k'. simpl. destruct (decide (k' = k)) as [->|Hne].
  - by rewrite !lookup_insert_eq.
  - rewrite !lookup_insert_ne by done. by rewrite (visible_lookup r (t :: l)).
Qed.

Lemma visible_erase r t l k :
  visible r (setEntry (<[k := None]> (mEntry t)) t :: l) = delete k (visible r (t :: l)).
Proof.
  apply visible_ext. intros k'. simpl. destruct (decide (k' = k)) as [->|Hne].
  - by rewrite lookup_insert_eq, lookup_delete_eq.
  - rewrite lookup_insert_ne, lookup_delete_ne by done. by rewrite (visible_lookup r (t :: l)).
Qed.

Lemma visible_forget r t l k :
  getNewestVersion r l k = None →
  visible r (setEntry (delete k (mEntry t)) t :: l) = delete k (visible r (t :: l)).
Proof.
  intros Hk. apply visible_ext. intros k'. simpl. destruct (decide (k' = k)) as [->|Hne].
  - by rewrite !lookup_delete_eq.
  - rewrite !lookup_delete_ne by done. by rewrite (visible_lookup r (t :: l)).
Qed.

(** Only the changes of a transaction matter for what it shows. *)
Lemma visible_entries r t t' l : mEntry t = mEntry t' → visible r (t :: l) = visible r (t' :: l).
Proof. intros E. simpl. by rewrite E. Qed.

Lemma visible_empty r t l : mEntry t = ∅ → visible r (t :: l) = visible r l.
Proof. intros E. apply visible_ext. intros k. simpl. by rewrite E, lookup_empty, visible_lookup. Qed.

(** ** Loops over hash tables *)

Section Iteration.
Context `{HashOrder}.

Lemma elem_of_iterate {A} (m : gmap LedgerKey A) k x : (k, x) ∈ iterate m ↔ m !! k = Some x.
Proof. rewrite iterate_perm. apply elem_of_map_to_list. Qed.

Lemma NoDup_iterate {A} (m : gmap LedgerKey A) : NoDup (iterate m).*1.
Proof. rewrite iterate_perm. apply NoDup_fst_map_to_list. Qed.

(** A loop that sets each key to a value of its own. *)
Lemma fold_iterate {A B} (f : gmap LedgerKey B → LedgerKey * A → gmap LedgerKey B) (g : LedgerKey → A → option B)
    (m : gmap LedgerKey A) acc :
  (∀ acc k v k', f acc (k, v) !! k' = if decide (k' = k) then g k v else acc !! k') →
  ∀ k, fold_left f (iterate m) acc !! k = match m !! k with Some v => g k v | None => acc !! k end.
Proof.
  intros Hf k.
  assert (Hl : ∀ l acc, NoDup l.*1 → fold_left f l acc !! k =
    match list_to_map (M:=gmap LedgerKey A) l !! k with Some v => g k v | None => acc !! k end).
  { clear acc. induction l as [|[k' v] l IH]; intros acc Hd; [done|]. simpl.
    apply NoDup_cons in Hd as [Hk' Hd]. rewrite (IH _ Hd), Hf.
    destruct (decide (k = k')) as [->|Hne].
    - by rewrite lookup_insert_eq, (not_elem_of_list_to_map_1 l k') by done.
    - by rewrite lookup_insert_ne by done. }
  rewrite (Hl _ _ (NoDup_iterate m)).
  by rewrite (list_to_map_proper _ (map_to_list m) (NoDup_iterate m) (iterate_perm A m)), list_to_map_to_list.
Qed.

Lemma commit_lookup r outer m m0 k :
  fold_left (commitEntry r outer) (iterate m) m0 !! k =
  match m !! k with
  | Some (Some e) => Some (Some e)
  | Some None => match getNewestVersion r outer k with None => None | Some _ => Some None end
  | None => m0 !! k
  end.
Proof.
  rewrite (fold_iterate _ (λ k v, match v with
    | Some e => Some (Some e)
    | None => match getNewestVersion r outer k with None => None | Some _ => Some None end end)).
  - by destruct (m !! k) as [[]|].
  - intros acc k0 v k'. unfold commitEntry. simpl. destruct v as [e|].
    + destruct (decide (k' = k0)) as [->|Hne]; [by rewrite lookup_insert_eq|by rewrite lookup_insert_ne].
    + destruct (getNewestVersion r outer k0); destruct (decide (k' = k0)) as [->|Hne].
      * by rewrite lookup_insert_eq.
      * by rewrite lookup_insert_ne.
      * by rewrite lookup_delete_eq.
      * by rewrite lookup_delete_ne.
Qed.

(** What the parent shows after a commit. *)
Lemma visible_commit r t l m c h :
  visible r (setHeader h (setEntry (fold_left (commitEntry r l) (iterate m) (mEntry t)) (setConsistency c t)) :: l) =
  omap id (m ∪ (Some <$> visible r (t :: l))).
Proof.
  apply visible_ext. intros k. simpl. rewrite commit_lookup, lookup_omap, !lookup_union, !lookup_fmap.
  rewrite lookup_omap, lookup_union, lookup_fmap, visible_lookup.
  destruct (m !! k) as [[e|]|]; simpl.
  - by destruct (mEntry t !! k) as [[?|]|]; destruct (getNewestVersion r l k).
  - destruct (getNewestVersion r l k); by destruct (mEntry t !! k) as [[?|]|].
  - by destruct (mEntry t !! k) as [[?|]|]; destruct (getNewestVersion r l k).
Qed.

(** A commit to the root succeeds if every row to delete is there, or some may be missing. *)
Lemma root_commit cons (m : gmap LedgerKey (option LedgerEntry)) db :
  (∀ k, m !! k = Some None → cons = EXACT → is_Some (db !! k)) →
  fold_left (applyToRoot cons) (iterate m) (Some db) = Some (omap id (m ∪ (Some <$> db))).
Proof.
  intros Hdel.
  assert (Hl : ∀ (l : list (LedgerKey * option LedgerEntry)) db, NoDup l.*1 →
    (∀ k, (k, None) ∈ l → cons = EXACT → is_Some (db !! k)) →
    ∃ db', fold_left (applyToRoot cons) l (Some db) = Some db' ∧
      ∀ k, db' !! k = match list_to_map (M:=gmap LedgerKey (option LedgerEntry)) l !! k with
                      | Some v => v | None => db !! k end).
  { clear db Hdel. induction l as [|[k v] l IH]; intros db Hd Hdel; [by exists db|].
    apply NoDup_cons in Hd as [Hk Hd].
    assert (Hv : applyToRoot cons (Some db) (k, v) =
      Some (match v with Some e => <[k := e]> db | None => delete k db end)).
    { unfold applyToRoot. simpl. destruct v as [e|]; [done|].
      destruct (db !! k) eqn:E; [done|]. destruct cons; [|done]. destruct (Hdel k) as [x Hx]; [by left|done|congruence]. }
    cbn [fold_left]. rewrite Hv. destruct (IH (match v with Some e => <[k := e]> db | None => delete k db end)) as (db' & E & Hl); [done| |].
    - intros k' Hk' Hc. assert (k' ≠ k).
      { intros ->. apply Hk. apply (list_elem_of_fmap_2 fst _ (k, None)). done. }
      destruct v; rewrite ?lookup_insert_ne, ?lookup_delete_ne by done; apply Hdel; try done; by right.
    - exists db'. split; [done|]. intros k'. rewrite Hl. simpl. destruct (decide (k' = k)) as [->|Hne].
      + rewrite lookup_insert_eq, (not_elem_of_list_to_map_1 l k) by done.
        destruct v; [by rewrite lookup_insert_eq|by rewrite lookup_delete_eq].
      + rewrite lookup_insert_ne by done. destruct (list_to_map l !! k'); [done|].
        destruct v; [by rewrite lookup_insert_ne|by rewrite lookup_delete_ne]. }
  destruct (Hl (iterate m) db (NoDup_iterate m)) as (db' & -> & Hdb).
  { intros k Hk. apply Hdel. by apply elem_of_iterate. }
  f_equal. apply map_eq. intros k. rewrite Hdb, lookup_omap, lookup_union, lookup_fmap.
  rewrite (list_to_map_proper _ (map_to_list m) (NoDup_iterate m) (iterate_perm _ m)), list_to_map_to_list.
  destruct (m !! k) as [[e|]|]; simpl; by destruct (db !! k).
Qed.
End Iteration.

(** ** The invariant *)

(** A transaction [t] inside [outer]: entries are under their keys; with a consistency of [EXACT] what
    is erased is there in the parent; what is active is visible, and recorded if it can be changed. *)
Record TxnOk (r : LedgerTxnRoot) (t : LedgerTxn) (outer : list LedgerTxn) : Prop := {
  tx_keys k e : mEntry t !! k = Some (Some e) → LedgerEntryKey e = k;
  tx_exact k : mConsistency t = EXACT → mEntry t !! k = Some None → is_Some (getNewestVersion r outer k);
  tx_active k i : mActive t !! k = Some i → is_Some (getNewestVersion r (t :: outer) k);
  tx_mutable k n : mActive t !! k = Some (MutableImpl n) → ∃ e, mEntry t !! k = Some (Some e);
  tx_sealed : mIsSealed t = true → mActive t = ∅ ∧ mActiveHeader t = None }.

(** A transaction with a child is idle. *)
Definition idle (t : LedgerTxn) : Prop := mActive t = ∅ ∧ mActiveHeader t = None ∧ mIsSealed t = false.

Fixpoint TxnsOk (r : LedgerTxnRoot) (l : list LedgerTxn) : Prop :=
  match l with
  | [] => True
  | t :: l => TxnOk r t l ∧ match l with [] => True | p :: _ => idle p end ∧ TxnsOk r l
  end.

Record LedgerOk (s : Ledger) : Prop := {
  lo_root k e : rootEntries (root s) !! k = Some e → LedgerEntryKey e = k;
  lo_txns : TxnsOk (root s) (txns s);
  lo_ids : NoDup (txn_id <$> txns s);
  lo_fresh : Forall (λ t, (txn_id t < nextImpl s)%nat) (txns s) }.

Lemma newest_key s : LedgerOk s → ∀ inner l k e,
  txns s = inner ++ l → getNewestVersion (root s) l k = Some e → LedgerEntryKey e = k.
Proof.
  intros [Hr Ht _ _] inner l k e Hl. revert inner Hl Ht. generalize (txns s). intros l0 inner ->.
  induction inner as [|t inner IH]; simpl; [|tauto].
  induction l as [|t l IH]; simpl; [auto|]. intros (Hok & _ & Ht).
  destruct (mEntry t !! k) as [[e'|]|] eqn:E; [|done|auto]. intros [= ->]. by eapply tx_keys.
Qed.

Lemma findTxn_Some id l inner t outer :
  findTxn id l = Some (inner, t, outer) → l = inner ++ t :: outer ∧ txn_id t = id.
Proof.
  revert inner. induction l as [|t0 l IH]; intros inner; [done|]. simpl.
  destruct (decide (txn_id t0 = id)) as [Hid|Hid]; [by intros [= <- <- <-]|].
  destruct (findTxn id l) as [[[inner' t'] outer']|]; [|done]. intros [= <- <- <-].
  destruct (IH inner') as [-> ?]; done.
Qed.

Lemma findTxn_head t outer : findTxn (txn_id t) (t :: outer) = Some ([], t, outer).
Proof. simpl. by rewrite decide_True. Qed.

(** Only the innermost transaction is not idle. *)
Lemma TxnsOk_split r inner t outer :
  TxnsOk r (inner ++ t :: outer) →
  TxnsOk r (t :: outer) ∧ (inner ≠ [] → idle t).
Proof.
  induction inner as [|t0 inner IH]; [done|]. cbn [app TxnsOk]. intros (_ & Hi & Hok).
  destruct (IH Hok) as [? Hid]. split; [done|]. intros _. destruct inner; [done|]. by apply Hid.
Qed.

(** ** The stack of maps *)

Record Level := mkLevel {
  lv_id : nat; lv_entries : gmap LedgerKey LedgerEntry; lv_header : LedgerHeader;
  (** Whether the entries get the number of the ledger when they are committed. *)
  lv_stamp : bool }.

Record Stack := mkStack {
  levels : list Level; st_root : gmap LedgerKey LedgerEntry; st_rootHeader : LedgerHeader }.

Definition levelOf (r : LedgerTxnRoot) (t : LedgerTxn) (outer : list LedgerTxn) : Level :=
  mkLevel (txn_id t) (visible r (t :: outer)) (mHeader t) (mShouldUpdateLastModified t && negb (mIsSealed t)).

Fixpoint levelsOf (r : LedgerTxnRoot) (l : list LedgerTxn) : list Level :=
  match l with [] => [] | t :: l => levelOf r t l :: levelsOf r l end.

Definition stackOf (s : Ledger) : Stack :=
  mkStack (levelsOf (root s) (txns s)) (rootEntries (root s)) (rootHeader (root s)).

(** What the level below shows. *)
Definition below (rest : list Level) (r : gmap LedgerKey LedgerEntry) : gmap LedgerKey LedgerEntry :=
  match rest with [] => r | p :: _ => lv_entries p end.

(** [m'] is [m] with the number of the ledger in the entries that have changed, and possibly in
    others, if the level asks for it. *)
Definition stamped (b : bool) (seq : Z) (parent m m' : gmap LedgerKey LedgerEntry) : Prop :=
  ∀ k, match m !! k with
       | None => m' !! k = None
       | Some e => (m' !! k = Some e ∧ (b = true → parent !! k = Some e)) ∨
                   (b = true ∧ m' !! k = Some (mkEntry seq (data e)))
       end.

(** The operations. *)
Inductive LedgerOp :=
| NewTxn (parent : option nat) (upd : bool)
| Commit (id : nat)
| Rollback (id : nat)
| Create (id : nat) (e : LedgerEntry)
| CreateOrUpdate (id : nat) (e : LedgerEntry)
| Erase (id : nat) (k : LedgerKey)
| EraseEntry (h : option Handle)
| EraseWithoutLoading (id : nat) (k : LedgerKey)
| Load (id : nat) (k : LedgerKey)
| LoadWithoutRecord (id : nat) (k : LedgerKey)
| LoadBestOffer (id : nat) (buying selling : Asset)
| LoadAllOffers (id : nat)
| LoadOffersBy (id : nat) (a : AccountID) (s : Asset)
| SetCurrent (h : option Handle) (e : LedgerEntry)
| DestroyEntry (h : option Handle)
| DestroyConst (h : option (Handle * LedgerEntry))
| LoadHeader (id : nat)
| SetHeader (h : LedgerTxnHeader) (lh : LedgerHeader)
| DestroyHeader (h : LedgerTxnHeader)
| UnsealHeader (id : nat) (f : LedgerHeader → LedgerHeader)
| GetChanges (id : nat)
| GetDelta (id : nat)
| GetAllEntries (id : nat).

Definition runOp `{HashOrder} (op : LedgerOp) : M Ledger unit :=
  match op with
  | NewTxn p upd => newLedgerTxn p upd;; mret tt
  | Commit id => commit id
  | Rollback id => rollback id
  | Create id e => create id e;; mret tt
  | CreateOrUpdate id e => createOrUpdateWithoutLoading id e
  | Erase id k => erase id k
  | EraseEntry h => eraseEntry h
  | EraseWithoutLoading id k => eraseWithoutLoading id k
  | Load id k => load id k;; mret tt
  | LoadWithoutRecord id k => loadWithoutRecord id k;; mret tt
  | LoadBestOffer id b s => loadBestOffer id b s;; mret tt
  | LoadAllOffers id => loadAllOffers id;; mret tt
  | LoadOffersBy id a s => loadOffersByAccountAndAsset id a s;; mret tt
  | SetCurrent h e => setCurrent h e
  | DestroyEntry h => destroyEntry h
  | DestroyConst h => destroyConst h
  | LoadHeader id => loadHeader id;; mret tt
  | SetHeader h lh => setHeaderCurrent h lh
  | DestroyHeader h => destroyHeader h
  | UnsealHeader id f => unsealHeader id f
  | GetChanges id => getChanges id;; mret tt
  | GetDelta id => getDelta id;; mret tt
  | GetAllEntries id => getAllEntries id;; mret tt
  end.

(** What the code relies on: an assignment through a handle does not change the key, and a handle
    that cannot assign goes with the entry it was loaded with. *)
Definition opOk (op : LedgerOp) : Prop :=
  match op with
  | SetCurrent (Some h) e => LedgerEntryKey e = h_key h
  | SetCurrent None _ => True
  | DestroyConst (Some (h, e)) => LedgerEntryKey e = h_key h
  | _ => True
  end.

(** The innermost level [L] with the map [m]. *)
Definition withEntries (m : gmap LedgerKey LedgerEntry) (L : Level) : Level :=
  mkLevel (lv_id L) m (lv_header L) (lv_stamp L).

(** What an operation that returns does to the stack. *)
Definition spec (op : LedgerOp) (a a' : Stack) : Prop :=
  let onTop id (f : Level → Level → Prop) :=
    ∃ L rest L', levels a = L :: rest ∧ lv_id L = id ∧ f L L' ∧ a' = mkStack (L' :: rest) (st_root a) (st_rootHeader a) in
  match op with
  | NewTxn parent upd =>
    ∃ id, id ∉ lv_id <$> levels a ∧
    match parent with
    | None => levels a = [] ∧
      a' = mkStack [mkLevel id (st_root a) (st_rootHeader a) upd] (st_root a) (st_rootHeader a)
    | Some p => ∃ L rest, levels a = L :: rest ∧ lv_id L = p ∧
      a' = mkStack (mkLevel id (lv_entries L) (lv_header L) upd :: L :: rest) (st_root a) (st_rootHeader a)
    end
  | Commit id =>
    ∃ L rest m', levels a = L :: rest ∧ lv_id L = id ∧
      stamped (lv_stamp L) (ledgerSeq (lv_header L)) (below rest (st_root a)) (lv_entries L) m' ∧
      match rest with
      | [] => a' = mkStack [] m' (lv_header L)
      | P :: rest => a' = mkStack (mkLevel (lv_id P) m' (lv_header L) (lv_stamp P) :: rest) (st_root a) (st_rootHeader a)
      end
  | Rollback id =>
    ∃ inner L rest, levels a = inner ++ L :: rest ∧ lv_id L = id ∧ a' = mkStack rest (st_root a) (st_rootHeader a)
  | Create id e => onTop id (λ L L', lv_entries L !! LedgerEntryKey e = None ∧
      L' = withEntries (<[LedgerEntryKey e := e]> (lv_entries L)) L)
  | CreateOrUpdate id e => onTop id (λ L L', L' = withEntries (<[LedgerEntryKey e := e]> (lv_entries L)) L)
  | Erase id k => onTop id (λ L L', is_Some (lv_entries L !! k) ∧ L' = withEntries (delete k (lv_entries L)) L)
  | EraseEntry h => ∃ h', h = Some h' ∧ onTop (h_txn h') (λ L L', is_Some (lv_entries L !! h_key h') ∧
      L' = withEntries (delete (h_key h') (lv_entries L)) L)
  | EraseWithoutLoading id k => onTop id (λ L L', L' = withEntries (delete k (lv_entries L)) L)
  | SetCurrent h e => ∃ h', h = Some h' ∧ onTop (h_txn h') (λ L L', is_Some (lv_entries L !! h_key h') ∧
      L' = withEntries (<[h_key h' := e]> (lv_entries L)) L)
  | SetHeader h lh => onTop h.1 (λ L L', L' = mkLevel (lv_id L) (lv_entries L) lh (lv_stamp L))
  | UnsealHeader id f =>
    onTop id (λ L L', L' = mkLevel (lv_id L) (lv_entries L) (f (lv_header L)) (lv_stamp L) ∧ lv_stamp L = false)
  | GetChanges id | GetDelta id | GetAllEntries id =>
    ∃ L rest m', levels a = L :: rest ∧ lv_id L = id ∧
      stamped (lv_stamp L) (ledgerSeq (lv_header L)) (below rest (st_root a)) (lv_entries L) m' ∧
      a' = mkStack (mkLevel id m' (lv_header L) false :: rest) (st_root a) (st_rootHeader a)
  | Load _ _ | LoadWithoutRecord _ _ | LoadBestOffer _ _ _ | LoadAllOffers _ | LoadOffersBy _ _ _
  | DestroyEntry _ | DestroyConst _ | LoadHeader _ | DestroyHeader _ => a' = a
  end.

(** ** Each operation implements its specification *)

Definition keeps {A} (m : M Ledger A) (s : Ledger) (Q : A → Ledger → Prop) : Prop :=
  wp (λ _, False) False m (λ a s', LedgerOk s' ∧ Q a s') (λ s', LedgerOk s' ∧ stackOf s' = stackOf s) s.

Lemma keeps_throw {A} w s (Q : A → Ledger → Prop) : LedgerOk s → keeps (throw w) s Q.
Proof. done. Qed.
Lemma keeps_ret {A} (a : A) s (Q : A → Ledger → Prop) : LedgerOk s → Q a s → keeps (mret a) s Q.
Proof. done. Qed.
Lemma keeps_get {A} (k : Ledger → M Ledger A) s Q : keeps (k s) s Q → keeps (get ≫= k) s Q.
Proof. done. Qed.
Lemma keeps_mono {A} (m : M Ledger A) s (Q Q' : A → Ledger → Prop) :
  keeps m s Q → (∀ a s', LedgerOk s' → Q a s' → Q' a s') → keeps m s Q'.
Proof. unfold keeps, wp. destruct (m s); naive_solver. Qed.
(** A part that changes nothing visible, then the rest. *)
Lemma keeps_bind {A B} (m : M Ledger A) (k : A → M Ledger B) s R Q :
  keeps m s R → (∀ a s', LedgerOk s' → R a s' → stackOf s' = stackOf s ∧ keeps (k a) s' Q) →
  keeps (m ≫= k) s Q.
Proof.
  unfold keeps, wp, mbind, M_bind. destruct (m s) as [a s'|w s'|w s'|]; try done.
  intros [Hok HR] Hk. destruct (Hk a s' Hok HR) as [Hs Hw]. destruct (k a s'); try done.
  destruct Hw as [? Hst]. split; [done|]. by rewrite Hst.
Qed.
(** A part that does the work, then a result. *)
Lemma keeps_then {A B} (m : M Ledger A) (f : A → B) s (Q : A → Ledger → Prop) (Q' : B → Ledger → Prop) :
  keeps m s Q → (∀ a s', Q a s' → Q' (f a) s') → keeps (m ≫= λ a, mret (f a)) s Q'.
Proof. unfold keeps, wp, mbind, M_bind. destruct (m s); naive_solver. Qed.

Lemma keeps_getImpl {A} id (k : _ → M Ledger A) s Q :
  LedgerOk s →
  (∀ inner t outer, txns s = inner ++ t :: outer → txn_id t = id → findTxn id (txns s) = Some (inner, t, outer) →
     keeps (k (inner, t, outer)) s Q) →
  keeps (getImpl id ≫= k) s Q.
Proof.
  intros Hok Hk. unfold keeps, wp, getImpl, get, mbind, M_bind.
  destruct (findTxn id (txns s)) as [[[inner t] outer]|] eqn:E; [|done].
  destruct (findTxn_Some _ _ _ _ _ E) as [? ?]. by apply Hk.
Qed.

Lemma keeps_openTxn {A} id (k : _ → M Ledger A) s Q :
  LedgerOk s →
  (∀ t outer, txns s = t :: outer → txn_id t = id → mIsSealed t = false → keeps (k (t, outer)) s Q) →
  keeps (openTxn id ≫= k) s Q.
Proof.
  intros Hok Hk. unfold keeps, wp, openTxn, getImpl, get, throwIfSealed, throwIfChild, mbind, M_bind.
  destruct (findTxn id (txns s)) as [[[inner t] outer]|] eqn:E; [|done].
  destruct (findTxn_Some _ _ _ _ _ E) as [Hl ?]. simpl.
  destruct (mIsSealed t) eqn:Es; [done|]. destruct inner; [|done]. by apply Hk.
Qed.

Section Top.
Context (s : Ledger) (Hok : LedgerOk s) (t : LedgerTxn) (outer : list LedgerTxn) (Hl : txns s = t :: outer).

Lemma top_ok : TxnOk (root s) t outer.
Proof. pose proof (lo_txns _ Hok) as H. rewrite Hl in H. simpl in H. tauto. Qed.
Lemma outer_ok : TxnsOk (root s) outer.
Proof. pose proof (lo_txns _ Hok) as H. rewrite Hl in H. simpl in H. tauto. Qed.
Lemma parent_idle : match outer with [] => True | p :: _ => idle p end.
Proof. pose proof (lo_txns _ Hok) as H. rewrite Hl in H. simpl in H. tauto. Qed.

(** Replacing the innermost transaction. *)
Lemma put_top t' n :
  txn_id t' = txn_id t → TxnOk (root s) t' outer → (nextImpl s <= n)%nat →
  LedgerOk (mkLedger (t' :: outer) (root s) n).
Proof.
  intros Hid Ht' Hn. destruct Hok as [H1 H2 H3 H4]. rewrite Hl in H2, H3, H4. simpl in H2. split; simpl.
  - done.
  - tauto.
  - rewrite Hid. exact H3.
  - apply Forall_cons in H4 as [? H4]. apply Forall_cons. split; [lia|].
    eapply Forall_impl; [exact H4|]. simpl. lia.
Qed.

Lemma stack_top : stackOf s = mkStack (levelOf (root s) t outer :: levelsOf (root s) outer)
  (rootEntries (root s)) (rootHeader (root s)).
Proof. unfold stackOf. by rewrite Hl. Qed.

(** Assigning the innermost transaction, in the monad. *)
Lemma keeps_put t' (Q : unit → Ledger → Prop) :
  txn_id t' = txn_id t → TxnOk (root s) t' outer →
  Q tt (mkLedger (t' :: outer) (root s) (nextImpl s)) → keeps (putTxns (t' :: outer)) s Q.
Proof. intros. unfold keeps, wp, putTxns, modify. split; [|done]. by apply put_top. Qed.

(** The same with a new [Impl]. *)
Lemma keeps_impl_put {A} (f : nat → LedgerTxn) (g : nat → A) (Q : A → Ledger → Prop) :
  txn_id (f (nextImpl s)) = txn_id t → TxnOk (root s) (f (nextImpl s)) outer →
  Q (g (nextImpl s)) (mkLedger (f (nextImpl s) :: outer) (root s) (S (nextImpl s))) →
  keeps (impl ← makeSharedImpl; putTxns (f impl :: outer);; mret (g impl)) s Q.
Proof.
  intros. unfold keeps, wp, makeSharedImpl, putTxns, modify, mbind, M_bind. split; [|done].
  apply put_top; [done|done|simpl; lia].
Qed.
End Top.

(** The innermost level before and after. *)
Ltac top_spec r t outer Hl :=
  match goal with
  | |- context [stackOf (mkLedger (?t' :: outer) _ _)] =>
    exists (levelOf r t outer), (levelsOf r outer), (levelOf r t' outer);
    split; [simpl; by rewrite Hl|split; [done|split; [|done]]]
  end.

Lemma levelOf_insert r t outer a k e :
  levelOf r (setEntry (<[k := Some e]> (mEntry t)) (setActive a t)) outer =
  withEntries (<[k := e]> (visible r (t :: outer))) (levelOf r t outer).
Proof. unfold levelOf, withEntries. simpl. f_equal. apply (visible_insert r t outer). Qed.

Lemma levelOf_same r t t' outer : mEntry t' = mEntry t → txn_id t' = txn_id t → mHeader t' = mHeader t →
  mShouldUpdateLastModified t' = mShouldUpdateLastModified t → mIsSealed t' = mIsSealed t →
  levelOf r t' outer = levelOf r t outer.
Proof. intros E E1 E2 E3 E4. unfold levelOf. by rewrite E1, E2, E3, E4, (visible_entries _ t' t). Qed.

(** A change at one key. *)
Lemma TxnOk_at r t outer t' k :
  TxnOk r t outer → mIsSealed t' = false → (mConsistency t' = EXACT → mConsistency t = EXACT) →
  (∀ k', k' ≠ k → mEntry t' !! k' = mEntry t !! k' ∧ ∀ i, mActive t' !! k' = Some i → mActive t !! k' = Some i) →
  (∀ e, mEntry t' !! k = Some (Some e) → LedgerEntryKey e = k) →
  (mEntry t' !! k = Some None → mConsistency t' = EXACT → is_Some (getNewestVersion r outer k)) →
  (∀ i, mActive t' !! k = Some i → is_Some (getNewestVersion r (t' :: outer) k) ∧
        ∀ n, i = MutableImpl n → ∃ e, mEntry t' !! k = Some (Some e)) →
  TxnOk r t' outer.
Proof.
  intros [H1 H2 H3 H4 _] Hs Hc Hne Hk1 Hk2 Hk3. split.
  - intros k' e. destruct (decide (k' = k)) as [->|Hk]; [apply Hk1|]. rewrite (proj1 (Hne k' Hk)). apply H1.
  - intros k' HE. destruct (decide (k' = k)) as [->|Hk]; [auto|]. rewrite (proj1 (Hne k' Hk)). auto.
  - intros k' i. destruct (decide (k' = k)) as [->|Hk]; [intros; by eapply Hk3|].
    destruct (Hne k' Hk) as [E Ha]. intros Hi%Ha%H3. simpl in *. by rewrite E.
  - intros k' n. destruct (decide (k' = k)) as [->|Hk].
    + intros Hi. destruct (Hk3 _ Hi) as [_ Hm]. eauto.
    + destruct (Hne k' Hk) as [E Ha]. rewrite E. intros Hi%Ha. eauto.
  - congruence.
Qed.

(** A key that becomes inactive. *)
Lemma TxnOk_deactivate r t outer k :
  TxnOk r t outer → TxnOk r (setActive (delete k (mActive t)) t) outer.
Proof.
  intros [H1 H2 H3 H4 H5]. split; simpl; [done|done| | |].
  - intros k' i [_ Hi]%lookup_delete_Some. by eapply H3.
  - intros k' n [_ Hi]%lookup_delete_Some. by eapply H4.
  - intros Hs. destruct (H5 Hs) as [Ha Hh]. split; [|done]. rewrite Ha. apply delete_empty.
Qed.

Lemma TxnOk_header r t outer h a :
  TxnOk r t outer → (mIsSealed t = true → a = None) → TxnOk r (setHeader h (setActiveHeader a t)) outer.
Proof. intros [H1 H2 H3 H4 H5] Ha. split; simpl; try done. intros Hs. destruct (H5 Hs). auto. Qed.

(** The entry [e] recorded at its key, active or not. *)
Lemma TxnOk_record r t outer e a :
  TxnOk r t outer → mIsSealed t = false →
  (∀ k i, k ≠ LedgerEntryKey e → a !! k = Some i → mActive t !! k = Some i) →
  TxnOk r (setEntry (<[LedgerEntryKey e := Some e]> (mEntry t)) (setActive a t)) outer.
Proof.
  intros Ht Hs Ha. apply TxnOk_at with (t := t) (k := LedgerEntryKey e); simpl; try done.
  - intros k' Hk. rewrite lookup_insert_ne by done. split; [done|]. intros i. by apply Ha.
  - intros e'. rewrite lookup_insert_eq. by intros [= ->].
  - by rewrite lookup_insert_eq.
  - intros i _. rewrite lookup_insert_eq. split; [by eexists|]. intros _ _. by eexists.
Qed.

(** An entry erased, with its key inactive. *)
Lemma TxnOk_erase r t outer k m c :
  TxnOk r t outer → mIsSealed t = false → (c = EXACT → mConsistency t = EXACT) →
  (∀ k', k' ≠ k → m !! k' = mEntry t !! k') →
  (m !! k = None ∨ m !! k = Some None ∧ (c = EXACT → is_Some (getNewestVersion r outer k))) →
  TxnOk r (setConsistency c (setEntry m (setActive (delete k (mActive t)) t))) outer.
Proof.
  intros Ht Hs Hc Hne Hk. apply TxnOk_at with (t := t) (k := k); simpl; try done.
  - intros k' Hk'. split; [by apply Hne|]. intros i. by rewrite lookup_delete_ne.
  - intros e He. destruct Hk as [Hk|[Hk _]]; congruence.
  - intros He Hx. destruct Hk as [Hk|[_ Hk]]; [congruence|auto].
  - intros i. by rewrite lookup_delete_eq.
Qed.

Section Ops.
Context `{HashOrder}.

Lemma create_keeps id e s : LedgerOk s → keeps (create id e) s (λ h s', spec (Create id e) (stackOf s) (stackOf s')).
Proof.
  intros Hok. apply keeps_openTxn; [done|]. intros t outer Hl Hid Hs; cbv beta zeta.
  pose proof (top_ok s Hok t outer Hl) as Ht. apply keeps_get; cbv beta zeta.
  destruct (getNewestVersion (root s) (t :: outer) (LedgerEntryKey e)) eqn:E; [by apply keeps_throw|].
  assert (Ha : mActive t !! LedgerEntryKey e = None).
  { destruct (mActive t !! LedgerEntryKey e) eqn:Ea; [|done]. apply (tx_active _ _ _ Ht) in Ea as [? ?]. congruence. }
  rewrite Ha. unfold keeps, wp, makeSharedImpl, putTxns, modify, mbind, M_bind, mret, M_ret. simpl. split.
  - apply (put_top s Hok t outer Hl); [done| |simpl; lia].
    apply TxnOk_record; [done|done|]. intros k i Hk. by rewrite lookup_insert_ne.
  - top_spec (root s) t outer Hl.
    split; [by rewrite <- E, <- visible_lookup|]. apply levelOf_insert.
Qed.

Lemma createOrUpdate_keeps id e s :
  LedgerOk s → keeps (createOrUpdateWithoutLoading id e) s (λ _ s', spec (CreateOrUpdate id e) (stackOf s) (stackOf s')).
Proof.
  intros Hok. apply keeps_openTxn; [done|]. intros t outer Hl Hid Hs; cbv beta zeta.
  pose proof (top_ok s Hok t outer Hl) as Ht.
  destruct (mActive t !! LedgerEntryKey e) eqn:Ea; [by apply keeps_throw|].
  apply (keeps_put s Hok t outer Hl); [done| |].
  - pose proof (TxnOk_record _ _ _ e (mActive t) Ht Hs) as Hr. destruct t. by apply Hr.
  - top_spec (root s) t outer Hl. exact (levelOf_insert (root s) t outer (mActive t) _ _).
Qed.

Lemma erase_keeps id k s : LedgerOk s → keeps (erase id k) s (λ _ s', spec (Erase id k) (stackOf s) (stackOf s')).
Proof.
  intros Hok. apply keeps_openTxn; [done|]. intros t outer Hl Hid Hs; cbv beta zeta.
  pose proof (top_ok s Hok t outer Hl) as Ht. apply keeps_get; cbv beta zeta.
  destruct (getNewestVersion (root s) (t :: outer) k) as [e|] eqn:E; [|by apply keeps_throw].
  set (m := match getNewestVersion (root s) outer k with None => _ | Some _ => _ end).
  apply (keeps_put s Hok t outer Hl); [done| |].
  - pose proof (TxnOk_erase (root s) t outer k m (mConsistency t) Ht Hs) as Hr.
    destruct t as [i h ah en ac u se c]. apply Hr; [done| |]; unfold m; simpl.
    + intros k' Hk'. destruct (getNewestVersion (root s) outer k); [by rewrite lookup_insert_ne|by rewrite lookup_delete_ne].
    + destruct (getNewestVersion (root s) outer k); [|left; apply lookup_delete_eq].
      right. split; [apply lookup_insert_eq|]. intros _. by eexists.
  - top_spec (root s) t outer Hl.
    split; [exists e; by rewrite <- E, <- visible_lookup|].
    unfold levelOf, withEntries. simpl. f_equal. unfold m.
    destruct (getNewestVersion (root s) outer k) eqn:Eo; [apply (visible_erase (root s) t outer)|by apply (visible_forget (root s) t outer)].
Qed.

Lemma eraseWithoutLoading_keeps id k s :
  LedgerOk s → keeps (eraseWithoutLoading id k) s (λ _ s', spec (EraseWithoutLoading id k) (stackOf s) (stackOf s')).
Proof.
  intros Hok. apply keeps_openTxn; [done|]. intros t outer Hl Hid Hs; cbv beta zeta.
  pose proof (top_ok s Hok t outer Hl) as Ht. apply (keeps_put s Hok t outer Hl); [done| |].
  - apply TxnOk_erase; [done|done|done| |].
    + intros k' Hk'. by rewrite lookup_insert_ne.
    + right. split; [apply lookup_insert_eq|done].
  - top_spec (root s) t outer Hl. unfold levelOf, withEntries. simpl. f_equal. apply (visible_erase (root s) t outer).
Qed.

(** Loading changes nothing that is shown. *)
Lemma load_keeps id k s :
  LedgerOk s → keeps (load id k) s (λ h s', stackOf s' = stackOf s).
Proof.
  intros Hok. apply keeps_openTxn; [done|]. intros t outer Hl Hid Hs; cbv beta zeta.
  pose proof (top_ok s Hok t outer Hl) as Ht.
  destruct (mActive t !! k) eqn:Ea; [by apply keeps_throw|]. apply keeps_get; cbv beta zeta.
  destruct (getNewestVersion (root s) (t :: outer) k) as [e|] eqn:E; [|by apply keeps_ret].
  assert (Hk : LedgerEntryKey e = k) by (eapply (newest_key s Hok []); [exact Hl|done]). subst k.
  eapply (keeps_impl_put s Hok t outer Hl); [done| |].
  - apply TxnOk_record; [done|done|]. intros k i Hk. by rewrite lookup_insert_ne.
  - rewrite (stack_top s t outer Hl). unfold stackOf. cbn [txns root levelsOf]. f_equal. f_equal.
    rewrite levelOf_insert. unfold levelOf, withEntries. simpl. f_equal. apply insert_id.
    exact (eq_trans (visible_lookup (root s) (t :: outer) _) E).
Qed.

Lemma loadWithoutRecord_keeps id k s :
  LedgerOk s → keeps (loadWithoutRecord id k) s (λ h s', stackOf s' = stackOf s).
Proof.
  intros Hok. apply keeps_openTxn; [done|]. intros t outer Hl Hid Hs; cbv beta zeta.
  pose proof (top_ok s Hok t outer Hl) as Ht.
  destruct (mActive t !! k) eqn:Ea; [by apply keeps_throw|]. apply keeps_get; cbv beta zeta.
  destruct (getNewestVersion (root s) (t :: outer) k) as [e|] eqn:E; [|by apply keeps_ret].
  eapply (keeps_impl_put s Hok t outer Hl); [done| |].
  - apply TxnOk_at with (t := t) (k := k); simpl; try done.
    + intros k' Hk. split; [done|]. intros i. by rewrite lookup_insert_ne.
    + intros e'. by apply (tx_keys _ _ _ Ht).
    + intros Hn Hc. by apply (tx_exact _ _ _ Ht).
    + intros i. rewrite lookup_insert_eq. intros [= <-]. split; [|done]. simpl in E. rewrite E. by eexists.
  - rewrite (stack_top s t outer Hl). unfold stackOf. cbn [txns root levelsOf]. by rewrite (levelOf_same _ t).
Qed.

(** ** Handles *)

(** A handle that is alive belongs to the innermost transaction, and its entry is recorded there. *)
Lemma lock_top kind s h inner t outer :
  LedgerOk s → lockHandle kind s h = Some (inner, t, outer) →
  inner = [] ∧ txns s = t :: outer ∧ txn_id t = h_txn h ∧ mIsSealed t = false ∧
  mActive t !! h_key h = Some (kind (h_impl h)) ∧ is_Some (visible (root s) (t :: outer) !! h_key h).
Proof.
  intros Hok. unfold lockHandle. destruct (findTxn (h_txn h) (txns s)) as [[[inner' t'] outer']|] eqn:E; [|done].
  destruct (decide (mActive t' !! h_key h = Some (kind (h_impl h)))) as [Ha|]; [|done]. intros [= -> -> ->].
  destruct (findTxn_Some _ _ _ _ _ E) as [Hl Hid].
  pose proof (lo_txns _ Hok) as Ht. rewrite Hl in Ht. apply TxnsOk_split in Ht as [[Ht _] Hi].
  assert (inner = []) as ->.
  { destruct inner; [done|]. destruct Hi as (Hi & _); [done|]. by rewrite Hi in Ha. }
  split_and!; [done|done|done| |done|].
  - destruct (mIsSealed t) eqn:Es; [|done]. destruct (tx_sealed _ _ _ Ht Es) as [Hi' _]. by rewrite Hi' in Ha.
  - rewrite visible_lookup. by eapply tx_active.
Qed.

Lemma lock_mutable s h inner t outer :
  LedgerOk s → lockHandle MutableImpl s h = Some (inner, t, outer) →
  ∃ e, mEntry t !! h_key h = Some (Some e) ∧ LedgerEntryKey e = h_key h.
Proof.
  intros Hok Hlk. destruct (lock_top _ _ _ _ _ _ Hok Hlk) as (-> & Hl & _ & _ & Ha & _).
  pose proof (top_ok s Hok t outer Hl) as Ht. destruct (tx_mutable _ _ _ Ht _ _ Ha) as [e He].
  exists e. split; [done|]. by eapply tx_keys.
Qed.

Lemma current_keeps {A} h (k : LedgerEntry → M Ledger A) s Q :
  LedgerOk s →
  (∀ h' t outer e, h = Some h' → lockHandle MutableImpl s h' = Some ([], t, outer) →
     mEntry t !! h_key h' = Some (Some e) → LedgerEntryKey e = h_key h' → keeps (k e) s Q) →
  keeps (current h ≫= k) s Q.
Proof.
  intros Hok Hk. unfold keeps, wp, current, get, mbind, M_bind.
  destruct h as [h|]; [|done]. simpl. destruct (lockHandle MutableImpl s h) as [[[inner t] outer]|] eqn:E; [|done].
  destruct (lock_top _ _ _ _ _ _ Hok E) as (-> & _). destruct (lock_mutable _ _ _ _ _ Hok E) as (e & He & Hke).
  rewrite He. by eapply Hk.
Qed.

Lemma setCurrent_keeps h e s :
  LedgerOk s → opOk (SetCurrent h e) → keeps (setCurrent h e) s (λ _ s', spec (SetCurrent h e) (stackOf s) (stackOf s')).
Proof.
  intros Hok Hop. apply keeps_get; cbv beta. destruct h as [h|]; [|by apply keeps_throw]. simpl in Hop. simpl.
  destruct (lockHandle MutableImpl s h) as [[[inner t] outer]|] eqn:E; [|by apply keeps_throw].
  destruct (lock_top _ _ _ _ _ _ Hok E) as (-> & Hl & Hid & Hs & Ha & Hv). simpl.
  pose proof (top_ok s Hok t outer Hl) as Ht.
  apply (keeps_put s Hok t outer Hl); [done| |].
  - rewrite <- Hop. pose proof (TxnOk_record _ _ _ e (mActive t) Ht Hs) as Hr. destruct t. by apply Hr.
  - exists h. split; [done|]. top_spec (root s) t outer Hl. split; [done|].
    exact (levelOf_insert (root s) t outer (mActive t) _ _).
Qed.

(** Making the key of a live handle inactive. *)
Lemma deactivateKey_keeps s t outer k i :
  LedgerOk s → txns s = t :: outer → mActive t !! k = Some i →
  wp (λ _, False) False (deactivateKey (txn_id t) k) (λ _ s', LedgerOk s' ∧ stackOf s' = stackOf s) (λ _, False) s.
Proof.
  intros Hok Hl Ha. unfold deactivateKey, getImpl, get, wp, mbind, M_bind. rewrite Hl, findTxn_head. simpl.
  rewrite Ha. unfold putTxns, modify. split.
  - apply (put_top s Hok t outer Hl); [done| |done]. apply TxnOk_deactivate. by apply (top_ok s Hok).
  - rewrite (stack_top s t outer Hl). unfold stackOf. cbn [txns root levelsOf]. by rewrite (levelOf_same _ t).
Qed.

Lemma noexcept_keeps m s (Q : unit → Ledger → Prop) :
  wp (λ _, False) False m (λ a s', LedgerOk s' ∧ Q a s') (λ _, False) s → keeps (noexcept m) s Q.
Proof. unfold keeps, wp, noexcept. by destruct (m s). Qed.

Lemma destroyEntry_keeps h s : LedgerOk s → keeps (destroyEntry h) s (λ _ s', stackOf s' = stackOf s).
Proof.
  intros Hok. apply keeps_get; cbv beta. unfold isActive. destruct h as [h|]; [|by apply keeps_ret].
  destruct (lockHandle MutableImpl s h) as [[[inner t] outer]|] eqn:E; [|by apply keeps_ret].
  destruct (lock_top _ _ _ _ _ _ Hok E) as (-> & Hl & Hid & _ & Ha & _).
  destruct (lock_mutable _ _ _ _ _ Hok E) as (e & He & Hke).
  apply noexcept_keeps. unfold deactivate, current, get, wp, mbind, M_bind. simpl. rewrite E, He. unfold mret, M_ret.
  rewrite <- Hid, Hke. by eapply deactivateKey_keeps.
Qed.

Lemma destroyConst_keeps h s :
  LedgerOk s → opOk (DestroyConst h) → keeps (destroyConst h) s (λ _ s', stackOf s' = stackOf s).
Proof.
  intros Hok Hop. apply keeps_get; cbv beta. unfold isActive. destruct h as [[h e]|]; [|by apply keeps_ret].
  destruct (lockHandle ConstImpl s h) as [[[inner t] outer]|] eqn:E; [|by apply keeps_ret].
  destruct (lock_top _ _ _ _ _ _ Hok E) as (-> & Hl & Hid & _ & Ha & _). simpl in Hop.
  apply noexcept_keeps. rewrite Hop, <- Hid. by eapply deactivateKey_keeps.
Qed.

Lemma eraseEntry_keeps h s : LedgerOk s → keeps (eraseEntry h) s (λ _ s', spec (EraseEntry h) (stackOf s) (stackOf s')).
Proof.
  intros Hok. apply current_keeps; [done|]. intros h' t outer e -> Hlk He Hk. rewrite Hk.
  eapply keeps_mono; [by apply erase_keeps|]. intros a s' _ Hs. exists h'. split; [done|]. exact Hs.
Qed.

(** ** The header *)

Lemma loadHeader_keeps id s : LedgerOk s → keeps (loadHeader id) s (λ _ s', stackOf s' = stackOf s).
Proof.
  intros Hok. apply keeps_openTxn; [done|]. intros t outer Hl Hid Hs; cbv beta zeta.
  destruct (mActiveHeader t) eqn:Ea; [by apply keeps_throw|].
  eapply (keeps_impl_put s Hok t outer Hl); [done| |].
  - pose proof (TxnOk_header (root s) t outer (mHeader t) (Some (nextImpl s)) (top_ok s Hok t outer Hl)) as Hh.
    destruct t. apply Hh. congruence.
  - rewrite (stack_top s t outer Hl). unfold stackOf. cbn [txns root levelsOf]. by rewrite (levelOf_same _ t).
Qed.

Lemma headerActive_top s h inner t outer :
  LedgerOk s → headerActive s h = Some (inner, t, outer) →
  inner = [] ∧ txns s = t :: outer ∧ txn_id t = h.1 ∧ mIsSealed t = false ∧ mActiveHeader t = Some h.2.
Proof.
  intros Hok. unfold headerActive. destruct (findTxn h.1 (txns s)) as [[[inner' t'] outer']|] eqn:E; [|done].
  destruct (decide (mActiveHeader t' = Some h.2)) as [Ha|]; [|done]. intros [= -> -> ->].
  destruct (findTxn_Some _ _ _ _ _ E) as [Hl Hid].
  pose proof (lo_txns _ Hok) as Ht. rewrite Hl in Ht. apply TxnsOk_split in Ht as [[Ht _] Hi].
  assert (inner = []) as ->.
  { destruct inner; [done|]. destruct Hi as (_ & Hi & _); [done|]. by rewrite Hi in Ha. }
  split_and!; [done|done|done| |done].
  destruct (mIsSealed t) eqn:Es; [|done]. destruct (tx_sealed _ _ _ Ht Es) as [_ Hi']. by rewrite Hi' in Ha.
Qed.

Lemma setHeader_keeps h lh s :
  LedgerOk s → keeps (setHeaderCurrent h lh) s (λ _ s', spec (SetHeader h lh) (stackOf s) (stackOf s')).
Proof.
  intros Hok. apply keeps_get; cbv beta.
  destruct (headerActive s h) as [[[inner t] outer]|] eqn:E; [|by apply keeps_throw].
  destruct (headerActive_top _ _ _ _ _ Hok E) as (-> & Hl & Hid & Hs & Ha). simpl.
  apply (keeps_put s Hok t outer Hl); [done| |].
  - pose proof (TxnOk_header (root s) t outer lh (mActiveHeader t) (top_ok s Hok t outer Hl)) as Hh.
    destruct t. apply Hh. simpl in *. congruence.
  - top_spec (root s) t outer Hl. done.
Qed.

Lemma destroyHeader_keeps h s : LedgerOk s → keeps (destroyHeader h) s (λ _ s', stackOf s' = stackOf s).
Proof.
  intros Hok. apply keeps_get; cbv beta.
  destruct (headerActive s h) as [[[inner t] outer]|] eqn:E; [|by apply keeps_ret].
  destruct (headerActive_top _ _ _ _ _ Hok E) as (-> & Hl & Hid & Hs & Ha).
  apply noexcept_keeps. unfold deactivateHeader, getImpl, get, wp, mbind, M_bind. rewrite <- Hid, Hl, findTxn_head.
  simpl. rewrite Ha. unfold putTxns, modify. split.
  - apply (put_top s Hok t outer Hl); [done| |done].
    pose proof (TxnOk_header (root s) t outer (mHeader t) None (top_ok s Hok t outer Hl)) as Hh. destruct t. by apply Hh.
  - rewrite (stack_top s t outer Hl). unfold stackOf. cbn [txns root levelsOf]. by rewrite (levelOf_same _ t).
Qed.

Lemma sealed_top s inner t outer :
  LedgerOk s → txns s = inner ++ t :: outer → mIsSealed t = true → inner = [].
Proof.
  intros Hok Hl Hs. pose proof (lo_txns _ Hok) as Ht. rewrite Hl in Ht. apply TxnsOk_split in Ht as [_ Hi].
  destruct inner; [done|]. destruct Hi as (_ & _ & Hi); [done|]. congruence.
Qed.

Lemma unsealHeader_keeps id f s :
  LedgerOk s → keeps (unsealHeader id f) s (λ _ s', spec (UnsealHeader id f) (stackOf s) (stackOf s')).
Proof.
  intros Hok. apply keeps_getImpl; [done|]. intros inner t outer Hl Hid _; cbv beta.
  destruct (mIsSealed t) eqn:Hs; [|by apply keeps_throw]. simpl.
  pose proof (sealed_top s inner t outer Hok Hl Hs) as ->. simpl in Hl.
  destruct (mActiveHeader t) eqn:Ea; [by apply keeps_throw|].
  unfold keeps, wp, makeSharedImpl, putTxns, modify, mbind, M_bind. split.
  - apply (put_top s Hok t outer Hl); [done| |simpl; lia].
    pose proof (TxnOk_header (root s) t outer (f (mHeader t)) (mActiveHeader t) (top_ok s Hok t outer Hl)) as Hh.
    destruct t. apply Hh. simpl in *. congruence.
  - cbn [app txns root nextImpl]. top_spec (root s) t outer Hl. split; [done|]. simpl. rewrite Hs. apply andb_false_r.
Qed.

(** ** Opening, closing and sealing *)

Lemma fresh_id s : LedgerOk s → nextImpl s ∉ txn_id <$> txns s.
Proof.
  intros Hok (t & Ht & Hin)%list_elem_of_fmap. pose proof (proj1 (Forall_forall _ _) (lo_fresh _ Hok) t Hin). simpl in *. lia.
Qed.

Lemma levelsOf_ids r l : lv_id <$> levelsOf r l = txn_id <$> l.
Proof. induction l as [|t l IH]; [done|]. cbn [levelsOf]. by rewrite !fmap_cons, IH. Qed.

(** The state with a new child [c] of the innermost transaction, whose handles die. *)
Lemma push_ok s c l' :
  LedgerOk s → txn_id c = nextImpl s → mEntry c = ∅ → mActive c = ∅ → mActiveHeader c = None → mIsSealed c = false →
  match txns s with
  | [] => l' = []
  | t :: outer => mIsSealed t = false ∧ l' = setActiveHeader None (setActive ∅ t) :: outer
  end →
  LedgerOk (mkLedger (c :: l') (root s) (S (nextImpl s))).
Proof.
  intros Hok Hid He Ha Hh Hs Hl'.
  assert (Hl : TxnsOk (root s) l' ∧ match l' with [] => True | p :: _ => idle p end ∧
               txn_id <$> l' = txn_id <$> txns s ∧ Forall (λ t, (txn_id t < nextImpl s)%nat) l').
  { pose proof (lo_txns _ Hok) as Ht. pose proof (lo_fresh _ Hok) as Hf.
    destruct (txns s) as [|t outer]; [by subst|]. destruct Hl' as [Hst ->]. simpl in Ht. destruct Ht as (Ht & Hi & Ho).
    split_and!; [|done|done|].
    - simpl. split_and!; [|done|done]. destruct Ht as [H1 H2 _ _ _]. by split.
    - apply Forall_cons in Hf as [? ?]. by apply Forall_cons. }
  destruct Hl as (Hl1 & Hl2 & Hl3 & Hl4). split; cbn [txns root nextImpl TxnsOk]; rewrite ?fmap_cons.
  - apply Hok.
  - split_and!; [|done|done]. split; rewrite ?He, ?Ha; done.
  - apply NoDup_cons. rewrite Hid, Hl3. split; [by apply fresh_id|apply Hok].
  - apply Forall_cons. split; [lia|]. eapply Forall_impl; [exact Hl4|]. simpl. lia.
Qed.

Lemma newTxn_keeps p upd s :
  LedgerOk s → keeps (newLedgerTxn p upd) s (λ id s', id = nextImpl s ∧ spec (NewTxn p upd) (stackOf s) (stackOf s')).
Proof.
  intros Hok. unfold newLedgerTxn. apply keeps_get; cbv beta zeta.
  assert (Hfr : nextImpl s ∉ lv_id <$> levels (stackOf s)) by (simpl; rewrite levelsOf_ids; by apply fresh_id).
  destruct p as [p|].
  - eapply keeps_then with (Q := λ _ s', spec (NewTxn (Some p) upd) (stackOf s) (stackOf s')); [|done].
    apply keeps_getImpl; [done|]. intros inner t outer Hl Hid _; cbv beta.
    unfold keeps, wp, throwIfSealed, throwIfChild, makeSharedImpl, putTxns, modify, mbind, M_bind.
    destruct (mIsSealed t) eqn:Hs; [done|]. destruct inner; [|done]. simpl in Hl. split.
    + apply (push_ok s); try done. by rewrite Hl.
    + exists (nextImpl s). split; [exact Hfr|]. exists (levelOf (root s) t outer), (levelsOf (root s) outer).
      split; [simpl; by rewrite Hl|]. split; [done|]. unfold stackOf. cbn [txns root levelsOf]. f_equal.
      unfold levelOf at 1. cbn [txn_id mHeader mShouldUpdateLastModified mIsSealed negb]. rewrite andb_true_r, visible_empty by done.
      by rewrite (levelOf_same _ t).
  - eapply keeps_then with (Q := λ _ s', spec (NewTxn None upd) (stackOf s) (stackOf s')); [|done].
    destruct (txns s) as [|t outer] eqn:Hl; [|by apply keeps_throw].
    unfold keeps, wp, makeSharedImpl, putTxns, modify, mbind, M_bind. split.
    + apply (push_ok s); try done. by rewrite Hl.
    + exists (nextImpl s). split; [exact Hfr|]. split; [simpl; by rewrite Hl|].
      unfold stackOf. cbn [txns root levelsOf]. f_equal. f_equal. unfold levelOf.
      cbn [txn_id mHeader mShouldUpdateLastModified mIsSealed negb]. by rewrite andb_true_r, visible_empty.
Qed.

Lemma levelsOf_app r inner l : ∃ L, levelsOf r (inner ++ l) = L ++ levelsOf r l.
Proof. induction inner as [|t inner [L IH]]; [by exists []|]. exists (levelOf r t (inner ++ l) :: L). simpl. by rewrite IH. Qed.

Lemma rollback_keeps id s : LedgerOk s → keeps (rollback id) s (λ _ s', spec (Rollback id) (stackOf s) (stackOf s')).
Proof.
  intros Hok. apply keeps_getImpl; [done|]. intros inner t outer Hl Hid _; cbv beta.
  unfold keeps, wp, putTxns, modify. split.
  - pose proof (lo_txns _ Hok) as Ht. pose proof (lo_ids _ Hok) as Hi. pose proof (lo_fresh _ Hok) as Hf.
    rewrite Hl in Ht, Hi, Hf. apply TxnsOk_split in Ht as [Ht _]. simpl in Ht.
    rewrite fmap_app, fmap_cons in Hi. apply NoDup_app in Hi as (_ & _ & Hi). apply NoDup_cons in Hi as [_ Hi].
    apply Forall_app in Hf as [_ Hf]. apply Forall_cons in Hf as [_ Hf]. split; simpl; [apply Hok|tauto|done|done].
  - destruct (levelsOf_app (root s) inner (t :: outer)) as [L EL].
    exists L, (levelOf (root s) t outer), (levelsOf (root s) outer). split; [simpl; by rewrite Hl|done].
Qed.

(** The entries that a transaction hands over: its own, with the number of the ledger if it asks for it. *)
Definition handover (t : LedgerTxn) : gmap LedgerKey (option LedgerEntry) :=
  if mIsSealed t then mEntry t else maybeUpdateLastModified t.

Lemma handover_lookup t k :
  handover t !! k =
  (λ v : option LedgerEntry,
     (λ e, if mShouldUpdateLastModified t && negb (mIsSealed t) then mkEntry (ledgerSeq (mHeader t)) (data e) else e) <$> v)
  <$> mEntry t !! k.
Proof.
  unfold handover, maybeUpdateLastModified. destruct (mIsSealed t); simpl.
  - rewrite andb_false_r. destruct (mEntry t !! k) as [[e|]|]; done.
  - rewrite andb_true_r. apply lookup_fmap.
Qed.

Lemma handover_key r t outer k e :
  TxnOk r t outer → handover t !! k = Some (Some e) → LedgerEntryKey e = k.
Proof.
  intros Ht. rewrite handover_lookup. destruct (mEntry t !! k) as [[e0|]|] eqn:E; [|done|done].
  simpl. intros [= <-]. apply (tx_keys _ _ _ Ht) in E. by destruct (_ && _).
Qed.

Lemma handover_None t k : handover t !! k = Some None ↔ mEntry t !! k = Some None.
Proof. rewrite handover_lookup. destruct (mEntry t !! k) as [[e|]|]; simpl; split; congruence. Qed.

Lemma handover_stamped r t outer :
  stamped (mShouldUpdateLastModified t && negb (mIsSealed t)) (ledgerSeq (mHeader t)) (visible r outer)
    (visible r (t :: outer)) (omap id (handover t ∪ (Some <$> visible r outer))).
Proof.
  intros k. rewrite (visible_lookup r (t :: outer)). cbn [getNewestVersion].
  rewrite lookup_omap, lookup_union, lookup_fmap, handover_lookup, visible_lookup.
  destruct (mEntry t !! k) as [[e|]|]; simpl.
  - destruct (mShouldUpdateLastModified t && negb (mIsSealed t)) eqn:Eb.
    + right. split; [done|]. by destruct (getNewestVersion r outer k).
    + left. split; [|done]. by destruct (getNewestVersion r outer k).
  - by destruct (getNewestVersion r outer k).
  - destruct (getNewestVersion r outer k); [by left|done].
Qed.

(** Entries handed to the parent. *)
Lemma commitChild_keeps s t outer :
  LedgerOk s → txns s = t :: outer →
  keeps (commitChild (mHeader t) (handover t) (mConsistency t) outer) s
    (λ _ s', spec (Commit (txn_id t)) (stackOf s) (stackOf s')).
Proof.
  intros Hok Hl. pose proof (top_ok s Hok t outer Hl) as Ht. pose proof (outer_ok s Hok t outer Hl) as Ho.
  pose proof (parent_idle s Hok t outer Hl) as Hp.
  pose proof (lo_ids _ Hok) as Hi. pose proof (lo_fresh _ Hok) as Hf. rewrite Hl in Hi, Hf.
  apply NoDup_cons in Hi as [_ Hi]. apply Forall_cons in Hf as [_ Hf].
  assert (Hspec : ∀ a', match levelsOf (root s) outer with
      | [] => a' = mkStack [] (omap id (handover t ∪ (Some <$> visible (root s) outer))) (mHeader t)
      | P :: rest => a' = mkStack (mkLevel (lv_id P) (omap id (handover t ∪ (Some <$> visible (root s) outer))) (mHeader t) (lv_stamp P) :: rest)
                            (rootEntries (root s)) (rootHeader (root s))
      end → spec (Commit (txn_id t)) (stackOf s) a').
  { intros a' Ha'. exists (levelOf (root s) t outer), (levelsOf (root s) outer), (omap id (handover t ∪ (Some <$> visible (root s) outer))).
    split; [simpl; by rewrite Hl|]. split; [done|]. split; [|by destruct (levelsOf (root s) outer)].
    replace (below (levelsOf (root s) outer) (st_root (stackOf s))) with (visible (root s) outer) by (by destruct outer).
    apply handover_stamped. }
  unfold commitChild. apply keeps_get; cbv beta. destruct outer as [|p outer].
  - rewrite root_commit.
    2: { intros k Hk Hc. apply (tx_exact _ _ _ Ht k Hc). by apply handover_None. }
    unfold keeps, wp, modify. split; [|by apply Hspec]. split; simpl; [|done|apply NoDup_nil_2|done].
    intros k e. rewrite lookup_omap, lookup_union, lookup_fmap.
    destruct (handover t !! k) as [[e'|]|] eqn:E; simpl.
    + destruct (rootEntries (root s) !! k); simpl; intros [= <-]; by eapply handover_key.
    + by destruct (rootEntries (root s) !! k).
    + destruct (rootEntries (root s) !! k) eqn:Er; simpl; [|done]. intros [= <-]. by apply (lo_root _ Hok).
  - unfold keeps, wp, putTxns, modify. destruct Hp as (Hp1 & Hp2 & Hp3). simpl in Ho. destruct Ho as (Hop & Hip & Ho). split.
    + split; simpl; [apply Hok| |exact Hi|by apply Forall_cons; apply Forall_cons in Hf]. split_and!; [|done|done]. split; simpl.
      * intros k e. rewrite commit_lookup. destruct (handover t !! k) as [[e'|]|] eqn:E.
        -- intros [= ->]. exact (handover_key _ _ _ _ _ Ht E).
        -- by destruct (getNewestVersion (root s) outer k).
        -- apply Hop.
      * intros k Hc. rewrite commit_lookup. destruct (mConsistency p) eqn:Ec; [|done].
        destruct (handover t !! k) as [[e'|]|]; [done| |by apply Hop].
        destruct (getNewestVersion (root s) outer k) eqn:En; [|done]. intros _. by eexists.
      * rewrite Hp1. by intros k i; rewrite lookup_empty.
      * rewrite Hp1. by intros k i; rewrite lookup_empty.
      * congruence.
    + apply Hspec. cbn [levelsOf]. unfold stackOf. cbn [txns root levelsOf]. f_equal. f_equal. unfold levelOf.
      cbn [lv_id lv_stamp txn_id mHeader mShouldUpdateLastModified mIsSealed setHeader setEntry setConsistency].
      f_equal. apply visible_commit.
Qed.

Lemma commit_keeps id s : LedgerOk s → keeps (commit id) s (λ _ s', spec (Commit id) (stackOf s) (stackOf s')).
Proof.
  intros Hok. apply keeps_getImpl; [done|]. intros inner t outer Hl <- _; cbv beta.
  assert (Hin : inner = [] → keeps (commitChild (mHeader t) (handover t) (mConsistency t) outer) s
    (λ _ s', spec (Commit (txn_id t)) (stackOf s) (stackOf s'))) by (intros ->; by apply commitChild_keeps).
  unfold handover in Hin. destruct (mIsSealed t) eqn:Hs.
  - apply Hin. by eapply sealed_top.
  - unfold throwIfChild. destruct inner; [|by apply keeps_throw]. by apply Hin.
Qed.

Lemma sealTxn_keeps id s :
  LedgerOk s → keeps (sealTxn id) s (λ p s', txns s' = p.1 :: p.2 ∧ mEntry p.1 = handover p.1 ∧
    (∃ t, txns s = t :: p.2 ∧ mConsistency p.1 = mConsistency t) ∧ spec (GetAllEntries id) (stackOf s) (stackOf s')).
Proof.
  intros Hok. apply keeps_getImpl; [done|]. intros inner t outer Hl <- _; cbv beta.
  assert (Hm' : ∀ b, inner = [] → b = mShouldUpdateLastModified t && negb (mIsSealed t) →
    spec (GetAllEntries (txn_id t)) (stackOf s)
      (mkStack (mkLevel (txn_id t) (omap Datatypes.id (handover t ∪ (Some <$> visible (root s) outer))) (mHeader t) false :: levelsOf (root s) outer)
         (rootEntries (root s)) (rootHeader (root s)))).
  { intros b -> _. exists (levelOf (root s) t outer), (levelsOf (root s) outer). eexists. split; [simpl; by rewrite Hl|].
    split; [done|]. split; [|done].
    replace (below (levelsOf (root s) outer) (st_root (stackOf s))) with (visible (root s) outer) by (by destruct outer).
    apply handover_stamped. }
  destruct (mIsSealed t) eqn:Hs.
  - pose proof (sealed_top s inner t outer Hok Hl Hs) as ->. apply keeps_ret; [done|].
    assert (Hh : handover t = mEntry t) by (unfold handover; by rewrite Hs).
    split_and!; [done|done|by exists t|]. specialize (Hm' _ eq_refl eq_refl). rewrite Hh in Hm'.
    rewrite (stack_top s t outer Hl) at 2. unfold levelOf. by rewrite Hs, andb_false_r.
  - unfold throwIfChild. destruct inner; [|by apply keeps_throw]. simpl in Hl.
    unfold keeps, wp, putTxns, modify, mbind, M_bind, mret, M_ret. cbv beta iota zeta. split.
    + apply (put_top s Hok t outer Hl); [done| |done]. destruct (top_ok s Hok t outer Hl) as [H1 H2 _ _ _].
      assert (Hmk : ∀ k e, maybeUpdateLastModified t !! k = Some (Some e) → LedgerEntryKey e = k).
      { intros k e Hk. apply (handover_key (root s) t outer); [by apply (top_ok s Hok)|]. unfold handover. by rewrite Hs. }
      split; simpl; [done| | | |done].
      * intros k Hc Hk. apply H2; [done|]. apply handover_None. unfold handover. by rewrite Hs.
      * intros k i. by rewrite lookup_empty.
      * intros k n. by rewrite lookup_empty.
    + split_and!; [done|done|by exists t|]. specialize (Hm' _ eq_refl eq_refl). unfold handover in Hm'. rewrite Hs in Hm'.
      unfold stackOf at 2. cbn [txns root levelsOf]. unfold levelOf.
      cbn [txn_id mHeader mShouldUpdateLastModified mIsSealed setSealed setActiveHeader setActive setEntry negb].
      rewrite andb_false_r. exact Hm'.
Qed.

Lemma changesLoop_total r outer l s :
  (∀ k, (k, None) ∈ l → is_Some (getNewestVersion r outer k)) → ∃ cs, changesLoop r outer l s = Ok cs s.
Proof.
  induction l as [|[k v] l IH]; intros Hn; [by eexists|]. destruct IH as [cs Hcs]; [intros; apply Hn; by right|].
  simpl. unfold mbind, M_bind. destruct v as [e|].
  - destruct (getNewestVersion r outer k); rewrite Hcs; by eexists.
  - destruct (Hn k) as [e Hk]; [by left|]. rewrite Hk, Hcs. by eexists.
Qed.

Lemma throwIfNotExact_keeps {A} t (k : M Ledger A) s Q :
  LedgerOk s → (mConsistency t = EXACT → keeps k s Q) → keeps (throwIfNotExactConsistency t;; k) s Q.
Proof. intros Hok Hk. unfold throwIfNotExactConsistency. destruct (mConsistency t); [by apply Hk|done]. Qed.

Lemma getChanges_keeps id s : LedgerOk s → keeps (getChanges id) s (λ _ s', spec (GetChanges id) (stackOf s) (stackOf s')).
Proof.
  intros Hok. apply keeps_getImpl; [done|]. intros inner t outer Hl Hid Hfi; cbv beta.
  apply throwIfNotExact_keeps; [done|]. intros Hc.
  pose proof (sealTxn_keeps id s Hok) as Hseal. unfold keeps, wp in Hseal |- *. unfold mbind, M_bind.
  destruct (sealTxn id s) as [[t' o'] s'|w s'|w s'|]; try done. destruct Hseal as (Hok' & Hl' & _ & (t0 & Hl0 & Hc0) & Hs).
  simpl in *. unfold get. destruct (changesLoop_total (root s') o' (iterate (mEntry t')) s') as [cs ->]; [|done].
  intros k Hk. apply elem_of_iterate in Hk. apply (tx_exact _ _ _ (top_ok s' Hok' t' o' Hl') k); [|done].
  rewrite Hc0. rewrite Hl0 in Hl. destruct inner; [simpl in Hl; congruence|].
  destruct Hs as (L & rest & m' & HL & HLid & _). unfold stackOf in HL. rewrite Hl0 in HL. simpl in HL. injection HL as <- _.
  simpl in HLid. rewrite Hl0 in Hfi. simpl in Hfi. rewrite decide_True in Hfi by done. done.
Qed.

Lemma getDelta_keeps id s : LedgerOk s → keeps (getDelta id) s (λ _ s', spec (GetDelta id) (stackOf s) (stackOf s')).
Proof.
  intros Hok. apply keeps_getImpl; [done|]. intros inner t outer Hl Hid _; cbv beta.
  apply throwIfNotExact_keeps; [done|]. intros Hc.
  pose proof (sealTxn_keeps id s Hok) as Hseal. unfold keeps, wp in Hseal |- *. unfold mbind, M_bind.
  destruct (sealTxn id s) as [[t' o'] s'|w s'|w s'|]; try done. destruct Hseal as (Hok' & _ & _ & _ & Hs). done.
Qed.

Lemma getAllEntries_keeps id s :
  LedgerOk s → keeps (getAllEntries id) s (λ _ s', spec (GetAllEntries id) (stackOf s) (stackOf s')).
Proof.
  intros Hok. pose proof (sealTxn_keeps id s Hok) as Hseal. unfold getAllEntries, keeps, wp in Hseal |- *. unfold mbind, M_bind.
  destruct (sealTxn id s) as [[t' o'] s'|w s'|w s'|]; try done. destruct Hseal as (Hok' & _ & _ & _ & Hs). done.
Qed.

(** ** Loading offers *)

Lemma loadBestOffer_keeps id b a s : LedgerOk s → keeps (loadBestOffer id b a) s (λ _ s', stackOf s' = stackOf s).
Proof.
  intros Hok. apply keeps_openTxn; [done|]. intros t outer Hl Hid Hs; cbv beta. apply keeps_get; cbv beta.
  destruct (getBestOffer _ _ _ _ _) as [[[e o]|]|]; [by apply load_keeps|by apply keeps_ret|by apply keeps_throw].
Qed.

(** Loading changes only the entries and the active keys of the innermost transaction. *)
Definition onlyRecords (t : LedgerTxn) (outer : list LedgerTxn) (s s' : Ledger) : Prop :=
  ∃ m a, txns s' = setEntry m (setActive a t) :: outer ∧ root s' = root s ∧ (nextImpl s <= nextImpl s')%nat.

Lemma load_records id k s t outer :
  txns s = t :: outer →
  match load id k s with Ok _ s' | Throw _ s' => onlyRecords t outer s s' | _ => False end.
Proof.
  intros Hl. assert (Hs : onlyRecords t outer s s) by (exists (mEntry t), (mActive t); rewrite Hl; by destruct t).
  unfold load, openTxn, getImpl, get, throwIfSealed, throwIfChild, mbind, M_bind.
  destruct (findTxn id (txns s)) as [[[inner t'] outer']|] eqn:E; [|done].
  apply findTxn_Some in E as [E _]. rewrite Hl in E. unfold mret, M_ret, throw. cbv beta iota.
  destruct (mIsSealed t'); [done|]. destruct inner; [|done]. injection E as <- <-. cbv beta iota.
  destruct (mActive t !! k); [done|]. destruct (getNewestVersion (root s) (t :: outer) k); [|done].
  simpl. eexists _, _. simpl. split; [done|]. split; [done|lia].
Qed.

Lemma loadKeys_records id keys s t outer :
  txns s = t :: outer →
  match loadKeys id keys s with Ok _ s' | Throw _ s' => onlyRecords t outer s s' | _ => False end.
Proof.
  revert s t. induction keys as [|k keys IH]; intros s t Hl; simpl.
  - exists (mEntry t), (mActive t). rewrite Hl. by destruct t.
  - unfold mbind, M_bind. pose proof (load_records id k s t outer Hl) as Hk.
    destruct (load id k s) as [h s1|w s1|w s1|]; try done. destruct Hk as (m & a & Hl1 & Hr1 & Hn1).
    specialize (IH s1 _ Hl1). destruct (loadKeys id keys s1) as [hs s2|w s2|w s2|]; try done;
      destruct IH as (m' & a' & Hl2 & Hr2 & Hn2); exists m', a'; split_and!; try done; try congruence; lia.
Qed.

Lemma loadKeys_keeps id keys s : LedgerOk s → keeps (loadKeys id keys) s (λ _ s', stackOf s' = stackOf s).
Proof.
  revert s. induction keys as [|k keys IH]; intros s Hok; [by apply keeps_ret|]. simpl.
  eapply keeps_bind; [by apply load_keeps|]. intros h s1 Hok1 Hs1. split; [done|].
  eapply keeps_then; [by apply IH|]. intros hs s2. by rewrite Hs1.
Qed.

Lemma loadOffers_keeps id select s : LedgerOk s → keeps (loadOffers id select) s (λ _ s', stackOf s' = stackOf s).
Proof.
  intros Hok. apply keeps_openTxn; [done|]. intros t outer Hl Hid Hs; cbv beta. apply keeps_get; cbv beta.
  destruct (select _ _) as [offers|]; [|by apply keeps_throw].
  pose proof (loadKeys_keeps id (iterate offers).*1 s Hok) as Hk.
  pose proof (loadKeys_records id (iterate offers).*1 s t outer Hl) as Hr.
  unfold keeps, wp, restoreOnThrow in *. destruct (loadKeys id (iterate offers).*1 s) as [hs s'|w s'|w s'|]; try done.
  destruct Hr as (m & a & Hl' & Hr & Hn). rewrite Hl'. simpl. rewrite decide_True by done. simpl.
  assert (Et : setEntry (mEntry t) (setActive (mActive t) (setEntry m (setActive a t))) = t) by (by destruct t).
  rewrite Et, Hr. split.
  - apply (put_top s Hok t outer Hl); [done|by apply (top_ok s Hok)|done].
  - unfold stackOf. simpl. by rewrite Hl.
Qed.

Lemma runOp_keeps op s :
  LedgerOk s → opOk op → keeps (runOp op) s (λ _ s', spec op (stackOf s) (stackOf s')).
Proof.
  intros Hok Hop. destruct op; cbn [runOp].
  - eapply keeps_then; [by apply newTxn_keeps|]. by intros a s' [_ ?].
  - by apply commit_keeps.
  - by apply rollback_keeps.
  - eapply keeps_then; [by apply create_keeps|done].
  - by apply createOrUpdate_keeps.
  - by apply erase_keeps.
  - by apply eraseEntry_keeps.
  - by apply eraseWithoutLoading_keeps.
  - eapply keeps_then; [by apply load_keeps|done].
  - eapply keeps_then; [by apply loadWithoutRecord_keeps|done].
  - eapply keeps_then; [by apply loadBestOffer_keeps|done].
  - eapply keeps_then; [|intros a s' Hs; exact Hs]. eapply keeps_then; [by apply loadOffers_keeps|done].
  - eapply keeps_then; [by apply loadOffers_keeps|done].
  - by apply setCurrent_keeps.
  - by apply destroyEntry_keeps.
  - by apply destroyConst_keeps.
  - eapply keeps_then; [by apply loadHeader_keeps|done].
  - by apply setHeader_keeps.
  - by apply destroyHeader_keeps.
  - by apply unsealHeader_keeps.
  - eapply keeps_then; [by apply getChanges_keeps|done].
  - eapply keeps_then; [by apply getDelta_keeps|done].
  - eapply keeps_then; [by apply getAllEntries_keeps|done].
Qed.

(** ** Histories *)

(** The ledgers that come about from a database, whatever the operations, their order and the
    exceptions on the way. *)
Inductive ledgerReachable : Ledger → Prop :=
| reach_start r n : (∀ k e, rootEntries r !! k = Some e → LedgerEntryKey e = k) → ledgerReachable (mkLedger [] r n)
| reach_ok s op s' : ledgerReachable s → opOk op → runOp op s = Ok tt s' → ledgerReachable s'
| reach_throw s op w s' : ledgerReachable s → opOk op → runOp op s = Throw w s' → ledgerReachable s'.

Lemma reachable_ok s : ledgerReachable s → LedgerOk s.
Proof.
  induction 1 as [r n Hr|s op s' _ IH Hop Hrun|s op w s' _ IH Hop Hrun].
  - split; simpl; [done|done|apply NoDup_nil_2|done].
  - pose proof (runOp_keeps op s IH Hop) as Hk. unfold keeps, wp in Hk. rewrite Hrun in Hk. tauto.
  - pose proof (runOp_keeps op s IH Hop) as Hk. unfold keeps, wp in Hk. rewrite Hrun in Hk. tauto.
Qed.
End Ops.

(** C4: nested ledger transactions are a stack of maps. In every reachable state, an operation that
    returns changes what the transactions show as [spec] says: a child starts with a copy of what its
    parent shows, a commit hands it over to the parent or to the database with the number of the
    ledger in the entries that changed, a rollback forgets it; creating, erasing and assigning change
    one entry of the innermost transaction, loading and reading nothing. An operation that throws
    changes nothing that is shown. No operation brings the process down: the destructors do not
    throw, no reference dangles, and a commit finds every row it deletes. *)
Theorem nested_transactions_refine_stack `{HashOrder} s op :
  ledgerReachable s → opOk op →
  match runOp op s with
  | Ok _ s' => spec op (stackOf s) (stackOf s')
  | Throw _ s' => stackOf s' = stackOf s
  | Crash _ _ | NoFuel => False
  end.
Proof.
  intros Hr Hop. pose proof (runOp_keeps op s (reachable_ok s Hr) Hop) as Hk. unfold keeps, wp in Hk.
  destruct (runOp op s); tauto.
Qed.

(** A child that erases the account of its parent, which has created it. *)
Definition sampleAccount (balance : Z) : LedgerEntry :=
  mkEntry 0 (Account (mkAccount 7 balance 0 0 None 0 [] [1; 0; 0; 0] [] None)).
Definition sampleHeader : LedgerHeader := mkHeader 10 5 0 0 0 0 100 5000000 100 0.
Definition emptyLedger : Ledger := mkLedger [] (mkRoot sampleHeader ∅) 0.
Fixpoint runAll `{HashOrder} (ops : list LedgerOp) : M Ledger unit :=
  match ops with [] => mret tt | op :: ops => runOp op;; runAll ops end.
Definition stateAfter (o : outcome Ledger unit) : Ledger :=
  match o with Ok _ s | Throw _ s | Crash _ s => s | NoFuel => emptyLedger end.

Definition isOk {S A} (o : outcome S A) : bool := match o with Ok _ _ => true | _ => false end.

Lemma runAll_reachable `{HashOrder} ops s :
  ledgerReachable s → Forall opOk ops →
  match runAll ops s with Ok _ s' => ledgerReachable s' | _ => True end.
Proof.
  intros Hs Hops. revert s Hs. induction Hops as [|op ops Hop _ IH]; intros s Hs; [done|]. simpl. unfold mbind, M_bind.
  destruct (runOp op s) as [[] s1| | |] eqn:E; try done. apply IH. by eapply reach_ok.
Qed.

Lemma empty_reachable : ledgerReachable emptyLedger.
Proof. apply reach_start. intros k e He. simpl in He. by rewrite lookup_empty in He. Qed.

Definition sampleBefore : Ledger := stateAfter (runAll [NewTxn None true; Create 0 (sampleAccount 50);
  NewTxn (Some 0%nat) false; Erase 2 (ACCOUNT 7)] emptyLedger).
Definition sampleAfter : Ledger := stateAfter (runOp (Commit 2) sampleBefore).

Lemma nested_transactions_refine_stack_witness :
  spec (Commit 2) (stackOf sampleBefore) (stackOf sampleAfter) ∧
  map (λ L, lv_entries L !! ACCOUNT 7) (levels (stackOf sampleBefore)) = [None; Some (sampleAccount 50)] ∧
  map (λ L, lv_entries L !! ACCOUNT 7) (levels (stackOf sampleAfter)) = [None].
Proof.
  split; [|split; apply (bool_decide_eq_true_1 _); vm_compute; reflexivity].
  assert (Hr : ledgerReachable sampleBefore).
  { unfold sampleBefore. set (ops := [_; _; _; _]).
    pose proof (runAll_reachable ops emptyLedger empty_reachable ltac:(by repeat constructor)) as Hr.
    assert (E : isOk (runAll ops emptyLedger) = true) by (vm_compute; reflexivity).
    by destruct (runAll ops emptyLedger). }
  pose proof (nested_transactions_refine_stack sampleBefore (Commit 2) Hr I) as Hspec. unfold sampleAfter.
  assert (E : isOk (runOp (Commit 2) sampleBefore) = true) by (vm_compute; reflexivity).
  destruct (runOp (Commit 2) sampleBefore); [exact Hspec|discriminate E..].
Defined.
