(* ===== verification/LedgerOffers.v ===== *)
(** * The best offer of a ledger

    [isBetterOffer] compares prices as doubles and then the numbers of the offers. This file shows
    that it is a strict order on offers with valid prices, and that [getBestOffer], which searches
    every transaction and the database for offers that no inner transaction has changed, finds the
    least of the offers that the innermost transaction shows. *)
From stdpp Require Import base list gmap strings.
From Stdlib Require Import ZArith Lia SpecFloat.
From S2P Require Import Prelude Numeric LedgerEntries LedgerTxn LedgerTxnSpec.

(** ** Doubles *)

(** Doubles that are numbers are ordered as lists of integers: sign and kind, exponent, mantissa. *)
Definition rank (x : spec_float) : list Z :=
  match x with
  | S754_zero _ => [0; 0; 0]
  | S754_infinity false => [2; 0; 0]
  | S754_infinity true => [-2; 0; 0]
  | S754_finite false m e => [1; e; Zpos m]
  | S754_finite true m e => [-1; - e; Zneg m]
  | S754_nan => []
  end.

Definition isNumber (x : spec_float) : Prop := x ≠ S754_nan.

Lemma lex3 (a b c x y z : Z) :
  list_ltb [a; b; c] [x; y; z] =
  if a <? x then true else if x <? a then false else
  if b <? y then true else if y <? b then false else if c <? z then true else false.
Proof. simpl. by repeat case_match. Qed.

Lemma SFltb_rank x y : isNumber x → isNumber y → SFltb x y = ltb (rank x) (rank y).
Proof.
  intros Hx Hy. change (ltb (rank x) (rank y)) with (list_ltb (rank x) (rank y)).
  destruct x as [s1|s1| |s1 m1 e1]; try done; destruct y as [s2|s2| |s2 m2 e2]; try done;
    destruct s1; try done; try (by destruct s2); destruct s2; try done; unfold SFltb, rank; simpl SFcompare; rewrite lex3; simpl.
  - change (Pos.compare_cont Eq m1 m2) with (Pos.compare m1 m2).
    destruct (Z.compare_spec e1 e2) as [He|He|He];
      destruct (Z.ltb_spec (- e1) (- e2)); destruct (Z.ltb_spec (- e2) (- e1)); try lia; try done.
    destruct (Pos.compare_spec m1 m2) as [Hm|Hm|Hm]; destruct (Z.ltb_spec (Z.neg m1) (Z.neg m2)); simpl; try done; lia.
  - change (Pos.compare_cont Eq m1 m2) with (Pos.compare m1 m2).
    destruct (Z.compare_spec e1 e2) as [He|He|He];
      destruct (Z.ltb_spec e1 e2); destruct (Z.ltb_spec e2 e1); try lia; try done.
    destruct (Pos.compare_spec m1 m2) as [Hm|Hm|Hm]; destruct (Z.ltb_spec (Z.pos m1) (Z.pos m2)); simpl; try done; lia.
Qed.

Lemma SFcompare_swap x y : SFeqb x y = true → SFltb x y = false ∧ SFltb y x = false.
Proof.
  unfold SFeqb, SFltb. destruct x as [s1|s1| |s1 m1 e1], y as [s2|s2| |s2 m2 e2]; simpl;
    try done; destruct s1; try done; try (by destruct s2); destruct s2; try done;
    change (Pos.compare_cont Eq m1 m2) with (Pos.compare m1 m2); change (Pos.compare_cont Eq m2 m1) with (Pos.compare m2 m1);
    rewrite (Z.compare_antisym e1 e2), (Pos.compare_antisym m1 m2);
    by destruct (e1 ?= e2); destruct (m1 ?= m2)%positive.
Qed.

Lemma SFeqb_rank x y : isNumber x → isNumber y → SFeqb x y = bool_decide (rank x = rank y).
Proof.
  intros Hx Hy. symmetry. destruct (SFeqb x y) eqn:E.
  - apply bool_decide_eq_true. apply SFcompare_swap in E as [E1 E2]. rewrite SFltb_rank in E1, E2 by done.
    by apply ltb_total.
  - apply bool_decide_eq_false. intros Hr. revert E. unfold SFeqb.
    destruct x as [s1|s1| |s1 m1 e1], y as [s2|s2| |s2 m2 e2]; simpl in *; try done;
      destruct s1; try done; try (by destruct s2); destruct s2; try done; simplify_eq;
      change (Pos.compare_cont Eq m2 m2) with (Pos.compare m2 m2); rewrite ?Z.compare_refl, ?Pos.compare_refl; try done.
    assert (e1 = e2) as -> by lia. by rewrite Z.compare_refl.
Qed.

(** ** The price of an offer is a number *)

Lemma iter_pos_ind {A} (P : A → Prop) (f : A → A) n x : (∀ y, P y → P (f y)) → P x → P (iter_pos f n x).
Proof. intros Hf. revert x. induction n as [n IH|n IH|]; intros x Hx; simpl; auto. Qed.

Lemma shr_fexp_nonneg prec emax m e l : 0 <= m → 0 <= shr_m (fst (shr_fexp prec emax m e l)).
Proof.
  intros Hm. unfold shr_fexp, shr.
  assert (H0 : 0 <= shr_m (shr_record_of_loc m l)) by (by destruct l as [|[]]).
  destruct (_ - e); simpl; [done| |done].
  apply (iter_pos_ind (λ r, 0 <= shr_m r)); [|done]. intros [y b1 b2]. simpl. destruct y as [|[]|[]]; simpl; lia.
Qed.

Lemma binary_round_aux_number prec emax s m e l : 0 <= m → isNumber (binary_round_aux prec emax s m e l).
Proof.
  intros Hm. unfold binary_round_aux, isNumber. pose proof (shr_fexp_nonneg prec emax m e l Hm) as H1.
  destruct (shr_fexp prec emax m e l) as [r1 e1]. simpl in H1.
  assert (H2 : 0 <= round_nearest_even (shr_m r1) (loc_of_shr_record r1))
    by (destruct (loc_of_shr_record r1) as [|[]]; simpl; try case_match; lia).
  pose proof (shr_fexp_nonneg prec emax _ e1 loc_Exact H2) as H3.
  destruct (shr_fexp prec emax _ e1 loc_Exact) as [r2 e2]. simpl in H3.
  destruct (shr_m r2); [done| |lia]. by destruct (_ <=? _).
Qed.

Lemma SFdiv_number s1 m1 e1 s2 m2 e2 :
  isNumber (SFdiv 53 1024 (S754_finite s1 m1 e1) (S754_finite s2 m2 e2)).
Proof.
  unfold SFdiv, SFdiv_core_binary. set (m' := match _ with Z0 => _ | _ => _ end).
  assert (Hm : 0 <= m').
  { unfold m'. destruct (_ - _ - _); [lia| |lia]. apply Z.shiftl_nonneg. lia. }
  pose proof (Z_div_mod m' (Z.pos m2) ltac:(lia)) as Hd. destruct (Z.div_eucl m' (Z.pos m2)) as [q r].
  apply binary_round_aux_number. nia.
Qed.

Lemma digits2_size p : digits2_pos p = Pos.size p.
Proof. induction p as [p IH|p IH|]; simpl; congruence. Qed.
Lemma size_iter_xO p n : Zpos (Pos.size (Pos.iter xO p n)) = Zpos (Pos.size p) + Zpos n.
Proof.
  induction n as [|n IH] using Pos.peano_ind; [simpl; lia|]. rewrite Pos.iter_succ. simpl. lia.
Qed.

(** A positive integer below 2^52 is an exact double. *)
Lemma double_finite x : 0 < x < 2 ^ 52 → ∃ m e, double x = S754_finite false m e.
Proof.
  intros Hx. destruct x as [|p|p]; [lia| |lia].
  assert (Hs : Zpos (Pos.size p) <= 52).
  { pose proof (Pos2Z.pos_le_pos _ _ (Pos.size_le p)) as Hle. rewrite Pos2Z.inj_pow in Hle.
    assert (Zpos (Pos.size p) < 53); [|lia]. apply (Z.pow_lt_mono_r_iff 2); lia. }
  unfold double, binary_normalize, binary_round. rewrite digits2_size, Z.add_0_r.
  set (d := Zpos (Pos.size p)) in *.
  assert (Hf : ∀ z, 1 <= z <= 53 → fexp 53 1024 z = z - 53) by (intros; unfold fexp, emin; lia).
  rewrite Hf by (unfold d in *; lia). unfold shl_align. rewrite Z.sub_0_r.
  destruct (d - 53) as [|n|n] eqn:En; [unfold d in *; lia|unfold d in *; lia|].
  unfold binary_round_aux, shr_fexp. set (mz := Pos.iter xO p n).
  assert (Hmz : Zdigits2 (Zpos mz) = 53).
  { unfold Zdigits2. rewrite digits2_size. unfold mz. rewrite size_iter_xO. fold d. lia. }
  rewrite Hmz, (Hf (53 + Zneg n)) by (unfold d in *; lia).
  replace (53 + Z.neg n - 53 - Z.neg n) with 0 by lia. cbn [shr shr_record_of_loc loc_of_shr_record round_nearest_even shr_m].
  rewrite Hmz, (Hf (53 + Zneg n)) by (unfold d in *; lia).
  replace (53 + Z.neg n - 53 - Z.neg n) with 0 by lia. cbn [shr shr_record_of_loc shr_m].
  rewrite (proj2 (Z.leb_le _ _)) by lia. by eexists _, _.
Qed.

Definition priceOk (p : Price) : Prop := 0 < price_n p < 2 ^ 31 ∧ 0 < price_d p < 2 ^ 31.

Lemma priceDouble_number p : priceOk p → isNumber (priceDouble p).
Proof.
  intros [Hn Hd]. unfold priceDouble.
  destruct (double_finite (price_n p)) as (m1 & e1 & ->); [lia|].
  destruct (double_finite (price_d p)) as (m2 & e2 & ->); [lia|]. apply SFdiv_number.
Qed.

(** ** The order of offers *)

Definition offerRank (o : OfferEntry) : list Z := rank (priceDouble (oe_price o)) ++ [oe_offerID o].

Lemma list_ltb_app (l k : list Z) x y :
  length l = length k → ltb (l ++ [x]) (k ++ [y]) = (ltb l k || (bool_decide (l = k) && (x <? y))).
Proof.
  change (ltb (l ++ [x]) (k ++ [y])) with (list_ltb (l ++ [x]) (k ++ [y])). change (ltb l k) with (list_ltb l k).
  revert k. induction l as [|a l IH]; intros [|b k]; try done.
  - intros _. simpl. by repeat case_match.
  - intros [= Hlen]. cbn [app list_ltb]. destruct (ltb_cases a b) as [[E1 E2]|[[E1 E2]| ->]]; rewrite ?E1, ?E2.
    + done.
    + simpl. rewrite bool_decide_eq_false_2; [done|]. intros [= -> _]. by rewrite ltb_irrefl in E2.
    + rewrite ltb_irrefl, IH by done. f_equal. f_equal. apply bool_decide_ext. split; congruence.
Qed.

Lemma rank_length x : isNumber x → length (rank x) = 3%nat.
Proof. destruct x as [|[]| |[]]; done. Qed.

(** [isBetterOffer] is the order of the ranks. *)
Lemma isBetterOffer_rank o1 o2 :
  priceOk (oe_price o1) → priceOk (oe_price o2) → isBetterOffer o1 o2 = ltb (offerRank o1) (offerRank o2).
Proof.
  intros H1%priceDouble_number H2%priceDouble_number. unfold isBetterOffer, offerRank.
  rewrite list_ltb_app by (by rewrite !rank_length). rewrite SFltb_rank, SFeqb_rank by done.
  destruct (ltb (rank _) (rank _)); [done|]. simpl. by destruct (bool_decide _).
Qed.

(** ** The search *)

Section BestOffer.
Context `{HashOrder} (buying selling : Asset).

Definition forSale (o : OfferEntry) : Prop := oe_buying o = buying ∧ oe_selling o = selling.

(** The best of the offers in [P], if there is one. *)
Definition isBest (P : LedgerEntry → OfferEntry → Prop) (best : option (LedgerEntry * OfferEntry)) : Prop :=
  match best with
  | None => ∀ e o, ¬ P e o
  | Some (e, o) => P e o ∧ ∀ e' o', P e' o' → isBetterOffer o' o = false
  end.

Lemma isBest_iff P Q best : (∀ e o, P e o ↔ Q e o) → isBest P best → isBest Q best.
Proof. intros HPQ. destruct best as [[e o]|]; simpl; [|naive_solver]. intros [HP Hb]. split; [by apply HPQ|]. intros e' o' HQ. eapply Hb, HPQ, HQ. Qed.

(** The better of the best of two sets of offers with valid prices. *)
Lemma isBest_union P Q e o e' o' :
  (∀ e o, P e o ∨ Q e o → priceOk (oe_price o)) → isBest P (Some (e, o)) → isBest Q (Some (e', o')) →
  isBest (λ e o, P e o ∨ Q e o) (Some (if isBetterOffer o o' then (e, o) else (e', o'))).
Proof.
  intros Hok [HP Hb] [HQ Hb'].
  assert (Ho : priceOk (oe_price o)) by (eapply Hok; by left).
  assert (Ho' : priceOk (oe_price o')) by (eapply Hok; by right).
  assert (Ht : ∀ o1 o2 x, priceOk (oe_price o1) → priceOk (oe_price o2) → priceOk (oe_price x) →
    isBetterOffer o2 o1 = false → isBetterOffer x o2 = false → isBetterOffer x o1 = false).
  { intros o1 o2 x H1 H2 H3. rewrite !isBetterOffer_rank by done. intros E1 E2.
    destruct (ltb_cases (offerRank o2) (offerRank o1)) as [[E ?]|[[_ E]|E]]; [congruence| |congruence].
    destruct (ltb (offerRank x) (offerRank o1)) eqn:E3; [|done]. by rewrite (ltb_trans _ _ _ E3 E) in E2. }
  destruct (isBetterOffer o o') eqn:E; simpl.
  - split; [by left|]. intros x y [Hx|Hx]; [by eapply Hb|]. apply (Ht o o'); try done; [eapply Hok; by right| |by eapply Hb'].
    rewrite isBetterOffer_rank in E |- * by done. by apply ltb_asym.
  - split; [by right|]. intros x y [Hx|Hx]; [|by eapply Hb']. apply (Ht o' o); try done; [eapply Hok; by left|by eapply Hb].
Qed.

Lemma isBest_nothing P Q best : (∀ e o, ¬ Q e o) → isBest P best → isBest (λ e o, P e o ∨ Q e o) best.
Proof. intros HQ. apply isBest_iff. naive_solver. Qed.

(** An entry that may be an offer. *)
Definition offerAt (k : LedgerKey) (e : LedgerEntry) (o : OfferEntry) : Prop :=
  isOfferKey k = true ∧ data e = Offer o ∧ forSale o.

Definition entryOk (k : LedgerKey) (e : LedgerEntry) : Prop :=
  isOfferKey k = true → ∃ o, data e = Offer o ∧ priceOk (oe_price o).

Definition offered (o : OfferEntry) : bool := bool_decide (oe_buying o = buying) && bool_decide (oe_selling o = selling).

(** The offer that an entry of a transaction contributes. *)
Definition candidate (exclude : gset LedgerKey) (kv : LedgerKey * option LedgerEntry) : option (LedgerEntry * OfferEntry) :=
  match kv with
  | (k, Some e) =>
    if isOfferKey k && negb (bool_decide (k ∈ exclude)) then
      match data e with Offer o => if offered o then Some (e, o) else None | _ => None end
    else None
  | _ => None
  end.

Definition pick (best : option (LedgerEntry * OfferEntry)) (c : LedgerEntry * OfferEntry) : option (LedgerEntry * OfferEntry) :=
  match best with
  | None => Some c
  | Some b => Some (if isBetterOffer c.2 b.2 then c else b)
  end.

Lemma candidate_Some exclude k v e o :
  candidate exclude (k, v) = Some (e, o) ↔ v = Some e ∧ k ∉ exclude ∧ offerAt k e o.
Proof.
  unfold candidate, offerAt, forSale, offered. destruct v as [e'|]; [|naive_solver].
  destruct (isOfferKey k); cbn [andb]; [|naive_solver].
  destruct (bool_decide (k ∈ exclude)) eqn:Ek; cbn [negb]; propify; [naive_solver|].
  destruct (data e') as [a|a|o'|a] eqn:Ed;
    try (split; [done|]; intros ([= <-] & _ & _ & Hd & _); congruence).
  destruct (bool_decide (oe_buying o' = buying)) eqn:E1, (bool_decide (oe_selling o' = selling)) eqn:E2;
    cbn [andb]; propify; (split; [try done; intros [= <- <-]; done|]);
    intros ([= <-] & _ & _ & Hd & Hb & Hs); congruence.
Qed.

Lemma candidate_other exclude k l :
  k ∉ l.*1 → omap (candidate ({[k]} ∪ exclude)) l = omap (candidate exclude) l.
Proof.
  induction l as [|[k' v] l IH]; [done|]. rewrite fmap_cons, not_elem_of_cons. intros [Hk Hl]. simpl in Hk.
  cbn [omap list_omap]. fold (omap (M:=list) (candidate ({[k]} ∪ exclude)) l). 
  assert (Hc : candidate ({[k]} ∪ exclude) (k', v) = candidate exclude (k', v)).
  { unfold candidate. destruct v; [|done]. by rewrite (bool_decide_ext (k' ∈ {[k]} ∪ exclude) (k' ∈ exclude)) by set_solver. }
  rewrite Hc. by rewrite IH.
Qed.

(** The loop picks the best candidate. *)
Lemma bestOfferLoop_fold l : ∀ exclude best,
  NoDup l.*1 → (∀ k e, (k, Some e) ∈ l → k ∉ exclude → entryOk k e) →
  bestOfferLoop buying selling l exclude best =
  Some (exclude ∪ list_to_set (List.filter isOfferKey l.*1), foldl pick best (omap (candidate exclude) l)).
Proof.
  induction l as [|[k v] l IH]; intros exclude best Hd Hok.
  { cbn. by rewrite union_empty_r_L. }
  rewrite fmap_cons in Hd. apply NoDup_cons in Hd as [Hk Hd].
  assert (Hin : ∀ best', bestOfferLoop buying selling l ({[k]} ∪ exclude) best' =
    Some ({[k]} ∪ exclude ∪ list_to_set (List.filter isOfferKey l.*1), foldl pick best' (omap (candidate exclude) l))).
  { intros best'. rewrite IH; [by rewrite candidate_other|done|]. intros k' e Hin Hnot. apply Hok; [by right|set_solver]. }
  assert (Hout : ∀ best', bestOfferLoop buying selling l exclude best' =
    Some (exclude ∪ list_to_set (List.filter isOfferKey l.*1), foldl pick best' (omap (candidate exclude) l))).
  { intros best'. apply IH; [done|]. intros k' e Hin' Hnot. apply Hok; [by right|done]. }
  rewrite fmap_cons. cbn [bestOfferLoop fst List.filter omap list_omap].
  fold (omap (M:=list) (candidate exclude) l). specialize (Hok k).
  destruct (isOfferKey k) eqn:Eo; cbn [negb]; [|rewrite Hout; unfold candidate; rewrite Eo; by destruct v].
  replace (exclude ∪ list_to_set (k :: List.filter isOfferKey l.*1))
    with ({[k]} ∪ exclude ∪ list_to_set (List.filter isOfferKey l.*1)) by set_solver.
  destruct (decide (k ∈ exclude)) as [Hke|Hke].
  { assert (Hc : candidate exclude (k, v) = None) by (unfold candidate; rewrite Eo, bool_decide_eq_true_2 by done; by destruct v).
    rewrite Hout, Hc. by replace ({[k]} ∪ exclude) with exclude by set_solver. }
  destruct v as [e|]; [|by rewrite Hin].
  destruct (Hok e) as (o & Ho & _); [by left|done|done|]. rewrite Ho.
  assert (Hc : candidate exclude (k, Some e) = if offered o then Some (e, o) else None)
    by (unfold candidate; by rewrite Eo, bool_decide_eq_false_2, Ho by done).
  rewrite Hc. fold (offered o).
  destruct (offered o); cbn [negb]; [|by rewrite Hin]. destruct best as [[be bo]|]; [|by rewrite Hin].
  rewrite Hin. simpl. by destruct (isBetterOffer o bo).
Qed.

Lemma pick_best cs : ∀ best P,
  (∀ e o, P e o ∨ (e, o) ∈ cs → priceOk (oe_price o)) → isBest P best →
  isBest (λ e o, P e o ∨ (e, o) ∈ cs) (foldl pick best cs).
Proof.
  induction cs as [|[e o] cs IH]; intros best P Hok Hb; simpl.
  { apply isBest_nothing; [|done]. by intros e o ?%elem_of_nil. }
  set (P1 := λ e' o', (e' = e ∧ o' = o) ∨ P e' o').
  eapply isBest_iff; [|apply (IH _ P1)].
  - intros e' o'. unfold P1. rewrite elem_of_cons. split; [|intros [?|[[= -> ->]|?]]; tauto].
    intros [[[-> ->]|?]|?]; tauto.
  - intros e' o' Hx. apply (Hok e' o'). rewrite elem_of_cons. unfold P1 in Hx. destruct Hx as [[[-> ->]|?]|?]; tauto.
  - assert (Hself : isBest (λ e' o', e' = e ∧ o' = o) (Some (e, o))).
    { simpl. split; [done|]. intros e' o' [-> ->].
      rewrite isBetterOffer_rank by (apply (Hok e); right; by left). apply ltb_irrefl. }
    destruct best as [[be bo]|]; unfold pick; cbn [snd].
    + apply (isBest_union _ P); [|done|done]. intros e' o' Hx. apply (Hok e' o'). rewrite elem_of_cons.
      destruct Hx as [[-> ->]|?]; tauto.
    + apply (isBest_iff (λ e' o', e' = e ∧ o' = o)); [|done]. intros e' o'. unfold P1. split; [tauto|].
      intros [?|HP]; [done|]. by apply Hb in HP.
Qed.

(** ** The best offer over all transactions *)

(** The offers shown by the innermost transaction, without those of [exclude]. *)
Definition shown (r : LedgerTxnRoot) (l : list LedgerTxn) (exclude : gset LedgerKey) (e : LedgerEntry) (o : OfferEntry) : Prop :=
  ∃ k, getNewestVersion r l k = Some e ∧ k ∉ exclude ∧ offerAt k e o.

Lemma level_best (m : gmap LedgerKey (option LedgerEntry)) exclude :
  (∀ k e, m !! k = Some (Some e) → k ∉ exclude → entryOk k e) →
  ∃ best, bestOfferLoop buying selling (iterate m) exclude None =
            Some (exclude ∪ list_to_set (List.filter isOfferKey (iterate m).*1), best) ∧
    isBest (λ e o, ∃ k, m !! k = Some (Some e) ∧ k ∉ exclude ∧ offerAt k e o) best.
Proof.
  intros Hok. rewrite bestOfferLoop_fold; [|apply NoDup_iterate|].
  2: { intros k e Hin. apply Hok. by apply elem_of_iterate. }
  eexists. split; [done|].
  assert (Hc : ∀ e o, (e, o) ∈ omap (candidate exclude) (iterate m) ↔ ∃ k, m !! k = Some (Some e) ∧ k ∉ exclude ∧ offerAt k e o).
  { intros e o. rewrite list_elem_of_omap. split.
    - intros ([k v] & Hin%elem_of_iterate & Hc%candidate_Some). destruct Hc as (-> & ? & ?). by exists k.
    - intros (k & Hin & ? & ?). exists (k, Some e). rewrite elem_of_iterate, candidate_Some. done. }
  eapply isBest_iff; [|apply (pick_best _ None (λ _ _, False))].
  - intros e o. cbv beta. rewrite Hc. tauto.
  - intros e o [[]|(k & Hk & Hex & Hof)%Hc]. destruct (Hok k e Hk Hex) as (o' & Ho' & ?); [apply Hof|].
    destruct Hof as (_ & Ho & _). assert (o' = o) as -> by congruence. done.
  - simpl. tauto.
Qed.

Lemma getBestOffer_best r l : ∀ exclude,
  (∀ k e, getNewestVersion r l k = Some e → k ∉ exclude → entryOk k e) →
  ∃ best, getBestOffer r l buying selling exclude = Some best ∧ isBest (shown r l exclude) best.
Proof.
  induction l as [|t l IH]; intros exclude Hok; cbn [getBestOffer].
  - destruct (level_best (Some <$> rootEntries r) exclude) as (best & -> & Hb).
    { intros k e. rewrite lookup_fmap_Some. intros (e' & [= ->] & He). by apply Hok. }
    exists best. split; [done|]. eapply isBest_iff; [|exact Hb]. intros e o. unfold shown.
    split; intros (k & Hk & Hx); exists k; (split; [|done]).
    + apply lookup_fmap_Some in Hk as (e' & [= ->] & He). done.
    + simpl in Hk. by rewrite lookup_fmap, Hk.
  - destruct (level_best (mEntry t) exclude) as (best & -> & Hb).
    { intros k e He. apply Hok. simpl. by rewrite He. }
    set (exclude' := exclude ∪ _). cbn.
    assert (Hex : ∀ k, k ∈ exclude' ↔ k ∈ exclude ∨ isOfferKey k = true ∧ is_Some (mEntry t !! k)).
    { intros k. unfold exclude'. rewrite elem_of_union, elem_of_list_to_set, list_elem_of_In, filter_In, <- list_elem_of_In.
      assert (Hk : k ∈ (iterate (mEntry t)).*1 ↔ is_Some (mEntry t !! k)); [|tauto]. rewrite list_elem_of_fmap. split.
      - intros ([k' v] & -> & Hin%elem_of_iterate). by eexists.
      - intros [v Hv]. exists (k, v). split; [done|]. by apply elem_of_iterate. }
    destruct (IH exclude') as (pbest & -> & Hpb).
    { intros k e He Hnot Hof. apply (Hok k e); [|set_solver|done]. simpl.
      destruct (mEntry t !! k) eqn:Em; [|done]. exfalso. apply Hnot, Hex. right. by rewrite Em. }
    cbn. eexists. split; [done|].
    assert (Hsplit : ∀ e o, (∃ k, mEntry t !! k = Some (Some e) ∧ k ∉ exclude ∧ offerAt k e o) ∨ shown r l exclude' e o ↔
                            shown r (t :: l) exclude e o).
    { intros e o. unfold shown. cbn [getNewestVersion]. split.
      - intros [(k & Hk & ?)|(k & Hk & Hnot & Hof)]; exists k; [by rewrite Hk|].
        destruct (mEntry t !! k) eqn:Em; [|split_and!; [done|set_solver|done]].
        exfalso. apply Hnot, Hex. right. rewrite Em. split; [apply Hof|by eexists].
      - intros (k & Hk & Hnot & Hof). destruct (mEntry t !! k) as [v|] eqn:Em.
        + left. exists k. rewrite Em, Hk. done.
        + right. exists k. split_and!; [done| |done]. rewrite Hex, Em. intros [?|[_ [? ?]]]; done. }
    assert (Hpr : ∀ e o, shown r (t :: l) exclude e o → priceOk (oe_price o)).
    { intros e o (k & Hk & Hnot & Hof). destruct (Hok k e Hk Hnot) as (o' & Ho' & ?); [apply Hof|].
      destruct Hof as (_ & Ho & _). assert (o' = o) as -> by congruence. done. }
    eapply isBest_iff; [exact Hsplit|]. destruct best as [[e o]|], pbest as [[pe po]|].
    + apply isBest_union; [|done|done]. intros e' o' Hx. by apply (Hpr e' o'), Hsplit.
    + by apply isBest_nothing.
    + eapply isBest_iff; [|exact Hpb]. intros e' o'. split; [tauto|]. intros [Hx|?]; [by apply Hb in Hx|done].
    + simpl in *. intros e' o' [Hx|Hx]; [by apply Hb in Hx|by apply Hpb in Hx].
Qed.
End BestOffer.

(** ** Loading *)

Lemma openTxn_top s t outer :
  txns s = t :: outer → mIsSealed t = false → openTxn (txn_id t) s = Ok (t, outer) s.
Proof.
  intros Hl Hs. unfold openTxn, getImpl, get, throwIfSealed, throwIfChild, mbind, M_bind, mret, M_ret.
  rewrite Hl, findTxn_head. cbv beta iota. by rewrite Hs.
Qed.

(** What [load] returns from the innermost transaction. *)
Lemma load_top `{HashOrder} s t outer k :
  txns s = t :: outer → mIsSealed t = false → mActive t !! k = None →
  match getNewestVersion (root s) (t :: outer) k with
  | None => load (txn_id t) k s = Ok None s
  | Some e => ∃ h s', load (txn_id t) k s = Ok (Some h) s' ∧ current (Some h) s' = Ok e s'
  end.
Proof.
  intros Hl Hs Ha. unfold load, get, mbind, M_bind, mret, M_ret.
  rewrite (openTxn_top s t outer Hl Hs). cbv beta iota. rewrite Ha.
  destruct (getNewestVersion (root s) (t :: outer) k) as [e|] eqn:E; [|done].
  unfold makeSharedImpl, putTxns, modify. cbv beta iota. eexists _, _. split; [done|].
  unfold current, get, mbind, M_bind, lockHandle. simpl. rewrite decide_True by done. simpl.
  rewrite lookup_insert_eq, decide_True by done. simpl. by rewrite lookup_insert_eq.
Qed.

(** Every offer that the innermost transaction shows has a valid price. *)
Definition offersOk (m : gmap LedgerKey LedgerEntry) : Prop :=
  ∀ k e o, m !! k = Some e → data e = Offer o → priceOk (oe_price o).

(** The offers of [selling] for [buying] that the innermost transaction shows, and the best of them. *)
Definition onSale (s : Ledger) (buying selling : Asset) (e : LedgerEntry) (o : OfferEntry) : Prop :=
  (∃ k, visible (root s) (txns s) !! k = Some e) ∧ data e = Offer o ∧ forSale buying selling o.

Lemma best_shown `{HashOrder} s buying selling :
  LedgerOk s → offersOk (visible (root s) (txns s)) →
  ∃ best, getBestOffer (root s) (txns s) buying selling ∅ = Some best ∧ isBest (onSale s buying selling) best.
Proof.
  intros Hok Hof.
  assert (Hkey : ∀ k e, visible (root s) (txns s) !! k = Some e → LedgerEntryKey e = k).
  { intros k e. rewrite visible_lookup. by apply (newest_key s Hok []). }
  destruct (getBestOffer_best buying selling (root s) (txns s) ∅) as (best & Eb & Hb).
  { intros k e He _ Hk. rewrite <- visible_lookup in He. pose proof (Hkey k e He) as Hke. unfold LedgerEntryKey in Hke.
    destruct (data e) as [a|a|o|a] eqn:Ed; subst k; try done. exists o. split; [done|]. by eapply Hof. }
  exists best. split; [done|]. eapply isBest_iff; [|exact Hb].
  intros e o. unfold shown, onSale, offerAt. setoid_rewrite <- visible_lookup. split.
  - intros (k & Hk & _ & _ & Hd & Hf). eauto.
  - intros ([k Hk] & Hd & Hf). exists k. split; [done|]. split; [set_solver|]. split; [|split; [done|exact Hf]].
    pose proof (Hkey k e Hk) as <-. unfold LedgerEntryKey. by rewrite Hd.
Qed.

(** C24: the best offer. In every reachable state in which the innermost transaction is not sealed and
    has no handle on an offer in use, and in which all offers have valid prices, [loadBestOffer] of
    the innermost transaction returns. It returns nothing if the ledger shows
    no offer of one asset for the other; otherwise it returns a handle on an offer that is shown and
    than which no other is better, whatever transactions have created, changed or erased offers and
    in whatever order the hash tables are iterated. *)
Theorem best_offer_found `{HashOrder} s t outer buying selling :
  ledgerReachable s → txns s = t :: outer → mIsSealed t = false →
  (∀ k, isOfferKey k = true → mActive t !! k = None) → offersOk (visible (root s) (t :: outer)) →
  ∃ h s', loadBestOffer (txn_id t) buying selling s = Ok h s' ∧
    match h with
    | None => ∀ e o, ¬ onSale s buying selling e o
    | Some h => ∃ e o, current (Some h) s' = Ok e s' ∧ onSale s buying selling e o ∧
                       ∀ e' o', onSale s buying selling e' o' → isBetterOffer o' o = false
    end.
Proof.
  intros Hr Hl Hs Ha Hof. apply reachable_ok in Hr as Hok. rewrite <- Hl in Hof.
  destruct (best_shown s buying selling Hok Hof) as (best & Eb & Hb). rewrite Hl in Eb.
  unfold loadBestOffer, get, mbind, M_bind, mret, M_ret.
  rewrite (openTxn_top s t outer Hl Hs). cbv beta iota. rewrite Eb.
  destruct best as [[e o]|]; [|exists None, s; done]. destruct Hb as [Hin Hbest].
  pose proof Hin as ([k Hk] & Hd & _). rewrite Hl in Hk.
  assert (Hkey : LedgerEntryKey e = k) by (eapply (newest_key s Hok []); [exact Hl|by rewrite <- visible_lookup]).
  pose proof (load_top s t outer k Hl Hs) as Hload. rewrite <- visible_lookup, Hk in Hload.
  destruct Hload as (h & s' & E & Ec); [apply Ha; rewrite <- Hkey; unfold LedgerEntryKey; by rewrite Hd|].
  rewrite Hkey. exists (Some h), s'. split; [exact E|]. exists e, o. split; [exact Ec|]. split; [exact Hin|exact Hbest].
Qed.

(** The parent has offers at prices 2 and 3; the child has erased the better one and created one at
    the price 5/2, which [loadBestOffer] finds. *)
Definition sampleCredit : Asset := ASSET_TYPE_CREDIT_ALPHANUM4 [1; 2; 3; 4] 9.
Definition sampleOffer (offer n d : Z) : LedgerEntry :=
  mkEntry 0 (Offer (mkOffer 7 offer ASSET_TYPE_NATIVE sampleCredit 100 (mkPrice n d) 0)).
Definition sampleOffers : list LedgerOp :=
  [NewTxn None true; Create 0 (sampleOffer 1 2 1); DestroyEntry (Some (mkHandle 0 (OFFER 7 1) 1));
   Create 0 (sampleOffer 2 3 1); DestroyEntry (Some (mkHandle 0 (OFFER 7 2) 2)); NewTxn (Some 0%nat) false;
   Erase 3 (OFFER 7 1); Create 3 (sampleOffer 3 5 2); DestroyEntry (Some (mkHandle 3 (OFFER 7 3) 4))].
Definition offersLedger : Ledger := stateAfter (runAll sampleOffers emptyLedger).
Definition offersTop : LedgerTxn := default (mkTxn 0 sampleHeader None ∅ ∅ false false EXACT) (head (txns offersLedger)).
Definition offerPriceOk (e : LedgerEntry) : bool :=
  match data e with
  | Offer o => let p := oe_price o in (0 <? price_n p) && (price_n p <? 2 ^ 31) && (0 <? price_d p) && (price_d p <? 2 ^ 31)
  | _ => true
  end.

Lemma offersLedger_reachable : ledgerReachable offersLedger.
Proof.
  pose proof (runAll_reachable sampleOffers emptyLedger empty_reachable ltac:(by repeat constructor)) as Hr.
  assert (E : isOk (runAll sampleOffers emptyLedger) = true) by (vm_compute; reflexivity).
  unfold offersLedger. by destruct (runAll sampleOffers emptyLedger).
Qed.

Lemma offersOk_decide m : map_Forall (λ _ e, offerPriceOk e = true) m → offersOk m.
Proof.
  intros Hm k e o He Hd. specialize (Hm k e He). unfold offerPriceOk in Hm. rewrite Hd in Hm. unfold priceOk. lia.
Qed.

Lemma best_offer_found_witness :
  ∃ h s', loadBestOffer 3 sampleCredit ASSET_TYPE_NATIVE offersLedger = Ok h s' ∧
    match h with
    | None => ∀ e o, ¬ onSale offersLedger sampleCredit ASSET_TYPE_NATIVE e o
    | Some h => ∃ e o, current (Some h) s' = Ok e s' ∧ onSale offersLedger sampleCredit ASSET_TYPE_NATIVE e o ∧
                       ∀ e' o', onSale offersLedger sampleCredit ASSET_TYPE_NATIVE e' o' → isBetterOffer o' o = false
    end ∧
    match h with Some h => h_key h = OFFER 7 3 | None => False end.
Proof.
  assert (Hl : txns offersLedger = offersTop :: tail (txns offersLedger)).
  { unfold offersTop. assert (E : negb (bool_decide (length (txns offersLedger) = 0%nat)) = true) by (vm_compute; reflexivity).
    by destruct (txns offersLedger). }
  assert (Hid : txn_id offersTop = 3%nat) by (vm_compute; reflexivity).
  destruct (best_offer_found offersLedger offersTop (tail (txns offersLedger)) sampleCredit ASSET_TYPE_NATIVE)
    as (h & s' & E & Hh).
  - exact offersLedger_reachable.
  - exact Hl.
  - vm_compute. reflexivity.
  - assert (Ha : mActive offersTop = ∅) by (apply (bool_decide_eq_true_1 _); vm_compute; reflexivity).
    intros k _. by rewrite Ha, lookup_empty.
  - rewrite <- Hl. apply offersOk_decide, (bool_decide_eq_true_1 _). vm_compute. reflexivity.
  - rewrite Hid in E. exists h, s'. split; [exact E|]. split; [exact Hh|].
    assert (Hk : match loadBestOffer 3 sampleCredit ASSET_TYPE_NATIVE offersLedger with
                 | Ok (Some h) _ => bool_decide (h_key h = OFFER 7 3) | _ => false end = true) by (vm_compute; reflexivity).
    rewrite E in Hk. destruct h; [by apply (bool_decide_eq_true_1 _)|done].
Defined.
