(* ===== verification/LedgerLogic.v ===== *)
(** * A program logic for code on ledger transactions

    [exec vs m Q X]: from every well-formed ledger whose transactions look like [vs], [m] returns
    with its result and the transactions in [Q], or throws with the transactions in [X]; it does not
    bring the process down. A transaction looks like a map from keys to what the entries hold (without
    the number of the ledger that a commit writes into them), its header, and what is in use. *)
From stdpp Require Import base list gmap strings.
From Stdlib Require Import ZArith Lia.
From S2P Require Import Prelude Numeric LedgerEntries LedgerTxn LedgerTxnSpec LedgerOffers TrustLines.

Record View := mkView {
  v_id : nat; v_data : gmap LedgerKey EntryData; v_header : LedgerHeader;
  v_act : gmap LedgerKey EntryImpl; v_hact : option nat; v_sealed : bool }.

Definition viewOf (r : LedgerTxnRoot) (t : LedgerTxn) (outer : list LedgerTxn) : View :=
  mkView (txn_id t) (data <$> visible r (t :: outer)) (mHeader t) (mActive t) (mActiveHeader t) (mIsSealed t).

Fixpoint viewsOf (r : LedgerTxnRoot) (l : list LedgerTxn) : list View :=
  match l with [] => [] | t :: l => viewOf r t l :: viewsOf r l end.
Definition views (s : Ledger) : list View := viewsOf (root s) (txns s).

Definition setData (D : gmap LedgerKey EntryData) (V : View) : View :=
  mkView (v_id V) D (v_header V) (v_act V) (v_hact V) (v_sealed V).
Definition setAct (a : gmap LedgerKey EntryImpl) (V : View) : View :=
  mkView (v_id V) (v_data V) (v_header V) a (v_hact V) (v_sealed V).
Definition setHact (a : option nat) (V : View) : View :=
  mkView (v_id V) (v_data V) (v_header V) (v_act V) a (v_sealed V).
Definition setVHeader (h : LedgerHeader) (V : View) : View :=
  mkView (v_id V) (v_data V) h (v_act V) (v_hact V) (v_sealed V).

(** What a key holds is of the key's kind. *)
Definition dataKeyOf (d : EntryData) : LedgerKey := LedgerEntryKey (mkEntry 0 d).
Lemma LedgerEntryKey_data e : LedgerEntryKey e = dataKeyOf (data e).
Proof. by unfold dataKeyOf, LedgerEntryKey. Qed.

Lemma views_cons s V vs :
  views s = V :: vs → ∃ t outer, txns s = t :: outer ∧ V = viewOf (root s) t outer ∧ vs = viewsOf (root s) outer.
Proof. unfold views. destruct (txns s) as [|t outer]; [done|]. cbn [viewsOf]. intros [= <- <-]. eauto. Qed.

Lemma viewsOf_ids r l : v_id <$> viewsOf r l = txn_id <$> l.
Proof. induction l as [|t l IH]; [done|]. cbn [viewsOf]. by rewrite !fmap_cons, IH. Qed.

Definition exec {A} (vs : list View) (m : M Ledger A) (Q : A → list View → Prop) (X : list View → Prop) : Prop :=
  ∀ s, LedgerOk s → views s = vs →
  match m s with
  | Ok a s' => LedgerOk s' ∧ Q a (views s')
  | Throw _ s' => LedgerOk s' ∧ X (views s')
  | Crash _ _ | NoFuel => False
  end.

Section Rules.
Context {A B : Type}.

Lemma exec_bind vs (m : M Ledger A) (k : A → M Ledger B) Q X :
  exec vs m (λ a vs', exec vs' (k a) Q X) X → exec vs (m ≫= k) Q X.
Proof.
  intros Hm s Hok Hv. specialize (Hm s Hok Hv). unfold mbind, M_bind. destruct (m s) as [a s'| | |]; try done.
  destruct Hm as [Hok' Hk]. by apply Hk.
Qed.

Lemma exec_mono vs (m : M Ledger A) (Q Q' : A → list View → Prop) (X X' : list View → Prop) :
  exec vs m Q X → (∀ a vs', Q a vs' → Q' a vs') → (∀ vs', X vs' → X' vs') → exec vs m Q' X'.
Proof. intros Hm HQ HX s Hok Hv. specialize (Hm s Hok Hv). destruct (m s); naive_solver. Qed.

Lemma exec_ret vs (a : A) (Q : A → list View → Prop) X : Q a vs → exec vs (mret a) Q X.
Proof. intros HQ s Hok <-. done. Qed.

Lemma exec_throw vs w (Q : A → list View → Prop) (X : list View → Prop) : X vs → exec vs (throw w) Q X.
Proof. intros HX s Hok <-. done. Qed.

(** A computation that does not touch the ledger. *)
Lemma exec_pure vs (m : M Ledger A) (Q : A → list View → Prop) X a :
  (∀ s, m s = Ok a s) → Q a vs → exec vs m Q X.
Proof. intros Hm HQ s Hok <-. by rewrite Hm. Qed.

Lemma exec_assert vs b (k : unit → M Ledger A) Q X : b = true → exec vs (k tt) Q X → exec vs (assert_ b ≫= k) Q X.
Proof. intros -> Hk. exact Hk. Qed.

Lemma exec_get vs (k : Ledger → M Ledger A) Q X :
  (∀ s, LedgerOk s → views s = vs → exec vs (k s) Q X) → exec vs (get ≫= k) Q X.
Proof. intros Hk s Hok Hv. exact (Hk s Hok Hv s Hok Hv). Qed.

(** The destructor of a local object runs on every way out; it does not throw. *)
Lemma exec_scoped vs d (body : M Ledger A) (Q : A → list View → Prop) (X : list View → Prop) :
  exec vs body (λ a vs', exec vs' d (λ _, Q a) (λ _, False)) (λ vs', exec vs' d (λ _, X) (λ _, False)) →
  exec vs (scoped d body) Q X.
Proof.
  intros Hb s Hok Hv. specialize (Hb s Hok Hv). unfold scoped. destruct (body s) as [a s'|w s'| |]; try done;
    destruct Hb as [Hok' Hd]; specialize (Hd s' Hok' eq_refl); unfold mbind, M_bind; destruct (d s'); try done; tauto.
Qed.
End Rules.

(** From [keeps], the ledger stays well-formed; what is left is what it looks like. *)
Lemma keeps_Ok {A} (m : M Ledger A) s Q a s' : keeps m s Q → m s = Ok a s' → LedgerOk s'.
Proof. unfold keeps, wp. intros H E. rewrite E in H. tauto. Qed.
Lemma keeps_Throw {A} (m : M Ledger A) s Q w s' : keeps m s Q → m s = Throw w s' → LedgerOk s'.
Proof. unfold keeps, wp. intros H E. rewrite E in H. tauto. Qed.

(** ** Handles *)

Definition live (kind : nat → EntryImpl) (h : Handle) (V : View) : bool :=
  bool_decide (h_txn h = v_id V) && bool_decide (v_act V !! h_key h = Some (kind (h_impl h))).

Lemma live_true kind h V : live kind h V = true ↔ h_txn h = v_id V ∧ v_act V !! h_key h = Some (kind (h_impl h)).
Proof. unfold live. by rewrite andb_true_iff, !bool_decide_eq_true. Qed.

(** A handle is alive in the innermost transaction or not at all. *)
Lemma lockHandle_live kind s h V vs :
  LedgerOk s → views s = V :: vs →
  (live kind h V = true ∧ ∃ t outer, lockHandle kind s h = Some ([], t, outer) ∧ txns s = t :: outer ∧
     V = viewOf (root s) t outer ∧ vs = viewsOf (root s) outer) ∨
  (live kind h V = false ∧ lockHandle kind s h = None).
Proof.
  intros Hok Hv. destruct (views_cons s V vs Hv) as (t & outer & Hl & -> & ->).
  destruct (live kind h _) eqn:E.
  - left. split; [done|]. apply live_true in E as [Ei Ea]. simpl in Ei, Ea. exists t, outer. split_and!; try done.
    unfold lockHandle. rewrite Hl, Ei, findTxn_head. by rewrite decide_True by done.
  - right. split; [done|]. destruct (lockHandle kind s h) as [[[inner t'] outer']|] eqn:El; [|done].
    destruct (lock_top _ _ _ _ _ _ Hok El) as (-> & Hl' & Hid & _ & Ha & _).
    rewrite Hl in Hl'. injection Hl' as <- <-. exfalso. assert (live kind h (viewOf (root s) t outer) = true) as Ht; [|congruence].
    apply live_true. done.
Qed.

Lemma isActive_live kind s h V vs : LedgerOk s → views s = V :: vs → isActive kind s (Some h) = live kind h V.
Proof.
  intros Hok Hv. unfold isActive. destruct (lockHandle_live kind s h V vs Hok Hv) as [[-> (t & outer & -> & _)]|[-> ->]]; done.
Qed.

Section Primitives.
Context (V : View) (vs : list View).

Lemma exec_openTxn {A} (k : LedgerTxn * list LedgerTxn → M Ledger A) Q X :
  v_sealed V = false →
  (∀ s t outer, LedgerOk s → txns s = t :: outer → V = viewOf (root s) t outer → vs = viewsOf (root s) outer →
     match k (t, outer) s with
     | Ok a s' => LedgerOk s' ∧ Q a (views s') | Throw _ s' => LedgerOk s' ∧ X (views s') | _ => False end) →
  exec (V :: vs) (openTxn (v_id V) ≫= k) Q X.
Proof.
  intros Hs Hk s Hok Hv. destruct (views_cons s V vs Hv) as (t & outer & Hl & EV & Evs).
  unfold mbind, M_bind. rewrite EV. change (v_id (viewOf _ t outer)) with (txn_id t).
  rewrite (openTxn_top s t outer Hl) by (by rewrite EV in Hs). by apply Hk.
Qed.

Lemma view_lookup r t outer k : v_data (viewOf r t outer) !! k = data <$> getNewestVersion r (t :: outer) k.
Proof. unfold viewOf. cbn [v_data]. by rewrite lookup_fmap, visible_lookup. Qed.

Lemma view_lookup_None r t outer k : v_data (viewOf r t outer) !! k = None ↔ getNewestVersion r (t :: outer) k = None.
Proof. rewrite view_lookup. by destruct (getNewestVersion r (t :: outer) k). Qed.

(** Recording an entry that is shown changes only what is in use. *)
Lemma viewOf_record r t outer a k e :
  getNewestVersion r (t :: outer) k = Some e →
  viewOf r (setEntry (<[k := Some e]> (mEntry t)) (setActive a t)) outer = setAct a (viewOf r t outer).
Proof.
  intros E. unfold viewOf, setAct. cbn [v_data v_id v_header v_hact v_sealed txn_id mHeader mActiveHeader mActive mIsSealed setEntry setActive].
  f_equal. f_equal. transitivity (<[k := e]> (visible r (t :: outer))); [exact (visible_insert r t outer k e)|].
  apply insert_id. exact (eq_trans (visible_lookup r (t :: outer) k) E).
Qed.

(** An operation that keeps the ledger well-formed and returns. *)
Lemma exec_prim {A} (m : M Ledger A) R Q X :
  (∀ s, LedgerOk s → keeps m s (R s)) →
  (∀ s t outer, LedgerOk s → txns s = t :: outer → V = viewOf (root s) t outer → vs = viewsOf (root s) outer →
     ∃ a s', m s = Ok a s' ∧ Q a (views s')) →
  exec (V :: vs) m Q X.
Proof.
  intros Hk Hm s Hok Hv. destruct (views_cons s V vs Hv) as (t & outer & Hl & EV & Evs).
  destruct (Hm s t outer Hok Hl EV Evs) as (a & s' & E & HQ). rewrite E. split; [|done].
  exact (keeps_Ok _ _ _ _ _ (Hk s Hok) E).
Qed.

(** [load] of a key that is not in use. *)
Lemma exec_load k Q X :
  v_sealed V = false → v_act V !! k = None →
  match v_data V !! k with
  | None => Q None (V :: vs)
  | Some _ => ∀ n, Q (Some (mkHandle (v_id V) k n)) (setAct (<[k := MutableImpl n]> (v_act V)) V :: vs)
  end → exec (V :: vs) (load (v_id V) k) Q X.
Proof.
  intros Hs Ha HQ. eapply exec_prim; [intros s; apply load_keeps|]. intros s t outer Hok Hl EV Evs.
  rewrite EV in Hs, Ha, HQ |- *. cbn [viewOf v_sealed v_act v_id] in *. rewrite view_lookup in HQ.
  unfold load, mbind, M_bind. rewrite (openTxn_top s t outer Hl Hs), Ha. unfold get.
  destruct (getNewestVersion (root s) (t :: outer) k) as [e|] eqn:En; simpl in HQ; (eexists _, _; split; [done|]).
  - unfold views. cbn [txns root viewsOf]. rewrite (viewOf_record _ _ _ _ _ _ En), <- Evs. apply HQ.
  - unfold views. rewrite Hl. cbn [viewsOf]. by rewrite <- Evs.
Qed.

Lemma exec_loadWithoutRecord k Q X :
  v_sealed V = false → v_act V !! k = None →
  match v_data V !! k with
  | None => Q None (V :: vs)
  | Some d => ∀ n lm, Q (Some (mkHandle (v_id V) k n, mkEntry lm d)) (setAct (<[k := ConstImpl n]> (v_act V)) V :: vs)
  end → exec (V :: vs) (loadWithoutRecord (v_id V) k) Q X.
Proof.
  intros Hs Ha HQ. eapply exec_prim; [intros s; apply loadWithoutRecord_keeps|]. intros s t outer Hok Hl EV Evs.
  rewrite EV in Hs, Ha, HQ |- *. cbn [viewOf v_sealed v_act v_id] in *. rewrite view_lookup in HQ.
  unfold loadWithoutRecord, mbind, M_bind. rewrite (openTxn_top s t outer Hl Hs), Ha. unfold get.
  destruct (getNewestVersion (root s) (t :: outer) k) as [[lm d]|] eqn:En; simpl in HQ; (eexists _, _; split; [done|]).
  - unfold views. cbn [txns root viewsOf]. rewrite <- Evs. exact (HQ (nextImpl s) lm).
  - unfold views. rewrite Hl. cbn [viewsOf]. by rewrite <- Evs.
Qed.

(** Reading and assigning through a live handle. *)
Lemma live_data h s t outer :
  LedgerOk s → txns s = t :: outer → live MutableImpl h (viewOf (root s) t outer) = true →
  ∃ e, lockHandle MutableImpl s h = Some ([], t, outer) ∧ mEntry t !! h_key h = Some (Some e) ∧ LedgerEntryKey e = h_key h ∧
       v_data (viewOf (root s) t outer) !! h_key h = Some (data e).
Proof.
  intros Hok Hl Hlv. assert (Hv : views s = viewOf (root s) t outer :: viewsOf (root s) outer) by (unfold views; by rewrite Hl).
  destruct (lockHandle_live MutableImpl s h _ _ Hok Hv) as [[_ (t' & outer' & Elk & Hl' & _)]|[? _]]; [|congruence].
  rewrite Hl in Hl'. injection Hl' as <- <-. destruct (lock_mutable _ _ _ _ _ Hok Elk) as (e & He & Hke).
  exists e. split_and!; try done. rewrite view_lookup. simpl. by rewrite He.
Qed.

Lemma exec_current h (Q : LedgerEntry → list View → Prop) X :
  live MutableImpl h V = true →
  (∀ lm d, v_data V !! h_key h = Some d → dataKeyOf d = h_key h → Q (mkEntry lm d) (V :: vs)) →
  exec (V :: vs) (current (Some h)) Q X.
Proof.
  intros Hlv HQ s Hok Hv. destruct (views_cons s V vs Hv) as (t & outer & Hl & EV & Evs). rewrite EV in Hlv.
  destruct (live_data h s t outer Hok Hl Hlv) as ([lm d] & Elk & He & Hke & Hd).
  unfold current, get, mbind, M_bind. simpl. rewrite Elk, He. unfold mret, M_ret. split; [done|]. rewrite Hv.
  apply HQ; [by rewrite EV|]. by rewrite <- Hke, LedgerEntryKey_data.
Qed.

Lemma exec_setCurrent h e (Q : unit → list View → Prop) X :
  live MutableImpl h V = true → LedgerEntryKey e = h_key h →
  Q tt (setData (<[h_key h := data e]> (v_data V)) V :: vs) → exec (V :: vs) (setCurrent (Some h) e) Q X.
Proof.
  intros Hlv Hke HQ. eapply exec_prim; [intros s Hok; by apply (setCurrent_keeps (Some h) e s Hok)|].
  intros s t outer Hok Hl EV Evs. rewrite EV in Hlv, HQ. destruct (live_data h s t outer Hok Hl Hlv) as (e0 & Elk & _).
  unfold setCurrent, get, mbind, M_bind. simpl. rewrite Elk. eexists _, _. split; [done|].
  unfold views. cbn [txns root viewsOf app]. rewrite <- Evs.
  assert (E : viewOf (root s) (setEntry (<[h_key h := Some e]> (mEntry t)) t) outer =
              setData (<[h_key h := data e]> (v_data (viewOf (root s) t outer))) (viewOf (root s) t outer)); [|by rewrite E].
  unfold viewOf, setData. cbn [v_id v_data v_header v_act v_hact v_sealed]. rewrite visible_insert, fmap_insert. done.
Qed.

(** Erasing through a live handle. *)
Lemma exec_eraseEntry h (Q : unit → list View → Prop) X :
  live MutableImpl h V = true → v_sealed V = false →
  Q tt (setAct (delete (h_key h) (v_act V)) (setData (delete (h_key h) (v_data V)) V) :: vs) →
  exec (V :: vs) (eraseEntry (Some h)) Q X.
Proof.
  intros Hlv Hs HQ. eapply exec_prim; [intros s Hok; by apply (eraseEntry_keeps (Some h) s Hok)|].
  intros s t outer Hok Hl EV Evs. rewrite EV in Hlv, HQ, Hs. destruct (live_data h s t outer Hok Hl Hlv) as (e0 & Elk & He & Hke & Hd).
  apply live_true in Hlv as [Hid _]. cbn [viewOf v_id] in Hid. cbn [viewOf v_sealed] in Hs.
  assert (En : getNewestVersion (root s) (t :: outer) (h_key h) = Some e0) by (simpl; by rewrite He).
  unfold eraseEntry, current, erase, get, mbind, M_bind. cbn [option_bind]. rewrite Elk, He. unfold mret, M_ret.
  rewrite Hke, Hid, (openTxn_top s t outer Hl Hs), En. eexists _, _. split; [done|].
  unfold views. cbn [txns root viewsOf app]. rewrite <- Evs.
  match goal with |- Q tt (viewOf _ ?t' _ :: _) => set (t1 := t') end.
  assert (E : viewOf (root s) t1 outer = setAct (delete (h_key h) (mActive t))
    (setData (delete (h_key h) (v_data (viewOf (root s) t outer))) (viewOf (root s) t outer))); [|by rewrite E].
  unfold t1, viewOf, setAct, setData. cbn [v_id v_data v_header v_act v_hact v_sealed txn_id mHeader mActive mActiveHeader mIsSealed setEntry setActive].
  rewrite <- fmap_delete. f_equal. f_equal.
  destruct (getNewestVersion (root s) outer (h_key h)) eqn:Eo;
    [exact (visible_erase (root s) t outer _)|exact (visible_forget (root s) t outer _ Eo)].
Qed.

(** The destructors. *)
Lemma exec_destroyEntry h (Q : unit → list View → Prop) X :
  match h with
  | Some h => Q tt ((if live MutableImpl h V then setAct (delete (h_key h) (v_act V)) V else V) :: vs)
  | None => Q tt (V :: vs)
  end → exec (V :: vs) (destroyEntry h) Q X.
Proof.
  intros HQ. eapply exec_prim; [intros s Hok; by apply destroyEntry_keeps|]. intros s t outer Hok Hl EV Evs.
  assert (Hv : views s = V :: vs) by (unfold views; rewrite Hl, EV, Evs; done).
  unfold destroyEntry, get, mbind, M_bind. destruct h as [h|]; [|exists tt, s; by rewrite Hv].
  rewrite (isActive_live _ s h V vs Hok Hv). destruct (live MutableImpl h V) eqn:Hlv; [|exists tt, s; by rewrite Hv].
  rewrite EV in Hlv, HQ. destruct (live_data h s t outer Hok Hl Hlv) as (e0 & Elk & He & Hke & Hd).
  apply live_true in Hlv as [Hid Ha]. cbn [viewOf v_id v_act] in Hid, Ha.
  unfold noexcept, deactivate, current, deactivateKey, getImpl, get, mbind, M_bind. simpl. rewrite Elk, He. unfold mret, M_ret.
  rewrite Hke, Hid, Hl, findTxn_head. cbv beta iota. rewrite Ha. unfold putTxns, modify. eexists _, _. split; [done|].
  unfold views. cbn [txns root viewsOf app]. rewrite <- Evs. exact HQ.
Qed.

Lemma exec_destroyConst h (Q : unit → list View → Prop) X :
  match h with
  | Some (h, e) => LedgerEntryKey e = h_key h ∧ Q tt ((if live ConstImpl h V then setAct (delete (h_key h) (v_act V)) V else V) :: vs)
  | None => Q tt (V :: vs)
  end → exec (V :: vs) (destroyConst h) Q X.
Proof.
  intros HQ. eapply exec_prim; [intros s Hok; apply destroyConst_keeps; [done|destruct h as [[h e]|]; simpl; tauto]|].
  intros s t outer Hok Hl EV Evs.
  assert (Hv : views s = V :: vs) by (unfold views; rewrite Hl, EV, Evs; done).
  unfold destroyConst, get, mbind, M_bind. destruct h as [[h e]|]; [|exists tt, s; by rewrite Hv]. destruct HQ as [Hke HQ].
  rewrite (isActive_live _ s h V vs Hok Hv). destruct (live ConstImpl h V) eqn:Hlv; [|exists tt, s; by rewrite Hv].
  rewrite EV in Hlv, HQ. apply live_true in Hlv as [Hid Ha]. cbn [viewOf v_id v_act] in Hid, Ha.
  unfold noexcept, deactivateKey, getImpl, get, mbind, M_bind, mret, M_ret. rewrite Hke, Hid, Hl, findTxn_head. cbv beta iota. rewrite Ha.
  unfold putTxns, modify. eexists _, _. split; [done|].
  unfold views. cbn [txns root viewsOf app]. rewrite <- Evs. exact HQ.
Qed.

(** ** The header *)

Definition hlive (h : LedgerTxnHeader) (V : View) : bool :=
  bool_decide (h.1 = v_id V) && bool_decide (v_hact V = Some h.2).

Lemma hlive_true h W : hlive h W = true ↔ h.1 = v_id W ∧ v_hact W = Some h.2.
Proof. unfold hlive. by rewrite andb_true_iff, !bool_decide_eq_true. Qed.

Lemma headerActive_live s h t outer :
  LedgerOk s → txns s = t :: outer →
  headerActive s h = if hlive h (viewOf (root s) t outer) then Some ([], t, outer) else None.
Proof.
  intros Hok Hl. destruct (hlive h (viewOf (root s) t outer)) eqn:E.
  - apply hlive_true in E as [Ei Ea]. simpl in Ei, Ea. unfold headerActive. rewrite Hl, Ei, findTxn_head. by rewrite decide_True by done.
  - destruct (headerActive s h) as [[[inner t'] outer']|] eqn:El; [|done].
    destruct (headerActive_top _ _ _ _ _ Hok El) as (-> & Hl' & Hid & _ & Ha). rewrite Hl in Hl'. injection Hl' as <- <-.
    exfalso. assert (hlive h (viewOf (root s) t outer) = true) as Ht; [|congruence]. by apply hlive_true.
Qed.

Lemma exec_loadHeader (Q : LedgerTxnHeader → list View → Prop) X :
  v_sealed V = false → v_hact V = None →
  (∀ n, Q (v_id V, n) (setHact (Some n) V :: vs)) → exec (V :: vs) (loadHeader (v_id V)) Q X.
Proof.
  intros Hs Ha HQ. eapply exec_prim; [intros s Hok; by apply loadHeader_keeps|]. intros s t outer Hok Hl EV Evs.
  rewrite EV in Hs, Ha, HQ |- *. cbn [viewOf v_sealed v_hact v_id] in *.
  unfold loadHeader, mbind, M_bind. rewrite (openTxn_top s t outer Hl Hs), Ha. eexists _, _. split; [done|].
  unfold views. cbn [txns root viewsOf]. rewrite <- Evs. exact (HQ (nextImpl s)).
Qed.

(** The header is in use already. *)
Lemma exec_loadHeader_used n (Q : LedgerTxnHeader → list View → Prop) (X : list View → Prop) :
  v_sealed V = false → v_hact V = Some n → X (V :: vs) → exec (V :: vs) (loadHeader (v_id V)) Q X.
Proof.
  intros Hs Ha HX s Hok Hv. destruct (views_cons s V vs Hv) as (t & outer & Hl & EV & Evs). rewrite EV in Hs, Ha |- *.
  cbn [viewOf v_sealed v_hact v_id] in *. unfold loadHeader, mbind, M_bind. rewrite (openTxn_top s t outer Hl Hs), Ha.
  split; [done|]. by rewrite Hv.
Qed.

Lemma exec_headerCurrent h (Q : LedgerHeader → list View → Prop) X :
  hlive h V = true → Q (v_header V) (V :: vs) → exec (V :: vs) (headerCurrent h) Q X.
Proof.
  intros Hh HQ s Hok Hv. destruct (views_cons s V vs Hv) as (t & outer & Hl & EV & Evs). rewrite EV in Hh.
  unfold headerCurrent, get, mbind, M_bind. rewrite (headerActive_live s h t outer Hok Hl), Hh. split; [done|]. rewrite Hv.
  by rewrite EV in HQ |- *.
Qed.

Lemma exec_destroyHeader h (Q : unit → list View → Prop) X :
  Q tt ((if hlive h V then setHact None V else V) :: vs) → exec (V :: vs) (destroyHeader h) Q X.
Proof.
  intros HQ. eapply exec_prim; [intros s Hok; by apply destroyHeader_keeps|]. intros s t outer Hok Hl EV Evs.
  assert (Hv : views s = V :: vs) by (unfold views; rewrite Hl, EV, Evs; done). rewrite EV in HQ.
  unfold destroyHeader, get, mbind, M_bind. rewrite (headerActive_live s h t outer Hok Hl).
  destruct (hlive h _) eqn:Eh; [|exists tt, s; by rewrite Hv, EV].
  apply hlive_true in Eh as [Hid Ha]. cbn [viewOf v_id v_hact] in Hid, Ha.
  unfold noexcept, deactivateHeader, getImpl, get, mbind, M_bind, mret, M_ret. rewrite Hid, Hl, findTxn_head. cbv beta iota.
  rewrite Ha. unfold putTxns, modify. eexists _, _. split; [done|].
  unfold views. cbn [txns root viewsOf app]. rewrite <- Evs. exact HQ.
Qed.

(** ** Children *)

(** The parent of a new child: nothing in use. *)
Definition idled (W : View) : View := setHact None (setAct ∅ W).

Lemma exec_newTxn upd (Q : nat → list View → Prop) X :
  v_sealed V = false →
  (∀ id, id ∉ v_id <$> (V :: vs) → Q id (mkView id (v_data V) (v_header V) ∅ None false :: idled V :: vs)) →
  exec (V :: vs) (newLedgerTxn (Some (v_id V)) upd) Q X.
Proof.
  intros Hs HQ. eapply exec_prim; [intros s Hok; by apply newTxn_keeps|]. intros s t outer Hok Hl EV Evs.
  assert (Hfr : nextImpl s ∉ v_id <$> (V :: vs)).
  { rewrite EV, Evs. change (viewOf (root s) t outer :: _) with (viewsOf (root s) (t :: outer)). rewrite viewsOf_ids, <- Hl. by apply fresh_id. }
  specialize (HQ _ Hfr). rewrite EV in Hs, HQ |- *. cbn [viewOf v_sealed v_id] in *.
  unfold newLedgerTxn, getImpl, throwIfSealed, throwIfChild, get, mbind, M_bind, mret, M_ret. rewrite Hl, findTxn_head.
  cbv beta iota. rewrite Hs. unfold makeSharedImpl, putTxns, modify. cbv beta iota. eexists _, _. split; [done|].
  unfold views. cbn [txns root viewsOf]. rewrite <- Evs.
  match goal with |- Q _ (viewOf _ ?c ?l :: _) => assert (E : viewOf (root s) c l =
    mkView (nextImpl s) (data <$> visible (root s) (t :: outer)) (mHeader t) ∅ None false) end.
  { unfold viewOf. cbn [txn_id mHeader mActive mActiveHeader mIsSealed]. f_equal. f_equal. by rewrite visible_empty. }
  rewrite E. exact HQ.
Qed.

(** The handed over entries show what the child shows, but for the numbers of ledgers. *)
Lemma stamped_data b seq parent m m' : stamped b seq parent m m' → data <$> m' = data <$> m.
Proof.
  intros Hst. apply map_eq. intros k. rewrite !lookup_fmap. specialize (Hst k).
  destruct (m !! k) as [e|]; [|by rewrite Hst]. by destruct Hst as [[-> _]|[_ ->]].
Qed.

End Primitives.

Section Txns.
Context `{HashOrder}.

Lemma exec_commit V P vs (Q : unit → list View → Prop) X :
  Q tt (setVHeader (v_header V) (setData (v_data V) P) :: vs) → exec (V :: P :: vs) (commit (v_id V)) Q X.
Proof.
  intros HQ s Hok Hv. pose proof (commit_keeps (v_id V) s Hok) as Hk.
  destruct (views_cons s V (P :: vs) Hv) as (t & outer & Hl & EV & Evs).
  destruct outer as [|p outer]; [done|]. cbn [viewsOf] in Evs. injection Evs as EP Evs.
  assert (E : ∃ s', commit (v_id V) s = Ok tt s' ∧ txns s' = setHeader (mHeader t)
    (setEntry (fold_left (commitEntry (root s) outer) (iterate (handover t)) (mEntry p))
       (setConsistency (joinConsistencyLevels (mConsistency p) (mConsistency t)) p)) :: outer ∧ root s' = root s).
  { rewrite EV. unfold commit, getImpl, get, mbind, M_bind, mret, M_ret. cbn [viewOf v_id]. rewrite Hl, findTxn_head. cbv beta iota.
    unfold handover. destruct (mIsSealed t); unfold throwIfChild, mret, M_ret, commitChild, get, mbind, M_bind, putTxns, modify;
      eexists; (split; [done|]); done. }
  destruct E as (s' & E & Hl' & Hr'). rewrite E. split; [by eapply keeps_Ok|].
  unfold views. rewrite Hl', Hr'. cbn [viewsOf]. rewrite <- Evs.
  assert (E' : data <$> omap id (handover t ∪ (Some <$> visible (root s) (p :: outer))) = v_data V).
  { rewrite EV. exact (stamped_data _ _ _ _ _ (handover_stamped (root s) t (p :: outer))). }
  rewrite EV, EP in HQ. unfold viewOf at 1.
  cbn [txn_id mHeader mActive mActiveHeader mIsSealed setHeader setEntry setConsistency]. rewrite visible_commit, E', EV. exact HQ.
Qed.

(** The destructor of a transaction that is still open. *)
Lemma exec_destroyTxn_open V vs (Q : unit → list View → Prop) X :
  Q tt vs → exec (V :: vs) (destroyTxn (v_id V)) Q X.
Proof.
  intros HQ s Hok Hv. pose proof (rollback_keeps (v_id V) s Hok) as Hk.
  destruct (views_cons s V vs Hv) as (t & outer & Hl & EV & Evs).
  unfold destroyTxn, get, mbind, M_bind. rewrite EV in Hk |- *. cbn [viewOf v_id] in *. rewrite Hl, findTxn_head.
  assert (E : rollback (txn_id t) s = Ok tt (mkLedger outer (root s) (nextImpl s))).
  { unfold rollback, getImpl, get, mbind, M_bind, mret, M_ret. by rewrite Hl, findTxn_head. }
  rewrite E. split; [by eapply keeps_Ok|]. unfold views. cbn [txns root]. by rewrite <- Evs.
Qed.

(** ... that is committed already. *)
Lemma findTxn_None id l : id ∉ txn_id <$> l → findTxn id l = None.
Proof.
  induction l as [|t l IH]; [done|]. rewrite fmap_cons, not_elem_of_cons. intros [Hne Hin]. simpl.
  rewrite decide_False by done. by rewrite IH.
Qed.

Lemma exec_destroyTxn_gone vs id (Q : unit → list View → Prop) X :
  id ∉ v_id <$> vs → Q tt vs → exec vs (destroyTxn id) Q X.
Proof.
  intros Hid HQ s Hok Hv. unfold destroyTxn, get, mbind, M_bind. rewrite findTxn_None; [by rewrite <- Hv in HQ|].
  rewrite <- Hv in Hid. unfold views in Hid. by rewrite viewsOf_ids in Hid.
Qed.
End Txns.

(** ** Scopes *)

(** What is left when the transaction [id] is destroyed: it is the innermost one, or gone. *)
Definition closing (id : nat) (R : list View → Prop) (vs : list View) : Prop :=
  (∃ W rest, vs = W :: rest ∧ v_id W = id ∧ R rest) ∨ (id ∉ v_id <$> vs ∧ R vs).

Section Scopes.
Context `{HashOrder} {A : Type}.

Lemma exec_destroyTxn id vs (R : list View → Prop) X : closing id R vs → exec vs (destroyTxn id) (λ _, R) X.
Proof.
  intros [(W & rest & -> & <- & HR)|[Hid HR]]; [by apply exec_destroyTxn_open|by apply exec_destroyTxn_gone].
Qed.

Lemma exec_withTxn V vs (body : nat → M Ledger A) (Q : A → list View → Prop) (X : list View → Prop) :
  v_sealed V = false →
  (∀ id, id ∉ v_id <$> (V :: vs) →
     exec (mkView id (v_data V) (v_header V) ∅ None false :: idled V :: vs) (body id) (λ a, closing id (Q a)) (closing id X)) →
  exec (V :: vs) (withTxn (v_id V) body) Q X.
Proof.
  intros Hs Hb. unfold withTxn. apply exec_bind, exec_newTxn; [done|]. intros id Hid. apply exec_scoped.
  eapply exec_mono; [by apply Hb|..]; intros; by apply exec_destroyTxn.
Qed.

Lemma exec_withHeader V vs (body : LedgerTxnHeader → M Ledger A) (Q : A → list View → Prop) (X : list View → Prop) :
  v_sealed V = false → v_hact V = None →
  (∀ n, exec (setHact (Some n) V :: vs) (body (v_id V, n))
     (λ a vs', match vs' with W :: rest => Q a ((if hlive (v_id V, n) W then setHact None W else W) :: rest) | [] => False end)
     (λ vs', match vs' with W :: rest => X ((if hlive (v_id V, n) W then setHact None W else W) :: rest) | [] => False end)) →
  exec (V :: vs) (withHeader (v_id V) body) Q X.
Proof.
  intros Hs Hh Hb. unfold withHeader. apply exec_bind, exec_loadHeader; [done..|]. intros n. apply exec_scoped.
  eapply exec_mono; [by apply Hb|..].
  - intros a [|W rest] HQ; [done|]. by apply exec_destroyHeader.
  - intros [|W rest] HX; [done|]. by apply exec_destroyHeader.
Qed.

(** The result of an operation on the entry behind a handle. *)
Lemma exec_onEntry V vs h (f : M LedgerEntry A) (Q : A → list View → Prop) (X : list View → Prop) :
  live MutableImpl h V = true →
  (∀ lm d, v_data V !! h_key h = Some d → dataKeyOf d = h_key h →
     match f (mkEntry lm d) with
     | Ok a e' => LedgerEntryKey e' = h_key h ∧ Q a (setData (<[h_key h := data e']> (v_data V)) V :: vs)
     | Throw _ e' => LedgerEntryKey e' = h_key h ∧ X (setData (<[h_key h := data e']> (v_data V)) V :: vs)
     | Crash _ _ | NoFuel => False
     end) →
  exec (V :: vs) (onEntry (Some h) f) Q X.
Proof.
  intros Hl Hf. unfold onEntry. apply exec_bind, exec_current; [done|]. intros lm d Hd Hk. specialize (Hf lm d Hd Hk).
  destruct (f (mkEntry lm d)) as [a e'|w e'| |]; try done; destruct Hf as [Hk' HQ]; apply exec_bind.
  - apply exec_setCurrent; [done|done|]. by apply exec_ret.
  - apply exec_setCurrent; [done|done|]. by apply exec_throw.
Qed.

Lemma exec_loadBestOffer V vs buying selling (Q : option Handle → list View → Prop) X :
  v_sealed V = false → (∀ k, isOfferKey k = true → v_act V !! k = None) →
  (∀ k o, v_data V !! k = Some (Offer o) → priceOk (oe_price o)) →
  ((∀ k o, v_data V !! k = Some (Offer o) → ¬ forSale buying selling o) → Q None (V :: vs)) →
  (∀ n o, let k := OFFER (oe_sellerID o) (oe_offerID o) in
     v_data V !! k = Some (Offer o) → forSale buying selling o →
     Q (Some (mkHandle (v_id V) k n)) (setAct (<[k := MutableImpl n]> (v_act V)) V :: vs)) →
  exec (V :: vs) (loadBestOffer (v_id V) buying selling) Q X.
Proof.
  intros Hs Ha Hp HQN HQS s Hok Hv. destruct (views_cons s V vs Hv) as (t & outer & Hl & EV & Evs).
  destruct (best_shown s buying selling Hok) as (best & Eb & Hb).
  { rewrite Hl. intros k e o He Hd. apply (Hp k o). rewrite EV. unfold viewOf. cbn [v_data]. rewrite lookup_fmap, He. simpl. by rewrite Hd. }
  assert (Hshow : ∀ k e o, visible (root s) (txns s) !! k = Some e → data e = Offer o → v_data V !! k = Some (Offer o)).
  { intros k e o. rewrite Hl, EV. unfold viewOf. cbn [v_data]. rewrite lookup_fmap. intros ->. simpl. by intros ->. }
  unfold loadBestOffer, get, mbind, M_bind. rewrite Hl in Eb. pose proof Hs as Hs'. rewrite EV in Hs' |- *. cbn [viewOf v_id].
  rewrite (openTxn_top s t outer Hl Hs'). cbv beta iota. rewrite Eb. destruct best as [[e o]|].
  - destruct Hb as [([k Hk] & Hd & Hf) _].
    assert (Hkey : LedgerEntryKey e = k) by (apply (newest_key s Hok [] (txns s) k e eq_refl); by rewrite <- visible_lookup).
    assert (Hko : k = OFFER (oe_sellerID o) (oe_offerID o)) by (rewrite <- Hkey; unfold LedgerEntryKey; by rewrite Hd).
    rewrite Hkey, Hko. pose proof (Hshow k e o Hk Hd) as HD. rewrite Hko in HD.
    assert (HE : exec (V :: vs) (load (v_id V) (OFFER (oe_sellerID o) (oe_offerID o))) Q X).
    { apply exec_load; [done|by apply Ha|]. rewrite HD. intros n. by apply HQS. }
    specialize (HE s Hok Hv). rewrite EV in HE. cbn [viewOf v_id] in HE. exact HE.
  - split; [done|]. rewrite Hv. apply HQN. intros k o Hko Hf.
    rewrite EV in Hko. unfold viewOf in Hko. cbn [v_data] in Hko. rewrite lookup_fmap in Hko.
    destruct (visible (root s) (t :: outer) !! k) as [e|] eqn:Ev; [|done]. simpl in Hko. injection Hko as Hd.
    apply (Hb e o). split; [exists k; by rewrite Hl|done].
Qed.
End Scopes.
