(* ===== verification/CrossOffers.v ===== *)
(** * Crossing offers: [transactions/OfferExchange.cpp]

    [crossOffer] and [crossOfferV10] take one offer of the book, [convertWithOffers] takes the best
    offers one after the other until enough has been exchanged. All of it works through handles on
    nested ledger transactions, which are written out with the scopes of the source. *)
From stdpp Require Import base list gmap strings.
From Stdlib Require Import ZArith.
From S2P Require Import Prelude UInt128 Numeric Exchange LedgerEntries Balances LedgerTxn TrustLines.

Record ClaimOfferAtom := mkClaim {
  sellerID : AccountID; offerID : Z; assetSold : Asset; amountSold : Z; assetBought : Asset; amountBought : Z }.

Inductive OfferFilterResult := eKeep | eStop.
(** With [eFilterStop] comes the offer for which the filter answered [eStop]: what the closures of the
    callers record depends on it. *)
Inductive ConvertResult := eOK | ePartial | eFilterStop (stopped : LedgerEntry) | eCrossedTooMany.
Inductive CrossOfferResult := eOfferPartial | eOfferTaken | eOfferCantConvert.
#[global] Instance CrossOfferResult_eq_dec : EqDecision CrossOfferResult.
Proof. solve_decision. Defined.

(** ** What an account can sell and buy *)

Definition canSellAtMostBasedOnSheep (header : LedgerTxnHeader) (sheep : Asset) (sheepLine : option ConstTrustLineImpl)
    (wheatPrice : Price) : M Ledger Z :=
  if isNative sheep then mret INT64_MAX
  else
    b ← constWrapper_bool sheepLine;
    sellerMaxSheep ← (if (b : bool) then constWrapper_getMaxAmountReceive sheepLine header else mret 0);
    '(ok, wheatAmount) ← bigDivide_i64 0 sellerMaxSheep (price_d wheatPrice) (price_n wheatPrice) ROUND_DOWN;
    mret (if (ok : bool) then wheatAmount else INT64_MAX).

Definition canSellAtMost (header : LedgerTxnHeader) (acc : option Handle) (asset : Asset) (line : option TrustLineImpl)
    : M Ledger Z :=
  if isNative asset then avail ← readEntry getAvailableBalance header acc; mret (Z.max avail 0)
  else
    b ← wrapper_bool line;
    auth ← (if (b : bool) then wrapper_isAuthorized line else mret false);
    if (auth : bool) then avail ← wrapper_getAvailableBalance line header; mret (Z.max avail 0)
    else mret 0.

Definition canSellAtMost_const (header : LedgerTxnHeader) (acc : option (Handle * LedgerEntry)) (asset : Asset)
    (line : option ConstTrustLineImpl) : M Ledger Z :=
  if isNative asset then avail ← readConst getAvailableBalance header acc; mret (Z.max avail 0)
  else
    b ← constWrapper_bool line;
    auth ← (if (b : bool) then constWrapper_isAuthorized line else mret false);
    if (auth : bool) then avail ← constWrapper_getAvailableBalance line header; mret (Z.max avail 0)
    else mret 0.

Definition canBuyAtMost (header : LedgerTxnHeader) (acc : option Handle) (asset : Asset) (line : option TrustLineImpl)
    : M Ledger Z :=
  if isNative asset then room ← readEntry getMaxAmountReceive header acc; mret (Z.max room 0)
  else
    b ← wrapper_bool line;
    if (b : bool) then room ← wrapper_getMaxAmountReceive line header; mret (Z.max room 0) else mret 0.

Definition canBuyAtMost_const (header : LedgerTxnHeader) (acc : option (Handle * LedgerEntry)) (asset : Asset)
    (line : option ConstTrustLineImpl) : M Ledger Z :=
  if isNative asset then room ← readConst getMaxAmountReceive header acc; mret (Z.max room 0)
  else
    b ← constWrapper_bool line;
    if (b : bool) then room ← constWrapper_getMaxAmountReceive line header; mret (Z.max room 0) else mret 0.

Definition currentOffer (h : option Handle) : M Ledger OfferEntry := e ← current h; offer e.
Definition setAmount (h : option Handle) (amount : Z) : M Ledger unit :=
  e ← current h; o ← offer e; setCurrent h (setOffer (oe_setAmount amount o) e).

(** [adjustOffer] of the offer behind a handle. *)
Definition entry_adjustOffer (header : LedgerTxnHeader) (h acc : option Handle) (wheat : Asset)
    (wheatLine : option TrustLineImpl) (sheep : Asset) (sheepLine : option TrustLineImpl) : M Ledger unit :=
  oe ← currentOffer h;
  canSell ← canSellAtMost header acc wheat wheatLine;
  let maxWheatSend := Z.min (oe_amount oe) canSell in
  maxSheepReceive ← canBuyAtMost header acc sheep sheepLine;
  amount ← adjustOffer (oe_price oe) maxWheatSend maxSheepReceive;
  setAmount h amount.

(** ** Before version 10 *)

(** The type, [numWheatReceived], [numSheepSend] and [newAmount]. *)
Definition performExchange (header : LedgerTxnHeader) (sellingWheatOffer : option Handle)
    (accountB : option (Handle * LedgerEntry)) (wheatLineAccountB sheepLineAccountB : option ConstTrustLineImpl)
    (maxWheatReceived maxSheepSend : Z) : M Ledger (ExchangeResultType * Z * Z * Z) :=
  offer ← currentOffer sellingWheatOffer;
  let sheep := oe_buying offer in
  let wheat := oe_selling offer in
  let price := oe_price offer in
  fromSheep ← canSellAtMostBasedOnSheep header sheep sheepLineAccountB price;
  canSell ← canSellAtMost_const header accountB wheat wheatLineAccountB;
  let numWheatReceived := Z.min (Z.min fromSheep canSell) (oe_amount offer) in
  assert_ (0 <=? numWheatReceived);;
  let newAmount := numWheatReceived in
  lh ← headerCurrent header;
  r ← (if ledgerVersion lh <? 3 then exchangeV2 numWheatReceived price maxWheatReceived maxSheepSend
       else exchangeV3 numWheatReceived price maxWheatReceived maxSheepSend);
  match ExchangeResult_type r with
  | REDUCED_TO_ZERO => mret (REDUCED_TO_ZERO, Exchange.numWheatReceived r, Exchange.numSheepSend r, newAmount)
  | BOGUS => mret (NORMAL, 0, 0, 0)
  | NORMAL =>
    let numWheatReceived := Exchange.numWheatReceived r in
    let offerTaken := oe_amount offer <=? numWheatReceived in
    mret (NORMAL, numWheatReceived, Exchange.numSheepSend r, if offerTaken then 0 else s64 (newAmount - numWheatReceived))
  end.

Section Crossing.
Context `{HashOrder}.

(** Pay [delta] of [asset] to the account in a transaction of its own. *)
Definition payInner (ltx : nat) (accountBID : AccountID) (asset : Asset) (delta : Z) : M Ledger bool :=
  withTxn ltx (λ ltxInner,
    withHeader ltxInner (λ header,
      ok ← (if isNative asset then
              accountB ← loadAccount ltxInner accountBID;
              withEntry accountB (λ accountB, entry_addBalance header accountB delta)
            else
              line ← loadTrustLine ltxInner accountBID asset;
              withWrapper line (λ line, wrapper_addBalance line header delta));
      if (ok : bool) then commit ltxInner;; mret true else mret false)).

(** The result, [numWheatReceived], [numSheepSend] and the trail. *)
Definition crossOffer (ltx : nat) (sellingWheatOffer : option Handle) (maxWheatReceived maxSheepSend : Z)
    (offerTrail : list ClaimOfferAtom) : M Ledger (CrossOfferResult * Z * Z * list ClaimOfferAtom) :=
  assert_ (0 <? maxWheatReceived);;
  assert_ (0 <? maxSheepSend);;
  offer ← currentOffer sellingWheatOffer;
  let sheep := oe_buying offer in
  let wheat := oe_selling offer in
  let accountBID := oe_sellerID offer in
  let offerID := oe_offerID offer in
  accountB ← loadAccountWithoutRecord ltx accountBID;
  '(type, numWheatReceived, numSheepSend, newAmount) ←
    withConst accountB (λ accountB,
      s ← get;
      if negb (constActive s accountB)
      then throw "invalid database state: offer must have matching account"
      else
        sheepLine ← loadTrustLineWithoutRecordIfNotNative ltx accountBID sheep;
        withConstWrapper sheepLine (λ sheepLine,
          wheatLine ← loadTrustLineWithoutRecordIfNotNative ltx accountBID wheat;
          withConstWrapper wheatLine (λ wheatLine,
            withHeader ltx (λ header,
              performExchange header sellingWheatOffer accountB wheatLine sheepLine maxWheatReceived maxSheepSend))));
  match type with
  | REDUCED_TO_ZERO => mret (eOfferCantConvert, numWheatReceived, numSheepSend, offerTrail)
  | _ =>
    (if newAmount =? 0 then
       eraseEntry sellingWheatOffer;;
       accountB ← loadAccount ltx accountBID;
       withEntry accountB (λ accountB, withHeader ltx (λ header, entry_addNumEntries header accountB (-1)));; mret tt
     else setAmount sellingWheatOffer newAmount);;
    paid ← (if negb (numSheepSend =? 0) then payInner ltx accountBID sheep numSheepSend else mret true);
    if negb (paid : bool) then mret (eOfferCantConvert, numWheatReceived, numSheepSend, offerTrail)
    else
      taken ← (if negb (numWheatReceived =? 0) then payInner ltx accountBID wheat (- numWheatReceived) else mret true);
      if negb (taken : bool) then mret (eOfferCantConvert, numWheatReceived, numSheepSend, offerTrail)
      else mret (if newAmount =? 0 then eOfferTaken else eOfferPartial, numWheatReceived, numSheepSend,
                 offerTrail ++ [mkClaim accountBID offerID wheat numWheatReceived sheep numSheepSend])
  end.

(** ** From version 10 on *)

(** [addBalance] of the account or of the trust line, which must succeed. *)
Definition moveBalance (header : LedgerTxnHeader) (accountB : option Handle) (asset : Asset) (line : option TrustLineImpl)
    (delta : Z) (error : string) : M Ledger unit :=
  ok ← (if isNative asset then entry_addBalance header accountB delta else wrapper_addBalance line header delta);
  if (ok : bool) then mret tt else throw error.

(** From the adjustment of the offer to its new amount: the exchange and that amount. *)
Definition tradeV10 (header : LedgerTxnHeader) (sellingWheatOffer accountB : option Handle) (wheat : Asset)
    (wheatLine : option TrustLineImpl) (sheep : Asset) (sheepLine : option TrustLineImpl)
    (maxWheatReceived maxSheepSend : Z) (isPathPayment : bool) : M Ledger (ExchangeResultV10 * Z) :=
  entry_adjustOffer header sellingWheatOffer accountB wheat wheatLine sheep sheepLine;;
  canSell ← canSellAtMost header accountB wheat wheatLine;
  offer ← currentOffer sellingWheatOffer;
  let maxWheatSend := Z.min (oe_amount offer) canSell in
  maxSheepReceive ← canBuyAtMost header accountB sheep sheepLine;
  r ← exchangeV10 (oe_price offer) maxWheatSend maxWheatReceived maxSheepSend maxSheepReceive isPathPayment;
  (if negb (numSheepSend10 r =? 0)
   then moveBalance header accountB sheep sheepLine (numSheepSend10 r) "overflowed sheep balance" else mret tt);;
  (if negb (numWheatReceived10 r =? 0)
   then moveBalance header accountB wheat wheatLine (- numWheatReceived10 r) "overflowed wheat balance" else mret tt);;
  (if wheatStays10 r then
     offer ← currentOffer sellingWheatOffer;
     setAmount sellingWheatOffer (s64 (oe_amount offer - numWheatReceived10 r));;
     entry_adjustOffer header sellingWheatOffer accountB wheat wheatLine sheep sheepLine
   else setAmount sellingWheatOffer 0);;
  offer ← currentOffer sellingWheatOffer;
  mret (r, oe_amount offer).

(** The end, in a transaction of its own: the offer is erased, or it acquires its new liabilities. *)
Definition settleV10 (ltx : nat) (accountBID : AccountID) (offerID : Z) (res : CrossOfferResult) : M Ledger unit :=
  withTxn ltx (λ ltxInner,
    header ← loadHeader ltxInner;
    sellingWheatOffer ← loadOffer ltxInner accountBID offerID;
    (if decide (res = eOfferTaken) then
       eraseEntry sellingWheatOffer;;
       accountB ← loadAccount ltxInner accountBID;
       entry_addNumEntries header accountB (-1);; mret tt
     else acquireLiabilities ltxInner header sellingWheatOffer);;
    commit ltxInner).

(** The result, [numWheatReceived], [numSheepSend], [wheatStays] and the trail. *)
Definition crossOfferV10 (ltx : nat) (sellingWheatOffer : option Handle) (maxWheatReceived maxSheepSend : Z)
    (isPathPayment : bool) (offerTrail : list ClaimOfferAtom)
    : M Ledger (CrossOfferResult * Z * Z * bool * list ClaimOfferAtom) :=
  assert_ (0 <? maxWheatReceived);;
  assert_ (0 <? maxSheepSend);;
  withHeader ltx (λ header,
    offer ← currentOffer sellingWheatOffer;
    let sheep := oe_buying offer in
    let wheat := oe_selling offer in
    let accountBID := oe_sellerID offer in
    let offerID := oe_offerID offer in
    acc ← loadAccountWithoutRecord ltx accountBID;
    withConst acc (λ acc, s ← get;
      if constActive s acc then mret tt else throw "invalid database state: offer must have matching account");;
    releaseLiabilities ltx header sellingWheatOffer;;
    accountB ← (if isNative wheat || isNative sheep then loadAccount ltx accountBID else mret None);
    withEntry accountB (λ accountB,
      sheepLine ← loadTrustLineIfNotNative ltx accountBID sheep;
      withWrapper sheepLine (λ sheepLine,
        wheatLine ← loadTrustLineIfNotNative ltx accountBID wheat;
        withWrapper wheatLine (λ wheatLine,
          '(r, amount) ← tradeV10 header sellingWheatOffer accountB wheat wheatLine sheep sheepLine
                           maxWheatReceived maxSheepSend isPathPayment;
          let res := if amount =? 0 then eOfferTaken else eOfferPartial in
          settleV10 ltx accountBID offerID res;;
          mret (res, numWheatReceived10 r, numSheepSend10 r, wheatStays10 r,
                offerTrail ++ [mkClaim accountBID offerID wheat (numWheatReceived10 r) sheep (numSheepSend10 r)]))))).

(** ** The book *)

Record Conversion := mkConversion {
  cv_maxSheepSend : Z; cv_sheepSend : Z; cv_maxWheatReceive : Z; cv_wheatReceived : Z; cv_trail : list ClaimOfferAtom }.

Section Convert.
Context (ltxOuter : nat) (sheep wheat : Asset) (isPathPayment : bool)
  (filter : option (LedgerEntry → M Ledger OfferFilterResult)) (maxOffersToCross : Z).

(** One round of the loop: the result if the function returns, whether the loop breaks, and the
    references. *)
Inductive Round := Return (r : ConvertResult) (c : Conversion) | Break | Again (c : Conversion).

Definition convertRound (c : Conversion) : M Ledger Round :=
  withTxn ltxOuter (λ ltx,
    wheatOffer ← loadBestOffer ltx sheep wheat;
    withEntry wheatOffer (λ wheatOffer,
      match wheatOffer with
      | None => mret Break
      | Some _ =>
        stop ← match filter with
               | Some f => e ← current wheatOffer; r ← f e; mret (match r with eStop => Some e | eKeep => None end)
               | None => mret None
               end;
        match stop with
        | Some e => mret (Return (eFilterStop e) c)
        | None =>
        if u64 maxOffersToCross <=? Z.of_nat (length (cv_trail c)) then mret (Return eCrossedTooMany c)
        else
          lh ← withHeader ltx headerCurrent;
          '(cor, numWheatReceived, numSheepSend, needMore, trail) ←
            (if 10 <=? ledgerVersion lh then
               '(cor, w, sh, wheatStays, trail) ←
                 crossOfferV10 ltx wheatOffer (cv_maxWheatReceive c) (cv_maxSheepSend c) isPathPayment (cv_trail c);
               mret (cor, w, sh, negb wheatStays, trail)
             else
               '(cor, w, sh, trail) ← crossOffer ltx wheatOffer (cv_maxWheatReceive c) (cv_maxSheepSend c) (cv_trail c);
               mret (cor, w, sh, true, trail));
          assert_ (0 <=? numSheepSend);;
          assert_ (numSheepSend <=? cv_maxSheepSend c);;
          assert_ (0 <=? numWheatReceived);;
          assert_ (numWheatReceived <=? cv_maxWheatReceive c);;
          if decide (cor = eOfferCantConvert)
          then mret (Return ePartial (mkConversion (cv_maxSheepSend c) (cv_sheepSend c) (cv_maxWheatReceive c) (cv_wheatReceived c) trail))
          else
            commit ltx;;
            let c := mkConversion (s64 (cv_maxSheepSend c - numSheepSend)) (s64 (cv_sheepSend c + numSheepSend))
                       (s64 (cv_maxWheatReceive c - numWheatReceived)) (s64 (cv_wheatReceived c + numWheatReceived)) trail in
            let needMore := needMore && ((0 <? cv_maxWheatReceive c) && (0 <? cv_maxSheepSend c)) in
            mret (if negb needMore then Return eOK c
                  else if decide (cor = eOfferPartial) then Return ePartial c
                  else Again c)
        end
      end)).

Fixpoint convertLoop (fuel : nat) (c : Conversion) : M Ledger (ConvertResult * Conversion) :=
  match fuel with
  | O => nofuel
  | S fuel =>
    r ← convertRound c;
    match r with
    | Return r c => mret (r, c)
    | Again c => convertLoop fuel c
    | Break =>
      lh ← withHeader ltxOuter headerCurrent;
      mret (if ledgerVersion lh <? 10 then eOK else ePartial, c)
    end
  end.

(** The result, [sheepSend], [wheatReceived] and the trail. *)
Definition convertWithOffers (fuel : nat) (maxSheepSend maxWheatReceive : Z)
    : M Ledger (ConvertResult * Z * Z * list ClaimOfferAtom) :=
  let c := mkConversion maxSheepSend 0 maxWheatReceive 0 [] in
  if (0 <? maxWheatReceive) && (0 <? maxSheepSend) then
    '(r, c) ← convertLoop fuel c;
    mret (r, cv_sheepSend c, cv_wheatReceived c, cv_trail c)
  else
    lh ← withHeader ltxOuter headerCurrent;
    mret (eOK, 0, 0, []).
End Convert.
End Crossing.
