(* ===== verification/CrossOffersSpec.v ===== *)
(** * The books balance

    What [convertWithOffers] does to a ledger of version 10 or later: the holdings change by what the
    claimed offers say and by nothing else, the claims add up to the announced amounts, these are
    within the limits, and the loop ends. *)
From stdpp Require Import base list gmap strings.
From Stdlib Require Import ZArith Lia.
From S2P Require Import Prelude UInt128 Numeric Exchange LedgerEntries Balances BalancesSpec LedgerTxn LedgerTxnSpec LedgerOffers LedgerLogic TrustLines CrossOffers.

Notation Entries := (gmap LedgerKey EntryData).

(** ** Holdings *)

Definition holding (D : Entries) (a : AccountID) (s : Asset) : option Z :=
  match s with
  | ASSET_TYPE_NATIVE => match D !! ACCOUNT a with Some (Account acc) => Some (acc_balance acc) | _ => None end
  | _ => match D !! TRUSTLINE a s with Some (TrustLine t) => Some (tl_balance t) | _ => None end
  end.

Definition isIssuer (a : AccountID) (s : Asset) : bool :=
  match getIssuer s with Some i => bool_decide (i = a) | None => false end.

(** [D'] is [D] with holdings changed by [f]; offers and data entries are the same. *)
Definition changed (D D' : Entries) (f : AccountID → Asset → Z) : Prop :=
  (∀ a s, holding D' a s = (λ b, b + f a s) <$> holding D a s) ∧
  (∀ k, isOfferKey k = true → D' !! k = D !! k) ∧ (∀ a n, D' !! DATA a n = D !! DATA a n).

(** [x] of [s] for the account [a]; the issuer of an asset does not hold it. *)
Definition pay (a : AccountID) (s : Asset) (x : Z) (a' : AccountID) (s' : Asset) : Z :=
  if decide (a' = a ∧ s' = s) then if isIssuer a s then 0 else x else 0.
Definition nothing (_ : AccountID) (_ : Asset) : Z := 0.
Lemma pay_0 a s a' s' : pay a s 0 a' s' = 0.
Proof. unfold pay. destruct (decide _); [|done]. by destruct (isIssuer a s). Qed.

Lemma option_shift_0 (o : option Z) : (λ b, b + 0) <$> o = o.
Proof. destruct o; simpl; [f_equal; lia|done]. Qed.

Lemma changed_refl D : changed D D nothing.
Proof. split_and!; [|done..]. intros a s. by rewrite option_shift_0. Qed.

Lemma changed_trans D D1 D2 f g h :
  changed D D1 f → changed D1 D2 g → (∀ a s, h a s = f a s + g a s) → changed D D2 h.
Proof.
  intros (H1 & H2 & H3) (G1 & G2 & G3) Hh. split_and!; [| |].
  - intros a s. rewrite G1, H1, Hh. destruct (holding D a s); simpl; [f_equal; lia|done].
  - intros k Hk. by rewrite G2, H2.
  - intros a n. by rewrite G3, H3.
Qed.

Lemma changed_ext D D' f g : changed D D' f → (∀ a s, f a s = g a s) → changed D D' g.
Proof. intros (H1 & H2 & H3) Hfg. split_and!; [|done..]. intros a s. by rewrite H1, Hfg. Qed.

(** The key under which [a] holds [s]. *)
Definition holderKey (a : AccountID) (s : Asset) : LedgerKey :=
  if isNative s then ACCOUNT a else TRUSTLINE a s.

Lemma holderKey_offer a s : isOfferKey (holderKey a s) = false.
Proof. unfold holderKey. by destruct (isNative s). Qed.

Lemma holding_key D a s :
  holding D a s = match D !! holderKey a s with
                  | Some (Account acc) => if isNative s then Some (acc_balance acc) else None
                  | Some (TrustLine t) => if isNative s then None else Some (tl_balance t)
                  | _ => None
                  end.
Proof. unfold holding, holderKey. destruct s; simpl; destruct (D !! _) as [[]|]; done. Qed.

(** A new balance of [b + x] under the key of a holder. *)
Lemma changed_insert D a s d d' x :
  D !! holderKey a s = Some d → dataKeyOf d = holderKey a s → dataKeyOf d' = holderKey a s →
  balanceOf (mkEntry 0 d') = balanceOf (mkEntry 0 d) + x → isIssuer a s = false ∨ x = 0 →
  changed D (<[holderKey a s := d']> D) (pay a s x).
Proof.
  intros Hd Hk Hk' Hb Hi. unfold changed. split_and!.
  - intros a' s'. unfold pay. rewrite !holding_key. destruct (decide (holderKey a' s' = holderKey a s)) as [E|Hne].
    + rewrite E, lookup_insert_eq, Hd.
      assert (a' = a ∧ s' = s) as [-> ->].
      { unfold holderKey in E. destruct s', s; simpl in E; try done; injection E; intros; subst; done. }
      rewrite decide_True by done. replace (if isIssuer a s then 0 else x) with x by (destruct Hi as [->| ->]; [done|by destruct (isIssuer a s)]).
      unfold dataKeyOf, LedgerEntryKey, balanceOf, holderKey in *. simpl in *.
      destruct (isNative s), d, d'; try done; simpl in *; f_equal; lia.
    + rewrite lookup_insert_ne by done.
      rewrite decide_False by (intros [-> ->]; done). by rewrite option_shift_0.
  - intros k Hko. rewrite lookup_insert_ne; [done|]. intros E. rewrite <- E in Hko. by rewrite holderKey_offer in Hko.
  - intros a' n. rewrite lookup_insert_ne; [done|]. unfold holderKey. by destruct (isNative s).
Qed.

(** Replacing or erasing an offer does not change holdings. *)
Lemma holding_offer D k (v : option EntryData) a s :
  isOfferKey k = true → holding (partial_alter (λ _, v) k D) a s = holding D a s.
Proof.
  intros Hk. rewrite !holding_key. rewrite lookup_partial_alter_ne; [done|]. intros E. rewrite E, holderKey_offer in Hk. done.
Qed.

(** ** Valid ledgers *)

Definition dataOk (h : LedgerHeader) (d : EntryData) : Prop :=
  match d with
  | Offer o => validPrice (oe_price o) ∧ is_i64 (oe_amount o)
  | _ => amountsOk h (mkEntry 0 d)
  end.
Definition Valid (h : LedgerHeader) (D : Entries) : Prop := ∀ k d, D !! k = Some d → dataKeyOf d = k ∧ dataOk h d.

Lemma Valid_insert h D k d : Valid h D → dataKeyOf d = k → dataOk h d → Valid h (<[k := d]> D).
Proof.
  intros HV Hk Hd k' d'. destruct (decide (k' = k)) as [->|Hne].
  - rewrite lookup_insert_eq. by intros [= <-].
  - rewrite lookup_insert_ne by done. apply HV.
Qed.
Lemma Valid_delete h D k : Valid h D → Valid h (delete k D).
Proof. intros HV k' d' [_ Hd]%lookup_delete_Some. by apply HV. Qed.

Lemma amountsOk_data h lm lm' d : amountsOk h (mkEntry lm d) ↔ amountsOk h (mkEntry lm' d).
Proof. done. Qed.

(** ** Entries of holders *)

(** The header of a ledger of version 10 or later, and a transaction on a valid ledger. *)
Definition modern (h : LedgerHeader) : Prop := headerOk h ∧ 10 <= ledgerVersion h.
Definition ready (V : View) : Prop := v_sealed V = false ∧ modern (v_header V) ∧ Valid (v_header V) (v_data V).

(** Only the entries differ, and they are valid. *)
Definition after (V : View) (vs : list View) (E : Entries → Prop) (vs' : list View) : Prop :=
  ∃ D', vs' = setData D' V :: vs ∧ Valid (v_header V) D' ∧ E D'.
(** The innermost transaction is still there. *)
Definition topped (V : View) (vs vs' : list View) : Prop := ∃ W, vs' = W :: vs ∧ v_id W = v_id V.

Lemma setData_same V : setData (v_data V) V = V.
Proof. by destruct V. Qed.
Lemma after_same V vs (E : Entries → Prop) : ready V → E (v_data V) → after V vs E (V :: vs).
Proof. intros (_ & _ & HV) HE. exists (v_data V). by rewrite setData_same. Qed.
Lemma after_topped V vs E vs' : after V vs E vs' → topped V vs vs'.
Proof. intros (D' & -> & _). by eexists. Qed.
Lemma topped_refl V vs : topped V vs (V :: vs).
Proof. by eexists. Qed.
Lemma ready_setData V D : ready V → Valid (v_header V) D → ready (setData D V).
Proof. by intros (? & ? & ?) ?. Qed.

(** How [a] holds [s]: through the account, through a trust line, as the issuer, or not at all. *)
Definition lineOf (V : View) (a : AccountID) (s : Asset) (acc : option Handle) (w : option TrustLineImpl) : Prop :=
  if isNative s then ∃ h, acc = Some h ∧ live MutableImpl h V = true ∧ h_key h = ACCOUNT a
  else match w with
  | None => True
  | Some (IssuerImpl _ _) => isIssuer a s = true
  | Some (NonIssuerImpl h) => ∃ h', h = Some h' ∧ live MutableImpl h' V = true ∧ h_key h' = TRUSTLINE a s ∧ isIssuer a s = false
  end.

Lemma live_setData kind h V D : live kind h (setData D V) = live kind h V.
Proof. done. Qed.
Lemma lineOf_setData V D a s acc w : lineOf V a s acc w → lineOf (setData D V) a s acc w.
Proof. done. Qed.

Lemma holder_entry h D a s lm d :
  Valid h D → D !! holderKey a s = Some d → holdsAsset (mkEntry lm d) = true ∧ amountsOk h (mkEntry lm d).
Proof.
  intros HV Hd. destruct (HV _ _ Hd) as [Hk Hok]. unfold dataKeyOf, LedgerEntryKey, holderKey in Hk. simpl in Hk.
  unfold holdsAsset. simpl. destruct d; try (by destruct (isNative s)); done.
Qed.

Lemma native_not_issued a s : isNative s = true → isIssuer a s = false.
Proof. by destruct s. Qed.

Lemma holderKey_native a s : isNative s = true → holderKey a s = ACCOUNT a.
Proof. unfold holderKey. by intros ->. Qed.
Lemma holderKey_credit a s : isNative s = false → holderKey a s = TRUSTLINE a s.
Proof. unfold holderKey. by intros ->. Qed.

Section Holder.
Context (V : View) (vs : list View) (header : LedgerTxnHeader) (a : AccountID) (s : Asset).
Context (HR : ready V) (Hh : hlive header V = true).

Lemma exec_underHeader {A} (f : LedgerHeader → M Ledger A) Q X :
  exec (V :: vs) (f (v_header V)) Q X → exec (V :: vs) (underHeader header f) Q X.
Proof. intros Hf. apply exec_bind, exec_headerCurrent; done. Qed.

Lemma exec_readEntry {A} (f : LedgerHeader → LedgerEntry → M Ledger A) h Q X :
  live MutableImpl h V = true →
  (∀ lm d, v_data V !! h_key h = Some d → exec (V :: vs) (f (v_header V) (mkEntry lm d)) Q X) →
  exec (V :: vs) (readEntry f header (Some h)) Q X.
Proof. intros Hl Hf. apply exec_underHeader, exec_bind, exec_current; [done|]. intros lm d Hd _. by apply Hf. Qed.

(** [addBalance] through the handle of a holder. *)
Lemma exec_addBalance h x (Q : bool → list View → Prop) X :
  live MutableImpl h V = true → h_key h = holderKey a s → isIssuer a s = false → - 2 ^ 63 <= x <= INT64_MAX →
  (∀ D', Valid (v_header V) D' → changed (v_data V) D' (pay a s x) → Q true (setData D' V :: vs)) →
  Q false (V :: vs) → exec (V :: vs) (entry_addBalance header (Some h) x) Q X.
Proof.
  intros Hl Hk Hi Hx HQ HQf. apply exec_underHeader, exec_onEntry; [done|]. intros lm d Hd Hkd. rewrite Hk in *.
  destruct HR as (_ & [HhO Hv] & HV). destruct (holder_entry _ _ _ _ lm _ HV Hd) as [He Hok].
  rewrite (addBalance_eq _ HhO) by done. destruct (Z.eqb_spec x 0) as [->|Hx0].
  - rewrite LedgerEntryKey_data. split; [done|]. cbn [data]. rewrite insert_id by done. apply HQ; [done|].
    eapply changed_ext; [apply changed_refl|]. intros a' s'. by rewrite pay_0.
  - destruct (mayMove (v_header V) x (mkEntry lm d)) eqn:Em.
    + destruct (withBalance_ok (v_header V) x _ He Hok Em) as [Hok' Hk']. rewrite LedgerEntryKey_data in Hk'.
      split; [by rewrite LedgerEntryKey_data, Hk'|]. rewrite LedgerEntryKey_data in Hk'. cbn [data] in Hk'. apply HQ.
      * apply Valid_insert; [done|by rewrite Hk'|]. revert Hok'. unfold withBalance. cbn [data]. by destruct d.
      * apply changed_insert with d; [done|done|by rewrite Hk'| |by left]. unfold withBalance, balanceOf. cbn [data]. destruct d; done.
    + rewrite LedgerEntryKey_data. split; [done|]. cbn [data]. rewrite insert_id by done. by rewrite setData_same.
Qed.

(** A change of the entry of a holder that keeps its balance. *)
Lemma exec_sameBalance {A} h (f : M LedgerEntry A) (Q : A → list View → Prop) (X : list View → Prop) :
  live MutableImpl h V = true → h_key h = holderKey a s →
  (∀ e, holdsAsset e = true → amountsOk (v_header V) e →
     match f e with
     | Ok _ e' | Throw _ e' => keepsAmounts (v_header V) e e' ∧ balanceOf e' = balanceOf e
     | Crash _ _ | NoFuel => False
     end) →
  (∀ x D', Valid (v_header V) D' → changed (v_data V) D' nothing → Q x (setData D' V :: vs)) →
  (∀ vs', topped V vs vs' → X vs') →
  exec (V :: vs) (onEntry (Some h) f) Q X.
Proof.
  intros Hl Hk Hf HQ HX. apply exec_onEntry; [done|]. intros lm d Hd Hkd. rewrite Hk in *.
  destruct HR as (_ & [HhO Hv] & HV). destruct (holder_entry _ _ _ _ lm _ HV Hd) as [He Hok]. specialize (Hf _ He Hok).
  assert (Hgo : ∀ e', keepsAmounts (v_header V) (mkEntry lm d) e' ∧ balanceOf e' = balanceOf (mkEntry lm d) →
    LedgerEntryKey e' = holderKey a s ∧ Valid (v_header V) (<[holderKey a s := data e']> (v_data V)) ∧
    changed (v_data V) (<[holderKey a s := data e']> (v_data V)) nothing).
  { intros [lm' d'] [[Hok' Hk'] Hb]. rewrite !LedgerEntryKey_data in *. cbn [data] in *. split; [congruence|].
    assert (Hholds : holdsAsset (mkEntry lm' d') = true).
    { rewrite Hkd in Hk'. unfold dataKeyOf, LedgerEntryKey, holderKey in Hk'. simpl in Hk'.
      unfold holdsAsset. simpl. destruct d'; try done; by destruct (isNative s). }
    split.
    - apply Valid_insert; [done|congruence|]. revert Hok' Hholds. by destruct d'.
    - eapply changed_ext; [apply changed_insert with d|]; [done|done|congruence| |by right|].
      + revert Hb. unfold balanceOf. cbn [data]. intros ->. lia.
      + intros a' s'. by rewrite pay_0. }
  destruct (f (mkEntry lm d)) as [x e'|w e'| |]; try done; destruct (Hgo e' Hf) as (? & ? & ?); (split; [done|]).
  - by apply HQ.
  - apply HX. by eexists.
Qed.

Lemma liabilities_same e x (f : LedgerHeader → Z → M LedgerEntry bool) :
  f = addBuyingLiabilities ∨ f = addSellingLiabilities →
  holdsAsset e = true → amountsOk (v_header V) e → - 2 ^ 63 <= x <= INT64_MAX →
  match f (v_header V) x e with
  | Ok _ e' | Throw _ e' => keepsAmounts (v_header V) e e' ∧ balanceOf e' = balanceOf e
  | Crash _ _ | NoFuel => False
  end.
Proof.
  intros Hf He Hok Hx. destruct HR as (_ & [HhO Hv] & _).
  destruct (amountsOk_iff _ HhO e He Hok) as (Hb & Hc & Hfl & Hl). specialize (Hl Hv).
  assert (Hbal : ∀ l, balanceOf (withLiabilities l e) = balanceOf e) by (intros l; unfold balanceOf, withLiabilities; destruct (data e) eqn:Ed; simpl; by rewrite ?Ed).
  destruct Hf as [->| ->].
  - rewrite (addBuyingLiabilities_eq _ HhO) by done. destruct (x =? 0); [done|].
    destruct (authorized e && _ && _) eqn:Em; [|done]. propify. split; [|done]. apply withLiabilities_ok; [done..|lia|lia|lia].
  - rewrite (addSellingLiabilities_eq _ HhO) by done. destruct (x =? 0); [done|].
    destruct (authorized e && _ && _) eqn:Em; [|done]. propify. split; [|done]. apply withLiabilities_ok; [done..|lia|lia|lia].
Qed.

Lemma addNumEntries_same e :
  holdsAsset e = true → amountsOk (v_header V) e →
  match addNumEntries (v_header V) (-1) e with
  | Ok _ e' | Throw _ e' => keepsAmounts (v_header V) e e' ∧ balanceOf e' = balanceOf e
  | Crash _ _ | NoFuel => False
  end.
Proof.
  intros He Hok. destruct HR as (_ & [HhO Hv] & _).
  pose proof (addNumEntries_safe (v_header V) HhO (-1) e Hok) as Hs.
  assert (Hop : amountOpOk (v_header V) (AddNumEntries (-1)) e).
  { unfold amountOpOk, amountsOk, subEntriesOk in *. split; [lia|]. destruct (data e); try done. lia. }
  specialize (Hs Hop). unfold runAmountOp, mbind, M_bind in Hs.
  assert (Hb : match addNumEntries (v_header V) (-1) e with Ok _ e' => balanceOf e' = balanceOf e | _ => True end).
  { unfold addNumEntries, account, unsignedToSigned32, mbind, M_bind, get, mret, M_ret, throw.
    destruct (data e) as [acc| | |] eqn:Ed; try done. destruct (_ <? acc_numSubEntries acc); [done|]. destruct (_ <? 0); [done|].
    destruct (_ && _ && _); [done|].
    destruct (10 <=? ledgerVersion (v_header V)); [rewrite getSellingLiabilities_eq by done|]; destruct (_ && _); try done.
    all: unfold modify, balanceOf, setAccount; simpl; by rewrite Ed. }
  destruct (addNumEntries (v_header V) (-1) e) as [r e'|why e'| |]; try done. simpl in Hs. by rewrite Hs.
Qed.

(** ** What can be sold and bought *)

Lemma exec_wrapper_bool acc w (Q : bool → list View → Prop) X :
  lineOf V a s acc w → isNative s = false → Q (match w with Some _ => true | None => false end) (V :: vs) → exec (V :: vs) (wrapper_bool w) Q X.
Proof.
  intros HL Hn HQ. unfold wrapper_bool. apply exec_get. intros s0 Hok Hv. apply exec_ret. unfold lineOf in HL. rewrite Hn in HL.
  destruct w as [[h|]|]; try done. destruct HL as (h' & -> & Hl & _). by rewrite (isActive_live _ _ _ _ _ Hok Hv), Hl.
Qed.

Lemma exec_wrapper_call {A} acc w (f : option Handle → M Ledger A) (issuer : A) (Q : A → list View → Prop) (X : list View → Prop) :
  lineOf V a s acc w → isNative s = false →
  match w with
  | None => X (V :: vs)
  | Some (IssuerImpl _ _) => Q issuer (V :: vs)
  | Some (NonIssuerImpl h) => exec (V :: vs) (f h) Q X
  end → exec (V :: vs) (wrapper_call w f issuer) Q X.
Proof.
  intros HL Hn HQ. unfold wrapper_call, wrapper_getImpl. apply exec_bind, exec_bind, (exec_wrapper_bool acc); [done|done|].
  destruct w as [[h|]|]; [apply exec_ret|apply exec_ret|apply exec_throw]; [done|by apply exec_ret|done].
Qed.

(** A pure reader of the entry behind a handle. *)
Lemma exec_reader {A} (f : LedgerHeader → LedgerEntry → M Ledger A) h Q (P : A → Prop) :
  live MutableImpl h V = true → h_key h = holderKey a s →
  (∀ e, holdsAsset e = true → amountsOk (v_header V) e → ∃ x, P x ∧ ∀ s, f (v_header V) e s = Ok x s) →
  (∀ x, P x → Q x (V :: vs)) → ∀ X, exec (V :: vs) (readEntry f header (Some h)) Q X.
Proof.
  intros Hl Hk Hf HQ X. apply exec_readEntry; [done|]. intros lm d Hd. rewrite Hk in Hd. destruct HR as (_ & _ & HV).
  destruct (holder_entry _ _ _ _ lm _ HV Hd) as [He Hok]. destruct (Hf _ He Hok) as (x & HP & E).
  eapply exec_pure; [exact E|by apply HQ].
Qed.

Lemma available_range e : holdsAsset e = true → amountsOk (v_header V) e →
  ∃ x, is_i64 (Z.max x 0) ∧ ∀ s0 : Ledger, getAvailableBalance (v_header V) e s0 = Ok x s0.
Proof.
  intros He Hok. destruct HR as (_ & [HhO Hv] & _). destruct (amountsOk_iff _ HhO e He Hok) as (Hb & Hc & Hfl & Hl). specialize (Hl Hv).
  eexists. split; [|intros s0; by apply getAvailableBalance_eq]. unfold is_i64. lia.
Qed.

Lemma room_range e : holdsAsset e = true → amountsOk (v_header V) e →
  ∃ x, is_i64 (Z.max x 0) ∧ ∀ s0 : Ledger, getMaxAmountReceive (v_header V) e s0 = Ok x s0.
Proof.
  intros He Hok. destruct HR as (_ & [HhO Hv] & _). destruct (amountsOk_iff _ HhO e He Hok) as (Hb & Hc & Hfl & Hl). specialize (Hl Hv).
  destruct (authorized e) eqn:Ha.
  - eexists. split; [|intros s0; by apply getMaxAmountReceive_eq]. unfold is_i64. lia.
  - exists 0. split; [done|]. intros s0. unfold authorized in Ha. unfold getMaxAmountReceive, isAuthorized, trustLine, mbind, M_bind.
    destruct (data e); try done. unfold mret, M_ret. by rewrite Ha.
Qed.

Lemma exec_canSell acc w (Q : Z → list View → Prop) X :
  lineOf V a s acc w → (∀ x, is_i64 x → Q x (V :: vs)) → exec (V :: vs) (canSellAtMost header acc s w) Q X.
Proof.
  intros HL HQ. unfold canSellAtMost. destruct (isNative s) eqn:Hn.
  - unfold lineOf in HL. rewrite Hn in HL. destruct HL as (h & -> & Hl & Hk).
    apply exec_bind, exec_reader with (P := λ x, is_i64 (Z.max x 0)); [done|by rewrite holderKey_native|exact available_range|].
    intros x Hx. apply exec_ret. by apply HQ.
  - apply exec_bind, (exec_wrapper_bool acc); [done|done|]. pose proof HL as HL'. unfold lineOf in HL'. rewrite Hn in HL'.
    destruct w as [[h|i j]|].
    + destruct HL' as (h' & -> & Hl & Hk & _). rewrite <- holderKey_credit in Hk by done.
      apply exec_bind. unfold wrapper_isAuthorized. apply (exec_wrapper_call acc); [done|done|]. apply exec_bind, exec_current; [done|].
      intros lm d Hd Hkd. rewrite Hk in Hd, Hkd. unfold dataKeyOf, LedgerEntryKey, holderKey in Hkd. rewrite Hn in Hkd.
      unfold isAuthorized, trustLine. destruct d as [|t| |]; try done. eapply exec_pure; [done|].
      destruct (negb _); [|apply exec_ret, HQ; by unfold is_i64, INT64_MAX].
      apply exec_bind. unfold wrapper_getAvailableBalance. apply (exec_wrapper_call acc); [done|done|].
      apply exec_reader with (P := λ x, is_i64 (Z.max x 0)); [done|done|exact available_range|].
      intros x Hx. apply exec_ret. by apply HQ.
    + apply exec_bind. unfold wrapper_isAuthorized. apply (exec_wrapper_call acc); [done|done|].
      apply exec_bind. unfold wrapper_getAvailableBalance. apply (exec_wrapper_call acc); [done|done|].
      apply exec_ret, HQ. by unfold is_i64, INT64_MAX.
    + apply exec_bind, exec_ret, exec_ret, HQ. by unfold is_i64, INT64_MAX.
Qed.

Lemma exec_canBuy acc w (Q : Z → list View → Prop) X :
  lineOf V a s acc w → (∀ x, is_i64 x → Q x (V :: vs)) → exec (V :: vs) (canBuyAtMost header acc s w) Q X.
Proof.
  intros HL HQ. unfold canBuyAtMost. destruct (isNative s) eqn:Hn.
  - unfold lineOf in HL. rewrite Hn in HL. destruct HL as (h & -> & Hl & Hk).
    apply exec_bind, exec_reader with (P := λ x, is_i64 (Z.max x 0)); [done|by rewrite holderKey_native|exact room_range|].
    intros x Hx. apply exec_ret. by apply HQ.
  - apply exec_bind, (exec_wrapper_bool acc); [done|done|]. pose proof HL as HL'. unfold lineOf in HL'. rewrite Hn in HL'.
    destruct w as [[h|i j]|].
    + destruct HL' as (h' & -> & Hl & Hk & _). rewrite <- holderKey_credit in Hk by done.
      apply exec_bind. unfold wrapper_getMaxAmountReceive. apply (exec_wrapper_call acc); [done|done|].
      apply exec_reader with (P := λ x, is_i64 (Z.max x 0)); [done|done|exact room_range|].
      intros x Hx. apply exec_ret. by apply HQ.
    + apply exec_bind. unfold wrapper_getMaxAmountReceive. apply (exec_wrapper_call acc); [done|done|].
      apply exec_ret, HQ. by unfold is_i64, INT64_MAX.
    + apply exec_ret, HQ. by unfold is_i64, INT64_MAX.
Qed.

(** ** Moving a balance *)
Lemma exec_moveBalance acc w x error (Q : unit → list View → Prop) (X : list View → Prop) :
  lineOf V a s acc w → - 2 ^ 63 <= x <= INT64_MAX →
  (∀ D', Valid (v_header V) D' → changed (v_data V) D' (pay a s x) → Q tt (setData D' V :: vs)) →
  X (V :: vs) → exec (V :: vs) (moveBalance header acc s w x error) Q X.
Proof.
  intros HL Hx HQ HX. unfold moveBalance. apply exec_bind. pose proof HL as HL'. unfold lineOf in HL'.
  destruct (isNative s) eqn:Hn.
  - destruct HL' as (h & -> & Hl & Hk). apply exec_addBalance; [done|by rewrite holderKey_native|by apply native_not_issued|done| |].
    + intros D' HV' Hc. apply exec_ret. by apply HQ.
    + by apply exec_throw.
  - unfold wrapper_addBalance. apply (exec_wrapper_call acc); [done|done|]. destruct w as [[h|i j]|]; [| |done].
    + destruct HL' as (h' & -> & Hl & Hk & Hi). rewrite <- holderKey_credit in Hk by done.
      apply exec_addBalance; [done|done|done|done| |].
      * intros D' HV' Hc. apply exec_ret. by apply HQ.
      * by apply exec_throw.
    + apply exec_ret. rewrite <- (setData_same V). apply HQ; [apply HR|].
      eapply changed_ext; [apply changed_refl|]. intros a' s'. unfold pay, nothing. rewrite HL'. by destruct (decide _).
Qed.
End Holder.

(** ** Local handles *)

(** The transaction when the destructor has run. *)
Definition closeEntry (h : option Handle) (W : View) : View :=
  match h with Some h => if live MutableImpl h W then setAct (delete (h_key h) (v_act W)) W else W | None => W end.
Definition closeWrapper (w : option TrustLineImpl) (W : View) : View :=
  match w with Some (NonIssuerImpl h) => closeEntry h W | _ => W end.

Lemma closeEntry_id h W : v_id (closeEntry h W) = v_id W.
Proof. unfold closeEntry. destruct h as [h|]; [|done]. by destruct (live _ _ _). Qed.
Lemma closeWrapper_id w W : v_id (closeWrapper w W) = v_id W.
Proof. unfold closeWrapper. destruct w as [[h|]|]; [|done..]. apply closeEntry_id. Qed.

(** Closing what was opened. *)
Lemma closeEntry_opened V k n D :
  v_act V !! k = None →
  closeEntry (Some (mkHandle (v_id V) k n)) (setData D (setAct (<[k := MutableImpl n]> (v_act V)) V)) = setData D V.
Proof.
  intros Ha. unfold closeEntry.
  assert (live MutableImpl (mkHandle (v_id V) k n) (setData D (setAct (<[k := MutableImpl n]> (v_act V)) V)) = true) as ->.
  { apply live_true. cbn [h_txn h_key h_impl setData setAct v_id v_act]. by rewrite lookup_insert_eq. }
  unfold setAct, setData. cbn [h_key v_id v_data v_header v_act v_hact v_sealed]. by rewrite delete_insert_id.
Qed.

Lemma closeEntry_idle h W : v_act W = ∅ → closeEntry h W = W.
Proof.
  intros Ha. unfold closeEntry. destruct h as [h|]; [|done]. unfold live. rewrite Ha, lookup_empty.
  by rewrite andb_false_r.
Qed.
Lemma closeWrapper_idle w W : v_act W = ∅ → closeWrapper w W = W.
Proof. intros Ha. unfold closeWrapper. destruct w as [[h|]|]; [|done..]. by apply closeEntry_idle. Qed.

Section Local.
Context {A : Type} (V : View) (vs : list View).

Lemma exec_withEntry h (body : option Handle → M Ledger A) (Q : A → list View → Prop) (X : list View → Prop) :
  exec (V :: vs) (body h) (λ a vs', ∃ W, vs' = W :: vs ∧ Q a (closeEntry h W :: vs)) (topped V vs) →
  (∀ vs', topped V vs vs' → X vs') → exec (V :: vs) (withEntry h body) Q X.
Proof.
  intros Hb HX. apply exec_scoped. eapply exec_mono; [exact Hb|..].
  - intros a vs' (W & -> & HQ). apply exec_destroyEntry. by destruct h.
  - intros vs' (W & -> & Hid). apply exec_destroyEntry.
    destruct h; apply HX; eexists; (split; [done|]); [by destruct (live _ _ _)|done].
Qed.

Lemma exec_withWrapper w (body : option TrustLineImpl → M Ledger A) (Q : A → list View → Prop) (X : list View → Prop) :
  exec (V :: vs) (body w) (λ a vs', ∃ W, vs' = W :: vs ∧ Q a (closeWrapper w W :: vs)) (topped V vs) →
  (∀ vs', topped V vs vs' → X vs') → exec (V :: vs) (withWrapper w body) Q X.
Proof.
  intros Hb HX. apply exec_scoped. eapply exec_mono; [exact Hb|..].
  - intros a vs' (W & -> & HQ). unfold destroyWrapper. destruct w as [[h|]|]; [|by apply exec_ret..].
    apply exec_destroyEntry. by destruct h.
  - intros vs' (W & -> & Hid). unfold destroyWrapper. destruct w as [[h|]|]; [|apply exec_ret, HX; by eexists..].
    apply exec_destroyEntry. destruct h; apply HX; eexists; (split; [done|]); [by destruct (live _ _ _)|done].
Qed.

Lemma exec_headerScope (body : LedgerTxnHeader → M Ledger A) (Q : A → list View → Prop) (X : list View → Prop) :
  v_sealed V = false → v_hact V = None →
  (∀ n, exec (setHact (Some n) V :: vs) (body (v_id V, n))
     (λ a vs', ∃ W, vs' = W :: vs ∧ Q a ((if hlive (v_id V, n) W then setHact None W else W) :: vs)) (topped V vs)) →
  (∀ vs', topped V vs vs' → X vs') → exec (V :: vs) (withHeader (v_id V) body) Q X.
Proof.
  intros Hs Hh Hb HX. apply exec_withHeader; [done..|]. intros n. eapply exec_mono; [apply Hb|..].
  - intros a vs' (W & -> & HQ). done.
  - intros vs' (W & -> & Hid). apply HX. eexists. split; [done|]. by destruct (hlive _ _).
Qed.
End Local.

(** ** Loading *)

Section Loading.
Context (V : View) (vs : list View) (a : AccountID) (s : Asset).
Context (HR : ready V).

Lemma live_opened k n : live MutableImpl (mkHandle (v_id V) k n) (setAct (<[k := MutableImpl n]> (v_act V)) V) = true.
Proof. apply live_true. cbn [h_txn h_key h_impl setAct v_id v_act]. by rewrite lookup_insert_eq. Qed.

Lemma exec_newTrustLineWrapper (Q : option TrustLineImpl → list View → Prop) X :
  isNative s = false → v_act V !! TRUSTLINE a s = None →
  (isIssuer a s = true → Q (Some (IssuerImpl a s)) (V :: vs)) →
  (isIssuer a s = false → Q None (V :: vs)) →
  (∀ n, isIssuer a s = false →
     Q (Some (NonIssuerImpl (Some (mkHandle (v_id V) (TRUSTLINE a s) n))))
       (setAct (<[TRUSTLINE a s := MutableImpl n]> (v_act V)) V :: vs)) →
  exec (V :: vs) (newTrustLineWrapper (v_id V) a s) Q X.
Proof.
  intros Hn Ha HI HN HH. unfold newTrustLineWrapper. rewrite Hn. unfold isIssuer in *.
  destruct (getIssuer s) as [i|] eqn:Ei; [|by destruct s]. destruct (decide (i = a)) as [->|Hne].
  - apply exec_ret, HI. by apply bool_decide_eq_true.
  - assert (Hf : bool_decide (i = a) = false) by (by apply bool_decide_eq_false).
    apply exec_bind, exec_load; [apply HR|done|]. destruct (v_data V !! TRUSTLINE a s).
    + intros n. apply exec_get. intros s0 Hok Hv. apply exec_ret. rewrite (isActive_live _ _ _ _ _ Hok Hv), live_opened. by apply HH.
    + apply exec_get. intros s0 Hok Hv. by apply exec_ret, HN.
Qed.

(** ** Liabilities *)

Lemma exec_changeLiabilities header (f : LedgerHeader → Z → M LedgerEntry bool) x error (Q : unit → list View → Prop) (X : list View → Prop) :
  hlive header V = true → v_act V !! holderKey a s = None →
  f = addBuyingLiabilities ∨ f = addSellingLiabilities → - 2 ^ 63 <= x <= INT64_MAX →
  (∀ D', Valid (v_header V) D' → changed (v_data V) D' nothing → Q tt (setData D' V :: vs)) →
  (∀ vs', topped V vs vs' → X vs') →
  exec (V :: vs) (changeLiabilities (v_id V) a s
    (λ h, underHeader header (λ lh, onEntry h (f lh x)))
    (λ w, wrapper_call w (λ h, underHeader header (λ lh, onEntry h (f lh x))) true) error) Q X.
Proof.
  intros Hh Ha Hf Hx HQ HX. unfold changeLiabilities.
  assert (Hop : ∀ n, let h := mkHandle (v_id V) (holderKey a s) n in
    exec (setAct (<[holderKey a s := MutableImpl n]> (v_act V)) V :: vs)
      (underHeader header (λ lh, onEntry (Some h) (f lh x)))
      (λ (ok : bool) vs', exec vs' (if ok then mret tt else throw error)
         (λ y vs'', ∃ W, vs'' = W :: vs ∧ Q y (closeEntry (Some h) W :: vs)) (topped V vs)) (topped V vs)).
  { intros n h. set (V1 := setAct _ V). apply exec_underHeader; [done|].
    apply (exec_sameBalance V1 vs a s); [done|apply live_opened|done| | |].
    - intros e He Hok. by apply liabilities_same.
    - intros ok D' HV' Hc. destruct ok; [apply exec_ret|apply exec_throw; by eexists]. eexists. split; [done|].
      unfold V1, h. rewrite closeEntry_opened by done. by apply HQ.
    - intros vs' (W & -> & ?). by eexists. }
  destruct (isNative s) eqn:Hn.
  - unfold loadAccountAndValidate, loadAccount, accountKey. rewrite (holderKey_native a s Hn) in Ha, Hop.
    apply exec_bind, exec_bind, exec_load; [apply HR|done|]. destruct (v_data V !! ACCOUNT a).
    + intros n. apply exec_get. intros s0 Hok Hv. rewrite (isActive_live _ _ _ _ _ Hok Hv), live_opened. apply exec_ret.
      apply exec_withEntry; [|intros vs' (W & -> & ?); apply HX; by eexists].
      apply exec_bind. eapply exec_mono; [apply Hop|done|]. intros vs' (W & -> & ?). by eexists.
    + apply exec_get. intros s0 _ _. apply exec_throw, HX. by eexists.
  - unfold loadTrustAndValidate, loadTrustLine. rewrite (holderKey_credit a s Hn) in Ha, Hop.
    apply exec_bind, exec_bind, exec_newTrustLineWrapper; [done|done|..].
    + intros Hi. apply exec_bind, (exec_wrapper_bool V vs a s None); [unfold lineOf; by rewrite Hn|done|]. apply exec_ret.
      apply exec_withWrapper; [|intros vs' (W & -> & ?); apply HX; by eexists].
      apply exec_bind, (exec_wrapper_call V vs a s None); [unfold lineOf; by rewrite Hn|done|]. apply exec_ret.
      eexists. split; [done|]. simpl. rewrite <- (setData_same V). apply HQ; [apply HR|apply changed_refl].
    + intros _. apply exec_bind, (exec_wrapper_bool V vs a s None); [unfold lineOf; by rewrite Hn|done|]. apply exec_throw, HX. by eexists.
    + intros n Hi. set (w := Some (NonIssuerImpl _)). set (V1 := setAct _ V).
      assert (HL : lineOf V1 a s None w) by (unfold lineOf; rewrite Hn; eexists; split_and!; [done|apply live_opened|done|done]).
      apply exec_bind, (exec_wrapper_bool V1 vs a s None); [done|done|]. apply exec_ret.
      apply exec_withWrapper; [|intros vs' (W & -> & ?); apply HX; by eexists].
      apply exec_bind, (exec_wrapper_call V1 vs a s None); [done|done|].
      eapply exec_mono; [apply Hop|done|]. intros vs' (W & -> & ?). by eexists.
Qed.
End Loading.

(** ** The offer behind a handle *)

Lemma oe_setAmount_twice x y o : oe_setAmount x (oe_setAmount y o) = oe_setAmount x o.
Proof. done. Qed.

Lemma offerLiabilities_range h lm o :
  modern h → validPrice (oe_price o) → is_i64 (oe_amount o) →
  ∃ b c, 0 <= b <= INT64_MAX ∧ 0 <= c <= INT64_MAX ∧
    (∀ s : Ledger, getOfferBuyingLiabilities h (mkEntry lm (Offer o)) s = Ok b s) ∧
    (∀ s : Ledger, getOfferSellingLiabilities h (mkEntry lm (Offer o)) s = Ok c s).
Proof.
  intros [_ Hv] Hp Ha. assert (HM : is_i64 INT64_MAX) by (by unfold is_i64, INT64_MAX).
  pose proof (exchangeAmounts_limits (oe_price o) (oe_amount o) INT64_MAX INT64_MAX INT64_MAX false Hp) as Hl.
  assert (HL : validLimits (oe_amount o) INT64_MAX INT64_MAX INT64_MAX) by done.
  unfold is_i64 in Ha, HM. destruct Hl as [Hw Hs]; [lia..|].
  eexists _, _. split; [|split; [|split; intros s; unfold getOfferBuyingLiabilities, getOfferSellingLiabilities;
    rewrite (proj2 (Z.ltb_ge _ _)) by done; unfold offer, mbind, M_bind; simpl; unfold mret, M_ret;
    rewrite exchangeV10Without_spec by (exact Hp || exact HL); reflexivity]].
  - destruct Hs as [Hs1 Hs2]. split; [exact Hs1|]. etrans; [exact Hs2|]. lia.
  - destruct Hw as [Hw1 Hw2]. split; [exact Hw1|]. etrans; [exact Hw2|]. lia.
Qed.

Section OfferHandle.
Context (V : View) (vs : list View) (header : LedgerTxnHeader) (h : Handle) (o : OfferEntry).
Context (HR : ready V) (Hh : hlive header V = true) (Hl : live MutableImpl h V = true).
Context (Hd : v_data V !! h_key h = Some (Offer o)).

Lemma offer_valid : validPrice (oe_price o) ∧ is_i64 (oe_amount o) ∧ h_key h = OFFER (oe_sellerID o) (oe_offerID o).
Proof. destruct HR as (_ & _ & HV). destruct (HV _ _ Hd) as [Hk [? ?]]. done. Qed.

Lemma exec_currentOffer (Q : OfferEntry → list View → Prop) X : Q o (V :: vs) → exec (V :: vs) (currentOffer (Some h)) Q X.
Proof.
  intros HQ. apply exec_bind, exec_current; [done|]. intros lm d Hd' _. rewrite Hd in Hd'. injection Hd' as <-.
  by eapply exec_pure.
Qed.

Lemma exec_setAmount x (Q : unit → list View → Prop) X :
  Q tt (setData (<[h_key h := Offer (oe_setAmount x o)]> (v_data V)) V :: vs) → exec (V :: vs) (setAmount (Some h) x) Q X.
Proof.
  intros HQ. apply exec_bind, exec_current; [done|]. intros lm d Hd' _. rewrite Hd in Hd'. injection Hd' as <-.
  apply exec_bind. eapply exec_pure; [done|]. apply exec_setCurrent; [done| |done]. destruct offer_valid as (_ & _ & ->). done.
Qed.

Lemma Valid_setAmount x : is_i64 x → Valid (v_header V) (<[h_key h := Offer (oe_setAmount x o)]> (v_data V)).
Proof.
  intros Hx. destruct offer_valid as (Hp & _ & Hk). apply Valid_insert; [apply HR|by rewrite Hk|]. done.
Qed.

Lemma exec_adjustOffer acc wheat wheatLine sheep sheepLine (Q : unit → list View → Prop) X :
  lineOf V (oe_sellerID o) wheat acc wheatLine → lineOf V (oe_sellerID o) sheep acc sheepLine →
  (∀ x, 0 <= x <= oe_amount o → Q tt (setData (<[h_key h := Offer (oe_setAmount x o)]> (v_data V)) V :: vs)) →
  exec (V :: vs) (entry_adjustOffer header (Some h) acc wheat wheatLine sheep sheepLine) Q X.
Proof.
  intros HLw HLs HQ. destruct offer_valid as (Hp & Ha & _). unfold entry_adjustOffer.
  apply exec_bind, exec_currentOffer. apply exec_bind. eapply exec_canSell; [done..|]. intros x Hx.
  apply exec_bind. eapply exec_canBuy; [done..|]. intros y Hy. apply exec_bind.
  assert (Hm : is_i64 (Z.min (oe_amount o) x)) by (unfold is_i64 in *; lia).
  eapply exec_pure; [intros s; by apply adjustOffer_spec|]. apply exec_setAmount, HQ.
  pose proof (adjusted_range (oe_price o) _ y Hp Hm Hy). lia.
Qed.

(** Acquiring or releasing the liabilities of an offer moves nothing. *)
Lemma exec_liabilities b (Q : unit → list View → Prop) (X : list View → Prop) :
  v_act V !! holderKey (oe_sellerID o) (oe_buying o) = None → v_act V !! holderKey (oe_sellerID o) (oe_selling o) = None →
  (∀ D', oe_buying o ≠ oe_selling o → Valid (v_header V) D' → changed (v_data V) D' nothing → Q tt (setData D' V :: vs)) →
  (∀ vs', topped V vs vs' → X vs') →
  exec (V :: vs) (acquireOrReleaseLiabilities (v_id V) header (Some h) b) Q X.
Proof.
  intros Hab Has HQ HX. destruct offer_valid as (Hp & Ha & Hk). pose proof HR as (_ & Hm & _). unfold acquireOrReleaseLiabilities.
  assert (Hsign : ∀ x, 0 <= x <= INT64_MAX → - 2 ^ 63 <= (if b then x else - x) <= INT64_MAX)
    by (intros x Hx; unfold INT64_MAX in *; destruct b; lia).
  apply exec_bind, exec_current; [done|]. intros lm d Hd' _. rewrite Hd in Hd'. injection Hd' as <-.
  apply exec_bind. eapply exec_pure; [done|]. destruct (decide (oe_buying o = oe_selling o)) as [|Hne]; [apply exec_throw, HX; by eexists|].
  apply exec_bind, exec_headerCurrent; [done|].
  destruct (offerLiabilities_range (v_header V) lm o Hm Hp Ha) as (x & _ & Hx & _ & Ex & _).
  apply exec_bind. eapply exec_pure; [exact Ex|]. apply exec_bind.
  apply (exec_changeLiabilities V vs (oe_sellerID o) (oe_buying o) HR header addBuyingLiabilities); [done|done|by left|by apply Hsign| |done].
  intros D1 HV1 Hc1. set (V1 := setData D1 V). pose proof (ready_setData V D1 HR HV1) as HR1.
  assert (Hd1 : v_data V1 !! h_key h = Some (Offer o)).
  { destruct Hc1 as (_ & Ho & _). unfold V1. cbn [v_data setData]. rewrite Ho; [done|]. by rewrite Hk. }
  apply exec_bind, exec_headerCurrent; [done|]. apply exec_bind, exec_current; [done|].
  intros lm' d' Hd' _. rewrite Hd1 in Hd'. injection Hd' as <-.
  destruct (offerLiabilities_range (v_header V) lm' o Hm Hp Ha) as (_ & y & _ & Hy & _ & Ey).
  apply exec_bind. eapply exec_pure; [exact Ey|].
  apply (exec_changeLiabilities V1 vs (oe_sellerID o) (oe_selling o) HR1 header addSellingLiabilities); [done|done|by right|by apply Hsign| |].
  - intros D2 HV2 Hc2. apply HQ; [done..|]. by apply (changed_trans _ D1 _ nothing nothing).
  - intros vs' (W & -> & ?). apply HX. by eexists.
Qed.
End OfferHandle.

(** ** One offer *)

(** [D'] is [D] with holdings changed by [f]; of the offers only the one under [k] differs. *)
Definition traded (D D' : Entries) (k : LedgerKey) (f : AccountID → Asset → Z) : Prop :=
  (∀ a s, holding D' a s = (λ b, b + f a s) <$> holding D a s) ∧
  (∀ k', isOfferKey k' = true → k' ≠ k → D' !! k' = D !! k') ∧ (∀ a n, D' !! DATA a n = D !! DATA a n).

Lemma changed_traded D D' k f : changed D D' f → traded D D' k f.
Proof. intros (H1 & H2 & H3). split_and!; auto. Qed.

Lemma traded_trans D D1 D2 k f g h :
  traded D D1 k f → traded D1 D2 k g → (∀ a s, h a s = f a s + g a s) → traded D D2 k h.
Proof.
  intros (H1 & H2 & H3) (G1 & G2 & G3) Hh. split_and!.
  - intros a s. rewrite G1, H1, Hh. destruct (holding D a s); simpl; [f_equal; lia|done].
  - intros k' Hk Hne. by rewrite G2, H2.
  - intros a n. by rewrite G3, H3.
Qed.

Lemma traded_ext D D' k f g : traded D D' k f → (∀ a s, f a s = g a s) → traded D D' k g.
Proof. intros (H1 & H2 & H3) Hfg. split_and!; [|done..]. intros a s. by rewrite H1, Hfg. Qed.

Lemma traded_offer D k (v : option EntryData) : isOfferKey k = true → traded D (partial_alter (λ _, v) k D) k nothing.
Proof.
  intros Hk. split_and!.
  - intros a s. by rewrite option_shift_0, holding_offer.
  - intros k' _ Hne. by rewrite lookup_partial_alter_ne.
  - intros a n. rewrite lookup_partial_alter_ne; [done|]. by intros ->.
Qed.

Lemma traded_setAmount D k d : isOfferKey k = true → traded D (<[k := d]> D) k nothing.
Proof. apply (traded_offer D k (Some d)). Qed.
Lemma traded_erase D k : isOfferKey k = true → traded D (delete k D) k nothing.
Proof. apply (traded_offer D k None). Qed.

(** The account that holds the native asset is there before and after. *)
Lemma changed_account h D D' a f :
  Valid h D → changed D D' f → is_Some (D !! ACCOUNT a) → is_Some (D' !! ACCOUNT a).
Proof.
  intros HV (Hh & _) [d Hd]. specialize (Hh a ASSET_TYPE_NATIVE). unfold holding in Hh. rewrite Hd in Hh.
  destruct (HV _ _ Hd) as [Hk _]. destruct d; try done. simpl in Hh. by destruct (D' !! ACCOUNT a).
Qed.

(** ** The lines of the seller *)

Lemma lineOf_act V a s acc w act :
  lineOf V a s acc w → act !! holderKey a s = v_act V !! holderKey a s → lineOf (setAct act V) a s acc w.
Proof.
  unfold lineOf, holderKey, live. destruct (isNative s).
  - intros (h & -> & Hl & Hk) Ha. exists h. split_and!; [done| |done]. rewrite Hk in *. by rewrite <- Ha in Hl.
  - destruct w as [[h|]|]; [|done..]. intros (h' & -> & Hl & Hk & Hi) Ha. exists h'. split_and!; [done| |done|done].
    rewrite Hk in *. by rewrite <- Ha in Hl.
Qed.

Lemma exec_loadLine V vs a s acc (Q : option TrustLineImpl → list View → Prop) X :
  ready V → (isNative s = true → lineOf V a s acc None) → (isNative s = false → v_act V !! TRUSTLINE a s = None) →
  (∀ w act, (∀ k, k ≠ TRUSTLINE a s → act !! k = v_act V !! k) → lineOf (setAct act V) a s acc w → Q w (setAct act V :: vs)) →
  exec (V :: vs) (loadTrustLineIfNotNative (v_id V) a s) Q X.
Proof.
  intros HR Hnat Ha HQ. assert (Hsame : setAct (v_act V) V = V) by (by destruct V).
  unfold loadTrustLineIfNotNative. destruct (isNative s) eqn:Hn.
  - apply exec_ret. rewrite <- Hsame. apply HQ; [done|]. rewrite Hsame. by apply Hnat.
  - apply exec_newTrustLineWrapper; [done|done|by apply Ha|..].
    + intros Hi. rewrite <- Hsame at 1. apply HQ; [done|]. unfold lineOf. by rewrite Hn.
    + intros _. rewrite <- Hsame at 1. apply HQ; [done|]. unfold lineOf. by rewrite Hn.
    + intros n Hi. apply HQ; [intros k Hk; by rewrite lookup_insert_ne|]. unfold lineOf. rewrite Hn.
      eexists. split_and!; [done|apply live_opened|done|done].
Qed.

(** ** The exchange *)

Lemma exchangeV10_range p mws mwr mss msr path (vs : list View) (Q : ExchangeResultV10 → list View → Prop) (X : list View → Prop) :
  validPrice p → validLimits mws mwr mss msr →
  (∀ r, 0 <= numWheatReceived10 r <= Z.min mwr mws →
     0 <= numSheepSend10 r <= Z.min msr mss ∧ (numWheatReceived10 r = 0 → numSheepSend10 r = 0) → Q r vs) → X vs →
  exec vs (exchangeV10 p mws mwr mss msr path) Q X.
Proof.
  intros Hp HL HQ HX s Hok <-. pose proof (exchangeV10_spec p mws mwr mss msr path s Hp HL) as E.
  destruct HL as (H1 & H2 & H3 & H4). unfold is_i64 in *.
  pose proof (exchangeAmounts_limits p mws mwr mss msr path Hp) as Hl. cbv zeta in E. unfold withinLimits in Hl.
  destruct (exchangeAmounts p _ _ path) as [w h]. destruct Hl as [Hw Hs]; [lia..|]. cbn [fst snd] in Hw, Hs. rewrite E.
  destruct (_ && _) eqn:Epos; [destruct (_ || _); [|destruct path]|]; (split; [done|]); try done; apply HQ; simpl; try done; lia.
Qed.

Section Trade.
Context (V : View) (vs : list View) (header : LedgerTxnHeader) (h : Handle) (o : OfferEntry).
Context (acc : option Handle) (wheatLine sheepLine : option TrustLineImpl).
Context (HR : ready V) (Hh : hlive header V = true) (Hl : live MutableImpl h V = true).
Context (Hd : v_data V !! h_key h = Some (Offer o)).
Context (HLw : lineOf V (oe_sellerID o) (oe_selling o) acc wheatLine).
Context (HLs : lineOf V (oe_sellerID o) (oe_buying o) acc sheepLine).

(** Where the exchange stands: the holdings have changed by [f], the offer has the amount [x]. *)
Definition standing (D : Entries) (f : AccountID → Asset → Z) (x : Z) : Prop :=
  Valid (v_header V) D ∧ traded (v_data V) D (h_key h) f ∧ D !! h_key h = Some (Offer (oe_setAmount x o)).

Lemma offer_key : isOfferKey (h_key h) = true.
Proof. destruct (offer_valid V h o HR Hd) as (_ & _ & ->). done. Qed.

Lemma standing_amount D f x y : standing D f x → is_i64 y → standing (<[h_key h := Offer (oe_setAmount y o)]> D) f y.
Proof.
  intros (HV & Ht & Hx) Hy. destruct (offer_valid V h o HR Hd) as (Hp & _ & Hk). split_and!.
  - apply Valid_insert; [done|by rewrite Hk|done].
  - eapply traded_trans; [exact Ht|by apply traded_setAmount, offer_key|]. intros a s. unfold nothing. lia.
  - by rewrite lookup_insert_eq.
Qed.

Lemma exec_optionalMove D f x asset line delta error (Q : unit → list View → Prop) (X : list View → Prop) :
  standing D f x → lineOf V (oe_sellerID o) asset acc line → - 2 ^ 63 <= delta <= INT64_MAX →
  (∀ D', standing D' (λ a s, f a s + pay (oe_sellerID o) asset delta a s) x → Q tt (setData D' V :: vs)) →
  (∀ vs', topped V vs vs' → X vs') →
  exec (setData D V :: vs) (if negb (delta =? 0) then moveBalance header acc asset line delta error else mret tt) Q X.
Proof.
  intros (HV & Ht & Hx) HL Hdelta HQ HX. destruct (Z.eqb_spec delta 0) as [->|Hne]; simpl.
  - apply exec_ret, HQ. split_and!; [done| |done]. eapply traded_ext; [exact Ht|]. intros a s. rewrite pay_0. lia.
  - apply (exec_moveBalance (setData D V) vs header (oe_sellerID o) asset); [by apply ready_setData|done|done|done| |apply HX; by eexists].
    intros D' HV' Hc. apply HQ. split_and!; [done| |].
    + eapply traded_trans; [exact Ht|by apply changed_traded|done].
    + destruct Hc as (_ & Hc & _). rewrite Hc by apply offer_key. done.
Qed.

Lemma exec_adjustStanding D f x wheat sheep wl sl (Q : unit → list View → Prop) X :
  standing D f x → lineOf V (oe_sellerID o) wheat acc wl → lineOf V (oe_sellerID o) sheep acc sl →
  (∀ D' y, 0 <= y <= x → standing D' f y → Q tt (setData D' V :: vs)) →
  exec (setData D V :: vs) (entry_adjustOffer header (Some h) acc wheat wl sheep sl) Q X.
Proof.
  intros Hst HLw' HLs' HQ. pose proof Hst as (HV & Ht & Hx).
  apply (exec_adjustOffer (setData D V) vs header h (oe_setAmount x o)); [by apply ready_setData|done|done|done|done|done|].
  intros y Hy. rewrite oe_setAmount_twice. apply (HQ _ y); [done|]. apply standing_amount with x; [done|].
  destruct (HV _ _ Hx) as [_ [_ Hi]]. unfold is_i64 in *. simpl in *. lia.
Qed.

Lemma standing_start : standing (v_data V) nothing (oe_amount o).
Proof.
  split_and!; [apply HR|apply changed_traded, changed_refl|]. rewrite Hd. by destruct o.
Qed.

Lemma exec_standingOffer D f x (Q : OfferEntry → list View → Prop) X :
  standing D f x → Q (oe_setAmount x o) (setData D V :: vs) → exec (setData D V :: vs) (currentOffer (Some h)) Q X.
Proof. intros (HV & Ht & Hx) HQ. apply exec_currentOffer with (oe_setAmount x o); [done|done|done]. Qed.

Lemma exec_setStanding D f x y (Q : unit → list View → Prop) X :
  standing D f x → is_i64 y → (∀ D', standing D' f y → Q tt (setData D' V :: vs)) →
  exec (setData D V :: vs) (setAmount (Some h) y) Q X.
Proof.
  intros Hst Hy HQ. pose proof Hst as (HV & Ht & Hx).
  apply exec_setAmount with (oe_setAmount x o); [by apply ready_setData|done|done|]. rewrite oe_setAmount_twice.
  apply HQ. by apply standing_amount with x.
Qed.

Lemma exec_tradeV10 mwr mss path (Q : ExchangeResultV10 * Z → list View → Prop) (X : list View → Prop) :
  0 < mwr <= INT64_MAX → 0 < mss <= INT64_MAX →
  (∀ r x D', 0 <= numWheatReceived10 r <= mwr → 0 <= numSheepSend10 r <= mss ∧ (numWheatReceived10 r = 0 → numSheepSend10 r = 0) → 0 <= x <= oe_amount o →
     standing D' (λ a s, pay (oe_sellerID o) (oe_buying o) (numSheepSend10 r) a s +
                         pay (oe_sellerID o) (oe_selling o) (- numWheatReceived10 r) a s) x →
     Q (r, x) (setData D' V :: vs)) →
  (∀ vs', topped V vs vs' → X vs') →
  exec (V :: vs) (tradeV10 header (Some h) acc (oe_selling o) wheatLine (oe_buying o) sheepLine mwr mss path) Q X.
Proof.
  intros Hmwr Hmss HQ HX. destruct (offer_valid V h o HR Hd) as (Hp & Ha & _). unfold is_i64 in Ha. unfold tradeV10.
  rewrite <- (setData_same V) at 1. apply exec_bind. eapply exec_adjustStanding; [exact standing_start|done|done|].
  intros D1 x1 Hx1 H1. pose proof H1 as (HV1 & _ & Hk1). pose proof (ready_setData V D1 HR HV1) as HR1.
  apply exec_bind. eapply (exec_canSell (setData D1 V) vs); [done|done|done|]. intros canSell Hcs.
  apply exec_bind. eapply exec_standingOffer; [done|]. apply exec_bind.
  eapply (exec_canBuy (setData D1 V) vs); [done|done|done|]. intros canBuy Hcb. unfold is_i64 in Hcs, Hcb. cbn [oe_amount oe_price oe_setAmount].
  apply exec_bind, exchangeV10_range; [done|unfold validLimits, is_i64; lia| |apply HX; by eexists]. intros r Hw Hs.
  apply exec_bind. eapply exec_optionalMove; [exact H1|done|unfold INT64_MAX in *; lia| |done]. intros D2 H2.
  apply exec_bind. replace (numWheatReceived10 r =? 0) with (- numWheatReceived10 r =? 0) by lia.
  eapply exec_optionalMove; [exact H2|done|unfold INT64_MAX in *; lia| |done]. intros D3 H3.
  apply exec_bind. set (f3 := λ a s, _ + _) in H3.
  assert (Hend : ∀ D4 x4, 0 <= x4 <= x1 → standing D4 f3 x4 → exec (setData D4 V :: vs)
    (offer ← currentOffer (Some h); mret (r, oe_amount offer)) Q X).
  { intros D4 x4 Hx4 H4. apply exec_bind. eapply exec_standingOffer; [done|]. apply exec_ret, HQ; [lia|lia|simpl; lia|].
    destruct H4 as (HV4 & Ht4 & Hk4). split; [done|]. split; [|done]. eapply traded_ext; [exact Ht4|].
    intros a s. unfold f3, nothing. lia. }
  destruct (wheatStays10 r).
  - apply exec_bind. eapply exec_standingOffer; [done|]. cbn [oe_amount oe_setAmount]. rewrite s64_small by (unfold INT64_MAX in *; lia).
    apply exec_bind. eapply exec_setStanding; [exact H3|unfold is_i64; lia|]. intros D4 H4.
    eapply exec_adjustStanding; [exact H4|done|done|]. intros D5 x5 Hx5 H5. by apply (Hend D5 x5); [lia|].
  - eapply exec_setStanding; [exact H3|by unfold is_i64, INT64_MAX|]. intros D4 H4. by apply (Hend D4 0); [lia|].
Qed.
End Trade.

(** ** The end of the exchange *)

Lemma exec_current_none V vs (Q : LedgerEntry → list View → Prop) (X : list View → Prop) :
  X (V :: vs) → exec (V :: vs) (current None) Q X.
Proof. intros HX s Hok Hv. split; [done|]. by rewrite Hv. Qed.

Lemma commit_view h V D : h = v_header V → setVHeader h (setData D (idled V)) = setData D (idled V).
Proof. intros ->. by destruct V. Qed.

Section Settle.
Context `{HashOrder} (V : View) (vs : list View) (o : OfferEntry).
Context (HR : ready V) (Hd : v_data V !! OFFER (oe_sellerID o) (oe_offerID o) = Some (Offer o)).
Let k := OFFER (oe_sellerID o) (oe_offerID o).

(** The child of [V] in which the offer and the header are in use. *)
Let child (id n m : nat) : View := mkView id (v_data V) (v_header V) {[k := MutableImpl m]} (Some n) false.

Lemma child_ready id n m : ready (child id n m).
Proof. destruct HR as (_ & Hm & HV). done. Qed.

Lemma exec_eraseTaken id n m (Q : unit → list View → Prop) (X : list View → Prop) :
  (∀ D' act, Valid (v_header V) D' → traded (v_data V) D' k nothing → D' !! k = None →
     Q tt (mkView id D' (v_header V) act (Some n) false :: idled V :: vs)) →
  (∀ vs', topped (child id n m) (idled V :: vs) vs' → X vs') →
  exec (child id n m :: idled V :: vs)
    (eraseEntry (Some (mkHandle id k m));; accountB ← loadAccount id (oe_sellerID o);
     entry_addNumEntries (id, n) accountB (-1);; mret tt) Q X.
Proof.
  intros HQ HX. apply exec_bind, exec_eraseEntry; [apply live_true; split; [done|apply lookup_singleton_eq]|done|].
  set (C1 := setAct _ _).
  assert (HV1 : Valid (v_header V) (v_data C1)) by (apply Valid_delete, HR).
  assert (HC1 : ready C1) by (destruct HR as (_ & Hm & _); done).
  assert (Ht1 : traded (v_data V) (v_data C1) k nothing) by (by apply traded_erase).
  assert (Hk1 : v_data C1 !! k = None) by apply lookup_delete_eq.
  change id with (v_id C1) at 1. apply exec_bind, exec_load; [done| |].
  { unfold C1. cbn [v_act setAct]. rewrite lookup_delete_ne by done. by apply lookup_singleton_ne. }
  destruct (v_data C1 !! accountKey (oe_sellerID o)) as [d|].
  2: { apply exec_bind. apply exec_underHeader; [by apply hlive_true|]. apply exec_bind, exec_current_none, HX. by eexists. }
  intros n'. apply exec_bind. set (C2 := setAct _ C1). apply exec_underHeader; [by apply hlive_true|].
  apply (exec_sameBalance C2 _ (oe_sellerID o) ASSET_TYPE_NATIVE); [done|apply live_opened|done| | |].
  - intros e He Hok. by apply addNumEntries_same.
  - intros _ D' HV' Hc. apply exec_ret. apply HQ; [done| |].
    + eapply traded_trans; [exact Ht1|by apply changed_traded|]. done.
    + destruct Hc as (_ & Hc & _). by rewrite Hc.
  - intros vs' (W & -> & ?). apply HX. by eexists.
Qed.

Lemma exec_settleV10 res (Q : unit → list View → Prop) (X : list View → Prop) :
  (∀ D', Valid (v_header V) D' → traded (v_data V) D' k nothing →
     D' !! k = (if decide (res = eOfferTaken) then None else Some (Offer o)) → Q tt (setData D' (idled V) :: vs)) →
  (∀ vs', topped V vs vs' → X vs') →
  exec (V :: vs) (settleV10 (v_id V) (oe_sellerID o) (oe_offerID o) res) Q X.
Proof.
  intros HQ HX. apply exec_withTxn; [apply HR|]. intros id Hid. set (C := mkView id _ _ _ _ _).
  assert (HXC : ∀ n m vs', topped (child id n m) (idled V :: vs) vs' → closing id X vs').
  { intros n m vs' (W & -> & Hw). left. exists W, (idled V :: vs). split_and!; [done|done|]. apply HX. by eexists. }
  assert (Hcommit : ∀ D' act n, Valid (v_header V) D' → traded (v_data V) D' k nothing →
    D' !! k = (if decide (res = eOfferTaken) then None else Some (Offer o)) →
    exec (mkView id D' (v_header V) act (Some n) false :: idled V :: vs) (commit id) (λ a, closing id (Q a)) (closing id X)).
  { intros D' act n HV' Ht Hk. change id with (v_id (mkView id D' (v_header V) act (Some n) false)) at 2.
    apply exec_commit. cbn [v_id v_data v_header]. rewrite commit_view by done. right. split; [exact Hid|]. by apply HQ. }
  change id with (v_id C) at 1. apply exec_bind, exec_loadHeader; [done|done|]. intros n. set (C1 := setHact (Some n) C).
  change id with (v_id C1) at 1. apply exec_bind, exec_load; [done|apply lookup_empty|].
  change (v_data C1 !! offerKey (oe_sellerID o) (oe_offerID o)) with (v_data V !! k). unfold k. rewrite Hd. intros m. fold k.
  change (setAct _ C1) with (child id n m). apply exec_bind. destruct (decide (res = eOfferTaken)).
  - apply exec_eraseTaken; [|by apply HXC]. intros D' act HV' Ht Hk. by apply Hcommit.
  - apply (exec_liabilities (child id n m) (idled V :: vs) (id, n) (mkHandle id k m) o (child_ready id n m)).
    + by apply hlive_true.
    + apply live_true. split; [done|apply lookup_singleton_eq].
    + exact Hd.
    + cbn [child v_act]. apply lookup_singleton_ne. intros E. pose proof (holderKey_offer (oe_sellerID o) (oe_buying o)) as Hh. by rewrite <- E in Hh.
    + cbn [child v_act]. apply lookup_singleton_ne. intros E. pose proof (holderKey_offer (oe_sellerID o) (oe_selling o)) as Hh. by rewrite <- E in Hh.
    + intros D' _ HV' Hc. apply Hcommit; [done|by apply changed_traded|]. destruct Hc as (_ & Hc & _). by rewrite Hc.
    + by apply HXC.
Qed.
End Settle.

(** ** Crossing one offer *)

Definition claimOf (o : OfferEntry) (wheat sheep : Z) : ClaimOfferAtom :=
  mkClaim (oe_sellerID o) (oe_offerID o) (oe_selling o) wheat (oe_buying o) sheep.

(** What the seller of a claim gets and gives. *)
Definition claimed (c : ClaimOfferAtom) (a : AccountID) (s : Asset) : Z :=
  pay (sellerID c) (assetBought c) (amountBought c) a s + pay (sellerID c) (assetSold c) (- amountSold c) a s.

(** The entries after the offer [o] was crossed. *)
Definition crossed (h : LedgerHeader) (D D' : Entries) (o : OfferEntry) (res : CrossOfferResult) (wheat sheep : Z) : Prop :=
  let k := OFFER (oe_sellerID o) (oe_offerID o) in
  Valid h D' ∧ traded D D' k (claimed (claimOf o wheat sheep)) ∧
  match res with
  | eOfferTaken => D' !! k = None
  | eOfferPartial => ∃ x, 0 < x <= oe_amount o ∧ D' !! k = Some (Offer (oe_setAmount x o))
  | eOfferCantConvert => False
  end.

Section Cross.
Context `{HashOrder} (V : View) (vs : list View) (o : OfferEntry) (n : nat).
Let k := OFFER (oe_sellerID o) (oe_offerID o).
Let h := mkHandle (v_id V) k n.
Context (HR : ready V) (Hact : v_act V = {[k := MutableImpl n]}) (Hhact : v_hact V = None).
Context (Hd : v_data V !! k = Some (Offer o)).

Lemma free_key k' : isOfferKey k' = false → v_act V !! k' = None.
Proof. intros Hk. rewrite Hact. apply lookup_singleton_ne. by intros <-. Qed.

(** Whether the account is there. *)
Lemma exec_accountThere {A} W (K : M Ledger A) (Q : A → list View → Prop) (X : list View → Prop) :
  ready W → v_act W = v_act V →
  (is_Some (v_data W !! ACCOUNT (oe_sellerID o)) → exec (W :: vs) K Q X) → (∀ vs', topped W vs vs' → X vs') →
  exec (W :: vs) (acc ← loadAccountWithoutRecord (v_id W) (oe_sellerID o);
    withConst acc (λ acc, s ← get;
      if constActive s acc then mret tt else throw "invalid database state: offer must have matching account");; K) Q X.
Proof.
  intros HW Ha HQ HX. apply exec_bind, exec_loadWithoutRecord; [apply HW|rewrite Ha; by apply free_key|].
  unfold accountKey. destruct (v_data W !! ACCOUNT (oe_sellerID o)) as [d|] eqn:Ed.
  - intros m lm. apply exec_bind. set (W1 := setAct _ W).
    assert (Hl : live ConstImpl (mkHandle (v_id W) (ACCOUNT (oe_sellerID o)) m) W1 = true)
      by (apply live_true; split; [done|apply lookup_insert_eq]).
    apply exec_scoped. apply exec_get. intros s0 Hok Hv. unfold constActive. simpl fmap.
    rewrite (isActive_live ConstImpl s0 _ W1 vs Hok Hv), Hl. apply exec_ret, exec_destroyConst.
    split; [|rewrite Hl].
    + destruct HW as (_ & _ & HV). destruct (HV _ _ Ed) as [Hk _]. by rewrite LedgerEntryKey_data.
    + match goal with |- exec (?U :: _) _ _ _ => assert (U = W) as -> end; [|by apply HQ; eexists].
      unfold W1, setAct. cbn [h_key v_id v_data v_header v_act v_hact v_sealed].
      rewrite delete_insert_id by (rewrite Ha; by apply free_key). by destruct W.
  - apply exec_bind, exec_scoped, exec_get. intros s0 _ _. apply exec_throw, exec_destroyConst, HX. by eexists.
Qed.

(** The handles that the trade needs, then the trade and its end. *)
Lemma exec_tradeAndSettle W header mwr mss path trail acc
    (Q : CrossOfferResult * Z * Z * bool * list ClaimOfferAtom → list View → Prop) (X : list View → Prop) wl sl :
  ready W → hlive header W = true → live MutableImpl h W = true → v_data W !! k = Some (Offer o) →
  lineOf W (oe_sellerID o) (oe_selling o) acc wl → lineOf W (oe_sellerID o) (oe_buying o) acc sl →
  0 < mwr <= INT64_MAX → 0 < mss <= INT64_MAX →
  (∀ r res wheat sheep D', 0 <= wheat <= mwr → 0 <= sheep <= mss ∧ (wheat = 0 → sheep = 0) → crossed (v_header W) (v_data W) D' o res wheat sheep →
     Q (res, wheat, sheep, r, trail ++ [claimOf o wheat sheep]) (setData D' (idled W) :: vs)) →
  (∀ vs', topped W vs vs' → X vs') →
  exec (W :: vs)
    ('(r, amount) ← tradeV10 header (Some h) acc (oe_selling o) wl (oe_buying o) sl mwr mss path;
     let res := if amount =? 0 then eOfferTaken else eOfferPartial in
     settleV10 (v_id W) (oe_sellerID o) (oe_offerID o) res;;
     mret (res, numWheatReceived10 r, numSheepSend10 r, wheatStays10 r,
           trail ++ [claimOf o (numWheatReceived10 r) (numSheepSend10 r)])) Q X.
Proof.
  intros HW Hh Hl HdW HLw HLs Hmwr Hmss HQ HX. apply exec_bind.
  apply (exec_tradeV10 W vs header h o acc wl sl); [done..| |done]. intros r x D' Hw Hs Hx (HV' & Ht & Hk).
  change (v_id W) with (v_id (setData D' W)). apply exec_bind.
  apply (exec_settleV10 (setData D' W) vs (oe_setAmount x o)); [by apply ready_setData|exact Hk| |].
  - intros D2 HV2 Ht2 Hk2. apply exec_ret. apply HQ; [done|done|]. split; [done|]. split.
    + eapply traded_trans; [exact Ht|exact Ht2|]. intros a s. unfold claimed, claimOf, nothing. simpl. lia.
    + fold k in Hk2 |- *. change (OFFER _ _) with k in Hk2. destruct (Z.eqb_spec x 0) as [->|Hne]; cbn in Hk2; [exact Hk2|].
      exists x. split; [lia|exact Hk2].
  - intros vs' (U & -> & ?). apply HX. by eexists.
Qed.

(** Loading what the trade needs; the trade ends with nothing in use. *)
Lemma exec_openLines {A} W (body : option Handle → option TrustLineImpl → option TrustLineImpl → M Ledger A)
    (Q : A → list View → Prop) (X : list View → Prop) :
  ready W → v_act W = v_act V → is_Some (v_data W !! ACCOUNT (oe_sellerID o)) → oe_buying o ≠ oe_selling o →
  (∀ act acc sl wl, act !! k = Some (MutableImpl n) →
     lineOf (setAct act W) (oe_sellerID o) (oe_selling o) acc wl → lineOf (setAct act W) (oe_sellerID o) (oe_buying o) acc sl →
     exec (setAct act W :: vs) (body acc sl wl) (λ a vs', ∃ U, vs' = U :: vs ∧ v_act U = ∅ ∧ Q a vs') (topped W vs)) →
  (∀ vs', topped W vs vs' → X vs') →
  exec (W :: vs)
    (accountB ← (if isNative (oe_selling o) || isNative (oe_buying o) then loadAccount (v_id W) (oe_sellerID o) else mret None);
     withEntry accountB (λ accountB,
       sheepLine ← loadTrustLineIfNotNative (v_id W) (oe_sellerID o) (oe_buying o);
       withWrapper sheepLine (λ sheepLine,
         wheatLine ← loadTrustLineIfNotNative (v_id W) (oe_sellerID o) (oe_selling o);
         withWrapper wheatLine (λ wheatLine, body accountB sheepLine wheatLine)))) Q X.
Proof.
  intros HW Ha [d Hacc] Hne Hbody HX.
  assert (Hlines : ∀ act1 acc, (∀ k', k' ≠ ACCOUNT (oe_sellerID o) → act1 !! k' = v_act W !! k') →
    (∀ s, s = oe_buying o ∨ s = oe_selling o → isNative s = true → lineOf (setAct act1 W) (oe_sellerID o) s acc None) →
    exec (setAct act1 W :: vs) (withEntry acc (λ accountB,
       sheepLine ← loadTrustLineIfNotNative (v_id W) (oe_sellerID o) (oe_buying o);
       withWrapper sheepLine (λ sheepLine,
         wheatLine ← loadTrustLineIfNotNative (v_id W) (oe_sellerID o) (oe_selling o);
         withWrapper wheatLine (λ wheatLine, body accountB sheepLine wheatLine)))) Q X).
  { intros act1 acc Hact1 Hnat. set (W1 := setAct act1 W).
    apply exec_withEntry; [|intros vs' (U & -> & ?); apply HX; by eexists].
    apply exec_bind. apply (exec_loadLine W1 vs (oe_sellerID o) (oe_buying o) acc); [done|intros; apply Hnat; auto|..].
    { intros _. unfold W1. cbn [v_act setAct]. rewrite Hact1, Ha by done. by apply free_key. }
    intros sl act2 Hact2 HLs. set (W2 := setAct act2 W1).
    apply exec_withWrapper; [|intros vs' (U & -> & ?); by eexists].
    apply exec_bind. apply (exec_loadLine W2 vs (oe_sellerID o) (oe_selling o) acc); [done|..].
    { intros Hn. apply (lineOf_act W1); [apply Hnat; auto|]. rewrite holderKey_native by done. by apply Hact2. }
    { intros _. unfold W2. cbn [v_act setAct]. rewrite Hact2 by congruence. unfold W1. cbn [v_act setAct].
      rewrite Hact1, Ha by done. by apply free_key. }
    intros wl act3 Hact3 HLw. change (setAct act3 W2) with (setAct act3 W) in HLw |- *.
    apply exec_withWrapper; [|intros vs' (U & -> & ?); by eexists].
    eapply exec_mono; [apply (Hbody act3 acc sl wl)|..].
    - rewrite Hact3 by done. unfold W2. cbn [v_act setAct]. rewrite Hact2 by done. unfold W1. cbn [v_act setAct].
      rewrite Hact1, Ha, Hact by done. apply lookup_singleton_eq.
    - exact HLw.
    - change (setAct act3 W) with (setAct act3 W2). apply lineOf_act; [exact HLs|]. apply Hact3. unfold holderKey.
      destruct (isNative (oe_buying o)); congruence.
    - intros a vs' (U & -> & HU & HQ). exists U. rewrite (closeWrapper_idle wl U HU). split; [done|].
      exists U. rewrite (closeWrapper_idle sl U HU). split; [done|]. exists U. by rewrite (closeEntry_idle acc U HU).
    - intros vs' (U & -> & ?). by eexists. }
  assert (Hsame : setAct (v_act W) W = W) by (by destruct W).
  apply exec_bind. destruct (isNative (oe_selling o) || isNative (oe_buying o)) eqn:En.
  - apply exec_load; [apply HW|rewrite Ha; by apply free_key|]. unfold accountKey. rewrite Hacc. intros m. apply Hlines.
    + intros k' Hk'. by rewrite lookup_insert_ne.
    + intros s _ Hs. unfold lineOf. rewrite Hs. eexists. split_and!; [done|apply live_opened|done].
  - apply exec_ret. rewrite <- Hsame. apply Hlines; [done|]. intros s [->| ->] Hs; rewrite Hs in En; [by rewrite orb_true_r in En|done].
Qed.

Lemma exec_crossOfferV10 mwr mss path trail
    (Q : CrossOfferResult * Z * Z * bool * list ClaimOfferAtom → list View → Prop) (X : list View → Prop) :
  0 < mwr <= INT64_MAX → 0 < mss <= INT64_MAX →
  (∀ r res wheat sheep D', is_Some (v_data V !! ACCOUNT (oe_sellerID o)) → 0 <= wheat <= mwr → 0 <= sheep <= mss ∧ (wheat = 0 → sheep = 0) → crossed (v_header V) (v_data V) D' o res wheat sheep →
     Q (res, wheat, sheep, r, trail ++ [claimOf o wheat sheep]) (setData D' (idled V) :: vs)) →
  (∀ vs', topped V vs vs' → X vs') →
  exec (V :: vs) (crossOfferV10 (v_id V) (Some h) mwr mss path trail) Q X.
Proof.
  intros Hmwr Hmss HQ HX. unfold crossOfferV10. apply exec_assert; [lia|]. apply exec_assert; [lia|].
  apply exec_headerScope; [apply HR|done| |done]. intros m. set (V1 := setHact (Some m) V).
  assert (HR1 : ready V1) by (destruct HR as (? & ? & ?); done).
  assert (Hl1 : live MutableImpl h V1 = true) by (apply live_true; split; [done|]; unfold V1, h; simpl; rewrite Hact; apply lookup_singleton_eq).
  apply exec_bind. apply (exec_currentOffer V1 vs h o); [done|exact Hd|]. cbv zeta.
  change (v_id V) with (v_id V1). apply exec_accountThere; [done|done| |intros vs' (W & -> & ?); by eexists]. intros Hacc.
  apply exec_bind. unfold releaseLiabilities.
  apply (exec_liabilities V1 vs (v_id V, m) h o HR1); [by apply hlive_true|done|exact Hd|apply free_key, holderKey_offer..| |].
  2: { intros vs' (W & -> & ?). by eexists. }
  intros D1 Hne HV1 Hc1. set (V2 := setData D1 V1). assert (HR2 : ready V2) by (by apply ready_setData).
  assert (Hk2 : v_data V2 !! k = Some (Offer o)) by (destruct Hc1 as (_ & Hc & _); unfold V2; simpl; by rewrite Hc).
  assert (Hacc2 : is_Some (v_data V2 !! ACCOUNT (oe_sellerID o))) by (eapply changed_account; [apply HR1|exact Hc1|exact Hacc]).
  change (v_id V1) with (v_id V2).
  assert (HX2 : ∀ vs', topped V2 vs vs' → topped V vs vs') by (intros vs' (W & -> & ?); by eexists).
  apply (exec_openLines V2); [done|done|done|done| |done]. intros act acc sl wl Hk HLw HLs.
  eapply exec_mono; [apply (exec_tradeAndSettle (setAct act V2) (v_id V, m) mwr mss path trail acc
    (λ a vs', ∃ U, vs' = U :: vs ∧ v_act U = ∅ ∧ v_hact U = None ∧ Q a vs') (topped V vs) wl sl)|..]; [..|].
  - done.
  - by apply hlive_true.
  - apply live_true. split; [done|exact Hk].
  - exact Hk2.
  - done.
  - done.
  - done.
  - done.
  - intros r res wheat sheep D' Hw Hs (HV' & Ht & Hres). eexists. split; [done|]. split; [done|]. split; [done|].
    apply HQ; [done|done|done|]. split; [done|]. split; [|done].
    eapply traded_trans; [apply changed_traded, Hc1|exact Ht|]. intros a s. unfold nothing. lia.
  - done.
  - intros a vs' (U & -> & Hact' & Hh' & HQ'). exists U. split; [done|]. split; [done|]. exists U. split; [done|].
    unfold hlive. rewrite Hh'. simpl. by rewrite andb_false_r.
  - done.
Qed.
End Cross.
