(* ===== verification/BookSpec.v ===== *)
(** * Conversion through the order book

    [convertWithOffers] on a valid ledger of version 10 or later: it returns or throws, the loop ends,
    and the books balance. *)
From stdpp Require Import base list gmap strings.
From Stdlib Require Import ZArith Lia.
From S2P Require Import Prelude UInt128 Numeric Exchange LedgerEntries Balances BalancesSpec LedgerTxn LedgerTxnSpec LedgerOffers LedgerLogic TrustLines CrossOffers CrossOffersSpec.

(** ** What a trail of claims says *)

Definition claimKey (c : ClaimOfferAtom) : LedgerKey := OFFER (sellerID c) (offerID c).

(** The change of what [a] holds of [s]. *)
Definition totalClaimed (trail : list ClaimOfferAtom) (a : AccountID) (s : Asset) : Z :=
  foldr (λ c x, claimed c a s + x) 0 trail.
Definition soldBy (trail : list ClaimOfferAtom) : Z := foldr (λ c x, amountSold c + x) 0 trail.
Definition boughtBy (trail : list ClaimOfferAtom) : Z := foldr (λ c x, amountBought c + x) 0 trail.

Lemma totalClaimed_app l k a s : totalClaimed (l ++ k) a s = totalClaimed l a s + totalClaimed k a s.
Proof. induction l as [|c l IH]; simpl; [done|]. rewrite IH. lia. Qed.
Lemma soldBy_app l k : soldBy (l ++ k) = soldBy l + soldBy k.
Proof. induction l as [|c l IH]; simpl; [done|]. rewrite IH. lia. Qed.
Lemma boughtBy_app l k : boughtBy (l ++ k) = boughtBy l + boughtBy k.
Proof. induction l as [|c l IH]; simpl; [done|]. rewrite IH. lia. Qed.

(** An offer that is left is one of before, with the same terms and at most its amount. *)
Definition offersShrink (D D' : Entries) : Prop :=
  ∀ k o', D' !! k = Some (Offer o') → ∃ o, D !! k = Some (Offer o) ∧ o' = oe_setAmount (oe_amount o') o ∧ oe_amount o' <= oe_amount o.

(** Every holding has changed by what the claims say; the claims are of [wheat] for [sheep] by
    existing accounts, and one that sells nothing costs nothing; the offers that were not claimed and
    the data entries are the same. *)
Definition booksBalance (sheep wheat : Asset) (D : Entries) (trail : list ClaimOfferAtom) (D' : Entries) : Prop :=
  (∀ a s, holding D' a s = (λ b, b + totalClaimed trail a s) <$> holding D a s) ∧
  Forall (λ c, assetSold c = wheat ∧ assetBought c = sheep ∧ 0 <= amountSold c ∧ 0 <= amountBought c ∧ (amountSold c = 0 → amountBought c = 0) ∧
               is_Some (holding D (sellerID c) ASSET_TYPE_NATIVE)) trail ∧
  (∀ k, isOfferKey k = true → k ∉ claimKey <$> trail → D' !! k = D !! k) ∧
  offersShrink D D' ∧
  (∀ a n, D' !! DATA a n = D !! DATA a n).

Lemma offersShrink_refl D : offersShrink D D.
Proof. intros k o Ho. exists o. split_and!; [done|by destruct o|lia]. Qed.
Lemma offersShrink_trans D D1 D2 : offersShrink D D1 → offersShrink D1 D2 → offersShrink D D2.
Proof.
  intros H1 H2 k o2 Ho2. destruct (H2 k o2 Ho2) as (o1 & Ho1 & E2 & Hle2). destruct (H1 k o1 Ho1) as (o & Ho & E1 & Hle1).
  exists o. split_and!; [done| |lia]. rewrite E2 at 1. rewrite E1. apply oe_setAmount_twice.
Qed.

Lemma booksBalance_refl sheep wheat D : booksBalance sheep wheat D [] D.
Proof. split_and!; [|done|done|apply offersShrink_refl|done]. intros a s. simpl. by rewrite option_shift_0. Qed.

Lemma booksBalance_trans sheep wheat D D1 D2 l k :
  booksBalance sheep wheat D l D1 → booksBalance sheep wheat D1 k D2 → booksBalance sheep wheat D (l ++ k) D2.
Proof.
  intros (H1 & H2 & H3 & H4 & H5) (G1 & G2 & G3 & G4 & G5). split_and!.
  - intros a s. rewrite G1, H1, totalClaimed_app. destruct (holding D a s); simpl; [f_equal; lia|done].
  - apply Forall_app. split; [done|]. eapply Forall_impl; [exact G2|]. intros c (? & ? & ? & ? & ? & Hacc). split_and!; [done..|].
    rewrite H1 in Hacc. by apply fmap_is_Some in Hacc.
  - intros k' Hk. rewrite fmap_app, not_elem_of_app. intros [Hl Hr]. by rewrite G3, H3.
  - by eapply offersShrink_trans.
  - intros a n. by rewrite G5, H5.
Qed.

Lemma holding_account h D a : Valid h D → is_Some (D !! ACCOUNT a) → is_Some (holding D a ASSET_TYPE_NATIVE).
Proof. intros HV [d Hd]. simpl. rewrite Hd. destruct (HV _ _ Hd) as [Hk _]. by destruct d. Qed.

(** One crossed offer. *)
Lemma crossed_books h sheep wheat D D' o res w sh :
  Valid h D → D !! OFFER (oe_sellerID o) (oe_offerID o) = Some (Offer o) → is_Some (D !! ACCOUNT (oe_sellerID o)) →
  forSale sheep wheat o → 0 <= w → 0 <= sh → (w = 0 → sh = 0) →
  crossed h D D' o res w sh → booksBalance sheep wheat D [claimOf o w sh] D'.
Proof.
  intros HV Hd Hacc [Hb Hs] Hw Hsh Hz (HV' & (Ht1 & Ht2 & Ht3) & Hres). set (k := OFFER (oe_sellerID o) (oe_offerID o)) in *. split_and!.
  - intros a s. rewrite Ht1. simpl. destruct (holding D a s); simpl; [f_equal; lia|done].
  - apply Forall_singleton. split_and!; [done..|]. by eapply holding_account.
  - intros k' Hk Hin. apply Ht2; [done|]. intros ->. apply Hin. by left.
  - intros k' o' Ho'. assert (Hko : isOfferKey k' = true) by (destruct (HV' _ _ Ho') as [<- _]; done).
    destruct (decide (k' = k)) as [->|Hne].
    + destruct res; [|by rewrite Hres in Ho'|done]. destruct Hres as (x & Hx & E). rewrite E in Ho'. injection Ho' as <-.
      exists o. split_and!; [done|done|]. simpl. lia.
    + rewrite Ht2 in Ho' by done. by apply offersShrink_refl.
  - exact Ht3.
Qed.

(** ** The number of offers *)

Definition offersIn (D : Entries) : Entries := filter (λ kv, isOfferKey kv.1 = true) D.

Lemma offersIn_lookup D k : offersIn D !! k = if isOfferKey k then D !! k else None.
Proof.
  unfold offersIn. destruct (isOfferKey k) eqn:E.
  - destruct (D !! k) as [d|] eqn:Ed.
    + by apply map_lookup_filter_Some.
    + apply map_lookup_filter_None. by left.
  - apply map_lookup_filter_None. right. intros d _. simpl. congruence.
Qed.

Lemma taken_offers h D D' o w sh :
  D !! OFFER (oe_sellerID o) (oe_offerID o) = Some (Offer o) → crossed h D D' o eOfferTaken w sh →
  size (offersIn D) = S (size (offersIn D')).
Proof.
  intros Hd (_ & (_ & Ht & _) & Hres). set (k := OFFER (oe_sellerID o) (oe_offerID o)) in *.
  assert (E : offersIn D' = delete k (offersIn D)).
  { apply map_eq. intros k'. destruct (decide (k' = k)) as [->|Hne].
    - by rewrite lookup_delete_eq, offersIn_lookup.
    - rewrite lookup_delete_ne, !offersIn_lookup by done. destruct (isOfferKey k') eqn:Ek; [|done]. by apply Ht. }
  assert (Hk : offersIn D !! k = Some (Offer o)) by (by rewrite offersIn_lookup).
  rewrite E, map_size_delete_Some by (by eexists). pose proof (map_size_ne_0_lookup_2 (offersIn D) k ltac:(by eexists)). lia.
Qed.

(** ** One round *)

(** The totals of a conversion of at most [MS] sheep into at most [MW] wheat. *)
Definition totalsOk (MS MW : Z) (c : Conversion) : Prop :=
  0 <= cv_sheepSend c ∧ cv_sheepSend c + cv_maxSheepSend c = MS ∧ 0 <= cv_wheatReceived c ∧ cv_wheatReceived c + cv_maxWheatReceive c = MW ∧
  boughtBy (cv_trail c) = cv_sheepSend c ∧ soldBy (cv_trail c) = cv_wheatReceived c ∧
  0 <= cv_maxSheepSend c ∧ 0 <= cv_maxWheatReceive c.
Definition moreWanted (c : Conversion) : Prop := 0 < cv_maxSheepSend c ∧ 0 < cv_maxWheatReceive c.

Lemma validPrice_priceOk p : validPrice p → priceOk p.
Proof. unfold validPrice, priceOk, is_i32. lia. Qed.

Lemma idled_idled V : idled (idled V) = idled V.
Proof. done. Qed.

(** The outermost transaction of the conversion, with entries [D']. *)
Definition rounded (O : View) (os : list View) (E : Entries → Prop) (vs' : list View) : Prop :=
  ∃ D', vs' = setData D' (idled O) :: os ∧ Valid (v_header O) D' ∧ E D'.

Lemma rounded_same O os (E : Entries → Prop) : ready O → E (v_data O) → rounded O os E (idled O :: os).
Proof. intros (_ & _ & HV) HE. exists (v_data O). split; [|done]. by destruct O. Qed.

(** Destroying the handle of the offer and then the transaction of the round: nothing happened, or
    the round is committed. *)
Lemma exec_roundEnd O os id h vs' (R : list View → Prop) :
  (∃ W, vs' = W :: idled O :: os ∧ v_id W = id ∧ R (idled O :: os)) ∨
  (∃ D', vs' = setData D' (idled O) :: os ∧ id ∉ v_id <$> (O :: os) ∧ R vs') →
  exec vs' (destroyEntry h) (λ _, closing id R) (λ _, False).
Proof.
  intros [(W & -> & Hid & HR)|(D' & -> & Hid & HR)]; apply exec_destroyEntry.
  - assert (closing id R (closeEntry h W :: idled O :: os)) as Hc; [|by destruct h].
    left. exists (closeEntry h W), (idled O :: os). by rewrite closeEntry_id.
  - assert (closing id R (closeEntry h (setData D' (idled O)) :: os)) as Hc; [|by destruct h].
    right. by rewrite closeEntry_idle.
Qed.

(** The filter answers without an effect on the ledger for the offers in [P]. *)
Definition filterOk (filter : option (LedgerEntry → M Ledger OfferFilterResult)) (P : OfferEntry → Prop) : Prop :=
  ∀ f lm o, filter = Some f → P o → ∃ r, ∀ s, f (mkEntry lm (Offer o)) s = Ok r s.
Definition offersIn_all (P : OfferEntry → Prop) (D : Entries) : Prop := ∀ k o, D !! k = Some (Offer o) → P o.

Lemma offersShrink_all P D D' :
  (∀ x o, P o → P (oe_setAmount x o)) → offersShrink D D' → offersIn_all P D → offersIn_all P D'.
Proof. intros HP Hs HD k o' Ho'. destruct (Hs k o' Ho') as (o & Ho & -> & _). apply HP, (HD _ _ Ho). Qed.

Section Round.
Context `{HashOrder} (O : View) (os : list View) (sheep wheat : Asset) (path : bool)
  (filter : option (LedgerEntry → M Ledger OfferFilterResult)) (maxOffersToCross MS MW : Z).
Context (P : OfferEntry → Prop) (HP : filterOk filter P).
Context (HO : ready O) (HOP : offersIn_all P (v_data O)) (HMS : MS <= INT64_MAX) (HMW : MW <= INT64_MAX).

(** What a round can do. *)
Definition roundOk (c : Conversion) (r : Round) (D' : Entries) : Prop :=
  match r with
  | Break => D' = v_data O
  | Return _ c' => ∃ new, cv_trail c' = cv_trail c ++ new ∧ booksBalance sheep wheat (v_data O) new D' ∧ totalsOk MS MW c'
  | Again c' => ∃ new, cv_trail c' = cv_trail c ++ new ∧ booksBalance sheep wheat (v_data O) new D' ∧ totalsOk MS MW c' ∧
                  moreWanted c' ∧ (size (offersIn D') < size (offersIn (v_data O)))%nat
  end.

Lemma round_unchanged c r : totalsOk MS MW c → roundOk c (Return r c) (v_data O).
Proof. intros Hc. exists []. rewrite app_nil_r. split_and!; [done|apply booksBalance_refl|done]. Qed.

(** The conversion after an exchange. *)
Definition advance (c : Conversion) (w sh : Z) (trail : list ClaimOfferAtom) : Conversion :=
  mkConversion (s64 (cv_maxSheepSend c - sh)) (s64 (cv_sheepSend c + sh))
    (s64 (cv_maxWheatReceive c - w)) (s64 (cv_wheatReceived c + w)) trail.

Lemma advance_ok c w sh o :
  totalsOk MS MW c → 0 <= w <= cv_maxWheatReceive c → 0 <= sh <= cv_maxSheepSend c →
  totalsOk MS MW (advance c w sh (cv_trail c ++ [claimOf o w sh])).
Proof.
  intros (H1 & H2 & H3 & H4 & H5 & H6 & H7 & H8) Hw Hsh. unfold totalsOk, advance.
  cbn [cv_maxSheepSend cv_sheepSend cv_maxWheatReceive cv_wheatReceived cv_trail].
  rewrite !s64_small by (unfold INT64_MAX in *; lia). rewrite soldBy_app, boughtBy_app, H5, H6. simpl. lia.
Qed.

Lemma round_crossed c D' o res w sh (needMore : bool) :
  totalsOk MS MW c → 0 <= w <= cv_maxWheatReceive c → 0 <= sh <= cv_maxSheepSend c ∧ (w = 0 → sh = 0) →
  v_data O !! OFFER (oe_sellerID o) (oe_offerID o) = Some (Offer o) → is_Some (v_data O !! ACCOUNT (oe_sellerID o)) →
  forSale sheep wheat o →
  crossed (v_header O) (v_data O) D' o res w sh →
  let c' := advance c w sh (cv_trail c ++ [claimOf o w sh]) in
  let more := needMore && ((0 <? cv_maxWheatReceive c') && (0 <? cv_maxSheepSend c')) in
  roundOk c (if negb more then Return eOK c' else if decide (res = eOfferPartial) then Return ePartial c' else Again c') D'.
Proof.
  intros Hc Hw [Hsh Hz] Hd Hacc Hf Hcr c' more. pose proof (advance_ok c w sh o Hc Hw Hsh) as Hc'. destruct HO as (_ & _ & HV).
  pose proof (crossed_books _ sheep wheat _ _ _ _ _ _ HV Hd Hacc Hf (proj1 Hw) (proj1 Hsh) Hz Hcr) as Hb.
  destruct more eqn:Em; simpl; [destruct (decide (res = eOfferPartial)) as [|Hne]|]; try (eexists; by split_and!).
  exists [claimOf o w sh]. split_and!; [done|done|done| |].
  - unfold more in Em. propify. done.
  - destruct res; [done| |by destruct Hcr as (_ & _ & ?)]. rewrite (taken_offers _ _ _ _ _ _ Hd Hcr). lia.
Qed.

Lemma exec_convertRound c (Q : Round → list View → Prop) (X : list View → Prop) :
  totalsOk MS MW c → moreWanted c →
  (∀ r vs', rounded O os (roundOk c r) vs' → Q r vs') → X (idled O :: os) →
  exec (O :: os) (convertRound (v_id O) sheep wheat path filter maxOffersToCross c) Q X.
Proof.
  intros Hc Hmore HQ HX. pose proof HO as (Hs & Hm & HV). apply exec_withTxn; [done|]. intros id Hid.
  set (C := mkView id _ _ _ _ _). apply exec_bind. change id with (v_id C) at 1.
  assert (HC : ready C) by done.
  apply exec_loadBestOffer; [done|intros; apply lookup_empty|..].
  { intros k o Ho. destruct (HV _ _ Ho) as [_ [Hp _]]. by apply validPrice_priceOk. }
  { intros _. apply exec_scoped, exec_ret, (exec_roundEnd O os). left. exists C. split_and!; [done|done|]. apply HQ. by apply rounded_same. }
  intros n o k Hd Hf. set (V := setAct _ C). assert (HRV : ready V) by done. apply exec_scoped.
  assert (Hstay : ∀ r W, v_id W = id → roundOk c r (v_data O) →
    exec (W :: idled O :: os) (mret r) (λ a vs', exec vs' (destroyEntry (Some (mkHandle (v_id C) k n)))
      (λ _, closing id (Q a)) (λ _, False)) (λ vs', exec vs' (destroyEntry (Some (mkHandle (v_id C) k n))) (λ _, closing id X) (λ _, False))).
  { intros r W HW Hr. apply exec_ret, (exec_roundEnd O os). left. exists W. split_and!; [done|done|]. apply HQ. by apply rounded_same. }
  assert (Hthrow : ∀ vs', topped V (idled O :: os) vs' →
    exec vs' (destroyEntry (Some (mkHandle (v_id C) k n))) (λ _, closing id X) (λ _, False)).
  { intros vs' (W & -> & HW). apply (exec_roundEnd O os). left. by exists W. }
  apply exec_bind. apply (exec_mono _ _ (λ _ vs', vs' = V :: idled O :: os) _ (topped V (idled O :: os))); [| |exact Hthrow].
  { destruct filter as [f|]; [|by apply exec_ret]. apply exec_bind, exec_current; [apply live_true; split; [done|apply lookup_insert_eq]|].
    intros lm d Hdd _. assert (Some d = Some (Offer o)) as [= ->] by (rewrite <- Hd; symmetry; exact Hdd).
    destruct (HP f lm o eq_refl (HOP _ _ Hd)) as [r Hr].
    apply exec_bind, (exec_pure _ _ _ _ r Hr). by apply exec_ret. }
  intros stop vs' ->. destruct stop; [by apply Hstay, round_unchanged|].
  destruct (u64 maxOffersToCross <=? _); [by apply Hstay, round_unchanged|].
  apply exec_bind. change (v_id C) with (v_id V) at 1. apply exec_headerScope; [done|done| |exact Hthrow]. intros m.
  apply exec_headerCurrent; [by apply hlive_true|]. eexists. split; [done|].
  assert (hlive (v_id V, m) (setHact (Some m) V) = true) as -> by (by apply hlive_true).
  change (setHact None (setHact (Some m) V)) with V. apply exec_bind.
  destruct Hm as [Hh Hv]. rewrite (proj2 (Z.leb_le 10 _)) by done.
  destruct Hc as (H1 & H2 & H3 & H4 & H5 & H6 & H7 & H8), Hmore as [Hm1 Hm2].
  apply exec_bind. apply (exec_crossOfferV10 V (idled O :: os) o n HRV); [done|done|exact Hd|lia|lia| |exact Hthrow].
  intros stays res w sh D' Hacc Hw Hsh Hcr. apply exec_ret.
  apply exec_assert; [lia|]. apply exec_assert; [lia|]. apply exec_assert; [lia|]. apply exec_assert; [lia|].
  rewrite decide_False by (intros ->; by destruct Hcr as (_ & _ & ?)).
  apply exec_bind. change id with (v_id (setData D' (idled V))). apply exec_commit. rewrite commit_view by done. apply exec_ret.
  apply (exec_roundEnd O os). right. exists D'. split_and!; [done|done|]. apply HQ. exists D'. split_and!; [done|by destruct Hcr|].
  apply (round_crossed c D' o res w sh (negb stays)); done.
Qed.
End Round.

(** ** The loop *)

(** The conversion went on from [c] to [c'] while the entries went from [D] to [D']. *)
Definition converted (sheep wheat : Asset) (MS MW : Z) (c c' : Conversion) (D D' : Entries) : Prop :=
  ∃ new, cv_trail c' = cv_trail c ++ new ∧ booksBalance sheep wheat D new D' ∧ totalsOk MS MW c'.

Section Loop.
Context `{HashOrder} (os : list View) (sheep wheat : Asset) (path : bool)
  (filter : option (LedgerEntry → M Ledger OfferFilterResult)) (maxOffersToCross MS MW : Z).
Context (P : OfferEntry → Prop) (HP : filterOk filter P) (HPset : ∀ x o, P o → P (oe_setAmount x o)) (HMS : MS <= INT64_MAX) (HMW : MW <= INT64_MAX).

Lemma exec_ledgerVersion O (Q : LedgerHeader → list View → Prop) (X : list View → Prop) :
  v_sealed O = false → Q (v_header O) (O :: os) → (v_hact O ≠ None → X (O :: os)) →
  exec (O :: os) (withHeader (v_id O) headerCurrent) Q X.
Proof.
  intros Hs HQ HX. destruct (v_hact O) eqn:Hh; [unfold withHeader; apply exec_bind; by eapply exec_loadHeader_used; eauto|].
  apply exec_withHeader; [done|done|]. intros m.
  apply exec_headerCurrent; [by apply hlive_true|].
  assert (hlive (v_id O, m) (setHact (Some m) O) = true) as -> by (by apply hlive_true).
  destruct O. simpl in Hh. subst. exact HQ.
Qed.

(** With more fuel than there are offers the loop ends. *)
Lemma exec_convertLoop fuel : ∀ O c,
  ready O → offersIn_all P (v_data O) → totalsOk MS MW c → moreWanted c → (size (offersIn (v_data O)) < fuel)%nat →
  exec (O :: os) (convertLoop (v_id O) sheep wheat path filter maxOffersToCross fuel c)
    (λ rc, rounded O os (converted sheep wheat MS MW c rc.2 (v_data O)))
    (rounded O os (λ D', ∃ trail, booksBalance sheep wheat (v_data O) trail D')).
Proof.
  induction fuel as [|fuel IH]; intros O c HO HOP Hc Hmore Hf; [lia|]. apply exec_bind.
  apply (exec_convertRound O os sheep wheat path filter maxOffersToCross MS MW P HP HO HOP HMS HMW); [done|done| |].
  2: { apply rounded_same; [done|]. exists []. apply booksBalance_refl. }
  intros [r c'| |c'] vs' (D' & -> & HV & Hr); simpl in Hr.
  - apply exec_ret. exists D'. by split_and!.
  - subst D'. change (v_id O) with (v_id (setData (v_data O) (idled O))). apply exec_bind.
    destruct HO as (Hs & Hm & _). apply exec_ledgerVersion; [done| |done].
    apply exec_ret. exists (v_data O). split_and!; [done|done|]. exists []. rewrite app_nil_r.
    split_and!; [done|apply booksBalance_refl|done].
  - destruct Hr as (new & Htr & Hb & Hc' & Hmore' & Hlt). set (O' := setData D' (idled O)).
    assert (HO' : ready O') by (destruct HO as (Hs & Hm & _); done).
    assert (HOP' : offersIn_all P (v_data O')) by (eapply offersShrink_all; [exact HPset|apply Hb|exact HOP]).
    eapply exec_mono; [apply (IH O' c' HO' HOP' Hc' Hmore'); simpl; lia|..].
    + intros rc vs' (D2 & -> & HV2 & new2 & Htr2 & Hb2 & Hc2). exists D2. split_and!; [done|done|].
      exists (new ++ new2). rewrite Htr2, Htr, app_assoc. split_and!; [done|by eapply booksBalance_trans|done].
    + intros vs' (D2 & -> & HV2 & new2 & Hb2). exists D2. split_and!; [done|done|].
      exists (new ++ new2). by eapply booksBalance_trans.
Qed.
End Loop.

(** ** The whole conversion *)

(** The outermost transaction with other entries, and other handles in use. *)
Definition outcomeOf (O : View) (os : list View) (E : Entries → gmap LedgerKey EntryImpl → Prop) (vs' : list View) : Prop :=
  ∃ D' act hact, vs' = setData D' (setHact hact (setAct act O)) :: os ∧ Valid (v_header O) D' ∧ E D' act.

Lemma exec_convertWithOffers `{HashOrder} O os sheep wheat path filter maxOffersToCross fuel MS MW (P : OfferEntry → Prop) :
  ready O → filterOk filter P → (∀ x o, P o → P (oe_setAmount x o)) → offersIn_all P (v_data O) →
  MS <= INT64_MAX → MW <= INT64_MAX → (size (offersIn (v_data O)) < fuel)%nat →
  exec (O :: os) (convertWithOffers (v_id O) sheep wheat path filter maxOffersToCross fuel MS MW)
    (λ '(r, sheepSend, wheatReceived, trail), outcomeOf O os (λ D' act,
       (v_act O = ∅ → act = ∅) ∧
       0 <= sheepSend <= Z.max 0 MS ∧ 0 <= wheatReceived <= Z.max 0 MW ∧
       boughtBy trail = sheepSend ∧ soldBy trail = wheatReceived ∧ booksBalance sheep wheat (v_data O) trail D'))
    (outcomeOf O os (λ D' _, ∃ trail, booksBalance sheep wheat (v_data O) trail D')).
Proof.
  intros HO HP HPset HPall HMS HMW Hf. unfold convertWithOffers. destruct ((0 <? MW) && (0 <? MS)) eqn:Em.
  - set (c := mkConversion MS 0 MW 0 []).
    assert (Hc : totalsOk MS MW c) by (unfold totalsOk, c; simpl; lia).
    assert (Hw : moreWanted c) by (unfold moreWanted, c; simpl; lia). apply exec_bind.
    eapply exec_mono; [exact (exec_convertLoop os sheep wheat path filter maxOffersToCross MS MW P HP HPset HMS HMW fuel O c HO HPall Hc Hw Hf)|..].
    + intros [r c'] vs' (D' & -> & HV & new & Htr & Hb & H1 & H2 & H3 & H4 & H5 & H6 & H7 & H8). simpl in *. subst new.
      apply exec_ret. exists D', ∅, None. do 3 (split; [done|]). split; [lia|]. split; [lia|]. done.
    + intros vs' (D' & -> & HV & Hb). by exists D', ∅, None.
  - apply exec_bind, exec_ledgerVersion; [apply HO|..].
    2: { intros _. exists (v_data O), (v_act O), (v_hact O). split; [by destruct O|]. split; [apply HO|]. exists []. apply booksBalance_refl. }
    apply exec_ret. exists (v_data O), (v_act O), (v_hact O). split; [by destruct O|]. split; [apply HO|]. split; [done|]. split; [lia|]. split; [lia|].
    do 2 (split; [done|]). apply booksBalance_refl.
Qed.

(** What the innermost transaction shows. *)
Definition shown (s : Ledger) : Entries := data <$> visible (root s) (txns s).

(** The transactions are the same ones, and what the innermost one shows is valid and in [E]. *)
Definition settled (s s' : Ledger) (header : LedgerHeader) (E : Entries → Prop) : Prop :=
  txn_id <$> txns s' = txn_id <$> txns s ∧ Valid header (shown s') ∧ E (shown s').

Lemma viewed_settled s s' t outer W E :
  txns s = t :: outer → views s' = W :: viewsOf (root s) outer → v_id W = txn_id t →
  Valid (mHeader t) (v_data W) → E (v_data W) → settled s s' (mHeader t) E.
Proof.
  intros Hl Hv Hid HV HE. destruct (views_cons _ _ _ Hv) as (t' & outer' & Hl' & E1 & E2).
  assert (HD : shown s' = v_data W) by (unfold shown; by rewrite Hl', E1).
  unfold settled. rewrite HD. split; [|done]. rewrite <- (viewsOf_ids (root s') (txns s')). fold (views s').
  by rewrite Hv, Hl, !fmap_cons, viewsOf_ids, Hid.
Qed.

(** C5: [convertWithOffers] on a valid ledger of version 10 or later, with more fuel than there are
    offers, returns or throws, with any filter that only looks at the
    offer: no assertion fails and the loop ends. When it
    returns, the amounts it reports are within the limits and are the sums over the claims; in both
    cases the same transactions are open, every entry is still valid, every account and trust line has
    changed by exactly what the claims of offers say, every claim is of [wheat] for [sheep] and costs
    nothing if it sells nothing, the offers that are left only shrank, those that were not claimed did not change, and neither did the data
    entries. *)
Theorem convert_books_balance `{HashOrder} s t outer sheep wheat path filter maxOffersToCross fuel maxSheepSend maxWheatReceive
    (P : OfferEntry → Prop) :
  ledgerReachable s → txns s = t :: outer → mIsSealed t = false →
  modern (mHeader t) → Valid (mHeader t) (shown s) →
  filterOk filter P → (∀ x o, P o → P (oe_setAmount x o)) → offersIn_all P (shown s) →
  maxSheepSend <= INT64_MAX → maxWheatReceive <= INT64_MAX → (size (offersIn (shown s)) < fuel)%nat →
  match convertWithOffers (txn_id t) sheep wheat path filter maxOffersToCross fuel maxSheepSend maxWheatReceive s with
  | Ok (r, sheepSend, wheatReceived, trail) s' =>
    0 <= sheepSend <= Z.max 0 maxSheepSend ∧ 0 <= wheatReceived <= Z.max 0 maxWheatReceive ∧
    boughtBy trail = sheepSend ∧ soldBy trail = wheatReceived ∧
    settled s s' (mHeader t) (booksBalance sheep wheat (shown s) trail)
  | Throw _ s' => settled s s' (mHeader t) (λ D', ∃ trail, booksBalance sheep wheat (shown s) trail D')
  | Crash _ _ | NoFuel => False
  end.
Proof.
  intros Hr Hl Hs Hm HV HP HPset HPall HMS HMW Hf. apply reachable_ok in Hr as Hok. set (O := viewOf (root s) t outer).
  assert (HD : v_data O = shown s) by (unfold shown, O; by rewrite Hl).
  assert (HO : ready O) by (split; [done|]; split; [done|]; by rewrite HD).
  assert (Hv : views s = O :: viewsOf (root s) outer) by (unfold views, O; by rewrite Hl).
  rewrite <- HD in Hf, HPall |- *.
  pose proof (exec_convertWithOffers O _ sheep wheat path filter maxOffersToCross fuel _ _ P HO HP HPset HPall HMS HMW Hf s Hok Hv) as Hx.
  change (v_id O) with (txn_id t) in Hx.
  destruct (convertWithOffers _ _ _ _ _ _ _ _ _ s) as [[[[r ss] wr] trail] s'|w s'| |]; try done; destruct Hx as [_ Hx].
  - destruct Hx as (D' & act & hact & Hv' & HV' & _ & H1 & H2 & H3 & H4 & Hb). do 4 (split; [done|]). by eapply viewed_settled.
  - destruct Hx as (D' & act & hact & Hv' & HV' & Hb). by eapply viewed_settled.
Qed.

(** ** An example *)

(** The account 7 sells 300 stroops in two offers, the cheaper one 100 at the price 2; a buyer with
    300 of the credit takes the first one whole and a part of the second one. *)
Definition bookCredit : Asset := ASSET_TYPE_CREDIT_ALPHANUM4 [65; 66; 67; 0] 9.
Definition bookEntries : list (LedgerKey * EntryData) :=
  [(ACCOUNT 7, Account (mkAccount 7 1000000000 0 3 None 0 [] [1; 0; 0; 0] [] (Some (mkLiabilities 0 300))));
   (TRUSTLINE 7 bookCredit, TrustLine (mkTrustLine 7 bookCredit 50 10000 1 (Some (mkLiabilities 650 0))));
   (OFFER 7 1, Offer (mkOffer 7 1 ASSET_TYPE_NATIVE bookCredit 100 (mkPrice 2 1) 0));
   (OFFER 7 2, Offer (mkOffer 7 2 ASSET_TYPE_NATIVE bookCredit 200 (mkPrice 9 4) 0))].
Definition bookRoot : LedgerTxnRoot := mkRoot sampleHeader (list_to_map (prod_map id (mkEntry 0) <$> bookEntries)).
Definition bookLedger : Ledger := stateAfter (runOp (NewTxn None true) (mkLedger [] bookRoot 0)).
Definition bookTop : LedgerTxn := default (mkTxn 0 sampleHeader None ∅ ∅ false false EXACT) (head (txns bookLedger)).

Lemma Valid_list h (l : list (LedgerKey * EntryData)) :
  Forall (λ kd, dataKeyOf kd.2 = kd.1 ∧ dataOk h kd.2) l → Valid h (list_to_map l).
Proof. intros Hl k d Hkd%elem_of_list_to_map_2. rewrite Forall_forall in Hl. by apply (Hl (k, d)). Qed.

Lemma bookEntries_ok : Forall (λ kd, dataKeyOf kd.2 = kd.1 ∧ dataOk sampleHeader kd.2) bookEntries.
Proof. repeat constructor; simpl; unfold subEntriesOk, is_i64; vm_compute; intuition congruence. Qed.

(** A first transaction on a database with entries under their keys. *)
Lemma opened_reachable r :
  bool_decide (map_Forall (λ k e, LedgerEntryKey e = k) (rootEntries r)) = true →
  ledgerReachable (stateAfter (runOp (NewTxn None true) (mkLedger [] r 0))).
Proof.
  intros Hk%bool_decide_eq_true_1. apply (reach_ok (mkLedger [] r 0) (NewTxn None true)); [|done|done]. by apply reach_start.
Qed.
Lemma bookLedger_reachable : ledgerReachable bookLedger.
Proof. apply opened_reachable. vm_compute. reflexivity. Qed.

Lemma bookLedger_valid : Valid sampleHeader (shown bookLedger).
Proof.
  assert (E : shown bookLedger = list_to_map bookEntries) by (apply (bool_decide_eq_true_1 _); vm_compute; reflexivity).
  rewrite E. apply Valid_list, bookEntries_ok.
Qed.

Lemma convert_books_balance_witness :
  ∃ s' trail, convertWithOffers 0 bookCredit ASSET_TYPE_NATIVE false None 1000 10 300 INT64_MAX bookLedger = Ok (eOK, 299, 144, trail) s' ∧
    length trail = 2%nat ∧ boughtBy trail = 299 ∧ soldBy trail = 144 ∧
    settled bookLedger s' sampleHeader (booksBalance bookCredit ASSET_TYPE_NATIVE (shown bookLedger) trail).
Proof.
  pose proof (convert_books_balance bookLedger bookTop [] bookCredit ASSET_TYPE_NATIVE false None 1000 10 300 INT64_MAX (λ _, True)
    bookLedger_reachable ltac:(vm_compute; reflexivity) ltac:(vm_compute; reflexivity)
    ltac:(vm_compute; intuition congruence) bookLedger_valid ltac:(done) ltac:(done) ltac:(done) ltac:(by vm_compute) ltac:(by vm_compute)
    ltac:(apply Nat.ltb_lt; vm_compute; reflexivity)) as Hc.
  change (txn_id bookTop) with 0%nat in Hc.
  assert (E : match convertWithOffers 0 bookCredit ASSET_TYPE_NATIVE false None 1000 10 300 INT64_MAX bookLedger with
              | Ok (eOK, a, b, trail) _ => (a =? 299) && (b =? 144) && bool_decide (length trail = 2%nat) | _ => false end = true)
    by (vm_compute; reflexivity).
  destruct (convertWithOffers _ _ _ _ _ _ _ _ _ _) as [[[[[] a] b] trail] s'| | |]; try done. exists s', trail.
  apply andb_prop in E as [E Hn]. apply andb_prop in E as [Ea%Z.eqb_eq Eb%Z.eqb_eq]. subst a b.
  apply bool_decide_eq_true_1 in Hn. split; [done|]. split; [done|]. apply Hc.
Defined.
