(* ===== verification/OpTypes.v ===== *)
(** * Operations and their results: [xdr/vii-transaction.x]

    The data of operations and results, the checks of assets and strings ([util/types.cpp]), and the
    small steps that the operations share. *)
From stdpp Require Import base list gmap strings.
From Stdlib Require Import ZArith.
From S2P Require Import Prelude UInt128 Numeric Exchange LedgerEntries Balances LedgerTxn TrustLines CrossOffers.

(** ** Operations *)

Record CreateAccountOp := mkCreateAccount { ca_destination : AccountID; startingBalance : Z }.
Record PaymentOp := mkPayment { pay_destination : AccountID; pay_asset : Asset; pay_amount : Z }.
Record PathPaymentOp := mkPathPayment {
  sendAsset : Asset; sendMax : Z; pp_destination : AccountID; destAsset : Asset; destAmount : Z; pp_path : list Asset }.
Record ManageSellOfferOp := mkManageSell {
  ms_selling : Asset; ms_buying : Asset; ms_amount : Z; ms_price : Price; ms_offerID : Z }.
Record ManageBuyOfferOp := mkManageBuy {
  mb_selling : Asset; mb_buying : Asset; mb_buyAmount : Z; mb_price : Price; mb_offerID : Z }.
Record CreatePassiveSellOfferOp := mkCreatePassive {
  cp_selling : Asset; cp_buying : Asset; cp_amount : Z; cp_price : Price }.
Record SetOptionsOp := mkSetOptions {
  so_inflationDest : option AccountID; so_clearFlags : option Z; so_setFlags : option Z; so_masterWeight : option Z;
  so_lowThreshold : option Z; so_medThreshold : option Z; so_highThreshold : option Z; so_homeDomain : option Bytes;
  so_signer : option Signer }.
Record ChangeTrustOp := mkChangeTrust { ct_line : Asset; ct_limit : Z }.
(** The code of an asset without its issuer. *)
Inductive AssetCode := assetCodeNative | assetCode4 (code : Bytes) | assetCode12 (code : Bytes).
Record AllowTrustOp := mkAllowTrust { trustor : AccountID; at_asset : AssetCode; authorize : bool }.
Record ManageDataOp := mkManageData { md_dataName : Bytes; md_dataValue : option Bytes }.
Record BumpSequenceOp := mkBumpSequence { bumpTo : Z }.

Inductive OperationBody :=
| CREATE_ACCOUNT (op : CreateAccountOp)
| PAYMENT (op : PaymentOp)
| PATH_PAYMENT (op : PathPaymentOp)
| MANAGE_SELL_OFFER (op : ManageSellOfferOp)
| CREATE_PASSIVE_SELL_OFFER (op : CreatePassiveSellOfferOp)
| SET_OPTIONS (op : SetOptionsOp)
| CHANGE_TRUST (op : ChangeTrustOp)
| ALLOW_TRUST (op : AllowTrustOp)
| ACCOUNT_MERGE (destination : AccountID)
| INFLATION
| MANAGE_DATA (op : ManageDataOp)
| BUMP_SEQUENCE (op : BumpSequenceOp)
| MANAGE_BUY_OFFER (op : ManageBuyOfferOp).
Record Operation := mkOperation { op_sourceAccount : option AccountID; body : OperationBody }.

(** ** Results *)

Inductive CreateAccountResult :=
| CREATE_ACCOUNT_SUCCESS | CREATE_ACCOUNT_MALFORMED | CREATE_ACCOUNT_UNDERFUNDED | CREATE_ACCOUNT_LOW_RESERVE
| CREATE_ACCOUNT_ALREADY_EXIST.
Inductive PaymentResult :=
| PAYMENT_SUCCESS | PAYMENT_MALFORMED | PAYMENT_UNDERFUNDED | PAYMENT_SRC_NO_TRUST | PAYMENT_SRC_NOT_AUTHORIZED
| PAYMENT_NO_DESTINATION | PAYMENT_NO_TRUST | PAYMENT_NOT_AUTHORIZED | PAYMENT_LINE_FULL | PAYMENT_NO_ISSUER.
Record SimplePaymentResult := mkSimplePayment { sp_destination : AccountID; sp_asset : Asset; sp_amount : Z }.
Inductive PathPaymentResult :=
| PATH_PAYMENT_SUCCESS (offers : list ClaimOfferAtom) (last : SimplePaymentResult)
| PATH_PAYMENT_MALFORMED | PATH_PAYMENT_UNDERFUNDED | PATH_PAYMENT_SRC_NO_TRUST | PATH_PAYMENT_SRC_NOT_AUTHORIZED
| PATH_PAYMENT_NO_DESTINATION | PATH_PAYMENT_NO_TRUST | PATH_PAYMENT_NOT_AUTHORIZED | PATH_PAYMENT_LINE_FULL
| PATH_PAYMENT_NO_ISSUER (noIssuer : Asset)
| PATH_PAYMENT_TOO_FEW_OFFERS | PATH_PAYMENT_OFFER_CROSS_SELF | PATH_PAYMENT_OVER_SENDMAX.
Inductive ManageOfferEffect := MANAGE_OFFER_CREATED (offer : OfferEntry) | MANAGE_OFFER_UPDATED (offer : OfferEntry) | MANAGE_OFFER_DELETED.
(** The codes of MANAGE_SELL_OFFER and of MANAGE_BUY_OFFER correspond to each other. *)
Inductive ManageOfferResult :=
| MANAGE_OFFER_SUCCESS (offersClaimed : list ClaimOfferAtom) (effect : ManageOfferEffect)
| MANAGE_OFFER_MALFORMED | MANAGE_OFFER_SELL_NO_TRUST | MANAGE_OFFER_BUY_NO_TRUST | MANAGE_OFFER_SELL_NOT_AUTHORIZED
| MANAGE_OFFER_BUY_NOT_AUTHORIZED | MANAGE_OFFER_LINE_FULL | MANAGE_OFFER_UNDERFUNDED | MANAGE_OFFER_CROSS_SELF
| MANAGE_OFFER_SELL_NO_ISSUER | MANAGE_OFFER_BUY_NO_ISSUER | MANAGE_OFFER_NOT_FOUND | MANAGE_OFFER_LOW_RESERVE.
Inductive SetOptionsResult :=
| SET_OPTIONS_SUCCESS | SET_OPTIONS_LOW_RESERVE | SET_OPTIONS_TOO_MANY_SIGNERS | SET_OPTIONS_BAD_FLAGS
| SET_OPTIONS_INVALID_INFLATION | SET_OPTIONS_CANT_CHANGE | SET_OPTIONS_UNKNOWN_FLAG | SET_OPTIONS_THRESHOLD_OUT_OF_RANGE
| SET_OPTIONS_BAD_SIGNER | SET_OPTIONS_INVALID_HOME_DOMAIN.
Inductive ChangeTrustResult :=
| CHANGE_TRUST_SUCCESS | CHANGE_TRUST_MALFORMED | CHANGE_TRUST_NO_ISSUER | CHANGE_TRUST_INVALID_LIMIT
| CHANGE_TRUST_LOW_RESERVE | CHANGE_TRUST_SELF_NOT_ALLOWED.
Inductive AllowTrustResult :=
| ALLOW_TRUST_SUCCESS | ALLOW_TRUST_MALFORMED | ALLOW_TRUST_NO_TRUST_LINE | ALLOW_TRUST_TRUST_NOT_REQUIRED
| ALLOW_TRUST_CANT_REVOKE | ALLOW_TRUST_SELF_NOT_ALLOWED.
Inductive AccountMergeResult :=
| ACCOUNT_MERGE_SUCCESS (sourceAccountBalance : Z)
| ACCOUNT_MERGE_MALFORMED | ACCOUNT_MERGE_NO_ACCOUNT | ACCOUNT_MERGE_IMMUTABLE_SET | ACCOUNT_MERGE_HAS_SUB_ENTRIES
| ACCOUNT_MERGE_SEQNUM_TOO_FAR | ACCOUNT_MERGE_DEST_FULL.
Inductive ManageDataResult :=
| MANAGE_DATA_SUCCESS | MANAGE_DATA_NOT_SUPPORTED_YET | MANAGE_DATA_NAME_NOT_FOUND | MANAGE_DATA_LOW_RESERVE
| MANAGE_DATA_INVALID_NAME.
Inductive BumpSequenceResult := BUMP_SEQUENCE_SUCCESS | BUMP_SEQUENCE_BAD_SEQ.

Inductive OperationResultTr :=
| createAccountResult (r : CreateAccountResult)
| paymentResult (r : PaymentResult)
| pathPaymentResult (r : PathPaymentResult)
| manageSellOfferResult (r : ManageOfferResult)
| setOptionsResult (r : SetOptionsResult)
| changeTrustResult (r : ChangeTrustResult)
| allowTrustResult (r : AllowTrustResult)
| accountMergeResult (r : AccountMergeResult)
| inflationResult
| manageDataResult (r : ManageDataResult)
| bumpSeqResult (r : BumpSequenceResult)
| manageBuyOfferResult (r : ManageOfferResult).
Inductive OperationResult :=
| opINNER (tr : OperationResultTr)
| opBAD_AUTH | opNO_ACCOUNT | opNOT_SUPPORTED | opTOO_MANY_SUBENTRIES | opEXCEEDED_WORK_LIMIT.

(** ** Strings and assets *)

Definition iscntrl (c : Z) : bool := (c <? 32) || (c =? 127).
Definition isalnum (c : Z) : bool := ((48 <=? c) && (c <=? 57)) || ((65 <=? c) && (c <=? 90)) || ((97 <=? c) && (c <=? 122)).

(** A [char] is negative from 128 on. *)
Definition isString32Valid (str : Bytes) : bool := forallb (λ c, negb ((128 <=? c) || iscntrl c)) str.

(** The loops over the code: [None] for a code that is refused, otherwise the number of characters. *)
Fixpoint assetCodeChars (zeros : bool) (count : Z) (code : Bytes) : option Z :=
  match code with
  | [] => Some count
  | b :: code =>
    if b =? 0 then assetCodeChars true count code
    else if zeros then None
    else if (127 <? b) || negb (isalnum b) then None
    else assetCodeChars zeros (count + 1) code
  end.
Definition isAssetValid (cur : Asset) : bool :=
  match cur with
  | ASSET_TYPE_NATIVE => true
  | ASSET_TYPE_CREDIT_ALPHANUM4 code _ => match assetCodeChars false 0 code with Some n => negb (n =? 0) | None => false end
  | ASSET_TYPE_CREDIT_ALPHANUM12 code _ => match assetCodeChars false 0 code with Some n => 4 <? n | None => false end
  end.
Definition compareAsset (first second : Asset) : bool :=
  match first, second with
  | ASSET_TYPE_NATIVE, ASSET_TYPE_NATIVE => true
  | ASSET_TYPE_CREDIT_ALPHANUM4 c i, ASSET_TYPE_CREDIT_ALPHANUM4 c' i' => bool_decide (i = i') && bool_decide (c = c')
  | ASSET_TYPE_CREDIT_ALPHANUM12 c i, ASSET_TYPE_CREDIT_ALPHANUM12 c' i' => bool_decide (i = i') && bool_decide (c = c')
  | _, _ => false
  end.

(** ** Small steps that recur *)

(** [operator bool] of handles. *)
Definition active (h : LedgerTxnEntry) : M Ledger bool := s ← get; mret (isActive MutableImpl s h).
Definition constIsActive (h : ConstLedgerTxnEntry) : M Ledger bool := s ← get; mret (constActive s h).

(** Conditions on temporaries: [loadHeader().current()], and whether an account exists. *)
Definition headerOf (ltx : nat) : M Ledger LedgerHeader := withHeader ltx headerCurrent.
Definition accountExists (ltx : nat) (a : AccountID) : M Ledger bool :=
  h ← loadAccountWithoutRecord ltx a; withConst h constIsActive.

Definition currentAccount (h : LedgerTxnEntry) : M Ledger AccountEntry := e ← current h; account e.
Definition modifyAccount (h : LedgerTxnEntry) (f : AccountEntry → AccountEntry) : M Ledger unit :=
  e ← current h; a ← account e; setCurrent h (setAccount (f a) e).

(** [getIssuer]: the field of the other asset type throws for the native asset. *)
Definition issuerOf {S} (s : Asset) : M S AccountID := match getIssuer s with Some i => mret i | None => wrongUnion end.

(** [TransactionFrame::loadAccount] behind [loadSourceAccount]. Before version 8 a cached account
    shadows the ledger; the model has no result there. *)
Definition tx_loadAccount (ltx : nat) (header : LedgerTxnHeader) (accountID : AccountID) : M Ledger LedgerTxnEntry :=
  lh ← headerCurrent header;
  if ledgerVersion lh <? 8 then nofuel else loadAccount ltx accountID.
