(* ===== verification/RunLogic.v ===== *)
(** * A coarser program logic for operations

    [run id os D lh m Q]: in the innermost transaction [id], which shows the entries [D] and the header
    [lh], [m] does not bring the process down; if it returns, its result, the entries and the header are
    in [Q]; if it throws, the transaction is still there. Which handles are in use does not matter:
    using a handle that is no longer alive and loading a key that is in use throw. *)
From stdpp Require Import base list gmap strings.
From Stdlib Require Import ZArith Lia.
From S2P Require Import Prelude Numeric LedgerEntries Balances LedgerTxn LedgerTxnSpec LedgerOffers TrustLines LedgerLogic CrossOffers CrossOffersSpec BookSpec OpTypes.

Definition run {A} (id : nat) (os : list View) (D : Entries) (lh : LedgerHeader) (m : M Ledger A)
    (Q : A → Entries → LedgerHeader → Prop) : Prop :=
  ∀ V, v_id V = id → v_sealed V = false → v_data V = D → v_header V = lh →
  exec (V :: os) m
    (λ a vs', ∃ W, vs' = W :: os ∧ v_id W = id ∧ v_sealed W = false ∧ Q a (v_data W) (v_header W))
    (λ vs', ∃ W, vs' = W :: os ∧ v_id W = id).

(** The destructors change only what is in use. *)
Lemma destroyEntry_quiet h V vs :
  exec (V :: vs) (destroyEntry h) (λ _ vs', ∃ act hact, vs' = setHact hact (setAct act V) :: vs) (λ _, False).
Proof.
  apply exec_destroyEntry. destruct h as [h|]; [|by exists (v_act V), (v_hact V); destruct V].
  destruct (live _ _ _); [by exists (delete (h_key h) (v_act V)), (v_hact V)|by exists (v_act V), (v_hact V); destruct V].
Qed.
Lemma destroyHeader_quiet h V vs :
  exec (V :: vs) (destroyHeader h) (λ _ vs', ∃ act hact, vs' = setHact hact (setAct act V) :: vs) (λ _, False).
Proof.
  apply exec_destroyHeader. destruct (hlive _ _); [by exists (v_act V), None|by exists (v_act V), (v_hact V); destruct V].
Qed.

Section Rules.
Context {A B : Type} (id : nat) (os : list View).

Lemma run_ret D lh (a : A) Q : Q a D lh → run id os D lh (mret a) Q.
Proof. intros HQ V Hi Hs <- <-. apply exec_ret. by exists V. Qed.

Lemma run_throw D lh w (Q : A → _) : run id os D lh (throw w) Q.
Proof. intros V Hi Hs HD HL. apply exec_throw. by exists V. Qed.

Lemma run_bind D lh (m : M Ledger A) (k : A → M Ledger B) Q :
  run id os D lh m (λ a D' lh', run id os D' lh' (k a) Q) → run id os D lh (m ≫= k) Q.
Proof.
  intros Hm V Hi Hs HD HL. apply exec_bind. eapply exec_mono; [by apply Hm| |done].
  intros a vs' (W & -> & Hi' & Hs' & HQ). by apply HQ.
Qed.

Lemma run_mono D lh (m : M Ledger A) (Q Q' : A → Entries → LedgerHeader → Prop) :
  run id os D lh m Q → (∀ a D' lh', Q a D' lh' → Q' a D' lh') → run id os D lh m Q'.
Proof.
  intros Hm HQ V Hi Hs HD HL. eapply exec_mono; [by apply Hm| |done].
  intros a vs' (W & -> & Hi' & Hs' & HW). exists W. naive_solver.
Qed.

Lemma run_pure D lh (m : M Ledger A) Q a : (∀ s, m s = Ok a s) → Q a D lh → run id os D lh m Q.
Proof. intros Hm HQ V Hi Hs <- <-. apply (exec_pure _ _ _ _ a Hm). by exists V. Qed.

Lemma run_assert D lh b (k : unit → M Ledger A) Q : b = true → run id os D lh (k tt) Q → run id os D lh (assert_ b ≫= k) Q.
Proof. intros -> Hk. exact Hk. Qed.

Lemma run_get D lh (k : Ledger → M Ledger A) Q :
  (∀ s, run id os D lh (k s) Q) → run id os D lh (get ≫= k) Q.
Proof. intros Hk V Hi Hs HD HL. apply exec_get. intros s _ _. by apply Hk. Qed.

(** What changes nothing but what is in use. *)
Lemma exec_scopedRun V0 (d : M Ledger unit) (m : M Ledger A) (Q : A → Entries → LedgerHeader → Prop) :
  (∀ V, v_id V = id → exec (V :: os) d (λ _ vs', ∃ act hact, vs' = setHact hact (setAct act V) :: os) (λ _, False)) →
  exec (V0 :: os) m
    (λ a vs', ∃ W, vs' = W :: os ∧ v_id W = id ∧ v_sealed W = false ∧ Q a (v_data W) (v_header W)) (λ vs', ∃ W, vs' = W :: os ∧ v_id W = id) →
  exec (V0 :: os) (scoped d m)
    (λ a vs', ∃ W, vs' = W :: os ∧ v_id W = id ∧ v_sealed W = false ∧ Q a (v_data W) (v_header W)) (λ vs', ∃ W, vs' = W :: os ∧ v_id W = id).
Proof.
  intros Hd Hm. apply exec_scoped. eapply exec_mono; [exact Hm|..].
  - intros a vs' (W & -> & Hi' & Hs' & HQ). eapply exec_mono; [by apply Hd| |done].
    intros _ vs' (act & hact & ->). by eexists.
  - intros vs' (W & -> & Hi'). eapply exec_mono; [by apply Hd| |done]. intros _ vs' (act & hact & ->). by eexists.
Qed.

Lemma run_scoped D lh (d : M Ledger unit) (m : M Ledger A) Q :
  (∀ V, v_id V = id → exec (V :: os) d (λ _ vs', ∃ act hact, vs' = setHact hact (setAct act V) :: os) (λ _, False)) →
  run id os D lh m Q → run id os D lh (scoped d m) Q.
Proof. intros Hd Hm V Hi Hs HD HL. apply exec_scopedRun; [done|by apply Hm]. Qed.

Lemma run_withEntry D lh h (m : option Handle → M Ledger A) Q : run id os D lh (m h) Q → run id os D lh (withEntry h m) Q.
Proof.
  apply run_scoped. intros V _. apply destroyEntry_quiet.
Qed.

Lemma run_withConst D lh c (m : option (Handle * LedgerEntry) → M Ledger A) Q :
  (∀ h e, c = Some (h, e) → LedgerEntryKey e = h_key h) → run id os D lh (m c) Q → run id os D lh (withConst c m) Q.
Proof.
  intros Hc. apply run_scoped. intros V _. apply exec_destroyConst.
  destruct c as [[h e]|]; [|by exists (v_act V), (v_hact V); destruct V]. split; [by apply Hc|].
  destruct (live _ _ _); [by exists (delete (h_key h) (v_act V)), (v_hact V)|by exists (v_act V), (v_hact V); destruct V].
Qed.

Lemma run_withWrapper D lh w (m : option TrustLineImpl → M Ledger A) Q : run id os D lh (m w) Q → run id os D lh (withWrapper w m) Q.
Proof.
  destruct w as [[h|]|]; [exact (run_withEntry D lh h (λ _, m (Some (NonIssuerImpl h))) Q)|..];
    apply run_scoped; intros V _; apply exec_ret; by exists (v_act V), (v_hact V); destruct V.
Qed.
End Rules.

Section Steps.
Context (id : nat) (os : list View) (D : Entries) (lh : LedgerHeader).

(** ** Headers *)

Lemma exec_throws {A} V (m : M Ledger A) (Q : A → list View → Prop) (X : list View → Prop) :
  (∀ s t outer, LedgerOk s → txns s = t :: outer → V = viewOf (root s) t outer → ∃ w, m s = Throw w s) →
  X (V :: os) → exec (V :: os) m Q X.
Proof.
  intros Hm HX s Hok Hv. destruct (views_cons s V os Hv) as (t & outer & Hl & EV & _).
  destruct (Hm s t outer Hok Hl EV) as [w ->]. by rewrite Hv.
Qed.

Lemma run_loadHeader (Q : LedgerTxnHeader → Entries → LedgerHeader → Prop) :
  (∀ n, Q (id, n) D lh) → run id os D lh (loadHeader id) Q.
Proof.
  intros HQ V <- Hs <- <-. destruct (v_hact V) eqn:Ha.
  - eapply exec_loadHeader_used; [done..|]. by exists V.
  - apply exec_loadHeader; [done..|]. intros n. by eexists.
Qed.

Lemma run_withHeader {A} (m : LedgerTxnHeader → M Ledger A) Q :
  (∀ n, run id os D lh (m (id, n)) Q) → run id os D lh (withHeader id m) Q.
Proof.
  intros Hm. unfold withHeader. apply run_bind, run_loadHeader. intros n. apply run_scoped; [|by apply Hm].
  intros V _. apply destroyHeader_quiet.
Qed.

Lemma headerActive_dead s V h t outer :
  LedgerOk s → txns s = t :: outer → V = viewOf (root s) t outer → hlive h V = false → headerActive s h = None.
Proof. intros Hok Hl -> Hh. by rewrite (headerActive_live s h t outer Hok Hl), Hh. Qed.

Lemma run_headerCurrent h (Q : LedgerHeader → Entries → LedgerHeader → Prop) : Q lh D lh → run id os D lh (headerCurrent h) Q.
Proof.
  intros HQ V Hi Hs <- <-. destruct (hlive h V) eqn:Ha; [apply exec_headerCurrent; [done|by exists V]|].
  apply exec_throws; [|by exists V]. intros s t outer Hok Hl EV. unfold headerCurrent, get, mbind, M_bind.
  rewrite (headerActive_dead s V h t outer) by done. by eexists.
Qed.

Lemma exec_setHeaderCurrent V h lh' (Q : unit → list View → Prop) X :
  hlive h V = true → Q tt (setVHeader lh' V :: os) → exec (V :: os) (setHeaderCurrent h lh') Q X.
Proof.
  intros Hh HQ. eapply exec_prim; [intros s Hok; by apply setHeader_keeps|]. intros s t outer Hok Hl EV Evs.
  rewrite EV in Hh, HQ. unfold setHeaderCurrent, get, mbind, M_bind. rewrite (headerActive_live s h t outer Hok Hl), Hh.
  eexists _, _. split; [done|]. unfold views. cbn [txns root app viewsOf]. rewrite <- Evs. exact HQ.
Qed.

Lemma run_setHeaderCurrent h lh' (Q : unit → Entries → LedgerHeader → Prop) :
  Q tt D lh' → run id os D lh (setHeaderCurrent h lh') Q.
Proof.
  intros HQ V Hi Hs <- <-. destruct (hlive h V) eqn:Ha; [apply exec_setHeaderCurrent; [done|by eexists]|].
  apply exec_throws; [|by exists V]. intros s t outer Hok Hl EV. unfold setHeaderCurrent, get, mbind, M_bind.
  rewrite (headerActive_dead s V h t outer) by done. by eexists.
Qed.

Lemma run_headerOf (Q : LedgerHeader → Entries → LedgerHeader → Prop) : Q lh D lh → run id os D lh (headerOf id) Q.
Proof. intros HQ. apply run_withHeader. intros n. by apply run_headerCurrent. Qed.

(** ** Entries *)

Lemma run_load k (Q : option Handle → Entries → LedgerHeader → Prop) :
  (D !! k = None → Q None D lh) → (∀ n d, D !! k = Some d → Q (Some (mkHandle id k n)) D lh) → run id os D lh (load id k) Q.
Proof.
  intros HN HS V <- Hs <- <-. destruct (v_act V !! k) eqn:Ha.
  - apply exec_throws; [|by exists V]. intros s t outer Hok Hl EV. rewrite EV in Hs, Ha |- *. cbn [viewOf v_act v_sealed v_id] in *.
    unfold load, mbind, M_bind. rewrite (openTxn_top s t outer Hl Hs), Ha. by eexists.
  - apply exec_load; [done..|]. destruct (v_data V !! k) eqn:Ed; [intros n; eexists; eauto|by exists V; eauto].
Qed.

Lemma run_loadWithoutRecord k (Q : option (Handle * LedgerEntry) → Entries → LedgerHeader → Prop) :
  (D !! k = None → Q None D lh) →
  (∀ n lm d, D !! k = Some d → Q (Some (mkHandle id k n, mkEntry lm d)) D lh) → run id os D lh (loadWithoutRecord id k) Q.
Proof.
  intros HN HS V <- Hs <- <-. destruct (v_act V !! k) eqn:Ha.
  - apply exec_throws; [|by exists V]. intros s t outer Hok Hl EV. rewrite EV in Hs, Ha |- *. cbn [viewOf v_act v_sealed v_id] in *.
    unfold loadWithoutRecord, mbind, M_bind. rewrite (openTxn_top s t outer Hl Hs), Ha. by eexists.
  - apply exec_loadWithoutRecord; [done..|]. destruct (v_data V !! k) eqn:Ed; [intros n lm; eexists; eauto|by exists V; eauto].
Qed.

Lemma run_active h (Q : bool → Entries → LedgerHeader → Prop) :
  Q false D lh → (is_Some h → Q true D lh) → run id os D lh (active h) Q.
Proof.
  intros HF HT. apply run_get. intros s. apply run_ret. destruct h as [h|]; [|done].
  destruct (isActive _ _ _); [by apply HT|done].
Qed.

Lemma lock_dead kind s V h :
  LedgerOk s → views s = V :: os → live kind h V = false → lockHandle kind s h = None.
Proof. intros Hok Hv Hl. destruct (lockHandle_live kind s h V os Hok Hv) as [[? _]|[_ ?]]; [congruence|done]. Qed.

Lemma exec_current_dead V h (Q : LedgerEntry → list View → Prop) (X : list View → Prop) :
  live MutableImpl h V = false → X (V :: os) → exec (V :: os) (current (Some h)) Q X.
Proof.
  intros Hl HX s Hok Hv. unfold current, get, mbind, M_bind. simpl. rewrite (lock_dead _ s V h Hok Hv Hl). split; [done|]. by rewrite Hv.
Qed.

Lemma run_current h (Q : LedgerEntry → Entries → LedgerHeader → Prop) :
  (∀ h' lm d, h = Some h' → D !! h_key h' = Some d → dataKeyOf d = h_key h' → Q (mkEntry lm d) D lh) →
  run id os D lh (current h) Q.
Proof.
  intros HQ V Hi Hs <- <-. destruct h as [h|]; [|apply exec_current_none; by exists V].
  destruct (live MutableImpl h V) eqn:Hl; [|apply exec_current_dead; [done|by exists V]].
  apply exec_current; [done|]. intros lm d Hd Hk. exists V. eauto.
Qed.

Lemma run_constCurrent c (Q : LedgerEntry → Entries → LedgerHeader → Prop) :
  (∀ h e, c = Some (h, e) → Q e D lh) → run id os D lh (constCurrent c) Q.
Proof.
  intros HQ. unfold constCurrent. apply run_get. intros s. destruct c as [[h e]|]; [|apply run_throw].
  destruct (isActive _ _ _); [apply run_ret; eauto|apply run_throw].
Qed.

Lemma run_setCurrent h e (Q : unit → Entries → LedgerHeader → Prop) :
  LedgerEntryKey e = h_key h → Q tt (<[h_key h := data e]> D) lh → run id os D lh (setCurrent (Some h) e) Q.
Proof.
  intros Hk HQ V Hi Hs <- <-. destruct (live MutableImpl h V) eqn:Hl.
  - apply exec_setCurrent; [done..|]. by eexists.
  - intros s Hok Hv. unfold setCurrent, get, mbind, M_bind. simpl. rewrite (lock_dead _ s V h Hok Hv Hl).
    split; [done|]. rewrite Hv. by exists V.
Qed.

Lemma run_eraseEntry h (Q : unit → Entries → LedgerHeader → Prop) :
  (∀ h' d, h = Some h' → D !! h_key h' = Some d → Q tt (delete (h_key h') D) lh) → run id os D lh (eraseEntry h) Q.
Proof.
  intros HQ V Hi Hs <- <-. destruct h as [h|].
  - destruct (live MutableImpl h V) eqn:Hl.
    + intros s Hok Hv. destruct (views_cons s V os Hv) as (t & outer & El & EV & _).
      destruct (live_data h s t outer Hok El ltac:(by rewrite <- EV)) as (e & _ & _ & _ & Hd). rewrite <- EV in Hd.
      refine (exec_eraseEntry V os h (λ u vs', ∃ W, vs' = W :: os ∧ v_id W = id ∧ v_sealed W = false ∧ Q u (v_data W) (v_header W))
        (λ vs', ∃ W, vs' = W :: os ∧ v_id W = id) Hl Hs _ s Hok Hv).
      eexists. split; [done|]. split_and!; [done|done|]. by eapply HQ.
    + unfold eraseEntry. apply exec_bind, exec_current_dead; [done|by exists V].
  - unfold eraseEntry. apply exec_bind, exec_current_none. by exists V.
Qed.

Lemma exec_create V e (Q : option Handle → list View → Prop) X :
  v_sealed V = false → v_data V !! LedgerEntryKey e = None →
  (∀ n, Q (Some (mkHandle (v_id V) (LedgerEntryKey e) n))
     (setAct (match v_act V !! LedgerEntryKey e with Some _ => v_act V | None => <[LedgerEntryKey e := MutableImpl n]> (v_act V) end) (setData (<[LedgerEntryKey e := data e]> (v_data V)) V) :: os)) →
  exec (V :: os) (create (v_id V) e) Q X.
Proof.
  intros Hs Hn HQ. eapply exec_prim; [intros s Hok; by apply create_keeps|]. intros s t outer Hok Hl EV Evs.
  rewrite EV in Hs, Hn, HQ |- *. apply view_lookup_None in Hn. cbn [viewOf v_sealed v_id] in *.
  unfold create, get, mbind, M_bind. rewrite (openTxn_top s t outer Hl Hs). cbv beta iota. rewrite Hn.
  unfold makeSharedImpl, putTxns, modify. cbv beta iota zeta. eexists _, _. split; [done|].
  unfold views. cbn [txns root viewsOf]. rewrite <- Evs.
  match goal with |- Q _ (viewOf _ (setEntry ?m (setActive ?a ?t')) _ :: _) =>
    assert (E : viewOf (root s) (setEntry m (setActive a t')) outer =
      setAct a (setData (<[LedgerEntryKey e := data e]> (v_data (viewOf (root s) t outer))) (viewOf (root s) t outer))) end.
  { unfold viewOf, setData, setAct. cbn [v_id v_data v_header v_act v_hact v_sealed txn_id mHeader mActive mActiveHeader mIsSealed setEntry setActive].
    f_equal. rewrite <- fmap_insert. f_equal. exact (visible_insert (root s) t outer (LedgerEntryKey e) e). }
  rewrite E. apply HQ.
Qed.

Lemma run_create e (Q : option Handle → Entries → LedgerHeader → Prop) :
  (∀ n, D !! LedgerEntryKey e = None → Q (Some (mkHandle id (LedgerEntryKey e) n)) (<[LedgerEntryKey e := data e]> D) lh) →
  run id os D lh (create id e) Q.
Proof.
  intros HQ V <- Hs <- <-. destruct (v_data V !! LedgerEntryKey e) eqn:Ed.
  - apply exec_throws; [|by exists V]. intros s t outer Hok Hl EV. rewrite EV in Hs, Ed |- *. cbn [viewOf v_sealed v_id] in *.
    rewrite view_lookup in Ed. unfold create, get, mbind, M_bind. rewrite (openTxn_top s t outer Hl Hs). cbv beta iota.
    destruct (getNewestVersion _ _ _); [by eexists|done].
  - apply exec_create; [done|done|]. intros n. eexists. eauto.
Qed.

End Steps.

(** Re-association, for rules that look at two steps at once. *)
Lemma run_assoc {A B C} id os D lh (m : M Ledger A) (f : A → M Ledger B) (g : B → M Ledger C) Q :
  run id os D lh (m ≫= λ a, f a ≫= g) Q → run id os D lh ((m ≫= f) ≫= g) Q.
Proof.
  intros Hr V Hi Hs HD HL s Hok Hv. specialize (Hr V Hi Hs HD HL s Hok Hv). revert Hr. unfold mbind, M_bind. by destruct (m s).
Qed.

(** A handle that was just loaded is not null exactly when the entry is there. *)
Lemma run_loadThere {A} id os D lh k (K : bool → option Handle → M Ledger A) Q :
  (D !! k = None → run id os D lh (K false None) Q) →
  (∀ n d, D !! k = Some d → run id os D lh (K true (Some (mkHandle id k n))) Q) →
  run id os D lh (h ← load id k; withEntry h (λ h, there ← active h; K there h)) Q.
Proof.
  intros HN HS V <- Hs <- <-. destruct (v_act V !! k) eqn:Ha.
  { apply exec_bind. apply exec_throws; [|by exists V]. intros s t outer Hok Hl EV. rewrite EV in Hs, Ha |- *. cbn [viewOf v_act v_sealed v_id] in *.
    unfold load, mbind, M_bind. rewrite (openTxn_top s t outer Hl Hs), Ha. by eexists. }
  apply exec_bind, exec_load; [done..|]. destruct (v_data V !! k) as [d|] eqn:Ed.
  - intros n. apply exec_scopedRun; [intros; apply destroyEntry_quiet|]. apply exec_bind, exec_get. intros s Hok Hv. apply exec_ret.
    rewrite (isActive_live _ _ _ _ _ Hok Hv), live_opened. by eapply HS.
  - apply exec_scopedRun; [intros; apply destroyEntry_quiet|]. apply exec_bind, exec_get. intros s _ _. apply exec_ret. by apply HN.
Qed.

(** ** Several offers *)

Lemma run_loadKeys id os D lh keys : ∀ (Q : list (option Handle) → Entries → LedgerHeader → Prop),
  (∀ hs, Q hs D lh) → run id os D lh (loadKeys id keys) Q.
Proof.
  induction keys as [|k keys IH]; intros Q HQ; simpl; [by apply run_ret|].
  apply run_bind, run_load; intros; apply run_bind, IH; intros hs; by apply run_ret.
Qed.

Lemma run_loadOffers `{HashOrder} id os D lh select (Q : list (option Handle) → Entries → LedgerHeader → Prop) :
  (∀ hs, Q hs D lh) → run id os D lh (loadOffers id select) Q.
Proof.
  intros HQ V <- Hs HD HL s Hok Hv. pose proof (loadOffers_keeps (v_id V) select s Hok) as HK.
  destruct (views_cons s V os Hv) as (t & outer & Hl & EV & Eos). unfold keeps, wp, loadOffers, mbind, M_bind in *.
  assert (Hid : v_id V = txn_id t) by (by rewrite EV). rewrite Hid in *.
  rewrite (openTxn_top s t outer Hl) in * by (by rewrite EV in Hs). unfold get in *.
  destruct (select _ _) as [offers|]; [|split; [done|]; rewrite Hv; by exists V].
  pose proof (run_loadKeys (txn_id t) os D lh (iterate offers).*1 Q HQ V Hid Hs HD HL s Hok Hv) as Hr.
  pose proof (loadKeys_records (txn_id t) (iterate offers).*1 s t outer Hl) as Hrec. unfold restoreOnThrow in *.
  destruct (loadKeys _ _ s) as [hs s'|w s'| |]; try done. destruct Hrec as (m & a & Hl' & Hroot & _). rewrite Hl' in *. simpl in *.
  rewrite decide_True in * by done. simpl in *. split; [by destruct HK|]. exists V. split; [|done]. unfold views. cbn [txns root viewsOf].
  rewrite Hroot, Eos. f_equal. rewrite EV. by destruct t.
Qed.

(** ** Children *)

(** [run] in a child of [P], which may end with the commit of the child. *)
Definition runIn {A} (id : nat) (P : View) (os : list View) (D : Entries) (lh : LedgerHeader) (m : M Ledger A)
    (Q : A → bool → Entries → LedgerHeader → Prop) : Prop :=
  ∀ V, v_id V = id → v_sealed V = false → v_data V = D → v_header V = lh →
  exec (V :: P :: os) m
    (λ a vs', (∃ W, vs' = W :: P :: os ∧ v_id W = id ∧ v_sealed W = false ∧ Q a false (v_data W) (v_header W)) ∨
              (∃ D' lh' act hact, vs' = setHact hact (setAct act (setVHeader lh' (setData D' P))) :: os ∧ Q a true D' lh'))
    (λ vs', ∃ W, vs' = W :: P :: os ∧ v_id W = id).

Section Children.
Context (id : nat) (P : View) (os : list View).

Lemma runIn_run {A} D lh (m : M Ledger A) Q : run id (P :: os) D lh m (λ a, Q a false) → runIn id P os D lh m Q.
Proof. intros Hm V Hi Hs HD HL. eapply exec_mono; [by apply Hm| |done]. intros a vs' HQ. by left. Qed.

Lemma runIn_bind {A B} D lh (m : M Ledger A) (k : A → M Ledger B) Q :
  run id (P :: os) D lh m (λ a D' lh', runIn id P os D' lh' (k a) Q) → runIn id P os D lh (m ≫= k) Q.
Proof.
  intros Hm V Hi Hs HD HL. apply exec_bind. eapply exec_mono; [by apply Hm| |done].
  intros a vs' (W & -> & Hi' & Hs' & HQ). by apply HQ.
Qed.

Lemma runIn_commit `{HashOrder} {A} D lh (a : A) (Q : A → bool → Entries → LedgerHeader → Prop) :
  Q a true D lh → runIn id P os D lh (commit id;; mret a) Q.
Proof.
  intros HQ V <- Hs <- <-. apply exec_bind, exec_commit, exec_ret. right.
  exists (v_data V), (v_header V), (v_act P), (v_hact P). split; [by destruct P|done].
Qed.

Lemma runIn_commit_only `{HashOrder} D lh (Q : unit → bool → Entries → LedgerHeader → Prop) :
  Q tt true D lh → runIn id P os D lh (commit id) Q.
Proof.
  intros HQ V <- Hs <- <-. apply exec_commit. right.
  exists (v_data V), (v_header V), (v_act P), (v_hact P). split; [by destruct P|done].
Qed.

(** What may commit, and then an answer. *)
Lemma runIn_answer {A B} D lh (m : M Ledger A) (b : A → B) Q :
  runIn id P os D lh m (λ a, Q (b a)) → runIn id P os D lh (m ≫= λ a, mret (b a)) Q.
Proof.
  intros Hm V Hi Hs HD HL. apply exec_bind. eapply exec_mono; [by apply Hm| |done].
  intros a vs' [(W & -> & Hi' & Hs' & HQ)|(D' & lh' & act & hact & -> & HQ)]; apply exec_ret; [left; by exists W|right].
  by exists D', lh', act, hact.
Qed.

(** [m] and then a destructor, which changes only what is in use. *)
Lemma runIn_scoped {A} D lh (d : M Ledger unit) (m : M Ledger A) Q :
  (∀ V vs, exec (V :: vs) d (λ _ vs', ∃ act hact, vs' = setHact hact (setAct act V) :: vs) (λ _, False)) →
  runIn id P os D lh m Q → runIn id P os D lh (scoped d m) Q.
Proof.
  intros Hd Hm V Hi Hs HD HL. apply exec_scoped. eapply exec_mono; [by apply Hm|..].
  - intros a vs' [(W & -> & Hi' & Hs' & HQ)|(D' & lh' & act & hact & -> & HQ)];
      (eapply exec_mono; [apply Hd| |done]); intros _ vs' (act' & hact' & ->); [left; by eexists|].
    right. exists D', lh', act', hact'. split; [by destruct P|done].
  - intros vs' (W & -> & Hi'). eapply exec_mono; [by apply Hd| |done]. intros _ vs' (act & hact & ->). by eexists.
Qed.
End Children.

Section Nested.
Context (id : nat) (P : View) (os : list View) (D : Entries) (lh : LedgerHeader).

Lemma runIn_withEntry {A} h (m : option Handle → M Ledger A) Q : runIn id P os D lh (m h) Q → runIn id P os D lh (withEntry h m) Q.
Proof. apply runIn_scoped, destroyEntry_quiet. Qed.

Lemma runIn_withHeader {A} (m : LedgerTxnHeader → M Ledger A) Q :
  (∀ n, runIn id P os D lh (m (id, n)) Q) → runIn id P os D lh (withHeader id m) Q.
Proof.
  intros Hm. unfold withHeader. apply runIn_bind, run_loadHeader. intros n. apply runIn_scoped; [apply destroyHeader_quiet|apply Hm].
Qed.
End Nested.

Lemma run_withTxn `{HashOrder} {A} id os D lh (m : nat → M Ledger A) Q :
  (∀ id' P, v_id P = id → v_sealed P = false → v_data P = D → v_header P = lh →
     runIn id' P os D lh (m id') (λ a committed D' lh', if committed then Q a D' lh' else Q a D lh)) →
  run id os D lh (withTxn id m) Q.
Proof.
  intros Hm V <- Hs <- <-. apply exec_withTxn; [done|]. intros id' Hid.
  eapply exec_mono; [apply (Hm id' (idled V)); done|..].
  - intros a vs' [(W & -> & Hi & Hs' & HQ)|(D' & lh' & act & hact & -> & HQ)].
    + left. exists W, (idled V :: os). split_and!; [done|done|]. by exists (idled V).
    + right. split; [done|]. by eexists.
  - intros vs' (W & -> & Hi). left. exists W, (idled V :: os). split_and!; [done|done|]. by exists (idled V).
Qed.

(** The conversion. *)
Lemma run_convertWithOffers `{HashOrder} id os D lh sheep wheat path filter maxOffersToCross fuel MS MW (P : OfferEntry → Prop) Q :
  modern lh → Valid lh D → filterOk filter P → (∀ x o, P o → P (oe_setAmount x o)) → offersIn_all P D →
  MS <= INT64_MAX → MW <= INT64_MAX → (size (offersIn D) < fuel)%nat →
  (∀ r sheepSend wheatReceived trail D', Valid lh D' →
     0 <= sheepSend <= Z.max 0 MS → 0 <= wheatReceived <= Z.max 0 MW →
     boughtBy trail = sheepSend → soldBy trail = wheatReceived → booksBalance sheep wheat D trail D' →
     Q (r, sheepSend, wheatReceived, trail) D' lh) →
  run id os D lh (convertWithOffers id sheep wheat path filter maxOffersToCross fuel MS MW) Q.
Proof.
  intros Hm HV HP HPset HPall HMS HMW Hf HQ V <- Hs <- <-.
  eapply exec_mono; [apply (exec_convertWithOffers V os sheep wheat path filter maxOffersToCross fuel MS MW P); done|..].
  - intros [[[r ss] wr] trail] vs' (D' & act & hact & -> & HV' & _ & H1 & H2 & H3 & H4 & Hb). eexists. split; [done|].
    split_and!; [done|done|]. by apply HQ.
  - intros vs' (D' & act & hact & -> & _). by eexists.
Qed.
