(* ===== verification/ExactLogic.v ===== *)
(** * A logic for programs that return

    [sure id os D lh act hact m Q]: in the innermost transaction [id], which shows the entries [D] and the
    header [lh] and in which the handles [act] and [hact] are in use, [m] returns, and it leaves entries,
    header and handles in [Q]; it does not throw. Unlike [run], which leaves open which handles are in use,
    it can say that an operation returns, and with what. *)
From stdpp Require Import base list gmap strings.
From Stdlib Require Import ZArith Lia.
From S2P Require Import Prelude Numeric LedgerEntries Balances BalancesSpec LedgerTxn LedgerTxnSpec LedgerOffers TrustLines LedgerLogic CrossOffers CrossOffersSpec BookSpec OpTypes RunLogic.

Notation InUse := (gmap LedgerKey EntryImpl).

Definition sure {A} (id : nat) (os : list View) (D : Entries) (lh : LedgerHeader) (act : InUse) (hact : option nat) (m : M Ledger A)
    (Q : A → Entries → LedgerHeader → InUse → option nat → Prop) : Prop :=
  exec (mkView id D lh act hact false :: os) m
    (λ a vs', ∃ D' lh' act' hact', vs' = mkView id D' lh' act' hact' false :: os ∧ Q a D' lh' act' hact') (λ _, False).

(** ... and the same handles are in use afterwards. *)
Definition tidy {A} (id : nat) (os : list View) (D : Entries) (lh : LedgerHeader) (act : InUse) (hact : option nat) (m : M Ledger A)
    (Q : A → Entries → LedgerHeader → Prop) : Prop :=
  sure id os D lh act hact m (λ a D' lh' act' hact', act' = act ∧ hact' = hact ∧ Q a D' lh').

Section Rules.
Context {A B : Type} (id : nat) (os : list View) (D : Entries) (lh : LedgerHeader) (act : InUse) (hact : option nat).

Lemma sure_bind (m : M Ledger A) (k : A → M Ledger B) Q :
  sure id os D lh act hact m (λ a D' lh' act' hact', sure id os D' lh' act' hact' (k a) Q) → sure id os D lh act hact (m ≫= k) Q.
Proof.
  intros Hm. apply exec_bind. eapply exec_mono; [exact Hm| |done]. intros a vs' (D' & lh' & act' & hact' & -> & HQ). exact HQ.
Qed.

Lemma tidy_ret (a : A) Q : Q a D lh → tidy id os D lh act hact (mret a) Q.
Proof. intros HQ. apply exec_ret. by exists D, lh, act, hact. Qed.

Lemma tidy_bind (m : M Ledger A) (k : A → M Ledger B) Q :
  tidy id os D lh act hact m (λ a D' lh', tidy id os D' lh' act hact (k a) Q) → tidy id os D lh act hact (m ≫= k) Q.
Proof.
  intros Hm. apply sure_bind. eapply exec_mono; [exact Hm| |done].
  intros a vs' (D' & lh' & act' & hact' & -> & -> & -> & HQ). by exists D', lh', act, hact.
Qed.

Lemma tidy_then (m : M Ledger A) (k : A → M Ledger B) Q :
  tidy id os D lh act hact m (λ a D' lh', sure id os D' lh' act hact (k a) Q) → sure id os D lh act hact (m ≫= k) Q.
Proof.
  intros Hm. apply sure_bind. eapply exec_mono; [exact Hm| |done].
  intros a vs' (D' & lh' & act' & hact' & -> & -> & -> & HQ). by exists D', lh', act, hact.
Qed.

Lemma tidy_mono (m : M Ledger A) (Q Q' : A → Entries → LedgerHeader → Prop) :
  tidy id os D lh act hact m Q → (∀ a D' lh', Q a D' lh' → Q' a D' lh') → tidy id os D lh act hact m Q'.
Proof.
  intros Hm HQ. eapply exec_mono; [exact Hm| |done]. intros a vs' (D' & lh' & act' & hact' & -> & -> & -> & Ha).
  exists D', lh', act, hact. auto.
Qed.

Lemma tidy_pure (m : M Ledger A) Q a : (∀ s, m s = Ok a s) → Q a D lh → tidy id os D lh act hact m Q.
Proof. intros Hm HQ. apply (exec_pure _ _ _ _ a Hm). by exists D, lh, act, hact. Qed.

Lemma tidy_assert b (k : unit → M Ledger A) Q :
  b = true → tidy id os D lh act hact (k tt) Q → tidy id os D lh act hact (assert_ b ≫= k) Q.
Proof. intros -> Hk. exact Hk. Qed.

(** ** Headers *)

Lemma tidy_withHeader (m : LedgerTxnHeader → M Ledger A) Q :
  hact = None → (∀ n, tidy id os D lh act (Some n) (m (id, n)) Q) → tidy id os D lh act hact (withHeader id m) Q.
Proof.
  intros -> Hm. apply (exec_withHeader (mkView id D lh act None false)); [done..|]. intros n. eapply exec_mono; [apply Hm| |done].
  intros a vs' (D' & lh' & act' & hact' & -> & -> & -> & HQ). cbn [v_id].
  rewrite (proj2 (hlive_true (id, n) (mkView id D' lh' act (Some n) false))) by done.
  by exists D', lh', act, None.
Qed.

Lemma tidy_headerCurrent n Q : hact = Some n → Q lh D lh → tidy id os D lh act hact (headerCurrent (id, n)) Q.
Proof. intros -> HQ. apply exec_headerCurrent; [by apply hlive_true|]. by exists D, lh, act, (Some n). Qed.

Lemma tidy_setHeaderCurrent n lh' Q : hact = Some n → Q tt D lh' → tidy id os D lh act hact (setHeaderCurrent (id, n) lh') Q.
Proof. intros -> HQ. apply exec_setHeaderCurrent; [by apply hlive_true|]. by exists D, lh', act, (Some n). Qed.

(** ** Entries *)

(** The end of a scope in which the handle may have been given back by erasing the entry. *)
Definition mayErase (k : LedgerKey) (n : nat) (Q : A → Entries → LedgerHeader → Prop) (a : A) (D' : Entries) (lh' : LedgerHeader)
    (act' : InUse) (hact' : option nat) : Prop :=
  (act' = <[k := MutableImpl n]> act ∨ act' = act) ∧ hact' = hact ∧ Q a D' lh'.

Lemma tidy_opened k n (m : option Handle → M Ledger A) Q :
  act !! k = None →
  sure id os D lh (<[k := MutableImpl n]> act) hact (m (Some (mkHandle id k n))) (mayErase k n Q) →
  exec (mkView id D lh (<[k := MutableImpl n]> act) hact false :: os) (withEntry (Some (mkHandle id k n)) m)
    (λ a vs', ∃ D' lh' act' hact', vs' = mkView id D' lh' act' hact' false :: os ∧ act' = act ∧ hact' = hact ∧ Q a D' lh') (λ _, False).
Proof.
  intros Ha Hm. apply exec_scoped. eapply exec_mono; [exact Hm| |done]. intros a vs' (D' & lh' & act' & hact' & -> & Hact & -> & HQ).
  apply exec_destroyEntry. exists D', lh', act, hact. split; [|done]. unfold live, setAct. cbn [h_txn h_key h_impl v_id v_act v_data v_header v_hact v_sealed].
  rewrite bool_decide_true by done. destruct Hact as [->| ->].
  - rewrite lookup_insert_eq, bool_decide_true by done. simpl. by rewrite delete_insert_id.
  - by rewrite Ha, bool_decide_false by done.
Qed.

Lemma tidy_withNone (m : option Handle → M Ledger A) Q : tidy id os D lh act hact (m None) Q → tidy id os D lh act hact (withEntry None m) Q.
Proof. intros Hm. apply exec_scoped. eapply exec_mono; [exact Hm| |done]. intros a vs' HQ. destruct HQ as (D' & lh' & act' & hact' & -> & ?).
  apply exec_destroyEntry. by exists D', lh', act', hact'. Qed.

(** [load] and the scope of the handle. *)
Lemma tidy_load k (m : option Handle → M Ledger A) Q :
  act !! k = None →
  (D !! k = None → tidy id os D lh act hact (m None) Q) →
  (∀ n d, D !! k = Some d → sure id os D lh (<[k := MutableImpl n]> act) hact (m (Some (mkHandle id k n))) (mayErase k n Q)) →
  tidy id os D lh act hact (h ← load id k; withEntry h m) Q.
Proof.
  intros Ha HN HS. apply exec_bind. apply (exec_load (mkView id D lh act hact false)); [done..|]. cbn [v_data].
  destruct (D !! k) as [d|] eqn:Ed; [|by apply tidy_withNone, HN]. intros n. by apply tidy_opened; [|apply (HS n d)].
Qed.

(** ... when the handle stays in use until the end of its scope. *)
Lemma tidy_keeps k n (m : M Ledger A) Q :
  tidy id os D lh (<[k := MutableImpl n]> act) hact m Q →
  sure id os D lh (<[k := MutableImpl n]> act) hact m (mayErase k n Q).
Proof. intros Hm. eapply exec_mono; [exact Hm| |done]. intros a vs' (D' & lh' & act' & hact' & -> & -> & -> & HQ). exists D', lh', (<[k := MutableImpl n]> act), hact. split; [done|]. split; [by left|done]. Qed.

Lemma tidy_erased k n (m : M Ledger A) Q :
  tidy id os D lh act hact m Q → sure id os D lh act hact m (mayErase k n Q).
Proof. intros Hm. eapply exec_mono; [exact Hm| |done]. intros a vs' (D' & lh' & act' & hact' & -> & -> & -> & HQ). exists D', lh', act, hact. split; [done|]. split; [by right|done]. Qed.

Lemma tidy_active h Q : Q (match h with Some h => bool_decide (h_txn h = id ∧ act !! h_key h = Some (MutableImpl (h_impl h))) | None => false end) D lh →
  tidy id os D lh act hact (active h) Q.
Proof.
  intros HQ. apply exec_get. intros s Hok Hv. apply exec_ret. exists D, lh, act, hact. split; [done|]. split; [done|]. split; [done|].
  destruct h as [h|]; [|done]. rewrite (isActive_live _ _ _ _ _ Hok Hv). unfold live. cbn [v_id v_act]. by rewrite bool_decide_and in HQ.
Qed.

Lemma live_mk k n D' lh' act' hact' : act' !! k = Some (MutableImpl n) → live MutableImpl (mkHandle id k n) (mkView id D' lh' act' hact' false) = true.
Proof. intros Ha. by apply live_true. Qed.

Lemma tidy_current k n d Q :
  act !! k = Some (MutableImpl n) → D !! k = Some d → (∀ lm, Q (mkEntry lm d) D lh) →
  tidy id os D lh act hact (current (Some (mkHandle id k n))) Q.
Proof.
  intros Ha Hd HQ. apply exec_current; [by apply live_mk|]. intros lm d' Hd' _. cbn [v_data h_key] in Hd'. rewrite Hd in Hd'. injection Hd' as <-.
  by exists D, lh, act, hact.
Qed.

Lemma tidy_onEntry k n d (f : M LedgerEntry A) Q :
  act !! k = Some (MutableImpl n) → D !! k = Some d →
  (∀ lm, ∃ a d', f (mkEntry lm d) = Ok a (mkEntry lm d') ∧ dataKeyOf d' = k ∧ Q a (<[k := d']> D) lh) →
  tidy id os D lh act hact (onEntry (Some (mkHandle id k n)) f) Q.
Proof.
  intros Ha Hd Hf. apply exec_onEntry; [by apply live_mk|]. intros lm d' Hd' _. cbn [v_data h_key] in Hd' |- *. rewrite Hd in Hd'. injection Hd' as <-.
  destruct (Hf lm) as (a & d' & -> & Hk & HQ). split; [done|]. by exists (<[k := d']> D), lh, act, hact.
Qed.

Lemma tidy_setCurrent k n e Q :
  act !! k = Some (MutableImpl n) → LedgerEntryKey e = k → Q tt (<[k := data e]> D) lh →
  tidy id os D lh act hact (setCurrent (Some (mkHandle id k n)) e) Q.
Proof. intros Ha Hk HQ. apply exec_setCurrent; [by apply live_mk|done|]. by exists (<[k := data e]> D), lh, act, hact. Qed.

Lemma sure_eraseEntry k n Q :
  act !! k = Some (MutableImpl n) → Q tt (delete k D) lh (delete k act) hact →
  sure id os D lh act hact (eraseEntry (Some (mkHandle id k n))) Q.
Proof. intros Ha HQ. apply exec_eraseEntry; [by apply live_mk|done|]. by exists (delete k D), lh, (delete k act), hact. Qed.

Lemma tidy_constCurrent k n e Q :
  act !! k = Some (ConstImpl n) → Q e D lh → tidy id os D lh act hact (constCurrent (Some (mkHandle id k n, e))) Q.
Proof.
  intros Ha HQ. apply exec_get. intros s Hok Hv. rewrite (isActive_live _ _ _ _ _ Hok Hv).
  assert (live ConstImpl (mkHandle id k n) (mkView id D lh act hact false) = true) as -> by by apply live_true.
  apply exec_ret. by exists D, lh, act, hact.
Qed.

(** [loadWithoutRecord] and the scope of its handle. *)
Lemma tidy_loadConst k (m : option (Handle * LedgerEntry) → M Ledger A) Q :
  act !! k = None →
  (D !! k = None → tidy id os D lh act hact (m None) Q) →
  (∀ n lm d, D !! k = Some d → dataKeyOf d = k → tidy id os D lh (<[k := ConstImpl n]> act) hact (m (Some (mkHandle id k n, mkEntry lm d))) Q) →
  (∀ d, D !! k = Some d → dataKeyOf d = k) →
  tidy id os D lh act hact (c ← loadWithoutRecord id k; withConst c m) Q.
Proof.
  intros Ha HN HS Hk. apply exec_bind. apply (exec_loadWithoutRecord (mkView id D lh act hact false)); [done..|]. cbn [v_data].
  destruct (D !! k) as [d|] eqn:Ed.
  - intros n lm. apply exec_scoped. eapply exec_mono; [by apply HS, Hk| |done]. intros a vs' (D' & lh' & act' & hact' & -> & -> & -> & HQ).
    apply exec_destroyConst. split; [exact (Hk d eq_refl)|]. exists D', lh', act, hact. split; [|done]. unfold live, setAct. cbn [h_txn h_key h_impl v_id v_act v_data v_header v_hact v_sealed].
    rewrite lookup_insert_eq, !bool_decide_true by done. simpl. by rewrite delete_insert_id.
  - apply exec_scoped. eapply exec_mono; [by apply HN| |done]. intros a vs' HQ. destruct HQ as (D' & lh' & act' & hact' & -> & ?).
    apply exec_destroyConst. by exists D', lh', act', hact'.
Qed.

Lemma tidy_constIsActive c Q :
  Q (match c with Some (h, _) => bool_decide (h_txn h = id ∧ act !! h_key h = Some (ConstImpl (h_impl h))) | None => false end) D lh →
  tidy id os D lh act hact (constIsActive c) Q.
Proof.
  intros HQ. apply exec_get. intros s Hok Hv. apply exec_ret. exists D, lh, act, hact. split; [done|]. split; [done|]. split; [done|].
  destruct c as [[h e]|]; [|done]. change (constActive s (Some (h, e))) with (isActive ConstImpl s (Some h)). rewrite (isActive_live _ _ _ _ _ Hok Hv). unfold live. cbn [v_id v_act]. by rewrite bool_decide_and in HQ.
Qed.
End Rules.

(** ** Steps that recur *)

Section Steps.
Context (id : nat) (os : list View) (D : Entries) (lh : LedgerHeader) (act : InUse) (hact : option nat).

Lemma tidy_assoc {A B C} (m : M Ledger A) (f : A → M Ledger B) (g : B → M Ledger C) Q :
  tidy id os D lh act hact (m ≫= λ a, f a ≫= g) Q → tidy id os D lh act hact ((m ≫= f) ≫= g) Q.
Proof. intros Hr s Hok Hv. specialize (Hr s Hok Hv). revert Hr. unfold mbind, M_bind. by destruct (m s). Qed.

Lemma tidy_group {A B C} (m : M Ledger A) (f : A → M Ledger B) (g : B → M Ledger C) Q :
  tidy id os D lh act hact ((m ≫= f) ≫= g) Q → tidy id os D lh act hact (m ≫= λ a, f a ≫= g) Q.
Proof. intros Hr s Hok Hv. specialize (Hr s Hok Hv). revert Hr. unfold mbind, M_bind. by destruct (m s). Qed.

Lemma tidy_headerOf Q : hact = None → Q lh D lh → tidy id os D lh act hact (headerOf id) Q.
Proof. intros -> HQ. apply tidy_withHeader; [done|]. intros n. by apply tidy_headerCurrent. Qed.

(** [create] and the scope of the handle. *)
Lemma tidy_create {A} e (m : option Handle → M Ledger A) Q :
  act !! LedgerEntryKey e = None → D !! LedgerEntryKey e = None →
  (∀ n, tidy id os (<[LedgerEntryKey e := data e]> D) lh (<[LedgerEntryKey e := MutableImpl n]> act) hact
     (m (Some (mkHandle id (LedgerEntryKey e) n))) Q) →
  tidy id os D lh act hact (h ← create id e; withEntry h m) Q.
Proof.
  intros Ha Hd Hm. apply exec_bind. apply (exec_create os (mkView id D lh act hact false)); [done..|]. intros n. cbn [v_act v_id v_data]. rewrite Ha.
  apply tidy_opened; [done|]. by apply tidy_keeps, Hm.
Qed.

Lemma tidy_accountExists a Q :
  act !! ACCOUNT a = None → (∀ d, D !! ACCOUNT a = Some d → dataKeyOf d = ACCOUNT a) →
  Q (bool_decide (is_Some (D !! ACCOUNT a))) D lh → tidy id os D lh act hact (accountExists id a) Q.
Proof.
  intros Ha Hk HQ. apply tidy_loadConst; [done|..|done]; change (accountKey a) with (ACCOUNT a).
  - intros Hn. apply tidy_constIsActive. rewrite Hn in HQ. by rewrite bool_decide_false in HQ by (intros []; congruence).
  - intros n lm d Hd _. apply tidy_constIsActive. cbn [h_txn h_key h_impl]. rewrite Hd in HQ. rewrite bool_decide_true in HQ by done.
    rewrite bool_decide_true; [done|]. by rewrite lookup_insert_eq.
Qed.

(** A pure function of the entry behind a handle and of the header. *)
Lemma tidy_readEntry {A} (f : LedgerHeader → LedgerEntry → M Ledger A) k n m d x Q :
  hact = Some m → act !! k = Some (MutableImpl n) → D !! k = Some d →
  (∀ lm s, f lh (mkEntry lm d) s = Ok x s) → Q x D lh → tidy id os D lh act hact (readEntry f (id, m) (Some (mkHandle id k n))) Q.
Proof.
  intros Hh Ha Hd Hf HQ. unfold readEntry, underHeader. apply tidy_bind, tidy_headerCurrent; [done|]. apply tidy_bind, tidy_current with d; [done..|].
  intros lm. by apply tidy_pure with x.
Qed.

Lemma tidy_currentAccount k n a Q :
  act !! k = Some (MutableImpl n) → D !! k = Some (Account a) → Q a D lh →
  tidy id os D lh act hact (currentAccount (Some (mkHandle id k n))) Q.
Proof. intros Ha Hd HQ. apply tidy_bind, tidy_current with (Account a); [done..|]. intros lm. by apply tidy_ret. Qed.

Lemma tidy_modifyAccount k n a f Q :
  act !! k = Some (MutableImpl n) → D !! k = Some (Account a) → k = ACCOUNT (acc_accountID a) → acc_accountID (f a) = acc_accountID a →
  Q tt (<[k := Account (f a)]> D) lh → tidy id os D lh act hact (modifyAccount (Some (mkHandle id k n)) f) Q.
Proof.
  intros Ha Hd Hk Hf HQ. apply tidy_bind, tidy_current with (Account a); [done..|]. intros lm. apply tidy_bind, tidy_ret.
  apply tidy_setCurrent; [done| |done]. by rewrite Hk, <- Hf.
Qed.

End Steps.

(** ** Children that may commit

    [ends]: the transaction [id] inside [P] is as it was in the end, or it has been committed into [P],
    which then shows its entries and its header. *)
Definition ends {A} (id : nat) (P : View) (os : list View) (D : Entries) (lh : LedgerHeader) (act : InUse) (hact : option nat)
    (m : M Ledger A) (Q : A → bool → Entries → LedgerHeader → Prop) : Prop :=
  exec (mkView id D lh act hact false :: P :: os) m
    (λ a vs', (∃ D' lh', vs' = mkView id D' lh' act hact false :: P :: os ∧ Q a false D' lh') ∨
              (∃ D' lh', vs' = setVHeader lh' (setData D' P) :: os ∧ Q a true D' lh')) (λ _, False).

Section Children.
Context `{HashOrder} {A : Type} (id : nat) (P : View) (os : list View) (D : Entries) (lh : LedgerHeader) (act : InUse) (hact : option nat).
Context (Hfresh : id ≠ v_id P).

Lemma ends_tidy (m : M Ledger A) (Q : A → bool → Entries → LedgerHeader → Prop) :
  tidy id (P :: os) D lh act hact m (λ a, Q a false) → ends id P os D lh act hact m Q.
Proof. intros Hm. eapply exec_mono; [exact Hm| |done]. intros a vs' (D' & lh' & act' & hact' & -> & -> & -> & HQ). left. by exists D', lh'. Qed.

Lemma ends_bind {B} (m : M Ledger B) (k : B → M Ledger A) Q :
  tidy id (P :: os) D lh act hact m (λ b D' lh', ends id P os D' lh' act hact (k b) Q) → ends id P os D lh act hact (m ≫= k) Q.
Proof.
  intros Hm. apply exec_bind. eapply exec_mono; [exact Hm| |done]. intros b vs' (D' & lh' & act' & hact' & -> & -> & -> & HQ). exact HQ.
Qed.

Lemma ends_assoc {B C} (m : M Ledger B) (f : B → M Ledger C) (g : C → M Ledger A) Q :
  ends id P os D lh act hact (m ≫= λ a, f a ≫= g) Q → ends id P os D lh act hact ((m ≫= f) ≫= g) Q.
Proof. intros Hr s Hok Hv. specialize (Hr s Hok Hv). revert Hr. unfold mbind, M_bind. by destruct (m s). Qed.

(** Nothing follows a commit but an answer. *)
Lemma ends_commit (a : A) Q : Q a true D lh → ends id P os D lh act hact (commit id;; mret a) Q.
Proof.
  intros HQ. apply exec_bind, (exec_commit (mkView id D lh act hact false)), exec_ret. right. by exists D, lh.
Qed.

Lemma ends_withHeader (m : LedgerTxnHeader → M Ledger A) Q :
  hact = None → (∀ n, ends id P os D lh act (Some n) (m (id, n)) Q) → ends id P os D lh act hact (withHeader id m) Q.
Proof.
  intros -> Hm. apply (exec_withHeader (mkView id D lh act None false)); [done..|]. intros n. eapply exec_mono; [apply Hm| |done]. cbn [v_id].
  intros a vs' [(D' & lh' & -> & HQ)|(D' & lh' & -> & HQ)].
  - rewrite (proj2 (hlive_true (id, n) (mkView id D' lh' act (Some n) false))) by done. left. by exists D', lh'.
  - assert (hlive (id, n) (setVHeader lh' (setData D' P)) = false) as ->.
    { unfold hlive. rewrite bool_decide_false by done. done. }
    right. by exists D', lh'.
Qed.

Lemma ends_load k (m : option Handle → M Ledger A) Q :
  act !! k = None →
  (D !! k = None → tidy id (P :: os) D lh act hact (m None) (λ a, Q a false)) →
  (∀ n d, D !! k = Some d → ends id P os D lh (<[k := MutableImpl n]> act) hact (m (Some (mkHandle id k n))) Q) →
  ends id P os D lh act hact (h ← load id k; withEntry h m) Q.
Proof.
  intros Ha HN HS. apply exec_bind. apply (exec_load (mkView id D lh act hact false)); [done..|]. cbn [v_data].
  destruct (D !! k) as [d|] eqn:Ed; [|by apply ends_tidy, tidy_withNone, HN]. intros n.
  apply exec_scoped. eapply exec_mono; [by eapply HS| |done]. intros a vs' [(D' & lh' & -> & HQ)|(D' & lh' & -> & HQ)]; apply exec_destroyEntry.
  - left. exists D', lh'. split; [|done]. unfold live, setAct. cbn [h_txn h_key h_impl v_id v_act v_data v_header v_hact v_sealed].
    rewrite lookup_insert_eq, !bool_decide_true by done. cbn [andb]. by rewrite delete_insert_id.
  - right. exists D', lh'. split; [|done]. unfold live. cbn [h_txn h_key h_impl]. rewrite bool_decide_false by done. done.
Qed.
End Children.

Lemma tidy_withTxn `{HashOrder} {A} id os D lh act hact (m : nat → M Ledger A) Q :
  act = ∅ → hact = None →
  (∀ id', id' ≠ id → ends id' (mkView id D lh ∅ None false) os D lh ∅ None (m id') (λ a committed D' lh', if committed then Q a D' lh' else Q a D lh)) →
  tidy id os D lh act hact (withTxn id m) Q.
Proof.
  intros -> -> Hm. apply (exec_withTxn (mkView id D lh ∅ None false)); [done|]. intros id' Hid.
  rewrite fmap_cons, not_elem_of_cons in Hid. destruct Hid as [Hne Hin]. eapply exec_mono; [by apply Hm| |done].
  intros a vs' [(D' & lh' & -> & HQ)|(D' & lh' & -> & HQ)].
  - left. eexists _, _. split; [done|]. split; [done|]. by exists D, lh, ∅, None.
  - right. rewrite fmap_cons, not_elem_of_cons. split; [done|]. by exists D', lh', ∅, None.
Qed.
