(* ===== verification/Lumens.v ===== *)
(** * The total of lumens

    The sum of the native balances of the accounts, and how it changes with the entries. *)
From stdpp Require Import base list gmap strings.
From Stdlib Require Import ZArith Lia.
From S2P Require Import Prelude Numeric LedgerEntries Balances BalancesSpec LedgerTxn TrustLines LedgerLogic CrossOffers CrossOffersSpec BookSpec.

(** What an entry adds to the total. *)
Definition lumensAt (k : LedgerKey) (d : EntryData) : Z :=
  match k, d with ACCOUNT _, Account a => acc_balance a | _, _ => 0 end.
Definition lumens (D : Entries) : Z := map_fold (λ k d x, lumensAt k d + x) 0 D.

Lemma lumens_empty : lumens ∅ = 0.
Proof. apply map_fold_empty. Qed.

Lemma lumens_insert_new D k d : D !! k = None → lumens (<[k := d]> D) = lumensAt k d + lumens D.
Proof. intros Hk. unfold lumens. rewrite map_fold_insert_L; [done| |done]. intros. lia. Qed.

Lemma lumens_delete D k d : D !! k = Some d → lumens (delete k D) = lumens D - lumensAt k d.
Proof.
  intros Hk. rewrite <- (insert_delete_id D k d Hk) at 2. rewrite lumens_insert_new by apply lookup_delete_eq. lia.
Qed.

Lemma lumens_insert D k d d' : D !! k = Some d → lumens (<[k := d']> D) = lumens D - lumensAt k d + lumensAt k d'.
Proof.
  intros Hk. rewrite <- insert_delete_eq, lumens_insert_new by apply lookup_delete_eq. rewrite (lumens_delete D k d Hk). lia.
Qed.

(** ** By accounts *)

Definition total (m : gmap AccountID Z) : Z := map_fold (λ _ b x, b + x) 0 m.

Lemma total_insert m a b : m !! a = None → total (<[a := b]> m) = b + total m.
Proof. intros Hk. unfold total. rewrite map_fold_insert_L; [done| |done]. intros. lia. Qed.
Lemma total_update m a b b' : m !! a = Some b → total (<[a := b']> m) = total m - b + b'.
Proof.
  intros Hk. rewrite <- insert_delete_eq, total_insert by apply lookup_delete_eq.
  rewrite <- (insert_delete_id m a b Hk) at 2. rewrite total_insert by apply lookup_delete_eq. lia.
Qed.

(** The balances of the accounts. *)
Lemma balances D : ∃ m : gmap AccountID Z, (∀ a, m !! a = holding D a ASSET_TYPE_NATIVE) ∧ total m = lumens D.
Proof.
  induction D as [|k d D Hk [m [Hm Ht]]] using map_ind.
  - exists ∅. split; [|done]. intros a. simpl. by rewrite !lookup_empty.
  - assert (Hother : lumensAt k d = 0 → (∀ a acc, k = ACCOUNT a → d ≠ Account acc) →
      ∃ m : gmap AccountID Z, (∀ a, m !! a = holding (<[k := d]> D) a ASSET_TYPE_NATIVE) ∧ total m = lumens (<[k := d]> D)).
    { intros H0 Hne. exists m. rewrite lumens_insert_new, H0, Ht by done. split; [|done]. intros a. rewrite Hm. simpl.
      destruct (decide (k = ACCOUNT a)) as [->|Hka]; [|by rewrite lookup_insert_ne]. rewrite lookup_insert_eq, Hk.
      destruct d; try done. exfalso. by eapply Hne. }
    destruct k as [a| | |]; try (by apply Hother). destruct d as [acc| | |]; try (by apply Hother).
    exists (<[a := acc_balance acc]> m). split.
    + intros a'. simpl. destruct (decide (a' = a)) as [->|Hne]; [by rewrite !lookup_insert_eq|].
      rewrite !lookup_insert_ne by congruence. apply Hm.
    + rewrite total_insert by (rewrite Hm; simpl; by rewrite Hk). rewrite lumens_insert_new by done. simpl. lia.
Qed.

(** The total after every balance changed by what payments to existing accounts say. *)
Lemma total_paid (l : list (AccountID * Z)) : ∀ m m' : gmap AccountID Z,
  Forall (λ p, is_Some (m !! p.1)) l →
  (∀ a, m' !! a = (λ b, b + foldr (λ p x, (if decide (a = p.1) then p.2 else 0) + x) 0 l) <$> m !! a) →
  total m' = total m + foldr (λ p x, p.2 + x) 0 l.
Proof.
  induction l as [|[a x] l IH]; intros m m' Hl Hm; simpl in *.
  - assert (m' = m) as ->; [|lia]. apply map_eq. intros a. rewrite Hm. apply option_shift_0.
  - apply Forall_cons in Hl as [[b Hb] Hl]. simpl in Hb.
    assert (Hl' : Forall (λ p, is_Some (<[a := b + x]> m !! p.1)) l).
    { eapply Forall_impl; [exact Hl|]. intros p Hp. destruct (decide (p.1 = a)) as [->|Hne]; [rewrite lookup_insert_eq; by eexists|by rewrite lookup_insert_ne]. }
    rewrite (IH (<[a := b + x]> m) m' Hl').
    + rewrite (total_update m a b _ Hb). lia.
    + intros a'. rewrite Hm. destruct (decide (a' = a)) as [->|Hne]; [rewrite lookup_insert_eq, Hb|rewrite lookup_insert_ne by done].
      * simpl. f_equal. lia.
      * destruct (m !! a'); [simpl; f_equal; lia|done].
Qed.

(** What the claims of a conversion move of the native asset. *)
Lemma books_lumens sheep wheat D trail D' :
  booksBalance sheep wheat D trail D' →
  lumens D' = lumens D + (if isNative sheep then boughtBy trail else 0) - (if isNative wheat then soldBy trail else 0).
Proof.
  intros (Hh & Hc & _). destruct (balances D) as (m & Hm & <-). destruct (balances D') as (m' & Hm' & <-).
  set (l := (λ c, (sellerID c, (if isNative sheep then amountBought c else 0) - (if isNative wheat then amountSold c else 0))) <$> trail).
  rewrite (total_paid l m m').
  - unfold l, boughtBy, soldBy. clear -trail. induction trail as [|c trail IH]; csimpl in *; [destruct (isNative sheep), (isNative wheat); lia|].
    destruct (isNative sheep), (isNative wheat); lia.
  - apply Forall_fmap. eapply Forall_impl; [exact Hc|]. intros c (_ & _ & _ & _ & _ & Ha). simpl. by rewrite Hm.
  - intros a. rewrite Hm', Hm, Hh. destruct (holding D a ASSET_TYPE_NATIVE); [|done]. simpl. f_equal. f_equal.
    unfold l. clear -Hc. induction Hc as [|c trail (Ew & Es & _) Hc IH]; [done|]. simpl. rewrite IH. clear IH. f_equal.
    unfold claimed, pay. rewrite Ew, Es. destruct (decide (a = sellerID c)) as [->|Hne].
    + destruct sheep; destruct wheat; repeat case_decide; simpl in *; first [lia|exfalso; naive_solver].
    + rewrite !decide_False by naive_solver. lia.
Qed.
