(* ===== verification/OpSteps.v ===== *)
(** * Steps of operations

    What the functions on accounts, trust lines and liabilities do to the validity of the ledger, to
    the total of lumens and to the book, in the logic of [RunLogic], from version 10 on. *)
From stdpp Require Import base list gmap strings.
From Stdlib Require Import ZArith Lia.
From S2P Require Import Prelude UInt128 Numeric Exchange LedgerEntries Balances BalancesSpec LedgerTxn LedgerTxnSpec LedgerOffers TrustLines LedgerLogic CrossOffers CrossOffersSpec BookSpec OpTypes RunLogic Lumens.

(** The ledger stays valid, the total changes by [x], the offers only shrink. *)
Definition stepped (lh : LedgerHeader) (D D' : Entries) (x : Z) : Prop :=
  Valid lh D' ∧ lumens D' = lumens D + x ∧ offersShrink D D'.

Lemma stepped_refl lh D : Valid lh D → stepped lh D D 0.
Proof. intros HV. split; [done|]. split; [lia|apply offersShrink_refl]. Qed.
Lemma stepped_trans lh D D1 D2 x y : stepped lh D D1 x → stepped lh D1 D2 y → stepped lh D D2 (x + y).
Proof. intros (H1 & H2 & H3) (G1 & G2 & G3). split; [done|]. split; [lia|by eapply offersShrink_trans]. Qed.
Lemma stepped_eq lh D D' x y : stepped lh D D' x → x = y → stepped lh D D' y.
Proof. by intros ? <-. Qed.

Lemma offersShrink_insert D k d : isOfferKey k = false → dataKeyOf d = k → offersShrink D (<[k := d]> D).
Proof.
  intros Hk Hd k' o Ho. apply lookup_insert_Some in Ho as [[<- ->]|[_ Ho]]; [by rewrite <- Hd in Hk|by apply offersShrink_refl].
Qed.
Lemma offersShrink_delete D k : offersShrink D (delete k D).
Proof. intros k' o Ho. apply lookup_delete_Some in Ho as [_ Ho]. by apply offersShrink_refl. Qed.

Lemma offersShrink_size lh D D' : Valid lh D → Valid lh D' → offersShrink D D' → (size (offersIn D') <= size (offersIn D))%nat.
Proof.
  intros HV HV' Hs. rewrite <- !size_dom. apply subseteq_size. intros k [d Hd]%elem_of_dom. rewrite offersIn_lookup in Hd.
  destruct (isOfferKey k) eqn:Ek; [|done]. destruct (HV' _ _ Hd) as [Hk _]. destruct d as [| |o|]; try (by subst).
  destruct (Hs _ _ Hd) as (o' & Ho' & _). apply elem_of_dom. rewrite offersIn_lookup, Ek. by eexists.
Qed.

Lemma stepped_insert lh D k d d' :
  Valid lh D → D !! k = Some d → isOfferKey k = false → dataKeyOf d' = k → dataOk lh d' →
  stepped lh D (<[k := d']> D) (lumensAt k d' - lumensAt k d).
Proof.
  intros HV Hk Ho Hk' Hd'. split; [by apply Valid_insert|]. split; [rewrite (lumens_insert D k d d' Hk); lia|by apply offersShrink_insert].
Qed.
Lemma stepped_create lh D k d :
  Valid lh D → D !! k = None → isOfferKey k = false → dataKeyOf d = k → dataOk lh d → stepped lh D (<[k := d]> D) (lumensAt k d).
Proof.
  intros HV Hk Ho Hk' Hd. split; [by apply Valid_insert|]. split; [rewrite lumens_insert_new by done; lia|by apply offersShrink_insert].
Qed.
Lemma stepped_delete lh D k d : Valid lh D → D !! k = Some d → stepped lh D (delete k D) (- lumensAt k d).
Proof.
  intros HV Hk. split; [by apply Valid_delete|]. split; [rewrite (lumens_delete D k d Hk); lia|apply offersShrink_delete].
Qed.

(** Nothing but the entry [k] changed. *)
Definition framed (D D' : Entries) (k : LedgerKey) : Prop := ∀ k', k' ≠ k → D' !! k' = D !! k'.

Lemma Valid_amounts lh D k d lm : Valid lh D → D !! k = Some d → amountsOk lh (mkEntry lm d).
Proof. intros HV Hd. destruct (HV _ _ Hd) as [_ Ha]. unfold dataOk in Ha. by destruct d. Qed.

Lemma dataOk_amounts lh d : isOfferKey (dataKeyOf d) = false → amountsOk lh (mkEntry 0 d) → dataOk lh d.
Proof. by destruct d. Qed.

(** A balance is at most the total. *)
Lemma lumens_nonneg lh D : Valid lh D → 0 <= lumens D.
Proof.
  induction D as [|k d D Hk IH] using map_ind; intros HV; [by rewrite lumens_empty|]. rewrite lumens_insert_new by done.
  assert (0 <= lumens D). { apply IH. intros k' d' Hd. apply HV. rewrite lookup_insert_ne; [done|congruence]. }
  destruct (HV k d ltac:(apply lookup_insert_eq)) as [Hdk Hd]. destruct k, d; try done; simpl; try lia.
  destruct Hd as [[? ?] _]. unfold is_i64 in *. lia.
Qed.
Lemma balance_le_lumens lh D a acc : Valid lh D → D !! ACCOUNT a = Some (Account acc) → acc_balance acc <= lumens D.
Proof.
  intros HV Ha. pose proof (lumens_delete D _ _ Ha) as E. simpl in E.
  pose proof (lumens_nonneg lh (delete (ACCOUNT a) D) (Valid_delete _ _ _ HV)). lia.
Qed.

Definition isAccountKey (k : LedgerKey) : bool := match k with ACCOUNT _ => true | _ => false end.
Lemma lumensAt_balance k d lm : dataKeyOf d = k → lumensAt k d = if isAccountKey k then balanceOf (mkEntry lm d) else 0.
Proof. intros <-. by destruct d. Qed.

Lemma LedgerEntryKey_mk lm d : LedgerEntryKey (mkEntry lm d) = dataKeyOf d.
Proof. done. Qed.

Section Steps.
Context (id : nat) (os : list View) (lh : LedgerHeader) (Hm : modern lh).

Lemma run_onEntry {A} D h (f : M LedgerEntry A) Q :
  (∀ h' lm d, h = Some h' → D !! h_key h' = Some d → dataKeyOf d = h_key h' →
     match f (mkEntry lm d) with
     | Ok a e' => LedgerEntryKey e' = h_key h' ∧ Q a (<[h_key h' := data e']> D) lh
     | Throw _ e' => LedgerEntryKey e' = h_key h'
     | Crash _ _ | NoFuel => False
     end) → run id os D lh (onEntry h f) Q.
Proof.
  intros Hf. unfold onEntry. apply run_bind, run_current. intros h' lm d -> Hd Hk. specialize (Hf h' lm d eq_refl Hd Hk).
  destruct (f (mkEntry lm d)) as [a e'|w e'| |]; try done.
  - destruct Hf as [Hk' HQ]. apply run_bind, run_setCurrent; [done|]. by apply run_ret.
  - apply run_bind, run_setCurrent; [done|]. apply run_throw.
Qed.

(** An operation on the amounts of an entry, with the change of its balance. *)
Lemma run_amounts {A} D h (f : M LedgerEntry A) (x : A → Z) (R : A → Prop) Q :
  Valid lh D →
  (∀ h' e, h = Some h' → D !! h_key h' = Some (data e) → LedgerEntryKey e = h_key h' → amountsOk lh e →
     match f e with
     | Ok a e' => keepsAmounts lh e e' ∧ balanceOf e' = balanceOf e + x a ∧ (isOfferKey (h_key h') = true → e' = e) ∧ R a
     | Throw _ e' => LedgerEntryKey e' = LedgerEntryKey e
     | Crash _ _ | NoFuel => False
     end) →
  (∀ h' a D', h = Some h' → R a → framed D D' (h_key h') → stepped lh D D' (if isAccountKey (h_key h') then x a else 0) → Q a D' lh) →
  run id os D lh (onEntry h f) Q.
Proof.
  intros HV Hf HQ. apply run_onEntry. intros h' lm d -> Hd Hk.
  specialize (Hf h' (mkEntry lm d) eq_refl Hd Hk (Valid_amounts _ _ _ _ lm HV Hd)).
  destruct (f (mkEntry lm d)) as [a e'|w e'| |]; try done; [|by rewrite Hf].
  destruct Hf as ((Ha' & Hk') & Hb & Hoff & HRa). rewrite LedgerEntryKey_mk, Hk in Hk'. split; [done|]. apply (HQ h'); [done|done|intros k' Hne; by rewrite lookup_insert_ne|].
  rewrite LedgerEntryKey_data in Hk'. destruct (isOfferKey (h_key h')) eqn:Ho.
  - rewrite (Hoff eq_refl). simpl. rewrite insert_id by done. destruct (h_key h'); try done. by apply stepped_refl.
  - replace (if isAccountKey (h_key h') then x a else 0) with (lumensAt (h_key h') (data e') - lumensAt (h_key h') d).
    + apply stepped_insert; [done..|]. apply dataOk_amounts; [by rewrite Hk'|]. by destruct e'.
    + rewrite (lumensAt_balance _ d lm Hk), (lumensAt_balance _ (data e') (lastModifiedLedgerSeq e') Hk').
      destruct (isAccountKey (h_key h')); [|lia]. destruct e'; simpl in *. lia.
Qed.

Lemma addBalance_effect h e x :
  headerOk h → amountsOk h e → - 2 ^ 63 <= x <= INT64_MAX →
  match addBalance h x e with
  | Ok b e' => keepsAmounts h e e' ∧ balanceOf e' = balanceOf e + (if b then x else 0) ∧ (holdsAsset e = false → e' = e)
  | Throw _ e' => LedgerEntryKey e' = LedgerEntryKey e
  | Crash _ _ | NoFuel => False
  end.
Proof.
  intros Hh Ha Hx. destruct (holdsAsset e) eqn:He.
  - rewrite (addBalance_eq h Hh) by done. destruct (Z.eqb_spec x 0) as [->|]; [split_and!; [done|lia|done]|].
    destruct (mayMove h x e) eqn:Em; [|split_and!; [done|lia|done]]. split; [by apply withBalance_ok|]. split; [|done].
    unfold balanceOf, withBalance, holdsAsset in *. destruct e as [lm []]; done.
  - unfold addBalance, holdsAsset, mbind, M_bind, get in *. by destruct e as [lm []].
Qed.

Lemma offer_holds e k : LedgerEntryKey e = k → isOfferKey k = true → holdsAsset e = false.
Proof. intros <-. by destruct e as [lm []]. Qed.

Lemma run_addBalance D header h x Q :
  Valid lh D → - 2 ^ 63 <= x <= INT64_MAX →
  (∀ h' b D', h = Some h' → framed D D' (h_key h') →
     stepped lh D D' (if isAccountKey (h_key h') then (if (b : bool) then x else 0) else 0) → Q b D' lh) →
  run id os D lh (entry_addBalance header h x) Q.
Proof.
  intros HV Hx HQ. unfold entry_addBalance, underHeader. apply run_bind, run_headerCurrent.
  apply (run_amounts _ _ _ (λ b : bool, if b then x else 0) (λ _, True)); [done| |intros; by eapply HQ]. intros h' e _ _ Hk Ha.
  pose proof (addBalance_effect lh e x (proj1 Hm) Ha Hx) as He. destruct (addBalance lh x e); try done.
  destruct He as (? & ? & He). do 2 (split; [done|]). split; [|done]. intros Ho. by eapply He, offer_holds.
Qed.

(** [addNumEntries] does not change the balance. *)
Lemma addNumEntries_effect h e c :
  headerOk h → amountsOk h e →
  c = -1 ∨ (c = 1 ∧ 11 <= ledgerVersion h ∧ ∀ a, data e = Account a → acc_balance a + baseReserve h <= INT64_MAX) →
  match addNumEntries h c e with
  | Ok _ e' => keepsAmounts h e e' ∧ balanceOf e' = balanceOf e + 0 ∧ (holdsAsset e = false → e' = e)
  | Throw _ e' => LedgerEntryKey e' = LedgerEntryKey e
  | Crash _ _ | NoFuel => False
  end.
Proof.
  intros Hh Ha Hc.
  assert (Hsame : match addNumEntries h c e with
    | Ok _ e' => e' = e ∨ ∃ a n, data e = Account a ∧ e' = setAccount (acc_setNumSubEntries n a) e | Throw _ e' => e' = e | _ => True end).
  { unfold addNumEntries, account, unsignedToSigned32, getSellingLiabilities, mbind, M_bind, get, mret, M_ret, throw, modify, wrongUnion.
    destruct e as [lm [a| | |]]; simpl; try done. repeat (case_match; simplify_eq/=; try done; eauto). }
  assert (Hsafe : amountOpSafe h e (runAmountOp h (AddNumEntries c) e) ∨ ∃ a, data e = Account a ∧ addNumEntries h c e = Ok TOO_MANY_SUBENTRIES e).
  { destruct Hc as [->|(-> & Hv & Hb)].
    - left. apply (addNumEntries_safe h Hh); [done|]. unfold amountOpOk, amountsOk, subEntriesOk in *. split; [lia|]. destruct (data e); try done. lia.
    - unfold amountsOk in Ha. destruct (data e) as [a| | |] eqn:Ed.
      2,3,4: left; apply (addNumEntries_safe h Hh); [unfold amountsOk; by rewrite Ed|]; split; [lia|by rewrite Ed].
      destruct (decide (acc_numSubEntries a + 1 <= 1000)).
      + left. apply (addNumEntries_safe h Hh); [unfold amountsOk; by rewrite Ed|]. split; [lia|]. rewrite Ed. split; [lia|]. intros _.
        specialize (Hb a eq_refl). lia.
      + right. exists a. split; [done|]. destruct Ha as (_ & Hs & _). unfold subEntriesOk in Hs.
        unfold addNumEntries, account, unsignedToSigned32, mbind, M_bind, get, mret, M_ret. rewrite Ed.
        rewrite (proj2 (Z.ltb_ge _ _)) by lia. rewrite (s32_small (acc_numSubEntries a)), s32_small by lia. rewrite (proj2 (Z.ltb_ge _ _)) by lia.
        unfold FIRST_PROTOCOL_SUPPORTING_OPERATION_LIMITS, ACCOUNT_SUBENTRY_LIMIT.
        rewrite (proj2 (Z.leb_le 11 _)) by lia. rewrite (proj2 (Z.ltb_lt 1000 _)) by lia. done. }
  destruct Hsafe as [Hs|(a & Ed & E)].
  - unfold runAmountOp, amountOpSafe, mbind, M_bind, mret, M_ret in Hs. destruct (addNumEntries h c e) as [r e'|w e'| |]; try done; [|by subst].
    split; [done|]. destruct Hsame as [->|(a & n & Ed & ->)]; [split; [lia|done]|]. unfold balanceOf, holdsAsset. rewrite Ed. simpl. split; [lia|done].
  - rewrite E. split; [done|]. split; [lia|done].
Qed.

Lemma run_addNumEntries D header h c Q :
  Valid lh D → c = -1 ∨ (c = 1 ∧ 11 <= ledgerVersion lh ∧ lumens D + baseReserve lh <= INT64_MAX) →
  (∀ r D', stepped lh D D' 0 → Q r D' lh) → run id os D lh (entry_addNumEntries header h c) Q.
Proof.
  intros HV Hc HQ. unfold entry_addNumEntries, underHeader. apply run_bind, run_headerCurrent.
  apply (run_amounts _ _ _ (λ _, 0) (λ _, True)); [done| |].
  - intros h' e _ Hd Hk Ha.
    assert (Hpre : c = -1 ∨ (c = 1 ∧ 11 <= ledgerVersion lh ∧ ∀ a, data e = Account a → acc_balance a + baseReserve lh <= INT64_MAX)).
    { destruct Hc as [->|(-> & Hv & Hl)]; [by left|right]. split; [done|]. split; [done|]. intros a Ea. rewrite Ea in Hd.
      assert (h_key h' = ACCOUNT (acc_accountID a)) as Hka by (rewrite <- Hk; unfold LedgerEntryKey; by rewrite Ea).
      rewrite Hka in Hd. pose proof (balance_le_lumens lh D _ _ HV Hd). lia. }
    pose proof (addNumEntries_effect lh e c (proj1 Hm) Ha Hpre) as He. destruct (addNumEntries lh c e); try done.
    destruct He as (? & ? & He). do 2 (split; [done|]). split; [|done]. intros Ho. by eapply He, offer_holds.
  - intros h' r D' _ _ _ Hst. apply (HQ r D'). by destruct (isAccountKey (h_key h')).
Qed.
End Steps.

(** ** Liabilities *)

(** A transaction with the header [lh], for the lemmas that speak of one. *)
Definition someView (lh : LedgerHeader) : View := mkView 0 ∅ lh ∅ None false.
Lemma someView_ready lh : modern lh → ready (someView lh).
Proof. intros Hm. split; [done|]. split; [done|]. intros k d Hd. cbn in Hd. by rewrite lookup_empty in Hd. Qed.

Section Lines.
Context (id : nat) (os : list View) (lh : LedgerHeader) (Hm : modern lh).

Lemma run_wrongUnion {A} D (Q : A → Entries → LedgerHeader → Prop) : run id os D lh wrongUnion Q.
Proof. apply run_throw. Qed.

Lemma run_offer D e (Q : OfferEntry → Entries → LedgerHeader → Prop) :
  (∀ o, data e = Offer o → Q o D lh) → run id os D lh (offer e) Q.
Proof. intros HQ. unfold offer. destruct (data e); try apply run_wrongUnion. by apply run_ret, HQ. Qed.
Lemma run_account D e (Q : AccountEntry → Entries → LedgerHeader → Prop) :
  (∀ a, data e = Account a → Q a D lh) → run id os D lh (account e) Q.
Proof. intros HQ. unfold account. destruct (data e); try apply run_wrongUnion. by apply run_ret, HQ. Qed.
Lemma run_trustLine D e (Q : TrustLineEntry → Entries → LedgerHeader → Prop) :
  (∀ t, data e = TrustLine t → Q t D lh) → run id os D lh (trustLine e) Q.
Proof. intros HQ. unfold trustLine. destruct (data e); try apply run_wrongUnion. by apply run_ret, HQ. Qed.

Lemma run_liabilities D header h (f : LedgerHeader → Z → M LedgerEntry bool) x Q :
  f = addBuyingLiabilities ∨ f = addSellingLiabilities → Valid lh D → - 2 ^ 63 <= x <= INT64_MAX →
  (∀ b D', stepped lh D D' 0 → Q b D' lh) → run id os D lh (underHeader header (λ lh, onEntry h (f lh x))) Q.
Proof.
  intros Hf HV Hx HQ. apply run_bind, run_headerCurrent. apply (run_amounts _ _ _ _ _ _ (λ _, 0) (λ _, True)); [done| |].
  - intros h' e _ Hd Hk Ha. destruct (holdsAsset e) eqn:He.
    + pose proof (liabilities_same (someView lh) (someView_ready lh Hm) e x f Hf He Ha Hx) as Hs. simpl in Hs.
      destruct (f lh x e); try done; [|by destruct Hs as [[_ ?] _]]. destruct Hs as [? ?]. split; [done|]. split; [lia|]. split; [|done].
      intros Ho. by rewrite (offer_holds e _ Hk Ho) in He.
    + destruct (getLiabilities_other lh e e He (proj2 Hm)) as [Hb Hs].
      destruct Hf as [->| ->]; unfold addBuyingLiabilities, addSellingLiabilities, mbind, M_bind, get; by rewrite ?Hb, ?Hs.
  - intros h' b D' _ _ _ Hst. apply HQ. by destruct (isAccountKey (h_key h')).
Qed.

(** ** Trust lines *)

(** The entry of a wrapper is a trust line. *)
Definition wrapperOk (w : option TrustLineImpl) : Prop :=
  match w with Some (NonIssuerImpl (Some h)) => isAccountKey (h_key h) = false | _ => True end.

Lemma run_newTrustLineWrapper D a s Q :
  (∀ w, wrapperOk w → Q w D lh) → run id os D lh (newTrustLineWrapper id a s) Q.
Proof.
  intros HQ. unfold newTrustLineWrapper. destruct (isNative s); [apply run_throw|]. destruct (getIssuer s); [|apply run_wrongUnion].
  destruct (decide _); [by apply run_ret, HQ|]. apply run_bind, run_load.
  - intros _. apply run_get. intros s0. apply run_ret, HQ. by destruct (isActive _ _ _).
  - intros m d _. apply run_get. intros s0. apply run_ret, HQ. by destruct (isActive _ _ _).
Qed.
Lemma run_lineIfNotNative D a s Q :
  (∀ w, wrapperOk w → Q w D lh) → run id os D lh (loadTrustLineIfNotNative id a s) Q.
Proof.
  intros HQ. unfold loadTrustLineIfNotNative. destruct (isNative s); [by apply run_ret, HQ|by apply run_newTrustLineWrapper].
Qed.

Lemma run_wrapper_bool D w Q : (∀ b : bool, Q b D lh) → run id os D lh (wrapper_bool w) Q.
Proof. intros HQ. apply run_get. intros s. by apply run_ret. Qed.

Lemma run_wrapper_call {A} D w (f : option Handle → M Ledger A) (issuer : A) Q :
  (∀ h, w = Some (NonIssuerImpl h) → run id os D lh (f h) Q) → Q issuer D lh → run id os D lh (wrapper_call w f issuer) Q.
Proof.
  intros Hf HI. unfold wrapper_call, wrapper_getImpl. apply run_bind, run_bind, run_wrapper_bool. intros b.
  destruct w as [[h|a s]|]; [|destruct b; [by apply run_ret, run_ret|apply run_throw]|apply run_throw].
  destruct b; [apply run_ret; by apply Hf|apply run_throw].
Qed.

Lemma run_wrapper_addBalance D w header x Q :
  wrapperOk w → Valid lh D → - 2 ^ 63 <= x <= INT64_MAX → (∀ b D', stepped lh D D' 0 → Q b D' lh) →
  run id os D lh (wrapper_addBalance w header x) Q.
Proof.
  intros Hw HV Hx HQ. apply run_wrapper_call; [|by apply HQ, stepped_refl]. intros h ->. apply run_addBalance; [done..|].
  intros h' b D' -> _ Hst. apply HQ. simpl in Hw. by rewrite Hw in Hst.
Qed.

Lemma run_isAuthorized D w Q : (∀ b, Q b D lh) → run id os D lh (wrapper_isAuthorized w) Q.
Proof.
  intros HQ. apply run_wrapper_call; [|done]. intros h _. apply run_bind, run_current. intros h' lm d _ _ _.
  apply run_bind, run_trustLine. intros t _. by apply run_ret.
Qed.

(** ** Readers *)

(** [f] answers with a value in [P] or throws. *)
Definition reads {A} (f : LedgerHeader → LedgerEntry → M Ledger A) (P : A → Prop) : Prop :=
  ∀ e, amountsOk lh e → (∃ x, P x ∧ ∀ s, f lh e s = Ok x s) ∨ (∃ w, ∀ s, f lh e s = Throw w s).

Lemma run_reads {A} D e (f : LedgerHeader → LedgerEntry → M Ledger A) P Q :
  reads f P → amountsOk lh e → (∀ x, P x → Q x D lh) → run id os D lh (f lh e) Q.
Proof.
  intros Hf Ha HQ. destruct (Hf e Ha) as [(x & HP & E)|(w & E)]; [by apply (run_pure _ _ _ _ _ _ x E), HQ|].
  intros V Hi Hs HD HL s Hok Hv. rewrite E. split; [done|]. rewrite Hv. by exists V.
Qed.

Lemma run_readEntry {A} D header h (f : LedgerHeader → LedgerEntry → M Ledger A) P Q :
  Valid lh D → reads f P → (∀ x, P x → Q x D lh) → run id os D lh (readEntry f header h) Q.
Proof.
  intros HV Hf HQ. apply run_bind, run_headerCurrent, run_bind, run_current. intros h' lm d _ Hd _.
  apply run_reads with P; [done| |done]. by eapply Valid_amounts.
Qed.

(** The entry that a constant handle holds. *)
Definition constOk (c : option (Handle * LedgerEntry)) : Prop :=
  ∀ h e, c = Some (h, e) → LedgerEntryKey e = h_key h ∧ amountsOk lh e.

Lemma run_readConst {A} D header c (f : LedgerHeader → LedgerEntry → M Ledger A) P Q :
  constOk c → reads f P → (∀ x, P x → Q x D lh) → run id os D lh (readConst f header c) Q.
Proof.
  intros Hc Hf HQ. apply run_bind, run_headerCurrent, run_bind, run_constCurrent. intros h e ->.
  apply run_reads with P; [done|by eapply Hc|done].
Qed.

Lemma run_loadConst D k Q : Valid lh D → (∀ c, constOk c → Q c D lh) → run id os D lh (loadWithoutRecord id k) Q.
Proof.
  intros HV HQ. apply run_loadWithoutRecord; [intros _; by apply HQ|]. intros n lm d Hd. apply HQ. intros h e [= <- <-].
  split; [by destruct (HV _ _ Hd)|by eapply Valid_amounts].
Qed.
Lemma run_withConstOk {A} D c (m : option (Handle * LedgerEntry) → M Ledger A) Q :
  constOk c → run id os D lh (m c) Q → run id os D lh (withConst c m) Q.
Proof. intros Hc. apply run_withConst. intros h e E. by apply Hc. Qed.

Lemma reads_available : reads getAvailableBalance (λ x, - 2 ^ 63 <= x ∧ is_i64 (Z.max x 0)).
Proof.
  intros e Ha. destruct (holdsAsset e) eqn:He.
  - left. destruct (amountsOk_iff lh (proj1 Hm) e He Ha) as (Hb & Hc & Hfl & Hl). specialize (Hl (proj2 Hm)).
    eexists. split; [|intros s; apply getAvailableBalance_eq; [apply Hm|done..|apply Hm]]. unfold is_i64, INT64_MAX in *. lia.
  - right. exists "Unknown LedgerEntry type"%string. intros s. unfold getAvailableBalance, holdsAsset in *. by destruct (data e).
Qed.
Lemma reads_room : reads getMaxAmountReceive (λ x, is_i64 (Z.max x 0)).
Proof.
  intros e Ha. destruct (holdsAsset e) eqn:He.
  - left. exact (room_range (someView lh) (someView_ready lh Hm) e He Ha).
  - right. exists "Unknown LedgerEntry type"%string. intros s. unfold getMaxAmountReceive, holdsAsset in *. by destruct (data e).
Qed.

(** Paying at most what is available succeeds. *)
Definition pays (D : Entries) (h : option Handle) (x : Z) : Prop :=
  ∀ h' lm d, h = Some h' → D !! h_key h' = Some d → ∃ e, addBalance lh (- x) (mkEntry lm d) = Ok true e.

Lemma available_pays e x avail :
  amountsOk lh e → (∀ s : Ledger, getAvailableBalance lh e s = Ok avail s) → authorized e = true → 0 <= x <= avail →
  ∃ e', addBalance lh (- x) e = Ok true e'.
Proof.
  intros Ha Hav Hauth Hx. destruct (holdsAsset e) eqn:He.
  - specialize (Hav (mkLedger [] (mkRoot lh ∅) 0)). rewrite getAvailableBalance_eq in Hav by (done || apply Hm). injection Hav as Hav.
    destruct (amountsOk_iff lh (proj1 Hm) e He Ha) as (Hb & Hc & Hfl & Hl). specialize (Hl (proj2 Hm)).
    rewrite (addBalance_eq lh (proj1 Hm)) by (unfold INT64_MAX in *; done || lia). destruct (Z.eqb_spec (- x) 0); [by eexists|].
    assert (mayMove lh (- x) e = true) as ->; [|by eexists]. unfold mayMove. rewrite Hauth, (proj2 (Z.leb_le 10 _)) by apply Hm. cbv zeta.
    rewrite !andb_true_iff, orb_true_iff. lia.
  - unfold getAvailableBalance, holdsAsset in *. specialize (Hav (mkLedger [] (mkRoot lh ∅) 0)). by destruct (data e).
Qed.

Lemma run_available D header h Q :
  Valid lh D → (∀ h', h = Some h' → isAccountKey (h_key h') = true) →
  (∀ avail, avail <= INT64_MAX → (∀ x, 0 <= x <= avail → pays D h x) → Q avail D lh) →
  run id os D lh (readEntry getAvailableBalance header h) Q.
Proof.
  intros HV Hh HQ. apply run_bind, run_headerCurrent, run_bind, run_current. intros h' lm d -> Hd Hk.
  pose proof (Valid_amounts _ _ _ _ lm HV Hd) as Ha. destruct (reads_available _ Ha) as [(x & [_ Hx] & E)|(w & E)].
  - apply (run_pure _ _ _ _ _ _ x E), HQ; [unfold is_i64 in Hx; lia|]. intros y Hy h2 lm2 d2 [= <-] Hd2. simplify_eq.
    specialize (Hh h' eq_refl). apply (available_pays _ y x); [done|done| |done]. destruct (h_key h'); try done. by destruct d.
  - intros V Hi Hs HD HL s Hok Hv. rewrite E. split; [done|]. rewrite Hv. by exists V.
Qed.

Lemma run_payOut D header h x Q :
  Valid lh D → (∀ h', h = Some h' → isAccountKey (h_key h') = true) → 0 <= x <= INT64_MAX → pays D h x →
  (∀ D', stepped lh D D' (- x) → Q true D' lh) → run id os D lh (entry_addBalance header h (- x)) Q.
Proof.
  intros HV Hh Hx Hp HQ. unfold entry_addBalance, underHeader. apply run_bind, run_headerCurrent.
  apply (run_amounts _ _ _ _ _ _ (λ b : bool, if b then - x else 0) (λ b, b = true)); [done| |].
  - intros h' [lm d] -> Hd Hk Ha. destruct (Hp h' lm d eq_refl Hd) as [e' E].
    pose proof (addBalance_effect lh _ (- x) (proj1 Hm) Ha ltac:(unfold INT64_MAX in *; lia)) as He. rewrite E in *.
    destruct He as (? & ? & He). do 2 (split; [done|]). split; [|done]. intros Ho. by eapply He, offer_holds.
  - intros h' b D' -> -> _ Hst. apply HQ. by rewrite (Hh h' eq_refl) in Hst.
Qed.

(** ** The liabilities of an offer *)

Lemma run_changeLiabilities D a s header (f : LedgerHeader → Z → M LedgerEntry bool) x error Q :
  f = addBuyingLiabilities ∨ f = addSellingLiabilities → Valid lh D → - 2 ^ 63 <= x <= INT64_MAX →
  (∀ D', stepped lh D D' 0 → Q tt D' lh) →
  run id os D lh (changeLiabilities id a s (λ acc, underHeader header (λ lh, onEntry acc (f lh x)))
    (λ trust, wrapper_call trust (λ h, underHeader header (λ lh, onEntry h (f lh x))) true) error) Q.
Proof.
  intros Hf HV Hx HQ.
  assert (Hend : ∀ (b : bool) D', stepped lh D D' 0 → run id os D' lh (if b then mret tt else throw error) Q).
  { intros b D' Hst. destruct b; [apply run_ret; by apply HQ|apply run_throw]. }
  unfold changeLiabilities. destruct (isNative s).
  - unfold loadAccountAndValidate, loadAccount.
    assert (Hgo : ∀ h, run id os D lh (s0 ← get; if isActive MutableImpl s0 h then mret h else throw "account does not exist")
      (λ acc D' lh', run id os D' lh' (withEntry acc (λ acc, ok ← underHeader header (λ lh, onEntry acc (f lh x));
         if (ok : bool) then mret tt else throw error)) Q)).
    { intros h. apply run_get. intros s0. destruct (isActive _ _ _); [|apply run_throw].
      apply run_ret, run_withEntry, run_bind, run_liabilities; done. }
    apply run_bind, run_bind, run_load; intros; apply Hgo.
  - unfold loadTrustAndValidate, loadTrustLine. apply run_bind, run_bind, run_newTrustLineWrapper. intros w Hw.
    apply run_bind, run_wrapper_bool. intros b. destruct b; [|apply run_throw]. apply run_ret, run_withWrapper, run_bind, run_wrapper_call.
    + intros h _. by apply run_liabilities.
    + by apply (Hend true), stepped_refl.
Qed.

Lemma run_acquireOrRelease D header h isAcquire Q :
  Valid lh D → (∀ D', stepped lh D D' 0 → Q tt D' lh) → run id os D lh (acquireOrReleaseLiabilities id header h isAcquire) Q.
Proof.
  intros HV HQ. unfold acquireOrReleaseLiabilities. apply run_bind, run_current. intros h' lm d -> Hd Hk.
  apply run_bind, run_offer. intros o Eo. simpl in Eo. subst d. destruct (decide _); [apply run_throw|].
  destruct (HV _ _ Hd) as [_ [Hp Ho]]. destruct (offerLiabilities_range lh lm o Hm Hp Ho) as (b & c & Hb & Hc & Eb & _).
  apply run_bind, run_headerCurrent, run_bind, (run_pure _ _ _ _ _ _ b Eb), run_bind.
  apply run_changeLiabilities; [by left|done|destruct isAcquire; unfold INT64_MAX in *; lia|]. intros D1 Hst1.
  apply run_bind, run_headerCurrent, run_bind, run_current. intros h2 lm2 d2 [= <-] Hd2 _. pose proof Hst1 as (HV1 & _ & Hsh).
  apply run_bind. destruct d2 as [| |o2|].
  1,2,4: intros V Hi Hs HD HL; unfold getOfferSellingLiabilities; rewrite (proj2 (Z.ltb_ge _ _)) by apply Hm;
    apply exec_bind, exec_throw; by exists V.
  destruct (HV1 _ _ Hd2) as [_ [Hp2 Ho2]]. destruct (offerLiabilities_range lh lm2 o2 Hm Hp2 Ho2) as (b2 & c2 & Hb2 & Hc2 & _ & Ec2).
  apply (run_pure _ _ _ _ _ _ c2 Ec2).
  apply run_changeLiabilities; [by right|done|destruct isAcquire; unfold INT64_MAX in *; lia|]. intros D2 Hst2. apply HQ.
  exact (stepped_trans _ _ _ _ _ _ Hst1 Hst2).
Qed.
End Lines.

(** ** What can be sold and bought *)

Section Limits.
Context (id : nat) (os : list View) (lh : LedgerHeader) (Hm : modern lh) (D : Entries) (HV : Valid lh D).

Definition constWrapperOk (w : option ConstTrustLineImpl) : Prop :=
  match w with Some (ConstNonIssuerImpl c) => constOk lh c | _ => True end.

Lemma run_constLineIfNotNative a s Q :
  (∀ w, constWrapperOk w → Q w D lh) → run id os D lh (loadTrustLineWithoutRecordIfNotNative id a s) Q.
Proof.
  intros HQ. unfold loadTrustLineWithoutRecordIfNotNative, newConstTrustLineWrapper.
  destruct (isNative s); [by apply run_ret, HQ|]. destruct (getIssuer s); [|apply run_wrongUnion].
  destruct (decide _); [by apply run_ret, HQ|]. apply run_bind, run_loadConst; [done|]. intros c Hc.
  apply run_get. intros s0. apply run_ret, HQ. by destruct (constActive _ _).
Qed.
Lemma run_withConstWrapper {A} w (m : option ConstTrustLineImpl → M Ledger A) Q :
  constWrapperOk w → run id os D lh (m w) Q → run id os D lh (withConstWrapper w m) Q.
Proof.
  intros Hw. destruct w as [[c|]|]; [exact (run_withConstOk id os lh D c (λ _, m (Some (ConstNonIssuerImpl c))) Q Hw)|..];
    apply run_scoped; intros V _; apply exec_ret; by exists (v_act V), (v_hact V); destruct V.
Qed.
Lemma run_constWrapper_bool w Q : (∀ b : bool, Q b D lh) → run id os D lh (constWrapper_bool w) Q.
Proof. intros HQ. apply run_get. intros s. by apply run_ret. Qed.
Lemma run_constWrapper_call {A} w (f : option (Handle * LedgerEntry) → M Ledger A) (issuer : A) Q :
  (∀ c, w = Some (ConstNonIssuerImpl c) → run id os D lh (f c) Q) → Q issuer D lh → run id os D lh (constWrapper_call w f issuer) Q.
Proof.
  intros Hf HI. unfold constWrapper_call, constWrapper_getImpl. apply run_bind, run_bind, run_constWrapper_bool. intros b.
  destruct w as [[c|]|]; [|destruct b; [by apply run_ret, run_ret|apply run_throw]|apply run_throw].
  destruct b; [apply run_ret; by apply Hf|apply run_throw].
Qed.

Lemma run_wrapper_available w header Q :
  (∀ x, is_i64 (Z.max x 0) → Q x D lh) → run id os D lh (wrapper_getAvailableBalance w header) Q.
Proof.
  intros HQ. apply run_wrapper_call; [|by apply HQ; unfold is_i64, INT64_MAX]. intros h _.
  eapply run_readEntry; [done|by apply reads_available|]. intros x [_ ?]. by apply HQ.
Qed.
Lemma run_wrapper_room w header Q :
  (∀ x, is_i64 (Z.max x 0) → Q x D lh) → run id os D lh (wrapper_getMaxAmountReceive w header) Q.
Proof.
  intros HQ. apply run_wrapper_call; [|by apply HQ; unfold is_i64, INT64_MAX]. intros h _.
  eapply run_readEntry; [done|by apply reads_room|done].
Qed.

Lemma run_canSell header acc s w Q : (∀ x, is_i64 x → Q x D lh) → run id os D lh (canSellAtMost header acc s w) Q.
Proof.
  intros HQ. assert (H0 : is_i64 0) by (by unfold is_i64, INT64_MAX). unfold canSellAtMost. destruct (isNative s).
  - apply run_bind. eapply run_readEntry; [done|by apply reads_available|]. intros x [_ Hx]. apply run_ret. by apply HQ.
  - apply run_bind, run_wrapper_bool. intros b. apply run_bind.
    assert (Hgo : ∀ auth : bool, run id os D lh (if auth then avail ← wrapper_getAvailableBalance w header; mret (Z.max avail 0) else mret 0) Q).
    { intros []; [|by apply run_ret, HQ]. apply run_bind, run_wrapper_available. intros x Hx. apply run_ret. by apply HQ. }
    destruct b; [|apply run_ret, (Hgo false)]. by apply run_isAuthorized.
Qed.
Lemma run_canBuy header acc s w Q : (∀ x, is_i64 x → Q x D lh) → run id os D lh (canBuyAtMost header acc s w) Q.
Proof.
  intros HQ. assert (H0 : is_i64 0) by (by unfold is_i64, INT64_MAX). unfold canBuyAtMost. destruct (isNative s).
  - apply run_bind. eapply run_readEntry; [done|by apply reads_room|]. intros x Hx. apply run_ret. by apply HQ.
  - apply run_bind, run_wrapper_bool. intros [|]; [|by apply run_ret, HQ].
    apply run_bind, run_wrapper_room. intros x Hx. apply run_ret. by apply HQ.
Qed.

Lemma run_canSell_const header c s w Q :
  constOk lh c → constWrapperOk w → (∀ x, is_i64 x → Q x D lh) → run id os D lh (canSellAtMost_const header c s w) Q.
Proof.
  intros Hc Hw HQ. assert (H0 : is_i64 0) by (by unfold is_i64, INT64_MAX). unfold canSellAtMost_const. destruct (isNative s).
  - apply run_bind. eapply run_readConst; [done|by apply reads_available|]. intros x [_ Hx]. apply run_ret. by apply HQ.
  - apply run_bind, run_constWrapper_bool. intros b. apply run_bind.
    assert (Hgo : ∀ auth : bool, run id os D lh (if auth then avail ← constWrapper_getAvailableBalance w header; mret (Z.max avail 0) else mret 0) Q).
    { intros []; [|by apply run_ret, HQ]. apply run_bind, run_constWrapper_call.
      - intros c' ->. eapply run_readConst; [done|by apply reads_available|]. intros x [_ Hx]. apply run_ret. by apply HQ.
      - apply run_ret, HQ. by unfold is_i64, INT64_MAX. }
    destruct b; [|apply run_ret, (Hgo false)]. apply run_constWrapper_call; [|apply (Hgo true)]. intros c' ->.
    apply run_bind, run_constCurrent. intros h e _. apply run_bind, run_trustLine. intros t _. apply run_ret. apply Hgo.
Qed.
Lemma run_canBuy_const header c s w Q :
  constOk lh c → constWrapperOk w → (∀ x, is_i64 x → Q x D lh) → run id os D lh (canBuyAtMost_const header c s w) Q.
Proof.
  intros Hc Hw HQ. assert (H0 : is_i64 0) by (by unfold is_i64, INT64_MAX). unfold canBuyAtMost_const. destruct (isNative s).
  - apply run_bind. eapply run_readConst; [done|by apply reads_room|]. intros x Hx. apply run_ret. by apply HQ.
  - apply run_bind, run_constWrapper_bool. intros [|]; [|by apply run_ret, HQ]. apply run_bind, run_constWrapper_call.
    + intros c' ->. eapply run_readConst; [done|by apply reads_room|]. intros x Hx. apply run_ret. by apply HQ.
    + apply run_ret, HQ. by unfold is_i64, INT64_MAX.
Qed.
End Limits.
