(* ===== verification/Operations.v ===== *)
(** * Applying operations: the [*OpFrame.cpp] of [transactions/]

    [doCheckValid] and [doApply] of every operation but the offers (which are in [OfferOps]). Both
    answer whether the operation succeeded and what it leaves in [mResult]; [doApply] works on the
    ledger transaction [ltx]. *)
From stdpp Require Import base list gmap strings.
From Stdlib Require Import ZArith.
From S2P Require Import Prelude UInt128 Numeric Exchange LedgerEntries Balances LedgerTxn TrustLines CrossOffers OpTypes.

Definition UINT8_MAX : Z := 255.
Definition MAX_OFFERS_TO_CROSS : Z := 1000.
Definition PASSIVE_FLAG : Z := 1.
Definition MAX_SIGNERS : Z := 20.

(** The end of an operation: [innerResult().code(r); return b]. *)
Definition done_ {S} (b : bool) (r : OperationResultTr) : M S (bool * OperationResult) := mret (b, opINNER r).

(** [switch (addNumEntries(...))]: what follows, or the two failures. *)
Definition withSubentry {S} (res : AddSubentryResult) (lowReserve : OperationResultTr)
    (k : M S (bool * OperationResult)) : M S (bool * OperationResult) :=
  match res with
  | SUCCESS => k
  | LOW_RESERVE => done_ false lowReserve
  | TOO_MANY_SUBENTRIES => mret (false, opTOO_MANY_SUBENTRIES)
  end.

Section Operations.
Context `{HashOrder} (fuel : nat) (sourceID : AccountID).

(** [OperationFrame::loadSourceAccount]. *)
Definition loadSourceAccount (ltx : nat) (header : LedgerTxnHeader) : M Ledger LedgerTxnEntry :=
  tx_loadAccount ltx header sourceID.

(** ** CREATE_ACCOUNT *)

Definition createAccount_doCheckValid (op : CreateAccountOp) (ledgerVersion : Z) : bool * OperationResult :=
  if startingBalance op <=? 0 then (false, opINNER (createAccountResult CREATE_ACCOUNT_MALFORMED))
  else if decide (ca_destination op = sourceID) then (false, opINNER (createAccountResult CREATE_ACCOUNT_MALFORMED))
  else (true, opINNER (createAccountResult CREATE_ACCOUNT_SUCCESS)).

(** The entry that [doApply] builds; what is not assigned is zero. *)
Definition newAccount (accountID : AccountID) (balance seqNum : Z) : LedgerEntry :=
  mkEntry 0 (Account (mkAccount accountID balance seqNum 0 None 0 [] [1; 0; 0; 0] [] None)).

Definition createAccount_doApply (op : CreateAccountOp) (ltx : nat) : M Ledger (bool * OperationResult) :=
  dest ← loadAccount ltx (ca_destination op);
  exists_ ← withEntry dest active;
  if (exists_ : bool) then done_ false (createAccountResult CREATE_ACCOUNT_ALREADY_EXIST)
  else
    withHeader ltx (λ header,
      lh ← headerCurrent header;
      if startingBalance op <? getMinBalance lh 0
      then done_ false (createAccountResult CREATE_ACCOUNT_LOW_RESERVE)
      else
        doesAccountExist ← (if ledgerVersion lh <? 8 then accountExists ltx sourceID else mret true);
        sourceAccount ← loadSourceAccount ltx header;
        withEntry sourceAccount (λ sourceAccount,
          avail ← readEntry getAvailableBalance header sourceAccount;
          if avail <? startingBalance op then done_ false (createAccountResult CREATE_ACCOUNT_UNDERFUNDED)
          else if negb doesAccountExist then throw "modifying account that does not exist"
          else
            ok ← entry_addBalance header sourceAccount (- startingBalance op);
            assert_ ok;;
            lh ← headerCurrent header;
            h ← create ltx (newAccount (ca_destination op) (startingBalance op) (s64 (getStartingSequenceNumber lh)));
            withEntry h (λ _, mret tt);;
            done_ true (createAccountResult CREATE_ACCOUNT_SUCCESS))).

(** ** PATH_PAYMENT *)

Definition pathPayment_doCheckValid (op : PathPaymentOp) (ledgerVersion : Z) : bool * OperationResult :=
  if (destAmount op <=? 0) || (sendMax op <=? 0) then (false, opINNER (pathPaymentResult PATH_PAYMENT_MALFORMED))
  else if negb (isAssetValid (sendAsset op)) || negb (isAssetValid (destAsset op))
  then (false, opINNER (pathPaymentResult PATH_PAYMENT_MALFORMED))
  else if negb (forallb isAssetValid (pp_path op)) then (false, opINNER (pathPaymentResult PATH_PAYMENT_MALFORMED))
  else (true, opINNER (pathPaymentResult (PATH_PAYMENT_SUCCESS [] (mkSimplePayment 0 ASSET_TYPE_NATIVE 0)))).

Definition pathFail {A} (r : PathPaymentResult) : M Ledger (OperationResult + A) := mret (inl (opINNER (pathPaymentResult r))).

(** The issuer of [asset] must exist. *)
Definition checkIssuer {A} (ltx : nat) (asset : Asset) (k : M Ledger (OperationResult + A)) : M Ledger (OperationResult + A) :=
  issuer ← issuerOf asset;
  exists_ ← accountExists ltx issuer;
  if (exists_ : bool) then k else pathFail (PATH_PAYMENT_NO_ISSUER asset).

(** The payment to the destination; [inl] when the operation ends there. *)
Definition payDestination (op : PathPaymentOp) (ltx : nat) (bypassIssuerCheck : bool) : M Ledger (OperationResult + unit) :=
  let curB := destAsset op in
  if isNative curB then
    destination ← loadAccount ltx (pp_destination op);
    withEntry destination (λ destination,
      ok ← withHeader ltx (λ header, entry_addBalance header destination (destAmount op));
      if negb (ok : bool) then
        lh ← headerOf ltx;
        pathFail (if 11 <=? ledgerVersion lh then PATH_PAYMENT_LINE_FULL else PATH_PAYMENT_MALFORMED)
      else mret (inr tt))
  else
    let line :=
      destLine ← loadTrustLine ltx (pp_destination op) curB;
      withWrapper destLine (λ destLine,
        there ← wrapper_bool destLine;
        if negb (there : bool) then pathFail PATH_PAYMENT_NO_TRUST
        else
          auth ← wrapper_isAuthorized destLine;
          if negb (auth : bool) then pathFail PATH_PAYMENT_NOT_AUTHORIZED
          else
            ok ← withHeader ltx (λ header, wrapper_addBalance destLine header (destAmount op));
            if negb (ok : bool) then pathFail PATH_PAYMENT_LINE_FULL else mret (inr tt)) in
    if bypassIssuerCheck then line else checkIssuer ltx curB line.

(** The closure given to [convertWithOffers]; it records PATH_PAYMENT_OFFER_CROSS_SELF when it stops. *)
Definition notOwnOffer (e : LedgerEntry) : M Ledger OfferFilterResult :=
  o ← offer e; mret (if decide (oe_sellerID o = sourceID) then eStop else eKeep).

(** From the last asset of the path to the first one: [curB], how much of it is needed, and the
    claims so far. *)
Fixpoint pathLoop (ltx : nat) (assets : list Asset) (curB : Asset) (curBReceived : Z) (offers : list ClaimOfferAtom)
    : M Ledger (OperationResult + (Asset * Z * list ClaimOfferAtom)) :=
  match assets with
  | [] => mret (inr (curB, curBReceived, offers))
  | curA :: assets =>
    if decide (curA = curB) then pathLoop ltx assets curB curBReceived offers
    else
      let convert :=
        lh ← headerOf ltx;
        let maxOffersToCross :=
          if FIRST_PROTOCOL_SUPPORTING_OPERATION_LIMITS <=? ledgerVersion lh
          then s64 (u64 (MAX_OFFERS_TO_CROSS - Z.of_nat (length offers))) else INT64_MAX in
        '(r, curASent, actualCurBReceived, offerTrail) ←
          convertWithOffers ltx curA curB true (Some notOwnOffer) maxOffersToCross fuel INT64_MAX curBReceived;
        assert_ (0 <=? curASent);;
        match r with
        | eFilterStop _ => pathFail PATH_PAYMENT_OFFER_CROSS_SELF
        | ePartial => pathFail PATH_PAYMENT_TOO_FEW_OFFERS
        | eCrossedTooMany => mret (inl opEXCEEDED_WORK_LIMIT)
        | eOK =>
          if negb (curBReceived =? actualCurBReceived) then pathFail PATH_PAYMENT_TOO_FEW_OFFERS
          else
            assert_ (curBReceived =? actualCurBReceived);;
            pathLoop ltx assets curA curASent (offerTrail ++ offers)
        end in
      if isNative curA then convert else checkIssuer ltx curA convert
  end.

(** The source pays [curBSent] of [curB]. *)
Definition paySource (op : PathPaymentOp) (ltx : nat) (bypassIssuerCheck doesSourceAccountExist : bool) (curB : Asset)
    (curBSent : Z) : M Ledger (OperationResult + unit) :=
  if sendMax op <? curBSent then pathFail PATH_PAYMENT_OVER_SENDMAX
  else if isNative curB then
    withHeader ltx (λ header,
      lh ← headerCurrent header;
      let pay (sourceAccount : LedgerTxnEntry) :=
        avail ← readEntry getAvailableBalance header sourceAccount;
        if avail <? curBSent then pathFail PATH_PAYMENT_UNDERFUNDED
        else if negb doesSourceAccountExist then throw "modifying account that does not exist"
        else ok ← entry_addBalance header sourceAccount (- curBSent); assert_ ok;; mret (inr tt) in
      if 7 <? ledgerVersion lh then
        sourceAccount ← loadAccount ltx sourceID;
        withEntry sourceAccount (λ sourceAccount,
          there ← active sourceAccount;
          if negb (there : bool) then pathFail PATH_PAYMENT_MALFORMED else pay sourceAccount)
      else sourceAccount ← loadSourceAccount ltx header; withEntry sourceAccount pay)
  else
    let line :=
      sourceLine ← loadTrustLine ltx sourceID curB;
      withWrapper sourceLine (λ sourceLine,
        there ← wrapper_bool sourceLine;
        if negb (there : bool) then pathFail PATH_PAYMENT_SRC_NO_TRUST
        else
          auth ← wrapper_isAuthorized sourceLine;
          if negb (auth : bool) then pathFail PATH_PAYMENT_SRC_NOT_AUTHORIZED
          else
            ok ← withHeader ltx (λ header, wrapper_addBalance sourceLine header (- curBSent));
            if negb (ok : bool) then pathFail PATH_PAYMENT_UNDERFUNDED else mret (inr tt)) in
    if bypassIssuerCheck then line else checkIssuer ltx curB line.

Definition pathPayment_doApply (op : PathPaymentOp) (ltx : nat) : M Ledger (bool * OperationResult) :=
  let curB := destAsset op in
  let fullPath := sendAsset op :: pp_path op in
  bypassIssuerCheck ←
    (if negb (isNative curB) && bool_decide (length fullPath = 1%nat) && bool_decide (sendAsset op = destAsset op)
     then issuer ← issuerOf curB; mret (bool_decide (issuer = pp_destination op))
     else mret false);
  lh ← headerOf ltx;
  doesSourceAccountExist ← (if ledgerVersion lh <? 8 then accountExists ltx sourceID else mret true);
  destExists ← (if negb (bypassIssuerCheck : bool) then accountExists ltx (pp_destination op) else mret true);
  if negb (destExists : bool) then done_ false (pathPaymentResult PATH_PAYMENT_NO_DESTINATION)
  else
    paid ← payDestination op ltx bypassIssuerCheck;
    match paid with
    | inl r => mret (false, r)
    | inr _ =>
      found ← pathLoop ltx (reverse fullPath) curB (destAmount op) [];
      match found with
      | inl r => mret (false, r)
      | inr (curB, curBSent, offers) =>
        sent ← paySource op ltx bypassIssuerCheck doesSourceAccountExist curB curBSent;
        match sent with
        | inl r => mret (false, r)
        | inr _ => done_ true (pathPaymentResult (PATH_PAYMENT_SUCCESS offers
                     (mkSimplePayment (pp_destination op) (destAsset op) (destAmount op))))
        end
      end
    end.

(** ** PAYMENT *)

Definition payment_doCheckValid (op : PaymentOp) (ledgerVersion : Z) : bool * OperationResult :=
  if pay_amount op <=? 0 then (false, opINNER (paymentResult PAYMENT_MALFORMED))
  else if negb (isAssetValid (pay_asset op)) then (false, opINNER (paymentResult PAYMENT_MALFORMED))
  else (true, opINNER (paymentResult PAYMENT_SUCCESS)).

(** The result of the path payment as the result of a payment. *)
Definition paymentCode (r : PathPaymentResult) : option PaymentResult :=
  match r with
  | PATH_PAYMENT_UNDERFUNDED => Some PAYMENT_UNDERFUNDED
  | PATH_PAYMENT_SRC_NOT_AUTHORIZED => Some PAYMENT_SRC_NOT_AUTHORIZED
  | PATH_PAYMENT_SRC_NO_TRUST => Some PAYMENT_SRC_NO_TRUST
  | PATH_PAYMENT_NO_DESTINATION => Some PAYMENT_NO_DESTINATION
  | PATH_PAYMENT_NO_TRUST => Some PAYMENT_NO_TRUST
  | PATH_PAYMENT_NOT_AUTHORIZED => Some PAYMENT_NOT_AUTHORIZED
  | PATH_PAYMENT_LINE_FULL => Some PAYMENT_LINE_FULL
  | PATH_PAYMENT_NO_ISSUER _ => Some PAYMENT_NO_ISSUER
  | _ => None
  end.

Definition payment_doApply (op : PaymentOp) (ltx : nat) : M Ledger (bool * OperationResult) :=
  lh ← headerOf ltx;
  let toSelf := bool_decide (pay_destination op = sourceID) in
  let instantSuccess := if 2 <? ledgerVersion lh then toSelf && isNative (pay_asset op) else toSelf in
  if instantSuccess then done_ true (paymentResult PAYMENT_SUCCESS)
  else
    let ppOp := mkPathPayment (pay_asset op) (pay_amount op) (pay_destination op) (pay_asset op) (pay_amount op) [] in
    let valid := pathPayment_doCheckValid ppOp (ledgerVersion lh) in
    '(ok, res) ← (if (valid.1 : bool) then pathPayment_doApply ppOp ltx else mret valid);
    if negb (ok : bool) then
      match res with
      | opINNER (pathPaymentResult r) =>
        match paymentCode r with
        | Some r => done_ false (paymentResult r)
        | None => throw "Unexpected error code from pathPayment"
        end
      | opINNER _ => wrongUnion
      | _ => throw "Unexpected error code from pathPayment"
      end
    else
      assert_ (match res with opINNER (pathPaymentResult (PATH_PAYMENT_SUCCESS _ _)) => true | _ => false end);;
      done_ true (paymentResult PAYMENT_SUCCESS).

(** ** ACCOUNT_MERGE *)

Definition merge_doCheckValid (destination : AccountID) (ledgerVersion : Z) : bool * OperationResult :=
  if decide (sourceID = destination) then (false, opINNER (accountMergeResult ACCOUNT_MERGE_MALFORMED))
  else (true, opINNER (accountMergeResult (ACCOUNT_MERGE_SUCCESS 0))).

Definition merge_doApply (destination : AccountID) (ltx : nat) : M Ledger (bool * OperationResult) :=
  withHeader ltx (λ header,
    otherAccount ← loadAccount ltx destination;
    withEntry otherAccount (λ otherAccount,
      there ← active otherAccount;
      if negb (there : bool) then done_ false (accountMergeResult ACCOUNT_MERGE_NO_ACCOUNT)
      else
        lh ← headerCurrent header;
        let v := ledgerVersion lh in
        early ← (if (4 <? v) && (v <? 8) then
                   thisAccount ← loadWithoutRecord ltx (ACCOUNT sourceID);
                   withConst thisAccount (λ thisAccount,
                     there ← constIsActive thisAccount;
                     if negb (there : bool) then mret None
                     else if 5 <? v then e ← constCurrent thisAccount; a ← account e; mret (Some (acc_balance a))
                     else mret (Some 0))
                 else mret (Some 0));
        match early with
        | None => done_ false (accountMergeResult ACCOUNT_MERGE_NO_ACCOUNT)
        | Some earlyBalance =>
          sourceAccountEntry ← loadSourceAccount ltx header;
          withEntry sourceAccountEntry (λ sourceAccountEntry,
            sourceAccount ← currentAccount sourceAccountEntry;
            let sourceBalance := if (v <=? 5) || (8 <=? v) then acc_balance sourceAccount else earlyBalance in
            immutable ← (e ← current sourceAccountEntry; isImmutableAuth e);
            if (immutable : bool) then done_ false (accountMergeResult ACCOUNT_MERGE_IMMUTABLE_SET)
            else if negb (acc_numSubEntries sourceAccount =? Z.of_nat (length (acc_signers sourceAccount)))
            then done_ false (accountMergeResult ACCOUNT_MERGE_HAS_SUB_ENTRIES)
            else if (10 <=? v) && (s64 (getStartingSequenceNumber lh) <=? acc_seqNum sourceAccount)
            then done_ false (accountMergeResult ACCOUNT_MERGE_SEQNUM_TOO_FAR)
            else
              ok ← entry_addBalance header otherAccount sourceBalance;
              if negb (ok : bool) then done_ false (accountMergeResult ACCOUNT_MERGE_DEST_FULL)
              else
                eraseEntry sourceAccountEntry;;
                done_ true (accountMergeResult (ACCOUNT_MERGE_SUCCESS sourceBalance)))
        end)).

(** ** INFLATION *)

(** The first statement of [doApply] returns; what follows it is dead code. *)
Definition inflation_doApply (ltx : nat) : M Ledger (bool * OperationResult) := done_ true inflationResult.

(** ** BUMP_SEQUENCE *)

Definition bumpSequence_doCheckValid (op : BumpSequenceOp) (ledgerVersion : Z) : bool * OperationResult :=
  if bumpTo op <? 0 then (false, opINNER (bumpSeqResult BUMP_SEQUENCE_BAD_SEQ))
  else (true, opINNER (bumpSeqResult BUMP_SEQUENCE_SUCCESS)).

Definition acc_setSeqNum (n : Z) (a : AccountEntry) : AccountEntry :=
  mkAccount (acc_accountID a) (acc_balance a) n (acc_numSubEntries a) (acc_inflationDest a) (acc_flags a)
    (acc_homeDomain a) (acc_thresholds a) (acc_signers a) (acc_ext a).

Definition bumpSequence_doApply (op : BumpSequenceOp) (ltx : nat) : M Ledger (bool * OperationResult) :=
  withTxn ltx (λ ltxInner,
    withHeader ltxInner (λ header,
      sourceAccountEntry ← loadSourceAccount ltxInner header;
      withEntry sourceAccountEntry (λ sourceAccountEntry,
        sourceAccount ← currentAccount sourceAccountEntry;
        (if acc_seqNum sourceAccount <? bumpTo op
         then modifyAccount sourceAccountEntry (acc_setSeqNum (bumpTo op));; commit ltxInner
         else mret tt);;
        done_ true (bumpSeqResult BUMP_SEQUENCE_SUCCESS)))).

(** ** MANAGE_DATA *)

Definition manageData_doCheckValid (op : ManageDataOp) (ledgerVersion : Z) : bool * OperationResult :=
  if ledgerVersion <? 2 then (false, opINNER (manageDataResult MANAGE_DATA_NOT_SUPPORTED_YET))
  else if (Z.of_nat (length (md_dataName op)) <? 1) || negb (isString32Valid (md_dataName op))
  then (false, opINNER (manageDataResult MANAGE_DATA_INVALID_NAME))
  else (true, opINNER (manageDataResult MANAGE_DATA_SUCCESS)).

Definition dataOf {S} (le : LedgerEntry) : M S DataEntry := match data le with Data d => mret d | _ => wrongUnion end.
Definition setDataValue (h : LedgerTxnEntry) (v : Bytes) : M Ledger unit :=
  e ← current h;
  d ← dataOf e;
  setCurrent h (mkEntry (lastModifiedLedgerSeq e) (Data (mkData (data_accountID d) (data_dataName d) v))).

Definition manageData_doApply (op : ManageDataOp) (ltx : nat) : M Ledger (bool * OperationResult) :=
  withHeader ltx (λ header,
    lh ← headerCurrent header;
    if ledgerVersion lh =? 3 then throw "MANAGE_DATA not supported on ledger version 3"
    else
      data_ ← loadData ltx sourceID (md_dataName op);
      withEntry data_ (λ data_,
        there ← active data_;
        match md_dataValue op with
        | Some value =>
          if negb (there : bool) then
            sourceAccount ← loadSourceAccount ltx header;
            withEntry sourceAccount (λ sourceAccount,
              res ← entry_addNumEntries header sourceAccount 1;
              withSubentry res (manageDataResult MANAGE_DATA_LOW_RESERVE) (
                h ← create ltx (mkEntry 0 (Data (mkData sourceID (md_dataName op) value)));
                withEntry h (λ _, mret tt);;
                done_ true (manageDataResult MANAGE_DATA_SUCCESS)))
          else
            setDataValue data_ value;;
            done_ true (manageDataResult MANAGE_DATA_SUCCESS)
        | None =>
          if negb (there : bool) then done_ false (manageDataResult MANAGE_DATA_NAME_NOT_FOUND)
          else
            eraseEntry data_;;
            sourceAccount ← loadSourceAccount ltx header;
            withEntry sourceAccount (λ sourceAccount, entry_addNumEntries header sourceAccount (-1));;
            done_ true (manageDataResult MANAGE_DATA_SUCCESS)
        end)).

(** ** CHANGE_TRUST *)

Definition changeTrust_doCheckValid (op : ChangeTrustOp) (ledgerVersion : Z) : bool * OperationResult :=
  if ct_limit op <? 0 then (false, opINNER (changeTrustResult CHANGE_TRUST_MALFORMED))
  else if negb (isAssetValid (ct_line op)) then (false, opINNER (changeTrustResult CHANGE_TRUST_MALFORMED))
  else if (9 <? ledgerVersion) && isNative (ct_line op) then (false, opINNER (changeTrustResult CHANGE_TRUST_MALFORMED))
  else (true, opINNER (changeTrustResult CHANGE_TRUST_SUCCESS)).

Definition tl_setLimit (x : Z) (t : TrustLineEntry) : TrustLineEntry :=
  mkTrustLine (tl_accountID t) (tl_asset t) (tl_balance t) x (tl_flags t) (tl_ext t).
Definition setLimit (h : LedgerTxnEntry) (x : Z) : M Ledger unit :=
  e ← current h; t ← trustLine e; setCurrent h (setTrustLine (tl_setLimit x t) e).
Definition newTrustLine (asset : Asset) (limit flags : Z) : LedgerEntry :=
  mkEntry 0 (TrustLine (mkTrustLine sourceID asset 0 limit flags None)).

Definition changeTrust_doApply (op : ChangeTrustOp) (ltx : nat) : M Ledger (bool * OperationResult) :=
  withHeader ltx (λ header,
    issuerID ← issuerOf (ct_line op);
    lh ← headerCurrent header;
    let self := bool_decide (issuerID = sourceID) in
    if (2 <? ledgerVersion lh) && self then done_ false (changeTrustResult CHANGE_TRUST_SELF_NOT_ALLOWED)
    else if negb (2 <? ledgerVersion lh) && self then
      (if ct_limit op <? INT64_MAX then done_ false (changeTrustResult CHANGE_TRUST_INVALID_LIMIT)
       else
         there ← accountExists ltx issuerID;
         if negb (there : bool) then done_ false (changeTrustResult CHANGE_TRUST_NO_ISSUER)
         else done_ true (changeTrustResult CHANGE_TRUST_SUCCESS))
    else
      trustLine_ ← load ltx (TRUSTLINE sourceID (ct_line op));
      withEntry trustLine_ (λ trustLine_,
        there ← active trustLine_;
        if (there : bool) then
          minimum ← readEntry getMinimumLimit header trustLine_;
          if ct_limit op <? minimum then done_ false (changeTrustResult CHANGE_TRUST_INVALID_LIMIT)
          else if ct_limit op =? 0 then
            eraseEntry trustLine_;;
            sourceAccount ← loadSourceAccount ltx header;
            withEntry sourceAccount (λ sourceAccount, entry_addNumEntries header sourceAccount (-1));;
            done_ true (changeTrustResult CHANGE_TRUST_SUCCESS)
          else
            issuer ← loadAccountWithoutRecord ltx issuerID;
            withConst issuer (λ issuer,
              there ← constIsActive issuer;
              if negb (there : bool) then done_ false (changeTrustResult CHANGE_TRUST_NO_ISSUER)
              else setLimit trustLine_ (ct_limit op);; done_ true (changeTrustResult CHANGE_TRUST_SUCCESS))
        else if ct_limit op =? 0 then done_ false (changeTrustResult CHANGE_TRUST_INVALID_LIMIT)
        else
          issuer ← loadAccountWithoutRecord ltx issuerID;
          withConst issuer (λ issuer,
            there ← constIsActive issuer;
            if negb (there : bool) then done_ false (changeTrustResult CHANGE_TRUST_NO_ISSUER)
            else
              sourceAccount ← loadSourceAccount ltx header;
              withEntry sourceAccount (λ sourceAccount,
                res ← entry_addNumEntries header sourceAccount 1;
                withSubentry res (changeTrustResult CHANGE_TRUST_LOW_RESERVE) (
                  required ← (e ← constCurrent issuer; isAuthRequired e);
                  h ← create ltx (newTrustLine (ct_line op) (ct_limit op) (if (required : bool) then 0 else AUTHORIZED_FLAG));
                  withEntry h (λ _, mret tt);;
                  done_ true (changeTrustResult CHANGE_TRUST_SUCCESS)))))).

(** ** ALLOW_TRUST *)

(** The asset with the source as its issuer. *)
Definition allowedAsset (op : AllowTrustOp) : Asset :=
  match at_asset op with
  | assetCodeNative => ASSET_TYPE_NATIVE
  | assetCode4 code => ASSET_TYPE_CREDIT_ALPHANUM4 code sourceID
  | assetCode12 code => ASSET_TYPE_CREDIT_ALPHANUM12 code sourceID
  end.

Definition allowTrust_doCheckValid (op : AllowTrustOp) (ledgerVersion : Z) : bool * OperationResult :=
  if match at_asset op with assetCodeNative => true | _ => false end
  then (false, opINNER (allowTrustResult ALLOW_TRUST_MALFORMED))
  else if negb (isAssetValid (allowedAsset op)) then (false, opINNER (allowTrustResult ALLOW_TRUST_MALFORMED))
  else (true, opINNER (allowTrustResult ALLOW_TRUST_SUCCESS)).

(** The block over [ltxSource]: the failure, if there is one. *)
Definition allowTrust_checkSource (op : AllowTrustOp) (ltx : nat) : M Ledger (option AllowTrustResult) :=
  withTxn ltx (λ ltxSource,
    withHeader ltxSource (λ header,
      sourceAccountEntry ← loadSourceAccount ltxSource header;
      withEntry sourceAccountEntry (λ sourceAccountEntry,
        sourceAccount ← currentAccount sourceAccountEntry;
        mret (if Z.land (acc_flags sourceAccount) AUTH_REQUIRED_FLAG =? 0 then Some ALLOW_TRUST_TRUST_NOT_REQUIRED
              else if (Z.land (acc_flags sourceAccount) AUTH_REVOCABLE_FLAG =? 0) && negb (authorize op)
              then Some ALLOW_TRUST_CANT_REVOKE else None)))).

(** The loop over the offers of the trustor; the vector is destroyed when it ends. *)
Fixpoint eraseOffers (ltx : nat) (header : LedgerTxnHeader) (trustor_ : AccountID) (ci : Asset) (offers : list LedgerTxnEntry)
    : M Ledger unit :=
  match offers with
  | [] => mret tt
  | h :: offers =>
    oe ← currentOffer h;
    if negb (bool_decide (oe_sellerID oe = trustor_)) then throw "Offer not owned by expected account"
    else if negb (bool_decide (oe_buying oe = ci) || bool_decide (oe_selling oe = ci))
    then throw "Offer not buying or selling expected asset"
    else
      releaseLiabilities ltx header h;;
      trustAcc ← loadAccount ltx trustor_;
      withEntry trustAcc (λ trustAcc, entry_addNumEntries header trustAcc (-1);; eraseEntry h);;
      eraseOffers ltx header trustor_ ci offers
  end.
Fixpoint destroyEntries (hs : list LedgerTxnEntry) : M Ledger unit :=
  match hs with [] => mret tt | h :: hs => destroyEntry h;; destroyEntries hs end.

Definition allowTrust_doApply (op : AllowTrustOp) (ltx : nat) : M Ledger (bool * OperationResult) :=
  lh ← headerOf ltx;
  let self := bool_decide (trustor op = sourceID) in
  if (2 <? ledgerVersion lh) && self then done_ false (allowTrustResult ALLOW_TRUST_SELF_NOT_ALLOWED)
  else
    refused ← allowTrust_checkSource op ltx;
    match refused with
    | Some r => done_ false (allowTrustResult r)
    | None =>
      if self then done_ true (allowTrustResult ALLOW_TRUST_SUCCESS)
      else
        let ci := allowedAsset op in
        let key := TRUSTLINE (trustor op) ci in
        trust ← load ltx key;
        didRevokeAuth ← withEntry trust (λ trust,
          there ← active trust;
          if negb (there : bool) then mret None
          else e ← current trust; auth ← isAuthorized e; mret (Some (auth && negb (authorize op))));
        match didRevokeAuth with
        | None => done_ false (allowTrustResult ALLOW_TRUST_NO_TRUST_LINE)
        | Some didRevokeAuth =>
          withHeader ltx (λ header,
            lh ← headerCurrent header;
            (if (10 <=? ledgerVersion lh) && didRevokeAuth then
               offers ← loadOffersByAccountAndAsset ltx (trustor op) ci;
               scoped (destroyEntries offers) (eraseOffers ltx header (trustor op) ci offers)
             else mret tt);;
            trustLineEntry ← load ltx key;
            withEntry trustLineEntry (λ trustLineEntry,
              onEntry trustLineEntry (setAuthorized (authorize op));;
              done_ true (allowTrustResult ALLOW_TRUST_SUCCESS)))
        end
    end.
End Operations.
