(* ===== verification/AccountOps.v ===== *)
(** * Options of accounts: [transactions/SetOptionsOpFrame.cpp], [normalizeSigners]

    The flags, thresholds and signers of an account. *)
From stdpp Require Import base list gmap strings.
From Stdlib Require Import ZArith.
From S2P Require Import Prelude UInt128 Numeric Exchange LedgerEntries Balances LedgerTxn TrustLines CrossOffers OpTypes Operations.

Definition allAccountFlags : Z := Z.lor (Z.lor AUTH_REQUIRED_FLAG AUTH_REVOCABLE_FLAG) AUTH_IMMUTABLE_FLAG.
Definition allAccountAuthFlags : Z := Z.lor (Z.lor AUTH_REQUIRED_FLAG AUTH_REVOCABLE_FLAG) AUTH_IMMUTABLE_FLAG.
Definition THRESHOLD_MASTER_WEIGHT : nat := 0.
Definition THRESHOLD_LOW : nat := 1.
Definition THRESHOLD_MED : nat := 2.
Definition THRESHOLD_HIGH : nat := 3.

(** ** Changes of an account *)

Definition acc_setInflationDest (x : option AccountID) (a : AccountEntry) : AccountEntry :=
  mkAccount (acc_accountID a) (acc_balance a) (acc_seqNum a) (acc_numSubEntries a) x (acc_flags a)
    (acc_homeDomain a) (acc_thresholds a) (acc_signers a) (acc_ext a).
Definition acc_setFlags (x : Z) (a : AccountEntry) : AccountEntry :=
  mkAccount (acc_accountID a) (acc_balance a) (acc_seqNum a) (acc_numSubEntries a) (acc_inflationDest a) x
    (acc_homeDomain a) (acc_thresholds a) (acc_signers a) (acc_ext a).
Definition acc_setHomeDomain (x : Bytes) (a : AccountEntry) : AccountEntry :=
  mkAccount (acc_accountID a) (acc_balance a) (acc_seqNum a) (acc_numSubEntries a) (acc_inflationDest a) (acc_flags a)
    x (acc_thresholds a) (acc_signers a) (acc_ext a).
Definition acc_setThreshold (i : nat) (x : Z) (a : AccountEntry) : AccountEntry :=
  mkAccount (acc_accountID a) (acc_balance a) (acc_seqNum a) (acc_numSubEntries a) (acc_inflationDest a) (acc_flags a)
    (acc_homeDomain a) (<[i := Z.land x UINT8_MAX]> (acc_thresholds a)) (acc_signers a) (acc_ext a).
Definition acc_setSigners (x : list Signer) (a : AccountEntry) : AccountEntry :=
  mkAccount (acc_accountID a) (acc_balance a) (acc_seqNum a) (acc_numSubEntries a) (acc_inflationDest a) (acc_flags a)
    (acc_homeDomain a) (acc_thresholds a) x (acc_ext a).

(** The order of keys: by type, then by value. *)
Definition signerKeyNum (k : SignerKey) : Z * Z :=
  match k with
  | SIGNER_KEY_TYPE_ED25519 x => (0, x)
  | SIGNER_KEY_TYPE_PRE_AUTH_TX x => (1, x)
  | SIGNER_KEY_TYPE_HASH_X x => (2, x)
  end.
Definition signerKey_ltb (k k' : SignerKey) : bool :=
  let '(t, x) := signerKeyNum k in
  let '(t', x') := signerKeyNum k' in
  (t <? t') || ((t =? t') && (x <? x')).

(** [std::sort] by the key; the keys of an account are distinct. *)
Fixpoint insertSigner (s : Signer) (l : list Signer) : list Signer :=
  match l with
  | [] => [s]
  | s' :: l => if signerKey_ltb (signer_key s') (signer_key s) then s' :: insertSigner s l else s :: s' :: l
  end.
Definition sortSigners (l : list Signer) : list Signer := foldr insertSigner [] l.
Definition normalizeSigners (h : LedgerTxnEntry) : M Ledger unit :=
  modifyAccount h (λ a, acc_setSigners (sortSigners (acc_signers a)) a).

(** ** SET_OPTIONS *)

Section SetOptions.
Context `{HashOrder} (sourceID : AccountID).

Definition setOptions_doCheckValid (op : SetOptionsOp) (ledgerVersion : Z) : bool * OperationResult :=
  let bad r := (false, opINNER (setOptionsResult r)) in
  let unknown (f : option Z) := match f with Some f => negb (Z.land f (u32 (Z.lnot allAccountFlags)) =? 0) | None => false end in
  let tooBig (x : option Z) := match x with Some x => UINT8_MAX <? x | None => false end in
  if unknown (so_setFlags op) then bad SET_OPTIONS_UNKNOWN_FLAG
  else if unknown (so_clearFlags op) then bad SET_OPTIONS_UNKNOWN_FLAG
  else if match so_setFlags op, so_clearFlags op with Some f, Some c => negb (Z.land f c =? 0) | _, _ => false end
  then bad SET_OPTIONS_BAD_FLAGS
  else if tooBig (so_masterWeight op) then bad SET_OPTIONS_THRESHOLD_OUT_OF_RANGE
  else if tooBig (so_lowThreshold op) then bad SET_OPTIONS_THRESHOLD_OUT_OF_RANGE
  else if tooBig (so_medThreshold op) then bad SET_OPTIONS_THRESHOLD_OUT_OF_RANGE
  else if tooBig (so_highThreshold op) then bad SET_OPTIONS_THRESHOLD_OUT_OF_RANGE
  else if match so_signer op with
          | Some signer =>
            let isSelf := bool_decide (signer_key signer = SIGNER_KEY_TYPE_ED25519 sourceID) in
            let isPublicKey := match signer_key signer with SIGNER_KEY_TYPE_ED25519 _ => true | _ => false end in
            isSelf || (negb isPublicKey && (ledgerVersion <? 3)) ||
            ((UINT8_MAX <? signer_weight signer) && (9 <? ledgerVersion))
          | None => false
          end
  then bad SET_OPTIONS_BAD_SIGNER
  else if match so_homeDomain op with Some d => negb (isString32Valid d) | None => false end
  then bad SET_OPTIONS_INVALID_HOME_DOMAIN
  else (true, opINNER (setOptionsResult SET_OPTIONS_SUCCESS)).

(** Assignments under [if (mSetOptions.field)]. *)
Definition whenSome {A} (x : option A) (f : A → M Ledger unit) : M Ledger unit :=
  match x with Some x => f x | None => mret tt end.

(** The blocks of [clearFlags] and [setFlags]: false when the flags can no longer be changed. *)
Definition changeFlags (h : LedgerTxnEntry) (flags : option Z) (f : Z → Z → Z) : M Ledger bool :=
  match flags with
  | None => mret true
  | Some x =>
    immutable ← (if negb (Z.land x allAccountAuthFlags =? 0) then e ← current h; isImmutableAuth e else mret false);
    if (immutable : bool) then mret false
    else modifyAccount h (λ a, acc_setFlags (f (acc_flags a) x) a);; mret true
  end.

(** The loop that gives the old signers of the key the new weight. *)
Definition reweigh (signer : Signer) (l : list Signer) : list Signer :=
  (λ s, if decide (signer_key s = signer_key signer) then mkSigner (signer_key s) (signer_weight signer) else s) <$> l.

(** The loop that erases the signers of the key: [kept] is before the iterator, [rest] from it on. *)
Fixpoint removeSigners (header : LedgerTxnHeader) (h : LedgerTxnEntry) (key : SignerKey) (kept rest : list Signer) : M Ledger unit :=
  match rest with
  | [] => mret tt
  | s :: rest =>
    if decide (signer_key s = key) then
      modifyAccount h (acc_setSigners (kept ++ rest));;
      entry_addNumEntries header h (-1);;
      removeSigners header h key kept rest
    else removeSigners header h key (kept ++ [s]) rest
  end.

Definition changeSigner (header : LedgerTxnHeader) (h : LedgerTxnEntry) (signer : Signer) (k : M Ledger (bool * OperationResult))
    : M Ledger (bool * OperationResult) :=
  a ← currentAccount h;
  let signers := acc_signers a in
  if negb (signer_weight signer =? 0) then
    modifyAccount h (acc_setSigners (reweigh signer signers));;
    if existsb (λ s, bool_decide (signer_key s = signer_key signer)) signers then normalizeSigners h;; k
    else if Z.of_nat (length signers) =? MAX_SIGNERS then done_ false (setOptionsResult SET_OPTIONS_TOO_MANY_SIGNERS)
    else
      res ← entry_addNumEntries header h 1;
      withSubentry res (setOptionsResult SET_OPTIONS_LOW_RESERVE) (
        modifyAccount h (λ a, acc_setSigners (acc_signers a ++ [signer]) a);;
        normalizeSigners h;; k)
  else
    removeSigners header h (signer_key signer) [] signers;;
    normalizeSigners h;; k.

Definition setOptions_doApply (op : SetOptionsOp) (ltx : nat) : M Ledger (bool * OperationResult) :=
  withHeader ltx (λ header,
    sourceAccount ← loadSourceAccount sourceID ltx header;
    withEntry sourceAccount (λ h,
      a ← currentAccount h;
      there ← match so_inflationDest op with
              | Some inflationID => if decide (inflationID = sourceID) then mret true else accountExists ltx inflationID
              | None => mret true
              end;
      if negb (there : bool) then done_ false (setOptionsResult SET_OPTIONS_INVALID_INFLATION)
      else
        whenSome (so_inflationDest op) (λ i, modifyAccount h (acc_setInflationDest (Some i)));;
        ok ← changeFlags h (so_clearFlags op) (λ flags x, Z.land flags (u32 (Z.lnot x)));
        if negb (ok : bool) then done_ false (setOptionsResult SET_OPTIONS_CANT_CHANGE)
        else
          ok ← changeFlags h (so_setFlags op) Z.lor;
          if negb (ok : bool) then done_ false (setOptionsResult SET_OPTIONS_CANT_CHANGE)
          else
            whenSome (so_homeDomain op) (λ d, modifyAccount h (acc_setHomeDomain d));;
            whenSome (so_masterWeight op) (λ x, modifyAccount h (acc_setThreshold THRESHOLD_MASTER_WEIGHT x));;
            whenSome (so_lowThreshold op) (λ x, modifyAccount h (acc_setThreshold THRESHOLD_LOW x));;
            whenSome (so_medThreshold op) (λ x, modifyAccount h (acc_setThreshold THRESHOLD_MED x));;
            whenSome (so_highThreshold op) (λ x, modifyAccount h (acc_setThreshold THRESHOLD_HIGH x));;
            let success := done_ true (setOptionsResult SET_OPTIONS_SUCCESS) in
            match so_signer op with
            | Some signer => changeSigner header h signer success
            | None => success
            end)).
End SetOptions.
