(* ===== verification/OfferOps.v ===== *)
(** * Managing offers: [ManageOfferOpFrameBase.cpp], [ManageSellOfferOpFrame.cpp], [ManageBuyOfferOpFrame.cpp],
    [CreatePassiveSellOfferOpFrame.cpp]

    Creating, changing and deleting an offer. A new offer first takes the offers of the book that it
    crosses; what is left of it stays in the book. *)
From stdpp Require Import base list gmap strings.
From Stdlib Require Import ZArith.
From S2P Require Import Prelude UInt128 Numeric Exchange LedgerEntries Balances LedgerTxn TrustLines CrossOffers OpTypes Operations.

(** What the two subclasses have of their own. *)
Inductive ManageOfferKind :=
| SellOffer (amount : Z) (price : Price)
| BuyOffer (buyAmount : Z) (price : Price).

Record ManageOfferFrame := mkManageOffer {
  mSheep : Asset; mWheat : Asset; mOfferID : Z; mPrice : Price; mSetPassiveOnCreate : bool; kind : ManageOfferKind }.

Definition getInversePrice (price : Price) : Price := mkPrice (price_d price) (price_n price).

(** The constructors of the three frames. *)
Definition manageSellOfferFrame (op : ManageSellOfferOp) (passive : bool) : ManageOfferFrame :=
  mkManageOffer (ms_selling op) (ms_buying op) (ms_offerID op) (ms_price op) passive (SellOffer (ms_amount op) (ms_price op)).
Definition createPassiveFrame (op : CreatePassiveSellOfferOp) : ManageOfferFrame :=
  manageSellOfferFrame (mkManageSell (cp_selling op) (cp_buying op) (cp_amount op) (cp_price op) 0) true.
Definition manageBuyOfferFrame (op : ManageBuyOfferOp) : ManageOfferFrame :=
  mkManageOffer (mb_selling op) (mb_buying op) (mb_offerID op) (getInversePrice (mb_price op)) false
    (BuyOffer (mb_buyAmount op) (mb_price op)).

Section ManageOffer.
Context `{HashOrder} (fuel : nat) (sourceID : AccountID) (f : ManageOfferFrame).

(** ** The virtual functions *)

Definition frameAmount : Z := match kind f with SellOffer amount _ => amount | BuyOffer buyAmount _ => buyAmount end.
Definition isAmountValid : bool := 0 <=? frameAmount.
Definition isDeleteOffer : bool := frameAmount =? 0.

Definition offerLiabilities {S} : M S ExchangeResultV10 :=
  match kind f with
  | SellOffer amount price =>
    exchangeV10WithoutPriceErrorThresholds price amount INT64_MAX INT64_MAX INT64_MAX false
  | BuyOffer buyAmount price =>
    exchangeV10WithoutPriceErrorThresholds (getInversePrice price) INT64_MAX INT64_MAX INT64_MAX buyAmount false
  end.
Definition frame_getOfferBuyingLiabilities {S} : M S Z := res ← offerLiabilities; mret (numSheepSend10 res).
Definition frame_getOfferSellingLiabilities {S} : M S Z := res ← offerLiabilities; mret (numWheatReceived10 res).

(** The new [maxSheepSend] and [maxWheatReceive]. *)
Definition applyOperationSpecificLimits (maxSheepSend sheepSent maxWheatReceive wheatReceived : Z) : Z * Z :=
  match kind f with
  | SellOffer amount _ => (Z.min (s64 (amount - sheepSent)) maxSheepSend, maxWheatReceive)
  | BuyOffer buyAmount _ => (maxSheepSend, Z.min (s64 (buyAmount - wheatReceived)) maxWheatReceive)
  end.

Definition getExchangeParametersBeforeV10 {S} (maxSheepSend maxWheatReceive : Z) : M S (Z * Z) :=
  match kind f with
  | SellOffer amount price =>
    '(ok, based) ← bigDivide_i64 0 maxWheatReceive (price_d price) (price_n price) ROUND_DOWN;
    let maxSheepBasedOnWheat := if (ok : bool) then based else INT64_MAX in
    mret (Z.min (Z.min maxSheepSend maxSheepBasedOnWheat) amount, maxWheatReceive)
  | BuyOffer _ _ => throw "ManageBuyOffer used before protocol version 10"
  end.

(** [setResult...]. *)
Definition offerResult (r : ManageOfferResult) : OperationResult :=
  opINNER (match kind f with SellOffer _ _ => manageSellOfferResult r | BuyOffer _ _ => manageBuyOfferResult r end).
Definition offerFail {A} (r : ManageOfferResult) : M Ledger (OperationResult + A) := mret (inl (offerResult r)).

Definition manageOffer_doCheckValid (ledgerVersion : Z) : bool * OperationResult :=
  if negb (isAssetValid (mSheep f)) || negb (isAssetValid (mWheat f)) then (false, offerResult MANAGE_OFFER_MALFORMED)
  else if compareAsset (mSheep f) (mWheat f) then (false, offerResult MANAGE_OFFER_MALFORMED)
  else if negb isAmountValid || (price_d (mPrice f) <=? 0) || (price_n (mPrice f) <=? 0)
  then (false, offerResult MANAGE_OFFER_MALFORMED)
  else if (mOfferID f =? 0) && isDeleteOffer && (11 <=? ledgerVersion) then (false, offerResult MANAGE_OFFER_MALFORMED)
  else if (mOfferID f =? 0) && isDeleteOffer && (3 <=? ledgerVersion) then (false, offerResult MANAGE_OFFER_NOT_FOUND)
  else (true, offerResult (MANAGE_OFFER_SUCCESS [] MANAGE_OFFER_DELETED)).

(** ** Whether the offer can be made *)

(** The checks of one asset: the trust line, then the issuer. *)
Definition checkLine (ltx : nat) (asset : Asset) (noIssuer noTrust notAuthorized : ManageOfferResult) (needBalance : bool)
    : M Ledger (OperationResult + unit) :=
  if isNative asset then mret (inr tt)
  else
    line ← loadTrustLine ltx sourceID asset;
    withWrapper line (λ line,
      issuerID ← issuerOf asset;
      issuer ← loadAccount ltx issuerID;
      withEntry issuer (λ issuer,
        issuerThere ← active issuer;
        if negb (issuerThere : bool) then offerFail noIssuer
        else
          there ← wrapper_bool line;
          if negb (there : bool) then offerFail noTrust
          else
            balance ← (if needBalance then wrapper_getBalance line else mret 1);
            if balance =? 0 then offerFail MANAGE_OFFER_UNDERFUNDED
            else
              auth ← wrapper_isAuthorized line;
              if negb (auth : bool) then offerFail notAuthorized else mret (inr tt))).

Definition checkOfferValid (ltxOuter : nat) : M Ledger (OperationResult + unit) :=
  withTxn ltxOuter (λ ltx,
    if isDeleteOffer then mret (inr tt)
    else
      sheep ← checkLine ltx (mSheep f) MANAGE_OFFER_SELL_NO_ISSUER MANAGE_OFFER_SELL_NO_TRUST MANAGE_OFFER_SELL_NOT_AUTHORIZED true;
      match sheep with
      | inl r => mret (inl r)
      | inr _ =>
        checkLine ltx (mWheat f) MANAGE_OFFER_BUY_NO_ISSUER MANAGE_OFFER_BUY_NO_TRUST MANAGE_OFFER_BUY_NOT_AUTHORIZED false
      end).

(** The limits of version 10, from the account and the lines. *)
Definition parametersV10 (header : LedgerTxnHeader) (sourceAccount : LedgerTxnEntry) (sheepLine wheatLine : option TrustLineImpl)
    (maxSheepSend maxWheatReceive : Z) : M Ledger (OperationResult + Z * Z) :=
  availableLimit ← (if isNative (mWheat f) then readEntry getMaxAmountReceive header sourceAccount
                    else wrapper_getMaxAmountReceive wheatLine header);
  buying ← frame_getOfferBuyingLiabilities;
  if availableLimit <? buying then offerFail MANAGE_OFFER_LINE_FULL
  else
    availableBalance ← (if isNative (mSheep f) then readEntry getAvailableBalance header sourceAccount
                        else wrapper_getAvailableBalance sheepLine header);
    selling ← frame_getOfferSellingLiabilities;
    if availableBalance <? selling then offerFail MANAGE_OFFER_UNDERFUNDED
    else mret (inr (applyOperationSpecificLimits maxSheepSend 0 maxWheatReceive 0)).

(** [maxSheepSend] and [maxWheatReceive]. *)
Definition computeOfferExchangeParameters (ltxOuter : nat) (creatingNewOffer : bool) : M Ledger (OperationResult + Z * Z) :=
  withTxn ltxOuter (λ ltx,
    withHeader ltx (λ header,
      sourceAccount ← loadSourceAccount sourceID ltx header;
      withEntry sourceAccount (λ sourceAccount,
        lh ← headerCurrent header;
        let v := ledgerVersion lh in
        added ← (if creatingNewOffer && ((10 <=? v) || (isNative (mSheep f) && (8 <? v)))
                 then entry_addNumEntries header sourceAccount 1 else mret SUCCESS);
        match added with
        | LOW_RESERVE => offerFail MANAGE_OFFER_LOW_RESERVE
        | TOO_MANY_SUBENTRIES => mret (inl opTOO_MANY_SUBENTRIES)
        | SUCCESS =>
          sheepLine ← loadTrustLineIfNotNative ltx sourceID (mSheep f);
          withWrapper sheepLine (λ sheepLine,
            wheatLine ← loadTrustLineIfNotNative ltx sourceID (mWheat f);
            withWrapper wheatLine (λ wheatLine,
              maxWheatReceive ← canBuyAtMost header sourceAccount (mWheat f) wheatLine;
              maxSheepSend ← canSellAtMost header sourceAccount (mSheep f) sheepLine;
              if 10 <=? v then parametersV10 header sourceAccount sheepLine wheatLine maxSheepSend maxWheatReceive
              else r ← getExchangeParametersBeforeV10 maxSheepSend maxWheatReceive; mret (inr r)))
        end))).

(** ** Crossing the book *)

(** The two reasons for which the closure given to [convertWithOffers] stops: the price, or an offer
    of the source, which it records as a failure. *)
Definition priceStops (passive : bool) (o : OfferEntry) : bool :=
  let maxWheatPrice := mkPrice (price_d (mPrice f)) (price_n (mPrice f)) in
  (passive && price_ge (oe_price o) maxWheatPrice) || price_gt (oe_price o) maxWheatPrice.
Definition ownOffer (o : OfferEntry) : bool := bool_decide (oe_sellerID o = sourceID).
Definition crossFilter (passive : bool) (e : LedgerEntry) : M Ledger OfferFilterResult :=
  o ← offer e;
  assert_ (negb (oe_offerID o =? mOfferID f));;
  mret (if priceStops passive o then eStop else if ownOffer o then eStop else eKeep).
Definition crossedSelf (passive : bool) (e : LedgerEntry) : bool :=
  match data e with Offer o => negb (priceStops passive o) && ownOffer o | _ => false end.

(** A change of the balance of the source, which must succeed. *)
Definition moveSource (ltx : nat) (header : LedgerTxnHeader) (asset : Asset) (delta : Z) (error : string) : M Ledger unit :=
  if isNative asset then
    sourceAccount ← loadSourceAccount sourceID ltx header;
    withEntry sourceAccount (λ h, ok ← entry_addBalance header h delta; if (ok : bool) then mret tt else throw error)
  else
    line ← loadTrustLine ltx sourceID asset;
    withWrapper line (λ line, ok ← wrapper_addBalance line header delta; if (ok : bool) then mret tt else throw error).

(** What is left of the offer after [sheepSent] and [wheatReceived]. *)
Definition leftAmount (ltx : nat) (header : LedgerTxnHeader) (sheepSent wheatReceived : Z) : M Ledger Z :=
  sourceAccount ← loadAccountWithoutRecord ltx sourceID;
  withConst sourceAccount (λ sourceAccount,
    sheepLine ← loadTrustLineWithoutRecordIfNotNative ltx sourceID (mSheep f);
    withConstWrapper sheepLine (λ sheepLine,
      wheatLine ← loadTrustLineWithoutRecordIfNotNative ltx sourceID (mWheat f);
      withConstWrapper wheatLine (λ wheatLine,
        sheepSendLimit ← canSellAtMost_const header sourceAccount (mSheep f) sheepLine;
        wheatReceiveLimit ← canBuyAtMost_const header sourceAccount (mWheat f) wheatLine;
        let '(sheepSendLimit, wheatReceiveLimit) :=
          applyOperationSpecificLimits sheepSendLimit sheepSent wheatReceiveLimit wheatReceived in
        adjustOffer (mPrice f) sheepSendLimit wheatReceiveLimit))).

(** The block under [if (!isDeleteOffer())]: the amount that stays and the claims. *)
Definition takeOffers (ltx : nat) (creatingNewOffer passive : bool) : M Ledger (OperationResult + Z * list ClaimOfferAtom) :=
  params ← computeOfferExchangeParameters ltx creatingNewOffer;
  match params with
  | inl r => mret (inl r)
  | inr (maxSheepSend, maxWheatReceive) =>
    if maxWheatReceive =? 0 then offerFail MANAGE_OFFER_LINE_FULL
    else
      lh ← headerOf ltx;
      let maxOffersToCross :=
        if FIRST_PROTOCOL_SUPPORTING_OPERATION_LIMITS <=? ledgerVersion lh then MAX_OFFERS_TO_CROSS else INT64_MAX in
      '(r, sheepSent, wheatReceived, offerTrail) ←
        convertWithOffers ltx (mSheep f) (mWheat f) false (Some (crossFilter passive)) maxOffersToCross fuel maxSheepSend maxWheatReceive;
      assert_ (0 <=? sheepSent);;
      let sheepStays := match r with eOK => false | _ => true end in
      let settle :=
        withHeader ltx (λ header,
          (if 0 <? wheatReceived then
             moveSource ltx header (mWheat f) wheatReceived "offer claimed over limit";;
             moveSource ltx header (mSheep f) (- sheepSent) "offer sold more than balance"
           else mret tt);;
          lh ← headerCurrent header;
          amount ← (if 10 <=? ledgerVersion lh then
                      if sheepStays then leftAmount ltx header sheepSent wheatReceived else mret 0
                    else mret (s64 (maxSheepSend - sheepSent)));
          mret (inr (amount, offerTrail))) in
      match r with
      | eOK | ePartial => settle
      | eFilterStop e => if crossedSelf passive e then offerFail MANAGE_OFFER_CROSS_SELF else settle
      | eCrossedTooMany => mret (inl opEXCEEDED_WORK_LIMIT)
      end
  end.

(** ** The operation *)

Definition buildOffer (amount flags : Z) : OfferEntry :=
  mkOffer sourceID (mOfferID f) (mSheep f) (mWheat f) amount (mPrice f) flags.
Definition oe_setOfferID (id : Z) (o : OfferEntry) : OfferEntry :=
  mkOffer (oe_sellerID o) id (oe_selling o) (oe_buying o) (oe_amount o) (oe_price o) (oe_flags o).

(** [generateID] on the header behind its handle. *)
Definition header_generateID (header : LedgerTxnHeader) : M Ledger Z :=
  lh ← headerCurrent header;
  match generateID lh with
  | Ok id lh => setHeaderCurrent header lh;; mret id
  | Throw w lh => setHeaderCurrent header lh;; throw w
  | Crash w lh => setHeaderCurrent header lh;; crash w
  | NoFuel => nofuel
  end.

(** The old offer, if the operation has one: whether a new one is created, and the flags. *)
Definition takeOldOffer (ltx : nat) : M Ledger (option (bool * Z)) :=
  if negb (mOfferID f =? 0) then
    sellSheepOffer ← loadOffer ltx sourceID (mOfferID f);
    withEntry sellSheepOffer (λ h,
      there ← active h;
      if negb (there : bool) then mret None
      else
        withHeader ltx (λ header,
          lh ← headerCurrent header;
          (if 10 <=? ledgerVersion lh then releaseLiabilities ltx header h else mret tt);;
          o ← currentOffer h;
          eraseEntry h;;
          mret (Some (false, oe_flags o))))
  else mret (Some (true, if mSetPassiveOnCreate f then PASSIVE_FLAG else 0)).

(** The new offer of [amount], or the end of the old one. *)
Definition putOffer (ltx : nat) (creatingNewOffer : bool) (amount flags : Z) (claims : list ClaimOfferAtom)
    : M Ledger (bool * OperationResult) :=
  withHeader ltx (λ header,
    if 0 <? amount then
      added ← (if creatingNewOffer then
                 sourceAccount ← loadSourceAccount sourceID ltx header;
                 withEntry sourceAccount (λ h, entry_addNumEntries header h 1)
               else mret SUCCESS);
      match added with
      | LOW_RESERVE => mret (false, offerResult MANAGE_OFFER_LOW_RESERVE)
      | TOO_MANY_SUBENTRIES => mret (false, opTOO_MANY_SUBENTRIES)
      | SUCCESS =>
        newOffer ← (if creatingNewOffer
                    then id ← header_generateID header; mret (oe_setOfferID (s64 id) (buildOffer amount flags))
                    else mret (buildOffer amount flags));
        sellSheepOffer ← create ltx (mkEntry 0 (Offer newOffer));
        withEntry sellSheepOffer (λ h,
          o ← currentOffer h;
          lh ← headerCurrent header;
          (if 10 <=? ledgerVersion lh then acquireLiabilities ltx header h else mret tt);;
          commit ltx;;
          mret (true, offerResult (MANAGE_OFFER_SUCCESS claims
                        (if creatingNewOffer then MANAGE_OFFER_CREATED o else MANAGE_OFFER_UPDATED o))))
      end
    else
      (if negb creatingNewOffer then
         sourceAccount ← loadSourceAccount sourceID ltx header;
         withEntry sourceAccount (λ h, entry_addNumEntries header h (-1));; mret tt
       else mret tt);;
      commit ltx;;
      mret (true, offerResult (MANAGE_OFFER_SUCCESS claims MANAGE_OFFER_DELETED))).

Definition manageOffer_doApply (ltxOuter : nat) : M Ledger (bool * OperationResult) :=
  withTxn ltxOuter (λ ltx,
    valid ← checkOfferValid ltx;
    match valid with
    | inl r => mret (false, r)
    | inr _ =>
      old ← takeOldOffer ltx;
      match old with
      | None => mret (false, offerResult MANAGE_OFFER_NOT_FOUND)
      | Some (creatingNewOffer, flags) =>
        let passive := if (creatingNewOffer : bool) then mSetPassiveOnCreate f else negb (Z.land flags PASSIVE_FLAG =? 0) in
        taken ← (if negb isDeleteOffer then takeOffers ltx creatingNewOffer passive
                 else mret (inr (0, []) : OperationResult + Z * list ClaimOfferAtom));
        match taken with
        | inl r => mret (false, r)
        | inr (amount, claims) => putOffer ltx creatingNewOffer amount flags claims
        end
      end
    end).
End ManageOffer.
