(* ===== verification/OpSpec.v ===== *)
(** * What operations keep

    Every operation of version 11 and later, on a valid ledger: it returns or throws, no assertion
    fails, and when it succeeds the ledger is valid, the total of lumens is what it was and the
    identities of offers are still distinct. *)
From stdpp Require Import base list gmap strings.
From Stdlib Require Import ZArith Lia.
From S2P Require Import Prelude UInt128 Numeric Exchange LedgerEntries Balances BalancesSpec LedgerTxn LedgerTxnSpec LedgerOffers TrustLines LedgerLogic CrossOffers CrossOffersSpec BookSpec OpTypes RunLogic Lumens OpSteps Operations AccountOps OfferOps.

(** One step through a program. *)
Ltac rstep :=
  lazymatch goal with
  | |- run _ _ _ _ (mbind _ _) _ => apply run_bind
  | |- run _ _ _ _ (mret _) _ => apply run_ret
  | |- run _ _ _ _ (done_ _ _) _ => apply run_ret
  | |- run _ _ _ _ (pathFail _) _ => apply run_ret
  | |- run _ _ _ _ (offerFail _ _) _ => apply run_ret
  | |- run _ _ _ _ (throw _) _ => apply run_throw
  | |- run _ _ _ _ wrongUnion _ => apply run_throw
  | |- run _ _ _ _ (withHeader _ _) _ => apply run_withHeader; intros ?
  | |- run _ _ _ _ (withEntry _ _) _ => apply run_withEntry
  | |- run _ _ _ _ (withWrapper _ _) _ => apply run_withWrapper
  | |- run _ _ _ _ (headerCurrent _) _ => apply run_headerCurrent
  | |- run _ _ _ _ (headerOf _) _ => apply run_headerOf
  | |- run _ _ _ _ (active _) _ => apply run_active; [|intros ?]
  | |- run _ _ _ _ (let _ := _ in _) _ => cbv zeta
  | |- run _ _ _ _ (if negb true then _ else _) _ => cbn [negb]
  | |- run _ _ _ _ (if negb false then _ else _) _ => cbn [negb]
  | |- run _ _ _ _ (if ?b then _ else _) _ => destruct b eqn:?
  | |- run _ _ _ _ (match ?x with _ => _ end) _ => destruct x eqn:?
  end; cbv beta.

(** The handle, if it is not null, is of the key [k]. *)
Definition keyed (h : option Handle) (k : LedgerKey) : Prop := ∀ h', h = Some h' → h_key h' = k.
Lemma keyed_account h a : keyed h (ACCOUNT a) → ∀ h', h = Some h' → isAccountKey (h_key h') = true.
Proof. intros Hk h' E. by rewrite (Hk h' E). Qed.

(** Only what success guarantees matters: the transaction of a failed operation is not committed. *)
Definition ifOk (P : Entries → LedgerHeader → Prop) (r : bool * OperationResult) (D : Entries) (lh : LedgerHeader) : Prop :=
  r.1 = true → P D lh.

Section Ops.
Context `{HashOrder} (id : nat) (os : list View) (lh : LedgerHeader) (Hm : modern lh) (Hv11 : 11 <= ledgerVersion lh).
Context (sourceID : AccountID).

(** The header is the same, and [D'] is a step from [D] with the same total. *)
Definition conserves (D D' : Entries) (lh' : LedgerHeader) : Prop := lh' = lh ∧ stepped lh D D' 0.

Lemma run_loadKeyed D k Q : (∀ h, keyed h k → Q h D lh) → run id os D lh (load id k) Q.
Proof. intros HQ. apply run_load; [intros _; by apply HQ|]. intros n d _. apply HQ. by intros h' [= <-]. Qed.

Lemma run_loadSource D header Q :
  (∀ h, keyed h (ACCOUNT sourceID) → Q h D lh) → run id os D lh (loadSourceAccount sourceID id header) Q.
Proof.
  intros HQ. unfold loadSourceAccount, tx_loadAccount. rstep. rstep. rewrite (proj2 (Z.ltb_ge _ _)) by lia. by apply run_loadKeyed.
Qed.

Lemma run_constIsActive D c Q : (∀ b : bool, Q b D lh) → run id os D lh (constIsActive c) Q.
Proof. intros HQ. apply run_get. intros s. by apply run_ret. Qed.

Lemma run_accountExists D a Q : Valid lh D → (∀ b, Q b D lh) → run id os D lh (accountExists id a) Q.
Proof.
  intros HV HQ. apply run_bind, run_loadConst; [done|]. intros c Hc. apply (run_withConstOk _ _ lh); [done|]. by apply run_constIsActive.
Qed.

Lemma run_issuerOf D s Q : (∀ i, Q i D lh) → run id os D lh (issuerOf s) Q.
Proof. intros HQ. unfold issuerOf. destruct (getIssuer s); [by apply run_ret|apply run_throw]. Qed.

(** A change of an account that leaves its amounts alone. *)
Lemma run_modifyAccount D h f Q :
  Valid lh D → (∀ a, acc_accountID (f a) = acc_accountID a ∧ acc_balance (f a) = acc_balance a ∧
    acc_numSubEntries (f a) = acc_numSubEntries a ∧ acc_ext (f a) = acc_ext a) →
  (∀ D', stepped lh D D' 0 → Q tt D' lh) → run id os D lh (modifyAccount h f) Q.
Proof.
  intros HV Hf HQ. unfold modifyAccount. rstep. apply run_current. intros h' lm d -> Hd Hk. rstep. apply run_account. intros a Ea. simpl in Ea. subst d.
  destruct (Hf a) as (E1 & E2 & E3 & E4). assert (Hk' : dataKeyOf (Account (f a)) = h_key h') by (rewrite <- Hk; unfold dataKeyOf, LedgerEntryKey; simpl; by rewrite E1).
  apply run_setCurrent; [done|]. apply HQ. simpl. eapply stepped_eq; [apply stepped_insert with (d := Account a); [done..| |done|]|].
  - rewrite <- Hk'. done.
  - destruct (HV _ _ Hd) as [_ Ha]. unfold dataOk, amountsOk in *. simpl in *. by rewrite E2, E3, E4.
  - rewrite <- Hk'. simpl. rewrite E2. lia.
Qed.

(** ** CREATE_ACCOUNT *)

Lemma newAccount_ok a b n : is_i64 b → dataOk lh (data (newAccount a b n)).
Proof. intros Hb. unfold dataOk, amountsOk, newAccount, is_i64, subEntriesOk, INT64_MAX in *. simpl. lia. Qed.

Lemma run_createAccount op D :
  Valid lh D → 0 < startingBalance op <= INT64_MAX → run id os D lh (createAccount_doApply sourceID op id) (ifOk (conserves D)).
Proof.
  intros HV Hb. unfold createAccount_doApply, loadAccount. rstep. apply run_loadKeyed. intros dest _. do 2 rstep.
  apply run_active; [|intros _; by rstep]. rstep. do 2 rstep. rstep; [by rstep|]. rstep. rewrite (proj2 (Z.ltb_ge _ _)) by lia.
  rstep. rstep. apply run_loadSource. intros h Hh. rstep. rstep. apply run_available; [done|done|by eapply keyed_account|]. intros avail Hav Hpay.
  rstep; [by rstep|]. simpl. rstep. apply run_payOut; [done|done|by eapply keyed_account|lia|apply Hpay; lia|]. intros D1 Hst1.
  apply run_assert; [done|]. rstep. rstep. rstep. apply run_create. intros m Hnone. do 3 rstep. rstep. intros _. split; [done|].
  eapply stepped_eq; [eapply stepped_trans; [exact Hst1|apply stepped_create; [apply Hst1|done|done|done|]]|].
  - apply newAccount_ok. unfold is_i64. lia.
  - simpl. lia.
Qed.

(** ** ACCOUNT_MERGE *)

Lemma run_currentAccount D h k Q :
  keyed h k → (∀ h' a, h = Some h' → D !! k = Some (Account a) → Q a D lh) → run id os D lh (currentAccount h) Q.
Proof.
  intros Hk HQ. unfold currentAccount. rstep. apply run_current. intros h' lm d -> Hd _. apply run_account. intros a Ea. simpl in Ea. subst d.
  rewrite (Hk h' eq_refl) in Hd. by eapply HQ.
Qed.

Lemma run_merge destination D :
  Valid lh D → sourceID ≠ destination → run id os D lh (merge_doApply sourceID destination id) (ifOk (conserves D)).
Proof.
  intros HV Hne. unfold merge_doApply, loadAccount, accountKey. rstep. rstep. apply run_loadKeyed. intros other Ho. rstep. rstep. rstep; rstep; [by rstep|].
  rstep. rstep. rstep. assert (Hv : (4 <? ledgerVersion lh) && (ledgerVersion lh <? 8) = false) by lia. rewrite Hv. rstep.
  rstep. apply run_loadSource. intros h Hh. rstep. rstep. apply run_currentAccount with (ACCOUNT sourceID); [done|].
  intros h' a Eh Ha. rewrite (proj2 (Z.leb_le 8 _)), orb_true_r by lia. rstep. rstep.
  apply run_current. intros h2 lm d _ _ _. unfold isImmutableAuth. rstep. apply run_account. intros a2 _. rstep. rstep; [by rstep|]. rstep; [by rstep|]. rstep; [by rstep|].
  assert (Hba : is_i64 (acc_balance a)) by (destruct (HV _ _ Ha) as [_ [? _]]; done). unfold is_i64 in Hba.
  rstep. apply run_addBalance; [done|done|unfold INT64_MAX in *; lia|]. intros o' b D1 -> Hfr Hst. rewrite (Ho o' eq_refl) in Hfr, Hst. simpl in Hst.
  rstep; [by rstep|]. destruct b; [|done]. rstep. apply run_eraseEntry. intros h3 d3 E3 Hd3. rewrite Eh in E3. injection E3 as <-.
  rewrite (Hh h' Eh) in Hd3 |- *. rewrite Hfr in Hd3 by congruence. rewrite Ha in Hd3. injection Hd3 as <-.
  rstep. intros _. split; [done|]. eapply stepped_eq; [eapply stepped_trans; [exact Hst|apply stepped_delete; [apply Hst|]]|].
  - rewrite Hfr by congruence. exact Ha.
  - simpl. lia.
Qed.

(** ** INFLATION *)

Lemma run_inflation D : Valid lh D → run id os D lh (inflation_doApply id) (ifOk (conserves D)).
Proof. intros HV. apply run_ret. intros _. split; [done|by apply stepped_refl]. Qed.

(** ** MANAGE_DATA *)

Lemma run_withSubentry D res low m P :
  (res = SUCCESS → run id os D lh m (ifOk P)) → run id os D lh (withSubentry res low m) (ifOk P).
Proof. intros Hr. unfold withSubentry. destruct res; [by apply Hr|by rstep..]. Qed.

Lemma run_manageData op D :
  Valid lh D → lumens D + baseReserve lh <= INT64_MAX → run id os D lh (manageData_doApply sourceID op id) (ifOk (conserves D)).
Proof.
  intros HV Hl. unfold manageData_doApply, loadData. do 3 rstep. assert (Hv3 : (ledgerVersion lh =? 3) = false) by lia. rewrite Hv3.
  rstep. apply run_loadKeyed. intros h Hh. rstep. rstep.
  assert (Hgone : ∀ D1, stepped lh D D1 0 → run id os D1 lh (sourceAccount ← loadSourceAccount sourceID id (id, n);
      withEntry sourceAccount (λ sourceAccount, entry_addNumEntries (id, n) sourceAccount (-1));;
      done_ true (manageDataResult MANAGE_DATA_SUCCESS)) (ifOk (conserves D))).
  { intros D1 Hst. rstep. apply run_loadSource. intros src _. rstep. rstep. apply run_addNumEntries; [done|apply Hst|by left|]. intros r D2 Hst2.
    rstep. intros _. split; [done|]. exact (stepped_trans _ _ _ _ _ _ Hst Hst2). }
  rstep; (destruct (md_dataValue op) as [value|]; simpl; [|try (by rstep)]).
  - rstep. apply run_loadSource. intros src _. rstep. rstep. apply run_addNumEntries; [done|done|right; split; [done|]; split; [lia|done]|].
    intros r D1 Hst. apply run_withSubentry. intros ->. rstep. apply run_create. intros m Hn. do 3 rstep. rstep. intros _. split; [done|].
    eapply stepped_eq; [eapply stepped_trans; [exact Hst|by apply stepped_create; [apply Hst|..]]|]. done.
  - rstep. unfold setDataValue. rstep. apply run_current. intros h' lm d E Hd Hk. subst h. rstep. unfold dataOf. simpl. rstep; try (by rstep). subst d.
    rstep. apply run_setCurrent; [by rewrite <- Hk|]. rstep. intros _. split; [done|].
    eapply stepped_eq; [eapply stepped_insert; [done|exact Hd|by rewrite <- Hk..|done]|]. by rewrite <- Hk.
  - rstep. apply run_eraseEntry. intros h' d E Hd. apply Hgone. eapply stepped_eq; [by eapply stepped_delete|].
    rewrite (Hh h' E). by destruct d.
Qed.

(** ** CHANGE_TRUST *)

Lemma reads_minimum : reads lh getMinimumLimit (λ _, True).
Proof.
  intros e Ha. unfold getMinimumLimit, trustLine, mbind, M_bind. destruct (data e) as [|t| |] eqn:Ed.
  2: left; eexists; (split; [done|]); intros s; unfold mret, M_ret; rewrite (proj2 (Z.leb_le 10 _)) by lia;
    rewrite getBuyingLiabilities_eq by (unfold holdsAsset; by rewrite ?Ed || lia); reflexivity.
  all: right; eexists; intros s; unfold wrongUnion, throw; reflexivity.
Qed.

(** The smallest limit of a line leaves room for its balance and for what it is going to buy. *)
Lemma minimum_exact {S} lm t m (s : S) :
  amountsOk lh (mkEntry lm (TrustLine t)) → getMinimumLimit lh (mkEntry lm (TrustLine t)) s = Ok m s →
  ∀ x, m <= x <= INT64_MAX → amountsOk lh (mkEntry lm (TrustLine (tl_setLimit x t))).
Proof.
  intros Ha E x Hx. destruct (amountsOk_iff lh (proj1 Hm) (mkEntry lm (TrustLine t)) eq_refl Ha) as (Hb & Hc & _ & Hl). specialize (Hl (proj2 Hm)).
  unfold getMinimumLimit, trustLine, mbind, M_bind in E. simpl in E. unfold mret, M_ret in E. rewrite (proj2 (Z.leb_le 10 _)) in E by lia.
  rewrite getBuyingLiabilities_eq in E by (done || lia). injection E as E. unfold amountsOk, balanceOf, ceilingOf, liabilitiesOf, is_i64 in *. simpl in *.
  rewrite s64_small in E by (unfold INT64_MAX in *; lia). lia.
Qed.

Lemma run_minimum D header h k Q :
  Valid lh D → keyed h k →
  (∀ h' t m, h = Some h' → D !! k = Some (TrustLine t) →
     (∀ lm x, m <= x <= INT64_MAX → amountsOk lh (mkEntry lm (TrustLine (tl_setLimit x t)))) → Q m D lh) →
  run id os D lh (readEntry getMinimumLimit header h) Q.
Proof.
  intros HV Hk HQ. unfold readEntry, underHeader. do 3 rstep. apply run_current. intros h' lm d -> Hd _. rewrite (Hk h' eq_refl) in Hd.
  pose proof (Valid_amounts _ _ _ _ lm HV Hd) as Ha. destruct (reads_minimum _ Ha) as [(m & _ & E)|(w & E)].
  - apply (run_pure _ _ _ _ _ _ m E). destruct d as [|t| |]; try (specialize (E (mkLedger [] (mkRoot lh ∅) 0)); done).
    eapply HQ; [done|done|]. intros lm' x Hx. exact (minimum_exact lm t m (mkLedger [] (mkRoot lh ∅) 0) Ha (E _) x Hx).
  - intros V Hi Hs HD HL s Hok Hv. rewrite E. split; [done|]. rewrite Hv. by exists V.
Qed.

Lemma run_withIssuer {A} D a (m : option (Handle * LedgerEntry) → M Ledger A) Q :
  Valid lh D → (∀ c, constOk lh c → run id os D lh (m c) Q) →
  run id os D lh (issuer ← loadAccountWithoutRecord id a; withConst issuer m) Q.
Proof. intros HV Hc. rstep. apply run_loadConst; [done|]. intros c Hok. apply (run_withConstOk _ _ lh); [done|by apply Hc]. Qed.

Lemma run_changeTrust op D :
  Valid lh D → lumens D + baseReserve lh <= INT64_MAX → 0 <= ct_limit op <= INT64_MAX →
  run id os D lh (changeTrust_doApply sourceID op id) (ifOk (conserves D)).
Proof.
  intros HV Hl Hlim. unfold changeTrust_doApply. do 2 rstep. apply run_issuerOf. intros i. do 2 rstep. cbv zeta.
  rewrite (proj2 (Z.ltb_lt 2 _)) by lia. cbn [negb andb]. rstep; [by rstep|]. clear Heqb.
  rstep. apply run_loadKeyed. intros h Hh. rstep. rstep. rstep.
  - (* a new line *)
    rstep; [by rstep|]. apply run_withIssuer; [done|]. intros c Hc. rstep. apply run_constIsActive. intros b. rstep; [by rstep|].
    rstep. apply run_loadSource. intros src _. rstep. rstep. apply run_addNumEntries; [done|done|right; split; [done|]; split; [lia|done]|].
    intros r D1 Hst. apply run_withSubentry. intros ->. rstep. rstep. apply run_constCurrent. intros hc e ->. unfold isAuthRequired. rstep.
    apply run_account. intros a _. rstep. rstep. apply run_create. intros m Hn. do 3 rstep. rstep. intros _. split; [done|].
    eapply stepped_eq; [eapply stepped_trans; [exact Hst|apply stepped_create; [apply Hst|done..|]]|done].
    unfold dataOk, amountsOk, newTrustLine, is_i64. simpl. lia.
  - (* the line is there *)
    rstep. apply run_minimum with (TRUSTLINE sourceID (ct_line op)); [done|done|]. intros h' t m Eh Hd Ha. rstep; [by rstep|]. rstep.
    + rstep. apply run_eraseEntry. intros h2 d E2 Hd2. rstep. apply run_loadSource. intros src _. rstep. rstep.
      assert (Hst : stepped lh D (delete (h_key h2) D) 0).
      { eapply stepped_eq; [by eapply stepped_delete|]. by rewrite (Hh h2 E2). }
      apply run_addNumEntries; [done|apply Hst|by left|]. intros r D2 Hst2. rstep. intros _. split; [done|].
      exact (stepped_trans _ _ _ _ _ _ Hst Hst2).
    + apply run_withIssuer; [done|]. intros c Hc. rstep. apply run_constIsActive. intros b. rstep; [by rstep|]. rstep.
      unfold setLimit. rstep. apply run_current. intros h2 lm d2 E2 Hd2 Hk2. rstep. apply run_trustLine. intros t2 Et2. simpl in Et2. subst d2.
      rewrite Eh in E2 |- *. injection E2 as <-. rewrite (Hh h' Eh) in Hd2, Hk2. rewrite Hd in Hd2. injection Hd2 as <-.
      apply run_setCurrent; [by rewrite (Hh h' Eh), <- Hk2|]. rstep. intros _. split; [done|]. rewrite (Hh h' Eh).
      eapply stepped_eq; [eapply stepped_insert; [done|exact Hd|done|by rewrite <- Hk2|]|done]. apply (Ha 0). lia.
Qed.

(** ** SET_OPTIONS *)

Section From.
Context (D0 : Entries).

Lemma run_modifyFrom D h f Q :
  stepped lh D0 D 0 → (∀ a, acc_accountID (f a) = acc_accountID a ∧ acc_balance (f a) = acc_balance a ∧
    acc_numSubEntries (f a) = acc_numSubEntries a ∧ acc_ext (f a) = acc_ext a) →
  (∀ D', stepped lh D0 D' 0 → Q tt D' lh) → run id os D lh (modifyAccount h f) Q.
Proof.
  intros Hst Hf HQ. apply run_modifyAccount; [apply Hst|done|]. intros D' Hst'. apply HQ. exact (stepped_trans _ _ _ _ _ _ Hst Hst').
Qed.
Lemma run_numEntriesFrom D header h c Q :
  stepped lh D0 D 0 → c = -1 ∨ (c = 1 ∧ lumens D0 + baseReserve lh <= INT64_MAX) →
  (∀ r D', stepped lh D0 D' 0 → Q r D' lh) → run id os D lh (entry_addNumEntries header h c) Q.
Proof.
  intros Hst Hc HQ. apply run_addNumEntries; [done|apply Hst|..].
  - destruct Hc as [->|[-> Hc]]; [by left|right]. destruct Hst as (_ & -> & _). split; [done|]. lia.
  - intros r D' Hst'. apply HQ. exact (stepped_trans _ _ _ _ _ _ Hst Hst').
Qed.

Lemma run_whenSome {A} D h (x : option A) f Q :
  stepped lh D0 D 0 → (∀ i a, acc_accountID (f i a) = acc_accountID a ∧ acc_balance (f i a) = acc_balance a ∧
    acc_numSubEntries (f i a) = acc_numSubEntries a ∧ acc_ext (f i a) = acc_ext a) →
  (∀ D', stepped lh D0 D' 0 → Q tt D' lh) → run id os D lh (whenSome x (λ i, modifyAccount h (f i))) Q.
Proof. intros Hst Hf HQ. unfold whenSome. destruct x as [i|]; [by apply run_modifyFrom|by rstep; apply HQ]. Qed.

Lemma run_changeFlags D h flags f Q :
  stepped lh D0 D 0 → (∀ b D', stepped lh D0 D' 0 → Q b D' lh) → run id os D lh (changeFlags h flags f) Q.
Proof.
  intros Hst HQ. unfold changeFlags. destruct flags as [x|]; [|by rstep; apply HQ]. rstep.
  assert (Hgo : ∀ b : bool, run id os D lh (if b then mret false else modifyAccount h (λ a, acc_setFlags (f (acc_flags a) x) a);; mret true) Q).
  { intros [|]; [by rstep; apply HQ|]. rstep. apply run_modifyFrom; [done|done|]. intros D' Hst'. rstep. by apply HQ. }
  destruct (negb _); [|rstep; apply (Hgo false)]. rstep. apply run_current. intros h' lm d _ _ _. unfold isImmutableAuth. rstep.
  apply run_account. intros a _. rstep. apply Hgo.
Qed.

Lemma run_removeSigners header h key rest : ∀ D kept Q,
  stepped lh D0 D 0 → (∀ D', stepped lh D0 D' 0 → Q tt D' lh) → run id os D lh (removeSigners header h key kept rest) Q.
Proof.
  induction rest as [|s rest IH]; intros D kept Q Hst HQ; simpl; [by rstep; apply HQ|]. destruct (decide _); [|by apply IH].
  rstep. apply run_modifyFrom; [done|done|]. intros D1 Hst1. rstep. apply run_numEntriesFrom; [done|by left|]. intros r D2 Hst2. by apply IH.
Qed.

Lemma run_normalizeSigners D h Q :
  stepped lh D0 D 0 → (∀ D', stepped lh D0 D' 0 → Q tt D' lh) → run id os D lh (normalizeSigners h) Q.
Proof. intros Hst HQ. by apply run_modifyFrom. Qed.

Lemma run_changeSigner D header h signer r :
  stepped lh D0 D 0 → lumens D0 + baseReserve lh <= INT64_MAX →
  run id os D lh (changeSigner header h signer (done_ true r)) (ifOk (conserves D0)).
Proof.
  intros Hst Hl. assert (Hend : ∀ D1, stepped lh D0 D1 0 → run id os D1 lh (normalizeSigners h;; done_ true r) (ifOk (conserves D0))).
  { intros D1 Hst1. rstep. apply run_normalizeSigners; [done|]. intros D2 Hst2. rstep. by intros _. }
  unfold changeSigner, currentAccount. do 2 rstep. apply run_current. intros h' lm d _ _ _. apply run_account. intros a _. cbv zeta. rstep.
  - rstep. apply run_modifyFrom; [done|done|]. intros D1 Hst1. rstep; [by apply Hend|]. rstep; [by rstep|].
    rstep. apply run_numEntriesFrom; [done|by right|]. intros res D2 Hst2. apply run_withSubentry. intros _.
    rstep. apply run_modifyFrom; [done|done|]. intros D3 Hst3. by apply Hend.
  - rstep. apply run_removeSigners; [done|]. intros D1 Hst1. by apply Hend.
Qed.

Lemma run_setOptions op :
  Valid lh D0 → lumens D0 + baseReserve lh <= INT64_MAX → run id os D0 lh (setOptions_doApply sourceID op id) (ifOk (conserves D0)).
Proof.
  intros HV Hl. unfold setOptions_doApply. do 2 rstep. apply run_loadSource. intros h _. rstep. unfold currentAccount. do 2 rstep.
  apply run_current. intros h' lm d _ _ _. apply run_account. intros a _. rstep.
  match goal with |- run _ _ _ _ _ ?Q => assert (Hgo : ∀ b : bool, Q b D0 lh) end.
  { intros b. cbv beta. rstep; [by rstep|]. clear dependent b. pose proof (stepped_refl lh D0 HV) as Hst0.
    rstep. apply run_whenSome; [done|done|]. intros D1 Hst1. rstep. apply run_changeFlags; [done|]. intros b D2 Hst2. rstep; [by rstep|].
    rstep. apply run_changeFlags; [done|]. intros b' D3 Hst3. rstep; [by rstep|].
    rstep. apply run_whenSome; [done|done|]. intros D4 Hst4. rstep. apply run_whenSome; [done|done|]. intros D5 Hst5.
    rstep. apply run_whenSome; [done|done|]. intros D6 Hst6. rstep. apply run_whenSome; [done|done|]. intros D7 Hst7.
    rstep. apply run_whenSome; [done|done|]. intros D8 Hst8. cbv zeta.
    destruct (so_signer op); [by apply run_changeSigner|]. rstep. by intros _. }
  destruct (so_inflationDest op); [|rstep; apply Hgo]. destruct (decide _); [rstep; apply Hgo|]. by apply run_accountExists.
Qed.
End From.

(** ** PATH_PAYMENT *)

(** What is left to pay for: [x] of [s] went to somebody. *)
Definition owed (s : Asset) (x : Z) : Z := if isNative s then x else 0.

(** Only what follows matters. *)
Definition sumOk {A} (P : A → Entries → LedgerHeader → Prop) (r : OperationResult + A) (D : Entries) (lh' : LedgerHeader) : Prop :=
  match r with inl _ => True | inr a => P a D lh' end.

Lemma run_checkIssuer {A} D s (k : M Ledger (OperationResult + A)) P :
  Valid lh D → run id os D lh k (sumOk P) → run id os D lh (checkIssuer id s k) (sumOk P).
Proof.
  intros HV Hk. unfold checkIssuer. rstep. apply run_issuerOf. intros i. rstep. apply run_accountExists; [done|]. intros b.
  rstep; [done|by apply run_ret].
Qed.

(** The line of a party to the payment: nothing native moves. *)
Lemma run_payLine D a s x noTrust notAuthorized full :
  Valid lh D → - 2 ^ 63 <= x <= INT64_MAX →
  run id os D lh
    (line ← loadTrustLine id a s;
     withWrapper line (λ line,
       there ← wrapper_bool line;
       if negb (there : bool) then pathFail noTrust
       else
         auth ← wrapper_isAuthorized line;
         if negb (auth : bool) then pathFail notAuthorized
         else
           ok ← withHeader id (λ header, wrapper_addBalance line header x);
           if negb (ok : bool) then pathFail full else mret (inr tt)))
    (sumOk (λ _ D' lh', lh' = lh ∧ stepped lh D D' 0)).
Proof.
  intros HV Hx. unfold loadTrustLine. rstep. apply run_newTrustLineWrapper. intros w Hw. rstep. rstep. apply run_wrapper_bool. intros b.
  rstep; [by apply run_ret|]. rstep. apply run_isAuthorized. intros b'. rstep; [by apply run_ret|]. do 2 rstep.
  apply run_wrapper_addBalance; [done..|]. intros ok D' Hst. rstep; [by apply run_ret|]. by rstep.
Qed.

Lemma run_payDestination op D bypass :
  Valid lh D → 0 < destAmount op <= INT64_MAX →
  run id os D lh (payDestination op id bypass)
    (sumOk (λ _ D' lh', lh' = lh ∧ stepped lh D D' (owed (destAsset op) (destAmount op)))).
Proof.
  intros HV Hx. unfold payDestination, owed, loadAccount, accountKey. cbv zeta. destruct (isNative (destAsset op)).
  - rstep. apply run_loadKeyed. intros h Hh. do 3 rstep. apply run_addBalance; [done|done|unfold INT64_MAX in *; lia|].
    intros h' b D1 -> _ Hst. rewrite (Hh h' eq_refl) in Hst. simpl in Hst. rstep; [by do 3 rstep|]. destruct b; [|done]. by rstep.
  - destruct bypass; [|apply run_checkIssuer; [done|]]; apply run_payLine; (done || (unfold INT64_MAX in *; lia)).
Qed.

Lemma books_stepped sheep wheat D trail D' :
  Valid lh D' → booksBalance sheep wheat D trail D' → stepped lh D D' (owed sheep (boughtBy trail) - owed wheat (soldBy trail)).
Proof.
  intros HV' Hb. split; [done|]. split; [|apply Hb]. rewrite (books_lumens _ _ _ _ _ Hb). unfold owed. destruct (isNative sheep), (isNative wheat); lia.
Qed.

Lemma run_pathLoop fuel D0 assets : ∀ curB received offers D,
  Valid lh D0 → stepped lh D0 D (owed curB received) → 0 <= received <= INT64_MAX → (size (offersIn D0) < fuel)%nat →
  run id os D lh (pathLoop fuel sourceID id assets curB received offers)
    (sumOk (λ '(curB', sent, _) D' lh', lh' = lh ∧ 0 <= sent <= INT64_MAX ∧ stepped lh D0 D' (owed curB' sent))).
Proof.
  induction assets as [|curA assets IH]; intros curB received offers D HV0 Hst Hr Hf; simpl; [by rstep|].
  destruct (decide (curA = curB)) as [|Hne]; [by apply IH|].
  match goal with |- run _ _ _ _ (if _ then ?c else _) ?Q => assert (Hconvert : run id os D lh c Q) end.
  { rstep. rstep. rstep. pose proof (offersShrink_size lh D0 D HV0 (proj1 Hst) (proj2 (proj2 Hst))).
    apply run_convertWithOffers with (P := λ _, True); [done|apply Hst| |done|done|lia|lia|lia|].
    { intros f lm o [= <-] _. by eexists. }
    intros r sent got trail D1 HV1 Hs Hg Eb Es Hb. apply run_assert; [lia|]. rstep; [|by rstep..]. rstep; [by rstep|].
    apply run_assert; [by destruct (received =? got)|]. apply IH; [done| |unfold INT64_MAX in *; lia|done].
    assert (got = received) as -> by lia.
    eapply stepped_eq; [eapply stepped_trans; [exact Hst|by apply books_stepped]|]. rewrite Eb, Es. lia. }
  destruct (isNative curA); [done|]. apply run_checkIssuer; [apply Hst|done].
Qed.

Lemma run_paySource op D bypass curB sent :
  Valid lh D → 0 <= sent <= INT64_MAX →
  run id os D lh (paySource sourceID op id bypass true curB sent) (sumOk (λ _ D' lh', lh' = lh ∧ stepped lh D D' (- owed curB sent))).
Proof.
  intros HV Hx. unfold paySource, owed, loadAccount, accountKey. rstep; [by apply run_ret|]. destruct (isNative curB).
  - do 3 rstep. cbv zeta. rewrite (proj2 (Z.ltb_lt 7 _)) by lia. rstep. apply run_loadKeyed. intros h Hh. do 2 rstep. rstep; rstep; [by apply run_ret|].
    rstep. apply run_available; [done|done|by eapply keyed_account|]. intros avail Hav Hpay. rstep; [by apply run_ret|]. cbn [negb].
    rstep. apply run_payOut; [done|done|by eapply keyed_account|lia|apply Hpay; lia|]. intros D1 Hst1. apply run_assert; [done|]. by rstep.
  - destruct bypass; [|apply run_checkIssuer; [done|]]; apply run_payLine; (done || (unfold INT64_MAX in *; lia)).
Qed.

(** The result of a path payment that succeeded is the success of a path payment. *)
Definition isPathSuccess (r : OperationResult) : Prop :=
  match r with opINNER (pathPaymentResult (PATH_PAYMENT_SUCCESS _ _)) => True | _ => False end.

Lemma run_pathPayment fuel op D :
  Valid lh D → 0 < destAmount op <= INT64_MAX → (size (offersIn D) < fuel)%nat →
  run id os D lh (pathPayment_doApply fuel sourceID op id) (λ r D' lh', r.1 = true → conserves D D' lh' ∧ isPathSuccess r.2).
Proof.
  intros HV Hx Hf. unfold pathPayment_doApply. cbv zeta. rstep.
  match goal with |- run _ _ _ _ _ ?Q => assert (Hgo : ∀ b : bool, Q b D lh) end.
  { intros bypass. cbv beta. do 2 rstep. rewrite (proj2 (Z.ltb_ge _ _)) by lia. do 2 rstep. rstep.
    match goal with |- run _ _ _ _ _ ?Q => assert (Hgo : ∀ b : bool, Q b D lh) end.
    { intros there. cbv beta. rstep; [by rstep|]. rstep. eapply run_mono; [by apply run_payDestination|]. intros [r|[]] D1 ? HD1; [by rstep|].
      destruct HD1 as [-> Hst1]. rstep. eapply run_mono; [apply (run_pathLoop fuel D); [done|exact Hst1|lia|done]|].
      intros [r|[[curB sent] offers]] D2 ? HD2; [by rstep|]. destruct HD2 as (-> & Hsent & Hst2).
      rstep. eapply run_mono; [apply run_paySource; [apply Hst2|done]|]. intros [r|[]] D3 ? HD3; [by rstep|]. destruct HD3 as [-> Hst3].
      rstep. intros _. split; [|done]. split; [done|]. eapply stepped_eq; [exact (stepped_trans _ _ _ _ _ _ Hst2 Hst3)|]. lia. }
    destruct (negb bypass); [by apply run_accountExists|by rstep]. }
  destruct (negb _ && _ && _); [|rstep; apply Hgo]. rstep. apply run_issuerOf. intros i. rstep. apply Hgo.
Qed.
End Ops.

Section MoreOps.
Context `{HashOrder} (id : nat) (os : list View) (lh : LedgerHeader) (Hm : modern lh) (Hv11 : 11 <= ledgerVersion lh).
Context (sourceID : AccountID).

(** ** PAYMENT *)

Lemma run_payment fuel op D :
  Valid lh D → pay_amount op <= INT64_MAX → (size (offersIn D) < fuel)%nat →
  run id os D lh (payment_doApply fuel sourceID op id) (ifOk (conserves lh D)).
Proof.
  intros HV Hx Hf. unfold payment_doApply. do 2 rstep. cbv zeta. rstep; [rstep; intros _; split; [done|by apply stepped_refl]|].
  rstep. set (pp := mkPathPayment _ _ _ _ _ _).
  assert (Hgo : run id os D lh (if (pathPayment_doCheckValid pp (ledgerVersion lh)).1 then pathPayment_doApply fuel sourceID pp id
      else mret (pathPayment_doCheckValid pp (ledgerVersion lh)))
    (λ r D' lh', r.1 = true → conserves lh D D' lh' ∧ isPathSuccess r.2)).
  { destruct (pathPayment_doCheckValid pp _).1 eqn:Ec; [|rstep; congruence]. apply run_pathPayment; [done|done|done| |done].
    unfold pathPayment_doCheckValid, pp in *. simpl in *. destruct (pay_amount op <=? 0) eqn:E; [done|]. lia. }
  eapply run_mono; [exact Hgo|]. intros [ok res] D' lh' Hr. simpl in Hr. destruct ok; cbn [negb].
  - destruct Hr as [Hk Hs]; [done|]. apply run_assert; [unfold isPathSuccess in Hs; by repeat case_match|]. rstep. by intros _.
  - repeat rstep; by intros.
Qed.

(** ** BUMP_SEQUENCE *)

Lemma run_bumpSequence op D : Valid lh D → run id os D lh (bumpSequence_doApply sourceID op id) (ifOk (conserves lh D)).
Proof.
  intros HV. unfold bumpSequence_doApply. apply run_withTxn. intros id' P _ _ _ _. apply runIn_withHeader. intros n.
  apply runIn_bind, run_loadSource; [done|]. intros h Hh. apply runIn_withEntry, runIn_bind.
  apply run_currentAccount with (ACCOUNT sourceID); [done|]. intros h' a _ _.
  apply (runIn_answer id' P os D lh _ (λ _, (true, opINNER (bumpSeqResult BUMP_SEQUENCE_SUCCESS)))). destruct (_ <? _).
  - apply runIn_bind, run_modifyAccount; [done|done|]. intros D1 Hst. apply runIn_commit_only. by intros _.
  - apply runIn_run. rstep. intros _. split; [done|by apply stepped_refl].
Qed.

(** ** ALLOW_TRUST *)

Lemma destroyEntries_quiet hs V vs :
  exec (V :: vs) (destroyEntries hs) (λ _ vs', ∃ act hact, vs' = setHact hact (setAct act V) :: vs) (λ _, False).
Proof.
  revert V. induction hs as [|h hs IH]; intros V; simpl; [apply exec_ret; by exists (v_act V), (v_hact V); destruct V|].
  apply exec_bind. eapply exec_mono; [apply destroyEntry_quiet| |done]. intros _ vs' (act & hact & ->).
  eapply exec_mono; [apply IH| |done]. intros _ vs' (act' & hact' & ->). by exists act', hact'.
Qed.

Lemma run_eraseOffers D0 header a s offers : ∀ D Q,
  stepped lh D0 D 0 → (∀ D', stepped lh D0 D' 0 → Q tt D' lh) → run id os D lh (eraseOffers id header a s offers) Q.
Proof.
  induction offers as [|h offers IH]; intros D Q Hst HQ; simpl; [rstep; by apply HQ|]. unfold currentOffer. do 2 rstep.
  apply run_current. intros h' lm d -> Hd Hk. apply run_offer. intros o Eo. simpl in Eo. subst d.
  rstep; [by rstep|]. rstep; [by rstep|]. rstep. apply run_acquireOrRelease; [done|apply Hst|]. intros D1 Hst1.
  pose proof (stepped_trans _ _ _ _ _ _ Hst Hst1) as Hst'. rstep. apply run_loadKeyed. intros acc _. do 3 rstep.
  apply (run_numEntriesFrom id os lh Hm Hv11 D0); [done|by left|]. intros r D2 Hst2. apply run_eraseEntry. intros h2 d2 [= <-] Hd2.
  apply IH; [|done]. eapply stepped_eq; [eapply stepped_trans; [exact Hst2|by eapply stepped_delete; [apply Hst2|]]|].
  rewrite <- Hk. simpl. lia.
Qed.

Lemma run_setAuthorized D h b Q :
  Valid lh D → (∀ D', stepped lh D D' 0 → Q tt D' lh) → run id os D lh (onEntry h (setAuthorized b)) Q.
Proof.
  intros HV HQ. apply run_onEntry. intros h' lm d -> Hd Hk. unfold setAuthorized, trustLine, get, mbind, M_bind. simpl.
  destruct d as [|t| |]; try done. simpl. split; [done|]. apply HQ.
  eapply stepped_eq; [eapply stepped_insert; [done|exact Hd|by rewrite <- Hk|done|]|by rewrite <- Hk]. exact (proj2 (HV _ _ Hd)).
Qed.

Lemma run_checkSource op D Q :
  (∀ r, Q r D lh) → run id os D lh (allowTrust_checkSource sourceID op id) Q.
Proof.
  intros HQ. unfold allowTrust_checkSource. apply run_withTxn. intros id' P _ _ _ _. apply runIn_withHeader. intros n.
  apply runIn_bind, run_loadSource; [done|]. intros h Hh. apply runIn_withEntry, runIn_bind.
  apply run_currentAccount with (ACCOUNT sourceID); [done|]. intros h' a _ _. apply runIn_run. by rstep.
Qed.

Lemma run_allowTrust op D : Valid lh D → run id os D lh (allowTrust_doApply sourceID op id) (ifOk (conserves lh D)).
Proof.
  intros HV. unfold allowTrust_doApply. do 2 rstep. cbv zeta. rstep; [by rstep|]. rstep. apply run_checkSource. intros r.
  destruct r as [r|]; [by rstep|]. rstep; [rstep; intros _; split; [done|by apply stepped_refl]|].
  rstep. apply run_loadKeyed. intros trust _. rstep.
  match goal with |- run _ _ _ _ _ ?Q => assert (Hgo : ∀ b, Q b D lh) end.
  { intros [b|]; [|by rstep]. cbv beta. do 3 rstep.
    rstep. match goal with |- run _ _ _ _ _ ?Q => assert (Hgo : ∀ D', stepped lh D D' 0 → Q tt D' lh) end.
    { intros D1 Hst. cbv beta. rstep. apply run_loadKeyed. intros line _. do 2 rstep. apply run_setAuthorized; [apply Hst|].
      intros D2 Hst2. rstep. intros _. split; [done|]. exact (stepped_trans _ _ _ _ _ _ Hst Hst2). }
    pose proof (stepped_refl lh D HV) as Hst0. destruct (_ && b); [|rstep; by apply Hgo].
    rstep. unfold loadOffersByAccountAndAsset. apply run_loadOffers. intros hs. apply run_scoped; [intros V _; apply destroyEntries_quiet|]. by apply (run_eraseOffers D). }
  do 2 rstep. rstep; rstep; [rstep; apply (Hgo None)|]. rstep. apply run_current. intros h lm d _ _ _. unfold isAuthorized. do 2 rstep.
  apply run_trustLine. intros t _. do 2 rstep. apply (Hgo (Some _)).
Qed.
End MoreOps.
