(* ===== verification/OfferSpec.v ===== *)
(** * What managing an offer keeps

    [ManageOfferOpFrameBase::doApply] on a valid ledger of version 11 and later, for offers to sell and
    to buy and for passive ones: the offer is not matched with itself, what the book gave is what the
    source paid, and the identities of offers stay distinct. *)
From stdpp Require Import base list gmap strings.
From Stdlib Require Import ZArith Lia.
From S2P Require Import Prelude UInt128 Numeric Exchange LedgerEntries Balances BalancesSpec LedgerTxn LedgerTxnSpec LedgerOffers TrustLines LedgerLogic CrossOffers CrossOffersSpec BookSpec OpTypes RunLogic Lumens OpSteps Operations AccountOps OfferOps OpSpec.

(** The identities of offers are distinct, positive, and were given out. *)
Definition idsOk (lh : LedgerHeader) (D : Entries) : Prop :=
  (∀ k o, D !! k = Some (Offer o) → 0 < oe_offerID o <= idPool lh) ∧
  (∀ k k' o o', D !! k = Some (Offer o) → D !! k' = Some (Offer o') → oe_offerID o = oe_offerID o' → k = k').

Lemma idsOk_shrink lh D D' : idsOk lh D → offersShrink D D' → idsOk lh D'.
Proof.
  intros [Hr Hu] Hs. split.
  - intros k o' Ho'. destruct (Hs _ _ Ho') as (o & Ho & E & _). rewrite E. simpl. by eapply Hr.
  - intros k k' o1 o2 H1 H2 E. destruct (Hs _ _ H1) as (p1 & G1 & E1 & _), (Hs _ _ H2) as (p2 & G2 & E2 & _).
    rewrite E1, E2 in E. simpl in E. by eapply Hu.
Qed.

(** The header after [generateID]. *)
Definition nextID (lh : LedgerHeader) : LedgerHeader :=
  mkHeader (ledgerVersion lh) (ledgerSeq lh) (totalCoins lh) (feePool lh) (inflationSeq lh) (u64 (idPool lh + 1))
    (baseFee lh) (baseReserve lh) (maxTxSetSize lh) (closeTime lh).
Lemma Valid_nextID lh D : Valid lh D → Valid (nextID lh) D.
Proof. done. Qed.

(** What an offer to be managed has after [doCheckValid]. *)
Definition frameOk (f : ManageOfferFrame) : Prop :=
  validPrice (mPrice f) ∧ is_i64 (frameAmount f) ∧
  match kind f with SellOffer _ p => p = mPrice f | BuyOffer _ p => getInversePrice p = mPrice f end.

Section Offers.
Context `{HashOrder} (lh : LedgerHeader) (Hm : modern lh) (Hv11 : 11 <= ledgerVersion lh).
Context (fuel : nat) (sourceID : AccountID) (f : ManageOfferFrame) (Hf : frameOk f).

(** ** Before the book *)

Lemma run_checkLine id os D s r1 r2 r3 b Q : (∀ r, Q r D lh) → run id os D lh (checkLine sourceID f id s r1 r2 r3 b) Q.
Proof.
  intros HQ. unfold checkLine. destruct (isNative s); [by rstep|]. rstep. apply run_newTrustLineWrapper. intros w _. rstep. rstep.
  apply run_issuerOf. intros i. rstep. apply run_loadKeyed. intros h _. do 2 rstep. rstep; rstep; [by rstep|].
  rstep. apply run_wrapper_bool. intros there. rstep; [by rstep|]. rstep.
  match goal with |- run _ _ _ _ _ ?Q => assert (Hgo : ∀ x, Q x D lh) end.
  { intros x. cbv beta. rstep; [by rstep|]. rstep. apply run_isAuthorized. intros auth. by repeat rstep. }
  destruct b; [|rstep; apply Hgo]. unfold wrapper_getBalance. apply run_wrapper_call; [|apply Hgo].
  intros h' _. rstep. apply run_current. intros h2 lm d _ _ _. rstep. apply run_trustLine. intros t _. rstep. apply Hgo.
Qed.

Lemma run_checkOfferValid id os D Q : (∀ r, Q r D lh) → run id os D lh (checkOfferValid sourceID f id) Q.
Proof.
  intros HQ. unfold checkOfferValid. apply run_withTxn. intros id' P _ _ _ _. apply runIn_run. rstep; [by rstep|].
  rstep. apply run_checkLine. intros [r|[]]; [by rstep|]. by apply run_checkLine.
Qed.

(** The offers left are not the one that is managed. *)
Definition otherOffers (D : Entries) : Prop := offersIn_all (λ o, oe_offerID o ≠ mOfferID f) D.

Lemma delete_others D D' :
  Valid lh D' → idsOk lh D → offersShrink D D' → is_Some (D !! OFFER sourceID (mOfferID f)) → Valid lh D →
  otherOffers (delete (OFFER sourceID (mOfferID f)) D').
Proof.
  intros HV' [_ Hu] Hs [d Hd] HV k o Ho E. apply lookup_delete_Some in Ho as [Hne Ho]. destruct (Hs _ _ Ho) as (o1 & Ho1 & Eo & _).
  destruct (HV _ _ Hd) as [Hk _]. destruct d as [| |o2|]; try done. injection Hk as Hk1 Hk2. apply Hne.
  eapply Hu; [exact Hd|exact Ho1|]. rewrite Hk2, <- E, Eo. done.
Qed.

Lemma run_takeOldOffer id os D Q :
  Valid lh D → idsOk lh D →
  Q None D lh →
  (∀ creating flags D', stepped lh D D' 0 → otherOffers D' →
     (if creating : bool then mOfferID f = 0 else D' !! OFFER sourceID (mOfferID f) = None ∧ 0 < mOfferID f <= idPool lh) →
     Q (Some (creating, flags)) D' lh) →
  run id os D lh (takeOldOffer sourceID f id) Q.
Proof.
  intros HV Hids HN HQ. unfold takeOldOffer. destruct (Z.eqb_spec (mOfferID f) 0) as [E|Hne]; cbn [negb].
  - rstep. apply HQ; [by apply stepped_refl| |done]. intros k o Ho. destruct Hids as [Hr _]. specialize (Hr _ _ Ho). lia.
  - unfold loadOffer, offerKey. rstep. apply run_loadKeyed. intros h Hh. rstep. rstep. rstep; rstep; [by rstep|]. do 3 rstep.
    rewrite (proj2 (Z.leb_le 10 _)) by lia. rstep. apply run_acquireOrRelease; [done|done|]. intros D1 Hst1. unfold currentOffer. do 2 rstep.
    apply run_current. intros h' lm d E Hd Hk. apply run_offer. intros o Eo. simpl in Eo. subst d. rewrite (Hh h' E) in Hd, Hk.
    rstep. apply run_eraseEntry. intros h2 d2 E2 Hd2. rewrite (Hh h2 E2) in *. rstep. destruct Hst1 as (HV1 & Hl1 & Hs1).
    destruct (Hs1 _ _ Hd) as (o0 & Ho0 & Eo & _). apply HQ.
    + eapply stepped_eq; [eapply stepped_trans; [split; [exact HV1|split; [exact Hl1|exact Hs1]]|by eapply stepped_delete]|]. done.
    + eapply delete_others; [done|done|done|by eexists|done].
    + split; [apply lookup_delete_eq|]. destruct Hids as [Hr _]. specialize (Hr _ _ Ho0). destruct (HV _ _ Ho0) as [Hk0 _]. injection Hk0 as _ Hk0. lia.
Qed.

(** ** The limits *)

Lemma run_offerLiabilities {A} id os D (k : ExchangeResultV10 → A) Q :
  (∀ x, Q x D lh) → run id os D lh (res ← offerLiabilities f; mret (k res)) Q.
Proof.
  intros HQ. destruct Hf as (Hp & Ha & Hk). unfold offerLiabilities, frameAmount in *. assert (HM : is_i64 INT64_MAX) by (by unfold is_i64, INT64_MAX).
  destruct (kind f) as [amount p|amount p]; rewrite Hk; rstep.
  - eapply (run_pure _ _ _ _ _ _ _ (λ s, exchangeV10Without_spec (mPrice f) amount INT64_MAX INT64_MAX INT64_MAX false s Hp ltac:(done))). rstep. apply HQ.
  - eapply (run_pure _ _ _ _ _ _ _ (λ s, exchangeV10Without_spec (mPrice f) INT64_MAX INT64_MAX INT64_MAX amount false s Hp ltac:(done))). rstep. apply HQ.
Qed.

(** The limits of the exchange: 64-bit numbers, and what is traded of the amount is at most the amount. *)
Definition limitsOk (maxSheepSend maxWheatReceive : Z) : Prop :=
  maxSheepSend <= INT64_MAX ∧ maxWheatReceive <= INT64_MAX ∧
  match kind f with SellOffer amount _ => maxSheepSend <= amount | BuyOffer buyAmount _ => maxWheatReceive <= buyAmount end.

Lemma specificLimits_ok ms ss mw wr :
  is_i64 ms → is_i64 mw → 0 <= ss → 0 <= wr →
  match kind f with SellOffer amount _ => ss <= amount | BuyOffer buyAmount _ => wr <= buyAmount end →
  let '(ms', mw') := applyOperationSpecificLimits f ms ss mw wr in is_i64 ms' ∧ is_i64 mw' ∧ limitsOk ms' mw'.
Proof.
  intros Hms Hmw Hss Hwr Hk. destruct Hf as (_ & Ha & _). unfold applyOperationSpecificLimits, limitsOk, frameAmount, is_i64 in *.
  destruct (kind f); rewrite s64_small by (unfold INT64_MAX in *; lia); lia.
Qed.

Lemma run_parametersV10 id os D header acc sl wl ms mw :
  Valid lh D → is_i64 ms → is_i64 mw →
  run id os D lh (parametersV10 f header acc sl wl ms mw) (sumOk (λ '(ms', mw') _ _, limitsOk ms' mw')).
Proof.
  intros HV Hms Hmw. unfold parametersV10. rstep.
  assert (Hroom : ∀ Q : Z → Entries → LedgerHeader → Prop, (∀ x, Q x D lh) → run id os D lh
    (if isNative (mWheat f) then readEntry getMaxAmountReceive header acc else wrapper_getMaxAmountReceive wl header) Q).
  { intros Q HQ. destruct (isNative (mWheat f)); [eapply run_readEntry; [done|by apply reads_room|done]|by apply run_wrapper_room]. }
  assert (Havail : ∀ Q : Z → Entries → LedgerHeader → Prop, (∀ x, Q x D lh) → run id os D lh
    (if isNative (mSheep f) then readEntry getAvailableBalance header acc else wrapper_getAvailableBalance sl header) Q).
  { intros Q HQ. destruct (isNative (mSheep f)); [eapply run_readEntry; [done|by apply reads_available|done]|by apply run_wrapper_available]. }
  apply Hroom. intros room. rstep. apply run_offerLiabilities. intros buying. rstep; [by rstep|].
  rstep. apply Havail. intros avail. rstep. apply run_offerLiabilities. intros selling. rstep; [by rstep|]. rstep. simpl.
  pose proof (specificLimits_ok ms 0 mw 0 Hms Hmw ltac:(lia) ltac:(lia)) as Hl. destruct Hf as (_ & Ha & _). unfold frameAmount, is_i64 in Ha.
  destruct (applyOperationSpecificLimits _ _ _ _ _). apply Hl. destruct (kind f); lia.
Qed.

Lemma run_computeParameters id os D creating :
  Valid lh D → lumens D + baseReserve lh <= INT64_MAX →
  run id os D lh (computeOfferExchangeParameters sourceID f id creating)
    (λ r D' lh', D' = D ∧ lh' = lh ∧ match r with inl _ => True | inr (ms, mw) => limitsOk ms mw end).
Proof.
  intros HV Hl. unfold computeOfferExchangeParameters. apply run_withTxn. intros id' P _ _ _ _. apply runIn_run.
  eapply (run_mono _ _ _ _ _ (sumOk (λ '(ms', mw') _ _, limitsOk ms' mw'))); [|intros [r|[ms mw]] D' lh' Hr; done].
  do 2 rstep. apply run_loadSource; [done|]. intros h _. do 3 rstep. cbv zeta. rewrite (proj2 (Z.leb_le 10 _)) by lia. rewrite orb_true_l, andb_true_r.
  rstep. match goal with |- run _ _ _ _ _ ?Q => assert (Hgo : ∀ r D', Valid lh D' → Q r D' lh) end.
  { intros r D1 HV1. cbv beta. destruct r; [|by rstep..]. rstep. apply run_lineIfNotNative. intros sl _. do 2 rstep.
    apply run_lineIfNotNative. intros wl _. do 2 rstep. apply run_canBuy; [done|done|]. intros mw Hmw. rstep. apply run_canSell; [done|done|].
    intros ms Hms. by apply run_parametersV10. }
  destruct creating; [|rstep; by apply (Hgo SUCCESS)]. apply run_addNumEntries; [done|done|right; split; [done|]; split; [lia|done]|].
  intros r D' Hst. apply Hgo, Hst.
Qed.

(** ** The book *)

Lemma run_moveSource id os D header s x error Q :
  Valid lh D → - 2 ^ 63 <= x <= INT64_MAX → (∀ D', stepped lh D D' (owed s x) → Q tt D' lh) →
  run id os D lh (moveSource sourceID id header s x error) Q.
Proof.
  intros HV Hx HQ. unfold moveSource, owed in *. destruct (isNative s).
  - rstep. apply run_loadSource; [done|]. intros h Hh. do 2 rstep. apply run_addBalance; [done|done|done|]. intros h' b D1 -> _ Hst.
    rewrite (Hh h' eq_refl) in Hst. simpl in Hst. destruct b; rstep. by apply HQ.
  - unfold loadTrustLine. rstep. apply run_newTrustLineWrapper. intros w Hw. do 2 rstep. apply run_wrapper_addBalance; [done..|].
    intros b D1 Hst. destruct b; rstep. by apply HQ.
Qed.

Lemma run_adjustOffer id os D x y Q :
  is_i64 x → is_i64 y → (∀ z, is_i64 z → Q z D lh) → run id os D lh (adjustOffer (mPrice f) x y) Q.
Proof.
  intros Hx Hy HQ. unfold adjustOffer. rstep. intros V Hi Hs <- <-. destruct Hf as [Hp _].
  apply exchangeV10_range; [done|by unfold validLimits, is_i64, INT64_MAX in *| |by exists V]. intros r Hw _. exists V. do 3 (split; [done|]).
  apply run_ret, HQ. unfold is_i64 in *. lia.
Qed.

Lemma run_leftAmount id os D header ss wr Q :
  Valid lh D → 0 <= ss → 0 <= wr →
  match kind f with SellOffer amount _ => ss <= amount | BuyOffer buyAmount _ => wr <= buyAmount end →
  (∀ z, is_i64 z → Q z D lh) → run id os D lh (leftAmount sourceID f id header ss wr) Q.
Proof.
  intros HV Hss Hwr Hk HQ. unfold leftAmount. apply run_withIssuer; [done|]. intros c Hc. rstep. apply run_constLineIfNotNative; [done|].
  intros sl Hsl. apply run_withConstWrapper; [done|]. rstep. apply run_constLineIfNotNative; [done|]. intros wl Hwl.
  apply run_withConstWrapper; [done|]. rstep. apply run_canSell_const; [done|done|done|]. intros ms Hms. rstep.
  apply run_canBuy_const; [done|done|done|]. intros mw Hmw. pose proof (specificLimits_ok ms ss mw wr Hms Hmw Hss Hwr Hk) as Hl.
  destruct (applyOperationSpecificLimits _ _ _ _ _) as [x y]. destruct Hl as (Hx & Hy & _). by apply run_adjustOffer.
Qed.

(** A conversion that takes nothing costs nothing. *)
Lemma books_nothing sheep wheat D trail D' : booksBalance sheep wheat D trail D' → soldBy trail = 0 → boughtBy trail = 0.
Proof.
  intros (_ & Hc & _). enough (0 <= soldBy trail ∧ 0 <= boughtBy trail ∧ (soldBy trail = 0 → boughtBy trail = 0)) by naive_solver.
  induction Hc as [|c trail (_ & _ & Hs & Hb & Hz & _) _ IH]; simpl; lia.
Qed.

Lemma crossFilter_ok passive : filterOk (Some (crossFilter sourceID f passive)) (λ o, oe_offerID o ≠ mOfferID f).
Proof.
  intros g lm o [= <-] Ho. unfold crossFilter, offer, assert_, mbind, M_bind, mret, M_ret. simpl.
  rewrite (proj2 (Z.eqb_neq _ _) Ho). simpl. by eexists.
Qed.

Lemma run_takeOffers id os D creating passive :
  Valid lh D → lumens D + baseReserve lh <= INT64_MAX → (size (offersIn D) < fuel)%nat → otherOffers D →
  run id os D lh (takeOffers fuel sourceID f id creating passive)
    (sumOk (λ '(amount, _) D' lh', lh' = lh ∧ is_i64 amount ∧ stepped lh D D' 0)).
Proof.
  intros HV Hl Hfuel Ho. unfold takeOffers. rstep. eapply run_mono; [by apply run_computeParameters|]. intros r ? ? (-> & -> & Hr).
  destruct r as [r|[ms mw]]; [by rstep|]. rstep; [by rstep|]. do 3 rstep. destruct Hr as (Hms & Hmw & Hkind).
  apply run_convertWithOffers with (P := λ o, oe_offerID o ≠ mOfferID f);
    [done|done|apply crossFilter_ok|done|done|done|done|done|].
  intros r ss wr trail D1 HV1 Hss Hwr Eb Es Hb. apply run_assert; [lia|]. cbv zeta. pose proof (books_stepped lh _ _ _ _ _ HV1 Hb) as Hst1.
  assert (Hamount : is_i64 (frameAmount f)) by apply Hf. unfold is_i64, frameAmount in Hamount.
  match goal with |- run _ _ _ _ (match _ with eOK => ?c | _ => _ end) ?Q => assert (Hsettle : run id os D1 lh c Q) end.
  { do 2 rstep. match goal with |- run _ _ _ _ _ ?Q => assert (Hgo : ∀ D', stepped lh D D' 0 → Q tt D' lh) end.
    { intros D2 Hst2. cbv beta. do 2 rstep. rewrite (proj2 (Z.leb_le 10 _)) by lia. rstep.
      assert (Hend : ∀ z, is_i64 z → run id os D2 lh (mret (inr (z, trail)))
        (sumOk (λ '(amount, _) D' lh', lh' = lh ∧ is_i64 amount ∧ stepped lh D D' 0))) by (intros z Hz; by rstep).
      assert (Hleft : run id os D2 lh (leftAmount sourceID f id (id, n) ss wr) (λ a D' lh', run id os D' lh' (mret (inr (a, trail)))
        (sumOk (λ '(amount, _) D' lh', lh' = lh ∧ is_i64 amount ∧ stepped lh D D' 0)))).
      { apply run_leftAmount; [apply Hst2|lia|lia|destruct (kind f); lia|exact Hend]. }
      destruct r; [rstep; apply Hend; by unfold is_i64, INT64_MAX|exact Hleft..]. }
    destruct (Z.ltb_spec 0 wr) as [Hpos|Hneg].
    - rstep. apply run_moveSource; [done|unfold INT64_MAX in *; lia|]. intros D2 Hst2.
      apply run_moveSource; [apply Hst2|unfold INT64_MAX in *; lia|]. intros D3 Hst3. apply Hgo.
      eapply stepped_eq; [exact (stepped_trans _ _ _ _ _ _ (stepped_trans _ _ _ _ _ _ Hst1 Hst2) Hst3)|].
      rewrite Eb, Es. unfold owed. destruct (isNative (mSheep f)), (isNative (mWheat f)); lia.
    - rstep. apply Hgo. pose proof (books_nothing _ _ _ _ _ Hb ltac:(lia)). eapply stepped_eq; [exact Hst1|].
      rewrite Eb, Es. unfold owed. destruct (isNative (mSheep f)), (isNative (mWheat f)); lia. }
  destruct r as [| |e|]; [exact Hsettle|exact Hsettle|destruct (crossedSelf _ _ _ _); [by rstep|exact Hsettle]|by rstep].
Qed.

(** ** The new offer *)

(** What a successful operation guarantees. *)
Definition settlesTo (D D' : Entries) (lh' : LedgerHeader) : Prop :=
  (lh' = lh ∨ lh' = nextID lh) ∧ Valid lh' D' ∧ lumens D' = lumens D ∧ idsOk lh' D'.

Lemma stepped_settles D D' : stepped lh D D' 0 → idsOk lh D → settlesTo D D' lh.
Proof. intros (HV & Hl & Hs) Hids. split; [by left|]. split; [done|]. split; [lia|by eapply idsOk_shrink]. Qed.

(** An offer with an identity of its own. *)
Lemma idsOk_insert lh' D o :
  idsOk lh' D → 0 < oe_offerID o <= idPool lh' → offersIn_all (λ o', oe_offerID o' ≠ oe_offerID o) D →
  idsOk lh' (<[OFFER (oe_sellerID o) (oe_offerID o) := Offer o]> D).
Proof.
  intros [Hr Hu] Ho Hall. split.
  - intros k o' Ho'. apply lookup_insert_Some in Ho' as [[_ [= <-]]|[_ Ho']]; [done|by eapply Hr].
  - intros k k' o1 o2 H1 H2 E. apply lookup_insert_Some in H1 as [[<- [= <-]]|[_ H1]], H2 as [[<- [= <-]]|[_ H2]]; try done.
    + exfalso. by eapply (Hall _ _ H2).
    + exfalso. by eapply (Hall _ _ H1).
    + by eapply Hu.
Qed.

Lemma newOffer_settles lh' D D1 D2 o :
  lh' = lh ∨ lh' = nextID lh → stepped lh D D1 0 → idsOk lh' D1 → D1 !! OFFER (oe_sellerID o) (oe_offerID o) = None →
  offersIn_all (λ o', oe_offerID o' ≠ oe_offerID o) D1 → 0 < oe_offerID o <= idPool lh' → validPrice (oe_price o) → is_i64 (oe_amount o) →
  Valid lh' (<[OFFER (oe_sellerID o) (oe_offerID o) := Offer o]> D1) ∧
  (stepped lh' (<[OFFER (oe_sellerID o) (oe_offerID o) := Offer o]> D1) D2 0 → settlesTo D D2 lh').
Proof.
  intros Hlh (HV1 & Hl1 & Hs1) Hids Hn Hall Hid Hp Ha. assert (HV1' : Valid lh' D1) by (destruct Hlh; by subst). split; [by apply Valid_insert|].
  intros (HV2 & Hl2 & Hs2). split; [done|]. split; [done|]. split.
  - rewrite Hl2, lumens_insert_new by done. simpl. lia.
  - eapply idsOk_shrink; [by apply idsOk_insert|done].
Qed.

Lemma run_addedEntry id os D D1 header creating Q :
  stepped lh D D1 0 → lumens D + baseReserve lh <= INT64_MAX →
  (∀ r D', stepped lh D D' 0 → Q r D' lh) →
  run id os D1 lh (if creating : bool
    then sourceAccount ← loadSourceAccount sourceID id header; withEntry sourceAccount (λ h, entry_addNumEntries header h 1)
    else mret SUCCESS) Q.
Proof.
  intros Hst Hl HQ. destruct creating; [|rstep; by apply HQ]. rstep. apply run_loadSource; [done|]. intros h _. rstep.
  by apply (run_numEntriesFrom id os lh Hm Hv11 D); [|right|].
Qed.

(** The identity of the new offer, and the header. *)
Lemma run_newOffer id os D header creating amount flags Q :
  0 <= idPool lh < INT64_MAX →
  (∀ o lh', lh' = (if creating : bool then nextID lh else lh) →
     o = oe_setOfferID (if creating then idPool lh + 1 else mOfferID f) (buildOffer sourceID f amount flags) → Q o D lh') →
  run id os D lh (if creating then id ← header_generateID header; mret (oe_setOfferID (s64 id) (buildOffer sourceID f amount flags))
    else mret (buildOffer sourceID f amount flags)) Q.
Proof.
  intros Hid HQ. destruct creating; [|rstep; by apply HQ]. unfold header_generateID. do 3 rstep.
  change (generateID lh) with (Ok (u64 (idPool lh + 1)) (nextID lh)). cbv beta iota. rstep. apply run_setHeaderCurrent. apply run_ret, run_ret.
  rewrite u64_small, s64_small by (unfold is_u64, UINT64_MAX, INT64_MAX in *; lia). by apply HQ.
Qed.

Lemma runIn_putOffer id P os D D1 (creating : bool) amount flags claims :
  stepped lh D D1 0 → lumens D + baseReserve lh <= INT64_MAX → idsOk lh D1 → 0 <= idPool lh < INT64_MAX → otherOffers D1 → is_i64 amount →
  (if creating then mOfferID f = 0 else D1 !! OFFER sourceID (mOfferID f) = None ∧ 0 < mOfferID f <= idPool lh) →
  runIn id P os D1 lh (putOffer sourceID f id creating amount flags claims)
    (λ r committed D' lh', r.1 = true → committed = true ∧ settlesTo D D' lh').
Proof.
  intros Hst Hl Hids Hpool Hoth Ha Hcr. unfold putOffer. apply runIn_withHeader. intros n. destruct (Z.ltb_spec 0 amount) as [Hpos|_].
  - apply runIn_bind. apply (run_addedEntry _ _ D1); [by apply stepped_refl; apply Hst|destruct Hst as (_ & -> & _); lia|].
    intros r D2 Hst2. pose proof (stepped_trans _ _ _ _ _ _ Hst Hst2) as Hst'.
    destruct r; [|apply runIn_run; by rstep..]. apply runIn_bind, run_newOffer; [done|]. intros o lh' Elh Eo.
    assert (Hlh : lh' = lh ∨ lh' = nextID lh) by (destruct creating; auto).
    assert (Hm' : modern lh') by (destruct Hlh as [->| ->]; exact Hm).
    apply runIn_bind, run_create. intros m Hn. change (LedgerEntryKey _) with (OFFER (oe_sellerID o) (oe_offerID o)) in *. simpl data.
    assert (Hids' : idsOk lh' D2).
    { apply idsOk_shrink with D1; [|apply Hst2]. destruct creating; subst lh'; [|done]. destruct Hids as [Hr Hu]. split; [|done].
      intros k o' Ho'. specialize (Hr _ _ Ho'). simpl. rewrite u64_small by (unfold is_u64, UINT64_MAX, INT64_MAX in *; lia). lia. }
    assert (Hall : offersIn_all (λ o', oe_offerID o' ≠ oe_offerID o) D2).
    { eapply offersShrink_all with (D := D1); [done|apply Hst2|]. intros k o' Ho'. rewrite Eo. simpl. destruct creating; [|by apply (Hoth k)].
      destruct Hids as [Hr _]. specialize (Hr _ _ Ho'). lia. }
    assert (Hid : 0 < oe_offerID o <= idPool lh').
    { rewrite Eo, Elh. simpl. destruct creating; [|lia]. simpl. rewrite u64_small by (unfold is_u64, UINT64_MAX, INT64_MAX in *; lia). lia. }
    assert (Hp : validPrice (oe_price o)) by (rewrite Eo; apply Hf). assert (Ha' : is_i64 (oe_amount o)) by (by rewrite Eo).
    assert (HV3 : Valid lh' (<[OFFER (oe_sellerID o) (oe_offerID o) := Offer o]> D2)) by (by apply (newOffer_settles lh' D D2 D2 o)).
    apply runIn_withEntry, runIn_bind. unfold currentOffer. rstep. apply run_current. intros h' lm d _ _ _. apply run_offer. intros o' _.
    apply runIn_bind. rstep. rewrite (proj2 (Z.leb_le 10 _)) by (destruct Hm'; lia).
    apply runIn_bind. apply run_acquireOrRelease; [done|done|]. intros D4 Hst4. apply runIn_commit. intros _. split; [done|].
    by apply (newOffer_settles lh' D D2 D4 o).
  - apply runIn_bind. match goal with |- run _ _ _ _ _ ?Q => assert (Hgo : ∀ D', stepped lh D D' 0 → offersShrink D1 D' → Q tt D' lh) end.
    { intros D2 Hst2 Hs2. apply runIn_commit. intros _. split; [done|]. destruct Hst2 as (HV2 & Hl2 & _). split; [by left|]. split; [done|]. split; [lia|].
      by eapply idsOk_shrink. }
    destruct creating; cbn [negb]; [rstep; apply Hgo; [done|apply offersShrink_refl]|]. rstep. apply run_loadSource; [done|]. intros h _. do 2 rstep.
    apply run_addNumEntries; [done|apply Hst|by left|]. intros r D2 Hst2. rstep. apply Hgo; [|apply Hst2].
    exact (stepped_trans _ _ _ _ _ _ Hst Hst2).
Qed.

Lemma run_manageOffer id os D :
  Valid lh D → lumens D + baseReserve lh <= INT64_MAX → idsOk lh D → 0 <= idPool lh < INT64_MAX → (size (offersIn D) < fuel)%nat →
  run id os D lh (manageOffer_doApply fuel sourceID f id) (ifOk (settlesTo D)).
Proof.
  intros HV Hl Hids Hpool Hfuel. unfold manageOffer_doApply. apply run_withTxn. intros id' P _ _ _ _. apply runIn_bind, run_checkOfferValid.
  intros [r|[]]; [apply runIn_run; by rstep|]. apply runIn_bind, run_takeOldOffer; [done|done|apply runIn_run; by rstep|].
  intros creating flags D1 Hst1 Hoth Hcr. cbv zeta. apply runIn_bind.
  match goal with |- run _ _ _ _ _ ?Q => assert (Hgo : ∀ amount claims D', is_i64 amount → stepped lh D1 D' 0 → Q (inr (amount, claims)) D' lh) end.
  { intros amount claims D2 Ha Hst2. pose proof (stepped_trans _ _ _ _ _ _ Hst1 Hst2) as Hst. intros V Hi Hs HD HL.
    eapply exec_mono; [apply (runIn_putOffer id' P os D D2 creating amount flags claims); try done|..].
    - apply idsOk_shrink with D; [done|apply Hst].
    - eapply offersShrink_all with (D := D1); [done|apply Hst2|done].
    - destruct creating; [done|]. destruct Hcr as [Hn ?]. split; [|done]. destruct (D2 !! _) as [d|] eqn:Ed; [|done]. exfalso.
      destruct Hst2 as (HV2 & _ & Hs2). destruct (HV2 _ _ Ed) as [Hk _]. destruct d as [| |o|]; try done. destruct (Hs2 _ _ Ed) as (o' & Ho' & _). by rewrite Hn in Ho'.
    - intros r vs' [(W & -> & Hi' & Hs' & HQ)|(D' & lh' & act & hact & -> & HQ)].
      + left. exists W. split_and!; [done..|]. intros Hr. by destruct (HQ Hr).
      + right. exists D', lh', act, hact. split; [done|]. intros Hr. by destruct (HQ Hr).
    - done. }
  destruct (negb (isDeleteOffer f)).
  - eapply run_mono; [apply run_takeOffers; [apply Hst1|destruct Hst1 as (_ & -> & _); lia| |done]|].
    { pose proof (offersShrink_size lh D D1 HV (proj1 Hst1) (proj2 (proj2 Hst1))). lia. }
    intros [r|[amount claims]] D2 lh2 HD2; [apply runIn_run; by rstep|]. destruct HD2 as (-> & Ha & Hst2). by apply Hgo.
  - rstep. apply Hgo; [by unfold is_i64, INT64_MAX|]. apply stepped_refl, Hst1.
Qed.
End Offers.
