(* ===== verification/Signatures.v ===== *)
(** * Signatures: [SignatureChecker.cpp], [SignatureUtils.cpp]

    Which signers have signed, and with which weight. The verification of Ed25519 signatures and
    SHA-256 come from a library and are arguments. *)
From stdpp Require Import base list gmap strings.
From Stdlib Require Import ZArith Lia.
From S2P Require Import Prelude Numeric LedgerEntries OpTypes Operations AccountOps.

Record DecoratedSignature := mkSignature { hint : Z; signature : Bytes }.

Class Crypto := { verifySig : Z → Bytes → Z → bool; sha256 : Bytes → Z }.

(** The last four bytes of the key or hash. *)
Definition doesHintMatch (bs : Z) (h : Z) : bool := Z.land bs (2 ^ 32 - 1) =? h.

(** What [SignatureChecker] remembers; the map and its sets are sorted. *)
Record SignatureChecker := mkChecker {
  mUsedSignatures : list bool; mUsedOneTimeSignerKeys : list (AccountID * list SignerKey) }.

Fixpoint keySet_insert (k : SignerKey) (l : list SignerKey) : list SignerKey :=
  match l with
  | [] => [k]
  | k' :: l' => if decide (k = k') then l else if signerKey_ltb k k' then k :: l else k' :: keySet_insert k l'
  end.
(** [mUsedOneTimeSignerKeys[accountID].insert(key)]. *)
Fixpoint used_insert (a : AccountID) (k : SignerKey) (m : list (AccountID * list SignerKey)) : list (AccountID * list SignerKey) :=
  match m with
  | [] => [(a, [k])]
  | (a', ks) :: m' =>
    if a =? a' then (a, keySet_insert k ks) :: m'
    else if a <? a' then (a, [k]) :: m else (a', ks) :: used_insert a k m'
  end.

Section Checker.
Context `{Crypto} (mProtocolVersion mContentsHash : Z) (mSignatures : list DecoratedSignature).

Definition newSignatureChecker : SignatureChecker := mkChecker (replicate (length mSignatures) false) [].

Definition verify (sig : DecoratedSignature) (signerKey : SignerKey) : bool :=
  match signerKey with
  | SIGNER_KEY_TYPE_ED25519 key => doesHintMatch key (hint sig) && verifySig key (signature sig) mContentsHash
  | _ => false
  end.
Definition verifyHashX (sig : DecoratedSignature) (signerKey : SignerKey) : bool :=
  match signerKey with
  | SIGNER_KEY_TYPE_HASH_X x => doesHintMatch x (hint sig) && (x =? sha256 (signature sig))
  | _ => false
  end.

(** [split] by the type of the key. *)
Definition isPreAuth (s : Signer) : bool := match signer_key s with SIGNER_KEY_TYPE_PRE_AUTH_TX _ => true | _ => false end.
Definition isHashX (s : Signer) : bool := match signer_key s with SIGNER_KEY_TYPE_HASH_X _ => true | _ => false end.
Definition isEd25519 (s : Signer) : bool := match signer_key s with SIGNER_KEY_TYPE_ED25519 _ => true | _ => false end.

Definition weightOf (s : Signer) : Z :=
  if (9 <? mProtocolVersion) && (UINT8_MAX <? signer_weight s) then UINT8_MAX else signer_weight s.

(** The loop over pre-authorized hashes: whether it returned, the weight so far, and the checker. *)
Fixpoint preAuthLoop (accountID : AccountID) (neededWeight : Z) (signers : list Signer) (totalWeight : Z) (c : SignatureChecker)
    : bool * Z * SignatureChecker :=
  match signers with
  | [] => (false, totalWeight, c)
  | s :: signers =>
    if bool_decide (signer_key s = SIGNER_KEY_TYPE_PRE_AUTH_TX mContentsHash) then
      let c := mkChecker (mUsedSignatures c) (used_insert accountID (signer_key s) (mUsedOneTimeSignerKeys c)) in
      let totalWeight := s32 (totalWeight + weightOf s) in
      if neededWeight <=? totalWeight then (true, totalWeight, c)
      else preAuthLoop accountID neededWeight signers totalWeight c
    else preAuthLoop accountID neededWeight signers totalWeight c
  end.

(** The first signer that [verifies] accepts, and the others. *)
Fixpoint takeSigner (verifies : SignerKey → bool) (signers : list Signer) : option (Signer * list Signer) :=
  match signers with
  | [] => None
  | s :: signers =>
    if verifies (signer_key s) then Some (s, signers)
    else match takeSigner verifies signers with Some (s', rest) => Some (s', s :: rest) | None => None end
  end.

(** [verifyAll] from the signature number [i] on. *)
Fixpoint verifyAll (verifies : DecoratedSignature → SignerKey → bool) (neededWeight : Z) (sigs : list DecoratedSignature)
    (i : nat) (signers : list Signer) (totalWeight : Z) (used : list bool) : bool * Z * list bool :=
  match sigs with
  | [] => (false, totalWeight, used)
  | sig :: sigs =>
    match takeSigner (verifies sig) signers with
    | Some (s, rest) =>
      let used := <[i := true]> used in
      let totalWeight := s32 (totalWeight + weightOf s) in
      if neededWeight <=? totalWeight then (true, totalWeight, used)
      else verifyAll verifies neededWeight sigs (S i) rest totalWeight used
    | None => verifyAll verifies neededWeight sigs (S i) signers totalWeight used
    end
  end.

Definition checker_checkSignature (accountID : AccountID) (signersV : list Signer) (neededWeight : Z) (c : SignatureChecker)
    : bool * SignatureChecker :=
  if mProtocolVersion =? 7 then (true, c)
  else
    let '(ok, totalWeight, c) := preAuthLoop accountID neededWeight (List.filter isPreAuth signersV) 0 c in
    if (ok : bool) then (true, c)
    else
      let '(ok, totalWeight, used) :=
        verifyAll verifyHashX neededWeight mSignatures 0 (List.filter isHashX signersV) totalWeight (mUsedSignatures c) in
      if (ok : bool) then (true, mkChecker used (mUsedOneTimeSignerKeys c))
      else
        let '(ok, totalWeight, used) :=
          verifyAll verify neededWeight mSignatures 0 (List.filter isEd25519 signersV) totalWeight used in
        (ok, mkChecker used (mUsedOneTimeSignerKeys c)).

Definition checkAllSignaturesUsed (c : SignatureChecker) : bool :=
  if mProtocolVersion =? 7 then true else forallb id (mUsedSignatures c).

(** [TransactionFrame::checkSignature] and [checkSignatureNoAccount]. *)
Definition signersOf (acc : AccountEntry) : list Signer :=
  let master := default 0 (acc_thresholds acc !! THRESHOLD_MASTER_WEIGHT) in
  (if negb (master =? 0) then [mkSigner (SIGNER_KEY_TYPE_ED25519 (acc_accountID acc)) master] else []) ++ acc_signers acc.
Definition tx_checkSignature (acc : AccountEntry) (neededWeight : Z) (c : SignatureChecker) : bool * SignatureChecker :=
  checker_checkSignature (acc_accountID acc) (signersOf acc) neededWeight c.
Definition tx_checkSignatureNoAccount (accountID : AccountID) (c : SignatureChecker) : bool * SignatureChecker :=
  checker_checkSignature accountID [mkSigner (SIGNER_KEY_TYPE_ED25519 accountID) 1] 0 c.
End Checker.
