(* ===== verification/SignatureSpec.v ===== *)
(** * What a successful check of signatures means

    The checker counts a signer once, a signature once for each kind of key, and no more than the
    signatures support. *)
From stdpp Require Import base list gmap strings.
From Stdlib Require Import ZArith Lia.
From S2P Require Import Prelude Numeric LedgerEntries OpTypes Operations AccountOps Signatures.

Lemma Forall_submseteq {A} (P : A → Prop) l k : l ⊆+ k → Forall P k → Forall P l.
Proof. rewrite !Forall_forall. intros Hs HP x Hx. apply HP. by eapply elem_of_submseteq. Qed.

Section Spec.
Context `{Crypto} (v hash : Z) (sigs : list DecoratedSignature).

(** The sum of the capped weights. *)
Definition totalOf (l : list Signer) : Z := foldr (λ s x, weightOf v s + x) 0 l.

(** The sums fit into an [int]: from version 10 on a weight counts at most 255. *)
Definition weightsOk (l : list Signer) : Prop := Forall (λ s, 0 <= weightOf v s <= 255) l ∧ Z.of_nat (length l) <= 2 ^ 20.

Lemma weights_capped l : 9 < v → Forall (λ s, 0 <= signer_weight s) l → Z.of_nat (length l) <= 2 ^ 20 → weightsOk l.
Proof.
  intros Hv Hw Hl. split; [|done]. eapply Forall_impl; [exact Hw|]. intros s Hs. unfold weightOf, UINT8_MAX. rewrite (proj2 (Z.ltb_lt 9 v)) by done.
  destruct (Z.ltb_spec 255 (signer_weight s)); simpl in *; lia.
Qed.

Lemma totalOf_app l k : totalOf (l ++ k) = totalOf l + totalOf k.
Proof. induction l as [|s l IH]; simpl in *; lia. Qed.
Lemma totalOf_range l : Forall (λ s, 0 <= weightOf v s <= 255) l → 0 <= totalOf l <= 255 * Z.of_nat (length l).
Proof. induction 1; simpl in *; lia. Qed.

(** [M] matches signatures from the number [i] on with signers of [signers], each of them once. *)
Definition matched (verifies : DecoratedSignature → SignerKey → bool) (l : list DecoratedSignature) (i : nat)
    (signers : list Signer) (M : list (nat * Signer)) : Prop :=
  M.*2 ⊆+ signers ∧ NoDup M.*1 ∧
  ∀ j s, (j, s) ∈ M → (i <= j)%nat ∧ ∃ sig, l !! (j - i)%nat = Some sig ∧ verifies sig (signer_key s) = true.

(** The flags of exactly the matched signatures are set. *)
Definition flagged (M : list (nat * Signer)) (used used' : list bool) : Prop :=
  length used' = length used ∧ ∀ j, used' !! j = Some true ↔ used !! j = Some true ∨ (j ∈ M.*1 ∧ is_Some (used !! j)).

Lemma flagged_refl used : flagged [] used used.
Proof. split; [done|]. intros j. split; [by left|]. intros [?|[Hj _]]; [done|by apply elem_of_nil in Hj]. Qed.
Lemma flagged_trans M N used used1 used2 : flagged M used used1 → flagged N used1 used2 → flagged (M ++ N) used used2.
Proof.
  intros [L1 H1] [L2 H2]. split; [lia|]. intros j. rewrite H2, H1, fmap_app, elem_of_app.
  assert (is_Some (used1 !! j) ↔ is_Some (used !! j)) as -> by (by rewrite !lookup_lt_is_Some, L1). naive_solver.
Qed.
Lemma flagged_insert i s used : flagged [(i, s)] used (<[i := true]> used).
Proof.
  split; [apply length_insert|]. intros j. rewrite list_lookup_insert_Some. simpl. rewrite list_elem_of_singleton, lookup_lt_is_Some.
  destruct (decide (i = j)) as [->|Hne]; [|naive_solver]. split; [naive_solver|]. intros [Hj|[_ Hj]]; left; split_and!; try done.
  by apply lookup_lt_Some in Hj.
Qed.

Lemma takeSigner_Some verifies l s rest : takeSigner verifies l = Some (s, rest) → l ≡ₚ s :: rest ∧ verifies (signer_key s) = true.
Proof.
  revert s rest. induction l as [|s' l IH]; intros s rest; simpl; [done|]. destruct (verifies (signer_key s')) eqn:E; [by intros [= <- <-]|].
  destruct (takeSigner verifies l) as [[s2 rest2]|]; [|done]. intros [= <- <-]. destruct (IH s2 rest2 eq_refl) as [-> ?]. split; [|done]. apply Permutation_swap.
Qed.

Lemma verifyAll_spec verifies needed l : ∀ i signers w used,
  Forall (λ s, 0 <= weightOf v s <= 255) signers → 0 <= w → w + 255 * Z.of_nat (length signers) < 2 ^ 31 →
  let '(ok, w', used') := verifyAll v verifies needed l i signers w used in
  ∃ M, matched verifies l i signers M ∧ w' = w + totalOf M.*2 ∧ flagged M used used' ∧ (ok = true → needed <= w' ∧ M ≠ []).
Proof.
  induction l as [|sig l IH]; intros i signers w used Hs Hw Hb; simpl.
  { exists []. split; [|split; [simpl; lia|split; [apply flagged_refl|done]]].
    split; [apply submseteq_nil_l|]. split; [constructor|]. by intros j s Hj%elem_of_nil. }
  assert (Hlift : ∀ signers' M, signers' ⊆+ signers → matched verifies l (S i) signers' M → matched verifies (sig :: l) i signers M).
  { intros signers' M Hsub (H1 & H2 & H3). split; [by trans signers'|]. split; [done|]. intros j s Hj. destruct (H3 j s Hj) as [Hle Hsig].
    split; [lia|]. by replace (j - i)%nat with (S (j - S i)) by lia. }
  destruct (takeSigner (verifies sig) signers) as [[s rest]|] eqn:Et.
  - apply takeSigner_Some in Et as [Hp Hv]. rewrite Hp in Hs. apply Forall_cons in Hs as [Hws Hrest].
    assert (Hlen : length signers = S (length rest)) by (by rewrite Hp). rewrite s32_small by lia.
    assert (Hone : matched verifies (sig :: l) i signers [(i, s)]).
    { split; [rewrite Hp; simpl; apply submseteq_skip, submseteq_nil_l|]. split; [apply NoDup_singleton|].
      intros j s' [= -> ->]%list_elem_of_singleton. split; [done|]. exists sig. by rewrite Nat.sub_diag. }
    destruct (needed <=? w + weightOf v s) eqn:En.
    + exists [(i, s)]. split; [done|]. split; [simpl; lia|]. split; [apply flagged_insert|]. intros _. split; [lia|done].
    + specialize (IH (S i) rest (w + weightOf v s) (<[i := true]> used) Hrest ltac:(lia) ltac:(lia)).
      destruct (verifyAll _ _ _ _ _ _ _ _) as [[ok w'] used']. destruct IH as (M & (M1 & M2 & M3) & Ew & Hfl & Hok).
      exists ((i, s) :: M). split; [|split; [rewrite fmap_cons; simpl; lia|split; [|intros Hk; split; [by apply Hok|done]]]].
      * split; [rewrite Hp; by apply submseteq_skip|]. split.
        -- simpl. apply NoDup_cons. split; [|done]. intros ([j s'] & -> & Hj)%list_elem_of_fmap. destruct (M3 _ _ Hj). simpl in *. lia.
        -- intros j s' [[= -> ->]|Hj]%elem_of_cons; [split; [done|]; exists sig; by rewrite Nat.sub_diag|].
           destruct (M3 j s' Hj) as [Hle Hsig]. split; [lia|]. by replace (j - i)%nat with (S (j - S i)) by lia.
      * apply (flagged_trans [(i, s)] M _ _ _ (flagged_insert i s used) Hfl).
  - specialize (IH (S i) signers w used Hs Hw Hb). destruct (verifyAll _ _ _ _ _ _ _ _) as [[ok w'] used'].
    destruct IH as (M & HM & Hrest). exists M. split; [by eapply Hlift|done].
Qed.

Lemma preAuthLoop_spec a needed signers : ∀ w c,
  Forall (λ s, 0 <= weightOf v s <= 255) signers → 0 <= w → w + 255 * Z.of_nat (length signers) < 2 ^ 31 →
  let '(ok, w', c') := preAuthLoop v hash a needed signers w c in
  ∃ P, P ⊆+ signers ∧ Forall (λ s, signer_key s = SIGNER_KEY_TYPE_PRE_AUTH_TX hash) P ∧ w' = w + totalOf P ∧
    mUsedSignatures c' = mUsedSignatures c ∧ (ok = true → needed <= w' ∧ P ≠ []).
Proof.
  induction signers as [|s signers IH]; intros w c Hs Hw Hb; simpl.
  { exists []. split; [done|]. split; [constructor|]. split; [simpl; lia|done]. }
  apply Forall_cons in Hs as [Hws Hrest]. simpl in Hb. case_bool_decide as E.
  - rewrite s32_small by lia. destruct (needed <=? w + weightOf v s) eqn:En.
    + exists [s]. split; [apply submseteq_skip, submseteq_nil_l|]. split; [by constructor|]. split; [simpl; lia|]. split; [done|]. intros _. split; [lia|done].
    + set (c1 := mkChecker _ _). specialize (IH (w + weightOf v s) c1 Hrest ltac:(lia) ltac:(lia)).
      destruct (preAuthLoop _ _ _ _ _ _ _) as [[ok w'] c']. destruct IH as (P & HP & HF & Ew & Eu & Hok).
      exists (s :: P). split; [by apply submseteq_skip|]. split; [by constructor|]. split; [simpl; lia|]. split; [done|]. intros Hk. split; [by apply Hok|done].
  - specialize (IH w c Hrest Hw ltac:(lia)). destruct (preAuthLoop _ _ _ _ _ _ _) as [[ok w'] c']. destruct IH as (P & HP & Hr).
    exists P. split; [by apply submseteq_cons|done].
Qed.

(** The three kinds of keys. *)
Lemma split_signers l : List.filter isPreAuth l ++ List.filter isHashX l ++ List.filter isEd25519 l ≡ₚ l.
Proof.
  induction l as [|s l IH]; [done|]. simpl. unfold isPreAuth at 1, isHashX at 1, isEd25519 at 1. destruct (signer_key s); simpl.
  - by rewrite app_assoc, <- Permutation_middle, <- app_assoc, IH.
  - by rewrite IH.
  - by rewrite <- Permutation_middle, IH.
Qed.

Lemma filter_weights f l : weightsOk l → Forall (λ s, 0 <= weightOf v s <= 255) (List.filter f l) ∧ (length (List.filter f l) <= length l)%nat.
Proof.
  intros [Hw _]. split; [|apply List.filter_length_le]. rewrite Forall_forall in *. intros s Hs. apply Hw. rewrite list_elem_of_In, List.filter_In in Hs.
  apply list_elem_of_In; by destruct Hs.
Qed.

(** What the checker counted: the signers whose hash is the one of the transaction, those with a
    preimage among the signatures, and those with a verified signature. *)
Definition counted (signersV P : list Signer) (MH ME : list (nat * Signer)) : Prop :=
  P ++ MH.*2 ++ ME.*2 ⊆+ signersV ∧
  Forall (λ s, signer_key s = SIGNER_KEY_TYPE_PRE_AUTH_TX hash) P ∧
  matched verifyHashX sigs 0 (List.filter isHashX signersV) MH ∧
  matched (verify hash) sigs 0 (List.filter isEd25519 signersV) ME.

Lemma counted_intro signersV P MH ME :
  P ⊆+ List.filter isPreAuth signersV → Forall (λ s, signer_key s = SIGNER_KEY_TYPE_PRE_AUTH_TX hash) P →
  matched verifyHashX sigs 0 (List.filter isHashX signersV) MH → matched (verify hash) sigs 0 (List.filter isEd25519 signersV) ME →
  counted signersV P MH ME.
Proof. intros HP HF HH HE. split; [|done]. rewrite <- (split_signers signersV). apply submseteq_app; [done|]. apply submseteq_app; [apply HH|apply HE]. Qed.

(** ** What a check answers does not depend on the checks before *)

Definition markAll (F : list nat) (used : list bool) : list bool := foldl (λ u i, <[i := true]> u) used F.
Lemma markAll_length F : ∀ used, length (markAll F used) = length used.
Proof. induction F as [|i F IH]; intros used; [done|]. simpl. rewrite IH. apply length_insert. Qed.
Lemma markAll_lookup F : ∀ used j, markAll F used !! j = Some true ↔ used !! j = Some true ∨ (j ∈ F ∧ (j < length used)%nat).
Proof.
  induction F as [|i F IH]; intros used j; simpl; [rewrite elem_of_nil; tauto|]. rewrite IH, length_insert, list_lookup_insert_Some, elem_of_cons.
  split; [naive_solver|]. intros [Hj|[[->|Hj] Hl]]; [|by left; left|by right]. destruct (decide (i = j)) as [->|Hne]; [|by left; right].
  left. left. split_and!; [done|done|by eapply lookup_lt_Some].
Qed.

Lemma verifyAll_marks verifies needed l : ∀ i signers w, ∃ ok w' F, ∀ used, verifyAll v verifies needed l i signers w used = (ok, w', markAll F used).
Proof.
  induction l as [|sig l IH]; intros i signers w; simpl; [by exists false, w, []|]. destruct (takeSigner (verifies sig) signers) as [[s rest]|]; [|apply IH].
  destruct (needed <=? s32 (w + weightOf v s)); [by exists true, (s32 (w + weightOf v s)), [i]|].
  destruct (IH (S i) rest (s32 (w + weightOf v s))) as (ok & w' & F & E). exists ok, w', (i :: F). intros used. by rewrite E.
Qed.

Lemma preAuthLoop_marks a needed signers : ∀ w, ∃ ok w' K, ∀ c,
  preAuthLoop v hash a needed signers w c = (ok, w', mkChecker (mUsedSignatures c) (K (mUsedOneTimeSignerKeys c))).
Proof.
  induction signers as [|s signers IH]; intros w; simpl; [exists false, w, id; by intros []|]. case_bool_decide; [|apply IH].
  destruct (needed <=? s32 (w + weightOf v s)); [by exists true, (s32 (w + weightOf v s)), (used_insert a (signer_key s))|].
  destruct (IH (s32 (w + weightOf v s))) as (ok & w' & K & E). exists ok, w', (λ m, K (used_insert a (signer_key s) m)). intros c. by rewrite E.
Qed.

Lemma check_marks a signersV needed : ∃ ok F K, ∀ c,
  checker_checkSignature v hash sigs a signersV needed c = (ok, mkChecker (markAll F (mUsedSignatures c)) (K (mUsedOneTimeSignerKeys c))).
Proof.
  unfold checker_checkSignature. destruct (v =? 7); [exists true, [], id; by intros []|].
  destruct (preAuthLoop_marks a needed (List.filter isPreAuth signersV) 0) as (ok1 & w1 & K & E1).
  destruct ok1; [exists true, [], K; intros c; by rewrite E1|].
  destruct (verifyAll_marks verifyHashX needed sigs 0 (List.filter isHashX signersV) w1) as (ok2 & w2 & F2 & E2).
  destruct ok2; [exists true, F2, K; intros c; rewrite E1; simpl; by rewrite E2|].
  destruct (verifyAll_marks (verify hash) needed sigs 0 (List.filter isEd25519 signersV) w2) as (ok3 & w3 & F3 & E3).
  exists ok3, (F2 ++ F3), K. intros c. rewrite E1. simpl. rewrite E2, E3. unfold markAll. by rewrite foldl_app.
Qed.

Lemma matched_nil verifies signers : matched verifies sigs 0 signers [].
Proof. split; [apply submseteq_nil_l|]. split; [constructor|]. by intros j s Hj%elem_of_nil. Qed.
End Spec.

(** C33: when [SignatureChecker::checkSignature] of version 10 or later accepts, the capped weights of
    the signers that it counted reach the needed weight, and it counted at least one. It counts every
    signer at most once; a hash of a transaction only if it is the hash of this one; a key or a hash of
    a preimage only with a signature that verifies, and no signature for two signers of the same kind.
    The signatures marked as used, whether it accepts or not, are those marked before and those counted. *)
Theorem checked_signatures_suffice `{Crypto} v hash sigs a signersV needed c :
  9 < v → Forall (λ s, 0 <= signer_weight s) signersV → Z.of_nat (length signersV) <= 2 ^ 20 →
  let '(ok, c') := checker_checkSignature v hash sigs a signersV needed c in
  ∃ P MH ME, counted hash sigs signersV P MH ME ∧
    flagged (MH ++ ME) (mUsedSignatures c) (mUsedSignatures c') ∧
    (ok = true → needed <= totalOf v (P ++ MH.*2 ++ ME.*2) ∧ P ++ MH.*2 ++ ME.*2 ≠ []).
Proof.
  intros Hv Hw Hl. pose proof (weights_capped v _ Hv Hw Hl) as Hok. unfold checker_checkSignature. rewrite (proj2 (Z.eqb_neq v 7)) by lia.
  destruct (filter_weights v isPreAuth _ Hok) as [W1 L1], (filter_weights v isHashX _ Hok) as [W2 L2], (filter_weights v isEd25519 _ Hok) as [W3 L3].
  pose proof (preAuthLoop_spec v hash a needed _ 0 c W1 ltac:(lia) ltac:(lia)) as H1.
  destruct (preAuthLoop _ _ _ _ _ _ _) as [[ok1 w1] c1]. destruct H1 as (P & HP & HF & Ew1 & Eu1 & Hok1).
  pose proof (Forall_submseteq _ _ _ HP W1) as WP. pose proof (totalOf_range v P WP) as R1. pose proof (submseteq_length _ _ HP) as LP.
  destruct ok1.
  { exists P, [], []. split; [apply counted_intro; [done|done|apply matched_nil..]|]. rewrite Eu1. split; [apply flagged_refl|].
    intros _. rewrite app_nil_r. destruct (Hok1 eq_refl). split; [lia|done]. }
  pose proof (verifyAll_spec v verifyHashX needed sigs 0 _ w1 (mUsedSignatures c1) W2 ltac:(lia) ltac:(lia)) as H2.
  destruct (verifyAll _ _ _ _ _ _ _ _) as [[ok2 w2] u2]. destruct H2 as (MH & HMH & Ew2 & Hf2 & Hok2). rewrite Eu1 in Hf2.
  pose proof (totalOf_range v _ (Forall_submseteq _ _ _ (proj1 HMH) W2)) as R2. pose proof (submseteq_length _ _ (proj1 HMH)) as LH.
  destruct ok2.
  { exists P, MH, []. split; [apply counted_intro; [done|done|done|apply matched_nil]|]. rewrite !app_nil_r. split; [done|].
    intros _. rewrite totalOf_app. destruct (Hok2 eq_refl) as [Hn Hne]. split; [lia|]. by destruct P, MH. }
  pose proof (verifyAll_spec v (verify hash) needed sigs 0 _ w2 u2 W3 ltac:(lia) ltac:(lia)) as H3.
  destruct (verifyAll v (verify hash) needed sigs 0 _ w2 u2) as [[ok3 w3] u3]. destruct H3 as (ME & HME & Ew3 & Hf3 & Hok3).
  exists P, MH, ME. split; [by apply counted_intro|]. split; [by eapply flagged_trans|]. intros ->. rewrite !totalOf_app.
  destruct (Hok3 eq_refl) as [Hn Hne]. split; [lia|]. by destruct P, MH, ME.
Qed.

(** ** An example *)

(** Keys verify the hash itself; a preimage is its own hash. *)
Definition toyCrypto : Crypto := {| verifySig := λ key sig hash, bool_decide (sig = [key; hash]); sha256 := λ x, foldr Z.add 0 x |}.
Definition toySigners : list Signer :=
  [mkSigner (SIGNER_KEY_TYPE_ED25519 3) 1; mkSigner (SIGNER_KEY_TYPE_HASH_X 12) 2; mkSigner (SIGNER_KEY_TYPE_PRE_AUTH_TX 99) 300].
Definition toySigs : list DecoratedSignature := [mkSignature 3 [3; 99]; mkSignature 12 [5; 7]].

Lemma checked_signatures_suffice_witness :
  checker_checkSignature (H := toyCrypto) 11 99 toySigs 3 toySigners 258 (newSignatureChecker toySigs) =
    (true, mkChecker [true; true] [(3, [SIGNER_KEY_TYPE_PRE_AUTH_TX 99])]) ∧
  ∃ P MH ME, counted (H := toyCrypto) 99 toySigs toySigners P MH ME ∧ 258 <= totalOf 11 (P ++ MH.*2 ++ ME.*2).
Proof.
  pose proof (checked_signatures_suffice (H := toyCrypto) 11 99 toySigs 3 toySigners 258 (newSignatureChecker toySigs)
    ltac:(lia) ltac:(repeat constructor; vm_compute; congruence) ltac:(vm_compute; congruence)) as Hc.
  assert (E : checker_checkSignature (H := toyCrypto) 11 99 toySigs 3 toySigners 258 (newSignatureChecker toySigs) =
    (true, mkChecker [true; true] [(3, [SIGNER_KEY_TYPE_PRE_AUTH_TX 99])])) by (vm_compute; reflexivity).
  rewrite E in Hc. split; [exact E|]. destruct Hc as (P & MH & ME & Hcount & _ & Hok). exists P, MH, ME. split; [done|]. by apply Hok.
Defined.
