(* ===== verification/Transactions.v ===== *)
(** * Transactions: [OperationFrame.cpp], [TransactionFrame.cpp]

    Validating a transaction, charging its fee and applying its operations. The checker of signatures
    and the result are passed along; the check of invariants after an operation is an argument. *)
From stdpp Require Import base list gmap strings.
From Stdlib Require Import ZArith.
From S2P Require Import Prelude UInt128 Numeric Exchange LedgerEntries Balances LedgerTxn TrustLines CrossOffers OpTypes Operations AccountOps OfferOps Signatures.

Record TimeBounds := mkTimeBounds { minTime : Z; maxTime : Z }.
Record Transaction := mkTransaction {
  tx_sourceAccount : AccountID; tx_fee : Z; tx_seqNum : Z; tx_timeBounds : option TimeBounds; operations : list Operation }.
Record TransactionEnvelope := mkTxEnvelope { tx : Transaction; signatures : list DecoratedSignature }.

Inductive TxResult :=
| txSUCCESS (results : list OperationResult) | txFAILED (results : list OperationResult)
| txTOO_EARLY | txTOO_LATE | txMISSING_OPERATION | txBAD_SEQ | txBAD_AUTH | txINSUFFICIENT_BALANCE | txNO_ACCOUNT
| txINSUFFICIENT_FEE | txBAD_AUTH_EXTRA | txINTERNAL_ERROR.
Record TransactionResult := mkTxResult { feeCharged : Z; txResult : TxResult }.

Inductive ThresholdLevel := LOW | MEDIUM | HIGH.
Inductive ValidationType := kInvalid | kInvalidUpdateSeqNum | kInvalidPostAuth | kFullyValid.

Definition Delta : Type := gmap LedgerKey (option LedgerEntry * option LedgerEntry) * (LedgerHeader * LedgerHeader).

(** ** Operations by their type *)

Definition getThresholdLevel (b : OperationBody) : ThresholdLevel :=
  match b with
  | ALLOW_TRUST _ | BUMP_SEQUENCE _ | INFLATION => LOW
  | ACCOUNT_MERGE _ => HIGH
  | SET_OPTIONS op =>
    match so_masterWeight op, so_lowThreshold op, so_medThreshold op, so_highThreshold op, so_signer op with
    | None, None, None, None, None => MEDIUM
    | _, _, _, _, _ => HIGH
    end
  | _ => MEDIUM
  end.

Definition getNeededThreshold (acc : AccountEntry) (level : ThresholdLevel) : Z :=
  default 0 (acc_thresholds acc !! match level with LOW => THRESHOLD_LOW | MEDIUM => THRESHOLD_MED | HIGH => THRESHOLD_HIGH end).

Definition isVersionSupported (b : OperationBody) (v : Z) : bool :=
  match b with BUMP_SEQUENCE _ => 10 <=? v | MANAGE_BUY_OFFER _ => 11 <=? v | _ => true end.

Section Frames.
Context `{HashOrder} `{Crypto} (fuel : nat) (checkOnOperationApply : Operation → OperationResult → Delta → option string).

Definition doCheckValid (sourceID : AccountID) (b : OperationBody) (v : Z) : bool * OperationResult :=
  match b with
  | CREATE_ACCOUNT op => createAccount_doCheckValid sourceID op v
  | PAYMENT op => payment_doCheckValid op v
  | PATH_PAYMENT op => pathPayment_doCheckValid op v
  | MANAGE_SELL_OFFER op => manageOffer_doCheckValid (manageSellOfferFrame op false) v
  | CREATE_PASSIVE_SELL_OFFER op => manageOffer_doCheckValid (createPassiveFrame op) v
  | SET_OPTIONS op => setOptions_doCheckValid sourceID op v
  | CHANGE_TRUST op => changeTrust_doCheckValid op v
  | ALLOW_TRUST op => allowTrust_doCheckValid sourceID op v
  | ACCOUNT_MERGE destination => merge_doCheckValid sourceID destination v
  | INFLATION => (true, opINNER inflationResult)
  | MANAGE_DATA op => manageData_doCheckValid op v
  | BUMP_SEQUENCE op => bumpSequence_doCheckValid op v
  | MANAGE_BUY_OFFER op => manageOffer_doCheckValid (manageBuyOfferFrame op) v
  end.

Definition doApply (sourceID : AccountID) (b : OperationBody) (ltx : nat) : M Ledger (bool * OperationResult) :=
  match b with
  | CREATE_ACCOUNT op => createAccount_doApply sourceID op ltx
  | PAYMENT op => payment_doApply fuel sourceID op ltx
  | PATH_PAYMENT op => pathPayment_doApply fuel sourceID op ltx
  | MANAGE_SELL_OFFER op => manageOffer_doApply fuel sourceID (manageSellOfferFrame op false) ltx
  | CREATE_PASSIVE_SELL_OFFER op => manageOffer_doApply fuel sourceID (createPassiveFrame op) ltx
  | SET_OPTIONS op => setOptions_doApply sourceID op ltx
  | CHANGE_TRUST op => changeTrust_doApply sourceID op ltx
  | ALLOW_TRUST op => allowTrust_doApply sourceID op ltx
  | ACCOUNT_MERGE destination => merge_doApply sourceID destination ltx
  | INFLATION => inflation_doApply ltx
  | MANAGE_DATA op => manageData_doApply sourceID op ltx
  | BUMP_SEQUENCE op => bumpSequence_doApply sourceID op ltx
  | MANAGE_BUY_OFFER op => manageOffer_doApply fuel sourceID (manageBuyOfferFrame op) ltx
  end.

(** ** A transaction *)

Context (env : TransactionEnvelope) (contentsHash : Z).
Let t := tx env.

Definition getSourceID (op : Operation) : AccountID := default (tx_sourceAccount t) (op_sourceAccount op).

Definition numOperations : Z := Z.of_nat (length (operations t)).
Definition getMinFee (lh : LedgerHeader) : Z := s64 (baseFee lh * Z.max 1 numOperations).
Definition getFee (lh : LedgerHeader) (base : Z) : Z :=
  if ledgerVersion lh <? 11 then tx_fee t else Z.min (tx_fee t) (s64 (base * Z.max 1 numOperations)).

(** A default result has code [opINNER] and the first type; the frame has no result before. *)
Definition defaultResult : OperationResult := opINNER (createAccountResult CREATE_ACCOUNT_SUCCESS).
Definition resetResults (lh : LedgerHeader) (base : Z) : TransactionResult :=
  mkTxResult (getFee lh base) (txSUCCESS (replicate (length (operations t)) defaultResult)).

Definition setCode (c : TxResult) (r : TransactionResult) : TransactionResult := mkTxResult (feeCharged r) c.
(** [results()] throws unless the code has results; the references that the operations keep to their
    results are dangling then. *)
Definition resultsOf {S} (r : TransactionResult) : M S (list OperationResult) :=
  match txResult r with txSUCCESS l | txFAILED l => mret l | _ => wrongUnion end.
Definition setResult {S} (i : nat) (x : OperationResult) (r : TransactionResult) : M S TransactionResult :=
  match txResult r with
  | txSUCCESS l => mret (setCode (txSUCCESS (<[i := x]> l)) r)
  | txFAILED l => mret (setCode (txFAILED (<[i := x]> l)) r)
  | _ => crash "dangling reference to an operation result"
  end.
Definition markResultFailed {S} (r : TransactionResult) : M S TransactionResult :=
  l ← resultsOf r; mret (setCode (txFAILED l) r).

(** [TransactionFrame::loadSourceAccount]. *)
Definition tx_loadSourceAccount (ltx : nat) (header : LedgerTxnHeader) : M Ledger LedgerTxnEntry :=
  tx_loadAccount ltx header (tx_sourceAccount t).

(** The code of the failure, if there is one. *)
Definition commonValidPreSeqNum (ltx : nat) : M Ledger (option TxResult) :=
  if numOperations =? 0 then mret (Some txMISSING_OPERATION)
  else
    withHeader ltx (λ header,
      lh ← headerCurrent header;
      let tooEarly := match tx_timeBounds t with Some b => closeTime lh <? minTime b | None => false end in
      let tooLate := match tx_timeBounds t with Some b => negb (maxTime b =? 0) && (maxTime b <? closeTime lh) | None => false end in
      if tooEarly then mret (Some txTOO_EARLY)
      else if tooLate then mret (Some txTOO_LATE)
      else if tx_fee t <? getMinFee lh then mret (Some txINSUFFICIENT_FEE)
      else
        sourceAccount ← tx_loadSourceAccount ltx header;
        there ← withEntry sourceAccount active;
        mret (if (there : bool) then None else Some txNO_ACCOUNT)).

(** The validation, the new code if it changed, and the checker. *)
Definition commonValid (c : SignatureChecker) (ltxOuter : nat) (current_ : Z) (applying : bool)
    : M Ledger (ValidationType * option TxResult * SignatureChecker) :=
  withTxn ltxOuter (λ ltx,
    pre ← commonValidPreSeqNum ltx;
    match pre with
    | Some code => mret (kInvalid, Some code, c)
    | None =>
      withHeader ltx (λ header,
        sourceAccount ← tx_loadSourceAccount ltx header;
        withEntry sourceAccount (λ h,
          lh ← headerCurrent header;
          a ← (if (10 <=? ledgerVersion lh) || negb applying
               then (if current_ =? 0 then a ← currentAccount h; mret (acc_seqNum a) else mret current_) else mret 0);
          if ((10 <=? ledgerVersion lh) || negb applying) && ((a =? INT64_MAX) || negb (a + 1 =? tx_seqNum t))
          then mret (kInvalid, Some txBAD_SEQ, c)
          else
            acc ← currentAccount h;
            let '(ok, c) := tx_checkSignature (ledgerVersion lh) contentsHash (signatures env) acc (getNeededThreshold acc LOW) c in
            if negb (ok : bool) then mret (kInvalidUpdateSeqNum, Some txBAD_AUTH, c)
            else
              let feeToPay := if applying && (8 <? ledgerVersion lh) then 0 else tx_fee t in
              avail ← readEntry getAvailableBalance header h;
              if avail <? feeToPay then mret (kInvalidPostAuth, Some txINSUFFICIENT_BALANCE, c)
              else mret (kFullyValid, None, c)))
    end).

Definition processSeqNum (ltx : nat) : M Ledger unit :=
  withHeader ltx (λ header,
    lh ← headerCurrent header;
    if 10 <=? ledgerVersion lh then
      sourceAccount ← tx_loadSourceAccount ltx header;
      withEntry sourceAccount (λ h,
        a ← currentAccount h;
        if tx_seqNum t <? acc_seqNum a then throw "unexpected sequence number"
        else modifyAccount h (acc_setSeqNum (tx_seqNum t)))
    else mret tt).

(** ** Signatures of operations *)

(** Whether the signatures suffice, the failure otherwise, and the checker. *)
Definition op_checkSignature (op : Operation) (c : SignatureChecker) (ltx : nat) (forApply : bool)
    : M Ledger (option OperationResult * SignatureChecker) :=
  withHeader ltx (λ header,
    sourceAccount ← loadSourceAccount (getSourceID op) ltx header;
    withEntry sourceAccount (λ h,
      there ← active h;
      lh ← headerCurrent header;
      if (there : bool) then
        acc ← currentAccount h;
        let needed := getNeededThreshold acc (getThresholdLevel (body op)) in
        let '(ok, c) := tx_checkSignature (ledgerVersion lh) contentsHash (signatures env) acc needed c in
        mret (if (ok : bool) then None else Some opBAD_AUTH, c)
      else
        match op_sourceAccount op with
        | None => mret (Some opNO_ACCOUNT, c)
        | Some a =>
          if forApply then mret (Some opNO_ACCOUNT, c)
          else
            let '(ok, c) := tx_checkSignatureNoAccount (ledgerVersion lh) contentsHash (signatures env) a c in
            mret (if (ok : bool) then None else Some opBAD_AUTH, c)
        end)).

(** [removeAccountSigner]: [find_if], then the signer is erased. *)
Definition removeAccountSigner (header : LedgerTxnHeader) (h : LedgerTxnEntry) (signerKey : SignerKey) : M Ledger bool :=
  a ← currentAccount h;
  match takeSigner (λ k, bool_decide (k = signerKey)) (acc_signers a) with
  | Some (_, rest) =>
    removed ← entry_addNumEntries header h (-1);
    assert_ (match removed with SUCCESS => true | _ => false end);;
    modifyAccount h (acc_setSigners rest);;
    mret true
  | None => mret false
  end.
(** [std::accumulate] with [r || ...]: nothing more is removed after the first key. *)
Fixpoint removeSignerKeys (header : LedgerTxnHeader) (h : LedgerTxnEntry) (keys : list SignerKey) : M Ledger bool :=
  match keys with
  | [] => mret false
  | k :: keys => b ← removeAccountSigner header h k; if (b : bool) then mret true else removeSignerKeys header h keys
  end.
Fixpoint removeUsedOneTimeSignerKeys (used : list (AccountID * list SignerKey)) (ltx : nat) : M Ledger unit :=
  match used with
  | [] => mret tt
  | (accountID, keys) :: used =>
    account_ ← loadAccount ltx accountID;
    withEntry account_ (λ h,
      there ← active h;
      if negb (there : bool) then mret tt
      else
        withHeader ltx (λ header,
          changed ← removeSignerKeys header h keys;
          if (changed : bool) then normalizeSigners h else mret tt));;
    removeUsedOneTimeSignerKeys used ltx
  end.

(** The loop of [processSignatures]: from the operation number [i] on. *)
Fixpoint checkSignatures (ops : list Operation) (i : nat) (ltx : nat) (allOpsValid : bool) (c : SignatureChecker) (r : TransactionResult)
    : M Ledger (bool * SignatureChecker * TransactionResult) :=
  match ops with
  | [] => mret (allOpsValid, c, r)
  | op :: ops =>
    '(failed, c) ← op_checkSignature op c ltx false;
    match failed with
    | None => checkSignatures ops (S i) ltx allOpsValid c r
    | Some x => r ← setResult i x r; checkSignatures ops (S i) ltx false c r
    end
  end.

Definition processSignatures (c : SignatureChecker) (ltxOuter : nat) (r : TransactionResult)
    : M Ledger (bool * SignatureChecker * TransactionResult) :=
  checked ← withTxn ltxOuter (λ ltx,
    lh ← headerOf ltx;
    if ledgerVersion lh <? 10 then mret None
    else x ← checkSignatures (operations t) 0 ltx true c r; mret (Some (x, ledgerVersion lh)));
  match checked with
  | None => mret (true, c, r)
  | Some ((allOpsValid, c, r), v) =>
    removeUsedOneTimeSignerKeys (mUsedOneTimeSignerKeys c) ltxOuter;;
    if negb (allOpsValid : bool) then r ← markResultFailed r; mret (false, c, r)
    else if negb (checkAllSignaturesUsed v c) then mret (false, c, setCode txBAD_AUTH_EXTRA r)
    else mret (true, c, r)
  end.

(** ** Fees *)

Definition processFeeSeqNum (ltx : nat) (base : Z) : M Ledger TransactionResult :=
  withHeader ltx (λ header,
    lh ← headerCurrent header;
    let r := resetResults lh base in
    sourceAccount ← tx_loadSourceAccount ltx header;
    withEntry sourceAccount (λ h,
      there ← active h;
      if negb (there : bool) then throw "Unexpected database state"
      else
        a ← currentAccount h;
        fee ← (if 0 <? feeCharged r then
                 let fee := Z.min (acc_balance a) (feeCharged r) in
                 '(_, balance) ← Numeric.addBalance (acc_balance a) (- fee) INT64_MAX;
                 modifyAccount h (acc_setBalance balance);;
                 lh ← headerCurrent header;
                 setHeaderCurrent header (mkHeader (ledgerVersion lh) (ledgerSeq lh) (totalCoins lh) (s64 (feePool lh + fee))
                   (inflationSeq lh) (idPool lh) (baseFee lh) (baseReserve lh) (maxTxSetSize lh) (closeTime lh));;
                 mret fee
               else mret (feeCharged r));
        lh ← headerCurrent header;
        (if ledgerVersion lh <=? 9 then
           a ← currentAccount h;
           if negb (s64 (acc_seqNum a + 1) =? tx_seqNum t) then throw "Unexpected account state"
           else modifyAccount h (acc_setSeqNum (tx_seqNum t))
         else mret tt);;
        mret (mkTxResult fee (txResult r)))).

(** ** Validity *)

(** [OperationFrame::checkValid]: whether the operation is valid, its result, and the checker. *)
Definition op_checkValid (op : Operation) (c : SignatureChecker) (ltxOuter : nat) (forApply : bool)
    : M Ledger (bool * OperationResult * SignatureChecker) :=
  withTxn ltxOuter (λ ltx,
    lh ← headerOf ltx;
    let v := ledgerVersion lh in
    if negb (isVersionSupported (body op) v) then mret (false, opNOT_SUPPORTED, c)
    else
      '(failed, c) ← (if negb forApply || (v <? 10) then op_checkSignature op c ltx forApply
                      else
                        there ← withHeader ltx (λ header,
                          h ← loadSourceAccount (getSourceID op) ltx header; withEntry h active);
                        mret (if (there : bool) then None else Some opNO_ACCOUNT, c));
      match failed with
      | Some x => mret (false, x, c)
      | None => let '(ok, x) := doCheckValid (getSourceID op) (body op) v in mret (ok, x, c)
      end).

Fixpoint checkValidOps (ops : list Operation) (i : nat) (ltx : nat) (c : SignatureChecker) (r : TransactionResult)
    : M Ledger (bool * SignatureChecker * TransactionResult) :=
  match ops with
  | [] => mret (true, c, r)
  | op :: ops =>
    '(ok, x, c) ← op_checkValid op c ltx false;
    r ← setResult i x r;
    if (ok : bool) then checkValidOps ops (S i) ltx c r
    else r ← markResultFailed r; mret (false, c, r)
  end.

Definition checkValid (ltxOuter : nat) (current_ : Z) : M Ledger (bool * TransactionResult) :=
  withTxn ltxOuter (λ ltx,
    lh ← headerOf ltx;
    let r := resetResults lh (baseFee lh) in
    '(cv, code, c) ← commonValid (newSignatureChecker (signatures env)) ltx current_ false;
    let r := match code with Some code => setCode code r | None => r end in
    match cv with
    | kFullyValid =>
      '(ok, c, r) ← checkValidOps (operations t) 0 ltx c r;
      if negb (ok : bool) then mret (false, r)
      else if negb (checkAllSignaturesUsed (ledgerVersion lh) c) then mret (false, setCode txBAD_AUTH_EXTRA r)
      else mret (true, r)
    | _ => mret (false, r)
    end).

(** ** Applying *)

Definition op_apply (op : Operation) (c : SignatureChecker) (ltx : nat) : M Ledger (bool * OperationResult * SignatureChecker) :=
  '(ok, x, c) ← op_checkValid op c ltx true;
  if (ok : bool) then '(ok, x) ← doApply (getSourceID op) (body op) ltx; mret (ok, x, c) else mret (ok, x, c).

(** The loop of [applyOperations]: from the operation number [i] on. *)
Fixpoint applyLoop (ops : list Operation) (i : nat) (ltxTx : nat) (errorEncountered : bool) (c : SignatureChecker)
    (r : TransactionResult) (meta : list (list LedgerEntryChange))
    : M Ledger (bool * SignatureChecker * TransactionResult * list (list LedgerEntryChange)) :=
  match ops with
  | [] => mret (errorEncountered, c, r, meta)
  | op :: ops =>
    '(error, c, r, changes) ← withTxn ltxTx (λ ltxOp,
      '(txRes, x, c) ← op_apply op c ltxOp;
      r ← setResult i x r;
      let errorEncountered := errorEncountered || negb txRes in
      (if negb errorEncountered then
         delta ← getDelta ltxOp;
         match checkOnOperationApply op x delta with Some w => throw w | None => mret tt end
       else mret tt);;
      changes ← getChanges ltxOp;
      commit ltxOp;;
      mret (errorEncountered, c, r, changes));
    applyLoop ops (S i) ltxTx error c r (meta ++ [changes])
  end.

Definition applyOperations (c : SignatureChecker) (ltx : nat) (r : TransactionResult)
    : M Ledger (bool * TransactionResult * list (list LedgerEntryChange)) :=
  withTxn ltx (λ ltxTx,
    '(errorEncountered, c, r, meta) ← applyLoop (operations t) 0 ltxTx false c r [];
    if (errorEncountered : bool) then r ← markResultFailed r; mret (false, r, [])
    else
      lh ← headerOf ltxTx;
      if (ledgerVersion lh <? 10) && negb (checkAllSignaturesUsed (ledgerVersion lh) c)
      then mret (false, setCode txBAD_AUTH_EXTRA r, meta)
      else
        (if ledgerVersion lh <? 10 then removeUsedOneTimeSignerKeys (mUsedOneTimeSignerKeys c) ltxTx else mret tt);;
        commit ltxTx;;
        mret (true, r, meta)).

(** [r] is the result that [processFeeSeqNum] has left. *)
Definition apply (ltx : nat) (r : TransactionResult)
    : M Ledger (bool * TransactionResult * list LedgerEntryChange * list (list LedgerEntryChange)) :=
  lh ← headerOf ltx;
  '(valid, c, r, txChanges) ← withTxn ltx (λ ltxTx,
    '(cv, code, c) ← commonValid (newSignatureChecker (signatures env)) ltxTx 0 true;
    let r := match code with Some code => setCode code r | None => r end in
    (match cv with kInvalid => mret tt | _ => processSeqNum ltxTx end);;
    '(signaturesValid, c, r) ← (match cv with
                                | kInvalidPostAuth | kFullyValid => processSignatures c ltxTx r
                                | _ => mret (false, c, r)
                                end);
    txChanges ← getChanges ltxTx;
    commit ltxTx;;
    mret (signaturesValid && match cv with kFullyValid => true | _ => false end, c, r, txChanges));
  if (valid : bool) then '(ok, r, meta) ← applyOperations c ltx r; mret (ok, r, txChanges, meta)
  else mret (false, r, txChanges, []).
End Frames.
