(* ===== verification/Gentle.v ===== *)
(** * What validation leaves alone

    [gentle m]: whatever [m] does, the database is as before, and the ledger transactions that it has opened are exact
    about what they erase, so that their changes can be asked for. All of the validation of transactions is gentle. *)
From stdpp Require Import base list gmap strings.
From Stdlib Require Import ZArith Lia.
From S2P Require Import Prelude UInt128 Numeric LedgerEntries Balances LedgerTxn LedgerTxnSpec TrustLines OpTypes Operations AccountOps Signatures Transactions.

(** The transactions with numbers from [n] on. *)
Definition exactFrom (n : nat) (s : Ledger) : Prop :=
  (n <= nextImpl s)%nat ∧ Forall (λ t, (n <= txn_id t)%nat → mConsistency t = EXACT) (txns s).
Definition gently (s s' : Ledger) : Prop := root s' = root s ∧ ∀ n, exactFrom n s → exactFrom n s'.

#[export] Instance gently_preorder : PreOrder gently.
Proof. split; [done|]. intros s1 s2 s3 [E1 H1] [E2 H2]. split; [congruence|auto]. Qed.

Definition gentle {A} (m : M Ledger A) : Prop :=
  ∀ s, match m s with Ok _ s' | Throw _ s' | Crash _ s' => gently s s' | NoFuel => True end.

Lemma gentle_bind {A B} (m : M Ledger A) (k : A → M Ledger B) : gentle m → (∀ a, gentle (k a)) → gentle (m ≫= k).
Proof.
  intros Hm Hk s. specialize (Hm s). unfold mbind, M_bind. destruct (m s) as [a s'|w s'|w s'|]; try done. specialize (Hk a s').
  destruct (k a s'); [by etrans..|done].
Qed.
Lemma gentle_ret {A} (a : A) : gentle (mret a).
Proof. by intros s. Qed.
Lemma gentle_get : gentle get.
Proof. by intros s. Qed.
Lemma gentle_throw {A} w : gentle (throw w : M Ledger A).
Proof. by intros s. Qed.
Lemma gentle_crash {A} w : gentle (crash w : M Ledger A).
Proof. by intros s. Qed.
Lemma gentle_nofuel {A} : gentle (nofuel : M Ledger A).
Proof. done. Qed.
Lemma gentle_noexcept m : gentle m → gentle (noexcept m).
Proof. intros Hm s. specialize (Hm s). unfold noexcept. by destruct (m s). Qed.
Lemma gentle_scoped {A} d (m : M Ledger A) : gentle d → gentle m → gentle (scoped d m).
Proof.
  intros Hd Hm s. specialize (Hm s). unfold scoped. destruct (m s) as [a s'|w s'|w s'|]; try done.
  - pose proof (gentle_bind d (λ _, mret a) Hd (λ _, gentle_ret a) s') as Hk. destruct (d ≫= _) as [? ?|? ?|? ?|]; [by etrans..|done].
  - pose proof (gentle_bind d (λ _, throw w : M Ledger A) Hd (λ _, gentle_throw w) s') as Hk. destruct (d ≫= _) as [? ?|? ?|? ?|]; [by etrans..|done].
Qed.
Create HintDb keeps.
#[export] Hint Resolve gentle_ret gentle_get gentle_throw gentle_crash gentle_nofuel : keeps.

(** Down to the operations on the state. *)
Ltac keep :=
  repeat first
    [ progress eauto with keeps | apply gentle_bind; [|intros ?] | apply gentle_noexcept | apply gentle_scoped
    | match goal with
      | |- gentle (match ?x with _ => _ end) => destruct x
      | |- gentle (if ?x then _ else _) => destruct x
      | |- gentle (let _ := _ in _) => cbv zeta
      end ].

(** ** The operations on the state *)

(** One transaction is replaced, or those inside it are forgotten. *)
Lemma gently_put s id inner t outer t' k :
  findTxn id (txns s) = Some (inner, t, outer) → txn_id t' = txn_id t → mConsistency t' = mConsistency t → (nextImpl s <= k)%nat →
  gently s (mkLedger (inner ++ t' :: outer) (root s) k).
Proof.
  intros [E _]%findTxn_Some Hid Hc Hk. split; [done|]. intros n [Hn Hf]. rewrite E in Hf. split; [simpl; lia|]. cbn [txns].
  apply Forall_app in Hf as [H1 Hf]. inversion_clear Hf. apply Forall_app. split; [done|]. constructor; [by rewrite Hid, Hc|done].
Qed.
Lemma gently_tail s id inner t outer t' k :
  findTxn id (txns s) = Some (inner, t, outer) → txn_id t' = txn_id t → mConsistency t' = mConsistency t → (nextImpl s <= k)%nat →
  gently s (mkLedger (t' :: outer) (root s) k).
Proof.
  intros [E _]%findTxn_Some Hid Hc Hk. split; [done|]. intros n [Hn Hf]. rewrite E in Hf. split; [simpl; lia|]. cbn [txns].
  apply Forall_app in Hf as [_ Hf]. inversion_clear Hf. constructor; [by rewrite Hid, Hc|done].
Qed.

(** Every path through an operation. *)
Ltac paths :=
  unfold openTxn, getImpl, throwIfSealed, throwIfChild, makeSharedImpl, putTxns, modify, get, throw, mbind, M_bind, mret, M_ret;
  repeat (match goal with
          | |- context [match ?x with _ => _ end] =>
              lazymatch x with context [match _ with _ => _ end] => fail | _ => destruct x eqn:? end
          end; cbv beta iota; simplify_eq).

Lemma gentle_newLedgerTxn p b : gentle (newLedgerTxn p b).
Proof.
  intros s. unfold newLedgerTxn. paths; try done; (split; [done|]); intros n0 [Hn Hf]; (split; [simpl; lia|]); cbn [txns].
  - match goal with H : findTxn _ _ = _ |- _ => apply findTxn_Some in H as [E _] end. rewrite E in Hf. inversion_clear Hf. by repeat constructor.
  - by repeat constructor.
Qed.
Lemma gentle_destroyTxn id : gentle (destroyTxn id).
Proof.
  intros s. unfold destroyTxn, rollback. paths; try done. split; [done|]. intros n [Hn Hf]. split; [done|]. cbn [txns].
  match goal with H : findTxn _ _ = _ |- _ => apply findTxn_Some in H as [E _] end. rewrite E in Hf. apply Forall_app in Hf as [_ Hf]. by inversion_clear Hf.
Qed.
Lemma gentle_deactivateKey id k : gentle (deactivateKey id k).
Proof. intros s. unfold deactivateKey. paths; try done. by eapply gently_put. Qed.
Lemma gentle_deactivateHeader id : gentle (deactivateHeader id).
Proof. intros s. unfold deactivateHeader. paths; try done. by eapply gently_put. Qed.
Lemma gentle_load id k : gentle (LedgerTxn.load id k).
Proof. intros s. unfold LedgerTxn.load. paths; try done. cbn [root nextImpl txns]. eapply gently_tail; [done|done|done|lia]. Qed.
Lemma gentle_loadHeader id : gentle (loadHeader id).
Proof. intros s. unfold loadHeader. paths; try done. cbn [root nextImpl txns]. eapply gently_tail; [done|done|done|lia]. Qed.
Lemma gentle_setCurrent h e : gentle (setCurrent h e).
Proof.
  intros s. unfold setCurrent, lockHandle. destruct h as [h|]; [|done]. cbn [mbind option_bind]. paths; try done. by eapply gently_put.
Qed.
#[export] Hint Resolve gentle_newLedgerTxn gentle_destroyTxn gentle_deactivateKey gentle_deactivateHeader gentle_load gentle_loadHeader gentle_setCurrent : keeps.

Lemma gentle_current h : gentle (LedgerTxn.current h).
Proof. unfold LedgerTxn.current. keep. Qed.
#[export] Hint Resolve gentle_current : keeps.
Lemma gentle_destroyEntry h : gentle (destroyEntry h).
Proof. unfold destroyEntry, deactivate. keep. Qed.
Lemma gentle_destroyHeader h : gentle (destroyHeader h).
Proof. unfold destroyHeader. keep. Qed.
Lemma gentle_headerCurrent h : gentle (headerCurrent h).
Proof. unfold headerCurrent. keep. Qed.
#[export] Hint Resolve gentle_destroyEntry gentle_destroyHeader gentle_headerCurrent : keeps.
Lemma gentle_withEntry {A} h (m : option Handle → M Ledger A) : (∀ h, gentle (m h)) → gentle (withEntry h m).
Proof. intros Hm. unfold withEntry. keep. Qed.
Lemma gentle_withHeader {A} id (m : LedgerTxnHeader → M Ledger A) : (∀ h, gentle (m h)) → gentle (withHeader id m).
Proof. intros Hm. unfold withHeader. keep. Qed.
Lemma gentle_withTxn {A} id (m : nat → M Ledger A) : (∀ h, gentle (m h)) → gentle (withTxn id m).
Proof. intros Hm. unfold withTxn. keep. Qed.
#[export] Hint Resolve gentle_withEntry gentle_withHeader gentle_withTxn : keeps.

Lemma gentle_available lh e : gentle (getAvailableBalance lh e).
Proof. unfold getAvailableBalance, getSellingLiabilities, wrongUnion. keep. Qed.
Lemma gentle_currentAccount h : gentle (currentAccount h).
Proof. unfold currentAccount, account, wrongUnion. keep. Qed.
Lemma gentle_loadAccount id h a : gentle (tx_loadAccount id h a).
Proof. unfold tx_loadAccount, loadAccount. keep. Qed.
Lemma gentle_active h : gentle (active h).
Proof. unfold active. keep. Qed.
Lemma gentle_headerOf id : gentle (headerOf id).
Proof. unfold headerOf. keep. Qed.
#[export] Hint Resolve gentle_available gentle_currentAccount gentle_loadAccount gentle_active gentle_headerOf : keeps.

Section Keeps.
Context `{HashOrder} `{Crypto} (env : TransactionEnvelope) (contentsHash : Z).

Lemma gentle_preSeqNum id : gentle (commonValidPreSeqNum env id).
Proof. unfold commonValidPreSeqNum, tx_loadSourceAccount. keep. Qed.
#[local] Hint Resolve gentle_preSeqNum : keeps.
Lemma gentle_commonValid c id cur b : gentle (commonValid env contentsHash c id cur b).
Proof. unfold commonValid, tx_loadSourceAccount, readEntry, underHeader. keep. Qed.
Lemma gentle_opSignature op c id b : gentle (op_checkSignature env contentsHash op c id b).
Proof. unfold op_checkSignature, loadSourceAccount. keep. Qed.
#[local] Hint Resolve gentle_commonValid gentle_opSignature : keeps.
Lemma gentle_opCheckValid op c id b : gentle (op_checkValid env contentsHash op c id b).
Proof. unfold op_checkValid, loadSourceAccount. keep. Qed.
#[local] Hint Resolve gentle_opCheckValid : keeps.
Lemma gentle_checkValidOps ops i id c r : gentle (checkValidOps env contentsHash ops i id c r).
Proof.
  revert i c r. induction ops as [|op ops IH]; intros i c r; cbn [checkValidOps]; unfold setResult, markResultFailed, resultsOf, wrongUnion; keep.
Qed.
#[local] Hint Resolve gentle_checkValidOps : keeps.
Lemma gentle_checkValid id cur : gentle (checkValid env contentsHash id cur).
Proof. unfold checkValid. keep. Qed.

(** What [TransactionFrame::apply] does before the operations. *)
Lemma gentle_onEntry {A} h (f : M LedgerEntry A) : gentle (onEntry h f).
Proof. unfold onEntry. keep. Qed.
Lemma gentle_modifyAccount h f : gentle (modifyAccount h f).
Proof. unfold modifyAccount, account, wrongUnion. keep. Qed.
#[local] Hint Resolve gentle_onEntry gentle_modifyAccount : keeps.
Lemma gentle_processSeqNum id : gentle (processSeqNum env id).
Proof. unfold processSeqNum, tx_loadSourceAccount. keep. Qed.
Lemma gentle_removeSignerKeys header h keys : gentle (removeSignerKeys header h keys).
Proof.
  induction keys as [|k keys IH]; cbn [removeSignerKeys]; unfold removeAccountSigner, entry_addNumEntries, underHeader, assert_; keep.
Qed.
#[local] Hint Resolve gentle_removeSignerKeys : keeps.
Lemma gentle_removeUsed used id : gentle (removeUsedOneTimeSignerKeys used id).
Proof.
  induction used as [|[a keys] used IH]; cbn [removeUsedOneTimeSignerKeys]; unfold loadAccount, normalizeSigners; keep.
Qed.
Lemma gentle_checkSignatures ops i id b c r : gentle (checkSignatures env contentsHash ops i id b c r).
Proof. revert i b c r. induction ops as [|op ops IH]; intros i b c r; cbn [checkSignatures]; unfold setResult; keep. Qed.
#[local] Hint Resolve gentle_removeUsed gentle_checkSignatures : keeps.
Lemma gentle_processSignatures c id r : gentle (processSignatures env contentsHash c id r).
Proof. unfold processSignatures, markResultFailed, resultsOf, wrongUnion. keep. Qed.
End Keeps.
#[export] Hint Resolve gentle_checkValid gentle_commonValid gentle_processSeqNum gentle_processSignatures : keeps.
