(* ===== verification/TxSpec.v ===== *)
(** * What transactions keep

    Operations and transactions of version 11 and later on a valid ledger: no assertion fails, and
    lumens are neither made nor lost. *)
From stdpp Require Import base list gmap strings.
From Stdlib Require Import ZArith Lia.
From S2P Require Import Prelude UInt128 Numeric Exchange LedgerEntries Balances BalancesSpec LedgerTxn LedgerTxnSpec LedgerOffers TrustLines LedgerLogic CrossOffers CrossOffersSpec BookSpec OpTypes RunLogic Lumens OpSteps Operations AccountOps OfferOps OpSpec OfferSpec Signatures Transactions.

(** ** Operations *)

(** The widths that the data of an operation have. *)
Definition int64 (x : Z) : Prop := - 2 ^ 63 <= x <= INT64_MAX.
Definition typedPrice (p : Price) : Prop := - 2 ^ 31 <= price_n p < 2 ^ 31 ∧ - 2 ^ 31 <= price_d p < 2 ^ 31.
Definition typedOp (b : OperationBody) : Prop :=
  match b with
  | CREATE_ACCOUNT op => int64 (startingBalance op)
  | PAYMENT op => int64 (pay_amount op)
  | PATH_PAYMENT op => int64 (destAmount op) ∧ int64 (sendMax op)
  | MANAGE_SELL_OFFER op => int64 (ms_amount op) ∧ typedPrice (ms_price op)
  | CREATE_PASSIVE_SELL_OFFER op => int64 (cp_amount op) ∧ typedPrice (cp_price op)
  | MANAGE_BUY_OFFER op => int64 (mb_buyAmount op) ∧ typedPrice (mb_price op)
  | CHANGE_TRUST op => int64 (ct_limit op)
  | _ => True
  end.

(** The ledger that operations expect: valid entries, distinct offers, a total of lumens and a number
    of offers that stay below the largest integer, and enough fuel for the book. *)
Definition opReady (fuel : nat) (lh : LedgerHeader) (D : Entries) : Prop :=
  modern lh ∧ 11 <= ledgerVersion lh ∧ Valid lh D ∧ idsOk lh D ∧ 0 <= idPool lh < INT64_MAX ∧
  lumens D + baseReserve lh <= INT64_MAX ∧ (size (offersIn D) < fuel)%nat.

Lemma frame_checked f v :
  (manageOffer_doCheckValid f v).1 = true → int64 (frameAmount f) → typedPrice (mPrice f) →
  match kind f with SellOffer _ p => p = mPrice f | BuyOffer _ p => getInversePrice p = mPrice f end → frameOk f.
Proof.
  intros Hc Ha Hp Hk. unfold manageOffer_doCheckValid, isAmountValid in Hc. destruct (_ || _) in Hc; [done|]. destruct (compareAsset _ _); [done|].
  destruct (negb (0 <=? frameAmount f) || _ || _) eqn:E; [done|]. unfold frameOk, validPrice, is_i64, is_i32, typedPrice, int64 in *.
  split; [lia|]. split; [lia|done].
Qed.

Section Operations.
Context `{HashOrder} `{Crypto} (fuel : nat) (lh : LedgerHeader) (sourceID : AccountID).

Lemma run_conserved id os D (m : M Ledger (bool * OperationResult)) :
  idsOk lh D → run id os D lh m (ifOk (conserves lh D)) → run id os D lh m (ifOk (settlesTo lh D)).
Proof. intros Hids Hr. eapply run_mono; [exact Hr|]. intros r D' lh' HD Hok. destruct (HD Hok) as [-> Hst]. by apply stepped_settles. Qed.

Lemma run_doApply id os D b :
  opReady fuel lh D → typedOp b → (doCheckValid sourceID b (ledgerVersion lh)).1 = true →
  run id os D lh (doApply fuel sourceID b id) (ifOk (settlesTo lh D)).
Proof.
  intros (Hm & Hv & HV & Hids & Hpool & Hl & Hf) Ht Hc. unfold typedOp, int64 in Ht. destruct b; simpl in Hc |- *.
  4,5,13: apply run_manageOffer; try done; eapply frame_checked; [exact Hc|unfold frameAmount, int64; simpl; lia| |done];
    unfold typedPrice in *; simpl; lia.
  all: apply run_conserved; [done|].
  - apply run_createAccount; [done..|]. unfold createAccount_doCheckValid in Hc. destruct (_ <=? 0) eqn:E; [done|]. lia.
  - apply run_payment; try done. lia.
  - eapply run_mono; [apply run_pathPayment; try done|]. 2: { intros r D' lh' Hr Hok. by apply Hr. }
    unfold pathPayment_doCheckValid in Hc. destruct ((destAmount op <=? 0) || _) eqn:E; [done|]. lia.
  - by apply run_setOptions.
  - apply run_changeTrust; try done. unfold changeTrust_doCheckValid in Hc. destruct (ct_limit op <? 0) eqn:E; [done|]. lia.
  - by apply run_allowTrust.
  - apply run_merge; try done. unfold merge_doCheckValid in Hc. by destruct (decide _).
  - by apply run_inflation.
  - by apply run_manageData.
  - by apply run_bumpSequence.
Qed.
End Operations.

(** ** On ledgers *)

(** The header that the innermost transaction shows. *)
Definition shownHeader (s : Ledger) : LedgerHeader := match txns s with t :: _ => mHeader t | [] => rootHeader (root s) end.

(** The same transactions are open. *)
Definition sameOpen (s s' : Ledger) : Prop := txn_id <$> txns s' = txn_id <$> txns s.

(** A program on a reachable ledger, from what [run] says of it. *)
Lemma run_ledger `{HashOrder} {A} s t outer (m : M Ledger A) Q :
  ledgerReachable s → txns s = t :: outer → mIsSealed t = false →
  run (txn_id t) (viewsOf (root s) outer) (shown s) (shownHeader s) m Q →
  match m s with
  | Ok a s' => sameOpen s s' ∧ Q a (shown s') (shownHeader s')
  | Throw _ s' => sameOpen s s'
  | Crash _ _ | NoFuel => False
  end.
Proof.
  intros Hr Hl Hs Hm. apply reachable_ok in Hr as Hok.
  assert (Hv : views s = viewOf (root s) t outer :: viewsOf (root s) outer) by (unfold views; by rewrite Hl).
  assert (Hsame : ∀ s' W, views s' = W :: viewsOf (root s) outer → v_id W = txn_id t →
    sameOpen s s' ∧ shown s' = v_data W ∧ shownHeader s' = v_header W).
  { intros s' W Hv' Hid. destruct (views_cons _ _ _ Hv') as (t' & outer' & Hl' & E1 & E2). split.
    - unfold sameOpen. rewrite <- (viewsOf_ids (root s') (txns s')). fold (views s'). by rewrite Hv', Hl, !fmap_cons, viewsOf_ids, Hid.
    - unfold shown, shownHeader. by rewrite Hl', E1. }
  specialize (Hm (viewOf (root s) t outer) eq_refl Hs). unfold shown, shownHeader in Hm. rewrite Hl in Hm.
  specialize (Hm eq_refl eq_refl s Hok Hv). destruct (m s) as [a s'|w s'| |]; try done; destruct Hm as [_ Hx].
  - destruct Hx as (W & Hv' & Hid & _ & HQ). destruct (Hsame s' W Hv' Hid) as (? & -> & ->). done.
  - destruct Hx as (W & Hv' & Hid). by apply (Hsame s' W).
Qed.

(** C6: every operation, on a valid ledger of version 11 or later and after [doCheckValid], returns or
    throws, with the same transactions open: no assertion fails and the loops over the book end. If it
    succeeds, then the entries are valid (balances, limits, liabilities and reserves are within their
    bounds), the sum of the native balances of all accounts is exactly what it was, the identities of
    offers are distinct and were given out, and of the header at most the counter of identities moved
    by one. *)
Theorem operations_conserve_lumens `{HashOrder} s t outer fuel sourceID b :
  ledgerReachable s → txns s = t :: outer → mIsSealed t = false →
  opReady fuel (shownHeader s) (shown s) → typedOp b →
  (doCheckValid sourceID b (ledgerVersion (shownHeader s))).1 = true →
  match doApply fuel sourceID b (txn_id t) s with
  | Ok (ok, _) s' => sameOpen s s' ∧ (ok = true → settlesTo (shownHeader s) (shown s) (shown s') (shownHeader s'))
  | Throw _ s' => sameOpen s s'
  | Crash _ _ | NoFuel => False
  end.
Proof.
  intros Hr Hl Hs Hready Ht Hc.
  pose proof (run_ledger s t outer _ _ Hr Hl Hs (run_doApply fuel (shownHeader s) sourceID _ _ _ b Hready Ht Hc)) as Hx.
  by destruct (doApply _ _ _ _ s) as [[ok r] s'|w s'| |].
Qed.

(** ** An example *)

(** The account 5 pays 150 stroops to the account 8 with the credit of the account 9, through the two
    offers of the account 7. *)
Definition opHeader : LedgerHeader := mkHeader 11 5 0 0 0 2 100 5000000 100 0.
Definition opEntries : list (LedgerKey * EntryData) :=
  bookEntries ++
  [(ACCOUNT 5, Account (mkAccount 5 100000000 3 1 None 0 [] [1; 0; 0; 0] [] None));
   (TRUSTLINE 5 bookCredit, TrustLine (mkTrustLine 5 bookCredit 500 10000 1 None));
   (ACCOUNT 8, Account (mkAccount 8 20000000 0 0 None 0 [] [1; 0; 0; 0] [] None));
   (ACCOUNT 9, Account (mkAccount 9 20000000 0 0 None 0 [] [1; 0; 0; 0] [] None))].
Definition opRoot : LedgerTxnRoot := mkRoot opHeader (list_to_map (prod_map id (mkEntry 0) <$> opEntries)).
Definition opLedger : Ledger := stateAfter (runOp (NewTxn None true) (mkLedger [] opRoot 0)).
Definition opTop : LedgerTxn := default (mkTxn 0 opHeader None ∅ ∅ false false EXACT) (head (txns opLedger)).
Definition opPayment : OperationBody := PATH_PAYMENT (mkPathPayment bookCredit 500 8 ASSET_TYPE_NATIVE 150 []).

Lemma opLedger_top : txns opLedger = [opTop].
Proof. vm_compute. reflexivity. Qed.
Lemma opTop_open : mIsSealed opTop = false ∧ txn_id opTop = 0%nat.
Proof. vm_compute. done. Qed.

Lemma opEntries_ok : Forall (λ kd, dataKeyOf kd.2 = kd.1 ∧ dataOk opHeader kd.2) opEntries.
Proof. repeat constructor; simpl; unfold subEntriesOk, is_i64; vm_compute; intuition congruence. Qed.
Lemma opLedger_shown : shown opLedger = list_to_map opEntries.
Proof. apply (bool_decide_eq_true_1 _). vm_compute. reflexivity. Qed.
Lemma opLedger_reachable : ledgerReachable opLedger.
Proof. apply opened_reachable. vm_compute. reflexivity. Qed.

(** The offers of a list of entries. *)
Lemma idsOk_list lh l :
  (∀ k o, (k, Offer o) ∈ l → 0 < oe_offerID o <= idPool lh) →
  (∀ k k' o o', (k, Offer o) ∈ l → (k', Offer o') ∈ l → oe_offerID o = oe_offerID o' → k = k') → idsOk lh (list_to_map l).
Proof. intros H1 H2. split; [intros k o Ho%elem_of_list_to_map_2; by eapply H1|]. intros k k' o o' Ho%elem_of_list_to_map_2 Ho'%elem_of_list_to_map_2. by eapply H2. Qed.
Lemma opOffers k o : (k, Offer o) ∈ opEntries → (k = OFFER 7 1 ∧ oe_offerID o = 1) ∨ (k = OFFER 7 2 ∧ oe_offerID o = 2).
Proof.
  intros Hin. unfold opEntries, bookEntries in Hin. rewrite elem_of_app in Hin. repeat (rewrite elem_of_cons in Hin || rewrite elem_of_nil in Hin).
  naive_solver.
Qed.

Lemma opLedger_ready : opReady 10 (shownHeader opLedger) (shown opLedger).
Proof.
  rewrite opLedger_shown. split; [by vm_compute|]. split; [by vm_compute|]. split; [apply Valid_list, opEntries_ok|]. split.
  { apply idsOk_list.
    - intros k o [[_ ->]|[_ ->]]%opOffers; by vm_compute.
    - intros k k' o o' [[-> E]|[-> E]]%opOffers [[-> E']|[-> E']]%opOffers; rewrite E, E'; done. }
  split; [by vm_compute|]. split; [by vm_compute|]. apply Nat.ltb_lt. vm_compute. reflexivity.
Qed.

Lemma operations_conserve_lumens_witness :
  ∃ r s', doApply 10 5 opPayment 0 opLedger = Ok (true, r) s' ∧
    holding (shown s') 5 bookCredit = Some 187 ∧ holding (shown s') 8 ASSET_TYPE_NATIVE = Some 20000150 ∧
    settlesTo (shownHeader opLedger) (shown opLedger) (shown s') (shownHeader s').
Proof.
  pose proof (operations_conserve_lumens opLedger opTop [] 10 5 opPayment opLedger_reachable
    opLedger_top (proj1 opTop_open) opLedger_ready
    ltac:(vm_compute; intuition congruence) ltac:(vm_compute; reflexivity)) as Hc.
  rewrite (proj2 opTop_open) in Hc.
  assert (E : match doApply 10 5 opPayment 0 opLedger with
              | Ok (true, _) s' => bool_decide (holding (shown s') 5 bookCredit = Some 187) &&
                                   bool_decide (holding (shown s') 8 ASSET_TYPE_NATIVE = Some 20000150)
              | _ => false end = true) by (vm_compute; reflexivity).
  destruct (doApply 10 5 opPayment 0 opLedger) as [[[] r] s'| | |]; try done. exists r, s'. split; [done|].
  apply andb_prop in E as [E1 E2]. apply bool_decide_eq_true_1 in E1, E2. split; [done|]. split; [done|]. by apply Hc.
Defined.
