(* ===== verification/OpExact.v ===== *)
(** * What direct operations do

    Operations that touch no offer (creating, paying and merging accounts, sequence numbers, data) as
    functions of the entries: [directOutcome] says what they answer and what they leave, on every branch,
    and [direct_operations_exact] that the code does that, without an exception, through its handles and
    nested transactions. *)
From stdpp Require Import base list gmap strings.
From Stdlib Require Import ZArith Lia.
From S2P Require Import Prelude UInt128 Numeric Exchange LedgerEntries Balances BalancesSpec LedgerTxn LedgerTxnSpec LedgerOffers TrustLines LedgerLogic CrossOffers CrossOffersSpec BookSpec OpTypes RunLogic ExactLogic Lumens OpSteps Operations AccountOps OfferOps OpSpec OfferSpec Signatures Transactions TxSpec.

(** ** The specification *)

Definition accountAt (D : Entries) (a : AccountID) : option AccountEntry :=
  match D !! ACCOUNT a with Some (Account acc) => Some acc | _ => None end.
Definition putAccount (acc : AccountEntry) (D : Entries) : Entries := <[ACCOUNT (acc_accountID acc) := Account acc]> D.

(** What is left of the balance above the reserve and what the offers sell; what an account can still
    receive. *)
Definition spendable (lh : LedgerHeader) (acc : AccountEntry) : Z :=
  acc_balance acc - getMinBalance lh (acc_numSubEntries acc) - selling_ (extV1 (acc_ext acc)).
Definition room (acc : AccountEntry) : Z := INT64_MAX - acc_balance acc - buying_ (extV1 (acc_ext acc)).
Definition paid (x : Z) (acc : AccountEntry) : AccountEntry := acc_setBalance (acc_balance acc + x) acc.

(** The first sequence number of accounts that are created now. *)
Definition firstSeqNum (lh : LedgerHeader) : Z := s64 (getStartingSequenceNumber lh).

Section Outcomes.
Context (lh : LedgerHeader) (D : Entries) (src : AccountEntry).

(** Whether the operation succeeds, its result, and the entries afterwards. *)
Definition Outcome : Type := bool * OperationResult * Entries.
Definition answers (ok : bool) (r : OperationResultTr) (D' : Entries) : Outcome := (ok, opINNER r, D').

Definition createOutcome (op : CreateAccountOp) : Outcome :=
  match D !! ACCOUNT (ca_destination op) with
  | Some _ => answers false (createAccountResult CREATE_ACCOUNT_ALREADY_EXIST) D
  | None =>
    if startingBalance op <? 2 * baseReserve lh then answers false (createAccountResult CREATE_ACCOUNT_LOW_RESERVE) D
    else if spendable lh src <? startingBalance op then answers false (createAccountResult CREATE_ACCOUNT_UNDERFUNDED) D
    else answers true (createAccountResult CREATE_ACCOUNT_SUCCESS)
          (<[ACCOUNT (ca_destination op) := data (newAccount (ca_destination op) (startingBalance op) (firstSeqNum lh))]>
            (putAccount (paid (- startingBalance op) src) D))
  end.

(** A payment of lumens: the destination is credited before the source is found to have too little. *)
Definition paymentOutcome (op : PaymentOp) : Outcome :=
  if decide (pay_destination op = acc_accountID src) then answers true (paymentResult PAYMENT_SUCCESS) D
  else
    match accountAt D (pay_destination op) with
    | None => answers false (paymentResult PAYMENT_NO_DESTINATION) D
    | Some dest =>
      if room dest <? pay_amount op then answers false (paymentResult PAYMENT_LINE_FULL) D
      else
        let D1 := putAccount (paid (pay_amount op) dest) D in
        if spendable lh src <? pay_amount op then answers false (paymentResult PAYMENT_UNDERFUNDED) D1
        else answers true (paymentResult PAYMENT_SUCCESS) (putAccount (paid (- pay_amount op) src) D1)
    end.

Definition mergeOutcome (destination : AccountID) : Outcome :=
  match accountAt D destination with
  | None => answers false (accountMergeResult ACCOUNT_MERGE_NO_ACCOUNT) D
  | Some dest =>
    if negb (Z.land (acc_flags src) AUTH_IMMUTABLE_FLAG =? 0) then answers false (accountMergeResult ACCOUNT_MERGE_IMMUTABLE_SET) D
    else if negb (acc_numSubEntries src =? Z.of_nat (length (acc_signers src)))
    then answers false (accountMergeResult ACCOUNT_MERGE_HAS_SUB_ENTRIES) D
    else if firstSeqNum lh <=? acc_seqNum src then answers false (accountMergeResult ACCOUNT_MERGE_SEQNUM_TOO_FAR) D
    else if room dest <? acc_balance src then answers false (accountMergeResult ACCOUNT_MERGE_DEST_FULL) D
    else answers true (accountMergeResult (ACCOUNT_MERGE_SUCCESS (acc_balance src)))
          (delete (ACCOUNT (acc_accountID src)) (putAccount (paid (acc_balance src) dest) D))
  end.

Definition bumpOutcome (op : BumpSequenceOp) : Outcome :=
  answers true (bumpSeqResult BUMP_SEQUENCE_SUCCESS)
    (if acc_seqNum src <? bumpTo op then putAccount (acc_setSeqNum (bumpTo op) src) D else D).

(** Room for one more subentry, from version 11 on. *)
Definition subentryAdded : AddSubentryResult :=
  if 1000 <=? acc_numSubEntries src then TOO_MANY_SUBENTRIES
  else if acc_balance src - selling_ (extV1 (acc_ext src)) <? (3 + acc_numSubEntries src) * baseReserve lh then LOW_RESERVE
  else SUCCESS.
Definition countedEntries (n : Z) : AccountEntry := acc_setNumSubEntries (acc_numSubEntries src + n) src.

(** What an operation does that needs one more subentry. *)
Definition withEntryAdded (lowReserve : OperationResultTr) (k : Entries → Outcome) : Outcome :=
  match subentryAdded with
  | TOO_MANY_SUBENTRIES => (false, opTOO_MANY_SUBENTRIES, D)
  | LOW_RESERVE => answers false lowReserve D
  | SUCCESS => k (putAccount (countedEntries 1) D)
  end.

(** Data entries; nothing is said of an account that has a data entry and counts no subentries. *)
Definition dataOutcome (op : ManageDataOp) : option Outcome :=
  let k := DATA (acc_accountID src) (md_dataName op) in
  let put value := <[k := Data (mkData (acc_accountID src) (md_dataName op) value)]> in
  match D !! k, md_dataValue op with
  | None, Some value =>
    Some (withEntryAdded (manageDataResult MANAGE_DATA_LOW_RESERVE) (λ D', answers true (manageDataResult MANAGE_DATA_SUCCESS) (put value D')))
  | Some _, Some value => Some (answers true (manageDataResult MANAGE_DATA_SUCCESS) (put value D))
  | None, None => Some (answers false (manageDataResult MANAGE_DATA_NAME_NOT_FOUND) D)
  | Some _, None =>
    if acc_numSubEntries src <=? 0 then None
    else Some (answers true (manageDataResult MANAGE_DATA_SUCCESS) (putAccount (countedEntries (-1)) (delete k D)))
  end.

(** Trust lines; nothing is said of an account that has a trust line and counts no subentries. *)
Definition trustOutcome (op : ChangeTrustOp) : option Outcome :=
  let k := TRUSTLINE (acc_accountID src) (ct_line op) in
  issuerID ← getIssuer (ct_line op);
  if decide (issuerID = acc_accountID src) then Some (answers false (changeTrustResult CHANGE_TRUST_SELF_NOT_ALLOWED) D)
  else
    match D !! k with
    | Some (TrustLine t) =>
      if ct_limit op <? tl_balance t + buying_ (extV1 (tl_ext t)) then Some (answers false (changeTrustResult CHANGE_TRUST_INVALID_LIMIT) D)
      else if ct_limit op =? 0 then
        if acc_numSubEntries src <=? 0 then None
        else Some (answers true (changeTrustResult CHANGE_TRUST_SUCCESS) (putAccount (countedEntries (-1)) (delete k D)))
      else
        Some match accountAt D issuerID with
             | None => answers false (changeTrustResult CHANGE_TRUST_NO_ISSUER) D
             | Some _ => answers true (changeTrustResult CHANGE_TRUST_SUCCESS) (<[k := TrustLine (tl_setLimit (ct_limit op) t)]> D)
             end
    | _ =>
      if ct_limit op =? 0 then Some (answers false (changeTrustResult CHANGE_TRUST_INVALID_LIMIT) D)
      else
        Some match accountAt D issuerID with
             | None => answers false (changeTrustResult CHANGE_TRUST_NO_ISSUER) D
             | Some issuer =>
               let flags := if Z.land (acc_flags issuer) AUTH_REQUIRED_FLAG =? 0 then AUTHORIZED_FLAG else 0 in
               withEntryAdded (changeTrustResult CHANGE_TRUST_LOW_RESERVE) (λ D',
                 answers true (changeTrustResult CHANGE_TRUST_SUCCESS)
                   (<[k := data (newTrustLine (acc_accountID src) (ct_line op) (ct_limit op) flags)]> D'))
             end
    end.

(** The operations that touch no offer, and payments of lumens. *)
Definition directOutcome (b : OperationBody) : option Outcome :=
  match b with
  | CREATE_ACCOUNT op => Some (createOutcome op)
  | PAYMENT op => if isNative (pay_asset op) then Some (paymentOutcome op) else None
  | CHANGE_TRUST op => trustOutcome op
  | ACCOUNT_MERGE destination => Some (mergeOutcome destination)
  | INFLATION => Some (answers true inflationResult D)
  | MANAGE_DATA op => dataOutcome op
  | BUMP_SEQUENCE op => Some (bumpOutcome op)
  | _ => None
  end.
End Outcomes.

(** ** Automation *)

(** One step through a program that returns. *)
Ltac tstep :=
  cbv beta; cbn [negb];
  lazymatch goal with
  | |- tidy _ _ _ _ _ _ (mbind _ _) _ => apply tidy_bind
  | |- tidy _ _ _ _ _ _ (mret _) _ => apply tidy_ret
  | |- tidy _ _ _ _ _ _ (done_ _ _) _ => apply tidy_ret
  | |- tidy _ _ _ _ _ _ (pathFail _) _ => apply tidy_ret
  | |- tidy _ _ _ _ _ _ (withHeader _ _) _ => apply tidy_withHeader; [done|]; intros ?
  | |- tidy _ _ _ _ _ _ (headerCurrent _) _ => apply tidy_headerCurrent; [done|]
  | |- tidy _ _ _ _ _ _ (headerOf _) _ => apply tidy_headerOf; [done|]
  | |- tidy _ _ _ _ _ _ (active _) _ => apply tidy_active; cbn [h_txn h_key h_impl]; rewrite ?lookup_insert_eq, ?bool_decide_true by done
  | |- tidy _ _ _ _ _ _ (let _ := _ in _) _ => cbv zeta
  end; cbv beta; cbn [negb].

Section Exact.
Context `{HashOrder} (id : nat) (os : list View) (lh : LedgerHeader) (Hm : modern lh) (Hv11 : 11 <= ledgerVersion lh).

Lemma accountAt_Some D a acc : Valid lh D → accountAt D a = Some acc →
  D !! ACCOUNT a = Some (Account acc) ∧ a = acc_accountID acc ∧ amountsOk lh (mkEntry 0 (Account acc)).
Proof.
  intros HV. unfold accountAt. destruct (D !! ACCOUNT a) as [[acc'| | |]|] eqn:E; try done. intros [= ->].
  destruct (HV _ _ E) as [Hk Ha]. injection Hk as <-. done.
Qed.
Lemma accountAt_None D a : Valid lh D → accountAt D a = None → D !! ACCOUNT a = None.
Proof.
  intros HV. unfold accountAt. destruct (D !! ACCOUNT a) as [d|] eqn:E; [|done]. destruct (HV _ _ E) as [Hk _]. by destruct d.
Qed.

Lemma minBalance_exact n : subEntriesOk n → getMinBalance lh n = (2 + n) * baseReserve lh.
Proof. intros Hn. destruct Hm. apply getMinBalance_exact; [done|done|lia]. Qed.

(** [addBalance] on the account behind a handle. *)
Lemma tidy_addBalance D act hact k n m acc x Q :
  hact = Some m → act !! k = Some (MutableImpl n) → D !! k = Some (Account acc) → k = ACCOUNT (acc_accountID acc) →
  amountsOk lh (mkEntry 0 (Account acc)) → - 2 ^ 63 <= x <= INT64_MAX →
  (if (0 <=? x) then x <=? room acc else - x <=? spendable lh acc) = true ∧ Q true (<[k := Account (paid x acc)]> D) lh ∨
  (if (0 <=? x) then x <=? room acc else - x <=? spendable lh acc) = false ∧ Q false D lh →
  tidy id os D lh act hact (entry_addBalance (id, m) (Some (mkHandle id k n)) x) Q.
Proof.
  intros Hh Ha Hd Hk Hok Hx HQ. unfold entry_addBalance, underHeader. tstep. tstep. apply tidy_onEntry with (Account acc); [done..|]. intros lm.
  destruct (amountsOk_iff lh (proj1 Hm) (mkEntry lm (Account acc)) eq_refl Hok) as (Hb & _ & Hf & Hl). specialize (Hl (proj2 Hm)).
  rewrite (addBalance_eq lh (proj1 Hm)) by done. unfold room, spendable, mayMove, balanceOf, floorOf, ceilingOf, liabilitiesOf, authorized in *. cbn [data andb] in *.
  rewrite (proj2 (Z.leb_le 10 _)) by lia. destruct (Z.eqb_spec x 0) as [->|Hx0].
  - exists true, (Account acc). split; [done|]. split; [done|]. destruct HQ as [[_ HQ]|[Hc _]]; [|cbn [Z.leb Z.compare] in Hc; lia].
    replace (paid 0 acc) with acc in HQ; [done|]. unfold paid, acc_setBalance. rewrite Z.add_0_r. by destruct acc.
  - destruct HQ as [[Hc HQ]|[Hc HQ]].
    + assert ((0 <=? acc_balance acc + x) && (acc_balance acc + x <=? INT64_MAX) && (((0 <=? x) ||
        (selling_ (extV1 (acc_ext acc)) <=? acc_balance acc + x - getMinBalance lh (acc_numSubEntries acc))) &&
        (acc_balance acc + x + buying_ (extV1 (acc_ext acc)) <=? INT64_MAX)) = true) as -> by (destruct (0 <=? x) eqn:E; lia).
      exists true, (Account (paid x acc)). done.
    + assert ((0 <=? acc_balance acc + x) && (acc_balance acc + x <=? INT64_MAX) && (((0 <=? x) ||
        (selling_ (extV1 (acc_ext acc)) <=? acc_balance acc + x - getMinBalance lh (acc_numSubEntries acc))) &&
        (acc_balance acc + x + buying_ (extV1 (acc_ext acc)) <=? INT64_MAX)) = false) as -> by (destruct (0 <=? x) eqn:E; lia).
      exists false, (Account acc). split; [done|]. split; [done|]. by rewrite insert_id.
Qed.

Lemma tidy_credit D act hact k n m acc x Q :
  hact = Some m → act !! k = Some (MutableImpl n) → D !! k = Some (Account acc) → k = ACCOUNT (acc_accountID acc) →
  amountsOk lh (mkEntry 0 (Account acc)) → 0 <= x <= INT64_MAX →
  (room acc < x → Q false D lh) → (x <= room acc → Q true (<[k := Account (paid x acc)]> D) lh) →
  tidy id os D lh act hact (entry_addBalance (id, m) (Some (mkHandle id k n)) x) Q.
Proof.
  intros Hh Ha Hd Hk Hok Hx HF HT. apply tidy_addBalance with acc; try done; [lia|]. rewrite (proj2 (Z.leb_le 0 x)) by lia.
  destruct (Z.leb_spec x (room acc)); [left|right]; auto.
Qed.

Lemma tidy_debit D act hact k n m acc x Q :
  hact = Some m → act !! k = Some (MutableImpl n) → D !! k = Some (Account acc) → k = ACCOUNT (acc_accountID acc) →
  amountsOk lh (mkEntry 0 (Account acc)) → 0 < x <= INT64_MAX → x <= spendable lh acc →
  Q true (<[k := Account (paid (- x) acc)]> D) lh →
  tidy id os D lh act hact (entry_addBalance (id, m) (Some (mkHandle id k n)) (- x)) Q.
Proof.
  intros Hh Ha Hd Hk Hok Hx Hs HT. apply tidy_addBalance with acc; try done; [unfold INT64_MAX in *; lia|]. left. split; [|done].
  rewrite (proj2 (Z.leb_gt 0 (- x))) by lia. lia.
Qed.

Lemma tidy_available D act hact k n m acc Q :
  hact = Some m → act !! k = Some (MutableImpl n) → D !! k = Some (Account acc) → amountsOk lh (mkEntry 0 (Account acc)) →
  Q (spendable lh acc) D lh → tidy id os D lh act hact (readEntry getAvailableBalance (id, m) (Some (mkHandle id k n))) Q.
Proof.
  intros Hh Ha Hd Hok HQ. apply tidy_readEntry with (Account acc) (spendable lh acc); try done. intros lm s.
  rewrite (getAvailableBalance_eq lh (proj1 Hm)); [done|done|done|apply Hm].
Qed.

(** Loading an account and whether it is there. *)
Lemma tidy_loadAccount {A} D act hact a (body : option Handle → M Ledger A) Q :
  act !! ACCOUNT a = None →
  (D !! ACCOUNT a = None → tidy id os D lh act hact (body None) Q) →
  (∀ n d, D !! ACCOUNT a = Some d → tidy id os D lh (<[ACCOUNT a := MutableImpl n]> act) hact (body (Some (mkHandle id (ACCOUNT a) n))) Q) →
  tidy id os D lh act hact (h ← loadAccount id a; withEntry h body) Q.
Proof. intros Ha HN HS. apply tidy_load; [done|done|]. intros n d Hd. by eapply tidy_keeps, HS. Qed.

Lemma tidy_loadSource {A} D act hact m a acc (body : option Handle → M Ledger A) Q :
  hact = Some m → act !! ACCOUNT a = None → D !! ACCOUNT a = Some (Account acc) →
  (∀ n, tidy id os D lh (<[ACCOUNT a := MutableImpl n]> act) hact (body (Some (mkHandle id (ACCOUNT a) n))) Q) →
  tidy id os D lh act hact (h ← loadSourceAccount a id (id, m); withEntry h body) Q.
Proof.
  intros Hh Ha Hd Hb. unfold loadSourceAccount, tx_loadAccount. apply tidy_assoc. tstep. tstep. rewrite (proj2 (Z.ltb_ge _ _)) by lia.
  apply tidy_loadAccount; [done|congruence|]. intros n d _. apply Hb.
Qed.

(** The same, when the body may erase the account. *)
Lemma tidy_takeSource {A} D act hact m a acc (body : option Handle → M Ledger A) Q :
  hact = Some m → act !! ACCOUNT a = None → D !! ACCOUNT a = Some (Account acc) →
  (∀ n, sure id os D lh (<[ACCOUNT a := MutableImpl n]> act) hact (body (Some (mkHandle id (ACCOUNT a) n))) (mayErase act hact (ACCOUNT a) n Q)) →
  tidy id os D lh act hact (h ← loadSourceAccount a id (id, m); withEntry h body) Q.
Proof.
  intros Hh Ha Hd Hb. unfold loadSourceAccount, tx_loadAccount. apply tidy_assoc. tstep. tstep. rewrite (proj2 (Z.ltb_ge _ _)) by lia.
  unfold loadAccount, accountKey. apply tidy_load; [done|congruence|]. intros n d _. apply Hb.
Qed.

(** ** The operations *)

(** What an operation answers and leaves. *)
Definition yields (o : Outcome) (r : bool * OperationResult) (D' : Entries) (lh' : LedgerHeader) : Prop :=
  r = o.1 ∧ D' = o.2 ∧ lh' = lh.

Context (D : Entries) (src : AccountEntry) (HV : Valid lh D) (Hsrc : accountAt D (acc_accountID src) = Some src).

Lemma tidy_createAccount op :
  0 < startingBalance op <= INT64_MAX →
  tidy id os D lh ∅ None (createAccount_doApply (acc_accountID src) op id) (yields (createOutcome lh D src op)).
Proof.
  intros Hb. destruct (accountAt_Some _ _ _ HV Hsrc) as (Hs & _ & Hok). unfold createAccount_doApply, createOutcome.
  apply tidy_group, tidy_bind, tidy_loadAccount; [done|intros Hn; tstep|intros n d ->; by do 2 tstep]. rewrite Hn. do 3 tstep.
  rewrite minBalance_exact by done. rewrite Z.add_0_r. destruct (_ <? 2 * baseReserve lh); [by tstep|].
  rewrite (proj2 (Z.ltb_ge _ _)) by lia. do 2 tstep. apply (tidy_loadSource _ _ _ _ _ src); [done..|]. intros m. tstep.
  apply tidy_available with src; [done|by rewrite lookup_insert_eq|done|done|]. destruct (Z.ltb_spec (spendable lh src) (startingBalance op)); [by tstep|].
  tstep. apply tidy_debit with src; [done|by rewrite lookup_insert_eq|done..|]. apply tidy_assert; [done|]. do 2 tstep.
  apply tidy_group, tidy_bind, tidy_create.
  - rewrite lookup_insert_ne; [done|]. intros [= E]. simpl in E. congruence.
  - rewrite lookup_insert_ne; [done|]. intros [= E]. simpl in E. congruence.
  - intros k. by do 2 tstep.
Qed.

(** A payment of lumens to another account. *)
Lemma tidy_payDestination op dest :
  accountAt D (pp_destination op) = Some dest → isNative (destAsset op) = true → 0 < destAmount op <= INT64_MAX →
  tidy id os D lh ∅ None (payDestination op id false)
    (λ r D' lh', lh' = lh ∧ if room dest <? destAmount op then r = inl (opINNER (pathPaymentResult PATH_PAYMENT_LINE_FULL)) ∧ D' = D
                 else r = inr tt ∧ D' = putAccount (paid (destAmount op) dest) D).
Proof.
  intros Hdest Hn Hx. destruct (accountAt_Some _ _ _ HV Hdest) as (Hd & Ea & Hok). unfold payDestination. rewrite Hn.
  apply tidy_loadAccount; [done|congruence|]. intros n d Hd'. tstep. tstep.
  apply tidy_credit with dest; [done|by rewrite lookup_insert_eq|done|by rewrite Ea|done|lia|..]; intros Hr.
  - do 2 tstep. rewrite (proj2 (Z.leb_le 11 _)) by lia. tstep. rewrite (proj2 (Z.ltb_lt _ _)) by done. done.
  - tstep. rewrite (proj2 (Z.ltb_ge _ _)) by done. split; [done|]. split; [done|]. unfold putAccount. simpl. by rewrite <- Ea.
Qed.

Lemma tidy_paySource D1 op x :
  D1 !! ACCOUNT (acc_accountID src) = Some (Account src) → 0 < x <= sendMax op → sendMax op <= INT64_MAX →
  tidy id os D1 lh ∅ None (paySource (acc_accountID src) op id false true ASSET_TYPE_NATIVE x)
    (λ r D' lh', lh' = lh ∧ if spendable lh src <? x then r = inl (opINNER (pathPaymentResult PATH_PAYMENT_UNDERFUNDED)) ∧ D' = D1
                 else r = inr tt ∧ D' = putAccount (paid (- x) src) D1).
Proof.
  intros Hs Hx Hm'. destruct (accountAt_Some _ _ _ HV Hsrc) as (_ & _ & Hok). unfold paySource. rewrite (proj2 (Z.ltb_ge (sendMax op) x)) by lia.
  cbn [isNative]. do 3 tstep. rewrite (proj2 (Z.ltb_lt 7 _)) by lia. apply tidy_loadAccount; [done|congruence|]. intros m d _. do 2 tstep. cbn [negb].
  tstep. apply tidy_available with src; [done|by rewrite lookup_insert_eq|done..|].
  destruct (Z.ltb_spec (spendable lh src) x); [by tstep|]. tstep.
  apply tidy_debit with src; [done|by rewrite lookup_insert_eq|done..|lia|done|]. apply tidy_assert; [done|]. by tstep.
Qed.

Lemma tidy_payment fuel op :
  isNative (pay_asset op) = true → 0 < pay_amount op <= INT64_MAX →
  tidy id os D lh ∅ None (payment_doApply fuel (acc_accountID src) op id) (yields (paymentOutcome lh D src op)).
Proof.
  intros Hn Hx. destruct (accountAt_Some _ _ _ HV Hsrc) as (Hs & _ & Hok). unfold payment_doApply, paymentOutcome. tstep. tstep. cbv zeta.
  rewrite (proj2 (Z.ltb_lt 2 _)), Hn, andb_true_r by lia. destruct (decide (pay_destination op = acc_accountID src)) as [E|Hne].
  { rewrite bool_decide_true by done. by tstep. }
  rewrite bool_decide_false by done. destruct (pay_asset op) eqn:Easset; try done. cbn [pathPayment_doCheckValid destAmount sendMax sendAsset destAsset pp_path].
  unfold pathPayment_doCheckValid. cbn [destAmount sendMax sendAsset destAsset pp_path isAssetValid forallb negb orb].
  rewrite (proj2 (Z.leb_gt (pay_amount op) 0)) by lia. cbn [orb fst]. apply tidy_bind.
  eapply tidy_mono with (Q := λ r D' lh', lh' = lh ∧ ∃ pr, r.2 = opINNER (pathPaymentResult pr) ∧
    (r.1 = true ∧ (∃ l x, pr = PATH_PAYMENT_SUCCESS l x) ∧ paymentOutcome lh D src op = answers true (paymentResult PAYMENT_SUCCESS) D' ∨
     r.1 = false ∧ ∃ p, paymentCode pr = Some p ∧ paymentOutcome lh D src op = answers false (paymentResult p) D')).
  2: { intros [ok r] D' lh' (-> & pr & Er & Hc). simpl in Er. subst r. unfold paymentOutcome in Hc. rewrite decide_False in Hc by done.
       destruct Hc as [(Eok & (l & x & ->) & ->)|(Eok & p & Ep & ->)]; simpl in Eok; subst ok; cbn [negb].
       - apply tidy_assert; [done|]. by tstep.
       - rewrite Ep. by tstep. }
  unfold pathPayment_doApply, paymentOutcome. rewrite decide_False by done. cbn [destAsset sendAsset pp_path pp_destination destAmount isNative negb andb].
  do 3 tstep. tstep. rewrite (proj2 (Z.ltb_ge _ 8)) by lia. do 2 tstep. tstep. cbn [negb].
  apply tidy_accountExists; [done|intros d Hd; apply (HV _ _ Hd)|].
  destruct (accountAt D (pay_destination op)) as [dest|] eqn:Edest.
  2: { rewrite (accountAt_None _ _ HV Edest), bool_decide_false by (by intros []). tstep. split; [done|]. eexists. split; [done|]. right. split; [done|]. by eexists. }
  destruct (accountAt_Some _ _ _ HV Edest) as (Hd & Ea & _). rewrite bool_decide_true by (rewrite Hd; by eexists). tstep.
  eapply tidy_mono; [by apply tidy_payDestination|]. intros r D1 lh1 (-> & Hr). cbn [destAmount] in Hr.
  destruct (room dest <? pay_amount op).
  { destruct Hr as [-> ->]. tstep. split; [done|]. eexists. split; [done|]. right. split; [done|]. by eexists. }
  destruct Hr as [-> ->]. apply tidy_bind. change (reverse [ASSET_TYPE_NATIVE]) with [ASSET_TYPE_NATIVE]. cbn [pathLoop]. rewrite decide_True by done. do 2 tstep.
  eapply tidy_mono; [apply tidy_paySource; simpl; [|lia|lia]|].
  { unfold putAccount. rewrite lookup_insert_ne; [done|]. intros [= E]. simpl in E. congruence. }
  intros r D2 lh2 (-> & Hr). destruct (spendable lh src <? pay_amount op); destruct Hr as [-> ->]; tstep; (split; [done|]); eexists; (split; [done|]).
  - right. split; [done|]. by eexists.
  - left. split; [done|]. split; [by eexists _, _|done].
Qed.

Lemma tidy_merge destination :
  destination ≠ acc_accountID src →
  tidy id os D lh ∅ None (merge_doApply (acc_accountID src) destination id) (yields (mergeOutcome lh D src destination)).
Proof.
  intros Hne. destruct (accountAt_Some _ _ _ HV Hsrc) as (Hs & _ & Hok). unfold merge_doApply, mergeOutcome. tstep.
  apply tidy_loadAccount; [done|..].
  { intros Hn. unfold accountAt. rewrite Hn. do 2 tstep. by tstep. }
  intros m d Hd. destruct (HV _ _ Hd) as [Hkd Hdok]. destruct d as [dest| | |]; try done. injection Hkd as Ea. unfold accountAt. rewrite Hd.
  do 2 tstep. do 3 tstep. rewrite (proj2 (Z.ltb_ge _ 8)), andb_false_r by lia. tstep.
  apply (tidy_takeSource _ _ _ _ _ src); [done|by rewrite lookup_insert_ne by congruence|done|]. intros n2.
  assert (Hact : <[ACCOUNT (acc_accountID src) := MutableImpl n2]> (<[ACCOUNT destination := MutableImpl m]> ∅) !! ACCOUNT (acc_accountID src) = Some (MutableImpl n2))
    by by rewrite lookup_insert_eq.
  apply tidy_then, tidy_currentAccount with src; [done..|]. cbv zeta. rewrite (proj2 (Z.leb_le 8 _)), orb_true_r, (proj2 (Z.leb_le 10 _)) by lia.
  apply tidy_then. tstep. apply tidy_current with (Account src); [done..|]. intros lm. apply tidy_ret.
  destruct (negb (Z.land _ _ =? 0)); [by apply tidy_keeps; tstep|]. destruct (negb (_ =? Z.of_nat _)); [by apply tidy_keeps; tstep|].
  unfold firstSeqNum. cbn [andb]. destruct (s64 _ <=? acc_seqNum src); [by apply tidy_keeps; tstep|].
  apply tidy_then, tidy_credit with dest; [done|by rewrite lookup_insert_ne, lookup_insert_eq by congruence|done|by rewrite Ea|done| |..].
  - destruct Hok as [? _]. unfold is_i64 in *. simpl in *. lia.
  - intros Hr. apply tidy_keeps. tstep. by rewrite (proj2 (Z.ltb_lt _ _)).
  - intros Hr. cbn [negb]. apply sure_bind, sure_eraseEntry; [done|]. rewrite delete_insert_id by (by rewrite lookup_insert_ne by congruence).
    apply exec_ret. eexists _, _, _, _. split; [done|]. split; [by right|]. split; [done|]. rewrite (proj2 (Z.ltb_ge _ _)) by done.
    unfold yields, putAccount. simpl. by rewrite Ea.
Qed.

Lemma tidy_bumpSequence op :
  tidy id os D lh ∅ None (bumpSequence_doApply (acc_accountID src) op id) (yields (bumpOutcome D src op)).
Proof.
  destruct (accountAt_Some _ _ _ HV Hsrc) as (Hs & _ & _). apply tidy_withTxn; [done..|]. intros id' Hne. apply ends_withHeader; [done..|]. intros n.
  unfold loadSourceAccount, tx_loadAccount. apply ends_assoc, ends_bind, tidy_headerCurrent; [done|]. rewrite (proj2 (Z.ltb_ge _ 8)) by lia.
  apply ends_load; [done|done|unfold accountKey; congruence|]. unfold accountKey. intros m d _.
  apply ends_bind, tidy_currentAccount with src; [by rewrite lookup_insert_eq|done|]. unfold bumpOutcome. destruct (acc_seqNum src <? bumpTo op).
  - apply ends_assoc, ends_bind, tidy_modifyAccount with src; [by rewrite lookup_insert_eq|done..|]. by apply ends_commit.
  - by apply ends_bind, tidy_ret, ends_tidy, tidy_ret.
Qed.

(** ** Subentries *)

Context (Hroom : lumens D + baseReserve lh <= INT64_MAX).

Lemma src_bounds :
  is_i64 (acc_balance src) ∧ subEntriesOk (acc_numSubEntries src) ∧ acc_balance src + baseReserve lh <= INT64_MAX ∧
  0 <= selling_ (extV1 (acc_ext src)) ∧
  (selling_ (extV1 (acc_ext src)) = 0 ∨ selling_ (extV1 (acc_ext src)) <= acc_balance src - (2 + acc_numSubEntries src) * baseReserve lh).
Proof.
  destruct (accountAt_Some _ _ _ HV Hsrc) as (Hs & _ & Hok). destruct Hok as (Hb & Hn & Hl). specialize (Hl (proj2 Hm)). cbv zeta in Hl. cbn [data] in *.
  rewrite minBalance_exact in Hl by done. pose proof (balance_le_lumens lh D _ _ HV Hs). repeat split; try apply Hb; try apply Hn; lia.
Qed.

Lemma addNumEntries_plus lm :
  addNumEntries lh 1 (mkEntry lm (Account src)) =
  Ok (subentryAdded lh src) (mkEntry lm (Account (match subentryAdded lh src with SUCCESS => countedEntries src 1 | _ => src end))).
Proof.
  destruct src_bounds as (Hb & Hn & Hr & Hs0 & Hs). unfold subEntriesOk in Hn. destruct Hm as [[_ Hbr] Hv]. unfold is_u32, UINT32_MAX in Hbr.
  unfold addNumEntries, account, unsignedToSigned32, mbind, M_bind, get, mret, M_ret, modify. cbn [data].
  rewrite (proj2 (Z.ltb_ge 2147483647 _)) by lia. rewrite (s32_small (acc_numSubEntries src)), s32_small by lia. rewrite (proj2 (Z.ltb_ge (_ + 1) 0)) by lia.
  unfold FIRST_PROTOCOL_SUPPORTING_OPERATION_LIMITS, ACCOUNT_SUBENTRY_LIMIT, subentryAdded. rewrite (proj2 (Z.leb_le 11 _)) by lia. cbn [andb Z.ltb Z.compare].
  destruct (Z.leb_spec 1000 (acc_numSubEntries src)); [by rewrite (proj2 (Z.ltb_lt 1000 _)) by lia|].
  rewrite (proj2 (Z.ltb_ge 1000 _)), (proj2 (Z.leb_le 10 _)), minBalance_exact by (unfold subEntriesOk; lia).
  rewrite getSellingLiabilities_eq by done. unfold liabilitiesOf. cbn [data].
  assert (Hsum : (2 + (acc_numSubEntries src + 1)) * baseReserve lh + selling_ (extV1 (acc_ext src)) <= INT64_MAX).
  { destruct Hs as [->|Hs]; [|lia]. assert ((2 + (acc_numSubEntries src + 1)) * baseReserve lh <= 1002 * 4294967295) by (apply Z.mul_le_mono_nonneg; lia). unfold INT64_MAX. lia. }
  rewrite s64_small by (unfold INT64_MAX in *; nia).
  assert (E : (acc_balance src <? (2 + (acc_numSubEntries src + 1)) * baseReserve lh + selling_ (extV1 (acc_ext src))) =
              (acc_balance src - selling_ (extV1 (acc_ext src)) <? (3 + acc_numSubEntries src) * baseReserve lh)) by lia.
  rewrite E. by destruct (_ <? (3 + _) * _).
Qed.

Lemma addNumEntries_minus lm :
  0 < acc_numSubEntries src →
  addNumEntries lh (-1) (mkEntry lm (Account src)) = Ok SUCCESS (mkEntry lm (Account (countedEntries src (-1)))).
Proof.
  intros Hpos. destruct src_bounds as (Hb & Hn & _). unfold subEntriesOk in Hn. destruct Hm as [_ Hv].
  unfold addNumEntries, account, unsignedToSigned32, mbind, M_bind, get, mret, M_ret, modify. cbn [data].
  rewrite (proj2 (Z.ltb_ge 2147483647 _)) by lia. rewrite (s32_small (acc_numSubEntries src)), s32_small by lia. rewrite (proj2 (Z.ltb_ge (_ + -1) 0)) by lia.
  rewrite (proj2 (Z.leb_le 10 _)) by lia. cbn [Z.ltb Z.compare]. rewrite andb_false_r. cbn [andb]. by rewrite getSellingLiabilities_eq by done.
Qed.

Let sk := ACCOUNT (acc_accountID src).

Lemma tidy_addEntry D1 act hact n m Q :
  hact = Some m → act !! sk = Some (MutableImpl n) → D1 !! sk = Some (Account src) →
  match subentryAdded lh src with
  | SUCCESS => Q SUCCESS (putAccount (countedEntries src 1) D1) lh
  | r => Q r D1 lh
  end → tidy id os D1 lh act hact (entry_addNumEntries (id, m) (Some (mkHandle id sk n)) 1) Q.
Proof.
  intros Hh Ha Hs HQ. unfold entry_addNumEntries, underHeader. tstep. tstep. apply tidy_onEntry with (Account src); [done..|]. intros lm.
  rewrite addNumEntries_plus. eexists _, _. split; [done|]. split; [by destruct (subentryAdded lh src)|].
  destruct (subentryAdded lh src); [done|by rewrite insert_id..].
Qed.

(** One subentry less, in the scope of the source account. *)
Lemma tidy_dropEntry {A} D1 act n (a : A) Q :
  act !! sk = None → D1 !! sk = Some (Account src) → 0 < acc_numSubEntries src → Q a (putAccount (countedEntries src (-1)) D1) lh →
  tidy id os D1 lh act (Some n) (sourceAccount ← loadSourceAccount (acc_accountID src) id (id, n);
    withEntry sourceAccount (λ sourceAccount, entry_addNumEntries (id, n) sourceAccount (-1));; mret a) Q.
Proof.
  intros Ha Hs Hpos HQ. apply tidy_group, tidy_bind, tidy_loadSource with src; [done..|]. intros m. unfold entry_addNumEntries, underHeader. tstep. tstep.
  apply tidy_onEntry with (Account src); [by rewrite lookup_insert_eq|done|]. intros lm. rewrite addNumEntries_minus by done.
  eexists _, _. split; [done|]. split; [done|]. by tstep.
Qed.

(** An operation that needs one more subentry. *)
Lemma tidy_newSubentry D1 act n m low (body : M Ledger (bool * OperationResult)) (k : Entries → Outcome) :
  act !! sk = Some (MutableImpl m) → D1 !! sk = Some (Account src) →
  tidy id os (putAccount (countedEntries src 1) D1) lh act (Some n) body (yields (k (putAccount (countedEntries src 1) D1))) →
  tidy id os D1 lh act (Some n) (res ← entry_addNumEntries (id, n) (Some (mkHandle id sk m)) 1; withSubentry res low body)
    (yields (withEntryAdded lh D1 src low k)).
Proof.
  intros Ha Hs Hb. tstep. apply tidy_addEntry; [done..|]. unfold withEntryAdded, withSubentry. destruct (subentryAdded lh src); [done|by tstep..].
Qed.

Lemma tidy_manageData op o :
  dataOutcome lh D src op = Some o → tidy id os D lh ∅ None (manageData_doApply (acc_accountID src) op id) (yields o).
Proof.
  destruct (accountAt_Some _ _ _ HV Hsrc) as (Hs & _ & _). unfold manageData_doApply, dataOutcome, loadData, dataKey. intros Ho. do 3 tstep.
  rewrite (proj2 (Z.eqb_neq _ 3)) by lia. apply tidy_load; [done|..].
  - intros Hn. rewrite Hn in Ho. do 2 tstep. destruct (md_dataValue op) as [value|]; injection Ho as <-; [|by tstep]. cbn [negb].
    apply tidy_loadSource with src; [done..|]. intros m. apply tidy_newSubentry; [by rewrite lookup_insert_eq|done|].
    apply tidy_group, tidy_bind, tidy_create.
    + by rewrite lookup_insert_ne.
    + unfold putAccount. by rewrite lookup_insert_ne.
    + intros j. by do 2 tstep.
  - intros m d Hd. rewrite Hd in Ho. destruct (HV _ _ Hd) as [Hkd _]. destruct d as [| | |d]; try done. injection Hkd as Ea En.
    apply tidy_then. tstep. cbn [negb]. destruct (md_dataValue op) as [value|].
    + injection Ho as <-. apply tidy_keeps. unfold setDataValue. tstep. tstep. apply tidy_current with (Data d); [by rewrite lookup_insert_eq|done|]. intros lm.
      unfold dataOf. cbn [data]. do 2 tstep. apply tidy_setCurrent; [by rewrite lookup_insert_eq|by rewrite <- Ea, <- En|]. tstep. cbn [data]. by rewrite <- Ea, <- En.
    + destruct (Z.leb_spec (acc_numSubEntries src) 0); [done|]. injection Ho as <-. apply sure_bind, sure_eraseEntry; [by rewrite lookup_insert_eq|].
      rewrite delete_insert_id by done. apply tidy_erased, tidy_dropEntry; [done|by rewrite lookup_delete_ne|done|done].
Qed.

(** The issuer in the scope of a constant handle. *)
Lemma tidy_withIssuer {A} D1 act hact i (body : bool → option (Handle * LedgerEntry) → M Ledger A) Q :
  Valid lh D1 → act !! ACCOUNT i = None →
  (accountAt D1 i = None → tidy id os D1 lh act hact (body false None) Q) →
  (∀ issuer n lm, accountAt D1 i = Some issuer →
     tidy id os D1 lh (<[ACCOUNT i := ConstImpl n]> act) hact (body true (Some (mkHandle id (ACCOUNT i) n, mkEntry lm (Account issuer)))) Q) →
  tidy id os D1 lh act hact (c ← loadAccountWithoutRecord id i; withConst c (λ c, there ← constIsActive c; body there c)) Q.
Proof.
  intros HV1 Ha HN HS. unfold loadAccountWithoutRecord, accountKey. apply tidy_loadConst; [done|..|intros d Hd; apply (HV1 _ _ Hd)].
  - intros Hn. apply tidy_bind, tidy_constIsActive, HN. unfold accountAt. by rewrite Hn.
  - intros n lm d Hd Hk. destruct d as [issuer| | |]; try done. apply tidy_bind, tidy_constIsActive. cbn [h_txn h_key h_impl].
    rewrite lookup_insert_eq, bool_decide_true by done. apply HS. unfold accountAt. by rewrite Hd.
Qed.

Lemma tidy_changeTrust op o :
  0 <= ct_limit op <= INT64_MAX →
  trustOutcome lh D src op = Some o → tidy id os D lh ∅ None (changeTrust_doApply (acc_accountID src) op id) (yields o).
Proof.
  intros Hlim. destruct (accountAt_Some _ _ _ HV Hsrc) as (Hs & _ & _). unfold changeTrust_doApply, trustOutcome, issuerOf. cbv zeta.
  destruct (getIssuer (ct_line op)) as [i|]; [|done]. intros Ho. cbn [mbind option_bind] in Ho. do 3 tstep. do 2 tstep. rewrite (proj2 (Z.ltb_lt 2 _)) by lia. cbn [andb negb].
  destruct (decide (i = acc_accountID src)) as [->|Hne].
  { rewrite bool_decide_true by done. injection Ho as <-. by tstep. }
  rewrite bool_decide_false by done. apply tidy_load; [done|..].
  - intros Hn. rewrite Hn in Ho. do 2 tstep. destruct (ct_limit op =? 0); [injection Ho as <-; by tstep|]. injection Ho as <-.
    apply (tidy_withIssuer _ _ _ _ (λ there issuer, if negb there then _ else _)); [done|done| |].
    + intros ->. by tstep.
    + intros issuer j lm Hi. rewrite Hi. cbn [negb]. apply tidy_loadSource with src; [done|by rewrite lookup_insert_ne by congruence|done|]. intros m.
      apply tidy_newSubentry; [by rewrite lookup_insert_eq|done|]. tstep. tstep.
      apply tidy_constCurrent; [by rewrite lookup_insert_ne, lookup_insert_eq by congruence|]. unfold isAuthRequired, account. cbn [data]. do 3 tstep.
      apply tidy_group, tidy_bind, tidy_create.
      * by rewrite !lookup_insert_ne.
      * unfold putAccount. by rewrite lookup_insert_ne.
      * intros j'. do 2 tstep. unfold yields. simpl. by destruct (_ =? 0).
  - intros m d Hd. rewrite Hd in Ho. destruct (HV _ _ Hd) as [Hkd Hok]. destruct d as [|t| |]; try done. injection Hkd as Ea Es.
    assert (Hact : <[TRUSTLINE (acc_accountID src) (ct_line op) := MutableImpl m]> ∅ !! TRUSTLINE (acc_accountID src) (ct_line op) = Some (MutableImpl m))
      by by rewrite lookup_insert_eq.
    destruct (amountsOk_iff lh (proj1 Hm) (mkEntry 0 (TrustLine t)) eq_refl Hok) as (Hb & Hc & _ & Hl). specialize (Hl (proj2 Hm)).
    unfold balanceOf, ceilingOf, liabilitiesOf in Hb, Hc, Hl. cbn [data] in Hb, Hc, Hl.
    apply tidy_then. tstep. apply tidy_then. eapply tidy_readEntry with (x := tl_balance t + buying_ (extV1 (tl_ext t))); [done|done|exact Hd|..].
    { intros lm s. unfold getMinimumLimit, trustLine, mbind, M_bind. cbn [data]. unfold mret, M_ret. rewrite (proj2 (Z.leb_le 10 _)) by lia.
      rewrite getBuyingLiabilities_eq by (done || lia). unfold liabilitiesOf. cbn [data]. by rewrite s64_small by (unfold INT64_MAX in *; lia). }
    destruct (ct_limit op <? _); [injection Ho as <-; apply tidy_keeps; by tstep|].
    destruct (ct_limit op =? 0).
    + destruct (Z.leb_spec (acc_numSubEntries src) 0); [done|]. injection Ho as <-. apply sure_bind, sure_eraseEntry; [done|].
      rewrite delete_insert_id by done. apply tidy_erased, tidy_dropEntry; [done|by rewrite lookup_delete_ne|done|done].
    + injection Ho as <-. apply tidy_keeps, (tidy_withIssuer _ _ _ _ (λ there issuer, if negb there then _ else _)); [done|by rewrite lookup_insert_ne|..].
      * intros ->. by tstep.
      * intros issuer j lm Hi. rewrite Hi. cbn [negb]. unfold setLimit. tstep. tstep.
        apply tidy_current with (TrustLine t); [by rewrite lookup_insert_ne|done|]. intros lm2. unfold trustLine. cbn [data]. do 2 tstep.
        apply tidy_setCurrent; [by rewrite lookup_insert_ne|by rewrite <- Ea, <- Es|]. by tstep.
Qed.

Lemma tidy_direct fuel b o :
  typedOp b → (doCheckValid (acc_accountID src) b (ledgerVersion lh)).1 = true → directOutcome lh D src b = Some o →
  tidy id os D lh ∅ None (doApply fuel (acc_accountID src) b id) (yields o).
Proof.
  intros Ht Hc Ho. unfold typedOp, int64 in Ht. destruct b; try done; simpl in Hc, Ho |- *.
  - injection Ho as <-. apply tidy_createAccount. unfold createAccount_doCheckValid in Hc. destruct (_ <=? 0) eqn:E; [done|]. lia.
  - destruct (isNative (pay_asset op)) eqn:En; [|done]. injection Ho as <-. apply tidy_payment; [done|].
    unfold payment_doCheckValid in Hc. destruct (_ <=? 0) eqn:E; [done|]. lia.
  - apply tidy_changeTrust; [|done]. unfold changeTrust_doCheckValid in Hc. destruct (_ <? 0) eqn:E; [done|]. lia.
  - injection Ho as <-. apply tidy_merge. unfold merge_doCheckValid in Hc. destruct (decide _); [done|]. congruence.
  - injection Ho as <-. by apply tidy_ret.
  - by apply tidy_manageData.
  - injection Ho as <-. apply tidy_bumpSequence.
Qed.
End Exact.

(** ** On ledgers *)

(** No handle of the transaction is in use. *)
Definition idle (t : LedgerTxn) : Prop := mIsSealed t = false ∧ mActive t = ∅ ∧ mActiveHeader t = None.

(** A program on a reachable ledger, from what [tidy] says of it. *)
Lemma tidy_ledger `{HashOrder} {A} s t outer (m : M Ledger A) Q :
  ledgerReachable s → txns s = t :: outer → idle t →
  tidy (txn_id t) (viewsOf (root s) outer) (shown s) (shownHeader s) ∅ None m Q →
  ∃ a s', m s = Ok a s' ∧ sameOpen s s' ∧ Q a (shown s') (shownHeader s').
Proof.
  intros Hr Hl (Hs & Ha & Hh) Hm. apply reachable_ok in Hr as Hok.
  assert (Hv : views s = mkView (txn_id t) (shown s) (shownHeader s) ∅ None false :: viewsOf (root s) outer).
  { unfold views, shown, shownHeader. rewrite Hl. cbn [viewsOf]. unfold viewOf. by rewrite Ha, Hh, Hs. }
  specialize (Hm s Hok Hv). destruct (m s) as [a s'|w s'| |]; [|tauto..]. destruct Hm as [_ (D' & lh' & act' & hact' & Hv' & -> & -> & HQ)].
  exists a, s'. split; [done|]. destruct (views_cons _ _ _ Hv') as (t' & outer' & Hl' & E1 & E2). split.
  - unfold sameOpen. rewrite <- (viewsOf_ids (root s') (txns s')). fold (views s'). by rewrite Hv', Hl, !fmap_cons, viewsOf_ids.
  - unfold shown, shownHeader. rewrite Hl'.
    change (Q a (v_data (viewOf (root s') t' outer')) (v_header (viewOf (root s') t' outer'))). by rewrite <- E1.
Qed.

(** C7: an operation that creates or merges an account, pays lumens, changes a trust line, a data entry or
    a sequence number, on a valid ledger of version 11 or later, with its source account there, after
    [doCheckValid] and with no handle in use, returns and does not throw. Its answer and what it leaves
    are those of [directOutcome], on every branch: which failure it reports, that a failure changes
    nothing (but that a payment has credited the destination when the source turns out to have too
    little), which balances, reserves, counts of subentries, limits and flags a success leaves. The header
    is not changed. *)
Theorem direct_operations_exact `{HashOrder} s t outer fuel src b o :
  ledgerReachable s → txns s = t :: outer → idle t → opReady fuel (shownHeader s) (shown s) →
  accountAt (shown s) (acc_accountID src) = Some src → typedOp b →
  (doCheckValid (acc_accountID src) b (ledgerVersion (shownHeader s))).1 = true →
  directOutcome (shownHeader s) (shown s) src b = Some o →
  ∃ s', doApply fuel (acc_accountID src) b (txn_id t) s = Ok o.1 s' ∧ shown s' = o.2 ∧ shownHeader s' = shownHeader s ∧ sameOpen s s'.
Proof.
  intros Hr Hl Hi (Hm & Hv & HV & _ & _ & Hroom & _) Hsrc Ht Hc Ho.
  destruct (tidy_ledger s t outer _ _ Hr Hl Hi (tidy_direct _ _ _ Hm Hv _ _ HV Hsrc Hroom fuel b o Ht Hc Ho)) as (a & s' & E & Hsame & -> & HD & Hlh).
  by exists s'.
Qed.

(** The account 5 of the example creates the account 11; it pays 200 to the account 8; it merges into it,
    which fails because it has a trust line. *)
Definition exactSource : AccountEntry := mkAccount 5 100000000 3 1 None 0 [] [1; 0; 0; 0] [] None.

Definition exactOutcome (b : OperationBody) : Outcome :=
  default (false, opNO_ACCOUNT, ∅) (directOutcome opHeader (shown opLedger) exactSource b).

Lemma opTop_idle : idle opTop.
Proof. split; [vm_compute; reflexivity|]. split; vm_compute; reflexivity. Qed.
Lemma exactSource_there : accountAt (shown opLedger) 5 = Some exactSource.
Proof. vm_compute. reflexivity. Qed.
Lemma opLedger_header : shownHeader opLedger = opHeader.
Proof. vm_compute. reflexivity. Qed.

Lemma direct_operations_exact_witness :
  (∃ s', doApply 10 5 (CREATE_ACCOUNT (mkCreateAccount 11 20000000)) 0 opLedger = Ok (true, opINNER (createAccountResult CREATE_ACCOUNT_SUCCESS)) s' ∧
     accountAt (shown s') 11 = Some (mkAccount 11 20000000 21474836480 0 None 0 [] [1; 0; 0; 0] [] None) ∧
     holding (shown s') 5 ASSET_TYPE_NATIVE = Some 80000000) ∧
  (∃ s', doApply 10 5 (PAYMENT (mkPayment 8 ASSET_TYPE_NATIVE 200)) 0 opLedger = Ok (true, opINNER (paymentResult PAYMENT_SUCCESS)) s' ∧
     holding (shown s') 8 ASSET_TYPE_NATIVE = Some 20000200) ∧
  (∃ s', doApply 10 5 (ACCOUNT_MERGE 8) 0 opLedger = Ok (false, opINNER (accountMergeResult ACCOUNT_MERGE_HAS_SUB_ENTRIES)) s' ∧
     holding (shown s') 5 ASSET_TYPE_NATIVE = Some 100000000).
Proof.
  assert (Hx : ∀ b r, typedOp b → (doCheckValid 5 b 11).1 = true → is_Some (directOutcome opHeader (shown opLedger) exactSource b) → (exactOutcome b).1 = r →
    ∃ s', doApply 10 5 b 0 opLedger = Ok r s' ∧ shown s' = (exactOutcome b).2).
  { intros b r Ht Hc [o Ho] <-. unfold exactOutcome. rewrite Ho.
    pose proof (direct_operations_exact opLedger opTop [] 10 exactSource b o opLedger_reachable opLedger_top opTop_idle opLedger_ready exactSource_there Ht) as Hd.
    rewrite opLedger_header, (proj2 opTop_open) in Hd. destruct (Hd Hc Ho) as (s' & E & HD & _). by exists s'. }
  split; [|split].
  - destruct (Hx (CREATE_ACCOUNT (mkCreateAccount 11 20000000)) (true, opINNER (createAccountResult CREATE_ACCOUNT_SUCCESS))) as (s' & E & HD);
      [vm_compute; intuition congruence|vm_compute; reflexivity|by eexists|vm_compute; reflexivity|].
    exists s'. rewrite HD. split; [exact E|]. split; vm_compute; reflexivity.
  - destruct (Hx (PAYMENT (mkPayment 8 ASSET_TYPE_NATIVE 200)) (true, opINNER (paymentResult PAYMENT_SUCCESS))) as (s' & E & HD);
      [vm_compute; intuition congruence|vm_compute; reflexivity|by eexists|vm_compute; reflexivity|].
    exists s'. rewrite HD. split; [exact E|]. vm_compute; reflexivity.
  - destruct (Hx (ACCOUNT_MERGE 8) (false, opINNER (accountMergeResult ACCOUNT_MERGE_HAS_SUB_ENTRIES))) as (s' & E & HD);
      [done|vm_compute; reflexivity|by eexists|vm_compute; reflexivity|].
    exists s'. rewrite HD. split; [exact E|]. vm_compute; reflexivity.
Defined.
