(* ===== verification/TxValidSpec.v ===== *)
(** * What a valid transaction is

    [TransactionFrame::checkValid] from version 10 on: it changes nothing, and what it accepts has the
    next sequence number, can pay its fee, is signed by its source and by the sources of its operations,
    and has operations that are well-formed. [TransactionFrame::processFeeSeqNum] moves the fee from the
    source to the pool. *)
From stdpp Require Import base list gmap strings.
From Stdlib Require Import ZArith Lia.
From S2P Require Import Prelude UInt128 Numeric Exchange LedgerEntries Balances BalancesSpec LedgerTxn LedgerTxnSpec LedgerOffers TrustLines LedgerLogic CrossOffers CrossOffersSpec BookSpec OpTypes RunLogic Lumens OpSteps Operations AccountOps OfferOps OpSpec OfferSpec Signatures SignatureSpec Transactions TxSpec ExactLogic OpExact.

Section Validity.
Context `{HashOrder} `{Crypto} (env : TransactionEnvelope) (contentsHash : Z) (lh : LedgerHeader) (D : Entries).

Definition timeValid : Prop :=
  match tx_timeBounds (tx env) with
  | Some b => minTime b <= closeTime lh ∧ (maxTime b = 0 ∨ closeTime lh <= maxTime b)
  | None => True
  end.

(** A check of signatures: for which account, with which signers, and the weight that is needed. *)
Definition SigCheck : Type := AccountID * list Signer * Z.
Definition runCheck (k : SigCheck) (c : SignatureChecker) : bool * SignatureChecker :=
  checker_checkSignature (ledgerVersion lh) contentsHash (signatures env) k.1.1 k.1.2 k.2 c.

(** The signatures suffice; the check counts the signature number [i]. *)
Definition signedFor (k : SigCheck) : Prop := (runCheck k (newSignatureChecker (signatures env))).1 = true.
Definition counts (k : SigCheck) (i : nat) : Prop :=
  mUsedSignatures (runCheck k (newSignatureChecker (signatures env))).2 !! i = Some true.

Definition sourceCheck (acc : AccountEntry) : SigCheck := (acc_accountID acc, signersOf acc, getNeededThreshold acc LOW).
(** The source of the operation signs with the threshold of the operation; an account that does not
    exist signs with its key. *)
Definition operationCheck (op : Operation) : option SigCheck :=
  match accountAt D (getSourceID env op) with
  | Some acc => Some (acc_accountID acc, signersOf acc, getNeededThreshold acc (getThresholdLevel (body op)))
  | None => (λ a, (a, [mkSigner (SIGNER_KEY_TYPE_ED25519 a) 1], 0)) <$> op_sourceAccount op
  end.

Definition operationValid (op : Operation) : Prop :=
  isVersionSupported (body op) (ledgerVersion lh) = true ∧
  (∃ k, operationCheck op = Some k ∧ signedFor k) ∧
  (doCheckValid (getSourceID env op) (body op) (ledgerVersion lh)).1 = true.

Definition sourceValid (current_ : Z) (acc : AccountEntry) : Prop :=
  accountAt D (tx_sourceAccount (tx env)) = Some acc ∧
  (let seq := if current_ =? 0 then acc_seqNum acc else current_ in seq ≠ INT64_MAX ∧ seq + 1 = tx_seqNum (tx env)) ∧
  signedFor (sourceCheck acc) ∧ tx_fee (tx env) <= spendable lh acc.

Definition transactionValid (current_ : Z) : Prop :=
  operations (tx env) ≠ [] ∧ timeValid ∧ getMinFee env lh <= tx_fee (tx env) ∧
  ∃ acc, sourceValid current_ acc ∧ Forall operationValid (operations (tx env)) ∧
    ∀ i, (i < length (signatures env))%nat →
      counts (sourceCheck acc) i ∨ ∃ op k, op ∈ operations (tx env) ∧ operationCheck op = Some k ∧ counts k i.

(** ** The checker *)

Lemma runCheck_marks k : ∃ ok F K, ∀ c, runCheck k c = (ok, mkChecker (markAll F (mUsedSignatures c)) (K (mUsedOneTimeSignerKeys c))).
Proof. apply check_marks. Qed.

(** The flags of the checks made so far. *)
Definition marked (ks : list SigCheck) (c : SignatureChecker) : Prop :=
  length (mUsedSignatures c) = length (signatures env) ∧ ∀ i, mUsedSignatures c !! i = Some true ↔ ∃ k, k ∈ ks ∧ counts k i.

Lemma runCheck_marked ks k c : marked ks c →
  ((runCheck k c).1 = true ↔ signedFor k) ∧ marked (k :: ks) (runCheck k c).2.
Proof.
  intros [Hlen Hm]. unfold signedFor. destruct (runCheck_marks k) as (ok & F & K & E). rewrite !E. split; [done|]. cbn [fst snd mUsedSignatures]. split.
  - simpl. by rewrite markAll_length.
  - intros i. simpl. rewrite markAll_lookup, Hm. setoid_rewrite elem_of_cons.
    assert (Hk : counts k i ↔ i ∈ F ∧ (i < length (signatures env))%nat).
    { unfold counts. rewrite E. simpl. rewrite markAll_lookup, length_replicate. split; [|by right]. intros [[Hi _]%lookup_replicate_1|?]; [congruence|done]. }
    rewrite Hlen. rewrite <- Hk. naive_solver.
Qed.

Lemma marked_new : marked [] (newSignatureChecker (signatures env)).
Proof.
  split; [apply length_replicate|]. intros i. simpl. split; [intros [Hi _]%lookup_replicate_1; congruence|]. by intros (k & ?%elem_of_nil & _).
Qed.

Lemma marked_all ks c : 10 <= ledgerVersion lh → marked ks c →
  (checkAllSignaturesUsed (ledgerVersion lh) c = true ↔ ∀ i, (i < length (signatures env))%nat → ∃ k, k ∈ ks ∧ counts k i).
Proof.
  intros Hv [Hlen Hm]. unfold checkAllSignaturesUsed. rewrite (proj2 (Z.eqb_neq _ 7)) by lia. rewrite List.forallb_forall. setoid_rewrite <- Hm.
  setoid_rewrite <- list_elem_of_In. split.
  - intros Ha i Hi. destruct (lookup_lt_is_Some_2 (mUsedSignatures c) i) as [b Hb]; [lia|]. rewrite Hb.
    specialize (Ha b (list_elem_of_lookup_2 _ _ _ Hb)). unfold id in Ha. by rewrite Ha.
  - intros Ha b [i Hi]%list_elem_of_lookup. specialize (Ha i). rewrite Hi in Ha. apply lookup_lt_Some in Hi. rewrite Hlen in Hi. by injection (Ha Hi).
Qed.

(** The checks of the source and of the operations. *)
Lemma checks_cover ops ks k0 i : Forall2 (λ op k, operationCheck op = Some k) ops ks →
  (∃ k, k ∈ ks ++ [k0] ∧ counts k i) ↔ counts k0 i ∨ ∃ op k, op ∈ ops ∧ operationCheck op = Some k ∧ counts k i.
Proof.
  intros HF. setoid_rewrite elem_of_app. setoid_rewrite list_elem_of_singleton. split.
  - intros (k & [Hk| ->] & Hi); [right|by left]. apply list_elem_of_lookup in Hk as [j Hk]. destruct (Forall2_lookup_r _ _ _ _ _ HF Hk) as (op & Hop & Hc).
    exists op, k. split; [by eapply list_elem_of_lookup_2|done].
  - intros [Hi|(op & k & Hop & Hc & Hi)]; [exists k0; auto|]. exists k. split; [left|done]. apply list_elem_of_lookup in Hop as [j Hop].
    destruct (Forall2_lookup_l _ _ _ _ _ HF Hop) as (k' & Hk & Hc'). rewrite Hc in Hc'. injection Hc' as ->. by eapply list_elem_of_lookup_2.
Qed.

(** ** The programs *)

Context (Hm : modern lh) (HV : Valid lh D).

Lemma tidy_txAccount {A} id os act hact m a (body : option Handle → M Ledger A) Q :
  hact = Some m → act !! ACCOUNT a = None →
  (accountAt D a = None → tidy id os D lh act hact (body None) Q) →
  (∀ n acc, accountAt D a = Some acc → D !! ACCOUNT a = Some (Account acc) →
     tidy id os D lh (<[ACCOUNT a := MutableImpl n]> act) hact (body (Some (mkHandle id (ACCOUNT a) n))) Q) →
  tidy id os D lh act hact (h ← tx_loadAccount id (id, m) a; withEntry h body) Q.
Proof.
  intros Hh Ha HN HS. unfold tx_loadAccount. apply tidy_assoc. tstep. tstep. destruct Hm. rewrite (proj2 (Z.ltb_ge _ _)) by lia.
  apply tidy_loadAccount; [done|..].
  - intros Hn. apply HN. unfold accountAt. by rewrite Hn.
  - intros n d Hd. destruct (HV _ _ Hd) as [Hk _]. destruct d as [acc| | |]; try done. apply (HS n acc); [|done]. unfold accountAt. by rewrite Hd.
Qed.

(** The conditions before the sequence number. *)
Definition preValid : Prop :=
  operations (tx env) ≠ [] ∧ timeValid ∧ getMinFee env lh <= tx_fee (tx env) ∧ is_Some (accountAt D (tx_sourceAccount (tx env))).

Lemma tidy_preSeqNum id os Q :
  (∀ code, (code = None ↔ preValid) → Q code D lh) → tidy id os D lh ∅ None (commonValidPreSeqNum env id) Q.
Proof.
  intros HQ. unfold commonValidPreSeqNum, numOperations. destruct (Z.eqb_spec (Z.of_nat (length (operations (tx env)))) 0) as [E0|Hne].
  { tstep. apply HQ. split; [done|]. intros (Hx & _). by destruct (operations (tx env)). }
  assert (Hops : operations (tx env) ≠ []) by (intros E; by rewrite E in Hne). do 3 tstep. cbv zeta.
  assert (Htime : timeValid ↔ match tx_timeBounds (tx env) with Some b => closeTime lh <? minTime b | None => false end = false ∧
    match tx_timeBounds (tx env) with Some b => negb (maxTime b =? 0) && (maxTime b <? closeTime lh) | None => false end = false).
  { unfold timeValid. destruct (tx_timeBounds (tx env)); [lia|tauto]. }
  unfold preValid in HQ. setoid_rewrite Htime in HQ.
  destruct (match tx_timeBounds (tx env) with Some b => closeTime lh <? minTime b | None => false end); [tstep; apply HQ; split; [done|by intros (_ & (? & _) & _)]|].
  destruct (match tx_timeBounds (tx env) with Some b => negb (maxTime b =? 0) && _ | None => false end); [tstep; apply HQ; split; [done|by intros (_ & (_ & ?) & _)]|].
  destruct (Z.ltb_spec (tx_fee (tx env)) (getMinFee env lh)); [tstep; apply HQ; split; [done|intros (_ & _ & ? & _); lia]|].
  unfold tx_loadSourceAccount. apply tidy_group, tidy_bind, tidy_txAccount; [done|done|..].
  - intros Hn. tstep. tstep. apply HQ. rewrite Hn. split; [done|]. by intros (_ & _ & _ & []).
  - intros j acc Ha _. tstep. tstep. apply HQ. rewrite Ha. split; [|done]. intros _. split_and!; [done|done|done|done|by eexists].
Qed.

Lemma tidy_commonValid id os c ks current_ Q :
  marked ks c →
  (∀ cv code c', (cv = kFullyValid ↔ preValid ∧ ∃ acc, sourceValid current_ acc) →
     (cv = kFullyValid → code = None ∧ ∃ acc, sourceValid current_ acc ∧ marked (sourceCheck acc :: ks) c') → Q (cv, code, c') D lh) →
  tidy id os D lh ∅ None (commonValid env contentsHash c id current_ false) Q.
Proof.
  intros Hc HQ. unfold commonValid. apply tidy_withTxn; [done..|]. intros id' _. apply ends_tidy. tstep. apply tidy_preSeqNum.
  intros code Hcode. destruct code as [code|].
  { tstep. apply HQ; [|done]. split; [done|]. intros [Hp _]. by apply Hcode in Hp. }
  destruct (proj1 Hcode eq_refl) as (H1 & H2 & H3 & [acc0 Hacc]). tstep. unfold tx_loadSourceAccount. apply tidy_txAccount; [done|done|congruence|].
  intros n2 acc Ha Hd. rewrite Hacc in Ha. injection Ha as ->. tstep. tstep. rewrite orb_true_r. cbn [andb].
  assert (Hno : ∀ cv, cv ≠ kFullyValid → (∀ acc', sourceValid current_ acc' → False) →
    ∀ code c', Q (cv, code, c') D lh).
  { intros cv Hcv Hf code c'. apply HQ; [|done]. split; [done|]. intros [_ [acc' Hs]]. by destruct (Hf acc'). }
  assert (Hok : amountsOk lh (mkEntry 0 (Account acc))) by (destruct (HV _ _ Hd) as [_ Ho]; exact Ho).
  assert (Hact : <[ACCOUNT (tx_sourceAccount (tx env)) := MutableImpl n2]> ∅ !! ACCOUNT (tx_sourceAccount (tx env)) = Some (MutableImpl n2))
    by by rewrite lookup_insert_eq.
  apply tidy_bind.
  eapply tidy_mono with (Q := λ x D' lh', x = (if current_ =? 0 then acc_seqNum acc else current_) ∧ D' = D ∧ lh' = lh).
  { destruct (current_ =? 0); [|by tstep]. tstep. apply tidy_currentAccount with acc; [done..|]. by tstep. }
  intros x D' lh' (-> & -> & ->). destruct ((_ =? INT64_MAX) || negb _) eqn:Eseq.
  { tstep. apply Hno; [done|]. intros acc' (Ha' & Hs & _). rewrite Hacc in Ha'. injection Ha' as <-. cbv zeta in Hs. lia. }
  tstep. apply tidy_currentAccount with acc; [done..|]. fold (runCheck (sourceCheck acc) c).
  change (tx_checkSignature (ledgerVersion lh) contentsHash (signatures env) acc (getNeededThreshold acc LOW) c) with (runCheck (sourceCheck acc) c).
  destruct (runCheck_marked ks (sourceCheck acc) c Hc) as [Hsig Hmark]. destruct (runCheck (sourceCheck acc) c) as [ok c']. cbn [fst snd] in Hsig, Hmark.
  destruct ok; cbn [negb].
  2: { tstep. apply Hno; [done|]. intros acc' (Ha' & _ & Hs & _). rewrite Hacc in Ha'. injection Ha' as <-. by apply Hsig in Hs. }
  tstep. apply tidy_available with acc; [done..|]. destruct (Z.ltb_spec (spendable lh acc) (tx_fee (tx env))).
  { tstep. apply Hno; [done|]. intros acc' (Ha' & _ & _ & Hs). rewrite Hacc in Ha'. injection Ha' as <-. lia. }
  assert (Hsrc : sourceValid current_ acc) by (split; [done|]; split; [cbv zeta; lia|]; split; [by apply Hsig|done]).
  tstep. apply HQ.
  - split; [|done]. intros _. split; [split_and!; [done..|by eexists]|by exists acc].
  - intros _. split; [done|]. by exists acc.
Qed.

Lemma tidy_opSignature id os op c ks Q :
  marked ks c →
  (∀ failed c', (failed = None ↔ ∃ k, operationCheck op = Some k ∧ signedFor k) →
     (∀ k, operationCheck op = Some k → c' = (runCheck k c).2 ∧ marked (k :: ks) c') → Q (failed, c') D lh) →
  tidy id os D lh ∅ None (op_checkSignature env contentsHash op c id false) Q.
Proof.
  intros Hc HQ. unfold op_checkSignature, loadSourceAccount. tstep. apply tidy_txAccount; [done|done|..].
  - intros Hn. do 2 tstep. tstep. tstep. unfold operationCheck in HQ. rewrite Hn in HQ. destruct (op_sourceAccount op) as [a|].
    2: { tstep. apply HQ; [split; [done|by intros (k & ? & _)]|done]. }
    simpl in HQ. set (k := (a, [mkSigner (SIGNER_KEY_TYPE_ED25519 a) 1], 0)) in *.
    change (tx_checkSignatureNoAccount (ledgerVersion lh) contentsHash (signatures env) a c) with (runCheck k c).
    destruct (runCheck_marked ks k c Hc) as [Hsig Hmark]. destruct (runCheck k c) as [ok c'] eqn:Ek. cbn [fst snd] in Hsig, Hmark. tstep. apply HQ.
    + destruct ok; naive_solver.
    + intros ? [= <-]. by rewrite Ek.
  - intros j acc Ha Hd. do 2 tstep. tstep. tstep. tstep. apply tidy_currentAccount with acc; [by rewrite lookup_insert_eq|done|]. cbv zeta.
    unfold operationCheck in HQ. rewrite Ha in HQ. set (k := (acc_accountID acc, signersOf acc, getNeededThreshold acc (getThresholdLevel (body op)))) in *.
    change (tx_checkSignature _ _ _ acc _ c) with (runCheck k c).
    destruct (runCheck_marked ks k c Hc) as [Hsig Hmark]. destruct (runCheck k c) as [ok c'] eqn:Ek. cbn [fst snd] in Hsig, Hmark. tstep. apply HQ.
    + destruct ok; naive_solver.
    + intros ? [= <-]. by rewrite Ek.
Qed.

Lemma tidy_opCheckValid id os op c ks Q :
  marked ks c →
  (∀ ok x c', (ok = true ↔ operationValid op) → (ok = true → ∃ k, operationCheck op = Some k ∧ marked (k :: ks) c') → Q (ok, x, c') D lh) →
  tidy id os D lh ∅ None (op_checkValid env contentsHash op c id false) Q.
Proof.
  intros Hc HQ. unfold op_checkValid. apply tidy_withTxn; [done..|]. intros id' _. apply ends_tidy. do 2 tstep. cbv zeta. unfold operationValid in HQ.
  destruct (isVersionSupported (body op) (ledgerVersion lh)); [|tstep; by apply HQ; naive_solver]. cbn [negb orb]. tstep.
  apply tidy_opSignature with ks; [done|]. intros failed c' Hf Hmark. destruct failed as [x|].
  { tstep. apply HQ; [split; [done|]|done]. intros (_ & Hk & _). by apply Hf in Hk. }
  destruct (proj1 Hf eq_refl) as (k & Hk & Hs). destruct (doCheckValid _ _ _) as [ok x]. tstep. apply HQ.
  - split; [|by intros (_ & _ & ?)]. intros ->. split; [done|]. split; [by exists k|done].
  - intros _. exists k. split; [done|]. by apply (Hmark k).
Qed.

Lemma tidy_checkValidOps id os ops : ∀ i c r ks Q,
  (∃ l, txResult r = txSUCCESS l) → marked ks c →
  (∀ ok c' r', (ok = true ↔ Forall operationValid ops) →
     (ok = true → ∃ ks', Forall2 (λ op k, operationCheck op = Some k) ops ks' ∧ marked (ks' ++ ks) c') → Q (ok, c', r') D lh) →
  tidy id os D lh ∅ None (checkValidOps env contentsHash ops i id c r) Q.
Proof.
  induction ops as [|op ops IH]; intros i c r ks Q [l Hr] Hc HQ; simpl.
  { tstep. apply HQ; [done|]. intros _. exists []. split; [constructor|done]. }
  tstep. apply tidy_opCheckValid with ks; [done|]. intros ok x c' Hop Hmark. unfold setResult. rewrite Hr. tstep. tstep. destruct ok.
  - destruct (Hmark eq_refl) as (k & Hk & Hm'). apply IH with (k :: ks); [by eexists|done|]. intros ok c2 r' Hrest Hmark2. apply HQ.
    + rewrite Forall_cons, Hrest. naive_solver.
    + intros Hok. destruct (Hmark2 Hok) as (ks' & HF & Hm2). exists (k :: ks'). split; [by constructor|].
      destruct Hm2 as [Hl2 Hm2]. split; [done|]. intros j. rewrite Hm2.
      assert (Hp : ks' ++ k :: ks ≡ₚ (k :: ks') ++ ks) by (symmetry; apply Permutation_middle). by setoid_rewrite Hp.
  - unfold markResultFailed, resultsOf. cbn [txResult setCode]. repeat tstep. apply HQ; [|done]. rewrite Forall_cons. naive_solver.
Qed.

Lemma tidy_checkValid id os current_ Q :
  (∀ ok r, (ok = true ↔ transactionValid current_) → Q (ok, r) D lh) → tidy id os D lh ∅ None (checkValid env contentsHash id current_) Q.
Proof.
  intros HQ. unfold checkValid. apply tidy_withTxn; [done..|]. intros id' _. apply ends_tidy. do 2 tstep. cbv zeta. tstep.
  apply tidy_commonValid with []; [apply marked_new|]. intros cv code c' Hcv Hfull.
  assert (Hpre : transactionValid current_ → preValid ∧ ∃ acc, sourceValid current_ acc).
  { intros (H1 & H2 & H3 & acc & Hs & _). split; [|by exists acc]. split_and!; [done..|]. exists acc. apply Hs. }
  destruct cv; [tstep; apply HQ; split; [done|]; intros Ht; by apply Hpre, Hcv in Ht..|]. destruct (Hfull eq_refl) as (-> & acc & Hs & Hmark). tstep.
  apply tidy_checkValidOps with [sourceCheck acc]; [by eexists|done|]. intros ok c2 r Hops Hmark2. destruct ok; cbn [negb].
  2: { tstep. apply HQ. split; [done|]. intros (_ & _ & _ & acc' & _ & Hf & _). by apply Hops in Hf. }
  destruct (Hmark2 eq_refl) as (ks' & HF & Hm2). pose proof (marked_all _ _ (proj2 Hm) Hm2) as Hall.
  assert (Ht : transactionValid current_ ↔ checkAllSignaturesUsed (ledgerVersion lh) c2 = true).
  { rewrite Hall. destruct (proj1 Hcv eq_refl) as [(H1 & H2 & H3 & _) _].
    setoid_rewrite (checks_cover _ _ _ _ HF). split.
    - intros (_ & _ & _ & acc' & (Ha & _) & _ & Hi). destruct Hs as (Ha' & _). rewrite Ha in Ha'. by injection Ha' as ->.
    - intros Hi. split_and!; [done..|]. exists acc. split; [done|]. split; [by apply Hops|done]. }
  destruct (checkAllSignaturesUsed _ c2); cbn [negb]; tstep; apply HQ; rewrite Ht; done.
Qed.
End Validity.

(** C30: [TransactionFrame::checkValid] on a valid ledger of version 10 or later, with no handle in use,
    returns; the entries, the header and the open ledger transactions are what they were. It accepts
    exactly the transactions that have operations, are within their time bounds, bid at least the
    minimum fee, whose source account exists, has the sequence number before the one of the transaction
    (the given one, if it is not 0), is signed for by enough weight and can spend the fee above its
    reserve and its liabilities, in which every operation is supported, well-formed and signed for by
    its own source or, if that account does not exist, by its key, and in which every signature is
    counted by one of these checks. *)
Theorem check_valid_exact `{HashOrder} `{Crypto} s t outer env contentsHash current_ :
  ledgerReachable s → txns s = t :: outer → idle t → modern (shownHeader s) → Valid (shownHeader s) (shown s) →
  ∃ ok r s', checkValid env contentsHash (txn_id t) current_ s = Ok (ok, r) s' ∧ sameOpen s s' ∧ shown s' = shown s ∧ shownHeader s' = shownHeader s ∧
    (ok = true ↔ transactionValid env contentsHash (shownHeader s) (shown s) current_).
Proof.
  intros Hr Hl Hi Hm HV.
  destruct (tidy_ledger s t outer (checkValid env contentsHash (txn_id t) current_)
    (λ r D' lh', D' = shown s ∧ lh' = shownHeader s ∧ (r.1 = true ↔ transactionValid env contentsHash (shownHeader s) (shown s) current_)) Hr Hl Hi)
    as ([ok r] & s' & E & Hsame & HD & Hlh & Hok).
  { apply tidy_checkValid; [done|done|]. by intros ok r Hok. }
  by exists ok, r, s'.
Qed.

(** ** Fees *)

Section Fees.
Context (env : TransactionEnvelope) (base : Z).

(** The widths of the fees, and a fee that fits. *)
Definition feesTyped (lh : LedgerHeader) : Prop :=
  0 <= tx_fee (tx env) <= UINT32_MAX ∧ 0 <= base ∧ base * Z.max 1 (numOperations env) <= INT64_MAX ∧
  0 <= feePool lh ∧ feePool lh + UINT32_MAX <= INT64_MAX.

Definition addToPool (fee : Z) (lh : LedgerHeader) : LedgerHeader :=
  mkHeader (ledgerVersion lh) (ledgerSeq lh) (totalCoins lh) (feePool lh + fee) (inflationSeq lh) (idPool lh)
    (baseFee lh) (baseReserve lh) (maxTxSetSize lh) (closeTime lh).

(** The source pays the fee, or as much of it as it has. *)
Definition feePaid (lh : LedgerHeader) (D : Entries) (r : TransactionResult) (D' : Entries) (lh' : LedgerHeader) : Prop :=
  ∃ acc, let fee := Z.min (acc_balance acc) (getFee env lh base) in
    D !! ACCOUNT (tx_sourceAccount (tx env)) = Some (Account acc) ∧ 0 <= fee ∧ r = mkTxResult fee (txResult (resetResults env lh base)) ∧
    D' = <[ACCOUNT (tx_sourceAccount (tx env)) := Account (acc_setBalance (acc_balance acc - fee) acc)]> D ∧
    lh' = addToPool fee lh.

Lemma getFee_range lh : feesTyped lh → 0 <= getFee env lh base <= UINT32_MAX.
Proof.
  intros (Hf & Hb & Hm & _). unfold getFee. destruct (_ <? 11); [done|]. rewrite s64_small by (unfold INT64_MAX in *; lia). lia.
Qed.

(** The rest of [processFeeSeqNum] after the fee is paid. *)
Lemma tidy_seqTail {A} lh D id os act n h (r : A) Q :
  10 <= ledgerVersion lh → Q r D lh →
  tidy id os D lh act (Some n) (lh ← headerCurrent (id, n);
    (if ledgerVersion lh <=? 9 then
       a ← currentAccount h;
       if negb (s64 (acc_seqNum a + 1) =? tx_seqNum (tx env)) then throw "Unexpected account state" else modifyAccount h (acc_setSeqNum (tx_seqNum (tx env)))
     else mret tt);; mret r) Q.
Proof. intros Hv HQ. do 2 tstep. rewrite (proj2 (Z.leb_gt _ _)) by lia. by do 3 tstep. Qed.

Lemma tidy_processFee `{HashOrder} lh D id os :
  modern lh → Valid lh D → feesTyped lh → is_Some (accountAt D (tx_sourceAccount (tx env))) →
  tidy id os D lh ∅ None (processFeeSeqNum env id base) (feePaid lh D).
Proof.
  intros Hm HV Ht [acc Hacc]. pose proof (getFee_range lh Ht) as Hfee. destruct Ht as (_ & _ & _ & Hp & Hpool). unfold processFeeSeqNum. do 3 tstep. cbv zeta.
  unfold tx_loadSourceAccount. apply (tidy_txAccount lh D Hm HV); [done|done|congruence|]. intros m acc' Ha Hd. rewrite Hacc in Ha. injection Ha as <-.
  do 2 tstep. destruct (accountAt_Some _ _ _ _ HV Hacc) as (_ & Ea & Hok).
  assert (Hact : <[ACCOUNT (tx_sourceAccount (tx env)) := MutableImpl m]> ∅ !! ACCOUNT (tx_sourceAccount (tx env)) = Some (MutableImpl m))
    by by rewrite lookup_insert_eq.
  tstep. apply tidy_currentAccount with acc; [done..|]. simpl feeCharged. destruct Hok as [Hb _]. unfold is_i64 in Hb. cbn [data] in Hb.
  tstep. destruct (Z.ltb_spec 0 (getFee env lh base)) as [Hpos|Hneg].
  - set (fee := Z.min (acc_balance acc) (getFee env lh base)). tstep.
    apply tidy_pure with (true, acc_balance acc - fee).
    { intros s. rewrite addBalance_cases by (unfold is_i64, INT64_MAX in *; lia). by rewrite (proj2 (orb_true_iff _ _)) by (right; unfold INT64_MAX in *; lia). }
    tstep. apply tidy_modifyAccount with acc; [done|done|by rewrite Ea|done|]. do 2 tstep. tstep. apply tidy_setHeaderCurrent; [done|]. tstep.
    apply tidy_seqTail; [apply Hm|]. exists acc. split; [done|]. split; [lia|]. split; [done|]. split; [done|].
    unfold addToPool. by rewrite s64_small by (unfold UINT32_MAX, INT64_MAX in *; lia).
  - tstep. apply tidy_seqTail; [apply Hm|]. exists acc. cbv zeta. replace (getFee env lh base) with 0 by lia. rewrite Z.min_r, Z.sub_0_r by lia.
    split; [done|]. split; [lia|]. split; [by simpl; f_equal; lia|]. split; [rewrite insert_id; [done|by destruct acc]|].
    unfold addToPool. rewrite Z.add_0_r. by destruct lh.
Qed.
End Fees.

(** [processFeeSeqNum] of version 10 or later on a valid ledger in which the source account exists,
    with no handle in use, returns. The source account has paid the fee, or its whole balance if that
    is less; the pool of fees has grown by exactly what was paid, so that no lumen is lost; nothing else
    has changed in the entries or in the header; and the result says what was charged. From version 11
    on the fee is the bid or the number of operations times the base fee, whichever is less. *)
Theorem fees_reach_the_pool `{HashOrder} s t outer env base :
  ledgerReachable s → txns s = t :: outer → idle t →
  modern (shownHeader s) → Valid (shownHeader s) (shown s) → feesTyped env base (shownHeader s) →
  is_Some (accountAt (shown s) (tx_sourceAccount (tx env))) →
  ∃ r s', processFeeSeqNum env (txn_id t) base s = Ok r s' ∧ sameOpen s s' ∧
    feePaid env base (shownHeader s) (shown s) r (shown s') (shownHeader s') ∧
    lumens (shown s') + feePool (shownHeader s') = lumens (shown s) + feePool (shownHeader s) ∧
    0 <= feeCharged r <= tx_fee (tx env).
Proof.
  intros Hr Hl Hi Hm HV Ht Hacc.
  destruct (tidy_ledger s t outer _ _ Hr Hl Hi (tidy_processFee env base _ _ _ _ Hm HV Ht Hacc)) as (r & s' & E & Hsame & Hpaid).
  pose proof (getFee_range env base _ Ht) as Hrange. exists r, s'. split; [done|]. split; [done|]. split; [done|].
  destruct Hpaid as (acc & Ha & Hfee & -> & -> & ->). split.
  - rewrite (lumens_insert _ _ _ _ Ha). simpl. lia.
  - simpl. split; [done|]. unfold getFee in *. destruct (_ <? 11); lia.
Qed.

(** ** Examples *)

(** The account 5 of the example pays twice; the bid is 1000. *)
Definition feeEnvelope : TransactionEnvelope :=
  mkTxEnvelope (mkTransaction 5 1000 4 (Some (mkTimeBounds 0 10)) [mkOperation None opPayment; mkOperation (Some 5) opPayment]) [mkSignature 5 [5; 99]].

Lemma check_valid_exact_witness :
  (∃ r s', checkValid (H0 := toyCrypto) feeEnvelope 99 0 0 opLedger = Ok (true, r) s') ∧
  transactionValid (H0 := toyCrypto) feeEnvelope 99 opHeader (shown opLedger) 0.
Proof.
  destruct (check_valid_exact (H0 := toyCrypto) opLedger opTop [] feeEnvelope 99 0 opLedger_reachable opLedger_top opTop_idle
    (proj1 opLedger_ready) (proj1 (proj2 (proj2 opLedger_ready)))) as (ok & r & s' & Hc & _ & _ & _ & Hok).
  rewrite opLedger_header in Hok. rewrite (proj2 opTop_open) in Hc.
  assert (E : match checkValid (H0 := toyCrypto) feeEnvelope 99 0 0 opLedger with Ok (true, _) _ => true | _ => false end = true) by (vm_compute; reflexivity).
  rewrite Hc in E. destruct ok; [|done]. split; [by exists r, s'|]. by apply Hok.
Defined.

Lemma fees_reach_the_pool_witness :
  ∃ r s', processFeeSeqNum feeEnvelope 0 100 opLedger = Ok r s' ∧ feeCharged r = 200 ∧ feePool (shownHeader s') = 200 ∧
    lumens (shown s') + 200 = lumens (shown opLedger).
Proof.
  destruct (fees_reach_the_pool opLedger opTop [] feeEnvelope 100 opLedger_reachable opLedger_top opTop_idle
    (proj1 opLedger_ready) (proj1 (proj2 (proj2 opLedger_ready))) ltac:(vm_compute; intuition congruence)) as (r & s' & Hc & _ & _ & Hsum & _).
  { exists exactSource. exact exactSource_there. }
  rewrite (proj2 opTop_open) in Hc. rewrite opLedger_header in Hsum.
  assert (E : match processFeeSeqNum feeEnvelope 0 100 opLedger with Ok r s' => (feeCharged r =? 200) && (feePool (shownHeader s') =? 200) | _ => false end = true)
    by (vm_compute; reflexivity).
  rewrite Hc in E. apply andb_prop in E as [E1%Z.eqb_eq E2%Z.eqb_eq]. exists r, s'. rewrite E2 in Hsum. simpl in Hsum. split; [done|]. split; [done|]. split; [done|]. lia.
Defined.
