(* ===== verification/TxFailSpec.v ===== *)
(** * A transaction whose source has less than its reserve

    [TransactionFrame::apply] on a transaction that is signed for by its source, when that account no longer has its
    reserve: [insufficient_balance_dangles] says exactly when the process is lost, and what happens otherwise. *)
From stdpp Require Import base list gmap strings.
From Stdlib Require Import ZArith Lia.
From S2P Require Import Prelude UInt128 Numeric LedgerEntries Balances BalancesSpec LedgerTxn LedgerTxnSpec TrustLines LedgerLogic CrossOffers CrossOffersSpec BookSpec OpTypes RunLogic ExactLogic Operations OpExact Signatures SignatureSpec Transactions Gentle TxSpec TxValidSpec.

(** ** Children that commit after their changes have been asked for *)

Section Changes.
Context `{HashOrder}.

(** [ends], when the transaction is exact and commits. *)
Definition commits {A} (id : nat) (P : View) (os : list View) (D : Entries) (lh : LedgerHeader) (m : M Ledger A)
    (Q : A → Entries → LedgerHeader → Prop) : Prop :=
  ∀ s, LedgerOk s → views s = mkView id D lh ∅ None false :: P :: os → exactFrom id s →
  match m s with
  | Ok a s' => LedgerOk s' ∧ ∃ D' lh', views s' = setVHeader lh' (setData D' P) :: os ∧ Q a D' lh'
  | _ => False
  end.

Lemma commits_bind {A B} id P os D lh (m : M Ledger B) (k : B → M Ledger A) Q :
  gentle m → tidy id (P :: os) D lh ∅ None m (λ b D' lh', commits id P os D' lh' (k b) Q) → commits id P os D lh (m ≫= k) Q.
Proof.
  intros Hg Hm s Hok Hv Hx. specialize (Hm s Hok Hv). specialize (Hg s). unfold mbind, M_bind. destruct (m s) as [b s'| | |]; [|tauto..].
  destruct Hm as [Hok' (D' & lh' & act' & hact' & Hv' & -> & -> & HQ)]. apply HQ; [done|done|]. by apply Hg.
Qed.

Lemma changesLoop_answers r outer l s :
  match changesLoop r outer l s with Ok _ s' => s' = s | Crash _ _ => True | _ => False end.
Proof.
  induction l as [|[k v] l IH]; [done|]. simpl. unfold mbind, M_bind.
  destruct (getNewestVersion r outer k), v; try done; by destruct (changesLoop r outer l s).
Qed.

(** The entries are stamped and the transaction is sealed. *)
Lemma getChanges_open s t outer :
  LedgerOk s → txns s = t :: outer → mIsSealed t = false → mConsistency t = EXACT → mActive t = ∅ → mActiveHeader t = None →
  ∃ cs s', getChanges (txn_id t) s = Ok cs s' ∧ LedgerOk s' ∧
    views s' = mkView (txn_id t) (data <$> visible (root s) (t :: outer)) (mHeader t) ∅ None true :: viewsOf (root s) outer.
Proof.
  intros Hok Hl Hs Hc Ha Hh. pose proof (getChanges_keeps (txn_id t) s Hok) as Hk. unfold keeps, wp in Hk.
  set (t' := setSealed (setActiveHeader None (setActive ∅ (setEntry (maybeUpdateLastModified t) t)))).
  assert (E : getChanges (txn_id t) s = changesLoop (root s) outer (iterate (mEntry t')) (mkLedger (t' :: outer) (root s) (nextImpl s))).
  { unfold getChanges, throwIfNotExactConsistency, sealTxn, throwIfChild, getImpl, putTxns, modify, get, mbind, M_bind, mret, M_ret.
    rewrite Hl, findTxn_head. cbv beta iota. rewrite Hc. cbv beta iota. rewrite Hl, findTxn_head. cbv beta iota. rewrite Hs. done. }
  rewrite E in Hk |- *. pose proof (changesLoop_answers (root s) outer (iterate (mEntry t')) (mkLedger (t' :: outer) (root s) (nextImpl s))) as Han.
  destruct (changesLoop _ _ _ _) as [cs s'| | |]; [|done..]. subst s'. destruct Hk as [Hok' _]. exists cs. eexists. split; [done|]. split; [done|].
  unfold views. cbn [txns root viewsOf]. f_equal. unfold viewOf. cbn [txn_id mHeader mActive mActiveHeader mIsSealed t' setSealed setActiveHeader setActive setEntry].
  f_equal. pose proof (handover_stamped (root s) t outer) as Hst. apply stamped_data in Hst. unfold handover in Hst. rewrite Hs in Hst.
  exact Hst.
Qed.

Lemma commits_changes {A} id P os D lh (f : list LedgerEntryChange → A) Q :
  (∀ cs, Q (f cs) D lh) → commits id P os D lh (cs ← getChanges id; commit id;; mret (f cs)) Q.
Proof.
  intros HQ s Hok Hv Hx. destruct (views_cons _ _ _ Hv) as (t & outer & Hl & EV & Evs). injection EV as Eid ED Elh Eact Ehact Eseal. subst id.
  assert (Hc : mConsistency t = EXACT).
  { destruct Hx as [_ Hx]. rewrite Hl in Hx. inversion_clear Hx as [|? ? Ht _]. by apply Ht. }
  destruct (getChanges_open s t outer Hok Hl (eq_sym Eseal) Hc (eq_sym Eact) (eq_sym Ehact)) as (cs & s1 & E1 & Hok1 & Hv1).
  unfold mbind at 1, M_bind at 1. rewrite E1.
  assert (He : exec (mkView (txn_id t) D lh ∅ None true :: P :: os) (commit (txn_id t);; mret (f cs))
    (λ a vs', ∃ D' lh', vs' = setVHeader lh' (setData D' P) :: os ∧ Q a D' lh') (λ _, False)).
  { apply exec_bind, (exec_commit (mkView (txn_id t) D lh ∅ None true)), exec_ret. by exists D, lh. }
  rewrite ED, Elh in He. rewrite <- Evs in Hv1. specialize (He s1 Hok1 Hv1). destruct ((commit (txn_id t) ≫= _) s1) as [a s2| | |]; [exact He|tauto..].
Qed.

Lemma tidy_commits {A} id os D lh (m : nat → M Ledger A) Q :
  (∀ id', id' ≠ id → commits id' (mkView id D lh ∅ None false) os D lh (m id') Q) → tidy id os D lh ∅ None (withTxn id m) Q.
Proof.
  intros Hm s Hok Hv. set (P := mkView id D lh ∅ None false) in *.
  assert (Hn' : exec (P :: os) (newLedgerTxn (Some id) true)
    (λ id' vs', id' ≠ id ∧ id' ∉ v_id <$> os ∧ vs' = mkView id' D lh ∅ None false :: P :: os) (λ _, False)).
  { apply (exec_newTxn P os true); [done|]. intros id' Hid. rewrite fmap_cons, not_elem_of_cons in Hid. destruct Hid. done. }
  specialize (Hn' s Hok Hv). pose proof (gentle_newLedgerTxn (Some id) true s) as Hg. unfold withTxn. unfold mbind, M_bind.
  destruct (newLedgerTxn (Some id) true s) as [id' s1| | |] eqn:E; [|tauto..]. destruct Hn' as (Hok1 & Hne & Hin & Hv1).
  assert (Hid : id' = nextImpl s).
  { unfold newLedgerTxn, getImpl, throwIfSealed, throwIfChild, makeSharedImpl, putTxns, modify, get, mbind, M_bind, mret, M_ret in E.
    destruct (findTxn id (txns s)) as [[[[|? ?] t] outer]|]; try destruct (mIsSealed t); try done. by injection E. }
  assert (Hx : exactFrom id' s1).
  { apply Hg. subst id'. split; [done|]. eapply Forall_impl; [exact (lo_fresh _ Hok)|]. simpl. lia. }
  specialize (Hm id' Hne s1 Hok1 Hv1 Hx). unfold scoped. destruct (m id' s1) as [a s2| | |]; [|tauto..].
  destruct Hm as (Hok2 & D' & lh' & Hv2 & HQ).
  assert (He : exec (setVHeader lh' (setData D' P) :: os) (destroyTxn id';; mret a)
    (λ a vs', ∃ D' lh' act' hact', vs' = mkView id D' lh' act' hact' false :: os ∧ act' = ∅ ∧ hact' = None ∧ Q a D' lh') (λ _, False)).
  { apply exec_bind, exec_destroyTxn_gone; [rewrite fmap_cons, not_elem_of_cons; done|]. apply exec_ret. by exists D', lh', ∅, None. }
  exact (He s2 Hok2 Hv2).
Qed.
End Changes.

(** ** Programs that lose the process *)

Section Crashes.
Context `{HashOrder} (w : string).

Definition crashes {A} (id : nat) (os : list View) (D : Entries) (lh : LedgerHeader) (m : M Ledger A) : Prop :=
  ∀ s, LedgerOk s → views s = mkView id D lh ∅ None false :: os → ∃ s', m s = Crash w s'.

Lemma crashes_bind {A B} id os D lh (m : M Ledger B) (k : B → M Ledger A) :
  tidy id os D lh ∅ None m (λ b D' lh', crashes id os D' lh' (k b)) → crashes id os D lh (m ≫= k).
Proof.
  intros Hm s Hok Hv. specialize (Hm s Hok Hv). unfold mbind, M_bind. destruct (m s) as [b s'| | |]; [|tauto..].
  destruct Hm as [Hok' (D' & lh' & act' & hact' & Hv' & -> & -> & HQ)]. by apply HQ.
Qed.
Lemma crashes_here {A B} id os D lh (m : M Ledger B) (k : B → M Ledger A) : crashes id os D lh m → crashes id os D lh (m ≫= k).
Proof. intros Hm s Hok Hv. destruct (Hm s Hok Hv) as [s' E]. unfold mbind, M_bind. rewrite E. by exists s'. Qed.
Lemma crashes_crash {A} id os D lh : crashes id os D lh (crash w : M Ledger A).
Proof. intros s _ _. by exists s. Qed.
Lemma crashes_withTxn {A} id os D lh (m : nat → M Ledger A) :
  (∀ id', id' ≠ id → crashes id' (mkView id D lh ∅ None false :: os) D lh (m id')) → crashes id os D lh (withTxn id m).
Proof.
  intros Hm s Hok Hv. set (P := mkView id D lh ∅ None false) in *.
  assert (Hn : exec (P :: os) (newLedgerTxn (Some id) true) (λ id' vs', id' ≠ id ∧ vs' = mkView id' D lh ∅ None false :: P :: os) (λ _, False)).
  { apply (exec_newTxn P os true); [done|]. intros id' Hid. rewrite fmap_cons, not_elem_of_cons in Hid. by destruct Hid. }
  specialize (Hn s Hok Hv). unfold withTxn, mbind, M_bind. destruct (newLedgerTxn (Some id) true s) as [id' s1| | |]; [|tauto..].
  destruct Hn as (Hok1 & Hne & Hv1). destruct (Hm id' Hne s1 Hok1 Hv1) as [s2 E]. unfold scoped. rewrite E. by exists s2.
Qed.
End Crashes.

(** ** The transaction *)

Section Poor.
Context `{HashOrder} `{Crypto} (env : TransactionEnvelope) (contentsHash : Z) (lh : LedgerHeader).
Context (Hm : modern lh).

Definition source : AccountID := tx_sourceAccount (tx env).

(** The transaction passes all checks before the one of the balance: [acc], its source, has less than its reserve and
    its liabilities. *)
Record poor (D : Entries) (acc : AccountEntry) : Prop := {
  pr_ops : operations (tx env) ≠ [];
  pr_time : timeValid env lh;
  pr_fee : getMinFee env lh <= tx_fee (tx env);
  pr_acc : accountAt D source = Some acc;
  pr_seq : acc_seqNum acc ≠ INT64_MAX ∧ acc_seqNum acc + 1 = tx_seqNum (tx env);
  pr_signed : signedFor env contentsHash lh (sourceCheck acc);
  pr_short : spendable lh acc < 0 }.

Definition opSigned (D : Entries) (op : Operation) : Prop :=
  ∃ k, operationCheck env D op = Some k ∧ signedFor env contentsHash lh k.
(** Every signature counts for the source or for an operation. *)
Definition allUsed (D : Entries) (acc : AccountEntry) : Prop :=
  ∀ i, (i < length (signatures env))%nat →
    counts env contentsHash lh (sourceCheck acc) i ∨
    ∃ op k, op ∈ operations (tx env) ∧ operationCheck env D op = Some k ∧ counts env contentsHash lh k i.
(** No account has the transaction itself as a signer: such a signer is removed when it is used. *)
Definition noPreAuth (D : Entries) : Prop :=
  ∀ a acc, accountAt D a = Some acc → Forall (λ s, signer_key s ≠ SIGNER_KEY_TYPE_PRE_AUTH_TX contentsHash) (acc_signers acc).

Definition bumped (acc : AccountEntry) : AccountEntry := acc_setSeqNum (tx_seqNum (tx env)) acc.
Definition afterSeq (D : Entries) (acc : AccountEntry) : Entries := <[ACCOUNT source := Account (bumped acc)]> D.

Lemma tidy_commonValid_poor id os D acc Q :
  Valid lh D → poor D acc →
  Q (kInvalidPostAuth, Some txINSUFFICIENT_BALANCE, (runCheck env contentsHash lh (sourceCheck acc) (newSignatureChecker (signatures env))).2) D lh →
  tidy id os D lh ∅ None (commonValid env contentsHash (newSignatureChecker (signatures env)) id 0 true) Q.
Proof.
  intros HV [H1 H2 H3 Ha [Hs1 Hs2] Hsig Hshort] HQ. unfold commonValid. apply tidy_withTxn; [done..|]. intros id' _. apply ends_tidy. tstep.
  apply (tidy_preSeqNum env lh D Hm HV). intros code Hcode.
  assert (code = None) as -> by (apply Hcode; split_and!; [done..|by exists acc]).
  tstep. unfold tx_loadSourceAccount. apply (tidy_txAccount lh D Hm HV); [done|done|unfold source in Ha; congruence|].
  intros j acc' Ha' Hd. unfold source in Ha. rewrite Ha in Ha'. injection Ha' as <-. destruct (HV _ _ Hd) as [_ Hok].
  assert (Hact : <[ACCOUNT (tx_sourceAccount (tx env)) := MutableImpl j]> ∅ !! ACCOUNT (tx_sourceAccount (tx env)) = Some (MutableImpl j))
    by by rewrite lookup_insert_eq.
  do 2 tstep. rewrite (proj2 (Z.leb_le 10 _)) by apply Hm. cbn [orb andb negb]. rewrite Z.eqb_refl. tstep. tstep.
  apply tidy_currentAccount with acc; [done..|]. tstep. rewrite (proj2 (Z.eqb_neq _ _)) by done. rewrite (proj2 (Z.eqb_eq _ _)) by done. cbn [orb negb].
  tstep. apply tidy_currentAccount with acc; [done..|].
  change (tx_checkSignature (ledgerVersion lh) contentsHash (signatures env) acc (getNeededThreshold acc LOW) (newSignatureChecker (signatures env)))
    with (runCheck env contentsHash lh (sourceCheck acc) (newSignatureChecker (signatures env))).
  unfold signedFor in Hsig. destruct (runCheck _ _ _ _ _) as [ok c'] eqn:Ek. cbn [fst snd] in Hsig, HQ. rewrite Hsig. cbn [negb]. tstep.
  apply tidy_available with acc; [done..|]. rewrite (proj2 (Z.ltb_lt 8 _)) by (destruct Hm; lia). cbn [andb]. rewrite (proj2 (Z.ltb_lt _ _)) by lia.
  by tstep.
Qed.

Lemma tidy_processSeqNum_poor id os D acc Q :
  Valid lh D → poor D acc → Q tt (afterSeq D acc) lh → tidy id os D lh ∅ None (processSeqNum env id) Q.
Proof.
  intros HV [_ _ _ Ha [_ Hs] _ _] HQ. unfold processSeqNum, tx_loadSourceAccount. do 3 tstep. rewrite (proj2 (Z.leb_le 10 _)) by apply Hm.
  apply (tidy_txAccount lh D Hm HV); [done|done|unfold source in Ha; congruence|].
  intros j acc' Ha' Hd. unfold source in Ha. rewrite Ha in Ha'. injection Ha' as <-. destruct (HV _ _ Hd) as [Hk _].
  tstep. apply tidy_currentAccount with acc; [by rewrite lookup_insert_eq|done|]. rewrite (proj2 (Z.ltb_ge _ _)) by lia.
  apply tidy_modifyAccount with acc; [by rewrite lookup_insert_eq|done|done|done|done].
Qed.

(** *** After the sequence number *)

Lemma accountAt_after D acc a : accountAt D source = Some acc →
  accountAt (afterSeq D acc) a = if decide (a = source) then Some (bumped acc) else accountAt D a.
Proof.
  intros Ha. unfold accountAt, afterSeq. destruct (decide (a = source)) as [->|Hne]; [by rewrite lookup_insert_eq|].
  rewrite lookup_insert_ne; [done|]. intros [= E]. by symmetry in E.
Qed.
Lemma operationCheck_after D acc op : accountAt D source = Some acc → operationCheck env (afterSeq D acc) op = operationCheck env D op.
Proof.
  intros Ha. unfold operationCheck. rewrite (accountAt_after D acc) by done. case_decide as E; [|done]. by rewrite E, Ha.
Qed.
Lemma Valid_after D acc : Valid lh D → accountAt D source = Some acc → Valid lh (afterSeq D acc).
Proof.
  intros HV Ha. destruct (accountAt_Some lh D _ _ HV Ha) as (_ & Eid & Hok). apply Valid_insert; [done|by rewrite Eid|exact Hok].
Qed.
Lemma noPreAuth_after D acc : accountAt D source = Some acc → noPreAuth D → noPreAuth (afterSeq D acc).
Proof.
  intros Ha Hp a acc'. rewrite (accountAt_after D acc) by done. case_decide; [|apply Hp]. intros [= <-]. exact (Hp _ _ Ha).
Qed.

(** *** The signatures of the operations *)

Lemma runCheck_keys k c : Forall (λ s, signer_key s ≠ SIGNER_KEY_TYPE_PRE_AUTH_TX contentsHash) k.1.2 →
  mUsedOneTimeSignerKeys (runCheck env contentsHash lh k c).2 = mUsedOneTimeSignerKeys c.
Proof.
  intros Hk. unfold runCheck, checker_checkSignature. destruct (_ =? 7); [done|].
  assert (Hloop : ∀ l w, Forall (λ s, signer_key s ≠ SIGNER_KEY_TYPE_PRE_AUTH_TX contentsHash) l →
    preAuthLoop (ledgerVersion lh) contentsHash k.1.1 k.2 l w c = (false, w, c)).
  { induction l as [|s l IH]; intros w Hl; [done|]. inversion_clear Hl. simpl. rewrite bool_decide_false by done. by apply IH. }
  rewrite Hloop.
  - repeat (destruct (verifyAll _ _ _ _ _ _ _ _) as [[[] ?] ?]; try done).
  - rewrite Forall_forall in *. intros s Hs. apply Hk. rewrite list_elem_of_In in Hs |- *. by apply filter_In in Hs as [Hs _].
Qed.
Lemma signersOf_noPreAuth D a acc : noPreAuth D → accountAt D a = Some acc →
  Forall (λ s, signer_key s ≠ SIGNER_KEY_TYPE_PRE_AUTH_TX contentsHash) (signersOf acc).
Proof. intros Hp Ha. unfold signersOf. apply Forall_app. split; [|by apply (Hp a)]. destruct (negb _); repeat constructor. done. Qed.
Lemma operationCheck_keys D op k c : noPreAuth D → operationCheck env D op = Some k →
  mUsedOneTimeSignerKeys (runCheck env contentsHash lh k c).2 = mUsedOneTimeSignerKeys c.
Proof.
  intros Hp Hk. apply runCheck_keys. unfold operationCheck in Hk. destruct (accountAt D _) as [acc|] eqn:E.
  - injection Hk as <-. by eapply signersOf_noPreAuth.
  - destruct (op_sourceAccount op); [|done]. injection Hk as <-. by repeat constructor.
Qed.

Lemma tidy_checkSignatures id os D ops : Valid lh D → noPreAuth D → ∀ i c r ks Q,
  Forall (opSigned D) ops → marked env contentsHash lh ks c → mUsedOneTimeSignerKeys c = [] →
  (∀ c' ks', Forall2 (λ op k, operationCheck env D op = Some k) ops ks' → marked env contentsHash lh (ks' ++ ks) c' →
     mUsedOneTimeSignerKeys c' = [] → Q (true, c', r) D lh) →
  tidy id os D lh ∅ None (checkSignatures env contentsHash ops i id true c r) Q.
Proof.
  intros HV Hp. induction ops as [|op ops IH]; intros i c r ks Q Hs Hc Hk HQ; cbn [checkSignatures].
  { tstep. by apply (HQ c []); [constructor|..]. }
  inversion_clear Hs as [|? ? Hop Hs']. tstep. apply (tidy_opSignature env contentsHash lh D Hm HV) with ks; [done|]. intros failed c' Hf Hmark.
  apply Hf in Hop as Ef. subst failed. destruct Hop as (k & Ek & _). destruct (Hmark k Ek) as [-> Hmk].
  apply IH with (k :: ks); [done|done|by rewrite (operationCheck_keys D op)|]. intros c2 ks' HF Hm2 Hk2. apply (HQ c2 (k :: ks')); [by constructor| |done].
  destruct Hm2 as [Hl2 Hm2]. split; [done|]. intros j. rewrite Hm2.
  assert (Hperm : ks' ++ k :: ks ≡ₚ (k :: ks') ++ ks) by (symmetry; apply Permutation_middle). by setoid_rewrite Hperm.
Qed.

Notation dangling := "dangling reference to an operation result"%string.

Lemma crashes_checkSignatures id os D ops : Valid lh D → ∀ i b c r ks,
  ¬ Forall (opSigned D) ops → marked env contentsHash lh ks c → txResult r = txINSUFFICIENT_BALANCE →
  crashes dangling id os D lh (checkSignatures env contentsHash ops i id b c r).
Proof.
  intros HV. induction ops as [|op ops IH]; intros i b c r ks Hs Hc Hr; cbn [checkSignatures]; [by destruct Hs|].
  apply crashes_bind, (tidy_opSignature env contentsHash lh D Hm HV) with ks; [done|]. intros failed c' Hf Hmark. destruct failed as [x|].
  - apply crashes_here. unfold setResult. rewrite Hr. apply crashes_crash.
  - pose proof (proj1 Hf eq_refl) as Hop. pose proof Hop as (k & Ek & _). apply IH with (k :: ks); [|by apply Hmark|done]. intros Hs'. destruct Hs. by constructor.
Qed.

Lemma crashes_processSignatures id os D c r ks : Valid lh D →
  ¬ Forall (opSigned D) (operations (tx env)) → marked env contentsHash lh ks c → txResult r = txINSUFFICIENT_BALANCE →
  crashes dangling id os D lh (processSignatures env contentsHash c id r).
Proof.
  intros HV Hs Hc Hr. unfold processSignatures. apply crashes_here, crashes_withTxn. intros id' _. apply crashes_bind. tstep.
  rewrite (proj2 (Z.ltb_ge _ _)) by apply Hm. apply crashes_here. by apply crashes_checkSignatures with ks.
Qed.

Lemma tidy_processSignatures id os D c r ks Q : Valid lh D → noPreAuth D →
  Forall (opSigned D) (operations (tx env)) → marked env contentsHash lh ks c → mUsedOneTimeSignerKeys c = [] →
  (∀ ok c' r' ks', Forall2 (λ op k, operationCheck env D op = Some k) (operations (tx env)) ks' →
     (ok = true ↔ ∀ i, (i < length (signatures env))%nat → ∃ k, k ∈ ks' ++ ks ∧ counts env contentsHash lh k i) →
     r' = (if (ok : bool) then r else setCode txBAD_AUTH_EXTRA r) → Q (ok, c', r') D lh) →
  tidy id os D lh ∅ None (processSignatures env contentsHash c id r) Q.
Proof.
  intros HV Hp Hs Hc Hk HQ. unfold processSignatures. tstep. apply tidy_withTxn; [done..|]. intros id' _. apply ends_tidy. do 2 tstep.
  rewrite (proj2 (Z.ltb_ge _ _)) by apply Hm. tstep. apply tidy_checkSignatures with ks; [done..|]. intros c' ks' HF Hm2 Hk2. tstep.
  rewrite Hk2. cbn [removeUsedOneTimeSignerKeys]. do 2 tstep. pose proof (marked_all _ _ _ _ _ (proj2 Hm) Hm2) as Hall.
  destruct (checkAllSignaturesUsed (ledgerVersion lh) c') eqn:Eu; cbn [negb]; tstep; eapply HQ; [exact HF|by rewrite <- Hall|done|exact HF|by rewrite <- Hall|done].
Qed.

(** *** Applying *)

Context (fuel : nat) (inv : Operation → OperationResult → Delta → option string).

Lemma poor_marked acc : marked env contentsHash lh [sourceCheck acc]
  (runCheck env contentsHash lh (sourceCheck acc) (newSignatureChecker (signatures env))).2.
Proof. apply runCheck_marked, marked_new. Qed.

Lemma crashes_apply id os D acc r : Valid lh D → poor D acc → ¬ Forall (opSigned D) (operations (tx env)) →
  crashes dangling id os D lh (apply fuel inv env contentsHash id r).
Proof.
  intros HV Hp Hs. unfold apply. apply crashes_bind. tstep. apply crashes_here, crashes_withTxn. intros id' _.
  apply crashes_bind, (tidy_commonValid_poor _ _ D acc); [done|done|]. apply crashes_bind, (tidy_processSeqNum_poor _ _ D acc); [done|done|].
  apply crashes_here, crashes_processSignatures with [sourceCheck acc]; [by apply Valid_after, Hp| |apply poor_marked|done].
  intros Hs'. apply Hs. eapply Forall_impl; [exact Hs'|]. intros op (k & Hk & Hk'). exists k. split; [|done]. rewrite <- (operationCheck_after D acc) by apply Hp. exact Hk.
Qed.

Lemma tidy_apply_poor id os D acc r Q : Valid lh D → poor D acc → Forall (opSigned D) (operations (tx env)) → noPreAuth D →
  (∀ code changes, (allUsed D acc → code = txINSUFFICIENT_BALANCE) → (¬ allUsed D acc → code = txBAD_AUTH_EXTRA) →
     Q (false, setCode code r, changes, []) (afterSeq D acc) lh) →
  tidy id os D lh ∅ None (apply fuel inv env contentsHash id r) Q.
Proof.
  intros HV Hp Hs Hn HQ. unfold apply. do 2 tstep. apply tidy_bind, tidy_commits. intros id' _.
  apply commits_bind; [eauto with keeps|]. apply (tidy_commonValid_poor _ _ D acc); [done|done|]. cbv zeta.
  apply commits_bind; [eauto with keeps|]. apply (tidy_processSeqNum_poor _ _ D acc); [done|done|].
  apply commits_bind; [eauto with keeps|]. pose proof (pr_acc _ _ Hp) as Ha.
  apply tidy_processSignatures with [sourceCheck acc]; [by apply Valid_after|by apply noPreAuth_after| |apply poor_marked| |].
  - eapply Forall_impl; [exact Hs|]. intros op (k & Hk & Hk'). exists k. split; [|done]. by rewrite operationCheck_after.
  - rewrite runCheck_keys; [done|]. by eapply signersOf_noPreAuth.
  - intros ok c' r' ks' HF Hok ->. assert (HF' : Forall2 (λ op k, operationCheck env D op = Some k) (operations (tx env)) ks').
    { eapply Forall2_impl; [exact HF|]. intros op k. cbv beta. by rewrite operationCheck_after. }
    setoid_rewrite (checks_cover env contentsHash lh D _ _ _ _ HF') in Hok. fold (allUsed D acc) in Hok.
    apply commits_changes. intros cs. rewrite andb_false_r. tstep.
    destruct ok; [apply (HQ txINSUFFICIENT_BALANCE)|apply (HQ txBAD_AUTH_EXTRA)]; try done; intros Hu; [destruct Hu; by apply Hok|by apply Hok in Hu].
Qed.
End Poor.

(** C35: [TransactionFrame::apply] checks the signatures of the operations also when the source of the transaction is signed
    for but has less than its reserve ([kInvalidPostAuth]). The code txINSUFFICIENT_BALANCE has already destroyed the
    results of the operations, and a check that fails writes into them. On every valid ledger of version 10 or later, for
    every transaction with such a source that passes the earlier checks: if the signatures do not suffice for one of its
    operations, the process is lost through the dangling reference; if they suffice for all, and no account has the
    transaction itself as a signer, [apply] returns: the transaction fails with txINSUFFICIENT_BALANCE, or txBAD_AUTH_EXTRA
    if a signature is not needed, and the sequence number of its source is all that has changed. *)
Theorem insufficient_balance_dangles `{HashOrder} `{Crypto} fuel inv s t outer env contentsHash acc r :
  ledgerReachable s → txns s = t :: outer → idle t → modern (shownHeader s) → Valid (shownHeader s) (shown s) →
  poor env contentsHash (shownHeader s) (shown s) acc →
  let signed := Forall (opSigned env contentsHash (shownHeader s) (shown s)) (operations (tx env)) in
  (¬ signed → ∃ s', apply fuel inv env contentsHash (txn_id t) r s = Crash "dangling reference to an operation result" s') ∧
  (signed → noPreAuth contentsHash (shown s) →
   ∃ code changes s', apply fuel inv env contentsHash (txn_id t) r s = Ok (false, setCode code r, changes, []) s' ∧
     sameOpen s s' ∧ shown s' = afterSeq env (shown s) acc ∧ shownHeader s' = shownHeader s ∧
     (allUsed env contentsHash (shownHeader s) (shown s) acc → code = txINSUFFICIENT_BALANCE) ∧
     (¬ allUsed env contentsHash (shownHeader s) (shown s) acc → code = txBAD_AUTH_EXTRA)).
Proof.
  intros Hr Hl Hi Hm HV Hp signed. split.
  - intros Hs. destruct Hi as (Es & Ea & Eh). apply (crashes_apply env contentsHash (shownHeader s) Hm fuel inv (txn_id t) (viewsOf (root s) outer) (shown s) acc r HV Hp Hs).
    + by apply reachable_ok.
    + unfold views, shown, shownHeader. rewrite Hl. cbn [viewsOf]. unfold viewOf. by rewrite Ea, Eh, Es.
  - intros Hs Hn. destruct (tidy_ledger s t outer (apply fuel inv env contentsHash (txn_id t) r)
      (λ x D' lh', D' = afterSeq env (shown s) acc ∧ lh' = shownHeader s ∧ ∃ code changes, x = (false, setCode code r, changes, []) ∧
         (allUsed env contentsHash (shownHeader s) (shown s) acc → code = txINSUFFICIENT_BALANCE) ∧
         (¬ allUsed env contentsHash (shownHeader s) (shown s) acc → code = txBAD_AUTH_EXTRA)) Hr Hl Hi) as (x & s' & E & Hsame & HD & Hlh & code & changes & -> & H1 & H2).
    { apply (tidy_apply_poor env contentsHash (shownHeader s) Hm) with acc; [done..|]. intros code changes H1 H2. split_and!; [done|done|]. by exists code, changes. }
    by exists code, changes, s'.
Qed.

(** *** The two outcomes *)

(** The account 5 of the example with 100 lumens, less than its reserve: its operation has the source 8, once without and
    once with that account's signature. *)
Definition poorSource : AccountEntry := mkAccount 5 100 3 1 None 0 [] [1; 0; 0; 0] [] None.
Definition poorEntries : list (LedgerKey * EntryData) := (ACCOUNT 5, Account poorSource) :: filter (λ kd, kd.1 ≠ ACCOUNT 5) opEntries.
Definition poorLedger : Ledger :=
  stateAfter (runOp (NewTxn None true) (mkLedger [] (mkRoot opHeader (list_to_map (prod_map id (mkEntry 0) <$> poorEntries))) 0)).
Definition poorTop : LedgerTxn := default opTop (head (txns poorLedger)).
Definition poorEnvelope (sigs : list DecoratedSignature) : TransactionEnvelope :=
  mkTxEnvelope (mkTransaction 5 1000 4 None [mkOperation (Some 8) opPayment]) sigs.
Definition oneSignature : TransactionEnvelope := poorEnvelope [mkSignature 5 [5; 99]].
Definition twoSignatures : TransactionEnvelope := poorEnvelope [mkSignature 5 [5; 99]; mkSignature 8 [8; 99]].

Lemma poorLedger_top : txns poorLedger = [poorTop].
Proof. vm_compute. reflexivity. Qed.
Lemma poorTop_id : txn_id poorTop = 0%nat.
Proof. vm_compute. reflexivity. Qed.
Lemma poorTop_idle : idle poorTop.
Proof. split; [vm_compute; reflexivity|]. split; vm_compute; reflexivity. Qed.
Lemma poorLedger_reachable : ledgerReachable poorLedger.
Proof. apply opened_reachable. vm_compute. reflexivity. Qed.
Lemma poorLedger_header : shownHeader poorLedger = opHeader.
Proof. vm_compute. reflexivity. Qed.
Lemma poorLedger_shown : shown poorLedger = list_to_map poorEntries.
Proof. apply (bool_decide_eq_true_1 _). vm_compute. reflexivity. Qed.
Lemma poorLedger_valid : Valid opHeader (shown poorLedger).
Proof.
  rewrite poorLedger_shown. apply Valid_list. constructor; [simpl; unfold subEntriesOk, is_i64; vm_compute; intuition congruence|].
  pose proof opEntries_ok as Hok. rewrite Forall_forall in *. intros kd [_ Hin]%list_elem_of_filter. by apply Hok.
Qed.
Lemma poor_example sigs : signedFor (H0 := toyCrypto) (poorEnvelope sigs) 99 opHeader (sourceCheck poorSource) →
  poor (H0 := toyCrypto) (poorEnvelope sigs) 99 opHeader (shown poorLedger) poorSource.
Proof. intros Hs. split; try done; vm_compute; repeat split; congruence. Qed.
Lemma poorSource_signed : signedFor (H0 := toyCrypto) oneSignature 99 opHeader (sourceCheck poorSource) ∧
  signedFor (H0 := toyCrypto) twoSignatures 99 opHeader (sourceCheck poorSource).
Proof. split; vm_compute; reflexivity. Qed.

(** The check of the operation. *)
Definition poorOp : Operation := mkOperation (Some 8) opPayment.
Definition poorCheck : SigCheck :=
  default (sourceCheck poorSource) (operationCheck twoSignatures (shown poorLedger) poorOp).
Lemma poorCheck_is : operationCheck twoSignatures (shown poorLedger) poorOp = Some poorCheck.
Proof. vm_compute. reflexivity. Qed.
Lemma poorCheck_signed : signedFor (H0 := toyCrypto) twoSignatures 99 opHeader poorCheck.
Proof. vm_compute. reflexivity. Qed.
Lemma poorCheck_counts : counts (H0 := toyCrypto) twoSignatures 99 opHeader (sourceCheck poorSource) 0 ∧
  counts (H0 := toyCrypto) twoSignatures 99 opHeader poorCheck 1.
Proof. split; vm_compute; reflexivity. Qed.

(** The account 8 has not signed: the signature of the account 5 is the only one. *)
Lemma unsigned_example : ¬ Forall (opSigned (H0 := toyCrypto) oneSignature 99 opHeader (shown poorLedger)) (operations (tx oneSignature)).
Proof. intros Hs. inversion_clear Hs as [|? ? (k & Ek & Hk) _]. vm_compute in Ek. injection Ek as <-. vm_compute in Hk. done. Qed.
Lemma signed_example : Forall (opSigned (H0 := toyCrypto) twoSignatures 99 opHeader (shown poorLedger)) (operations (tx twoSignatures)).
Proof. constructor; [|constructor]. exists poorCheck. split; [apply poorCheck_is|apply poorCheck_signed]. Qed.
Lemma noPreAuth_example : noPreAuth 99 (shown poorLedger).
Proof.
  rewrite poorLedger_shown. intros a acc Ha. unfold accountAt in Ha. destruct (list_to_map poorEntries !! ACCOUNT a) as [d|] eqn:E; [|done].
  assert (Hall : Forall (λ kd, match kd.2 with Account acc => acc_signers acc = [] | _ => True end) poorEntries) by (vm_compute; by repeat constructor).
  apply elem_of_list_to_map_2 in E. rewrite Forall_forall in Hall. specialize (Hall _ E). destruct d; try done. injection Ha as ->. by rewrite Hall.
Qed.

Definition poorRun (env : TransactionEnvelope) :=
  apply (H0 := toyCrypto) 10 (λ _ _ _, None) env 99 0 (resetResults env opHeader 100) poorLedger.

Lemma insufficient_balance_dangles_witness :
  (∃ s', poorRun oneSignature = Crash "dangling reference to an operation result" s') ∧
  (∃ r changes s', poorRun twoSignatures = Ok (false, r, changes, []) s' ∧ txResult r = txINSUFFICIENT_BALANCE ∧
     accountAt (shown s') 5 = Some (acc_setSeqNum 4 poorSource)).
Proof.
  pose proof poorLedger_valid as HV. rewrite <- poorLedger_header in HV.
  assert (Hm : modern (shownHeader poorLedger)) by (by vm_compute). split.
  - pose proof (insufficient_balance_dangles (H0 := toyCrypto) 10 (λ _ _ _, None) poorLedger poorTop [] oneSignature 99 poorSource
      (resetResults oneSignature opHeader 100) poorLedger_reachable poorLedger_top poorTop_idle Hm HV) as Hx.
    rewrite poorLedger_header, poorTop_id in Hx. destruct (Hx (poor_example _ (proj1 poorSource_signed))) as [Hcrash _]. exact (Hcrash unsigned_example).
  - pose proof (insufficient_balance_dangles (H0 := toyCrypto) 10 (λ _ _ _, None) poorLedger poorTop [] twoSignatures 99 poorSource
      (resetResults twoSignatures opHeader 100) poorLedger_reachable poorLedger_top poorTop_idle Hm HV) as Hx.
    rewrite poorLedger_header, poorTop_id in Hx. destruct (Hx (poor_example _ (proj2 poorSource_signed))) as [_ Hok].
    destruct (Hok signed_example noPreAuth_example) as (code & changes & s' & E & _ & HD & _ & Hused & _).
    exists (setCode code (resetResults twoSignatures opHeader 100)), changes, s'. split; [exact E|]. split.
    + apply Hused. intros [|[|i]] Hi; [left; apply poorCheck_counts| |simpl in Hi; lia].
      right. exists poorOp, poorCheck. split; [apply list_elem_of_here|]. split; [apply poorCheck_is|apply poorCheck_counts].
    + rewrite HD. by vm_compute.
Defined.
