(* ===== verification/Buckets.v ===== *)
(** * Buckets

    A bucket is the sorted file of the entries that a group of ledgers created ([INITENTRY]), changed
    ([LIVEENTRY]) or erased ([DEADENTRY]); from protocol 11 on it begins with a [METAENTRY].
    Modelled are the order of the entries ([bucket/LedgerCmp.h]), the iterators that read and write
    a file ([bucket/BucketInputIterator.cpp], [bucket/BucketOutputIterator.cpp]) and the
    operations [fresh] and [merge] of [bucket/Bucket.cpp].

    A bucket is the list of the entries of its file, the empty bucket, which has no file, the empty
    list; a merge that writes nothing gives the empty bucket too. Counters, timers and log lines are
    left out. *)
From stdpp Require Import base list gmap strings sorting.
From Stdlib Require Import ZArith Lia.
From S2P Require Import Prelude Numeric LedgerEntries.

(** ** Results

    A call returns, throws, or fails an assertion; [OutOfFuel] is the model's recursion bound. *)
Inductive Checked (A : Type) : Type :=
| Val (a : A)
| Throws (what : string)
| Asserts (what : string)
| OutOfFuel.
Arguments Val {A} a.
Arguments Throws {A} what.
Arguments Asserts {A} what.
Arguments OutOfFuel {A}.

#[global] Instance Checked_ret : MRet Checked := λ A, Val.
#[global] Instance Checked_bind : MBind Checked := λ A B f m,
  match m with
  | Val a => f a
  | Throws w => Throws w
  | Asserts w => Asserts w
  | OutOfFuel => OutOfFuel
  end.

Definition assert (b : bool) (what : string) : Checked unit := if b then Val tt else Asserts what.

(** ** The order of keys and entries *)

(** The order xdrpp gives to a union: the discriminant, then the fields. *)
Definition assetLess (a b : Asset) : bool :=
  match a, b with
  | ASSET_TYPE_NATIVE, ASSET_TYPE_NATIVE => false
  | ASSET_TYPE_NATIVE, _ => true
  | _, ASSET_TYPE_NATIVE => false
  | ASSET_TYPE_CREDIT_ALPHANUM4 c i, ASSET_TYPE_CREDIT_ALPHANUM4 d j =>
      if list_ltb c d then true else if list_ltb d c then false else i <? j
  | ASSET_TYPE_CREDIT_ALPHANUM4 _ _, ASSET_TYPE_CREDIT_ALPHANUM12 _ _ => true
  | ASSET_TYPE_CREDIT_ALPHANUM12 _ _, ASSET_TYPE_CREDIT_ALPHANUM4 _ _ => false
  | ASSET_TYPE_CREDIT_ALPHANUM12 c i, ASSET_TYPE_CREDIT_ALPHANUM12 d j =>
      if list_ltb c d then true else if list_ltb d c then false else i <? j
  end.

Definition ledgerEntryType (k : LedgerKey) : Z :=
  match k with ACCOUNT _ => 0 | TRUSTLINE _ _ => 1 | OFFER _ _ => 2 | DATA _ _ => 3 end.

Definition LedgerEntryIdCmp (a b : LedgerKey) : bool :=
  let aty := ledgerEntryType a in
  let bty := ledgerEntryType b in
  if aty <? bty then true
  else if bty <? aty then false
  else match a, b with
       | ACCOUNT x, ACCOUNT y => x <? y
       | TRUSTLINE x s, TRUSTLINE y t =>
           if x <? y then true else if y <? x then false else assetLess s t
       | OFFER x o, OFFER y p => if x <? y then true else if y <? x then false else o <? p
       | DATA x n, DATA y m => if x <? y then true else if y <? x then false else list_ltb n m
       | _, _ => false
       end.

Inductive BucketEntry : Type :=
| METAENTRY (ledgerVersion : Z)
| LIVEENTRY (liveEntry : LedgerEntry)
| DEADENTRY (deadEntry : LedgerKey)
| INITENTRY (liveEntry : LedgerEntry).
#[global] Instance BucketEntry_eq_dec : EqDecision BucketEntry.
Proof. solve_decision. Defined.

Definition bucketEntryType (e : BucketEntry) : Z :=
  match e with METAENTRY _ => -1 | LIVEENTRY _ => 0 | DEADENTRY _ => 1 | INITENTRY _ => 2 end.

Definition isMeta (e : BucketEntry) : bool := match e with METAENTRY _ => true | _ => false end.
Definition isInit (e : BucketEntry) : bool := match e with INITENTRY _ => true | _ => false end.
Definition isDead (e : BucketEntry) : bool := match e with DEADENTRY _ => true | _ => false end.

(** The comparison looks at the types first: a [METAENTRY] is below every other entry. The branches
    that throw on another type are for values outside the enumeration. *)
Definition BucketEntryIdCmp (a b : BucketEntry) : bool :=
  if isMeta a || isMeta b then bucketEntryType a <? bucketEntryType b
  else match a, b with
       | LIVEENTRY x, LIVEENTRY y | LIVEENTRY x, INITENTRY y
       | INITENTRY x, LIVEENTRY y | INITENTRY x, INITENTRY y =>
           LedgerEntryIdCmp (LedgerEntryKey x) (LedgerEntryKey y)
       | LIVEENTRY x, DEADENTRY k | INITENTRY x, DEADENTRY k => LedgerEntryIdCmp (LedgerEntryKey x) k
       | DEADENTRY k, LIVEENTRY y | DEADENTRY k, INITENTRY y => LedgerEntryIdCmp k (LedgerEntryKey y)
       | DEADENTRY k, DEADENTRY l => LedgerEntryIdCmp k l
       | _, _ => false
       end.

(** ** Files *)

Notation Bucket := (list BucketEntry) (only parsing).

Definition FIRST_PROTOCOL_SUPPORTING_INITENTRY_AND_METAENTRY : Z := 11.

Definition checkProtocolLegality (entry : BucketEntry) (protocolVersion : Z) : Checked unit :=
  if (protocolVersion <? FIRST_PROTOCOL_SUPPORTING_INITENTRY_AND_METAENTRY) && (isInit entry || isMeta entry)
  then Throws "unsupported entry type"
  else Val tt.

(** [mIn]: what is left of the file; [mEntry]: what [mEntryPtr] points to. *)
Record BucketInputIterator := mkInput {
  mIn : list BucketEntry; mEntry : option BucketEntry;
  mSeenMetadata : bool; mSeenOtherEntries : bool; mMetadata : Z }.

Fixpoint loadEntry (file : list BucketEntry) (seenMetadata seenOtherEntries : bool) (metadata : Z) :
    Checked BucketInputIterator :=
  match file with
  | [] => mret (mkInput [] None seenMetadata seenOtherEntries metadata)
  | METAENTRY v :: rest =>
      if seenMetadata then Throws "Malformed bucket: multiple META entries."
      else if seenOtherEntries then Throws "Malformed bucket: META after other entries."
      else loadEntry rest true seenOtherEntries v
  | e :: rest =>
      _ ← (if seenMetadata then checkProtocolLegality e metadata else mret tt);
      mret (mkInput rest (Some e) seenMetadata true metadata)
  end.

Definition openBucket (bucket : Bucket) : Checked BucketInputIterator := loadEntry bucket false false 0.

Definition next (i : BucketInputIterator) : Checked BucketInputIterator :=
  loadEntry (mIn i) (mSeenMetadata i) (mSeenOtherEntries i) (mMetadata i).

Definition atEntry (i : BucketInputIterator) : bool := match mEntry i with Some _ => true | None => false end.

(** [mOut]: what is written; the counts [mObjectsPut] and [mBytesPut] are its length and size. *)
Record BucketOutputIterator := mkOutput {
  mOut : list BucketEntry; mBuf : option BucketEntry; mKeepDeadEntries : bool; mMeta : Z; mPutMeta : bool }.

Definition put (e : BucketEntry) (o : BucketOutputIterator) : Checked BucketOutputIterator :=
  _ ← checkProtocolLegality e (mMeta o);
  if isMeta e && mPutMeta o then Throws "putting META entry in bucket after initial entry"
  else if negb (mKeepDeadEntries o) && isDead e then mret o
  else
    written ← match mBuf o with
              | Some b =>
                  _ ← assert (negb (BucketEntryIdCmp e b)) "!mCmp(e, *mBuf)";
                  mret (if BucketEntryIdCmp b e then mOut o ++ [b] else mOut o)
              | None => mret (mOut o)
              end;
    mret (mkOutput written (Some e) (mKeepDeadEntries o) (mMeta o) (mPutMeta o)).

Definition openOutput (keepDeadEntries : bool) (meta : Z) : Checked BucketOutputIterator :=
  let o := mkOutput [] None keepDeadEntries meta false in
  if FIRST_PROTOCOL_SUPPORTING_INITENTRY_AND_METAENTRY <=? meta then
    o ← put (METAENTRY meta) o;
    mret (mkOutput (mOut o) (mBuf o) (mKeepDeadEntries o) (mMeta o) true)
  else mret o.

Definition getBucket (o : BucketOutputIterator) : Bucket :=
  match mBuf o with Some b => mOut o ++ [b] | None => mOut o end.

(** ** A fresh bucket *)

Fixpoint insertEntry (e : BucketEntry) (l : list BucketEntry) : list BucketEntry :=
  match l with
  | [] => [e]
  | x :: r => if BucketEntryIdCmp e x then e :: l else x :: insertEntry e r
  end.
Definition sortEntries (l : list BucketEntry) : list BucketEntry := foldr insertEntry [] l.

(** [std::adjacent_find(...) == end()]. *)
Fixpoint noAdjacent (l : list BucketEntry) : bool :=
  match l with
  | x :: ((y :: _) as r) => BucketEntryIdCmp x y && noAdjacent r
  | _ => true
  end.

Definition convertToBucketEntry (useInit : bool) (initEntries liveEntries : list LedgerEntry)
    (deadEntries : list LedgerKey) : Checked (list BucketEntry) :=
  let bucket := ((λ e, if useInit then INITENTRY e else LIVEENTRY e) <$> initEntries) ++
                (LIVEENTRY <$> liveEntries) ++ (DEADENTRY <$> deadEntries) in
  let bucket := sortEntries bucket in
  _ ← assert (noAdjacent bucket) "two entries with one key";
  mret bucket.

Fixpoint putAll (es : list BucketEntry) (o : BucketOutputIterator) : Checked BucketOutputIterator :=
  match es with
  | [] => mret o
  | e :: es => o ← put e o; putAll es o
  end.

Definition fresh (protocolVersion : Z) (initEntries liveEntries : list LedgerEntry)
    (deadEntries : list LedgerKey) : Checked Bucket :=
  let useInit := FIRST_PROTOCOL_SUPPORTING_INITENTRY_AND_METAENTRY <=? protocolVersion in
  entries ← convertToBucketEntry useInit initEntries liveEntries deadEntries;
  out ← openOutput true protocolVersion;
  out ← putAll entries out;
  mret (getBucket out).

(** ** Merging *)

(** [while (si && cmp( *si, entry)) ++si]. *)
Fixpoint scanShadow (fuel : nat) (entry : BucketEntry) (si : BucketInputIterator) : Checked BucketInputIterator :=
  match mEntry si with
  | Some s =>
      if BucketEntryIdCmp s entry then
        match fuel with
        | O => OutOfFuel
        | S fuel => si ← next si; scanShadow fuel entry si
        end
      else mret si
  | None => mret si
  end.

(** The loop over the shadows: it stops at the first that has the entry's key; the later ones are
    not advanced. *)
Fixpoint isShadowed (entry : BucketEntry) (shadowIterators : list BucketInputIterator) :
    Checked (bool * list BucketInputIterator) :=
  match shadowIterators with
  | [] => mret (false, [])
  | si :: rest =>
      si ← scanShadow (S (length (mIn si))) entry si;
      if match mEntry si with Some s => negb (BucketEntryIdCmp entry s) | None => false end
      then mret (true, si :: rest)
      else
        '(b, rest) ← isShadowed entry rest;
        mret (b, si :: rest)
  end.

Definition maybePut (out : BucketOutputIterator) (entry : BucketEntry)
    (shadowIterators : list BucketInputIterator) (keepShadowedLifecycleEntries : bool) :
    Checked (BucketOutputIterator * list BucketInputIterator) :=
  if keepShadowedLifecycleEntries && (isInit entry || isDead entry) then
    out ← put entry out;
    mret (out, shadowIterators)
  else
    '(shadowed, shadowIterators) ← isShadowed entry shadowIterators;
    if (shadowed : bool) then mret (out, shadowIterators)
    else
      out ← put entry out;
      mret (out, shadowIterators).

Definition calculateMergeProtocolVersion (maxProtocolVersion : Z) (oi ni : BucketInputIterator)
    (shadowIterators : list BucketInputIterator) : Checked (Z * bool) :=
  let protocolVersion := Z.max (mMetadata oi) (mMetadata ni) in
  let protocolVersion := foldl (λ v si, Z.max (mMetadata si) v) protocolVersion shadowIterators in
  if maxProtocolVersion <? protocolVersion then Throws "bucket protocol version exceeds maxProtocolVersion"
  else
    let keepShadowedLifecycleEntries :=
      negb (protocolVersion <? FIRST_PROTOCOL_SUPPORTING_INITENTRY_AND_METAENTRY) in
    mret (protocolVersion, keepShadowedLifecycleEntries).

Record MergeState := mkMerge {
  m_oi : BucketInputIterator; m_ni : BucketInputIterator; m_out : BucketOutputIterator;
  m_shadows : list BucketInputIterator }.

(** Dereference of an iterator at the end of its file. *)
Definition current (i : BucketInputIterator) : Checked BucketEntry :=
  match mEntry i with Some e => mret e | None => Asserts "null dereference" end.

Definition less (i j : BucketInputIterator) : bool :=
  match mEntry i, mEntry j with Some a, Some b => BucketEntryIdCmp a b | _, _ => false end.

Definition mergeCasesWithDefaultAcceptance (m : MergeState) (protocolVersion : Z)
    (keepShadowedLifecycleEntries : bool) : Checked (MergeState * bool) :=
  let oi := m_oi m in
  let ni := m_ni m in
  if negb (atEntry ni) || less oi ni then
    e ← current oi;
    _ ← checkProtocolLegality e protocolVersion;
    '(out, sh) ← maybePut (m_out m) e (m_shadows m) keepShadowedLifecycleEntries;
    oi ← next oi;
    mret (mkMerge oi ni out sh, true)
  else if negb (atEntry oi) || less ni oi then
    e ← current ni;
    _ ← checkProtocolLegality e protocolVersion;
    '(out, sh) ← maybePut (m_out m) e (m_shadows m) keepShadowedLifecycleEntries;
    ni ← next ni;
    mret (mkMerge oi ni out sh, true)
  else mret (m, false).

Definition mergeCasesWithEqualKeys (m : MergeState) (protocolVersion : Z)
    (keepShadowedLifecycleEntries : bool) : Checked MergeState :=
  oldEntry ← current (m_oi m);
  newEntry ← current (m_ni m);
  _ ← checkProtocolLegality oldEntry protocolVersion;
  _ ← checkProtocolLegality newEntry protocolVersion;
  '(out, sh) ←
    match newEntry, oldEntry with
    | INITENTRY e, DEADENTRY _ => maybePut (m_out m) (LIVEENTRY e) (m_shadows m) keepShadowedLifecycleEntries
    | INITENTRY e, _ => Throws "Malformed bucket: old non-DEAD + new INIT."
    | LIVEENTRY e, INITENTRY _ => maybePut (m_out m) (INITENTRY e) (m_shadows m) keepShadowedLifecycleEntries
    | DEADENTRY _, INITENTRY _ => mret (m_out m, m_shadows m)
    | _, INITENTRY _ => Throws "Malformed bucket: old INIT + new non-DEAD."
    | _, _ => maybePut (m_out m) newEntry (m_shadows m) keepShadowedLifecycleEntries
    end;
  oi ← next (m_oi m);
  ni ← next (m_ni m);
  mret (mkMerge oi ni out sh).

(** [while (oi || ni)]: every round consumes an entry. *)
Fixpoint mergeLoop (fuel : nat) (m : MergeState) (protocolVersion : Z) (keepShadowedLifecycleEntries : bool) :
    Checked MergeState :=
  if atEntry (m_oi m) || atEntry (m_ni m) then
    match fuel with
    | O => OutOfFuel
    | S fuel =>
        '(m, accepted) ← mergeCasesWithDefaultAcceptance m protocolVersion keepShadowedLifecycleEntries;
        m ← (if (accepted : bool) then mret m
             else mergeCasesWithEqualKeys m protocolVersion keepShadowedLifecycleEntries);
        mergeLoop fuel m protocolVersion keepShadowedLifecycleEntries
    end
  else mret m.

Fixpoint openAll (bs : list Bucket) : Checked (list BucketInputIterator) :=
  match bs with
  | [] => mret []
  | b :: bs => i ← openBucket b; rest ← openAll bs; mret (i :: rest)
  end.

Definition merge (maxProtocolVersion : Z) (oldBucket newBucket : Bucket) (shadows : list Bucket)
    (keepDeadEntries : bool) : Checked Bucket :=
  oi ← openBucket oldBucket;
  ni ← openBucket newBucket;
  shadowIterators ← openAll shadows;
  '(protocolVersion, keepShadowedLifecycleEntries) ←
    calculateMergeProtocolVersion maxProtocolVersion oi ni shadowIterators;
  out ← openOutput keepDeadEntries protocolVersion;
  m ← mergeLoop (length oldBucket + length newBucket) (mkMerge oi ni out shadowIterators)
        protocolVersion keepShadowedLifecycleEntries;
  mret (getBucket (m_out m)).

(** [containsBucketIdentity]: a walk through the file. *)
Fixpoint containsFrom (fuel : nat) (id : BucketEntry) (iter : BucketInputIterator) : Checked bool :=
  match mEntry iter with
  | Some e =>
      if negb (BucketEntryIdCmp e id || BucketEntryIdCmp id e) then mret true
      else match fuel with
           | O => OutOfFuel
           | S fuel => iter ← next iter; containsFrom fuel id iter
           end
  | None => mret false
  end.
Definition containsBucketIdentity (bucket : Bucket) (id : BucketEntry) : Checked bool :=
  iter ← openBucket bucket; containsFrom (length bucket) id iter.
