(* ===== verification/BucketsSpec.v ===== *)
(** * What merging buckets computes

    A well-formed bucket ([BucketOk]) is a finite map from keys to entries ([entryAt]); [merge] of two
    of them computes, key by key, the combination of the old entry with the new one, less what a
    shadow covers and, on the last level, less the tombstones ([mergedEntry]). It never fails when the new
    bucket initialises only keys that the old one has erased or does not have. *)
From stdpp Require Import base list gmap strings sorting.
From Stdlib Require Import ZArith Lia.
From S2P Require Import Prelude Numeric LedgerEntries Buckets.

(** ** The order *)

Lemma bind_Val {A B} (a : A) (f : A → Checked B) : (Val a ≫= f) = f a.
Proof. done. Qed.

(** A comparison that is the one of codes in an ordered type is a strict order. *)
Definition ord_via {A B} `{StrictOrdB B} (f : A → B) (lt : A → A → bool)
    (Hlt : ∀ x y, lt x y = ltb (f x) (f y)) (Hinj : ∀ x y, f x = f y → x = y) : StrictOrdB A.
Proof.
  refine {| ltb := lt |}.
  - intros x. rewrite Hlt. apply ltb_irrefl.
  - intros x y z. rewrite !Hlt. apply ltb_trans.
  - intros x y. rewrite !Hlt. intros. by apply Hinj, ltb_total.
Defined.

Definition assetCode (a : Asset) : list (list Z) :=
  match a with
  | ASSET_TYPE_NATIVE => [[0]]
  | ASSET_TYPE_CREDIT_ALPHANUM4 c i => [[1]; c; [i]]
  | ASSET_TYPE_CREDIT_ALPHANUM12 c i => [[2]; c; [i]]
  end.
Definition keyCode (k : LedgerKey) : list (list (list Z)) :=
  match k with
  | ACCOUNT a => [[[0]]; [[a]]]
  | TRUSTLINE a s => [[[1]]; [[a]]; assetCode s]
  | OFFER a o => [[[2]]; [[a]]; [[o]]]
  | DATA a n => [[[3]]; [[a]]; [n]]
  end.

Lemma if_same {A} (b : bool) (x : A) : (if b then x else x) = x.
Proof. by destruct b. Qed.

Lemma assetLess_code a b : assetLess a b = ltb (assetCode a) (assetCode b).
Proof. destruct a, b; simpl; repeat case_match; done. Qed.

Lemma keyLess_code a b : LedgerEntryIdCmp a b = ltb (keyCode a) (keyCode b).
Proof.
  destruct a, b; unfold LedgerEntryIdCmp; simpl; rewrite ?assetLess_code; simpl;
    repeat case_match; try done; try congruence.
Qed.

Lemma assetCode_inj a b : assetCode a = assetCode b → a = b.
Proof. destruct a, b; simpl; congruence. Qed.
Lemma keyCode_inj a b : keyCode a = keyCode b → a = b.
Proof.
  destruct a, b; simpl; try congruence. intros [= -> H]. f_equal. by apply assetCode_inj.
Qed.

#[global] Instance LedgerKey_ord : StrictOrdB LedgerKey :=
  ord_via keyCode LedgerEntryIdCmp keyLess_code keyCode_inj.

(** ** Entries by key *)

(** The key of an entry; a [METAENTRY] has none. *)
Definition entryKey (e : BucketEntry) : LedgerKey :=
  match e with
  | METAENTRY _ => ACCOUNT 0
  | LIVEENTRY x | INITENTRY x => LedgerEntryKey x
  | DEADENTRY k => k
  end.

Notation noMeta e := (isMeta e = false) (only parsing).

Definition keyLt (a b : BucketEntry) : Prop := ltP (entryKey a) (entryKey b).

Lemma cmp_keys a b :
  noMeta a → noMeta b → BucketEntryIdCmp a b = ltb (entryKey a) (entryKey b).
Proof. by destruct a, b. Qed.
Lemma cmp_meta v b : noMeta b → BucketEntryIdCmp (METAENTRY v) b = true ∧ BucketEntryIdCmp b (METAENTRY v) = false.
Proof. by destruct b. Qed.

(** Entries in the order of their keys, none a [METAENTRY]. *)
Definition Body (es : list BucketEntry) : Prop := Forall (λ e, noMeta e) es ∧ StronglySorted keyLt es.

Fixpoint entryAt (k : LedgerKey) (es : list BucketEntry) : option BucketEntry :=
  match es with
  | [] => None
  | e :: r => if isMeta e then entryAt k r else if bool_decide (entryKey e = k) then Some e else entryAt k r
  end.

Definition bodyOf (b : Bucket) : list BucketEntry :=
  match b with METAENTRY _ :: r => r | _ => b end.
Definition versionOf (b : Bucket) : Z :=
  match b with METAENTRY v :: _ => v | _ => 0 end.

(** From protocol 11 on a bucket begins with its version; [INITENTRY] appears only in such a bucket. *)
Record BucketOk (b : Bucket) : Prop := {
  ok_body : Body (bodyOf b);
  ok_meta : ∀ v r, b = METAENTRY v :: r → 11 <= v;
  ok_init : versionOf b < 11 → Forall (λ e, isInit e = false) (bodyOf b) }.

Lemma keyLt_trans a b c : keyLt a b → keyLt b c → keyLt a c.
Proof. unfold keyLt. by etrans. Qed.
Lemma keyLt_ne a b : keyLt a b → entryKey a ≠ entryKey b.
Proof. unfold keyLt, ltP. intros H He. by rewrite He, ltb_irrefl in H. Qed.

Lemma Body_nil : Body [].
Proof. split; constructor. Qed.
Lemma Body_cons e es : Body (e :: es) ↔ noMeta e ∧ Forall (keyLt e) es ∧ Body es.
Proof.
  unfold Body. rewrite Forall_cons. split.
  - intros [[H1 H2] H3]. inversion H3; subst. done.
  - intros (H1 & H2 & H3 & H4). split; [done|]. by constructor.
Qed.
Lemma Body_app es fs :
  Body (es ++ fs) ↔ Body es ∧ Body fs ∧ ∀ x y, x ∈ es → y ∈ fs → keyLt x y.
Proof.
  induction es as [|e es IH]; simpl.
  - split; [intros H; split_and!; [apply Body_nil|done|set_solver]|tauto].
  - rewrite !Body_cons, IH, Forall_app. setoid_rewrite elem_of_cons. rewrite !Forall_forall.
    split; [intros (?&[? ?]&?&?&?); split_and!; try done; intros x y [->|]; eauto|].
    intros ((?&?&?)&?&Happ). split_and!; eauto.
Qed.

Lemma entryAt_key k es e : entryAt k es = Some e → e ∈ es ∧ noMeta e ∧ entryKey e = k.
Proof.
  induction es as [|x es IH]; [done|]. simpl. rewrite elem_of_cons.
  destruct (isMeta x) eqn:Hx; [naive_solver|]. case_bool_decide; naive_solver.
Qed.
Lemma entryAt_None k es : entryAt k es = None ↔ ∀ e, e ∈ es → noMeta e → entryKey e ≠ k.
Proof.
  induction es as [|x es IH]; simpl; [set_solver|]. setoid_rewrite elem_of_cons.
  destruct (isMeta x) eqn:Hx; [|case_bool_decide as Hk]; rewrite ?IH.
  - split; [intros H e [->|He] Hm; [congruence|eauto]|eauto].
  - split; [done|]. intros H. by destruct (H x (or_introl eq_refl)).
  - split; [intros H e [->|He] Hm; [done|eauto]|eauto].
Qed.
Lemma entryAt_app k es fs :
  entryAt k (es ++ fs) = match entryAt k es with Some e => Some e | None => entryAt k fs end.
Proof.
  induction es as [|x es IH]; [done|]. simpl. destruct (isMeta x); [done|]. by case_bool_decide.
Qed.
Lemma entryAt_body k b : entryAt k (bodyOf b) = entryAt k b.
Proof. by destruct b as [|[] b]. Qed.
Lemma entryAt_Body_cons k e es :
  Body (e :: es) → entryAt k (e :: es) = if bool_decide (entryKey e = k) then Some e else entryAt k es.
Proof. intros [He _]%Body_cons. simpl. by rewrite He. Qed.
Lemma entryAt_above k e es : Body (e :: es) → ltP k (entryKey e) → entryAt k (e :: es) = None.
Proof.
  intros (He & Hes & Hb)%Body_cons Hk. apply entryAt_None. intros x [->|Hx]%elem_of_cons _ <-.
  - unfold ltP in Hk. by rewrite ltb_irrefl in Hk.
  - rewrite Forall_forall in Hes. specialize (Hes x Hx). unfold keyLt in Hes.
    pose proof (ltb_trans _ _ _ Hk Hes) as H. by rewrite ltb_irrefl in H.
Qed.
Lemma entryAt_elem es e : Body es → e ∈ es → entryAt (entryKey e) es = Some e.
Proof.
  induction es as [|x es IH]; [set_solver|]. intros Hb. rewrite (entryAt_Body_cons _ _ _ Hb).
  apply Body_cons in Hb as (Hx & Hes & Hb). intros [->|He]%elem_of_cons; [by rewrite bool_decide_true|].
  rewrite Forall_forall in Hes. rewrite bool_decide_false by (by apply keyLt_ne, Hes). auto.
Qed.

(** ** Iterators *)

(** The iterator has [es] before it, the current entry first. *)
Record reads (i : BucketInputIterator) (es : list BucketEntry) : Prop := {
  reads_entry : mEntry i = head es;
  reads_in : mIn i = tail es;
  reads_noMeta : Forall (λ e, noMeta e) es;
  reads_version : mSeenMetadata i = true → 11 <= mMetadata i }.

Lemma legal e v : noMeta e → (isInit e = true → 11 <= v) → checkProtocolLegality e v = Val tt.
Proof.
  intros Hm Hv. unfold checkProtocolLegality, FIRST_PROTOCOL_SUPPORTING_INITENTRY_AND_METAENTRY.
  rewrite Hm, orb_false_r. destruct (isInit e) eqn:Hi; [|by rewrite andb_false_r].
  rewrite (proj2 (Z.ltb_ge v 11)) by auto. done.
Qed.

Lemma loadEntry_reads es sm so v :
  Forall (λ e, noMeta e) es → (sm = true → 11 <= v) →
  ∃ i, loadEntry es sm so v = Val i ∧ reads i es ∧ mMetadata i = v.
Proof.
  intros Hes Hv. destruct es as [|e es]; [by eexists|].
  assert (Hl : (if sm then checkProtocolLegality e v else mret tt) = Val tt).
  { destruct sm; [|done]. apply legal; [by inversion Hes|auto]. }
  inversion Hes as [|? ? He _]; subst.
  exists (mkInput es (Some e) sm true v). split; [|by split].
  destruct e; try discriminate He; simpl; rewrite Hl; done.
Qed.

Lemma next_reads i e es :
  reads i (e :: es) → ∃ i', next i = Val i' ∧ reads i' es ∧ mMetadata i' = mMetadata i.
Proof.
  intros [He Hi Hm Hv]. unfold next. rewrite Hi. simpl. inversion Hm; subst. by apply loadEntry_reads.
Qed.

Lemma open_reads b :
  BucketOk b → ∃ i, openBucket b = Val i ∧ reads i (bodyOf b) ∧ mMetadata i = versionOf b.
Proof.
  intros [[Hn _] Hv _]. unfold openBucket.
  destruct b as [|[v| | |] b]; try by apply (loadEntry_reads _ false false 0).
  apply (loadEntry_reads b true false v); [done|]. intros _. by eapply Hv.
Qed.

Lemma openAll_reads bs :
  Forall BucketOk bs →
  ∃ sis, openAll bs = Val sis ∧ Forall2 (λ i b, reads i (bodyOf b)) sis bs ∧ mMetadata <$> sis = versionOf <$> bs.
Proof.
  induction 1 as [|b bs Hb Hbs IH]; [by exists []|].
  destruct (open_reads b Hb) as (i & Hi & Hr & Hv). destruct IH as (sis & Hs & Hrs & Hvs).
  exists (i :: sis). simpl. rewrite Hi, bind_Val, Hs, bind_Val.
  split; [done|]. split; [by constructor|]. f_equal; done.
Qed.

(** The entries of the file so far: the version, then [es]. *)
Definition metaPart (v : Z) : list BucketEntry := if 11 <=? v then [METAENTRY v] else [].

Record holds (o : BucketOutputIterator) (es : list BucketEntry) : Prop := {
  holds_bucket : getBucket o = metaPart (mMeta o) ++ es;
  holds_empty : mBuf o = None → mOut o = [];
  holds_body : Body es }.

Definition survives (keepDead : bool) (e : BucketEntry) : bool := keepDead || negb (isDead e).

Lemma put_holds o es e :
  holds o es → noMeta e → (isInit e = true → 11 <= mMeta o) → (∀ x, x ∈ es → keyLt x e) →
  ∃ o', put e o = Val o' ∧ mKeepDeadEntries o' = mKeepDeadEntries o ∧ mMeta o' = mMeta o ∧
    holds o' (es ++ if survives (mKeepDeadEntries o) e then [e] else []).
Proof.
  intros [Hb He Hes] Hm Hi Hlt. unfold put, survives.
  rewrite (legal _ _ Hm Hi), bind_Val, Hm. simpl.
  destruct (mKeepDeadEntries o) eqn:Hk, (isDead e) eqn:Hd; simpl;
    try (exists o; rewrite Hk, app_nil_r; done).
  all: assert (Hes' : Body (es ++ [e])) by
    (apply Body_app; split_and!; [done|by apply Body_cons; split_and!; auto using Body_nil|set_solver]).
  all: destruct (mBuf o) as [b|] eqn:Hbuf.
  all: try (assert (Hcmp : BucketEntryIdCmp b e = true ∧ BucketEntryIdCmp e b = false);
    [|rewrite (proj1 Hcmp), (proj2 Hcmp); simpl;
      eexists; split_and!; [done|done..|]; split; [|done..];
      unfold getBucket in *; rewrite Hbuf in Hb; simpl; by rewrite Hb, app_assoc]).
  all: try (rewrite bind_Val; eexists; split_and!; [done|done..|]; split; [|done..];
    unfold getBucket in *; rewrite Hbuf in Hb; simpl; by rewrite Hb, app_assoc).
  all: unfold getBucket in Hb; rewrite Hbuf in Hb;
    destruct (decide (es = [])) as [->|Hne].
  all: try (rewrite app_nil_r in Hb; unfold metaPart in Hb; case_match; [|by destruct (mOut o)];
    apply (app_inj_tail _ []) in Hb as [_ ->]; by apply cmp_meta).
  all: destruct (exists_last Hne) as (es' & x & ->); rewrite app_assoc in Hb;
    apply app_inj_tail in Hb as [_ ->];
    assert (Hx : keyLt x e) by (apply Hlt; set_solver);
    assert (Hxm : noMeta x) by (destruct Hes as [Hn _]; apply Forall_app in Hn as [_ Hn]; by inversion Hn);
    rewrite !cmp_keys by done; split; [done|by apply ltb_asym].
Qed.

Lemma openOutput_holds keep v :
  ∃ o, openOutput keep v = Val o ∧ mKeepDeadEntries o = keep ∧ mMeta o = v ∧ holds o [].
Proof.
  unfold openOutput, FIRST_PROTOCOL_SUPPORTING_INITENTRY_AND_METAENTRY.
  destruct (11 <=? v) eqn:Hv.
  - unfold put, checkProtocolLegality, FIRST_PROTOCOL_SUPPORTING_INITENTRY_AND_METAENTRY. simpl.
    rewrite (proj2 (Z.ltb_ge v 11)) by lia. simpl. rewrite andb_false_r. simpl.
    eexists; split_and!; [done..|]. split; [|done|apply Body_nil]. simpl. unfold metaPart. by rewrite Hv.
  - eexists; split_and!; [done..|]. split; [|done|apply Body_nil]. simpl. unfold metaPart. by rewrite Hv.
Qed.

(** ** Shadows *)

(** What a shadow's iterator has passed lies below the key [k]. *)
Definition behind (k : LedgerKey) (i : BucketInputIterator) (s : list BucketEntry) : Prop :=
  Body s ∧ ∃ d r, s = d ++ r ∧ reads i r ∧ Forall (λ x, ltP (entryKey x) k) d.

Lemma behind_mono k l i s : ltP k l → behind k i s → behind l i s.
Proof.
  intros Hkl (Hs & d & r & -> & Hr & Hd). split; [done|]. exists d, r. split_and!; [done..|].
  eapply Forall_impl; [exact Hd|]. intros x Hx. simpl in *. by etrans.
Qed.

Definition covers (k : LedgerKey) (s : list BucketEntry) : bool :=
  match entryAt k s with Some _ => true | None => false end.

Lemma entryAt_skip k d r : Forall (λ x, ltP (entryKey x) k) d → entryAt k (d ++ r) = entryAt k r.
Proof.
  intros Hd. rewrite entryAt_app. rewrite (proj2 (entryAt_None k d)); [done|].
  intros e He _ <-. rewrite Forall_forall in Hd. specialize (Hd e He). simpl in Hd. unfold ltP in Hd.
  by rewrite ltb_irrefl in Hd.
Qed.

Lemma scanShadow_stop n e i :
  match mEntry i with Some x => BucketEntryIdCmp x e = false | None => True end → scanShadow n e i = Val i.
Proof. intros H. destruct n; simpl; destruct (mEntry i); by rewrite ?H. Qed.

(** Where the scan of a shadow stops tells whether it has the key. *)
Lemma stopped_covers e i s d r :
  noMeta e → s = d ++ r → Body s → Forall (λ x, ltP (entryKey x) (entryKey e)) d → reads i r →
  match mEntry i with Some x => BucketEntryIdCmp x e = false | None => True end →
  match mEntry i with Some x => negb (BucketEntryIdCmp e x) | None => false end = covers (entryKey e) s.
Proof.
  intros He -> Hs Hd [Hre _ Hrm _]. unfold covers. rewrite (entryAt_skip _ _ _ Hd), Hre.
  apply Body_app in Hs as (_ & Hbr & _). destruct r as [|x r]; [done|]. cbn [head].
  inversion Hrm as [|? ? Hxm _]; subst. rewrite !cmp_keys by done. intros Hlt.
  destruct (ltb (entryKey e) (entryKey x)) eqn:Hlt'.
  - by rewrite (entryAt_above _ _ _ Hbr Hlt').
  - rewrite (entryAt_Body_cons _ _ _ Hbr), bool_decide_true; [done|]. by apply ltb_total.
Qed.

Lemma scanShadow_behind n e i s d r :
  noMeta e → s = d ++ r → Body s → Forall (λ x, ltP (entryKey x) (entryKey e)) d → reads i r →
  (length r <= n)%nat →
  ∃ i', scanShadow n e i = Val i' ∧ behind (entryKey e) i' s ∧
    match mEntry i' with Some x => negb (BucketEntryIdCmp e x) | None => false end = covers (entryKey e) s.
Proof.
  intros He -> Hs. revert i d r Hs. induction n as [|n IH]; intros i d r Hs Hd Hr Hn.
  all: destruct (mEntry i) as [x|] eqn:Hx; [destruct (BucketEntryIdCmp x e) eqn:Hxe|].
  all: try (exists i; rewrite scanShadow_stop by (by rewrite Hx);
    split_and!; [done|split; [done|by exists d, r]|apply (stopped_covers e i (d ++ r) d r); by rewrite ?Hx]).
  all: destruct (id Hr) as [Hre _ Hrm _]; destruct r as [|y r]; simpl in Hre, Hn; [congruence|].
  1: lia.
  rewrite Hre in Hx. injection Hx as <-. inversion Hrm as [|? ? Hym _]; subst.
  destruct (next_reads _ _ _ Hr) as (i' & Hi' & Hr' & _).
  simpl. rewrite Hre, Hxe, Hi', bind_Val.
  rewrite (cons_middle y), app_assoc in *. apply IH; [done| |done|lia].
  apply Forall_app. split; [done|]. constructor; [|done]. by rewrite cmp_keys in Hxe.
Qed.

Definition shadowed (k : LedgerKey) (ss : list (list BucketEntry)) : bool := existsb (covers k) ss.

Lemma isShadowed_spec e sis ss :
  noMeta e → Forall2 (behind (entryKey e)) sis ss →
  ∃ sis', isShadowed e sis = Val (shadowed (entryKey e) ss, sis') ∧ Forall2 (behind (entryKey e)) sis' ss.
Proof.
  intros He. induction 1 as [|i s sis ss Hi Hs IH]; [by exists []|].
  cbn [isShadowed]. destruct Hi as (Hbs & d & r & Hdr & Hr & Hd).
  destruct (scanShadow_behind (S (length (mIn i))) e i s d r) as (i' & Hi' & Hb & Hc); [done..| |].
  { destruct Hr as [_ -> _ _]. destruct r; simpl; lia. }
  rewrite Hi', bind_Val, Hc. unfold shadowed. simpl.
  destruct (covers (entryKey e) s); simpl.
  - exists (i' :: sis). split; [done|]. by constructor.
  - destruct IH as (sis' & -> & Hs'). rewrite bind_Val. simpl. exists (i' :: sis'). split; [done|]. by constructor.
Qed.

(** ** The merge of two buckets *)

(** The old entry of a key and the new one make one entry, or none. *)
Definition combine (o n : option BucketEntry) : option BucketEntry :=
  match o with
  | None => n
  | Some a =>
      match n with
      | None => o
      | Some (INITENTRY e) => Some (LIVEENTRY e)
      | Some (LIVEENTRY e) => if isInit a then Some (INITENTRY e) else n
      | Some (DEADENTRY _) => if isInit a then None else n
      | Some (METAENTRY _) => n
      end
  end.

(** What is written of it: not what a shadow covers (from protocol 11 on creations and erasures are
    written all the same), and no tombstone unless they are kept. *)
Definition written (keepDead lifecycle sh : bool) (e : BucketEntry) : bool :=
  ((lifecycle && (isInit e || isDead e)) || negb sh) && survives keepDead e.

Definition mergedEntry (keepDead lifecycle sh : bool) (o n : option BucketEntry) : option BucketEntry :=
  match combine o n with
  | Some e => if written keepDead lifecycle sh e then Some e else None
  | None => None
  end.

Lemma maybePut_holds o body e sis ss lc :
  holds o body → noMeta e → (isInit e = true → 11 <= mMeta o) → (∀ x, x ∈ body → keyLt x e) →
  Forall2 (behind (entryKey e)) sis ss →
  ∃ o' sis', maybePut o e sis lc = Val (o', sis') ∧ mKeepDeadEntries o' = mKeepDeadEntries o ∧
    mMeta o' = mMeta o ∧ Forall2 (behind (entryKey e)) sis' ss ∧
    holds o' (body ++ if written (mKeepDeadEntries o) lc (shadowed (entryKey e) ss) e then [e] else []).
Proof.
  intros Ho Hm Hi Hlt Hs. destruct (put_holds o body e Ho Hm Hi Hlt) as (o' & Hp & Hk & Hv & Ho').
  unfold maybePut, written. destruct (lc && (isInit e || isDead e)).
  { rewrite Hp. by exists o', sis. }
  destruct (isShadowed_spec e sis ss Hm Hs) as (sis' & -> & Hs'). rewrite bind_Val.
  destruct (shadowed (entryKey e) ss).
  - exists o, sis'. rewrite app_nil_r. done.
  - rewrite Hp. by exists o', sis'.
Qed.

Section MergeLoop.
Context (v : Z) (keep lc : bool) (ss : list (list BucketEntry)).

Notation mergedAt k os ns :=
  (mergedEntry keep lc (shadowed k ss) (entryAt k os) (entryAt k ns)) (only parsing).

(** Before a round: [os] and [ns] are to be merged, [body] is written, all of it below them, and the new
    entries initialise only keys the old ones do not have alive. *)
Record loopInv (m : MergeState) (os ns body : list BucketEntry) : Prop := {
  li_oi : reads (m_oi m) os;
  li_ni : reads (m_ni m) ns;
  li_os : Body os;
  li_ns : Body ns;
  li_out : holds (m_out m) body;
  li_keep : mKeepDeadEntries (m_out m) = keep;
  li_meta : mMeta (m_out m) = v;
  li_below : ∀ x y, x ∈ body → y ∈ os ++ ns → keyLt x y;
  li_shadow : ∀ y, y ∈ os ++ ns → Forall2 (behind (entryKey y)) (m_shadows m) ss;
  li_legal : ∀ y, y ∈ os ++ ns → isInit y = true → 11 <= v;
  li_fit : ∀ k o n, entryAt k os = Some o → entryAt k ns = Some n → isInit n = true → isDead o = true }.

(** The entry [c] of the least key [k] is settled: what remains is above it. *)
Record settles (k : LedgerKey) (c : option BucketEntry) (os ns os' ns' : list BucketEntry) : Prop := {
  st_entry : ∀ e, c = Some e → noMeta e ∧ entryKey e = k;
  st_at : combine (entryAt k os) (entryAt k ns) = c;
  st_above : ∀ y, y ∈ os' ++ ns' → ltP k (entryKey y);
  st_rest : ∀ l, l ≠ k → entryAt l os' = entryAt l os ∧ entryAt l ns' = entryAt l ns;
  st_sub : ∀ y, y ∈ os' ++ ns' → y ∈ os ++ ns;
  st_bodies : Body os' ∧ Body ns' }.

Definition piece (c : option BucketEntry) : list BucketEntry :=
  match c with
  | Some e => if written keep lc (shadowed (entryKey e) ss) e then [e] else []
  | None => []
  end.

Lemma settled_none k c os ns os' ns' :
  settles k c os ns os' ns' → entryAt k os' = None ∧ entryAt k ns' = None.
Proof.
  intros [_ _ Ha _ _ _].
  assert (H : ∀ y, y ∈ os' ++ ns' → entryKey y ≠ k).
  { intros y Hy <-. specialize (Ha y Hy). unfold ltP in Ha. by rewrite ltb_irrefl in Ha. }
  split; apply entryAt_None; intros y Hy _; apply H; set_solver.
Qed.

Lemma settled_entries k c os ns os' ns' X :
  settles k c os ns os' ns' → (∀ l, entryAt l X = mergedAt l os' ns') →
  ∀ l, entryAt l (piece c ++ X) = mergedAt l os ns.
Proof.
  intros Hst HX l. destruct (settled_none _ _ _ _ _ _ Hst) as [Hos Hns].
  destruct Hst as [He Hat _ Hrest _ _]. rewrite entryAt_app.
  destruct (decide (l = k)) as [->|Hne].
  - rewrite HX, Hos, Hns. unfold mergedEntry. rewrite Hat. destruct c as [e|]; [|done].
    destruct (He e eq_refl) as [Hm Hk]. simpl. rewrite Hk. destruct (written _ _ _ e); simpl; [|done].
    by rewrite Hm, Hk, bool_decide_true.
  - destruct (Hrest l Hne) as [<- <-]. rewrite <- HX.
    destruct c as [e|]; [|done]. simpl. destruct (He e eq_refl) as [Hm Hk].
    destruct (written _ _ _ e); simpl; [|done]. rewrite Hm, bool_decide_false by congruence. done.
Qed.

Lemma settled_inv k c os ns os' ns' m m' body :
  loopInv m os ns body → settles k c os ns os' ns' →
  reads (m_oi m') os' → reads (m_ni m') ns' → holds (m_out m') (body ++ piece c) →
  mKeepDeadEntries (m_out m') = keep → mMeta (m_out m') = v →
  Forall2 (behind k) (m_shadows m') ss →
  loopInv m' os' ns' (body ++ piece c).
Proof.
  intros [] Hst Ho Hn Hh Hk Hv Hs. destruct (settled_none _ _ _ _ _ _ Hst) as [Hos Hns].
  destruct Hst as [He Hat Ha Hrest Hsub [Hb1 Hb2]]. split; try done.
  - intros x y [Hx|Hx]%elem_of_app Hy; [eauto|]. destruct c as [e|]; simpl in Hx; [|set_solver].
    destruct (He e eq_refl) as [_ Hke]. case_match; [|set_solver]. apply list_elem_of_singleton in Hx as ->.
    unfold keyLt. rewrite Hke. auto.
  - intros y Hy. eapply Forall2_impl; [exact Hs|]. intros i s. by apply behind_mono, Ha.
  - eauto.
  - intros l o n. destruct (decide (l = k)) as [->|Hne]; [congruence|].
    destruct (Hrest l Hne) as [-> ->]. eauto.
Qed.

Lemma settles_old e os ns :
  Body (e :: os) → Body ns → (∀ y, y ∈ ns → keyLt e y) → settles (entryKey e) (Some e) (e :: os) ns os ns.
Proof.
  intros Hb Hn Hlt. pose proof Hb as (Hm & Ha & Ho)%Body_cons. rewrite Forall_forall in Ha.
  assert (Hnone : entryAt (entryKey e) ns = None).
  { apply entryAt_None. intros y Hy _ Heq. by apply (keyLt_ne e y (Hlt y Hy)). }
  split.
  - by intros ? [= <-].
  - by rewrite (entryAt_Body_cons _ _ _ Hb), bool_decide_true, Hnone.
  - intros y [Hy|Hy]%elem_of_app; [by apply Ha|by apply Hlt].
  - intros l Hl. rewrite (entryAt_Body_cons _ _ _ Hb), bool_decide_false by congruence. done.
  - set_solver.
  - done.
Qed.

Lemma settles_new e os ns :
  Body os → Body (e :: ns) → (∀ y, y ∈ os → keyLt e y) → settles (entryKey e) (Some e) os (e :: ns) os ns.
Proof.
  intros Ho Hb Hlt. pose proof Hb as (Hm & Ha & Hn)%Body_cons. rewrite Forall_forall in Ha.
  assert (Hnone : entryAt (entryKey e) os = None).
  { apply entryAt_None. intros y Hy _ Heq. by apply (keyLt_ne e y (Hlt y Hy)). }
  split.
  - by intros ? [= <-].
  - by rewrite (entryAt_Body_cons _ _ _ Hb), bool_decide_true, Hnone.
  - intros y [Hy|Hy]%elem_of_app; [by apply Hlt|by apply Ha].
  - intros l Hl. rewrite (entryAt_Body_cons _ _ _ Hb), bool_decide_false by congruence. done.
  - set_solver.
  - done.
Qed.

Lemma combine_key a b e :
  noMeta a → noMeta b → entryKey a = entryKey b → combine (Some a) (Some b) = Some e →
  noMeta e ∧ entryKey e = entryKey b.
Proof. destruct a, b; simpl; intros; by simplify_eq/=. Qed.

Lemma combine_init a b e : combine (Some a) (Some b) = Some e → isInit e = true → isInit a = true.
Proof. destruct a, b; simpl; intros; by simplify_eq/=. Qed.

Lemma settles_both a b os ns :
  Body (a :: os) → Body (b :: ns) → entryKey a = entryKey b →
  settles (entryKey b) (combine (Some a) (Some b)) (a :: os) (b :: ns) os ns.
Proof.
  intros Ha Hb Heq. pose proof Ha as (Hma & Hla & Ho)%Body_cons. pose proof Hb as (Hmb & Hlb & Hn)%Body_cons.
  rewrite Forall_forall in Hla, Hlb. split.
  - intros e. by apply combine_key.
  - by rewrite (entryAt_Body_cons _ _ _ Ha), (entryAt_Body_cons _ _ _ Hb), !bool_decide_true.
  - intros y [Hy|Hy]%elem_of_app; [rewrite <- Heq; by apply Hla|by apply Hlb].
  - intros l Hl. rewrite (entryAt_Body_cons _ _ _ Ha), (entryAt_Body_cons _ _ _ Hb).
    rewrite !bool_decide_false by congruence. done.
  - set_solver.
  - done.
Qed.

Lemma below_head e x ns : Body (x :: ns) → keyLt e x → ∀ y, y ∈ x :: ns → keyLt e y.
Proof.
  intros (_ & Ha & _)%Body_cons Hx y [->|Hy]%elem_of_cons; [done|].
  rewrite Forall_forall in Ha. by eapply keyLt_trans, Ha.
Qed.

(** Writing the entry a round has settled on. *)
Lemma write_settled m os ns body e y :
  loopInv m os ns body → y ∈ os ++ ns → entryKey e = entryKey y → noMeta e → (isInit e = true → 11 <= v) →
  ∃ o' sis', maybePut (m_out m) e (m_shadows m) lc = Val (o', sis') ∧ mKeepDeadEntries o' = keep ∧
    mMeta o' = v ∧ Forall2 (behind (entryKey e)) sis' ss ∧ holds o' (body ++ piece (Some e)).
Proof.
  intros [] Hy Hk Hm Hi.
  destruct (maybePut_holds (m_out m) body e (m_shadows m) ss lc) as (o' & sis' & H1 & H2 & H3 & H4 & H5);
    [done|done|by rewrite li_meta0| |by rewrite Hk; auto|].
  { intros x Hx. unfold keyLt. rewrite Hk. by apply li_below0. }
  exists o', sis'. rewrite H2, H3. rewrite li_keep0 in *. done.
Qed.

Definition round (m : MergeState) : Checked MergeState :=
  '(m, accepted) ← mergeCasesWithDefaultAcceptance m v lc;
  if (accepted : bool) then mret m else mergeCasesWithEqualKeys m v lc.

Lemma mergeLoop_round n m :
  atEntry (m_oi m) || atEntry (m_ni m) = true → mergeLoop (S n) m v lc = (m ← round m; mergeLoop n m v lc).
Proof.
  intros H. cbn [mergeLoop]. rewrite H. unfold round.
  destruct (mergeCasesWithDefaultAcceptance m v lc) as [[m' []]| | |]; done.
Qed.

Lemma round_old m e os ns body :
  loopInv m (e :: os) ns body → negb (atEntry (m_ni m)) || less (m_oi m) (m_ni m) = true →
  (∀ y, y ∈ ns → keyLt e y) →
  ∃ m', round m = Val m' ∧ loopInv m' os ns (body ++ piece (Some e)).
Proof.
  intros Hinv Hc Hlt. pose proof Hinv as [].
  pose proof (settles_old e os ns li_os0 li_ns0 Hlt) as Hst.
  destruct (next_reads _ _ _ li_oi0) as (i' & Hi' & Hr' & _).
  assert (Hm : noMeta e) by (by apply Body_cons in li_os0 as [? _]).
  assert (Hel : e ∈ (e :: os) ++ ns) by set_solver.
  destruct (write_settled m (e :: os) ns body e e) as (o' & sis' & Hp & Hk & Hv & Hs & Hh); [done..|by apply li_legal0|].
  exists (mkMerge i' (m_ni m) o' sis'). split; [|by eapply settled_inv].
  unfold round, mergeCasesWithDefaultAcceptance, current. rewrite Hc, (reads_entry _ _ li_oi0). simpl.
  rewrite (legal e v Hm (li_legal0 e Hel)). by rewrite bind_Val, Hp, bind_Val, Hi'.
Qed.

Lemma round_new m e os ns body :
  loopInv m os (e :: ns) body → negb (atEntry (m_ni m)) || less (m_oi m) (m_ni m) = false →
  negb (atEntry (m_oi m)) || less (m_ni m) (m_oi m) = true →
  (∀ y, y ∈ os → keyLt e y) →
  ∃ m', round m = Val m' ∧ loopInv m' os ns (body ++ piece (Some e)).
Proof.
  intros Hinv Hc Hc' Hlt. pose proof Hinv as [].
  pose proof (settles_new e os ns li_os0 li_ns0 Hlt) as Hst.
  destruct (next_reads _ _ _ li_ni0) as (i' & Hi' & Hr' & _).
  assert (Hm : noMeta e) by (by apply Body_cons in li_ns0 as [? _]).
  assert (Hel : e ∈ os ++ (e :: ns)) by set_solver.
  destruct (write_settled m os (e :: ns) body e e) as (o' & sis' & Hp & Hk & Hv & Hs & Hh); [done..|by apply li_legal0|].
  exists (mkMerge (m_oi m) i' o' sis'). split; [|by eapply settled_inv].
  unfold round, mergeCasesWithDefaultAcceptance, current. rewrite Hc, Hc', (reads_entry _ _ li_ni0). simpl.
  rewrite (legal e v Hm (li_legal0 e Hel)). by rewrite bind_Val, Hp, bind_Val, Hi'.
Qed.

(** The result of [mergeCasesWithEqualKeys] before the iterators advance. *)
Lemma equal_keys_written m a b os ns body :
  loopInv m (a :: os) (b :: ns) body → entryKey a = entryKey b →
  ∃ o' sis',
    match b, a with
    | INITENTRY e, DEADENTRY _ => maybePut (m_out m) (LIVEENTRY e) (m_shadows m) lc
    | INITENTRY e, _ => Throws "Malformed bucket: old non-DEAD + new INIT."
    | LIVEENTRY e, INITENTRY _ => maybePut (m_out m) (INITENTRY e) (m_shadows m) lc
    | DEADENTRY _, INITENTRY _ => mret (m_out m, m_shadows m)
    | _, INITENTRY _ => Throws "Malformed bucket: old INIT + new non-DEAD."
    | _, _ => maybePut (m_out m) b (m_shadows m) lc
    end = Val (o', sis') ∧ mKeepDeadEntries o' = keep ∧ mMeta o' = v ∧
    Forall2 (behind (entryKey b)) sis' ss ∧ holds o' (body ++ piece (combine (Some a) (Some b))).
Proof.
  intros Hinv Heq. pose proof Hinv as [].
  assert (Hela : a ∈ (a :: os) ++ (b :: ns)) by set_solver.
  assert (Helb : b ∈ (a :: os) ++ (b :: ns)) by set_solver.
  pose proof (combine_key a b) as Hck.
  assert (Hma : noMeta a) by (by apply Body_cons in li_os0 as [? _]).
  assert (Hmb : noMeta b) by (by apply Body_cons in li_ns0 as [? _]).
  assert (Hfit : isInit b = true → isDead a = true).
  { apply (li_fit0 (entryKey b)); rewrite entryAt_Body_cons by done; by rewrite bool_decide_true. }
  destruct (combine (Some a) (Some b)) as [e|] eqn:Hc.
  - destruct (Hck e Hma Hmb Heq eq_refl) as [Hme Hke].
    destruct (write_settled m (a :: os) (b :: ns) body e b) as (o' & sis' & Hp & Hk & Hv & Hs & Hh);
      [done..| |].
    { intros He. by apply (li_legal0 _ Hela), (combine_init a b e). }
    exists o', sis'. rewrite Hke in Hs. split; [|done].
    clear -Hc Hp Hfit Hma Hmb.
    destruct a, b; simpl in *; try discriminate; try (injection Hc as <-; done); by specialize (Hfit eq_refl).
  - exists (m_out m), (m_shadows m). rewrite app_nil_r. split_and!; [|by auto..].
    clear -Hc Hma Hmb. by destruct a, b.
Qed.

Lemma round_both m a b os ns body :
  loopInv m (a :: os) (b :: ns) body → entryKey a = entryKey b →
  ∃ m', round m = Val m' ∧ loopInv m' os ns (body ++ piece (combine (Some a) (Some b))).
Proof.
  intros Hinv Heq. pose proof Hinv as [].
  assert (Hela : a ∈ (a :: os) ++ (b :: ns)) by set_solver.
  assert (Helb : b ∈ (a :: os) ++ (b :: ns)) by set_solver.
  assert (Hma : noMeta a) by (by apply Body_cons in li_os0 as [? _]).
  assert (Hmb : noMeta b) by (by apply Body_cons in li_ns0 as [? _]).
  pose proof (settles_both a b os ns li_os0 li_ns0 Heq) as Hst.
  destruct (next_reads _ _ _ li_oi0) as (oi' & Hoi' & Hor' & _).
  destruct (next_reads _ _ _ li_ni0) as (ni' & Hni' & Hnr' & _).
  destruct (equal_keys_written m a b os ns body Hinv Heq) as (o' & sis' & Hp & Hk & Hv & Hs & Hh).
  exists (mkMerge oi' ni' o' sis'). split; [|by eapply settled_inv].
  unfold round, mergeCasesWithDefaultAcceptance, mergeCasesWithEqualKeys, current, atEntry, less.
  rewrite (reads_entry _ _ li_oi0), (reads_entry _ _ li_ni0). cbn [head].
  rewrite !cmp_keys, Heq, ltb_irrefl by done. cbn [negb orb mret Checked_ret mbind Checked_bind].
  rewrite (reads_entry _ _ li_oi0), (reads_entry _ _ li_ni0). simpl.
  rewrite (legal a v Hma (li_legal0 a Hela)), (legal b v Hmb (li_legal0 b Helb)). simpl.
  rewrite Hp. simpl. by rewrite Hoi', Hni'.
Qed.

Lemma round_spec m os ns body :
  loopInv m os ns body → atEntry (m_oi m) || atEntry (m_ni m) = true →
  ∃ m' os' ns' k c, round m = Val m' ∧ settles k c os ns os' ns' ∧ loopInv m' os' ns' (body ++ piece c) ∧
    (length os' + length ns' < length os + length ns)%nat.
Proof.
  intros Hinv Hat. pose proof Hinv as []. unfold atEntry in Hat.
  rewrite (reads_entry _ _ li_oi0), (reads_entry _ _ li_ni0) in Hat.
  destruct os as [|a os], ns as [|b ns]; try done; simpl in *.
  - destruct (round_new m b [] ns body) as (m' & Hr & Hi); [done|..].
    { unfold atEntry, less. by rewrite (reads_entry _ _ li_oi0), (reads_entry _ _ li_ni0). }
    { unfold atEntry, less. by rewrite (reads_entry _ _ li_oi0). }
    { set_solver. }
    exists m', [], ns, (entryKey b), (Some b). split_and!; [done|apply settles_new; set_solver|done|simpl; lia].
  - destruct (round_old m a os [] body) as (m' & Hr & Hi); [done|..].
    { unfold atEntry, less. by rewrite (reads_entry _ _ li_ni0). }
    { set_solver. }
    exists m', os, [], (entryKey a), (Some a). split_and!; [done|apply settles_old; set_solver|done|simpl; lia].
  - assert (Hma : noMeta a) by (by apply Body_cons in li_os0 as [? _]).
    assert (Hmb : noMeta b) by (by apply Body_cons in li_ns0 as [? _]).
    destruct (ltb_cases (entryKey a) (entryKey b)) as [[Hab Hba]|[[Hab Hba]|Heq]].
    + pose proof (below_head a b ns li_ns0 Hab) as Hlt.
      destruct (round_old m a os (b :: ns) body) as (m' & Hr & Hi); [done|..|done|].
      { unfold atEntry, less. rewrite (reads_entry _ _ li_oi0), (reads_entry _ _ li_ni0). simpl. by rewrite cmp_keys. }
      exists m', os, (b :: ns), (entryKey a), (Some a). split_and!; [done|by apply settles_old|done|simpl; lia].
    + pose proof (below_head b a os li_os0 Hba) as Hlt.
      destruct (round_new m b (a :: os) ns body) as (m' & Hr & Hi); [done|..|done|].
      { unfold atEntry, less. rewrite (reads_entry _ _ li_oi0), (reads_entry _ _ li_ni0). simpl. by rewrite cmp_keys. }
      { unfold atEntry, less. rewrite (reads_entry _ _ li_oi0), (reads_entry _ _ li_ni0). simpl. by rewrite cmp_keys. }
      exists m', (a :: os), ns, (entryKey b), (Some b). split_and!; [done|by apply settles_new|done|simpl; lia].
    + destruct (round_both m a b os ns body Hinv Heq) as (m' & Hr & Hi).
      eexists m', os, ns, _, _. split_and!; [done|by apply settles_both|done|simpl; lia].
Qed.

Lemma mergeLoop_spec n m os ns body :
  loopInv m os ns body → (length os + length ns <= n)%nat →
  ∃ m' X, mergeLoop n m v lc = Val m' ∧ holds (m_out m') (body ++ X) ∧ mMeta (m_out m') = v ∧
    ∀ k, entryAt k X = mergedAt k os ns.
Proof.
  revert m os ns body. induction n as [|n IH]; intros m os ns body Hinv Hn;
    destruct (atEntry (m_oi m) || atEntry (m_ni m)) eqn:Hat.
  2, 4: exists m, []; cbn [mergeLoop]; rewrite Hat, app_nil_r; pose proof Hinv as []; split_and!; try done;
    unfold atEntry in Hat; rewrite (reads_entry _ _ li_oi0), (reads_entry _ _ li_ni0) in Hat;
    by destruct os, ns.
  - destruct (round_spec _ _ _ _ Hinv Hat) as (m' & os' & ns' & k & c & _ & _ & _ & Hl). lia.
  - destruct (round_spec _ _ _ _ Hinv Hat) as (m' & os' & ns' & k & c & Hr & Hst & Hi & Hl).
    destruct (IH m' os' ns' (body ++ piece c) Hi) as (m'' & X & Hm & Hh & Hv & HX); [lia|].
    exists m'', (piece c ++ X). rewrite mergeLoop_round, Hr, bind_Val by done. rewrite app_assoc.
    split_and!; [done..|]. by eapply settled_entries.
Qed.
End MergeLoop.

(** The version of a merge: the highest of its inputs and shadows. *)
Definition mergeVersion (old new : Bucket) (shadows : list Bucket) : Z :=
  foldl (λ v b, Z.max (versionOf b) v) (Z.max (versionOf old) (versionOf new)) shadows.

Lemma foldl_max {A} (f : A → Z) l v : v <= foldl (λ v a, Z.max (f a) v) v l ∧ ∀ a, a ∈ l → f a <= foldl (λ v a, Z.max (f a) v) v l.
Proof.
  revert v. induction l as [|x l IH]; intros v; simpl; [split; [lia|set_solver]|].
  destruct (IH (Z.max (f x) v)) as [H1 H2]. split; [lia|]. intros a [->|Ha]%elem_of_cons; [lia|auto].
Qed.
Lemma foldl_max_le {A} (f : A → Z) l v w : v <= w → (∀ a, a ∈ l → f a <= w) → foldl (λ v a, Z.max (f a) v) v l <= w.
Proof.
  revert v. induction l as [|x l IH]; intros v Hv Hl; simpl; [done|].
  pose proof (Hl x (list_elem_of_here _ _)). apply IH; [lia|set_solver].
Qed.

Lemma shadowed_bodies k shadows : shadowed k (bodyOf <$> shadows) = shadowed k shadows.
Proof.
  induction shadows as [|b bs IH]; [done|]. unfold shadowed in *. simpl. f_equal; [|exact IH].
  unfold covers. by rewrite entryAt_body.
Qed.

Lemma versionOf_meta v es : Forall (λ e, noMeta e) es → versionOf (metaPart v ++ es) = if 11 <=? v then v else 0.
Proof.
  intros Hes. unfold metaPart. destruct (11 <=? v); [done|]. destruct es as [|[] es]; try done. by inversion Hes.
Qed.
Lemma bodyOf_meta v es : Forall (λ e, noMeta e) es → bodyOf (metaPart v ++ es) = es.
Proof.
  intros Hes. unfold metaPart. destruct (11 <=? v); [done|]. destruct es as [|[] es]; try done. by inversion Hes.
Qed.

(** The file an output iterator leaves behind. *)
Lemma holds_ok o es :
  holds o es → (∀ e, e ∈ es → isInit e = true → 11 <= mMeta o) →
  BucketOk (getBucket o) ∧ versionOf (getBucket o) = (if 11 <=? mMeta o then mMeta o else 0) ∧
  ∀ k, entryAt k (getBucket o) = entryAt k es.
Proof.
  intros [Hb _ Hes] Hi. rewrite Hb. destruct (id Hes) as [Hn _].
  rewrite (versionOf_meta _ _ Hn). split_and!; [split| |].
  - by rewrite bodyOf_meta.
  - intros v r. unfold metaPart. destruct (11 <=? mMeta o) eqn:Hv; simpl; [intros [= <- _]; lia|].
    intros ->. by inversion Hn.
  - rewrite (versionOf_meta _ _ Hn), (bodyOf_meta _ _ Hn). destruct (11 <=? mMeta o) eqn:Hv; [lia|].
    intros _. apply Forall_forall. intros e He. destruct (isInit e) eqn:Hie; [|done].
    specialize (Hi e He Hie). lia.
  - done.
  - intros k. by rewrite <- entryAt_body, (bodyOf_meta _ _ Hn).
Qed.

Lemma combine_init_inputs o n e :
  combine o n = Some e → isInit e = true →
  (∃ a, o = Some a ∧ isInit a = true) ∨ (∃ b, n = Some b ∧ isInit b = true).
Proof.
  destruct o as [a|]; simpl; [|by eauto].
  destruct n as [[]|]; simpl; intros H Hi; try (destruct (isInit a) eqn:Ha); simplify_eq/=; eauto.
Qed.

Lemma calculateMergeProtocolVersion_spec maxP oi ni sis old new shadows :
  mMetadata oi = versionOf old → mMetadata ni = versionOf new → mMetadata <$> sis = versionOf <$> shadows →
  mergeVersion old new shadows <= maxP →
  calculateMergeProtocolVersion maxP oi ni sis =
    Val (mergeVersion old new shadows, 11 <=? mergeVersion old new shadows).
Proof.
  intros Ho Hn Hs Hv. unfold calculateMergeProtocolVersion, FIRST_PROTOCOL_SUPPORTING_INITENTRY_AND_METAENTRY.
  rewrite Ho, Hn.
  assert (Hf : ∀ w, foldl (λ v si, Z.max (mMetadata si) v) w sis = foldl (λ v b, Z.max (versionOf b) v) w shadows).
  { clear -Hs. revert shadows Hs. induction sis as [|i sis IH]; intros [|b bs] [=]; [done|].
    intros w. simpl. rewrite (IH bs) by done. congruence. }
  rewrite Hf. fold (mergeVersion old new shadows). rewrite (proj2 (Z.ltb_ge _ _) Hv).
  unfold mret, Checked_ret. f_equal. f_equal. destruct (_ <? 11) eqn:E1, (11 <=? _) eqn:E2; try done; lia.
Qed.

(** The new bucket may initialise a key only where the old one has a tombstone or nothing. *)
Definition fits (old new : Bucket) : Prop :=
  ∀ k o n, entryAt k old = Some o → entryAt k new = Some n → isInit n = true → isDead o = true.

Lemma merge_entries maxP old new shadows keep :
  BucketOk old → BucketOk new → Forall BucketOk shadows → fits old new →
  mergeVersion old new shadows <= maxP →
  let v := mergeVersion old new shadows in
  ∃ b, merge maxP old new shadows keep = Val b ∧ BucketOk b ∧ versionOf b = (if 11 <=? v then v else 0) ∧
    ∀ k, entryAt k b = mergedEntry keep (11 <=? v) (shadowed k shadows) (entryAt k old) (entryAt k new).
Proof.
  intros Ho Hn Hs Hfit Hv v. unfold merge.
  destruct (open_reads old Ho) as (oi & -> & Hor & Hov). destruct (open_reads new Hn) as (ni & -> & Hnr & Hnv).
  destruct (openAll_reads shadows Hs) as (sis & -> & Hsr & Hsv). rewrite !bind_Val.
  rewrite (calculateMergeProtocolVersion_spec maxP oi ni sis old new shadows), bind_Val by done. fold v.
  destruct (openOutput_holds keep v) as (out & -> & Hk & Hm & Hh). rewrite bind_Val.
  assert (Hleg : ∀ y, y ∈ bodyOf old ++ bodyOf new → isInit y = true → 11 <= v).
  { assert (Hle : versionOf old <= v ∧ versionOf new <= v).
    { unfold v, mergeVersion. pose proof (proj1 (foldl_max versionOf shadows (Z.max (versionOf old) (versionOf new)))). lia. }
    intros y Hy Hi. destruct (Z_lt_dec v 11) as [Hlt|]; [|lia].
    pose proof (ok_init _ Ho ltac:(lia)) as H1. pose proof (ok_init _ Hn ltac:(lia)) as H2.
    rewrite Forall_forall in H1, H2. apply elem_of_app in Hy as [Hy|Hy]; [specialize (H1 y Hy)|specialize (H2 y Hy)]; congruence. }
  destruct (mergeLoop_spec v keep (11 <=? v) (bodyOf <$> shadows) (length old + length new) (mkMerge oi ni out sis)
    (bodyOf old) (bodyOf new) []) as (m' & X & -> & Hh' & Hm' & HX).
  { split; simpl; try done; try apply ok_body; try done.
    - set_solver.
    - intros y _. clear -Hsr Hs. induction Hsr as [|i b sis bs Hi Hr IH]; [constructor|].
      inversion Hs as [|? ? Hb Hbs]; subst. constructor; [|by apply IH].
      split; [by apply ok_body|]. exists [], (bodyOf b). by rewrite Forall_nil.
    - intros k o n. rewrite !entryAt_body. apply Hfit. }
  { clear. assert (∀ b, (length (bodyOf b) <= length b)%nat) as H by (intros [|[] ?]; simpl; lia).
    pose proof (H old). pose proof (H new). lia. }
  rewrite bind_Val. simpl in Hh'. exists (getBucket (m_out m')). split; [done|].
  assert (HX' : ∀ k, entryAt k X = mergedEntry keep (11 <=? v) (shadowed k shadows) (entryAt k old) (entryAt k new)).
  { intros k. by rewrite HX, shadowed_bodies, !entryAt_body. }
  rewrite <- Hm'. destruct (holds_ok (m_out m') X Hh') as (H1 & H2 & H3).
  - intros e He Hi. rewrite Hm'. destruct Hh' as [_ _ HbX]. pose proof (entryAt_elem X e HbX He) as Hat.
    rewrite HX in Hat. unfold mergedEntry in Hat. destruct (combine _ _) as [c|] eqn:Hc; [|done].
    destruct (written _ _ _ c); [|done]. injection Hat as ->.
    destruct (combine_init_inputs _ _ _ Hc Hi) as [(a & Ha & Hai)|(a & Ha & Hai)];
      apply entryAt_key in Ha as (Hin & _); apply (Hleg a); set_solver.
  - rewrite Hm'. rewrite Hm' in H2. split_and!; [done..|]. intros k. by rewrite H3, HX'.
Qed.

(** ** Fresh buckets *)

(** The entries of a batch, before they are sorted. *)
Definition batchEntries (useInit : bool) (initEntries liveEntries : list LedgerEntry)
    (deadEntries : list LedgerKey) : list BucketEntry :=
  ((λ e, if useInit then INITENTRY e else LIVEENTRY e) <$> initEntries) ++
  (LIVEENTRY <$> liveEntries) ++ (DEADENTRY <$> deadEntries).

(** The keys of a batch, which [getAllEntries] of a ledger transaction gives once each. *)
Definition batchKeys (initEntries liveEntries : list LedgerEntry) (deadEntries : list LedgerKey) : list LedgerKey :=
  (LedgerEntryKey <$> initEntries) ++ (LedgerEntryKey <$> liveEntries) ++ deadEntries.

Lemma batchEntries_keys u i l d : entryKey <$> batchEntries u i l d = batchKeys i l d.
Proof.
  unfold batchEntries, batchKeys. rewrite !fmap_app, <- !list_fmap_compose. f_equal; [|f_equal].
  - apply list_fmap_ext. by destruct u.
  - rewrite <- (list_fmap_id d) at 2. done.
Qed.
Lemma batchEntries_noMeta u i l d : Forall (λ e, noMeta e) (batchEntries u i l d).
Proof. unfold batchEntries. rewrite !Forall_app, !Forall_fmap. split_and!; apply Forall_true; by destruct u. Qed.

Lemma elem_of_insertEntry e x l : x ∈ insertEntry e l ↔ x = e ∨ x ∈ l.
Proof.
  induction l as [|y l IH]; simpl; [set_solver|]. destruct (BucketEntryIdCmp e y); [set_solver|].
  rewrite elem_of_cons, IH. set_solver.
Qed.
Lemma elem_of_sortEntries x l : x ∈ sortEntries l ↔ x ∈ l.
Proof. induction l as [|y l IH]; simpl; [done|]. rewrite elem_of_insertEntry, IH. set_solver. Qed.

Lemma insertEntry_Body e l :
  noMeta e → Body l → entryKey e ∉ entryKey <$> l → Body (insertEntry e l).
Proof.
  intros He. induction l as [|y l IH]; intros Hb Hni; simpl.
  { apply Body_cons. split_and!; [done|constructor|apply Body_nil]. }
  pose proof Hb as (Hy & Hlt & Hl)%Body_cons. rewrite cmp_keys by done.
  rewrite fmap_cons, not_elem_of_cons in Hni. destruct Hni as [Hne Hni].
  destruct (ltb_cases (entryKey e) (entryKey y)) as [[Hey _]|[[Hey Hye]|?]]; [| |done]; rewrite Hey.
  - apply Body_cons. split_and!; [done| |done]. apply Forall_forall. by apply below_head.
  - apply Body_cons. split_and!; [done| |by apply IH]. apply Forall_forall.
    intros x [->|Hx]%elem_of_insertEntry; [done|]. rewrite Forall_forall in Hlt. by apply Hlt.
Qed.

Lemma sortEntries_Body l :
  Forall (λ e, noMeta e) l → NoDup (entryKey <$> l) → Body (sortEntries l).
Proof.
  induction l as [|e l IH]; [intros; apply Body_nil|].
  rewrite Forall_cons, fmap_cons, NoDup_cons. intros [He Hl] [Hni Hnd]. simpl.
  apply insertEntry_Body; [done|by apply IH|].
  intros (x & Hk & Hx)%list_elem_of_fmap. apply Hni, list_elem_of_fmap. exists x. by rewrite <- elem_of_sortEntries.
Qed.

Lemma Body_noAdjacent l : Body l → noAdjacent l = true.
Proof.
  induction l as [|x [|y l] IH]; try done. intros (Hx & Hlt & Hl)%Body_cons.
  change (BucketEntryIdCmp x y && noAdjacent (y :: l) = true). rewrite IH, andb_true_r by done. pose proof Hl as (Hy & _)%Body_cons.
  rewrite cmp_keys by done. inversion Hlt; subst. done.
Qed.

Lemma Body_entryAt_iff es k e : Body es → entryAt k es = Some e ↔ e ∈ es ∧ entryKey e = k.
Proof.
  intros Hb. split; [intros ?%entryAt_key; tauto|]. intros [He <-]. by apply entryAt_elem.
Qed.

Lemma putAll_holds es o body :
  holds o body → Body (body ++ es) → (∀ e, e ∈ es → isInit e = true → 11 <= mMeta o) →
  mKeepDeadEntries o = true →
  ∃ o', putAll es o = Val o' ∧ mMeta o' = mMeta o ∧ holds o' (body ++ es).
Proof.
  revert o body. induction es as [|e es IH]; intros o body Ho Hb Hi Hk.
  { exists o. by rewrite app_nil_r. }
  pose proof Hb as (_ & (He & _ & _)%Body_cons & Hlt)%Body_app.
  destruct (put_holds o body e) as (o' & Hp & Hk' & Hm & Hh); [done|done|by apply Hi; set_solver|by set_solver|].
  simpl. rewrite Hp, bind_Val. rewrite Hk in Hh. simpl in Hh.
  rewrite (cons_middle e), app_assoc in Hb. rewrite (cons_middle e), app_assoc, <- Hm.
  apply IH; [done|done| |congruence]. intros x Hx. rewrite Hm. apply Hi. set_solver.
Qed.

Lemma fresh_entries pv i l d :
  NoDup (batchKeys i l d) →
  ∃ b, fresh pv i l d = Val b ∧ BucketOk b ∧ versionOf b = (if 11 <=? pv then pv else 0) ∧
    ∀ k e, entryAt k b = Some e ↔ e ∈ batchEntries (11 <=? pv) i l d ∧ entryKey e = k.
Proof.
  intros Hnd. unfold fresh, convertToBucketEntry, FIRST_PROTOCOL_SUPPORTING_INITENTRY_AND_METAENTRY.
  fold (batchEntries (11 <=? pv) i l d). rewrite <- (batchEntries_keys (11 <=? pv)) in Hnd.
  set (es := batchEntries (11 <=? pv) i l d) in *.
  assert (Hb : Body (sortEntries es)) by (apply sortEntries_Body; [apply batchEntries_noMeta|done]).
  rewrite (Body_noAdjacent _ Hb). unfold assert. rewrite !bind_Val.
  destruct (openOutput_holds true pv) as (o & -> & Hk & Hm & Hh). unfold mret, Checked_ret. rewrite !bind_Val.
  assert (Hi : ∀ e, e ∈ sortEntries es → isInit e = true → 11 <= pv).
  { intros e He Hi. rewrite elem_of_sortEntries in He. destruct (11 <=? pv) eqn:Hpv; [lia|]. exfalso.
    unfold es, batchEntries in He. rewrite !elem_of_app, !list_elem_of_fmap in He.
    destruct He as [(x & -> & _)|[(x & -> & _)|(x & -> & _)]]; done. }
  destruct (putAll_holds (sortEntries es) o []) as (o' & -> & Hm' & Hh'); [done|done|by rewrite Hm|done|].
  rewrite bind_Val. eexists. split; [done|].
  destruct (holds_ok o' (sortEntries es) Hh') as (H1 & H2 & H3); [by rewrite Hm', Hm|].
  rewrite Hm', Hm in H2. split_and!; [done..|]. intros k e.
  rewrite H3, (Body_entryAt_iff _ _ _ Hb), elem_of_sortEntries. done.
Qed.
