(* ===== verification/BucketList.v ===== *)
(** * The bucket list

    [bucket/BucketList.cpp], [bucket/FutureBucket.cpp] and the parts of [bucket/BucketManagerImpl.cpp] and
    [history/HistoryArchive.cpp] that save the list and take it up again. The changes of every ledger
    enter the list at level 0; a level that is full becomes the snapshot of its level and is merged
    into the next one, in the background, until the next time the lower level spills.

    The background thread computes [merge] on inputs that never change: the future holds its result
    from the start, and [f_ready] says whether the thread is done; [get] waits for it. The hash of a
    file is a parameter, as are the files the bucket directory holds; the empty bucket has hash 0.
    Metrics, and the test configuration that drops them, are left out. *)
From stdpp Require Import base list gmap strings.
From Stdlib Require Import ZArith Lia.
From S2P Require Import Prelude Numeric LedgerEntries Buckets.

(** The SHA-256 of a bucket file. *)
Class FileHash := fileHash : Bucket → Z.

(** ** The schedule *)

Module Schedule.

Definition kNumLevels : Z := 11.

Definition levelSize (level : Z) : Checked Z :=
  _ ← assert (level <? kNumLevels) "level < kNumLevels";
  mret (u32 (Z.shiftl 1 (2 * (level + 1)))).

Definition levelHalf (level : Z) : Checked Z :=
  size ← levelSize level;
  mret (Z.shiftr size 1).

Definition mask (v m : Z) : Z := Z.land v (u32 (Z.lnot (u32 (m - 1)))).

Definition levelShouldSpill (ledger level : Z) : Checked bool :=
  if level =? kNumLevels - 1 then mret false
  else
    half ← levelHalf level;
    if ledger =? mask ledger half then mret true
    else
      size ← levelSize level;
      mret (ledger =? mask ledger size).

Definition keepDeadEntries (level : Z) : bool := level <? kNumLevels - 1.

(** [sizeOfCurr] and [sizeOfSnap] call each other, with a smaller ledger or a smaller level. *)
Inductive Which := Curr | Snap.

Fixpoint sumSizes (sizeOf : Which → Z → Checked Z) (n : nat) : Checked Z :=
  match n with
  | O => mret 0
  | S l =>
      blsize ← sumSizes sizeOf l;
      curr ← sizeOf Curr (Z.of_nat l);
      snap ← sizeOf Snap (Z.of_nat l);
      mret (u32 (u32 (blsize + curr) + snap))
  end.

Fixpoint sizeOf (fuel : nat) (ledger : Z) (which : Which) (level : Z) : Checked Z :=
  match fuel with
  | O => OutOfFuel
  | S fuel =>
      _ ← assert (negb (ledger =? 0)) "ledger != 0";
      _ ← assert (level <? kNumLevels) "level < kNumLevels";
      match which with
      | Curr =>
          if level =? 0 then mret (if ledger =? 1 then 1 else 1 + ledger mod 2)
          else
            size ← levelSize level;
            half ← levelHalf level;
            if negb (level =? kNumLevels - 1) && negb (mask ledger half =? 0) then
              let sizeDelta := u32 (Z.shiftl 1 (2 * level - 1)) in
              if (mask ledger half =? ledger) || (mask ledger size =? ledger) then mret sizeDelta
              else
                prevSize ← levelSize (level - 1);
                prevHalf ← levelHalf (level - 1);
                let previousRelevantLedger :=
                  Z.max (Z.max (mask (ledger - 1) prevHalf) (mask (ledger - 1) prevSize))
                        (Z.max (mask (ledger - 1) half) (mask (ledger - 1) size)) in
                previous ← sizeOf fuel previousRelevantLedger Curr level;
                mret (if (mask ledger prevHalf =? ledger) || (mask ledger prevSize =? ledger)
                      then u32 (previous + sizeDelta) else previous)
            else
              blsize ← sumSizes (sizeOf fuel ledger) (Z.to_nat level);
              mret (u32 (ledger - blsize))
      | Snap =>
          if level =? kNumLevels - 1 then mret 0
          else
            size ← levelSize level;
            if negb (mask ledger size =? 0) then levelHalf level
            else
              lower ← sumSizes (sizeOf fuel ledger) (Z.to_nat level);
              curr ← sizeOf fuel ledger Curr level;
              mret (u32 (ledger - u32 (lower + curr)))
      end
  end.

(** Enough for every ledger and level ([sizeOf_Val] in [BucketSizes]). *)
Definition sizeFuel : nat := 30.

Definition sizeOfCurr (ledger level : Z) : Checked Z := sizeOf sizeFuel ledger Curr level.
Definition sizeOfSnap (ledger level : Z) : Checked Z := sizeOf sizeFuel ledger Snap level.

(** [count -= sizeOfCurr(ledger, l); count -= sizeOfSnap(ledger, l)] for the levels below [n]. *)
Fixpoint countDown (ledger : Z) (n : nat) : Checked Z :=
  match n with
  | O => mret ledger
  | S l =>
      count ← countDown ledger l;
      curr ← sizeOfCurr ledger (Z.of_nat l);
      snap ← sizeOfSnap ledger (Z.of_nat l);
      mret (u32 (u32 (count - curr) - snap))
  end.

Definition oldestLedgerInCurr (ledger level : Z) : Checked Z :=
  _ ← assert (negb (ledger =? 0)) "ledger != 0";
  _ ← assert (level <? kNumLevels) "level < kNumLevels";
  size ← sizeOfCurr ledger level;
  if size =? 0 then mret UINT32_MAX
  else
    count ← countDown ledger (Z.to_nat level);
    mret (u32 (u32 (count - size) + 1)).

Definition oldestLedgerInSnap (ledger level : Z) : Checked Z :=
  _ ← assert (negb (ledger =? 0)) "ledger != 0";
  _ ← assert (level <? kNumLevels) "level < kNumLevels";
  size ← sizeOfSnap ledger level;
  if size =? 0 then mret UINT32_MAX
  else
    count ← countDown ledger (S (Z.to_nat level));
    mret (u32 (count + 1)).

End Schedule.
Export Schedule.

(** ** Merges in progress *)

Module FutureBuckets.

Inductive State := FB_CLEAR | FB_HASH_OUTPUT | FB_HASH_INPUTS | FB_LIVE_OUTPUT | FB_LIVE_INPUTS.

Record Future := mkFuture { f_result : Checked Bucket; f_ready : bool }.

(** A null pointer, an invalid future and an empty string are [None]. *)
Record FutureBucket := mkFB {
  mState : State;
  mInputCurrBucket : option Bucket; mInputSnapBucket : option Bucket; mInputShadowBuckets : list Bucket;
  mOutputBucket : option Future;
  mInputCurrBucketHash : option Z; mInputSnapBucketHash : option Z; mInputShadowBucketHashes : list Z;
  mOutputBucketHash : option Z }.

Definition clear : FutureBucket := mkFB FB_CLEAR None None [] None None None [] None.

Definition isLive (f : FutureBucket) : bool :=
  match mState f with FB_LIVE_INPUTS | FB_LIVE_OUTPUT => true | _ => false end.
Definition isMerging (f : FutureBucket) : bool :=
  match mState f with FB_LIVE_INPUTS => true | _ => false end.
Definition hasHashes (f : FutureBucket) : bool :=
  match mState f with FB_HASH_INPUTS | FB_HASH_OUTPUT => true | _ => false end.

Definition present {A} (o : option A) : bool := match o with Some _ => true | None => false end.
Definition absent {A} (o : option A) : bool := negb (present o).
Definition noShadows {A} (l : list A) : bool := match l with [] => true | _ => false end.

Definition mergeComplete (f : FutureBucket) : Checked bool :=
  _ ← assert (isLive f) "isLive()";
  match mOutputBucket f with
  | Some o => mret (f_ready o)
  | None => Throws "no state"
  end.

Section Hashes.
Context `{FileHash}.

(** [Bucket::getHash]: the empty bucket has no file. *)
Definition getHash (b : Bucket) : Z := match b with [] => 0 | _ => fileHash b end.

Definition checkHashEq (b : Bucket) (h : Z) : Checked unit := assert (getHash b =? h) "b->getHash() == hexToBin256(h)".

Fixpoint checkShadowHashes (bs : list Bucket) (hs : list Z) : Checked unit :=
  match bs, hs with
  | b :: bs, h :: hs => _ ← checkHashEq b h; checkShadowHashes bs hs
  | _, _ => mret tt
  end.

Definition checkInput (b : option Bucket) (h : option Z) : Checked unit :=
  match b, h with
  | Some b, Some h => checkHashEq b h
  | Some _, None => Throws "hexToBin256"
  | None, _ => mret tt
  end.

Definition checkHashesMatch (f : FutureBucket) : Checked unit :=
  _ ← (if noShadows (mInputShadowBuckets f) then mret tt
       else
         _ ← assert (length (mInputShadowBuckets f) =? length (mInputShadowBucketHashes f))%nat "sizes of the shadows";
         checkShadowHashes (mInputShadowBuckets f) (mInputShadowBucketHashes f));
  _ ← checkInput (mInputSnapBucket f) (mInputSnapBucketHash f);
  _ ← checkInput (mInputCurrBucket f) (mInputCurrBucketHash f);
  match mOutputBucket f with
  | Some o =>
      complete ← mergeComplete f;
      match mOutputBucketHash f with
      | Some h => if (complete : bool) then b ← f_result o; checkHashEq b h else mret tt
      | None => mret tt
      end
  | None => mret tt
  end.

Definition checkState (f : FutureBucket) : Checked unit :=
  match mState f with
  | FB_CLEAR =>
      assert (noShadows (mInputShadowBuckets f) && absent (mInputSnapBucket f) && absent (mInputCurrBucket f) &&
              absent (mOutputBucket f) && noShadows (mInputShadowBucketHashes f) && absent (mInputSnapBucketHash f) &&
              absent (mInputCurrBucketHash f) && absent (mOutputBucketHash f)) "FB_CLEAR"
  | FB_LIVE_INPUTS =>
      _ ← assert (present (mInputSnapBucket f) && present (mInputCurrBucket f) && present (mOutputBucket f) &&
                  absent (mOutputBucketHash f)) "FB_LIVE_INPUTS";
      checkHashesMatch f
  | FB_LIVE_OUTPUT =>
      complete ← mergeComplete f;
      _ ← assert complete "mergeComplete()";
      _ ← assert (present (mOutputBucket f) && present (mOutputBucketHash f)) "FB_LIVE_OUTPUT";
      checkHashesMatch f
  | FB_HASH_INPUTS =>
      assert (absent (mInputSnapBucket f) && absent (mInputCurrBucket f) && absent (mOutputBucket f) &&
              present (mInputSnapBucketHash f) && present (mInputCurrBucketHash f) &&
              absent (mOutputBucketHash f)) "FB_HASH_INPUTS"
  | FB_HASH_OUTPUT =>
      assert (absent (mInputSnapBucket f) && absent (mInputCurrBucket f) && absent (mOutputBucket f) &&
              absent (mInputSnapBucketHash f) && absent (mInputCurrBucketHash f) &&
              present (mOutputBucketHash f)) "FB_HASH_OUTPUT"
  end.

Definition clearInputs (f : FutureBucket) : FutureBucket :=
  mkFB (mState f) None None [] (mOutputBucket f) None None [] (mOutputBucketHash f).

(** The exception of a failing merge is wrapped in another one. *)
Definition mergeTask (maxProtocolVersion : Z) (curr snap : Bucket) (shadows : list Bucket) (keepDead : bool) :
    Checked Bucket :=
  match merge maxProtocolVersion curr snap shadows keepDead with
  | Throws w => Throws ("Error merging bucket: " +:+ w)
  | r => r
  end.

(** The new future is not ready: the task is posted to a background thread. *)
Definition startMerge (f : FutureBucket) (maxProtocolVersion : Z) (keepDead : bool) : Checked FutureBucket :=
  _ ← assert (isMerging f) "mState == FB_LIVE_INPUTS";
  match mInputCurrBucket f, mInputSnapBucket f with
  | Some curr, Some snap =>
      let shadows := mInputShadowBuckets f in
      _ ← assert (absent (mOutputBucket f)) "!mOutputBucket.valid()";
      let output := mkFuture (mergeTask maxProtocolVersion curr snap shadows keepDead) false in
      let f := mkFB (mState f) (mInputCurrBucket f) (mInputSnapBucket f) shadows (Some output)
                 (mInputCurrBucketHash f) (mInputSnapBucketHash f) (mInputShadowBucketHashes f) (mOutputBucketHash f) in
      _ ← checkState f;
      mret f
  | _, _ => Asserts "curr, snap"
  end.

(** The background thread has finished. *)
Definition taskDone (f : FutureBucket) : FutureBucket :=
  mkFB (mState f) (mInputCurrBucket f) (mInputSnapBucket f) (mInputShadowBuckets f)
    ((λ o, mkFuture (f_result o) true) <$> mOutputBucket f)
    (mInputCurrBucketHash f) (mInputSnapBucketHash f) (mInputShadowBucketHashes f) (mOutputBucketHash f).

Definition newFutureBucket (curr snap : Bucket) (shadows : list Bucket) (maxProtocolVersion : Z) (keepDead : bool) :
    Checked FutureBucket :=
  startMerge (mkFB FB_LIVE_INPUTS (Some curr) (Some snap) shadows None
                (Some (getHash curr)) (Some (getHash snap)) (getHash <$> shadows) None)
    maxProtocolVersion keepDead.

Definition setLiveOutput (f : FutureBucket) (output : Bucket) : Checked FutureBucket :=
  let f := mkFB FB_LIVE_OUTPUT (mInputCurrBucket f) (mInputSnapBucket f) (mInputShadowBuckets f)
             (Some (mkFuture (Val output) true))
             (mInputCurrBucketHash f) (mInputSnapBucketHash f) (mInputShadowBucketHashes f) (Some (getHash output)) in
  _ ← checkState f;
  mret f.

Definition resolve (f : FutureBucket) : Checked (FutureBucket * Bucket) :=
  _ ← checkState f;
  _ ← assert (isLive f) "isLive()";
  let f := clearInputs f in
  match mOutputBucket f with
  | Some o =>
      bucket ← f_result o;
      hash ← match mOutputBucketHash f with
             | None => mret (getHash bucket)
             | Some h => _ ← checkHashEq bucket h; mret h
             end;
      let f := mkFB FB_LIVE_OUTPUT None None [] (Some (mkFuture (f_result o) true)) None None [] (Some hash) in
      _ ← checkState f;
      mret (f, bucket)
  | None => Throws "no state"
  end.

Definition hasOutputHash (f : FutureBucket) : Checked bool :=
  match mState f with
  | FB_LIVE_OUTPUT | FB_HASH_OUTPUT =>
      _ ← assert (present (mOutputBucketHash f)) "!mOutputBucketHash.empty()"; mret true
  | _ => mret false
  end.

Definition getOutputHash (f : FutureBucket) : Checked Z :=
  match mState f, mOutputBucketHash f with
  | FB_LIVE_OUTPUT, Some h | FB_HASH_OUTPUT, Some h => mret h
  | _, _ => Asserts "getOutputHash"
  end.

Definition getHashes (f : FutureBucket) : list Z :=
  option_list (mInputCurrBucketHash f) ++ option_list (mInputSnapBucketHash f) ++
  mInputShadowBucketHashes f ++ option_list (mOutputBucketHash f).

(** *** Saving and loading *)

Inductive SavedFuture :=
| SavedClear
| SavedOutput (output : Z)
| SavedInputs (curr snap : Z) (shadow : list Z).

Definition save (f : FutureBucket) : Checked SavedFuture :=
  _ ← checkState f;
  match mState f with
  | FB_LIVE_INPUTS | FB_HASH_INPUTS =>
      match mInputCurrBucketHash f, mInputSnapBucketHash f with
      | Some c, Some s => mret (SavedInputs c s (mInputShadowBucketHashes f))
      | _, _ => Asserts "empty hash"
      end
  | FB_LIVE_OUTPUT | FB_HASH_OUTPUT =>
      match mOutputBucketHash f with
      | Some h => mret (SavedOutput h)
      | None => Asserts "empty hash"
      end
  | FB_CLEAR => mret SavedClear
  end.

Definition load (s : SavedFuture) : Checked FutureBucket :=
  let f := match s with
           | SavedInputs c s sh => mkFB FB_HASH_INPUTS None None [] None (Some c) (Some s) sh None
           | SavedOutput h => mkFB FB_HASH_OUTPUT None None [] None None None [] (Some h)
           | SavedClear => clear
           end in
  _ ← checkState f;
  mret f.

(** [getBucketByHash]: the bucket in memory or in the directory with that hash, if there is one. *)
Definition getBucketByHash (files : Z → option Bucket) (hash : Z) : option Bucket :=
  if hash =? 0 then Some [] else files hash.

Fixpoint reconstitute (files : Z → option Bucket) (hs : list Z) : Checked (list Bucket) :=
  match hs with
  | [] => mret []
  | h :: hs =>
      match getBucketByHash files h with
      | Some b => bs ← reconstitute files hs; mret (b :: bs)
      | None => Asserts "b"
      end
  end.

Definition makeLive (files : Z → option Bucket) (f : FutureBucket) (maxProtocolVersion : Z) (keepDead : bool) :
    Checked FutureBucket :=
  _ ← checkState f;
  _ ← assert (negb (isLive f)) "!isLive()";
  _ ← assert (hasHashes f) "hasHashes()";
  hasOutput ← hasOutputHash f;
  if (hasOutput : bool) then
    h ← getOutputHash f;
    match getBucketByHash files h with
    | Some b => setLiveOutput f b
    | None => Asserts "null dereference"
    end
  else
    match mInputCurrBucketHash f, mInputSnapBucketHash f with
    | Some c, Some s =>
        _ ← assert (noShadows (mInputShadowBuckets f)) "mInputShadowBuckets.empty()";
        shadows ← reconstitute files (mInputShadowBucketHashes f);
        f ← startMerge (mkFB FB_LIVE_INPUTS (getBucketByHash files c) (getBucketByHash files s) shadows
                          (mOutputBucket f) (Some c) (Some s) (mInputShadowBucketHashes f) (mOutputBucketHash f))
              maxProtocolVersion keepDead;
        _ ← assert (isLive f) "isLive()";
        mret f
    | _, _ => Asserts "mState == FB_HASH_INPUTS"
    end.
End Hashes.
End FutureBuckets.
Export FutureBuckets.

(** ** Levels and the list *)

Record BucketLevel := mkLevel {
  mLevel : Z; mNextCurr : FutureBucket; mCurr : Bucket; mSnap : Bucket }.

Definition setNext (l : BucketLevel) (fb : FutureBucket) : BucketLevel :=
  mkLevel (mLevel l) fb (mCurr l) (mSnap l).
Definition setCurr (l : BucketLevel) (b : Bucket) : BucketLevel :=
  mkLevel (mLevel l) clear b (mSnap l).
Definition setSnap (l : BucketLevel) (b : Bucket) : BucketLevel :=
  mkLevel (mLevel l) (mNextCurr l) (mCurr l) b.

Definition snap (l : BucketLevel) : BucketLevel :=
  mkLevel (mLevel l) (mNextCurr l) [] (mCurr l).

Notation BucketList := (list BucketLevel) (only parsing).

Definition newBucketList : BucketList :=
  (λ i, mkLevel (Z.of_nat i) clear [] []) <$> seq 0 (Z.to_nat kNumLevels).

(** [mLevels[i]]. *)
Definition levelAt (levels : BucketList) (i : nat) : Checked BucketLevel :=
  match levels !! i with Some l => mret l | None => Asserts "out of range" end.

Section List.
Context `{FileHash}.

Definition commit (l : BucketLevel) : Checked BucketLevel :=
  l ← (if isLive (mNextCurr l) then
         '(f, b) ← resolve (mNextCurr l);
         mret (setCurr (setNext l f) b)
       else mret l);
  _ ← assert (negb (isMerging (mNextCurr l))) "!mNextCurr.isMerging()";
  mret l.

Definition prepare (l : BucketLevel) (currLedger currLedgerProtocol : Z) (snap : Bucket) (shadows : list Bucket) :
    Checked BucketLevel :=
  _ ← assert (negb (isMerging (mNextCurr l))) "!mNextCurr.isMerging()";
  curr ← (if mLevel l =? 0 then mret (mCurr l)
          else
            half ← levelHalf (mLevel l - 1);
            let nextChangeLedger := u32 (currLedger + half) in
            spill ← levelShouldSpill nextChangeLedger (mLevel l);
            mret (if (spill : bool) then [] else mCurr l));
  next ← newFutureBucket curr snap shadows currLedgerProtocol (keepDeadEntries (mLevel l));
  _ ← assert (isMerging next) "mNextCurr.isMerging()";
  mret (setNext l next).

(** [shadows.pop_back()] twice. *)
Definition popTwo (shadows : list Bucket) : Checked (list Bucket) :=
  _ ← assert (2 <=? length shadows)%nat "shadows.size() >= 2";
  mret (take (length shadows - 2) shadows).

(** The loop of [addBatch], from level [i] down to level 1. *)
Fixpoint spillLevels (i : nat) (currLedger currLedgerProtocol : Z) (levels : BucketList) (shadows : list Bucket) :
    Checked (BucketList * list Bucket) :=
  match i with
  | O => mret (levels, shadows)
  | S j =>
      shadows ← popTwo shadows;
      spill ← levelShouldSpill currLedger (Z.of_nat j);
      levels ← (if (spill : bool) then
                  lower ← levelAt levels j;
                  let lower := snap lower in
                  let levels := <[j := lower]> levels in
                  upper ← levelAt levels i;
                  upper ← commit upper;
                  upper ← prepare upper currLedger currLedgerProtocol (mSnap lower) shadows;
                  mret (<[i := upper]> levels)
                else mret levels);
      spillLevels j currLedger currLedgerProtocol levels shadows
  end.

Definition addBatch (levels : BucketList) (currLedger currLedgerProtocol : Z)
    (initEntries liveEntries : list LedgerEntry) (deadEntries : list LedgerKey) : Checked BucketList :=
  _ ← assert (0 <? currLedger) "currLedger > 0";
  let shadows := levels ≫= (λ l, [mCurr l; mSnap l]) in
  shadows ← popTwo shadows;
  '(levels, shadows) ← spillLevels (length levels - 1) currLedger currLedgerProtocol levels shadows;
  _ ← assert (noShadows shadows) "shadows.size() == 0";
  new ← fresh currLedgerProtocol initEntries liveEntries deadEntries;
  first ← levelAt levels 0;
  first ← prepare first currLedger currLedgerProtocol new [];
  first ← commit first;
  mret (<[O := first]> levels).

(** *** Saving the list and taking it up again *)

Fixpoint restartMerges (files : Z → option Bucket) (maxProtocolVersion : Z) (levels : BucketList) (i : Z) :
    Checked BucketList :=
  match levels with
  | [] => mret []
  | l :: levels =>
      l ← (if hasHashes (mNextCurr l) && negb (isLive (mNextCurr l)) then
             next ← makeLive files (mNextCurr l) maxProtocolVersion (keepDeadEntries i);
             mret (setNext l next)
           else mret l);
      levels ← restartMerges files maxProtocolVersion levels (i + 1);
      mret (l :: levels)
  end.

Record HistoryStateBucket := mkHSB { hs_curr : Z; hs_next : FutureBucket; hs_snap : Z }.

Definition historyArchiveState (levels : BucketList) : list HistoryStateBucket :=
  (λ l, mkHSB (getHash (mCurr l)) (mNextCurr l) (getHash (mSnap l))) <$> levels.

(** [resolveAnyReadyFutures] works on copies of the futures. *)
Fixpoint resolveAnyReadyFutures (bs : list HistoryStateBucket) : Checked (list HistoryStateBucket) :=
  match bs with
  | [] => mret []
  | b :: bs =>
      b ← (if isMerging (hs_next b) then
             complete ← mergeComplete (hs_next b);
             if (complete : bool) then
               '(f, _) ← resolve (hs_next b);
               mret (mkHSB (hs_curr b) f (hs_snap b))
             else mret b
           else mret b);
      bs ← resolveAnyReadyFutures bs;
      mret (b :: bs)
  end.

(** [toString] and [fromString]: the JSON text is the list of what is saved of each level. *)
Fixpoint serialize (bs : list HistoryStateBucket) : Checked (list (Z * SavedFuture * Z)) :=
  match bs with
  | [] => mret []
  | b :: bs => s ← save (hs_next b); r ← serialize bs; mret ((hs_curr b, s, hs_snap b) :: r)
  end.
Fixpoint loadBuckets (ss : list (Z * SavedFuture * Z)) : Checked (list HistoryStateBucket) :=
  match ss with
  | [] => mret []
  | (c, s, n) :: ss => f ← load s; r ← loadBuckets ss; mret (mkHSB c f n :: r)
  end.

Definition futuresAllResolved (bs : list HistoryStateBucket) : bool := forallb (λ b, negb (isMerging (hs_next b))) bs.

Definition deserialize (ss : list (Z * SavedFuture * Z)) : Checked (list HistoryStateBucket) :=
  bs ← loadBuckets ss;
  _ ← assert (futuresAllResolved bs) "futuresAllResolved()";
  mret bs.

(** [storeCurrentLedger]: the state that is written at the end of every ledger. *)
Definition savedState (levels : BucketList) : Checked (list (Z * SavedFuture * Z)) :=
  bs ← resolveAnyReadyFutures (historyArchiveState levels);
  serialize bs.

Fixpoint assumeBuckets (files : Z → option Bucket) (has : list HistoryStateBucket) (levels : BucketList) :
    Checked BucketList :=
  match levels, has with
  | l :: levels, b :: has =>
      match getBucketByHash files (hs_curr b), getBucketByHash files (hs_snap b) with
      | Some curr, Some snap =>
          let l := setNext (setSnap (setCurr l curr) snap) (hs_next b) in
          levels ← assumeBuckets files has levels;
          mret (l :: levels)
      | _, _ => Throws "Missing bucket files while assuming saved BucketList state"
      end
  | [], _ => mret []
  | _ :: _, [] => Throws "out of range"
  end.

Definition assumeState (files : Z → option Bucket) (has : list HistoryStateBucket) (maxProtocolVersion : Z)
    (levels : BucketList) : Checked BucketList :=
  levels ← assumeBuckets files has levels;
  restartMerges files maxProtocolVersion levels 0.

(** A node that starts again with what was saved. *)
Definition restart (files : Z → option Bucket) (saved : list (Z * SavedFuture * Z)) (maxProtocolVersion : Z) :
    Checked BucketList :=
  has ← deserialize saved;
  assumeState files has maxProtocolVersion newBucketList.
End List.
