(* ===== verification/BucketWords.v ===== *)
(** * The history of one key in the bucket list

    Read from the oldest bucket to the newest, the entries of one key form a word over
    [INITENTRY], [LIVEENTRY] and [DEADENTRY]. A word is sound ([sound]) when every [INITENTRY] in it comes
    first or right after a [DEADENTRY]. Merging two neighbouring buckets rewrites the word: two entries
    become one or none, and an entry that a shadow covers disappears ([justified]). The rewriting keeps
    soundness and the state the word ends in ([size_word_step]), and it never empties the rest of the word
    behind a live entry ([firm_step]), which is why a shadow taken when the merge started still covers
    the entry when the merge is committed. *)
From stdpp Require Import base list gmap.
From Stdlib Require Import ZArith Lia.
From S2P Require Import Prelude Numeric LedgerEntries Buckets BucketsSpec.

(** What an entry leaves behind. *)
Definition effect (e : BucketEntry) : option LedgerEntry :=
  match e with LIVEENTRY x | INITENTRY x => Some x | _ => None end.

Fixpoint stateAfter (s : option LedgerEntry) (w : list BucketEntry) : option LedgerEntry :=
  match w with [] => s | x :: w => stateAfter (effect x) w end.

(** [p]: an [INITENTRY] may come next. *)
Fixpoint sound (p : bool) (w : list BucketEntry) : Prop :=
  match w with
  | [] => True
  | x :: w => (isInit x = true → p = true) ∧ noMeta x ∧ sound (isDead x) w
  end.

(** Not empty, and it does not begin with an [INITENTRY]. *)
Definition firm (w : list BucketEntry) : Prop :=
  match w with [] => False | x :: _ => isInit x = false end.

Notation cell := option_list.

(** The cells [a] and [b] are merged to [m], in front of the rest [S] of the word; on the last level ([last])
    tombstones are dropped. *)
Definition justified (last : bool) (a b m : option BucketEntry) (S : list BucketEntry) : Prop :=
  m = combine a b ∨
  (m = None ∧ ∃ e, combine a b = Some e ∧ isInit e = false ∧ firm S) ∨
  (last = true ∧ m = None ∧ ∃ e, combine a b = Some e ∧ isDead e = true).

Lemma sound_app_r p A B : sound p (A ++ B) → ∃ q, sound q B.
Proof. revert p. induction A as [|x A IH]; intros p; simpl; [eauto|]. intros (_ & _ & H). eauto. Qed.

Lemma sound_firm p q w : firm w → sound p w → sound q w.
Proof. destruct w as [|x w]; [done|]. simpl. intros Hx (_ & H). split; [congruence|done]. Qed.

Lemma sound_true p w : sound p w → sound true w.
Proof. destruct w as [|x w]; [done|]. simpl. naive_solver. Qed.

Lemma sound_adjacent p A a b S : sound p (A ++ a :: b :: S) → isInit b = true → isDead a = true.
Proof. intros [q Hq]%sound_app_r Hb. simpl in Hq. naive_solver. Qed.

(** Two neighbouring entries, once they are merged: what may stand around the result. *)
Lemma combine_sound p a b S :
  sound p (cell a ++ cell b ++ S) → sound p (cell (combine a b) ++ S).
Proof.
  destruct a as [a|], b as [b|]; simpl; try done. intros (Ha & Hma & Hb & Hmb & HS).
  destruct a, b; simpl in *; try done; try (by specialize (Hb eq_refl)); try naive_solver.
Qed.

Lemma combine_state p s a b S :
  (p = true → s = None) → sound p (cell a ++ cell b ++ S) →
  stateAfter s (cell a ++ cell b ++ S) = stateAfter s (cell (combine a b) ++ S).
Proof.
  intros Hp. destruct a as [a|], b as [b|]; simpl; try done. intros (Ha & Hma & Hb & Hmb & HS).
  destruct a, b; simpl in *; try done. by rewrite Hp by auto.
Qed.

Lemma firm_state s w : firm w → stateAfter s w = stateAfter None w.
Proof. by destruct w. Qed.

Lemma word_step_here p s last a b m S :
  (p = true → s = None) → (last = true → p = true) → sound p (cell a ++ cell b ++ S) → justified last a b m S →
  sound p (cell m ++ S) ∧ stateAfter s (cell a ++ cell b ++ S) = stateAfter s (cell m ++ S).
Proof.
  intros Hp Hl Hs Hj. pose proof (combine_sound _ _ _ _ Hs) as Hc. pose proof (combine_state _ _ _ _ _ Hp Hs) as Hst.
  destruct Hj as [->|[(-> & e & He & Hi & Hf)|(Hlast & -> & e & He & Hd)]]; [done| |]; rewrite He in *; simpl in *.
  - destruct Hc as (_ & _ & Hc). split; [by eapply sound_firm|]. by rewrite Hst, (firm_state (effect e) S), (firm_state s S).
  - destruct Hc as (_ & _ & Hc). rewrite Hd in Hc. rewrite (Hl Hlast). split; [done|].
    rewrite Hst. destruct e; try done. simpl. by rewrite Hp by auto.
Qed.

Lemma size_word_step p s last A a b m S :
  (p = true → s = None) → (last = true → A = [] ∧ p = true) → sound p (A ++ cell a ++ cell b ++ S) → justified last a b m S →
  sound p (A ++ cell m ++ S) ∧ stateAfter s (A ++ cell a ++ cell b ++ S) = stateAfter s (A ++ cell m ++ S).
Proof.
  revert p s. induction A as [|x A IH]; intros p s Hp Hl Hs Hj.
  - apply (word_step_here p s last); naive_solver.
  - simpl in *. destruct Hs as (Hx & Hm & Hs).
    destruct (IH (isDead x) (effect x)) as [H1 H2]; [by destruct x|naive_solver|done|done|]. done.
Qed.

Lemma combine_firm p a b S :
  sound p (cell a ++ cell b ++ S) → firm (cell a ++ cell b ++ S) → firm (cell (combine a b) ++ S).
Proof.
  destruct a as [a|], b as [b|]; simpl; try done. intros (Ha & Hma & Hb & Hmb & HS) Hi.
  destruct a, b; simpl in *; try done.
Qed.

Lemma firm_step p A a b m S :
  sound p (A ++ cell a ++ cell b ++ S) → firm (A ++ cell a ++ cell b ++ S) → justified false a b m S →
  firm (A ++ cell m ++ S).
Proof.
  intros Hs Hf Hj. destruct A as [|x A]; [|done]. simpl in *.
  pose proof (combine_firm _ _ _ _ Hs Hf) as Hc.
  destruct Hj as [->|[(-> & e & He & Hi & HS)|(? & _)]]; done.
Qed.

(** A new entry at the end: an [INITENTRY] only when the state is empty. *)
Lemma sound_snoc p s w n :
  (p = false → s ≠ None) → sound p w → noMeta n → (isInit n = true → stateAfter s w = None) → sound p (w ++ [n]).
Proof.
  revert p s. induction w as [|x w IH]; intros p s Hp Hs Hm Hn; simpl in *.
  - split; [|done]. intros Hi. destruct p; [done|]. by destruct (Hp eq_refl (Hn Hi)).
  - destruct Hs as (Hx & Hmx & Hs). split_and!; [done..|]. apply (IH _ (effect x)); try done. by destruct x.
Qed.

Lemma stateAfter_app s w x : stateAfter s (w ++ [x]) = effect x.
Proof. revert s. induction w as [|y w IH]; intros s; simpl; [done|apply IH]. Qed.

Lemma firm_app w v : firm w → firm (w ++ v).
Proof. by destruct w. Qed.
