(* ===== verification/BucketListSpec.v ===== *)
(** * The bucket list represents the ledger

    The invariant of the list between two ledgers ([ListInv]) and its preservation by [addBatch]: no call
    fails, and the newest entry of every key tells the state of that key in the ledger. *)
From stdpp Require Import base list gmap strings.
From Stdlib Require Import ZArith Lia.
From S2P Require Import Prelude Numeric LedgerEntries Buckets BucketsSpec BucketList BucketWords.

(** ** The schedule *)

(** Level [j] spills at the multiples of [half j]; the last level never does. *)
Definition half (j : nat) : Z := 2 ^ (2 * Z.of_nat j + 1).
Definition spills (ledger : Z) (j : nat) : bool := (j <? 10)%nat && (ledger mod half j =? 0).

Lemma half_pos j : 0 < half j.
Proof. unfold half. apply Z.pow_pos_nonneg; lia. Qed.
Lemma half_S j : half (S j) = 4 * half j.
Proof. unfold half. replace (2 * Z.of_nat (S j) + 1) with (2 + (2 * Z.of_nat j + 1)) by lia. by rewrite Z.pow_add_r by lia. Qed.

Lemma half_divide j n : (j <= n)%nat → (half j | half n).
Proof. intros H. unfold half. exists (2 ^ (2 * Z.of_nat (n - j))). rewrite <- Z.pow_add_r by lia. f_equal. lia. Qed.

Lemma mask_pow v p : 0 <= v < 2 ^ 32 → 0 <= p < 32 → mask v (2 ^ p) = v - v mod 2 ^ p.
Proof.
  intros Hv Hp. unfold mask, u32, wrap.
  rewrite (Z.mod_small (2 ^ p - 1)) by (pose proof (Z.pow_pos_nonneg 2 p); pose proof (Z.pow_lt_mono_r 2 p 32); lia).
  apply Z.bits_inj'. intros n Hn. rewrite Z.land_spec.
  replace (v - v mod 2 ^ p) with (Z.ldiff v (Z.ones p)).
  2:{ rewrite Z.ldiff_ones_r by lia. rewrite Z.shiftl_mul_pow2, Z.shiftr_div_pow2 by lia.
      pose proof (Z.div_mod v (2 ^ p)). lia. }
  rewrite Z.ldiff_spec, Z.ones_equiv, <- Z.sub_1_r.
  destruct (Z_lt_dec n 32) as [H|H].
  - rewrite Z.mod_pow2_bits_low, Z.lnot_spec by lia. done.
  - assert (Hb : Z.testbit v n = false); [|by rewrite Hb].
    destruct (Z.eq_dec v 0) as [->|Hv0]; [apply Z.bits_0|]. apply Z.bits_above_log2; [lia|].
    apply (Z.lt_le_trans _ 32); [apply Z.log2_lt_pow2; lia|lia].
Qed.

Lemma levelSize_Val j : (j < 11)%nat → levelSize (Z.of_nat j) = Val (2 * half j).
Proof.
  intros Hj. unfold levelSize, assert, kNumLevels. rewrite (proj2 (Z.ltb_lt _ _)) by lia. simpl.
  f_equal. rewrite Z.shiftl_1_l. unfold u32, wrap, half.
  replace (2 * (Z.of_nat j + 1)) with (1 + (2 * Z.of_nat j + 1)) by lia. rewrite Z.pow_add_r by lia.
  apply Z.mod_small. split; [lia|]. change (2 ^ 1 * 2 ^ (2 * Z.of_nat j + 1)) with (2 * 2 ^ (2 * Z.of_nat j + 1)).
  assert (2 ^ (2 * Z.of_nat j + 1) <= 2 ^ 21) by (apply Z.pow_le_mono_r; lia). lia.
Qed.
Lemma levelHalf_Val j : (j < 11)%nat → levelHalf (Z.of_nat j) = Val (half j).
Proof.
  intros Hj. unfold levelHalf. rewrite levelSize_Val by done. rewrite bind_Val. unfold mret, Checked_ret. f_equal.
  rewrite Z.shiftr_div_pow2, Z.pow_1_r, Z.mul_comm by lia. by apply Z.div_mul.
Qed.

Lemma mask_half v j : 0 <= v < 2 ^ 32 → (j < 11)%nat → mask v (half j) = v - v mod half j.
Proof. intros. unfold half. apply mask_pow; lia. Qed.
Lemma mask_size v j : 0 <= v < 2 ^ 32 → (j < 11)%nat → mask v (2 * half j) = v - v mod (2 * half j).
Proof.
  intros Hv Hj. assert (Hp : 2 * half j = 2 ^ (1 + (2 * Z.of_nat j + 1))) by (unfold half; by rewrite (Z.pow_add_r 2 1) by lia).
  rewrite Hp. apply mask_pow; lia.
Qed.

Lemma levelShouldSpill_Val ledger j :
  0 <= ledger < 2 ^ 32 → (j < 11)%nat → levelShouldSpill ledger (Z.of_nat j) = Val (spills ledger j).
Proof.
  intros Hl Hj. unfold levelShouldSpill, spills, kNumLevels.
  destruct (Z.of_nat j =? 11 - 1) eqn:H10.
  { apply Z.eqb_eq in H10. by rewrite (proj2 (Nat.ltb_ge _ _)) by lia. }
  apply Z.eqb_neq in H10. rewrite (proj2 (Nat.ltb_lt _ _)) by lia. rewrite levelHalf_Val, bind_Val by done.
  rewrite mask_half by done. simpl.
  destruct (ledger mod half j =? 0) eqn:Hm; propify.
  - rewrite Hm, Z.sub_0_r, Z.eqb_refl. done.
  - rewrite (proj2 (Z.eqb_neq ledger _)) by lia. rewrite levelSize_Val, bind_Val by done.
    rewrite mask_size by done. unfold mret, Checked_ret. f_equal. apply Z.eqb_neq. intros Heq.
    apply Hm. apply Z.mod_divide; [pose proof (half_pos j); lia|].
    assert (Hd : (2 * half j | ledger)) by (apply Z.mod_divide; [pose proof (half_pos j); lia|lia]).
    destruct Hd as [q ->]. exists (2 * q). lia.
Qed.

(** The next ledger after [t] at which level [j] spills. *)
Definition due (t : Z) (j : nat) : Z := (t / half j + 1) * half j.

Lemma spills_lower ledger j n : (j <= n)%nat → spills ledger n = true → spills ledger j = true.
Proof.
  unfold spills. intros Hjn [H1 H2]%andb_prop. propify. apply Nat.ltb_lt in H1. apply andb_true_intro. split; [apply Nat.ltb_lt; lia|].
  apply Z.eqb_eq, Z.mod_divide; [pose proof (half_pos j); lia|].
  etrans; [by apply half_divide|]. apply Z.mod_divide; [pose proof (half_pos n); lia|done].
Qed.

Lemma due_spill ledger j : spills ledger j = true → due (ledger - 1) j = ledger ∧ due ledger j = ledger + half j.
Proof.
  unfold spills, due. intros [_ H]%andb_prop. propify. pose proof (half_pos j).
  apply Z.mod_divide in H as [q ->]; [|lia]. rewrite Z.div_mul by lia.
  replace (q * half j - 1) with ((half j - 1) + (q - 1) * half j) by lia.
  rewrite Z.div_add, Z.div_small by lia. lia.
Qed.
Lemma due_stay ledger j : (j < 10)%nat → spills ledger j = false → due (ledger - 1) j = due ledger j.
Proof.
  unfold spills, due. intros Hj H. apply andb_false_iff in H as [H|H]; [apply Nat.ltb_ge in H; lia|]. propify.
  pose proof (half_pos j). do 2 f_equal. rewrite (Z.div_mod ledger (half j)) at 1 by lia.
  pose proof (Z.mod_pos_bound ledger (half j)).
  replace (half j * (ledger / half j) + ledger mod half j - 1) with ((ledger mod half j - 1) + (ledger / half j) * half j) by lia.
  rewrite Z.div_add, Z.div_small by lia. lia.
Qed.

Lemma spills_wrap ledger j : spills (u32 ledger) j = spills ledger j.
Proof.
  unfold spills, u32, wrap. destruct (j <? 10)%nat eqn:Hj; [|done]. apply Nat.ltb_lt in Hj. simpl. f_equal.
  unfold half. rewrite <- Znumtheory.Zmod_div_mod; [done|lia..|].
  exists (2 ^ (32 - (2 * Z.of_nat j + 1))). rewrite <- Z.pow_add_r by lia. f_equal. lia.
Qed.

(** ** Merges in progress *)

#[local] Arguments checkState {_} f : simpl never.

Section Spec.
Context `{HF : FileHash}.

(** The future is live, in order, and will give [M]. *)
Record gives (f : FutureBucket) (M : Bucket) : Prop := {
  gv_live : isLive f = true;
  gv_state : checkState f = Val tt;
  gv_output : ∃ r, mOutputBucket f = Some (mkFuture (Val M) r);
  gv_hash : ∀ h, mOutputBucketHash f = Some h → h = getHash M }.

Lemma checkHashEq_same b : checkHashEq b (getHash b) = Val tt.
Proof. unfold checkHashEq. by rewrite Z.eqb_refl. Qed.
Lemma checkShadowHashes_same bs : checkShadowHashes bs (getHash <$> bs) = Val tt.
Proof. induction bs as [|b bs IH]; [done|]. simpl. by rewrite checkHashEq_same, bind_Val. Qed.

Lemma resolved_state M r :
  checkState (mkFB FB_LIVE_OUTPUT None None [] (Some (mkFuture (Val M) true)) None None [] (Some (getHash M))) = Val r.
Proof. unfold checkState, mergeComplete, checkHashesMatch. simpl. rewrite checkHashEq_same. by destruct r. Qed.

Lemma resolve_gives f M : gives f M → ∃ f', resolve f = Val (f', M) ∧ gives f' M.
Proof.
  intros [Hl Hs [r Ho] Hh]. unfold resolve. rewrite Hs, Hl. simpl. rewrite Ho. simpl.
  destruct (mOutputBucketHash f) as [h|]; [rewrite (Hh h eq_refl), checkHashEq_same|]; simpl;
    rewrite (resolved_state M tt); simpl; (eexists; split; [done|]).
  all: split; [done|apply resolved_state|by eexists|by intros ? [= <-]].
Qed.

Lemma new_future_gives curr snap shadows maxP keep M :
  merge maxP curr snap shadows keep = Val M →
  ∃ f, newFutureBucket curr snap shadows maxP keep = Val f ∧ gives f M ∧ isMerging f = true.
Proof.
  intros HM. unfold newFutureBucket, startMerge, mergeTask. simpl. rewrite HM.
  set (f := mkFB _ _ _ _ (Some _) _ _ _ _).
  assert (Hc : checkState f = Val tt).
  { unfold checkState, f, checkHashesMatch, mergeComplete. simpl. rewrite !checkHashEq_same.
    destruct (noShadows shadows); simpl; [done|]. rewrite length_fmap, Nat.eqb_refl. simpl.
    by rewrite checkShadowHashes_same. }
  rewrite Hc. simpl. exists f. split_and!; [done| |done]. split; [done|done|by eexists|done].
Qed.

(** ** Levels *)

Lemma commit_gives l M :
  gives (mNextCurr l) M → commit l = Val (mkLevel (mLevel l) clear M (mSnap l)).
Proof.
  intros Hg. unfold commit. rewrite (gv_live _ _ Hg). destruct (resolve_gives _ _ Hg) as (f & Hr & _).
  by rewrite Hr.
Qed.
Lemma commit_clear l : mNextCurr l = clear → commit l = Val l.
Proof. intros Hc. unfold commit. rewrite Hc. simpl. by rewrite Hc. Qed.

(** The bucket that [prepare] merges with: empty if the level is snapped before the merge is committed. *)
Definition base (t : Z) (l : BucketLevel) (j : nat) : Bucket := if spills (due t j) (S j) then [] else mCurr l.

Lemma prepare_gives l j ledger pv s shadows M :
  mLevel l = Z.of_nat (S j) → (S j < 11)%nat → isMerging (mNextCurr l) = false → spills ledger j = true →
  merge pv (base ledger l j) s shadows (S j <? 10)%nat = Val M →
  ∃ f, prepare l ledger pv s shadows = Val (mkLevel (mLevel l) f (mCurr l) (mSnap l)) ∧ gives f M.
Proof.
  intros Hl Hj Hm Hsp HM. unfold prepare. rewrite Hm. cbn [negb assert]. rewrite bind_Val.
  rewrite Hl. rewrite (proj2 (Z.eqb_neq _ 0)) by lia.
  replace (Z.of_nat (S j) - 1) with (Z.of_nat j) by lia. rewrite levelHalf_Val, bind_Val by lia.
  rewrite levelShouldSpill_Val, bind_Val by (try lia; unfold u32, wrap; apply Z.mod_pos_bound; lia).
  rewrite spills_wrap. unfold mret, Checked_ret. rewrite bind_Val.
  destruct (due_spill _ _ Hsp) as [_ Hd]. unfold base in HM. rewrite Hd in HM.
  assert (Hk : keepDeadEntries (Z.of_nat (S j)) = (S j <? 10)%nat).
  { unfold keepDeadEntries, kNumLevels. destruct (S j <? 10)%nat eqn:E;
      [apply Nat.ltb_lt in E; apply Z.ltb_lt|apply Nat.ltb_ge in E; apply Z.ltb_ge]; lia. }
  rewrite Hk. destruct (new_future_gives _ _ _ _ _ _ HM) as (f & -> & Hg & Hf). rewrite bind_Val, Hf.
  exists f. unfold setNext. by rewrite <- Hl.
Qed.

Lemma prepare_first_gives l ledger pv s M :
  mLevel l = 0 → isMerging (mNextCurr l) = false → merge pv (mCurr l) s [] true = Val M →
  ∃ f, prepare l ledger pv s [] = Val (mkLevel 0 f (mCurr l) (mSnap l)) ∧ gives f M.
Proof.
  intros Hl Hm HM. unfold prepare. rewrite Hm, Hl.
  destruct (new_future_gives _ _ _ _ _ _ HM) as (f & Hn & Hg & Hf).
  cbn [negb assert Z.eqb mret Checked_ret mbind Checked_bind]. change (keepDeadEntries 0) with true.
  rewrite Hn. cbn [mbind Checked_bind]. rewrite Hf. unfold setNext. rewrite Hl. by exists f.
Qed.

(** ** The invariant *)

Definition emptyLevel : BucketLevel := mkLevel 0 clear [] [].
Definition lev (levels : BucketList) (i : nat) : BucketLevel := default emptyLevel (levels !! i).
Notation cur levels i := (mCurr (lev levels i)) (only parsing).
Notation snp levels i := (mSnap (lev levels i)) (only parsing).

(** The word of a key: levels [n - 1] to [i], the oldest bucket first. *)
Fixpoint wordTo (levels : BucketList) (k : LedgerKey) (i n : nat) : list BucketEntry :=
  match n with
  | O => []
  | S m => if (m <? i)%nat then []
           else cell (entryAt k (snp levels m)) ++ cell (entryAt k (cur levels m)) ++ wordTo levels k i m
  end.
Notation word levels k n := (wordTo levels k 0 n) (only parsing).

(** What follows the cell of level [S j] in the word. *)
Definition suffix (levels : BucketList) (k : LedgerKey) (j : nat) : list BucketEntry :=
  cell (entryAt k (cur levels j)) ++ word levels k j.

(** The merge into level [S j] is not there yet, or it will give what merging [base] with the snapshot
    below gives, less what a newer level covers. *)
Definition PendOk (pv t : Z) (levels : BucketList) (j : nat) : Prop :=
  (mNextCurr (lev levels (S j)) = clear ∧ snp levels j = [] ∧ cur levels (S j) = []) ∨
  ∃ M, gives (mNextCurr (lev levels (S j))) M ∧ BucketOk M ∧ versionOf M <= pv ∧
    ∀ k, justified (S j =? 10)%nat (entryAt k (base t (lev levels (S j)) j)) (entryAt k (snp levels j)) (entryAt k M)
           (suffix levels k j).

Record ListInv0 (pv : Z) (levels : BucketList) (st : LedgerKey → option LedgerEntry) : Prop := {
  inv_length : length levels = 11%nat;
  inv_level : ∀ i, (i < 11)%nat → mLevel (lev levels i) = Z.of_nat i;
  inv_ok : ∀ i, BucketOk (cur levels i) ∧ BucketOk (snp levels i);
  inv_version : ∀ i, versionOf (cur levels i) <= pv ∧ versionOf (snp levels i) <= pv;
  inv_first : isMerging (mNextCurr (lev levels 0)) = false;
  inv_last : snp levels 10 = [];
  inv_sound : ∀ k, sound true (word levels k 11);
  inv_state : ∀ k, stateAfter None (word levels k 11) = st k }.

(** In the middle of [addBatch], before iteration [i]: the levels above [i] wait for the ledger after [ledger]. *)
Record MidInv (pv ledger : Z) (i : nat) (levels : BucketList) (st : LedgerKey → option LedgerEntry) : Prop := {
  mid_inv : ListInv0 pv levels st;
  mid_pend : ∀ j, (j < 10)%nat → PendOk pv (if (j <? i)%nat then ledger - 1 else ledger) levels j;
  mid_snapped : spills ledger i = true → cur levels i = [] }.

(** Between two ledgers. *)
Record ListInv (pv ledger : Z) (levels : BucketList) (st : LedgerKey → option LedgerEntry) : Prop := {
  li_inv0 : ListInv0 pv levels st;
  li_pend : ∀ j, (j < 10)%nat → PendOk pv ledger levels j }.

Lemma wordTo_split levels k i m n :
  (i <= m <= n)%nat → wordTo levels k i n = wordTo levels k m n ++ wordTo levels k i m.
Proof.
  intros Him. induction n as [|n IH].
  { assert (m = 0%nat) as -> by lia. done. }
  destruct (decide (m = S n)) as [->|Hne].
  { cbn [wordTo]. by rewrite (proj2 (Nat.ltb_lt n (S n))) by lia. }
  cbn [wordTo]. rewrite !(proj2 (Nat.ltb_ge _ _)) by lia. rewrite IH by lia. by rewrite <- !app_assoc.
Qed.

Lemma wordTo_ext levels levels' k i n :
  (∀ m, (i <= m < n)%nat → cur levels m = cur levels' m ∧ snp levels m = snp levels' m) →
  wordTo levels k i n = wordTo levels' k i n.
Proof.
  intros Hext. induction n as [|n IH]; [done|]. cbn [wordTo]. destruct (n <? i)%nat eqn:E; [done|].
  apply Nat.ltb_ge in E. destruct (Hext n) as [-> ->]; [lia|]. rewrite IH; [done|]. intros m Hm. apply Hext. lia.
Qed.

Lemma wordTo_S levels k n :
  word levels k (S n) = cell (entryAt k (snp levels n)) ++ suffix levels k n.
Proof. done. Qed.

Lemma wordTo_one levels k n :
  wordTo levels k n (S n) = cell (entryAt k (snp levels n)) ++ cell (entryAt k (cur levels n)).
Proof.
  cbn [wordTo]. rewrite (proj2 (Nat.ltb_ge n n)) by lia.
  destruct n; cbn [wordTo]; [by rewrite app_nil_r|]. rewrite (proj2 (Nat.ltb_lt n (S n))) by lia. by rewrite app_nil_r.
Qed.

(** ** A level spills *)

Lemma lev_insert levels x y l :
  (x < length levels)%nat → lev (<[x := l]> levels) y = if decide (x = y) then l else lev levels y.
Proof.
  intros Hx. unfold lev. case_decide as Hxy; [subst; by rewrite list_lookup_insert_eq|by rewrite list_lookup_insert_ne].
Qed.
Lemma levelAt_lev levels x : (x < length levels)%nat → levelAt levels x = Val (lev levels x).
Proof. intros Hx. unfold levelAt, lev. by destruct (lookup_lt_is_Some_2 levels x Hx) as [l ->]. Qed.

(** Level [j] is now the snapshot of its level, and [M] is the new level [S j]. *)
Record Spilled (levels levels' : BucketList) (j : nat) (M : Bucket) : Prop := {
  sp_upper : cur levels' (S j) = M ∧ snp levels' (S j) = snp levels (S j);
  sp_lower : cur levels' j = [] ∧ snp levels' j = cur levels j;
  sp_other : ∀ m, m ≠ j → m ≠ S j → lev levels' m = lev levels m }.

Section SpillWords.
Context (levels levels' : BucketList) (j : nat) (M : Bucket) (Hsp : Spilled levels levels' j M).

(** The part of [suffix levels k m] in front of level [S j]. *)
Definition front (k : LedgerKey) (m : nat) : list BucketEntry :=
  if decide (m = S j) then []
  else cell (entryAt k (cur levels m)) ++ wordTo levels k (S (S j)) m ++ cell (entryAt k (snp levels (S j))).

Lemma spilled_word_below k n : (n <= j)%nat → word levels' k n = word levels k n.
Proof. intros Hn. apply wordTo_ext. intros m Hm. by rewrite (sp_other _ _ _ _ Hsp) by lia. Qed.

Lemma spilled_two k :
  word levels' k (S (S j)) = cell (entryAt k (snp levels (S j))) ++ cell (entryAt k M) ++ suffix levels k j.
Proof.
  destruct Hsp as [[H1 H2] [H3 H4] H5]. rewrite wordTo_S. unfold suffix. rewrite wordTo_S. unfold suffix.
  rewrite H1, H2, H3, H4, spilled_word_below by done. done.
Qed.

Lemma spilled_above k i n : (S (S j) <= i)%nat → wordTo levels' k i n = wordTo levels k i n.
Proof. intros Hi. apply wordTo_ext. intros m Hm. by rewrite (sp_other _ _ _ _ Hsp) by lia. Qed.

Lemma word_around k n :
  (S (S j) <= n)%nat →
  word levels k n = (wordTo levels k (S (S j)) n ++ cell (entryAt k (snp levels (S j)))) ++
                    cell (entryAt k (cur levels (S j))) ++ cell (entryAt k (snp levels j)) ++ suffix levels k j ∧
  word levels' k n = (wordTo levels k (S (S j)) n ++ cell (entryAt k (snp levels (S j)))) ++
                     cell (entryAt k M) ++ suffix levels k j.
Proof.
  intros Hn. rewrite (wordTo_split levels k 0 (S (S j)) n), (wordTo_split levels' k 0 (S (S j)) n) by lia.
  rewrite (spilled_above k (S (S j)) n), spilled_two, wordTo_S by lia. unfold suffix at 1. rewrite wordTo_S.
  by rewrite <- !app_assoc.
Qed.

Lemma suffix_around k m :
  (S j <= m)%nat →
  suffix levels k m = front k m ++ cell (entryAt k (cur levels (S j))) ++ cell (entryAt k (snp levels j)) ++ suffix levels k j ∧
  suffix levels' k m = front k m ++ cell (entryAt k M) ++ suffix levels k j.
Proof.
  intros Hm. unfold front. destruct (decide (m = S j)) as [->|Hne].
  - unfold suffix at 1 3. rewrite !wordTo_S. simpl. destruct Hsp as [[-> _] [H3 H4] _].
    unfold suffix. rewrite H3, H4, spilled_word_below by lia. done.
  - unfold suffix at 1 3. rewrite (sp_other _ _ _ _ Hsp) by lia.
    destruct (word_around k m) as [-> ->]; [lia|]. by rewrite <- !app_assoc.
Qed.

Lemma suffix_below k m : (m < j)%nat → suffix levels' k m = suffix levels k m.
Proof. intros Hm. unfold suffix. rewrite (sp_other _ _ _ _ Hsp), spilled_word_below by lia. done. Qed.
End SpillWords.

Lemma suffix_sound levels k m n : (m < n)%nat → sound true (word levels k n) → ∃ p, sound p (suffix levels k m).
Proof.
  intros Hm. rewrite (wordTo_split levels k 0 (S m) n), wordTo_S by lia. intros Hs.
  rewrite app_assoc in Hs. by apply sound_app_r in Hs.
Qed.

Lemma justified_firm last a b m S S' :
  (firm S → firm S') → justified last a b m S → justified last a b m S'.
Proof. intros Hf [H1|[(H1 & e & H2 & H3 & H4)|H1]]; unfold justified; [tauto| |tauto].
  right; left. split; [done|]. exists e. auto.
Qed.

(** What [commit] makes of the level that receives the spill. *)
Lemma commit_pending pv ledger j levels st :
  MidInv pv ledger (S j) levels st → (j < 10)%nat → spills ledger j = true →
  ∃ M, commit (lev levels (S j)) = Val (mkLevel (Z.of_nat (S j)) clear M (snp levels (S j))) ∧ BucketOk M ∧
    versionOf M <= pv ∧
    ∀ k, justified (S j =? 10)%nat (entryAt k (cur levels (S j))) (entryAt k (snp levels j)) (entryAt k M) (suffix levels k j).
Proof.
  intros [Hinv Hp Hsn] Hj Hsp. specialize (Hp j Hj). rewrite (proj2 (Nat.ltb_lt _ _)) in Hp by lia.
  pose proof (inv_level _ _ _ Hinv (S j) ltac:(lia)) as Hl.
  assert (Hb : base (ledger - 1) (lev levels (S j)) j = cur levels (S j)).
  { unfold base. rewrite (proj1 (due_spill _ _ Hsp)). destruct (spills ledger (S j)) eqn:E; [|done]. by rewrite Hsn. }
  destruct Hp as [(Hc & Hs & Hcu)|(M & Hg & Hok & Hv & Hju)].
  - exists []. rewrite commit_clear by done. split_and!.
    + rewrite <- Hl. destruct (lev levels (S j)); simpl in *; by subst.
    + rewrite <- Hcu. by apply (inv_ok _ _ _ Hinv).
    + rewrite <- Hcu. by apply (inv_version _ _ _ Hinv).
    + intros k. left. by rewrite Hs, Hcu.
  - exists M. rewrite (commit_gives _ M Hg), Hl. split_and!; [done..|]. intros k. rewrite <- Hb. apply Hju.
Qed.

(** What a merge that starts now will give. *)
Lemma merged_justified keep lc sh a b S p :
  sound p (cell a ++ cell b ++ S) → (sh = true → S ≠ []) →
  (lc = false → Forall (λ e, isInit e = false) (cell a ++ cell b ++ S)) →
  justified (negb keep) a b (mergedEntry keep lc sh a b) S.
Proof.
  intros Hs Hsh Hlc. pose proof (combine_sound _ _ _ _ Hs) as Hc. unfold mergedEntry, justified.
  destruct (combine a b) as [e|] eqn:He; [|by left]. simpl in Hc. destruct Hc as (_ & Hm & Hc).
  destruct (written keep lc sh e) eqn:Hw; [by left|]. right. unfold written, survives in Hw.
  apply andb_false_iff in Hw as [Hw|Hw].
  - left. split; [done|]. exists e. split; [done|]. apply orb_false_iff in Hw as [Hl Hns].
    apply negb_false_iff in Hns. specialize (Hsh Hns). destruct S as [|x S]; [done|]. simpl. destruct lc; simpl in Hl.
    + apply orb_false_iff in Hl as [Hi Hd]. split; [done|]. simpl in Hc. destruct Hc as (Hx & _).
      destruct (isInit x); [|done]. by rewrite Hx in Hd.
    + specialize (Hlc eq_refl). rewrite !Forall_app in Hlc. destruct Hlc as (Ha & Hb & Hx).
      split; [|by inversion Hx]. destruct (isInit e) eqn:Hi; [|done].
      destruct (combine_init_inputs _ _ _ He Hi) as [(y & -> & Hy)|(y & -> & Hy)];
        [inversion Ha|inversion Hb]; congruence.
  - right. apply orb_false_iff in Hw as [-> Hd]. apply negb_false_iff in Hd. split_and!; [done..|by exists e].
Qed.

Definition shadowsOf (levels : BucketList) : list Bucket := levels ≫= (λ l, [mCurr l; mSnap l]).

Lemma shadowsOf_cons l ls : shadowsOf (l :: ls) = mCurr l :: mSnap l :: shadowsOf ls.
Proof. done. Qed.
Lemma shadowsOf_app a b : shadowsOf (a ++ b) = shadowsOf a ++ shadowsOf b.
Proof. apply bind_app. Qed.
Lemma shadowsOf_length levels : length (shadowsOf levels) = (2 * length levels)%nat.
Proof. induction levels as [|l ls IH]; [done|]. rewrite shadowsOf_cons. simpl. rewrite IH. lia. Qed.
Lemma take_S_lev levels j : (j < length levels)%nat → take (S j) levels = take j levels ++ [lev levels j].
Proof. intros Hj. unfold lev. destruct (lookup_lt_is_Some_2 levels j Hj) as [l Hl]. by rewrite Hl, (take_S_r _ _ l). Qed.

Lemma elem_of_shadows levels j b :
  (j <= length levels)%nat → b ∈ shadowsOf (take j levels) → ∃ m, (m < j)%nat ∧ (b = cur levels m ∨ b = snp levels m).
Proof.
  induction j as [|j IH]; [set_solver|]. intros Hj. rewrite take_S_lev, shadowsOf_app, elem_of_app by lia.
  intros [Hb|Hb].
  - destruct IH as (m & Hm & Hb'); [lia|done|]. exists m. split; [lia|done].
  - exists j. split; [lia|]. rewrite shadowsOf_cons in Hb. change (shadowsOf []) with (@nil Bucket) in Hb. set_solver.
Qed.

Lemma shadowed_word levels k j :
  (j <= length levels)%nat → shadowed k (shadowsOf (take j levels)) = true → word levels k j ≠ [].
Proof.
  induction j as [|j IH]; [done|]. intros Hj. rewrite take_S_lev, shadowsOf_app by lia.
  unfold shadowed. rewrite existsb_app, orb_true_iff, wordTo_S. unfold suffix. intros [Hs|Hs] Hn.
  - apply app_nil in Hn as [_ Hn]. apply app_nil in Hn as [_ Hn]. by apply IH; [lia| |].
  - rewrite shadowsOf_cons in Hs. simpl in Hs. unfold covers in Hs.
    destruct (entryAt k (cur levels j)), (entryAt k (snp levels j)); done.
Qed.

Lemma word_noInit levels k j :
  (∀ m, (m < j)%nat → Forall (λ e, isInit e = false) (cur levels m) ∧ Forall (λ e, isInit e = false) (snp levels m)) →
  Forall (λ e, isInit e = false) (word levels k j).
Proof.
  induction j as [|j IH]; intros Hm; [constructor|]. rewrite wordTo_S. unfold suffix. rewrite !Forall_app.
  destruct (Hm j) as [H1 H2]; [lia|]. rewrite Forall_forall in H1, H2.
  split_and!; [| |apply IH; intros m ?; apply Hm; lia].
  all: destruct (entryAt k _) as [e|] eqn:He; simpl; [|constructor]; apply entryAt_key in He as (He & _); constructor; auto.
Qed.

Lemma old_noInit b : BucketOk b → versionOf b < 11 → Forall (λ e, isInit e = false) b.
Proof. intros [_ Hm Hi] Hv. specialize (Hi Hv). destruct b as [|[] b]; try done. by constructor. Qed.

Lemma cell_noInit k b : Forall (λ e, isInit e = false) b → Forall (λ e, isInit e = false) (cell (entryAt k b)).
Proof.
  intros Hb. destruct (entryAt k b) as [e|] eqn:He; [|constructor]. apply entryAt_key in He as (He & _).
  rewrite Forall_forall in Hb. constructor; [by apply Hb|constructor].
Qed.

Lemma sound_fits old new S p k o n :
  (∃ A, sound p (A ++ cell (entryAt k old) ++ cell (entryAt k new) ++ S)) →
  entryAt k old = Some o → entryAt k new = Some n → isInit n = true → isDead o = true.
Proof. intros [A Hs] Ho Hn. rewrite Ho, Hn in Hs. exact (sound_adjacent _ _ _ _ _ Hs). Qed.

(** The merge that is started for level [S j], with the levels below [j] as shadows. *)
Lemma merge_started pv levels j old new keep :
  0 <= pv → (j <= length levels)%nat → BucketOk old → BucketOk new → versionOf old <= pv → versionOf new <= pv →
  (∀ m, BucketOk (cur levels m) ∧ BucketOk (snp levels m)) →
  (∀ m, versionOf (cur levels m) <= pv ∧ versionOf (snp levels m) <= pv) →
  (∀ k, ∃ p, sound p (cell (entryAt k old) ++ cell (entryAt k new) ++ word levels k j)) →
  ∃ M, merge pv old new (shadowsOf (take j levels)) keep = Val M ∧ BucketOk M ∧ versionOf M <= pv ∧
    ∀ k, justified (negb keep) (entryAt k old) (entryAt k new) (entryAt k M) (word levels k j).
Proof.
  intros Hpv Hj Ho Hn Hov Hnv Hok Hver Hs. set (sh := shadowsOf (take j levels)).
  assert (Hsh : Forall (λ b, BucketOk b ∧ versionOf b <= pv) sh).
  { apply Forall_forall. intros b (m & _ & [-> | ->])%(elem_of_shadows _ _ _ Hj); split; by (apply Hok || apply Hver). }
  assert (Hle : mergeVersion old new sh <= pv).
  { apply foldl_max_le; [lia|]. intros b Hb. rewrite Forall_forall in Hsh. by apply Hsh. }
  destruct (merge_entries pv old new sh keep Ho Hn) as (M & HM & HMok & HMv & HMe); [| |done|].
  { eapply Forall_impl; [exact Hsh|]. by intros b []. }
  { intros k o n. destruct (Hs k) as [p Hp]. eapply (sound_fits _ _ _ p). by exists []. }
  exists M. split_and!; [done|done|case_match; lia|]. intros k. destruct (Hs k) as [p Hp]. rewrite HMe.
  eapply merged_justified; [done|by apply shadowed_word|]. intros Hlc. apply Z.leb_gt in Hlc.
  pose proof (foldl_max versionOf sh (Z.max (versionOf old) (versionOf new))) as [Hmx Hall].
  fold (mergeVersion old new sh) in Hmx, Hall.
  rewrite !Forall_app. split_and!; [apply cell_noInit, old_noInit; [done|lia]..|].
  apply word_noInit. intros m Hm.
  assert (Hin : cur levels m ∈ sh ∧ snp levels m ∈ sh).
  { unfold sh. rewrite <- (take_drop (S m) (take j levels)), shadowsOf_app, take_take, Nat.min_l, take_S_lev, shadowsOf_app by lia.
    rewrite shadowsOf_cons. split; set_solver. }
  destruct Hin as [H1 H2]. pose proof (Hall _ H1). pose proof (Hall _ H2).
  destruct (Hok m). split; apply old_noInit; try done; lia.
Qed.

(** The words after a spill. *)
Lemma spilled_words levels levels' j M st :
  (j < 10)%nat → Spilled levels levels' j M → snp levels 10 = [] →
  (∀ k, sound true (word levels k 11)) → (∀ k, stateAfter None (word levels k 11) = st k) →
  (∀ k, justified (S j =? 10)%nat (entryAt k (cur levels (S j))) (entryAt k (snp levels j)) (entryAt k M) (suffix levels k j)) →
  (∀ k, sound true (word levels' k 11)) ∧ (∀ k, stateAfter None (word levels' k 11) = st k).
Proof.
  intros Hj Hsp Hlast Hs Hst Hju.
  assert (H : ∀ k, sound true (word levels' k 11) ∧ stateAfter None (word levels k 11) = stateAfter None (word levels' k 11)).
  { intros k. specialize (Hs k). destruct (word_around levels levels' j M Hsp k 11) as [E1 E2]; [lia|].
    rewrite E1 in Hs |- *. rewrite E2. eapply size_word_step; [done| |done|apply Hju].
    intros H10. apply Nat.eqb_eq in H10. injection H10 as ->. split; [|done]. by rewrite Hlast. }
  split; intros k; [apply H|]. rewrite <- Hst. symmetry. apply H.
Qed.

(** The merges that are in progress on other levels stay justified. *)
Lemma spilled_pend pv t levels levels' j M m :
  (m < 10)%nat → m ≠ j → Spilled levels levels' j M →
  (∀ k, sound true (word levels k 11)) →
  (∀ k, justified (S j =? 10)%nat (entryAt k (cur levels (S j))) (entryAt k (snp levels j)) (entryAt k M) (suffix levels k j)) →
  (S m = j → spills (due t m) (S m) = true ∧ mNextCurr (lev levels' j) = mNextCurr (lev levels j)) →
  PendOk pv t levels m → PendOk pv t levels' m.
Proof.
  intros Hm Hmj Hsp Hs Hju Hlow.
  assert (Hsuf : ∀ k, firm (suffix levels k m) → firm (suffix levels' k m)).
  { intros k. destruct (decide (m < j)%nat) as [Hlt|Hge].
    { by rewrite (suffix_below levels levels' j M Hsp). }
    destruct (suffix_sound levels k m 11 ltac:(lia) (Hs k)) as [p Hp].
    destruct (suffix_around levels levels' j M Hsp k m) as [E1 E2]; [lia|]. rewrite E1 in Hp |- *. rewrite E2.
    intros Hf. eapply firm_step; [done|done|]. specialize (Hju k). by rewrite (proj2 (Nat.eqb_neq _ _)) in Hju by lia. }
  assert (Hsnp : snp levels' m = snp levels m).
  { destruct (decide (m = S j)) as [->|]; [by apply sp_upper in Hsp as [_ ?]|by rewrite (sp_other _ _ _ _ Hsp) by lia]. }
  intros Hp. destruct (decide (S m = j)) as [Hd|Hd].
  - destruct (Hlow Hd) as [Hspill Hnext]. subst j. unfold PendOk, base in *. rewrite Hspill in *. rewrite Hsnp.
    destruct Hp as [(H1 & H2 & H3)|(M' & H1 & H2 & H3 & H4)].
    + left. split_and!; [congruence|done|]. by destruct (sp_lower _ _ _ _ Hsp).
    + right. exists M'. split_and!; [congruence|done|done|]. intros k. apply (justified_firm _ _ _ _ (suffix levels k m)); [apply Hsuf|apply H4].
  - unfold PendOk. rewrite (sp_other _ _ _ _ Hsp (S m)) by lia. rewrite Hsnp.
    destruct Hp as [Hp|(M' & H1 & H2 & H3 & H4)]; [by left|]. right. exists M'. split_and!; [done..|].
    intros k. apply (justified_firm _ _ _ _ (suffix levels k m)); [apply Hsuf|apply H4].
Qed.

(** The list after a spill: the future [f] merges into level [S j]. *)
Definition spilledTo (levels : BucketList) (j : nat) (f : FutureBucket) (M : Bucket) : BucketList :=
  <[S j := mkLevel (Z.of_nat (S j)) f M (snp levels (S j))]> (<[j := snap (lev levels j)]> levels).

Lemma emptyBucket_ok : BucketOk [].
Proof. split; [apply Body_nil|done|by constructor]. Qed.

Section SpillTo.
Context (levels : BucketList) (j : nat) (f : FutureBucket) (M : Bucket).
Context (Hlen : length levels = 11%nat) (Hj : (j < 10)%nat).

Lemma spilledTo_upper : lev (spilledTo levels j f M) (S j) = mkLevel (Z.of_nat (S j)) f M (snp levels (S j)).
Proof. unfold spilledTo. rewrite lev_insert by (rewrite length_insert; lia). by rewrite decide_True. Qed.
Lemma spilledTo_lower : lev (spilledTo levels j f M) j = snap (lev levels j).
Proof.
  unfold spilledTo. rewrite !lev_insert by (rewrite ?length_insert; lia). rewrite decide_False, decide_True by lia. done.
Qed.
Lemma spilledTo_other m : m ≠ j → m ≠ S j → lev (spilledTo levels j f M) m = lev levels m.
Proof.
  intros H1 H2. unfold spilledTo. rewrite !lev_insert by (rewrite ?length_insert; lia). rewrite !decide_False by lia. done.
Qed.
Lemma spilledTo_spilled : Spilled levels (spilledTo levels j f M) j M.
Proof.
  split; [by rewrite spilledTo_upper|by rewrite spilledTo_lower|]. intros. by apply spilledTo_other.
Qed.

(** What holds of every level after the spill. *)
Lemma spilledTo_all (P : nat → BucketLevel → Prop) :
  P (S j) (mkLevel (Z.of_nat (S j)) f M (snp levels (S j))) → P j (snap (lev levels j)) →
  (∀ i, P i (lev levels i)) → ∀ i, P i (lev (spilledTo levels j f M) i).
Proof.
  intros H1 H2 H3 i. destruct (decide (i = S j)) as [->|]; [by rewrite spilledTo_upper|].
  destruct (decide (i = j)) as [->|]; [by rewrite spilledTo_lower|]. by rewrite spilledTo_other.
Qed.

Lemma spilledTo_inv0 pv st :
  0 <= pv → ListInv0 pv levels st → BucketOk M → versionOf M <= pv →
  (∀ k, justified (S j =? 10)%nat (entryAt k (cur levels (S j))) (entryAt k (snp levels j)) (entryAt k M) (suffix levels k j)) →
  ListInv0 pv (spilledTo levels j f M) st.
Proof.
  intros Hpv [_ Hlev Hok Hver Hfirst Hlast Hsound Hstate] HMok HMv HMju.
  destruct (spilled_words _ _ _ _ st Hj spilledTo_spilled Hlast Hsound Hstate HMju) as [Hsound' Hstate'].
  split; [by unfold spilledTo; rewrite !length_insert|..]; [..|done|done].
  - apply (spilledTo_all (λ i l, (i < 11)%nat → mLevel l = Z.of_nat i)); [done| |done]. intros _. by apply Hlev; lia.
  - apply (spilledTo_all (λ i l, BucketOk (mCurr l) ∧ BucketOk (mSnap l))); [|by split; [apply emptyBucket_ok|apply Hok]|done].
    split; [done|apply Hok].
  - apply (spilledTo_all (λ i l, versionOf (mCurr l) <= pv ∧ versionOf (mSnap l) <= pv)); [|by split; [|apply Hver]|done].
    split; [done|apply Hver].
  - apply (spilledTo_all (λ i l, i = 0%nat → isMerging (mNextCurr l) = false)); [done|by intros ->|by intros i ->|done].
  - apply (spilledTo_all (λ i l, i = 10%nat → mSnap l = [])); [intros Hd; simpl; by rewrite Hd|lia|by intros i ->|done].
Qed.

(** The merges in progress, once the new one has been started. *)
Lemma spilledTo_pend pv ledger st M2 :
  MidInv pv ledger (S j) levels st → spills ledger j = true →
  (∀ k, justified (S j =? 10)%nat (entryAt k (cur levels (S j))) (entryAt k (snp levels j)) (entryAt k M) (suffix levels k j)) →
  gives f M2 → BucketOk M2 → versionOf M2 <= pv →
  (∀ k, justified (S j =? 10)%nat (entryAt k (if spills (due ledger j) (S j) then [] else M)) (entryAt k (cur levels j))
          (entryAt k M2) (word levels k j)) →
  ∀ m, (m < 10)%nat → PendOk pv (if (m <? j)%nat then ledger - 1 else ledger) (spilledTo levels j f M) m.
Proof.
  intros [Hinv Hpend _] Hsp HMju Hg Hok Hv HM2 m Hm. pose proof spilledTo_spilled as Hsp'.
  destruct (decide (m = j)) as [->|Hmj].
  - rewrite Nat.ltb_irrefl. right. exists M2. unfold base, suffix. rewrite spilledTo_upper, spilledTo_lower.
    split_and!; [done..|]. intros k. rewrite (spilled_word_below _ _ _ _ Hsp') by done. apply HM2.
  - assert (E : (if (m <? j)%nat then ledger - 1 else ledger) = (if (m <? S j)%nat then ledger - 1 else ledger)).
    { destruct (m <? j)%nat eqn:E1, (m <? S j)%nat eqn:E2; try done; rewrite ?Nat.ltb_lt, ?Nat.ltb_ge in *; lia. }
    rewrite E. eapply spilled_pend; [done|done|exact Hsp'|apply (inv_sound _ _ _ Hinv)|done| |by apply Hpend].
    intros Hd. rewrite spilledTo_lower. split; [|done]. rewrite (proj2 (Nat.ltb_lt _ _)) by lia.
    rewrite Hd. by rewrite (proj1 (due_spill ledger m (spills_lower ledger m j ltac:(lia) Hsp))).
Qed.
End SpillTo.

(** The merge that the spill of level [j] starts. *)
Lemma spill_starts pv ledger j levels st M :
  0 <= pv → MidInv pv ledger (S j) levels st → (j < 10)%nat → BucketOk M → versionOf M <= pv →
  (∀ k, justified (S j =? 10)%nat (entryAt k (cur levels (S j))) (entryAt k (snp levels j)) (entryAt k M) (suffix levels k j)) →
  let b := if spills (due ledger j) (S j) then [] else M in
  ∃ M2, merge pv b (cur levels j) (shadowsOf (take j levels)) (S j <? 10)%nat = Val M2 ∧ BucketOk M2 ∧ versionOf M2 <= pv ∧
    ∀ k, justified (S j =? 10)%nat (entryAt k b) (entryAt k (cur levels j)) (entryAt k M2) (word levels k j).
Proof.
  intros Hpv [Hinv _ _] Hj HMok HMv HMju b. destruct (id Hinv) as [Hlen _ Hok Hver _ _ _ _].
  assert (E : (S j =? 10)%nat = negb (S j <? 10)%nat).
  { destruct (S j <? 10)%nat eqn:E1, (S j =? 10)%nat eqn:E2; try done;
      rewrite ?Nat.ltb_lt, ?Nat.ltb_ge, ?Nat.eqb_eq, ?Nat.eqb_neq in *; lia. }
  pose proof (spilledTo_inv0 levels j clear M Hlen Hj pv st Hpv Hinv HMok HMv HMju) as Hinv'.
  rewrite E. apply merge_started; try done; try lia; try apply Hok; try apply Hver.
  - unfold b. case_match; [apply emptyBucket_ok|done].
  - unfold b. case_match; done.
  - intros k. pose proof (inv_sound _ _ _ Hinv' k) as Hs.
    destruct (word_around _ _ _ _ (spilledTo_spilled levels j clear M Hlen Hj) k 11) as [_ Ew]; [lia|].
    rewrite Ew in Hs. apply sound_app_r in Hs as [p Hp]. unfold suffix in Hp. unfold b. case_match; [|by exists p].
    by apply sound_app_r in Hp.
Qed.

(** *** Where the entries of a bucket come from *)

(** The ledger entry [x] is in the bucket. *)
Definition payload (b : Bucket) (x : LedgerEntry) : Prop := ∃ e, e ∈ b ∧ effect e = Some x.

Lemma combine_effect a b e x :
  combine a b = Some e → effect e = Some x →
  (∃ y, a = Some y ∧ effect y = Some x) ∨ (∃ y, b = Some y ∧ effect y = Some x).
Proof.
  destruct a as [a|]; simpl; [|intros -> ?; right; eauto].
  destruct b as [[]|]; simpl; [..|intros [= <-]; left; eauto]; destruct (isInit a); intros [= <-] Hx; simpl in *;
    try done; right; eexists; split; done.
Qed.

Lemma payload_entryAt b x : BucketOk b → payload b x ↔ ∃ k e, entryAt k b = Some e ∧ effect e = Some x.
Proof.
  intros Hb. split.
  - intros (e & He & Hx). exists (entryKey e), e. split; [|done]. rewrite <- entryAt_body. apply entryAt_elem; [by apply ok_body|].
    destruct b as [|[] b]; simpl in *; try done. apply elem_of_cons in He as [->|He]; done.
  - intros (k & e & He & Hx). apply entryAt_key in He as (He & _). by exists e.
Qed.

Lemma merged_payload a b M x :
  BucketOk a → BucketOk b → BucketOk M →
  (∀ k e, entryAt k M = Some e → combine (entryAt k a) (entryAt k b) = Some e) →
  payload M x → payload a x ∨ payload b x.
Proof.
  intros Ha Hb HM Hc (k & e & He & Hx)%payload_entryAt; [|done].
  destruct (combine_effect _ _ _ _ (Hc k e He) Hx) as [(y & Hy & Hyx)|(y & Hy & Hyx)]; [left|right];
    apply payload_entryAt; try done; by exists k, y.
Qed.

Lemma justified_from last a b m S e : justified last a b m S → m = Some e → combine a b = Some e.
Proof. intros [->|[(-> & _)|(_ & -> & _)]]; done. Qed.

(** The entries of level [m] after a ledger: those it had, unless it was snapped, and those of the snapshot
    below, if the lower level spilled. *)
Definition flowsTo (ledger : Z) (levels0 : BucketList) (m : nat) (x : LedgerEntry) : Prop :=
  (spills ledger m = false ∧ payload (cur levels0 m) x) ∨
  ∃ j, m = S j ∧ spills ledger j = true ∧ payload (snp levels0 j) x.

Definition snapAfter (ledger : Z) (levels0 : BucketList) (m : nat) : Bucket :=
  if spills ledger m then cur levels0 m else snp levels0 m.

(** Before iteration [i]: the levels above have received what flows to them, those below are untouched. *)
Record MidFlow (ledger : Z) (i : nat) (levels0 levels : BucketList) : Prop := {
  mf_above : ∀ m, (i < m)%nat → snp levels m = snapAfter ledger levels0 m ∧ ∀ x, payload (cur levels m) x → flowsTo ledger levels0 m x;
  mf_here : snp levels i = snapAfter ledger levels0 i ∧ cur levels i = if spills ledger i then [] else cur levels0 i;
  mf_below : ∀ m, (m < i)%nat → lev levels m = lev levels0 m }.

Lemma spill_flow ledger j levels0 levels f M :
  length levels = 11%nat → (j < 10)%nat → spills ledger j = true →
  (∀ x, payload M x → payload (cur levels (S j)) x ∨ payload (snp levels j) x) →
  MidFlow ledger (S j) levels0 levels → MidFlow ledger j levels0 (spilledTo levels j f M).
Proof.
  intros Hlen Hj Hsp HM [Ha [Hh1 Hh2] Hb]. pose proof (Hb j ltac:(lia)) as Hbj. split.
  - intros m Hm. destruct (decide (m = S j)) as [->|Hne].
    + rewrite spilledTo_upper by done. simpl. split; [done|]. intros x [Hx|Hx]%HM.
      * left. rewrite Hh2 in Hx. destruct (spills ledger (S j)); [by destruct Hx as (e & He%elem_of_nil & _)|done].
      * right. exists j. rewrite <- Hbj. done.
    + rewrite spilledTo_other by lia. apply Ha. lia.
  - rewrite spilledTo_lower by done. unfold snapAfter. rewrite Hsp. simpl. by rewrite Hbj.
  - intros m Hm. rewrite spilledTo_other by lia. apply Hb. lia.
Qed.

Lemma keep_flow ledger j levels0 levels :
  (j < 10)%nat → spills ledger j = false → MidFlow ledger (S j) levels0 levels → MidFlow ledger j levels0 levels.
Proof.
  intros Hj Hsp [Ha [Hh1 Hh2] Hb]. split.
  - intros m Hm. destruct (decide (m = S j)) as [->|Hne]; [|apply Ha; lia]. split; [done|]. intros x Hx. left.
    rewrite Hh2 in Hx. destruct (spills ledger (S j)) eqn:E; [|done].
    rewrite (spills_lower ledger j (S j)) in Hsp by (lia || done). done.
  - rewrite (Hb j) by lia. unfold snapAfter. by rewrite Hsp.
  - intros m Hm. apply Hb. lia.
Qed.

(** One turn of the loop in which level [j] spills. *)
Lemma spill_step pv ledger j levels st :
  0 <= pv → MidInv pv ledger (S j) levels st → (j < 10)%nat → spills ledger j = true →
  ∃ upper upper',
    commit (lev levels (S j)) = Val upper ∧
    prepare upper ledger pv (cur levels j) (shadowsOf (take j levels)) = Val upper' ∧
    MidInv pv ledger j (<[S j := upper']> (<[j := snap (lev levels j)]> levels)) st ∧
    ∀ levels0, MidFlow ledger (S j) levels0 levels → MidFlow ledger j levels0 (<[S j := upper']> (<[j := snap (lev levels j)]> levels)).
Proof.
  intros Hpv Hmid Hj Hsp. destruct (commit_pending _ _ _ _ _ Hmid Hj Hsp) as (M & Hcm & HMok & HMv & HMju).
  destruct (spill_starts _ _ _ _ _ _ Hpv Hmid Hj HMok HMv HMju) as (M2 & HM2 & HM2ok & HM2v & HM2ju).
  set (up := mkLevel (Z.of_nat (S j)) clear M (snp levels (S j))) in *.
  destruct (prepare_gives up j ledger pv (cur levels j) (shadowsOf (take j levels)) M2) as (f & Hpr & Hg); [done|lia|done..|].
  pose proof (inv_length _ _ _ (mid_inv _ _ _ _ _ Hmid)) as Hlen.
  exists up, (mkLevel (Z.of_nat (S j)) f M (snp levels (S j))). split_and!; [done|done| |].
  - change (MidInv pv ledger j (spilledTo levels j f M) st). split; [|by eapply spilledTo_pend|intros _; by rewrite spilledTo_lower].
    apply spilledTo_inv0; try done. by apply mid_inv in Hmid.
  - intros levels0. apply spill_flow; [done..|]. intros x. pose proof (inv_ok _ _ _ (mid_inv _ _ _ _ _ Hmid)) as Hok.
    apply merged_payload; [apply Hok|apply Hok|done|]. intros k e. by eapply justified_from.
Qed.

Lemma keep_step pv ledger j levels st :
  MidInv pv ledger (S j) levels st → (j < 10)%nat → spills ledger j = false → MidInv pv ledger j levels st.
Proof.
  intros [Hinv Hpend _] Hj Hsp. split; [done| |congruence]. intros m Hm. specialize (Hpend m Hm).
  destruct (decide (m = j)) as [->|Hmj].
  - rewrite (proj2 (Nat.ltb_lt _ _)) in Hpend by lia. rewrite Nat.ltb_irrefl.
    unfold PendOk, base in *. by rewrite <- (due_stay ledger j).
  - destruct (m <? j)%nat eqn:E1, (m <? S j)%nat eqn:E2; try done; rewrite ?Nat.ltb_lt, ?Nat.ltb_ge in *; lia.
Qed.

Lemma popTwo_shadows levels j :
  (j < length levels)%nat → popTwo (shadowsOf (take (S j) levels)) = Val (shadowsOf (take j levels)).
Proof.
  intros Hj. unfold popTwo. rewrite take_S_lev, shadowsOf_app, length_app, !shadowsOf_length by done. cbn [length].
  rewrite (proj2 (Nat.leb_le _ _)) by lia. cbn [assert mbind Checked_bind]. unfold mret, Checked_ret. f_equal.
  apply take_app_length'. rewrite shadowsOf_length. lia.
Qed.

Lemma spillLevels_inv pv ledger i levels st :
  0 <= pv → 0 <= ledger < 2 ^ 32 → (i <= 10)%nat → MidInv pv ledger i levels st →
  ∃ levels', spillLevels i ledger pv levels (shadowsOf (take i levels)) = Val (levels', []) ∧ MidInv pv ledger 0 levels' st ∧
    ∀ levels0, MidFlow ledger i levels0 levels → MidFlow ledger 0 levels0 levels'.
Proof.
  intros Hpv Hl. revert levels. induction i as [|j IH]; intros levels Hi Hmid; [by exists levels|].
  pose proof (inv_length _ _ _ (mid_inv _ _ _ _ _ Hmid)) as Hlen.
  cbn [spillLevels]. rewrite popTwo_shadows, bind_Val, levelShouldSpill_Val, bind_Val by lia.
  destruct (spills ledger j) eqn:Hsp.
  - destruct (spill_step _ _ _ _ _ Hpv Hmid ltac:(lia) Hsp) as (up & up' & Hc & Hp & Hmid' & Hflow).
    rewrite (levelAt_lev levels j), bind_Val by lia.
    rewrite (levelAt_lev _ (S j)), bind_Val by (rewrite length_insert; lia).
    rewrite lev_insert, decide_False by lia. rewrite Hc, bind_Val.
    change (mSnap (snap (lev levels j))) with (cur levels j). rewrite Hp, !bind_Val.
    destruct (IH _ ltac:(lia) Hmid') as (levels' & Hs & Hm & Hfl). exists levels'.
    rewrite take_insert_ge, take_insert_ge in Hs by lia. split_and!; [done|done|]. auto.
  - unfold mret, Checked_ret. rewrite bind_Val.
    destruct (IH levels) as (levels' & Hs & Hm & Hfl); [lia|apply keep_step; [done|lia|done]|].
    exists levels'. split_and!; [done|done|]. intros levels0 Hf. apply Hfl, keep_flow; [lia|done|done].
Qed.

(** ** The new batch *)

Section NewBatch.
Context (levels : BucketList) (M b : Bucket) (f : FutureBucket) (Hlen : length levels = 11%nat).
Let levels' : BucketList := <[O := mkLevel 0 f M (snp levels 0)]> levels.

Lemma batch_lev m : lev levels' m = if decide (m = 0%nat) then mkLevel 0 f M (snp levels 0) else lev levels m.
Proof. unfold levels'. rewrite lev_insert by lia. repeat case_decide; done || lia. Qed.

Lemma batch_word k n :
  ∃ A, word levels k (S n) = A ++ cell (entryAt k (cur levels 0)) ∧ word levels' k (S n) = A ++ cell (entryAt k M).
Proof.
  exists (wordTo levels k 1 (S n) ++ cell (entryAt k (snp levels 0))).
  rewrite (wordTo_split levels k 0 1 (S n)), (wordTo_split levels' k 0 1 (S n)), !wordTo_one by lia.
  rewrite batch_lev, decide_True by done. cbn [mCurr mSnap]. rewrite <- !app_assoc. split; [done|]. f_equal.
  apply wordTo_ext. intros m Hm. by rewrite batch_lev, decide_False by lia.
Qed.

Lemma batch_suffix k m :
  ∃ A, suffix levels k m = A ++ cell (entryAt k (cur levels 0)) ∧ suffix levels' k m = A ++ cell (entryAt k M).
Proof.
  unfold suffix. destruct m as [|m].
  - exists []. rewrite batch_lev, decide_True by done. simpl. by rewrite !app_nil_r.
  - destruct (batch_word k m) as (A & -> & ->). rewrite batch_lev, decide_False by done.
    exists (cell (entryAt k (cur levels (S m))) ++ A). by rewrite <- !app_assoc.
Qed.

Context (HM : ∀ k, entryAt k M = combine (entryAt k (cur levels 0)) (entryAt k b)).
Context (Hs : ∀ k, sound true (word levels k 11 ++ cell (entryAt k b))).

Lemma batch_firm k m : (m < 11)%nat → firm (suffix levels k m) → firm (suffix levels' k m).
Proof.
  intros Hm Hf. destruct (batch_suffix k m) as (A & E1 & E2). rewrite E2. specialize (Hs k).
  rewrite (wordTo_split levels k 0 (S m) 11), wordTo_S, <- !app_assoc in Hs by lia.
  apply sound_app_r in Hs as [p1 Hs1]. apply sound_app_r in Hs1 as [p2 Hs2].
  rewrite E1 in Hs2, Hf. rewrite <- app_assoc in Hs2.
  rewrite <- (app_nil_r (cell (entryAt k M))).
  eapply firm_step; [by rewrite app_nil_r| |left; apply HM]. rewrite app_nil_r, app_assoc. by apply firm_app.
Qed.

Lemma batch_states k :
  sound true (word levels' k 11) ∧ stateAfter None (word levels k 11 ++ cell (entryAt k b)) = stateAfter None (word levels' k 11).
Proof.
  destruct (batch_word k 10) as (A & E1 & E2). specialize (Hs k). rewrite E1 in Hs |- *. rewrite E2.
  rewrite <- app_assoc in Hs |- *.
  destruct (size_word_step true None false A (entryAt k (cur levels 0)) (entryAt k b) (entryAt k M) []) as [H1 H2];
    [done|done|by rewrite app_nil_r|by left|].
  rewrite !app_nil_r in H1. rewrite !app_nil_r in H2. split; [exact H1|exact H2].
Qed.
End NewBatch.

(** The state of a key after a bucket of changes. *)
Definition changed (b : Bucket) (st : LedgerKey → option LedgerEntry) (k : LedgerKey) : option LedgerEntry :=
  match entryAt k b with Some e => effect e | None => st k end.

Lemma ListInv_weaken pv pv' ledger levels st : pv <= pv' → ListInv pv ledger levels st → ListInv pv' ledger levels st.
Proof.
  intros Hle [[] Hp]. split; [split; try done|].
  - intros i. destruct (inv_version0 i). lia.
  - intros j Hj. destruct (Hp j Hj) as [?|(M & H1 & H2 & H3 & H4)]; [by left|]. right. exists M. split_and!; [done|done|lia|done].
Qed.

Lemma batch_sound pv ledger levels st b k :
  MidInv pv ledger 0 levels st → BucketOk b →
  (∀ k e, entryAt k b = Some e → isInit e = true → st k = None) →
  sound true (word levels k 11 ++ cell (entryAt k b)).
Proof.
  intros [[_ _ _ _ _ _ Hsound Hstate] _ _] Hb Hfit. destruct (entryAt k b) as [e|] eqn:He; [|by rewrite app_nil_r].
  apply (sound_snoc _ None); [done|done|by apply entryAt_key in He as (_ & ? & _)|]. intros Hi. rewrite Hstate. by eapply Hfit.
Qed.

Lemma first_level pv ledger levels st b :
  0 <= pv → MidInv pv ledger 0 levels st → BucketOk b → versionOf b <= pv →
  (∀ k e, entryAt k b = Some e → isInit e = true → st k = None) →
  ∃ first first',
    prepare (lev levels 0) ledger pv b [] = Val first ∧ commit first = Val first' ∧
    ListInv pv ledger (<[O := first']> levels) (changed b st) ∧
    mSnap first' = snp levels 0 ∧ ∀ x, payload (mCurr first') x → payload (cur levels 0) x ∨ payload b x.
Proof.
  intros Hpv Hmid Hb Hv Hfit. pose proof (λ k, batch_sound _ _ _ _ b k Hmid Hb Hfit) as Hs.
  destruct Hmid as [[Hlen Hlev Hok Hver Hfirst Hlast Hsound Hstate] Hpend _].
  destruct (merge_entries pv (cur levels 0) b [] true) as (M & HM & HMok & HMv & HMe); [apply Hok|done|constructor| | |].
  { intros k o n Ho Hn Hi. destruct (batch_word levels [] clear Hlen k 10) as (A & E & _). specialize (Hs k).
    rewrite E, <- app_assoc, Ho, Hn in Hs. by apply (sound_adjacent _ _ _ _ [] Hs). }
  { unfold mergeVersion. simpl. destruct (Hver 0%nat). lia. }
  assert (HMe' : ∀ k, entryAt k M = combine (entryAt k (cur levels 0)) (entryAt k b)).
  { intros k. rewrite HMe. unfold mergedEntry, written, shadowed, survives. simpl. by destruct (combine _ _); rewrite ?orb_true_r. }
  assert (HMv' : versionOf M <= pv).
  { rewrite HMv. unfold mergeVersion. cbn [foldl]. destruct (Hver 0%nat). destruct (11 <=? _); lia. }
  destruct (prepare_first_gives (lev levels 0) ledger pv b M) as (f & Hp & Hg); [exact (Hlev 0%nat ltac:(lia))|done|done|].
  eexists _, (mkLevel 0 clear M (snp levels 0)). split; [exact Hp|]. split; [by apply (commit_gives (mkLevel _ _ _ _))|].
  cut (ListInv pv ledger (<[O := mkLevel 0 clear M (snp levels 0)]> levels) (changed b st)).
  { intros HL. split_and!; [done|done|]. intros x. apply merged_payload; [apply Hok|done|done|]. intros k e. by rewrite HMe'. }
  pose proof (batch_lev levels M clear Hlen) as Hbl. pose proof (λ k, batch_states levels M b clear Hlen HMe' Hs k) as Hst.
  set (levels' := <[O := _]> levels) in *. split; [split|].
  - unfold levels'. by rewrite length_insert.
  - intros i Hi. rewrite Hbl. case_decide; [by subst|by apply Hlev].
  - intros i. rewrite Hbl. case_decide; [split; [done|apply Hok]|apply Hok].
  - intros i. rewrite Hbl. case_decide; [split; [done|apply Hver]|apply Hver].
  - by rewrite Hbl.
  - by rewrite Hbl.
  - apply Hst.
  - intros k. rewrite <- (proj2 (Hst k)). unfold changed. destruct (entryAt k b) as [e|]; simpl;
      [by rewrite stateAfter_app|rewrite app_nil_r; apply Hstate].
  - intros j Hj. specialize (Hpend j Hj). rewrite (proj2 (Nat.ltb_ge _ _)) in Hpend by lia. unfold PendOk in *.
    rewrite (Hbl (S j)), decide_False by done.
    assert (E : snp levels' j = snp levels j) by (rewrite Hbl; case_decide; by subst). rewrite E.
    destruct Hpend as [?|(M' & H1 & H2 & H3 & H4)]; [by left|]. right. exists M'. split_and!; [done..|].
    intros k. apply (justified_firm _ _ _ _ (suffix levels k j)); [|apply H4]. apply (batch_firm levels M b); [done|done|done|lia].
Qed.

(** A batch of changes keeps the invariant. *)
Lemma addBatch_inv pv pv' ledger levels st i l d :
  0 <= pv → pv <= pv' → 0 < ledger < 2 ^ 32 → ListInv pv (ledger - 1) levels st →
  NoDup (batchKeys i l d) → (∀ e, e ∈ i → st (LedgerEntryKey e) = None) →
  ∃ b levels', fresh pv' i l d = Val b ∧ addBatch levels ledger pv' i l d = Val levels' ∧
    ListInv pv' ledger levels' (changed b st) ∧
    ∀ m, (m < 11)%nat → snp levels' m = snapAfter ledger levels m ∧
      ∀ x, payload (cur levels' m) x → flowsTo ledger levels m x ∨ (m = 0%nat ∧ payload b x).
Proof.
  intros Hpv Hle Hl Hinv Hnd Hi. apply (ListInv_weaken _ pv') in Hinv; [|done]. destruct Hinv as [Hinv Hp].
  destruct (fresh_entries pv' i l d Hnd) as (b & Hf & Hok & Hv & He).
  pose proof (inv_length _ _ _ Hinv) as Hlen.
  destruct (spillLevels_inv pv' ledger 10 levels st) as (levels' & Hs & Hmid & Hflow); [lia|lia|lia|..].
  { split; [done| |done]. intros j Hj. rewrite (proj2 (Nat.ltb_lt _ _)) by lia. by apply Hp. }
  pose proof (inv_length _ _ _ (mid_inv _ _ _ _ _ Hmid)) as Hlen'.
  destruct (first_level pv' ledger levels' st b) as (first & first' & Hpr & Hc & Hinv' & Hsn & Hcu); [lia|done|done|case_match; lia| |].
  { intros k e [Hin Hk]%He Hin'. unfold batchEntries in Hin. rewrite !elem_of_app, !list_elem_of_fmap in Hin.
    destruct Hin as [(x & -> & Hx)|[(x & -> & Hx)|(x & -> & Hx)]]; [|done|done].
    rewrite <- Hk. destruct (11 <=? pv'); by apply Hi. }
  exists b, (<[O := first']> levels'). split_and!; [done| |done|].
  2:{ intros m Hm. destruct (Hflow levels) as [Ha [Hh1 Hh2] _].
      { split; [intros n Hn|split; [by unfold snapAfter|done]|done]. 
        unfold snapAfter, lev. rewrite lookup_ge_None_2 by lia. split; [by destruct (spills _ _)|].
        by intros x (e & Hnil%elem_of_nil & _). }
      rewrite lev_insert by lia. case_decide as Hd; [subst m|].
      - split; [by rewrite Hsn|]. intros x [Hx|Hx]%Hcu; [left; left|by right]. rewrite Hh2 in Hx.
        destruct (spills ledger 0); [by destruct Hx as (e & Hnil%elem_of_nil & _)|done].
      - destruct (Ha m) as [H1 H2]; [lia|]. split; [done|]. intros x Hx. left. auto. }
  unfold addBatch. rewrite (proj2 (Z.ltb_lt _ _)) by lia. cbn [assert]. rewrite bind_Val.
  fold (shadowsOf levels). rewrite <- (firstn_all levels) at 1. rewrite Hlen, popTwo_shadows, bind_Val by lia.
  replace (11 - 1)%nat with 10%nat by done. rewrite Hs, bind_Val. cbn [noShadows assert]. rewrite bind_Val, Hf, bind_Val.
  rewrite levelAt_lev, bind_Val by lia. by rewrite Hpr, bind_Val, Hc.
Qed.
End Spec.
