(* ===== verification/BucketLedger.v ===== *)
(** * Ledgers closed one after the other

    The bucket list is created empty and receives the changes of every ledger, from ledger 1 on.
    [bucket_list_represents_ledger]: for every history in which a batch names a key once, creates
    only what is not there, and protocol versions do not go down, no call fails, and the newest entry of
    a key, searched from level 0 downwards, is its state in the ledger. *)
From stdpp Require Import base list gmap strings.
From Stdlib Require Import ZArith Lia.
From S2P Require Import Prelude Numeric LedgerEntries Buckets BucketsSpec BucketList BucketWords BucketListSpec.

(** The changes of one ledger. *)
Record Batch := mkBatch {
  b_protocol : Z; b_init : list LedgerEntry; b_live : list LedgerEntry; b_dead : list LedgerKey }.

Notation LedgerMap := (gmap LedgerKey LedgerEntry) (only parsing).

Definition applyBatch (b : Batch) (st : LedgerMap) : LedgerMap :=
  foldr (λ k m, delete k m) (foldr (λ e m, <[LedgerEntryKey e := e]> m) st (b_init b ++ b_live b)) (b_dead b).

Definition ledgerAfter (bs : list Batch) : LedgerMap := foldl (λ st b, applyBatch b st) ∅ bs.

(** A batch that a ledger transaction on [st] can give, with a protocol that is not older than [pv]. *)
Definition goodBatch (pv : Z) (st : LedgerMap) (b : Batch) : Prop :=
  pv <= b_protocol b ∧ NoDup (batchKeys (b_init b) (b_live b) (b_dead b)) ∧
  ∀ e, e ∈ b_init b → st !! LedgerEntryKey e = None.

Fixpoint goodBatches (pv : Z) (st : LedgerMap) (bs : list Batch) : Prop :=
  match bs with
  | [] => True
  | b :: bs => goodBatch pv st b ∧ goodBatches (b_protocol b) (applyBatch b st) bs
  end.

#[global] Instance goodBatch_dec pv st b : Decision (goodBatch pv st b).
Proof.
  refine (cast_if (decide (pv <= b_protocol b ∧ NoDup (batchKeys (b_init b) (b_live b) (b_dead b)) ∧
    Forall (λ e, st !! LedgerEntryKey e = None) (b_init b)))); unfold goodBatch; by rewrite <- Forall_forall.
Defined.
#[global] Instance goodBatches_dec pv st bs : Decision (goodBatches pv st bs).
Proof. revert pv st. induction bs as [|b bs IH]; intros pv st; simpl; [left; exact I|apply and_dec; [apply _|apply IH]]. Defined.

Definition protocolAfter (pv : Z) (bs : list Batch) : Z := foldl (λ _ b, b_protocol b) pv bs.

(** The ledgers from [ledger] on. *)
Fixpoint closeLedgers `{FileHash} (ledger : Z) (levels : BucketList) (bs : list Batch) : Checked BucketList :=
  match bs with
  | [] => mret levels
  | b :: bs =>
      levels ← addBatch levels ledger (b_protocol b) (b_init b) (b_live b) (b_dead b);
      closeLedgers (ledger + 1) levels bs
  end.

(** The first bucket with the key, from level 0 downwards, [curr] before [snap]. *)
Fixpoint newestEntry (k : LedgerKey) (levels : BucketList) : option BucketEntry :=
  match levels with
  | [] => None
  | l :: levels =>
      match entryAt k (mCurr l) with
      | Some e => Some e
      | None => match entryAt k (mSnap l) with
                | Some e => Some e
                | None => newestEntry k levels
                end
      end
  end.

(** The entry the list shows for a key. *)
Definition shows (levels : BucketList) (k : LedgerKey) : option LedgerEntry := newestEntry k levels ≫= effect.

(** ** The newest entry is the end of the word *)

Lemma newestEntry_app k a b :
  newestEntry k (a ++ b) = match newestEntry k a with Some e => Some e | None => newestEntry k b end.
Proof. induction a as [|l a IH]; [done|]. simpl. by repeat case_match. Qed.

Lemma last_cell_app (c : option BucketEntry) w :
  last (cell c ++ w) = match last w with Some e => Some e | None => c end.
Proof. destruct c; simpl; [|by destruct (last w)]. destruct w; [done|]. by destruct (last (_ :: _)) eqn:E; [|by apply last_None in E]. Qed.

Lemma last_word levels k n :
  (n <= length levels)%nat → last (wordTo levels k 0 n) = newestEntry k (take n levels).
Proof.
  induction n as [|n IH]; [done|]. intros Hn. rewrite wordTo_S, take_S_lev, newestEntry_app by lia. unfold suffix.
  rewrite !last_cell_app, IH by lia. destruct (newestEntry k (take n levels)); [done|]. simpl. by repeat case_match.
Qed.

Lemma stateAfter_last w : stateAfter None w = last w ≫= effect.
Proof. induction w as [|x w IH] using rev_ind; [done|]. by rewrite stateAfter_app, last_snoc. Qed.

Lemma shows_word levels k : length levels = 11%nat → shows levels k = stateAfter None (wordTo levels k 0 11).
Proof. intros Hl. unfold shows. rewrite stateAfter_last, last_word, take_ge by lia. done. Qed.

(** ** The ledger after a batch *)

Lemma foldr_insert_lookup (es : list LedgerEntry) (st : LedgerMap) k :
  NoDup (LedgerEntryKey <$> es) →
  (∀ e, e ∈ es → LedgerEntryKey e = k → foldr (λ e m, <[LedgerEntryKey e := e]> m) st es !! k = Some e) ∧
  (k ∉ LedgerEntryKey <$> es → foldr (λ e m, <[LedgerEntryKey e := e]> m) st es !! k = st !! k).
Proof.
  induction es as [|x es IH]; [set_solver|]. rewrite fmap_cons, NoDup_cons. intros [Hx Hnd]. destruct (IH Hnd) as [H1 H2]. simpl. split.
  - intros e [->|He]%elem_of_cons Hk; [by rewrite Hk, lookup_insert_eq|]. rewrite lookup_insert_ne by set_solver. auto.
  - rewrite not_elem_of_cons. intros [Hne Hni]. rewrite lookup_insert_ne by done. auto.
Qed.
Lemma foldr_delete_lookup (ks : list LedgerKey) (st : LedgerMap) k :
  (k ∈ ks → foldr (λ k m, delete k m) st ks !! k = None) ∧
  (k ∉ ks → foldr (λ k m, delete k m) st ks !! k = st !! k).
Proof.
  induction ks as [|x ks [IH1 IH2]]; simpl; [set_solver|]. split.
  - intros [->|Hk]%elem_of_cons; [by rewrite lookup_delete_eq|].
    destruct (decide (x = k)) as [->|]; [by rewrite lookup_delete_eq|]. rewrite lookup_delete_ne by done. auto.
  - intros [Hne Hk]%not_elem_of_cons. rewrite lookup_delete_ne by done. auto.
Qed.

(** The bucket of a batch changes the state as the batch changes the ledger. *)
Lemma changed_applyBatch pv b bucket (st : LedgerMap) k :
  NoDup (batchKeys (b_init b) (b_live b) (b_dead b)) →
  (∀ k e, entryAt k bucket = Some e ↔ e ∈ batchEntries pv (b_init b) (b_live b) (b_dead b) ∧ entryKey e = k) →
  changed bucket (λ k, st !! k) k = applyBatch b st !! k.
Proof.
  intros Hnd He. unfold changed, applyBatch.
  unfold batchKeys in Hnd. rewrite app_assoc, <- fmap_app in Hnd. apply NoDup_app in Hnd as (Hnd & Hdis & _).
  destruct (foldr_insert_lookup (b_init b ++ b_live b) st k Hnd) as [H1 H2].
  destruct (entryAt k bucket) as [e|] eqn:Hek.
  - apply He in Hek as [Hin Hk]. unfold batchEntries in Hin. rewrite !elem_of_app, !list_elem_of_fmap in Hin.
    destruct Hin as [(x & -> & Hx)|[(x & -> & Hx)|(x & -> & Hx)]].
    3:{ simpl in Hk. subst x. symmetry. by apply foldr_delete_lookup. }
    all: assert (Hkx : LedgerEntryKey x = k) by (by destruct pv).
    all: rewrite (proj2 (foldr_delete_lookup _ _ _)), (H1 x); [by destruct pv|set_solver|done|].
    all: apply Hdis, list_elem_of_fmap; exists x; split; [done|set_solver].
  - assert (Hno : ∀ e, e ∈ batchEntries pv (b_init b) (b_live b) (b_dead b) → entryKey e ≠ k).
    { intros e Hin Hk. assert (entryAt k bucket = Some e) by (by apply He). congruence. }
    assert (Hk : k ∉ batchKeys (b_init b) (b_live b) (b_dead b)).
    { rewrite <- (batchEntries_keys pv). intros (e & -> & Hin)%list_elem_of_fmap. by eapply Hno. }
    unfold batchKeys in Hk. rewrite (proj2 (foldr_delete_lookup _ _ _)), H2 by (rewrite ?fmap_app; set_solver). done.
Qed.

Section Ledgers.
Context `{HF : FileHash}.

Lemma newBucketList_inv : ListInv 0 0 newBucketList (λ k, (∅ : LedgerMap) !! k).
Proof.
  assert (Hl : ∀ i, lev newBucketList i = if decide (i < 11)%nat then mkLevel (Z.of_nat i) clear [] [] else emptyLevel).
  { intros i. do 11 (destruct i as [|i]; [done|]). done. }
  assert (Hc : ∀ i, mCurr (lev newBucketList i) = [] ∧ mSnap (lev newBucketList i) = [] ∧ mNextCurr (lev newBucketList i) = clear).
  { intros i. rewrite Hl. by case_decide. }
  assert (Hw : ∀ k n, wordTo newBucketList k 0 n = []).
  { intros k n. induction n as [|n IH]; [done|]. rewrite wordTo_S. unfold suffix. destruct (Hc n) as (-> & -> & _). by rewrite IH. }
  split; [split|].
  - done.
  - intros i Hi. rewrite Hl. by rewrite decide_True.
  - intros i. destruct (Hc i) as (-> & -> & _). split; apply emptyBucket_ok.
  - intros i. destruct (Hc i) as (-> & -> & _). done.
  - done.
  - done.
  - intros k. by rewrite Hw.
  - intros k. rewrite Hw. by rewrite lookup_empty.
  - intros j Hj. left. destruct (Hc (S j)) as (-> & _ & ->). by destruct (Hc j) as (_ & -> & _).
Qed.

Lemma ListInv_ext pv ledger levels st st' :
  (∀ k, st k = st' k) → ListInv pv ledger levels st → ListInv pv ledger levels st'.
Proof. intros Heq [[] Hp]. split; [split; try done|done]. intros k. by rewrite <- Heq. Qed.

Lemma closeLedgers_inv pv ledger levels (st : LedgerMap) bs :
  0 <= pv → 0 <= ledger → ledger + Z.of_nat (length bs) < 2 ^ 32 → ListInv pv ledger levels (λ k, st !! k) → goodBatches pv st bs →
  ∃ levels', closeLedgers (ledger + 1) levels bs = Val levels' ∧
    ListInv (protocolAfter pv bs) (ledger + Z.of_nat (length bs)) levels' (λ k, foldl (λ st b, applyBatch b st) st bs !! k).
Proof.
  revert pv ledger levels st. induction bs as [|b bs IH]; intros pv ledger levels st Hpv Hl Hlen Hinv Hgood.
  { exists levels. split; [done|]. by replace (ledger + Z.of_nat (length [])) with ledger by (simpl; lia). }
  destruct Hgood as [(Hle & Hnd & Hi) Hgood]. cbn [length] in Hlen.
  destruct (addBatch_inv pv (b_protocol b) (ledger + 1) levels (λ k, st !! k) (b_init b) (b_live b) (b_dead b))
    as (bucket & levels1 & Hf & Ha & Hinv1 & _); [done|done|lia|by replace (ledger + 1 - 1) with ledger by lia|done|done|].
  destruct (fresh_entries (b_protocol b) (b_init b) (b_live b) (b_dead b) Hnd) as (bucket' & Hf' & _ & _ & He).
  assert (bucket' = bucket) as -> by congruence.
  destruct (IH (b_protocol b) (ledger + 1) levels1 (applyBatch b st)) as (levels' & Hc & Hinv'); [lia..| |done|].
  { eapply ListInv_ext, Hinv1. intros k. by eapply changed_applyBatch. }
  exists levels'. cbn [closeLedgers length]. rewrite Ha, bind_Val, Hc. split; [done|].
  by replace (ledger + Z.of_nat (S (length bs))) with (ledger + 1 + Z.of_nat (length bs)) by lia.
Qed.

(** C8: closing any number of ledgers never fails (no assertion of the bucket list, of the futures or of the
    iterators, no malformed bucket), and the list then shows, for every key, exactly the entry of the ledger that
    the batches describe: levels, snapshots, merges in the background, shadows that hide older entries, and
    creations that cancel with erasures lose and invent nothing. Every batch must name a key once and create only
    keys that do not exist, and the protocol version may only grow. *)
Theorem bucket_list_represents_ledger (bs : list Batch) :
  Z.of_nat (length bs) < 2 ^ 32 → goodBatches 0 ∅ bs →
  ∃ levels, closeLedgers 1 newBucketList bs = Val levels ∧ ∀ k, shows levels k = ledgerAfter bs !! k.
Proof.
  intros Hlen Hgood. destruct (closeLedgers_inv 0 0 newBucketList ∅ bs) as (levels & Hc & Hinv);
    [lia|lia|lia|apply newBucketList_inv|done|].
  exists levels. split; [done|]. intros k. destruct Hinv as [[Hl _ _ _ _ _ _ Hst] _]. by rewrite shows_word, Hst.
Qed.
End Ledgers.

(** ** An example *)

Definition sampleEntry (ledger id balance : Z) : LedgerEntry :=
  mkEntry ledger (Account (mkAccount id balance 0 0 None 0 [] [1; 0; 0; 0] [] None)).

(** Nine ledgers, enough for the second level to spill; account 2 comes, goes and comes back, and the protocol
    is upgraded at ledger 4. *)
Definition sampleHistory : list Batch :=
  [mkBatch 10 [sampleEntry 1 1 1000] [] [];
   mkBatch 10 [sampleEntry 2 2 100] [sampleEntry 2 1 900] [];
   mkBatch 10 [] [sampleEntry 3 1 950] [];
   mkBatch 11 [] [sampleEntry 4 1 1000] [ACCOUNT 2];
   mkBatch 11 [sampleEntry 5 2 300] [sampleEntry 5 1 700] [];
   mkBatch 11 [sampleEntry 6 3 50] [] [];
   mkBatch 11 [] [] [ACCOUNT 3];
   mkBatch 11 [] [sampleEntry 8 2 290] [];
   mkBatch 11 [] [] []].

(** A hash that tells the buckets of such a history apart. *)
Definition sampleCode (e : BucketEntry) : Z :=
  match e with
  | METAENTRY v => v
  | LIVEENTRY x => 100 + lastModifiedLedgerSeq x
  | DEADENTRY _ => 200
  | INITENTRY x => 300 + lastModifiedLedgerSeq x
  end + 1000 * match e with DEADENTRY (ACCOUNT a) => a | LIVEENTRY (mkEntry _ (Account a)) | INITENTRY (mkEntry _ (Account a)) => acc_accountID a | _ => 0 end.
Definition sampleHash : FileHash := foldr (λ e h, sampleCode e + 1000000 * h) 1.
#[local] Existing Instance sampleHash.

Lemma sampleHistory_good : goodBatches 0 ∅ sampleHistory.
Proof. apply (bool_decide_unpack _). vm_compute. exact I. Qed.

Lemma bucket_list_represents_ledger_witness :
  ∃ levels, closeLedgers 1 newBucketList sampleHistory = Val levels ∧
    shows levels (ACCOUNT 2) = Some (sampleEntry 8 2 290) ∧ shows levels (ACCOUNT 3) = None.
Proof.
  destruct (bucket_list_represents_ledger sampleHistory) as (levels & Hc & Hs); [done|apply sampleHistory_good|].
  exists levels. rewrite !Hs. split_and!; [exact Hc|vm_compute; reflexivity|vm_compute; reflexivity].
Defined.
