(* ===== verification/BucketRestart.v ===== *)
(** * Stopping and starting again

    At the end of every ledger a node saves the hashes of its buckets and of the inputs, or the result, of
    every merge in progress. A node that starts again finds the buckets by their hashes and starts the
    merges anew. [restart_is_transparent]: from then on its bucket list evolves as if it had never stopped,
    whatever merges had finished when it did. *)
From stdpp Require Import base list gmap strings.
From Stdlib Require Import ZArith Lia.
From S2P Require Import Prelude Numeric LedgerEntries Buckets BucketsSpec BucketList BucketWords BucketListSpec BucketLedger.

(** ** Results that correspond *)

Definition resRel {A} (R : A → A → Prop) (m m' : Checked A) : Prop :=
  match m, m' with
  | Val a, Val b => R a b
  | Throws w, Throws w' => w = w'
  | Asserts w, Asserts w' => w = w'
  | OutOfFuel, OutOfFuel => True
  | _, _ => False
  end.

Lemma resRel_bind {A B} (R : A → A → Prop) (Q : B → B → Prop) m m' f f' :
  resRel R m m' → (∀ a b, R a b → resRel Q (f a) (f' b)) → resRel Q (m ≫= f) (m' ≫= f').
Proof. destruct m, m'; simpl; try done. auto. Qed.
Lemma resRel_bind_same {A B} (Q : B → B → Prop) (m : Checked A) f f' :
  (∀ a, resRel Q (f a) (f' a)) → resRel Q (m ≫= f) (m ≫= f').
Proof. intros Hf. destruct m; simpl; auto. Qed.
Lemma resRel_refl {A} (R : A → A → Prop) m : (∀ a, R a a) → resRel R m m.
Proof. intros HR. destruct m; simpl; auto. Qed.

Section Restart.
Context `{HF : FileHash}.

(** ** Lists that will evolve alike *)

(** The same buckets, and merges that will give the same result. *)
Definition sameLevel (l l' : BucketLevel) : Prop :=
  l = l' ∨
  (mLevel l = mLevel l' ∧ mCurr l = mCurr l' ∧ mSnap l = mSnap l' ∧
   ∃ M, gives (mNextCurr l) M ∧ gives (mNextCurr l') M).

Lemma sameLevel_buckets l l' :
  sameLevel l l' → mLevel l = mLevel l' ∧ mCurr l = mCurr l' ∧ mSnap l = mSnap l'.
Proof. intros [->|(? & ? & ? & _)]; done. Qed.

Lemma sameLevel_snap l l' : sameLevel l l' → sameLevel (snap l) (snap l').
Proof. intros [->|(H1 & H2 & H3 & M & H4 & H5)]; [by left|]. right. unfold snap. simpl. split_and!; [done..|]. by exists M. Qed.

Lemma sameLevel_commit l l' : sameLevel l l' → commit l = commit l'.
Proof.
  intros [->|(H1 & H2 & H3 & M & H4 & H5)]; [done|]. by rewrite (commit_gives l M), (commit_gives l' M), H1, H3.
Qed.

(** Level by level; level 0, which has no merge in progress between two ledgers, is equal. *)
Definition sameList (ls ls' : BucketList) : Prop := Forall2 sameLevel ls ls' ∧ ls !! 0%nat = ls' !! 0%nat.

Lemma sameLevel_refl l : sameLevel l l.
Proof. by left. Qed.
Lemma sameList_refl ls : sameList ls ls.
Proof. split; [|done]. induction ls; constructor; auto using sameLevel_refl. Qed.

Lemma sameList_insert ls ls' i l l' :
  sameList ls ls' → sameLevel l l' → (i = 0%nat → l = l') → sameList (<[i := l]> ls) (<[i := l']> ls').
Proof.
  intros [Hs H0] Hl Hi. split; [by apply Forall2_insert|]. destruct i as [|i].
  - rewrite Hi by done. destruct Hs; [done|]. done.
  - by rewrite !list_lookup_insert_ne.
Qed.

Lemma levelAt_same ls ls' i :
  sameList ls ls' → resRel (λ l l', sameLevel l l' ∧ (i = 0%nat → l = l')) (levelAt ls i) (levelAt ls' i).
Proof.
  intros [Hs H0]. unfold levelAt. destruct (ls !! i) as [l|] eqn:E.
  - destruct (Forall2_lookup_l _ _ _ _ _ Hs E) as (l' & E' & Hl). rewrite E'. simpl. split; [done|]. intros ->. congruence.
  - apply lookup_ge_None in E. rewrite (Forall2_length _ _ _ Hs) in E. by rewrite (proj2 (lookup_ge_None ls' i)).
Qed.

Lemma spillLevels_same i ledger pv ls ls' shadows :
  sameList ls ls' →
  resRel (λ p q, sameList p.1 q.1 ∧ p.2 = q.2) (spillLevels i ledger pv ls shadows) (spillLevels i ledger pv ls' shadows).
Proof.
  revert ls ls' shadows. induction i as [|j IH]; intros ls ls' shadows Hs; [done|]. cbn [spillLevels].
  apply resRel_bind_same. intros sh. apply resRel_bind_same. intros [].
  - eapply (resRel_bind sameList); [|intros; by apply IH].
    eapply resRel_bind; [by apply levelAt_same|]. intros l l' [Hl Hj]. simpl.
    assert (Hi : sameList (<[j := snap l]> ls) (<[j := snap l']> ls')).
    { apply sameList_insert; [done|by apply sameLevel_snap|]. intros Hd. by rewrite (Hj Hd). }
    eapply resRel_bind; [by apply levelAt_same|]. intros u u' [Hu _]. rewrite (sameLevel_commit _ _ Hu).
    apply resRel_bind_same. intros u2. destruct (sameLevel_buckets _ _ Hl) as (_ & -> & _).
    apply resRel_bind_same. intros u3. by apply sameList_insert; [|apply sameLevel_refl|].
  - unfold mret, Checked_ret. rewrite !bind_Val. by apply IH.
Qed.

Lemma shadowsOf_same ls ls' : sameList ls ls' → shadowsOf ls = shadowsOf ls'.
Proof.
  intros [Hs _]. induction Hs as [|x y ls ls' Hxy Hs IH]; [done|]. destruct (sameLevel_buckets _ _ Hxy) as (_ & H1 & H2).
  by rewrite !shadowsOf_cons, H1, H2, IH.
Qed.

Lemma addBatch_same ls ls' ledger pv i l d :
  sameList ls ls' → resRel sameList (addBatch ls ledger pv i l d) (addBatch ls' ledger pv i l d).
Proof.
  intros Hs. unfold addBatch. fold (shadowsOf ls) (shadowsOf ls'). rewrite <- (shadowsOf_same _ _ Hs).
  rewrite <- (Forall2_length _ _ _ (proj1 Hs)). apply resRel_bind_same. intros _. apply resRel_bind_same. intros sh.
  eapply resRel_bind; [by apply spillLevels_same|]. intros [rs sh1] [rs' sh2] [Hr Hsh]. simpl in *. subst sh2.
  apply resRel_bind_same. intros _. apply resRel_bind_same. intros new.
  eapply resRel_bind; [by apply levelAt_same|]. intros f f' [_ Hf]. rewrite (Hf eq_refl).
  apply resRel_bind_same. intros f1. apply resRel_bind_same. intros f2.
  by apply sameList_insert; [|apply sameLevel_refl|].
Qed.

Lemma closeLedgers_same bs ledger ls ls' :
  sameList ls ls' → resRel sameList (closeLedgers ledger ls bs) (closeLedgers ledger ls' bs).
Proof.
  revert ledger ls ls'. induction bs as [|b bs IH]; intros ledger ls ls' Hs; [done|]. simpl.
  eapply resRel_bind; [by apply addBatch_same|]. intros. by apply IH.
Qed.

(** ** Where futures come from *)

(** A merge that was started, finished or not ([r]), and one that was taken up with its result. *)
Definition started (maxP : Z) (c s : Bucket) (sh : list Bucket) (keep r : bool) : FutureBucket :=
  mkFB FB_LIVE_INPUTS (Some c) (Some s) sh (Some (mkFuture (mergeTask maxP c s sh keep) r))
    (Some (getHash c)) (Some (getHash s)) (getHash <$> sh) None.
Definition finished (M : Bucket) : FutureBucket :=
  mkFB FB_LIVE_OUTPUT None None [] (Some (mkFuture (Val M) true)) None None [] (Some (getHash M)).

Definition madeBy (pv : Z) (l : BucketLevel) : Prop :=
  mNextCurr l = clear ∨
  (∃ maxP c s sh r, maxP <= pv ∧ mNextCurr l = started maxP c s sh (keepDeadEntries (mLevel l)) r) ∨
  (∃ M, mNextCurr l = finished M).

Lemma madeBy_weaken pv pv' l : pv <= pv' → madeBy pv l → madeBy pv' l.
Proof.
  intros Hle [?|[(maxP & c & s & sh & r & H1 & H2)|?]]; [by left| |by right; right].
  right; left. exists maxP, c, s, sh, r. split; [lia|done].
Qed.

Lemma newFutureBucket_started curr sn shadows maxP keep f :
  newFutureBucket curr sn shadows maxP keep = Val f → f = started maxP curr sn shadows keep false.
Proof.
  unfold newFutureBucket, startMerge. simpl. destruct (checkState _); simpl; intros [= <-]. done.
Qed.

Lemma commit_madeBy pv l l' : madeBy pv l → commit l = Val l' → madeBy pv l' ∧ mLevel l' = mLevel l.
Proof.
  intros Hm. unfold commit. destruct (isLive (mNextCurr l)).
  - destruct (resolve (mNextCurr l)) as [[f b]| | |]; simpl; intros [= <-]. split; [by left|done].
  - simpl. destruct (assert _ _); simpl; intros [= <-]. done.
Qed.

Lemma prepare_madeBy pv l l' ledger sn shadows :
  prepare l ledger pv sn shadows = Val l' → madeBy pv l' ∧ mLevel l' = mLevel l.
Proof.
  unfold prepare. destruct (assert _ _); simpl; [|done..].
  destruct (if mLevel l =? 0 then _ else _) as [c| | |]; simpl; [|done..].
  destruct (newFutureBucket c sn shadows pv _) as [f| | |] eqn:Hf; simpl; [|done..].
  destruct (assert _ _); simpl; intros [= <-]. split; [|done]. right; left.
  apply newFutureBucket_started in Hf. exists pv, c, sn, shadows, false. split; [lia|done].
Qed.

Lemma spillLevels_madeBy i pv ledger ls ls' shadows sh' :
  Forall (madeBy pv) ls → spillLevels i ledger pv ls shadows = Val (ls', sh') → Forall (madeBy pv) ls'.
Proof.
  revert ls shadows. induction i as [|j IH]; intros ls shadows Hm; [by intros [= <- <-]|]. cbn [spillLevels].
  destruct (popTwo shadows) as [sh| | |]; simpl; [|done..]. destruct (levelShouldSpill _ _) as [[]| | |]; simpl; [| |done..]; [|by apply IH].
  unfold levelAt. destruct (ls !! j) as [lo|] eqn:Hlo; simpl; [|done].
  assert (Hm1 : Forall (madeBy pv) (<[j := snap lo]> ls)).
  { apply Forall_insert; [done|]. by apply (Forall_lookup_1 _ _ _ _ Hm Hlo). }
  destruct (<[j := snap lo]> ls !! S j) as [up|] eqn:Hup; simpl; [|done].
  destruct (commit up) as [up1| | |] eqn:Hc; simpl; [|done..].
  destruct (prepare up1 _ _ _ _) as [up2| | |] eqn:Hp; simpl; [|done..].
  apply IH, Forall_insert; [done|]. by apply prepare_madeBy in Hp as [? _].
Qed.

Lemma addBatch_madeBy pv pv' ledger ls ls' i l d :
  pv <= pv' → Forall (madeBy pv) ls → addBatch ls ledger pv' i l d = Val ls' → Forall (madeBy pv') ls'.
Proof.
  intros Hle Hm. assert (Hm' : Forall (madeBy pv') ls) by (eapply Forall_impl; [exact Hm|intros; by eapply madeBy_weaken]).
  unfold addBatch. destruct (assert _ _); simpl; [|done..]. destruct (popTwo _) as [sh| | |]; simpl; [|done..].
  destruct (spillLevels _ _ _ _ _) as [[ls1 sh1]| | |] eqn:Hs; simpl; [|done..].
  destruct (assert _ _); simpl; [|done..]. destruct (fresh _ _ _ _) as [new| | |]; simpl; [|done..].
  destruct (levelAt ls1 0) as [l0| | |]; simpl; [|done..].
  destruct (prepare l0 _ _ _ _) as [l1| | |] eqn:Hp; simpl; [|done..].
  destruct (commit l1) as [l2| | |] eqn:Hc; simpl; intros [= <-].
  apply Forall_insert; [by eapply spillLevels_madeBy|]. apply prepare_madeBy in Hp as [Hp _].
  by apply (commit_madeBy _ _ _ Hp) in Hc as [? _].
Qed.

(** ** Saving a level and taking it up again *)

(** The buckets a level refers to: its own, the inputs of its merge, and the result if there is one. *)
Definition futureRefs (f : FutureBucket) : list Bucket :=
  option_list (mInputCurrBucket f) ++ option_list (mInputSnapBucket f) ++ mInputShadowBuckets f ++
  match mOutputBucket f with Some (mkFuture (Val M) true) => [M] | _ => [] end.
Definition levelRefs (l : BucketLevel) : list Bucket := mCurr l :: mSnap l :: futureRefs (mNextCurr l).

(** The directory has them, each under its hash. *)
Definition hasFiles (files : Z → option Bucket) (bs : list Bucket) : Prop :=
  ∀ b, b ∈ bs → getBucketByHash files (getHash b) = Some b.

Lemma merge_weaken maxP maxP' c s sh keep M :
  maxP <= maxP' → merge maxP c s sh keep = Val M → merge maxP' c s sh keep = Val M.
Proof.
  intros Hle. unfold merge. destruct (openBucket c) as [oi| | |]; simpl; [|done..].
  destruct (openBucket s) as [ni| | |]; simpl; [|done..]. destruct (openAll sh) as [sis| | |]; simpl; [|done..].
  unfold calculateMergeProtocolVersion. set (v := foldl _ _ _).
  destruct (maxP <? v) eqn:E1; simpl; [done|]. destruct (maxP' <? v) eqn:E2; [propify; lia|done].
Qed.

Lemma mergeTask_Val maxP c s sh keep M : mergeTask maxP c s sh keep = Val M ↔ merge maxP c s sh keep = Val M.
Proof. unfold mergeTask. by destruct (merge _ _ _ _ _). Qed.

Lemma started_gives maxP c s sh keep r M :
  merge maxP c s sh keep = Val M → gives (started maxP c s sh keep r) M.
Proof.
  intros HM. split; [done| | |done].
  - unfold checkState, started, checkHashesMatch, mergeComplete. simpl. rewrite !checkHashEq_same.
    destruct (noShadows sh); simpl; [done|]. rewrite length_fmap, Nat.eqb_refl. simpl. by rewrite checkShadowHashes_same.
  - exists r. simpl. by rewrite (proj2 (mergeTask_Val _ _ _ _ _ _) HM).
Qed.
Lemma finished_gives M : gives (finished M) M.
Proof. split; [done|apply resolved_state|by exists true|by intros h [= <-]]. Qed.

Lemma gives_started maxP c s sh keep r M : gives (started maxP c s sh keep r) M → merge maxP c s sh keep = Val M.
Proof. intros [_ _ [r' Ho] _]. injection Ho as Hm _. by apply mergeTask_Val. Qed.

Lemma startMerge_started maxP c s sh keep :
  startMerge (mkFB FB_LIVE_INPUTS (Some c) (Some s) sh None (Some (getHash c)) (Some (getHash s)) (getHash <$> sh) None) maxP keep
  = Val (started maxP c s sh keep false).
Proof.
  unfold startMerge. simpl.
  assert (Hc : checkState (started maxP c s sh keep false) = Val tt).
  { unfold checkState, started, checkHashesMatch, mergeComplete. simpl. rewrite !checkHashEq_same.
    destruct (noShadows sh); simpl; [done|]. rewrite length_fmap, Nat.eqb_refl. simpl. by rewrite checkShadowHashes_same. }
  unfold started in Hc. by rewrite Hc.
Qed.

Lemma reconstitute_files files bs : hasFiles files bs → reconstitute files (getHash <$> bs) = Val bs.
Proof.
  induction bs as [|b bs IH]; intros Hf; [done|]. rewrite fmap_cons. cbn [reconstitute]. rewrite (Hf b) by set_solver.
  rewrite IH; [done|]. intros x Hx. apply Hf. set_solver.
Qed.

(** What is saved of the merge of a level. *)
Definition saveNext (f : FutureBucket) : Checked SavedFuture :=
  f ← (if isMerging f then
         complete ← mergeComplete f;
         if (complete : bool) then '(f, _) ← resolve f; mret f else mret f
       else mret f);
  save f.

(** Saved, loaded and started again: the future gives the same bucket. *)
Lemma future_restarts files f M keep maxP' :
  gives f M → (∃ maxP c s sh r, maxP <= maxP' ∧ f = started maxP c s sh keep r) ∨ f = finished M → hasFiles files (futureRefs f) →
  ∃ sv g h, saveNext f = Val sv ∧ load sv = Val g ∧ hasHashes g = true ∧ isLive g = false ∧
    makeLive files g maxP' keep = Val h ∧ gives h M ∧
    ((∃ c s sh, h = started maxP' c s sh keep false) ∨ h = finished M) ∧ (isMerging f = false → h = f).
Proof.
  intros Hg Hf Hfiles.
  assert (Hout : getBucketByHash files (getHash M) = Some M →
    makeLive files (mkFB FB_HASH_OUTPUT None None [] None None None [] (Some (getHash M))) maxP' keep = Val (finished M)).
  { intros HM. unfold makeLive. simpl. rewrite HM. unfold setLiveOutput. simpl.
    by rewrite (resolved_state M tt). }
  destruct Hf as [(maxP & c & s & sh & [] & Hle & ->)| ->].
  - apply gives_started in Hg as HM.
    assert (Hr : resolve (started maxP c s sh keep true) = Val (finished M, M)).
    { unfold resolve. rewrite (gv_state _ _ Hg). simpl. rewrite (proj2 (mergeTask_Val _ _ _ _ _ _) HM). simpl.
      by rewrite (resolved_state M tt). }
    assert (Hsv : saveNext (started maxP c s sh keep true) = save (finished M)).
    { unfold saveNext. change (isMerging _) with true. change (mergeComplete _) with (@Val bool true).
      cbn [mbind Checked_bind]. by rewrite Hr. }
    exists (SavedOutput (getHash M)). eexists _, (finished M). rewrite Hsv. unfold save. rewrite (gv_state _ _ (finished_gives M)).
    split_and!; [done|done|done|done| |apply finished_gives|by right|done].
    apply Hout, Hfiles. unfold futureRefs. simpl. rewrite (proj2 (mergeTask_Val _ _ _ _ _ _) HM). set_solver.
  - apply gives_started in Hg as HM.
    exists (SavedInputs (getHash c) (getHash s) (getHash <$> sh)). eexists _, (started maxP' c s sh keep false).
    assert (Hsv : saveNext (started maxP c s sh keep false) = save (started maxP c s sh keep false)) by done.
    rewrite Hsv. unfold save. rewrite (gv_state _ _ Hg).
    split_and!; [done|done|done|done| |by apply started_gives, (merge_weaken maxP)|left; by exists c, s, sh|done].
    unfold makeLive. simpl. rewrite reconstitute_files by (intros b Hb; apply Hfiles; unfold futureRefs; simpl; set_solver).
    rewrite (Hfiles c), (Hfiles s) by (unfold futureRefs; simpl; set_solver). rewrite bind_Val.
    by rewrite startMerge_started.
  - exists (SavedOutput (getHash M)). eexists _, (finished M). unfold saveNext, save. simpl.
    rewrite (gv_state _ _ (finished_gives M)).
    split_and!; [done|done|done|done| |apply finished_gives|by right|done].
    apply Hout, Hfiles. unfold futureRefs. simpl. set_solver.
Qed.

(** The turn of [restartMerges] for one level. *)
Definition restartLevel (files : Z → option Bucket) (maxP i : Z) (l : BucketLevel) : Checked BucketLevel :=
  if hasHashes (mNextCurr l) && negb (isLive (mNextCurr l)) then
    next ← makeLive files (mNextCurr l) maxP (keepDeadEntries i);
    mret (setNext l next)
  else mret l.

Definition settled (l : BucketLevel) : Prop := mNextCurr l = clear ∨ ∃ M, gives (mNextCurr l) M.

Lemma level_restarts files pv i l :
  mLevel l = i → settled l → madeBy pv l → hasFiles files (levelRefs l) →
  ∃ sv g l', saveNext (mNextCurr l) = Val sv ∧ load sv = Val g ∧
    restartLevel files pv i (mkLevel i g (mCurr l) (mSnap l)) = Val l' ∧
    sameLevel l l' ∧ madeBy pv l' ∧ (isMerging (mNextCurr l) = false → l' = l).
Proof.
  intros Hi Hset Hm Hf. destruct l as [lv f c s]. unfold settled in Hset. simpl in *. subst lv. destruct Hset as [->|[M Hg]].
  { exists SavedClear, clear, (mkLevel i clear c s). split_and!; [done|done|done|by left|by left|done]. }
  assert (Hcase : (∃ maxP c0 s0 sh r, maxP <= pv ∧ f = started maxP c0 s0 sh (keepDeadEntries i) r) ∨ f = finished M).
  { destruct Hm as [Hc|[(maxP & c0 & s0 & sh & r & Hle & Hs)|[M' Hfin]]]; simpl in *; subst f.
    - by destruct Hg.
    - left. by exists maxP, c0, s0, sh, r.
    - right. destruct Hg as [_ _ [r Ho] _]. by injection Ho as -> _. }
  destruct (future_restarts files f M (keepDeadEntries i) pv) as (sv & g & h & H1 & H2 & H3 & H4 & H5 & H6 & H7 & H8);
    [done|done|intros b Hb; apply Hf; unfold levelRefs; simpl; set_solver|].
  exists sv, g, (mkLevel i h c s). unfold restartLevel. simpl. rewrite H3, H4. simpl. rewrite H5. split_and!; [done..| | |].
  - right. split_and!; [done..|]. by exists M.
  - destruct H7 as [(c1 & s1 & sh1 & ->)| ->]; [right; left|right; right; by exists M].
    exists pv, c1, s1, sh1, false. split; [lia|done].
  - intros Hmg. by rewrite H8.
Qed.

(** The saved state of a list, level by level. *)
Lemma savedState_cons l ls sv r :
  saveNext (mNextCurr l) = Val sv → savedState ls = Val r → savedState (l :: ls) = Val ((getHash (mCurr l), sv, getHash (mSnap l)) :: r).
Proof.
  unfold savedState, saveNext. intros Hl Hls. unfold historyArchiveState in *. rewrite fmap_cons. cbn [resolveAnyReadyFutures hs_next hs_curr hs_snap].
  destruct (resolveAnyReadyFutures _) as [bs| | |]; simpl in Hls; try done.
  destruct (isMerging (mNextCurr l)); [destruct (mergeComplete (mNextCurr l)) as [[]| | |]; simpl in *; try done|].
  1: destruct (resolve (mNextCurr l)) as [[f b]| | |]; simpl in *; try done.
  all: simpl in *; by rewrite Hl, Hls.
Qed.

(** What is loaded has no merge under way, so the assertion of [fromString] holds. *)
Lemma loaded_resolved ss bs : loadBuckets ss = Val bs → futuresAllResolved bs = true.
Proof.
  revert bs. induction ss as [|[[c s] n] ss IH]; intros bs Hl; [by injection Hl as <-|]. cbn [loadBuckets] in Hl.
  destruct (load s) as [f| | |] eqn:Ef; try done. rewrite bind_Val in Hl.
  destruct (loadBuckets ss) as [r| | |]; try done. rewrite bind_Val in Hl. injection Hl as <-.
  simpl. rewrite IH, andb_true_r by done. unfold load in Ef.
  destruct s; destruct (checkState _) in Ef; try done; rewrite bind_Val in Ef; by injection Ef as <-.
Qed.
Lemma deserialize_eq ss : deserialize ss = loadBuckets ss.
Proof.
  unfold deserialize. destruct (loadBuckets ss) as [bs| | |] eqn:E; try done.
  by rewrite bind_Val, (loaded_resolved _ _ E).
Qed.

Definition newLevels (n len : nat) : BucketList := (λ i, mkLevel (Z.of_nat i) clear [] []) <$> seq n len.

Lemma list_restarts files pv n ls :
  (∀ i l, ls !! i = Some l → mLevel l = Z.of_nat (n + i)) → Forall settled ls → Forall (madeBy pv) ls →
  Forall (λ l, hasFiles files (levelRefs l)) ls →
  ∃ saved has ls1 ls2,
    savedState ls = Val saved ∧ deserialize saved = Val has ∧ assumeBuckets files has (newLevels n (length ls)) = Val ls1 ∧
    restartMerges files pv ls1 (Z.of_nat n) = Val ls2 ∧ Forall2 sameLevel ls ls2 ∧ Forall (madeBy pv) ls2 ∧
    ∀ i l, ls !! i = Some l → isMerging (mNextCurr l) = false → ls2 !! i = Some l.
Proof.
  revert n. induction ls as [|l ls IH]; intros n Hlev Hset Hm Hf.
  { exists [], [], [], []. split_and!; try done; constructor. }
  rewrite Forall_cons in Hset, Hm, Hf. destruct Hset as [Hset Hsets], Hm as [Hm Hms], Hf as [Hf Hfs].
  destruct (level_restarts files pv (Z.of_nat n) l) as (sv & g & l' & H1 & H2 & H3 & H4 & H5 & H6); [|done..|].
  { rewrite (Hlev 0%nat l eq_refl). f_equal. lia. }
  destruct (IH (S n)) as (saved & has & ls1 & ls2 & I1 & I2 & I3 & I4 & I5 & I6 & I7); [|done..|].
  { intros i x Hx. rewrite (Hlev (S i) x Hx). f_equal. lia. }
  exists ((getHash (mCurr l), sv, getHash (mSnap l)) :: saved), (mkHSB (getHash (mCurr l)) g (getHash (mSnap l)) :: has),
    (mkLevel (Z.of_nat n) g (mCurr l) (mSnap l) :: ls1), (l' :: ls2).
  split_and!; [by apply savedState_cons| | | |by constructor|by constructor|].
  - rewrite deserialize_eq in *. cbn [loadBuckets]. by rewrite H2, bind_Val, I2.
  - unfold newLevels in *. cbn [length seq]. rewrite fmap_cons. cbn [assumeBuckets hs_curr hs_snap].
    rewrite (Hf (mCurr l)), (Hf (mSnap l)) by (unfold levelRefs; set_solver). by rewrite I3.
  - cbn [restartMerges]. fold (restartLevel files pv (Z.of_nat n) (mkLevel (Z.of_nat n) g (mCurr l) (mSnap l))).
    rewrite H3, bind_Val. replace (Z.of_nat n + 1) with (Z.of_nat (S n)) by lia. by rewrite I4.
  - intros [|i] x Hx Hmg; [|by apply I7]. injection Hx as <-. simpl. by rewrite H6.
Qed.

(** ** Runs with restarts *)

(** A task of the background thread is done. *)
Definition levelDone (l : BucketLevel) : BucketLevel := setNext l (taskDone (mNextCurr l)).

(** The bucket list of a node that has closed [bs]. *)
Inductive node : list Batch → BucketList → Prop :=
| node_new : node [] newBucketList
| node_close bs ls b ls' :
    node bs ls →
    addBatch ls (Z.of_nat (length bs) + 1) (b_protocol b) (b_init b) (b_live b) (b_dead b) = Val ls' →
    node (bs ++ [b]) ls'
| node_task bs ls i l :
    node bs ls → ls !! i = Some l → node bs (<[i := levelDone l]> ls)
| node_restart bs ls files saved ls' :
    node bs ls → hasFiles files (ls ≫= levelRefs) →
    savedState ls = Val saved → restart files saved (protocolAfter 0 bs) = Val ls' → node bs ls'.

(** The buckets of a list. *)
Definition buckets (ls : BucketList) : list (Bucket * Bucket) := (λ l, (mCurr l, mSnap l)) <$> ls.

(** What holds of a node that has closed [bs]: its list evolves like the one that never stopped. *)
Record nodeInv (bs : list Batch) (ls : BucketList) : Prop := {
  ni_list : ∃ ls0, closeLedgers 1 newBucketList bs = Val ls0 ∧
    ListInv (protocolAfter 0 bs) (Z.of_nat (length bs)) ls0 (λ k, ledgerAfter bs !! k) ∧ sameList ls ls0;
  ni_made : Forall (madeBy (protocolAfter 0 bs)) ls }.

Lemma ListInv_levels pv t ls st i l :
  ListInv pv t ls st → ls !! i = Some l → mLevel l = Z.of_nat i ∧ ((0 < i)%nat → settled l) ∧ (i = 0%nat → isMerging (mNextCurr l) = false).
Proof.
  intros [[Hlen Hlev _ _ Hfirst _ _ _] Hp] Hl. pose proof (lookup_lt_Some _ _ _ Hl) as Hi. rewrite Hlen in Hi.
  assert (E : lev ls i = l) by (unfold lev; by rewrite Hl). split_and!.
  - rewrite <- E. by apply Hlev.
  - intros H0. destruct i as [|j]; [lia|]. destruct (Hp j) as [(Hc & _)|(M & Hg & _)]; [lia| |]; rewrite E in *; [by left|right; by exists M].
  - intros ->. by rewrite <- E.
Qed.

(** A level without a running merge is as it was made: nothing pending, or a result. *)
Lemma quiet_done pv l : madeBy pv l → isMerging (mNextCurr l) = false → settled l ∧ levelDone l = l.
Proof.
  destruct l as [lv f c s]. unfold madeBy, settled, levelDone. simpl.
  intros [->|[(maxP & c0 & s0 & sh & r & _ & ->)|[M ->]]] Hm; [split; [by left|done]|done|].
  split; [right; exists M; apply finished_gives|done].
Qed.

Lemma node_levels bs ls i l :
  nodeInv bs ls → ls !! i = Some l →
  mLevel l = Z.of_nat i ∧ settled l ∧ (i = 0%nat → isMerging (mNextCurr l) = false).
Proof.
  intros [(ls0 & _ & Hinv & Hs & H0) Hm] Hl. destruct (Forall2_lookup_l _ _ _ _ _ Hs Hl) as (l0 & Hl0 & Hsame).
  destruct (ListInv_levels _ _ _ _ _ _ Hinv Hl0) as (H1 & H2 & H3). destruct (sameLevel_buckets _ _ Hsame) as (HL & _).
  assert (Hi0 : i = 0%nat → l = l0) by (intros ->; congruence).
  split_and!; [congruence| |intros Hi; rewrite (Hi0 Hi); auto].
  destruct Hsame as [->|(_ & _ & _ & M & Hg & _)]; [|right; by exists M].
  destruct i; [|apply H2; lia]. by apply (quiet_done (protocolAfter 0 bs)); [apply (Forall_lookup_1 _ _ _ _ Hm Hl)|auto].
Qed.

Lemma done_same pv l l0 : madeBy pv l → settled l → sameLevel l l0 → sameLevel (levelDone l) l0 ∧ madeBy pv (levelDone l).
Proof.
  destruct l as [lv f c s]. unfold settled, levelDone. simpl. intros Hm Hset Hsame.
  assert (Hmade : madeBy pv (mkLevel lv (taskDone f) c s)).
  { destruct Hm as [Hc|[(maxP & c0 & s0 & sh & r & Hle & Hf)|[M Hf]]]; simpl in *; subst f; [by left| |right; right; by exists M].
    right; left. by exists maxP, c0, s0, sh, true. }
  split; [|done]. destruct Hset as [->|[M Hg]]; [done|].
  assert (Hg' : gives (taskDone f) M).
  { destruct Hm as [Hc|[(maxP & c0 & s0 & sh & r & Hle & Hf)|[M' Hf]]]; simpl in *; subst f; [done| |done].
    apply gives_started in Hg. by apply (started_gives _ _ _ _ _ true). }
  destruct Hsame as [<-|(H1 & H2 & H3 & M' & H4 & H5)]; simpl in *.
  - right. split_and!; [done..|]. by exists M.
  - right. split_and!; [done..|]. exists M'. split; [|done].
    assert (M' = M) as -> by (destruct H4 as [_ _ [r Ho] _], Hg as [_ _ [r' Ho'] _]; congruence). done.
Qed.

Lemma goodBatches_snoc pv st bs b :
  goodBatches pv st (bs ++ [b]) ↔
  goodBatches pv st bs ∧ goodBatch (protocolAfter pv bs) (foldl (λ st b, applyBatch b st) st bs) b.
Proof.
  revert pv st. induction bs as [|x bs IH]; intros pv st; simpl; [tauto|]. rewrite IH. tauto.
Qed.
Lemma closeLedgers_snoc ledger ls bs b :
  closeLedgers ledger ls (bs ++ [b]) =
  (ls' ← closeLedgers ledger ls bs;
   addBatch ls' (ledger + Z.of_nat (length bs)) (b_protocol b) (b_init b) (b_live b) (b_dead b)).
Proof.
  revert ledger ls. induction bs as [|x bs IH]; intros ledger ls; simpl.
  - rewrite Z.add_0_r. by destruct (addBatch _ _ _ _ _ _).
  - destruct (addBatch ls ledger _ _ _ _) as [ls1| | |]; simpl; try done. rewrite IH.
    by replace (ledger + 1 + Z.of_nat (length bs)) with (ledger + Z.of_nat (S (length bs))) by lia.
Qed.

Lemma nodeInv_new : nodeInv [] newBucketList.
Proof.
  split; [exists newBucketList; split_and!; [done|apply newBucketList_inv|apply sameList_refl]|].
  apply Forall_fmap, Forall_true. intros i. by left.
Qed.

Lemma nodeInv_close bs ls b ls' :
  goodBatches 0 ∅ (bs ++ [b]) → Z.of_nat (length (bs ++ [b])) < 2 ^ 32 → nodeInv bs ls →
  addBatch ls (Z.of_nat (length bs) + 1) (b_protocol b) (b_init b) (b_live b) (b_dead b) = Val ls' →
  nodeInv (bs ++ [b]) ls'.
Proof.
  intros Hgood Hlen [(ls0 & Hc & Hinv & Hs) Hm] Ha. split.
  - destruct (closeLedgers_inv 0 0 newBucketList ∅ (bs ++ [b])) as (ls1 & Hc1 & Hinv1); [lia..|apply newBucketList_inv|done|].
    exists ls1. split_and!; [done|done|]. change (0 + 1) with 1 in Hc1. rewrite closeLedgers_snoc, Hc, bind_Val, Z.add_comm in Hc1.
    pose proof (addBatch_same ls ls0 (Z.of_nat (length bs) + 1) (b_protocol b) (b_init b) (b_live b) (b_dead b) Hs) as Hr.
    by rewrite Ha, Hc1 in Hr.
  - apply goodBatches_snoc in Hgood as [_ (Hle & _)]. unfold protocolAfter. rewrite foldl_snoc.
    by eapply addBatch_madeBy.
Qed.

Lemma nodeInv_task bs ls i l : nodeInv bs ls → ls !! i = Some l → nodeInv bs (<[i := levelDone l]> ls).
Proof.
  intros Hn Hl.
  destruct (node_levels _ _ _ _ Hn Hl) as (_ & Hset & H0). destruct Hn as [(ls0 & Hc & Hinv & Hs & Hz) Hm].
  pose proof (Forall_lookup_1 _ _ _ _ Hm Hl) as Hml. destruct (Forall2_lookup_l _ _ _ _ _ Hs Hl) as (l0 & Hl0 & Hsame).
  destruct (done_same _ _ _ Hml Hset Hsame) as [Hd1 Hd2].
  split; [|by apply Forall_insert]. exists ls0. split_and!; [done|done|]. split.
  - rewrite <- (list_insert_id ls0 i l0) by done. by apply Forall2_insert.
  - destruct i as [|i]; [|by rewrite list_lookup_insert_ne].
    rewrite list_lookup_insert_eq by (by eapply lookup_lt_Some).
    rewrite (proj2 (quiet_done _ _ Hml (H0 eq_refl))). congruence.
Qed.

Lemma node_can_restart bs ls files :
  nodeInv bs ls → hasFiles files (ls ≫= levelRefs) →
  ∃ saved ls', savedState ls = Val saved ∧ restart files saved (protocolAfter 0 bs) = Val ls' ∧
    sameList ls ls' ∧ Forall (madeBy (protocolAfter 0 bs)) ls'.
Proof.
  intros Hn Hf. destruct (list_restarts files (protocolAfter 0 bs) 0 ls) as (saved & has & ls1 & ls2 & H1 & H2 & H3 & H4 & H5 & H6 & H7).
  - intros i l Hl. by apply (node_levels _ _ _ _ Hn Hl).
  - apply Forall_lookup. intros i l Hl. by apply (node_levels _ _ _ _ Hn Hl).
  - by destruct Hn.
  - apply Forall_forall. intros l Hl b Hb. apply Hf. apply list_elem_of_bind. by exists l.
  - exists saved, ls2. split_and!; [done| |split; [done|]|done].
    + unfold restart, assumeState. rewrite H2, bind_Val.
      assert (Hlen : length ls = 11%nat).
      { destruct Hn as [(ls0 & _ & [Hi _] & Hs & _) _]. rewrite (Forall2_length _ _ _ Hs). by destruct Hi. }
      rewrite Hlen in H3. change (newLevels 0 11) with newBucketList in H3. by rewrite H3, bind_Val.
    + destruct (ls !! 0%nat) as [l|] eqn:Hl; [|by apply lookup_ge_None in Hl; rewrite (Forall2_length _ _ _ H5) in Hl; symmetry; apply lookup_ge_None].
      symmetry. apply H7; [done|]. by apply (node_levels _ _ _ _ Hn Hl).
Qed.

Lemma sameLevel_sym l l' : sameLevel l l' → sameLevel l' l.
Proof. intros [->|(H1 & H2 & H3 & M & H4 & H5)]; [by left|]. right. split_and!; [done..|]. by exists M. Qed.

Lemma sameLevel_trans l1 l2 l3 : sameLevel l1 l2 → sameLevel l2 l3 → sameLevel l1 l3.
Proof.
  intros [->|(H1 & H2 & H3 & M & H4 & H5)]; [done|]. intros [<-|(I1 & I2 & I3 & M' & I4 & I5)]; right.
  - split_and!; [done..|]. by exists M.
  - split_and!; [congruence..|]. exists M. split; [done|].
    assert (M' = M) as -> by (destruct I4 as [_ _ [r Ho] _], H5 as [_ _ [r' Ho'] _]; congruence). done.
Qed.

Lemma nodeInv_restart bs ls files saved ls' :
  nodeInv bs ls → hasFiles files (ls ≫= levelRefs) → savedState ls = Val saved →
  restart files saved (protocolAfter 0 bs) = Val ls' → nodeInv bs ls'.
Proof.
  intros Hn Hf Hs Hr. destruct (node_can_restart _ _ _ Hn Hf) as (saved' & ls2 & Hs' & Hr' & [Hsame Hz] & Hm).
  assert (saved' = saved) as -> by congruence. assert (ls2 = ls') as -> by congruence.
  destruct Hn as [(ls0 & Hc & Hinv & Hs0 & Hz0) _]. split; [|done]. exists ls0. split_and!; [done|done|]. split; [|congruence].
  clear -Hsame Hs0. revert ls' Hsame. induction Hs0 as [|x y ls ls0 Hxy Hs0 IH]; intros ls' Hsame; inversion Hsame; subst; constructor; auto.
  eapply sameLevel_trans; [by apply sameLevel_sym|done].
Qed.

Lemma node_inv bs ls :
  node bs ls → goodBatches 0 ∅ bs → Z.of_nat (length bs) < 2 ^ 32 → nodeInv bs ls.
Proof.
  induction 1 as [|bs ls b ls' Hn IH Ha|bs ls i l Hn IH Hl|bs ls files saved ls' Hn IH Hf Hs Hr]; intros Hgood Hlen.
  - apply nodeInv_new.
  - eapply nodeInv_close; [done|done| |done]. apply IH; [by apply goodBatches_snoc in Hgood as [? _]|].
    rewrite length_app in Hlen. simpl in Hlen. lia.
  - apply nodeInv_task; auto.
  - eapply nodeInv_restart; eauto.
Qed.

Lemma sameList_buckets ls ls' : sameList ls ls' → buckets ls = buckets ls'.
Proof.
  intros [Hs _]. unfold buckets. induction Hs as [|x y ls ls' Hxy Hs IH]; [done|].
  destruct (sameLevel_buckets _ _ Hxy) as (_ & H1 & H2). by rewrite !fmap_cons, IH, H1, H2.
Qed.

Lemma newestEntry_buckets k ls ls' : buckets ls = buckets ls' → newestEntry k ls = newestEntry k ls'.
Proof.
  unfold buckets. revert ls'. induction ls as [|l ls IH]; intros [|l' ls'] Hb; try done.
  rewrite !fmap_cons in Hb. injection Hb as H1 H2 H3. simpl. by rewrite H1, H2, (IH ls').
Qed.

(** C25: a node may stop and start again after any ledger, whatever merges in the background had finished by then:
    if the bucket directory has the files the list refers to, saving and restarting do not fail, and after any
    number of ledgers and restarts the node has bucket for bucket the list of a node that never stopped (hence
    the same hash), which shows the ledger. *)
Theorem restart_is_transparent (bs : list Batch) (ls : BucketList) :
  Z.of_nat (length bs) < 2 ^ 32 → goodBatches 0 ∅ bs → node bs ls →
  (∃ ls0, closeLedgers 1 newBucketList bs = Val ls0 ∧ buckets ls = buckets ls0) ∧
  (∀ k, shows ls k = ledgerAfter bs !! k) ∧
  (∀ files, hasFiles files (ls ≫= levelRefs) →
     ∃ saved ls', savedState ls = Val saved ∧ restart files saved (protocolAfter 0 bs) = Val ls' ∧ buckets ls' = buckets ls).
Proof.
  intros Hlen Hgood Hn. pose proof (node_inv _ _ Hn Hgood Hlen) as Hi. split_and!.
  - destruct Hi as [(ls0 & Hc & _ & Hs) _]. exists ls0. split; [done|]. by apply sameList_buckets.
  - destruct Hi as [(ls0 & Hc & [[Hl _ _ _ _ _ _ Hst] _] & Hs) _]. intros k. unfold shows.
    rewrite (newestEntry_buckets k ls ls0) by (by apply sameList_buckets). fold (shows ls0 k). by rewrite shows_word, Hst.
  - intros files Hf. destruct (node_can_restart _ _ _ Hi Hf) as (saved & ls' & H1 & H2 & H3 & _).
    exists saved, ls'. split_and!; [done|done|]. symmetry. by apply sameList_buckets.
Qed.
End Restart.

(** ** An example *)

#[local] Existing Instance sampleHash.

Lemma node_closeLedgers bs ls bs' ls' :
  node bs ls → closeLedgers (Z.of_nat (length bs) + 1) ls bs' = Val ls' → node (bs ++ bs') ls'.
Proof.
  revert bs ls. induction bs' as [|b bs' IH]; intros bs ls Hn Hc.
  { rewrite app_nil_r. simpl in Hc. by injection Hc as <-. }
  cbn [closeLedgers] in Hc. destruct (addBatch _ _ _ _ _ _) as [ls1| | |] eqn:Ha; try done. rewrite bind_Val in Hc.
  rewrite cons_middle, app_assoc. apply IH with ls1; [by eapply node_close|].
  rewrite length_app. simpl. by replace (Z.of_nat (length bs + 1) + 1) with (Z.of_nat (length bs) + 1 + 1) by lia.
Qed.

(** The files of a list of buckets. *)
Definition filesOf (bs : list Bucket) (h : Z) : option Bucket := snd <$> list_find (λ b, getHash b = h) bs.

(** Six ledgers, the merge of level 1 done, then a restart and the other ledgers. *)
Definition valueOr {A} (d : A) (m : Checked A) : A := match m with Val a => a | _ => d end.
Definition sampleSix : BucketList := Eval vm_compute in valueOr [] (closeLedgers 1 newBucketList (take 6 sampleHistory)).
Definition sampleStopped : BucketList := Eval vm_compute in <[1%nat := levelDone (lev sampleSix 1)]> sampleSix.
Definition sampleFiles : Z → option Bucket := filesOf (sampleStopped ≫= levelRefs).
Definition sampleSaved : list (Z * SavedFuture * Z) := Eval vm_compute in valueOr [] (savedState sampleStopped).
Definition sampleRestarted : BucketList := Eval vm_compute in valueOr [] (restart sampleFiles sampleSaved 11).
Definition sampleEnd : BucketList := Eval vm_compute in valueOr [] (closeLedgers 7 sampleRestarted (drop 6 sampleHistory)).

Lemma sample_restarts : savedState sampleStopped = Val sampleSaved ∧ restart sampleFiles sampleSaved 11 = Val sampleRestarted.
Proof. split; vm_compute; reflexivity. Qed.

Lemma sample_node : node sampleHistory sampleEnd.
Proof.
  apply (node_closeLedgers (take 6 sampleHistory) sampleRestarted _ sampleEnd); [|vm_compute; reflexivity].
  destruct sample_restarts as [Hs Hr]. apply (node_restart _ sampleStopped sampleFiles sampleSaved); [|..|exact Hs|exact Hr].
  - apply (node_task _ sampleSix 1 (lev sampleSix 1)); [|vm_compute; reflexivity].
    apply (node_closeLedgers [] newBucketList (take 6 sampleHistory) sampleSix); [apply node_new|vm_compute; reflexivity].
  - refine (proj1 (Forall_forall (λ b, getBucketByHash sampleFiles (getHash b) = Some b) _) _). apply (bool_decide_unpack _). vm_compute. exact I.
Qed.

Lemma restart_is_transparent_witness :
  ∃ ls0, closeLedgers 1 newBucketList sampleHistory = Val ls0 ∧ buckets sampleEnd = buckets ls0 ∧
    shows sampleEnd (ACCOUNT 2) = Some (sampleEntry 8 2 290).
Proof.
  destruct (restart_is_transparent sampleHistory sampleEnd) as ((ls0 & H0 & Hb) & Hs & _);
    [reflexivity|apply sampleHistory_good|apply sample_node|].
  exists ls0. split; [exact H0|split; [exact Hb|]]. rewrite Hs. vm_compute. reflexivity.
Defined.
