(* ===== verification/BucketSizes.v ===== *)
(** * Which ledgers a bucket holds

    The schedule of the list in closed form: after [t] ledgers the levels from [i] on hold the ledgers up to
    [bnd i t], and of level [i] the snapshot ends at [mid i t]. The recursive functions [sizeOfCurr],
    [sizeOfSnap], [oldestLedgerInCurr] and [oldestLedgerInSnap] compute these bounds, without failing or running
    out of the fuel ([sizeOf_Val]), and every live entry of a bucket was last modified in a ledger of the
    bucket's range ([bucket_ledger_ranges]). *)
From stdpp Require Import base list gmap strings.
From Stdlib Require Import ZArith Lia.
From S2P Require Import Prelude Numeric LedgerEntries Buckets BucketsSpec BucketList BucketWords BucketListSpec BucketLedger.

(** ** Closed forms *)

(** The last multiple of [p] up to [t]. *)
Definition down (t p : Z) : Z := t - t mod p.

(** Level [i] receives entries at the multiples of [period i]. *)
Definition period (i : nat) : Z := match i with O => 1 | S j => half j end.

Fixpoint alpha (i : nat) : Z := match i with O => 0 | S j => half j + (period j + alpha j) end.
Definition beta (i : nat) : Z := period i + alpha i.

Definition bnd (i : nat) (t : Z) : Z := Z.max 0 (down t (period i) - alpha i).
Definition mid (i : nat) (t : Z) : Z := if (i <? 10)%nat then Z.max 0 (down t (half i) - beta i) else 0.

Lemma period_pos i : 0 < period i.
Proof. destruct i; [done|apply half_pos]. Qed.
Lemma half_period i : ∃ c, 0 < c ∧ half i = c * period i.
Proof. destruct i as [|j]; [by exists 2|]. exists 4. split; [done|]. simpl. apply half_S. Qed.
Lemma alpha_nonneg i : 0 <= alpha i.
Proof. induction i as [|i IH]; [done|]. simpl. pose proof (half_pos i). pose proof (period_pos i). lia. Qed.
Lemma alpha_S j : alpha (S j) = half j + beta j.
Proof. done. Qed.
Lemma alpha_le j : alpha (S j) <= 2 * half j.
Proof.
  induction j as [|j IH]; [done|]. rewrite alpha_S. unfold beta. simpl period. rewrite half_S. pose proof (half_pos j). lia.
Qed.
Lemma beta_lt_half i : beta i < half i.
Proof.
  destruct i as [|j]; [done|]. unfold beta. simpl period. rewrite half_S. pose proof (alpha_le j). pose proof (half_pos j). lia.
Qed.

Section Down.
Context (p : Z) (Hp : 0 < p).

Lemma down_mul t : ∃ q, down t p = q * p ∧ q * p <= t < q * p + p.
Proof. exists (t / p). unfold down. pose proof (Z.div_mod t p). pose proof (Z.mod_pos_bound t p). lia. Qed.
Lemma down_char t q : q * p <= t < q * p + p → down t p = q * p.
Proof.
  intros Hq. unfold down. replace t with ((t - q * p) + q * p) at 2 by lia. rewrite Z.mod_add, Z.mod_small by lia. lia.
Qed.
Lemma down_nonneg t : 0 <= t → 0 <= down t p <= t.
Proof. unfold down. intros. pose proof (Z.mod_le t p). pose proof (Z.mod_pos_bound t p). lia. Qed.
Lemma down_fix t : t mod p = 0 → down t p = t ∧ down (t - 1) p = t - p.
Proof.
  intros H. unfold down at 1. split; [lia|]. apply Z.mod_divide in H as [q ->]; [|lia].
  rewrite (down_char _ (q - 1)); lia.
Qed.
Lemma down_pred t : t mod p ≠ 0 → down (t - 1) p = down t p.
Proof.
  intros H. destruct (down_mul t) as (q & -> & Hq). apply down_char. destruct (Z.eq_dec t (q * p)) as [->|]; [|lia].
  rewrite Z.mod_mul in H by lia. done.
Qed.
Lemma down_coarse t c : 0 < c → down t (c * p) <= down t p.
Proof.
  intros Hc. assert (0 < c * p) by (apply Z.mul_pos_pos; lia). destruct (down_mul t) as (q & -> & Hq).
  pose proof (Z.div_mod t (c * p)). pose proof (Z.mod_pos_bound t (c * p)). unfold down.
  set (r := t / (c * p)) in *. assert (r * c <= q) by nia. nia.
Qed.
End Down.

Lemma bnd_0 t : 0 <= t → bnd 0 t = t.
Proof. intros Ht. unfold bnd, down. simpl. rewrite Z.mod_1_r. lia. Qed.
Lemma bnd_nonneg i t : 0 <= bnd i t.
Proof. unfold bnd. lia. Qed.
Lemma mid_nonneg i t : 0 <= mid i t.
Proof. unfold mid. case_match; lia. Qed.

Lemma mid_le_bnd i t : mid i t <= bnd i t.
Proof.
  unfold mid, bnd, beta. destruct (i <? 10)%nat; [|lia]. destruct (half_period i) as (c & Hc & ->).
  pose proof (down_coarse (period i) (period_pos i) t c Hc). pose proof (period_pos i). lia.
Qed.
Lemma bnd_S_le_mid j t : (j < 10)%nat → bnd (S j) t <= mid j t.
Proof.
  intros Hj. unfold mid, bnd. rewrite (proj2 (Nat.ltb_lt _ _)) by lia. rewrite alpha_S. simpl period. pose proof (half_pos j). lia.
Qed.

(** The bounds move as the list does. *)
Lemma bnd_step j t : (j < 10)%nat → bnd (S j) t = if spills t j then mid j (t - 1) else bnd (S j) (t - 1).
Proof.
  intros Hj. unfold spills, mid, bnd. rewrite (proj2 (Nat.ltb_lt _ _)) by lia. rewrite alpha_S. simpl period.
  destruct (t mod half j =? 0) eqn:E; propify; simpl.
  - destruct (down_fix (half j) (half_pos j) t E) as [-> ->]. f_equal. lia.
  - by rewrite down_pred by (apply half_pos || done).
Qed.
Lemma mid_step j t : (j < 10)%nat → mid j t = if spills t j then bnd j (t - 1) else mid j (t - 1).
Proof.
  intros Hj. unfold spills, mid, bnd, beta. rewrite (proj2 (Nat.ltb_lt _ _)) by lia.
  destruct (t mod half j =? 0) eqn:E; propify; simpl.
  - destruct (down_fix (half j) (half_pos j) t E) as [-> _].
    assert (E' : t mod period j = 0).
    { destruct (half_period j) as (c & Hc & Hh). pose proof (period_pos j). apply Z.mod_divide in E as [q ->]; [|lia].
      rewrite Hh, Z.mul_assoc. by apply Z.mod_mul; lia. }
    destruct (down_fix (period j) (period_pos j) t E') as [_ ->]. f_equal. lia.
  - by rewrite down_pred by (apply half_pos || done).
Qed.

(** ** The recursive functions *)

Definition curSize (i : nat) (t : Z) : Z := bnd i t - mid i t.
Definition snapSize (i : nat) (t : Z) : Z := if (i <? 10)%nat then mid i t - bnd (S i) t else 0.

Lemma u32_narrow x : 0 <= x < 2 ^ 32 → u32 x = x.
Proof. apply Z.mod_small. Qed.

Lemma bnd_le i t : 0 <= t → bnd i t <= t.
Proof.
  intros Ht. unfold bnd. pose proof (down_nonneg (period i) (period_pos i) t Ht). pose proof (alpha_nonneg i). lia.
Qed.

Lemma sumSizes_Val f n t :
  0 < t < 2 ^ 32 → (n <= 10)%nat →
  (∀ l, (l < n)%nat → f Curr (Z.of_nat l) = Val (curSize l t) ∧ f Snap (Z.of_nat l) = Val (snapSize l t)) →
  sumSizes f n = Val (t - bnd n t).
Proof.
  intros Ht Hn Hf. induction n as [|n IH]; [simpl; rewrite bnd_0 by lia; by rewrite Z.sub_diag|].
  cbn [sumSizes]. rewrite IH, bind_Val by (try lia; intros l Hl; apply Hf; lia).
  destruct (Hf n) as [-> ->]; [lia|]. rewrite !bind_Val. unfold mret, Checked_ret. f_equal.
  unfold curSize, snapSize. rewrite (proj2 (Nat.ltb_lt n 10)) by lia.
  pose proof (mid_le_bnd n t). pose proof (bnd_S_le_mid n t ltac:(lia)). pose proof (bnd_nonneg (S n) t). pose proof (mid_nonneg n t).
  pose proof (bnd_le n t ltac:(lia)). rewrite (u32_narrow (t - bnd n t + _)), u32_narrow by lia. lia.
Qed.

Lemma mask_down t j : 0 <= t < 2 ^ 32 → (j < 11)%nat → mask t (half j) = down t (half j) ∧ mask t (2 * half j) = down t (2 * half j).
Proof. intros Ht Hj. by rewrite mask_half, mask_size by done. Qed.

Lemma fixed_points t j : (down t (half j) =? t) || (down t (2 * half j) =? t) = (t mod half j =? 0).
Proof.
  unfold down. pose proof (half_pos j).
  destruct (t mod half j =? 0) eqn:E; propify.
  - rewrite E, Z.sub_0_r, Z.eqb_refl. done.
  - rewrite (proj2 (Z.eqb_neq (t - t mod half j) t)) by lia. simpl. apply Z.eqb_neq. intros Heq. apply E.
    assert (H2 : t mod (2 * half j) = 0) by lia. apply Z.mod_divide in H2 as [q ->]; [|lia].
    replace (q * (2 * half j)) with (2 * q * half j) by lia. by apply Z.mod_mul; lia.
Qed.

(** Below the first spill nothing has left the level; above it the closed form is not clipped. *)
Lemma curSize_early i t : 0 <= t → down t (half i) = 0 → curSize i t = bnd i t.
Proof.
  intros Ht Hd. unfold curSize, mid. rewrite Hd. pose proof (period_pos i). pose proof (alpha_nonneg i). unfold beta.
  case_match; lia.
Qed.
Lemma curSize_late j t :
  (S j < 10)%nat → half (S j) <= t → curSize (S j) t = down t (half j) - down t (half (S j)) + half j.
Proof.
  intros Hj Ht. unfold curSize, mid, bnd. rewrite (proj2 (Nat.ltb_lt _ _)) by lia. simpl period.
  destruct (down_mul (half (S j)) (half_pos _) t) as (q & Hq & Hb).
  pose proof (half_pos (S j)). assert (1 <= q) by nia.
  pose proof (beta_lt_half (S j)) as Hbt. rewrite half_S in Hq |- *.
  pose proof (down_coarse (half j) (half_pos j) t 4 ltac:(lia)).
  unfold beta in *. simpl period in *. pose proof (half_pos j). pose proof (alpha_nonneg (S j)). rewrite half_S in *. nia.
Qed.

Lemma sizeDelta_Val j : (j < 10)%nat → u32 (Z.shiftl 1 (2 * Z.of_nat (S j) - 1)) = half j.
Proof.
  intros Hj. rewrite Z.shiftl_1_l. replace (2 * Z.of_nat (S j) - 1) with (2 * Z.of_nat j + 1) by lia.
  fold (half j). apply u32_narrow. pose proof (half_pos j). unfold half in *.
  assert (2 ^ (2 * Z.of_nat j + 1) <= 2 ^ 21) by (apply Z.pow_le_mono_r; lia). lia.
Qed.

(** The ledger before [t] at which level [S j] last received or was emptied. *)
Lemma previousRelevant t j :
  0 < t < 2 ^ 32 → (S j < 10)%nat →
  Z.max (Z.max (mask (t - 1) (half j)) (mask (t - 1) (2 * half j)))
        (Z.max (mask (t - 1) (half (S j))) (mask (t - 1) (2 * half (S j)))) = down (t - 1) (half j).
Proof.
  intros Ht Hj. destruct (mask_down (t - 1) j) as [-> ->]; [lia|lia|]. destruct (mask_down (t - 1) (S j)) as [-> ->]; [lia|lia|].
  rewrite half_S. replace (2 * (4 * half j)) with (8 * half j) by lia.
  pose proof (down_coarse (half j) (half_pos j) (t - 1)) as Hc. pose proof (Hc 2). pose proof (Hc 4). pose proof (Hc 8). lia.
Qed.

Lemma sizeOf_Curr_S f t j :
  0 < t < 2 ^ 32 → (S j < 11)%nat →
  sizeOf (S f) t Curr (Z.of_nat (S j)) =
  if (S j <? 10)%nat && negb (down t (half (S j)) =? 0) then
    if t mod half (S j) =? 0 then Val (half j)
    else previous ← sizeOf f (down (t - 1) (half j)) Curr (Z.of_nat (S j));
         Val (if t mod half j =? 0 then u32 (previous + half j) else previous)
  else blsize ← sumSizes (sizeOf f t) (S j); Val (u32 (t - blsize)).
Proof.
  intros Ht Hj. cbn [sizeOf]. rewrite (proj2 (Z.eqb_neq t 0)) by lia. cbn [negb assert]. rewrite bind_Val.
  unfold kNumLevels. rewrite (proj2 (Z.ltb_lt _ 11)) by lia. cbn [assert]. rewrite bind_Val.
  rewrite (proj2 (Z.eqb_neq (Z.of_nat (S j)) 0)) by lia. rewrite levelSize_Val, levelHalf_Val, !bind_Val by lia.
  destruct (mask_down t (S j)) as [Em1 Em2]; [lia|lia|]. rewrite Em1, Em2, fixed_points.
  assert (E10 : negb (Z.of_nat (S j) =? 11 - 1) = (S j <? 10)%nat).
  { destruct (S j <? 10)%nat eqn:E; [apply Nat.ltb_lt in E|apply Nat.ltb_ge in E]; destruct (Z.of_nat (S j) =? 11 - 1) eqn:E'; propify; lia || done. }
  rewrite E10, Nat2Z.id. destruct ((S j <? 10)%nat && _) eqn:Ec; [|done].
  apply andb_prop in Ec as [Hlt _]. apply Nat.ltb_lt in Hlt. rewrite sizeDelta_Val by lia.
  destruct (t mod half (S j) =? 0); [done|]. replace (Z.of_nat (S j) - 1) with (Z.of_nat j) by lia.
  rewrite levelSize_Val, levelHalf_Val, !bind_Val, previousRelevant by lia.
  destruct (mask_down t j) as [-> ->]; [lia|lia|]. by rewrite fixed_points.
Qed.

Lemma curSize_emptied j t : (S j < 10)%nat → half (S j) <= t → t mod half (S j) = 0 → curSize (S j) t = half j.
Proof.
  intros Hj Ht Hm. rewrite curSize_late by lia. pose proof (half_pos j).
  assert (Hm' : t mod half j = 0).
  { apply Z.mod_divide in Hm as [z ->]; [|rewrite half_S; lia]. rewrite half_S.
    replace (z * (4 * half j)) with (4 * z * half j) by lia. apply Z.mod_mul. lia. }
  destruct (down_fix _ (half_pos _) t Hm) as [-> _]. destruct (down_fix _ (half_pos _) t Hm') as [-> _]. lia.
Qed.

Lemma multiple_ge h q t : 0 < h → h <= t → q * h <= t < q * h + h → h <= q * h.
Proof.
  intros Hh Ht Hq. destruct (Z_le_gt_dec 1 q) as [H1|H1].
  - rewrite <- (Z.mul_1_l h) at 1. apply Z.mul_le_mono_nonneg_r; lia.
  - assert (q * h <= 0) by (apply Z.mul_nonpos_nonneg; lia). lia.
Qed.
Lemma multiple_step h q r n : 0 < h → r * h - q * (4 * h) < (n + 1) * h → r * h - q * (4 * h) <= n * h.
Proof.
  intros Hh Hlt. replace (r * h - q * (4 * h)) with ((r - 4 * q) * h) in * by lia.
  apply Z.mul_lt_mono_pos_r in Hlt; [|done]. apply Z.mul_le_mono_nonneg_r; lia.
Qed.

(** Going back from a multiple of [half j] to the one before, until level [S j] was emptied: four turns at most. *)
Lemma sizeOf_chain n fuel t j :
  half (S j) <= t < 2 ^ 32 → (S j < 10)%nat → t - down t (half (S j)) <= Z.of_nat n * half j → (n < fuel)%nat →
  sizeOf fuel t Curr (Z.of_nat (S j)) = Val (curSize (S j) t).
Proof.
  revert fuel t. induction n as [|n IH]; intros fuel t Ht Hj Hd Hf; (destruct fuel as [|f]; [lia|]).
  all: pose proof (half_pos j) as Hh; pose proof (half_pos (S j)) as HhS; pose proof (half_S j) as HS.
  all: destruct (down_mul (half (S j)) (half_pos _) t) as (q & Hq & Hb); pose proof (multiple_ge _ _ _ HhS (proj1 Ht) Hb) as Hqh.
  all: rewrite sizeOf_Curr_S, (proj2 (Nat.ltb_lt (S j) 10)), (proj2 (Z.eqb_neq (down t (half (S j))) 0)) by lia; simpl negb; cbn [andb].
  all: destruct (t mod half (S j) =? 0) eqn:Em; propify; [by rewrite curSize_emptied by lia|].
  { exfalso. apply Em. unfold down in Hd. pose proof (Z.mod_pos_bound t (half (S j))). lia. }
  pose proof (down_pred _ (half_pos (S j)) t Em) as Hpr.
  pose proof (down_coarse (half j) (half_pos j) (t - 1) 4 ltac:(lia)) as Hco. rewrite <- HS, Hpr, Hq in Hco.
  destruct (down_mul (half j) (half_pos j) (t - 1)) as (r & Hr & Hrb). rewrite Hr in Hco |- *.
  assert (Hdown : down (r * half j) (half (S j)) = down t (half (S j))) by (rewrite Hq; apply down_char; lia).
  rewrite (IH f (r * half j)), bind_Val; [|lia|done| |lia].
  - rewrite !curSize_late by lia. rewrite Hdown, (down_char (half j) (half_pos j) (r * half j) r) by lia.
    destruct (t mod half j =? 0) eqn:Ej; propify.
    + destruct (down_fix _ (half_pos j) t Ej) as [E1 E2]. rewrite u32_narrow by lia. f_equal. lia.
    + rewrite <- (down_pred _ (half_pos j) t Ej), Hr. done.
  - rewrite Hdown, Hq, HS. apply (multiple_step (half j) q r (Z.of_nat n)); [done|]. lia.
Qed.

Lemma down_zero_or t p : 0 < p → 0 <= t → (down t p = 0 ∧ t < p) ∨ p <= down t p.
Proof.
  intros Hp Ht. destruct (down_mul p Hp t) as (q & Hq & Hb). rewrite Hq.
  destruct (Z_le_gt_dec p t) as [Hle|Hgt]; [right; by apply (multiple_ge p q t)|].
  left. assert (q = 0) as ->; [|lia].
  destruct (Z.lt_trichotomy q 0) as [Hneg|[->|Hpos]]; [|done|].
  - assert (q * p + p <= 0); [|lia]. replace (q * p + p) with ((q + 1) * p) by lia. apply Z.mul_nonpos_nonneg; lia.
  - assert (1 * p <= q * p) by (apply Z.mul_le_mono_nonneg_r; lia). lia.
Qed.

Lemma curSize_0 t : 0 < t → curSize 0 t = if t =? 1 then 1 else 1 + t mod 2.
Proof.
  intros Ht. unfold curSize. rewrite bnd_0 by lia. unfold mid, down, beta. simpl. change (half 0) with 2.
  pose proof (Z.mod_pos_bound t 2). destruct (t =? 1) eqn:E; propify; [by subst|].
  assert (t mod 2 < 2) by lia. rewrite Z.max_r; [lia|]. assert (2 <= t) by lia. lia.
Qed.

Lemma snapSize_late i t : (i < 10)%nat → 2 * half i <= t → snapSize i t = half i.
Proof.
  intros Hi Ht. unfold snapSize, mid, bnd. rewrite (proj2 (Nat.ltb_lt _ _)) by lia. rewrite alpha_S. simpl period.
  pose proof (half_pos i). pose proof (alpha_le i) as Ha. rewrite alpha_S in Ha.
  destruct (down_mul (half i) (half_pos i) t) as (q & Hq & Hb). rewrite Hq.
  assert (2 * half i <= q * half i).
  { apply Z.mul_le_mono_nonneg_r; [lia|]. destruct (Z_le_gt_dec 2 q); [done|].
    assert (q * half i <= 1 * half i) by (apply Z.mul_le_mono_nonneg_r; lia). lia. }
  pose proof (beta_lt_half i). lia.
Qed.
Lemma snapSize_early i t : (i < 10)%nat → 0 <= t < 2 * half i → snapSize i t = mid i t.
Proof.
  intros Hi Ht. unfold snapSize. rewrite (proj2 (Nat.ltb_lt _ _)) by lia.
  assert (bnd (S i) t = 0); [|lia]. unfold bnd. rewrite alpha_S. simpl period. pose proof (half_pos i).
  assert (down t (half i) <= half i).
  { destruct (down_mul (half i) (half_pos i) t) as (q & Hq & Hb). rewrite Hq.
    rewrite <- (Z.mul_1_l (half i)) at 2. apply Z.mul_le_mono_nonneg_r; [lia|].
    destruct (Z_le_gt_dec q 1); [done|]. assert (2 * half i <= q * half i) by (apply Z.mul_le_mono_nonneg_r; lia). lia. }
  unfold beta. pose proof (period_pos i). pose proof (alpha_nonneg i). lia.
Qed.

Lemma sizeOf_Curr_Val t i fuel :
  0 < t < 2 ^ 32 → (i <= 10)%nat → (6 + 2 * i <= fuel)%nat →
  (∀ l f, (l < i)%nat → (7 + 2 * l <= f)%nat →
     sizeOf f t Curr (Z.of_nat l) = Val (curSize l t) ∧ sizeOf f t Snap (Z.of_nat l) = Val (snapSize l t)) →
  sizeOf fuel t Curr (Z.of_nat i) = Val (curSize i t).
Proof.
  intros Ht Hi Hf IH. destruct fuel as [|f]; [lia|]. destruct i as [|j].
  { rewrite curSize_0 by lia. cbn [sizeOf]. rewrite (proj2 (Z.eqb_neq t 0)) by lia. done. }
  destruct ((S j <? 10)%nat && negb (down t (half (S j)) =? 0)) eqn:Ec.
  - apply andb_prop in Ec as [H1 H2]. apply Nat.ltb_lt in H1. propify.
    destruct (down_zero_or t _ (half_pos (S j)) ltac:(lia)) as [[? _]|Hd]; [done|].
    pose proof (down_nonneg _ (half_pos (S j)) t ltac:(lia)).
    apply (sizeOf_chain 4); [lia|done| |lia]. pose proof (half_S j).
    unfold down. pose proof (Z.mod_pos_bound t (half (S j)) (half_pos _)). lia.
  - rewrite sizeOf_Curr_S, Ec by lia.
    rewrite (sumSizes_Val _ (S j) t), bind_Val by (try lia; intros l Hl; apply IH; lia).
    f_equal. pose proof (bnd_nonneg (S j) t). pose proof (bnd_le (S j) t ltac:(lia)). rewrite u32_narrow by lia.
    assert (curSize (S j) t = bnd (S j) t); [|lia].
    apply andb_false_iff in Ec as [H1|H1]; propify; [|apply curSize_early; lia].
    unfold curSize, mid. rewrite H1. lia.
Qed.

Lemma sizeOf_Val i t fuel :
  0 < t < 2 ^ 32 → (i <= 10)%nat → (7 + 2 * i <= fuel)%nat →
  sizeOf fuel t Curr (Z.of_nat i) = Val (curSize i t) ∧ sizeOf fuel t Snap (Z.of_nat i) = Val (snapSize i t).
Proof.
  intros Ht. revert fuel. induction (lt_wf i) as [i _ IH]. intros fuel Hi Hf.
  assert (Hlow : ∀ l f, (l < i)%nat → (7 + 2 * l <= f)%nat →
     sizeOf f t Curr (Z.of_nat l) = Val (curSize l t) ∧ sizeOf f t Snap (Z.of_nat l) = Val (snapSize l t))
    by (intros; apply IH; lia).
  split; [apply sizeOf_Curr_Val; [done|lia|lia|done]|]. destruct fuel as [|f]; [lia|]. cbn [sizeOf].
  rewrite (proj2 (Z.eqb_neq t 0)) by lia. cbn [negb assert]. rewrite bind_Val. unfold kNumLevels.
  rewrite (proj2 (Z.ltb_lt _ 11)) by lia. cbn [assert]. rewrite bind_Val.
  destruct (Z.of_nat i =? 11 - 1) eqn:E10; propify.
  { assert (i = 10%nat) as -> by lia. done. }
  rewrite levelSize_Val, bind_Val, (proj2 (mask_down t i ltac:(lia) ltac:(lia))) by lia.
  destruct (down_zero_or t (2 * half i) ltac:(pose proof (half_pos i); lia) ltac:(lia)) as [[Hd Hlt]|Hd].
  - rewrite Hd. simpl negb. cbn [andb]. rewrite Nat2Z.id, (sumSizes_Val _ i t), bind_Val by (try lia; intros l Hl; apply Hlow; lia).
    rewrite sizeOf_Curr_Val, bind_Val by (lia || done). rewrite snapSize_early by lia. unfold mret, Checked_ret. f_equal.
    unfold curSize. pose proof (mid_le_bnd i t). pose proof (mid_nonneg i t). pose proof (bnd_le i t ltac:(lia)).
    rewrite (u32_narrow (t - bnd i t + _)), u32_narrow by lia. lia.
  - pose proof (half_pos i). rewrite (proj2 (Z.eqb_neq _ 0)) by lia. simpl negb.
    pose proof (down_nonneg (2 * half i) ltac:(lia) t ltac:(lia)). rewrite snapSize_late by lia. by rewrite levelHalf_Val by lia.
Qed.

Lemma sizes_Val i t :
  0 < t < 2 ^ 32 → (i <= 10)%nat →
  sizeOfCurr t (Z.of_nat i) = Val (curSize i t) ∧ sizeOfSnap t (Z.of_nat i) = Val (snapSize i t).
Proof. intros Ht Hi. apply sizeOf_Val; [done|done|unfold sizeFuel; lia]. Qed.

Lemma countDown_Val t n : 0 < t < 2 ^ 32 → (n <= 10)%nat → countDown t n = Val (bnd n t).
Proof.
  intros Ht Hn. induction n as [|n IH]; [simpl; by rewrite bnd_0 by lia|].
  cbn [countDown]. rewrite IH, bind_Val by lia. destruct (sizes_Val n t) as [-> ->]; [done|lia|]. rewrite !bind_Val.
  unfold mret, Checked_ret. f_equal. unfold curSize, snapSize. rewrite (proj2 (Nat.ltb_lt n 10)) by lia.
  pose proof (mid_le_bnd n t). pose proof (bnd_S_le_mid n t ltac:(lia)). pose proof (bnd_nonneg (S n) t). pose proof (mid_nonneg n t).
  pose proof (bnd_le n t ltac:(lia)). rewrite (u32_narrow (bnd n t - _)), u32_narrow by lia. lia.
Qed.

Lemma oldest_Val i t :
  0 < t < 2 ^ 32 → (i <= 10)%nat →
  oldestLedgerInCurr t (Z.of_nat i) = Val (if curSize i t =? 0 then UINT32_MAX else u32 (mid i t + 1)) ∧
  oldestLedgerInSnap t (Z.of_nat i) = Val (if snapSize i t =? 0 then UINT32_MAX else u32 (bnd (S i) t + 1)).
Proof.
  intros Ht Hi. unfold oldestLedgerInCurr, oldestLedgerInSnap. rewrite (proj2 (Z.eqb_neq t 0)) by lia. cbn [negb assert].
  rewrite !bind_Val. unfold kNumLevels. rewrite (proj2 (Z.ltb_lt _ 11)) by lia. cbn [assert]. rewrite !bind_Val.
  destruct (sizes_Val i t) as [-> ->]; [done|done|]. rewrite !bind_Val, Nat2Z.id. split.
  - destruct (curSize i t =? 0); [done|]. rewrite countDown_Val, bind_Val by lia. unfold mret, Checked_ret. do 2 f_equal.
    unfold curSize. pose proof (mid_nonneg i t). pose proof (mid_le_bnd i t). pose proof (bnd_le i t ltac:(lia)). rewrite u32_narrow by lia. lia.
  - destruct (decide (i = 10%nat)) as [->|Hne]; [done|]. destruct (snapSize i t =? 0); [done|].
    rewrite countDown_Val, bind_Val by lia. done.
Qed.

(** ** The ledgers of the entries *)

Definition within (b : Bucket) (lo hi : Z) : Prop := ∀ x, payload b x → lo < lastModifiedLedgerSeq x <= hi.

Definition Ranged (t : Z) (levels : BucketList) : Prop :=
  ∀ i, (i < 11)%nat → within (mCurr (lev levels i)) (mid i t) (bnd i t) ∧
    ((i < 10)%nat → within (mSnap (lev levels i)) (bnd (S i) t) (mid i t)).

(** The entries of a batch carry the number of their ledger. *)
Definition stamped (ledger : Z) (b : Batch) : Prop :=
  ∀ x, x ∈ b_init b ++ b_live b → lastModifiedLedgerSeq x = ledger.

Lemma bnd_mono_step i t : (i < 11)%nat → 0 <= t → bnd i t <= bnd i (t + 1).
Proof.
  intros Hi Ht. destruct i as [|j]; [rewrite !bnd_0 by lia; lia|].
  rewrite (bnd_step j (t + 1)) by lia. replace (t + 1 - 1) with t by lia. case_match; [|lia]. by apply bnd_S_le_mid; lia.
Qed.
Lemma mid_step' i t : (i < 11)%nat → mid i (t + 1) = if spills (t + 1) i then bnd i t else mid i t.
Proof.
  intros Hi. destruct (decide (i = 10%nat)) as [->|Hne]; [done|]. rewrite mid_step by lia. by replace (t + 1 - 1) with t by lia.
Qed.

Lemma fresh_payload pv i l d b x :
  NoDup (batchKeys i l d) → fresh pv i l d = Val b → payload b x → x ∈ i ++ l.
Proof.
  intros Hnd Hf Hx. destruct (fresh_entries pv i l d Hnd) as (b' & Hf' & Hok & _ & He). assert (b' = b) as -> by congruence.
  apply payload_entryAt in Hx as (k & e & Hek & Hex); [|done]. apply He in Hek as [Hin _].
  unfold batchEntries in Hin. rewrite !elem_of_app, !list_elem_of_fmap in Hin. rewrite elem_of_app.
  destruct Hin as [(y & -> & Hy)|[(y & -> & Hy)|(y & -> & Hy)]]; [|by simplify_eq/=; auto|done].
  left. destruct (11 <=? pv); by simplify_eq/=.
Qed.

Lemma Ranged_step t levels levels' b bt :
  0 <= t → Ranged t levels → (∀ x, payload b x → x ∈ b_init bt ++ b_live bt) → stamped (t + 1) bt →
  (∀ m, (m < 11)%nat → mSnap (lev levels' m) = snapAfter (t + 1) levels m ∧
     ∀ x, payload (mCurr (lev levels' m)) x → flowsTo (t + 1) levels m x ∨ (m = 0%nat ∧ payload b x)) →
  Ranged (t + 1) levels'.
Proof.
  intros Ht HR Hb Hst Hfl i Hi. destruct (Hfl i Hi) as [Hsn Hcu]. destruct (HR i Hi) as [Rc Rs]. split.
  - intros x Hx. rewrite mid_step' by done. pose proof (bnd_mono_step i t Hi Ht). pose proof (mid_le_bnd i t).
    destruct (Hcu x Hx) as [[[Hsp Hp]|(j & -> & Hsp & Hp)]|[-> Hp]].
    + rewrite Hsp. specialize (Rc x Hp). lia.
    + destruct (HR j) as [_ Rj]; [lia|]. specialize (Rj ltac:(lia) x Hp).
      rewrite (bnd_step j (t + 1)), Hsp by lia. replace (t + 1 - 1) with t by lia. case_match; lia.
    + rewrite (Hst x) by auto. rewrite !bnd_0 by lia. pose proof (bnd_0 t Ht). pose proof (mid_le_bnd 0 t). case_match; lia.
  - intros Hi10. rewrite Hsn. unfold snapAfter. rewrite mid_step', (bnd_step i (t + 1)) by lia. replace (t + 1 - 1) with t by lia.
    destruct (spills (t + 1) i); [exact Rc|by apply Rs].
Qed.

Section Ranges.
Context `{HF : FileHash}.

Lemma closeLedgers_ranged pv ledger levels (st : LedgerMap) bs :
  0 <= pv → 0 <= ledger → ledger + Z.of_nat (length bs) < 2 ^ 32 → ListInv pv ledger levels (λ k, st !! k) → goodBatches pv st bs →
  Ranged ledger levels → (∀ n b, bs !! n = Some b → stamped (ledger + 1 + Z.of_nat n) b) →
  ∃ levels', closeLedgers (ledger + 1) levels bs = Val levels' ∧ Ranged (ledger + Z.of_nat (length bs)) levels'.
Proof.
  revert pv ledger levels st. induction bs as [|b bs IH]; intros pv ledger levels st Hpv Hl Hlen Hinv Hgood HR Hst.
  { exists levels. split; [done|]. by replace (ledger + Z.of_nat (length [])) with ledger by (simpl; lia). }
  destruct Hgood as [(Hle & Hnd & Hi) Hgood]. cbn [length] in Hlen.
  destruct (addBatch_inv pv (b_protocol b) (ledger + 1) levels (λ k, st !! k) (b_init b) (b_live b) (b_dead b))
    as (bucket & levels1 & Hf & Ha & Hinv1 & Hflow); [done|done|lia|by replace (ledger + 1 - 1) with ledger by lia|done|done|].
  destruct (fresh_entries (b_protocol b) (b_init b) (b_live b) (b_dead b) Hnd) as (bucket' & Hf' & _ & _ & He).
  assert (bucket' = bucket) as -> by congruence.
  destruct (IH (b_protocol b) (ledger + 1) levels1 (applyBatch b st)) as (levels' & Hc & HR'); [lia..| |done| | |].
  { eapply ListInv_ext, Hinv1. intros k. by eapply changed_applyBatch. }
  { eapply Ranged_step; [done|done| | |exact Hflow].
    - intros x. by eapply fresh_payload.
    - specialize (Hst 0%nat b eq_refl). by rewrite Z.add_0_r in Hst. }
  { intros n c Hn. specialize (Hst (S n) c Hn). by replace (ledger + 1 + 1 + Z.of_nat n) with (ledger + 1 + Z.of_nat (S n)) by lia. }
  exists levels'. cbn [closeLedgers length]. rewrite Ha, bind_Val, Hc. split; [done|].
  by replace (ledger + Z.of_nat (S (length bs))) with (ledger + 1 + Z.of_nat (length bs)) by lia.
Qed.

Lemma newBucketList_ranged : Ranged 0 newBucketList.
Proof.
  assert (Hc : ∀ i, mCurr (lev newBucketList i) = [] ∧ mSnap (lev newBucketList i) = []).
  { intros i. do 11 (destruct i as [|i]; [done|]). done. }
  intros i Hi. destruct (Hc i) as [-> ->]. split; [|intros _]; by intros x (e & He%elem_of_nil & _).
Qed.

(** Curr and snap of a level, as the loops add them up. *)
Definition sizesAt (t : Z) (w : Which) (l : Z) : Checked Z :=
  match w with Curr => sizeOfCurr t l | Snap => sizeOfSnap t l end.

Lemma sumSizes_S f n :
  sumSizes f (S n) =
  (blsize ← sumSizes f n; curr ← f Curr (Z.of_nat n); sn ← f Snap (Z.of_nat n); mret (u32 (u32 (blsize + curr) + sn))).
Proof. done. Qed.

Lemma total_size t : 0 < t < 2 ^ 32 → sumSizes (sizesAt t) 11 = Val t.
Proof.
  intros Ht. rewrite (sumSizes_S _ 10), (sumSizes_Val _ 10 t), bind_Val by (try lia; intros l Hl; apply sizes_Val; lia).
  unfold sizesAt. destruct (sizes_Val 10 t) as [-> ->]; [done|lia|]. rewrite !bind_Val. unfold mret, Checked_ret. f_equal.
  unfold curSize, snapSize, mid. cbn [Nat.ltb Nat.leb]. pose proof (bnd_nonneg 10 t). pose proof (bnd_le 10 t ltac:(lia)).
  rewrite Z.sub_0_r, Z.add_0_r. rewrite (u32_narrow (t - bnd 10 t + bnd 10 t)), u32_narrow by lia. lia.
Qed.

Lemma range_of_sizes b lo hi size (oldest : Z) :
  0 <= lo → hi < 2 ^ 32 → size = hi - lo → within b lo hi →
  oldest = (if size =? 0 then UINT32_MAX else u32 (lo + 1)) →
  ∀ x, payload b x → 0 < size ∧ oldest <= lastModifiedLedgerSeq x < oldest + size.
Proof.
  intros Hlo Hhi -> Hw -> x Hx. specialize (Hw x Hx). rewrite (proj2 (Z.eqb_neq _ _)) by lia. rewrite u32_narrow by lia. lia.
Qed.

(** C26: the functions that catchup and the consistency checks rely on describe the list that [addBatch] builds: for
    every number of closed ledgers they return, the sizes of all buckets add up to that number, and every live entry of
    a bucket was last modified in the ledgers from the oldest one of the bucket on, as many as its size says; a bucket
    of size 0 has no live entry. *)
Theorem bucket_ledger_ranges (bs : list Batch) :
  bs ≠ [] → Z.of_nat (length bs) < 2 ^ 32 → goodBatches 0 ∅ bs →
  (∀ n b, bs !! n = Some b → stamped (Z.of_nat n + 1) b) →
  let t := Z.of_nat (length bs) in
  sumSizes (sizesAt t) 11 = Val t ∧
  ∃ levels, closeLedgers 1 newBucketList bs = Val levels ∧
    ∀ i l, levels !! i = Some l → ∃ c s oc os,
      sizeOfCurr t (Z.of_nat i) = Val c ∧ sizeOfSnap t (Z.of_nat i) = Val s ∧
      oldestLedgerInCurr t (Z.of_nat i) = Val oc ∧ oldestLedgerInSnap t (Z.of_nat i) = Val os ∧
      (∀ x, payload (mCurr l) x → 0 < c ∧ oc <= lastModifiedLedgerSeq x < oc + c) ∧
      (∀ x, payload (mSnap l) x → 0 < s ∧ os <= lastModifiedLedgerSeq x < os + s).
Proof.
  intros Hne Hlen Hgood Hst t. assert (Ht : 0 < t < 2 ^ 32) by (destruct bs; [done|unfold t in *; simpl in *; lia]).
  split; [by apply total_size|].
  destruct (closeLedgers_ranged 0 0 newBucketList ∅ bs) as (levels & Hc & HR); [lia..|apply newBucketList_inv|done|apply newBucketList_ranged| |].
  { intros n b Hn. by replace (0 + 1 + Z.of_nat n) with (Z.of_nat n + 1) by lia; apply Hst. }
  change (0 + Z.of_nat (length bs)) with t in HR.
  destruct (closeLedgers_inv 0 0 newBucketList ∅ bs) as (levels' & Hc' & [Hinv _]); [lia..|apply newBucketList_inv|done|].
  assert (levels' = levels) as -> by congruence. exists levels. split; [done|]. intros i l Hl.
  pose proof (lookup_lt_Some _ _ _ Hl) as Hi. rewrite (inv_length _ _ _ Hinv) in Hi.
  destruct (sizes_Val i t Ht ltac:(lia)) as [Hcs Hss]. destruct (oldest_Val i t Ht ltac:(lia)) as [Hoc Hos].
  eexists _, _, _, _. split_and!; [exact Hcs|exact Hss|exact Hoc|exact Hos|..].
  all: assert (El : lev levels i = l) by (unfold lev; by rewrite Hl); destruct (HR i Hi) as [Rc Rs]; rewrite El in Rc, Rs.
  all: pose proof (mid_nonneg i t); pose proof (mid_le_bnd i t); pose proof (bnd_le i t ltac:(lia)).
  - apply (range_of_sizes _ (mid i t) (bnd i t)); [lia|lia|done|done|done].
  - destruct (decide (i = 10%nat)) as [->|Hn10].
    + intros x Hx. pose proof (inv_last _ _ _ Hinv) as H10. rewrite El in H10. rewrite H10 in Hx. by destruct Hx as (e & He%elem_of_nil & _).
    + apply (range_of_sizes _ (bnd (S i) t) (mid i t)); [apply bnd_nonneg|lia| |apply Rs; lia|done].
      unfold snapSize. by rewrite (proj2 (Nat.ltb_lt _ _)) by lia.
Qed.
End Ranges.

(** ** An example *)

#[local] Existing Instance sampleHash.

Lemma bucket_ledger_ranges_witness :
  sumSizes (sizesAt 9) 11 = Val 9 ∧
  ∃ levels l, closeLedgers 1 newBucketList sampleHistory = Val levels ∧ levels !! 1%nat = Some l ∧
    sizeOfSnap 9 1 = Val 3 ∧ oldestLedgerInSnap 9 1 = Val 1 ∧
    ∀ x, payload (mSnap l) x → 1 <= lastModifiedLedgerSeq x < 1 + 3.
Proof.
  destruct (bucket_ledger_ranges sampleHistory) as (Hsum & levels & Hc & Hr); [done|done|apply sampleHistory_good| |].
  { intros n b Hb. do 9 (destruct n as [|n]; [injection Hb as <-; intros x Hx; simpl in Hx; set_solver|]). done. }
  split; [exact Hsum|]. destruct (levels !! 1%nat) as [l|] eqn:El.
  2:{ exfalso. clear Hr. vm_compute in Hc. injection Hc as <-. discriminate. }
  exists levels, l. destruct (Hr 1%nat l El) as (c & s & oc & os & _ & Hs & _ & Ho & _ & Hp).
  assert (s = 3) as -> by (vm_compute in Hs; congruence). assert (os = 1) as -> by (vm_compute in Ho; congruence).
  split_and!; [exact Hc|exact El|exact Hs|exact Ho|]. intros x Hx. by apply Hp.
Defined.
