(* ===== verification/BucketApply.v ===== *)
(** * Applying buckets to the database

    A node that joins the network takes its ledger from the buckets of another one: [bucket/BucketApplicator.cpp],
    [Bucket::apply], [catchup/ApplyBucketsWork.cpp], and the check of
    [invariant/BucketListIsConsistentWithDatabase.cpp] that runs after every bucket. The buckets are applied from the
    lowest level upwards, through a ledger transaction per batch of entries, and levels that agree with the local list
    are skipped.

    The counters of [BucketApplicator::Counters], progress figures, meters and log lines are left out; of the total
    size only what the assertion in [advance] needs is kept. The files in the bucket directory and those that were
    downloaded are parameters, as is the length of a file. *)
From stdpp Require Import base list gmap strings.
From Stdlib Require Import ZArith Lia.
From S2P Require Import Prelude Numeric LedgerEntries LedgerTxn TrustLines Buckets BucketList.

(** Calls of code that does not touch the ledger. *)
Definition checked {S A} (m : Checked A) : M S A := λ s,
  match m with
  | Val a => Ok a s
  | Throws w => Throw w s
  | Asserts w => Crash w s
  | OutOfFuel => NoFuel
  end.

(** ** The root of the ledger *)

Section Root.
Context `{HashOrder}.

Definition rootThrowIfChild : M Ledger unit :=
  s ← get;
  match txns s with [] => mret tt | _ :: _ => throw "LedgerTxnRoot has child" end.

(** The tables: [DELETE ... WHERE lastmodified >= ledger]. *)
Definition deleteObjectsModifiedOnOrAfterLedger (ledger : Z) : M Ledger unit :=
  rootThrowIfChild;;
  modify (λ s, mkLedger (txns s)
    (mkRoot (rootHeader (root s)) (filter (λ kv, lastModifiedLedgerSeq kv.2 < ledger) (rootEntries (root s)))) (nextImpl s)).

(** [LedgerRange]: the constructor. *)
Definition newLedgerRange (first last : Z) : Checked (Z * Z) :=
  _ ← assert (0 <? first) "mFirst > 0";
  _ ← assert (first <=? last) "mLast >= mFirst";
  mret (first, last).

(** The rows of a table in a range of ledgers, which the query takes as signed numbers. *)
Definition countObjects (type : Z) (ledgers : Z * Z) : M Ledger Z :=
  rootThrowIfChild;;
  s ← get;
  let first := s32 ledgers.1 in
  let last := s32 ledgers.2 in
  mret (Z.of_nat (size (filter (λ kv, ledgerEntryType kv.1 = type ∧ first <= lastModifiedLedgerSeq kv.2 ∧ lastModifiedLedgerSeq kv.2 <= last)
                          (rootEntries (root s))))).

(** ** The applicator *)

Definition LEDGER_ENTRY_BATCH_COMMIT_SIZE : Z := 4095.

Record BucketApplicator := mkApplicator { mMaxProtocolVersion : Z; mBucketIter : BucketInputIterator; mCount : Z }.

Definition newBucketApplicator (maxProtocolVersion : Z) (bucket : Bucket) : Checked BucketApplicator :=
  iter ← openBucket bucket;
  if maxProtocolVersion <? mMetadata iter then Throws "bucket protocol version exceeds maxProtocolVersion"
  else mret (mkApplicator maxProtocolVersion iter 0).

Definition applicatorAtEntry (a : BucketApplicator) : bool := atEntry (mBucketIter a).

(** The loop of [advance]. The [break] leaves the iterator at the entry that was applied last. *)
Fixpoint applyEntries (fuel : nat) (ltx : nat) (maxProtocolVersion count : Z) (iter : BucketInputIterator) :
    M Ledger (BucketInputIterator * Z) :=
  match Buckets.mEntry iter with
  | None => mret (iter, count)
  | Some e =>
      match fuel with
      | O => nofuel
      | S fuel =>
          checked (checkProtocolLegality e maxProtocolVersion);;
          match e with
          | LIVEENTRY x | INITENTRY x => createOrUpdateWithoutLoading ltx x
          | DEADENTRY k => eraseWithoutLoading ltx k
          | METAENTRY _ => throw "Malformed bucket: unexpected non-INIT/LIVE/DEAD entry."
          end;;
          let count := count + 1 in
          if LEDGER_ENTRY_BATCH_COMMIT_SIZE <? count then mret (iter, count)
          else
            iter ← checked (next iter);
            applyEntries fuel ltx maxProtocolVersion count iter
      end
  end.

Definition advance (a : BucketApplicator) : M Ledger (BucketApplicator * Z) :=
  ltx ← newLedgerTxn None false;
  scoped (destroyTxn ltx) (
    '(iter, count) ← applyEntries (S (length (mIn (mBucketIter a)))) ltx (mMaxProtocolVersion a) 0 (mBucketIter a);
    LedgerTxn.commit ltx;;
    mret (mkApplicator (mMaxProtocolVersion a) iter (mCount a + count), count)).

(** [while (applicator) applicator.advance(counters)]: every turn but the last moves on by
    [LEDGER_ENTRY_BATCH_COMMIT_SIZE] entries. *)
Fixpoint advanceAll (fuel : nat) (a : BucketApplicator) : M Ledger unit :=
  if applicatorAtEntry a then
    match fuel with
    | O => nofuel
    | S fuel => '(a, _) ← advance a; advanceAll fuel a
    end
  else mret tt.

(** [Bucket::apply]. *)
Definition apply (protocolVersion : Z) (bucket : Bucket) : M Ledger unit :=
  applicator ← checked (newBucketApplicator protocolVersion bucket);
  advanceAll (length bucket) applicator.

(** ** The check after a bucket *)

(** What is wrong, if anything is. *)
Notation Complaint := (option string) (only parsing).

Definition checkLiveAgainstDatabase (ltx : nat) (entry : LedgerEntry) : M Ledger Complaint :=
  fromDb ← loadWithoutRecord ltx (LedgerEntryKey entry);
  scoped (destroyConst fromDb)
    match fromDb with
    | None => mret (Some "Inconsistent state between objects (not found in database)")
    | Some _ =>
        e ← constCurrent fromDb;
        mret (if decide (e = entry) then None else Some "Inconsistent state between objects")
    end.

Definition checkDeadAgainstDatabase (ltx : nat) (key : LedgerKey) : M Ledger Complaint :=
  fromDb ← loadWithoutRecord ltx key;
  scoped (destroyConst fromDb)
    match fromDb with
    | None => mret None
    | Some _ => mret (Some "Entry with type DEADENTRY found in database")
    end.

(** The numbers of accounts, trust lines, offers and data entries. *)
Record Counts := mkCounts { nAccounts : Z; nTrustLines : Z; nOffers : Z; nData : Z }.

Definition countEntry (e : LedgerEntry) (c : Counts) : Counts :=
  match data e with
  | Account _ => mkCounts (nAccounts c + 1) (nTrustLines c) (nOffers c) (nData c)
  | TrustLine _ => mkCounts (nAccounts c) (nTrustLines c + 1) (nOffers c) (nData c)
  | Offer _ => mkCounts (nAccounts c) (nTrustLines c) (nOffers c + 1) (nData c)
  | Data _ => mkCounts (nAccounts c) (nTrustLines c) (nOffers c) (nData c + 1)
  end.

Fixpoint checkEntries (fuel : nat) (ltx : nat) (oldestLedger newestLedger : Z) (previousEntry : option BucketEntry)
    (counts : Counts) (iter : BucketInputIterator) : M Ledger (Counts + string) :=
  match Buckets.mEntry iter with
  | None => mret (inl counts)
  | Some e =>
      match fuel with
      | O => nofuel
      | S fuel =>
          if match previousEntry with Some p => negb (BucketEntryIdCmp p e) | None => false end
          then mret (inr "Bucket has out of order entries")
          else
            let go counts := (iter ← checked (next iter); checkEntries fuel ltx oldestLedger newestLedger (Some e) counts iter) in
            match e with
            | LIVEENTRY x | INITENTRY x =>
                if lastModifiedLedgerSeq x <? oldestLedger then mret (inr "lastModifiedLedgerSeq beneath lower bound for this bucket")
                else if newestLedger <? lastModifiedLedgerSeq x then mret (inr "lastModifiedLedgerSeq above upper bound for this bucket")
                else
                  s ← checkLiveAgainstDatabase ltx x;
                  match s with Some s => mret (inr s) | None => go (countEntry x counts) end
            | DEADENTRY k =>
                s ← checkDeadAgainstDatabase ltx k;
                match s with Some s => mret (inr s) | None => go counts end
            | METAENTRY _ => go counts
            end
      end
  end.

Definition checkCount (type : Z) (name : string) (n : Z) (range : Z * Z) (rest : M Ledger Complaint) : M Ledger Complaint :=
  inDb ← countObjects type range;
  if negb (inDb =? n) then mret (Some ("Incorrect " +:+ name +:+ " count")) else rest.

Definition checkConsistentWithDatabase (bucket : Bucket) (oldestLedger newestLedger : Z) : M Ledger Complaint :=
  ltx ← newLedgerTxn None true;
  r ← scoped (destroyTxn ltx) (
        iter ← checked (openBucket bucket);
        checkEntries (S (length bucket)) ltx oldestLedger newestLedger None (mkCounts 0 0 0 0) iter);
  match r with
  | inr s => mret (Some s)
  | inl c =>
      range ← checked (newLedgerRange oldestLedger newestLedger);
      checkCount 0 "Account" (nAccounts c) range (
      checkCount 1 "TrustLine" (nTrustLines c) range (
      checkCount 2 "Offer" (nOffers c) range (
      checkCount 3 "Data" (nData c) range (mret None))))
  end.

(** [InvariantManagerImpl::checkOnBucketApply]: the other invariants have nothing to say about buckets, and this one
    is strict. *)
Definition checkOnBucketApply (enabled : bool) (bucket : Bucket) (ledger level : Z) (isCurr : bool) : M Ledger unit :=
  oldestLedger ← checked (if isCurr then oldestLedgerInCurr ledger level else oldestLedgerInSnap ledger level);
  size ← checked (if isCurr then sizeOfCurr ledger level else sizeOfSnap ledger level);
  let newestLedger := u32 (u32 (oldestLedger - 1) + size) in
  if enabled then
    result ← checkConsistentWithDatabase bucket oldestLedger newestLedger;
    match result with Some _ => throw "InvariantDoesNotHold" | None => mret tt end
  else mret tt.
End Root.

(** ** The work *)

Inductive WorkState := WORK_RUNNING | WORK_SUCCESS.

(** [w_snap], [w_curr]: the bucket with its applicator, while there is one. *)
Record ApplyBucketsWork := mkWork {
  w_level : nat; w_applying : bool; w_totalSize : Z;
  w_snap : option (Bucket * BucketApplicator); w_curr : option (Bucket * BucketApplicator) }.

Record Node := mkNode { n_ledger : Ledger; n_list : BucketList; n_work : ApplyBucketsWork }.

Definition inLedger {A} (m : M Ledger A) : M Node A := λ s,
  match m (n_ledger s) with
  | Ok a l => Ok a (mkNode l (n_list s) (n_work s))
  | Throw w l => Throw w (mkNode l (n_list s) (n_work s))
  | Crash w l => Crash w (mkNode l (n_list s) (n_work s))
  | NoFuel => NoFuel
  end.
Definition getWork : M Node ApplyBucketsWork := λ s, Ok (n_work s) s.
Definition putWork (w : ApplyBucketsWork) : M Node unit := modify (λ s, mkNode (n_ledger s) (n_list s) w).

(** The parameters of the work: the state to apply, with its ledger and protocol, the buckets that were downloaded,
    the bucket directory, and whether the invariant is enabled. *)
Record ApplyParams := mkParams {
  p_state : list HistoryStateBucket; p_currentLedger : Z; p_maxProtocolVersion : Z;
  p_buckets : gmap Z (list BucketEntry); p_files : Z → option (list BucketEntry); p_invariant : bool }.

(** The length of a bucket's file. *)
Class FileSize := fileSize : list BucketEntry → Z.

Section Work.
Context `{HashOrder} `{FileHash} `{FileSize} (P : ApplyParams).

Definition getSize (b : Bucket) : Z := match b with [] => 0 | _ => fileSize b end.

Definition getBucketOf (hash : Z) : M Node Bucket :=
  match (match p_buckets P !! hash with Some b => Some b | None => getBucketByHash (p_files P) hash end) with
  | Some b => mret b
  | None => crash "b"
  end.

Fixpoint addBuckets (bs : list HistoryStateBucket) (total : Z) : M Node Z :=
  match bs with
  | [] => mret total
  | hsb :: bs =>
      snap ← getBucketOf (hs_snap hsb);
      let total := if 0 <? getSize snap then total + getSize snap else total in
      curr ← getBucketOf (hs_curr hsb);
      let total := if 0 <? getSize curr then total + getSize curr else total in
      addBuckets bs total
  end.

Definition onReset : M Node unit :=
  total ← addBuckets (p_state P) 0;
  putWork (mkWork (Z.to_nat kNumLevels - 1) false total None None).

Definition isLevelComplete (w : ApplyBucketsWork) : bool :=
  negb (w_applying w) || negb (present (w_snap w) || present (w_curr w)).

Definition startLevel : M Node unit :=
  w ← getWork;
  (if isLevelComplete w then mret tt else crash "isLevelComplete()");;
  s ← get;
  level ← checked (levelAt (n_list s) (w_level w));
  match p_state P !! w_level w with
  | None => throw "out_of_range"
  | Some i =>
      let applySnap := negb (hs_snap i =? getHash (mSnap level)) in
      let applyCurr := negb (hs_curr i =? getHash (mCurr level)) in
      (if negb (w_applying w) && (applySnap || applyCurr) then
         oldestLedger ← checked (if applySnap then oldestLedgerInSnap (p_currentLedger P) (Z.of_nat (w_level w))
                                 else oldestLedgerInCurr (p_currentLedger P) (Z.of_nat (w_level w)));
         inLedger (deleteObjectsModifiedOnOrAfterLedger oldestLedger)
       else mret tt);;
      (if w_applying w || applySnap then
         bucket ← getBucketOf (hs_snap i);
         applicator ← checked (newBucketApplicator (p_maxProtocolVersion P) bucket);
         w ← getWork;
         putWork (mkWork (w_level w) true (w_totalSize w) (Some (bucket, applicator)) (w_curr w))
       else mret tt);;
      w ← getWork;
      if w_applying w || applyCurr then
        bucket ← getBucketOf (hs_curr i);
        applicator ← checked (newBucketApplicator (p_maxProtocolVersion P) bucket);
        putWork (mkWork (w_level w) true (w_totalSize w) (w_snap w) (Some (bucket, applicator)))
      else mret tt
  end.

Definition advanceWork (applicator : BucketApplicator) : M Node BucketApplicator :=
  w ← getWork;
  (if applicatorAtEntry applicator then mret tt else crash "applicator");;
  (if negb (w_totalSize w =? 0) then mret tt else crash "mTotalSize != 0");;
  '(applicator, _) ← inLedger (advance applicator);
  mret applicator.

(** [onRun], from its end to its beginning. *)
Definition finishLevel : M Node WorkState :=
  w ← getWork;
  match w_level w with
  | S l => putWork (mkWork l (w_applying w) (w_totalSize w) (w_snap w) (w_curr w));; mret WORK_RUNNING
  | O =>
      s ← get;
      levels ← checked (assumeState (p_files P) (p_state P) (p_maxProtocolVersion P) (n_list s));
      modify (λ s, mkNode (n_ledger s) levels (n_work s));;
      mret WORK_SUCCESS
  end.

Definition runCurrApplicator : M Node WorkState :=
  w ← getWork;
  match w_curr w with
  | Some (bucket, applicator) =>
      if applicatorAtEntry applicator then
        applicator ← advanceWork applicator;
        putWork (mkWork (w_level w) (w_applying w) (w_totalSize w) (w_snap w) (Some (bucket, applicator)));;
        mret WORK_RUNNING
      else
        inLedger (checkOnBucketApply (p_invariant P) bucket (p_currentLedger P) (Z.of_nat (w_level w)) true);;
        putWork (mkWork (w_level w) (w_applying w) (w_totalSize w) (w_snap w) None);;
        finishLevel
  | None => finishLevel
  end.

Definition runSnapApplicator : M Node WorkState :=
  w ← getWork;
  match w_snap w with
  | Some (bucket, applicator) =>
      if applicatorAtEntry applicator then
        applicator ← advanceWork applicator;
        putWork (mkWork (w_level w) (w_applying w) (w_totalSize w) (Some (bucket, applicator)) (w_curr w));;
        mret WORK_RUNNING
      else
        inLedger (checkOnBucketApply (p_invariant P) bucket (p_currentLedger P) (Z.of_nat (w_level w)) false);;
        putWork (mkWork (w_level w) (w_applying w) (w_totalSize w) None (w_curr w));;
        runCurrApplicator
  | None => runCurrApplicator
  end.

Definition onRun : M Node WorkState :=
  w ← getWork;
  (if isLevelComplete w then startLevel else mret tt);;
  runSnapApplicator.

(** The scheduler runs the work until it is done. *)
Fixpoint crank (fuel : nat) : M Node unit :=
  match fuel with
  | O => nofuel
  | S fuel =>
      r ← onRun;
      match r with WORK_RUNNING => crank fuel | WORK_SUCCESS => mret tt end
  end.

Definition runApplyBuckets (fuel : nat) : M Node unit := onReset;; crank fuel.
End Work.
