(* ===== verification/BucketApplySpec.v ===== *)
(** * What applying a bucket does

    [advance] commits the entries of a batch, [Bucket::apply] those of the whole bucket: the database ends as if every
    entry had been written or erased in turn ([applied]), although the last entry of a full batch is applied twice.
    The check that follows a bucket finds nothing wrong if the database agrees with the bucket on its keys and has no
    other entry in the bucket's range of ledgers ([check_passes]). *)
From stdpp Require Import base list gmap strings sorting.
From Stdlib Require Import ZArith Lia.
From S2P Require Import Prelude Numeric LedgerEntries Buckets BucketsSpec BucketList BucketWords BucketListSpec LedgerTxn TrustLines LedgerTxnSpec BucketApply.

Notation Database := (gmap LedgerKey LedgerEntry) (only parsing).

(** One entry, and all in turn. *)
Definition appliedEntry (db : Database) (e : BucketEntry) : Database :=
  match e with
  | METAENTRY _ => db
  | LIVEENTRY x | INITENTRY x => <[LedgerEntryKey x := x]> db
  | DEADENTRY k => delete k db
  end.
Definition applied (es : list BucketEntry) (db : Database) : Database := foldl appliedEntry db es.

Lemma applied_app es fs db : applied (es ++ fs) db = applied fs (applied es db).
Proof. apply foldl_app. Qed.

Lemma appliedEntry_twice e db : appliedEntry (appliedEntry db e) e = appliedEntry db e.
Proof. destruct e; simpl; [done|apply insert_insert_eq|apply delete_delete_eq|apply insert_insert_eq]. Qed.

(** Entries that were applied may be applied again before going on. *)
Lemma applied_overlap n es db : applied (drop n es) (applied (take (S n) es) db) = applied es db.
Proof.
  revert es db. induction n as [|n IH]; intros [|e es] db; try done.
  - unfold applied. simpl. by rewrite appliedEntry_twice.
  - change (applied (drop n es) (applied (take (S n) es) (appliedEntry db e)) = applied es (appliedEntry db e)). apply IH.
Qed.

Lemma appliedEntry_lookup e db k :
  noMeta e → appliedEntry db e !! k = if decide (entryKey e = k) then effect e else db !! k.
Proof. intros He. destruct e; try done; simpl; case_decide; subst; by simplify_map_eq. Qed.

Lemma applied_lookup es db k :
  Body es → applied es db !! k = match entryAt k es with Some e => effect e | None => db !! k end.
Proof.
  revert db. induction es as [|e es IH]; intros db; [done|]. intros (He & Hlt & Hb)%Body_cons.
  change (applied (e :: es) db) with (applied es (appliedEntry db e)). rewrite IH by done.
  simpl. rewrite He. case_bool_decide as Hk.
  - destruct (entryAt k es) as [e'|] eqn:E; [|by rewrite appliedEntry_lookup, decide_True].
    apply entryAt_key in E as (Hin & _ & Hk'). rewrite Forall_forall in Hlt. apply Hlt in Hin. apply keyLt_ne in Hin. congruence.
  - destruct (entryAt k es); [done|]. by rewrite appliedEntry_lookup, decide_False.
Qed.

(** ** Between transactions *)

Record calm (lh : LedgerHeader) (db : Database) (s : Ledger) : Prop := {
  calm_txns : txns s = [];
  calm_root : root s = mkRoot lh db }.

(** Inside the transaction of [advance]. *)
Record batching (id : nat) (lh : LedgerHeader) (db db' : Database) (s : Ledger) (t : LedgerTxn) : Prop := {
  bt_txns : txns s = [t];
  bt_root : root s = mkRoot lh db;
  bt_id : txn_id t = id;
  bt_header : mHeader t = lh;
  bt_active : mActive t = ∅;
  bt_plain : mShouldUpdateLastModified t = false;
  bt_open : mIsSealed t = false;
  bt_entries : omap (λ e, e) (mEntry t ∪ (Some <$> db)) = db';
  bt_exact : mConsistency t = EXACT → ∀ k, mEntry t !! k ≠ Some None }.

Lemma overlay_insert (m : gmap LedgerKey (option LedgerEntry)) (db : Database) k v :
  omap (λ e, e) (<[k := v]> m ∪ (Some <$> db)) =
  match v with
  | Some e => <[k := e]> (omap (λ e, e) (m ∪ (Some <$> db)))
  | None => delete k (omap (λ e, e) (m ∪ (Some <$> db)))
  end.
Proof.
  apply map_eq. intros j. rewrite lookup_omap, lookup_union. destruct (decide (j = k)) as [->|Hne].
  - rewrite lookup_insert_eq, union_Some_l. destruct v; simpl; [by rewrite lookup_insert_eq|by rewrite lookup_delete_eq].
  - rewrite lookup_insert_ne by done.
    destruct v; rewrite ?lookup_insert_ne, ?lookup_delete_ne by done; by rewrite lookup_omap, lookup_union.
Qed.

Section Applying.
Context `{HashOrder}.

Lemma openTxn_batching id lh db db' s t : batching id lh db db' s t → openTxn id s = Ok (t, []) s.
Proof.
  intros [Ht _ <- _ _ _ Ho _ _]. unfold openTxn, getImpl, throwIfSealed, throwIfChild, mbind, M_bind, get.
  rewrite Ht, findTxn_head. simpl. by rewrite Ho.
Qed.

(** What the loop does with one entry. *)
Definition applyOne (id : nat) (e : BucketEntry) : M Ledger unit :=
  match e with
  | LIVEENTRY x | INITENTRY x => createOrUpdateWithoutLoading id x
  | DEADENTRY k => eraseWithoutLoading id k
  | METAENTRY _ => throw "Malformed bucket: unexpected non-INIT/LIVE/DEAD entry."
  end.

Lemma applyOne_batching id lh db db' s t e :
  noMeta e → batching id lh db db' s t →
  ∃ s' t', applyOne id e s = Ok tt s' ∧ batching id lh db (appliedEntry db' e) s' t'.
Proof.
  intros He Hb. pose proof (openTxn_batching _ _ _ _ _ _ Hb) as Hop. destruct Hb as [Ht Hr Hid Hh Ha Hp Ho Hm Hx].
  assert (Hput : ∀ x, ∃ s' t', createOrUpdateWithoutLoading id x s = Ok tt s' ∧ batching id lh db (<[LedgerEntryKey x := x]> db') s' t').
  { intros x. unfold createOrUpdateWithoutLoading. unfold mbind, M_bind at 1. rewrite Hop, Ha, lookup_empty.
    eexists _, _. split; [done|]. split; try done; simpl.
    - by rewrite overlay_insert, Hm.
    - intros Hc k. destruct (decide (k = LedgerEntryKey x)) as [->|Hne]; simplify_map_eq; [done|by apply Hx]. }
  destruct e as [|x|k|x]; [done|apply Hput| |apply Hput].
  unfold applyOne, eraseWithoutLoading. unfold mbind, M_bind at 1. rewrite Hop. eexists _, _. split; [done|]. split; try done; simpl.
  - by rewrite Ha, delete_empty.
  - by rewrite overlay_insert, Hm.
Qed.

(** The loop: it stops after [4096] entries, at the last of them. *)
Lemma applyEntries_spec es fuel id lh db db' s t maxP count iter :
  0 <= count <= 4095 → (length es <= fuel)%nat → reads iter es → Forall (λ e, isInit e = true → 11 <= maxP) es →
  batching id lh db db' s t →
  ∃ iter' count' s' t', applyEntries fuel id maxP count iter s = Ok (iter', count') s' ∧
    reads iter' (drop (Z.to_nat (4095 - count)) es) ∧
    batching id lh db (applied (take (S (Z.to_nat (4095 - count))) es) db') s' t'.
Proof.
  revert fuel db' s t count iter. induction es as [|e es IH]; intros fuel db' s t count iter Hc Hf Hr Hl Hb.
  { exists iter, count, s, t. rewrite drop_nil. split_and!; [|done|done].
    destruct fuel; simpl; by rewrite (reads_entry _ _ Hr). }
  destruct fuel as [|fuel]; [simpl in Hf; lia|]. rewrite Forall_cons in Hl. destruct Hl as [Hle Hl].
  assert (He : noMeta e) by (destruct Hr as [_ _ Hn _]; by inversion Hn).
  destruct (applyOne_batching id lh db db' s t e He Hb) as (s1 & t1 & Ho & Hb1).
  assert (Hstep : applyEntries (S fuel) id maxP count iter s =
    (if 4095 <? count + 1 then mret (iter, count + 1) else iter ← checked (next iter); applyEntries fuel id maxP (count + 1) iter) s1).
  { cbn [applyEntries]. rewrite (reads_entry _ _ Hr). cbn [head]. unfold mbind, M_bind at 1. unfold checked at 1.
    rewrite (legal e maxP He Hle). unfold M_bind at 1. fold (applyOne id e). by rewrite Ho. }
  rewrite Hstep. destruct (4095 <? count + 1) eqn:Elast; propify.
  - exists iter, (count + 1), s1, t1. replace (Z.to_nat (4095 - count)) with 0%nat by lia. rewrite drop_0.
    split_and!; done.
  - destruct (next_reads iter e es Hr) as (iter1 & Hn & Hr1 & _). unfold mbind, M_bind, checked. rewrite Hn.
    destruct (IH fuel (appliedEntry db' e) s1 t1 (count + 1) iter1) as (iter' & count' & s' & t' & Ha & Hr' & Hb');
      [lia|simpl in Hf; lia|done|done|done|].
    replace (Z.to_nat (4095 - count)) with (S (Z.to_nat (4095 - (count + 1)))) by lia. exists iter', count', s', t'. done.
Qed.

Lemma newTxn_calm b lh db s :
  calm lh db s →
  newLedgerTxn None b s = Ok (nextImpl s) (mkLedger [mkTxn (nextImpl s) lh None ∅ ∅ b false EXACT] (mkRoot lh db) (S (nextImpl s))).
Proof. intros [Ht Hr]. destruct s as [tx r n]. simpl in *. by subst. Qed.

Lemma commit_batching id lh db db' s t :
  batching id lh db db' s t → ∃ s', LedgerTxn.commit id s = Ok tt s' ∧ calm lh db' s'.
Proof.
  intros [Ht Hr <- Hh Ha Hp Ho Hm Hx]. unfold LedgerTxn.commit, getImpl, mbind, M_bind, get. rewrite Ht, findTxn_head. simpl. rewrite Ho. simpl.
  unfold commitChild, get, mbind, M_bind. rewrite Hr.
  assert (Hid : maybeUpdateLastModified t = mEntry t).
  { unfold maybeUpdateLastModified. rewrite Hp. rewrite <- (map_fmap_id (mEntry t)) at 2. apply map_fmap_ext. intros k [e|] _; done. }
  rewrite Hid, root_commit; [|intros k Hk Hc; by destruct (Hx Hc k)].
  eexists. split; [done|]. split; [done|]. simpl. rewrite Hh. f_equal. exact Hm.
Qed.

Lemma advance_spec a es lh db s :
  es ≠ [] → reads (mBucketIter a) es → Forall (λ e, isInit e = true → 11 <= mMaxProtocolVersion a) es → calm lh db s →
  ∃ a' count s', advance a s = Ok (a', count) s' ∧ mMaxProtocolVersion a' = mMaxProtocolVersion a ∧
    reads (mBucketIter a') (drop (Z.to_nat 4095) es) ∧ calm lh (applied (take (S (Z.to_nat 4095)) es) db) s'.
Proof.
  intros Hne Hr Hl Hc. pose proof (newTxn_calm false lh db s Hc) as Hn.
  unfold advance. unfold mbind, M_bind at 1. rewrite Hn. set (s1 := mkLedger _ _ _).
  assert (Hb : batching (nextImpl s) lh db db s1 (mkTxn (nextImpl s) lh None ∅ ∅ false false EXACT)).
  { split; try done; simpl.
    - apply map_eq. intros k. rewrite lookup_omap, lookup_union, lookup_fmap, lookup_empty. by destruct (db !! k). }
  destruct (applyEntries_spec es (S (length (mIn (mBucketIter a)))) (nextImpl s) lh db db s1
    (mkTxn (nextImpl s) lh None ∅ ∅ false false EXACT) (mMaxProtocolVersion a) 0 (mBucketIter a))
    as (iter & count & s2 & t2 & Ha & Hr2 & Hb2); [lia| |done|done|exact Hb|].
  { rewrite (reads_in _ _ Hr). destruct es; [done|simpl; lia]. }
  destruct (commit_batching _ _ _ _ _ _ Hb2) as (s3 & Hcm & Hc3).
  change (4095 - 0) with 4095 in *.
  exists (mkApplicator (mMaxProtocolVersion a) iter (mCount a + count)), count, s3. split; [|split_and!; [done|exact Hr2|exact Hc3]].
  - unfold scoped. unfold mbind, M_bind. rewrite Ha, Hcm. unfold mret, M_ret. unfold destroyTxn, get, mbind, M_bind.
    rewrite (calm_txns _ _ _ Hc3). done.
Qed.

(** [Bucket::apply]. *)
Lemma advanceAll_spec fuel a es lh db s :
  (length es <= fuel)%nat → reads (mBucketIter a) es → Forall (λ e, isInit e = true → 11 <= mMaxProtocolVersion a) es → calm lh db s →
  ∃ s', advanceAll fuel a s = Ok tt s' ∧ calm lh (applied es db) s'.
Proof.
  revert a es db s. induction fuel as [|fuel IH]; intros a es db s Hf Hr Hl Hc.
  - destruct es; [|simpl in Hf; lia]. exists s. split; [|done]. unfold advanceAll, applicatorAtEntry, atEntry. by rewrite (reads_entry _ _ Hr).
  - destruct es as [|e es].
    { exists s. split; [|done]. cbn [advanceAll]. unfold applicatorAtEntry, atEntry. by rewrite (reads_entry _ _ Hr). }
    destruct (advance_spec a (e :: es) lh db s) as (a' & count & s1 & Ha & Hm & Hr1 & Hc1); [done..|].
    destruct (IH a' (drop (Z.to_nat 4095) (e :: es)) (applied (take (S (Z.to_nat 4095)) (e :: es)) db) s1) as (s' & Hs & Hc'); [|done| |done|].
    { rewrite length_drop. cbn [length] in *. lia. }
    { rewrite Hm. by apply Forall_drop. }
    exists s'. split.
    + cbn [advanceAll]. unfold applicatorAtEntry, atEntry. rewrite (reads_entry _ _ Hr). cbn [head].
      unfold mbind, M_bind. by rewrite Ha.
    + by rewrite applied_overlap in Hc'.
Qed.

(** ** The check *)

(** Inside the transaction of the check. *)
Record checking (id : nat) (lh : LedgerHeader) (db : Database) (s : Ledger) : Prop := {
  ck_txns : txns s = [mkTxn id lh None ∅ ∅ true false EXACT];
  ck_root : root s = mkRoot lh db }.

Lemma openTxn_checking id lh db s : checking id lh db s → openTxn id s = Ok (mkTxn id lh None ∅ ∅ true false EXACT, []) s.
Proof.
  intros [Ht _]. unfold openTxn, getImpl, throwIfSealed, throwIfChild, mbind, M_bind, get. rewrite Ht.
  cbn [findTxn txn_id]. by rewrite decide_True.
Qed.

Lemma load_absent id lh db s k : checking id lh db s → db !! k = None → loadWithoutRecord id k s = Ok None s.
Proof.
  intros Hc Hk. unfold loadWithoutRecord. unfold mbind, M_bind at 1. rewrite (openTxn_checking _ _ _ _ Hc). simpl.
  rewrite lookup_empty. unfold mbind, M_bind, get. rewrite (ck_root _ _ _ _ Hc). simpl. rewrite lookup_empty. by rewrite Hk.
Qed.

(** A live entry is found, and the handle dies. *)
Lemma checkLive_passes id lh db s x :
  checking id lh db s → db !! LedgerEntryKey x = Some x →
  ∃ s', checkLiveAgainstDatabase id x s = Ok None s' ∧ checking id lh db s'.
Proof.
  intros Hc Hx. set (k := LedgerEntryKey x) in *.
  set (t := mkTxn id lh None ∅ ∅ true false EXACT). set (t' := setActive (<[k := ConstImpl (nextImpl s)]> ∅) t).
  set (s1 := mkLedger [t'] (root s) (S (nextImpl s))). set (h := mkHandle id k (nextImpl s)).
  assert (Hl : loadWithoutRecord id k s = Ok (Some (h, x)) s1).
  { unfold loadWithoutRecord. unfold mbind, M_bind at 1. rewrite (openTxn_checking _ _ _ _ Hc). cbn [mActive]. rewrite lookup_empty.
    unfold mbind, M_bind, get. rewrite (ck_root _ _ _ _ Hc). cbn [getNewestVersion mEntry rootEntries]. rewrite lookup_empty, Hx. done. }
  assert (Hlock : lockHandle ConstImpl s1 h = Some ([], t', [])).
  { unfold lockHandle. change (findTxn (h_txn h) (txns s1)) with (findTxn (txn_id t') [t']). rewrite findTxn_head.
    rewrite decide_True; [done|]. simpl. by rewrite lookup_insert_eq. }
  exists (mkLedger [setActive (delete k (mActive t')) t'] (root s1) (nextImpl s1)). split.
  - unfold checkLiveAgainstDatabase. unfold mbind, M_bind at 1. fold k. rewrite Hl. unfold scoped. unfold mbind, M_bind at 1, constCurrent.
    unfold get, mbind, M_bind, isActive. rewrite Hlock. unfold mret, M_ret. rewrite decide_True by done.
    unfold destroyConst, get, mbind, M_bind, isActive. rewrite Hlock. unfold noexcept, deactivateKey, getImpl, get, mbind, M_bind.
    change (findTxn (h_txn h) (txns s1)) with (findTxn (txn_id t') [t']). rewrite findTxn_head. fold k.
    unfold mret, M_ret. assert (Hk : mActive t' !! k = Some (ConstImpl (nextImpl s))) by (by apply lookup_insert_eq). by rewrite Hk.
  - split; [|exact (ck_root _ _ _ _ Hc)]. simpl. rewrite delete_insert_id by (by rewrite lookup_empty). done.
Qed.

Lemma checkDead_passes id lh db s k :
  checking id lh db s → db !! k = None → checkDeadAgainstDatabase id k s = Ok None s.
Proof.
  intros Hc Hk. unfold checkDeadAgainstDatabase. unfold mbind, M_bind at 1. rewrite (load_absent _ _ _ _ _ Hc Hk). done.
Qed.

(** The live entries of a bucket, and what the loop counts. *)
Definition lives (es : list BucketEntry) : list LedgerEntry := omap effect es.
Definition counted (xs : list LedgerEntry) (c : Counts) : Counts := foldl (λ c x, countEntry x c) c xs.

(** The database agrees with the entry. *)
Definition agrees (db : Database) (e : BucketEntry) : Prop := db !! entryKey e = effect e.

Lemma checkEntries_spec es fuel id lh db s prev counts iter lo hi :
  (length es <= fuel)%nat → reads iter es → Body es → (∀ p e, prev = Some p → e ∈ es → noMeta p ∧ keyLt p e) →
  Forall (agrees db) es → Forall (λ x, lo <= lastModifiedLedgerSeq x <= hi) (lives es) → checking id lh db s →
  ∃ s', checkEntries fuel id lo hi prev counts iter s = Ok (inl (counted (lives es) counts)) s' ∧ checking id lh db s'.
Proof.
  revert fuel s prev counts iter. induction es as [|e es IH]; intros fuel s prev counts iter Hf Hr Hb Hp Ha Hl Hc.
  { exists s. split; [|done]. destruct fuel; simpl; by rewrite (reads_entry _ _ Hr). }
  destruct fuel as [|fuel]; [simpl in Hf; lia|]. apply Body_cons in Hb as (He & Hlt & Hb). apply Forall_cons in Ha as [Hea Ha].
  assert (Hord : match prev with Some p => negb (BucketEntryIdCmp p e) | None => false end = false).
  { destruct prev as [p|]; [|done]. destruct (Hp p e) as [Hpm Hpe]; [done|set_solver|]. rewrite cmp_keys by done.
    unfold keyLt, ltP in Hpe. by rewrite Hpe. }
  destruct (next_reads iter e es Hr) as (iter1 & Hn & Hr1 & _).
  assert (Hgo : ∀ s1 c, checking id lh db s1 → Forall (λ x, lo <= lastModifiedLedgerSeq x <= hi) (lives es) →
    ∃ s', (iter ← checked (next iter); checkEntries fuel id lo hi (Some e) c iter) s1 = Ok (inl (counted (lives es) c)) s' ∧ checking id lh db s').
  { intros s1 c Hc1 Hl1. unfold mbind, M_bind, checked. rewrite Hn. apply IH; try done; [simpl in Hf; lia|].
    intros p e' [= <-] He'. rewrite Forall_forall in Hlt. auto. }
  assert (Hlive : ∀ x, effect e = Some x → ∃ s1, checkLiveAgainstDatabase id x s = Ok None s1 ∧ checking id lh db s1 ∧
    (lastModifiedLedgerSeq x <? lo) = false ∧ (hi <? lastModifiedLedgerSeq x) = false ∧
    Forall (λ x, lo <= lastModifiedLedgerSeq x <= hi) (lives es) ∧ lives (e :: es) = x :: lives es).
  { intros x Hx. destruct (checkLive_passes id lh db s x Hc) as (s1 & Hs1 & Hc1).
    { unfold agrees in Hea. rewrite Hx in Hea. by destruct e; simplify_eq/=. }
    exists s1. unfold lives in *. simpl in Hl |- *. rewrite Hx in Hl |- *. apply Forall_cons in Hl as [Hx1 Hl]. split_and!; try done; propify; lia. }
  cbn [checkEntries]. rewrite (reads_entry _ _ Hr). cbn [head]. rewrite Hord.
  destruct e as [v|x|k|x]; [done| | |].
  2:{ unfold mbind at 1, M_bind at 1. rewrite (checkDead_passes id lh db s k Hc Hea). by apply Hgo. }
  all: destruct (Hlive x eq_refl) as (s1 & H1 & Hc1 & -> & -> & Hl1 & ->); unfold mbind at 1, M_bind at 1; rewrite H1; by apply Hgo.
Qed.

(** *** The counts *)

Definition countOf (type : Z) (c : Counts) : Z :=
  if type =? 0 then nAccounts c else if type =? 1 then nTrustLines c else if type =? 2 then nOffers c else nData c.

Definition typeOf (x : LedgerEntry) : Z := ledgerEntryType (LedgerEntryKey x).

Lemma counted_types xs c type :
  0 <= type <= 3 → countOf type (counted xs c) = countOf type c + Z.of_nat (length (filter (λ x, typeOf x = type) xs)).
Proof.
  intros Ht. revert c. induction xs as [|x xs IH]; intros c; [simpl; lia|].
  change (counted (x :: xs) c) with (counted xs (countEntry x c)). rewrite IH, filter_cons.
  assert (Hx : countOf type (countEntry x c) = countOf type c + if decide (typeOf x = type) then 1 else 0).
  { unfold countEntry, countOf, typeOf, ledgerEntryType, LedgerEntryKey. destruct (data x); simpl; repeat case_match; propify; simpl; lia. }
  rewrite Hx. case_decide; cbn [length]; lia.
Qed.

Lemma lives_keys es : Body es → NoDup (LedgerEntryKey <$> lives es).
Proof.
  induction es as [|e es IH]; [constructor|]. intros (He & Hlt & Hb)%Body_cons. unfold lives. simpl.
  destruct (effect e) as [x|] eqn:Hx; [|auto]. rewrite fmap_cons. constructor; [|auto].
  intros (y & Hy & (e' & Hin & Hy')%list_elem_of_omap)%list_elem_of_fmap. rewrite Forall_forall in Hlt. apply Hlt, keyLt_ne in Hin.
  apply Hin. by destruct e, e'; simplify_eq/=.
Qed.

(** The rows in the range are the live entries of the bucket. *)
Lemma rows_in_range (db : Database) es type lo hi :
  Body es → Forall (agrees db) es → Forall (λ x, lo <= lastModifiedLedgerSeq x <= hi) (lives es) →
  (∀ k x, db !! k = Some x → lo <= lastModifiedLedgerSeq x <= hi → x ∈ lives es ∧ LedgerEntryKey x = k) →
  size (filter (λ kv, ledgerEntryType kv.1 = type ∧ lo <= lastModifiedLedgerSeq kv.2 ∧ lastModifiedLedgerSeq kv.2 <= hi) db) =
  length (filter (λ x, typeOf x = type) (lives es)).
Proof.
  intros Hb Ha Hl Hdb. set (l := (λ x, (LedgerEntryKey x, x)) <$> filter (λ x, typeOf x = type) (lives es)).
  assert (Hnd : NoDup l.*1).
  { unfold l. rewrite <- list_fmap_compose. eapply sublist_NoDup; [by apply lives_keys|]. apply fmap_sublist, sublist_filter. }
  assert (E : filter (λ kv, ledgerEntryType kv.1 = type ∧ lo <= lastModifiedLedgerSeq kv.2 ∧ lastModifiedLedgerSeq kv.2 <= hi) db = list_to_map l).
  { apply map_eq. intros k. apply option_eq. intros x. rewrite map_lookup_filter_Some, <- elem_of_list_to_map by done.
    unfold l. rewrite list_elem_of_fmap. setoid_rewrite list_elem_of_filter. simpl. split.
    - intros (Hk & Ht & H1 & H2). destruct (Hdb k x Hk) as [Hx <-]; [lia|]. by exists x.
    - intros (y & [= -> ->] & Ht & Hx). rewrite Forall_forall in Hl. rewrite Forall_forall in Ha. split; [|by split; [|apply Hl]].
      unfold lives in Hx. apply list_elem_of_omap in Hx as (e & He & Hx). specialize (Ha e He). unfold agrees in Ha. rewrite Hx in Ha.
      by destruct e; simplify_eq/=. }
  rewrite E, <- length_map_to_list, map_to_list_to_map by done. unfold l. by rewrite length_fmap.
Qed.

Lemma checkCount_passes type name n range rest lh db s :
  calm lh db s → 
  Z.of_nat (size (filter (λ kv, ledgerEntryType kv.1 = type ∧ s32 range.1 <= lastModifiedLedgerSeq kv.2 ∧ lastModifiedLedgerSeq kv.2 <= s32 range.2) db)) = n →
  checkCount type name n range rest s = rest s.
Proof.
  intros [Ht Hr] <-. unfold checkCount, countObjects, rootThrowIfChild, get, mbind, M_bind. rewrite Ht. unfold mret, M_ret. rewrite Hr. cbn [rootEntries].
  by rewrite Z.eqb_refl.
Qed.

Lemma check_passes b lh db s lo hi :
  BucketOk b → calm lh db s → 0 < lo <= hi → hi < 2 ^ 31 → Forall (agrees db) (bodyOf b) →
  Forall (λ x, lo <= lastModifiedLedgerSeq x <= hi) (lives (bodyOf b)) →
  (∀ k x, db !! k = Some x → lo <= lastModifiedLedgerSeq x <= hi → x ∈ lives (bodyOf b) ∧ LedgerEntryKey x = k) →
  ∃ s', checkConsistentWithDatabase b lo hi s = Ok None s' ∧ calm lh db s'.
Proof.
  intros Hok Hc Hlo Hhi Ha Hl Hdb. unfold checkConsistentWithDatabase. unfold mbind at 1, M_bind at 1. rewrite (newTxn_calm true lh db s Hc).
  set (s1 := mkLedger _ _ _). destruct (open_reads b Hok) as (iter & Hi & Hr & _).
  destruct (checkEntries_spec (bodyOf b) (S (length b)) (nextImpl s) lh db s1 None (mkCounts 0 0 0 0) iter lo hi) as (s2 & Hs2 & Hc2); try done.
  { destruct b as [|[] b]; simpl; lia. }
  { by apply ok_body. }
  assert (Hd : destroyTxn (nextImpl s) s2 = Ok tt (mkLedger [] (root s2) (nextImpl s2))).
  { destruct Hc2 as [Ht2 _]. unfold destroyTxn, rollback, getImpl, get, mbind, M_bind. rewrite Ht2. cbn [findTxn txn_id].
    rewrite decide_True by done. unfold mret, M_ret. rewrite Ht2. cbn [findTxn txn_id]. by rewrite decide_True. }
  exists (mkLedger [] (root s2) (nextImpl s2)). assert (Hc3 : calm lh db (mkLedger [] (root s2) (nextImpl s2))) by (split; [done|exact (ck_root _ _ _ _ Hc2)]).
  split; [|done]. unfold mbind at 1, M_bind at 1. unfold scoped, mbind at 1, M_bind at 1, checked at 1. rewrite Hi, Hs2.
  unfold mbind at 1, M_bind at 1. rewrite Hd. unfold mret, M_ret. unfold mbind at 1, M_bind at 1, checked at 1, newLedgerRange.
  rewrite (proj2 (Z.ltb_lt _ _)), (proj2 (Z.leb_le _ _)) by lia. cbn [assert]. unfold mbind at 1, Checked_bind at 1, mret, Checked_ret.
  assert (Hs : s32 lo = lo ∧ s32 hi = hi).
  { split; unfold s32, swrap, wrap; rewrite Z.mod_small by lia; by rewrite (proj2 (Z.ltb_lt _ _)) by lia. }
  destruct Hs as [Hs1 Hs3].
  assert (Hn : ∀ type, 0 <= type <= 3 → Z.of_nat (size (filter (λ kv, ledgerEntryType kv.1 = type ∧ s32 (lo, hi).1 <= lastModifiedLedgerSeq kv.2 ∧
    lastModifiedLedgerSeq kv.2 <= s32 (lo, hi).2) db)) = countOf type (counted (lives (bodyOf b)) (mkCounts 0 0 0 0))).
  { intros type Ht. cbn [fst snd]. rewrite Hs1, Hs3, (rows_in_range db (bodyOf b)), counted_types by (done || by apply ok_body).
    unfold countOf. repeat case_match; done. }
  etrans; [apply (checkCount_passes 0 _ _ _ _ _ _ _ Hc3 (Hn 0 ltac:(lia)))|]. etrans; [apply (checkCount_passes 1 _ _ _ _ _ _ _ Hc3 (Hn 1 ltac:(lia)))|].
  etrans; [apply (checkCount_passes 2 _ _ _ _ _ _ _ Hc3 (Hn 2 ltac:(lia)))|]. etrans; [apply (checkCount_passes 3 _ _ _ _ _ _ _ Hc3 (Hn 3 ltac:(lia)))|]. done.
Qed.
End Applying.
