(* ===== verification/BucketWork.v ===== *)
(** * The work that applies buckets

    [ApplyBucketsWork] runs until it is done: level by level, from the lowest upwards, a batch of entries per run.
    [crank_ends]: it ends with success, the check after every bucket passes, and the database has the entries of all
    buckets over what was there before. Levels that no ledger has reached are empty ([Early]), so the check is never asked about
    a bucket without ledgers. *)
From stdpp Require Import base list gmap strings sorting.
From Stdlib Require Import ZArith Lia.
From S2P Require Import Prelude Numeric LedgerEntries Buckets BucketsSpec BucketList BucketWords BucketListSpec BucketLedger BucketRestart LedgerTxn TrustLines LedgerTxnSpec BucketSizes BucketApply BucketApplySpec.

(** ** Levels that no ledger has reached *)

(** A level receives nothing before the lower one has spilled twice. *)
Definition Early (t : Z) (levels : BucketList) : Prop :=
  ∀ j, (j < 10)%nat →
    (t < half j → mNextCurr (lev levels (S j)) = clear ∧ mSnap (lev levels j) = []) ∧
    (t < 2 * half j → mCurr (lev levels (S j)) = []).

Lemma newBucketList_early : Early 0 newBucketList.
Proof.
  intros j _. assert (Hl : ∀ i, mNextCurr (lev newBucketList i) = clear ∧ mSnap (lev newBucketList i) = [] ∧ mCurr (lev newBucketList i) = []).
  { intros i. do 11 (destruct i as [|i]; [done|]). done. }
  destruct (Hl j) as (_ & ? & _), (Hl (S j)) as (? & _ & ?). done.
Qed.

Section Early.
Context `{HF : FileHash}.

Lemma commit_frame l l' :
  BucketList.commit l = Val l' → mSnap l' = mSnap l ∧ (mNextCurr l = clear → l' = l).
Proof.
  unfold BucketList.commit. intros Hc. split.
  - destruct (isLive (mNextCurr l)).
    + destruct (resolve (mNextCurr l)) as [[f b]| | |]; try done. cbn in Hc. by injection Hc as <-.
    + unfold mret, Checked_ret in Hc. rewrite bind_Val in Hc. destruct (assert _ _); try done. by injection Hc as <-.
  - intros Hcl. rewrite Hcl in Hc. cbn in Hc. rewrite Hcl in Hc. cbn in Hc. by injection Hc as <-.
Qed.
Lemma prepare_frame l ledger pv s sh l' :
  prepare l ledger pv s sh = Val l' → mSnap l' = mSnap l ∧ mCurr l' = mCurr l.
Proof.
  unfold prepare. intros Hp. destruct (assert _ _); try done. rewrite bind_Val in Hp.
  destruct (if mLevel l =? 0 then _ else _) as [c| | |]; try done. rewrite bind_Val in Hp.
  destruct (newFutureBucket _ _ _ _ _) as [f| | |]; try done. rewrite bind_Val in Hp.
  destruct (assert _ _); try done. by injection Hp as <-.
Qed.

Lemma spillLevels_length i ledger pv levels sh levels' sh' :
  spillLevels i ledger pv levels sh = Val (levels', sh') → length levels' = length levels.
Proof.
  revert levels sh. induction i as [|n IH]; intros levels sh Hs; [by injection Hs as <-|].
  cbn [spillLevels] in Hs. destruct (popTwo sh); try done. rewrite bind_Val in Hs.
  destruct (levelShouldSpill _ _) as [b| | |]; try done. rewrite bind_Val in Hs. destruct b; [|by apply IH in Hs].
  destruct (levelAt levels n); try done. rewrite bind_Val in Hs. destruct (levelAt _ (S n)); try done. rewrite bind_Val in Hs.
  destruct (BucketList.commit _); try done. rewrite bind_Val in Hs. destruct (prepare _ _ _ _ _); try done. rewrite !bind_Val in Hs.
  apply IH in Hs. by rewrite !length_insert in Hs.
Qed.
Lemma addBatch_length levels ledger pv i l d levels' : addBatch levels ledger pv i l d = Val levels' → length levels' = length levels.
Proof.
  unfold addBatch. intros Ha. destruct (assert _ _); try done. rewrite bind_Val in Ha. destruct (popTwo _); try done. rewrite bind_Val in Ha.
  destruct (spillLevels _ _ _ _ _) as [[levels1 sh1]| | |] eqn:Hs; try done. rewrite bind_Val in Ha. apply spillLevels_length in Hs.
  destruct (assert _ _); try done. rewrite bind_Val in Ha. destruct (fresh _ _ _ _); try done. rewrite bind_Val in Ha.
  destruct (levelAt _ _); try done. rewrite bind_Val in Ha. destruct (prepare _ _ _ _ _); try done. rewrite bind_Val in Ha.
  destruct (BucketList.commit _); try done. injection Ha as <-. by rewrite length_insert.
Qed.

(** What the loop leaves alone. *)
Lemma spillLevels_frame i ledger pv levels sh levels' sh' :
  0 <= ledger < 2 ^ 32 → length levels = 11%nat → (i <= 10)%nat → spillLevels i ledger pv levels sh = Val (levels', sh') →
  (∀ m, (i < m)%nat → lev levels' m = lev levels m) ∧
  (∀ j, spills ledger j = false → mSnap (lev levels' j) = mSnap (lev levels j) ∧ mNextCurr (lev levels' (S j)) = mNextCurr (lev levels (S j))) ∧
  (∀ j, (j < i)%nat → mCurr (lev levels (S j)) = [] → spills ledger j = false ∨ mNextCurr (lev levels (S j)) = clear → mCurr (lev levels' (S j)) = []).
Proof.
  intros Hl. revert levels sh. induction i as [|j0 IH]; intros levels sh Hlen Hi Hs.
  { simpl in Hs. injection Hs as <- _. split_and!; [done|done|lia]. }
  cbn [spillLevels] in Hs. destruct (popTwo sh) as [sh1| | |]; try done. rewrite bind_Val, levelShouldSpill_Val, bind_Val in Hs by lia.
  destruct (spills ledger j0) eqn:Hsp.
  - rewrite levelAt_lev, bind_Val, levelAt_lev, bind_Val in Hs by (rewrite ?length_insert; lia).
    rewrite lev_insert, decide_False in Hs by lia.
    destruct (BucketList.commit (lev levels (S j0))) as [up| | |] eqn:Hc; try done. rewrite bind_Val in Hs.
    destruct (prepare up _ _ _ _) as [up'| | |] eqn:Hp; try done. rewrite !bind_Val in Hs.
    apply commit_frame in Hc as [Hc1 Hc2]. apply prepare_frame in Hp as [Hp1 Hp2].
    set (levels1 := <[S j0 := up']> (<[j0 := snap (lev levels j0)]> levels)) in *.
    assert (Hlv : ∀ m, lev levels1 m = if decide (m = S j0) then up' else if decide (m = j0) then snap (lev levels j0) else lev levels m).
    { intros m. unfold levels1. rewrite lev_insert by (rewrite ?length_insert; lia). rewrite lev_insert by lia. repeat case_decide; subst; done || lia. }
    destruct (IH levels1 sh1) as (I1 & I2 & I3); [unfold levels1; by rewrite !length_insert|lia|done|]. split_and!.
    + intros m Hm. rewrite I1, Hlv by lia. by rewrite !decide_False by lia.
    + intros j Hj. destruct (I2 j Hj) as [-> ->]. assert (j ≠ j0) by congruence. rewrite !Hlv. split.
      * repeat case_decide; subst; try lia; try done. by rewrite Hp1.
      * repeat case_decide; subst; try lia; done.
    + intros j Hj Hcu Hor. destruct (decide (j = j0)) as [->|Hne].
      * rewrite I1, Hlv, decide_True by lia. rewrite Hp2. destruct Hor as [?|Hcl]; [congruence|]. by rewrite Hc2.
      * apply I3; [lia|..]; rewrite Hlv; repeat case_decide; subst; try lia; try done.
  - unfold mret, Checked_ret in Hs. rewrite bind_Val in Hs. destruct (IH levels sh1 Hlen ltac:(lia) Hs) as (I1 & I2 & I3). split_and!.
    + intros m Hm. apply I1. lia.
    + done.
    + intros j Hj Hcu Hor. destruct (decide (j = j0)) as [->|Hne]; [rewrite I1 by lia; done|]. apply I3; [lia|done|done].
Qed.

Lemma addBatch_early t pv levels i l d levels' :
  0 <= t → t + 1 < 2 ^ 32 → length levels = 11%nat → addBatch levels (t + 1) pv i l d = Val levels' →
  Early t levels → Early (t + 1) levels'.
Proof.
  intros Ht Ht2 Hlen Ha HE. unfold addBatch in Ha. rewrite (proj2 (Z.ltb_lt _ _)) in Ha by lia. cbn [assert] in Ha. rewrite bind_Val in Ha.
  destruct (popTwo _) as [sh| | |]; try done. rewrite bind_Val, Hlen in Ha.
  destruct (spillLevels _ _ _ _ _) as [[levels1 sh1]| | |] eqn:Hs; try done. rewrite bind_Val in Ha.
  pose proof (spillLevels_length _ _ _ _ _ _ _ Hs) as Hlen1. rewrite Hlen in Hlen1.
  destruct (spillLevels_frame (11 - 1) (t + 1) pv levels sh levels1 sh1) as (_ & I2 & I3); [lia|done|lia|done|].
  destruct (assert (noShadows sh1) _); try done. rewrite bind_Val in Ha. destruct (fresh _ _ _ _) as [new| | |]; try done. rewrite bind_Val in Ha.
  rewrite levelAt_lev, bind_Val in Ha by lia. destruct (prepare _ _ _ _ _) as [f1| | |] eqn:Hp; try done. rewrite bind_Val in Ha.
  destruct (BucketList.commit f1) as [f2| | |] eqn:Hc; try done. rewrite bind_Val in Ha. injection Ha as <-.
  apply commit_frame in Hc as [Hc _]. apply prepare_frame in Hp as [Hp _]. intros j Hj.
  assert (E1 : lev (<[0%nat := f2]> levels1) (S j) = lev levels1 (S j)) by (rewrite lev_insert by lia; by case_decide).
  assert (E2 : mSnap (lev (<[0%nat := f2]> levels1) j) = mSnap (lev levels1 j)).
  { rewrite lev_insert by lia. case_decide; [subst j; by rewrite Hc, Hp|done]. }
  rewrite E1, E2.
  destruct (HE j Hj) as [H1 H2]. pose proof (half_pos j) as Hh.
  assert (Hsp : t + 1 < half j → spills (t + 1) j = false).
  { intros Hlt. unfold spills. rewrite Z.mod_small by lia. rewrite (proj2 (Z.eqb_neq _ _)) by lia. apply andb_false_r. }
  split.
  - intros Hlt. destruct (I2 j (Hsp Hlt)) as [Hs1 ->]. destruct (H1 ltac:(lia)) as [Hcl Hsn]. split; [done|].
    by rewrite Hs1.
  - intros Hlt. apply I3; [lia|apply H2; lia|]. destruct (spills (t + 1) j) eqn:E; [right|by left]. apply H1.
    unfold spills in E. rewrite andb_true_iff in E. destruct E as [_ E]. propify. apply Z.mod_divide in E as [q Hq]; [|lia]. assert (q = 1) by nia. subst q. lia.
Qed.

Lemma closeLedgers_early t levels bs levels' :
  0 <= t → t + Z.of_nat (length bs) < 2 ^ 32 → length levels = 11%nat → closeLedgers (t + 1) levels bs = Val levels' →
  Early t levels → Early (t + Z.of_nat (length bs)) levels'.
Proof.
  revert t levels. induction bs as [|b bs IH]; intros t levels Ht Hlt Hlen Hc HE.
  { simpl in Hc. injection Hc as <-. by rewrite Z.add_0_r. }
  cbn [closeLedgers length] in *. destruct (addBatch _ _ _ _ _ _) as [levels1| | |] eqn:Ha; try done. rewrite bind_Val in Hc.
  replace (t + Z.of_nat (S (length bs))) with (t + 1 + Z.of_nat (length bs)) by lia. apply (IH (t + 1) levels1); [lia|lia|by rewrite (addBatch_length _ _ _ _ _ _ _ Ha)|done|].
  eapply addBatch_early; [lia|lia|done|exact Ha|done].
Qed.
End Early.

(** ** The check of a bucket of the list *)

Section Check.
Context `{HO : HashOrder} (t : Z) (Ht : 0 < t < 2 ^ 31).

(** A level that is not empty has ledgers, and so have all newer ones. *)
Lemma curSize_pos i : 0 < bnd i t → mid i t < bnd i t.
Proof.
  unfold mid, bnd, beta. intros Hb. destruct (i <? 10)%nat; [|lia]. destruct (half_period i) as (c & Hc & ->).
  pose proof (down_coarse (period i) (period_pos i) t c Hc). pose proof (period_pos i). lia.
Qed.
Lemma snapSize_pos i : (i < 10)%nat → 0 < mid i t → bnd (S i) t < mid i t.
Proof.
  intros Hi. unfold mid, bnd. rewrite (proj2 (Nat.ltb_lt _ _)) by lia. rewrite alpha_S. simpl period. pose proof (half_pos i). lia.
Qed.

(** The database before a bucket with the ledgers from [lo] to [hi] is applied has only older entries. *)
Definition upTo (db : Database) (hi : Z) : Prop := ∀ k x, db !! k = Some x → lastModifiedLedgerSeq x <= hi.

Lemma elem_of_lives es x : x ∈ lives es ↔ ∃ e, e ∈ es ∧ effect e = Some x.
Proof. unfold lives. apply list_elem_of_omap. Qed.

Lemma payload_body b x : payload b x ↔ x ∈ lives (bodyOf b).
Proof.
  rewrite elem_of_lives. unfold payload. destruct b as [|[v| | |] b]; try done. simpl. split.
  - intros (e & [->|He]%elem_of_cons & Hx); [done|by exists e].
  - intros (e & He & Hx). exists e. split; [by right|done].
Qed.

Lemma applied_upTo b db lo hi : BucketOk b → within b lo hi → lo <= hi → upTo db lo → upTo (applied (bodyOf b) db) hi.
Proof.
  intros Hb Hw Hle Hu k x. rewrite applied_lookup by (by apply ok_body). destruct (entryAt k (bodyOf b)) as [e|] eqn:E.
  - intros Hx. apply (Hw x). apply payload_body, elem_of_lives. exists e. by apply entryAt_key in E as (? & _).
  - intros Hx. specialize (Hu k x Hx). lia.
Qed.

Lemma bucket_passes b lh db s lo hi :
  BucketOk b → within b lo hi → upTo db lo → 0 <= lo < hi → hi < 2 ^ 31 → calm lh (applied (bodyOf b) db) s →
  ∃ s', checkConsistentWithDatabase b (lo + 1) hi s = Ok None s' ∧ calm lh (applied (bodyOf b) db) s'.
Proof.
  intros Hb Hw Hu Hlo Hhi Hc. pose proof (ok_body _ Hb) as Hbd. apply check_passes; try done; try lia.
  - rewrite Forall_forall. intros e He. unfold agrees. rewrite applied_lookup, (entryAt_elem _ e) by done. done.
  - rewrite Forall_forall. intros x Hx%payload_body. specialize (Hw x Hx). lia.
  - intros k x Hx Hr. rewrite applied_lookup in Hx by done. destruct (entryAt k (bodyOf b)) as [e|] eqn:E.
    + apply entryAt_key in E as (He & Hm & <-). split; [apply elem_of_lives; by exists e|]. by destruct e; simplify_eq/=.
    + specialize (Hu k x Hx). lia.
Qed.

Lemma newest_of_range lo size : 0 <= lo → 0 < size → lo + size < 2 ^ 32 → u32 (u32 (u32 (lo + 1) - 1) + size) = lo + size.
Proof. intros. rewrite (u32_narrow (lo + 1)) by lia. rewrite (u32_narrow (lo + 1 - 1)) by lia. rewrite u32_narrow by lia. lia. Qed.

Lemma curr_passes enabled b lh db s i :
  (i < 11)%nat → 0 < bnd i t → BucketOk b → within b (mid i t) (bnd i t) → upTo db (mid i t) → calm lh (applied (bodyOf b) db) s →
  ∃ s', checkOnBucketApply enabled b t (Z.of_nat i) true s = Ok tt s' ∧ calm lh (applied (bodyOf b) db) s'.
Proof.
  intros Hi Hpos Hb Hw Hu Hc. pose proof (curSize_pos i Hpos) as Hs. pose proof (mid_nonneg i t). pose proof (bnd_le i t ltac:(lia)).
  destruct (sizes_Val i t) as [Hsz _]; [lia|lia|]. destruct (oldest_Val i t) as [Hol _]; [lia|lia|].
  unfold checkOnBucketApply. unfold mbind at 1, M_bind at 1, checked at 1. rewrite Hol. unfold mbind at 1, M_bind at 1, checked at 1. rewrite Hsz.
  destruct enabled; [|by exists s]. unfold curSize. rewrite (proj2 (Z.eqb_neq _ _)), newest_of_range by lia.
  replace (mid i t + (bnd i t - mid i t)) with (bnd i t) by lia. rewrite (u32_narrow (mid i t + 1)) by lia.
  destruct (bucket_passes b lh db s (mid i t) (bnd i t)) as (s' & Hs' & Hc'); [done..|lia|lia|done|].
  exists s'. unfold mbind, M_bind. by rewrite Hs'.
Qed.

Lemma snap_passes enabled b lh db s i :
  (i < 10)%nat → 0 < mid i t → BucketOk b → within b (bnd (S i) t) (mid i t) → upTo db (bnd (S i) t) → calm lh (applied (bodyOf b) db) s →
  ∃ s', checkOnBucketApply enabled b t (Z.of_nat i) false s = Ok tt s' ∧ calm lh (applied (bodyOf b) db) s'.
Proof.
  intros Hi Hpos Hb Hw Hu Hc. pose proof (snapSize_pos i Hi Hpos) as Hs. pose proof (bnd_nonneg (S i) t). pose proof (bnd_le i t ltac:(lia)). pose proof (mid_le_bnd i t).
  destruct (sizes_Val i t) as [_ Hsz]; [lia|lia|]. destruct (oldest_Val i t) as [_ Hol]; [lia|lia|].
  unfold checkOnBucketApply. unfold mbind at 1, M_bind at 1, checked at 1. rewrite Hol. unfold mbind at 1, M_bind at 1, checked at 1. rewrite Hsz.
  destruct enabled; [|by exists s]. unfold snapSize. rewrite (proj2 (Nat.ltb_lt i 10)) by lia. rewrite (proj2 (Z.eqb_neq _ _)), newest_of_range by lia.
  replace (bnd (S i) t + (mid i t - bnd (S i) t)) with (mid i t) by lia. rewrite (u32_narrow (bnd (S i) t + 1)) by lia.
  destruct (bucket_passes b lh db s (bnd (S i) t) (mid i t)) as (s' & Hs' & Hc'); [done..|lia|lia|done|].
  exists s'. unfold mbind, M_bind. by rewrite Hs'.
Qed.
End Check.

(** ** The work, level by level *)

Lemma applicator_opens maxP b :
  BucketOk b → versionOf b <= maxP →
  ∃ a, newBucketApplicator maxP b = Val a ∧ reads (mBucketIter a) (bodyOf b) ∧ mMaxProtocolVersion a = maxP.
Proof.
  intros Hb Hv. destruct (open_reads b Hb) as (i & Hi & Hr & Hm). exists (mkApplicator maxP i 0). split; [|done].
  unfold newBucketApplicator. rewrite Hi, bind_Val, Hm. by rewrite (proj2 (Z.ltb_ge _ _)) by lia.
Qed.
Lemma body_legal maxP b : BucketOk b → versionOf b <= maxP → Forall (λ e, isInit e = true → 11 <= maxP) (bodyOf b).
Proof.
  intros Hb Hv. rewrite Forall_forall. intros e He Hi. destruct (decide (versionOf b < 11)) as [Hlt|]; [|lia].
  pose proof (ok_init _ Hb Hlt) as Hn. rewrite Forall_forall in Hn. rewrite (Hn e He) in Hi. done.
Qed.

Section Run.
Context `{HO : HashOrder} `{HF : FileHash} `{HZ : FileSize} (P : ApplyParams) (T local : BucketList) (lh : LedgerHeader) (tot : Z).
Notation t := (p_currentLedger P).
Notation C i := (mCurr (lev T i)).
Notation Sn i := (mSnap (lev T i)).
Notation node l i ap sn cu := (mkNode l local (mkWork i ap tot sn cu)) (only parsing).

Definition cont (n : nat) (r : WorkState) : M Node unit :=
  match r with WORK_RUNNING => crank P n | WORK_SUCCESS => mret tt end.

Lemma crank_complete n l i ap sn cu :
  isLevelComplete (mkWork i ap tot sn cu) = true →
  crank P (S n) (node l i ap sn cu) = (startLevel P;; runSnapApplicator P ≫= cont n) (node l i ap sn cu).
Proof.
  intros Hc. cbn [crank]. unfold onRun, getWork. unfold mbind, M_bind. cbn [n_work]. rewrite Hc. by destruct (startLevel P _).
Qed.
Lemma crank_busy n l i ap sn cu :
  isLevelComplete (mkWork i ap tot sn cu) = false →
  crank P (S n) (node l i ap sn cu) = (runSnapApplicator P ≫= cont n) (node l i ap sn cu).
Proof. intros Hc. cbn [crank]. unfold onRun, getWork. unfold mbind, M_bind. cbn [n_work]. by rewrite Hc. Qed.

Lemma advanceWork_spec a es l lh' db i ap sn cu :
  es ≠ [] → tot ≠ 0 → reads (mBucketIter a) es → Forall (λ e, isInit e = true → 11 <= mMaxProtocolVersion a) es → calm lh' db l →
  ∃ a' l', advanceWork a (node l i ap sn cu) = Ok a' (node l' i ap sn cu) ∧ mMaxProtocolVersion a' = mMaxProtocolVersion a ∧
    reads (mBucketIter a') (drop (Z.to_nat 4095) es) ∧ calm lh' (applied (take (S (Z.to_nat 4095)) es) db) l'.
Proof.
  intros Hne Ht Hr Hl Hc. destruct (advance_spec a es lh' db l) as (a' & count & l' & Ha & Hm & Hr' & Hc'); [done..|].
  exists a', l'. split_and!; try done. unfold advanceWork, getWork. unfold mbind, M_bind. cbn [n_work w_totalSize].
  unfold applicatorAtEntry, atEntry. rewrite (reads_entry _ _ Hr). destruct es; [done|]. cbn [head]. unfold mret, M_ret.
  rewrite (proj2 (Z.eqb_neq tot 0)) by done. cbn [negb]. unfold inLedger. cbn [n_ledger]. by rewrite Ha.
Qed.

Lemma atEntry_cons a e es : reads (mBucketIter a) (e :: es) → applicatorAtEntry a = true.
Proof. intros Hr. unfold applicatorAtEntry, atEntry. by rewrite (reads_entry _ _ Hr). Qed.
Lemma atEntry_nil a : reads (mBucketIter a) [] → applicatorAtEntry a = false.
Proof. intros Hr. unfold applicatorAtEntry, atEntry. by rewrite (reads_entry _ _ Hr). Qed.

(** An applicator runs to its end, a batch per run of the work. *)
Lemma snap_advances m es a l db i b cu :
  (length es <= m)%nat → (es ≠ [] → tot ≠ 0) → reads (mBucketIter a) es → Forall (λ e, isInit e = true → 11 <= mMaxProtocolVersion a) es → calm lh db l →
  ∃ N a' l', reads (mBucketIter a') [] ∧ calm lh (applied es db) l' ∧ ∀ n,
    (runSnapApplicator P ≫= cont (N + n)) (node l i true (Some (b, a)) cu) = (runSnapApplicator P ≫= cont n) (node l' i true (Some (b, a')) cu).
Proof.
  revert es a l db. induction m as [|m IH]; intros [|e es] a l db Hm Ht Hr Hl Hc; try (simpl in Hm; lia); try (by exists 0%nat, a, l).
  destruct (advanceWork_spec a (e :: es) l lh db i true (Some (b, a)) cu) as (a1 & l1 & Ha & Hmx & Hr1 & Hc1); [done|auto|done..|].
  destruct (IH (drop (Z.to_nat 4095) (e :: es)) a1 l1 (applied (take (S (Z.to_nat 4095)) (e :: es)) db)) as (N & a' & l' & Hr' & Hc' & Hn);
    [rewrite length_drop; cbn [length] in *; lia|auto|done|rewrite Hmx; by apply Forall_drop|done|].
  exists (S N), a', l'. rewrite applied_overlap in Hc'. split_and!; [done|done|]. intros n. rewrite <- Hn.
  unfold mbind at 1, M_bind at 1. unfold runSnapApplicator at 1, getWork. unfold mbind at 1, M_bind at 1. cbn [n_work w_snap]. rewrite (atEntry_cons _ _ _ Hr).
  unfold mbind at 1, M_bind at 1. rewrite Ha. cbn -[crank Nat.add]. unfold mret, M_ret, cont at 1. change (S N + n)%nat with (S (N + n)). by apply crank_busy.
Qed.

Lemma curr_advances m es a l db i b :
  (length es <= m)%nat → (es ≠ [] → tot ≠ 0) → reads (mBucketIter a) es → Forall (λ e, isInit e = true → 11 <= mMaxProtocolVersion a) es → calm lh db l →
  ∃ N a' l', reads (mBucketIter a') [] ∧ calm lh (applied es db) l' ∧ ∀ n,
    (runCurrApplicator P ≫= cont (N + n)) (node l i true None (Some (b, a))) = (runCurrApplicator P ≫= cont n) (node l' i true None (Some (b, a'))).
Proof.
  revert es a l db. induction m as [|m IH]; intros [|e es] a l db Hm Ht Hr Hl Hc; try (simpl in Hm; lia); try (by exists 0%nat, a, l).
  destruct (advanceWork_spec a (e :: es) l lh db i true None (Some (b, a))) as (a1 & l1 & Ha & Hmx & Hr1 & Hc1); [done|auto|done..|].
  destruct (IH (drop (Z.to_nat 4095) (e :: es)) a1 l1 (applied (take (S (Z.to_nat 4095)) (e :: es)) db)) as (N & a' & l' & Hr' & Hc' & Hn);
    [rewrite length_drop; cbn [length] in *; lia|auto|done|rewrite Hmx; by apply Forall_drop|done|].
  exists (S N), a', l'. rewrite applied_overlap in Hc'. split_and!; [done|done|]. intros n. rewrite <- Hn.
  unfold mbind at 1, M_bind at 1. unfold runCurrApplicator at 1, getWork. unfold mbind at 1, M_bind at 1. cbn [n_work w_curr]. rewrite (atEntry_cons _ _ _ Hr).
  unfold mbind at 1, M_bind at 1. rewrite Ha. cbn -[crank Nat.add]. unfold mret, M_ret, cont at 1. change (S N + n)%nat with (S (N + n)).
  etrans; [by apply crank_busy|]. done.
Qed.

(** What the work needs of its parameters: [T] is the list to be taken over, [local] the one of a node that has closed
    the first ledger. *)
Record TargetOk : Prop := {
  tg_time : 0 < t < 2 ^ 31;
  tg_levels : length T = 11%nat;
  tg_state : ∀ i, (i < 11)%nat → ∃ nx, p_state P !! i = Some (mkHSB (getHash (C i)) nx (getHash (Sn i)));
  tg_getCurr : ∀ i s, (i < 11)%nat → getBucketOf P (getHash (C i)) s = Ok (C i) s;
  tg_getSnap : ∀ i s, (i < 11)%nat → getBucketOf P (getHash (Sn i)) s = Ok (Sn i) s;
  tg_ok : ∀ i, BucketOk (C i) ∧ BucketOk (Sn i);
  tg_version : ∀ i, versionOf (C i) <= p_maxProtocolVersion P ∧ versionOf (Sn i) <= p_maxProtocolVersion P;
  tg_ranged : Ranged t T;
  tg_early : Early t T;
  tg_last : Sn 10 = [];
  tg_size : ∀ i, (i < 11)%nat → C i ≠ [] ∨ Sn i ≠ [] → tot ≠ 0;
  tg_length : length local = 11%nat;
  tg_localSnap : ∀ i, mSnap (lev local i) = [];
  tg_localCurr : ∀ i, mCurr (lev local (S i)) = [];
  tg_curr : ∀ i, (i < 11)%nat → getHash (C i) = getHash (mCurr (lev local i)) → C i = mCurr (lev local i);
  tg_snap : ∀ i, (i < 11)%nat → getHash (Sn i) = getHash (mSnap (lev local i)) → Sn i = mSnap (lev local i) }.

Context (TG : TargetOk).

Lemma early_curr i : (i < 11)%nat → C i ≠ [] → 0 < bnd i t.
Proof.
  intros Hi Hne. pose proof (tg_time TG). destruct i as [|j]; [rewrite bnd_0 by lia; lia|].
  destruct (tg_early TG j ltac:(lia)) as [_ H2]. assert (Hle : 2 * half j <= t) by (destruct (decide (t < 2 * half j)); [by destruct Hne; auto|lia]).
  unfold bnd. rewrite alpha_S. pose proof (beta_lt_half j). simpl period. pose proof (half_pos j).
  destruct (down_mul (half j) (half_pos j) t) as (q & -> & Hq). assert (2 <= q) by nia. nia.
Qed.
Lemma early_snap j : (j < 10)%nat → Sn j ≠ [] → 0 < mid j t.
Proof.
  intros Hj Hne. pose proof (tg_time TG). destruct (tg_early TG j Hj) as [H1 _].
  assert (Hle : half j <= t) by (destruct (decide (t < half j)) as [Hlt|]; [by destruct (H1 Hlt)|lia]).
  unfold mid. rewrite (proj2 (Nat.ltb_lt _ _)) by lia. pose proof (beta_lt_half j). pose proof (half_pos j).
  destruct (down_mul (half j) (half_pos j) t) as (q & -> & Hq). assert (1 <= q) by nia. nia.
Qed.

(** The applicators of level [i]. *)
Lemma curr_opens i : ∃ a, newBucketApplicator (p_maxProtocolVersion P) (C i) = Val a ∧
  reads (mBucketIter a) (bodyOf (C i)) ∧ mMaxProtocolVersion a = p_maxProtocolVersion P.
Proof. apply applicator_opens; [apply (tg_ok TG)|apply (tg_version TG)]. Qed.
Lemma snap_opens i : ∃ a, newBucketApplicator (p_maxProtocolVersion P) (Sn i) = Val a ∧
  reads (mBucketIter a) (bodyOf (Sn i)) ∧ mMaxProtocolVersion a = p_maxProtocolVersion P.
Proof. apply applicator_opens; [apply (tg_ok TG)|apply (tg_version TG)]. Qed.

Lemma bodyOf_ne b : bodyOf b ≠ [] → b ≠ [].
Proof. by intros H ->. Qed.

Lemma run_curr i a l db :
  (i < 11)%nat → 0 < bnd i t → upTo db (mid i t) → calm lh db l → reads (mBucketIter a) (bodyOf (C i)) → mMaxProtocolVersion a = p_maxProtocolVersion P →
  ∃ N l', calm lh (applied (bodyOf (C i)) db) l' ∧ ∀ n,
    (runCurrApplicator P ≫= cont (N + n)) (node l i true None (Some (C i, a))) = (finishLevel P ≫= cont n) (node l' i true None None).
Proof.
  intros Hi Hpos Hu Hc Hr Hm. destruct (tg_ok TG i) as [Hok _]. destruct (tg_version TG i) as [Hv _].
  destruct (curr_advances (length (bodyOf (C i))) (bodyOf (C i)) a l db i (C i)) as (N & a' & l1 & Hr' & Hc1 & Hn);
    [done|intros Hne; apply (tg_size TG i Hi); left; by apply bodyOf_ne|done|rewrite Hm; by apply body_legal|done|].
  destruct (curr_passes t (tg_time TG) (p_invariant P) (C i) lh db l1 i) as (l2 & Hp & Hc2); [done..|by apply (tg_ranged TG)|done|done|].
  exists N, l2. split; [done|]. intros n. rewrite Hn. unfold mbind at 1, M_bind at 1. unfold runCurrApplicator at 1, getWork. unfold mbind at 1, M_bind at 1.
  cbn [n_work w_curr w_level]. rewrite (atEntry_nil _ Hr'). unfold mbind at 1, M_bind at 1, inLedger. cbn [n_ledger]. rewrite Hp. done.
Qed.

Lemma run_snap i a l db cu :
  (i < 10)%nat → 0 < mid i t → upTo db (bnd (S i) t) → calm lh db l → reads (mBucketIter a) (bodyOf (Sn i)) → mMaxProtocolVersion a = p_maxProtocolVersion P →
  ∃ N l', calm lh (applied (bodyOf (Sn i)) db) l' ∧ ∀ n,
    (runSnapApplicator P ≫= cont (N + n)) (node l i true (Some (Sn i, a)) cu) = (runCurrApplicator P ≫= cont n) (node l' i true None cu).
Proof.
  intros Hi Hpos Hu Hc Hr Hm. destruct (tg_ok TG i) as [_ Hok]. destruct (tg_version TG i) as [_ Hv].
  destruct (snap_advances (length (bodyOf (Sn i))) (bodyOf (Sn i)) a l db i (Sn i) cu) as (N & a' & l1 & Hr' & Hc1 & Hn);
    [done|intros Hne; apply (tg_size TG i); [lia|right; by apply bodyOf_ne]|done|rewrite Hm; by apply body_legal|done|].
  destruct (snap_passes t (tg_time TG) (p_invariant P) (Sn i) lh db l1 i) as (l2 & Hp & Hc2); [done..|by apply (tg_ranged TG); lia|done|done|].
  exists N, l2. split; [done|]. intros n. rewrite Hn. unfold mbind at 1, M_bind at 1. unfold runSnapApplicator at 1, getWork. unfold mbind at 1, M_bind at 1.
  cbn [n_work w_snap w_level]. rewrite (atEntry_nil _ Hr'). unfold mbind at 1, M_bind at 1, inLedger. cbn [n_ledger]. rewrite Hp. done.
Qed.

(** The entries of the levels from [i] on, over an older database. *)
Definition overlays (f : LedgerKey → option BucketEntry) (db0 db : Database) : Prop :=
  ∀ k, db !! k = match f k with Some e => effect e | None => db0 !! k end.

Lemma overlays_applied b f db0 db :
  BucketOk b → overlays f db0 db →
  overlays (λ k, match entryAt k b with Some e => Some e | None => f k end) db0 (applied (bodyOf b) db).
Proof.
  intros Hb Ho k. rewrite applied_lookup, entryAt_body by (by apply ok_body). destruct (entryAt k b); [done|apply Ho].
Qed.

(** The levels from [i] on are in the database. *)
Record Going (i : nat) (db0 db : Database) : Prop := {
  go_overlays : overlays (λ k, newestEntry k (drop i T)) db0 db;
  go_upTo : upTo db (bnd i t);
  go_pos : 0 < bnd i t }.

Lemma newestEntry_drop i k : (i < 11)%nat →
  newestEntry k (drop i T) =
  match entryAt k (C i) with
  | Some e => Some e
  | None => match entryAt k (Sn i) with Some e => Some e | None => newestEntry k (drop (S i) T) end
  end.
Proof.
  intros Hi. assert (Hl : T !! i = Some (lev T i)).
  { unfold lev. destruct (T !! i) eqn:E; [done|]. apply lookup_ge_None in E. rewrite (tg_levels TG) in E. lia. }
  by rewrite (drop_S _ _ _ Hl).
Qed.

Lemma finish_curr i l db db0 f a :
  (i < 11)%nat → 0 < bnd i t → upTo db (mid i t) → calm lh db l → overlays f db0 db →
  (∀ k, f k = match entryAt k (Sn i) with Some e => Some e | None => newestEntry k (drop (S i) T) end) →
  reads (mBucketIter a) (bodyOf (C i)) → mMaxProtocolVersion a = p_maxProtocolVersion P →
  ∃ N l' db', calm lh db' l' ∧ Going i db0 db' ∧ ∀ n,
    (runCurrApplicator P ≫= cont (N + n)) (node l i true None (Some (C i, a))) = (finishLevel P ≫= cont n) (node l' i true None None).
Proof.
  intros Hi Hpos Hu Hc Ho Hf Hr Hm. destruct (run_curr i a l db) as (N & l' & Hc' & Hn); [done..|].
  destruct (tg_ok TG i) as [Hok _]. exists N, l', (applied (bodyOf (C i)) db). split_and!; [done| |done]. split; [| |done].
  - intros k. by rewrite (overlays_applied (C i) f db0 db Hok Ho k), Hf, (newestEntry_drop i k).
  - eapply applied_upTo; [done|by apply (tg_ranged TG)|apply mid_le_bnd|done].
Qed.

Lemma finish_both i l db db0 a b :
  (i < 10)%nat → 0 < mid i t → upTo db (bnd (S i) t) → calm lh db l → overlays (λ k, newestEntry k (drop (S i) T)) db0 db →
  reads (mBucketIter a) (bodyOf (Sn i)) → mMaxProtocolVersion a = p_maxProtocolVersion P →
  reads (mBucketIter b) (bodyOf (C i)) → mMaxProtocolVersion b = p_maxProtocolVersion P →
  ∃ N l' db', calm lh db' l' ∧ Going i db0 db' ∧ ∀ n,
    (runSnapApplicator P ≫= cont (N + n)) (node l i true (Some (Sn i, a)) (Some (C i, b))) = (finishLevel P ≫= cont n) (node l' i true None None).
Proof.
  intros Hi Hpos Hu Hc Ho Hra Hma Hrb Hmb. destruct (run_snap i a l db (Some (C i, b))) as (N1 & l1 & Hc1 & Hn1); [done..|].
  destruct (tg_ok TG i) as [_ Hok]. pose proof (mid_le_bnd i t).
  destruct (finish_curr i l1 (applied (bodyOf (Sn i)) db) db0
    (λ k, match entryAt k (Sn i) with Some e => Some e | None => newestEntry k (drop (S i) T) end) b)
    as (N2 & l2 & db' & Hc2 & Hg & Hn2); [lia|lia| |done|by apply (overlays_applied (Sn i))|done|done|done|].
  { eapply applied_upTo; [done|by apply (tg_ranged TG); lia|apply bnd_S_le_mid; lia|done]. }
  exists (N1 + N2)%nat, l2, db'. split_and!; [done|done|]. intros n. rewrite <- Nat.add_assoc, Hn1. apply Hn2.
Qed.

Lemma local_level i : (i < 11)%nat → levelAt local i = Val (lev local i).
Proof. intros Hi. apply levelAt_lev. rewrite (tg_length TG). done. Qed.

Lemma delete_calm db l o :
  calm lh db l → ∃ l', deleteObjectsModifiedOnOrAfterLedger o l = Ok tt l' ∧ calm lh (filter (λ kv, lastModifiedLedgerSeq kv.2 < o) db) l'.
Proof.
  intros [Ht Hr]. unfold deleteObjectsModifiedOnOrAfterLedger, rootThrowIfChild, get, mbind, M_bind. rewrite Ht. eexists. split; [done|].
  split; [done|]. cbn [root]. by rewrite Hr.
Qed.
Lemma filter_upTo (db : Database) o : upTo (filter (λ kv, lastModifiedLedgerSeq kv.2 < o + 1) db) o.
Proof. intros k x [_ Hx]%map_lookup_filter_Some. simpl in Hx. lia. Qed.
Lemma overlays_none f (db : Database) : (∀ k, f k = None) → overlays f db db.
Proof. intros Hf k. by rewrite Hf. Qed.

(** A level after one that was applied. *)
Lemma level_going i l db db0 :
  (i < 10)%nat → calm lh db l → Going (S i) db0 db →
  ∃ N l' db', calm lh db' l' ∧ Going i db0 db' ∧ ∀ n, crank P (N + n) (node l i true None None) = (finishLevel P ≫= cont n) (node l' i true None None).
Proof.
  intros Hi Hc [Ho Hu Hpos]. destruct (tg_state TG i) as (nx & Hst); [lia|].
  destruct (snap_opens i) as (a & Ha & Hra & Hma). destruct (curr_opens i) as (b & Hb & Hrb & Hmb).
  pose proof (bnd_S_le_mid i t ltac:(lia)).
  destruct (finish_both i l db db0 a b) as (N & l' & db' & Hc' & Hg & Hn); [lia|lia|done..|].
  exists (S N), l', db'. split_and!; [done|done|]. intros n. cbn [Nat.add]. rewrite crank_complete by done.
  assert (Hs : startLevel P (node l i true None None) = Ok tt (node l i true (Some (Sn i, a)) (Some (C i, b)))).
  { unfold startLevel, getWork, putWork, get, modify. unfold mbind, M_bind. cbn [n_work n_list w_level w_applying w_snap w_curr w_totalSize isLevelComplete present negb orb andb].
    unfold mret, M_ret, checked at 1. rewrite local_level by lia. rewrite Hst. cbn [hs_snap hs_curr w_level].
    rewrite (tg_getSnap TG i _ ltac:(lia)). unfold checked at 1. rewrite Ha. cbn [n_work n_list n_ledger w_level w_applying w_snap w_curr w_totalSize orb].
    rewrite (tg_getCurr TG i _ ltac:(lia)). unfold checked at 1. rewrite Hb. done. }
  unfold mbind at 1, M_bind at 1. rewrite Hs. apply Hn.
Qed.

Definition skipped (i : nat) : Prop := ∀ m, (i <= m < 11)%nat → C m = mCurr (lev local m) ∧ Sn m = [].

Lemma skipped_none i k : (i <= 11)%nat → skipped (S i) → newestEntry k (drop (S i) T) = None.
Proof.
  intros Hi Hs. remember (11 - S i)%nat as d eqn:Hd. revert i Hi Hs Hd. induction d as [|d IH]; intros i Hi Hs Hd.
  { rewrite drop_ge; [done|]. rewrite (tg_levels TG). lia. }
  rewrite (newestEntry_drop (S i) k) by lia. destruct (Hs (S i)) as [-> ->]; [lia|]. rewrite (tg_localCurr TG). simpl.
  apply IH; [lia| |lia]. intros m Hm. apply Hs. lia.
Qed.

Lemma start_skips i l :
  (i < 11)%nat → C i = mCurr (lev local i) → Sn i = [] → startLevel P (node l i false None None) = Ok tt (node l i false None None).
Proof.
  intros Hi Hcu Hsn. destruct (tg_state TG i Hi) as (nx & Hst). unfold startLevel, getWork, get. unfold mbind, M_bind.
  cbn [n_work n_list w_level w_applying w_snap w_curr isLevelComplete present negb orb andb]. unfold mret, M_ret, checked at 1.
  rewrite local_level, Hst by done. cbn [hs_snap hs_curr]. rewrite Hcu, Hsn, (tg_localSnap TG), !Z.eqb_refl. done.
Qed.

(** The first level that differs in its snapshot. *)
Lemma start_with_snap i l db a b :
  (i < 10)%nat → calm lh db l → Sn i ≠ [] → newBucketApplicator (p_maxProtocolVersion P) (Sn i) = Val a →
  newBucketApplicator (p_maxProtocolVersion P) (C i) = Val b →
  ∃ l', calm lh (filter (λ kv, lastModifiedLedgerSeq kv.2 < bnd (S i) t + 1) db) l' ∧
    startLevel P (node l i false None None) = Ok tt (node l' i true (Some (Sn i, a)) (Some (C i, b))).
Proof.
  intros Hi Hc Hne Ha Hb. destruct (tg_state TG i) as (nx & Hst); [lia|]. pose proof (tg_time TG).
  pose proof (snapSize_pos t i Hi (early_snap i Hi Hne)). pose proof (bnd_nonneg (S i) t). pose proof (mid_le_bnd i t). pose proof (bnd_le i t ltac:(lia)).
  destruct (delete_calm db l (bnd (S i) t + 1) Hc) as (l' & Hd & Hc'). exists l'. split; [done|].
  assert (Hdiff : (getHash (Sn i) =? getHash (mSnap (lev local i))) = false).
  { apply Z.eqb_neq. intros Heq. apply Hne. rewrite (tg_snap TG i) by (lia || done). apply (tg_localSnap TG). }
  destruct (oldest_Val i t) as [_ Hol]; [lia|lia|]. unfold snapSize in Hol. rewrite (proj2 (Nat.ltb_lt i 10)) in Hol by lia.
  rewrite (proj2 (Z.eqb_neq _ _)), u32_narrow in Hol by lia.
  unfold startLevel, getWork, putWork, get, modify. unfold mbind, M_bind.
  cbn [n_work n_list w_level w_applying w_snap w_curr w_totalSize isLevelComplete present negb orb andb].
  unfold mret, M_ret, checked at 1. rewrite local_level by lia. rewrite Hst. cbn [hs_snap hs_curr]. rewrite Hdiff. cbn [negb orb].
  unfold checked at 1. rewrite Hol. unfold inLedger. cbn [n_ledger]. rewrite Hd. cbn [n_list n_work].
  rewrite (tg_getSnap TG i _ ltac:(lia)). unfold checked at 1. rewrite Ha. cbn [n_work n_list n_ledger w_level w_applying w_snap w_curr w_totalSize orb].
  rewrite (tg_getCurr TG i _ ltac:(lia)). unfold checked at 1. rewrite Hb. done.
Qed.

(** The first level that differs, in its current bucket only. *)
Lemma start_with_curr i l db b :
  (i < 11)%nat → calm lh db l → Sn i = [] → C i ≠ mCurr (lev local i) → 0 < bnd i t →
  newBucketApplicator (p_maxProtocolVersion P) (C i) = Val b →
  ∃ l', calm lh (filter (λ kv, lastModifiedLedgerSeq kv.2 < mid i t + 1) db) l' ∧
    startLevel P (node l i false None None) = Ok tt (node l' i true None (Some (C i, b))).
Proof.
  intros Hi Hc Hsn Hne Hpos Hb. destruct (tg_state TG i) as (nx & Hst); [lia|]. pose proof (tg_time TG).
  pose proof (curSize_pos t i Hpos). pose proof (mid_nonneg i t). pose proof (bnd_le i t ltac:(lia)).
  destruct (delete_calm db l (mid i t + 1) Hc) as (l' & Hd & Hc'). exists l'. split; [done|].
  assert (Hdiff : (getHash (C i) =? getHash (mCurr (lev local i))) = false).
  { apply Z.eqb_neq. intros Heq. by apply Hne, (tg_curr TG i). }
  destruct (oldest_Val i t) as [Hol _]; [lia|lia|]. unfold curSize in Hol. rewrite (proj2 (Z.eqb_neq _ _)), u32_narrow in Hol by lia.
  unfold startLevel, getWork, putWork, get, modify. unfold mbind, M_bind.
  cbn [n_work n_list w_level w_applying w_snap w_curr w_totalSize isLevelComplete present negb orb andb].
  unfold mret, M_ret, checked at 1. rewrite local_level by lia. rewrite Hst. cbn [hs_snap hs_curr]. rewrite Hsn, (tg_localSnap TG), Z.eqb_refl, Hdiff. cbn [negb orb].
  unfold checked at 1. rewrite Hol. unfold inLedger. cbn [n_ledger]. rewrite Hd. cbn [n_list n_work w_applying orb].
  rewrite (tg_getCurr TG i _ ltac:(lia)). unfold checked at 1. rewrite Hb. done.
Qed.

Lemma level_first i l db :
  (i < 11)%nat → calm lh db l → skipped (S i) → ¬ skipped i →
  ∃ N l' db0 db', (∀ k x, db0 !! k = Some x → db !! k = Some x) ∧ calm lh db' l' ∧ Going i db0 db' ∧
    ∀ n, crank P (N + n) (node l i false None None) = (finishLevel P ≫= cont n) (node l' i true None None).
Proof.
  intros Hi Hc Hsk Hns. destruct (curr_opens i) as (b & Hb & Hrb & Hmb).
  assert (Hsub : ∀ o k x, filter (λ kv, lastModifiedLedgerSeq kv.2 < o) db !! k = Some x → db !! k = Some x).
  { intros o k x Hx. by apply map_lookup_filter_Some in Hx as [? _]. }
  destruct (decide (Sn i = [])) as [Hsn|Hsn].
  - assert (Hne : C i ≠ mCurr (lev local i)).
    { intros Heq. apply Hns. intros m Hm. destruct (decide (m = i)) as [->|]; [done|apply Hsk; lia]. }
    assert (Hpos : 0 < bnd i t).
    { pose proof (tg_time TG). destruct i as [|j]; [rewrite bnd_0 by lia; lia|]. apply early_curr; [done|]. by rewrite (tg_localCurr TG) in Hne. }
    destruct (start_with_curr i l db b) as (l1 & Hc1 & Hs); [done..|].
    destruct (finish_curr i l1 (filter (λ kv, lastModifiedLedgerSeq kv.2 < mid i t + 1) db) (filter (λ kv, lastModifiedLedgerSeq kv.2 < mid i t + 1) db)
      (λ _, None) b) as (N & l' & db' & Hc' & Hg & Hn); [done|done|apply filter_upTo|done|by apply overlays_none| |done|done|].
    { intros k. rewrite Hsn. simpl. by rewrite skipped_none by (lia || done). }
    exists (S N), l', (filter (λ kv, lastModifiedLedgerSeq kv.2 < mid i t + 1) db), db'. split_and!; [apply Hsub|done|done|].
    intros n. cbn [Nat.add]. rewrite crank_complete by done. unfold mbind at 1, M_bind at 1. rewrite Hs. apply Hn.
  - assert (Hi10 : (i < 10)%nat) by (destruct (decide (i = 10%nat)) as [->|]; [by destruct Hsn; apply (tg_last TG)|lia]).
    destruct (snap_opens i) as (a & Ha & Hra & Hma). destruct (start_with_snap i l db a b) as (l1 & Hc1 & Hs); [done..|].
    destruct (finish_both i l1 (filter (λ kv, lastModifiedLedgerSeq kv.2 < bnd (S i) t + 1) db) (filter (λ kv, lastModifiedLedgerSeq kv.2 < bnd (S i) t + 1) db) a b)
      as (N & l' & db' & Hc' & Hg & Hn); [done|by apply early_snap|apply filter_upTo|done| |done|done|done|done|].
    { apply overlays_none. intros k. by apply skipped_none; [lia|]. }
    exists (S N), l', (filter (λ kv, lastModifiedLedgerSeq kv.2 < bnd (S i) t + 1) db), db'. split_and!; [apply Hsub|done|done|].
    intros n. cbn [Nat.add]. rewrite crank_complete by done. unfold mbind at 1, M_bind at 1. rewrite Hs. apply Hn.
Qed.

(** *** All levels *)

Context (T' : BucketList) (Hassume : assumeState (p_files P) (p_state P) (p_maxProtocolVersion P) local = Val T').

Lemma finish_last n l ap : (finishLevel P ≫= cont n) (node l 0 ap None None) = Ok tt (mkNode l T' (mkWork 0 ap tot None None)).
Proof. unfold finishLevel, getWork, get, modify. unfold mbind, M_bind. cbn [n_work w_level n_list]. unfold checked. by rewrite Hassume. Qed.
Lemma finish_next n l i ap : (finishLevel P ≫= cont n) (node l (S i) ap None None) = crank P n (node l i ap None None).
Proof. done. Qed.

Lemma going_ends i l db db0 :
  (i < 11)%nat → calm lh db l → Going i db0 db →
  ∃ N l' db', calm lh db' l' ∧ Going 0 db0 db' ∧
    ∀ n, (finishLevel P ≫= cont (N + n)) (node l i true None None) = Ok tt (mkNode l' T' (mkWork 0 true tot None None)).
Proof.
  revert l db. induction i as [|i IH]; intros l db Hi Hc Hg.
  { exists 0%nat, l, db. split_and!; [done|done|]. intros n. apply finish_last. }
  destruct (level_going i l db db0) as (N1 & l1 & db1 & Hc1 & Hg1 & Hn1); [lia|done|done|].
  destruct (IH l1 db1 ltac:(lia) Hc1 Hg1) as (N2 & l2 & db2 & Hc2 & Hg2 & Hn2).
  exists (N1 + N2)%nat, l2, db2. split_and!; [done|done|]. intros n. by rewrite finish_next, <- Nat.add_assoc, Hn1, Hn2.
Qed.

Lemma crank_ends i l db :
  (i < 11)%nat → calm lh db l → skipped (S i) →
  ∃ N l' db' ap, calm lh db' l' ∧
    ((db' = db ∧ skipped 0) ∨ ∃ db0, (∀ k x, db0 !! k = Some x → db !! k = Some x) ∧ Going 0 db0 db') ∧
    ∀ n, crank P (N + n) (node l i false None None) = Ok tt (mkNode l' T' (mkWork 0 ap tot None None)).
Proof.
  induction i as [|i IH]; intros Hi Hc Hsk.
  all: match type of Hsk with skipped (S ?i) => destruct (decide (C i = mCurr (lev local i) ∧ Sn i = [])) as [[Hcu Hsn]|Hne] end.
  2,4: match type of Hsk with skipped (S ?i) => destruct (level_first i l db) as (N1 & l1 & db0 & db1 & Hsub & Hc1 & Hg & Hn1); [done|done|done| |];
         [intros Hs; apply Hne, Hs; lia|]; destruct (going_ends i l1 db1 db0) as (N2 & l2 & db2 & Hc2 & Hg2 & Hn2); [done|done|done|];
         exists (N1 + N2)%nat, l2, db2, true; split_and!; [done|right; by exists db0|]; intros n; by rewrite <- Nat.add_assoc, Hn1, Hn2 end.
  - exists 1%nat, l, db, false. split_and!; [done|left; split; [done|]|].
    + intros m Hm. destruct (decide (m = 0%nat)) as [->|]; [done|apply Hsk; lia].
    + intros n. change (1 + n)%nat with (S n). rewrite crank_complete by done. unfold mbind at 1, M_bind at 1. rewrite start_skips by done. apply finish_last.
  - assert (Hsk' : skipped (S i)).
    { intros m Hm. destruct (decide (m = S i)) as [->|]; [done|apply Hsk; lia]. }
    destruct (IH ltac:(lia) Hc Hsk') as (N & l' & db' & ap & Hc' & Hor & Hn). exists (S N), l', db', ap. split_and!; [done|done|].
    intros n. cbn [Nat.add]. rewrite crank_complete by done. unfold mbind at 1, M_bind at 1. rewrite start_skips by done. etrans; [apply finish_next|apply Hn].
Qed.
End Run.
