(* ===== verification/BucketCatchup.v ===== *)
(** * Catching up with buckets

    A node that has the first ledger takes the buckets of another node that is at ledger [t]: [ApplyBucketsWork] applies
    those that differ from its own to the database and then takes over the list. [catchup_rebuilds_ledger]: the work ends
    with success, the check after every bucket passes, the database holds the ledger, and the bucket list is the one of the
    other node. *)
From stdpp Require Import base list gmap strings sorting.
From Stdlib Require Import ZArith Lia.
From S2P Require Import Prelude Numeric LedgerEntries Buckets BucketsSpec BucketList BucketWords BucketListSpec BucketLedger BucketRestart LedgerTxn TrustLines LedgerTxnSpec BucketSizes BucketApply BucketApplySpec BucketWork.

(** ** The saved state of another node *)

Section Saved.
Context `{HF : FileHash}.

Definition sameHashes (b b' : HistoryStateBucket) : Prop := hs_curr b' = hs_curr b ∧ hs_snap b' = hs_snap b.

Lemma resolveAny_hashes bs bs' : resolveAnyReadyFutures bs = Val bs' → Forall2 sameHashes bs bs'.
Proof.
  revert bs'. induction bs as [|b bs IH]; intros bs' Hr; [injection Hr as <-; constructor|]. cbn [resolveAnyReadyFutures] in Hr.
  destruct (if isMerging (hs_next b) then _ else _) as [b1| | |] eqn:E; try done. rewrite bind_Val in Hr.
  destruct (resolveAnyReadyFutures bs) as [bs1| | |]; try done. rewrite bind_Val in Hr. injection Hr as <-. constructor; [|by apply IH].
  destruct (isMerging (hs_next b)); [|by injection E as <-]. destruct (mergeComplete (hs_next b)) as [c| | |]; try done. rewrite bind_Val in E.
  destruct c; [|by injection E as <-]. destruct (resolve (hs_next b)) as [[f x]| | |]; try done. rewrite bind_Val in E. by injection E as <-.
Qed.
Lemma saved_hashes bs ss has : serialize bs = Val ss → deserialize ss = Val has → Forall2 sameHashes bs has.
Proof.
  rewrite deserialize_eq. revert ss has. induction bs as [|b bs IH]; intros ss has Hs Hd; [injection Hs as <-; injection Hd as <-; constructor|].
  cbn [serialize] in Hs. destruct (save (hs_next b)) as [sv| | |]; try done. rewrite bind_Val in Hs.
  destruct (serialize bs) as [r| | |] eqn:E; try done. rewrite bind_Val in Hs. injection Hs as <-.
  cbn [loadBuckets] in Hd. destruct (FutureBuckets.load sv) as [f| | |]; try done. rewrite bind_Val in Hd.
  destruct (loadBuckets r) as [r'| | |] eqn:E'; try done. rewrite bind_Val in Hd. injection Hd as <-. constructor; [done|by eapply IH].
Qed.

Lemma saved_state_hashes ls saved has i l :
  savedState ls = Val saved → deserialize saved = Val has → ls !! i = Some l →
  ∃ nx, has !! i = Some (mkHSB (getHash (mCurr l)) nx (getHash (mSnap l))).
Proof.
  unfold savedState. intros Hs Hd Hl. destruct (resolveAnyReadyFutures _) as [bs| | |] eqn:Hr; try done. rewrite bind_Val in Hs.
  apply resolveAny_hashes in Hr. pose proof (saved_hashes _ _ _ Hs Hd) as H2. unfold historyArchiveState in Hr.
  assert (H0 : ((λ l, mkHSB (getHash (mCurr l)) (mNextCurr l) (getHash (mSnap l))) <$> ls) !! i = Some (mkHSB (getHash (mCurr l)) (mNextCurr l) (getHash (mSnap l)))).
  { by rewrite list_lookup_fmap, Hl. }
  destruct (Forall2_lookup_l _ _ _ _ _ Hr H0) as (b1 & Hb1 & H3 & H4). destruct (Forall2_lookup_l _ _ _ _ _ H2 Hb1) as ([c nx sn] & Hb2 & H5 & H6).
  exists nx. simpl in *. by rewrite Hb2, H5, H6, H3, H4.
Qed.
Lemma saved_state_length ls saved has : savedState ls = Val saved → deserialize saved = Val has → length has = length ls.
Proof.
  unfold savedState. intros Hs Hd. destruct (resolveAnyReadyFutures _) as [bs| | |] eqn:Hr; try done. rewrite bind_Val in Hs.
  apply resolveAny_hashes in Hr. pose proof (saved_hashes _ _ _ Hs Hd) as H2.
  apply Forall2_length in Hr, H2. unfold historyArchiveState in Hr. rewrite length_fmap in Hr. congruence.
Qed.

Lemma assumeBuckets_ext files has levels levels' :
  mLevel <$> levels = mLevel <$> levels' → assumeBuckets files has levels = assumeBuckets files has levels'.
Proof.
  revert levels' has. induction levels as [|l levels IH]; intros [|l' levels'] has Hm; try done.
  rewrite !fmap_cons in Hm. injection Hm as H1 H2. destruct has as [|b has]; [done|]. cbn [assumeBuckets].
  destruct (getBucketByHash files (hs_curr b)) as [c|]; [|done]. destruct (getBucketByHash files (hs_snap b)) as [sn|]; [|done].
  rewrite (IH levels' has H2). unfold setNext, setSnap, setCurr. cbn. by rewrite H1.
Qed.

Lemma buckets_lev a b i : buckets a = buckets b → mCurr (lev a i) = mCurr (lev b i) ∧ mSnap (lev a i) = mSnap (lev b i).
Proof.
  unfold buckets. intros Hb. assert (Hl : (λ l, (mCurr l, mSnap l)) <$> a !! i = (λ l, (mCurr l, mSnap l)) <$> b !! i).
  { by rewrite <- !list_lookup_fmap, Hb. }
  unfold lev. destruct (a !! i), (b !! i); simpl in Hl; by simplify_eq.
Qed.
End Saved.

(** ** Catching up *)

Section Total.
Context `{HF : FileHash} `{HZ : FileSize} (P : ApplyParams) (Hsize : ∀ b, b ≠ [] → 0 < fileSize b).

Lemma getSize_pos b : 0 <= getSize b ∧ (b ≠ [] → 0 < getSize b).
Proof. destruct b as [|e b]; [done|]. unfold getSize. pose proof (Hsize (e :: b) ltac:(done)). split; [lia|done]. Qed.

Lemma addBuckets_total bs tot s :
  0 <= tot →
  (∀ h, h ∈ bs → ∃ sn cu, (∀ s, getBucketOf P (hs_snap h) s = Ok sn s) ∧ (∀ s, getBucketOf P (hs_curr h) s = Ok cu s)) →
  ∃ tot', addBuckets P bs tot s = Ok tot' s ∧ tot <= tot' ∧
    ∀ h b, h ∈ bs → getBucketOf P (hs_snap h) s = Ok b s ∨ getBucketOf P (hs_curr h) s = Ok b s → b ≠ [] → 0 < tot'.
Proof.
  revert tot. induction bs as [|h bs IH]; intros tot Htot Hb; [exists tot; split_and!; [done|lia|set_solver]|].
  destruct (Hb h ltac:(left)) as (sn & cu & Hsn & Hcu). destruct (getSize_pos sn) as [Hs1 Hs2], (getSize_pos cu) as [Hc1 Hc2].
  set (tot1 := if 0 <? getSize sn then tot + getSize sn else tot). set (tot2 := if 0 <? getSize cu then tot1 + getSize cu else tot1).
  assert (Ht1 : tot1 = tot + getSize sn) by (unfold tot1; case_match; propify; lia).
  assert (Ht2 : tot2 = tot1 + getSize cu) by (unfold tot2; case_match; propify; lia).
  destruct (IH tot2) as (tot' & Ha & Hle & Hpos); [lia|intros h' Hh'; apply Hb; by right|]. exists tot'. split_and!; [|lia|].
  - cbn [addBuckets]. unfold mbind, M_bind. rewrite Hsn, Hcu. exact Ha.
  - intros h' b [->|Hin]%elem_of_cons Hor Hne; [|by eapply Hpos]. rewrite Hsn, Hcu in Hor.
    destruct Hor as [[= <-]|[= <-]]; [specialize (Hs2 Hne)|specialize (Hc2 Hne)]; lia.
Qed.
End Total.

(** A node with the first ledger, and another one that has closed [g :: bs], whose state and files the first one has
    got. *)
Record CanCatchUp `{FileHash} `{FileSize} (g : Batch) (bs : list Batch) (remote local : BucketList) (P : ApplyParams) : Prop := {
  cu_length : Z.of_nat (length (g :: bs)) < 2 ^ 31;
  cu_good : goodBatches 0 ∅ (g :: bs);
  cu_stamped : ∀ n b, (g :: bs) !! n = Some b → stamped (Z.of_nat n + 1) b;
  cu_remote : node (g :: bs) remote;
  cu_local : closeLedgers 1 newBucketList [g] = Val local;
  (** What the first ledger had still exists. *)
  cu_genesis : ∀ k, is_Some (ledgerAfter [g] !! k) → is_Some (ledgerAfter (g :: bs) !! k);
  (** The published state, its ledger and protocol. *)
  cu_state : ∃ saved, savedState remote = Val saved ∧ deserialize saved = Val (p_state P);
  cu_ledger : p_currentLedger P = Z.of_nat (length (g :: bs));
  cu_protocol : p_maxProtocolVersion P = protocolAfter 0 (g :: bs);
  (** The files, under their hashes; those that were downloaded are in the directory. *)
  cu_files : hasFiles (p_files P) (remote ≫= levelRefs);
  cu_buckets : ∀ h b, p_buckets P !! h = Some b → getBucketByHash (p_files P) h = Some b;
  (** The hash tells the buckets of the two nodes apart, and a file that is there is not empty. *)
  cu_hash : ∀ b b', b ∈ shadowsOf remote → b' ∈ shadowsOf local → getHash b = getHash b' → b = b';
  cu_size : ∀ b, b ≠ [] → 0 < fileSize b }.

Section Catchup.
Context `{HO : HashOrder} `{HF : FileHash} `{HZ : FileSize}.
Context (g : Batch) (bs : list Batch) (remote local : BucketList) (P : ApplyParams) (CU : CanCatchUp g bs remote local P).

(** The list of a node that never stopped. *)
Lemma target_list :
  ∃ T, closeLedgers 1 newBucketList (g :: bs) = Val T ∧ buckets T = buckets remote ∧
    ListInv (protocolAfter 0 (g :: bs)) (Z.of_nat (length (g :: bs))) T (λ k, ledgerAfter (g :: bs) !! k) ∧
    Ranged (Z.of_nat (length (g :: bs))) T ∧ Early (Z.of_nat (length (g :: bs))) T.
Proof.
  pose proof (cu_length _ _ _ _ _ CU) as Hlen. pose proof (cu_good _ _ _ _ _ CU) as Hgood.
  destruct (node_inv _ _ (cu_remote _ _ _ _ _ CU) Hgood ltac:(lia)) as [(T & Hc & Hinv & Hsame) _].
  exists T. split; [exact Hc|split; [symmetry; by apply sameList_buckets|split; [exact Hinv|split]]].
  - destruct (closeLedgers_ranged 0 0 newBucketList ∅ (g :: bs)) as (T' & Hc' & HR); [lia|lia|lia|apply newBucketList_inv|exact Hgood|apply newBucketList_ranged| |].
    { intros n b Hn. replace (0 + 1 + Z.of_nat n) with (Z.of_nat n + 1) by lia. by apply (cu_stamped _ _ _ _ _ CU). }
    change (0 + 1) with 1 in Hc'. rewrite Hc in Hc'. injection Hc' as <-. exact HR.
  - apply (closeLedgers_early 0 newBucketList (g :: bs) T); [lia|lia|reflexivity|exact Hc|apply newBucketList_early].
Qed.

Lemma local_list :
  length local = 11%nat ∧ (∀ i, (i < 11)%nat → mLevel (lev local i) = Z.of_nat i) ∧
  (∀ i, mSnap (lev local i) = []) ∧ (∀ i, mCurr (lev local (S i)) = []) ∧ ∀ k, shows local k = ledgerAfter [g] !! k.
Proof.
  pose proof (cu_good _ _ _ _ _ CU) as Hgood. pose proof (cu_local _ _ _ _ _ CU) as Hc.
  destruct (closeLedgers_inv 0 0 newBucketList ∅ [g]) as (L & Hc' & Hinv); [lia|lia|done|apply newBucketList_inv| |].
  { split; [apply Hgood|exact I]. }
  change (0 + 1) with 1 in Hc'. rewrite Hc in Hc'. injection Hc' as <-. destruct Hinv as [[Hl Hlev _ _ _ Hlast _ Hst] _].
  pose proof (closeLedgers_early 0 newBucketList [g] local ltac:(lia) ltac:(done) eq_refl Hc newBucketList_early) as HE.
  change (0 + Z.of_nat (length [g])) with 1 in HE.
  assert (Hh : ∀ j, 1 < half j) by (intros j; unfold half; apply (Z.pow_gt_1 2); lia).
  assert (Hdef : ∀ i, (11 <= i)%nat → lev local i = emptyLevel) by (intros i Hi; unfold lev; by rewrite lookup_ge_None_2 by lia).
  split_and!; [done|exact Hlev| | |].
  - intros i. destruct (decide (i < 10)%nat) as [Hi|]; [by apply (HE i Hi), Hh|]. destruct (decide (i = 10%nat)) as [->|]; [done|]. by rewrite Hdef by lia.
  - intros i. destruct (decide (i < 10)%nat) as [Hi|]; [|by rewrite Hdef by lia]. apply (HE i Hi). specialize (Hh i). lia.
  - intros k. by rewrite shows_word, Hst.
Qed.

Lemma elem_of_lev (ls : BucketList) i b : (i < length ls)%nat → b = mCurr (lev ls i) ∨ b = mSnap (lev ls i) → b ∈ shadowsOf ls ∧ b ∈ ls ≫= levelRefs.
Proof.
  intros Hi Hb. destruct (lookup_lt_is_Some_2 ls i Hi) as [l Hl]. unfold lev in Hb. rewrite Hl in Hb. simpl in Hb.
  apply list_elem_of_lookup_2 in Hl. unfold shadowsOf, levelRefs. split; apply list_elem_of_bind; exists l; set_solver.
Qed.

Lemma remote_length : length remote = 11%nat.
Proof.
  destruct target_list as (T & _ & Hb & [[Hl _ _ _ _ _ _ _] _] & _). unfold buckets in Hb. apply (f_equal length) in Hb. rewrite !length_fmap in Hb. congruence.
Qed.

Lemma bucket_found T i b s :
  buckets T = buckets remote → (i < 11)%nat → b = mCurr (lev T i) ∨ b = mSnap (lev T i) → getBucketOf P (getHash b) s = Ok b s.
Proof.
  intros Hb Hi Hor. destruct (buckets_lev T remote i Hb) as [H1 H2]. rewrite H1, H2 in Hor.
  destruct (elem_of_lev remote i b) as [_ Hin]; [by rewrite remote_length|done|]. apply (cu_files _ _ _ _ _ CU) in Hin.
  unfold getBucketOf. destruct (p_buckets P !! getHash b) as [b'|] eqn:E; [|by rewrite Hin]. apply (cu_buckets _ _ _ _ _ CU) in E. by simplify_eq.
Qed.

Lemma assumes : ∃ T', assumeState (p_files P) (p_state P) (p_maxProtocolVersion P) local = Val T' ∧ buckets T' = buckets remote.
Proof.
  pose proof (cu_length _ _ _ _ _ CU) as Hlen. pose proof (node_inv _ _ (cu_remote _ _ _ _ _ CU) (cu_good _ _ _ _ _ CU) ltac:(lia)) as Hi.
  destruct (node_can_restart _ _ _ Hi (cu_files _ _ _ _ _ CU)) as (saved & T' & H1 & H2 & H3 & _).
  destruct (cu_state _ _ _ _ _ CU) as (saved' & H1' & Hd). rewrite H1 in H1'. injection H1' as <-.
  exists T'. split; [|symmetry; by apply sameList_buckets]. unfold restart in H2. rewrite Hd, bind_Val in H2.
  rewrite (cu_protocol _ _ _ _ _ CU). unfold assumeState in *. destruct local_list as (Hl & Hlev & _).
  rewrite (assumeBuckets_ext _ _ local newBucketList); [done|]. apply list_eq_same_length with 11%nat; [by rewrite length_fmap|by rewrite length_fmap|].
  intros i x y Hi11. rewrite !list_lookup_fmap. unfold lev in Hlev. specialize (Hlev i Hi11).
  destruct (local !! i) as [l|] eqn:El; [|by intros]. simpl in *. rewrite Hlev. intros [= <-] Hy.
  do 11 (destruct i as [|i]; [by injection Hy as <-|]). lia.
Qed.

Lemma onReset_total T s :
  buckets T = buckets remote →
  ∃ tot, onReset P s = Ok tt (mkNode (n_ledger s) (n_list s) (mkWork 10 false tot None None)) ∧
    ∀ i, (i < 11)%nat → mCurr (lev T i) ≠ [] ∨ mSnap (lev T i) ≠ [] → tot ≠ 0.
Proof.
  intros Hb. destruct (cu_state _ _ _ _ _ CU) as (saved & Hs & Hd). pose proof (saved_state_length _ _ _ Hs Hd) as Hlen. rewrite remote_length in Hlen.
  assert (Hst : ∀ i h, p_state P !! i = Some h → hs_snap h = getHash (mSnap (lev T i)) ∧ hs_curr h = getHash (mCurr (lev T i)) ∧ (i < 11)%nat).
  { intros i h Hh. pose proof (lookup_lt_Some _ _ _ Hh) as Hi. rewrite Hlen in Hi.
    destruct (lookup_lt_is_Some_2 remote i) as [l Hl]; [by rewrite remote_length|]. destruct (saved_state_hashes _ _ _ _ _ Hs Hd Hl) as (nx & Hx).
    rewrite Hh in Hx. injection Hx as ->. destruct (buckets_lev T remote i Hb) as [-> ->]. unfold lev. by rewrite Hl. }
  destruct (addBuckets_total P (cu_size _ _ _ _ _ CU) (p_state P) 0 s) as (tot & Ha & Hle & Hpos); [lia| |].
  { intros h (i & Hh)%list_elem_of_lookup. destruct (Hst i h Hh) as (-> & -> & Hi). exists (mSnap (lev T i)), (mCurr (lev T i)).
    split; intros s'; by apply (bucket_found T i); auto. }
  exists tot. split; [unfold onReset; unfold mbind, M_bind; by rewrite Ha|]. intros i Hi Hne.
  destruct (lookup_lt_is_Some_2 (p_state P) i) as [h Hh]; [by rewrite Hlen|]. destruct (Hst i h Hh) as (E1 & E2 & _). apply list_elem_of_lookup_2 in Hh.
  assert (0 < tot); [|lia]. destruct Hne as [Hne|Hne]; eapply Hpos; try exact Hne; try exact Hh.
  - right. rewrite E2. by apply (bucket_found T i); auto.
  - left. rewrite E1. by apply (bucket_found T i); auto.
Qed.

Lemma target_ok T tot :
  closeLedgers 1 newBucketList (g :: bs) = Val T → buckets T = buckets remote →
  ListInv (protocolAfter 0 (g :: bs)) (Z.of_nat (length (g :: bs))) T (λ k, ledgerAfter (g :: bs) !! k) →
  Ranged (Z.of_nat (length (g :: bs))) T → Early (Z.of_nat (length (g :: bs))) T →
  (∀ i, (i < 11)%nat → mCurr (lev T i) ≠ [] ∨ mSnap (lev T i) ≠ [] → tot ≠ 0) → TargetOk P T local tot.
Proof.
  intros Hc Hb [[Hl Hlev Hok Hver _ Hlast _ _] _] HR HE Htot. pose proof (cu_length _ _ _ _ _ CU) as Hlen.
  destruct local_list as (Ll & _ & Lsn & Lcu & _). destruct (cu_state _ _ _ _ _ CU) as (saved & Hs & Hd).
  assert (Hcol : ∀ i b b', (i < 11)%nat → b = mCurr (lev T i) ∨ b = mSnap (lev T i) → b' = mCurr (lev local i) ∨ b' = mSnap (lev local i) →
    getHash b = getHash b' → b = b').
  { intros i b b' Hi Hor Hor'. destruct (buckets_lev T remote i Hb) as [H1 H2]. rewrite H1, H2 in Hor.
    apply (cu_hash _ _ _ _ _ CU); [apply (elem_of_lev remote i); [by rewrite remote_length|done]|apply (elem_of_lev local i); [by rewrite Ll|done]]. }
  split; rewrite ?(cu_ledger _ _ _ _ _ CU), ?(cu_protocol _ _ _ _ _ CU).
  1: cbn [length] in *; lia.
  1: exact Hl.
  4: exact Hok. 4: exact Hver. 4: exact HR. 4: exact HE. 4: exact Hlast. 4: exact Htot. 4: exact Ll. 4: exact Lsn. 4: exact Lcu.
  - intros i Hi. destruct (lookup_lt_is_Some_2 remote i) as [l Hrl]; [by rewrite remote_length|].
    destruct (saved_state_hashes _ _ _ _ _ Hs Hd Hrl) as (nx & Hx). exists nx. rewrite Hx. destruct (buckets_lev T remote i Hb) as [-> ->]. unfold lev. by rewrite Hrl.
  - intros i s Hi. apply (bucket_found T i); auto.
  - intros i s Hi. apply (bucket_found T i); auto.
  - intros i Hi. apply (Hcol i); auto.
  - intros i Hi. apply (Hcol i); auto.
Qed.

(** The database at the end is the ledger. *)
Lemma final_database T tot (db db' : Database) :
  TargetOk P T local tot → (∀ k, shows T k = ledgerAfter (g :: bs) !! k) → db = ledgerAfter [g] →
  (db' = db ∧ skipped T local 0) ∨ (∃ db0, (∀ k x, db0 !! k = Some x → db !! k = Some x) ∧ Going P T 0 db0 db') →
  db' = ledgerAfter (g :: bs).
Proof.
  intros TG Hsh -> Hor. apply map_eq. intros k. rewrite <- Hsh. destruct local_list as (Ll & _ & Lsn & _ & Lsh). destruct Hor as [[-> Hsk]|(db0 & Hsub & [Ho _ _])].
  - assert (Hb : buckets T = buckets local).
    { apply list_eq_same_length with 11%nat; [unfold buckets; by rewrite length_fmap|unfold buckets; rewrite length_fmap; apply (tg_levels _ _ _ _ TG)|].
      intros i x y Hi. unfold buckets. rewrite !list_lookup_fmap.
      destruct (lookup_lt_is_Some_2 T i) as [l Hl]; [by rewrite (tg_levels _ _ _ _ TG)|]. destruct (lookup_lt_is_Some_2 local i) as [l' Hl']; [by rewrite Ll|].
      rewrite Hl, Hl'. intros [= <-] [= <-]. destruct (Hsk i) as [H1 H2]; [lia|]. specialize (Lsn i). unfold lev in *. rewrite Hl in H1, H2. rewrite Hl' in H1, Lsn. simpl in *. congruence. }
    unfold shows. by rewrite (newestEntry_buckets k T local Hb), <- Lsh.
  - specialize (Ho k). rewrite drop_0 in Ho. unfold shows in Hsh |- *. destruct (newestEntry k T) as [e|] eqn:E; rewrite Ho; [done|]. simpl.
    destruct (db0 !! k) as [x|] eqn:Ek; [|done]. apply Hsub in Ek. destruct (cu_genesis _ _ _ _ _ CU k) as [y Hy]; [by exists x|].
    specialize (Hsh k). rewrite E, Hy in Hsh. done.
Qed.

(** C9: a node that has only the first ledger catches up with the buckets of another one: the work that applies them
    ends with success, whatever else it is scheduled with, no assertion or exception on the way and no complaint
    from the invariant that compares every bucket with the database; then the database holds exactly the ledger of the other
    node, although levels were skipped, rows deleted, batches committed one by one and entries applied twice, and the
    bucket list is the other node's, bucket for bucket. [CanCatchUp] has the conditions. Every entry of the first ledger
    still exists, perhaps changed, in the ledger of the other node ([cu_genesis]: the buckets need not name an entry
    that was deleted, and the work would leave its row). The hash tells the buckets of the two nodes apart ([cu_hash]), and
    a file with entries has a positive size. The other node has closed fewer than 2^31 ledgers with batches that name a
    key once, create only keys that do not exist, and are stamped with their ledger; the parameters of the work are its
    saved state, its ledger and protocol, and the files that this state refers to are there. *)
Theorem catchup_rebuilds_ledger (lh : LedgerHeader) (s : Ledger) (w : ApplyBucketsWork) :
  calm lh (ledgerAfter [g]) s →
  ∃ N, ∀ n, (N <= n)%nat → ∃ s', runApplyBuckets P n (mkNode s local w) = Ok tt s' ∧
    calm lh (ledgerAfter (g :: bs)) (n_ledger s') ∧ buckets (n_list s') = buckets remote.
Proof.
  intros Hs. destruct target_list as (T & Hc & Hb & Hinv & HR & HE). destruct (onReset_total T (mkNode s local w) Hb) as (tot & Hre & Htot).
  pose proof (target_ok T tot Hc Hb Hinv HR HE Htot) as TG. destruct assumes as (T' & Has & HT').
  destruct (crank_ends P T local lh tot TG T' Has 10 s (ledgerAfter [g])) as (N & l' & db' & ap & Hc' & Hor & Hn); [lia|done|intros m Hm; lia|].
  exists N. intros n Hle. exists (mkNode l' T' (mkWork 0 ap tot None None)). split_and!; [| |done].
  - unfold runApplyBuckets. unfold mbind, M_bind. rewrite Hre. replace n with (N + (n - N))%nat by lia. apply Hn.
  - replace (ledgerAfter (g :: bs)) with db'; [done|]. eapply final_database; [exact TG| |reflexivity|exact Hor].
    intros k. destruct Hinv as [[Hl _ _ _ _ _ _ Hst] _]. by rewrite shows_word, Hst.
Qed.
End Catchup.

(** ** An example *)

#[local] Existing Instance sampleHash.
#[local] Instance sampleSize : FileSize := λ b, Z.of_nat (length b).

Definition sampleLocal : BucketList := Eval vm_compute in valueOr [] (closeLedgers 1 newBucketList (take 1 sampleHistory)).
Definition samplePublished : list (Z * SavedFuture * Z) := Eval vm_compute in valueOr [] (savedState sampleEnd).
Definition sampleState : list HistoryStateBucket := Eval vm_compute in valueOr [] (deserialize samplePublished).
Definition sampleParams : ApplyParams :=
  mkParams sampleState 9 11 ∅ (filesOf (sampleEnd ≫= levelRefs)) true.

Lemma sample_stamped n b : sampleHistory !! n = Some b → stamped (Z.of_nat n + 1) b.
Proof. intros Hb. do 9 (destruct n as [|n]; [injection Hb as <-; intros x Hx; simpl in Hx; set_solver|]). done. Qed.

Lemma sample_can_catch_up :
  CanCatchUp (mkBatch 10 [sampleEntry 1 1 1000] [] []) (drop 1 sampleHistory) sampleEnd sampleLocal sampleParams.
Proof.
  split.
  - reflexivity.
  - apply sampleHistory_good.
  - apply sample_stamped.
  - apply sample_node.
  - vm_compute. reflexivity.
  - intros k [x Hx]. change (ledgerAfter [mkBatch 10 [sampleEntry 1 1 1000] [] []]) with ({[ACCOUNT 1 := sampleEntry 1 1 1000]} : gmap LedgerKey LedgerEntry) in Hx.
    apply lookup_singleton_Some in Hx as [<- _]. eexists. vm_compute. reflexivity.
  - exists samplePublished. split; vm_compute; reflexivity.
  - reflexivity.
  - reflexivity.
  - refine (proj1 (Forall_forall (λ b, getBucketByHash (filesOf (sampleEnd ≫= levelRefs)) (getHash b) = Some b) _) _).
    apply (bool_decide_unpack _). vm_compute. exact I.
  - intros h b Hb. change ((∅ : gmap Z (list BucketEntry)) !! h = Some b) in Hb. by rewrite lookup_empty in Hb.
  - assert (Hf : Forall (λ b, Forall (λ b', b = b' ∨ getHash b ≠ getHash b') (shadowsOf sampleLocal)) (shadowsOf sampleEnd)).
    { apply (bool_decide_unpack _). vm_compute. exact I. }
    intros b b' Hb Hb' Heq. rewrite Forall_forall in Hf. specialize (Hf b Hb). rewrite Forall_forall in Hf. by destruct (Hf b' Hb').
  - intros [|e b] Hne; [done|]. unfold fileSize, sampleSize. cbn [length]. lia.
Qed.

Lemma catchup_rebuilds_ledger_witness :
  ∃ lh N s', (runApplyBuckets sampleParams N
      (mkNode (mkLedger [] (mkRoot lh (ledgerAfter (take 1 sampleHistory))) 0) sampleLocal (mkWork 0 false 0 None None)) = Ok tt s') ∧
    rootEntries (root (n_ledger s')) !! ACCOUNT 2 = Some (sampleEntry 8 2 290) ∧ buckets (n_list s') = buckets sampleEnd.
Proof.
  set (lh := mkHeader 10 1 0 0 0 0 100 0 0 0). exists lh.
  destruct (catchup_rebuilds_ledger _ _ _ _ _ sample_can_catch_up lh (mkLedger [] (mkRoot lh (ledgerAfter (take 1 sampleHistory))) 0)
    (mkWork 0 false 0 None None)) as (N & HN); [split; reflexivity|].
  destruct (HN N (le_n N)) as (s' & Hr & Hc & Hb). exists N, s'. split; [exact Hr|split; [|exact Hb]].
  rewrite (calm_root _ _ _ Hc). vm_compute. reflexivity.
Defined.
