(* ===== verification/Catchup.v ===== *)
(** * Catching up: which ledgers, and whether to believe them

    From [catchup/CatchupWork.cpp], [catchup/CatchupConfiguration.cpp], [catchup/VerifyLedgerChainWork.cpp],
    [ledger/CheckpointRange.cpp] and the arithmetic of checkpoints in [history/HistoryManagerImpl.cpp]. A node computes from
    its last ledger and the ledger it wants which ledgers it will replay, and whether it starts from buckets; it then reads
    the headers of these ledgers from files of an archive, a checkpoint per file, the last file first, and follows the
    hashes backwards.

    Of a header the fields that the verification reads are kept, the others are one number; the hash of a header is a
    parameter, as are the downloaded files. Counters and log lines are left out. *)
From stdpp Require Import base list gmap strings.
From Stdlib Require Import ZArith Lia.
From S2P Require Import Prelude Numeric LedgerEntries Buckets BucketApply.

(** ** Checkpoints *)

Definition getCheckpointFrequency (accelerated : bool) : Z := if accelerated then 8 else 64.

Section Checkpoints.
Context (freq : Z).

Definition nextCheckpointLedger (ledger : Z) : Z :=
  if ledger =? 0 then freq else u32 (u32 (u32 (ledger + freq) - 1) / freq * freq).
Definition checkpointContainingLedger (ledger : Z) : Z := u32 (nextCheckpointLedger (u32 (ledger + 1)) - 1).
Definition prevCheckpointLedger (ledger : Z) : Z := u32 (ledger / freq * freq).

(** [CheckpointRange] of a range of ledgers: the first and the last checkpoint. *)
Definition newCheckpointRange (ledgerRange : Z * Z) : Checked (Z * Z) :=
  let first := checkpointContainingLedger ledgerRange.1 in
  let last := checkpointContainingLedger ledgerRange.2 in
  _ ← assert (0 <? first) "mFirst > 0";
  _ ← assert (first <=? last) "mLast >= mFirst";
  _ ← assert (u32 (first + 1) mod freq =? 0) "(mFirst + 1) % mFrequency == 0";
  _ ← assert (u32 (last + 1) mod freq =? 0) "(mLast + 1) % mFrequency == 0";
  mret (first, last).

(** ** The range to catch up *)

Definition CURRENT : Z := 0.
Definition GENESIS_LEDGER_SEQ : Z := 1.

Record CatchupConfiguration := mkConfig { toLedger : Z; count : Z; trustedHash : option Z }.

(** [resolve]. *)
Definition resolveConfiguration (c : CatchupConfiguration) (remoteCheckpoint : Z) : CatchupConfiguration :=
  if toLedger c =? CURRENT then mkConfig remoteCheckpoint (count c) None else c.

(** The first ledger to replay and how many there are. *)
Definition computeCatchupledgers (lastClosedLedger : Z) (c : CatchupConfiguration) : Checked (Z * Z) :=
  if lastClosedLedger =? 0 then Throws "lastClosedLedger == 0"
  else if toLedger c <=? lastClosedLedger then Throws "configuration.toLedger() <= lastClosedLedger"
  else if toLedger c =? CURRENT then Throws "configuration.toLedger() == CatchupConfiguration::CURRENT"
  else if GENESIS_LEDGER_SEQ <? lastClosedLedger then mret (u32 (lastClosedLedger + 1), u32 (toLedger c - lastClosedLedger))
  else if u32 (toLedger c - GENESIS_LEDGER_SEQ) <=? count c then
    mret (u32 (GENESIS_LEDGER_SEQ + 1), u32 (toLedger c - GENESIS_LEDGER_SEQ))
  else
    let smallestLedgerToApply := u32 (u32 (toLedger c - Z.max 1 (count c)) + 1) in
    let firstCheckpoint := checkpointContainingLedger 1 in
    let smallestCheckpointToApply := checkpointContainingLedger smallestLedgerToApply in
    if smallestCheckpointToApply =? smallestLedgerToApply then
      mret (u32 (smallestLedgerToApply + 1), u32 (toLedger c - smallestLedgerToApply))
    else if smallestCheckpointToApply =? firstCheckpoint then
      mret (u32 (GENESIS_LEDGER_SEQ + 1), u32 (toLedger c - GENESIS_LEDGER_SEQ))
    else
      mret (u32 (u32 (smallestCheckpointToApply - freq) + 1), u32 (u32 (toLedger c - smallestCheckpointToApply) + freq)).

Record CatchupRange := mkRange { mFirst : Z; mLedgerCount : Z; mApplyBuckets : bool }.

Definition newCatchupRange (lastClosedLedger : Z) (c : CatchupConfiguration) : Checked CatchupRange :=
  '(first, n) ← computeCatchupledgers lastClosedLedger c;
  mret (mkRange first n (u32 (lastClosedLedger + 1) <? first)).

Definition applyLedgers (r : CatchupRange) : bool := 0 <? mLedgerCount r.
Definition getLast (r : CatchupRange) : Z := u32 (u32 (mFirst r + mLedgerCount r) - 1).
Definition getBucketApplyLedger (r : CatchupRange) : Checked Z :=
  if mApplyBuckets r then mret (u32 (mFirst r - 1))
  else Throws "getBucketApplyLedger() cannot be called on CatchupRange when mApplyBuckets == false".

(** The headers to verify: the first line of [downloadVerifyLedgerChain]. *)
Definition verifyRangeOf (r : CatchupRange) : Checked (Z * Z) :=
  first ← (if mApplyBuckets r then getBucketApplyLedger r else mret (mFirst r));
  newLedgerRange first (getLast r).

(** ** Verifying a chain of headers *)

Record Header := mkHdr { h_ledgerSeq : Z; h_ledgerVersion : Z; h_previousLedgerHash : Z; h_rest : Z }.
(** [LedgerHeaderHistoryEntry]. *)
Record HeaderEntry := mkHE { he_hash : Z; he_header : Header }.
Notation seqOf e := (h_ledgerSeq (he_header e)).

Class HeaderHash := headerHash : Header → Z.

Inductive VerifyStatus :=
| VERIFY_STATUS_OK
| VERIFY_STATUS_ERR_BAD_HASH
| VERIFY_STATUS_ERR_BAD_LEDGER_VERSION
| VERIFY_STATUS_ERR_OVERSHOT
| VERIFY_STATUS_ERR_UNDERSHOT
| VERIFY_STATUS_ERR_MISSING_ENTRIES.
#[global] Instance VerifyStatus_eq_dec : EqDecision VerifyStatus.
Proof. solve_decision. Defined.

Definition CURRENT_LEDGER_PROTOCOL_VERSION : Z := 11.

(** The parameters of the work: the range, the last closed ledger with its hash, the hash the last ledger should have
    ([None]: take it as it is), and the files. *)
Record VerifyParams := mkVerify {
  v_range : Z * Z; v_lastClosed : Z * Z; v_trustedEnd : Z * option Z; v_files : Z → option (list HeaderEntry) }.

Record VerifyState := mkVS { vs_currCheckpoint : Z; vs_verifiedAhead : Z * option Z; vs_rangeStart : option HeaderEntry }.

Section Verify.
Context `{HeaderHash} (P : VerifyParams).

Definition verifyLedgerHistoryEntry (hhe : HeaderEntry) : VerifyStatus :=
  if headerHash (he_header hhe) =? he_hash hhe then VERIFY_STATUS_OK else VERIFY_STATUS_ERR_BAD_HASH.

Definition verifyLedgerHistoryLink (prev : Z) (curr : HeaderEntry) : VerifyStatus :=
  match verifyLedgerHistoryEntry curr with
  | VERIFY_STATUS_OK => if prev =? h_previousLedgerHash (he_header curr) then VERIFY_STATUS_OK else VERIFY_STATUS_ERR_BAD_HASH
  | r => r
  end.

Definition verifyLastLedgerInCheckpoint (ledger : HeaderEntry) (verifiedAhead : Z * option Z) : Checked VerifyStatus :=
  _ ← assert (seqOf ledger =? verifiedAhead.1) "ledger.header.ledgerSeq == verifiedAhead.first";
  mret (match verifiedAhead.2 with
        | Some h => if he_hash ledger =? h then VERIFY_STATUS_OK else VERIFY_STATUS_ERR_BAD_HASH
        | None => VERIFY_STATUS_OK
        end).

(** Agreement with the ledger the node has. *)
Definition verifyAgainstLastClosed (curr : HeaderEntry) : VerifyStatus :=
  if seqOf curr =? (v_lastClosed P).1 then
    if headerHash (he_header curr) =? (v_lastClosed P).2 then VERIFY_STATUS_OK else VERIFY_STATUS_ERR_BAD_HASH
  else if seqOf curr =? u32 ((v_lastClosed P).1 + 1) then verifyLedgerHistoryLink (v_lastClosed P).2 curr
  else VERIFY_STATUS_OK.

(** Agreement with the entry before it in the file. *)
Definition verifyAgainstPrevious (prev : option HeaderEntry) (curr : HeaderEntry) : VerifyStatus :=
  match prev with
  | None => verifyLedgerHistoryEntry curr
  | Some p =>
      let expectedSeq := u32 (seqOf p + 1) in
      if seqOf curr <? expectedSeq then VERIFY_STATUS_ERR_UNDERSHOT
      else if expectedSeq <? seqOf curr then VERIFY_STATUS_ERR_OVERSHOT
      else verifyLedgerHistoryLink (he_hash p) curr
  end.

(** The loop: [prev] is the entry before, [None] at the beginning of the checkpoint; the result has the last entry read,
    if there was one. *)
Fixpoint verifyEntries (entries : list HeaderEntry) (prev : option HeaderEntry) (ahead : Z * option Z) :
    VerifyStatus * option HeaderEntry * (Z * option Z) :=
  match entries with
  | [] => (VERIFY_STATUS_OK, prev, ahead)
  | curr :: rest =>
      if CURRENT_LEDGER_PROTOCOL_VERSION <? h_ledgerVersion (he_header curr) then (VERIFY_STATUS_ERR_BAD_LEDGER_VERSION, Some curr, ahead)
      else match verifyAgainstLastClosed curr with
      | VERIFY_STATUS_OK =>
          match verifyAgainstPrevious prev curr with
          | VERIFY_STATUS_OK =>
              let ahead := match prev with
                           | None => (u32 (seqOf curr - 1), Some (h_previousLedgerHash (he_header curr)))
                           | Some _ => ahead
                           end in
              if seqOf curr =? (v_range P).2 then (VERIFY_STATUS_OK, Some curr, ahead)
              else verifyEntries rest (Some curr) ahead
          | r => (r, Some curr, ahead)
          end
      | r => (r, Some curr, ahead)
      end
  end.

(** A header that was never read is all zeros. *)
Definition lastSeq (curr : option HeaderEntry) : Z := match curr with Some e => seqOf e | None => 0 end.

Definition verifyHistoryOfSingleCheckpoint (s : VerifyState) (entries : list HeaderEntry) : Checked (VerifyStatus * VerifyState) :=
  let nextCheckpointFirstLedger := vs_verifiedAhead s in
  let '(r, curr, ahead) := verifyEntries entries None (vs_verifiedAhead s) in
  let s := mkVS (vs_currCheckpoint s) ahead (vs_rangeStart s) in
  match r with
  | VERIFY_STATUS_OK =>
      if negb (lastSeq curr =? vs_currCheckpoint s) && negb (lastSeq curr =? (v_range P).2)
      then mret (VERIFY_STATUS_ERR_MISSING_ENTRIES, s)
      else
        nextCheckpointFirstLedger ←
          (if lastSeq curr =? (v_range P).2 then
             _ ← assert (nextCheckpointFirstLedger.1 =? 0) "nextCheckpointFirstLedger.first == 0";
             mret (v_trustedEnd P)
           else
             _ ← assert (match nextCheckpointFirstLedger.2 with Some _ => true | None => false end) "nextCheckpointFirstLedger.second";
             _ ← assert (negb (nextCheckpointFirstLedger.1 =? 0)) "nextCheckpointFirstLedger.first != 0";
             mret nextCheckpointFirstLedger);
        let last := match curr with Some e => e | None => mkHE 0 (mkHdr 0 0 0 0) end in
        r ← verifyLastLedgerInCheckpoint last nextCheckpointFirstLedger;
        match r with
        | VERIFY_STATUS_OK =>
            if vs_currCheckpoint s =? checkpointContainingLedger (v_range P).1
            then mret (VERIFY_STATUS_OK, mkVS (vs_currCheckpoint s) ahead (Some last))
            else mret (VERIFY_STATUS_OK, s)
        | r =>
            _ ← assert (match nextCheckpointFirstLedger.2 with Some _ => true | None => false end) "nextCheckpointFirstLedger.second";
            mret (r, s)
        end
  | r => mret (r, s)
  end.

Inductive VerifyResult := WORK_RUNNING | WORK_SUCCESS | WORK_FAILURE.

(** [onRun]; a file that cannot be opened fails the work. *)
Definition verifyOnRun (s : VerifyState) : Checked (VerifyResult * VerifyState) :=
  if vs_currCheckpoint s <? checkpointContainingLedger (v_range P).1 then Throws "Verification undershot first ledger in the range."
  else match v_files P (vs_currCheckpoint s) with
  | None => mret (WORK_FAILURE, s)
  | Some entries =>
      '(r, s) ← verifyHistoryOfSingleCheckpoint s entries;
      match r with
      | VERIFY_STATUS_OK =>
          if vs_currCheckpoint s =? checkpointContainingLedger (v_range P).1 then mret (WORK_SUCCESS, s)
          else mret (WORK_RUNNING, mkVS (u32 (vs_currCheckpoint s - freq)) (vs_verifiedAhead s) (vs_rangeStart s))
      | _ => mret (WORK_FAILURE, s)
      end
  end.

Definition verifyReset : VerifyState := mkVS (checkpointContainingLedger (v_range P).2) (0, None) None.

Fixpoint verifyCrank (fuel : nat) (s : VerifyState) : Checked (VerifyResult * VerifyState) :=
  match fuel with
  | O => OutOfFuel
  | S fuel =>
      '(r, s) ← verifyOnRun s;
      match r with WORK_RUNNING => verifyCrank fuel s | _ => mret (r, s) end
  end.

(** The constructor, with its assertions, and the runs of the work. *)
Definition verifyLedgerChain (fuel : nat) : Checked (VerifyResult * VerifyState) :=
  _ ← assert ((v_range P).2 =? (v_trustedEnd P).1) "range.mLast == ledgerRangeEnd.first";
  verifyCrank fuel verifyReset.
End Verify.
End Checkpoints.
