(* ===== verification/CatchupSpec.v ===== *)
(** * What catching up promises

    [catchup_range_correct]: the ledgers to replay end where they should, they begin after the node's last ledger or after
    a checkpoint whose buckets are applied, and buckets are applied only by a node at the first ledger.
    [verified_chain_is_genuine]: if the verification succeeds, every header it has read is the one of the chain that ends
    in the trusted hash. [genuine_chain_is_verified]: and it succeeds on the files of an honest archive. *)
From stdpp Require Import base list gmap strings.
From Stdlib Require Import ZArith Lia.
From S2P Require Import Prelude Numeric LedgerEntries Buckets BucketsSpec BucketApply Catchup.

(** ** Checkpoints *)

Section Arithmetic.
Context (freq : Z) (Hfreq : freq = 8 ∨ freq = 64).

(** The checkpoint of a ledger is the last ledger of its group. *)
Definition lastOfGroup (l : Z) : Z := (l / freq + 1) * freq - 1.

Lemma freq_pos : 0 < freq.
Proof. lia. Qed.

Lemma lastOfGroup_bounds l : l <= lastOfGroup l < l + freq.
Proof. unfold lastOfGroup. pose proof freq_pos. pose proof (Z.div_mod l freq). pose proof (Z.mod_pos_bound l freq). lia. Qed.

Lemma lastOfGroup_unique l q : q * freq <= l < q * freq + freq → lastOfGroup l = q * freq + freq - 1.
Proof. intros Hq. unfold lastOfGroup. rewrite <- (Z.div_unique l freq q (l - q * freq)) by lia. lia. Qed.

Lemma lastOfGroup_mono l m : l <= m → lastOfGroup l <= lastOfGroup m.
Proof. intros. unfold lastOfGroup. pose proof freq_pos. pose proof (Z.div_le_mono l m freq). nia. Qed.

Lemma u32_id x : 0 <= x < 2 ^ 32 → u32 x = x.
Proof. apply Z.mod_small. Qed.

Lemma checkpoint_Val l : 0 <= l → l + freq < 2 ^ 32 → checkpointContainingLedger freq l = lastOfGroup l.
Proof.
  intros Hl Hlt. pose proof freq_pos. pose proof (lastOfGroup_bounds l). unfold checkpointContainingLedger, nextCheckpointLedger.
  rewrite (u32_id (l + 1)) by lia. rewrite (proj2 (Z.eqb_neq _ _)) by lia.
  assert (E : u32 (u32 (l + 1 + freq) - 1) = l + freq).
  { destruct (decide (l + 1 + freq < 2 ^ 32)); [rewrite !u32_id; rewrite ?u32_id; lia|].
    replace (l + 1 + freq) with (2 ^ 32) by lia. replace (l + freq) with (2 ^ 32 - 1) by lia. done. }
  rewrite E. replace ((l + freq) / freq) with (l / freq + 1) by (replace (l + freq) with (l + 1 * freq) by lia; rewrite Z.div_add by lia; lia).
  assert (lastOfGroup l + 1 <= 2 ^ 32) by lia. unfold lastOfGroup in *.
  destruct (decide ((l / freq + 1) * freq = 2 ^ 32)) as [E'|].
  - exfalso. assert (lastOfGroup l = 2 ^ 32 - 1) by (unfold lastOfGroup; lia). unfold lastOfGroup in *. lia.
  - rewrite (u32_id ((l / freq + 1) * freq)), u32_id by lia. done.
Qed.

Lemma group_divides l : (lastOfGroup l + 1) mod freq = 0.
Proof. unfold lastOfGroup. replace ((l / freq + 1) * freq - 1 + 1) with ((l / freq + 1) * freq) by lia. apply Z.mod_mul. pose proof freq_pos. lia. Qed.

Lemma newCheckpointRange_Val first last :
  0 < first <= last → last + freq < 2 ^ 32 → newCheckpointRange freq (first, last) = Val (lastOfGroup first, lastOfGroup last).
Proof.
  intros Hf Hl. unfold newCheckpointRange. cbn [fst snd]. rewrite !checkpoint_Val by lia. pose proof (lastOfGroup_bounds first). pose proof (lastOfGroup_bounds last).
  pose proof (lastOfGroup_mono first last ltac:(lia)). rewrite (proj2 (Z.ltb_lt _ _)), (proj2 (Z.leb_le _ _)) by lia. cbn [assert]. rewrite !bind_Val.
  rewrite !u32_id, !group_divides by lia. done.
Qed.

(** ** The range *)

Lemma first_group : lastOfGroup 1 = freq - 1.
Proof. pose proof freq_pos. rewrite (lastOfGroup_unique 1 0) by lia. lia. Qed.

(** The replay begins after [b]: the last closed ledger, or a checkpoint. *)
Lemma compute_Val lcl c :
  0 < lcl < toLedger c → toLedger c + freq < 2 ^ 32 → 0 <= count c < 2 ^ 32 →
  ∃ b, computeCatchupledgers freq lcl c = Val (b + 1, toLedger c - b) ∧ lcl <= b <= toLedger c ∧
    (b = lcl ∨ (lcl = 1 ∧ lcl < b ∧ lastOfGroup b = b ∧
       b <= toLedger c - Z.max 1 (count c) + 1 < b + freq)).
Proof.
  intros Hl Ht Hc. pose proof freq_pos. set (to := toLedger c) in *. set (n := count c) in *.
  unfold computeCatchupledgers, GENESIS_LEDGER_SEQ, CURRENT. fold to n.
  rewrite (proj2 (Z.eqb_neq lcl 0)), (proj2 (Z.leb_gt to lcl)), (proj2 (Z.eqb_neq to 0)) by lia.
  destruct (1 <? lcl) eqn:E1; propify.
  { exists lcl. rewrite !u32_id by lia. split_and!; [done|lia|lia|by left]. }
  assert (lcl = 1) as -> by lia. rewrite (u32_id (to - 1)) by lia. destruct (to - 1 <=? n) eqn:E2; propify.
  { exists 1. rewrite u32_id by lia. split_and!; [done|lia|lia|by left]. }
  set (wanted := to - Z.max 1 n + 1). assert (Hw : u32 (u32 (to - Z.max 1 n) + 1) = wanted) by (rewrite !u32_id; rewrite ?u32_id; unfold wanted; lia).
  assert (Hwb : 1 < wanted <= to) by (unfold wanted; lia). rewrite Hw. rewrite !checkpoint_Val, first_group by lia.
  pose proof (lastOfGroup_bounds wanted) as Hg. destruct (lastOfGroup wanted =? wanted) eqn:E3; propify.
  { exists wanted. rewrite !u32_id by lia. split_and!; [done|lia|lia|right; lia]. }
  destruct (lastOfGroup wanted =? freq - 1) eqn:E4; propify.
  { exists 1. rewrite u32_id by lia. split_and!; [done|lia|lia|by left]. }
  assert (Hprev : freq - 1 < lastOfGroup wanted).
  { pose proof (lastOfGroup_mono 1 wanted ltac:(lia)). rewrite first_group in *. lia. }
  assert (Hfix : lastOfGroup (lastOfGroup wanted - freq) = lastOfGroup wanted - freq).
  { rewrite (lastOfGroup_unique _ (wanted / freq - 1)); unfold lastOfGroup; lia. }
  assert (Hpos : 1 < lastOfGroup wanted - freq).
  { unfold lastOfGroup in *. assert (1 <= wanted / freq) by nia. nia. }
  exists (lastOfGroup wanted - freq). split_and!; [|lia|lia|right; lia].
  rewrite (u32_id (lastOfGroup wanted - freq)), u32_id by lia. do 2 f_equal.
  destruct (decide (lastOfGroup wanted <= to)).
  - rewrite (u32_id (to - lastOfGroup wanted)), u32_id by lia. lia.
  - unfold u32, wrap. rewrite Z.add_mod_idemp_l by lia. rewrite Z.mod_small; lia.
Qed.

(** The ranges of headers and checkpoints. *)
Lemma ranges_ok to b buckets :
  0 < b <= to → to + freq < 2 ^ 32 → (buckets = false → b < to) →
  getLast (mkRange (b + 1) (to - b) buckets) = to ∧
  ∃ range, verifyRangeOf (mkRange (b + 1) (to - b) buckets) = Val range ∧ newCheckpointRange freq range = Val (lastOfGroup range.1, lastOfGroup range.2).
Proof.
  intros Hb Ht Hlt. pose proof freq_pos. assert (El : getLast (mkRange (b + 1) (to - b) buckets) = to).
  { unfold getLast. cbn [mFirst mLedgerCount]. rewrite (u32_id (b + 1 + (to - b))), u32_id by lia. lia. }
  split; [done|]. unfold verifyRangeOf. rewrite El. unfold getBucketApplyLedger. cbn [mApplyBuckets mFirst]. unfold mret, Checked_ret, newLedgerRange.
  destruct buckets; rewrite bind_Val.
  - rewrite u32_id by lia. exists (b + 1 - 1, to). rewrite (proj2 (Z.ltb_lt _ _)), (proj2 (Z.leb_le _ _)) by lia. split; [done|]. apply (newCheckpointRange_Val (b + 1 - 1) to); lia.
  - specialize (Hlt eq_refl). exists (b + 1, to). rewrite (proj2 (Z.ltb_lt _ _)), (proj2 (Z.leb_le _ _)) by lia. split; [done|]. apply (newCheckpointRange_Val (b + 1) to); lia.
Qed.

(** C29: for every last closed ledger, target and count the range is computed without failing, and it ends with the
    target. Buckets are applied only by a node that is at the first ledger; then they are those of the last checkpoint that
    is not after the first of the [count] ledgers that were asked for, and the replay goes on from there. Otherwise the
    replay begins right after the last closed ledger. The ranges of headers and of checkpoints derived from it are
    well formed. *)
Theorem catchup_range_correct (lcl : Z) (c : CatchupConfiguration) :
  0 < lcl < toLedger c → toLedger c + freq < 2 ^ 32 → 0 <= count c < 2 ^ 32 →
  ∃ r, newCatchupRange freq lcl c = Val r ∧ getLast r = toLedger c ∧
    (∃ range, verifyRangeOf r = Val range ∧ newCheckpointRange freq range = Val (lastOfGroup range.1, lastOfGroup range.2)) ∧
    let wanted := toLedger c - Z.max 1 (count c) + 1 in
    match getBucketApplyLedger r with
    | Val b => lcl = GENESIS_LEDGER_SEQ ∧ lcl < b ∧ checkpointContainingLedger freq b = b ∧ b <= wanted < b + freq ∧
        mFirst r = b + 1 ∧ mLedgerCount r = toLedger c - b
    | _ => mFirst r = lcl + 1 ∧ mLedgerCount r = toLedger c - lcl
    end.
Proof.
  intros Hl Ht Hc. pose proof freq_pos. destruct (compute_Val lcl c Hl Ht Hc) as (b & Hb & Hbt & Hor).
  exists (mkRange (b + 1) (toLedger c - b) (lcl + 1 <? b + 1)). split.
  { unfold newCatchupRange. rewrite Hb, bind_Val, u32_id by lia. done. }
  destruct (ranges_ok (toLedger c) b (lcl + 1 <? b + 1)) as [Hlast Hr]; [lia|lia|intros E; propify; lia|].
  split; [done|]. split; [done|]. unfold getBucketApplyLedger. cbn [mApplyBuckets mFirst mLedgerCount]. destruct (lcl + 1 <? b + 1) eqn:E; propify.
  - unfold mret, Checked_ret. rewrite u32_id by lia. destruct Hor as [->|(-> & _ & Hg & Hw)]; [lia|]. unfold GENESIS_LEDGER_SEQ.
    rewrite checkpoint_Val by lia. replace (b + 1 - 1) with b by lia. split_and!; lia || done.
  - assert (b = lcl) as -> by lia. done.
Qed.
End Arithmetic.

(** ** The chain *)

(** The headers of the ledgers, from 1 on; what the hash must withstand is only asked of the headers in the files. *)
Record Genuine `{HeaderHash} (chain : Z → Header) (P : VerifyParams) : Prop := {
  gen_seq : ∀ n, 1 <= n → h_ledgerSeq (chain n) = n;
  gen_link : ∀ n, 1 <= n → h_previousLedgerHash (chain (n + 1)) = headerHash (chain n);
  gen_hash : ∀ c es e n, v_files P c = Some es → e ∈ es → 1 <= n → headerHash (he_header e) = headerHash (chain n) → he_header e = chain n;
  gen_first : ∀ c es e, v_files P c = Some es → e ∈ es → headerHash (he_header e) ≠ h_previousLedgerHash (chain 1) }.

(** What the loop reads of a file. *)
Fixpoint upToLast (last : Z) (es : list HeaderEntry) : list HeaderEntry :=
  match es with
  | [] => []
  | e :: r => if h_ledgerSeq (he_header e) =? last then [e] else e :: upToLast last r
  end.

Fixpoint linked `{HeaderHash} (prev : option HeaderEntry) (es : list HeaderEntry) : Prop :=
  match es with
  | [] => True
  | e :: r => headerHash (he_header e) = he_hash e ∧
      match prev with Some p => h_previousLedgerHash (he_header e) = he_hash p | None => True end ∧ linked (Some e) r
  end.

Lemma upToLast_incl last es e : e ∈ upToLast last es → e ∈ es.
Proof. induction es as [|x es IH]; [done|]. simpl. case_match; set_solver. Qed.

Section Sound.
Context (freq : Z) (Hfreq : freq = 8 ∨ freq = 64) `{HH : HeaderHash} (P : VerifyParams) (chain : Z → Header) (HG : Genuine chain P).
Notation first := ((v_range P).1).
Notation final := ((v_range P).2).

Lemma verifyEntry_OK e : verifyLedgerHistoryEntry e = VERIFY_STATUS_OK → headerHash (he_header e) = he_hash e.
Proof. unfold verifyLedgerHistoryEntry. case_match; propify; done. Qed.
Lemma verifyLink_OK p e :
  verifyLedgerHistoryLink p e = VERIFY_STATUS_OK → headerHash (he_header e) = he_hash e ∧ h_previousLedgerHash (he_header e) = p.
Proof.
  unfold verifyLedgerHistoryLink. destruct (verifyLedgerHistoryEntry e) eqn:E; try done. apply verifyEntry_OK in E. case_match; propify; done.
Qed.
Lemma verifyPrevious_OK prev e :
  verifyAgainstPrevious prev e = VERIFY_STATUS_OK →
  headerHash (he_header e) = he_hash e ∧ match prev with Some p => h_previousLedgerHash (he_header e) = he_hash p | None => True end.
Proof.
  unfold verifyAgainstPrevious. destruct prev as [p|]; [|intros; split; [by apply verifyEntry_OK|done]].
  repeat case_match; try done. apply verifyLink_OK.
Qed.

(** A run of the loop that finds nothing wrong. *)
Lemma verifyEntries_OK es prev ahead curr ahead' :
  verifyEntries P es prev ahead = (VERIFY_STATUS_OK, curr, ahead') →
  linked prev (upToLast final es) ∧
  curr = match last (upToLast final es) with Some e => Some e | None => prev end ∧
  ahead' = match prev, upToLast final es with
           | None, e :: _ => (u32 (h_ledgerSeq (he_header e) - 1), Some (h_previousLedgerHash (he_header e)))
           | _, _ => ahead
           end.
Proof.
  revert prev ahead. induction es as [|e es IH]; intros prev ahead Hv; [injection Hv as -> ->; by destruct curr|].
  cbn [verifyEntries] in Hv. destruct (_ <? _); [done|]. destruct (verifyAgainstLastClosed P e) eqn:E1; try done.
  destruct (verifyAgainstPrevious prev e) eqn:E2; try done. apply verifyPrevious_OK in E2 as [H1 H2]. cbn [upToLast].
  destruct (h_ledgerSeq (he_header e) =? final) eqn:E3.
  - injection Hv as <- <-. split_and!; [done|done|by destruct prev].
  - apply IH in Hv as (I1 & I2 & I3). split_and!.
    + done.
    + rewrite last_cons. by destruct (last (upToLast final es)).
    + rewrite I3. by destruct prev.
Qed.

Definition genuine (e : HeaderEntry) : Prop := ∃ n, 1 <= n ∧ he_header e = chain n.

(** Backwards from a genuine entry. *)
Lemma linked_genuine c es prev u e :
  v_files P c = Some es → (∀ x, x ∈ u → x ∈ es) → linked prev u → last u = Some e → genuine e → Forall genuine u.
Proof.
  intros Hf. revert prev. induction u as [|x u IH]; intros prev Hin Hl He Hg; [constructor|]. destruct Hl as (Hx & _ & Hl).
  destruct u as [|y u]; [injection He as ->; by repeat constructor|].
  assert (Hu : Forall genuine (y :: u)).
  { apply (IH (Some x)); [intros z Hz; apply Hin; by right|done| |done]. by rewrite last_cons_cons in He. }
  constructor; [|done]. apply Forall_inv in Hu as (n & Hn & Hy). destruct Hl as (_ & Hp & _). rewrite Hy in Hp.
  destruct (decide (n = 1)) as [->|Hne].
  - destruct (gen_first chain P HG c es x); [done|apply Hin; by left|]. by rewrite Hx, Hp.
  - exists (n - 1). split; [lia|]. apply (gen_hash chain P HG c es); [done|apply Hin; by left|lia|].
    replace n with (n - 1 + 1) in Hp by lia. rewrite (gen_link chain P HG) in Hp by lia. congruence.
Qed.

(** The hash the last entry of the next file must have. *)
Definition trusted (h : Z) : Prop := (∃ n, 1 <= n ∧ h = headerHash (chain n)) ∨ h = h_previousLedgerHash (chain 1).
Definition aheadOk (a : Z * option Z) : Prop := ∀ h, a.2 = Some h → trusted h.

Lemma trusted_genuine c es e h :
  v_files P c = Some es → e ∈ es → headerHash (he_header e) = he_hash e → he_hash e = h → trusted h → genuine e.
Proof.
  intros Hf He Hh Hx [(n & Hn & ->)| ->].
  - exists n. split; [done|]. eapply (gen_hash chain P HG); [done|done|done|congruence].
  - destruct (gen_first chain P HG c es e Hf He). congruence.
Qed.

Lemma genuine_ahead e : genuine e → trusted (h_previousLedgerHash (he_header e)).
Proof.
  intros (n & Hn & ->). destruct (decide (n = 1)) as [->|]; [by right|]. left. exists (n - 1). split; [lia|].
  rewrite <- (gen_link chain P HG) by lia. do 2 f_equal. lia.
Qed.

Lemma linked_hash prev u e : linked prev u → last u = Some e → headerHash (he_header e) = he_hash e.
Proof.
  revert prev. induction u as [|x u IH]; intros prev Hl He; [done|]. destruct Hl as (Hx & _ & Hl). destruct u as [|y u]; [by injection He as ->|].
  rewrite last_cons_cons in He. by eapply IH.
Qed.

Context (Htrust : (v_trustedEnd P).2 = Some (headerHash (chain final))) (Hrange : 1 <= first <= final) (Hfinal : final + freq < 2 ^ 32).

(** A checkpoint that passes. *)
Lemma checkpoint_genuine s es s' :
  v_files P (vs_currCheckpoint s) = Some es → 0 < vs_currCheckpoint s → aheadOk (vs_verifiedAhead s) →
  verifyHistoryOfSingleCheckpoint freq P s es = Val (VERIFY_STATUS_OK, s') →
  Forall genuine (upToLast final es) ∧ aheadOk (vs_verifiedAhead s') ∧ vs_currCheckpoint s' = vs_currCheckpoint s ∧
  (vs_currCheckpoint s = checkpointContainingLedger freq first →
   ∃ e, vs_rangeStart s' = Some e ∧ genuine e ∧ (h_ledgerSeq (he_header e) = vs_currCheckpoint s ∨ h_ledgerSeq (he_header e) = final)).
Proof.
  intros Hf Hpos Hah Hv. unfold verifyHistoryOfSingleCheckpoint in Hv. destruct (verifyEntries P es None (vs_verifiedAhead s)) as [[r curr] ahead] eqn:Ev.
  destruct r; try done. apply verifyEntries_OK in Ev as (Hl & Hc & Ha).
  cbn [vs_currCheckpoint] in Hv. destruct (negb (lastSeq curr =? vs_currCheckpoint s) && negb (lastSeq curr =? final)) eqn:Eq; [done|].
  destruct (last (upToLast final es)) as [e|] eqn:El.
  2:{ subst curr. cbn [lastSeq] in Eq. rewrite andb_false_iff, !negb_false_iff, !Z.eqb_eq in Eq. lia. }
  subst curr. simpl lastSeq in *.
  assert (Hin : e ∈ es) by (apply upToLast_incl with final; by apply last_Some_elem_of in El).
  pose proof (linked_hash _ _ _ Hl El) as Hself. pose proof (λ x, upToLast_incl final es x) as Hincl.
  (* what follows from a last entry with a trusted hash *)
  assert (Hdone : genuine e → Forall genuine (upToLast final es) ∧ aheadOk ahead).
  { intros Hg. assert (Hu : Forall genuine (upToLast final es)) by (by eapply linked_genuine). split; [done|].
    destruct (upToLast final es) as [|x u]; [done|]. subst ahead. intros h [= <-]. apply genuine_ahead. by apply Forall_inv in Hu. }
  assert (Hnext : ∀ next, aheadOk next → (next.2 = None → False) →
    (r ← verifyLastLedgerInCheckpoint e next;
     match r with
     | VERIFY_STATUS_OK => if vs_currCheckpoint s =? checkpointContainingLedger freq first
                           then mret (VERIFY_STATUS_OK, mkVS (vs_currCheckpoint s) ahead (Some e))
                           else mret (VERIFY_STATUS_OK, mkVS (vs_currCheckpoint s) ahead (vs_rangeStart s))
     | r => _ ← assert (match next.2 with Some _ => true | None => false end) "nextCheckpointFirstLedger.second";
            mret (r, mkVS (vs_currCheckpoint s) ahead (vs_rangeStart s))
     end) = Val (VERIFY_STATUS_OK, s') →
    genuine e ∧ s' = mkVS (vs_currCheckpoint s) ahead (if vs_currCheckpoint s =? checkpointContainingLedger freq first then Some e else vs_rangeStart s)).
  { intros next Hok Hsome Hr. unfold verifyLastLedgerInCheckpoint in Hr. destruct (assert (h_ledgerSeq (he_header e) =? next.1) _); try done. cbn in Hr.
    destruct (next.2) as [h|] eqn:En; [|by destruct Hsome]. unfold mret, Checked_ret in Hr. destruct (he_hash e =? h) eqn:Eh; [|done]. propify.
    split; [eapply trusted_genuine; [done|done|done|done|by apply Hok]|]. by case_match; injection Hr as <-. }
  assert (Hfin : genuine e ∧ s' = mkVS (vs_currCheckpoint s) ahead (if vs_currCheckpoint s =? checkpointContainingLedger freq first then Some e else vs_rangeStart s)).
  { destruct (h_ledgerSeq (he_header e) =? final).
    - destruct (assert _ _); try done. rewrite !bind_Val in Hv. apply (Hnext (v_trustedEnd P)); [|by rewrite Htrust|exact Hv].
      intros h. rewrite Htrust. intros [= <-]. left. exists final. split; [lia|done].
    - destruct (vs_verifiedAhead s) as [m [h|]] eqn:Ea; [|done]. cbn [snd assert] in Hv. rewrite bind_Val in Hv.
      destruct (assert _ _); try done. rewrite !bind_Val in Hv. by apply (Hnext (m, Some h)). }
  destruct Hfin as [Hg ->]. destruct (Hdone Hg) as [H1 H2]. split_and!; [done|done|done|]. intros Hcp.
  rewrite (proj2 (Z.eqb_eq _ _) Hcp). exists e. split_and!; [done|done|].
  rewrite andb_false_iff, !negb_false_iff, !Z.eqb_eq in Eq. done.
Qed.

Lemma crank_genuine fuel s s' :
  aheadOk (vs_verifiedAhead s) → (∃ k, 0 <= k ∧ vs_currCheckpoint s = lastOfGroup freq first + k * freq) → vs_currCheckpoint s < 2 ^ 32 →
  verifyCrank freq P fuel s = Val (WORK_SUCCESS, s') →
  (∀ k es e, 0 <= k → lastOfGroup freq first + k * freq <= vs_currCheckpoint s → v_files P (lastOfGroup freq first + k * freq) = Some es →
     e ∈ upToLast final es → genuine e) ∧
  ∃ e, vs_rangeStart s' = Some e ∧ genuine e ∧ (h_ledgerSeq (he_header e) = lastOfGroup freq first ∨ h_ledgerSeq (he_header e) = final).
Proof.
  revert s. induction fuel as [|fuel IH]; intros s Hah (k0 & Hk0 & Hk) Hlt Hc; [done|]. pose proof (freq_pos freq Hfreq) as Hfp.
  pose proof (lastOfGroup_bounds freq Hfreq first) as Hlg. assert (Hcp : checkpointContainingLedger freq first = lastOfGroup freq first) by (apply checkpoint_Val; [done|lia|lia]).
  cbn [verifyCrank] in Hc. unfold verifyOnRun in Hc. destruct (_ <? _); [done|].
  destruct (v_files P (vs_currCheckpoint s)) as [es|] eqn:Hf; [|done].
  destruct (verifyHistoryOfSingleCheckpoint freq P s es) as [[r s1]| | |] eqn:Hv; try done. rewrite bind_Val in Hc. destruct r; try done.
  destruct (checkpoint_genuine s es s1 Hf ltac:(nia) Hah Hv) as (Hg & Hah1 & Hcur & Hst). rewrite Hcp in *. rewrite Hcur in Hc.
  destruct (vs_currCheckpoint s =? lastOfGroup freq first) eqn:E; propify.
  - rewrite bind_Val in Hc. injection Hc as <-. split; [|rewrite <- E; apply Hst; done]. intros k es' e Hk1 Hk2 Hf' He.
    assert (k = 0) as -> by nia. rewrite Z.mul_0_l, Z.add_0_r, <- E in Hf'. rewrite Hf in Hf'. injection Hf' as <-. rewrite Forall_forall in Hg. auto.
  - rewrite bind_Val in Hc. assert (1 <= k0) by nia. rewrite u32_id in Hc by nia.
    apply IH in Hc as [H1 H2]; [|done|exists (k0 - 1); cbn [vs_currCheckpoint]; lia|cbn [vs_currCheckpoint]; lia].
    split; [|done]. intros k es' e Hk1 Hk2 Hf' He. destruct (decide (k = k0)) as [->|Hne].
    + rewrite <- Hk, Hf in Hf'. injection Hf' as <-. rewrite Forall_forall in Hg. auto.
    + apply (H1 k es' e); [done|cbn [vs_currCheckpoint]; nia|done|done].
Qed.

(** C27: if the verification succeeds and the hash of the last ledger is the one of a chain, then every header it has read,
    of whatever files an archive gave it, is the header of that chain, unless somebody can find a second header with
    the hash of a ledger (or one with the hash that the first ledger names as its predecessor). The header it returns
    is the chain's header of the first checkpoint, or of the last ledger. *)
Theorem verified_chain_is_genuine (fuel : nat) (s : VerifyState) :
  verifyLedgerChain freq P fuel = Val (WORK_SUCCESS, s) →
  (∀ c es e, (c + 1) mod freq = 0 → first <= c → c <= checkpointContainingLedger freq final → v_files P c = Some es →
     e ∈ upToLast final es → he_header e = chain (h_ledgerSeq (he_header e))) ∧
  ∃ e, vs_rangeStart s = Some e ∧ he_header e = chain (h_ledgerSeq (he_header e)) ∧
    (h_ledgerSeq (he_header e) = checkpointContainingLedger freq first ∨ h_ledgerSeq (he_header e) = final).
Proof.
  intros Hv. unfold verifyLedgerChain in Hv. destruct (assert _ _); try done. rewrite bind_Val in Hv.
  pose proof (freq_pos freq Hfreq). pose proof (lastOfGroup_bounds freq Hfreq first). pose proof (lastOfGroup_bounds freq Hfreq final).
  assert (Hseq : ∀ e, genuine e → he_header e = chain (h_ledgerSeq (he_header e))).
  { intros e (n & Hn & ->). by rewrite (gen_seq chain P HG). }
  apply crank_genuine in Hv as [Hall (e & He & Hg & Hor)].
  - rewrite !checkpoint_Val by (done || lia). split; [|exists e; auto]. intros c es x Hc Hfc Hcf Hf Hx. apply Hseq.
    apply Z.mod_divide in Hc as [q Hq]; [|lia]. pose proof (lastOfGroup_mono freq Hfreq first c Hfc).
    assert (Hg' : lastOfGroup freq c = c) by (rewrite (lastOfGroup_unique freq c (q - 1)); lia).
    assert (Hk : c = lastOfGroup freq first + (c / freq - first / freq) * freq) by (rewrite <- Hg' at 1; unfold lastOfGroup; lia).
    apply (Hall (c / freq - first / freq) es x); [unfold lastOfGroup in *; nia| |by rewrite <- Hk|done]. rewrite <- Hk. unfold verifyReset. cbn [vs_currCheckpoint].
    by rewrite checkpoint_Val by (done || lia).
  - by intros h.
  - exists (final / freq - first / freq). pose proof (Z.div_le_mono first final freq). unfold verifyReset. cbn [vs_currCheckpoint].
    rewrite checkpoint_Val by (done || lia). unfold lastOfGroup. lia.
  - unfold verifyReset. cbn [vs_currCheckpoint]. rewrite checkpoint_Val by (done || lia). lia.
Qed.
End Sound.

(** ** An honest archive *)

Definition honestEntry `{HeaderHash} (chain : Z → Header) (n : Z) : HeaderEntry := mkHE (headerHash (chain n)) (chain n).
(** The file of the checkpoint [c]: its ledgers, from 1 on. *)
Definition firstOfGroup (freq c : Z) : Z := Z.max 1 (c - freq + 1).
Definition honestFile `{HeaderHash} (freq : Z) (chain : Z → Header) (c : Z) : list HeaderEntry :=
  honestEntry chain <$> seqZ (firstOfGroup freq c) (c - firstOfGroup freq c + 1).

Record Honest `{HeaderHash} (freq : Z) (chain : Z → Header) (P : VerifyParams) : Prop := {
  hon_seq : ∀ n, 1 <= n → h_ledgerSeq (chain n) = n;
  hon_link : ∀ n, 1 <= n → h_previousLedgerHash (chain (n + 1)) = headerHash (chain n);
  hon_version : ∀ n, 1 <= n → h_ledgerVersion (chain n) <= 11;
  hon_files : ∀ c, (c + 1) mod freq = 0 → (v_range P).1 <= c → c <= checkpointContainingLedger freq (v_range P).2 →
    v_files P c = Some (honestFile freq chain c);
  hon_closed : 1 <= (v_lastClosed P).1 < 2 ^ 32 ∧ (v_lastClosed P).2 = headerHash (chain (v_lastClosed P).1);
  hon_end : (v_trustedEnd P).1 = (v_range P).2 ∧ ∀ h, (v_trustedEnd P).2 = Some h → h = headerHash (chain (v_range P).2) }.

Section Complete.
Context (freq : Z) (Hfreq : freq = 8 ∨ freq = 64) `{HH : HeaderHash} (P : VerifyParams) (chain : Z → Header) (HG : Honest freq chain P).
Notation first := ((v_range P).1).
Notation final := ((v_range P).2).
Context (Hrange : 1 <= first <= final) (Hfinal : final + freq < 2 ^ 32).

Lemma honest_self n : verifyLedgerHistoryEntry (honestEntry chain n) = VERIFY_STATUS_OK.
Proof. unfold verifyLedgerHistoryEntry. simpl. by rewrite Z.eqb_refl. Qed.
Lemma honest_link n : 1 <= n → verifyLedgerHistoryLink (headerHash (chain n)) (honestEntry chain (n + 1)) = VERIFY_STATUS_OK.
Proof. intros Hn. unfold verifyLedgerHistoryLink. rewrite honest_self. simpl. by rewrite (hon_link _ _ _ HG), Z.eqb_refl. Qed.

Lemma honest_closed n : 1 <= n → verifyAgainstLastClosed P (honestEntry chain n) = VERIFY_STATUS_OK.
Proof.
  intros Hn. destruct (hon_closed _ _ _ HG) as [Hl Hh]. unfold verifyAgainstLastClosed. simpl. rewrite (hon_seq _ _ _ HG) by done.
  case_match; propify; [by rewrite Hh, <- H, Z.eqb_refl|]. case_match; propify; [|done].
  destruct (decide ((v_lastClosed P).1 + 1 < 2 ^ 32)) as [Hlt|Hge].
  - rewrite u32_id in * by lia. subst n. rewrite Hh. apply honest_link. lia.
  - replace ((v_lastClosed P).1 + 1) with (2 ^ 32) in * by lia. change (u32 (2 ^ 32)) with 0 in *. lia.
Qed.

Lemma honest_entries len : ∀ a prev ahead,
  1 <= a → a + Z.of_nat len < 2 ^ 32 → match prev with Some p => p = honestEntry chain (a - 1) ∧ 1 < a | None => True end → (0 < len)%nat →
  (a <= final) →
  verifyEntries P (honestEntry chain <$> seqZ a (Z.of_nat len)) prev ahead =
  (VERIFY_STATUS_OK, Some (honestEntry chain (Z.min final (a + Z.of_nat len - 1))),
   match prev with Some _ => ahead | None => (a - 1, Some (h_previousLedgerHash (chain a))) end).
Proof.
  induction len as [|len IH]; intros a prev ahead Ha Hlt Hp Hpos Hfin; [lia|]. rewrite seqZ_cons by lia. rewrite fmap_cons. cbn [verifyEntries].
  cbn [he_header honestEntry]. rewrite (proj2 (Z.ltb_ge _ _)) by (unfold CURRENT_LEDGER_PROTOCOL_VERSION; by apply (hon_version _ _ _ HG)).
  fold (honestEntry chain a). rewrite honest_closed by done.
  assert (Hprev : verifyAgainstPrevious prev (honestEntry chain a) = VERIFY_STATUS_OK).
  { unfold verifyAgainstPrevious. destruct prev as [p|]; [|apply honest_self]. destruct Hp as [-> Ha1]. cbn [he_header honestEntry he_hash].
    rewrite !(hon_seq _ _ _ HG), u32_id by lia. rewrite !(proj2 (Z.ltb_ge _ _)) by lia. replace a with (a - 1 + 1) at 2 by lia. apply honest_link. lia. }
  rewrite Hprev, (hon_seq _ _ _ HG) by done. rewrite (u32_id (a - 1)) by lia. destruct (a =? final) eqn:E; propify.
  - rewrite Z.min_l by lia. by rewrite <- E.
  - replace (Z.pred (Z.of_nat (S len))) with (Z.of_nat len) by lia. destruct len as [|len].
    + rewrite Z.min_r by lia. by replace (a + Z.of_nat 1 - 1) with a by lia.
    + rewrite (IH (Z.succ a) (Some (honestEntry chain a))); [|lia|lia|split; [f_equal; lia|lia]|lia|lia].
      replace (Z.succ a + Z.of_nat (S len) - 1) with (a + Z.of_nat (S (S len)) - 1) by lia. done.
Qed.

(** Before the checkpoint [c] is read. *)
Definition aheadAt (c : Z) : Z * option Z :=
  if c =? lastOfGroup freq final then (0, None) else (c, Some (headerHash (chain c))).

Lemma honest_checkpoint q c st :
  c + 1 = q * freq → lastOfGroup freq first <= c <= lastOfGroup freq final → 
  ∃ ahead, verifyHistoryOfSingleCheckpoint freq P (mkVS c (aheadAt c) st) (honestFile freq chain c) =
    Val (VERIFY_STATUS_OK, mkVS c ahead (if c =? lastOfGroup freq first then Some (honestEntry chain (Z.min final c)) else st)) ∧
    (freq <= c → ahead = (c - freq, Some (headerHash (chain (c - freq))))).
Proof.
  intros Hq Hc. pose proof (freq_pos freq Hfreq). pose proof (lastOfGroup_bounds freq Hfreq first). pose proof (lastOfGroup_bounds freq Hfreq final).
  assert (Hcp : checkpointContainingLedger freq first = lastOfGroup freq first) by (apply checkpoint_Val; [done|lia|lia]).
  set (a := firstOfGroup freq c). assert (Ha : a = Z.max 1 (c - freq + 1)) by done.
  assert (Haf : a <= final). { unfold lastOfGroup in Hc. pose proof (Z.div_mod final freq). pose proof (Z.mod_pos_bound final freq). assert (q * freq <= (final / freq + 1) * freq) by lia. nia. }
  unfold verifyHistoryOfSingleCheckpoint, honestFile. fold a. replace (c - a + 1) with (Z.of_nat (Z.to_nat (c - a + 1))) by lia.
  rewrite honest_entries by (done || lia). cbn [vs_currCheckpoint vs_verifiedAhead vs_rangeStart lastSeq]. replace (a + Z.of_nat (Z.to_nat (c - a + 1)) - 1) with c by lia.
  assert (Hs : h_ledgerSeq (he_header (honestEntry chain (Z.min final c))) = Z.min final c) by (apply (hon_seq _ _ _ HG); lia). rewrite Hs, Hcp.
  eexists. split.
  - destruct (hon_end _ _ _ HG) as [He1 He2].
    assert (Hlast : ∀ next, next.1 = Z.min final c → (∀ h, next.2 = Some h → h = headerHash (chain (Z.min final c))) →
      verifyLastLedgerInCheckpoint (honestEntry chain (Z.min final c)) next = Val VERIFY_STATUS_OK).
    { intros [m o] Hm Ho. cbn [fst snd] in *. unfold verifyLastLedgerInCheckpoint. cbn [fst snd]. rewrite Hs, Hm, Z.eqb_refl. simpl.
      destruct o as [h|]; [|done]. by rewrite (Ho h eq_refl), Z.eqb_refl. }
    unfold aheadAt. destruct (decide (final <= c)) as [Hle|Hgt].
    + assert (Hcf : c = lastOfGroup freq final) by (rewrite (lastOfGroup_unique freq final (q - 1)); lia).
      rewrite Z.min_l in * by lia. rewrite Z.eqb_refl, (proj2 (Z.eqb_eq c _) Hcf). rewrite andb_false_r. cbn [fst].
      change (0 =? 0) with true. cbn [assert]. unfold mret, Checked_ret. rewrite !bind_Val. rewrite Hlast by done. rewrite bind_Val. by destruct (c =? lastOfGroup freq first).
    + rewrite Z.min_r in * by lia. rewrite Z.eqb_refl, (proj2 (Z.eqb_neq c final)), (proj2 (Z.eqb_neq c (lastOfGroup freq final))) by lia. simpl andb. cbn iota.
      cbn [assert fst snd]. unfold mret, Checked_ret. rewrite bind_Val, (proj2 (Z.eqb_neq c 0)) by lia. cbn [assert negb]. rewrite !bind_Val.
      rewrite Hlast; [|done|by intros h [= <-]]. rewrite bind_Val. by destruct (c =? lastOfGroup freq first).
  - intros Hfc. replace a with (c - freq + 1) by lia. replace (c - freq + 1 - 1) with (c - freq) by lia. by rewrite (hon_link _ _ _ HG) by nia.
Qed.

Lemma honest_crank k st :
  0 <= k → lastOfGroup freq first + k * freq <= lastOfGroup freq final → 
  ∃ N s, (∀ n, (N <= n)%nat → verifyCrank freq P n (mkVS (lastOfGroup freq first + k * freq) (aheadAt (lastOfGroup freq first + k * freq)) st) = Val (WORK_SUCCESS, s)) ∧
    vs_rangeStart s = Some (honestEntry chain (Z.min final (lastOfGroup freq first))).
Proof.
  intros Hk. revert st. pattern k. apply natlike_ind; [| |done]; clear k Hk; [intros st Hle|intros k Hk IH st Hle].
  all: pose proof (freq_pos freq Hfreq); pose proof (lastOfGroup_bounds freq Hfreq first); pose proof (lastOfGroup_bounds freq Hfreq final).
  all: assert (Hcp : checkpointContainingLedger freq first = lastOfGroup freq first) by (apply checkpoint_Val; [done|lia|lia]).
  all: match goal with |- context [mkVS ?c _ _] => set (c0 := c) in * end.
  all: destruct (honest_checkpoint ((c0 + 1) / freq) c0 st) as (ahead & Hv & Hah);
    [rewrite Z.mul_comm; apply Z_div_exact_2; [lia|]; unfold c0;
     match goal with |- (_ + ?k * _ + 1) mod _ = 0 => replace (lastOfGroup freq first + k * freq + 1) with (lastOfGroup freq first + 1 + k * freq) by lia end;
     rewrite Z.mod_add, group_divides by (done || lia); done|unfold c0; nia|].
  all: assert (Hf : v_files P c0 = Some (honestFile freq chain c0)).
  1,3: apply (hon_files _ _ _ HG); [|unfold c0; nia|rewrite (checkpoint_Val freq Hfreq final) by lia; lia];
       unfold c0; match goal with |- (_ + ?k * _ + 1) mod _ = 0 => replace (lastOfGroup freq first + k * freq + 1) with (lastOfGroup freq first + 1 + k * freq) by lia end;
       rewrite Z.mod_add, group_divides by (done || lia); done.
  - assert (E : c0 = lastOfGroup freq first) by lia. rewrite (proj2 (Z.eqb_eq _ _) E) in Hv. exists 1%nat, (mkVS c0 ahead (Some (honestEntry chain (Z.min final c0)))).
    split; [|by rewrite E]. intros [|n] Hn; [lia|]. cbn [verifyCrank]. unfold verifyOnRun. cbn [vs_currCheckpoint]. rewrite Hcp, E, Z.ltb_irrefl, <- E, Hf, Hv, bind_Val.
    cbn [vs_currCheckpoint]. by rewrite E, Z.eqb_refl.
  - assert (Hne : c0 ≠ lastOfGroup freq first) by (unfold c0; nia). rewrite (proj2 (Z.eqb_neq _ _) Hne) in Hv.
    assert (Hc1 : c0 - freq = lastOfGroup freq first + k * freq) by (unfold c0; lia).
    destruct (IH st) as (N & s & Hs & Hst); [lia|]. exists (S N), s. split; [|done]. intros [|n] Hn; [lia|]. cbn [verifyCrank]. unfold verifyOnRun. cbn [vs_currCheckpoint].
    rewrite Hcp, (proj2 (Z.ltb_ge _ _)), Hf, Hv, bind_Val by (unfold c0; nia). cbn [vs_currCheckpoint vs_verifiedAhead vs_rangeStart]. rewrite (proj2 (Z.eqb_neq _ _) Hne), bind_Val.
    rewrite u32_id, Hc1 by (unfold c0 in *; nia). rewrite (Hah ltac:(unfold c0; nia)), Hc1. unfold aheadAt in Hs. rewrite (proj2 (Z.eqb_neq _ _)) in Hs by (unfold c0 in *; lia). apply Hs. lia.
Qed.

(** C28: the verification accepts the files of an honest archive: whatever range is asked for, if the last closed ledger of
    the node and the trusted hash, if there is one, are those of the chain, the work ends with success and returns the
    header of the first checkpoint (or of the last ledger, if that comes first). *)
Theorem genuine_chain_is_verified :
  ∃ N s, (∀ n, (N <= n)%nat → verifyLedgerChain freq P n = Val (WORK_SUCCESS, s)) ∧
    vs_rangeStart s = Some (honestEntry chain (Z.min final (checkpointContainingLedger freq first))).
Proof.
  pose proof (freq_pos freq Hfreq). pose proof (Z.div_le_mono first final freq).
  destruct (honest_crank (final / freq - first / freq) None) as (N & s & Hs & Hst); [lia|unfold lastOfGroup; lia|].
  exists N, s. rewrite checkpoint_Val by (done || lia). split; [|done]. intros n Hn. unfold verifyLedgerChain, verifyReset.
  destruct (hon_end _ _ _ HG) as [-> _]. rewrite Z.eqb_refl. cbn [assert]. rewrite bind_Val, checkpoint_Val by (done || lia).
  replace (lastOfGroup freq first + (final / freq - first / freq) * freq) with (lastOfGroup freq final) in Hs by (unfold lastOfGroup; lia).
  unfold aheadAt in Hs. rewrite Z.eqb_refl in Hs. by apply Hs.
Qed.
End Complete.

(** ** Examples *)

Lemma catchup_range_correct_witness :
  ∃ r, newCatchupRange 64 1 (mkConfig 200 100 None) = Val r ∧ getLast r = 200 ∧ getBucketApplyLedger r = Val 63 ∧ mLedgerCount r = 137.
Proof.
  destruct (catchup_range_correct 64 (or_intror eq_refl) 1 (mkConfig 200 100 None)) as (r & Hr & Hl & _); [simpl; lia|simpl; lia|simpl; lia|].
  exists r. vm_compute in Hr. injection Hr as <-. split; [reflexivity|]. split; [exact Hl|]. split; reflexivity.
Defined.

Definition sampleChain (n : Z) : Header := mkHdr n 11 (if n =? 1 then 0 else n) 0.
Definition sampleHeaderHash : HeaderHash := λ h, 1 + h_ledgerSeq h.
#[local] Existing Instance sampleHeaderHash.
Definition sampleVerify : VerifyParams := mkVerify (10, 20) (1, 2) (20, Some 21) (λ c, Some (honestFile 8 sampleChain c)).

Lemma sampleChain_link n : 1 <= n → h_previousLedgerHash (sampleChain (n + 1)) = headerHash (sampleChain n).
Proof. intros Hn. unfold sampleChain, headerHash, sampleHeaderHash. simpl. rewrite (proj2 (Z.eqb_neq _ _)) by lia. lia. Qed.

Lemma sample_file c es e : v_files sampleVerify c = Some es → e ∈ es → ∃ n, 1 <= n ∧ he_header e = sampleChain n.
Proof. intros [= <-] (n & -> & Hn%elem_of_seqZ)%list_elem_of_fmap. exists n. split; [unfold firstOfGroup in Hn; lia|done]. Qed.

Lemma sample_genuine : Genuine sampleChain sampleVerify.
Proof.
  split; [done|apply sampleChain_link| |].
  - intros c es e n Hf He Hn. destruct (sample_file c es e Hf He) as (m & Hm & ->). unfold headerHash, sampleHeaderHash. simpl. intros Heq. f_equal. lia.
  - intros c es e Hf He. destruct (sample_file c es e Hf He) as (m & Hm & ->). unfold headerHash, sampleHeaderHash. simpl. lia.
Qed.

Lemma verified_chain_is_genuine_witness :
  ∃ s e, verifyLedgerChain 8 sampleVerify 2 = Val (WORK_SUCCESS, s) ∧ vs_rangeStart s = Some e ∧ he_header e = sampleChain (h_ledgerSeq (he_header e)).
Proof.
  destruct (verifyLedgerChain 8 sampleVerify 2) as [[r s]| | |] eqn:E; try (vm_compute in E; discriminate).
  assert (r = WORK_SUCCESS) as -> by (vm_compute in E; congruence).
  destruct (verified_chain_is_genuine 8 (or_introl eq_refl) sampleVerify sampleChain sample_genuine eq_refl ltac:(simpl; lia) ltac:(simpl; lia) 2 s E) as [_ (e & He & Hg & _)].
  exists s, e. split; [reflexivity|]. split; [exact He|exact Hg].
Defined.

Lemma genuine_chain_is_verified_witness :
  ∃ N s, (∀ n, (N <= n)%nat → verifyLedgerChain 8 sampleVerify n = Val (WORK_SUCCESS, s)) ∧ vs_rangeStart s = Some (honestEntry sampleChain 15).
Proof.
  apply (genuine_chain_is_verified 8 (or_introl eq_refl) sampleVerify sampleChain); [|simpl; lia|simpl; lia]. split.
  - done.
  - apply sampleChain_link.
  - done.
  - done.
  - split; [simpl; lia|reflexivity].
  - split; [reflexivity|]. by intros h [= <-].
Defined.

(** A file of an archive that begins too late: the checkpoint before it ends the process. *)
Definition lateFile (c : Z) : option (list HeaderEntry) :=
  Some (if c =? 23 then drop 2 (honestFile 8 sampleChain c) else honestFile 8 sampleChain c).

Example late_file_aborts :
  verifyLedgerChain 8 (mkVerify (10, 20) (1, 2) (20, Some 21) lateFile) 2 = Asserts "ledger.header.ledgerSeq == verifiedAhead.first".
Proof. vm_compute. reflexivity. Qed.
