(* ===== verification/TxSet.v ===== *)
(** * Sets of transactions: [herder/TxSetFrame.cpp]

    The set of transactions that consensus agrees on: building it, removing what is not valid, filtering by fee when it
    is too large, checking it, its hash, the order in which it is applied and the fee that is charged. A transaction
    frame is its envelope with the pointer through which it is shared; the hashes of transactions and sets, the order
    of hash tables and what [std::sort] does with equal elements are parameters. *)
From stdpp Require Import base list gmap strings sorting.
From Stdlib Require Import ZArith Lia.
From S2P Require Import Prelude UInt128 Numeric LedgerEntries Balances LedgerTxn TrustLines OpTypes Signatures Transactions.

(** ** What the standard library and the hash function give *)

(** An iteration order of the hash tables. *)
Class TableOrder := {
  inOrder : ∀ {A}, gmap Z A → list (Z * A);
  inOrder_perm A (m : gmap Z A) : inOrder m ≡ₚ map_to_list m }.

(** [std::sort] with a comparison of keys: the order of elements with the same key is not specified. *)
Class StdSort := {
  sortBy : ∀ {A}, (A → Z) → list A → list A;
  sortBy_perm A (key : A → Z) l : sortBy key l ≡ₚ l;
  sortBy_sorted A (key : A → Z) l : StronglySorted (λ a b, key a <= key b) (sortBy key l) }.

Record TransactionFrame := mkFrame { fr_ptr : nat; getEnvelope : TransactionEnvelope }.
Notation TransactionFramePtr := TransactionFrame (only parsing).

(** [getContentsHash] and [getFullHash] of a transaction, and the hash of the previous ledger and the envelopes. *)
Class TxHashes := {
  txContentsHash : Transaction → Z;
  txFullHash : TransactionEnvelope → Z;
  txSetHash : Z → list TransactionEnvelope → Z }.

Definition frameTx (f : TransactionFramePtr) : Transaction := tx (getEnvelope f).
Definition frameSource (f : TransactionFramePtr) : AccountID := tx_sourceAccount (frameTx f).
Definition getSeqNum (f : TransactionFramePtr) : Z := tx_seqNum (frameTx f).
Definition getFeeBid (f : TransactionFramePtr) : Z := tx_fee (frameTx f).
Definition opsCountOf (f : TransactionFramePtr) : Z := numOperations (getEnvelope f).

Definition MAX_OPS_PER_TX : Z := 100.

Record TxSetFrame := mkTxSet {
  mHashIsValid : bool; mHash : Z; mPreviousLedgerHash : Z; mTransactions : list TransactionFramePtr }.

Definition newTxSet (previousLedgerHash : Z) : TxSetFrame := mkTxSet false 0 previousLedgerHash [].
Definition txset_add (t : TransactionFramePtr) (f : TxSetFrame) : TxSetFrame :=
  mkTxSet false (mHash f) (mPreviousLedgerHash f) (mTransactions f ++ [t]).

(** [previousLedgerHash()] hands out a reference and forgets the hash; here with the value that the caller writes. *)
Definition writePreviousLedgerHash (h : Z) (f : TxSetFrame) : TxSetFrame := mkTxSet false (mHash f) h (mTransactions f).

(** [std::find] compares pointers. *)
Fixpoint removeFirst (p : nat) (l : list TransactionFramePtr) : list TransactionFramePtr :=
  match l with
  | [] => []
  | t :: l => if (fr_ptr t =? p)%nat then l else t :: removeFirst p l
  end.
Definition removeTx (t : TransactionFramePtr) (f : TxSetFrame) : TxSetFrame :=
  mkTxSet false (mHash f) (mPreviousLedgerHash f) (removeFirst (fr_ptr t) (mTransactions f)).

Section Hashes.
Context `{TxHashes} `{StdSort} `{TableOrder}.

Definition getFullHash (f : TransactionFramePtr) : Z := txFullHash (getEnvelope f).

Definition sortForHash (f : TxSetFrame) : TxSetFrame :=
  mkTxSet false (mHash f) (mPreviousLedgerHash f) (sortBy getFullHash (mTransactions f)).

(** The hash, and the set with the hash in its cache. *)
Definition getContentsHash (f : TxSetFrame) : Z * TxSetFrame :=
  if mHashIsValid f then (mHash f, f)
  else
    let f := sortForHash f in
    let h := txSetHash (mPreviousLedgerHash f) (getEnvelope <$> mTransactions f) in
    (h, mkTxSet true h (mPreviousLedgerHash f) (mTransactions f)).

(** ** The queue of each account *)

Definition enqueue (m : gmap AccountID (list TransactionFramePtr)) (t : TransactionFramePtr) : gmap AccountID (list TransactionFramePtr) :=
  <[frameSource t := default [] (m !! frameSource t) ++ [t]]> m.
Definition buildAccountTxQueues (txs : list TransactionFramePtr) : gmap AccountID (list TransactionFramePtr) :=
  sortBy getSeqNum <$> foldl enqueue ∅ txs.

(** ** The order of application *)

(** [lessThanXored]: the numbers that are compared. *)
Definition xored (x : Z) (t : TransactionFramePtr) : Z := Z.lxor x (getFullHash t).

(** One turn: the first transaction of each account, and the queues without them. *)
Definition popFronts (m : gmap AccountID (list TransactionFramePtr)) : list TransactionFramePtr * gmap AccountID (list TransactionFramePtr) :=
  (inOrder m ≫= λ kv, take 1 kv.2, filter (λ kv, kv.2 ≠ []) (tail <$> m)).

Fixpoint txBatches (fuel : nat) (m : gmap AccountID (list TransactionFramePtr)) : option (list (list TransactionFramePtr)) :=
  if decide (m = ∅) then Some []
  else
    match fuel with
    | O => None
    | S fuel => let '(batch, m) := popFronts m in cons batch <$> txBatches fuel m
    end.

Definition sortForApply (f : TxSetFrame) : option (list TransactionFramePtr) * TxSetFrame :=
  match txBatches (length (mTransactions f)) (buildAccountTxQueues (mTransactions f)) with
  | None => (None, f)
  | Some [] => (Some [], f)
  | Some batches =>
      let '(h, f) := getContentsHash f in
      (Some (batches ≫= sortBy (xored h)), f)
  end.

(** ** Sizes and fees *)

Definition sumOps (txs : list TransactionFramePtr) : Z := foldr (λ t n, opsCountOf t + n) 0 txs.
Definition sizeTx (f : TxSetFrame) : Z := Z.of_nat (length (mTransactions f)).
Definition sizeOp (f : TxSetFrame) : Z := sumOps (mTransactions f).
Definition txset_size (lh : LedgerHeader) (f : TxSetFrame) : Z := if 11 <=? ledgerVersion lh then sizeOp f else sizeTx f.

(** The number of operations and the lowest fee for one of them. *)
Fixpoint lowestFee {S} (txs : list TransactionFramePtr) (ops lowBaseFee : Z) : M S (Z * Z) :=
  match txs with
  | [] => mret (ops, lowBaseFee)
  | t :: txs =>
      let txOps := opsCountOf t in
      txBaseFee ← bigDivide (getFeeBid t) 1 txOps ROUND_UP;
      lowestFee txs (ops + txOps) (Z.min lowBaseFee txBaseFee)
  end.
Definition getBaseFee {S} (lh : LedgerHeader) (f : TxSetFrame) : M S Z :=
  if 11 <=? ledgerVersion lh then
    '(ops, lowBaseFee) ← lowestFee (mTransactions f) 0 INT64_MAX;
    let surgeOpsCutoff := if MAX_OPS_PER_TX <=? maxTxSetSize lh then maxTxSetSize lh - MAX_OPS_PER_TX else 0 in
    mret (if surgeOpsCutoff <? ops then lowBaseFee else baseFee lh)
  else mret (baseFee lh).
Definition getTotalFees {S} (lh : LedgerHeader) (f : TxSetFrame) : M S Z :=
  base ← getBaseFee lh f;
  mret (foldl (λ total t, s64 (total + getFee (getEnvelope t) lh base)) 0 (mTransactions f)).

(** ** Surge pricing *)

(** [SurgeCompare]. *)
Definition surgeLess {S} (lh : LedgerHeader) (seed : Z) (q1 q2 : list TransactionFramePtr) : M S bool :=
  match q1, q2 with
  | [], [] => mret false
  | [], _ :: _ => mret true
  | _ :: _, [] => mret false
  | top1 :: _, top2 :: _ =>
      v1 ← bigMultiply (getFeeBid top1) (getMinFee (getEnvelope top2) lh);
      v2 ← bigMultiply (getFeeBid top2) (getMinFee (getEnvelope top1) lh);
      mret (if u128_ltb v1 v2 then true
            else if u128_gtb v1 v2 then false
            else xored seed top1 <? xored seed top2)
  end.

(** [top] and [pop] of the priority queue: a greatest element and the others. *)
Fixpoint popTop {S} (lh : LedgerHeader) (seed : Z) (best : list TransactionFramePtr) (rest queue : list (list TransactionFramePtr)) :
    M S (list TransactionFramePtr * list (list TransactionFramePtr)) :=
  match queue with
  | [] => mret (best, rest)
  | q :: queue =>
      less ← surgeLess lh seed best q;
      if (less : bool) then popTop lh seed q (best :: rest) queue else popTop lh seed best (q :: rest) queue
  end.

Fixpoint surgeLoop {S} (fuel : nat) (lh : LedgerHeader) (seed opsLeft : Z) (surgeQueue : list (list TransactionFramePtr))
    (updatedSet : list TransactionFramePtr) : M S (list TransactionFramePtr) :=
  if opsLeft <=? 0 then mret updatedSet
  else
    match surgeQueue with
    | [] => mret updatedSet
    | q :: queue =>
        match fuel with
        | O => nofuel
        | Datatypes.S fuel =>
            '(cur, queue) ← popTop lh seed q [] queue;
            match cur with
            | [] => crash "front of an empty queue"
            | curTopTx :: cur =>
                let opsCount := if 11 <=? ledgerVersion lh then opsCountOf curTopTx else MAX_OPS_PER_TX in
                if opsCount <=? opsLeft then
                  surgeLoop fuel lh seed (opsLeft - opsCount) (match cur with [] => queue | _ => cur :: queue end)
                    (updatedSet ++ [curTopTx])
                else surgeLoop fuel lh seed opsLeft queue updatedSet
            end
        end
    end.

(** [LedgerTxn ltx(app.getLedgerTxnRoot())]. *)
Definition withRootTxn {A} (body : nat → M Ledger A) : M Ledger A :=
  ltx ← newLedgerTxn None true; scoped (destroyTxn ltx) (body ltx).

Definition surgePricingFilter (seed : Z) (f : TxSetFrame) : M Ledger TxSetFrame :=
  withRootTxn (λ ltx, withHeader ltx (λ header,
    lh ← headerCurrent header;
    let maxIsOps := 11 <=? ledgerVersion lh in
    let opsLeft := if maxIsOps then maxTxSetSize lh else maxTxSetSize lh * MAX_OPS_PER_TX in
    let curSizeOps := if maxIsOps then sizeOp f else sizeTx f * MAX_OPS_PER_TX in
    if opsLeft <? curSizeOps then
      let surgeQueue := (inOrder (buildAccountTxQueues (mTransactions f))).*2 in
      updatedSet ← surgeLoop (length (mTransactions f)) lh seed opsLeft surgeQueue [];
      mret (sortForHash (mkTxSet (mHashIsValid f) (mHash f) (mPreviousLedgerHash f) updatedSet))
    else mret f)).

(** ** Validity *)

(** The transactions are in the order of their hashes. *)
Fixpoint hashesSorted (lastHash : Z) (txs : list TransactionFramePtr) : bool :=
  match txs with
  | [] => true
  | t :: txs => if getFullHash t <? lastHash then false else hashesSorted (getFullHash t) txs
  end.

Section Check.
Context `{HashOrder} `{Crypto} {St : Type}.
Context (processInvalidTx : TransactionFramePtr → Z → St → bool * St)
        (processInsufficientBalance : list TransactionFramePtr → St → bool * St).

(** The queue of an account; no result: [checkOrTrim] returns false. *)
Fixpoint checkQueue (ltx : nat) (q : list TransactionFramePtr) (lastTx : option TransactionFramePtr) (lastSeq totFee : Z) (st : St) :
    M Ledger (option (option TransactionFramePtr * Z) * St) :=
  match q with
  | [] => mret (Some (lastTx, totFee), st)
  | t :: q =>
      '(valid, _) ← checkValid (getEnvelope t) (txContentsHash (frameTx t)) ltx lastSeq;
      if (valid : bool) then checkQueue ltx q (Some t) (getSeqNum t) (s64 (totFee + getFeeBid t)) st
      else
        let '(go, st) := processInvalidTx t lastSeq st in
        if (go : bool) then checkQueue ltx q lastTx lastSeq totFee st else mret (None, st)
  end.

(** The transactions of an account: whether to go on. *)
Definition checkAccount (ltx : nat) (q : list TransactionFramePtr) (st : St) : M Ledger (bool * St) :=
  '(r, st) ← checkQueue ltx q None 0 0 st;
  match r with
  | None => mret (false, st)
  | Some (None, _) => mret (true, st)
  | Some (Some t, totFee) =>
      source ← loadAccount ltx (frameSource t);
      withEntry source (λ h,
        avail ← withHeader ltx (λ header, readEntry getAvailableBalance header h);
        mret (if avail <? totFee then processInsufficientBalance q st else (true, st)))
  end.

Fixpoint checkQueues (ltx : nat) (items : list (AccountID * list TransactionFramePtr)) (st : St) : M Ledger (bool * St) :=
  match items with
  | [] => mret (true, st)
  | (_, q) :: items =>
      '(go, st) ← checkAccount ltx q st;
      if (go : bool) then checkQueues ltx items st else mret (false, st)
  end.

Definition checkOrTrim (f : TxSetFrame) (st : St) : M Ledger (bool * St) :=
  withRootTxn (λ ltx,
    let accountTxMap := buildAccountTxQueues (mTransactions f) in
    if hashesSorted 0 (mTransactions f) then checkQueues ltx (inOrder accountTxMap) st
    else mret (false, st)).
End Check.

(** What is removed, and the set that is left. *)
Definition trimInvalid `{HashOrder} `{Crypto} (f : TxSetFrame) : M Ledger (list TransactionFramePtr * TxSetFrame) :=
  let f := sortForHash f in
  let trim t (st : list TransactionFramePtr * TxSetFrame) := (st.1 ++ [t], removeTx t st.2) in
  '(_, st) ← checkOrTrim (λ t _ st, (true, trim t st)) (λ item st, (true, foldl (λ st t, trim t st) st item)) f ([], f);
  mret st.

(** [TxSetFrame::checkValid], with the last closed ledger of the ledger manager. *)
Definition checkSetValid `{HashOrder} `{Crypto} (lclHash : Z) (lcl : LedgerHeader) (f : TxSetFrame) : M Ledger bool :=
  if negb (lclHash =? mPreviousLedgerHash f) then mret false
  else if maxTxSetSize lcl <? txset_size lcl f then mret false
  else
    '(ok, _) ← checkOrTrim (λ _ _ st, (false, st)) (λ _ st, (false, st)) f tt;
    mret ok.
End Hashes.

(** ** On the wire *)

Record TransactionSet := mkXdrSet { xdr_previousLedgerHash : Z; xdr_txs : list TransactionEnvelope }.
Definition toXDR (f : TxSetFrame) : TransactionSet := mkXdrSet (mPreviousLedgerHash f) (getEnvelope <$> mTransactions f).
(** Each envelope gets a frame of its own; [fresh] is the first unused pointer. *)
Definition fromXDR (fresh : nat) (s : TransactionSet) : TxSetFrame :=
  mkTxSet false 0 (xdr_previousLedgerHash s) (imap (λ i e, mkFrame (fresh + i) e) (xdr_txs s)).
