(* ===== verification/TxQueue.v ===== *)
(** * Pending transactions: [herder/TransactionQueue.cpp] and their proposal by [HerderImpl]

    The transactions received, by age and by account, and the hashes of those that are banned for a while; adding,
    removing and ageing them. [proposeTxSet] is what the herder does with them when a ledger is due. *)
From stdpp Require Import base list gmap strings sorting.
From Stdlib Require Import ZArith Lia.
From S2P Require Import Prelude UInt128 Numeric LedgerEntries Balances LedgerTxn TrustLines OpTypes Signatures Transactions TxSet.

Inductive AddResult := ADD_STATUS_PENDING | ADD_STATUS_DUPLICATE | ADD_STATUS_ERROR | ADD_STATUS_TRY_AGAIN_LATER.

Record AccountTxQueueInfo := mkInfo { mMaxSeq : Z; mTotalFees : Z }.
Definition noInfo : AccountTxQueueInfo := mkInfo 0 0.

Record TxMap := mkTxMap { mCurrentQInfo : AccountTxQueueInfo; tm_transactions : gmap Z TransactionFrame }.
Notation AccountTxMap := (gmap AccountID TxMap) (only parsing).

Record TransactionQueue := mkQueue { mPendingTransactions : list AccountTxMap; mBannedTransactions : list (gset Z) }.

Definition newQueue (pendingDepth banDepth : nat) : TransactionQueue := mkQueue (replicate pendingDepth ∅) (replicate banDepth ∅).
Definition TRANSACTION_QUEUE_SIZE : nat := 4.
Definition TRANSACTION_QUEUE_BAN_SIZE : nat := 10.

Definition countBanned (q : TransactionQueue) (i : nat) : Z := Z.of_nat (size (default ∅ (mBannedTransactions q !! i))).
Definition isBanned (q : TransactionQueue) (hash : Z) : bool := existsb (λ b, bool_decide (hash ∈ b)) (mBannedTransactions q).

(** The greatest sequence number and the fees, with one transaction more. *)
Definition countTx (i : AccountTxQueueInfo) (t : TransactionFrame) : AccountTxQueueInfo :=
  mkInfo (Z.max (getSeqNum t) (mMaxSeq i)) (s64 (mTotalFees i + getFeeBid t)).

Section Queue.
Context `{TxHashes} `{StdSort} `{TableOrder}.

Definition addTx (t : TransactionFrame) (m : TxMap) : TxMap :=
  let h := getFullHash t in
  match tm_transactions m !! h with
  | Some _ => m
  | None => mkTxMap (countTx (mCurrentQInfo m) t) (<[h := t]> (tm_transactions m))
  end.

Definition recalculate (m : TxMap) : TxMap :=
  mkTxMap (foldl (λ i kv, countTx i kv.2) noInfo (inOrder (tm_transactions m))) (tm_transactions m).

Definition contains (q : TransactionQueue) (t : TransactionFrame) : bool :=
  existsb (λ map : AccountTxMap,
    match map !! frameSource t with
    | None => false
    | Some m => match tm_transactions m !! getFullHash t with Some _ => true | None => false end
    end) (mPendingTransactions q).

Definition joinInfo (accountID : AccountID) (i : AccountTxQueueInfo) (map : AccountTxMap) : AccountTxQueueInfo :=
  match map !! accountID with
  | Some m => mkInfo (Z.max (mMaxSeq i) (mMaxSeq (mCurrentQInfo m))) (s64 (mTotalFees i + mTotalFees (mCurrentQInfo m)))
  | None => i
  end.
Definition getAccountTransactionQueueInfo (q : TransactionQueue) (accountID : AccountID) : AccountTxQueueInfo :=
  foldl (joinInfo accountID) noInfo (mPendingTransactions q).

(** ** Adding *)

Definition addPending (t : TransactionFrame) (q : TransactionQueue) : option TransactionQueue :=
  match mPendingTransactions q with
  | [] => None
  | map :: rest =>
      let m := default (mkTxMap noInfo ∅) (map !! frameSource t) in
      Some (mkQueue (<[frameSource t := addTx t m]> map :: rest) (mBannedTransactions q))
  end.

(** The answer, the result that the frame then has if it was checked, and the queue. *)
Definition tryAdd `{HashOrder} `{Crypto} (t : TransactionFrame) (q : TransactionQueue) :
    M Ledger (AddResult * option TransactionResult * TransactionQueue) :=
  if isBanned q (getFullHash t) then mret (ADD_STATUS_TRY_AGAIN_LATER, None, q)
  else if contains q t then mret (ADD_STATUS_DUPLICATE, None, q)
  else
    let info := getAccountTransactionQueueInfo q (frameSource t) in
    withRootTxn (λ ltx,
      '(valid, r) ← checkValid (getEnvelope t) (txContentsHash (frameTx t)) ltx (mMaxSeq info);
      if negb (valid : bool) then mret (ADD_STATUS_ERROR, Some r, q)
      else
        sourceAccount ← loadAccount ltx (frameSource t);
        withEntry sourceAccount (λ h,
          avail ← withHeader ltx (λ header, readEntry getAvailableBalance header h);
          if s64 (avail - getFeeBid t) <? mTotalFees info
          then mret (ADD_STATUS_ERROR, Some (setCode txINSUFFICIENT_BALANCE r), q)
          else
            match addPending t q with
            | Some q => mret (ADD_STATUS_PENDING, Some r, q)
            | None => crash "mPendingTransactions[0]"
            end)).

(** ** Removing and ageing *)

(** One transaction of one age: the map, and the accounts to recalculate. *)
Definition dropTx (st : AccountTxMap * gset AccountID) (t : TransactionFrame) : AccountTxMap * gset AccountID :=
  let '(map, toRecalculate) := st in
  match map !! frameSource t with
  | None => st
  | Some m =>
      match tm_transactions m !! getFullHash t with
      | None => st
      | Some _ =>
          let txs := delete (getFullHash t) (tm_transactions m) in
          if decide (txs = ∅) then (delete (frameSource t) map, toRecalculate)
          else (<[frameSource t := mkTxMap (mCurrentQInfo m) txs]> map, {[frameSource t]} ∪ toRecalculate)
      end
  end.

Definition removeFrom (dropTxs : list TransactionFrame) (map : AccountTxMap) : AccountTxMap :=
  if decide (map = ∅) then map
  else
    let '(map, toRecalculate) := foldl dropTx (map, ∅) dropTxs in
    map_imap (λ a m, Some (if decide (a ∈ toRecalculate) then recalculate m else m)) map.
Definition remove (dropTxs : list TransactionFrame) (q : TransactionQueue) : TransactionQueue :=
  mkQueue (removeFrom dropTxs <$> mPendingTransactions q) (mBannedTransactions q).

Definition hashesOf (map : AccountTxMap) : gset Z :=
  list_to_set (map_to_list map ≫= λ kv, (map_to_list (tm_transactions kv.2)).*1).

(** [pop_back] and [back] of an empty deque are undefined. *)
Definition shift (q : TransactionQueue) : option TransactionQueue :=
  match last (mPendingTransactions q), last (mBannedTransactions q) with
  | Some oldest, Some _ =>
      Some (mkQueue (∅ :: removelast (mPendingTransactions q)) (hashesOf oldest :: removelast (mBannedTransactions q)))
  | _, _ => None
  end.

(** ** The proposal *)

Definition allPending (q : TransactionQueue) : list TransactionFrame :=
  mPendingTransactions q ≫= λ map, inOrder map ≫= λ kv, (inOrder (tm_transactions kv.2)).*2.
Definition toTxSet (lclHash : Z) (q : TransactionQueue) : TxSetFrame :=
  foldl (λ f t, txset_add t f) (newTxSet lclHash) (allPending q).

(** [HerderImpl::triggerNextLedger], up to the hash of the proposed set. *)
Definition proposeTxSet `{HashOrder} `{Crypto} (lclHash : Z) (lcl : LedgerHeader) (seed : Z) (q : TransactionQueue) :
    M Ledger (Z * TxSetFrame * TransactionQueue) :=
  let proposedSet := toTxSet lclHash q in
  '(removed, proposedSet) ← trimInvalid proposedSet;
  let q := remove removed q in
  proposedSet ← surgePricingFilter seed proposedSet;
  valid ← checkSetValid lclHash lcl proposedSet;
  if negb (valid : bool) then throw "wanting to emit an invalid txSet"
  else
    let '(txSetHash, proposedSet) := getContentsHash proposedSet in
    mret (txSetHash, proposedSet, q).

(** [HerderImpl::updateTransactionQueue]: the queue, and what is broadcast again. *)
Definition updateTransactionQueue (applied : list TransactionFrame) (q : TransactionQueue) :
    option (TransactionQueue * list TransactionFrame) :=
  q ← shift (remove applied q);
  toBroadcast ← (sortForApply (toTxSet 0 q)).1;
  Some (q, toBroadcast).
End Queue.
