(* ===== verification/TxSetSpec.v ===== *)
(** * The order of application of a set of transactions

    Every node must apply the transactions of a set in the same order, whatever the order in which they came, the hash
    tables of its library and its implementation of [std::sort]: [apply_order_agreed]. *)
From stdpp Require Import base list gmap strings sorting.
From Stdlib Require Import ZArith Lia.
From S2P Require Import Prelude UInt128 Numeric LedgerEntries Balances LedgerTxn TrustLines OpTypes Signatures Transactions TxSet.

(** ** Instances *)

Fixpoint insertBy {A} (key : A → Z) (a : A) (l : list A) : list A :=
  match l with
  | [] => [a]
  | b :: l => if key b <? key a then b :: insertBy key a l else a :: b :: l
  end.
Definition insertionSort {A} (key : A → Z) (l : list A) : list A := foldr (insertBy key) [] l.

Lemma insertBy_perm {A} (key : A → Z) a l : insertBy key a l ≡ₚ a :: l.
Proof. induction l as [|b l IH]; simpl; [done|]. destruct (_ <? _); [|done]. rewrite IH. apply Permutation_swap. Qed.
Lemma insertBy_sorted {A} (key : A → Z) a l :
  StronglySorted (λ a b, key a <= key b) l → StronglySorted (λ a b, key a <= key b) (insertBy key a l).
Proof.
  induction 1 as [|b l Hl IH Hb]; simpl; [repeat constructor|]. destruct (key b <? key a) eqn:E; propify.
  - constructor; [done|]. rewrite insertBy_perm. constructor; [lia|done].
  - constructor; [by constructor|]. constructor; [done|]. eapply Forall_impl; [exact Hb|]. simpl. lia.
Qed.
#[export] Program Instance insertion_StdSort : StdSort | 100 := {| sortBy := @insertionSort |}.
Next Obligation. intros A key l. induction l as [|a l IH]; simpl; [done|]. by rewrite insertBy_perm, IH. Qed.
Next Obligation. intros A key l. induction l as [|a l IH]; simpl; [constructor|]. by apply insertBy_sorted. Qed.

#[export] Program Instance keys_TableOrder : TableOrder | 100 := {| inOrder A m := map_to_list m |}.
Next Obligation. done. Qed.

(** ** Sorting by a key *)

Section Sorting.
Context `{StdSort}.

(** Sorted lists of the same elements agree if the key tells the elements apart, seen through [f]. *)
Lemma sorted_agree {A B C} (f : A → C) (g : B → C) (k : C → Z) (l1 : list A) (l2 : list B) :
  (∀ x y, x ∈ f <$> l1 → y ∈ f <$> l1 → k x = k y → x = y) →
  StronglySorted (λ a b, k (f a) <= k (f b)) l1 → StronglySorted (λ a b, k (g a) <= k (g b)) l2 →
  f <$> l1 ≡ₚ g <$> l2 → f <$> l1 = g <$> l2.
Proof.
  intros Hk H1 H2 Hp.
  assert (Hs : ∀ {X} (h : X → C) l, StronglySorted (λ a b, k (h a) <= k (h b)) l → StronglySorted (λ a b, k a <= k b) (h <$> l)).
  { intros X h l. induction 1 as [|x l Hl IH Hx]; simpl; constructor; [done|]. by rewrite Forall_fmap. }
  apply (StronglySorted_unique_strong (λ a b, k a <= k b)); [|by apply Hs..|done].
  intros x y Hx Hy Hle Hge. apply Hk; [done|by rewrite Hp|lia].
Qed.

Lemma sortBy_nil {A} (key : A → Z) : sortBy key [] = [].
Proof. apply Permutation_nil. symmetry. apply sortBy_perm. Qed.
Lemma sortBy_singleton {A} (key : A → Z) a : sortBy key [a] = [a].
Proof. apply Permutation_singleton_r, sortBy_perm. Qed.
Lemma sortBy_eq_nil {A} (key : A → Z) l : sortBy key l = [] ↔ l = [].
Proof.
  split; [|intros ->; apply sortBy_nil]. intros E. apply Permutation_nil. rewrite <- (sortBy_perm _ key l), E. done.
Qed.

(** A list that is sorted already, with different keys, stays as it is. *)
Lemma sortBy_id {A} (key : A → Z) l l' : StronglySorted (λ a b, key a < key b) l → l' ≡ₚ l → sortBy key l' = l.
Proof.
  intros Hl Hp. apply (StronglySorted_unique_strong (λ a b, key a <= key b)).
  - intros x y Hx Hy Hle Hge. rewrite sortBy_perm, Hp in Hx.
    clear Hp. induction Hl as [|b l Hs IH Hb]; [by apply elem_of_nil in Hx|]. rewrite Forall_forall in Hb.
    apply elem_of_cons in Hx as [->|Hx], Hy as [->|Hy]; [done|specialize (Hb _ Hy); lia|specialize (Hb _ Hx); lia|by apply IH].
  - apply sortBy_sorted.
  - clear Hp. induction Hl as [|b l Hs IH Hb]; constructor; [done|]. eapply Forall_impl; [exact Hb|]. simpl. lia.
  - by rewrite sortBy_perm.
Qed.
End Sorting.

(** ** The queues of the accounts *)

Lemma filter_nothing {A} (P : A → Prop) `{∀ x, Decision (P x)} (l : list A) : (∀ x, x ∈ l → ¬ P x) → filter P l = [].
Proof.
  induction l as [|x l IH]; intros Hl; [done|]. rewrite filter_cons_False by (apply Hl; left). apply IH. intros y Hy. apply Hl. by right.
Qed.
Lemma filter_everything {A} (P : A → Prop) `{∀ x, Decision (P x)} (l : list A) : (∀ x, x ∈ l → P x) → filter P l = l.
Proof.
  induction l as [|x l IH]; intros Hl; [done|]. rewrite filter_cons_True by (apply Hl; left). f_equal. apply IH. intros y Hy. apply Hl. by right.
Qed.

(** The transactions of an account. *)
Definition ofSource (a : AccountID) (l : list TransactionFrame) : list TransactionFrame := filter (λ t, frameSource t = a) l.

Lemma enqueue_lookup m t a :
  enqueue m t !! a = if decide (frameSource t = a) then Some (default [] (m !! a) ++ [t]) else m !! a.
Proof. unfold enqueue. case_decide as E; [rewrite <- E|]; by simplify_map_eq. Qed.

Lemma enqueue_all txs m a :
  foldl enqueue m txs !! a = match ofSource a txs with [] => m !! a | l => Some (default [] (m !! a) ++ l) end.
Proof.
  revert m. induction txs as [|t txs IH]; intros m; [done|]. simpl. rewrite IH, enqueue_lookup. unfold ofSource.
  rewrite filter_cons. case_decide as E; simpl; [|done].
  destruct (filter _ txs) as [|t' l]; [done|]. by rewrite <- app_assoc.
Qed.

Section Queues.
Context `{TxHashes} `{StdSort} `{TableOrder}.

Lemma queue_of txs a :
  buildAccountTxQueues txs !! a = match ofSource a txs with [] => None | l => Some (sortBy getSeqNum l) end.
Proof.
  unfold buildAccountTxQueues. rewrite lookup_fmap, enqueue_all, lookup_empty.
  by destruct (ofSource a txs).
Qed.
Lemma queue_default txs a : default [] (buildAccountTxQueues txs !! a) = sortBy getSeqNum (ofSource a txs).
Proof. rewrite queue_of. destruct (ofSource a txs) eqn:E; simpl; [by rewrite sortBy_nil|done]. Qed.

(** No queue is empty, and each has the transactions of its account. *)
Definition ownQueues (m : gmap AccountID (list TransactionFrame)) : Prop :=
  map_Forall (λ a q, q ≠ [] ∧ Forall (λ t, frameSource t = a) q) m.

Lemma build_own txs : ownQueues (buildAccountTxQueues txs).
Proof.
  intros a q Hq. rewrite queue_of in Hq. destruct (ofSource a txs) as [|t l] eqn:E; [done|]. injection Hq as <-. split.
  - by rewrite sortBy_eq_nil.
  - rewrite sortBy_perm, <- E. apply Forall_forall. intros x [Hx _]%list_elem_of_filter. done.
Qed.

Lemma pop_own m : ownQueues m → ownQueues (popFronts m).2.
Proof.
  intros Hm a q Hq. simpl in Hq. apply map_lookup_filter_Some in Hq as [Hq Hne]. rewrite lookup_fmap in Hq.
  destruct (m !! a) as [l|] eqn:E; [|done]. injection Hq as <-. destruct (Hm _ _ E) as [_ Hf]. split; [done|].
  destruct l; [done|]. simpl. by inversion Hf.
Qed.
Lemma pop_default m a : default [] ((popFronts m).2 !! a) = tail (default [] (m !! a)).
Proof.
  cbn [popFronts snd]. rewrite map_lookup_filter, lookup_fmap. destruct (m !! a) as [[|t l]|]; [done| |done].
  by destruct l.
Qed.

(** A turn takes the first transaction of each account. *)
Lemma fronts_of m a : ownQueues m → ofSource a (popFronts m).1 ≡ₚ take 1 (default [] (m !! a)).
Proof.
  intros Hm. unfold ofSource. cbn [popFronts fst]. rewrite (inOrder_perm _ m).
  assert (Hno : ∀ m' : gmap AccountID (list TransactionFrame), map_Forall (λ b q, b ≠ a ∧ Forall (λ t, frameSource t = b) q) m' → filter (λ t, frameSource t = a) (map_to_list m' ≫= λ kv, take 1 kv.2) = []).
  { intros m' Hm'. apply filter_nothing. intros t Ht. apply list_elem_of_bind in Ht as ([b q] & Ht & Hq).
    apply elem_of_map_to_list in Hq. destruct (Hm' _ _ Hq) as [Hne Hf]. rewrite Forall_forall in Hf. simpl in Ht.
    rewrite (Hf t); [done|]. destruct q; [done|]. simpl in Ht. rewrite take_0 in Ht. apply list_elem_of_singleton in Ht as ->. by left. }
  destruct (m !! a) as [q|] eqn:E.
  - rewrite <- (insert_delete_id m a q) at 1 by done. rewrite map_to_list_insert by apply lookup_delete_eq.
    rewrite bind_cons, filter_app, Hno, app_nil_r.
    + simpl. destruct (Hm _ _ E) as [_ Hf]. destruct q as [|t q]; [done|]. inversion_clear Hf. simpl. rewrite filter_cons_True by done. done.
    + intros b q' [Hne Hq]%lookup_delete_Some. split; [done|]. by apply Hm.
  - rewrite Hno; [done|]. intros b q Hq. split; [congruence|]. by apply Hm.
Qed.
End Queues.

(** ** The turns *)

Section Turns.
Context `{TxHashes} `{StdSort} `{TableOrder}.

(** As many turns as the longest queue has transactions. *)
Lemma batches_enough fuel m :
  ownQueues m → (∀ a q, m !! a = Some q → (length q <= fuel)%nat) → ∃ bs, txBatches fuel m = Some bs.
Proof.
  revert m. induction fuel as [|fuel IH]; intros m Hm Hf.
  - exists []. unfold txBatches. rewrite decide_True; [done|]. apply map_empty. intros a. destruct (m !! a) as [q|] eqn:E; [|done].
    destruct (Hm _ _ E) as [Hne _]. specialize (Hf _ _ E). destruct q; [done|simpl in Hf; lia].
  - cbn [txBatches]. case_decide; [by eexists|]. destruct (IH (popFronts m).2) as [bs Hbs].
    + by apply pop_own.
    + intros a q Hq. simpl in Hq. apply map_lookup_filter_Some in Hq as [Hq _]. rewrite lookup_fmap in Hq.
      destruct (m !! a) as [l|] eqn:E; [|done]. injection Hq as <-. specialize (Hf _ _ E). destruct l; simpl in *; lia.
    + exists ((popFronts m).1 :: bs). destruct (popFronts m) as [b m']. simpl in Hbs. by rewrite Hbs.
Qed.

(** However the batches are sorted, each account's transactions come in the order of its queue. *)
Lemma batches_of key fuel m bs a :
  ownQueues m → txBatches fuel m = Some bs → ofSource a (bs ≫= sortBy key) = default [] (m !! a).
Proof.
  revert m bs. induction fuel as [|fuel IH]; intros m bs Hm Hbs; cbn [txBatches] in Hbs; case_decide as Em; try done; try (injection Hbs as <-; by rewrite Em, lookup_empty).
  pose proof (fronts_of m a Hm) as Hb. pose proof (pop_default m a) as Hn. pose proof (pop_own m Hm) as Hown.
  destruct (popFronts m) as [b m'] eqn:Ep. simpl in Hb, Hn, Hown. destruct (txBatches fuel m') as [bs'|] eqn:E; [|done]. injection Hbs as <-.
  unfold ofSource in *. rewrite bind_cons, filter_app. rewrite (IH _ _ Hown E), Hn. rewrite <- (sortBy_perm _ key b) in Hb.
  destruct (default [] (m !! a)) as [|t l]; simpl in *.
  - apply Permutation_nil_r in Hb. by rewrite Hb.
  - apply Permutation_singleton_r in Hb. by rewrite Hb.
Qed.
End Turns.

(** The same on envelopes, in any fixed order of the accounts. *)
Fixpoint envelopeBatches (fuel : nat) (m : gmap AccountID (list TransactionEnvelope)) : list (list TransactionEnvelope) :=
  if decide (m = ∅) then []
  else
    match fuel with
    | O => []
    | S fuel => (map_to_list m ≫= λ kv, take 1 kv.2) :: envelopeBatches fuel (filter (λ kv, kv.2 ≠ []) (tail <$> m))
    end.

Definition envelopes (l : list TransactionFrame) : list TransactionEnvelope := getEnvelope <$> l.

Lemma envelopes_fronts (m : gmap AccountID (list TransactionFrame)) :
  envelopes (map_to_list m ≫= λ kv, take 1 kv.2) = map_to_list (envelopes <$> m) ≫= λ kv, take 1 kv.2.
Proof.
  rewrite map_to_list_fmap. unfold envelopes. induction (map_to_list m) as [|[k l] ls IH]; [done|].
  rewrite fmap_cons, !bind_cons, fmap_app, IH. simpl. f_equal. by rewrite fmap_take.
Qed.

Lemma batches_envelopes `{TxHashes} `{TableOrder} fuel m bs :
  txBatches fuel m = Some bs → Forall2 (λ b e, envelopes b ≡ₚ e) bs (envelopeBatches fuel (envelopes <$> m)).
Proof.
  revert m bs. induction fuel as [|fuel IH]; intros m bs Hbs; cbn [txBatches envelopeBatches] in *; case_decide as Em; try done.
  - injection Hbs as <-. rewrite Em, fmap_empty. rewrite decide_True by done. constructor.
  - injection Hbs as <-. rewrite Em, fmap_empty. rewrite decide_True by done. constructor.
  - rewrite decide_False by (by rewrite fmap_empty_iff). unfold popFronts in Hbs.
    destruct (txBatches fuel (filter _ _)) as [bs'|] eqn:E; [|done]. injection Hbs as <-. constructor.
    + rewrite <- envelopes_fronts. unfold envelopes. by rewrite (inOrder_perm _ m).
    + apply IH in E. replace (filter (λ kv, kv.2 ≠ []) (tail <$> (envelopes <$> m)))
        with (envelopes <$> filter (λ kv : Z * list TransactionFrame, kv.2 ≠ []) (tail <$> m)); [done|].
      apply map_eq. intros a. rewrite lookup_fmap, !map_lookup_filter, !lookup_fmap. destruct (m !! a) as [[|t [|t' l]]|]; done.
Qed.

Lemma same_by_source l l' : (∀ a, ofSource a l ≡ₚ ofSource a l') → l ≡ₚ l'.
Proof.
  revert l. induction l' as [|t l' IH]; intros l Hl.
  - destruct l as [|t l]; [done|]. specialize (Hl (frameSource t)). unfold ofSource in Hl. rewrite filter_cons_True in Hl by done.
    by apply Permutation_nil_r in Hl.
  - assert (Ht : t ∈ l).
    { specialize (Hl (frameSource t)). unfold ofSource in Hl. rewrite filter_cons_True in Hl by done.
      assert (Hin : t ∈ filter (λ u, frameSource u = frameSource t) l) by (rewrite Hl; left). by apply list_elem_of_filter in Hin as [_ Hin]. }
    apply elem_of_Permutation in Ht as [l0 Hp]. rewrite Hp. constructor. apply IH. intros a. specialize (Hl a). unfold ofSource in *.
    rewrite Hp, !filter_cons in Hl. case_decide; [by apply Permutation_cons_inv in Hl|done].
Qed.

(** ** The theorem *)

Section Agreement.
Context `{TxHashes}.

(** The hash in the cache is the one of the transactions in the order of their hashes. *)
Definition cacheOk (f : TxSetFrame) : Prop :=
  mHashIsValid f = true → ∃ l, l ≡ₚ mTransactions f ∧ StronglySorted (λ a b, getFullHash a <= getFullHash b) l ∧
    mHash f = txSetHash (mPreviousLedgerHash f) (envelopes l).

(** No two transactions have the same hash, or the same account and sequence number. *)
Definition noClash (es : list TransactionEnvelope) : Prop :=
  (∀ e e', e ∈ es → e' ∈ es → txFullHash e = txFullHash e' → e = e') ∧
  (∀ e e', e ∈ es → e' ∈ es → tx_sourceAccount (tx e) = tx_sourceAccount (tx e') → tx_seqNum (tx e) = tx_seqNum (tx e') → e = e').

Lemma contents_hash `{StdSort} f : cacheOk f →
  ∃ l, l ≡ₚ mTransactions f ∧ StronglySorted (λ a b, getFullHash a <= getFullHash b) l ∧
    (getContentsHash f).1 = txSetHash (mPreviousLedgerHash f) (envelopes l).
Proof.
  intros Hc. unfold getContentsHash. destruct (mHashIsValid f) eqn:E; [by apply Hc|].
  exists (sortBy getFullHash (mTransactions f)). split; [apply sortBy_perm|]. split; [apply sortBy_sorted|done].
Qed.

Lemma queues_agree (S1 S2 : StdSort) txs1 txs2 :
  envelopes txs1 ≡ₚ envelopes txs2 → noClash (envelopes txs1) →
  envelopes <$> buildAccountTxQueues (H0 := S1) txs1 = envelopes <$> buildAccountTxQueues (H0 := S2) txs2.
Proof.
  intros Hp [_ Hseq]. apply map_eq. intros a. rewrite !lookup_fmap, !queue_of.
  assert (Hf : ∀ txs, envelopes (ofSource a txs) = filter (λ e, tx_sourceAccount (tx e) = a) (envelopes txs)).
  { unfold envelopes, ofSource. intros txs. induction txs as [|t txs IH]; [done|]. rewrite fmap_cons, !filter_cons, <- IH.
    unfold frameSource, frameTx. by case_decide. }
  assert (Hpa : envelopes (ofSource a txs1) ≡ₚ envelopes (ofSource a txs2)) by (rewrite !Hf; by rewrite Hp).
  assert (Heq : envelopes (sortBy (StdSort := S1) getSeqNum (ofSource a txs1)) = envelopes (sortBy (StdSort := S2) getSeqNum (ofSource a txs2))).
  { apply (sorted_agree getEnvelope getEnvelope (λ e, tx_seqNum (tx e))).
    - intros x y Hx Hy. rewrite (sortBy_perm (StdSort := S1)) in Hx, Hy. fold (envelopes (ofSource a txs1)) in Hx, Hy.
      rewrite Hf in Hx, Hy. apply list_elem_of_filter in Hx as [Ex Hx], Hy as [Ey Hy]. apply Hseq; [done|done|congruence].
    - apply (sortBy_sorted (StdSort := S1)).
    - apply (sortBy_sorted (StdSort := S2)).
    - by rewrite (sortBy_perm (StdSort := S1)), (sortBy_perm (StdSort := S2)). }
  destruct (ofSource a txs1) as [|t l] eqn:E1, (ofSource a txs2) as [|t' l'] eqn:E2; simpl; [done| | |by rewrite Heq].
  - by apply Permutation_nil_l in Hpa.
  - by apply Permutation_nil_r in Hpa.
Qed.

(** What [sortForApply] returns on one node. *)
Lemma apply_order_returns `{StdSort} `{TableOrder} f :
  cacheOk f →
  ∃ bs l h, txBatches (length (mTransactions f)) (buildAccountTxQueues (mTransactions f)) = Some bs ∧
    (∃ hl, hl ≡ₚ mTransactions f ∧ StronglySorted (λ a b, getFullHash a <= getFullHash b) hl ∧ h = txSetHash (mPreviousLedgerHash f) (envelopes hl)) ∧
    (sortForApply f).1 = Some l ∧ l = bs ≫= sortBy (xored h) ∧ l ≡ₚ mTransactions f ∧
    ∀ a, StronglySorted (λ t u, getSeqNum t <= getSeqNum u) (ofSource a l).
Proof.
  intros Hc. destruct (contents_hash f Hc) as (hl & Hp & Hs & Hh).
  destruct (batches_enough (length (mTransactions f)) (buildAccountTxQueues (mTransactions f)) (build_own _)) as [bs Hbs].
  { intros a q Hq. rewrite queue_of in Hq. destruct (ofSource a _) as [|t l] eqn:E; [done|]. injection Hq as <-.
    rewrite sortBy_perm, <- E. apply length_filter. }
  exists bs, (bs ≫= sortBy (xored (getContentsHash f).1)), (getContentsHash f).1. split_and!; [done|by exists hl| |done|..].
  - unfold sortForApply. rewrite Hbs. destruct bs as [|b bs]; [done|]. by destruct (getContentsHash f).
  - apply same_by_source. intros a. rewrite (batches_of _ _ _ _ a (build_own _) Hbs), queue_default. apply sortBy_perm.
  - intros a. rewrite (batches_of _ _ _ _ a (build_own _) Hbs), queue_default. apply sortBy_sorted.
Qed.

Lemma sorted_batches_agree (S1 S2 : StdSort) h bs1 bs2 es :
  noClash (envelopes (concat bs1)) →
  Forall2 (λ b e, envelopes b ≡ₚ e) bs1 es → Forall2 (λ b e, envelopes b ≡ₚ e) bs2 es →
  envelopes (bs1 ≫= sortBy (StdSort := S1) (xored h)) = envelopes (bs2 ≫= sortBy (StdSort := S2) (xored h)).
Proof.
  intros Hc H1. revert bs2 Hc. induction H1 as [|b1 e bs1 es Hb Hbs IH]; intros bs2 Hc H2; inversion H2 as [|b2 ? bs2' ? Hb2 Hbs2]; subst; [done|].
  unfold envelopes in *. simpl in Hc. rewrite fmap_app in Hc. rewrite !bind_cons, !fmap_app. f_equal.
  - apply (sorted_agree getEnvelope getEnvelope (λ e, Z.lxor h (txFullHash e))).
    + intros x y Hx Hy E. rewrite (sortBy_perm (StdSort := S1)) in Hx, Hy. apply (proj1 Hc); [set_solver..|].
      rewrite <- (Z.lxor_0_l (txFullHash x)), <- (Z.lxor_0_l (txFullHash y)), <- (Z.lxor_nilpotent h), !Z.lxor_assoc. by rewrite E.
    + apply (sortBy_sorted (StdSort := S1)).
    + apply (sortBy_sorted (StdSort := S2)).
    + by rewrite (sortBy_perm (StdSort := S1)), (sortBy_perm (StdSort := S2)), Hb, Hb2.
  - apply IH; [|done]. destruct Hc as [C1 C2]. split; intros x y Hx Hy; [apply C1|apply C2]; set_solver.
Qed.
End Agreement.

(** C11: two nodes apply the transactions of a set in the same order, which is what the agreement on the set is for.
    The condition is [noClash]: no two different transactions of the set have the same hash, or the same account and
    sequence number; it holds of the sets that pass the check of the herder, where the sequence numbers of an account
    are consecutive, unless a hash collides. Then, whatever order the transactions came in, however the hash tables are
    ordered and with any two correct sorting algorithms for [std::sort], [sortForApply] returns on both nodes, with the
    same envelopes in the same order; it loses and repeats none, and the transactions of an account come in the order
    of their sequence numbers. *)
Theorem apply_order_agreed `{TxHashes} (S1 S2 : StdSort) (O1 O2 : TableOrder) (f1 f2 : TxSetFrame) :
  envelopes (mTransactions f1) ≡ₚ envelopes (mTransactions f2) → mPreviousLedgerHash f1 = mPreviousLedgerHash f2 →
  cacheOk f1 → cacheOk f2 → noClash (envelopes (mTransactions f1)) →
  ∃ l1 l2, (sortForApply (H0 := S1) (H1 := O1) f1).1 = Some l1 ∧ (sortForApply (H0 := S2) (H1 := O2) f2).1 = Some l2 ∧
    envelopes l1 = envelopes l2 ∧ l1 ≡ₚ mTransactions f1 ∧
    ∀ a, StronglySorted (λ t u, getSeqNum t <= getSeqNum u) (ofSource a l1).
Proof.
  intros Hp Hprev Hc1 Hc2 Hn.
  destruct (apply_order_returns (H0 := S1) (H1 := O1) f1 Hc1) as (bs1 & l1 & h1 & Hb1 & (hl1 & Hp1 & Hs1 & Eh1) & E1 & El1 & Hl1 & Hseq).
  destruct (apply_order_returns (H0 := S2) (H1 := O2) f2 Hc2) as (bs2 & l2 & h2 & Hb2 & (hl2 & Hp2 & Hs2 & Eh2) & E2 & El2 & _ & _).
  exists l1, l2. split_and!; [done|done| |done|done].
  assert (Hh : h1 = h2).
  { subst h1 h2. rewrite Hprev. f_equal. apply (sorted_agree getEnvelope getEnvelope txFullHash); [|done|done|].
    - intros x y Hx Hy. rewrite Hp1 in Hx, Hy. by apply (proj1 Hn).
    - by rewrite Hp1, Hp2. }
  assert (Hlen : length (mTransactions f2) = length (mTransactions f1)).
  { apply Permutation_length in Hp. unfold envelopes in Hp. by rewrite !length_fmap in Hp. }
  apply batches_envelopes in Hb1, Hb2. rewrite Hlen, <- (queues_agree S1 S2 _ _ Hp Hn) in Hb2.
  subst l1 l2. rewrite Hh in *. apply sorted_batches_agree with (es := envelopeBatches (length (mTransactions f1))
    (envelopes <$> buildAccountTxQueues (H0 := S1) (mTransactions f1))); [|done|done].
  assert (Hcat : bs1 ≫= sortBy (StdSort := S1) (xored h2) ≡ₚ concat bs1).
  { clear. induction bs1 as [|b bs IH]; [done|]. rewrite bind_cons. simpl. by rewrite IH, (sortBy_perm (StdSort := S1)). }
  destruct Hn as [N1 N2]. split; intros x y Hx Hy; unfold envelopes in Hx, Hy; rewrite <- Hcat, Hl1 in Hx, Hy; [by apply N1|by apply N2].
Qed.

(** ** An example *)

(** Another library: its hash tables are ordered the other way, and its [std::sort] swaps equal elements. *)
Definition other_StdSort : StdSort.
Proof.
  refine {| sortBy A key l := insertionSort key (reverse l) |}.
  - intros A key l. transitivity (reverse l); [apply (sortBy_perm (StdSort := insertion_StdSort))|apply reverse_Permutation].
  - intros A key l. apply (sortBy_sorted (StdSort := insertion_StdSort)).
Defined.
Definition other_TableOrder : TableOrder.
Proof. refine {| inOrder A m := reverse (map_to_list m) |}. intros A m. apply reverse_Permutation. Defined.

Definition toyHashes : TxHashes :=
  {| txContentsHash := λ _, 99; txFullHash := λ e, 16 * tx_sourceAccount (tx e) + tx_seqNum (tx e);
     txSetHash := λ p es, foldr (λ e n, tx_fee (tx e) + n) p es |}.
(** Account 5 sends two transactions, account 8 one. *)
Definition toyFrame (p : nat) (source seq fee : Z) : TransactionFrame := mkFrame p (mkTxEnvelope (mkTransaction source fee seq None []) []).
Definition toySet (txs : list TransactionFrame) : TxSetFrame := mkTxSet false 0 3 txs.

Lemma apply_order_agreed_witness :
  let f1 := toySet [toyFrame 0 5 5 200; toyFrame 1 8 1 300; toyFrame 2 5 4 100] in
  let f2 := toySet [toyFrame 7 5 4 100; toyFrame 8 5 5 200; toyFrame 9 8 1 300] in
  ∃ l1 l2, (sortForApply (H := toyHashes) (H0 := insertion_StdSort) (H1 := keys_TableOrder) f1).1 = Some l1 ∧
    (sortForApply (H := toyHashes) (H0 := other_StdSort) (H1 := other_TableOrder) f2).1 = Some l2 ∧
    envelopes l1 = envelopes l2 ∧ getSeqNum <$> l1 = [4; 1; 5].
Proof.
  intros f1 f2.
  destruct (apply_order_agreed (H := toyHashes) insertion_StdSort other_StdSort keys_TableOrder other_TableOrder f1 f2) as (l1 & l2 & E1 & E2 & He & _);
    [|done|by intros ?|by intros ?| |].
  - change (getEnvelope (toyFrame 0 5 5 200) :: getEnvelope (toyFrame 1 8 1 300) :: [getEnvelope (toyFrame 2 5 4 100)] ≡ₚ
      getEnvelope (toyFrame 2 5 4 100) :: getEnvelope (toyFrame 0 5 5 200) :: [getEnvelope (toyFrame 1 8 1 300)]).
    apply (Permutation_app_comm [_; _] [_]).
  - split; intros e e' He He'; simpl in He, He'; repeat (rewrite elem_of_cons in He || rewrite elem_of_nil in He);
      repeat (rewrite elem_of_cons in He' || rewrite elem_of_nil in He'); destruct_or?; subst; vm_compute; congruence.
  - exists l1, l2. split_and!; [done|done|done|].
    assert (E : fmap (M := option) (fmap (M := list) getSeqNum) (sortForApply (H := toyHashes) (H0 := insertion_StdSort) (H1 := keys_TableOrder) f1).1 = Some [4; 1; 5]) by (vm_compute; reflexivity).
    rewrite E1 in E. by injection E.
Defined.
