(* ===== verification/TxCheckSpec.v ===== *)
(** * Checking and trimming a set of transactions

    [TxSetFrame::checkValid] and [trimInvalid] run the validation of each transaction in a ledger transaction on the
    root. They return and leave the database as it was ([rootTxn], [gentle_checkQueues]); what trimming leaves is, for
    each account, a chain of valid transactions that the account can pay for ([trim_returns]), and a set of such chains
    is valid ([set_is_valid]). *)
From stdpp Require Import base list gmap strings sorting.
From Stdlib Require Import ZArith Lia.
From S2P Require Import Prelude UInt128 Numeric LedgerEntries Balances BalancesSpec LedgerTxn LedgerTxnSpec TrustLines LedgerLogic CrossOffers CrossOffersSpec BookSpec OpTypes RunLogic ExactLogic Operations OpExact Signatures Transactions Gentle TxValidSpec BucketApplySpec TxSet TxQueue TxSetSpec.

(** ** On the database *)

Definition keyedDb (db : gmap LedgerKey LedgerEntry) : Prop := map_Forall (λ k e, LedgerEntryKey e = k) db.

(** A scope on the root: the body sees what the database holds, and the database is what it was. *)
Lemma rootTxn `{HashOrder} {A} lh db s (m : nat → M Ledger A) (Q : A → Prop) :
  keyedDb db → calm lh db s → (∀ id, gentle (m id)) → (∀ id, tidy id [] (data <$> db) lh ∅ None (m id) (λ a _ _, Q a)) →
  ∃ a s', withRootTxn m s = Ok a s' ∧ calm lh db s' ∧ Q a.
Proof.
  intros Hk Hc Hr Hm. set (s1 := mkLedger [mkTxn (nextImpl s) lh None ∅ ∅ true false EXACT] (mkRoot lh db) (S (nextImpl s))).
  assert (Hok : LedgerOk s1).
  { apply reachable_ok, (reach_ok (mkLedger [] (mkRoot lh db) (nextImpl s)) (NewTxn None true)); [by apply reach_start|done|done]. }
  assert (Hv : views s1 = [mkView (nextImpl s) (data <$> db) lh ∅ None false]).
  { unfold views, s1. cbn [viewsOf txns root]. unfold viewOf. cbn [txn_id mHeader mActive mActiveHeader mIsSealed]. do 2 f_equal.
    f_equal. simpl. rewrite (left_id_L ∅ (∪)). apply map_eq. intros k. rewrite lookup_omap, lookup_fmap. by destruct (db !! k). }
  specialize (Hm (nextImpl s) s1 Hok Hv). specialize (Hr (nextImpl s) s1). unfold withRootTxn. unfold mbind at 1, M_bind at 1. rewrite (newTxn_calm true _ _ _ Hc).
  fold s1. unfold scoped. destruct (m (nextImpl s) s1) as [a s2|w s2| |]; [|tauto..].
  destruct Hm as [_ (D' & lh' & act' & hact' & Hv' & _ & _ & HQ)]. destruct (views_cons _ _ _ Hv') as (t' & outer' & Hl' & E1 & E2).
  assert (Ho : outer' = []) by (destruct outer'; [done|]; by inversion E2). subst outer'. injection E1 as Eid _ _ _ _.
  exists a, (mkLedger [] (root s2) (nextImpl s2)). split; [|split; [split; [done|exact (proj1 Hr)]|done]].
  unfold destroyTxn, rollback, getImpl, mbind, M_bind, get. rewrite Eid, Hl', findTxn_head. simpl. unfold M_bind, get. by rewrite Hl', findTxn_head.
Qed.

(** ** The queue of an account *)

Definition sumFees (q : list TransactionFrame) : Z := foldr (λ t n, getFeeBid t + n) 0 q.

(** No fee is negative, and their sum fits. *)
Definition feesFit (q : list TransactionFrame) : Prop := Forall (λ t, 0 <= getFeeBid t) q ∧ sumFees q <= INT64_MAX.

Section Queues.
Context `{TxHashes} `{StdSort} `{TableOrder} `{HashOrder} `{Crypto} (lh : LedgerHeader) (D : Entries).

Definition validAfter (last : Z) (t : TransactionFrame) : Prop :=
  transactionValid (getEnvelope t) (txContentsHash (frameTx t)) lh D last.

(** Each transaction is valid after the one before it. *)
Fixpoint chain (last : Z) (q : list TransactionFrame) : Prop :=
  match q with [] => True | t :: q => validAfter last t ∧ chain (getSeqNum t) q end.

(** What is kept and what is dropped of a queue. *)
Inductive trims : Z → list TransactionFrame → list TransactionFrame → list TransactionFrame → Prop :=
| trims_nil last : trims last [] [] []
| trims_keep last t q K R : validAfter last t → trims (getSeqNum t) q K R → trims last (t :: q) (t :: K) R
| trims_drop last t q K R : ¬ validAfter last t → trims last q K R → trims last (t :: q) K (t :: R).

(** The account can pay the fees of all. *)
Definition affordable (K : list TransactionFrame) : Prop :=
  ∀ t, last K = Some t → ∃ acc, accountAt D (frameSource t) = Some acc ∧ sumFees K <= spendable lh acc.

(** What is removed: the invalid ones, or all. *)
Definition trimmedQueue (q removed : list TransactionFrame) : Prop :=
  ∃ K R, trims 0 q K R ∧ (affordable K ∧ removed = R ∨ ¬ affordable K ∧ removed = R ++ q).

Lemma trims_chain last q K R : trims last q K R → chain last K.
Proof. induction 1; simpl; auto. Qed.
Lemma trims_perm last q K R : trims last q K R → K ++ R ≡ₚ q.
Proof. induction 1 as [|? ? ? ? ? ? ? IH|? ? ? ? ? ? ? IH]; [done|simpl; by rewrite IH|]. by rewrite <- Permutation_middle, IH. Qed.
Lemma chain_trims last q K R : chain last q → trims last q K R → K = q ∧ R = [].
Proof.
  intros Hc Ht. revert Hc. induction Ht as [|? ? ? ? ? ? ? IH|? ? ? ? ? Hn ? IH]; intros Hc; [done| |by destruct Hc].
  destruct IH as [-> ->]; [apply Hc|done].
Qed.

Lemma sumFees_nonneg q : Forall (λ t, 0 <= getFeeBid t) q → 0 <= sumFees q.
Proof. induction 1; simpl; lia. Qed.
Lemma sumFees_perm q q' : q ≡ₚ q' → sumFees q = sumFees q'.
Proof. induction 1; simpl; lia. Qed.
Lemma sumFees_app q q' : sumFees (q ++ q') = sumFees q + sumFees q'.
Proof. induction q; simpl; lia. Qed.

Context (Hm : modern lh) (HV : Valid lh D).

Lemma tidy_checkQueue {St} (pI : TransactionFrame → Z → St → bool * St) f id os q :
  ∀ lastTx lastSeq totFee st Q,
  (∀ t l st, pI t l st = (true, f st t)) ∨ chain lastSeq q →
  Forall (λ t, 0 <= getFeeBid t) q → 0 <= totFee → totFee + sumFees q <= INT64_MAX →
  (∀ K R, trims lastSeq q K R →
     Q (Some (match last K with Some t => Some t | None => lastTx end, totFee + sumFees K), foldl f st R) D lh) →
  tidy id os D lh ∅ None (checkQueue pI id q lastTx lastSeq totFee st) Q.
Proof.
  induction q as [|t q IH]; intros lastTx lastSeq totFee st Q Hgo Hf Htot Hsum HQ; cbn [checkQueue].
  - tstep. specialize (HQ [] [] (trims_nil _)). simpl in HQ. by rewrite Z.add_0_r in HQ.
  - inversion_clear Hf as [|? ? Ht Hq]. pose proof (sumFees_nonneg _ Hq). simpl in Hsum. tstep. apply tidy_checkValid; [done|done|].
    intros ok r Hok. destruct ok.
    + assert (Hv : validAfter lastSeq t) by by apply Hok. rewrite s64_small by (unfold INT64_MAX in *; lia).
      apply IH; [destruct Hgo as [Hgo|[_ Hc]]; auto|done|lia|lia|]. intros K R HK. specialize (HQ (t :: K) R (trims_keep _ _ _ _ _ Hv HK)).
      rewrite last_cons in HQ. simpl in HQ. rewrite Z.add_assoc in HQ. by destruct (last K).
    + assert (Hv : ¬ validAfter lastSeq t) by (intros Hv; by apply Hok in Hv). destruct Hgo as [Hgo|[Hc _]]; [|done]. rewrite Hgo.
      apply IH; [by left|done|done|lia|]. intros K R HK. exact (HQ K (t :: R) (trims_drop _ _ _ _ _ Hv HK)).
Qed.

Lemma chain_valid last q t : chain last q → t ∈ q → ∃ l, validAfter l t.
Proof.
  revert last. induction q as [|u q IH]; intros last Hc Ht; [by apply elem_of_nil in Ht|]. destruct Hc as [Hu Hc].
  apply elem_of_cons in Ht as [->|Ht]; [by exists last|by eapply IH].
Qed.

(** The account of a valid transaction, with its available balance. *)
Lemma tidy_balance {A} id os last t (k : Z → M Ledger A) Q :
  validAfter last t →
  (∀ acc n, accountAt D (frameSource t) = Some acc →
     tidy id os D lh (<[ACCOUNT (frameSource t) := MutableImpl n]> ∅) None (k (spendable lh acc)) Q) →
  tidy id os D lh ∅ None
    (source ← loadAccount id (frameSource t);
     withEntry source (λ h, avail ← withHeader id (λ header, readEntry getAvailableBalance header h); k avail)) Q.
Proof.
  intros (_ & _ & _ & acc & (Ha & _) & _) Hk. apply tidy_loadAccount; [done| |].
  - intros Hn. unfold accountAt in Ha. fold (frameTx t) in Ha. fold (frameSource t) in Ha. by rewrite Hn in Ha.
  - intros n d Hd. destruct (accountAt_Some lh D _ _ HV Ha) as (Hd' & _ & Hok). fold (frameTx t) in Hd', Ha. fold (frameSource t) in Hd', Ha.
    tstep. tstep. eapply tidy_available; [exact Hm|done|by rewrite lookup_insert_eq|done|done|]. by apply Hk.
Qed.

Lemma tidy_checkAccount {St} (pI : TransactionFrame → Z → St → bool * St) pB f id os q st Q :
  ((∀ t l st, pI t l st = (true, f st t)) ∧ (∀ q st, pB q st = (true, foldl f st q))) ∨ (chain 0 q ∧ affordable q) →
  feesFit q → (∀ R, trimmedQueue q R → Q (true, foldl f st R) D lh) →
  tidy id os D lh ∅ None (checkAccount pI pB id q st) Q.
Proof.
  intros Hmode [Hf Hs] HQ. unfold checkAccount. tstep. apply tidy_checkQueue with f; [tauto|done|lia|lia|]. intros K R HK. rewrite Z.add_0_l.
  destruct (last K) as [t|] eqn:El.
  - destruct (chain_valid 0 K t (trims_chain _ _ _ _ HK)) as [l Hv]; [by apply last_Some_elem_of|].
    apply tidy_balance with l; [done|]. intros acc n Ha. tstep. destruct (Z.ltb_spec (spendable lh acc) (sumFees K)) as [Hlt|Hge].
    + assert (Hna : ¬ affordable K). { intros Haf. destruct (Haf t El) as (acc' & Ha' & Hle). rewrite Ha in Ha'. injection Ha' as <-. lia. }
      destruct Hmode as [[_ Hb]|[Hc Haf]]; [|by destruct (chain_trims _ _ _ _ Hc HK) as [-> ->]]. rewrite Hb, <- foldl_app.
      apply HQ. exists K, R. auto.
    + apply HQ. exists K, R. split; [done|]. left. split; [|done]. intros t' Ht'. rewrite El in Ht'. injection Ht' as <-. by exists acc.
  - tstep. apply HQ. exists K, R. split; [done|]. left. split; [|done]. intros t. by rewrite El.
Qed.

Lemma tidy_checkQueues {St} (pI : TransactionFrame → Z → St → bool * St) pB f id os items :
  ∀ st Q,
  ((∀ t l st, pI t l st = (true, f st t)) ∧ (∀ q st, pB q st = (true, foldl f st q))) ∨ Forall (λ kv, chain 0 kv.2 ∧ affordable kv.2) items →
  Forall (λ kv, feesFit kv.2) items →
  (∀ Rs, Forall2 (λ kv R, trimmedQueue kv.2 R) items Rs → Q (true, foldl f st (concat Rs)) D lh) →
  tidy id os D lh ∅ None (checkQueues pI pB id items st) Q.
Proof.
  induction items as [|[a q] items IH]; intros st Q Hmode Hf HQ; cbn [checkQueues].
  - tstep. apply (HQ []). constructor.
  - inversion_clear Hf as [|? ? Hq Hf']. tstep. apply tidy_checkAccount with f; [|done|].
    + destruct Hmode as [Hmode|Hmode]; [by left|right]. by inversion Hmode.
    + intros R HR. apply IH; [|done|].
      * destruct Hmode as [Hmode|Hmode]; [by left|right]. by inversion Hmode.
      * intros Rs HRs. rewrite <- foldl_app. apply (HQ (R :: Rs)). by constructor.
Qed.
End Queues.

Lemma gentle_checkQueues `{TxHashes} `{HashOrder} `{Crypto} {St} (pI : TransactionFrame → Z → St → bool * St) pB id items st :
  gentle (checkQueues pI pB id items st).
Proof.
  assert (Hq : ∀ q lastTx lastSeq totFee st, gentle (checkQueue pI id q lastTx lastSeq totFee st)).
  { induction q as [|t q IH]; intros lastTx lastSeq totFee st'; cbn [checkQueue]; keep. }
  revert st. induction items as [|[a q] items IH]; intros st; cbn [checkQueues]; [keep|].
  apply gentle_bind; [|intros [[] ?]; keep]. unfold checkAccount, loadAccount, readEntry, underHeader. apply gentle_bind; [apply Hq|]. intros x. keep.
Qed.

(** ** Removing from a set *)

Definition removeAll (rs l : list TransactionFrame) : list TransactionFrame := foldl (λ l t, removeFirst (fr_ptr t) l) l rs.

(** A pointer belongs to one frame. *)
Definition onePtr (l : list TransactionFrame) : Prop := ∀ t u, t ∈ l → u ∈ l → fr_ptr t = fr_ptr u → t = u.

Lemma removeFirst_sublist p l : removeFirst p l `sublist_of` l.
Proof. induction l as [|t l IH]; simpl; [done|]. destruct (_ =? _)%nat; [by apply sublist_cons|by apply sublist_skip]. Qed.
Lemma removeAll_sublist rs l : removeAll rs l `sublist_of` l.
Proof.
  revert l. induction rs as [|t rs IH]; intros l; [done|]. simpl. unfold removeAll in *. simpl. etrans; [apply IH|apply removeFirst_sublist].
Qed.
Lemma onePtr_mono l l' : (∀ t, t ∈ l' → t ∈ l) → onePtr l → onePtr l'.
Proof. intros Hs Hl t u Ht Hu. apply Hl; by apply Hs. Qed.
Lemma sublist_elem {A} (l l' : list A) x : l' `sublist_of` l → x ∈ l' → x ∈ l.
Proof. intros Hs Hx. eapply elem_of_submseteq; [exact Hx|by apply sublist_submseteq]. Qed.

Lemma sorted_sublist {A} (R : A → A → Prop) l l' : l' `sublist_of` l → StronglySorted R l → StronglySorted R l'.
Proof.
  intros Hs Hl. revert l' Hs. induction Hl as [|x l Hl IH Hx]; intros l' Hs; [apply sublist_nil_r in Hs as ->; constructor|].
  apply sublist_cons_r in Hs as [Hs|(l2 & -> & Hs)]; [by apply IH|]. constructor; [by apply IH|]. rewrite Forall_forall in *.
  intros y Hy. apply Hx. by eapply sublist_elem.
Qed.

Lemma removeFirst_perm t l : t ∈ l → (∀ u, u ∈ l → fr_ptr u = fr_ptr t → u = t) → l ≡ₚ t :: removeFirst (fr_ptr t) l.
Proof.
  induction l as [|u l IH]; intros Ht Hu; [by apply elem_of_nil in Ht|]. simpl. destruct (Nat.eqb_spec (fr_ptr u) (fr_ptr t)) as [E|Hne].
  - by rewrite (Hu u ltac:(left) E).
  - apply elem_of_cons in Ht as [->|Ht]; [done|]. rewrite IH at 1; [apply Permutation_swap|done|]. intros v Hv. apply Hu. by right.
Qed.
Lemma removeFirst_source a t l :
  (∀ u, u ∈ l → fr_ptr u = fr_ptr t → u = t) →
  ofSource a (removeFirst (fr_ptr t) l) = if decide (frameSource t = a) then removeFirst (fr_ptr t) (ofSource a l) else ofSource a l.
Proof.
  unfold ofSource. induction l as [|u l IH]; intros Hu; simpl; [by case_decide|].
  specialize (IH (λ v Hv, Hu v (proj2 (elem_of_cons _ _ _) (or_intror Hv)))).
  destruct (Nat.eqb_spec (fr_ptr u) (fr_ptr t)) as [E|Hne].
  - rewrite (Hu u ltac:(left) E) in *. rewrite !filter_cons. case_decide; [simpl; by rewrite Nat.eqb_refl|done].
  - rewrite !filter_cons, IH. destruct (decide (frameSource u = a)); [|done]. case_decide; [|done]. simpl.
    by rewrite (proj2 (Nat.eqb_neq _ _) Hne).
Qed.

Lemma removeAll_source a rs l :
  onePtr (rs ++ l) → ofSource a (removeAll rs l) = removeAll (ofSource a rs) (ofSource a l).
Proof.
  revert l. induction rs as [|t rs IH]; intros l Hp; [done|]. unfold removeAll in *. simpl.
  assert (Hsub : ∀ u, u ∈ removeFirst (fr_ptr t) l → u ∈ l) by (intros u; apply sublist_elem, removeFirst_sublist).
  rewrite IH, removeFirst_source.
  - unfold ofSource. rewrite filter_cons. by case_decide.
  - intros u Hu. apply Hp; set_solver.
  - eapply onePtr_mono; [|exact Hp]. set_solver.
Qed.

Lemma removeAll_perm R l K : onePtr l → l ≡ₚ R ++ K → removeAll R l ≡ₚ K.
Proof.
  revert l. induction R as [|t R IH]; intros l Hp Hl; [done|]. unfold removeAll in *. simpl. apply IH.
  - eapply onePtr_mono; [|exact Hp]. intros u. apply sublist_elem, removeFirst_sublist.
  - assert (Ht : t ∈ l) by (rewrite Hl; left). apply (Permutation_cons_inv (a := t)).
    rewrite <- removeFirst_perm; [done|done|]. intros u Hu. by apply Hp.
Qed.
Lemma removeAll_all q l : onePtr l → l ⊆+ q → removeAll q l = [].
Proof.
  revert l. induction q as [|t q IH]; intros l Hp Hl; [by apply submseteq_nil_r in Hl|]. unfold removeAll in *. simpl. apply IH.
  - eapply onePtr_mono; [|exact Hp]. intros u. apply sublist_elem, removeFirst_sublist.
  - apply submseteq_cons_r in Hl as [Hl|(l' & Hl' & Hq)].
    + etrans; [apply sublist_submseteq, removeFirst_sublist|done].
    + rewrite <- Hq.
      assert (Ht : t ∈ l) by (rewrite Hl'; left). apply Permutation_submseteq, (Permutation_cons_inv (a := t)).
      rewrite <- removeFirst_perm; [done|done|]. intros u Hu. by apply Hp.
Qed.

(** ** Sets that pass the check *)

Section Sets.
Context `{TxHashes} `{StdSort} `{TableOrder} `{HashOrder} `{Crypto} (lh : LedgerHeader) (D : Entries).
Context (Hm : modern lh) (HV : Valid lh D) (Hseq : ∀ a acc, accountAt D a = Some acc → 0 <= acc_seqNum acc).

(** The transactions of the account, in some order, are a chain that it can pay for; and so for all accounts. *)
Definition payable (txs : list TransactionFrame) (a : AccountID) : Prop :=
  ∃ K, ofSource a txs ≡ₚ K ∧ chain lh D 0 K ∧ affordable lh D K.
Definition goodSet (txs : list TransactionFrame) : Prop := ∀ a, payable txs a.

Lemma chain_sorted last K : 0 <= last → chain lh D last K → StronglySorted (λ t u, getSeqNum t < getSeqNum u) K ∧ Forall (λ t, last < getSeqNum t) K.
Proof.
  revert last. induction K as [|t K IH]; intros last Hl Hc; [split; constructor|]. destruct Hc as [Hv Hc].
  assert (Ht : last < getSeqNum t).
  { destruct Hv as (_ & _ & _ & acc & (Ha & [_ Hs] & _) & _). apply Hseq in Ha. unfold getSeqNum, frameTx. destruct (last =? 0) eqn:E; propify; lia. }
  destruct (IH (getSeqNum t)) as [Hs1 Hs2]; [lia|done|]. split; constructor; [done|done|done|]. eapply Forall_impl; [exact Hs2|]. simpl. lia.
Qed.

(** The queue of the account is the chain. *)
Lemma payable_queue txs a : payable txs a → ∃ K, sortBy getSeqNum (ofSource a txs) = K ∧ K ≡ₚ ofSource a txs ∧ chain lh D 0 K ∧ affordable lh D K.
Proof.
  intros (K & Hp & Hc & Ha). exists K. split; [|by rewrite Hp]. apply sortBy_id; [|done].
  by apply (chain_sorted 0).
Qed.

(** A part of the account's chain from its beginning will do. *)
Lemma good_prefix K P R : Forall (λ t, 0 <= getFeeBid t) K → (∃ a, Forall (λ t, frameSource t = a) K) → K = P ++ R →
  chain lh D 0 K → affordable lh D K → chain lh D 0 P ∧ affordable lh D P.
Proof.
  intros Hf [a Ha] -> Hc Haf. split.
  - revert Hc. generalize 0. clear. induction P as [|t P IH]; intros l Hc; [done|]. destruct Hc as [Hv Hc]. split; [done|by apply IH].
  - intros t Ht. rewrite Forall_app in Hf, Ha. destruct Ha as [HaP HaR], Hf as [_ HfR]. apply sumFees_nonneg in HfR.
    assert (Hsrc : frameSource t = a) by (rewrite Forall_forall in HaP; apply HaP; by apply last_Some_elem_of).
    destruct (last R) as [u|] eqn:Eu.
    + destruct (Haf u) as (acc & Hacc & Hle); [by rewrite last_app, Eu|]. exists acc.
      assert (Hu : frameSource u = a) by (rewrite Forall_forall in HaR; apply HaR; by apply last_Some_elem_of).
      rewrite Hsrc, <- Hu. split; [done|]. rewrite sumFees_app in Hle. lia.
    + destruct (Haf t) as (acc & Hacc & Hle); [by rewrite last_app, Eu|]. exists acc. split; [done|]. rewrite sumFees_app in Hle. lia.
Qed.

(** What trimming leaves of an account. *)
Lemma trimmed_good q removed l :
  onePtr l → l ≡ₚ q → trimmedQueue lh D q removed →
  ∃ K, removeAll removed l ≡ₚ K ∧ chain lh D 0 K ∧ affordable lh D K ∧ ∀ t, t ∈ removed → t ∈ q.
Proof.
  intros Hp Hl (K & R & Ht & Hr). pose proof (trims_perm _ _ _ _ _ _ Ht) as HKR. pose proof (trims_chain _ _ _ _ _ _ Ht) as HcK.
  assert (Hrem : removeAll R l ≡ₚ K) by (apply removeAll_perm; [done|]; by rewrite Hl, <- HKR, (Permutation_app_comm K)).
  assert (HR : ∀ t, t ∈ R → t ∈ q) by (intros t; rewrite <- HKR; set_solver).
  destruct Hr as [[Ha ->]|[Ha ->]]; [by exists K|].
  exists []. split_and!; [|done|intros ?; done|set_solver]. unfold removeAll. rewrite foldl_app. fold (removeAll R l). fold (removeAll q (removeAll R l)).
  rewrite removeAll_all; [done| |].
  - eapply onePtr_mono; [|exact Hp]. intros t. apply sublist_elem, removeAll_sublist.
  - rewrite Hrem. rewrite <- HKR. apply submseteq_inserts_r. done.
Qed.

Lemma Forall2_elems {A B} (P Q : A → B → Prop) l k : Forall2 P l k → (∀ x y, x ∈ l → P x y → Q x y) → Forall2 Q l k.
Proof.
  intros HF HQ. induction HF; constructor; [apply HQ; [left|done]|]. apply IHHF. intros x' y' Hx. apply HQ. by right.
Qed.

(** The part of an account in what all queues give. *)
Lemma concat_source (P : AccountID * list TransactionFrame → list TransactionFrame → Prop) items Rs a :
  NoDup items.*1 → Forall2 (λ kv R, P kv R ∧ ∀ t, t ∈ R → frameSource t = kv.1) items Rs →
  (∃ q R, (a, q) ∈ items ∧ P (a, q) R ∧ ofSource a (concat Rs) = R) ∨ (a ∉ items.*1 ∧ ofSource a (concat Rs) = []).
Proof.
  intros Hn HF. induction HF as [|[b q] R items Rs [HP HR] HF IH]; [right; split; [apply not_elem_of_nil|done]|].
  rewrite fmap_cons in Hn. apply NoDup_cons in Hn as [Hb Hn]. specialize (IH Hn). simpl concat. unfold ofSource in *. rewrite filter_app. simpl in HR, Hb.
  destruct (decide (b = a)) as [->|Hne].
  - left. exists q, R. split; [left|]. split; [done|]. destruct IH as [(q' & R' & Hin & _)|[_ ->]].
    + destruct Hb. apply list_elem_of_fmap. by exists (a, q').
    + rewrite app_nil_r. by apply filter_everything.
  - rewrite (filter_nothing _ R) by (intros t Ht; rewrite (HR t Ht); done). simpl. destruct IH as [(q' & R' & Hin & HP' & ->)|[Hno ->]].
    + left. exists q', R'. split; [by right|done].
    + right. split; [|done]. apply not_elem_of_cons. by split; [intros ->|].
Qed.

Lemma queue_in_order txs a q : (a, q) ∈ inOrder (buildAccountTxQueues txs) ↔ ofSource a txs ≠ [] ∧ q = sortBy getSeqNum (ofSource a txs).
Proof.
  rewrite inOrder_perm, elem_of_map_to_list, queue_of. destruct (ofSource a txs); [naive_solver|]. split; [intros [= <-]; done|intros [_ ->]; done].
Qed.
Lemma order_keys txs : NoDup (inOrder (buildAccountTxQueues txs)).*1.
Proof. rewrite inOrder_perm. apply NoDup_fst_map_to_list. Qed.
Lemma source_elem a txs t : t ∈ ofSource a txs ↔ frameSource t = a ∧ t ∈ txs.
Proof. unfold ofSource. by rewrite list_elem_of_filter. Qed.

Lemma trimmed_set txs Rs :
  onePtr txs → Forall2 (λ kv R, trimmedQueue lh D kv.2 R) (inOrder (buildAccountTxQueues txs)) Rs →
  goodSet (removeAll (concat Rs) txs) ∧ (∀ t, t ∈ concat Rs → t ∈ txs) ∧
  ∀ a, payable txs a → ofSource a (removeAll (concat Rs) txs) = ofSource a txs.
Proof.
  intros Hp HF.
  assert (Hown : ∀ a q R, (a, q) ∈ inOrder (buildAccountTxQueues txs) → trimmedQueue lh D q R →
    q ≡ₚ ofSource a txs ∧ ∀ t, t ∈ R → t ∈ ofSource a txs).
  { intros a q R [_ ->]%queue_in_order Ht. split; [apply sortBy_perm|]. intros t HtR. rewrite <- (sortBy_perm _ getSeqNum).
    destruct (trimmed_good (sortBy getSeqNum (ofSource a txs)) R (ofSource a txs)) as (K & _ & _ & _ & Hsub); [|symmetry; apply sortBy_perm|done|by apply Hsub].
    eapply onePtr_mono; [|exact Hp]. intros u [_ Hu]%source_elem. done. }
  assert (HF' : Forall2 (λ kv R, trimmedQueue lh D kv.2 R ∧ ∀ t, t ∈ R → frameSource t = kv.1) (inOrder (buildAccountTxQueues txs)) Rs).
  { eapply Forall2_elems; [exact HF|]. intros [a q] R Hin Ht. split; [done|]. intros t HtR. simpl.
    destruct (Hown a q R Hin Ht) as [_ Hs]. apply Hs, source_elem in HtR as [HtR _]. done. }
  assert (Hsub : ∀ t, t ∈ concat Rs → t ∈ txs).
  { intros t Ht. destruct (concat_source (λ kv R, trimmedQueue lh D kv.2 R) _ _ (frameSource t) (order_keys txs) HF') as [(q & R & Hin & HR & E)|[_ E]];
      assert (Hto : t ∈ ofSource (frameSource t) (concat Rs)) by (by apply source_elem); rewrite E in Hto; [|by apply elem_of_nil in Hto].
    destruct (Hown _ q R Hin HR) as [_ Hs]. by apply Hs, source_elem in Hto as [_ Hto]. }
  assert (Hrm : ∀ a, ofSource a (removeAll (concat Rs) txs) = removeAll (ofSource a (concat Rs)) (ofSource a txs)).
  { intros a. apply removeAll_source. eapply onePtr_mono; [|exact Hp]. set_solver. }
  split; [|split; [done|]]; intros a; [|intros Hpay; destruct (payable_queue txs a Hpay) as (K & EK & _ & HcK & HaK)]; unfold payable; rewrite Hrm;
    destruct (concat_source (λ kv R, trimmedQueue lh D kv.2 R) _ _ a (order_keys txs) HF') as [(q & R & Hin & HR & ->)|[Hno ->]]; [| | |done].
  - destruct (Hown a q R Hin HR) as [Hq _]. destruct (trimmed_good q R (ofSource a txs)) as (K & HK & Hc & Haf & _); [|by rewrite Hq|done|by exists K].
    eapply onePtr_mono; [|exact Hp]. intros u [_ Hu]%source_elem. done.
  - exists []. split_and!; [|done|intros ?; done]. change (ofSource a txs ≡ₚ []).
    destruct (ofSource a txs) eqn:E; [done|]. destruct Hno. apply list_elem_of_fmap. exists (a, sortBy getSeqNum (ofSource a txs)).
    split; [done|]. apply queue_in_order. by rewrite E.
  - apply queue_in_order in Hin as [_ ->]. destruct HR as (K' & R' & Ht & Hr). simpl in Ht. rewrite EK in Ht.
    destruct (chain_trims _ _ _ _ _ _ HcK Ht) as [-> ->]. destruct Hr as [[_ ->]|[Hno _]]; [done|by destruct Hno].
Qed.
End Sets.

(** ** [trimInvalid] and [checkValid] *)

Section Programs.
Context `{TxHashes} `{StdSort} `{TableOrder} `{HashOrder} `{Crypto} (lh : LedgerHeader) (db : gmap LedgerKey LedgerEntry).
Context (Hdb : keyedDb db) (Hm : modern lh) (HV : Valid lh (data <$> db))
        (Hseq : ∀ a acc, accountAt (data <$> db) a = Some acc → 0 <= acc_seqNum acc).

Lemma hashes_sorted h l :
  Forall (λ t, h <= getFullHash t) l → StronglySorted (λ t u, getFullHash t <= getFullHash u) l → hashesSorted h l = true.
Proof.
  revert h. induction l as [|t l IH]; intros h Hh Hs; [done|]. inversion_clear Hh. inversion_clear Hs. simpl.
  rewrite (proj2 (Z.ltb_ge _ _)) by done. by apply IH.
Qed.

Lemma queues_fit txs : feesFit txs → Forall (λ kv, feesFit kv.2) (inOrder (buildAccountTxQueues txs)).
Proof.
  intros [Hf Hs]. apply Forall_forall. intros [a q] [_ ->]%queue_in_order. simpl.
  assert (Hsum : ∀ l, Forall (λ t, 0 <= getFeeBid t) l → Forall (λ t, 0 <= getFeeBid t) (ofSource a l) ∧ sumFees (ofSource a l) <= sumFees l).
  { unfold ofSource. induction 1 as [|t l Ht Hl [IH1 IH2]]; [done|]. rewrite filter_cons. case_decide; [split; [by constructor|simpl; lia]|]. split; [done|simpl; lia]. }
  destruct (Hsum txs Hf) as [Hs1 Hs2]. split; [by rewrite sortBy_perm|]. rewrite (sumFees_perm _ _ (sortBy_perm _ getSeqNum _)). lia.
Qed.

Lemma trim_state rs f removed :
  mHashIsValid f = false →
  foldl (λ st t, (st.1 ++ [t], removeTx t st.2)) (removed, f) rs =
  (removed ++ rs, mkTxSet false (mHash f) (mPreviousLedgerHash f) (removeAll rs (mTransactions f))).
Proof.
  revert f removed. induction rs as [|t rs IH]; intros f removed Hv; simpl.
  - rewrite app_nil_r. destruct f; simpl in *. by subst.
  - by rewrite IH, <- app_assoc.
Qed.

(** What the programs need of the transactions. *)
Record fitSet (txs : list TransactionFrame) : Prop := {
  fs_ptr : onePtr txs;
  fs_fees : feesFit txs;
  fs_hash : Forall (λ t, 0 <= getFullHash t) txs }.

Lemma fit_perm txs txs' : txs ≡ₚ txs' → fitSet txs → fitSet txs'.
Proof.
  intros Hp [P F Hh]. split; [|split|].
  - eapply onePtr_mono; [|exact P]. intros t. by rewrite Hp.
  - rewrite <- Hp. apply F.
  - rewrite <- (sumFees_perm _ _ Hp). apply F.
  - by rewrite <- Hp.
Qed.

Lemma check_returns {St} (pI : TransactionFrame → Z → St → bool * St) pB g s f st :
  calm lh db s → fitSet (mTransactions f) → StronglySorted (λ t u, getFullHash t <= getFullHash u) (mTransactions f) →
  ((∀ t l st, pI t l st = (true, g st t)) ∧ (∀ q st, pB q st = (true, foldl g st q))) ∨ goodSet lh (data <$> db) (mTransactions f) →
  ∃ s' Rs, checkOrTrim pI pB f st s = Ok (true, foldl g st (concat Rs)) s' ∧ calm lh db s' ∧
    Forall2 (λ kv R, trimmedQueue lh (data <$> db) kv.2 R) (inOrder (buildAccountTxQueues (mTransactions f))) Rs.
Proof.
  intros Hc Hfit Hs Hmode. unfold checkOrTrim. rewrite (hashes_sorted 0) by (done || apply Hfit).
  destruct (rootTxn lh db s (λ ltx, checkQueues pI pB ltx (inOrder (buildAccountTxQueues (mTransactions f))) st)
    (λ a, ∃ Rs, a = (true, foldl g st (concat Rs)) ∧ Forall2 (λ kv R, trimmedQueue lh (data <$> db) kv.2 R) (inOrder (buildAccountTxQueues (mTransactions f))) Rs)
    Hdb Hc) as (a & s' & E & Hc' & Rs & -> & HRs).
  - intros id. apply gentle_checkQueues.
  - intros id. apply (tidy_checkQueues lh (data <$> db) Hm HV pI pB g).
    + destruct Hmode as [Hmode|Hg]; [by left|right]. apply Forall_forall. intros [a q] [_ ->]%queue_in_order. simpl.
      destruct (payable_queue lh (data <$> db) Hseq (mTransactions f) a (Hg a)) as (K & -> & _ & Hk). done.
    + apply queues_fit, Hfit.
    + intros Rs HRs. by exists Rs.
  - by exists s', Rs.
Qed.

Lemma trim_returns s f :
  calm lh db s → fitSet (mTransactions f) →
  ∃ removed f' s', trimInvalid f s = Ok (removed, f') s' ∧ calm lh db s' ∧ goodSet lh (data <$> db) (mTransactions f') ∧
    StronglySorted (λ t u, getFullHash t <= getFullHash u) (mTransactions f') ∧ mTransactions f' ⊆+ mTransactions f ∧
    mPreviousLedgerHash f' = mPreviousLedgerHash f ∧ mHashIsValid f' = false ∧
    ∀ a, payable lh (data <$> db) (mTransactions f) a → ofSource a (mTransactions f') ≡ₚ ofSource a (mTransactions f).
Proof.
  intros Hc Hfit. unfold trimInvalid. set (f0 := sortForHash f).
  assert (Hfit0 : fitSet (mTransactions f0)) by (eapply fit_perm; [|exact Hfit]; symmetry; apply sortBy_perm).
  assert (Hs0 : StronglySorted (λ t u, getFullHash t <= getFullHash u) (mTransactions f0)) by apply sortBy_sorted.
  destruct (check_returns (λ t _ st, (true, (st.1 ++ [t], removeTx t st.2)))
    (λ item st, (true, foldl (λ st t, (st.1 ++ [t], removeTx t st.2)) st item)) (λ st t, (st.1 ++ [t], removeTx t st.2)) s f0 ([], f0) Hc Hfit0 Hs0)
    as (s' & Rs & E & Hc' & HRs); [by left|].
  rewrite trim_state in E by done. destruct (trimmed_set lh (data <$> db) Hm HV Hseq (mTransactions f0) Rs (fs_ptr _ Hfit0) HRs) as (Hg & _ & Hkeep).
  eexists _, _, s'. unfold mbind, M_bind. rewrite E. split; [done|]. cbn [mTransactions mPreviousLedgerHash mHashIsValid]. split_and!; try done.
  - eapply sorted_sublist; [|exact Hs0]. apply removeAll_sublist.
  - etrans; [apply sublist_submseteq, removeAll_sublist|]. apply Permutation_submseteq, sortBy_perm.
  - intros a Hpay. assert (Ha : ofSource a (mTransactions f0) ≡ₚ ofSource a (mTransactions f)) by (unfold ofSource, f0; simpl; by rewrite sortBy_perm).
    rewrite (Hkeep a); [done|]. destruct Hpay as (K & HK & Hrest). exists K. by rewrite Ha.
Qed.

Lemma set_is_valid lclHash s f :
  calm lh db s → fitSet (mTransactions f) → StronglySorted (λ t u, getFullHash t <= getFullHash u) (mTransactions f) →
  goodSet lh (data <$> db) (mTransactions f) → mPreviousLedgerHash f = lclHash → txset_size lh f <= maxTxSetSize lh →
  ∃ s', checkSetValid lclHash lh f s = Ok true s' ∧ calm lh db s'.
Proof.
  intros Hc Hfit Hs Hg Hp Hsz. unfold checkSetValid. rewrite Hp, Z.eqb_refl, (proj2 (Z.ltb_ge _ _)) by done. cbn [negb].
  destruct (check_returns (λ _ _ st, (false, st)) (λ _ st, (false, st)) (λ st _, st) s f tt Hc Hfit Hs) as (s' & Rs & E & Hc' & _); [by right|].
  exists s'. unfold mbind, M_bind. by rewrite E.
Qed.
End Programs.
