(* ===== verification/TxProposal.v ===== *)
(** * The proposed set of transactions is valid

    When a ledger is due the herder removes the invalid transactions from the pending ones, drops the cheapest if there
    are too many, checks the result and throws if the check fails. [proposed_set_is_valid]: it never does. *)
From stdpp Require Import base list gmap strings sorting.
From Stdlib Require Import ZArith Lia.
From S2P Require Import Prelude UInt128 Numeric LedgerEntries Balances BalancesSpec LedgerTxn LedgerTxnSpec TrustLines LedgerLogic CrossOffers CrossOffersSpec BookSpec OpTypes RunLogic ExactLogic Operations OpExact Signatures SignatureSpec Transactions Gentle TxSpec TxValidSpec BucketApplySpec TxSet TxQueue TxSetSpec TxCheckSpec.

(** ** The priority queue *)

(** The widths of the fee and of the number of operations. *)
Definition typedTx (t : TransactionFrame) : Prop := is_u32 (getFeeBid t) ∧ opsCountOf t <= MAX_OPS_PER_TX.

Section Surge.
Context `{TxHashes} (lh : LedgerHeader) (seed : Z) (Hbase : is_u32 (baseFee lh)).

Lemma surgeLess_returns {S} q1 q2 (s : S) :
  Forall typedTx q1 → Forall typedTx q2 → ∃ b, surgeLess lh seed q1 q2 s = Ok b s.
Proof.
  intros H1 H2. destruct q1 as [|t q1], q2 as [|u q2]; [by eexists..|]. inversion_clear H1 as [|? ? [Ft Ot] _]. inversion_clear H2 as [|? ? [Fu Ou] _].
  unfold is_u32, UINT32_MAX, opsCountOf, MAX_OPS_PER_TX in *.
  assert (Hmin : ∀ e, numOperations e <= 100 → is_i64 (getMinFee e lh)).
  { intros e He. unfold getMinFee. rewrite s64_small by (unfold INT64_MAX; nia). unfold is_i64, INT64_MAX. nia. }
  assert (Hbid : ∀ x, 0 <= x <= 4294967295 → is_i64 x) by (intros x Hx; unfold is_i64, INT64_MAX; lia).
  simpl. unfold mbind, M_bind.
  destruct (bigMultiply_spec (getFeeBid t) (getMinFee (getEnvelope u) lh) s) as (v1 & -> & _); [auto..|].
  destruct (bigMultiply_spec (getFeeBid u) (getMinFee (getEnvelope t) lh) s) as (v2 & -> & _); [auto..|]. by eexists.
Qed.

Lemma popTop_returns {S} queue best rest (s : S) :
  Forall typedTx best → Forall (Forall typedTx) queue →
  ∃ cur others, popTop lh seed best rest queue s = Ok (cur, others) s ∧ cur :: others ≡ₚ best :: rest ++ queue.
Proof.
  revert best rest. induction queue as [|q queue IH]; intros best rest Hb Hq; simpl.
  - exists best, rest. by rewrite app_nil_r.
  - inversion_clear Hq as [|? ? Hq1 Hq2]. unfold mbind, M_bind. destruct (surgeLess_returns best q s Hb Hq1) as [[] ->].
    + destruct (IH q (best :: rest) Hq1 Hq2) as (cur & others & -> & Hp). exists cur, others. split; [done|]. rewrite Hp. simpl.
      rewrite <- !Permutation_middle. apply Permutation_swap.
    + destruct (IH best (q :: rest) Hb Hq2) as (cur & others & -> & Hp). exists cur, others. split; [done|]. rewrite Hp. simpl.
      by rewrite <- Permutation_middle.
Qed.

(** ** The loop *)

Definition costOf (t : TransactionFrame) : Z := if 11 <=? ledgerVersion lh then opsCountOf t else MAX_OPS_PER_TX.
Definition sumCost (l : list TransactionFrame) : Z := foldr (λ t n, costOf t + n) 0 l.

Lemma sumCost_perm l l' : l ≡ₚ l' → sumCost l = sumCost l'.
Proof. induction 1; simpl; lia. Qed.
Lemma sumCost_part l l' : l ⊆+ l' → sumCost l <= sumCost l'.
Proof.
  assert (Hc : ∀ t, 0 <= costOf t) by (intros t; unfold costOf, opsCountOf, numOperations, MAX_OPS_PER_TX; destruct (_ <=? _); lia).
  intros [k Hp]%submseteq_Permutation. rewrite (sumCost_perm _ _ Hp). clear Hp.
  induction l as [|t l IH]; [|simpl; lia]. simpl. clear -Hc. induction k as [|t k IH]; simpl; [done|]. specialize (Hc t). lia.
Qed.

(** The queues of different accounts, none empty. *)
Definition srcOf (q : list TransactionFrame) : option AccountID := frameSource <$> head q.
Lemma srcOf_cons t q : srcOf (t :: q) = Some (frameSource t).
Proof. done. Qed.
Definition separate (qs : list (list TransactionFrame)) : Prop :=
  Forall (λ q, q ≠ [] ∧ Forall (λ t, Some (frameSource t) = srcOf q) q) qs ∧ NoDup (srcOf <$> qs).

Lemma separate_perm qs qs' : qs ≡ₚ qs' → separate qs → separate qs'.
Proof. intros Hp [Hs1 Hs2]. split; by rewrite <- Hp. Qed.
Lemma separate_tail t cur qs : separate ((t :: cur) :: qs) → separate (match cur with [] => qs | _ => cur :: qs end).
Proof.
  intros [HF HN]. inversion_clear HF as [|? ? [_ Hq] HF']. rewrite fmap_cons in HN. apply NoDup_cons in HN as [Hno HN].
  destruct cur as [|u cur]; [done|]. inversion_clear Hq as [|? ? _ Hq']. assert (E : srcOf (u :: cur) = srcOf (t :: u :: cur)).
  { inversion_clear Hq' as [|? ? Hu _]. exact Hu. }
  split; [constructor; [|done]|].
  - split; [done|]. by rewrite E.
  - rewrite fmap_cons, E. by constructor.
Qed.

(** Each account's part is a prefix of its queue. *)
Definition prefixes (qs : list (list TransactionFrame)) (l : list TransactionFrame) : Prop :=
  ∀ a, ofSource a l = [] ∨ ∃ q r, q ∈ qs ∧ srcOf q = Some a ∧ q = ofSource a l ++ r.

Lemma prefixes_cons t cur qs l :
  separate ((t :: cur) :: qs) → prefixes (match cur with [] => qs | _ => cur :: qs end) l → prefixes ((t :: cur) :: qs) (t :: l).
Proof.
  intros Hsep Hl a. pose proof Hsep as [HF HN]. inversion_clear HF as [|? ? [_ Hq] _]. rewrite fmap_cons in HN. apply NoDup_cons in HN as [Hno _].
  specialize (Hl a). unfold ofSource in *. rewrite filter_cons. case_decide as E.
  - right. destruct Hl as [->|(q & r & Hin & Hs & Hq')]; [by exists (t :: cur), cur; split; [left|]; split; [by rewrite srcOf_cons, E|]|].
    assert (Hcase : q = cur ∨ q ∈ qs) by (destruct cur; [by right|apply elem_of_cons in Hin as [->|]; auto]).
    destruct Hcase as [->|Hqs].
    + exists (t :: cur), r. split; [left|]. split; [by rewrite srcOf_cons, E|]. simpl. by rewrite <- Hq'.
    + destruct Hno. apply list_elem_of_fmap. exists q. split; [|done]. by rewrite Hs, srcOf_cons, E.
  - destruct Hl as [->|(q & r & Hin & Hs & Hq')]; [by left|right]. exists q, r. split; [|done].
    destruct cur as [|u cur]; [by right|]. apply elem_of_cons in Hin as [->|Hin]; [|by right].
    inversion_clear Hq as [|? ? _ Hq2]. inversion_clear Hq2 as [|? ? Hu _]. rewrite srcOf_cons in Hs, Hu. congruence.
Qed.

Lemma prefixes_mono qs qs' l : (∀ q, q ∈ qs → q ∈ qs') → prefixes qs l → prefixes qs' l.
Proof. intros Hs Hl a. destruct (Hl a) as [E|(q & r & Hin & Hq)]; [by left|right]. exists q, r. split; [by apply Hs|done]. Qed.
Lemma prefixes_nil qs : prefixes qs [].
Proof. intros a. by left. Qed.

Lemma surgeLoop_returns {S} fuel : ∀ qs opsLeft acc (s : S),
  separate qs → Forall (Forall typedTx) qs → (length (concat qs) <= fuel)%nat → 0 <= opsLeft →
  ∃ l, surgeLoop fuel lh seed opsLeft qs acc s = Ok (acc ++ l) s ∧ sumCost l <= opsLeft ∧ prefixes qs l.
Proof.
  induction fuel as [|fuel IH]; intros qs opsLeft acc s Hsep Hty Hlen Hops; cbn [surgeLoop]; (destruct (opsLeft <=? 0) eqn:E0;
    [exists []; rewrite app_nil_r; split; [done|]; split; [done|apply prefixes_nil]|]); (destruct qs as [|q queue];
    [exists []; rewrite app_nil_r; split; [done|]; split; [done|apply prefixes_nil]|]).
  - destruct Hsep as [HF _]. inversion_clear HF as [|? ? [Hne _] _]. destruct q; [done|simpl in Hlen; lia].
  - inversion_clear Hty as [|? ? Hq Hqs]. unfold mbind, M_bind. destruct (popTop_returns queue q [] s Hq Hqs) as (cur & others & -> & Hp). simpl in Hp.
    pose proof (separate_perm _ _ (symmetry Hp) Hsep) as Hsep'. assert (Hty' : Forall (Forall typedTx) (cur :: others)) by (rewrite Hp; by constructor).
    assert (Hlen' : (length (concat (cur :: others)) <= Datatypes.S fuel)%nat).
    { enough (E : concat (cur :: others) ≡ₚ concat (q :: queue)) by by rewrite E. clear -Hp. induction Hp; simpl; [done|by f_equiv| |by etrans].
      rewrite !app_assoc. f_equiv. apply Permutation_app_comm. }
    inversion_clear Hty' as [|? ? Hc Ho]. destruct cur as [|t cur]; [destruct Hsep' as [HF _]; inversion_clear HF as [|? ? [Hne _] _]; done|].
    simpl in Hlen'. rewrite length_app in Hlen'. fold (costOf t). destruct (costOf t <=? opsLeft) eqn:Ec; propify.
    + destruct (IH (match cur with [] => others | _ => cur :: others end) (opsLeft - costOf t) (acc ++ [t]) s) as (l & -> & Hl & Hpre).
      * by eapply separate_tail.
      * inversion_clear Hc. destruct cur; [done|by constructor].
      * destruct cur; simpl in *; rewrite ?length_app in *; lia.
      * lia.
      * exists (t :: l). rewrite <- app_assoc. split; [done|]. split; [simpl; lia|]. eapply prefixes_mono; [|by apply prefixes_cons with (qs := others)].
        intros q'. by rewrite Hp.
    + destruct (IH others opsLeft acc s) as (l & -> & Hl & Hpre); [|done|lia|lia|].
      * destruct Hsep' as [HF HN]. inversion_clear HF. rewrite fmap_cons in HN. by apply NoDup_cons in HN as [_ HN].
      * exists l. split; [done|]. split; [done|]. eapply prefixes_mono; [|exact Hpre]. intros q' Hq'. rewrite <- Hp. by right.
Qed.
End Surge.

(** ** The filter *)

Lemma tidy_reads {A} id os D lh act hact (m : M Ledger A) Q :
  (∀ s, ∃ a, m s = Ok a s ∧ Q a D lh) → tidy id os D lh act hact m Q.
Proof. intros Hr s Hok Hv. destruct (Hr s) as (a & -> & HQ). split; [done|]. by exists D, lh, act, hact. Qed.

Lemma parts_of_source l l' : (∀ a, ofSource a l ⊆+ ofSource a l') → l ⊆+ l'.
Proof.
  revert l'. induction l as [|t l IH]; intros l' Hl; [apply submseteq_nil_l|].
  assert (Ht : t ∈ l').
  { specialize (Hl (frameSource t)). apply (elem_of_submseteq _ _ t) in Hl; [by apply source_elem in Hl as [_ Hl]|]. apply source_elem. by split; [|left]. }
  apply elem_of_Permutation in Ht as [l2 Hp]. rewrite Hp. apply submseteq_skip, IH. intros a. specialize (Hl a). unfold ofSource in *.
  rewrite Hp, !filter_cons in Hl. case_decide; [by apply (submseteq_app_inv_l _ _ [t]) in Hl|done].
Qed.

Lemma sumFees_part l l' : l ⊆+ l' → Forall (λ t, 0 <= getFeeBid t) l' → Forall (λ t, 0 <= getFeeBid t) l ∧ sumFees l <= sumFees l'.
Proof.
  intros [k Hp]%submseteq_Permutation Hf. rewrite Hp in Hf. apply Forall_app in Hf as [Hf Hk]. split; [done|].
  rewrite (sumFees_perm _ _ Hp), sumFees_app. pose proof (sumFees_nonneg _ Hk). lia.
Qed.

Lemma fit_part `{TxHashes} l l' : l ⊆+ l' → fitSet l' → fitSet l.
Proof.
  intros Hs [Hp [Hf Hsum] Hh]. split.
  - eapply onePtr_mono; [|exact Hp]. intros t Ht. by eapply elem_of_submseteq.
  - destruct (sumFees_part _ _ Hs Hf) as [Hl Hle]. split; [done|lia].
  - rewrite Forall_forall in *. intros t Ht. apply Hh. by eapply elem_of_submseteq.
Qed.

Section Filter.
Context `{TxHashes} `{StdSort} `{TableOrder} `{HashOrder} `{Crypto} (lh : LedgerHeader) (db : gmap LedgerKey LedgerEntry).
Context (Hdb : keyedDb db) (Hm : modern lh) (HV : Valid lh (data <$> db))
        (Hseq : ∀ a acc, accountAt (data <$> db) a = Some acc → 0 <= acc_seqNum acc)
        (Hbase : is_u32 (baseFee lh)) (Hmax : 0 <= maxTxSetSize lh).

Lemma queues_separate txs : separate (inOrder (buildAccountTxQueues txs)).*2.
Proof.
  assert (Hin : ∀ a q, (a, q) ∈ inOrder (buildAccountTxQueues txs) → q ≠ [] ∧ srcOf q = Some a ∧ Forall (λ t, Some (frameSource t) = srcOf q) q).
  { intros a q [Hne ->]%queue_in_order. assert (Hall : ∀ t, t ∈ sortBy getSeqNum (ofSource a txs) → frameSource t = a).
    { intros t Ht. rewrite sortBy_perm in Ht. by apply source_elem in Ht as [Ht _]. }
    destruct (sortBy getSeqNum (ofSource a txs)) as [|t q] eqn:E; [by apply sortBy_eq_nil in E|]. split; [done|].
    rewrite srcOf_cons, (Hall t ltac:(left)). split; [done|]. apply Forall_forall. intros u Hu. by rewrite (Hall u Hu). }
  split.
  - apply Forall_forall. intros q Hq. apply list_elem_of_fmap in Hq as ([a q'] & -> & Hq). destruct (Hin _ _ Hq) as (Hs1 & _ & Hs3). done.
  - pose proof (order_keys txs) as Hn. rewrite <- list_fmap_compose. apply (NoDup_fmap_2 (Some : AccountID → option AccountID)) in Hn. rewrite <- list_fmap_compose in Hn.
    erewrite list_fmap_ext; [exact Hn|]. intros i [a q] Hi. apply list_elem_of_lookup_2 in Hi. destruct (Hin _ _ Hi) as (_ & Hs & _). exact Hs.
Qed.

(** What the loop takes of good queues is good. *)
Lemma surged_good txs l :
  goodSet lh (data <$> db) txs → Forall (λ t, 0 <= getFeeBid t) txs → prefixes (inOrder (buildAccountTxQueues txs)).*2 l →
  goodSet lh (data <$> db) l ∧ l ⊆+ txs.
Proof.
  intros Hg Hf Hl.
  assert (Ha : ∀ a, (∃ K, ofSource a l ≡ₚ K ∧ chain lh (data <$> db) 0 K ∧ affordable lh (data <$> db) K) ∧ ofSource a l ⊆+ ofSource a txs).
  { intros a. destruct (Hl a) as [->|(q & r & Hin & Hs & Hq)].
    { split; [|apply submseteq_nil_l]. exists []. split; [done|]. split; [done|]. by intros t. }
    apply list_elem_of_fmap in Hin as ([b q'] & -> & [_ ->]%queue_in_order). simpl in Hs, Hq.
    destruct (payable_queue lh (data <$> db) Hseq txs b (Hg b)) as (K & EK & Hp & Hc & Haf). rewrite EK in Hs, Hq.
    assert (HK : Forall (λ t, frameSource t = b) K) by (apply Forall_forall; intros t Ht; rewrite Hp in Ht; by apply source_elem in Ht as [Ht _]).
    assert (Eb : b = a). { destruct K as [|t K]; [done|]. rewrite srcOf_cons in Hs. inversion_clear HK. congruence. } subst b.
    destruct (good_prefix lh (data <$> db) K (ofSource a l) r) as [Hc' Haf']; [|by exists a|done|done|done|].
    - apply Forall_forall. intros t Ht. rewrite Hp in Ht. apply source_elem in Ht as [_ Ht]. rewrite Forall_forall in Hf. by apply Hf.
    - split; [by exists (ofSource a l)|]. rewrite <- Hp, Hq. apply submseteq_inserts_r. done. }
  split; [intros a; apply Ha|]. apply parts_of_source. intros a. apply Ha.
Qed.

(** The set fits, in the measure of the filter. *)
Lemma cost_size f : txset_size lh f <= maxTxSetSize lh ↔
  sumCost lh (mTransactions f) <= (if 11 <=? ledgerVersion lh then maxTxSetSize lh else maxTxSetSize lh * MAX_OPS_PER_TX).
Proof.
  unfold txset_size, sizeOp, sizeTx, sumCost, sumOps, costOf, MAX_OPS_PER_TX. destruct (11 <=? ledgerVersion lh); [done|].
  assert (E : ∀ l : list TransactionFrame, foldr (λ _ n, 100 + n) 0 l = 100 * Z.of_nat (length l)) by (induction l; cbn [foldr length]; lia).
  rewrite E. lia.
Qed.

Definition surgeBody (seed : Z) (f : TxSetFrame) (ltx : nat) : M Ledger TxSetFrame :=
  withHeader ltx (λ header,
    lh ← headerCurrent header;
    if (if 11 <=? ledgerVersion lh then maxTxSetSize lh else maxTxSetSize lh * MAX_OPS_PER_TX) <?
       (if 11 <=? ledgerVersion lh then sizeOp f else sizeTx f * MAX_OPS_PER_TX) then
      updatedSet ← surgeLoop (length (mTransactions f)) lh seed (if 11 <=? ledgerVersion lh then maxTxSetSize lh else maxTxSetSize lh * MAX_OPS_PER_TX)
        (inOrder (buildAccountTxQueues (mTransactions f))).*2 [];
      mret (sortForHash (mkTxSet (mHashIsValid f) (mHash f) (mPreviousLedgerHash f) updatedSet))
    else mret f).

Lemma gentle_surge seed f id : gentle (surgeBody seed f id).
Proof.
  assert (Hless : ∀ lh seed q1 q2, gentle (surgeLess lh seed q1 q2)) by (intros ? ? [] []; unfold surgeLess, bigMultiply, assert_; keep).
  assert (Hpop : ∀ queue lh seed best rest, gentle (popTop lh seed best rest queue)).
  { induction queue as [|q queue IH]; intros; cbn [popTop]; [keep|]. apply gentle_bind; [apply Hless|]. intros []; apply IH. }
  assert (Hloop : ∀ fuel lh seed opsLeft qs acc, gentle (surgeLoop fuel lh seed opsLeft qs acc)).
  { induction fuel as [|fuel IH]; intros; cbn [surgeLoop]; destruct (_ <=? 0); [keep| |keep|]; destruct qs as [|q qs]; [keep..|keep|].
    apply gentle_bind; [apply Hpop|]. intros [[|t cur] rest]; [keep|]. cbv zeta. destruct (_ <=? opsLeft); apply IH. }
  unfold surgeBody. apply gentle_withHeader. intros h. apply gentle_bind; [keep|]. intros lh'. destruct (_ <? _); [|keep].
  apply gentle_bind; [apply Hloop|]. intros l. keep.
Qed.

Lemma queues_length txs : length (concat (inOrder (buildAccountTxQueues txs)).*2) = length txs.
Proof.
  apply Permutation_length, same_by_source. intros a. set (items := inOrder (buildAccountTxQueues txs)).
  destruct (concat_source (λ kv R, R = kv.2) items items.*2 a (order_keys txs)) as [(q & R & Hin & -> & ->)|[Hno ->]].
  - apply Forall2_fmap_r, Forall_Forall2_diag, Forall_forall. intros [b q] Hin. split; [done|]. intros t Ht.
    apply queue_in_order in Hin as [_ ->]. simpl in Ht. rewrite sortBy_perm in Ht. by apply source_elem in Ht as [Ht _].
  - apply queue_in_order in Hin as [_ ->]. apply sortBy_perm.
  - destruct (ofSource a txs) eqn:E; [done|]. destruct Hno. apply list_elem_of_fmap. exists (a, sortBy getSeqNum (ofSource a txs)).
    split; [done|]. apply queue_in_order. by rewrite E.
Qed.

Lemma surge_returns seed s f :
  calm lh db s → fitSet (mTransactions f) → Forall typedTx (mTransactions f) → goodSet lh (data <$> db) (mTransactions f) →
  StronglySorted (λ t u, getFullHash t <= getFullHash u) (mTransactions f) → mHashIsValid f = false →
  ∃ f' s', surgePricingFilter seed f s = Ok f' s' ∧ calm lh db s' ∧ goodSet lh (data <$> db) (mTransactions f') ∧
    StronglySorted (λ t u, getFullHash t <= getFullHash u) (mTransactions f') ∧ mTransactions f' ⊆+ mTransactions f ∧
    mPreviousLedgerHash f' = mPreviousLedgerHash f ∧ mHashIsValid f' = false ∧ txset_size lh f' <= maxTxSetSize lh ∧
    (txset_size lh f <= maxTxSetSize lh → mTransactions f' = mTransactions f).
Proof.
  intros Hc Hfit Hty Hg Hs Hv. change (surgePricingFilter seed f) with (withRootTxn (surgeBody seed f)).
  set (limit := if 11 <=? ledgerVersion lh then maxTxSetSize lh else maxTxSetSize lh * MAX_OPS_PER_TX).
  destruct (rootTxn lh db s (surgeBody seed f) (λ f', goodSet lh (data <$> db) (mTransactions f') ∧
    StronglySorted (λ t u, getFullHash t <= getFullHash u) (mTransactions f') ∧ mTransactions f' ⊆+ mTransactions f ∧
    mPreviousLedgerHash f' = mPreviousLedgerHash f ∧ mHashIsValid f' = false ∧ txset_size lh f' <= maxTxSetSize lh ∧
    (txset_size lh f <= maxTxSetSize lh → mTransactions f' = mTransactions f)) Hdb Hc) as (f' & s' & E & Hc' & HQ).
  - intros id. apply gentle_surge.
  - intros id. unfold surgeBody. tstep. tstep. tstep. fold limit. destruct (limit <? _) eqn:Elim; propify.
    + tstep. apply tidy_reads. intros s0.
      destruct (surgeLoop_returns lh seed Hbase (length (mTransactions f)) (inOrder (buildAccountTxQueues (mTransactions f))).*2 limit [] s0) as (l & -> & Hl & Hp).
      * apply queues_separate.
      * apply Forall_fmap, Forall_forall. intros [a q] [_ ->]%queue_in_order. simpl. rewrite sortBy_perm. apply Forall_forall. intros t [_ Ht]%source_elem.
        rewrite Forall_forall in Hty. by apply Hty.
      * by rewrite queues_length.
      * unfold limit, MAX_OPS_PER_TX. destruct (_ <=? _); lia.
      * eexists. split; [done|]. tstep. simpl. destruct (surged_good (mTransactions f) l Hg (proj1 (fs_fees _ Hfit)) Hp) as [Hg' Hsub].
        split_and!; [| |by rewrite sortBy_perm|done|done| |].
        -- intros a. destruct (Hg' a) as (K & HK & HK'). exists K. split; [|done]. unfold ofSource in *. by rewrite sortBy_perm.
        -- apply sortBy_sorted.
        -- apply cost_size. cbn [mTransactions sortForHash]. by rewrite (sumCost_perm _ _ _ (sortBy_perm _ getFullHash l)).
        -- intros Hfits. unfold txset_size in Hfits. unfold limit, MAX_OPS_PER_TX in Elim. destruct (11 <=? ledgerVersion lh); lia.
    + tstep. split_and!; try done. unfold txset_size. unfold limit, MAX_OPS_PER_TX in Elim. destruct (11 <=? ledgerVersion lh); lia.
  - exists f', s'. done.
Qed.
End Filter.

(** ** The proposal *)

(** What a proposal needs: a valid database of version 10 or later, and pending transactions of the types of the code,
    with fees that add up to less than 2^63. *)
Record readyToPropose `{TxHashes} `{TableOrder} (lh : LedgerHeader) (db : gmap LedgerKey LedgerEntry) (q : TransactionQueue) : Prop := {
  rp_keyed : keyedDb db;
  rp_modern : modern lh;
  rp_valid : Valid lh (data <$> db);
  rp_seq : ∀ a acc, accountAt (data <$> db) a = Some acc → 0 <= acc_seqNum acc;
  rp_base : is_u32 (baseFee lh);
  rp_max : 0 <= maxTxSetSize lh;
  rp_fit : fitSet (allPending q);
  rp_typed : Forall typedTx (allPending q) }.

Lemma toTxSet_all `{TableOrder} lclHash q :
  mTransactions (toTxSet lclHash q) = allPending q ∧ mPreviousLedgerHash (toTxSet lclHash q) = lclHash.
Proof.
  unfold toTxSet. assert (Hf : ∀ l f, mTransactions (foldl (λ f t, txset_add t f) f l) = mTransactions f ++ l ∧
    mPreviousLedgerHash (foldl (λ f t, txset_add t f) f l) = mPreviousLedgerHash f).
  { induction l as [|t l IH]; intros f; simpl; [by rewrite app_nil_r|]. destruct (IH (txset_add t f)) as [-> ->]. simpl. by rewrite <- app_assoc. }
  destruct (Hf (allPending q) (newTxSet lclHash)) as [-> ->]. done.
Qed.

(** C10: the set that the herder proposes from its pending transactions is always valid, so that
    [triggerNextLedger] never throws "wanting to emit an invalid txSet": whatever the queue holds, trimming, surge
    pricing and the check return, the database is as before, the set is a part of the pending transactions that is not
    larger than the ledger allows, and of each account it has a chain of valid transactions with consecutive sequence
    numbers whose fees the account can pay together. Nothing is lost without need: if the pending transactions are not too
    many, an account whose transactions are such a chain has all of them in the set. The conditions are in
    [readyToPropose]: a valid ledger of version 10 or later, and numbers of the queue within the types of the code. *)
Theorem proposed_set_is_valid `{TxHashes} `{StdSort} `{TableOrder} `{HashOrder} `{Crypto} lh db s q lclHash seed :
  calm lh db s → readyToPropose lh db q →
  ∃ h f q' s', proposeTxSet lclHash lh seed q s = Ok (h, f, q') s' ∧ calm lh db s' ∧
    mTransactions f ⊆+ allPending q ∧ goodSet lh (data <$> db) (mTransactions f) ∧ txset_size lh f <= maxTxSetSize lh ∧
    (txset_size lh (toTxSet lclHash q) <= maxTxSetSize lh →
     ∀ a, payable lh (data <$> db) (allPending q) a → ofSource a (mTransactions f) ≡ₚ ofSource a (allPending q)).
Proof.
  intros Hc [Hk Hm HV Hseq Hb Hmax Hfit Hty]. destruct (toTxSet_all lclHash q) as [Et Ep]. set (f0 := toTxSet lclHash q) in *.
  unfold proposeTxSet. fold f0. unfold mbind, M_bind. rewrite <- Et in Hfit, Hty.
  destruct (trim_returns lh db Hk Hm HV Hseq s f0 Hc Hfit) as (removed & f1 & s1 & -> & Hc1 & Hg1 & Hs1 & Hsub1 & Hp1 & Hv1 & Hkeep).
  assert (Hfit1 : fitSet (mTransactions f1)) by by eapply fit_part.
  assert (Hty1 : Forall typedTx (mTransactions f1)) by (rewrite Forall_forall in *; intros t Ht; apply Hty; by eapply elem_of_submseteq).
  destruct (surge_returns lh db Hk Hseq Hb Hmax seed s1 f1 Hc1 Hfit1 Hty1 Hg1 Hs1 Hv1) as (f2 & s2 & -> & Hc2 & Hg2 & Hs2 & Hsub2 & Hp2 & Hv2 & Hsz & Hsame).
  destruct (set_is_valid lh db Hk Hm HV Hseq lclHash s2 f2 Hc2) as (s3 & -> & Hc3); [by eapply fit_part|done|done|congruence|done|].
  unfold getContentsHash. rewrite Hv2. cbn [negb]. eexists _, _, _, s3. split; [done|]. cbn [mTransactions sortForHash].
  assert (Hsz' : txset_size lh f0 <= maxTxSetSize lh → txset_size lh f1 <= maxTxSetSize lh).
  { rewrite !cost_size. intros Hle. etrans; [by apply sumCost_part|done]. }
  rewrite <- Et. split_and!; [done| | | |].
  - rewrite sortBy_perm. by etrans.
  - intros a. destruct (Hg2 a) as (K & HK & HK'). exists K. split; [|done]. unfold ofSource in *. by rewrite sortBy_perm.
  - apply cost_size. cbn [mTransactions]. rewrite (sumCost_perm _ _ _ (sortBy_perm _ getFullHash _)). by apply cost_size.
  - intros Hle a Hpay. unfold ofSource in *. rewrite sortBy_perm, Hsame by auto. by apply Hkeep.
Qed.

(** ** An example *)

(** On the ledger of the examples, with the toy hashes; of the two pending transactions of the account 5 the second does
    not follow on the first. *)
Definition pendingFee (p : nat) (seq : Z) : TransactionFrame :=
  mkFrame p (mkTxEnvelope (mkTransaction 5 1000 seq None (operations (tx feeEnvelope))) (signatures feeEnvelope)).
Definition pendingQueue : TransactionQueue :=
  mkQueue [{[5 := mkTxMap noInfo {[84 := pendingFee 0 4; 89 := pendingFee 1 9]}]}; ∅] [∅].
Definition calmLedger : Ledger := mkLedger [] opRoot 0.

Lemma opRoot_data : data <$> rootEntries opRoot = list_to_map opEntries.
Proof. apply (bool_decide_eq_true_1 _). vm_compute. reflexivity. Qed.

Lemma pendingQueue_all : allPending (H1 := keys_TableOrder) pendingQueue = [pendingFee 1 9; pendingFee 0 4].
Proof. vm_compute. reflexivity. Qed.

Lemma pending_ready : readyToPropose (H := toyHashes) (H0 := keys_TableOrder) opHeader (rootEntries opRoot) pendingQueue.
Proof.
  split.
  - apply (bool_decide_eq_true_1 _). vm_compute. reflexivity.
  - by vm_compute.
  - rewrite opRoot_data. apply Valid_list, opEntries_ok.
  - rewrite opRoot_data. intros a acc Ha.
    unfold accountAt in Ha. destruct (list_to_map opEntries !! ACCOUNT a) as [d|] eqn:E; [|done]. apply elem_of_list_to_map_2 in E.
    revert d E Ha.
    enough (Hall : Forall (λ kd, match kd.2 with Account acc => 0 <= acc_seqNum acc | _ => True end) opEntries).
    { intros d Hd Ha. rewrite Forall_forall in Hall. specialize (Hall _ Hd). destruct d; naive_solver. }
    vm_compute. repeat constructor; congruence.
  - by vm_compute.
  - by vm_compute.
  - split.
    + intros t u. rewrite pendingQueue_all, !elem_of_cons, !elem_of_nil. intros [-> | [-> | []]] [-> | [-> | []]]; done.
    + rewrite pendingQueue_all. split; [|by vm_compute]. repeat constructor; by vm_compute.
    + rewrite pendingQueue_all. repeat constructor; by vm_compute.
  - rewrite pendingQueue_all. repeat constructor; by vm_compute.
Qed.

Lemma proposed_set_is_valid_witness :
  ∃ h f q' s', proposeTxSet (H := toyHashes) (H0 := insertion_StdSort) (H1 := keys_TableOrder) (H3 := toyCrypto) 3 opHeader 6 pendingQueue calmLedger =
      Ok (h, f, q') s' ∧ mTransactions f = [pendingFee 0 4] ∧ calm opHeader (rootEntries opRoot) s' ∧ allPending (H1 := keys_TableOrder) q' = [pendingFee 0 4].
Proof.
  destruct (proposed_set_is_valid (H := toyHashes) (H0 := insertion_StdSort) (H1 := keys_TableOrder) (H3 := toyCrypto)
    opHeader (rootEntries opRoot) calmLedger pendingQueue 3 6 (Build_calm _ _ calmLedger eq_refl eq_refl) pending_ready) as (h & f & q' & s' & E & Hc & _).
  exists h, f, q', s'.
  assert (Ec : match proposeTxSet (H := toyHashes) (H0 := insertion_StdSort) (H1 := keys_TableOrder) (H3 := toyCrypto) 3 opHeader 6 pendingQueue calmLedger with
    | Ok (_, f, q') _ => Some (mTransactions f, allPending (H1 := keys_TableOrder) q') | _ => None end = Some ([pendingFee 0 4], [pendingFee 0 4]))
    by (vm_compute; reflexivity).
  rewrite E in Ec. injection Ec as Ef Eq. split_and!; assumption.
Defined.
