(* ===== verification/TxQueueSpec.v ===== *)
(** * The queue of pending transactions

    What holds of a queue after any calls: the numbers kept for an account are those of its pending transactions
    ([queueReachable_ok]). So [tryAdd] accepts exactly what continues the pending transactions of the account and can be
    paid with them ([admission_exact]); what it accepts ages with each ledger, is banned for a while and forgotten
    ([pending_then_banned]). *)
From stdpp Require Import base list gmap strings sorting.
From Stdlib Require Import ZArith Lia.
From S2P Require Import Prelude UInt128 Numeric LedgerEntries Balances BalancesSpec LedgerTxn LedgerTxnSpec TrustLines LedgerLogic CrossOffers CrossOffersSpec BookSpec OpTypes RunLogic ExactLogic Operations OpExact Signatures SignatureSpec Transactions Gentle TxSpec TxValidSpec BucketApplySpec TxSet TxQueue TxSetSpec TxCheckSpec TxProposal.

(** ** The numbers of an account *)

Definition maxSeq (l : list TransactionFrame) : Z := foldr (λ t n, Z.max (getSeqNum t) n) 0 l.
Definition infoOf (l : list TransactionFrame) : AccountTxQueueInfo := mkInfo (maxSeq l) (s64 (sumFees l)).

Lemma s64_add_l x y : s64 (s64 x + y) = s64 (x + y).
Proof.
  assert (E : ∃ k, s64 x = x + k * 2 ^ 64).
  { unfold s64, swrap, wrap. cbn zeta. pose proof (Z.div_mod x (2 ^ 64) ltac:(lia)). destruct (_ <? _); [exists (- (x / 2 ^ 64))|exists (- (x / 2 ^ 64) - 1)]; lia. }
  destruct E as [k ->]. unfold s64, swrap, wrap. replace (x + k * 2 ^ 64 + y) with (x + y + k * 2 ^ 64) by ring. by rewrite Z.mod_add by lia.
Qed.
Lemma s64_add_r x y : s64 (x + s64 y) = s64 (x + y).
Proof. by rewrite Z.add_comm, s64_add_l, Z.add_comm. Qed.

Lemma maxSeq_app l k : maxSeq (l ++ k) = Z.max (maxSeq l) (maxSeq k).
Proof.
  assert (Hpos : ∀ l, 0 <= maxSeq l) by (intros l'; induction l'; simpl; lia). specialize (Hpos k).
  induction l as [|t l IH]; simpl; [lia|]. rewrite IH. lia.
Qed.
#[export] Instance infoOf_perm : Proper ((≡ₚ) ==> eq) infoOf.
Proof.
  intros l k Hp. unfold infoOf. rewrite (sumFees_perm _ _ Hp). f_equal. induction Hp; simpl; lia.
Qed.
Lemma infoOf_cons t l : countTx (infoOf l) t = infoOf (t :: l).
Proof. unfold countTx, infoOf. simpl. by rewrite s64_add_l, (Z.add_comm (sumFees l)). Qed.
Lemma infoOf_all l k : foldl countTx (infoOf k) l = infoOf (k ++ l).
Proof.
  revert k. induction l as [|t l IH]; intros k; simpl; [by rewrite app_nil_r|]. rewrite infoOf_cons, IH. apply infoOf_perm. simpl. apply Permutation_middle.
Qed.

(** ** The transactions of one age *)

Notation AccountTxMap := (gmap AccountID TxMap) (only parsing).

Definition txsOf (m : TxMap) : list TransactionFrame := (map_to_list (tm_transactions m)).*2.
Definition inMap (map : AccountTxMap) (a : AccountID) (h : Z) : option TransactionFrame := m ← map !! a; tm_transactions m !! h.

Section Ages.
Context `{TxHashes} `{StdSort} `{TableOrder}.

(** A transaction is where its account and its hash say, and the numbers are those of the transactions. *)
Definition keyedBy (a : AccountID) (m : TxMap) : Prop :=
  map_Forall (λ h t, getFullHash t = h ∧ frameSource t = a) (tm_transactions m).
Definition ageOk (map : AccountTxMap) : Prop := map_Forall (λ a m, keyedBy a m ∧ mCurrentQInfo m = infoOf (txsOf m)) map.

Lemma addTx_ok a m t : frameSource t = a → keyedBy a m → mCurrentQInfo m = infoOf (txsOf m) →
  keyedBy a (addTx t m) ∧ mCurrentQInfo (addTx t m) = infoOf (txsOf (addTx t m)).
Proof.
  intros Ha Hk Hi. unfold addTx. destruct (tm_transactions m !! getFullHash t) eqn:E; [done|]. split.
  - apply map_Forall_insert_2; [done|exact Hk].
  - cbn [mCurrentQInfo]. rewrite Hi, infoOf_cons. unfold txsOf. cbn [tm_transactions]. by rewrite map_to_list_insert.
Qed.
Lemma recalculate_ok m : mCurrentQInfo (recalculate m) = infoOf (txsOf (recalculate m)).
Proof.
  unfold recalculate. cbn [mCurrentQInfo]. unfold txsOf. cbn [tm_transactions].
  assert (E : ∀ l i, foldl (λ i (kv : Z * TransactionFrame), countTx i kv.2) i l = foldl countTx i l.*2) by (induction l; simpl; auto).
  change noInfo with (infoOf []). rewrite E, infoOf_all. by rewrite inOrder_perm.
Qed.

Lemma addPending_ok t map : ageOk map → ageOk (<[frameSource t := addTx t (default (mkTxMap noInfo ∅) (map !! frameSource t))]> map).
Proof.
  intros Hm. apply map_Forall_insert_2; [|done]. destruct (map !! frameSource t) as [m|] eqn:E; simpl.
  - destruct (Hm _ _ E). by apply addTx_ok.
  - apply addTx_ok; [done|apply map_Forall_empty|done].
Qed.
Lemma inMap_add t map a h :
  inMap map (frameSource t) (getFullHash t) = None →
  inMap (<[frameSource t := addTx t (default (mkTxMap noInfo ∅) (map !! frameSource t))]> map) a h =
  if decide (a = frameSource t ∧ h = getFullHash t) then Some t else inMap map a h.
Proof.
  unfold inMap. intros Hno. destruct (decide (a = frameSource t)) as [->|Hne].
  - rewrite lookup_insert_eq. simpl. assert (E : tm_transactions (default (mkTxMap noInfo ∅) (map !! frameSource t)) !! getFullHash t = None).
    { by destruct (map !! frameSource t). }
    unfold addTx. rewrite E. cbn [tm_transactions]. destruct (decide (h = getFullHash t)) as [->|Hh].
    + rewrite lookup_insert_eq, decide_True by done. done.
    + rewrite lookup_insert_ne, decide_False by naive_solver. by destruct (map !! frameSource t).
  - rewrite lookup_insert_ne, decide_False by naive_solver. done.
Qed.

(** *** Removing *)

Definition dropping (st : AccountTxMap * gset AccountID) : Prop :=
  map_Forall (λ a m, keyedBy a m ∧ (a ∉ st.2 → mCurrentQInfo m = infoOf (txsOf m))) st.1.
Definition sameTx (a : AccountID) (h : Z) (u : TransactionFrame) : Prop := frameSource u = a ∧ getFullHash u = h.
#[local] Instance sameTx_dec a h u : Decision (sameTx a h u).
Proof. unfold sameTx. apply _. Defined.

Lemma dropTx_ok st u : dropping st → dropping (dropTx st u).
Proof.
  destruct st as [map rec]. intros Hd. unfold dropTx. destruct (map !! frameSource u) as [m|] eqn:Em; [|done].
  destruct (tm_transactions m !! getFullHash u) eqn:Et; [|done]. destruct (decide (_ = ∅)).
  - by apply map_Forall_delete.
  - intros a m' Hm'. cbn [fst snd] in *. destruct (decide (a = frameSource u)) as [->|Hne].
    + rewrite lookup_insert_eq in Hm'. injection Hm' as <-. split; [|set_solver]. apply map_Forall_delete, (Hd _ _ Em).
    + rewrite lookup_insert_ne in Hm' by done. destruct (Hd _ _ Hm') as [Hk Hi]. split; [done|]. cbn [snd] in Hi. set_solver.
Qed.
Lemma inMap_drop st u a h : inMap (dropTx st u).1 a h = if decide (sameTx a h u) then None else inMap st.1 a h.
Proof.
  destruct st as [map rec]. unfold dropTx, sameTx, inMap. cbn [fst].
  destruct (map !! frameSource u) as [m|] eqn:Em; [|case_decide as E; [destruct E as [<- _]; cbn [fst]; by rewrite Em|done]].
  destruct (tm_transactions m !! getFullHash u) eqn:Et; [|case_decide as E; [destruct E as [<- <-]; cbn [fst]; rewrite Em; exact Et|done]].
  destruct (decide (frameSource u = a)) as [<-|Hne].
  - rewrite Em. simpl. destruct (decide (getFullHash u = h)) as [<-|Hh].
    + rewrite (decide_True (P := _ ∧ _)) by done. destruct (decide (_ = ∅)); cbn [fst]; [by rewrite lookup_delete_eq|]. rewrite lookup_insert_eq. simpl. by rewrite lookup_delete_eq.
    + rewrite (decide_False (P := _ ∧ _)) by tauto. rewrite <- (lookup_delete_ne (tm_transactions m) (getFullHash u) h) by done.
      destruct (decide (_ = ∅)) as [E|]; cbn [fst]; [by rewrite lookup_delete_eq, E, lookup_empty|]. by rewrite lookup_insert_eq.
  - rewrite (decide_False (P := _ ∧ _)) by tauto. destruct (decide (_ = ∅)); cbn [fst]; [by rewrite lookup_delete_ne|by rewrite lookup_insert_ne].
Qed.

Lemma dropAll_ok drops : ∀ st, dropping st → dropping (foldl dropTx st drops).
Proof. induction drops as [|u drops IH]; intros st Hd; [done|]. apply IH, dropTx_ok, Hd. Qed.
Lemma inMap_dropAll drops a h : ∀ st,
  inMap (foldl dropTx st drops).1 a h = if decide (Exists (sameTx a h) drops) then None else inMap st.1 a h.
Proof.
  induction drops as [|u drops IH]; intros st; cbn [foldl]; [case_decide as E; [by apply Exists_nil in E|done]|].
  rewrite IH, inMap_drop. destruct (decide (sameTx a h u)) as [Hu|Hu].
  - rewrite (decide_True (P := Exists _ (_ :: _))) by (by left). by case_decide.
  - apply decide_ext. rewrite Exists_cons. tauto.
Qed.

Lemma removeFrom_ok drops map : ageOk map → ageOk (removeFrom drops map).
Proof.
  intros Hm. unfold removeFrom. destruct (decide (map = ∅)); [done|].
  assert (Hd : dropping (foldl dropTx (map, ∅) drops)) by (apply dropAll_ok; intros a m Hin; destruct (Hm _ _ Hin); done).
  destruct (foldl dropTx _ _) as [map' rec]. intros a m. rewrite map_lookup_imap. destruct (map' !! a) as [m'|] eqn:E; [|done].
  destruct (Hd _ _ E) as [Hk Hi]. intros [= <-]. cbn [snd] in Hi. case_decide; [|tauto]. split; [done|]. apply recalculate_ok.
Qed.
Lemma inMap_removeFrom drops map a h : inMap (removeFrom drops map) a h = if decide (Exists (sameTx a h) drops) then None else inMap map a h.
Proof.
  unfold removeFrom. destruct (decide (map = ∅)) as [->|Hne]; [unfold inMap; rewrite lookup_empty; by case_decide|].
  rewrite <- (inMap_dropAll drops a h (map, ∅)). destruct (foldl dropTx _ _) as [map' rec]. unfold inMap. cbn [fst].
  rewrite map_lookup_imap. destruct (map' !! a); [|done]. simpl. by case_decide.
Qed.

(** *** All of an age *)

Definition mapTxs (map : AccountTxMap) : list TransactionFrame := inOrder map ≫= λ kv, (inOrder (tm_transactions kv.2)).*2.
Definition txsAt (map : AccountTxMap) (a : AccountID) : list TransactionFrame := from_option txsOf [] (map !! a).

Lemma mapTxs_elem map t : t ∈ mapTxs map ↔ ∃ a h, inMap map a h = Some t.
Proof.
  unfold mapTxs, inMap. rewrite list_elem_of_bind. setoid_rewrite inOrder_perm. split.
  - intros ([a m] & Ht & Hm). apply elem_of_map_to_list in Hm. apply list_elem_of_fmap in Ht as ([h t'] & -> & Ht). apply elem_of_map_to_list in Ht.
    exists a, h. by rewrite Hm.
  - intros (a & h & Hb). apply bind_Some in Hb as (m & Hm & Ht). exists (a, m). rewrite elem_of_map_to_list. split; [|done].
    apply list_elem_of_fmap. exists (h, t). by rewrite elem_of_map_to_list.
Qed.
Lemma mapTxs_source map a : ageOk map → ofSource a (mapTxs map) ≡ₚ txsAt map a.
Proof.
  intros Hok. assert (E : mapTxs map ≡ₚ map_to_list map ≫= λ kv, txsOf kv.2).
  { unfold mapTxs, txsOf. rewrite inOrder_perm. induction (map_to_list map) as [|kv l IH]; [done|]. rewrite !bind_cons, IH, inOrder_perm. done. }
  unfold ofSource. rewrite E. clear E. revert Hok. unfold txsAt. induction map as [|b m map Hno IH] using map_ind; intros Hok; [done|].
  rewrite map_to_list_insert by done. rewrite bind_cons, filter_app. destruct (Hok b m) as [Hk _]; [by rewrite lookup_insert_eq|].
  assert (Hall : ∀ t, t ∈ txsOf m → frameSource t = b).
  { intros t Ht. apply list_elem_of_fmap in Ht as ([h t'] & -> & Ht). apply elem_of_map_to_list in Ht. apply (Hk _ _ Ht). }
  rewrite IH by (intros a' m' Hm'; apply Hok; rewrite lookup_insert_ne by (intros ->; congruence); done). simpl.
  destruct (decide (b = a)) as [->|Hne].
  - rewrite lookup_insert_eq, Hno. simpl. rewrite app_nil_r. by rewrite filter_everything.
  - rewrite lookup_insert_ne by done. rewrite filter_nothing; [done|]. intros t Ht. rewrite (Hall t Ht). done.
Qed.

(** ** The queue *)

Record queueOk (pendingDepth banDepth : nat) (q : TransactionQueue) : Prop := {
  qo_pending : length (mPendingTransactions q) = pendingDepth;
  qo_banned : length (mBannedTransactions q) = banDepth;
  qo_ages : Forall ageOk (mPendingTransactions q) }.

(** The calls of the queue, on any ledger. *)
Inductive queueReachable `{HashOrder} `{Crypto} (pendingDepth banDepth : nat) : TransactionQueue → Prop :=
| reach_newQueue : queueReachable pendingDepth banDepth (newQueue pendingDepth banDepth)
| reach_tryAdd q t s r res q' s' :
    queueReachable pendingDepth banDepth q → tryAdd t q s = Ok (r, res, q') s' → queueReachable pendingDepth banDepth q'
| reach_remove q drops : queueReachable pendingDepth banDepth q → queueReachable pendingDepth banDepth (remove drops q)
| reach_shift q q' : queueReachable pendingDepth banDepth q → shift q = Some q' → queueReachable pendingDepth banDepth q'.

(** What a program returns, if it returns. *)
Definition onlyReturns {A} (m : M Ledger A) (P : A → Prop) : Prop := ∀ s a s', m s = Ok a s' → P a.

Lemma onlyReturns_ret {A} (a : A) (P : A → Prop) : P a → onlyReturns (mret a) P.
Proof. intros Ha s a' s' [= <- <-]. done. Qed.
Lemma onlyReturns_bind {A B} (m : M Ledger A) (k : A → M Ledger B) P : (∀ a, onlyReturns (k a) P) → onlyReturns (m ≫= k) P.
Proof. intros Hk s b s'. unfold mbind, M_bind. destruct (m s) as [a s1| | |] eqn:E; try done. apply Hk. Qed.
Lemma onlyReturns_scoped {A} d (m : M Ledger A) P : onlyReturns m P → onlyReturns (scoped d m) P.
Proof.
  intros Hm s a s'. unfold scoped, mbind, M_bind. destruct (m s) as [b s1|w s1| |] eqn:E; try done; destruct (d s1); try done.
  intros [= <- <-]. by eapply Hm.
Qed.

(** The answers of [tryAdd]. *)
Definition answered (t : TransactionFrame) (q : TransactionQueue) (r : AddResult) (q' : TransactionQueue) : Prop :=
  match r with
  | ADD_STATUS_PENDING => isBanned q (getFullHash t) = false ∧ contains q t = false ∧ addPending t q = Some q'
  | _ => q' = q
  end.
Lemma tryAdd_answered `{HashOrder} `{Crypto} t q : onlyReturns (tryAdd t q) (λ x, answered t q x.1.1 x.2).
Proof.
  unfold tryAdd. destruct (isBanned q (getFullHash t)) eqn:Eb; [by apply onlyReturns_ret|].
  destruct (contains q t) eqn:Ec; [by apply onlyReturns_ret|]. unfold withRootTxn. apply onlyReturns_bind. intros ltx. apply onlyReturns_scoped, onlyReturns_bind.
  intros [valid r]. destruct (negb valid); [by apply onlyReturns_ret|]. apply onlyReturns_bind. intros h. unfold withEntry. apply onlyReturns_scoped, onlyReturns_bind.
  intros avail. destruct (_ <? _); [by apply onlyReturns_ret|]. destruct (addPending t q) eqn:Ea; [|done]. by apply onlyReturns_ret.
Qed.

Lemma addPending_cases t q q' : addPending t q = Some q' → ∃ map rest, mPendingTransactions q = map :: rest ∧
  mPendingTransactions q' = <[frameSource t := addTx t (default (mkTxMap noInfo ∅) (map !! frameSource t))]> map :: rest ∧
  mBannedTransactions q' = mBannedTransactions q.
Proof. unfold addPending. destruct (mPendingTransactions q) as [|map rest]; [done|]. intros [= <-]. by exists map, rest. Qed.

Lemma shift_cases q q' : shift q = Some q' → ∃ oldest, last (mPendingTransactions q) = Some oldest ∧ mBannedTransactions q ≠ [] ∧
  mPendingTransactions q' = ∅ :: take (pred (length (mPendingTransactions q))) (mPendingTransactions q) ∧
  mBannedTransactions q' = hashesOf oldest :: take (pred (length (mBannedTransactions q))) (mBannedTransactions q).
Proof.
  unfold shift. destruct (last (mPendingTransactions q)) as [oldest|] eqn:El; [|done]. destruct (last (mBannedTransactions q)) eqn:Eb; [|done].
  intros [= <-]. cbn [mPendingTransactions mBannedTransactions]. rewrite !removelast_firstn_len. exists oldest. split_and!; [done| |done|done].
  intros E. by rewrite E in Eb.
Qed.

Lemma answered_ok pd bd t q r q' : queueOk pd bd q → answered t q r q' → queueOk pd bd q'.
Proof.
  intros [Hp Hb Ha] Hr. destruct r; simpl in Hr; [|by subst q'..]. destruct Hr as (_ & _ & Hadd).
  destruct (addPending_cases _ _ _ Hadd) as (map & rest & E & E' & Eb). rewrite E in Hp, Ha. inversion_clear Ha as [|? ? Hm Hr].
  split; rewrite ?E', ?Eb; [done|done|]. constructor; [by apply addPending_ok|done].
Qed.
Lemma remove_ok pd bd drops q : queueOk pd bd q → queueOk pd bd (remove drops q).
Proof.
  intros [Hp Hb Ha]. split; cbn [remove mPendingTransactions mBannedTransactions]; [by rewrite length_fmap|done|].
  rewrite Forall_fmap. eapply Forall_impl; [exact Ha|]. intros map. apply removeFrom_ok.
Qed.
Lemma shift_ok pd bd q q' : queueOk pd bd q → shift q = Some q' → queueOk pd bd q'.
Proof.
  intros [Hp Hb Ha] Hs. destruct (shift_cases _ _ Hs) as (oldest & El & Hne & E & E').
  assert (Hpos : mPendingTransactions q ≠ []) by (intros En; by rewrite En in El).
  split; rewrite ?E, ?E'.
  - simpl. rewrite length_take. destruct (mPendingTransactions q); simpl in *; [done|lia].
  - simpl. rewrite length_take. destruct (mBannedTransactions q); simpl in *; [done|lia].
  - constructor; [apply map_Forall_empty|]. by apply Forall_take.
Qed.
Lemma shift_total pd bd q : (0 < pd)%nat → (0 < bd)%nat → queueOk pd bd q → ∃ q', shift q = Some q'.
Proof.
  intros Hpd Hbd [E1 E2 _]. unfold shift. rewrite !last_lookup, E1, E2.
  destruct (lookup_lt_is_Some_2 (mPendingTransactions q) (pred pd)) as [m ->]; [lia|].
  destruct (lookup_lt_is_Some_2 (mBannedTransactions q) (pred bd)) as [B ->]; [lia|]. by eexists.
Qed.
Lemma queueReachable_ok `{HashOrder} `{Crypto} pd bd q : queueReachable pd bd q → queueOk pd bd q.
Proof.
  induction 1 as [|q t s r res q' s' _ IH Hadd|q drops _ IH|q q' _ IH Hs].
  - split; cbn [newQueue mPendingTransactions mBannedTransactions]; [apply length_replicate..|]. apply Forall_replicate, map_Forall_empty.
  - eapply answered_ok; [done|]. exact (tryAdd_answered t q s _ _ Hadd).
  - by apply remove_ok.
  - by eapply shift_ok.
Qed.

(** *** What is pending *)

Lemma allPending_ages q : allPending q = mPendingTransactions q ≫= mapTxs.
Proof. done. Qed.

Lemma account_info pd bd q a : queueOk pd bd q → getAccountTransactionQueueInfo q a = infoOf (ofSource a (allPending q)).
Proof.
  intros [_ _ Ha]. rewrite allPending_ages. unfold getAccountTransactionQueueInfo.
  enough (Hf : ∀ maps k, Forall ageOk maps → foldl (joinInfo a) (infoOf k) maps = infoOf (k ++ ofSource a (maps ≫= mapTxs))) by apply (Hf _ [] Ha).
  clear. induction maps as [|map maps IH]; intros k Hok; [simpl; by rewrite app_nil_r|]. inversion_clear Hok as [|? ? Hm Hms]. simpl.
  assert (E : joinInfo a (infoOf k) map = infoOf (k ++ txsAt map a)).
  { unfold joinInfo, txsAt. destruct (map !! a) as [m|] eqn:Em; simpl; [|by rewrite app_nil_r]. destruct (Hm _ _ Em) as [_ ->].
    unfold infoOf. simpl. by rewrite s64_add_l, s64_add_r, maxSeq_app, sumFees_app. }
  rewrite E, IH by done. unfold ofSource. rewrite filter_app. fold (ofSource a (mapTxs map)). by rewrite (mapTxs_source map a Hm), app_assoc.
Qed.

Lemma inMap_keyed map a h t : ageOk map → inMap map a h = Some t → sameTx a h t.
Proof. intros Hm Hin. unfold inMap in Hin. apply bind_Some in Hin as (m & Em & Et). destruct (Hm _ _ Em) as [Hk _]. destruct (Hk _ _ Et). done. Qed.

Lemma contains_inMap q t : contains q t = true ↔ ∃ map, map ∈ mPendingTransactions q ∧ is_Some (inMap map (frameSource t) (getFullHash t)).
Proof.
  unfold contains. rewrite existsb_exists. setoid_rewrite list_elem_of_In. apply exist_proper. intros map. f_equiv. unfold inMap.
  destruct (map !! frameSource t) as [m|]; simpl; [|split; [done|by intros [? ?]]]. destruct (tm_transactions m !! getFullHash t); split; try done; by intros [? ?].
Qed.
Lemma contains_pending pd bd q t : queueOk pd bd q →
  contains q t = true ↔ ∃ u, u ∈ allPending q ∧ sameTx (frameSource t) (getFullHash t) u.
Proof.
  intros [_ _ Ha]. rewrite contains_inMap, allPending_ages. rewrite Forall_forall in Ha. setoid_rewrite list_elem_of_bind. split.
  - intros (map & Hin & u & Hu). exists u. split; [|by eapply inMap_keyed; [apply Ha|]]. exists map. split; [|done]. apply mapTxs_elem. eauto.
  - intros (u & (map & Hu & Hin) & Hs). exists map. split; [done|]. apply mapTxs_elem in Hu as (a & h & Hu). pose proof (inMap_keyed _ _ _ _ (Ha _ Hin) Hu) as [E1 E2].
    destruct Hs as [E3 E4]. exists u. congruence.
Qed.

Lemma addPending_all pd bd t q q' : queueOk pd bd q → contains q t = false → addPending t q = Some q' → allPending q' ≡ₚ t :: allPending q.
Proof.
  intros [_ _ Ha] Hc Hadd. destruct (addPending_cases _ _ _ Hadd) as (map & rest & E & E' & _). rewrite !allPending_ages, E, E', !bind_cons.
  rewrite E in Ha. inversion_clear Ha as [|? ? Hm _]. change (t :: mapTxs map ++ (rest ≫= mapTxs)) with ((t :: mapTxs map) ++ (rest ≫= mapTxs)). f_equiv.
  assert (Hno : inMap map (frameSource t) (getFullHash t) = None).
  { destruct (inMap map _ _) eqn:Ei; [|done]. apply not_true_iff_false in Hc. destruct Hc. apply contains_inMap. exists map. rewrite E. split; [left|by eexists]. }
  set (map' := <[_ := _]> map). assert (Hsrc : ∀ a, ofSource a (mapTxs map') ≡ₚ ofSource a (t :: mapTxs map)).
  { intros a. rewrite mapTxs_source by by apply addPending_ok. unfold ofSource. rewrite filter_cons. fold (ofSource a (mapTxs map)).
    case_decide as Es; rewrite (mapTxs_source map a Hm); unfold txsAt, map'; [|by rewrite lookup_insert_ne]. subst a. rewrite lookup_insert_eq. simpl. unfold inMap in Hno.
    destruct (map !! frameSource t) as [m|]; simpl in *; unfold addTx, txsOf; cbn [tm_transactions]; [rewrite Hno|rewrite lookup_empty]; cbn [tm_transactions]; by rewrite map_to_list_insert. }
  by apply same_by_source.
Qed.
End Ages.

(** ** Admission *)

Section Admission.
Context `{TxHashes} `{StdSort} `{TableOrder} `{HashOrder} `{Crypto}.

(** The transaction continues the pending ones of its account, and the account can pay the fees of all. *)
Definition admissible (lh : LedgerHeader) (D : Entries) (pending : list TransactionFrame) (t : TransactionFrame) : Prop :=
  validAfter lh D (maxSeq pending) t ∧
  ∃ acc, accountAt D (frameSource t) = Some acc ∧ sumFees (t :: pending) <= spendable lh acc.
Definition isPending (q : TransactionQueue) (t : TransactionFrame) : Prop :=
  ∃ u, u ∈ allPending q ∧ frameSource u = frameSource t ∧ getFullHash u = getFullHash t.

(** What each answer means. *)
Definition admission (lh : LedgerHeader) (D : Entries) (t : TransactionFrame) (q : TransactionQueue) (r : AddResult) (q' : TransactionQueue) : Prop :=
  match r with
  | ADD_STATUS_TRY_AGAIN_LATER => isBanned q (getFullHash t) = true ∧ q' = q
  | ADD_STATUS_DUPLICATE => isBanned q (getFullHash t) = false ∧ isPending q t ∧ q' = q
  | ADD_STATUS_ERROR => isBanned q (getFullHash t) = false ∧ ¬ isPending q t ∧
      ¬ admissible lh D (ofSource (frameSource t) (allPending q)) t ∧ q' = q
  | ADD_STATUS_PENDING => isBanned q (getFullHash t) = false ∧ ¬ isPending q t ∧
      admissible lh D (ofSource (frameSource t) (allPending q)) t ∧
      allPending q' ≡ₚ t :: allPending q ∧ mBannedTransactions q' = mBannedTransactions q
  end.

Lemma spendable_max lh D a acc : modern lh → Valid lh D → accountAt D a = Some acc → spendable lh acc <= INT64_MAX.
Proof.
  intros [Hh Hv] HV Ha. destruct (accountAt_Some lh D a acc HV Ha) as (_ & _ & Hb & Hsub & Hl). cbn zeta in Hl. specialize (Hl Hv).
  pose proof (getMinBalance_range lh Hh _ Hsub). unfold spendable, is_i64 in *. simpl in *. lia.
Qed.

Lemma tryAdd_body pd bd q t lh db s :
  queueOk (S pd) bd q → calm lh db s → keyedDb db → modern lh → Valid lh (data <$> db) →
  feesFit (t :: ofSource (frameSource t) (allPending q)) →
  ∃ r res q' s', tryAdd t q s = Ok (r, res, q') s' ∧ calm lh db s' ∧ admission lh (data <$> db) t q r q'.
Proof.
  intros Hq Hc Hk Hm HV [Hf Hs]. set (pending := ofSource (frameSource t) (allPending q)) in *. inversion_clear Hf as [|? ? Ht Hp].
  pose proof (sumFees_nonneg _ Hp) as Hnn. simpl in Hs. pose proof (contains_pending _ _ q t Hq) as Hcon.
  unfold tryAdd. destruct (isBanned q (getFullHash t)) eqn:Eb; [by eexists _, _, q, s|].
  destruct (contains q t) eqn:Ec; [eexists _, _, q, s; split; [done|]; split; [done|]; split; [done|]; by split; [apply Hcon|]|].
  assert (Hnew : ¬ isPending q t) by (intros Hin; by apply Hcon in Hin). rewrite (account_info _ _ q _ Hq). fold pending. cbv zeta.
  unfold infoOf. cbn [mMaxSeq mTotalFees]. rewrite (s64_small (sumFees pending)) by (unfold INT64_MAX in *; lia).
  match goal with |- context [withRootTxn ?m] => destruct (rootTxn lh db s m (λ x, admission lh (data <$> db) t q x.1.1 x.2) Hk Hc) as ([[r res] q'] & s' & E & Hc' & Ha) end.
  - intros id. unfold loadAccount, readEntry, underHeader. keep.
  - intros id. tstep. apply tidy_checkValid; [done|done|]. intros ok res Hok. destruct ok; cbn [negb].
    + assert (Hv : validAfter lh (data <$> db) (maxSeq pending) t) by by apply Hok. apply tidy_balance with (maxSeq pending); [done|done|done|].
      intros acc n Hacc. pose proof (spendable_max lh _ _ _ Hm HV Hacc) as Hmax. assert (Hfee : getFeeBid t <= spendable lh acc).
      { destruct Hv as (_ & _ & _ & acc' & (Ha' & _ & _ & Hle) & _). unfold frameSource, frameTx in Hacc. rewrite Hacc in Ha'. by injection Ha' as <-. }
      rewrite s64_small by (unfold INT64_MAX in *; lia). destruct (Z.ltb_spec (spendable lh acc - getFeeBid t) (sumFees pending)) as [Hlt|Hge].
      * tstep. split_and!; [done|done| |done]. intros (_ & acc' & Ha' & Hle). fold pending in Hle. rewrite Hacc in Ha'. injection Ha' as <-. simpl in Hle. lia.
      * destruct (addPending t q) as [q'|] eqn:Ea; [|exfalso; unfold addPending in Ea; destruct Hq as [Hq _ _]; by destruct (mPendingTransactions q)].
        tstep. split_and!; [done|done| |by eapply addPending_all|by destruct (addPending_cases _ _ _ Ea) as (? & ? & _ & _ & ?)].
        split; [done|]. exists acc. split; [done|]. fold pending. simpl. lia.
    + tstep. split_and!; [done|done| |done]. intros [Hv _]. fold pending in Hv. by apply Hok in Hv.
  - exists r, res, q', s'. done.
Qed.
End Admission.

(** C31: [tryAdd] decides exactly, on every queue that its calls can give: a transaction whose hash is banned is to be
    tried again later, one that is pending already is a duplicate, and any other is accepted if and only if it is valid
    after the greatest sequence number of the pending transactions of its account and the account can pay its fee and
    the fees of all of them: the numbers kept for an account are never stale. An accepted transaction is added to the
    pending ones and changes nothing else, a refused one changes nothing, and the database is as before. The ledger is
    valid and of version 10 or later, and the fees of the account, with the new one, add up to less than 2^63. *)
Theorem admission_exact `{TxHashes} `{StdSort} `{TableOrder} `{HashOrder} `{Crypto} pendingDepth banDepth q t lh db s :
  queueReachable (S pendingDepth) banDepth q → calm lh db s → keyedDb db → modern lh → Valid lh (data <$> db) →
  feesFit (t :: ofSource (frameSource t) (allPending q)) →
  ∃ r res q' s', tryAdd t q s = Ok (r, res, q') s' ∧ calm lh db s' ∧ admission lh (data <$> db) t q r q'.
Proof. intros Hq. apply (tryAdd_body pendingDepth banDepth). by apply queueReachable_ok. Qed.

(** ** Ageing *)

Section Ageing.
Context `{TxHashes} `{StdSort} `{TableOrder} `{HashOrder} `{Crypto}.

(** Transactions with the same hash have the same account. *)
Definition hashesTellSources : Prop := ∀ e e', txFullHash e = txFullHash e' → tx_sourceAccount (tx e) = tx_sourceAccount (tx e').

(** Calls of the queue that do not remove the transaction, with the number of [shift]s among them. *)
Inductive queueRun (t : TransactionFrame) (q : TransactionQueue) : nat → TransactionQueue → Prop :=
| run_start : queueRun t q 0 q
| run_tryAdd n u s r res q1 q2 s' : queueRun t q n q1 → tryAdd u q1 s = Ok (r, res, q2) s' → queueRun t q n q2
| run_remove n drops q1 : queueRun t q n q1 → (∀ u, u ∈ drops → getFullHash u ≠ getFullHash t) → queueRun t q n (remove drops q1)
| run_shift n q1 q2 : queueRun t q n q1 → shift q1 = Some q2 → queueRun t q (S n) q2.

Lemma shifts_run pd bd t q n : (0 < pd)%nat → (0 < bd)%nat → queueOk pd bd q → ∃ q', queueRun t q n q'.
Proof.
  intros Hpd Hbd Hq. enough (Hn : ∃ q', queueRun t q n q' ∧ queueOk pd bd q') by (destruct Hn as (q' & Hr & _); by exists q').
  induction n as [|n (q1 & Hr & Hq1)]; [exists q; by split; [constructor|]|]. destruct (shift_total pd bd q1 Hpd Hbd Hq1) as [q2 Hs].
  exists q2. split; [by eapply run_shift|by eapply shift_ok].
Qed.

Definition holdsHash (map : AccountTxMap) (h : Z) : Prop := ∃ a, is_Some (inMap map a h).

Lemma holds_hashesOf map h : h ∈ hashesOf map ↔ holdsHash map h.
Proof.
  unfold hashesOf, holdsHash, inMap. rewrite elem_of_list_to_set, list_elem_of_bind. split.
  - intros ([a m] & Hh & Hm%elem_of_map_to_list). apply list_elem_of_fmap in Hh as ([h' t] & -> & Ht%elem_of_map_to_list). exists a. rewrite Hm. by exists t.
  - intros (a & t & Ht). apply bind_Some in Ht as (m & Hm & Ht). exists (a, m). rewrite elem_of_map_to_list. split; [|done].
    apply list_elem_of_fmap. exists (h, t). by rewrite elem_of_map_to_list.
Qed.
Lemma holds_empty h : ¬ holdsHash ∅ h.
Proof. intros (a & t & Ht). unfold inMap in Ht. by rewrite lookup_empty in Ht. Qed.
Lemma banned_at q h : isBanned q h = true ↔ ∃ i B, mBannedTransactions q !! i = Some B ∧ h ∈ B.
Proof.
  unfold isBanned. rewrite existsb_exists. setoid_rewrite bool_decide_eq_true. setoid_rewrite <- list_elem_of_In. setoid_rewrite list_elem_of_lookup. naive_solver.
Qed.

Context (Hhash : hashesTellSources).

Lemma holds_source map t : ageOk map → holdsHash map (getFullHash t) ↔ is_Some (inMap map (frameSource t) (getFullHash t)).
Proof.
  intros Hm. split; [|by intros Hs; exists (frameSource t)]. intros (a & u & Hu). pose proof (inMap_keyed _ _ _ _ Hm Hu) as [<- Eh].
  apply Hhash in Eh. unfold frameSource, frameTx in *. rewrite <- Eh. by exists u.
Qed.
Lemma contains_holds pd bd q t : queueOk pd bd q →
  contains q t = true ↔ ∃ i map, mPendingTransactions q !! i = Some map ∧ holdsHash map (getFullHash t).
Proof.
  intros [_ _ Ha]. rewrite contains_inMap. rewrite Forall_forall in Ha. setoid_rewrite list_elem_of_lookup. split.
  - intros (map & [i Hi] & Hs). exists i, map. split; [done|]. by exists (frameSource t).
  - intros (i & map & Hi & Hh). exists map. split; [by exists i|]. apply holds_source; [|done]. apply Ha. by eapply list_elem_of_lookup_2.
Qed.

(** Where the transaction is after [n] shifts. *)
Definition stage (pd bd : nat) (h : Z) (n : nat) (q : TransactionQueue) : Prop :=
  ((n < pd)%nat → (∀ i map, mPendingTransactions q !! i = Some map → (holdsHash map h ↔ i = n)) ∧ isBanned q h = false) ∧
  ((pd <= n < pd + bd)%nat → (∀ i map, mPendingTransactions q !! i = Some map → ¬ holdsHash map h) ∧
     ∀ i B, mBannedTransactions q !! i = Some B → (h ∈ B ↔ i = (n - pd)%nat)) ∧
  (n = (pd + bd)%nat → isBanned q h = false).

Lemma stage_same pd bd h n q q' : (n < pd + bd)%nat → mBannedTransactions q' = mBannedTransactions q →
  (∀ i map', mPendingTransactions q' !! i = Some map' → ∃ map, mPendingTransactions q !! i = Some map ∧ (holdsHash map' h ↔ holdsHash map h)) →
  stage pd bd h n q → stage pd bd h n q'.
Proof.
  intros Hn Eb Hmaps (H1' & H2' & _). assert (Ebn : isBanned q' h = isBanned q h) by (unfold isBanned; by rewrite Eb). split_and!; [| |lia].
  - intros Hlt. destruct (H1' Hlt) as [Hp Hb]. rewrite Ebn. split; [|done]. intros i map' Hi. destruct (Hmaps _ _ Hi) as (map & Hi' & ->). by apply Hp.
  - intros Hle. destruct (H2' Hle) as [Hp Hb]. rewrite Eb. split; [|done]. intros i map' Hi. destruct (Hmaps _ _ Hi) as (map & Hi' & ->). by eapply Hp.
Qed.

Lemma stage_add pd bd n t u q r q' : queueOk pd bd q → answered u q r q' → stage pd bd (getFullHash t) n q → stage pd bd (getFullHash t) n q'.
Proof.
  intros Hq Hr Hst. destruct r; simpl in Hr; [|by subst q'..]. destruct Hr as (Hb & Hc & Hadd).
  destruct (addPending_cases _ _ _ Hadd) as (map & rest & E & E' & Eb). destruct (decide (n < pd + bd)%nat) as [Hn|Hn].
  2: { split_and!; [lia|lia|]. intros En. unfold isBanned. rewrite Eb. by apply Hst. }
  assert (Hne : getFullHash u ≠ getFullHash t).
  { intros Eh. destruct Hst as (S1 & S2 & _). destruct (decide (n < pd)%nat) as [Hlt|Hge].
    - destruct (S1 Hlt) as [Hp _]. apply not_true_iff_false in Hc. destruct Hc. apply (contains_holds pd bd); [done|]. rewrite Eh.
      destruct (lookup_lt_is_Some_2 (mPendingTransactions q) n) as [m Hm]; [by rewrite (qo_pending _ _ _ Hq)|]. exists n, m. split; [done|]. by apply (Hp n m).
    - destruct S2 as [_ S2]; [lia|]. apply not_true_iff_false in Hb. destruct Hb. apply banned_at. rewrite Eh.
      destruct (lookup_lt_is_Some_2 (mBannedTransactions q) (n - pd)) as [B HB]; [rewrite (qo_banned _ _ _ Hq); lia|]. exists (n - pd)%nat, B. split; [done|]. by apply (S2 _ _ HB). }
  apply stage_same with q; [done|done| |done]. rewrite E, E'. intros [|i] map' Hi; simpl in Hi; [|by exists map'].
  injection Hi as <-. exists map. split; [done|]. unfold holdsHash.
  assert (Hno : inMap map (frameSource u) (getFullHash u) = None).
  { destruct (inMap map _ _) eqn:Ei; [|done]. apply not_true_iff_false in Hc. destruct Hc. apply contains_inMap. exists map. rewrite E. split; [left|by eexists]. }
  setoid_rewrite (inMap_add u map _ _ Hno). apply exist_proper. intros a. by rewrite decide_False by (intros [_ ?]; congruence).
Qed.
Lemma stage_remove pd bd n t drops q :
  (∀ u, u ∈ drops → getFullHash u ≠ getFullHash t) → stage pd bd (getFullHash t) n q → stage pd bd (getFullHash t) n (remove drops q).
Proof.
  intros Hd Hst. destruct (decide (n < pd + bd)%nat) as [Hn|Hn]; [|by split_and!; [lia|lia|apply Hst]].
  apply stage_same with q; [done|done| |done]. intros i map' Hi. cbn [remove mPendingTransactions] in Hi. rewrite list_lookup_fmap in Hi.
  destruct (mPendingTransactions q !! i) as [map|]; [|done]. injection Hi as <-. exists map. split; [done|]. apply exist_proper. intros a.
  rewrite inMap_removeFrom, decide_False; [done|]. rewrite Exists_exists. intros (u & Hu & _ & Eh). by apply (Hd u).
Qed.

(** After a shift: what is at each place. *)
Lemma shift_places pd bd q q' : queueOk pd bd q → shift q = Some q' →
  (0 < pd)%nat ∧ (0 < bd)%nat ∧
  (∀ i map, mPendingTransactions q' !! i = Some map → i = O ∧ map = ∅ ∨ ∃ j, i = S j ∧ (S j < pd)%nat ∧ mPendingTransactions q !! j = Some map) ∧
  (∀ i B, mBannedTransactions q' !! i = Some B →
     i = O ∧ (∃ map, mPendingTransactions q !! pred pd = Some map ∧ ∀ h, h ∈ B ↔ holdsHash map h) ∨
     ∃ j, i = S j ∧ (S j < bd)%nat ∧ mBannedTransactions q !! j = Some B).
Proof.
  intros [Hp Hb _] Hs. destruct (shift_cases _ _ Hs) as (oldest & El & Hne & E & E'). rewrite last_lookup, Hp in El.
  assert (Hpos : (0 < pd)%nat) by (rewrite <- Hp; destruct (mPendingTransactions q); simpl; [done|lia]).
  assert (Hbpos : (0 < bd)%nat) by (rewrite <- Hb; destruct (mBannedTransactions q); simpl; [done|lia]).
  split_and!; [done|done| |]; rewrite ?E, ?E', ?Hp, ?Hb; intros [|j] x Hx; simpl in Hx.
  - injection Hx as <-. by left.
  - right. apply lookup_take_Some in Hx as [Hx Hj]. exists j. split_and!; [done|lia|done].
  - injection Hx as <-. left. split; [done|]. exists oldest. split; [done|]. intros h. apply holds_hashesOf.
  - right. apply lookup_take_Some in Hx as [Hx Hj]. exists j. split_and!; [done|lia|done].
Qed.

Lemma not_banned q h : isBanned q h = false ↔ ∀ i B, mBannedTransactions q !! i = Some B → h ∉ B.
Proof. rewrite <- not_true_iff_false, banned_at. naive_solver. Qed.

Lemma stage_shift pd bd h n q q' : queueOk pd bd q → shift q = Some q' → stage pd bd h n q → stage pd bd h (S n) q'.
Proof.
  intros Hq Hs (S1 & S2 & _). destruct (shift_places _ _ _ _ Hq Hs) as (Hpd & Hbd & Hp & Hb). split_and!.
  - intros Hlt. destruct S1 as [Hpq Hbq]; [lia|]. rewrite not_banned in Hbq. split.
    + intros i map Hi. destruct (Hp _ _ Hi) as [[-> ->]|(j & -> & Hj & Hi')]; [split; [by intros ?%holds_empty|done]|]. rewrite (Hpq _ _ Hi'). lia.
    + apply not_banned. intros i B Hi. destruct (Hb _ _ Hi) as [[-> (map & Hm & HB)]|(j & -> & Hj & Hi')]; [|by eapply Hbq]. rewrite HB, (Hpq _ _ Hm). lia.
  - intros Hle. destruct (decide (n < pd)%nat) as [Hlt|Hge].
    + destruct (S1 Hlt) as [Hpq Hbq]. rewrite not_banned in Hbq. split.
      * intros i map Hi. destruct (Hp _ _ Hi) as [[-> ->]|(j & -> & Hj & Hi')]; [apply holds_empty|]. rewrite (Hpq _ _ Hi'). lia.
      * intros i B Hi. destruct (Hb _ _ Hi) as [[-> (map & Hm & HB)]|(j & -> & Hj & Hi')]; [rewrite HB, (Hpq _ _ Hm); lia|].
        split; [intros Hin; by destruct (Hbq _ _ Hi')|lia].
    + destruct S2 as [Hpq Hbq]; [lia|]. split.
      * intros i map Hi. destruct (Hp _ _ Hi) as [[-> ->]|(j & -> & Hj & Hi')]; [apply holds_empty|by eapply Hpq].
      * intros i B Hi. destruct (Hb _ _ Hi) as [[-> (map & Hm & HB)]|(j & -> & Hj & Hi')]; [|rewrite (Hbq _ _ Hi'); lia].
        rewrite HB. split; [intros Hh; by destruct (Hpq _ _ Hm)|lia].
  - intros En. destruct S2 as [Hpq Hbq]; [lia|]. apply not_banned. intros i B Hi.
    destruct (Hb _ _ Hi) as [[-> (map & Hm & HB)]|(j & -> & Hj & Hi')]; [rewrite HB; by eapply Hpq|]. rewrite (Hbq _ _ Hi'). lia.
Qed.

Lemma stage_added pd bd t q q' : queueOk pd bd q → answered t q ADD_STATUS_PENDING q' → stage pd bd (getFullHash t) 0 q'.
Proof.
  intros Hq (Hb & Hc & Hadd). destruct (addPending_cases _ _ _ Hadd) as (map & rest & E & E' & Eb).
  assert (Hb' : isBanned q' (getFullHash t) = false) by (unfold isBanned; by rewrite Eb). split_and!; [|rewrite <- (qo_pending _ _ _ Hq), E; simpl; lia|done].
  intros _. split; [|done]. apply not_true_iff_false in Hc. rewrite E'. intros [|i] map' Hi; simpl in Hi.
  - injection Hi as <-. split; [done|]. intros _. exists (frameSource t). rewrite inMap_add.
    + rewrite decide_True by done. by eexists.
    + destruct (inMap map _ _) eqn:Ei; [|done]. destruct Hc. apply contains_inMap. exists map. rewrite E. split; [left|by eexists].
  - split; [|done]. intros Hh. destruct Hc. apply (contains_holds pd bd); [done|]. exists (S i), map'. by rewrite E.
Qed.

Lemma stage_run pd bd t q n q' : queueOk pd bd q → stage pd bd (getFullHash t) 0 q → queueRun t q n q' →
  queueOk pd bd q' ∧ stage pd bd (getFullHash t) n q'.
Proof.
  intros Hq Hst. induction 1 as [|n u s r res q1 q2 s' _ [Hq1 Hs1] Hadd|n drops q1 _ [Hq1 Hs1] Hd|n q1 q2 _ [Hq1 Hs1] Hs].
  - done.
  - pose proof (tryAdd_answered u q1 s _ _ Hadd) as Ha. split; [exact (answered_ok pd bd u q1 r q2 Hq1 Ha)|exact (stage_add pd bd n t u q1 r q2 Hq1 Ha Hs1)].
  - split; [by apply remove_ok|by apply stage_remove].
  - split; [by apply shift_ok with q1|by apply stage_shift with q1].
Qed.
End Ageing.

(** C32: what becomes of a transaction that [tryAdd] has accepted, whatever other calls are made on the queue, as long as
    none removes it: for as many ledgers as the queue is deep it stays pending and is not banned; then it is banned, is no
    longer pending, and is refused, for exactly as many ledgers as bans last; then the ban is lifted. No [shift] fails. The
    depths are those of any queue, and hashes of transactions of different accounts must be different. *)
Theorem pending_then_banned `{TxHashes} `{StdSort} `{TableOrder} `{HashOrder} `{Crypto} pendingDepth banDepth q t s res q1 s1 n q2 :
  hashesTellSources → queueReachable pendingDepth banDepth q →
  tryAdd t q s = Ok (ADD_STATUS_PENDING, res, q1) s1 → queueRun t q1 n q2 →
  ((n < pendingDepth)%nat → contains q2 t = true ∧ isBanned q2 (getFullHash t) = false) ∧
  ((pendingDepth <= n < pendingDepth + banDepth)%nat → contains q2 t = false ∧ isBanned q2 (getFullHash t) = true ∧
     ∀ s', tryAdd t q2 s' = Ok (ADD_STATUS_TRY_AGAIN_LATER, None, q2) s') ∧
  (n = (pendingDepth + banDepth)%nat → isBanned q2 (getFullHash t) = false) ∧
  ((0 < banDepth)%nat → ∃ q3, shift q2 = Some q3).
Proof.
  intros Hhash Hr Hadd Hrun. apply queueReachable_ok in Hr. pose proof (tryAdd_answered t q s _ _ Hadd) as Ha.
  pose proof (answered_ok _ _ _ _ _ _ Hr Ha) as Hq1.
  destruct (stage_run Hhash _ _ t q1 n q2 Hq1 (stage_added Hhash _ _ _ _ _ Hr Ha) Hrun) as [Hq2 (S1 & S2 & S3)].
  assert (Hpos : (0 < pendingDepth)%nat).
  { rewrite <- (qo_pending _ _ _ Hr). destruct Ha as (_ & _ & Ha). destruct (addPending_cases _ _ _ Ha) as (? & ? & -> & _). simpl. lia. }
  split_and!; [| |done|].
  - intros Hlt. destruct (S1 Hlt) as [Hp Hb]. split; [|done]. apply (contains_holds Hhash _ _ q2 t Hq2).
    destruct (lookup_lt_is_Some_2 (mPendingTransactions q2) n) as [m Hm]; [by rewrite (qo_pending _ _ _ Hq2)|]. exists n, m. split; [done|]. by apply (Hp n m).
  - intros Hle. destruct (S2 Hle) as [Hp Hb]. assert (Hban : isBanned q2 (getFullHash t) = true).
    { apply banned_at. destruct (lookup_lt_is_Some_2 (mBannedTransactions q2) (n - pendingDepth)) as [B HB]; [rewrite (qo_banned _ _ _ Hq2); lia|].
      exists (n - pendingDepth)%nat, B. split; [done|]. by apply (Hb _ _ HB). }
    split_and!; [|done|intros s'; unfold tryAdd; by rewrite Hban]. apply not_true_iff_false. rewrite (contains_holds Hhash _ _ q2 t Hq2).
    intros (i & map & Hi & Hh). by eapply Hp.
  - intros Hbd. by apply (shift_total pendingDepth banDepth).
Qed.

(** ** Examples *)

(** Hashes that tell the account and the sequence number. *)
Definition pairHashes : TxHashes :=
  {| txContentsHash := λ _, 99; txFullHash := λ e, Z.pos (encode (tx_sourceAccount (tx e), tx_seqNum (tx e))); txSetHash := λ p _, p |}.
Definition exampleAdd (t : TransactionFrame) (q : TransactionQueue) : outcome Ledger (AddResult * option TransactionResult * TransactionQueue) :=
  tryAdd (H := pairHashes) (H3 := toyCrypto) t q calmLedger.
Definition emptyQueue : TransactionQueue := newQueue TRANSACTION_QUEUE_SIZE TRANSACTION_QUEUE_BAN_SIZE.
(** The transaction with sequence number 4 of the account 5 is pending. *)
Definition queueWith4 : TransactionQueue := match exampleAdd (pendingFee 0 4) emptyQueue with Ok (_, _, q) _ => q | _ => emptyQueue end.

Lemma added4 : ∃ res s', exampleAdd (pendingFee 0 4) emptyQueue = Ok (ADD_STATUS_PENDING, res, queueWith4) s'.
Proof.
  unfold queueWith4. assert (E : match exampleAdd (pendingFee 0 4) emptyQueue with Ok (ADD_STATUS_PENDING, _, _) _ => true | _ => false end = true)
    by (vm_compute; reflexivity).
  destruct (exampleAdd (pendingFee 0 4) emptyQueue) as [[[[] res] q] s'| | |]; try discriminate E. by exists res, s'.
Qed.
Lemma pairHashes_tell : hashesTellSources (H := pairHashes).
Proof. intros e e' E. injection E as E. apply (inj encode) in E. by injection E. Qed.

Lemma queueWith4_reachable : queueReachable (H := pairHashes) (H1 := keys_TableOrder) (H3 := toyCrypto) TRANSACTION_QUEUE_SIZE TRANSACTION_QUEUE_BAN_SIZE queueWith4.
Proof.
  destruct added4 as (res & s' & E). unfold exampleAdd in E.
  exact (reach_tryAdd _ _ emptyQueue (pendingFee 0 4) calmLedger ADD_STATUS_PENDING res queueWith4 s' (reach_newQueue _ _) E).
Qed.
Lemma queueWith4_ok : queueOk (H := pairHashes) TRANSACTION_QUEUE_SIZE TRANSACTION_QUEUE_BAN_SIZE queueWith4.
Proof. exact (queueReachable_ok (H := pairHashes) (H1 := keys_TableOrder) (H3 := toyCrypto) _ _ _ queueWith4_reachable). Qed.
Lemma queueWith4_pending : allPending queueWith4 = [pendingFee 0 4].
Proof. vm_compute. reflexivity. Qed.

Lemma admission_exact_witness :
  (∃ res q' s', exampleAdd (pendingFee 1 5) queueWith4 = Ok (ADD_STATUS_PENDING, res, q') s' ∧ allPending q' ≡ₚ [pendingFee 1 5; pendingFee 0 4]) ∧
  admissible (H := pairHashes) (H3 := toyCrypto) opHeader (data <$> rootEntries opRoot) [pendingFee 0 4] (pendingFee 1 5).
Proof.
  destruct (admission_exact (H := pairHashes) (H0 := insertion_StdSort) (H1 := keys_TableOrder) (H3 := toyCrypto)
    3 TRANSACTION_QUEUE_BAN_SIZE queueWith4 (pendingFee 1 5) opHeader (rootEntries opRoot) calmLedger queueWith4_reachable
    (Build_calm _ _ calmLedger eq_refl eq_refl) (rp_keyed _ _ _ pending_ready) (rp_modern _ _ _ pending_ready) (rp_valid _ _ _ pending_ready))
    as (r & res & q' & s' & E & _ & Ha).
  { rewrite queueWith4_pending. split; [repeat constructor; by vm_compute|by vm_compute]. }
  change (exampleAdd (pendingFee 1 5) queueWith4 = Ok (r, res, q') s') in E.
  assert (Er : match exampleAdd (pendingFee 1 5) queueWith4 with Ok (r, _, _) _ => Some r | _ => None end = Some ADD_STATUS_PENDING) by (vm_compute; reflexivity).
  rewrite E in Er. injection Er as ->. destruct Ha as (_ & _ & Hadm & Hall & _). rewrite queueWith4_pending in Hall, Hadm.
  split; [exists res, q', s'; split; [exact E|exact Hall]|exact Hadm].
Defined.

(** Three ledgers later the transaction is still pending, four later it is banned, and for ten ledgers. *)
Lemma pending_then_banned_witness :
  let run := queueRun (H := pairHashes) (H1 := keys_TableOrder) (H3 := toyCrypto) (pendingFee 0 4) queueWith4 in
  let known q := contains (H := pairHashes) q (pendingFee 0 4) in
  let banned q := isBanned q (getFullHash (H := pairHashes) (pendingFee 0 4)) in
  ∃ q3 q4 q13 q14, (run 3%nat q3 ∧ known q3 = true ∧ banned q3 = false) ∧ (run 4%nat q4 ∧ known q4 = false ∧ banned q4 = true) ∧
    (run 13%nat q13 ∧ banned q13 = true) ∧ (run 14%nat q14 ∧ banned q14 = false).
Proof.
  intros run known banned. destruct added4 as (res & s' & E). unfold exampleAdd in E.
  assert (Hall : ∀ n, ∃ q, run n q ∧ ((n < 4)%nat → known q = true ∧ banned q = false) ∧
    ((4 <= n < 14)%nat → known q = false ∧ banned q = true) ∧ (n = 14%nat → banned q = false)).
  { intros n. destruct (shifts_run (H := pairHashes) (H1 := keys_TableOrder) (H3 := toyCrypto) TRANSACTION_QUEUE_SIZE TRANSACTION_QUEUE_BAN_SIZE
      (pendingFee 0 4) queueWith4 n (Nat.lt_0_succ _) (Nat.lt_0_succ _) queueWith4_ok) as [q Hq]. exists q. split; [exact Hq|].
    destruct (pending_then_banned (H := pairHashes) (H0 := insertion_StdSort) (H1 := keys_TableOrder) (H3 := toyCrypto)
      TRANSACTION_QUEUE_SIZE TRANSACTION_QUEUE_BAN_SIZE emptyQueue (pendingFee 0 4) calmLedger res queueWith4 s' n q pairHashes_tell
      (reach_newQueue _ _) E Hq) as (P1 & P2 & P3 & _).
    split; [exact P1|]. split; [intros Hn; destruct (P2 Hn) as (Ha & Hb & _); split; [exact Ha|exact Hb]|exact P3]. }
  destruct (Hall 3%nat) as (q3 & R3 & K3 & _). destruct (Hall 4%nat) as (q4 & R4 & _ & K4 & _).
  destruct (Hall 13%nat) as (q13 & R13 & _ & K13 & _). destruct (Hall 14%nat) as (q14 & R14 & _ & _ & K14). exists q3, q4, q13, q14.
  split; [split; [exact R3|apply K3; lia]|]. split; [split; [exact R4|apply K4; lia]|].
  split; [split; [exact R13|apply K13; lia]|]. split; [exact R14|]. apply K14. reflexivity.
Defined.
