(* ===== verification/QuorumSet.v ===== *)
(** * Quorum sets: the data of [vii-SCP.x] and [scp/QuorumSetUtils.cpp]

    The recursive structure [SCPQuorumSet], the sanity check that every received
    quorum set must pass ([isQuorumSetSane]) and the normalisation that a node
    applies to its own set ([normalizeQSet]). *)
From stdpp Require Import base list sorting gmap.
From S2P Require Import Prelude.

(** A public key is the integer of its 32 bytes, most significant byte first, so
    that the source's lexicographic comparison of keys is the order of [Z]. *)
Notation NodeID := Z (only parsing).
Notation Hash := Z (only parsing).

Inductive SCPQuorumSet : Type :=
| QSet (threshold : Z) (validators : list NodeID) (innerSets : list SCPQuorumSet).

Definition threshold (q : SCPQuorumSet) : Z := match q with QSet t _ _ => t end.
Definition validators (q : SCPQuorumSet) : list NodeID := match q with QSet _ v _ => v end.
Definition innerSets (q : SCPQuorumSet) : list SCPQuorumSet := match q with QSet _ _ i => i end.

(** The induction principle that reaches the inner sets. *)
Lemma qset_ind (P : SCPQuorumSet → Prop) :
  (∀ t v i, Forall P i → P (QSet t v i)) → ∀ q, P q.
Proof.
  intros IH. fix rec 1. intros [t v i]. apply IH.
  induction i as [|q i IHi]; constructor; [apply rec|apply IHi].
Qed.

(** ** Sanity *)

(** The number of entries of a set, and the nodes it mentions, in the order in
    which they are visited. *)
Definition totEntries (q : SCPQuorumSet) : Z :=
  Z.of_nat (length (validators q)) + Z.of_nat (length (innerSets q)).

Fixpoint allNodes (q : SCPQuorumSet) : list NodeID :=
  match q with QSet _ v i => v ++ flat_map allNodes i end.

(** [QuorumSetSanityChecker]: [mKnownNodes] and [mCount] are threaded through the
    traversal; [None] is the early [return false]. *)
Record Checker := mkChecker { mKnownNodes : gset NodeID; mCount : Z }.

Fixpoint insertAll (v : list NodeID) (known : gset NodeID) : option (gset NodeID) :=
  match v with
  | [] => Some known
  | n :: v => if decide (n ∈ known) then None else insertAll v ({[n]} ∪ known)
  end.

Section CheckInner.
Variable check : SCPQuorumSet → Checker → option Checker.
Fixpoint checkInner (l : list SCPQuorumSet) (st : Checker) : option Checker :=
  match l with
  | [] => Some st
  | q :: l => match check q st with Some st' => checkInner l st' | None => None end
  end.
End CheckInner.

Fixpoint checkSanity (extraChecks : bool) (q : SCPQuorumSet) (depth : Z) (st : Checker)
    {struct q} : option Checker :=
  match q with
  | QSet t v i =>
    if 2 <? depth then None else
    if t <? 1 then None else
    let totEntries := Z.of_nat (length v) + Z.of_nat (length i) in
    let vBlockingSize := u64 (totEntries - t + 1) in
    let count := mCount st + Z.of_nat (length v) in
    if totEntries <? t then None else
    if extraChecks && (t <? vBlockingSize) then None else
    match insertAll v (mKnownNodes st) with
    | None => None
    | Some known =>
      checkInner (λ q' st', checkSanity extraChecks q' (depth + 1) st') i (mkChecker known count)
    end
  end.

Definition isQuorumSetSane (q : SCPQuorumSet) (extraChecks : bool) : bool :=
  match checkSanity extraChecks q 0 (mkChecker ∅ 0) with
  | Some st => (1 <=? mCount st) && (mCount st <=? 1000)
  | None => false
  end.

(** What the sanity check promises, stated on the structure of the set; [f] is
    the identity, or the 64-bit wrap-around of the source. *)
Fixpoint thresholdsOkF (f : Z → Z) (extraChecks : bool) (depth : Z) (q : SCPQuorumSet) : Prop :=
  match q with
  | QSet t v i =>
    let tot := Z.of_nat (length v) + Z.of_nat (length i) in
    depth <= 2 ∧ 1 <= t <= tot ∧ (extraChecks = true → f (tot - t + 1) <= t) ∧
    foldr (λ q' P, thresholdsOkF f extraChecks (depth + 1) q' ∧ P) True i
  end.
Definition thresholdsOk : bool → Z → SCPQuorumSet → Prop := thresholdsOkF id.

Lemma foldr_and_Forall {A} (P : A → Prop) l : foldr (λ x R, P x ∧ R) True l ↔ Forall P l.
Proof.
  induction l as [|x l IH]; simpl; [split; [constructor|done]|].
  rewrite IH, Forall_cons. done.
Qed.

Lemma insertAll_spec v known known' :
  insertAll v known = Some known' ↔
  NoDup v ∧ (∀ x, x ∈ v → x ∉ known) ∧ known' = list_to_set v ∪ known.
Proof.
  revert known. induction v as [|n v IH]; intros known; simpl.
  - split; [|intros (_ & _ & ->); f_equal; set_solver].
    intros [= <-]. split_and!; [constructor|set_solver|set_solver].
  - destruct (decide (n ∈ known)) as [Hn|Hn].
    + split; [done|]. intros (_ & Hk & _). exfalso. apply (Hk n); set_solver.
    + rewrite IH, NoDup_cons. split; intros Hc; destruct_and!; split_and!; set_solver.
Qed.

(** The effect of a successful traversal of [nodes] on the checker's state. *)
Definition visited (nodes : list NodeID) (ok : Prop) (st st' : Checker) : Prop :=
  ok ∧ NoDup nodes ∧ (∀ x, x ∈ nodes → x ∉ mKnownNodes st) ∧
  st' = mkChecker (list_to_set nodes ∪ mKnownNodes st) (mCount st + Z.of_nat (length nodes)).

Lemma visited_app l k P Q st st2 :
  visited (l ++ k) (P ∧ Q) st st2 ↔ ∃ st1, visited l P st st1 ∧ visited k Q st1 st2.
Proof.
  unfold visited. rewrite NoDup_app, length_app. split.
  - intros ([HP HQ] & (Hl & Hd & Hk) & Hn & ->). eexists. split.
    + split_and!; [done|done|intros x Hx; apply Hn; set_solver|reflexivity].
    + simpl. split_and!; [done|done| |f_equal; [set_solver|lia]].
      intros x Hx. specialize (Hd x). specialize (Hn x). set_solver.
  - intros (st1 & (HP & Hl & Hn & ->) & (HQ & Hk & Hn' & ->)). simpl in *.
    split_and!; [done|done|done| |done| |f_equal; [set_solver|lia]].
    + intros x Hx Hx'. specialize (Hn' x). set_solver.
    + intros x. specialize (Hn x). specialize (Hn' x). set_solver.
Qed.

Lemma visited_nil P st st' : visited [] P st st' ↔ P ∧ st' = st.
Proof.
  unfold visited. destruct st as [k c]. simpl. rewrite Z.add_0_r, (left_id_L ∅ (∪)).
  split; [naive_solver|]. intros [? ->]. split_and!; [done|constructor|set_solver|done].
Qed.

Lemma visited_iff nodes P Q st st' : (P ↔ Q) → visited nodes P st st' ↔ visited nodes Q st st'.
Proof. unfold visited. tauto. Qed.

Lemma checkInner_spec e d i st st' :
  Forall (λ q, ∀ d st st', checkSanity e q d st = Some st' ↔
                 visited (allNodes q) (thresholdsOkF u64 e d q) st st') i →
  checkInner (λ q' st', checkSanity e q' d st') i st = Some st' ↔
  visited (flat_map allNodes i) (Forall (thresholdsOkF u64 e d) i) st st'.
Proof.
  intros Hi. revert st. induction Hi as [|q i Hq Hi IH]; intros st; simpl.
  { rewrite visited_nil. split; [by intros [= ->]|by intros [_ ->]]. }
  rewrite (visited_iff _ _ (thresholdsOkF u64 e d q ∧ Forall (thresholdsOkF u64 e d) i))
    by apply Forall_cons.
  rewrite visited_app. split.
  - destruct (checkSanity e q d st) as [st1|] eqn:E; [|done].
    rewrite IH. intros H2. exists st1. split; [by apply Hq|done].
  - intros (st1 & H1 & H2). apply Hq in H1 as ->. by apply IH.
Qed.

Lemma checkSanity_spec e q d st st' :
  checkSanity e q d st = Some st' ↔ visited (allNodes q) (thresholdsOkF u64 e d q) st st'.
Proof.
  revert d st st'. induction q as [t v i IH] using qset_ind. intros d st st'. simpl.
  set (tot := Z.of_nat (length v) + Z.of_nat (length i)).
  set (ok := d <= 2 ∧ 1 <= t <= tot ∧ (e = true → u64 (tot - t + 1) <= t)).
  rewrite (visited_iff _ _ (ok ∧ Forall (thresholdsOkF u64 e (d + 1)) i)), visited_app
    by (subst ok; rewrite foldr_and_Forall; tauto).
  assert (¬ ok → None = Some st' ↔
    ∃ st1, visited v ok st st1 ∧ visited (flat_map allNodes i) (Forall (thresholdsOkF u64 e (d + 1)) i) st1 st')
    as Hno by (intros Hok; split; [done|]; unfold visited; naive_solver).
  destruct (Z.ltb_spec 2 d); [apply Hno; subst ok; lia|].
  destruct (Z.ltb_spec t 1); [apply Hno; subst ok; lia|].
  destruct (Z.ltb_spec tot t); [apply Hno; subst ok; lia|].
  destruct (e && (t <? u64 (tot - t + 1))) eqn:Ee.
  { propify. apply Hno. subst ok. intros (_ & _ & Hc). specialize (Hc ltac:(done)). lia. }
  assert ok as Hok by (subst ok; split_and!; try lia; intros ->; simpl in Ee; propify; lia).
  clear Hno. split.
  - destruct (insertAll v (mKnownNodes st)) as [known|] eqn:Ei; [|done].
    apply insertAll_spec in Ei as (Hnv & Hdv & ->). rewrite checkInner_spec by done.
    intros Hv. eexists. split; [|exact Hv]. by unfold visited.
  - intros (st1 & (_ & Hnv & Hdv & ->) & Hi).
    rewrite (proj2 (insertAll_spec v (mKnownNodes st) (list_to_set v ∪ mKnownNodes st))) by done.
    by apply checkInner_spec.
Qed.

Lemma thresholdsOkF_nonempty f e d q : thresholdsOkF f e d q → 1 <= Z.of_nat (length (allNodes q)).
Proof.
  revert d. induction q as [t v i IH] using qset_ind; intros d. simpl.
  rewrite foldr_and_Forall, length_app. intros (_ & Ht & _ & Hi).
  destruct v as [|x v]; simpl in *; [|lia]. destruct IH as [|q i Hq IH]; simpl in *; [lia|].
  apply Forall_cons in Hi as [Hi _]. specialize (Hq _ Hi). rewrite length_app. lia.
Qed.

Lemma thresholdsOkF_entries f e d q :
  thresholdsOkF f e d q → totEntries q <= Z.of_nat (length (allNodes q)).
Proof.
  destruct q as [t v i]. unfold totEntries. simpl. rewrite foldr_and_Forall, length_app.
  intros (_ & _ & _ & Hi). induction Hi as [|q i Hq Hi IH]; simpl; [lia|].
  rewrite length_app. apply thresholdsOkF_nonempty in Hq. lia.
Qed.

Lemma length_flat_map_elem {A B} (f : A → list B) x l :
  x ∈ l → (length (f x) <= length (flat_map f l))%nat.
Proof.
  induction l as [|y l IH]; intros Hx; [set_solver|]. simpl. rewrite length_app.
  apply elem_of_cons in Hx as [->|Hx]; [|apply IH in Hx]; lia.
Qed.

Lemma thresholdsOkF_small e d q :
  Z.of_nat (length (allNodes q)) <= 1000 → thresholdsOkF u64 e d q ↔ thresholdsOk e d q.
Proof.
  unfold thresholdsOk. revert d. induction q as [t v i IH] using qset_ind. intros d Hsz.
  assert (∀ f, thresholdsOkF f e d (QSet t v i) →
    u64 (Z.of_nat (length v) + Z.of_nat (length i) - t + 1) =
    Z.of_nat (length v) + Z.of_nat (length i) - t + 1) as Hu.
  { intros f Hf. pose proof (thresholdsOkF_entries _ _ _ _ Hf) as Hte. unfold totEntries in Hte.
    simpl in Hte, Hf, Hsz. apply u64_small. unfold is_u64, UINT64_MAX. lia. }
  simpl in Hsz. rewrite length_app in Hsz.
  assert (Forall (thresholdsOkF u64 e (d + 1)) i ↔ Forall (thresholdsOkF id e (d + 1)) i) as Hi.
  { rewrite !Forall_forall in *. split; intros Hq q Hin; specialize (Hq q Hin);
      (apply (IH q Hin (d + 1)); [|done]);
      pose proof (length_flat_map_elem allNodes q i Hin); lia. }
  split; intros Hok; specialize (Hu _ Hok); simpl in Hok |- *;
    rewrite foldr_and_Forall in Hok |- *; rewrite Hi in *; unfold id in *; rewrite Hu in *; tauto.
Qed.

(** The checker decides exactly this: nesting depth at most two, every threshold
    between one and the number of entries (a majority when [extraChecks]), no
    node listed twice, and between one and a thousand nodes. *)
Lemma isQuorumSetSane_iff q extraChecks :
  isQuorumSetSane q extraChecks = true ↔
  thresholdsOk extraChecks 0 q ∧ NoDup (allNodes q) ∧
  1 <= Z.of_nat (length (allNodes q)) <= 1000.
Proof.
  unfold isQuorumSetSane. split.
  - destruct (checkSanity _ _ _ _) as [st|] eqn:E; [|done].
    apply checkSanity_spec in E as (Ht & Hn & _ & ->). simpl. intros ?. propify.
    split_and!; try lia; [|done]. apply thresholdsOkF_small; [lia|done].
  - intros (Ht & Hn & Hl). apply thresholdsOkF_small in Ht; [|lia].
    rewrite (proj2 (checkSanity_spec _ _ _ _ _)) by (split_and!; [done|done|intros ??; set_solver|reflexivity]).
    simpl. rewrite andb_true_iff, !Z.leb_le. lia.
Qed.

(** ** Normalisation *)

Section SimplifyInner.
Variable simplify : SCPQuorumSet → SCPQuorumSet.
(** The [while] loop over [qSet.innerSets]: a simplified inner set that is a
    singleton moves to the end of the validators. *)
Fixpoint simplifyInner (v : list NodeID) (l : list SCPQuorumSet)
    : list NodeID * list SCPQuorumSet :=
  match l with
  | [] => (v, [])
  | q :: l =>
    match simplify q with
    | QSet 1 [n] [] => simplifyInner (v ++ [n]) l
    | q' => let '(v', r) := simplifyInner v l in (v', q' :: r)
    end
  end.
End SimplifyInner.

Definition isNode (n : NodeID) (m : NodeID) : bool := m =? n.

Fixpoint normalizeQSetSimplify (idToRemove : option NodeID) (q : SCPQuorumSet) : SCPQuorumSet :=
  match q with
  | QSet t v i =>
    let t' := match idToRemove with Some n => u32 (t - u32 (count (isNode n) v)) | None => t end in
    let v' := match idToRemove with
              | Some n => List.filter (λ m, negb (isNode n m)) v | None => v end in
    let '(v2, i2) := simplifyInner (normalizeQSetSimplify idToRemove) v' i in
    match i2 with
    | [q'] => if (t' =? 1) && (length v2 =? 0)%nat then q' else QSet t' v2 i2
    | _ => QSet t' v2 i2
    end
  end.

Section Compare.
Context {A : Type} (comp : A → A → Z).
Fixpoint intLexicographicalCompare (l k : list A) : Z :=
  match l, k with
  | x :: l, y :: k => let c := comp x y in if c =? 0 then intLexicographicalCompare l k else c
  | [], _ :: _ => -1
  | _ :: _, [] => 1
  | [], [] => 0
  end.
End Compare.

Definition compareKeys (l r : NodeID) : Z := if l <? r then -1 else if r <? l then 1 else 0.

Fixpoint qSetCompareInt (l r : SCPQuorumSet) {struct l} : Z :=
  match l, r with
  | QSet tl vl il, QSet tr vr ir =>
    let res := intLexicographicalCompare compareKeys vl vr in
    if negb (res =? 0) then res else
    let res := intLexicographicalCompare qSetCompareInt il ir in
    if negb (res =? 0) then res else
    if tl <? tr then -1 else if tl =? tr then 0 else 1
  end.

Definition qset_le (l r : SCPQuorumSet) : Prop := qSetCompareInt l r <= 0.
#[global] Instance qset_le_dec l r : Decision (qset_le l r).
Proof. unfold qset_le. apply _. Defined.

Fixpoint normalizeQuorumSetReorder (q : SCPQuorumSet) : SCPQuorumSet :=
  match q with
  | QSet t v i => QSet t (merge_sort Z.le v) (merge_sort qset_le (map normalizeQuorumSetReorder i))
  end.

Definition normalizeQSet (q : SCPQuorumSet) (idToRemove : option NodeID) : SCPQuorumSet :=
  normalizeQuorumSetReorder (normalizeQSetSimplify idToRemove q).

(** [isQuorumSetSane] accepts exactly the quorum sets with at most three
    levels, thresholds between one and the number of entries (and at least the
    v-blocking size when the extra checks are on), no node listed twice, and
    between 1 and 1000 nodes in all. *)
Theorem sane_quorum_set_iff q extraChecks :
  isQuorumSetSane q extraChecks = true ↔
  thresholdsOk extraChecks 0 q ∧ NoDup (allNodes q) ∧ 1 <= Z.of_nat (length (allNodes q)) <= 1000.
Proof. apply isQuorumSetSane_iff. Qed.
