(* ===== verification/Statement.v ===== *)
(** * SCP messages: [vii-SCP.x] and the static functions of [scp/BallotProtocol.cpp]
    and [scp/NominationProtocol.cpp]

    Ballots and their order, the four kinds of statements, what a statement
    claims ([hasPreparedBallot], [commitPredicate], ...) and when one statement
    of a node supersedes another ([isNewerStatement]). The [default] branches of
    the source that abort on a nomination return a neutral value here: the ballot
    protocol records ballot statements only, see [ballot_invariant] in
    [SlotTheorems]. *)
From stdpp Require Import base list sorting gmap.
From S2P Require Import Prelude QuorumSet.

(** [typedef opaque Value<>]: a byte string. *)
Notation Value := (list Z) (only parsing).

Record SCPBallot := mkBallot { counter : Z; value : Value }.
#[global] Instance SCPBallot_eq_dec : EqDecision SCPBallot.
Proof. solve_decision. Defined.

(** The default-constructed [SCPBallot()]. *)
Definition ballot0 : SCPBallot := mkBallot 0 [].

Inductive SCPStatementType := SCP_ST_PREPARE | SCP_ST_CONFIRM | SCP_ST_EXTERNALIZE | SCP_ST_NOMINATE.
#[global] Instance SCPStatementType_eq_dec : EqDecision SCPStatementType.
Proof. solve_decision. Defined.
Definition typeNum (t : SCPStatementType) : Z :=
  match t with
  | SCP_ST_PREPARE => 0 | SCP_ST_CONFIRM => 1 | SCP_ST_EXTERNALIZE => 2 | SCP_ST_NOMINATE => 3
  end.

Record Prepare := mkPrepare {
  p_quorumSetHash : Hash;
  p_ballot : SCPBallot;
  p_prepared : option SCPBallot;
  p_preparedPrime : option SCPBallot;
  p_nC : Z;
  p_nH : Z }.
Record Confirm := mkConfirm {
  c_ballot : SCPBallot;
  c_nPrepared : Z;
  c_nCommit : Z;
  c_nH : Z;
  c_quorumSetHash : Hash }.
Record Externalize := mkExternalize {
  e_commit : SCPBallot;
  e_nH : Z;
  e_commitQuorumSetHash : Hash }.
Record SCPNomination := mkNomination {
  n_quorumSetHash : Hash;
  n_votes : list Value;
  n_accepted : list Value }.

#[global] Instance Prepare_eq_dec : EqDecision Prepare.
Proof. solve_decision. Defined.
#[global] Instance Confirm_eq_dec : EqDecision Confirm.
Proof. solve_decision. Defined.
#[global] Instance Externalize_eq_dec : EqDecision Externalize.
Proof. solve_decision. Defined.
#[global] Instance SCPNomination_eq_dec : EqDecision SCPNomination.
Proof. solve_decision. Defined.

Inductive Pledges :=
| prepare (p : Prepare) | confirm (c : Confirm) | externalize (e : Externalize)
| nominate (n : SCPNomination).
#[global] Instance Pledges_eq_dec : EqDecision Pledges.
Proof. solve_decision. Defined.
Definition pledges_type (p : Pledges) : SCPStatementType :=
  match p with
  | prepare _ => SCP_ST_PREPARE | confirm _ => SCP_ST_CONFIRM
  | externalize _ => SCP_ST_EXTERNALIZE | nominate _ => SCP_ST_NOMINATE
  end.

Record SCPStatement := mkStatement { nodeID : NodeID; slotIndex : Z; pledges : Pledges }.
Record SCPEnvelope := mkEnvelope { statement : SCPStatement; signature : list Z }.
#[global] Instance SCPStatement_eq_dec : EqDecision SCPStatement.
Proof. solve_decision. Defined.
#[global] Instance SCPEnvelope_eq_dec : EqDecision SCPEnvelope.
Proof. solve_decision. Defined.

(** ** Ballots *)

Definition compareBallots (b1 b2 : SCPBallot) : Z :=
  if counter b1 <? counter b2 then -1
  else if counter b2 <? counter b1 then 1
  else if ltb (value b1) (value b2) then -1
  else if ltb (value b2) (value b1) then 1
  else 0.

Definition compareBallotPtrs (b1 b2 : option SCPBallot) : Z :=
  match b1, b2 with
  | Some b1, Some b2 => compareBallots b1 b2
  | Some _, None => 1
  | None, Some _ => -1
  | None, None => 0
  end.

Definition areBallotsCompatible (b1 b2 : SCPBallot) : bool := bool_decide (value b1 = value b2).
Definition areBallotsLessAndIncompatible (b1 b2 : SCPBallot) : bool :=
  (compareBallots b1 b2 <=? 0) && negb (areBallotsCompatible b1 b2).
Definition areBallotsLessAndCompatible (b1 b2 : SCPBallot) : bool :=
  (compareBallots b1 b2 <=? 0) && areBallotsCompatible b1 b2.

(** The comparison of ballots is a total order; [std::set<SCPBallot>] uses the
    same order (field by field). *)
Definition ballot_ltb (b1 b2 : SCPBallot) : bool := compareBallots b1 b2 <? 0.

Lemma compareBallots_lt b1 b2 :
  compareBallots b1 b2 < 0 ↔
  counter b1 < counter b2 ∨ counter b1 = counter b2 ∧ ltb (value b1) (value b2) = true.
Proof.
  unfold compareBallots.
  destruct (Z.ltb_spec (counter b1) (counter b2)), (Z.ltb_spec (counter b2) (counter b1)); try lia.
  destruct (ltb (value b1) (value b2)) eqn:E1; [lia|].
  destruct (ltb (value b2) (value b1)); (split; [lia|]; intros [?|[_ ?]]; [lia|done]).
Qed.

Lemma compareBallots_flip b1 b2 : compareBallots b2 b1 = - compareBallots b1 b2.
Proof.
  unfold compareBallots.
  destruct (Z.ltb_spec (counter b1) (counter b2)), (Z.ltb_spec (counter b2) (counter b1)); try lia.
  destruct (ltb_cases (value b1) (value b2)) as [[E1 E2]|[[E1 E2]|E]];
    [by rewrite E1, E2|by rewrite E1, E2|]. by rewrite E, !ltb_irrefl.
Qed.

Lemma compareBallots_eq b1 b2 : compareBallots b1 b2 = 0 ↔ b1 = b2.
Proof.
  split.
  - destruct b1 as [n1 v1], b2 as [n2 v2]. unfold compareBallots. cbn [counter value].
    destruct (Z.ltb_spec n1 n2), (Z.ltb_spec n2 n1); try lia.
    destruct (ltb_cases v1 v2) as [[E1 E2]|[[E1 E2]|E]]; rewrite ?E1, ?E2; try lia.
    intros _. f_equal; [lia|done].
  - intros ->. unfold compareBallots. rewrite Z.ltb_irrefl. by rewrite ltb_irrefl.
Qed.

Lemma compareBallots_trans b1 b2 b3 :
  compareBallots b1 b2 < 0 → compareBallots b2 b3 < 0 → compareBallots b1 b3 < 0.
Proof.
  rewrite !compareBallots_lt. intros [H1|[H1 H1']] [H2|[H2 H2']]; [left; lia..|].
  right. split; [lia|]. by eapply ltb_trans.
Qed.

Lemma compareBallots_le_trans b1 b2 b3 :
  compareBallots b1 b2 <= 0 → compareBallots b2 b3 <= 0 → compareBallots b1 b3 <= 0.
Proof.
  intros H1 H2. destruct (decide (compareBallots b1 b2 = 0)) as [->%compareBallots_eq|]; [done|].
  destruct (decide (compareBallots b2 b3 = 0)) as [<-%compareBallots_eq|]; [done|].
  pose proof (compareBallots_trans b1 b2 b3). lia.
Qed.

#[global] Program Instance SCPBallot_ord : StrictOrdB SCPBallot := {| ltb := ballot_ltb |}.
Next Obligation. intros b. unfold ballot_ltb. by rewrite (proj2 (compareBallots_eq b b)). Qed.
Next Obligation.
  intros b1 b2 b3. unfold ballot_ltb. rewrite !Z.ltb_lt. apply compareBallots_trans.
Qed.
Next Obligation.
  intros b1 b2. unfold ballot_ltb. rewrite !Z.ltb_ge, (compareBallots_flip b1 b2). intros.
  apply compareBallots_eq. lia.
Qed.

Lemma compatible_spec b1 b2 : areBallotsCompatible b1 b2 = true ↔ value b1 = value b2.
Proof. apply bool_decide_eq_true. Qed.

Lemma lessAndCompatible_spec b1 b2 :
  areBallotsLessAndCompatible b1 b2 = true ↔ counter b1 <= counter b2 ∧ value b1 = value b2.
Proof.
  unfold areBallotsLessAndCompatible. rewrite andb_true_iff, Z.leb_le, compatible_spec.
  split; intros [H1 H2]; (split; [|done]); unfold compareBallots in *;
    rewrite H2, ?ltb_irrefl in *;
    destruct (Z.ltb_spec (counter b1) (counter b2)), (Z.ltb_spec (counter b2) (counter b1)); lia.
Qed.

(** ** What a statement claims

    The [default: dbgAbort()] branches of the source's switches are the
    [nominate] cases below; they are never taken, because the ballot protocol
    only stores ballot statements (see [BallotEnvelopes] in [Slot.v]). *)

Definition hasPreparedBallot (ballot : SCPBallot) (st : SCPStatement) : bool :=
  match pledges st with
  | prepare p =>
    match p_prepared p with Some b => areBallotsLessAndCompatible ballot b | None => false end
    || match p_preparedPrime p with Some b => areBallotsLessAndCompatible ballot b | None => false end
  | confirm c => areBallotsLessAndCompatible ballot (mkBallot (c_nPrepared c) (value (c_ballot c)))
  | externalize e => areBallotsCompatible ballot (e_commit e)
  | nominate _ => false
  end.

(** The [voted] predicate of [attemptPreparedAccept]. *)
Definition votedPrepare (ballot : SCPBallot) (st : SCPStatement) : bool :=
  match pledges st with
  | prepare p => areBallotsLessAndCompatible ballot (p_ballot p)
  | confirm c => areBallotsCompatible ballot (c_ballot c)
  | externalize e => areBallotsCompatible ballot (e_commit e)
  | nominate _ => false
  end.

Definition commitPredicate (ballot : SCPBallot) (check : Z * Z) (st : SCPStatement) : bool :=
  match pledges st with
  | prepare _ => false
  | confirm c =>
    if areBallotsCompatible ballot (c_ballot c)
    then (c_nCommit c <=? check.1) && (check.2 <=? c_nH c) else false
  | externalize e =>
    if areBallotsCompatible ballot (e_commit e) then counter (e_commit e) <=? check.1 else false
  | nominate _ => false
  end.

(** The [voted] predicate of [attemptAcceptCommit]. *)
Definition votedCommit (ballot : SCPBallot) (cur : Z * Z) (st : SCPStatement) : bool :=
  match pledges st with
  | prepare p =>
    if areBallotsCompatible ballot (p_ballot p)
    then if negb (p_nC p =? 0) then (p_nC p <=? cur.1) && (cur.2 <=? p_nH p) else false
    else false
  | confirm c => if areBallotsCompatible ballot (c_ballot c) then c_nCommit c <=? cur.1 else false
  | externalize e =>
    if areBallotsCompatible ballot (e_commit e) then counter (e_commit e) <=? cur.1 else false
  | nominate _ => false
  end.

Definition statementBallotCounter (st : SCPStatement) : Z :=
  match pledges st with
  | prepare p => counter (p_ballot p)
  | confirm c => counter (c_ballot c)
  | externalize _ => UINT32_MAX
  | nominate _ => 0
  end.

Definition getWorkingBallot (st : SCPStatement) : SCPBallot :=
  match pledges st with
  | prepare p => p_ballot p
  | confirm c => mkBallot (c_nCommit c) (value (c_ballot c))
  | externalize e => e_commit e
  | nominate _ => ballot0
  end.

Definition getCompanionQuorumSetHashFromStatement (st : SCPStatement) : Hash :=
  match pledges st with
  | prepare p => p_quorumSetHash p
  | confirm c => c_quorumSetHash c
  | externalize e => e_commitQuorumSetHash e
  | nominate n => n_quorumSetHash n
  end.

(** The statement-dependent part of [BallotProtocol::isStatementSane]. *)
Definition pledgesSane (p : Pledges) (self : bool) : bool :=
  match p with
  | prepare p =>
    (self || (0 <? counter (p_ballot p)))
    && match p_preparedPrime p, p_prepared p with
       | Some pp, Some p => areBallotsLessAndIncompatible pp p
       | _, _ => true
       end
    && ((p_nH p =? 0) || match p_prepared p with Some b => p_nH p <=? counter b | None => false end)
    && ((p_nC p =? 0)
        || (negb (p_nH p =? 0) && (p_nH p <=? counter (p_ballot p)) && (p_nC p <=? p_nH p)))
  | confirm c =>
    (0 <? counter (c_ballot c)) && (c_nH c <=? counter (c_ballot c)) && (c_nCommit c <=? c_nH c)
  | externalize e => (0 <? counter (e_commit e)) && (counter (e_commit e) <=? e_nH e)
  | nominate _ => false
  end.

(** ** Newer statements *)

(** [BallotProtocol::isNewerStatement], on two statements of one node. *)
Definition isNewerBallotStatement (oldst st : SCPStatement) : bool :=
  match pledges oldst, pledges st with
  | confirm oldC, confirm c =>
    let compBallot := compareBallots (c_ballot oldC) (c_ballot c) in
    if compBallot <? 0 then true
    else if compBallot =? 0 then
      if c_nPrepared oldC =? c_nPrepared c then c_nH oldC <? c_nH c
      else c_nPrepared oldC <? c_nPrepared c
    else false
  | prepare oldPrep, prepare prep =>
    let compBallot := compareBallots (p_ballot oldPrep) (p_ballot prep) in
    if compBallot <? 0 then true
    else if compBallot =? 0 then
      let compBallot := compareBallotPtrs (p_prepared oldPrep) (p_prepared prep) in
      if compBallot <? 0 then true
      else if compBallot =? 0 then
        let compBallot := compareBallotPtrs (p_preparedPrime oldPrep) (p_preparedPrime prep) in
        if compBallot <? 0 then true
        else if compBallot =? 0 then p_nH oldPrep <? p_nH prep
        else false
      else false
    else false
  | externalize _, externalize _ => false
  | nominate _, nominate _ => false
  | old, new => typeNum (pledges_type old) <? typeNum (pledges_type new)
  end.

(** [std::includes(v, p)] on sorted ranges. *)
Fixpoint includes (v p : list Value) {struct v} : bool :=
  match p, v with
  | [], _ => true
  | _ :: _, [] => false
  | y :: p', x :: v' =>
    if ltb y x then false else if ltb x y then includes v' p else includes v' p'
  end.

(** [NominationProtocol::isSubsetHelper]: the result and the flag [notEqual]. *)
Definition isSubsetHelper (p v : list Value) : bool * bool :=
  if (length p <=? length v)%nat
  then let res := includes v p in
       (res, if res then negb (length p =? length v)%nat else true)
  else (false, true).

Definition isNewerNomination (oldst st : SCPNomination) : bool :=
  let '(sub1, g1) := isSubsetHelper (n_votes oldst) (n_votes st) in
  if sub1
  then let '(sub2, g2) := isSubsetHelper (n_accepted oldst) (n_accepted st) in
       if sub2 then g1 || g2 else false
  else false.

(** [NominationProtocol::isSane]: not empty, both lists strictly increasing. *)
Fixpoint strictlyIncreasing (l : list Value) : bool :=
  match l with
  | x :: (y :: _) as r => ltb x y && strictlyIncreasing r
  | _ => true
  end.
Definition isSaneNomination (nom : SCPNomination) : bool :=
  negb (length (n_votes nom) + length (n_accepted nom) =? 0)%nat
  && strictlyIncreasing (n_votes nom) && strictlyIncreasing (n_accepted nom).

Definition acceptPredicate (v : Value) (st : SCPStatement) : bool :=
  match pledges st with nominate nom => bool_decide (v ∈ n_accepted nom) | _ => false end.
(** The [voted] predicate of the nomination's [processEnvelope]. *)
Definition votedNominate (v : Value) (st : SCPStatement) : bool :=
  match pledges st with nominate nom => bool_decide (v ∈ n_votes nom) | _ => false end.

(** *** [isNewerStatement] is a strict order *)

Lemma compareBallotPtrs_flip b1 b2 : compareBallotPtrs b2 b1 = - compareBallotPtrs b1 b2.
Proof. destruct b1, b2; simpl; try lia. apply compareBallots_flip. Qed.
Lemma compareBallotPtrs_eq b1 b2 : compareBallotPtrs b1 b2 = 0 ↔ b1 = b2.
Proof. destruct b1, b2; simpl; rewrite ?compareBallots_eq; naive_solver lia. Qed.
Lemma compareBallotPtrs_trans b1 b2 b3 :
  compareBallotPtrs b1 b2 < 0 → compareBallotPtrs b2 b3 < 0 → compareBallotPtrs b1 b3 < 0.
Proof. destruct b1, b2, b3; simpl; try lia. apply compareBallots_trans. Qed.

(** The sort key of a [PREPARE]: [(b, p, p', h.n)] in lexicographic order. *)
Lemma newer_prepare_iff n1 i1 n2 i2 o p :
  isNewerBallotStatement (mkStatement n1 i1 (prepare o)) (mkStatement n2 i2 (prepare p)) = true ↔
  compareBallots (p_ballot o) (p_ballot p) < 0 ∨
  p_ballot o = p_ballot p ∧
   (compareBallotPtrs (p_prepared o) (p_prepared p) < 0 ∨
    p_prepared o = p_prepared p ∧
     (compareBallotPtrs (p_preparedPrime o) (p_preparedPrime p) < 0 ∨
      p_preparedPrime o = p_preparedPrime p ∧ p_nH o < p_nH p)).
Proof.
  unfold isNewerBallotStatement. simpl. rewrite <- compareBallots_eq, <- !compareBallotPtrs_eq.
  repeat match goal with
  | |- context [if ?c <? 0 then _ else _] => destruct (Z.ltb_spec c 0); [split; [lia|done]|]
  | |- context [if ?c =? 0 then _ else _] => destruct (Z.eqb_spec c 0); [|split; [done|lia]]
  end.
  rewrite Z.ltb_lt. lia.
Qed.

Lemma newer_confirm_iff n1 i1 n2 i2 o c :
  isNewerBallotStatement (mkStatement n1 i1 (confirm o)) (mkStatement n2 i2 (confirm c)) = true ↔
  compareBallots (c_ballot o) (c_ballot c) < 0 ∨
  c_ballot o = c_ballot c ∧
   (c_nPrepared o < c_nPrepared c ∨ c_nPrepared o = c_nPrepared c ∧ c_nH o < c_nH c).
Proof.
  unfold isNewerBallotStatement. simpl. rewrite <- compareBallots_eq.
  destruct (Z.ltb_spec (compareBallots (c_ballot o) (c_ballot c)) 0); [split; [lia|done]|].
  destruct (Z.eqb_spec (compareBallots (c_ballot o) (c_ballot c)) 0); [|split; [done|lia]].
  destruct (Z.eqb_spec (c_nPrepared o) (c_nPrepared c)); rewrite Z.ltb_lt; lia.
Qed.

Lemma newer_irrefl st : isNewerBallotStatement st st = false.
Proof.
  apply not_true_iff_false. destruct st as [n i [p|c|e|m]]; [| |done|done].
  - rewrite newer_prepare_iff, (proj2 (compareBallots_eq _ _)) by done.
    rewrite !(proj2 (compareBallotPtrs_eq _ _)) by done. lia.
  - rewrite newer_confirm_iff, (proj2 (compareBallots_eq _ _)) by done. lia.
Qed.

Lemma newer_trans st1 st2 st3 :
  isNewerBallotStatement st1 st2 = true → isNewerBallotStatement st2 st3 = true →
  isNewerBallotStatement st1 st3 = true.
Proof.
  destruct st1 as [n1 i1 [p1|c1|e1|m1]], st2 as [n2 i2 [p2|c2|e2|m2]], st3 as [n3 i3 [p3|c3|e3|m3]];
    try done.
  - rewrite !newer_prepare_iff.
    intros [H1|[-> [H1|[-> [H1|[-> H1]]]]]] [H2|[<- [H2|[<- [H2|[<- H2]]]]]];
      eauto 8 using compareBallots_trans, compareBallotPtrs_trans with lia.
  - rewrite !newer_confirm_iff.
    intros [H1|[-> [H1|[-> H1]]]] [H2|[<- [H2|[<- H2]]]];
      eauto 8 using compareBallots_trans with lia.
Qed.

(** [isNewerStatement] on ballot statements is a strict order, so a node's
    statements cannot supersede each other in a circle. *)
Theorem statement_order_strict :
  (∀ st, isNewerBallotStatement st st = false) ∧
  (∀ st1 st2 st3, isNewerBallotStatement st1 st2 = true → isNewerBallotStatement st2 st3 = true →
     isNewerBallotStatement st1 st3 = true) ∧
  (∀ st1 st2, isNewerBallotStatement st1 st2 = true → isNewerBallotStatement st2 st1 = false).
Proof.
  split_and!; [apply newer_irrefl|apply newer_trans|]. intros st1 st2 H12.
  destruct (isNewerBallotStatement st2 st1) eqn:H21; [|done].
  pose proof (newer_trans _ _ _ H12 H21) as H. by rewrite newer_irrefl in H.
Qed.
