(* ===== verification/LocalNode.v ===== *)
(** * Federated voting: [scp/LocalNode.cpp]

    Quorum slices, v-blocking sets and quorums of a node, as the loops of the
    source compute them, and the set-theoretic meaning of their answers. *)
From stdpp Require Import base list sorting gmap.
From S2P Require Import Prelude QuorumSet Statement.

(** ** Quorum slices and v-blocking sets *)

(** A loop that counts down [left] at every hit and returns when it reaches zero
    ([None]); [Some left] is the counter after the loop. *)
Section CountDown.
Context {A : Type} (dec : Z → Z) (hit : A → bool).
Fixpoint countDown (left : Z) (l : list A) : option Z :=
  match l with
  | [] => Some left
  | x :: l =>
    if hit x
    then let left' := dec left in if left' <=? 0 then None else countDown left' l
    else countDown left l
  end.
End CountDown.

Definition inNodeSet (nodeSet : list NodeID) (n : NodeID) : bool := bool_decide (n ∈ nodeSet).

(** [thresholdLeft] is a [uint32]: its decrement wraps around. *)
Definition dec_u32 (x : Z) : Z := u32 (x - 1).

Fixpoint isQuorumSliceInternal (q : SCPQuorumSet) (nodeSet : list NodeID) : bool :=
  match q with
  | QSet t v i =>
    match countDown dec_u32 (inNodeSet nodeSet) (u32 t) v with
    | None => true
    | Some thresholdLeft =>
      match countDown dec_u32 (λ inner, isQuorumSliceInternal inner nodeSet) thresholdLeft i with
      | None => true
      | Some _ => false
      end
    end
  end.
Definition isQuorumSlice (q : SCPQuorumSet) (nodeSet : list NodeID) : bool :=
  isQuorumSliceInternal q nodeSet.

(** [leftTillBlock] is computed in [size_t] and cast to [int]. *)
Fixpoint isVBlockingInternal (q : SCPQuorumSet) (nodeSet : list NodeID) : bool :=
  match q with
  | QSet t v i =>
    if t =? 0 then false else
    let leftTillBlock := s32 (u64 (1 + Z.of_nat (length v) + Z.of_nat (length i) - t)) in
    match countDown Z.pred (inNodeSet nodeSet) leftTillBlock v with
    | None => true
    | Some leftTillBlock =>
      match countDown Z.pred (λ inner, isVBlockingInternal inner nodeSet) leftTillBlock i with
      | None => true
      | Some _ => false
      end
    end
  end.
Definition isVBlockingSet (q : SCPQuorumSet) (nodeSet : list NodeID) : bool :=
  isVBlockingInternal q nodeSet.

(** ** What the loops count *)

(** The number of entries of [q] that hold, given which nodes and which inner
    sets hold. *)
Definition hits (pv : NodeID → bool) (pi : SCPQuorumSet → bool) (q : SCPQuorumSet) : Z :=
  count pv (validators q) + count pi (innerSets q).

Section CountDownSpec.
Context {A : Type} (hit : A → bool).

(** From a counter of zero the first decrement wraps: it acts as [2^32]. *)
Definition effective (t : Z) : Z := if t =? 0 then 2 ^ 32 else t.

Lemma effective_range t : is_u32 t → 1 <= effective t <= 2 ^ 32.
Proof. unfold effective, is_u32, UINT32_MAX. destruct (Z.eqb_spec t 0); lia. Qed.

Lemma countDown_u32 left l :
  is_u32 left →
  countDown dec_u32 hit left l =
    if effective left <=? count hit l then None
    else Some (u32 (left - count hit l)).
Proof.
  revert left. induction l as [|x l IH]; intros left Hl; simpl.
  - pose proof (effective_range _ Hl). rewrite count_nil.
    destruct (Z.leb_spec (effective left) 0); [lia|]. by rewrite Z.sub_0_r, u32_small.
  - rewrite count_cons. pose proof (count_bounds hit l) as Hc.
    destruct (hit x) eqn:E; [|by rewrite IH].
    assert (dec_u32 left = if left =? 0 then UINT32_MAX else left - 1) as Hd.
    { unfold dec_u32, u32, wrap, is_u32, UINT32_MAX in *. destruct (Z.eqb_spec left 0).
      - by subst.
      - apply Z.mod_small; lia. }
    rewrite Hd. unfold is_u32, UINT32_MAX in *.
    destruct (Z.eqb_spec left 0) as [->|Hne].
    + rewrite (proj2 (Z.leb_gt _ _)) by lia. rewrite IH by (unfold is_u32, UINT32_MAX; lia).
      change (effective 0) with (2 ^ 32). change (effective 4294967295) with 4294967295.
      replace (4294967295 <=? count hit l) with (2 ^ 32 <=? 1 + count hit l)
        by (destruct (Z.leb_spec (2 ^ 32) (1 + count hit l)), (Z.leb_spec 4294967295 (count hit l)); lia).
      destruct (Z.leb_spec (2 ^ 32) (1 + count hit l)); [done|]. f_equal.
      unfold u32, wrap. rewrite (Z.mod_small (4294967295 - _)) by lia.
      rewrite <- (Z.mod_add (0 - _) 1) by lia. rewrite Z.mod_small; lia.
    + destruct (Z.leb_spec (left - 1) 0).
      * unfold effective. rewrite (proj2 (Z.eqb_neq _ _)) by lia.
        by rewrite (proj2 (Z.leb_le _ _)) by lia.
      * rewrite IH by (unfold is_u32, UINT32_MAX; lia). unfold effective.
        rewrite !(proj2 (Z.eqb_neq _ _)) by lia.
        replace (left <=? 1 + count hit l) with (left - 1 <=? count hit l)
          by (destruct (Z.leb_spec (left - 1) (count hit l)), (Z.leb_spec left (1 + count hit l)); lia).
        destruct (left - 1 <=? count hit l); [done|]. do 2 f_equal. lia.
Qed.

Lemma countDown_int left l :
  countDown Z.pred hit left l =
    if (1 <=? count hit l) && (left <=? count hit l) then None
    else Some (left - count hit l).
Proof.
  revert left. induction l as [|x l IH]; intros left; simpl.
  - rewrite count_nil. by rewrite Z.sub_0_r.
  - rewrite count_cons. pose proof (count_bounds hit l) as Hc.
    destruct (hit x) eqn:E; [|by rewrite IH].
    rewrite (proj2 (Z.leb_le 1 _)) by lia. simpl.
    destruct (Z.leb_spec (Z.pred left) 0).
    + by rewrite (proj2 (Z.leb_le _ _)) by lia.
    + rewrite IH. destruct (Z.leb_spec left (1 + count hit l)).
      * by rewrite !(proj2 (Z.leb_le _ _)) by lia.
      * rewrite (proj2 (Z.leb_gt (Z.pred left) _)), andb_false_r by lia. f_equal. lia.
Qed.
End CountDownSpec.

Lemma isQuorumSlice_hits t v i S :
  isQuorumSlice (QSet t v i) S =
  (effective (u32 t) <=? hits (inNodeSet S) (λ q, isQuorumSlice q S) (QSet t v i)).
Proof.
  unfold isQuorumSlice, hits. simpl. pose proof (u32_range t) as Ht.
  rewrite countDown_u32 by done. set (cv := count _ v). set (ci := count _ i).
  pose proof (count_bounds (inNodeSet S) v) as Hv. fold cv in Hv.
  pose proof (count_bounds (λ q, isQuorumSliceInternal q S) i) as Hi. fold ci in Hi.
  destruct (Z.leb_spec (effective (u32 t)) cv).
  { by rewrite (proj2 (Z.leb_le _ _)) by lia. }
  rewrite countDown_u32 by apply u32_range. fold ci.
  assert (effective (u32 (u32 t - cv)) = effective (u32 t) - cv) as ->.
  { revert H Ht. generalize (u32 t). intros x. unfold is_u32, UINT32_MAX, effective.
    destruct (Z.eqb_spec x 0) as [->|]; intros.
    - destruct (decide (cv = 0)) as [->|]; [done|].
      replace (u32 (0 - cv)) with (2 ^ 32 - cv).
      + rewrite (proj2 (Z.eqb_neq _ _)); lia.
      + unfold u32, wrap. rewrite <- (Z.mod_add (0 - cv) 1) by lia. rewrite Z.mod_small; lia.
    - rewrite (u32_small (x - cv)) by (unfold is_u32, UINT32_MAX; lia).
      rewrite (proj2 (Z.eqb_neq _ _)); lia. }
  destruct (Z.leb_spec (effective (u32 t) - cv) ci), (Z.leb_spec (effective (u32 t)) (cv + ci)); lia.
Qed.

Lemma isVBlocking_hits t v i S :
  isVBlockingSet (QSet t v i) S =
  (let h := hits (inNodeSet S) (λ q, isVBlockingSet q S) (QSet t v i) in
   let leftTillBlock := s32 (u64 (1 + Z.of_nat (length v) + Z.of_nat (length i) - t)) in
   negb (t =? 0) && (1 <=? h) && (leftTillBlock <=? h)).
Proof.
  unfold isVBlockingSet, hits. simpl. destruct (t =? 0); [done|]. simpl.
  set (L := s32 _). rewrite countDown_int. set (cv := count _ v). set (ci := count _ i).
  pose proof (count_bounds (inNodeSet S) v) as Hv. fold cv in Hv.
  pose proof (count_bounds (λ q, isVBlockingInternal q S) i) as Hi. fold ci in Hi.
  destruct ((1 <=? cv) && (L <=? cv)) eqn:E1.
  { propify. rewrite !(proj2 (Z.leb_le _ _)); lia. }
  rewrite countDown_int. fold ci.
  apply andb_false_iff in E1. rewrite !Z.leb_gt in E1.
  destruct ((1 <=? ci) && (L - cv <=? ci)) eqn:E2; propify.
  - rewrite !(proj2 (Z.leb_le _ _)); lia.
  - apply andb_false_iff in E2. rewrite !Z.leb_gt in E2. symmetry.
    rewrite andb_false_iff, !Z.leb_gt. lia.
Qed.

(** *** Monotonicity *)

Lemma inNodeSet_spec S n : inNodeSet S n = true ↔ n ∈ S.
Proof. apply bool_decide_eq_true. Qed.

Lemma hits_mono (pv pv' : NodeID → bool) (pi pi' : SCPQuorumSet → bool) q :
  (∀ n, n ∈ validators q → pv n = true → pv' n = true) →
  (∀ q', q' ∈ innerSets q → pi q' = true → pi' q' = true) →
  hits pv pi q <= hits pv' pi' q.
Proof.
  intros Hv Hi. unfold hits.
  pose proof (count_mono _ _ _ Hv). pose proof (count_mono _ _ _ Hi). lia.
Qed.

(** More nodes never lose a slice: only the nodes of the set itself matter. *)
Lemma isQuorumSlice_mono q S S' :
  (∀ n, n ∈ allNodes q → n ∈ S → n ∈ S') →
  isQuorumSlice q S = true → isQuorumSlice q S' = true.
Proof.
  induction q as [t v i IH] using qset_ind. intros HS. rewrite !isQuorumSlice_hits, !Z.leb_le.
  intros Hl. etrans; [exact Hl|]. simpl in HS. apply hits_mono; simpl.
  - intros n Hn. rewrite !inNodeSet_spec. apply HS. set_solver.
  - rewrite Forall_forall in IH. intros q Hq. apply (IH q Hq).
    intros n Hn. apply HS. rewrite elem_of_app. right.
    apply list_elem_of_In, in_flat_map. exists q. by rewrite <- !list_elem_of_In.
Qed.

Lemma isVBlocking_mono q S S' :
  (∀ n, n ∈ allNodes q → n ∈ S → n ∈ S') →
  isVBlockingSet q S = true → isVBlockingSet q S' = true.
Proof.
  induction q as [t v i IH] using qset_ind. intros HS. rewrite !isVBlocking_hits. cbv zeta.
  assert (hits (inNodeSet S) (λ q, isVBlockingSet q S) (QSet t v i) <=
          hits (inNodeSet S') (λ q, isVBlockingSet q S') (QSet t v i)) as Hh.
  { simpl in HS. apply hits_mono; simpl.
    - intros n Hn. rewrite !inNodeSet_spec. apply HS. set_solver.
    - rewrite Forall_forall in IH. intros q Hq. apply (IH q Hq).
      intros n Hn. apply HS. rewrite elem_of_app. right.
      apply list_elem_of_In, in_flat_map. exists q. by rewrite <- !list_elem_of_In. }
  rewrite !andb_true_iff, !Z.leb_le. intros [[? ?] ?]. split_and!; [done|lia|lia].
Qed.

(** *** Duality of slices and v-blocking sets *)

(** A set whose thresholds make sense: the part of sanity that federated voting
    relies on. *)
Fixpoint votable (q : SCPQuorumSet) : Prop :=
  match q with
  | QSet t v i =>
    1 <= t <= totEntries (QSet t v i) ∧ totEntries (QSet t v i) < 2 ^ 31 ∧
    foldr (λ q' P, votable q' ∧ P) True i
  end.

Lemma thresholdsOk_votable e d q :
  thresholdsOk e d q → Z.of_nat (length (allNodes q)) <= 1000 → votable q.
Proof.
  revert d. induction q as [t v i IH] using qset_ind. intros d Hq Hsz.
  pose proof (thresholdsOkF_entries _ _ _ _ Hq) as Hte.
  unfold thresholdsOk, totEntries in *. simpl in *.
  rewrite foldr_and_Forall in Hq |- *. destruct Hq as (_ & Ht & _ & Hi).
  rewrite length_app in Hsz, Hte. split_and!; try (unfold totEntries; simpl; lia).
  rewrite Forall_forall in IH, Hi |- *. intros q Hq. apply (IH q Hq (d + 1)); [by apply Hi|].
  pose proof (length_flat_map_elem allNodes q i Hq). lia.
Qed.

Lemma sane_votable q e : isQuorumSetSane q e = true → votable q.
Proof. intros (Ht & _ & Hl)%isQuorumSetSane_iff. eapply thresholdsOk_votable; [done|lia]. Qed.

Lemma votable_slice t v i S :
  votable (QSet t v i) →
  isQuorumSlice (QSet t v i) S = (t <=? hits (inNodeSet S) (λ q, isQuorumSlice q S) (QSet t v i)).
Proof.
  unfold votable, totEntries. intros (Ht & Hs & _). rewrite isQuorumSlice_hits.
  rewrite u32_small by (unfold is_u32, UINT32_MAX; simpl in *; lia).
  unfold effective. by rewrite (proj2 (Z.eqb_neq t 0)) by lia.
Qed.

Lemma votable_vblocking t v i S :
  votable (QSet t v i) →
  isVBlockingSet (QSet t v i) S =
  (totEntries (QSet t v i) - t + 1 <=? hits (inNodeSet S) (λ q, isVBlockingSet q S) (QSet t v i)).
Proof.
  unfold votable, totEntries. simpl validators. simpl innerSets. intros (Ht & Hs & _).
  rewrite isVBlocking_hits. cbv zeta.
  rewrite (proj2 (Z.eqb_neq t 0)) by lia.
  rewrite u64_small by (unfold is_u64, UINT64_MAX; lia). rewrite s32_small by lia.
  set (h := hits _ _ _). simpl.
  destruct (Z.leb_spec 1 h), (Z.leb_spec (Z.of_nat (length v) + Z.of_nat (length i) - t + 1) h);
    destruct (Z.leb_spec (1 + Z.of_nat (length v) + Z.of_nat (length i) - t) h); simpl; lia.
Qed.

(** Every v-blocking set meets every quorum slice. *)
Lemma vblocking_meets_slice q B U :
  votable q → isVBlockingSet q B = true → isQuorumSlice q U = true → ∃ n, n ∈ U ∧ n ∈ B.
Proof.
  induction q as [t v i IH] using qset_ind. intros Hw.
  rewrite votable_slice, votable_vblocking by done. rewrite !Z.leb_le. intros HB HU.
  unfold hits, totEntries in *. simpl in HB, HU.
  destruct Hw as (_ & _ & Hi). rewrite foldr_and_Forall in Hi.
  destruct (decide (count (inNodeSet U) v + count (inNodeSet B) v <= Z.of_nat (length v))) as [Hc|Hc].
  - assert (Exists (λ q, isQuorumSlice q U = true ∧ isVBlockingSet q B = true) i) as Hex.
    { destruct (decide (Exists (λ q, isQuorumSlice q U = true ∧ isVBlockingSet q B = true) i))
        as [|Hno]; [done|]. exfalso.
      assert (count (λ q, isQuorumSlice q U) i + count (λ q, isVBlockingSet q B) i
              <= Z.of_nat (length i)); [|lia].
      apply count_disj. intros q Hq H1 H2. apply Hno, Exists_exists. eauto. }
    apply Exists_exists in Hex as (q & Hq & H1 & H2). rewrite Forall_forall in IH, Hi.
    by apply (IH q Hq); [apply Hi| |].
  - destruct (decide (Exists (λ n, n ∈ U ∧ n ∈ B) v)) as [(n & _ & ?)%Exists_exists|Hno]; [eauto|].
    exfalso. apply Hc, count_disj. intros n Hn. rewrite !inNodeSet_spec. intros.
    apply Hno, Exists_exists. eauto.
Qed.

(** If a set is not v-blocking, the remaining nodes contain a slice. *)
Lemma not_vblocking_slice q B :
  votable q → isVBlockingSet q B = false →
  isQuorumSlice q (filter (λ n, n ∉ B) (allNodes q)) = true.
Proof.
  induction q as [t v i IH] using qset_ind. intros Hw.
  rewrite votable_slice, votable_vblocking by done. rewrite Z.leb_gt, Z.leb_le.
  unfold hits, totEntries. simpl validators. simpl innerSets. intros HB.
  destruct Hw as (_ & _ & Hi). rewrite foldr_and_Forall in Hi.
  set (U := filter (λ n, n ∉ B) (allNodes (QSet t v i))).
  assert (count (λ n, negb (inNodeSet B n)) v <= count (inNodeSet U) v) as Hv.
  { apply count_mono. intros n Hn. rewrite inNodeSet_spec. intros HnB. propify.
    unfold inNodeSet in HnB. apply bool_decide_eq_false in HnB.
    subst U. apply list_elem_of_filter. split; [done|]. simpl. set_solver. }
  assert (count (λ q, negb (isVBlockingSet q B)) i <= count (λ q, isQuorumSlice q U) i) as Hi'.
  { apply count_mono. intros q Hq HnB. propify. rewrite Forall_forall in IH, Hi.
    eapply isQuorumSlice_mono; [|by apply (IH q Hq); [apply Hi|]].
    intros n Hn. subst U. rewrite !list_elem_of_filter. intros [? _]. split; [done|]. simpl.
    rewrite elem_of_app. right. apply list_elem_of_In, in_flat_map. exists q.
    by rewrite <- !list_elem_of_In. }
  pose proof (count_negb (inNodeSet B) v). pose proof (count_negb (λ q, isVBlockingSet q B) i). lia.
Qed.

(** ** Quorums *)

(** The nodes whose latest envelope passes the filter, in key order. *)
Definition filterNodes (map : gmap NodeID SCPEnvelope) (filter : SCPStatement → bool)
    : list NodeID :=
  (List.filter (λ it, filter (statement it.2)) (map_iter map)).*1.

(** [LocalNode::isVBlocking] on a map of envelopes. *)
Definition isVBlocking (qSet : SCPQuorumSet) (map : gmap NodeID SCPEnvelope)
    (filter : SCPStatement → bool) : bool :=
  isVBlockingSet qSet (filterNodes map filter).

Section IsQuorum.
Variable map : gmap NodeID SCPEnvelope.
Variable qfun : SCPStatement → option SCPQuorumSet.

Definition quorumFilter (pNodes : list NodeID) (n : NodeID) : bool :=
  match map !! n with
  | Some e => match qfun (statement e) with
              | Some q => isQuorumSlice q pNodes
              | None => false
              end
  | None => false
  end.

(** The [do ... while (count != pNodes.size())] loop. *)
Fixpoint quorumLoop (fuel : nat) (pNodes : list NodeID) : option (list NodeID) :=
  match fuel with
  | O => None
  | S fuel =>
    let fNodes := List.filter (quorumFilter pNodes) pNodes in
    if (length pNodes =? length fNodes)%nat then Some fNodes else quorumLoop fuel fNodes
  end.

(** The loop removes a node at every turn but the last: [S (length pNodes)]
    turns are enough. *)
Definition isQuorum (qSet : SCPQuorumSet) (filter : SCPStatement → bool) : bool :=
  let pNodes := filterNodes map filter in
  match quorumLoop (S (length pNodes)) pNodes with
  | Some nodes => isQuorumSlice qSet nodes
  | None => false
  end.

(** A set of nodes is self-sufficient when each of them has a slice inside it. *)
Definition selfSufficient (U : list NodeID) : Prop :=
  ∀ n, n ∈ U → ∃ e q, map !! n = Some e ∧ qfun (statement e) = Some q ∧ isQuorumSlice q U = true.

Lemma quorumFilter_spec P n :
  quorumFilter P n = true ↔
  ∃ e q, map !! n = Some e ∧ qfun (statement e) = Some q ∧ isQuorumSlice q P = true.
Proof.
  unfold quorumFilter. destruct (map !! n) as [e|]; [|naive_solver].
  destruct (qfun (statement e)) as [q|] eqn:E; naive_solver congruence.
Qed.

Lemma quorumFilter_mono P P' n :
  (∀ x, x ∈ P → x ∈ P') → quorumFilter P n = true → quorumFilter P' n = true.
Proof.
  rewrite !quorumFilter_spec. intros HP (e & q & He & Hq & Hs). exists e, q. split_and!; [done..|].
  eapply isQuorumSlice_mono; [|done]. eauto.
Qed.

Lemma elem_of_filter_In {A} (p : A → bool) x (l : list A) :
  x ∈ List.filter p l ↔ x ∈ l ∧ p x = true.
Proof. rewrite !list_elem_of_In. apply filter_In. Qed.

Lemma filter_length_eq {A} (p : A → bool) (l : list A) :
  length l = length (List.filter p l) → List.filter p l = l.
Proof.
  induction l as [|x l IH]; simpl; [done|]. destruct (p x) eqn:E; simpl; intros Hl.
  - f_equal. apply IH. lia.
  - pose proof (filter_length_le p l). lia.
Qed.

(** The loop ends with the greatest self-sufficient subset. *)
Lemma quorumLoop_spec fuel P :
  (length P < fuel)%nat →
  ∃ R, quorumLoop fuel P = Some R ∧ (∀ n, n ∈ R → n ∈ P) ∧ selfSufficient R ∧
       ∀ U, selfSufficient U → (∀ n, n ∈ U → n ∈ P) → ∀ n, n ∈ U → n ∈ R.
Proof.
  revert P. induction fuel as [|fuel IH]; intros P Hf; [lia|]. simpl.
  assert (∀ U, selfSufficient U → (∀ n, n ∈ U → n ∈ P) →
            ∀ n, n ∈ U → n ∈ List.filter (quorumFilter P) P) as Hkeep.
  { intros U HU HP n Hn. apply elem_of_filter_In. split; [auto|].
    eapply quorumFilter_mono; [exact HP|]. apply quorumFilter_spec. auto. }
  destruct (Nat.eqb_spec (length P) (length (List.filter (quorumFilter P) P))) as [Hl|Hl].
  - apply filter_length_eq in Hl as Heq. exists (List.filter (quorumFilter P) P).
    split_and!; [done| | |done].
    + intros n Hn. by apply elem_of_filter_In in Hn as [? _].
    + intros n Hn. apply elem_of_filter_In in Hn as [Hn HqP].
      rewrite Heq. by apply quorumFilter_spec.
  - pose proof (filter_length_le (quorumFilter P) P).
    destruct (IH (List.filter (quorumFilter P) P)) as (R & HR & Hsub & Hss & Hmax); [lia|].
    exists R. split_and!; [done| |done|].
    + intros n Hn. by apply Hsub, elem_of_filter_In in Hn as [? _].
    + intros U HU HP. apply Hmax; [done|]. by apply Hkeep.
Qed.

Lemma elem_of_filterNodes f n :
  n ∈ filterNodes map f ↔ ∃ e, map !! n = Some e ∧ f (statement e) = true.
Proof.
  unfold filterNodes. rewrite list_elem_of_fmap. split.
  - intros ([n' e] & -> & [He Hf]%elem_of_filter_In). apply elem_of_map_iter in He. eauto.
  - intros (e & He & Hf). exists (n, e). split; [done|]. apply elem_of_filter_In.
    split; [by apply elem_of_map_iter|done].
Qed.

(** [isQuorum] answers the question of the SCP paper: is there a set of nodes
    that pass the filter, each with a slice inside the set, that contains a
    slice of the local node? *)
Lemma isQuorum_iff qSet f :
  isQuorum qSet f = true ↔
  ∃ U, (∀ n, n ∈ U → ∃ e, map !! n = Some e ∧ f (statement e) = true) ∧
       selfSufficient U ∧ isQuorumSlice qSet U = true.
Proof.
  unfold isQuorum.
  destruct (quorumLoop_spec (S (length (filterNodes map f))) (filterNodes map f))
    as (R & -> & Hsub & Hss & Hmax); [lia|]. split.
  - intros HR. exists R. split_and!; [|done|done]. intros n Hn. by apply elem_of_filterNodes, Hsub.
  - intros (U & Hf & HU & HqU). eapply isQuorumSlice_mono; [|exact HqU].
    intros n _. apply Hmax; [done|]. intros m Hm. apply elem_of_filterNodes. auto.
Qed.

Lemma isQuorum_mono qSet f f' :
  (∀ n e, map !! n = Some e → f (statement e) = true → f' (statement e) = true) →
  isQuorum qSet f = true → isQuorum qSet f' = true.
Proof.
  intros Hff. rewrite !isQuorum_iff. intros (U & Hf & HU & HqU). exists U. split_and!; [|done|done].
  intros n Hn. destruct (Hf n Hn) as (e & He & ?). eauto.
Qed.

Lemma isVBlocking_filter_mono qSet f f' :
  (∀ n e, map !! n = Some e → f (statement e) = true → f' (statement e) = true) →
  isVBlocking qSet map f = true → isVBlocking qSet map f' = true.
Proof.
  intros Hff. apply isVBlocking_mono. intros n _. rewrite !elem_of_filterNodes.
  intros (e & He & ?). eauto.
Qed.
End IsQuorum.

(** *** Every quorum slice names a node *)

Lemma isQuorumSlice_nonempty q S : isQuorumSlice q S = true → ∃ n, n ∈ S.
Proof.
  induction q as [t v i IH] using qset_ind. rewrite isQuorumSlice_hits, Z.leb_le. intros Hh.
  pose proof (effective_range _ (u32_range t)). unfold hits in Hh. simpl in Hh.
  destruct (decide (0 < count (inNodeSet S) v)) as [Hv|Hv].
  - apply count_pos in Hv as (n & _ & Hn). apply inNodeSet_spec in Hn. eauto.
  - destruct (count_pos (λ q, isQuorumSlice q S) i) as (q & Hq & Hs); [lia|].
    rewrite Forall_forall in IH. eauto.
Qed.

Lemma isVBlocking_nonempty q S : isVBlockingSet q S = true → ∃ n, n ∈ S.
Proof.
  induction q as [t v i IH] using qset_ind. rewrite isVBlocking_hits. cbv zeta.
  rewrite !andb_true_iff, !Z.leb_le. intros [[_ Hh] _]. unfold hits in Hh. simpl in Hh.
  destruct (decide (0 < count (inNodeSet S) v)) as [Hv|Hv].
  - apply count_pos in Hv as (n & _ & Hn). apply inNodeSet_spec in Hn. eauto.
  - destruct (count_pos (λ q, isVBlockingSet q S) i) as (q & Hq & Hs); [lia|].
    rewrite Forall_forall in IH. eauto.
Qed.

(** ** The guarantees of quorums *)

(** C19: [LocalNode::isQuorum] terminates and decides whether among the nodes whose
    statement satisfies the filter there is a set in which every node has a slice
    of its own quorum set and the given quorum set has one too. *)
Theorem quorum_iff_self_sufficient envs qfun qSet f :
  isQuorum envs qfun qSet f = true ↔
  ∃ U, (∀ n, n ∈ U → ∃ e, envs !! n = Some e ∧ f (statement e) = true) ∧
       selfSufficient envs qfun U ∧ isQuorumSlice qSet U = true.
Proof. apply isQuorum_iff. Qed.

(** C20: for a quorum set with valid thresholds, a set of nodes is v-blocking
    exactly when it meets every quorum slice. *)
Theorem vblocking_iff_meets_slices q B :
  votable q →
  isVBlockingSet q B = true ↔ ∀ U, isQuorumSlice q U = true → ∃ n, n ∈ U ∧ n ∈ B.
Proof.
  intros Hq. split; [intros HB U HU; by eapply vblocking_meets_slice|]. intros Hall.
  destruct (isVBlockingSet q B) eqn:EB; [done|]. apply not_vblocking_slice in EB; [|done].
  destruct (Hall _ EB) as (n & Hn & HB). apply list_elem_of_filter in Hn as [Hn _]. done.
Qed.

Lemma vblocking_iff_meets_slices_witness :
  isVBlockingSet (QSet 2 [1; 2; 3] []) [2; 3] = true ↔
  ∀ U, isQuorumSlice (QSet 2 [1; 2; 3] []) U = true → ∃ n, n ∈ U ∧ n ∈ [2; 3].
Proof. apply vblocking_iff_meets_slices. vm_compute. intuition discriminate. Defined.
