(* ===== verification/Normalize.v ===== *)
(** * Normalisation keeps the meaning of a quorum set

    [normalizeQSet] rewrites the quorum set of the local node before it is hashed
    and advertised. The theorems say that the rewritten set has the same nodes,
    the same quorum slices and the same v-blocking sets. *)
From stdpp Require Import base list sorting gmap.
From S2P Require Import Prelude QuorumSet Statement LocalNode.

(** A predicate on quorum sets that reads a singleton as its node. *)
Definition readsSingleton (pv : NodeID → bool) (pi : SCPQuorumSet → bool) : Prop :=
  ∀ n, pi (QSet 1 [n] []) = pv n.

(** The shape of one turn of the loop of [normalizeQSetSimplify]. *)
Lemma simplifyInner_cons f v q l :
  (∃ n, f q = QSet 1 [n] [] ∧ simplifyInner f v (q :: l) = simplifyInner f (v ++ [n]) l) ∨
  simplifyInner f v (q :: l) = ((simplifyInner f v l).1, f q :: (simplifyInner f v l).2).
Proof.
  simpl. destruct (simplifyInner f v l) as [v' r]. destruct (f q) as [t vs ins].
  destruct t as [|[]|], vs as [|n []], ins; simpl; eauto.
Qed.

Lemma simplifyInner_count f pv pi v l :
  readsSingleton pv pi → (∀ q, q ∈ l → pi (f q) = pi q) →
  count pv (simplifyInner f v l).1 + count pi (simplifyInner f v l).2 = count pv v + count pi l.
Proof.
  intros Hs. revert v. induction l as [|q l IH]; intros v Hl; [simpl; lia|].
  pose proof (Hl q ltac:(set_solver)) as Hq.
  destruct (simplifyInner_cons f v q l) as [(n & Hn & ->)| ->].
  - rewrite IH, count_app, !count_cons, count_nil by set_solver.
    rewrite <- Hq, Hn, Hs. destruct (pv n); lia.
  - cbn [fst snd]. rewrite !count_cons, Hq. specialize (IH v ltac:(set_solver)). lia.
Qed.

Lemma simplifyInner_nodes f v l :
  (∀ q, q ∈ l → allNodes (f q) ≡ₚ allNodes q) →
  (simplifyInner f v l).1 ++ flat_map allNodes (simplifyInner f v l).2 ≡ₚ v ++ flat_map allNodes l.
Proof.
  revert v. induction l as [|q l IH]; intros v Hl; [done|].
  pose proof (Hl q ltac:(set_solver)) as Hq.
  destruct (simplifyInner_cons f v q l) as [(n & Hn & ->)| ->].
  - rewrite IH by set_solver. simpl. rewrite <- Hq, Hn. simpl. by rewrite <- app_assoc.
  - simpl. rewrite Hq, (Permutation_app_swap_app _ (allNodes q)), IH by set_solver.
    by rewrite (Permutation_app_swap_app (allNodes q)).
Qed.

(** The number of entries is unchanged too. *)
Lemma simplifyInner_length f v l :
  (length (simplifyInner f v l).1 + length (simplifyInner f v l).2 = length v + length l)%nat.
Proof.
  revert v. induction l as [|q l IH]; intros v; [done|].
  destruct (simplifyInner_cons f v q l) as [(n & Hn & ->)| ->].
  - rewrite IH, length_app. simpl. lia.
  - simpl. specialize (IH v). lia.
Qed.

(** A meaning of quorum sets that only depends on the threshold, the number of
    entries and how many of them hold: quorum slices and v-blocking sets are two
    instances. *)
Class Meaning (pv : NodeID → bool) (pi : SCPQuorumSet → bool) := {
  meaning_entries t v i t' v' i' :
    t = t' → (length v + length i = length v' + length i')%nat →
    count pv v + count pi i = count pv v' + count pi i' → pi (QSet t v i) = pi (QSet t' v' i');
  meaning_singleton : readsSingleton pv pi;
  meaning_unwrap q : pi (QSet 1 [] [q]) = pi q }.

#[global] Instance slice_meaning S : Meaning (inNodeSet S) (λ q, isQuorumSlice q S).
Proof.
  split.
  - intros t v i ? v' i' <- _ Hc. rewrite !isQuorumSlice_hits. unfold hits. simpl in *. by rewrite Hc.
  - intros n. rewrite isQuorumSlice_hits. unfold hits. simpl. rewrite count_cons, !count_nil.
    by destruct (inNodeSet S n).
  - intros q. rewrite isQuorumSlice_hits. unfold hits. simpl. rewrite count_cons, !count_nil.
    by destruct (isQuorumSlice q S).
Qed.

#[global] Instance vblocking_meaning S : Meaning (inNodeSet S) (λ q, isVBlockingSet q S).
Proof.
  split.
  - intros t v i ? v' i' <- Hl Hc. rewrite !isVBlocking_hits. unfold hits. simpl in *. rewrite Hc.
    by replace (1 + Z.of_nat (length v) + Z.of_nat (length i))
      with (1 + Z.of_nat (length v') + Z.of_nat (length i')) by lia.
  - intros n. rewrite isVBlocking_hits. unfold hits. simpl. rewrite count_cons, !count_nil.
    by destruct (inNodeSet S n).
  - intros q. rewrite isVBlocking_hits. unfold hits. simpl. rewrite count_cons, !count_nil.
    by destruct (isVBlockingSet q S).
Qed.

Section Preserve.
Context (pv : NodeID → bool) (pi : SCPQuorumSet → bool) `{!Meaning pv pi}.

Lemma simplify_meaning q : pi (normalizeQSetSimplify None q) = pi q.
Proof.
  induction q as [t v i IH] using qset_ind. rewrite Forall_forall in IH. simpl.
  pose proof (simplifyInner_count (normalizeQSetSimplify None) pv pi v i meaning_singleton IH) as Hc.
  pose proof (simplifyInner_length (normalizeQSetSimplify None) v i) as Hl.
  destruct (simplifyInner (normalizeQSetSimplify None) v i) as [v2 i2]. simpl in Hc, Hl.
  assert (pi (QSet t v2 i2) = pi (QSet t v i)) as Hq by (apply meaning_entries; [done|lia|done]).
  destruct i2 as [|q' [|q'' i2]]; [done| |done].
  destruct ((t =? 1) && (length v2 =? 0)%nat) eqn:E; [|done]. propify.
  apply Nat.eqb_eq, nil_length_inv in H0. subst t v2. by rewrite <- Hq, meaning_unwrap.
Qed.

Lemma reorder_meaning q : pi (normalizeQuorumSetReorder q) = pi q.
Proof.
  induction q as [t v i IH] using qset_ind. rewrite Forall_forall in IH. simpl.
  apply meaning_entries; [done| |].
  - rewrite !(Permutation_length (merge_sort_Permutation _ _)). by rewrite length_map.
  - rewrite !(count_perm _ _ _ (merge_sort_Permutation _ _)), count_map.
    by rewrite (count_ext (λ x, pi (normalizeQuorumSetReorder x)) pi i IH).
Qed.

Lemma normalize_meaning q : pi (normalizeQSet q None) = pi q.
Proof. unfold normalizeQSet. by rewrite reorder_meaning, simplify_meaning. Qed.
End Preserve.

Lemma simplify_nodes q : allNodes (normalizeQSetSimplify None q) ≡ₚ allNodes q.
Proof.
  induction q as [t v i IH] using qset_ind. rewrite Forall_forall in IH. simpl.
  pose proof (simplifyInner_nodes (normalizeQSetSimplify None) v i IH) as Hn.
  destruct (simplifyInner (normalizeQSetSimplify None) v i) as [v2 i2]. simpl in Hn.
  destruct i2 as [|q' [|q'' i2]]; [done| |done].
  destruct ((t =? 1) && (length v2 =? 0)%nat) eqn:E; [|done]. propify.
  apply Nat.eqb_eq, nil_length_inv in H0. subst v2. rewrite <- Hn. simpl. by rewrite app_nil_r.
Qed.

Lemma reorder_nodes q : allNodes (normalizeQuorumSetReorder q) ≡ₚ allNodes q.
Proof.
  induction q as [t v i IH] using qset_ind. rewrite Forall_forall in IH. simpl.
  rewrite merge_sort_Permutation. f_equiv.
  rewrite (Permutation_flat_map _ (merge_sort_Permutation _ _)). clear -IH.
  induction i as [|q i IHi]; [done|]. simpl. rewrite (IH q) by set_solver.
  rewrite IHi; [done|]. set_solver.
Qed.

(** Two quorum sets that no set of nodes tells apart. *)
Definition sameMeaning (q q' : SCPQuorumSet) : Prop := ∀ S,
  isQuorumSlice q S = isQuorumSlice q' S ∧ isVBlockingSet q S = isVBlockingSet q' S.

(** C21: [normalizeQSet] without a node to remove lists the same nodes and leaves
    the answers of the quorum slice and v-blocking tests unchanged, for every set
    of nodes. *)
Theorem normalization_preserves q :
  sameMeaning (normalizeQSet q None) q ∧ allNodes (normalizeQSet q None) ≡ₚ allNodes q.
Proof.
  split.
  - intros S. split.
    + apply (normalize_meaning (inNodeSet S) (λ q, isQuorumSlice q S)).
    + apply (normalize_meaning (inNodeSet S) (λ q, isVBlockingSet q S)).
  - unfold normalizeQSet. by rewrite reorder_nodes, simplify_nodes.
Qed.
