(* ===== verification/NodeWeight.v ===== *)
(** * Node weights and closest v-blocking sets: [scp/LocalNode.cpp]

    [computeWeight] and [getNodeWeight], from which the nomination protocol draws
    its leaders, and [findClosestVBlocking], from which the node reports how
    close it is to being blocked. *)
From stdpp Require Import base list gmap strings.
From Stdlib Require Import ZArith Lia.
From S2P Require Import Prelude UInt128 Numeric QuorumSet Statement LocalNode.

(** [forAllNodes]: validators first, then the inner sets from left to right. *)
Fixpoint forAllNodes {A} (proc : A → NodeID → A) (acc : A) (q : SCPQuorumSet) : A :=
  match q with
  | QSet _ v i => foldl (forAllNodes proc) (foldl proc acc v) i
  end.

Section Weight.
Context {S : Type}.

Definition computeWeight (m total threshold : Z) : M S Z :=
  assert_ (threshold <=? total);;
  '(_, res) ← bigDivide_u64 m threshold total ROUND_UP;
  mret res.

(** The loop over the inner sets: the first one that contains the node. *)
Definition innerWeights (weight : SCPQuorumSet → M S Z) (d n : Z) : list SCPQuorumSet → M S Z :=
  fix loop l :=
    match l with
    | [] => mret 0
    | q :: r =>
      leafW ← weight q;
      if negb (leafW =? 0) then computeWeight leafW d n else loop r
    end.

Fixpoint getNodeWeight (n : NodeID) (q : SCPQuorumSet) : M S Z :=
  match q with
  | QSet t v i =>
    let d := Z.of_nat (length i) + Z.of_nat (length v) in
    if bool_decide (n ∈ v) then computeWeight UINT64_MAX d t
    else innerWeights (getNodeWeight n) d t i
  end.
End Weight.

(** [findClosestVBlocking]. [None] is the early [return] of an empty vector. *)
Fixpoint scanValidators (nodes : list NodeID) (excluded : option NodeID) (leftTillBlock : Z)
    (res : list NodeID) (v : list NodeID) : option (Z * list NodeID) :=
  match v with
  | [] => Some (leftTillBlock, res)
  | x :: r =>
    if match excluded with Some e => negb (x =? e) | None => true end then
      if negb (bool_decide (x ∈ nodes)) then
        let leftTillBlock := u64 (leftTillBlock - 1) in
        if leftTillBlock =? 0 then None else scanValidators nodes excluded leftTillBlock res r
      else scanValidators nodes excluded leftTillBlock (res ++ [x]) r
    else scanValidators nodes excluded leftTillBlock res r
  end.

(** [multiset::emplace] with the order by size: after the elements of equal size. *)
Fixpoint insertBySize (v : list NodeID) (l : list (list NodeID)) : list (list NodeID) :=
  match l with
  | [] => [v]
  | w :: r => if (length v <? length w)%nat then v :: l else w :: insertBySize v r
  end.

Definition scanInner (closest : SCPQuorumSet → list NodeID) : Z → list (list NodeID) →
    list SCPQuorumSet → option (Z * list (list NodeID)) :=
  fix loop leftTillBlock resInternals l :=
    match l with
    | [] => Some (leftTillBlock, resInternals)
    | q :: r =>
      let v := closest q in
      if (length v =? 0)%nat then
        let leftTillBlock := u64 (leftTillBlock - 1) in
        if leftTillBlock =? 0 then None else loop leftTillBlock resInternals r
      else loop leftTillBlock (insertBySize v resInternals) r
    end.

(** The last loop: append whole vectors while nodes are missing. *)
Fixpoint takeInternals (leftTillBlock : Z) (res : list NodeID) (l : list (list NodeID)) : list NodeID :=
  match l with
  | [] => res
  | v :: r => if leftTillBlock =? 0 then res else takeInternals (u64 (leftTillBlock - 1)) (res ++ v) r
  end.

Fixpoint findClosestVBlocking (q : SCPQuorumSet) (nodes : list NodeID) (excluded : option NodeID)
    : list NodeID :=
  match q with
  | QSet t v i =>
    let leftTillBlock := u64 (1 + Z.of_nat (length v) + Z.of_nat (length i) - t) in
    match scanValidators nodes excluded leftTillBlock [] v with
    | None => []
    | Some (leftTillBlock, res) =>
      match scanInner (λ q, findClosestVBlocking q nodes excluded) leftTillBlock [] i with
      | None => []
      | Some (leftTillBlock, resInternals) =>
        let res := if leftTillBlock <? Z.of_nat (length res) then take (Z.to_nat leftTillBlock) res else res in
        let leftTillBlock := u64 (leftTillBlock - Z.of_nat (length res)) in
        takeInternals leftTillBlock res resInternals
      end
    end
  end.

(** The overload on a map of envelopes. *)
Definition findClosestVBlockingEnvs (q : SCPQuorumSet) (map : gmap NodeID SCPEnvelope)
    (filter : SCPStatement → bool) (excluded : option NodeID) : list NodeID :=
  findClosestVBlocking q (filterNodes map filter) excluded.

(** ** Weights are the products of the thresholds' ratios *)

Lemma forAllNodes_list {A} (proc : A → NodeID → A) q acc :
  forAllNodes proc acc q = foldl proc acc (allNodes q).
Proof.
  revert acc. induction q as [t v i IH] using qset_ind. intros acc. simpl. rewrite foldl_app.
  generalize (foldl proc acc v). clear acc. induction IH as [|q i Hq _ IHi]; intros acc; [done|].
  simpl. by rewrite foldl_app, Hq, IHi.
Qed.

Lemma computeWeight_spec {S} m total threshold (s : S) :
  0 < m <= UINT64_MAX → 1 <= threshold <= total → total < 2 ^ 31 →
  ∃ w, computeWeight m total threshold s = Ok w s ∧ 0 < w <= m ∧ w = divRound ROUND_UP (m * threshold) total.
Proof.
  intros Hm Ht Hb. unfold computeWeight, assert_. rewrite (proj2 (Z.leb_le _ _)) by lia.
  unfold mbind, M_bind. unfold mret at 1, M_ret at 1.
  rewrite bigDivide_u64_spec by (unfold is_u64, UINT64_MAX in *; lia).
  pose proof (divRound_up_mul (m * threshold) total ltac:(lia)).
  assert (0 < divRound ROUND_UP (m * threshold) total <= m) by nia.
  eexists. split; [reflexivity|]. rewrite Z.mod_small by (unfold UINT64_MAX in *; lia). done.
Qed.

(** In a set with sensible thresholds every member, and nobody else, has a
    positive weight. *)
(** For a quorum set with valid thresholds [getNodeWeight] returns, without an
    overflow, a 64-bit weight that is positive exactly for the nodes of the set. *)
Theorem getNodeWeight_spec {S} n q (s : S) :
  votable q →
  ∃ w, getNodeWeight n q s = Ok w s ∧ 0 <= w <= UINT64_MAX ∧ (0 < w ↔ n ∈ allNodes q).
Proof.
  induction q as [t v i IH] using qset_ind. intros (Ht & Hb & Hi). rewrite foldr_and_Forall in Hi.
  unfold totEntries in Ht, Hb. cbn [validators innerSets] in Ht, Hb.
  cbn [getNodeWeight allNodes]. setoid_rewrite elem_of_app. set (d := Z.of_nat (length i) + Z.of_nat (length v)).
  destruct (bool_decide (n ∈ v)) eqn:E; propify.
  - destruct (computeWeight_spec UINT64_MAX d t s) as (w & -> & Hw & _); [unfold UINT64_MAX; lia|lia..|].
    exists w. split_and!; [done|lia..|]. split; [auto|lia].
  - assert (1 <= t <= d ∧ d < 2 ^ 31) as [Htd Hd] by lia. clear Ht Hb. clearbody d.
    assert (∃ w, innerWeights (getNodeWeight n) d t i s = Ok w s ∧ 0 <= w <= UINT64_MAX ∧
              (0 < w ↔ n ∈ flat_map allNodes i)) as (w & -> & Hw & Hiff).
    { induction IH as [|q i Hq _ IHi]; [exists 0; unfold UINT64_MAX; set_solver by lia|].
      apply Forall_cons in Hi as [Hvq Hi]. destruct (Hq Hvq) as (w & Ew & Hw & Hiff).
      cbn [innerWeights]. unfold mbind, M_bind. rewrite Ew. cbn [flat_map]. setoid_rewrite elem_of_app.
      destruct (Z.eqb_spec w 0) as [->|Hw0]; cbn [negb].
      - destruct (IHi Hi) as (w' & E' & Hw' & Hiff'). exists w'. split_and!; [done|lia..|].
        rewrite Hiff'. split; [auto|]. intros [Hq'|]; [|done]. apply Hiff in Hq'. lia.
      - destruct (computeWeight_spec w d t s) as (w' & E' & Hw' & _); [lia..|].
        exists w'. split_and!; [done|lia..|]. split; [intros _; left; apply Hiff; lia|lia]. }
    exists w. split_and!; [done|lia..|]. rewrite Hiff. naive_solver.
Qed.

Lemma getNodeWeight_spec_witness : ∃ w, getNodeWeight 2 (QSet 2 [1; 2; 3] []) tt = Ok w tt ∧ 0 < w.
Proof.
  destruct (getNodeWeight_spec 2 (QSet 2 [1; 2; 3] []) tt) as (w & E & _ & Hw);
    [vm_compute; intuition discriminate|].
  exists w. split; [exact E|]. apply (proj2 Hw). apply list_elem_of_In. right. left. reflexivity.
Defined.
