(* ===== verification/CBitset.v ===== *)
(** * Bit sets in C: [lib/util/cbitset.h] and [lib/util/cbitset.c]

    A bit set is a block of 64-bit words of which the first [arraysize] are in use. Word
    [k] holds the members from [64 * k] to [64 * k + 63]. The operations are loops
    over words; this file models each of them and relates it to finite sets of
    natural numbers. *)
From stdpp Require Import base list gmap.
From Stdlib Require Import ZArith Lia.
From S2P Require Import Prelude.
#[local] Open Scope nat_scope.
#[local] Arguments Nat.div : simpl never.
#[local] Arguments Nat.modulo : simpl never.

(** ** Memory and words

    [malloc] and [realloc] give no promise about the words that have not been written yet:
    they are whatever [indeterminate] says. Shrinking a block to zero bytes returns a
    null pointer or not, depending on the C library. Other allocations succeed. *)
Class Malloc := {
  indeterminate : nat → Z;
  indeterminate_u64 k : is_u64 (indeterminate k);
  realloc_zero_is_null : bool }.

Record bitset_t := mkBitset { array : list Z; arraysize : nat; capacity : nat }.

(** [array[k]]; every access of the functions below is inside the block. *)
Definition at_ (a : list Z) (k : nat) : Z := nth k a 0%Z.

(** [realloc]: the block keeps its words, new ones are indeterminate. *)
Definition realloc `{Malloc} (a : list Z) (n : nat) : list Z :=
  take n a ++ map indeterminate (seq (length a) (n - length a)).

(** [for (k = lo; k < hi; ++k)] *)
Definition for_up {A} (lo hi : nat) (body : A → nat → A) (acc : A) : A :=
  fold_left body (seq lo (hi - lo)) acc.

(** [memset(array + lo, 0, 8 * (hi - lo))] and
    [memcpy(array + lo, src + lo, 8 * (hi - lo))]. *)
Definition memset0 (lo hi : nat) (a : list Z) : list Z := for_up lo hi (λ a k, <[k := 0%Z]> a) a.
Definition memcpy (lo hi : nat) (src a : list Z) : list Z :=
  for_up lo hi (λ a k, <[k := at_ src k]> a) a.

Definition bit64 (i : nat) : Z := Z.shiftl 1 (Z.of_nat (i mod 64)).
Definition not64 (w : Z) : Z := Z.lxor w UINT64_MAX.

(** The compiler's builtins on a 64-bit word. *)
Definition popcountll (w : Z) : nat :=
  length (List.filter (λ k, Z.testbit w (Z.of_nat k)) (seq 0 64)).
Fixpoint ctz_loop (fuel k : nat) (w : Z) : nat :=
  match fuel with
  | O => k
  | S fuel => if Z.testbit w (Z.of_nat k) then k else ctz_loop fuel (S k) w
  end.
Definition ctzll (w : Z) : nat := ctz_loop 64 0 w.
Definition clzll (w : Z) : nat := 63 - Z.to_nat (Z.log2 w).

(** ** Construction and size *)

Definition bitset_create : bitset_t := mkBitset [] 0 0.

Definition bitset_create_with_capacity (size : nat) : bitset_t :=
  let n := (size + 8 * 8 - 1) / (8 * 8) in mkBitset (replicate n 0%Z) n n.

Definition bitset_copy (b : bitset_t) : bitset_t :=
  mkBitset (take (arraysize b) (array b)) (arraysize b) (arraysize b).

Definition bitset_clear (b : bitset_t) : bitset_t :=
  mkBitset (memset0 0 (arraysize b) (array b)) (arraysize b) (capacity b).

Definition bitset_size_in_bytes (b : bitset_t) : nat := arraysize b * 8.
Definition bitset_size_in_bits (b : bitset_t) : nat := arraysize b * 64.
Definition bitset_size_in_words (b : bitset_t) : nat := arraysize b.

Definition bitset_resize `{Malloc} (b : bitset_t) (newarraysize : nat) (padwithzeroes : bool)
    : bitset_t :=
  let smallest := if newarraysize <? arraysize b then newarraysize else arraysize b in
  let '(a, cap) :=
    if capacity b <? newarraysize
    then (realloc (array b) (newarraysize * 2), newarraysize * 2)
    else (array b, capacity b) in
  let a := if padwithzeroes && (smallest <? newarraysize)
           then memset0 smallest newarraysize a else a in
  mkBitset a newarraysize cap.

Definition bitset_grow `{Malloc} (b : bitset_t) (newarraysize : nat) : bitset_t :=
  let '(a, cap) :=
    if capacity b <? newarraysize
    then (realloc (array b) (newarraysize * 2), newarraysize * 2)
    else (array b, capacity b) in
  mkBitset (memset0 (arraysize b) newarraysize a) newarraysize cap.

(** ** Single members *)

Definition bitset_set `{Malloc} (b : bitset_t) (i : nat) : bitset_t :=
  let shiftedi := i / 64 in
  let b := if arraysize b <=? shiftedi then bitset_grow b (shiftedi + 1) else b in
  mkBitset (<[shiftedi := Z.lor (at_ (array b) shiftedi) (bit64 i)]> (array b))
    (arraysize b) (capacity b).

Definition bitset_unset (b : bitset_t) (i : nat) : bitset_t :=
  let shiftedi := i / 64 in
  if arraysize b <=? shiftedi then b else
  mkBitset (<[shiftedi := Z.land (at_ (array b) shiftedi) (not64 (bit64 i))]> (array b))
    (arraysize b) (capacity b).

Definition bitset_get (b : bitset_t) (i : nat) : bool :=
  let shiftedi := i / 64 in
  if arraysize b <=? shiftedi then false else
  negb (Z.land (at_ (array b) shiftedi) (bit64 i) =? 0)%Z.

(** ** Counting

    [for (; k + s - 1 < n; k += s) card += f(k) + ... + f(k + s - 1);] *)
Fixpoint count_loop (fuel s : nat) (f : nat → nat) (n k card : nat) : nat * nat :=
  match fuel with
  | O => (k, card)
  | S fuel =>
    if k + (s - 1) <? n
    then count_loop fuel s f n (k + s) (card + list_sum (map f (seq k s)))
    else (k, card)
  end.
Definition count_by (s : nat) (f : nat → nat) (n : nat) (acc : nat * nat) : nat * nat :=
  count_loop (S n) s f n acc.1 acc.2.

Definition bitset_count (b : bitset_t) : nat :=
  let pop k := popcountll (at_ (array b) k) in
  let n := arraysize b in
  (count_by 1 pop n (count_by 4 pop n (count_by 8 pop n (0, 0)))).2.

Definition minlength (b1 b2 : bitset_t) : nat :=
  if arraysize b1 <? arraysize b2 then arraysize b1 else arraysize b2.

Definition bitset_union_count (b1 b2 : bitset_t) : nat :=
  let both k := popcountll (Z.lor (at_ (array b1) k) (at_ (array b2) k)) in
  let acc := count_by 1 both (minlength b1 b2) (count_by 4 both (minlength b1 b2) (0, 0)) in
  let b := if arraysize b1 <? arraysize b2 then b2 else b1 in
  let pop k := popcountll (at_ (array b) k) in
  (count_by 1 pop (arraysize b) (count_by 4 pop (arraysize b) acc)).2.

Definition bitset_intersection_count (b1 b2 : bitset_t) : nat :=
  (count_by 1 (λ k, popcountll (Z.land (at_ (array b1) k) (at_ (array b2) k)))
     (minlength b1 b2) (0, 0)).2.

Definition bitset_difference_count (b1 b2 : bitset_t) : nat :=
  let acc := count_by 1 (λ k, popcountll (Z.land (at_ (array b1) k) (not64 (at_ (array b2) k))))
               (minlength b1 b2) (0, 0) in
  (count_by 1 (λ k, popcountll (at_ (array b1) k)) (arraysize b1) acc).2.

Definition bitset_symmetric_difference_count (b1 b2 : bitset_t) : nat :=
  let acc := count_by 1 (λ k, popcountll (Z.lxor (at_ (array b1) k) (at_ (array b2) k)))
               (minlength b1 b2) (0, 0) in
  let b := if arraysize b1 <? arraysize b2 then b2 else b1 in
  (count_by 1 (λ k, popcountll (at_ (array b) k)) (arraysize b) acc).2.

(** ** Set operations in place *)

Definition zip_words (f : Z → Z → Z) (n : nat) (a1 a2 : list Z) : list Z :=
  for_up 0 n (λ a k, <[k := f (at_ a k) (at_ a2 k)]> a) a1.

(** The common shape of union and symmetric difference: combine the common words,
    then take over the words that only the second set has. *)
Definition merge_words `{Malloc} (f : Z → Z → Z) (b1 b2 : bitset_t) : bitset_t :=
  let a := zip_words f (minlength b1 b2) (array b1) (array b2) in
  let b1 := mkBitset a (arraysize b1) (capacity b1) in
  if arraysize b1 <? arraysize b2 then
    let oldsize := arraysize b1 in
    let b1 := bitset_resize b1 (arraysize b2) false in
    mkBitset (memcpy oldsize (arraysize b2) (array b2) (array b1)) (arraysize b1) (capacity b1)
  else b1.

Definition bitset_inplace_union `{Malloc} (b1 b2 : bitset_t) : bitset_t :=
  merge_words Z.lor b1 b2.
Definition bitset_inplace_symmetric_difference `{Malloc} (b1 b2 : bitset_t) : bitset_t :=
  merge_words Z.lxor b1 b2.

Definition bitset_inplace_intersection (b1 b2 : bitset_t) : bitset_t :=
  let a := zip_words Z.land (minlength b1 b2) (array b1) (array b2) in
  mkBitset (memset0 (minlength b1 b2) (arraysize b1) a) (arraysize b1) (capacity b1).

Definition bitset_inplace_difference (b1 b2 : bitset_t) : bitset_t :=
  mkBitset (zip_words (λ x y, Z.land x (not64 y)) (minlength b1 b2) (array b1) (array b2))
    (arraysize b1) (capacity b1).

(** ** Comparison, extrema, trimming *)

Definition bitset_equal (b1 b2 : bitset_t) : bool :=
  forallb (λ k, at_ (array b1) k =? at_ (array b2) k)%Z (seq 0 (minlength b1 b2)).

Definition bitset_subseteq (b1 b2 : bitset_t) : bool :=
  forallb (λ k, Z.land (at_ (array b1) k) (at_ (array b2) k) =? at_ (array b1) k)%Z
    (seq 0 (minlength b1 b2)).

Fixpoint first_word (a : list Z) (n k : nat) : option nat :=
  match n with
  | O => None
  | S n => if (at_ a k =? 0)%Z then first_word a n (S k) else Some k
  end.

Definition bitset_minimum (b : bitset_t) : nat :=
  match first_word (array b) (arraysize b) 0 with
  | Some k => ctzll (at_ (array b) k) + k * 64
  | None => 0
  end.

(** [last_word a k] is the loop that runs down from [k] over zero words: the number of
    words up to the last word that is not zero. *)
Fixpoint last_word (a : list Z) (k : nat) : nat :=
  match k with
  | O => O
  | S k' => if (at_ a k' =? 0)%Z then last_word a k' else k
  end.

Definition bitset_maximum (b : bitset_t) : nat :=
  match last_word (array b) (arraysize b) with
  | O => 0
  | S k => 63 - clzll (at_ (array b) k) + k * 64
  end.

(** [None] is [abort()], after a second [free] of the block that [realloc] freed. *)
Definition bitset_trim `{Malloc} (b : bitset_t) : option bitset_t :=
  let newsize := last_word (array b) (arraysize b) in
  if capacity b =? newsize then Some b
  else if (newsize =? 0) && realloc_zero_is_null then None
  else Some (mkBitset (realloc (array b) newsize) newsize newsize).

(** ** Iteration *)

(** [Some j]: true, with [*i] set to [j]. *)
Definition nextSetBit (b : bitset_t) (i : nat) : option nat :=
  let x := i / 64 in
  if arraysize b <=? x then None else
  let w := Z.shiftr (at_ (array b) x) (Z.of_nat (i mod 64)) in
  if (w =? 0)%Z then
    match first_word (array b) (arraysize b - (x + 1)) (x + 1) with
    | Some x => Some (x * 64 + ctzll (at_ (array b) x))
    | None => None
    end
  else Some (i + ctzll w).

(** [for (size_t i = 0; nextSetBit(b, &i); i++)]: the values of [i], as printed by
    [bitset_print]. *)
Fixpoint bits_from (fuel : nat) (b : bitset_t) (i : nat) : list nat :=
  match fuel with
  | O => []
  | S fuel => match nextSetBit b i with Some j => j :: bits_from fuel b (S j) | None => [] end
  end.
Definition for_bits (b : bitset_t) : list nat := bits_from (S (arraysize b * 64)) b 0.

(** [w ^ (w & (~w + 1))]: the word without its lowest bit. *)
Definition drop_lowest (w : Z) : Z := Z.lxor w (Z.land w (u64 (not64 w + 1))).

Section ForEach.
Context {S : Type} (iterator : nat → S → bool * S).
Fixpoint word_for_each (fuel : nat) (w : Z) (base : nat) (s : S) : bool * S :=
  match fuel with
  | O => (true, s)
  | Datatypes.S fuel =>
    if (w =? 0)%Z then (true, s) else
    let '(ok, s) := iterator (ctzll w + base) s in
    if ok then word_for_each fuel (drop_lowest w) base s else (false, s)
  end.
Fixpoint words_for_each (a : list Z) (n i base : nat) (s : S) : bool * S :=
  match n with
  | O => (true, s)
  | Datatypes.S n =>
    let '(ok, s) := word_for_each 65 (at_ a i) base s in
    if ok then words_for_each a n (Datatypes.S i) (base + 64) s else (false, s)
  end.
Definition bitset_for_each (b : bitset_t) (s : S) : bool * S :=
  words_for_each (array b) (arraysize b) 0 0 s.
End ForEach.

Fixpoint word_bits (fuel : nat) (w : Z) (base cap : nat) (buffer : list nat) : list nat * bool :=
  match fuel with
  | O => (buffer, false)
  | S fuel =>
    if (w =? 0)%Z then (buffer, false) else
    let buffer := buffer ++ [ctzll w + base] in
    if length buffer =? cap then (buffer, true)
    else word_bits fuel (drop_lowest w) base cap buffer
  end.
Fixpoint next_words (n : nat) (a : list Z) (x base : nat) (w : Z) (cap : nat) (buffer : list nat)
    : list nat :=
  let '(buffer, full) := word_bits 65 w base cap buffer in
  if full then buffer else
  match n with
  | O => buffer
  | S n => next_words n a (x + 1) (base + 64) (at_ a (x + 1)) cap buffer
  end.

(** The filled part of the buffer and the new [*startfrom]. *)
Definition nextSetBits (b : bitset_t) (cap startfrom : nat) : list nat * nat :=
  if cap =? 0 then ([], startfrom) else
  let x := startfrom / 64 in
  if arraysize b <=? x then ([], startfrom) else
  let w := Z.shiftr (at_ (array b) x) (Z.of_nat (startfrom mod 64)) in
  let buffer := next_words (arraysize b - (x + 1)) (array b) x (x * 64) w cap [] in
  (buffer, List.last buffer startfrom).

(** ** Shifts

    [None] is an access outside of the block: [array[-1]] for an empty set, or a loop
    whose bound [as - extra_words] has wrapped around. *)
Definition for_down {A} (hi lo : nat) (body : A → nat → A) (acc : A) : A :=
  fold_left body (rev (seq (S lo) (hi - lo))) acc.

Definition shl64 (w : Z) (s : nat) : Z := u64 (Z.shiftl w (Z.of_nat s)).
Definition shr64 (w : Z) (s : nat) : Z := Z.shiftr w (Z.of_nat s).

Definition bitset_shift_left `{Malloc} (b : bitset_t) (s : nat) : option bitset_t :=
  let extra_words := s / 64 in
  let inword_shift := s mod 64 in
  let as_ := arraysize b in
  if inword_shift =? 0 then
    let b := bitset_resize b (as_ + extra_words) false in
    let a := for_down (as_ + extra_words) extra_words
               (λ a i, <[i - 1 := at_ a (i - 1 - extra_words)]> a) (array b) in
    Some (mkBitset (memset0 0 extra_words a) (arraysize b) (capacity b))
  else if as_ =? 0 then None
  else
    let b := bitset_resize b (as_ + extra_words + 1) true in
    let a := <[as_ + extra_words := shr64 (at_ (array b) (as_ - 1)) (64 - inword_shift)]> (array b) in
    let a := for_down (as_ + extra_words) (extra_words + 1)
               (λ a i, <[i - 1 := Z.lor (shl64 (at_ a (i - 1 - extra_words)) inword_shift)
                                        (shr64 (at_ a (i - 2 - extra_words)) (64 - inword_shift))]> a) a in
    let a := <[extra_words := shl64 (at_ a 0) inword_shift]> a in
    Some (mkBitset (memset0 0 extra_words a) (arraysize b) (capacity b)).

Definition bitset_shift_right `{Malloc} (b : bitset_t) (s : nat) : option bitset_t :=
  let extra_words := s / 64 in
  let inword_shift := s mod 64 in
  let as_ := arraysize b in
  if inword_shift =? 0 then
    if as_ <? extra_words then None else
    let a := for_up 0 (as_ - extra_words) (λ a i, <[i := at_ a (i + extra_words)]> a) (array b) in
    Some (bitset_resize (mkBitset a as_ (capacity b)) (as_ - extra_words) false)
  else
    if as_ <=? extra_words then None else
    let a := for_up 0 (as_ - extra_words - 1)
               (λ a i, <[i := Z.lor (shr64 (at_ a (i + extra_words)) inword_shift)
                                    (shl64 (at_ a (i + extra_words + 1)) (64 - inword_shift))]> a)
               (array b) in
    let a := <[as_ - extra_words - 1 := shr64 (at_ a (as_ - 1)) inword_shift]> a in
    Some (bitset_resize (mkBitset a as_ (capacity b)) (as_ - extra_words) false).

(** ** Loops and words *)

(** Decide the comparisons of indices that the goal branches on. *)
Ltac nat_cases :=
  repeat match goal with
  | |- context [?x <? ?y] => destruct (Nat.ltb_spec x y)
  | |- context [?x <=? ?y] => destruct (Nat.leb_spec x y)
  | |- context [?x =? ?y] => destruct (Nat.eqb_spec x y)
  end; cbn [andb orb negb]; try lia; try done.

(** Evaluate the comparisons of indices that are settled by the hypotheses. *)
Ltac nat_decide :=
  repeat match goal with
  | |- context [?x <? ?y] =>
    first [rewrite (proj2 (Nat.ltb_lt x y)) by lia | rewrite (proj2 (Nat.ltb_ge x y)) by lia]
  | |- context [?x <=? ?y] =>
    first [rewrite (proj2 (Nat.leb_le x y)) by lia | rewrite (proj2 (Nat.leb_gt x y)) by lia]
  | |- context [?x =? ?y] =>
    first [rewrite (proj2 (Nat.eqb_eq x y)) by lia | rewrite (proj2 (Nat.eqb_neq x y)) by lia]
  end; cbn [andb orb negb].

Lemma for_up_ind {A} (P : nat → A → Prop) lo hi body acc :
  lo ≤ hi → P lo acc → (∀ k a, lo ≤ k < hi → P k a → P (S k) (body a k)) →
  P hi (for_up lo hi body acc).
Proof.
  intros Hle. unfold for_up. remember (hi - lo) as n eqn:En.
  assert (hi = lo + n) as -> by lia. clear En Hle.
  revert lo acc. induction n as [|n IH]; intros lo acc H0 Hs; simpl.
  - by rewrite Nat.add_0_r.
  - replace (lo + S n) with (S lo + n) by lia.
    apply IH; [apply Hs; [lia|done]|]. intros k a Hk. apply Hs. lia.
Qed.

Lemma for_down_ind {A} (P : nat → A → Prop) hi lo body acc :
  lo ≤ hi → P hi acc → (∀ k a, lo < k ≤ hi → P k a → P (k - 1) (body a k)) →
  P lo (for_down hi lo body acc).
Proof.
  intros Hle. unfold for_down. remember (hi - lo) as n eqn:En.
  assert (hi = lo + n) as -> by lia. clear En Hle.
  revert acc. induction n as [|n IH]; intros acc H0 Hs.
  - by rewrite Nat.add_0_r in H0.
  - rewrite seq_S, rev_app_distr. simpl. apply IH.
    + specialize (Hs (lo + S n) acc ltac:(lia) H0).
      by replace (lo + S n - 1) with (lo + n) in Hs by lia; replace (lo + S n) with (S (lo + n)) in Hs by lia.
    + intros k a Hk. apply Hs. lia.
Qed.

Lemma at_insert a k v j :
  at_ (<[k := v]> a) j = if (j =? k) && (k <? length a) then v else at_ a j.
Proof.
  unfold at_. rewrite !(nth_lookup _ _ 0%Z).
  destruct (Nat.eqb_spec j k) as [->|Hjk]; simpl.
  - destruct (Nat.ltb_spec k (length a)).
    + rewrite list_lookup_insert_eq by done. done.
    + rewrite list_insert_ge by done. done.
  - rewrite list_lookup_insert_ne by done. done.
Qed.

Lemma at_ge a k : length a ≤ k → at_ a k = 0%Z.
Proof. apply nth_overflow. Qed.

Lemma at_app a c k : at_ (a ++ c) k = if k <? length a then at_ a k else at_ c (k - length a).
Proof. unfold at_. nat_cases; [by apply app_nth1|by apply app_nth2]. Qed.

Lemma at_take a n k : at_ (take n a) k = if k <? n then at_ a k else 0%Z.
Proof.
  unfold at_. rewrite !(nth_lookup _ _ 0%Z). nat_cases.
  - by rewrite lookup_take_lt.
  - by rewrite lookup_take_ge.
Qed.

(** A loop that writes [f k] at each index [k] in turn. *)
Lemma for_up_at (f : nat → Z) lo hi body a0 :
  hi ≤ length a0 →
  (∀ k a, lo ≤ k < hi → length a = length a0 →
    (∀ j, at_ a j = if (lo <=? j) && (j <? k) then f j else at_ a0 j) →
    body a k = <[k := f k]> a) →
  length (for_up lo hi body a0) = length a0 ∧
  ∀ j, at_ (for_up lo hi body a0) j = if (lo <=? j) && (j <? hi) then f j else at_ a0 j.
Proof.
  intros Hhi Hb. destruct (decide (lo ≤ hi)) as [Hle|Hgt].
  - apply (for_up_ind (λ k a, length a = length a0 ∧
      ∀ j, at_ a j = if (lo <=? j) && (j <? k) then f j else at_ a0 j)); [done| |].
    + split; [done|]. intros j. nat_cases.
    + intros k a Hk [Hlen Hat]. rewrite Hb by auto. split; [by rewrite length_insert|].
      intros j. rewrite at_insert, Hat. nat_cases. by subst.
  - unfold for_up. replace (hi - lo) with 0 by lia. simpl. split; [done|].
    intros j. nat_cases.
Qed.

Lemma memset0_at lo hi a :
  hi ≤ length a → length (memset0 lo hi a) = length a ∧
  ∀ j, at_ (memset0 lo hi a) j = if (lo <=? j) && (j <? hi) then 0%Z else at_ a j.
Proof. intros Hhi. apply (for_up_at (λ _, 0%Z)); auto. Qed.

Lemma memcpy_at lo hi src a :
  hi ≤ length a → length (memcpy lo hi src a) = length a ∧
  ∀ j, at_ (memcpy lo hi src a) j = if (lo <=? j) && (j <? hi) then at_ src j else at_ a j.
Proof. intros Hhi. apply (for_up_at (at_ src)); auto. Qed.

Lemma zip_words_at f n a1 a2 :
  n ≤ length a1 → length (zip_words f n a1 a2) = length a1 ∧
  ∀ j, at_ (zip_words f n a1 a2) j = if j <? n then f (at_ a1 j) (at_ a2 j) else at_ a1 j.
Proof.
  intros Hn. apply (for_up_at (λ j, f (at_ a1 j) (at_ a2 j)) 0); [done|].
  intros k a Hk Hl Hat. rewrite (Hat k). nat_cases.
Qed.

(** ** Well-formed sets and their members *)

Record wf (b : bitset_t) : Prop := {
  wf_len : length (array b) = capacity b;
  wf_size : arraysize b ≤ capacity b;
  wf_words k : is_u64 (at_ (array b) k) }.

(** The words in use, continued by zeroes. *)
Definition wd (b : bitset_t) (k : nat) : Z := if k <? arraysize b then at_ (array b) k else 0%Z.

Lemma is_u64_bits w : is_u64 w ↔ (0 <= w)%Z ∧ ∀ n, (64 <= n)%Z → Z.testbit w n = false.
Proof.
  unfold is_u64, UINT64_MAX. split.
  - intros Hw. split; [lia|]. intros n Hn. destruct (decide (w = 0%Z)) as [->|Hne]; [apply Z.bits_0|].
    apply Z.bits_above_log2; [lia|]. apply Z.log2_lt_pow2; [lia|].
    apply Z.lt_le_trans with (2 ^ 64)%Z; [lia|]. apply Z.pow_le_mono_r; lia.
  - intros [H0 Hb]. split; [done|]. destruct (decide (w = 0%Z)) as [->|Hne]; [lia|].
    assert (Z.log2 w < 64)%Z as Hl.
    { apply Z.nle_gt. intros Hl. specialize (Hb _ Hl). rewrite Z.bit_log2 in Hb; [done|lia]. }
    apply Z.log2_lt_pow2 in Hl; lia.
Qed.

Lemma is_u64_0 : is_u64 0.
Proof. unfold is_u64, UINT64_MAX. lia. Qed.
Lemma is_u64_lor x y : is_u64 x → is_u64 y → is_u64 (Z.lor x y).
Proof.
  rewrite !is_u64_bits. intros [Hx Bx] [Hy By]. split; [by apply Z.lor_nonneg|].
  intros n Hn. by rewrite Z.lor_spec, Bx, By.
Qed.
Lemma is_u64_land x y : is_u64 x → is_u64 (Z.land x y).
Proof.
  rewrite !is_u64_bits. intros [Hx Bx]. split; [apply Z.land_nonneg; auto|].
  intros n Hn. by rewrite Z.land_spec, Bx.
Qed.
Lemma is_u64_lxor x y : is_u64 x → is_u64 y → is_u64 (Z.lxor x y).
Proof.
  rewrite !is_u64_bits. intros [Hx Bx] [Hy By]. split; [by apply Z.lxor_nonneg|].
  intros n Hn. by rewrite Z.lxor_spec, Bx, By.
Qed.
Lemma is_u64_shiftr x n : (0 <= n)%Z → is_u64 x → is_u64 (Z.shiftr x n).
Proof.
  rewrite !is_u64_bits. intros Hn [Hx Bx]. split; [by apply Z.shiftr_nonneg|].
  intros m Hm. rewrite Z.shiftr_spec by lia. apply Bx. lia.
Qed.
Lemma is_u64_bit64 i : is_u64 (bit64 i).
Proof.
  unfold bit64, is_u64, UINT64_MAX. rewrite Z.shiftl_mul_pow2, Z.mul_1_l by lia.
  pose proof (Nat.mod_upper_bound i 64). split; [apply Z.pow_nonneg; lia|].
  apply Z.le_trans with (2 ^ 63)%Z; [apply Z.pow_le_mono_r; lia|lia].
Qed.
#[export] Hint Resolve is_u64_0 is_u64_lor is_u64_land is_u64_lxor is_u64_bit64 u64_range : u64.

Lemma bit64_testbit i n : Z.testbit (bit64 i) (Z.of_nat n) = (n =? i mod 64).
Proof.
  unfold bit64. rewrite Z.shiftl_spec by lia. nat_cases.
  - subst. by rewrite Z.sub_diag.
  - destruct (decide (n < i mod 64)); [by rewrite Z.testbit_neg_r by lia|].
    apply Z.bits_above_log2; [lia|]. change (Z.log2 1) with 0%Z. lia.
Qed.

Lemma max_testbit n : Z.testbit UINT64_MAX (Z.of_nat n) = (n <? 64).
Proof.
  change UINT64_MAX with (Z.ones 64). destruct (Nat.ltb_spec n 64).
  - apply Z.ones_spec_low. lia.
  - apply Z.ones_spec_high. lia.
Qed.

Lemma not64_testbit w n : n < 64 → Z.testbit (not64 w) (Z.of_nat n) = negb (Z.testbit w (Z.of_nat n)).
Proof.
  intros Hn. unfold not64. rewrite Z.lxor_spec, max_testbit. nat_cases.
Qed.

(** Equality of words is equality of their 64 bits. *)
Lemma u64_bits_eq x y :
  is_u64 x → is_u64 y → (∀ n, n < 64 → Z.testbit x (Z.of_nat n) = Z.testbit y (Z.of_nat n)) → x = y.
Proof.
  rewrite !is_u64_bits. intros [Hx Bx] [Hy By] Hxy. apply Z.bits_inj'. intros n Hn.
  destruct (decide (n < 64)%Z) as [Hlt|Hge]; [|by rewrite Bx, By by lia].
  specialize (Hxy (Z.to_nat n)). rewrite Z2Nat.id in Hxy by lia. apply Hxy. lia.
Qed.

Lemma land_bit64 w i : negb (Z.land w (bit64 i) =? 0)%Z = Z.testbit w (Z.of_nat (i mod 64)).
Proof.
  pose proof (Nat.mod_upper_bound i 64 ltac:(lia)) as Hm.
  assert (∀ n, n < 64 → Z.testbit (Z.land w (bit64 i)) (Z.of_nat n) =
                 Z.testbit w (Z.of_nat (i mod 64)) && (n =? i mod 64)) as Hb.
  { intros n Hn. rewrite Z.land_spec, bit64_testbit. nat_cases. by subst. }
  destruct (Z.testbit w (Z.of_nat (i mod 64))) eqn:E.
  - apply negb_true_iff, Z.eqb_neq. intros H0. specialize (Hb _ Hm). rewrite H0, Z.bits_0 in Hb.
    rewrite Nat.eqb_refl in Hb. done.
  - apply negb_false_iff, Z.eqb_eq. apply u64_bits_eq; [|apply is_u64_0|].
    + rewrite Z.land_comm. auto with u64.
    + intros n Hn. rewrite Hb by done. by rewrite Z.bits_0.
Qed.

Lemma get_wd b i : bitset_get b i = Z.testbit (wd b (i / 64)) (Z.of_nat (i mod 64)).
Proof.
  unfold bitset_get, wd. rewrite land_bit64. nat_cases. by rewrite Z.bits_0.
Qed.

Lemma wd_ge b k : arraysize b ≤ k → wd b k = 0%Z.
Proof. intros Hk. unfold wd. nat_cases. Qed.

Lemma wf_wd b k : wf b → is_u64 (wd b k).
Proof. intros Hb. unfold wd. nat_cases. apply Hb. Qed.

Lemma get_ge b i : arraysize b * 64 ≤ i → bitset_get b i = false.
Proof.
  intros Hi. rewrite get_wd, wd_ge; [apply Z.bits_0|].
  apply Nat.div_le_lower_bound; lia.
Qed.

Lemma div_mod_64 k n : n < 64 → (n + k * 64) / 64 = k ∧ (n + k * 64) mod 64 = n.
Proof.
  intros Hn. split.
  - rewrite Nat.div_add, Nat.div_small by lia. done.
  - rewrite Nat.Div0.mod_add, Nat.mod_small by lia. done.
Qed.

Lemma wd_get b k n : n < 64 → Z.testbit (wd b k) (Z.of_nat n) = bitset_get b (n + k * 64).
Proof. intros Hn. rewrite get_wd. by destruct (div_mod_64 k n Hn) as [-> ->]. Qed.

(** Sets of words that agree on all members agree on all words. *)
Lemma wd_ext b b' : wf b → wf b' → (∀ i, bitset_get b i = bitset_get b' i) → ∀ k, wd b k = wd b' k.
Proof.
  intros Hb Hb' Heq k. apply u64_bits_eq; [by apply wf_wd|by apply wf_wd|].
  intros n Hn. rewrite !wd_get by done. apply Heq.
Qed.

(** ** Every operation on words *)

Section Operations.
Context `{Malloc}.
Implicit Types b : bitset_t.

Lemma mk_wf a n c : length a = c → n ≤ c → (∀ k, k < c → is_u64 (at_ a k)) → wf (mkBitset a n c).
Proof.
  intros Hl Hn Hw. split; [done|done|]. intros k. simpl.
  destruct (decide (k < c)); [auto|]. rewrite at_ge by lia. apply is_u64_0.
Qed.

Lemma create_wf : wf bitset_create.
Proof. apply mk_wf; [done|done|]. intros. lia. Qed.

Lemma at_replicate n k : at_ (replicate n 0%Z) k = 0%Z.
Proof.
  unfold at_. rewrite nth_lookup. destruct (replicate n 0%Z !! k) as [x|] eqn:E; [|done].
  by apply lookup_replicate in E as [-> _].
Qed.

Lemma create_capacity_wf n : wf (bitset_create_with_capacity n).
Proof. apply mk_wf; [apply length_replicate|done|]. intros. rewrite at_replicate. apply is_u64_0. Qed.
Lemma create_capacity_wd n k : wd (bitset_create_with_capacity n) k = 0%Z.
Proof. unfold wd. simpl. rewrite at_replicate. nat_cases. Qed.

Lemma copy_wf b : wf b → wf (bitset_copy b).
Proof.
  intros [Hl Hs Hw]. apply mk_wf; [rewrite length_take; lia|done|].
  intros k Hk. rewrite at_take. nat_cases.
Qed.
Lemma copy_wd b k : wd (bitset_copy b) k = wd b k.
Proof. unfold wd. simpl. rewrite at_take. nat_cases. Qed.

Lemma clear_wf b : wf b → wf (bitset_clear b).
Proof.
  intros [Hl Hs Hw]. destruct (memset0_at 0 (arraysize b) (array b)) as [Hlen Hat]; [lia|].
  apply mk_wf; [lia|done|]. intros k Hk. rewrite Hat. nat_cases; apply Hw.
Qed.
Lemma clear_wd b k : wf b → wd (bitset_clear b) k = 0%Z.
Proof.
  intros [Hl Hs Hw]. unfold wd. simpl.
  destruct (memset0_at 0 (arraysize b) (array b)) as [_ Hat]; [lia|]. rewrite Hat. nat_cases.
Qed.

Lemma realloc_length a n : length (realloc a n) = n.
Proof. unfold realloc. rewrite length_app, length_take, length_map, length_seq. lia. Qed.
Lemma realloc_at a n k : k < n → k < length a → at_ (realloc a n) k = at_ a k.
Proof. intros Hn Ha. unfold realloc. rewrite at_app, length_take, at_take. nat_cases. Qed.
Lemma realloc_u64 a n k : (∀ k, is_u64 (at_ a k)) → is_u64 (at_ (realloc a n) k).
Proof.
  intros Ha. unfold realloc. rewrite at_app, at_take. nat_cases.
  unfold at_. rewrite nth_lookup, list_lookup_fmap.
  destruct (seq _ _ !! _); simpl; [apply indeterminate_u64|apply is_u64_0].
Qed.

(** The block that [resize] and [grow] provide. *)
Definition enlarged b n : list Z * nat :=
  if capacity b <? n then (realloc (array b) (n * 2), n * 2) else (array b, capacity b).

Lemma enlarged_spec b n :
  wf b → length (enlarged b n).1 = (enlarged b n).2 ∧ n ≤ (enlarged b n).2 ∧
         (∀ k, is_u64 (at_ (enlarged b n).1 k)) ∧
         (∀ k, k < arraysize b → k < n → at_ (enlarged b n).1 k = at_ (array b) k).
Proof.
  intros [Hl Hs Hw]. unfold enlarged. destruct (Nat.ltb_spec (capacity b) n); simpl.
  - rewrite realloc_length. split_and!; [done|lia|intros; by apply realloc_u64|].
    intros k Hk Hn. apply realloc_at; lia.
  - split_and!; [done|lia|done|done].
Qed.

Lemma grow_enlarged b n :
  bitset_grow b n = mkBitset (memset0 (arraysize b) n (enlarged b n).1) n (enlarged b n).2.
Proof. unfold bitset_grow, enlarged. by destruct (_ <? _). Qed.

Lemma grow_wf b n : wf b → wf (bitset_grow b n).
Proof.
  intros Hb. rewrite grow_enlarged. destruct (enlarged_spec b n Hb) as (Hl & Hn & Hw & _).
  destruct (memset0_at (arraysize b) n (enlarged b n).1) as [Hlen Hat]; [lia|].
  apply mk_wf; [lia|lia|]. intros k Hk. rewrite Hat. nat_cases; apply Hw.
Qed.
Lemma grow_wd b n k : wf b → arraysize b ≤ n → wd (bitset_grow b n) k = wd b k.
Proof.
  intros Hb Hle. rewrite grow_enlarged. destruct (enlarged_spec b n Hb) as (Hl & Hn & Hw & Hat').
  destruct (memset0_at (arraysize b) n (enlarged b n).1) as [Hlen Hat]; [lia|].
  unfold wd. simpl. rewrite Hat. nat_cases. apply Hat'; lia.
Qed.

Lemma resize_enlarged b n :
  bitset_resize b n false = mkBitset (enlarged b n).1 n (enlarged b n).2.
Proof. unfold bitset_resize, enlarged. by destruct (_ <? _). Qed.
Lemma resize_wf b n : wf b → wf (bitset_resize b n false).
Proof.
  intros Hb. rewrite resize_enlarged. destruct (enlarged_spec b n Hb) as (Hl & Hn & Hw & _).
  by apply mk_wf.
Qed.
Lemma resize_shrink b n k :
  wf b → n ≤ arraysize b → wd (bitset_resize b n false) k = if k <? n then wd b k else 0%Z.
Proof.
  intros Hb Hle. rewrite resize_enlarged. destruct (enlarged_spec b n Hb) as (_ & _ & _ & Hat).
  unfold wd. simpl. nat_cases. apply Hat; lia.
Qed.

(** Growing with zeroes, as [bitset_grow] does. *)
Lemma resize_pad b n :
  arraysize b < n → bitset_resize b n true = bitset_grow b n.
Proof.
  intros Hn. unfold bitset_resize, bitset_grow.
  destruct (Nat.ltb_spec n (arraysize b)); [lia|].
  destruct (Nat.ltb_spec (arraysize b) n); [|lia]. by destruct (_ <? _).
Qed.

Lemma set_block b i :
  wf b → let b' := if arraysize b <=? i / 64 then bitset_grow b (i / 64 + 1) else b in
  wf b' ∧ i / 64 < arraysize b' ∧ ∀ k, wd b' k = wd b k.
Proof.
  intros Hb. simpl. destruct (Nat.leb_spec (arraysize b) (i / 64)).
  - split_and!; [by apply grow_wf|rewrite grow_enlarged; simpl; lia|].
    intros k. apply grow_wd; [done|lia].
  - done.
Qed.

Lemma set_wf b i : wf b → wf (bitset_set b i).
Proof.
  intros Hb. destruct (set_block b i Hb) as (Hb' & Hi & _). unfold bitset_set.
  set (b' := if arraysize b <=? i / 64 then bitset_grow b (i / 64 + 1) else b) in *. destruct Hb' as [Hl Hs Hw].
  apply mk_wf; [by rewrite length_insert|done|]. intros k Hk.
  rewrite at_insert. nat_cases; auto with u64.
Qed.
Lemma set_wd b i k :
  wf b → wd (bitset_set b i) k = if k =? i / 64 then Z.lor (wd b k) (bit64 i) else wd b k.
Proof.
  intros Hb. destruct (set_block b i Hb) as (Hb' & Hi & Hwd). unfold bitset_set.
  rewrite <- (Hwd k). set (b' := if arraysize b <=? i / 64 then bitset_grow b (i / 64 + 1) else b) in *. destruct Hb' as [Hl Hs Hw].
  unfold wd. simpl. rewrite at_insert. nat_cases. by subst.
Qed.

Lemma unset_wf b i : wf b → wf (bitset_unset b i).
Proof.
  intros Hb. unfold bitset_unset. destruct (_ <=? _); [done|]. destruct Hb as [Hl Hs Hw].
  apply mk_wf; [by rewrite length_insert|done|]. intros k Hk.
  rewrite at_insert. nat_cases; auto with u64.
Qed.
Lemma unset_wd b i k :
  wf b → wd (bitset_unset b i) k =
         if k =? i / 64 then Z.land (wd b k) (not64 (bit64 i)) else wd b k.
Proof.
  intros [Hl Hs Hw]. unfold bitset_unset. destruct (Nat.leb_spec (arraysize b) (i / 64)).
  - unfold wd. nat_cases.
  - unfold wd. simpl. rewrite at_insert. nat_cases. by subst.
Qed.

Lemma minlength_min b1 b2 : minlength b1 b2 = Nat.min (arraysize b1) (arraysize b2).
Proof. unfold minlength. nat_cases. Qed.

Lemma zip_wf f b1 b2 :
  wf b1 → wf b2 → (∀ x y, is_u64 x → is_u64 y → is_u64 (f x y)) →
  wf (mkBitset (zip_words f (minlength b1 b2) (array b1) (array b2)) (arraysize b1) (capacity b1)).
Proof.
  intros [Hl Hs Hw] [_ _ Hw2] Hf. rewrite minlength_min.
  destruct (zip_words_at f (arraysize b1 `min` arraysize b2) (array b1) (array b2)) as [Hlen Hat]; [lia|].
  apply mk_wf; [lia|done|]. intros k Hk. rewrite Hat. nat_cases. auto.
Qed.
Lemma zip_wd f b1 b2 k :
  wf b1 →
  wd (mkBitset (zip_words f (minlength b1 b2) (array b1) (array b2)) (arraysize b1) (capacity b1)) k =
  if k <? minlength b1 b2 then f (wd b1 k) (wd b2 k) else wd b1 k.
Proof.
  intros [Hl Hs Hw]. rewrite minlength_min.
  destruct (zip_words_at f (arraysize b1 `min` arraysize b2) (array b1) (array b2)) as [Hlen Hat]; [lia|].
  unfold wd. simpl. rewrite Hat. nat_cases.
Qed.

Lemma merge_words_wf f b1 b2 :
  wf b1 → wf b2 → (∀ x y, is_u64 x → is_u64 y → is_u64 (f x y)) → wf (merge_words f b1 b2).
Proof.
  intros H1 H2 Hf. pose proof (zip_wf f b1 b2 H1 H2 Hf) as Hz. unfold merge_words. cbn [arraysize].
  destruct (Nat.ltb_spec (arraysize b1) (arraysize b2)); [|done].
  rewrite resize_enlarged. cbn [array arraysize capacity].
  destruct (enlarged_spec _ (arraysize b2) Hz) as (Hl & Hn & Hw & _). set (e := enlarged _ _) in *.
  destruct (memcpy_at (arraysize b1) (arraysize b2) (array b2) e.1) as [Hlen Hat]; [lia|].
  apply mk_wf; [lia|lia|]. intros k Hk. rewrite Hat. destruct H2. nat_cases; auto.
Qed.
Lemma merge_words_wd f b1 b2 k :
  wf b1 → wf b2 → (∀ x, f x 0%Z = x) → (∀ y, f 0%Z y = y) → (∀ x y, is_u64 x → is_u64 y → is_u64 (f x y)) →
  wd (merge_words f b1 b2) k = f (wd b1 k) (wd b2 k).
Proof.
  intros H1 H2 Hr Hl0 Hf. pose proof (zip_wf f b1 b2 H1 H2 Hf) as Hz.
  pose proof (zip_wd f b1 b2 k H1) as Hzk.
  unfold merge_words. cbn [arraysize].
  destruct (Nat.ltb_spec (arraysize b1) (arraysize b2)) as [Hlt|Hge].
  - rewrite resize_enlarged. cbn [array arraysize capacity].
    destruct (enlarged_spec _ (arraysize b2) Hz) as (Hl & Hn & Hw & Hold). set (e := enlarged _ _) in *.
    destruct (memcpy_at (arraysize b1) (arraysize b2) (array b2) e.1) as [_ Hat]; [lia|].
    rewrite minlength_min, Nat.min_l in Hzk, Hold by lia. cbn [arraysize array] in Hold.
    unfold wd in *. cbn [array arraysize] in *. rewrite Hat. specialize (Hold k).
    revert Hzk Hold. nat_cases; intros Hzk Hold; rewrite ?Hl0, ?Hr; auto.
  - rewrite Hzk, minlength_min, Nat.min_r by lia. nat_cases. by rewrite (wd_ge b2 k), Hr by lia.
Qed.

Lemma union_wd b1 b2 k :
  wf b1 → wf b2 → wd (bitset_inplace_union b1 b2) k = Z.lor (wd b1 k) (wd b2 k).
Proof. intros. apply merge_words_wd; auto using Z.lor_0_r, Z.lor_0_l with u64. Qed.
Lemma symdiff_wd b1 b2 k :
  wf b1 → wf b2 → wd (bitset_inplace_symmetric_difference b1 b2) k = Z.lxor (wd b1 k) (wd b2 k).
Proof. intros. apply merge_words_wd; auto using Z.lxor_0_r, Z.lxor_0_l with u64. Qed.

Lemma inter_wf b1 b2 : wf b1 → wf b2 → wf (bitset_inplace_intersection b1 b2).
Proof.
  intros H1 H2. destruct (zip_wf Z.land b1 b2 H1 H2) as [Hl Hs Hw]; [auto with u64|]. simpl in *.
  destruct (memset0_at (minlength b1 b2) (arraysize b1)
    (zip_words Z.land (minlength b1 b2) (array b1) (array b2))) as [Hlen Hat]; [lia|].
  apply mk_wf; [lia|done|]. intros k Hk. rewrite Hat. nat_cases; apply Hw.
Qed.
Lemma inter_wd b1 b2 k :
  wf b1 → wd (bitset_inplace_intersection b1 b2) k = Z.land (wd b1 k) (wd b2 k).
Proof.
  intros H1. pose proof (zip_wd Z.land b1 b2 k H1) as Hz. destruct H1 as [Hl Hs Hw].
  rewrite minlength_min in *.
  destruct (zip_words_at Z.land (arraysize b1 `min` arraysize b2) (array b1) (array b2)) as [Hlz _]; [lia|].
  unfold bitset_inplace_intersection. rewrite minlength_min.
  destruct (memset0_at (arraysize b1 `min` arraysize b2) (arraysize b1)
    (zip_words Z.land (arraysize b1 `min` arraysize b2) (array b1) (array b2))) as [_ Hat]; [lia|].
  unfold wd in *. cbn [array arraysize] in *. rewrite Hat. revert Hz.
  nat_cases; by rewrite ?Z.land_0_r.
Qed.

Lemma diff_wd b1 b2 k :
  wf b1 → wf b2 → wd (bitset_inplace_difference b1 b2) k = Z.land (wd b1 k) (not64 (wd b2 k)).
Proof.
  intros H1 H2. unfold bitset_inplace_difference. rewrite zip_wd by done. rewrite minlength_min.
  nat_cases. destruct (decide (k < arraysize b1)).
  - rewrite (wd_ge b2) by lia. change (not64 0) with (Z.ones 64).
    pose proof (wf_wd b1 k H1) as Hw. unfold is_u64, UINT64_MAX in Hw.
    by rewrite Z.land_ones, Z.mod_small by lia.
  - by rewrite (wd_ge b1) by lia.
Qed.

(** *** Membership after each operation *)

Lemma mem_lt i : Z.of_nat (i mod 64) = Z.of_nat (i mod 64) ∧ i mod 64 < 64.
Proof. split; [done|]. apply Nat.mod_upper_bound. lia. Qed.

Lemma index_eq i j : i / 64 = j / 64 → i mod 64 = j mod 64 → i = j.
Proof. intros Hd Hm. rewrite (Nat.div_mod_eq i 64), (Nat.div_mod_eq j 64). lia. Qed.

Lemma get_create i : bitset_get bitset_create i = false.
Proof. done. Qed.
Lemma get_create_capacity n i : bitset_get (bitset_create_with_capacity n) i = false.
Proof. by rewrite get_wd, create_capacity_wd, Z.bits_0. Qed.
Lemma get_copy b i : bitset_get (bitset_copy b) i = bitset_get b i.
Proof. by rewrite !get_wd, copy_wd. Qed.
Lemma get_clear b i : wf b → bitset_get (bitset_clear b) i = false.
Proof. intros Hb. by rewrite get_wd, clear_wd, Z.bits_0. Qed.

Lemma get_set b i j : wf b → bitset_get (bitset_set b i) j = (j =? i) || bitset_get b j.
Proof.
  intros Hb. rewrite !get_wd, set_wd by done.
  destruct (Nat.eqb_spec (j / 64) (i / 64)) as [Hd|Hd].
  - rewrite Z.lor_spec, bit64_testbit, orb_comm. f_equal.
    destruct (Nat.eqb_spec j i) as [->|Hji]; [by rewrite Nat.eqb_refl|].
    apply Nat.eqb_neq. intros Hm. by apply Hji, index_eq.
  - destruct (Nat.eqb_spec j i) as [->|]; done.
Qed.

Lemma get_unset b i j : wf b → bitset_get (bitset_unset b i) j = negb (j =? i) && bitset_get b j.
Proof.
  intros Hb. rewrite !get_wd, unset_wd by done.
  destruct (Nat.eqb_spec (j / 64) (i / 64)) as [Hd|Hd].
  - rewrite Z.land_spec, not64_testbit by apply mem_lt. rewrite bit64_testbit, andb_comm.
    f_equal. f_equal. destruct (Nat.eqb_spec j i) as [->|Hji]; [by rewrite Nat.eqb_refl|].
    apply Nat.eqb_neq. intros Hm. by apply Hji, index_eq.
  - destruct (Nat.eqb_spec j i) as [->|]; done.
Qed.

Lemma get_union b1 b2 i :
  wf b1 → wf b2 → bitset_get (bitset_inplace_union b1 b2) i = bitset_get b1 i || bitset_get b2 i.
Proof. intros. by rewrite !get_wd, union_wd, Z.lor_spec. Qed.
Lemma get_inter b1 b2 i :
  wf b1 → bitset_get (bitset_inplace_intersection b1 b2) i = bitset_get b1 i && bitset_get b2 i.
Proof. intros. by rewrite !get_wd, inter_wd, Z.land_spec. Qed.
Lemma get_diff b1 b2 i :
  wf b1 → wf b2 →
  bitset_get (bitset_inplace_difference b1 b2) i = bitset_get b1 i && negb (bitset_get b2 i).
Proof. intros. by rewrite !get_wd, diff_wd, Z.land_spec, not64_testbit by (done || apply mem_lt). Qed.
Lemma get_symdiff b1 b2 i :
  wf b1 → wf b2 →
  bitset_get (bitset_inplace_symmetric_difference b1 b2) i = xorb (bitset_get b1 i) (bitset_get b2 i).
Proof. intros. by rewrite !get_wd, symdiff_wd, Z.lxor_spec. Qed.

Lemma union_wf b1 b2 : wf b1 → wf b2 → wf (bitset_inplace_union b1 b2).
Proof. intros. apply merge_words_wf; auto with u64. Qed.
Lemma symdiff_wf b1 b2 : wf b1 → wf b2 → wf (bitset_inplace_symmetric_difference b1 b2).
Proof. intros. apply merge_words_wf; auto with u64. Qed.
Lemma diff_wf b1 b2 : wf b1 → wf b2 → wf (bitset_inplace_difference b1 b2).
Proof. intros. apply zip_wf; auto with u64. Qed.
End Operations.
#[export] Hint Resolve create_wf create_capacity_wf copy_wf clear_wf set_wf unset_wf union_wf
  inter_wf diff_wf symdiff_wf : bitset.
