(* ===== verification/CBitsetSpec.v ===== *)
(** * Bit sets in C: what the operations compute

    [to_set] is the finite set of numbers a bit set stands for. The counts of [CBitset]
    are cardinalities, the searches find least and greatest members, the iterators visit the
    members in increasing order, shifts translate the members. The comparisons
    [bitset_equal] and [bitset_subseteq] look at the common words only. *)
From stdpp Require Import base list sorting gmap.
From Stdlib Require Import ZArith Lia.
From S2P Require Import Prelude CBitset.
#[local] Open Scope nat_scope.
#[local] Arguments Nat.div : simpl never.
#[local] Arguments Nat.modulo : simpl never.

(** ** Counting *)

(** The members in increasing order. *)
Definition members (b : bitset_t) : list nat := List.filter (bitset_get b) (seq 0 (arraysize b * 64)).

Lemma elem_of_members b i : i ∈ members b ↔ bitset_get b i = true.
Proof.
  unfold members. rewrite list_elem_of_In, filter_In, in_seq. split; [tauto|].
  intros Hi. split; [|done]. split; [lia|]. apply Nat.nle_gt. intros Hge.
  rewrite get_ge in Hi by lia. done.
Qed.
Lemma NoDup_members b : NoDup (members b).
Proof. apply NoDup_ListNoDup, List.NoDup_filter, List.seq_NoDup. Qed.

Lemma filter_seq_sorted p a n : StronglySorted lt (List.filter p (seq a n)).
Proof.
  revert a. induction n as [|n IH]; intros a; simpl; [constructor|].
  destruct (p a); [|apply IH]. constructor; [apply IH|]. apply Forall_forall.
  intros x [Hx%in_seq _]%list_elem_of_In%filter_In. lia.
Qed.

(** A loop over words counts the bits of all words. *)
Definition word_sum (f : nat → nat) (lo n : nat) : nat := list_sum (map f (seq lo n)).

Lemma count_loop_spec fuel s f n k card :
  0 < s → k ≤ n → n < k + fuel * s →
  ∃ k', count_loop fuel s f n k card = (k', card + word_sum f k (k' - k)) ∧ k ≤ k' ≤ n ∧ n < k' + s.
Proof.
  intros Hs. revert k card. induction fuel as [|fuel IH]; intros k card Hk Hf; simpl in *; [lia|].
  destruct (Nat.ltb_spec (k + (s - 1)) n).
  - destruct (IH (k + s) (card + list_sum (map f (seq k s)))) as (k' & -> & Hk' & Hn); [lia|lia|].
    exists k'. split_and!; [|lia|lia|lia]. f_equal. unfold word_sum.
    replace (k' - k) with (s + (k' - (k + s))) by lia. rewrite seq_app, map_app, list_sum_app. lia.
  - exists k. split_and!; [|lia|lia|lia]. by rewrite Nat.sub_diag, Nat.add_0_r.
Qed.

Lemma count_by_spec s f n k card :
  0 < s → k ≤ n →
  ∃ k', count_by s f n (k, card) = (k', card + word_sum f k (k' - k)) ∧ k ≤ k' ≤ n ∧ n < k' + s.
Proof. intros Hs Hk. apply count_loop_spec; [done|done|]. simpl. nia. Qed.

Lemma word_sum_split f k m n : k ≤ m ≤ n → word_sum f k (m - k) + word_sum f m (n - m) = word_sum f k (n - k).
Proof.
  intros Hm. unfold word_sum. replace (n - k) with ((m - k) + (n - m)) by lia.
  rewrite seq_app, map_app, list_sum_app. by replace (k + (m - k)) with m by lia.
Qed.

(** The remainder loop goes to the end, whatever unrolled loop ran before it. *)
Lemma count_by_1 f n k card : k ≤ n → count_by 1 f n (k, card) = (n, card + word_sum f k (n - k)).
Proof.
  intros Hk. destruct (count_by_spec 1 f n k card) as (k' & -> & Hk' & Hn); [lia|done|].
  by replace k' with n by lia.
Qed.
Lemma count_by_unrolled s f n k card :
  0 < s → k ≤ n →
  count_by 1 f n (count_by s f n (k, card)) = (n, card + word_sum f k (n - k)).
Proof.
  intros Hs Hk. destruct (count_by_spec s f n k card) as (k' & -> & Hk' & _); [done|done|].
  rewrite count_by_1 by lia. f_equal. rewrite <- (word_sum_split f k k' n) by lia. lia.
Qed.

Lemma filter_map_length {A B} (g : A → B) (p : B → bool) l :
  length (List.filter p (map g l)) = length (List.filter (λ x, p (g x)) l).
Proof. induction l as [|x l IH]; simpl; [done|]. destruct (p (g x)); simpl; lia. Qed.
Lemma filter_ext_length {A} (p q : A → bool) l :
  (∀ x, x ∈ l → p x = q x) → length (List.filter p l) = length (List.filter q l).
Proof.
  intros Hpq. f_equal. apply filter_ext_in. intros x Hx. apply Hpq. by apply list_elem_of_In.
Qed.

Lemma seq_shift_map k n : seq k n = map (λ i, i + k) (seq 0 n).
Proof.
  revert k. induction n as [|n IH]; intros k; [done|]. simpl. f_equal.
  rewrite IH, (IH 1), map_map. apply map_ext. intros. lia.
Qed.

Lemma popcount_members w (p : nat → bool) k :
  (∀ n, n < 64 → Z.testbit w (Z.of_nat n) = p (n + k * 64)) →
  popcountll w = length (List.filter p (seq (k * 64) 64)).
Proof.
  intros Hp. rewrite (seq_shift_map (k * 64)), filter_map_length. unfold popcountll.
  apply filter_ext_length. intros n Hn%elem_of_seq. apply Hp. lia.
Qed.

Lemma word_sum_members (F : nat → Z) (p : nat → bool) lo n :
  (∀ k m, lo ≤ k < lo + n → m < 64 → Z.testbit (F k) (Z.of_nat m) = p (m + k * 64)) →
  word_sum (λ k, popcountll (F k)) lo n = length (List.filter p (seq (lo * 64) (n * 64))).
Proof.
  unfold word_sum. revert lo. induction n as [|n IH]; intros lo Hp; [done|].
  replace (S n * 64) with (64 + n * 64) by lia.
  rewrite seq_app, List.filter_app, length_app. cbn [seq map list_sum fold_right].
  rewrite (popcount_members (F lo) p lo) by (intros; apply Hp; lia).
  replace (lo * 64 + 64) with (S lo * 64) by lia. unfold list_sum in IH.
  rewrite IH by (intros; apply Hp; lia). done.
Qed.

(** ** Bit sets as finite sets *)

Definition to_set (b : bitset_t) : gset nat := list_to_set (members b).

Lemma elem_of_to_set b i : i ∈ to_set b ↔ bitset_get b i = true.
Proof. unfold to_set. by rewrite elem_of_list_to_set, elem_of_members. Qed.

Lemma count_as_size (p : nat → bool) N (X : gset nat) :
  (∀ i, p i = true → i < N) → (∀ i, i ∈ X ↔ p i = true) →
  length (List.filter p (seq 0 N)) = size X.
Proof.
  intros HN HX.
  assert (X = list_to_set (List.filter p (seq 0 N))) as ->.
  { apply set_eq. intros i. rewrite elem_of_list_to_set, list_elem_of_In, filter_In, in_seq, HX.
    split; [|tauto]. intros Hp. split; [|done]. specialize (HN i Hp). lia. }
  rewrite size_list_to_set; [done|]. apply NoDup_ListNoDup, List.NoDup_filter, List.seq_NoDup.
Qed.

Lemma get_lt b i : bitset_get b i = true → i < arraysize b * 64.
Proof. intros Hi. apply Nat.nle_gt. intros Hge. by rewrite get_ge in Hi. Qed.

Lemma count_size b : bitset_count b = size (to_set b).
Proof.
  unfold bitset_count.
  destruct (count_by_spec 8 (λ k, popcountll (at_ (array b) k)) (arraysize b) 0 0)
    as (k' & -> & Hk' & _); [lia|lia|].
  rewrite count_by_unrolled by lia. cbn [snd]. rewrite Nat.add_0_l, word_sum_split, Nat.sub_0_r by lia.
  rewrite (word_sum_members _ (bitset_get b)).
  - rewrite Nat.mul_0_l. apply count_as_size; [apply get_lt|apply elem_of_to_set].
  - intros k m Hk Hm. rewrite <- wd_get by done. unfold wd. nat_cases.
Qed.

Section Counts.
Variables b1 b2 : bitset_t.
Hypothesis H1 : wf b1.
Hypothesis H2 : wf b2.

(** A count in two parts: the common words, then those of one set only. *)
Lemma two_part_count (F : nat → Z) b (p : nat → bool) (X : gset nat) :
  minlength b1 b2 ≤ arraysize b →
  (∀ k m, k < minlength b1 b2 → m < 64 → Z.testbit (F k) (Z.of_nat m) = p (m + k * 64)) →
  (∀ k m, minlength b1 b2 ≤ k < arraysize b → m < 64 →
     Z.testbit (at_ (array b) k) (Z.of_nat m) = p (m + k * 64)) →
  (∀ i, p i = true → i < arraysize b * 64) → (∀ i, i ∈ X ↔ p i = true) →
  word_sum (λ k, popcountll (F k)) 0 (minlength b1 b2) +
  word_sum (λ k, popcountll (at_ (array b) k)) (minlength b1 b2) (arraysize b - minlength b1 b2) = size X.
Proof.
  intros Hm Hlo Hhi HN HX.
  rewrite (word_sum_members _ p) by (intros; apply Hlo; lia).
  rewrite (word_sum_members _ p) by (intros; apply Hhi; lia).
  rewrite <- (count_as_size p (arraysize b * 64)), <- length_app, <- List.filter_app by done.
  rewrite Nat.mul_0_l. rewrite <- (seq_app (minlength b1 b2 * 64)). do 3 f_equal. lia.
Qed.

Lemma at_get b k m : k < arraysize b → m < 64 → Z.testbit (at_ (array b) k) (Z.of_nat m) = bitset_get b (m + k * 64).
Proof. intros Hk Hm. rewrite <- wd_get by done. unfold wd. nat_cases. Qed.
Lemma get_high b k m : arraysize b ≤ k → bitset_get b (m + k * 64) = false.
Proof. intros Hk. apply get_ge. nia. Qed.

Lemma union_count_size : bitset_union_count b1 b2 = size (to_set b1 ∪ to_set b2).
Proof.
  unfold bitset_union_count. pose proof (minlength_min b1 b2) as Hml.
  set (b := if arraysize b1 <? arraysize b2 then b2 else b1).
  assert (arraysize b = Nat.max (arraysize b1) (arraysize b2)) as Hb by (subst b; nat_cases).
  rewrite (count_by_unrolled 4) by lia. rewrite (count_by_unrolled 4) by lia.
  cbn [snd]. rewrite Nat.sub_0_r, Nat.add_0_l.
  apply two_part_count with (p := λ i, bitset_get b1 i || bitset_get b2 i); [lia| | | |].
  - intros k m Hk Hm. rewrite Z.lor_spec, !at_get by lia. done.
  - intros k m Hk Hm. rewrite at_get by lia. subst b. revert Hk. nat_cases; intros Hk.
    + by rewrite (get_high b1) by lia.
    + by rewrite (get_high b2), orb_false_r by lia.
  - intros i [Hi|Hi]%orb_prop; apply get_lt in Hi; lia.
  - intros i. by rewrite elem_of_union, !elem_of_to_set, orb_true_iff.
Qed.

Lemma intersection_count_size : bitset_intersection_count b1 b2 = size (to_set b1 ∩ to_set b2).
Proof.
  unfold bitset_intersection_count. pose proof (minlength_min b1 b2) as Hml.
  rewrite count_by_1 by lia. cbn [snd]. rewrite Nat.sub_0_r, Nat.add_0_l.
  rewrite (word_sum_members _ (λ i, bitset_get b1 i && bitset_get b2 i)).
  - rewrite Nat.mul_0_l. apply count_as_size.
    + intros i [Hi1 Hi2]%andb_prop. apply get_lt in Hi1, Hi2. lia.
    + intros i. by rewrite elem_of_intersection, !elem_of_to_set, andb_true_iff.
  - intros k m Hk Hm. rewrite Z.land_spec, !at_get by lia. done.
Qed.

Lemma difference_count_size : bitset_difference_count b1 b2 = size (to_set b1 ∖ to_set b2).
Proof.
  unfold bitset_difference_count. pose proof (minlength_min b1 b2) as Hml.
  rewrite !count_by_1 by lia. cbn [snd]. rewrite Nat.sub_0_r, Nat.add_0_l.
  apply two_part_count with (p := λ i, bitset_get b1 i && negb (bitset_get b2 i)); [lia| | | |].
  - intros k m Hk Hm. rewrite Z.land_spec, not64_testbit, !at_get by lia. done.
  - intros k m Hk Hm. rewrite at_get, (get_high b2), andb_true_r by lia. done.
  - intros i [Hi _]%andb_prop. by apply get_lt in Hi.
  - intros i. rewrite elem_of_difference, !elem_of_to_set, andb_true_iff, negb_true_iff.
    by rewrite not_true_iff_false.
Qed.

Lemma symmetric_difference_count_size :
  bitset_symmetric_difference_count b1 b2 =
  size ((to_set b1 ∖ to_set b2) ∪ (to_set b2 ∖ to_set b1)).
Proof.
  unfold bitset_symmetric_difference_count. pose proof (minlength_min b1 b2) as Hml.
  set (b := if arraysize b1 <? arraysize b2 then b2 else b1).
  assert (arraysize b = Nat.max (arraysize b1) (arraysize b2)) as Hb by (subst b; nat_cases).
  rewrite !count_by_1 by lia. cbn [snd]. rewrite Nat.sub_0_r, Nat.add_0_l.
  apply two_part_count with (p := λ i, xorb (bitset_get b1 i) (bitset_get b2 i)); [lia| | | |].
  - intros k m Hk Hm. rewrite Z.lxor_spec, !at_get by lia. done.
  - intros k m Hk Hm. rewrite at_get by lia. subst b. revert Hk. nat_cases; intros Hk.
    + by rewrite (get_high b1), xorb_false_l by lia.
    + by rewrite (get_high b2), xorb_false_r by lia.
  - intros i Hi. destruct (bitset_get b1 i) eqn:E1; [apply get_lt in E1; lia|].
    destruct (bitset_get b2 i) eqn:E2; [apply get_lt in E2; lia|done].
  - intros i. rewrite elem_of_union, !elem_of_difference, !elem_of_to_set.
    destruct (bitset_get b1 i), (bitset_get b2 i); naive_solver.
Qed.
End Counts.

(** ** Searching and iterating *)

Lemma ctz_loop_spec fuel k w :
  (∃ n, k ≤ n < k + fuel ∧ Z.testbit w (Z.of_nat n) = true) →
  let c := ctz_loop fuel k w in
  k ≤ c < k + fuel ∧ Z.testbit w (Z.of_nat c) = true ∧
  ∀ n, k ≤ n < c → Z.testbit w (Z.of_nat n) = false.
Proof.
  revert k. induction fuel as [|fuel IH]; intros k (n & Hn & Hw); simpl; [lia|].
  destruct (Z.testbit w (Z.of_nat k)) eqn:E.
  - split_and!; [lia|lia|done|]. intros. lia.
  - assert (n ≠ k) by (intros ->; congruence).
    destruct (IH (S k)) as (H1 & H2 & H3); [exists n; split; [lia|done]|].
    split_and!; [lia|lia|done|]. intros m Hm. destruct (decide (m = k)) as [->|]; [done|]. apply H3. lia.
Qed.

Lemma u64_nonzero_bit w : is_u64 w → w ≠ 0%Z → ∃ n, n < 64 ∧ Z.testbit w (Z.of_nat n) = true.
Proof.
  intros Hw Hne. destruct (List.find (λ n, Z.testbit w (Z.of_nat n)) (seq 0 64)) as [n|] eqn:E.
  - apply find_some in E as [Hin Hn]. apply in_seq in Hin. exists n. split; [lia|done].
  - exfalso. apply Hne, u64_bits_eq; [done|apply is_u64_0|]. intros n Hn. rewrite Z.bits_0.
    apply (find_none _ _ E n). apply in_seq. lia.
Qed.

Lemma ctzll_spec w :
  is_u64 w → w ≠ 0%Z →
  ctzll w < 64 ∧ Z.testbit w (Z.of_nat (ctzll w)) = true ∧
  ∀ n, n < ctzll w → Z.testbit w (Z.of_nat n) = false.
Proof.
  intros Hw Hne. destruct (u64_nonzero_bit w Hw Hne) as (n & Hn & Hb).
  destruct (ctz_loop_spec 64 0 w) as (H1 & H2 & H3); [exists n; split; [lia|done]|].
  fold (ctzll w) in *. split_and!; [lia|done|]. intros m Hm. apply H3. lia.
Qed.

Lemma clzll_spec w :
  is_u64 w → w ≠ 0%Z →
  63 - clzll w < 64 ∧ Z.testbit w (Z.of_nat (63 - clzll w)) = true ∧
  ∀ n, 63 - clzll w < n → Z.testbit w (Z.of_nat n) = false.
Proof.
  intros Hw Hne. pose proof Hw as [Hpos Hb]%is_u64_bits.
  pose proof (Z.log2_nonneg w).
  assert (Z.log2 w < 64)%Z as Hl.
  { apply Z.nle_gt. intros Hl. specialize (Hb _ Hl). rewrite Z.bit_log2 in Hb; [done|lia]. }
  assert (63 - clzll w = Z.to_nat (Z.log2 w)) as -> by (unfold clzll; lia).
  split_and!; [lia| |].
  - rewrite Z2Nat.id by lia. apply Z.bit_log2. lia.
  - intros n Hn. apply Z.bits_above_log2; lia.
Qed.

Lemma first_word_spec a n k :
  match first_word a n k with
  | Some x => k ≤ x < k + n ∧ at_ a x ≠ 0%Z ∧ ∀ y, k ≤ y < x → at_ a y = 0%Z
  | None => ∀ y, k ≤ y < k + n → at_ a y = 0%Z
  end.
Proof.
  revert k. induction n as [|n IH]; intros k; simpl; [intros; lia|].
  destruct (Z.eqb_spec (at_ a k) 0) as [E|E].
  - specialize (IH (S k)). destruct (first_word a n (S k)) as [x|].
    + destruct IH as (H1 & H2 & H3). split_and!; [lia|lia|done|]. intros y Hy.
      destruct (decide (y = k)) as [->|]; [done|]. apply H3. lia.
    + intros y Hy. destruct (decide (y = k)) as [->|]; [done|]. apply IH. lia.
  - split_and!; [lia|lia|done|]. intros; lia.
Qed.

Lemma last_word_spec a n :
  last_word a n ≤ n ∧ (∀ y, last_word a n ≤ y < n → at_ a y = 0%Z) ∧
  (∀ k, last_word a n = S k → at_ a k ≠ 0%Z).
Proof.
  induction n as [|n IH]; simpl; [split_and!; [done|intros; lia|done]|].
  destruct (Z.eqb_spec (at_ a n) 0) as [E|E].
  - destruct IH as (H1 & H2 & H3). split_and!; [lia| |done]. intros y Hy.
    destruct (decide (y = n)) as [->|]; [done|]. apply H2. lia.
  - split_and!; [done|intros; lia|]. by intros k [= <-].
Qed.

(** Words that are zero from index [lo] to [hi] hold no member. *)
Lemma zero_words b lo hi i :
  (∀ y, lo ≤ y < hi → at_ (array b) y = 0%Z) → lo ≤ i / 64 < hi → bitset_get b i = false.
Proof.
  intros Hz Hi. rewrite get_wd. unfold wd. rewrite Hz by done. destruct (_ <? _); apply Z.bits_0.
Qed.

(** The first member from word [lo] on. *)
Lemma first_word_member b lo :
  wf b →
  match first_word (array b) (arraysize b - lo) lo with
  | Some x => let j := x * 64 + ctzll (at_ (array b) x) in
              lo * 64 ≤ j ∧ bitset_get b j = true ∧ ∀ k, lo * 64 ≤ k < j → bitset_get b k = false
  | None => ∀ k, lo * 64 ≤ k → bitset_get b k = false
  end.
Proof.
  intros Hb. pose proof (first_word_spec (array b) (arraysize b - lo) lo) as Hf.
  assert (∀ k, lo * 64 ≤ k → lo ≤ k / 64) as Hdiv by (intros; apply Nat.div_le_lower_bound; lia).
  destruct (first_word _ _ _) as [x|].
  - destruct Hf as (Hx & Hne & Hz).
    destruct (ctzll_spec (at_ (array b) x)) as (C1 & C2 & C3); [apply Hb|done|].
    rewrite at_get in C2 by lia. split_and!; [lia|by rewrite Nat.add_comm|].
    intros k Hk. destruct (decide (k < x * 64)) as [Hkx|Hkx].
    + apply (zero_words b lo x); [done|]. split; [apply Hdiv; lia|].
      apply Nat.Div0.div_lt_upper_bound. lia.
    + specialize (C3 (k - x * 64)). rewrite at_get in C3 by lia.
      replace (k - x * 64 + x * 64) with k in C3 by lia. apply C3. lia.
  - intros k Hk. destruct (decide (k / 64 < arraysize b)).
    + apply (zero_words b lo (arraysize b)); [|split; [apply Hdiv; lia|done]].
      intros y Hy. apply Hf. lia.
    + pose proof (Nat.div_mod_eq k 64). apply get_ge. lia.
Qed.

(** The rest of the word in which [i] lies. *)
Lemma shifted_word b i :
  wf b → i / 64 < arraysize b →
  let w := Z.shiftr (at_ (array b) (i / 64)) (Z.of_nat (i mod 64)) in
  is_u64 w ∧ (∀ n, i mod 64 + n < 64 → Z.testbit w (Z.of_nat n) = bitset_get b (i + n)) ∧
  (∀ n, Z.testbit w (Z.of_nat n) = true → i mod 64 + n < 64).
Proof.
  intros Hb Hi. pose proof (Nat.div_mod_eq i 64) as Hd. split_and!.
  - apply is_u64_shiftr; [lia|apply Hb].
  - intros n Hn. rewrite Z.shiftr_spec by lia.
    replace (Z.of_nat n + Z.of_nat (i mod 64))%Z with (Z.of_nat (n + i mod 64)) by lia.
    rewrite at_get by lia. f_equal. lia.
  - intros n Hn. apply Nat.nle_gt. intros Hge. rewrite Z.shiftr_spec in Hn by lia.
    destruct Hb as [_ _ Hbw]. specialize (Hbw (i / 64)). apply is_u64_bits in Hbw as [_ Hbw].
    by rewrite Hbw in Hn by lia.
Qed.

Lemma nextSetBit_spec b i :
  wf b →
  match nextSetBit b i with
  | Some j => i ≤ j ∧ bitset_get b j = true ∧ ∀ k, i ≤ k < j → bitset_get b k = false
  | None => ∀ k, i ≤ k → bitset_get b k = false
  end.
Proof.
  intros Hb. unfold nextSetBit. pose proof (Nat.div_mod_eq i 64) as Hi.
  pose proof (Nat.mod_upper_bound i 64 ltac:(lia)) as Hm.
  destruct (Nat.leb_spec (arraysize b) (i / 64)) as [Hge|Hlt].
  { intros k Hk. apply get_ge. lia. }
  destruct (shifted_word b i Hb Hlt) as (Hu & Hw & Hc).
  set (w := Z.shiftr (at_ (array b) (i / 64)) (Z.of_nat (i mod 64))) in *.
  assert (∀ k, i ≤ k < (i / 64 + 1) * 64 → bitset_get b k = Z.testbit w (Z.of_nat (k - i))) as Hlo.
  { intros k Hk. rewrite Hw by lia. f_equal. lia. }
  destruct (Z.eqb_spec w 0) as [E|E].
  - rewrite E in Hlo. setoid_rewrite Z.bits_0 in Hlo.
    pose proof (first_word_member b (i / 64 + 1) Hb) as Hf.
    destruct (first_word _ _ _) as [x|].
    + destruct Hf as (H1 & H2 & H3). split_and!; [lia|done|]. intros k Hk.
      destruct (decide (k < (i / 64 + 1) * 64)); [apply Hlo; lia|apply H3; lia].
    + intros k Hk. destruct (decide (k < (i / 64 + 1) * 64)); [apply Hlo; lia|apply Hf; lia].
  - destruct (ctzll_spec w Hu E) as (C1 & C2 & C3). specialize (Hc _ C2).
    split_and!; [lia|by rewrite <- Hw|]. intros k Hk. rewrite Hlo by lia. apply C3. lia.
Qed.

Lemma minimum_spec b :
  wf b → to_set b ≠ ∅ →
  bitset_minimum b ∈ to_set b ∧ ∀ i, i ∈ to_set b → bitset_minimum b ≤ i.
Proof.
  intros Hb Hne. pose proof (first_word_member b 0 Hb) as Hf. unfold bitset_minimum.
  rewrite Nat.sub_0_r in Hf. destruct (first_word _ _ _) as [x|].
  - rewrite (Nat.add_comm (ctzll _)). destruct Hf as (_ & H2 & H3).
    rewrite elem_of_to_set. split; [done|]. intros i Hi%elem_of_to_set.
    apply Nat.nlt_ge. intros Hlt. rewrite H3 in Hi; [done|lia].
  - exfalso. apply Hne, set_eq. intros i. rewrite elem_of_to_set, Hf by lia. set_solver.
Qed.

Lemma maximum_spec b :
  wf b → to_set b ≠ ∅ →
  bitset_maximum b ∈ to_set b ∧ ∀ i, i ∈ to_set b → i ≤ bitset_maximum b.
Proof.
  intros Hb Hne. destruct (last_word_spec (array b) (arraysize b)) as (L1 & L2 & L3).
  unfold bitset_maximum. assert (∀ i, i ∈ to_set b → i / 64 < last_word (array b) (arraysize b)) as Hlt.
  { intros i Hi%elem_of_to_set. apply Nat.nle_gt. intros Hge.
    rewrite (zero_words b (last_word (array b) (arraysize b)) (arraysize b)) in Hi; [done|done|].
    split; [done|]. apply get_lt in Hi. apply Nat.Div0.div_lt_upper_bound. lia. }
  destruct (last_word _ _) as [|k] eqn:E.
  - exfalso. apply Hne, set_eq. intros i. split; [|set_solver]. intros Hi%Hlt. lia.
  - destruct (clzll_spec (at_ (array b) k)) as (C1 & C2 & C3); [apply Hb|by apply L3|].
    rewrite at_get in C2 by lia. split; [by apply elem_of_to_set|].
    intros i Hi. pose proof (Hlt i Hi) as Hik. apply elem_of_to_set in Hi.
    pose proof (Nat.div_mod_eq i 64). pose proof (Nat.mod_upper_bound i 64 ltac:(lia)).
    destruct (decide (i / 64 = k)) as [Hk|]; [|lia].
    apply Nat.nlt_ge. intros Hgt. specialize (C3 (i mod 64)).
    rewrite at_get in C3 by lia. replace (i mod 64 + k * 64) with i in C3 by lia.
    rewrite C3 in Hi; [done|lia].
Qed.

(** *** Set operations *)

Section Sets.
Context `{Malloc}.
Implicit Types b : bitset_t.

Lemma to_set_create : to_set bitset_create = ∅.
Proof. done. Qed.
Lemma to_set_create_capacity n : to_set (bitset_create_with_capacity n) = ∅.
Proof. apply set_eq. intros i. rewrite elem_of_to_set, get_create_capacity. set_solver. Qed.
Lemma to_set_copy b : to_set (bitset_copy b) = to_set b.
Proof. apply set_eq. intros i. by rewrite !elem_of_to_set, get_copy. Qed.
Lemma to_set_clear b : wf b → to_set (bitset_clear b) = ∅.
Proof. intros Hb. apply set_eq. intros i. rewrite elem_of_to_set, get_clear by done. set_solver. Qed.
Lemma to_set_set b i : wf b → to_set (bitset_set b i) = {[i]} ∪ to_set b.
Proof.
  intros Hb. apply set_eq. intros j. rewrite elem_of_to_set, get_set by done.
  rewrite orb_true_iff, Nat.eqb_eq, elem_of_union, elem_of_singleton, elem_of_to_set. done.
Qed.
Lemma to_set_unset b i : wf b → to_set (bitset_unset b i) = to_set b ∖ {[i]}.
Proof.
  intros Hb. apply set_eq. intros j. rewrite elem_of_to_set, get_unset by done.
  rewrite andb_true_iff, negb_true_iff, Nat.eqb_neq, elem_of_difference, elem_of_singleton, elem_of_to_set.
  tauto.
Qed.
Lemma to_set_union b1 b2 : wf b1 → wf b2 → to_set (bitset_inplace_union b1 b2) = to_set b1 ∪ to_set b2.
Proof.
  intros H1 H2. apply set_eq. intros i.
  by rewrite elem_of_to_set, get_union, orb_true_iff, elem_of_union, !elem_of_to_set by done.
Qed.
Lemma to_set_inter b1 b2 : wf b1 → to_set (bitset_inplace_intersection b1 b2) = to_set b1 ∩ to_set b2.
Proof.
  intros H1. apply set_eq. intros i.
  by rewrite elem_of_to_set, get_inter, andb_true_iff, elem_of_intersection, !elem_of_to_set by done.
Qed.
Lemma to_set_diff b1 b2 : wf b1 → wf b2 → to_set (bitset_inplace_difference b1 b2) = to_set b1 ∖ to_set b2.
Proof.
  intros H1 H2. apply set_eq. intros i.
  rewrite elem_of_to_set, get_diff, andb_true_iff, negb_true_iff by done.
  by rewrite elem_of_difference, !elem_of_to_set, not_true_iff_false.
Qed.
Lemma to_set_symdiff b1 b2 :
  wf b1 → wf b2 →
  to_set (bitset_inplace_symmetric_difference b1 b2) = (to_set b1 ∖ to_set b2) ∪ (to_set b2 ∖ to_set b1).
Proof.
  intros H1 H2. apply set_eq. intros i. rewrite elem_of_to_set, get_symdiff by done.
  rewrite elem_of_union, !elem_of_difference, !elem_of_to_set.
  destruct (bitset_get b1 i), (bitset_get b2 i); naive_solver.
Qed.
End Sets.

(** *** Iteration *)

(** The members from [i] on. *)
Definition members_from (b : bitset_t) (i : nat) : list nat :=
  List.filter (bitset_get b) (seq i (arraysize b * 64 - i)).

Lemma filter_none {A} (p : A → bool) l : (∀ x, x ∈ l → p x = false) → List.filter p l = [].
Proof.
  induction l as [|x l IH]; intros Hp; [done|]. simpl. rewrite (Hp x) by set_solver.
  apply IH. set_solver.
Qed.

Lemma members_from_none b i : (∀ k, i ≤ k → bitset_get b k = false) → members_from b i = [].
Proof. intros Hn. apply filter_none. intros x Hx%elem_of_seq. apply Hn. lia. Qed.

Lemma members_from_step b i j :
  i ≤ j → bitset_get b j = true → (∀ k, i ≤ k < j → bitset_get b k = false) →
  members_from b i = j :: members_from b (S j).
Proof.
  intros Hij Hj Hn. pose proof (get_lt b j Hj). unfold members_from.
  replace (arraysize b * 64 - i) with ((j - i) + S (arraysize b * 64 - S j)) by lia.
  rewrite seq_app, List.filter_app, filter_none.
  - replace (i + (j - i)) with j by lia. simpl. by rewrite Hj.
  - intros x Hx%elem_of_seq. apply Hn. lia.
Qed.

Lemma bits_from_members fuel b i :
  wf b → arraysize b * 64 - i < fuel → bits_from fuel b i = members_from b i.
Proof.
  intros Hb. revert i. induction fuel as [|fuel IH]; intros i Hf; [lia|]. simpl.
  pose proof (nextSetBit_spec b i Hb) as Hn. destruct (nextSetBit b i) as [j|].
  - destruct Hn as (Hij & Hj & Hk). rewrite (members_from_step b i j) by done.
    f_equal. apply IH. apply get_lt in Hj. lia.
  - by rewrite members_from_none.
Qed.

Lemma for_bits_members b : wf b → for_bits b = members b.
Proof.
  intros Hb. unfold for_bits. rewrite bits_from_members by (done || lia).
  unfold members_from. by rewrite Nat.sub_0_r.
Qed.

(** The word without its lowest bit. *)
Lemma land_opp_low w c :
  Z.testbit w (Z.of_nat c) = true → (∀ n, n < c → Z.testbit w (Z.of_nat n) = false) →
  ∀ n, Z.testbit (Z.land w (- w)) (Z.of_nat n) = (n =? c).
Proof.
  intros Hc Hlow n. set (cz := Z.of_nat c).
  assert (w = Z.shiftl (Z.shiftr w cz) cz) as Hw.
  { apply Z.bits_inj'. intros m Hm. rewrite Z.shiftl_spec by lia.
    destruct (decide (m < cz)%Z).
    - rewrite (Z.testbit_neg_r _ (m - cz)) by lia. specialize (Hlow (Z.to_nat m)).
      rewrite Z2Nat.id in Hlow by lia. apply Hlow. lia.
    - rewrite Z.shiftr_spec by lia. f_equal. lia. }
  destruct (Z.odd_spec (Z.shiftr w cz)) as [Hodd _].
  destruct Hodd as [q Hq].
  { rewrite <- Z.bit0_odd, Z.shiftr_spec by lia. by rewrite Z.add_0_l. }
  rewrite Hq in Hw. rewrite Z.land_spec.
  assert (- w = Z.shiftl (2 * (- q - 1) + 1) cz)%Z as Hnw.
  { rewrite Hw. rewrite !Z.shiftl_mul_pow2 by lia. lia. }
  rewrite Hnw, Hw, !Z.shiftl_spec by lia.
  destruct (Nat.eqb_spec n c) as [->|Hn].
  - replace (Z.of_nat c - cz)%Z with 0%Z by lia. by rewrite !Z.testbit_odd_0.
  - destruct (decide (n < c)); [by rewrite !Z.testbit_neg_r by lia|].
    replace (Z.of_nat n - cz)%Z with (Z.succ (Z.of_nat (n - c - 1))) by lia.
    rewrite !Z.testbit_odd_succ by lia.
    replace (- q - 1)%Z with (Z.lnot q) by (unfold Z.lnot; lia).
    rewrite Z.lnot_spec by lia. by destruct (Z.testbit q _).
Qed.

Lemma drop_lowest_spec w :
  is_u64 w → w ≠ 0%Z →
  is_u64 (drop_lowest w) ∧
  ∀ n, n < 64 → Z.testbit (drop_lowest w) (Z.of_nat n) = Z.testbit w (Z.of_nat n) && negb (n =? ctzll w).
Proof.
  intros Hw Hne. destruct (ctzll_spec w Hw Hne) as (C1 & C2 & C3).
  assert (u64 (not64 w + 1) = u64 (- w)) as Ho.
  { unfold u64, wrap, not64. change UINT64_MAX with (Z.ones 64).
    assert (Z.lxor w (Z.ones 64) = Z.ones 64 - w)%Z as ->.
    { rewrite Z.sub_nocarry_ldiff; [|].
      - apply Z.bits_inj'. intros m Hm. rewrite Z.lxor_spec, Z.ldiff_spec.
        pose proof Hw as [Hp Hb]%is_u64_bits. destruct (decide (m < 64)%Z).
        + rewrite Z.ones_spec_low by lia. by destruct (Z.testbit w m).
        + rewrite Z.ones_spec_high, Hb by lia. done.
      - apply Z.bits_inj'. intros m Hm. rewrite Z.ldiff_spec, Z.bits_0.
        pose proof Hw as [Hp Hb]%is_u64_bits. destruct (decide (m < 64)%Z).
        + rewrite Z.ones_spec_low by lia. by destruct (Z.testbit w m).
        + rewrite Hb by lia. done. }
    change (Z.ones 64) with (2 ^ 64 - 1)%Z.
    replace (2 ^ 64 - 1 - w + 1)%Z with (- w + 1 * 2 ^ 64)%Z by lia. apply Z.mod_add. lia. }
  unfold drop_lowest. split; [auto with u64|].
  intros n Hn. rewrite Z.lxor_spec, Ho, Z.land_spec. unfold u64, wrap.
  rewrite Z.mod_pow2_bits_low by lia. rewrite <- Z.land_spec, (land_opp_low w (ctzll w) C2 C3).
  destruct (Nat.eqb_spec n (ctzll w)) as [->|]; [by rewrite C2|]. by rewrite xorb_false_r, andb_true_r.
Qed.

(** The bits of one word, in increasing order. *)
Definition word_list (w : Z) : list nat := List.filter (λ k, Z.testbit w (Z.of_nat k)) (seq 0 64).

#[local] Arguments word_list : simpl never.
#[local] Arguments ctzll : simpl never.
#[local] Arguments drop_lowest : simpl never.

Lemma word_list_length w : length (word_list w) ≤ 64.
Proof. unfold word_list. etrans; [apply filter_length_le|]. by rewrite length_seq. Qed.
Lemma word_list_0 : word_list 0 = [].
Proof. apply filter_none. intros. apply Z.bits_0. Qed.

Lemma word_list_step w :
  is_u64 w → w ≠ 0%Z → word_list w = ctzll w :: word_list (drop_lowest w).
Proof.
  intros Hw Hne. destruct (ctzll_spec w Hw Hne) as (C1 & C2 & C3).
  destruct (drop_lowest_spec w Hw Hne) as [_ Hd]. unfold word_list.
  replace 64 with (ctzll w + S (63 - ctzll w)) by lia.
  rewrite seq_app, !List.filter_app. cbn [seq List.filter]. rewrite Nat.add_0_l, C2.
  rewrite Hd, Nat.eqb_refl, andb_false_r by lia.
  rewrite !(filter_none _ (seq 0 (ctzll w))).
  - cbn [app]. f_equal. apply filter_ext_in. intros n Hn%in_seq. rewrite Hd by lia.
    destruct (Nat.eqb_spec n (ctzll w)); [lia|]. by rewrite andb_true_r.
  - intros n Hn%elem_of_seq. rewrite Hd by lia. rewrite C3 by lia. done.
  - intros n Hn%elem_of_seq. apply C3. lia.
Qed.

(** The same with names, which keeps the words folded in the proofs below. *)
Lemma word_step w :
  is_u64 w → w ≠ 0%Z → ∃ c w' l, ctzll w = c ∧ drop_lowest w = w' ∧ is_u64 w' ∧
    word_list w' = l ∧ word_list w = c :: l.
Proof.
  intros Hw Hne. eexists _, _, _. split_and!; [done|done|by apply drop_lowest_spec|done|].
  by apply word_list_step.
Qed.

(** The members from a word boundary on, word by word. *)
Lemma members_from_word b x :
  x < arraysize b →
  members_from b (x * 64) =
  map (λ n, n + x * 64) (word_list (at_ (array b) x)) ++ members_from b (S x * 64).
Proof.
  intros Hx. unfold members_from.
  replace (arraysize b * 64 - x * 64) with (64 + (arraysize b * 64 - S x * 64)) by lia.
  rewrite seq_app, List.filter_app. replace (x * 64 + 64) with (S x * 64) by lia. f_equal.
  rewrite (seq_shift_map (x * 64)). unfold word_list.
  assert (∀ n, n ∈ seq 0 64 → bitset_get b (n + x * 64) = Z.testbit (at_ (array b) x) (Z.of_nat n)) as Hg.
  { intros n Hn%elem_of_seq. by rewrite at_get by lia. }
  revert Hg. generalize (seq 0 64). intros l. induction l as [|n l IH]; intros Hg; [done|].
  cbn [map List.filter]. rewrite Hg by set_solver.
  destruct (Z.testbit _ _); cbn [map]; [f_equal|]; apply IH; set_solver.
Qed.

Section Visit.
Context {S : Type} (iterator : nat → S → bool * S).

(** Call the iterator on each number until it says no. *)
Fixpoint visit (l : list nat) (s : S) : bool * S :=
  match l with
  | [] => (true, s)
  | x :: l => let '(ok, s) := iterator x s in if ok then visit l s else (false, s)
  end.

Lemma visit_app l k s :
  visit (l ++ k) s = let '(ok, s) := visit l s in if ok then visit k s else (false, s).
Proof.
  revert s. induction l as [|x l IH]; intros s; simpl; [done|].
  destruct (iterator x s) as [[] s']; [apply IH|done].
Qed.

Lemma word_for_each_spec fuel w l base s :
  is_u64 w → word_list w = l → length l < fuel →
  word_for_each iterator fuel w base s = visit (map (λ n, n + base) l) s.
Proof.
  revert w l s. induction fuel as [|fuel IH]; intros w l s Hw Hl Hf; [lia|]. cbn [word_for_each].
  destruct (Z.eqb_spec w 0) as [->|Hne]; [by rewrite <- Hl, word_list_0|].
  destruct (word_step w Hw Hne) as (c & w' & l' & -> & -> & Hu & Hl' & Hs). rewrite Hs in Hl. subst l.
  cbn [map visit]. destruct (iterator _ s) as [[] s']; [|done]. apply IH; [done|done|]. cbn [length] in Hf. lia.
Qed.

Lemma words_for_each_spec b n i s :
  wf b → i + n = arraysize b →
  words_for_each iterator (array b) n i (i * 64) s = visit (members_from b (i * 64)) s.
Proof.
  intros Hb. revert i s. induction n as [|n IH]; intros i s Hi.
  - rewrite members_from_none; [done|]. intros k Hk. apply get_ge. lia.
  - rewrite members_from_word, visit_app by lia. cbn [words_for_each].
    rewrite (word_for_each_spec _ _ (word_list (at_ (array b) i))); [|apply Hb|done|pose proof (word_list_length (at_ (array b) i)); lia].
    destruct (visit _ s) as [[] s']; [|done].
    replace (i * 64 + 64) with (Datatypes.S i * 64) by lia. apply IH. lia.
Qed.

Lemma for_each_visits b s : wf b → bitset_for_each iterator b s = visit (members b) s.
Proof.
  intros Hb. unfold bitset_for_each.
  pose proof (words_for_each_spec b (arraysize b) 0 s Hb ltac:(lia)) as Hw.
  rewrite Nat.mul_0_l in Hw. rewrite Hw. unfold members_from, members. by rewrite Nat.sub_0_r.
Qed.
End Visit.

(** *** Reading members into a buffer *)

Lemma word_bits_spec fuel w l base cap buffer :
  is_u64 w → word_list w = l → length l < fuel → length buffer < cap →
  word_bits fuel w base cap buffer =
  (buffer ++ take (cap - length buffer) (map (λ n, n + base) l), cap <=? length buffer + length l).
Proof.
  revert w l buffer. induction fuel as [|fuel IH]; intros w l buffer Hw Hl Hf Hc; [lia|]. cbn [word_bits].
  destruct (Z.eqb_spec w 0) as [->|Hne].
  { rewrite <- Hl, word_list_0. cbn. rewrite take_nil, app_nil_r. f_equal. nat_cases. }
  destruct (word_step w Hw Hne) as (c & w' & l' & -> & -> & Hu & Hl' & Hs). rewrite Hs in Hl. subst l.
  rewrite length_app. cbn [map length] in *.
  replace (cap - length buffer) with (S (cap - length buffer - 1)) by lia. cbn [take].
  destruct (Nat.eqb_spec (length buffer + 1) cap) as [He|Hn].
  - replace (cap - length buffer - 1) with 0 by lia. rewrite take_0. f_equal. nat_cases.
  - rewrite (IH _ l'); [|done|done|lia|rewrite length_app; cbn [length]; lia].
    rewrite length_app, <- app_assoc. cbn [length app]. f_equal.
    + do 3 f_equal. lia.
    + f_equal. lia.
Qed.

Lemma next_words_spec b n x cap buffer :
  wf b → x + 1 + n = arraysize b → length buffer < cap →
  next_words n (array b) x (x * 64) (at_ (array b) x) cap buffer =
  buffer ++ take (cap - length buffer) (members_from b (x * 64)).
Proof.
  intros Hb. revert x buffer. induction n as [|n IH]; intros x buffer Hx Hc.
  all: rewrite members_from_word by lia; cbn [next_words];
    rewrite (word_bits_spec _ _ (word_list (at_ (array b) x)));
      [|apply Hb|done|pose proof (word_list_length (at_ (array b) x)); lia|done];
    set (l := map (λ n, n + x * 64) (word_list (at_ (array b) x)));
    assert (length l = length (word_list (at_ (array b) x))) as Hlen by apply length_map;
    destruct (Nat.leb_spec cap (length buffer + length (word_list (at_ (array b) x)))) as [Hle|Hgt];
    [by rewrite take_app_le by lia|].
  all: rewrite (take_ge l), take_app_ge by lia.
  - rewrite members_from_none, take_nil, app_nil_r; [done|]. intros k Hk. apply get_ge. lia.
  - replace (x * 64 + 64) with ((x + 1) * 64) by lia. rewrite IH by (rewrite ?length_app; lia).
    rewrite length_app, <- app_assoc. replace (S x) with (x + 1) by lia. do 3 f_equal. lia.
Qed.

Lemma nextSetBits_aligned b cap x :
  wf b → (nextSetBits b cap (x * 64)).1 = take cap (members_from b (x * 64)).
Proof.
  intros Hb. unfold nextSetBits. destruct (Nat.eqb_spec cap 0) as [->|Hc]; [by rewrite take_0|].
  destruct (div_mod_64 x 0 ltac:(lia)) as [Hd Hm]. rewrite Nat.add_0_l in Hd, Hm. rewrite Hd, Hm.
  destruct (Nat.leb_spec (arraysize b) x).
  - rewrite members_from_none, take_nil; [done|]. intros k Hk. apply get_ge. lia.
  - change (Z.of_nat 0) with 0%Z. rewrite Z.shiftr_0_r. cbn [fst].
    rewrite next_words_spec by (simpl; done || lia). simpl. by rewrite Nat.sub_0_r.
Qed.

(** *** Comparison

    The loops stop at the end of the shorter array. *)
Lemma equal_spec b1 b2 :
  wf b1 → wf b2 →
  bitset_equal b1 b2 = true ↔ ∀ i, i < minlength b1 b2 * 64 → bitset_get b1 i = bitset_get b2 i.
Proof.
  intros H1 H2. pose proof (minlength_min b1 b2) as Hml. unfold bitset_equal. rewrite forallb_forall. split.
  - intros Heq i Hi. assert (i / 64 < minlength b1 b2) as Hk by (apply Nat.Div0.div_lt_upper_bound; lia).
    specialize (Heq (i / 64)). rewrite in_seq, Z.eqb_eq in Heq.
    rewrite !get_wd. unfold wd. rewrite Heq by lia. nat_cases.
  - intros Heq k Hk%in_seq. apply Z.eqb_eq, u64_bits_eq; [apply H1|apply H2|].
    intros n Hn. rewrite !at_get by lia. apply Heq. nia.
Qed.

Lemma subseteq_spec b1 b2 :
  wf b1 → wf b2 →
  bitset_subseteq b1 b2 = true ↔
  ∀ i, i < minlength b1 b2 * 64 → bitset_get b1 i = true → bitset_get b2 i = true.
Proof.
  intros H1 H2. pose proof (minlength_min b1 b2) as Hml. unfold bitset_subseteq. rewrite forallb_forall. split.
  - intros Heq i Hi. assert (i / 64 < minlength b1 b2) as Hk by (apply Nat.Div0.div_lt_upper_bound; lia).
    specialize (Heq (i / 64)). rewrite in_seq, Z.eqb_eq in Heq.
    rewrite !get_wd. unfold wd.
    destruct (Nat.ltb_spec (i / 64) (arraysize b1)); [|lia].
    destruct (Nat.ltb_spec (i / 64) (arraysize b2)); [|lia].
    rewrite <- Heq, Z.land_spec by lia. by intros [_ ?]%andb_prop.
  - intros Heq k Hk%in_seq. apply Z.eqb_eq, u64_bits_eq; [|apply H1|].
    + apply is_u64_land, H1.
    + intros n Hn. rewrite Z.land_spec, !at_get by lia. specialize (Heq (n + k * 64) ltac:(nia)).
      destruct (bitset_get b1 _); [by rewrite Heq|done].
Qed.

(** A set whose array ends with its last member, as it is when it is built by [bitset_set]
    from the empty set and members only are added. *)
Definition tight (b : bitset_t) : Prop := last_word (array b) (arraysize b) = arraysize b.

Lemma tight_spec b : wf b → tight b ↔ ∀ k, arraysize b = S k → ∃ i, bitset_get b i = true ∧ i / 64 = k.
Proof.
  intros Hb. unfold tight. destruct (last_word_spec (array b) (arraysize b)) as (L1 & L2 & L3). split.
  - intros Ht k Hk. rewrite Ht in L3. specialize (L3 k Hk).
    destruct (u64_nonzero_bit (at_ (array b) k)) as (n & Hn & Hb'); [apply Hb|done|].
    exists (n + k * 64). rewrite at_get in Hb' by lia. split; [done|]. by apply div_mod_64.
  - intros Hm. destruct (arraysize b) as [|k] eqn:E; [done|]. destruct (Hm k eq_refl) as (i & Hi & Hd).
    destruct (decide (last_word (array b) (S k) = S k)); [done|].
    rewrite (zero_words b (last_word (array b) (S k)) (S k)) in Hi; [done|done|lia].
Qed.

(** Two disjoint sets that are not empty are told apart, whatever their sizes. *)
Lemma equal_disjoint b1 b2 :
  wf b1 → wf b2 → tight b1 → tight b2 → to_set b1 ≠ ∅ → to_set b2 ≠ ∅ → to_set b1 ## to_set b2 →
  bitset_equal b1 b2 = false.
Proof.
  intros H1 H2 T1 T2 N1 N2 Hd. apply not_true_iff_false. rewrite equal_spec by done. intros Heq.
  pose proof (minlength_min b1 b2) as Hml.
  assert (∀ b, to_set b ≠ ∅ → wf b → tight b → ∃ i, bitset_get b i = true ∧ i < arraysize b * 64 ∧
            S (i / 64) = arraysize b) as Hlast.
  { intros b Hne Hb Ht. destruct (arraysize b) as [|k] eqn:E.
    - exfalso. apply Hne, set_eq. intros i. rewrite elem_of_to_set, get_ge by lia. set_solver.
    - destruct (proj1 (tight_spec b Hb) Ht k E) as (i & Hi & Hk). exists i.
      pose proof (get_lt _ _ Hi). split_and!; [done|lia|lia]. }
  destruct (Hlast b1 N1 H1 T1) as (i & Hi & Li & Ei), (Hlast b2 N2 H2 T2) as (j & Hj & Lj & Ej).
  destruct (decide (arraysize b1 ≤ arraysize b2)).
  - apply (Hd i); [by apply elem_of_to_set|]. apply elem_of_to_set. rewrite <- Heq by lia. done.
  - apply (Hd j); [|by apply elem_of_to_set]. apply elem_of_to_set. rewrite Heq by lia. done.
Qed.

Lemma equal_refl b : bitset_equal b b = true.
Proof. apply forallb_forall. intros k _. apply Z.eqb_refl. Qed.

Lemma subseteq_sound b1 b2 : wf b1 → wf b2 → to_set b1 ⊆ to_set b2 → bitset_subseteq b1 b2 = true.
Proof.
  intros H1 H2 Hs. apply subseteq_spec; [done|done|]. intros i _ Hi.
  apply elem_of_to_set, Hs, elem_of_to_set, Hi.
Qed.

(** *** Trimming *)

Lemma trim_spec `{Malloc} b :
  wf b →
  match bitset_trim b with
  | Some b' => wf b' ∧ tight b' ∧ arraysize b' = capacity b' ∧ to_set b' = to_set b
  | None => to_set b = ∅ ∧ capacity b ≠ 0 ∧ realloc_zero_is_null = true
  end.
Proof.
  intros Hb. pose proof Hb as [Hl Hs Hw].
  destruct (last_word_spec (array b) (arraysize b)) as (L1 & L2 & L3). unfold bitset_trim.
  set (n := last_word (array b) (arraysize b)) in *.
  assert (∀ i, bitset_get b i = true → i / 64 < n) as Hin.
  { intros i Hi. apply Nat.nle_gt. intros Hge.
    rewrite (zero_words b n (arraysize b)) in Hi; [done|done|].
    split; [done|]. apply get_lt in Hi. apply Nat.Div0.div_lt_upper_bound. lia. }
  destruct (Nat.eqb_spec (capacity b) n) as [Hc|Hc].
  { split_and!; [done|fold n; unfold tight; fold n; lia|lia|done]. }
  destruct ((n =? 0) && realloc_zero_is_null) eqn:E.
  { propify. apply Nat.eqb_eq in H0. split_and!; [|lia|done].
    apply set_eq. intros i. rewrite elem_of_to_set. split; [intros Hi%Hin; lia|set_solver]. }
  assert (∀ k, k < n → at_ (realloc (array b) n) k = at_ (array b) k) as Hat
    by (intros; apply realloc_at; lia).
  assert (wf (mkBitset (realloc (array b) n) n n)) as Hwf.
  { apply mk_wf; [apply realloc_length|done|]. intros. rewrite Hat by done. apply Hw. }
  assert (∀ i, bitset_get (mkBitset (realloc (array b) n) n n) i = bitset_get b i) as Hg.
  { intros i. rewrite !get_wd. unfold wd. simpl. destruct (Nat.ltb_spec (i / 64) n).
    - rewrite Hat by done. nat_cases.
    - rewrite Z.bits_0. symmetry. apply not_true_iff_false. intros Hi. revert Hi.
      fold (wd b (i / 64)). rewrite <- get_wd. intros Hi%Hin. lia. }
  split_and!; [done| |done|].
  - unfold tight. simpl. destruct n as [|k] eqn:En; [done|]. simpl.
    rewrite Hat by lia. destruct (Z.eqb_spec (at_ (array b) k) 0) as [E0|]; [|done].
    by apply L3 in E0.
  - apply set_eq. intros i. by rewrite !elem_of_to_set, Hg.
Qed.

(** *** Shifts *)

Lemma for_down_at (f : nat → Z) hi lo body a0 :
  lo ≤ hi → hi ≤ length a0 →
  (∀ i a, lo < i ≤ hi → length a = length a0 →
    (∀ j, at_ a j = if (i <=? j) && (j <? hi) then f j else at_ a0 j) →
    body a i = <[i - 1 := f (i - 1)]> a) →
  length (for_down hi lo body a0) = length a0 ∧
  ∀ j, at_ (for_down hi lo body a0) j = if (lo <=? j) && (j <? hi) then f j else at_ a0 j.
Proof.
  intros Hle Hhi Hb.
  apply (for_down_ind (λ k a, length a = length a0 ∧
      ∀ j, at_ a j = if (k <=? j) && (j <? hi) then f j else at_ a0 j)); [done| |].
  - split; [done|]. intros j. nat_cases.
  - intros k a Hk [Hlen Hat]. rewrite Hb by auto. split; [by rewrite length_insert|].
    intros j. rewrite at_insert, Hat. nat_cases. by subst.
Qed.

Lemma shl64_testbit w s n :
  n < 64 → Z.testbit (shl64 w s) (Z.of_nat n) = (s <=? n) && Z.testbit w (Z.of_nat (n - s)).
Proof.
  intros Hn. unfold shl64, u64, wrap. rewrite Z.mod_pow2_bits_low, Z.shiftl_spec by lia.
  destruct (Nat.leb_spec s n); cbn [andb]; [f_equal; lia|]. by rewrite Z.testbit_neg_r by lia.
Qed.
Lemma shr64_testbit w s n : Z.testbit (shr64 w s) (Z.of_nat n) = Z.testbit w (Z.of_nat (n + s)).
Proof. unfold shr64. rewrite Z.shiftr_spec by lia. f_equal. lia. Qed.
Lemma u64_high w n : is_u64 w → 64 ≤ n → Z.testbit w (Z.of_nat n) = false.
Proof. intros [_ Hb]%is_u64_bits Hn. apply Hb. lia. Qed.
Lemma is_u64_shl64 w s : is_u64 (shl64 w s).
Proof. apply u64_range. Qed.
Lemma is_u64_shr64 w s : is_u64 w → is_u64 (shr64 w s).
Proof. apply is_u64_shiftr. lia. Qed.
#[local] Hint Resolve is_u64_shl64 is_u64_shr64 : u64.

Section Shift.
Context `{Malloc}.
Variables (b : bitset_t) (s : nat).
Hypothesis Hb : wf b.

(** From words to members: a left shift by [s]. *)
Lemma shifted_left_get b' :
  (∀ k, wd b' k = if k <? s / 64 then 0%Z else
     Z.lor (shl64 (wd b (k - s / 64)) (s mod 64))
           (if k <=? s / 64 then 0%Z else shr64 (wd b (k - s / 64 - 1)) (64 - s mod 64))) →
  ∀ i, bitset_get b' i = (s <=? i) && bitset_get b (i - s).
Proof.
  intros Hk i. rewrite get_wd, Hk.
  pose proof (Nat.div_mod_eq i 64) as Di. pose proof (Nat.mod_upper_bound i 64 ltac:(lia)) as Mi.
  pose proof (Nat.div_mod_eq s 64) as Ds. pose proof (Nat.mod_upper_bound s 64 ltac:(lia)) as Ms.
  set (q := i / 64) in *. set (r := i mod 64) in *. set (e := s / 64) in *. set (sh := s mod 64) in *.
  destruct (Nat.ltb_spec q e); [rewrite Z.bits_0; nat_cases|].
  rewrite Z.lor_spec, shl64_testbit by done. destruct (Nat.leb_spec sh r).
  - replace (i - s) with ((r - sh) + (q - e) * 64) by lia. rewrite <- wd_get by lia.
    destruct (Nat.leb_spec s i); [|lia]. cbn [andb].
    destruct (Nat.leb_spec q e); [by rewrite Z.bits_0, orb_false_r|].
    rewrite shr64_testbit, (u64_high _ (r + (64 - sh))), orb_false_r by (lia || by apply wf_wd). done.
  - destruct (Nat.leb_spec q e); [rewrite Z.bits_0; nat_cases|].
    replace (i - s) with ((r + (64 - sh)) + (q - e - 1) * 64) by lia. rewrite <- wd_get by lia.
    rewrite shr64_testbit. nat_cases.
Qed.

Lemma shl64_zero n : shl64 0 n = 0%Z.
Proof. unfold shl64. by rewrite Z.shiftl_0_l. Qed.
Lemma shr64_zero n : shr64 0 n = 0%Z.
Proof. unfold shr64. by rewrite Z.shiftr_0_l. Qed.
Lemma shl64_0 w : is_u64 w → shl64 w 0 = w.
Proof. intros Hw. unfold shl64. by rewrite Z.shiftl_0_r, u64_small. Qed.
Lemma shr64_64 w : is_u64 w → shr64 w 64 = 0%Z.
Proof.
  intros Hw. apply u64_bits_eq; [by apply is_u64_shr64|apply is_u64_0|].
  intros n Hn. rewrite shr64_testbit, u64_high, Z.bits_0 by (done || lia). done.
Qed.

Lemma shift_left_words : s mod 64 = 0 → ∃ b', bitset_shift_left b s = Some b' ∧ wf b' ∧
  ∀ k, wd b' k = if k <? s / 64 then 0%Z else wd b (k - s / 64).
Proof.
  intros Hs. unfold bitset_shift_left. rewrite Hs. cbn [Nat.eqb]. eexists. split; [done|].
  set (e := s / 64). rewrite resize_enlarged. cbn [array arraysize capacity].
  destruct (enlarged_spec b (arraysize b + e) Hb) as (Hl & Hn & Hw & Hold). set (en := enlarged _ _) in *.
  destruct (for_down_at (λ j, at_ en.1 (j - e)) (arraysize b + e) e
    (λ a i, <[i - 1 := at_ a (i - 1 - e)]> a) en.1) as [Dl Da]; [lia|lia| |].
  { intros i a Hi Hla Ha. rewrite Ha. destruct (Nat.eqb_spec e 0); [|nat_cases].
    nat_cases. }
  set (d := for_down _ _ _ _) in *.
  destruct (memset0_at 0 e d) as [Ml Ma]; [lia|]. split.
  - apply mk_wf; [lia|lia|]. intros k Hk. rewrite Ma, Da. nat_cases; apply Hw.
  - intros k. unfold wd. cbn [array arraysize]. rewrite Ma, Da. nat_cases. apply Hold; lia.
Qed.

Lemma shift_left_words_in : s mod 64 ≠ 0 → arraysize b ≠ 0 → ∃ b', bitset_shift_left b s = Some b' ∧ wf b' ∧
  ∀ k, wd b' k = if k <? s / 64 then 0%Z else
     Z.lor (shl64 (wd b (k - s / 64)) (s mod 64))
           (if k <=? s / 64 then 0%Z else shr64 (wd b (k - s / 64 - 1)) (64 - s mod 64)).
Proof.
  intros Hs Ha0. unfold bitset_shift_left. pose proof (Nat.mod_upper_bound s 64 ltac:(lia)) as Ms.
  set (e := s / 64). set (sh := s mod 64) in *.
  destruct (Nat.eqb_spec sh 0); [done|]. destruct (Nat.eqb_spec (arraysize b) 0); [done|].
  eexists. split; [done|]. rewrite resize_pad by lia.
  pose proof (grow_wf b (arraysize b + e + 1) Hb) as [Gl Gs Gw].
  assert (∀ k, at_ (array (bitset_grow b (arraysize b + e + 1))) k =
    if k <? arraysize b + e + 1 then wd b k else at_ (array (bitset_grow b (arraysize b + e + 1))) k) as Ga.
  { intros k. nat_cases. rewrite <- (grow_wd b (arraysize b + e + 1)) by (done || lia).
    unfold wd. rewrite grow_enlarged. cbn [arraysize array]. nat_cases. }
  assert (arraysize (bitset_grow b (arraysize b + e + 1)) = arraysize b + e + 1) as Gn
    by (rewrite grow_enlarged; done).
  set (g := bitset_grow b (arraysize b + e + 1)) in *.
  set (a0 := <[arraysize b + e := shr64 (at_ (array g) (arraysize b - 1)) (64 - sh)]> (array g)).
  assert (length a0 = capacity g) as L0 by (subst a0; by rewrite length_insert).
  assert (∀ k, k < arraysize b → at_ a0 k = wd b k) as A0.
  { intros k Hk. subst a0. rewrite at_insert, (Ga k). nat_cases. }
  destruct (for_down_at (λ j, Z.lor (shl64 (at_ a0 (j - e)) sh) (shr64 (at_ a0 (j - e - 1)) (64 - sh)))
    (arraysize b + e) (e + 1)
    (λ a i, <[i - 1 := Z.lor (shl64 (at_ a (i - 1 - e)) sh) (shr64 (at_ a (i - 2 - e)) (64 - sh))]> a) a0)
    as [Dl Da]; [lia|lia| |].
  { intros i a Hi Hla Ha. rewrite !Ha. replace (i - 1 - e - 1) with (i - 2 - e) by lia. nat_cases. }
  set (d := for_down _ _ _ _) in *.
  assert (∀ k, is_u64 (at_ d k)) as Hd.
  { intros k. rewrite Da. subst a0. rewrite !at_insert. nat_cases; auto with u64. }
  destruct (memset0_at 0 e (<[e := shl64 (at_ d 0) sh]> d)) as [Ml Ma]; [rewrite length_insert; lia|].
  rewrite length_insert in Ml. split.
  - apply mk_wf; [lia|lia|]. intros k Hk. rewrite Ma, at_insert. nat_cases; auto with u64.
  - intros k. unfold wd at 1. cbn [array arraysize]. rewrite Gn, Ma, at_insert, !Da.
    destruct (decide (k < e)); [by nat_decide|].
    destruct (decide (k < arraysize b + e + 1)).
    2: { rewrite (wd_ge b (k - e)), (wd_ge b (k - e - 1)) by lia. rewrite shl64_zero, shr64_zero.
         by nat_decide. }
    destruct (decide (k = e)) as [->|].
    { rewrite Nat.sub_diag, <- (A0 0) by lia. nat_decide. by rewrite Z.lor_0_r. }
    destruct (decide (k = arraysize b + e)) as [->|].
    { rewrite (wd_ge b (_ + e - e)), shl64_zero, Z.lor_0_l by lia. nat_decide. subst a0.
      rewrite at_insert, (Ga (arraysize b - 1)).
      replace (arraysize b + e - e - 1) with (arraysize b - 1) by lia. by nat_decide. }
    rewrite <- !A0 by lia. by nat_decide.
Qed.

(** From words to members: a right shift by [s]. *)
Lemma shifted_right_get b' :
  (∀ k, wd b' k = Z.lor (shr64 (wd b (k + s / 64)) (s mod 64))
                        (shl64 (wd b (k + s / 64 + 1)) (64 - s mod 64))) →
  ∀ i, bitset_get b' i = bitset_get b (i + s).
Proof.
  intros Hk i. rewrite get_wd, Hk.
  pose proof (Nat.div_mod_eq i 64) as Di. pose proof (Nat.mod_upper_bound i 64 ltac:(lia)) as Mi.
  pose proof (Nat.div_mod_eq s 64) as Ds. pose proof (Nat.mod_upper_bound s 64 ltac:(lia)) as Ms.
  set (q := i / 64) in *. set (r := i mod 64) in *. set (e := s / 64) in *. set (sh := s mod 64) in *.
  rewrite Z.lor_spec, shl64_testbit, shr64_testbit by done. destruct (Nat.leb_spec (64 - sh) r).
  - rewrite u64_high by (lia || by apply wf_wd). cbn [andb orb].
    replace (i + s) with ((r - (64 - sh)) + (q + e + 1) * 64) by lia. by rewrite <- wd_get by lia.
  - cbn [andb]. rewrite orb_false_r. replace (i + s) with ((r + sh) + (q + e) * 64) by lia.
    by rewrite <- wd_get by lia.
Qed.

Lemma shift_right_words : s mod 64 = 0 → s / 64 ≤ arraysize b → ∃ b', bitset_shift_right b s = Some b' ∧
  wf b' ∧ ∀ k, wd b' k = wd b (k + s / 64).
Proof.
  intros Hs Hle. pose proof Hb as [Hl Hn Hw]. unfold bitset_shift_right. rewrite Hs. cbn [Nat.eqb].
  set (e := s / 64) in *. destruct (Nat.ltb_spec (arraysize b) e); [lia|]. eexists. split; [done|].
  destruct (for_up_at (λ j, at_ (array b) (j + e)) 0 (arraysize b - e)
    (λ a i, <[i := at_ a (i + e)]> a) (array b)) as [Ul Ua]; [lia| |].
  { intros k a Hk Hla Ha. rewrite Ha. by nat_decide. }
  set (u := for_up _ _ _ _) in *.
  assert (wf (mkBitset u (arraysize b) (capacity b))) as Hu.
  { apply mk_wf; [lia|done|]. intros k Hk. rewrite Ua. destruct (_ && _); apply Hw. }
  split; [by apply resize_wf|]. intros k. rewrite resize_shrink by (done || cbn [arraysize]; lia).
  unfold wd. cbn [array arraysize]. rewrite Ua. nat_cases.
Qed.

Lemma shift_right_words_in : s mod 64 ≠ 0 → s / 64 < arraysize b → ∃ b', bitset_shift_right b s = Some b' ∧
  wf b' ∧ ∀ k, wd b' k = Z.lor (shr64 (wd b (k + s / 64)) (s mod 64))
                               (shl64 (wd b (k + s / 64 + 1)) (64 - s mod 64)).
Proof.
  intros Hs Hle. pose proof Hb as [Hl Hn Hw]. unfold bitset_shift_right.
  set (e := s / 64) in *. set (sh := s mod 64) in *.
  destruct (Nat.eqb_spec sh 0); [done|]. destruct (Nat.leb_spec (arraysize b) e); [lia|].
  eexists. split; [done|].
  destruct (for_up_at (λ j, Z.lor (shr64 (at_ (array b) (j + e)) sh) (shl64 (at_ (array b) (j + e + 1)) (64 - sh)))
    0 (arraysize b - e - 1)
    (λ a i, <[i := Z.lor (shr64 (at_ a (i + e)) sh) (shl64 (at_ a (i + e + 1)) (64 - sh))]> a) (array b))
    as [Ul Ua]; [lia| |].
  { intros k a Hk Hla Ha. rewrite !Ha. by nat_decide. }
  set (u := for_up _ _ _ _) in *.
  set (a := <[arraysize b - e - 1 := shr64 (at_ u (arraysize b - 1)) sh]> u).
  assert (∀ k, at_ a k = if k <? arraysize b - e then
    Z.lor (shr64 (wd b (k + e)) sh) (shl64 (wd b (k + e + 1)) (64 - sh)) else at_ (array b) k) as Ha.
  { intros k. subst a. rewrite at_insert, !Ua. unfold wd.
    destruct (decide (k < arraysize b - e - 1)); [by nat_decide|].
    destruct (decide (k < arraysize b - e)); [|by nat_decide].
    nat_decide. replace (k + e) with (arraysize b - 1) by lia. by rewrite shl64_zero, Z.lor_0_r. }
  assert (wf (mkBitset a (arraysize b) (capacity b))) as Hu.
  { apply mk_wf; [subst a; rewrite length_insert; lia|done|]. intros k Hk. rewrite Ha.
    destruct (_ <? _); [|apply Hw]. pose proof (wf_wd b (k + e) Hb). auto with u64. }
  split; [by apply resize_wf|]. intros k. rewrite resize_shrink by (done || cbn [arraysize]; lia).
  unfold wd at 1. cbn [array arraysize]. rewrite Ha. destruct (decide (k < arraysize b - e)); [by nat_decide|].
  rewrite (wd_ge b (k + e)), (wd_ge b (k + e + 1)), shl64_zero, shr64_zero by lia. by nat_decide.
Qed.

Lemma shift_left_get :
  match bitset_shift_left b s with
  | Some b' => wf b' ∧ ∀ i, bitset_get b' i = (s <=? i) && bitset_get b (i - s)
  | None => arraysize b = 0 ∧ s mod 64 ≠ 0
  end.
Proof.
  destruct (decide (s mod 64 = 0)) as [Hs|Hs].
  - destruct (shift_left_words Hs) as (b' & -> & Hwf & Hk). split; [done|].
    apply shifted_left_get. intros k. rewrite Hk, Hs, Nat.sub_0_r, shl64_0, shr64_64 by (by apply wf_wd).
    destruct (k <? _); [done|]. destruct (k <=? _); by rewrite Z.lor_0_r.
  - destruct (decide (arraysize b = 0)) as [Ha|Ha].
    + unfold bitset_shift_left. rewrite Ha. apply Nat.eqb_neq in Hs as Hs'. rewrite Hs'. done.
    + destruct (shift_left_words_in Hs Ha) as (b' & -> & Hwf & Hk). split; [done|].
      by apply shifted_left_get.
Qed.

Lemma shift_right_get :
  match bitset_shift_right b s with
  | Some b' => wf b' ∧ ∀ i, bitset_get b' i = bitset_get b (i + s)
  | None => arraysize b * 64 < s
  end.
Proof.
  pose proof (Nat.div_mod_eq s 64) as Ds.
  destruct (decide (s mod 64 = 0)) as [Hs|Hs].
  - destruct (decide (s / 64 ≤ arraysize b)) as [Ha|Ha].
    + destruct (shift_right_words Hs Ha) as (b' & -> & Hwf & Hk). split; [done|].
      apply shifted_right_get. intros k. rewrite Hk, Hs, Nat.sub_0_r.
      unfold shr64, shl64. rewrite Z.shiftr_0_r.
      apply u64_bits_eq; [by apply wf_wd|apply is_u64_lor; [by apply wf_wd|apply u64_range]|].
      intros n Hn. fold (shl64 (wd b (k + s / 64 + 1)) 64).
      rewrite Z.lor_spec, shl64_testbit by done. nat_decide. by rewrite orb_false_r.
    + unfold bitset_shift_right. rewrite Hs. cbn [Nat.eqb]. nat_decide. lia.
  - destruct (decide (s / 64 < arraysize b)) as [Ha|Ha].
    + destruct (shift_right_words_in Hs Ha) as (b' & -> & Hwf & Hk). split; [done|].
      by apply shifted_right_get.
    + unfold bitset_shift_right. nat_decide. lia.
Qed.
End Shift.

(** ** Theorems *)

(** C library memory with recognisable rubbish in it; [realloc(p, 0)] frees. *)
#[export] Program Instance libc : Malloc := {|
  indeterminate := λ _, 3735928559%Z; realloc_zero_is_null := true |}.
Next Obligation. intros. unfold is_u64, UINT64_MAX. lia. Qed.

Definition bitset_of `{Malloc} (l : list nat) : bitset_t := fold_left bitset_set l bitset_create.

Lemma bitset_of_wf `{Malloc} l : wf (bitset_of l).
Proof.
  unfold bitset_of. assert (wf bitset_create) as Hc by apply create_wf. revert Hc.
  generalize bitset_create. induction l as [|i l IH]; intros b Hb; simpl; [done|]. apply IH. auto with bitset.
Qed.

(** C37: on well-formed blocks, reading, setting and unsetting a number, clearing, copying and the four in-place operations
    of the C library compute the operation on finite sets of numbers that their name says and keep the block
    well-formed, whatever indeterminate memory contains; the five counts are the cardinalities of the results; the
    minimum and the maximum of a set that is not empty are its least and its greatest member. *)
Theorem bitset_refines_sets `{Malloc} b1 b2 i (H1 : wf b1) (H2 : wf b2) :
  (bitset_get b1 i = true ↔ i ∈ to_set b1) ∧
  (wf (bitset_set b1 i) ∧ to_set (bitset_set b1 i) = {[i]} ∪ to_set b1) ∧
  (wf (bitset_unset b1 i) ∧ to_set (bitset_unset b1 i) = to_set b1 ∖ {[i]}) ∧
  (wf (bitset_clear b1) ∧ to_set (bitset_clear b1) = ∅) ∧
  (wf (bitset_copy b1) ∧ to_set (bitset_copy b1) = to_set b1) ∧
  (wf (bitset_inplace_union b1 b2) ∧ to_set (bitset_inplace_union b1 b2) = to_set b1 ∪ to_set b2) ∧
  (wf (bitset_inplace_intersection b1 b2) ∧
     to_set (bitset_inplace_intersection b1 b2) = to_set b1 ∩ to_set b2) ∧
  (wf (bitset_inplace_difference b1 b2) ∧
     to_set (bitset_inplace_difference b1 b2) = to_set b1 ∖ to_set b2) ∧
  (wf (bitset_inplace_symmetric_difference b1 b2) ∧
     to_set (bitset_inplace_symmetric_difference b1 b2) =
       (to_set b1 ∖ to_set b2) ∪ (to_set b2 ∖ to_set b1)) ∧
  bitset_count b1 = size (to_set b1) ∧
  bitset_union_count b1 b2 = size (to_set b1 ∪ to_set b2) ∧
  bitset_intersection_count b1 b2 = size (to_set b1 ∩ to_set b2) ∧
  bitset_difference_count b1 b2 = size (to_set b1 ∖ to_set b2) ∧
  bitset_symmetric_difference_count b1 b2 =
    size ((to_set b1 ∖ to_set b2) ∪ (to_set b2 ∖ to_set b1)) ∧
  (to_set b1 ≠ ∅ → bitset_minimum b1 ∈ to_set b1 ∧ ∀ j, j ∈ to_set b1 → bitset_minimum b1 ≤ j) ∧
  (to_set b1 ≠ ∅ → bitset_maximum b1 ∈ to_set b1 ∧ ∀ j, j ∈ to_set b1 → j ≤ bitset_maximum b1).
Proof.
  split_and!; auto using minimum_spec, maximum_spec, to_set_set, to_set_unset, to_set_clear, to_set_copy, to_set_union,
    to_set_inter, to_set_diff, to_set_symdiff, count_size, union_count_size, intersection_count_size,
    difference_count_size, symmetric_difference_count_size with bitset.
  by rewrite elem_of_to_set.
Qed.

Lemma bitset_refines_sets_witness :
  to_set (bitset_inplace_union (bitset_of [1; 70]) (bitset_of [3; 200])) = {[1; 3; 70; 200]} ∧
  bitset_union_count (bitset_of [1; 70]) (bitset_of [3; 200]) = 4 ∧
  bitset_minimum (bitset_of [1; 70]) = 1 ∧ bitset_maximum (bitset_of [1; 70]) = 70.
Proof.
  destruct (bitset_refines_sets (bitset_of [1; 70]) (bitset_of [3; 200]) 0
    (bitset_of_wf _) (bitset_of_wf _)) as (_ & _ & _ & _ & _ & [_ Hu] & _ & _ & _ & _ & Hc & _ & _ & _ & Hmin & Hmax).
  assert (Hset : to_set (bitset_of [1; 70]) = {[1; 70]}) by (apply (bool_decide_eq_true_1 _); vm_compute; reflexivity).
  rewrite Hset in Hmin, Hmax. destruct Hmin as [Hmin1 Hmin2]; [done|]. destruct Hmax as [Hmax1 Hmax2]; [done|].
  split; [rewrite Hu; vm_compute; reflexivity|]. split; [rewrite Hc; vm_compute; reflexivity|].
  specialize (Hmin2 1). specialize (Hmax2 70). split; [assert (bitset_minimum (bitset_of [1; 70]) ≤ 1) by set_solver|assert (70 ≤ bitset_maximum (bitset_of [1; 70])) by set_solver]; set_solver by lia.
Defined.

(** The three ways to go through a bit set agree. The loop over [nextSetBit] produces the members in
    increasing order, each once; [bitset_for_each] calls its iterator on them in this order until it
    returns false; [nextSetBits] from the start of a word fills the buffer with the first of them. *)
Theorem iteration_visits_members b {S} (iterator : nat → S → bool * S) s cap x (Hb : wf b) :
  (∀ i, i ∈ for_bits b ↔ bitset_get b i = true) ∧ NoDup (for_bits b) ∧ StronglySorted lt (for_bits b) ∧
  bitset_for_each iterator b s = visit iterator (for_bits b) s ∧
  (nextSetBits b cap (x * 64)).1 = take cap (members_from b (x * 64)).
Proof.
  rewrite (for_bits_members b Hb). split_and!.
  - apply elem_of_members.
  - apply NoDup_members.
  - apply filter_seq_sorted.
  - by apply for_each_visits.
  - by apply nextSetBits_aligned.
Qed.

Lemma iteration_visits_members_witness :
  for_bits (bitset_of [130; 2; 64]) = [2; 64; 130] ∧
  bitset_for_each (λ i s, (i <? 64, i + s)) (bitset_of [130; 2; 64]) 0 = (false, 66) ∧
  (nextSetBits (bitset_of [130; 2; 64]) 5 64).1 = [64; 130].
Proof.
  destruct (iteration_visits_members (bitset_of [130; 2; 64]) (λ i s, (i <? 64, i + s)) 0 5 1
    (bitset_of_wf _)) as (_ & _ & _ & Hv & Hn).
  split_and!; [vm_compute; reflexivity|rewrite Hv; vm_compute; reflexivity|].
  exact (eq_trans Hn eq_refl).
Defined.

(** A left shift moves every member up by [s]; it goes out of bounds only for a set with no words and a
    shift inside a word. A right shift moves every member down, dropping those below [s], unless
    [s] is beyond the array. Shifting left and then right restores the set. *)
Theorem shift_roundtrip `{Malloc} b s (Hb : wf b) (Hs : arraysize b ≠ 0) :
  ∃ b1 b2, bitset_shift_left b s = Some b1 ∧ wf b1 ∧
    (∀ i, bitset_get b1 i = (s <=? i) && bitset_get b (i - s)) ∧
    bitset_shift_right b1 s = Some b2 ∧ wf b2 ∧ to_set b2 = to_set b.
Proof.
  pose proof (shift_left_get b s Hb) as Hl.
  destruct (bitset_shift_left b s) as [b1|] eqn:E; [|tauto]. destruct Hl as [H1 G1].
  pose proof (shift_right_get b1 s H1) as Hr.
  assert (s ≤ arraysize b1 * 64) as Hsz.
  { pose proof (Nat.div_mod_eq s 64) as Ds. pose proof (Nat.mod_upper_bound s 64 ltac:(lia)).
    revert E. unfold bitset_shift_left. rewrite resize_enlarged, resize_pad, grow_enlarged by lia.
    destruct (Nat.eqb_spec (s mod 64) 0).
    - intros [= <-]. cbn [arraysize]. lia.
    - destruct (Nat.eqb_spec (arraysize b) 0); [done|]. intros [= <-]. cbn [arraysize]. lia. }
  destruct (bitset_shift_right b1 s) as [b2|] eqn:E2; [|lia]. destruct Hr as [H2 G2].
  exists b1, b2. split_and!; [done|done|done|done|done|].
  apply set_eq. intros i. rewrite !elem_of_to_set, G2, G1. nat_decide. by rewrite Nat.add_sub.
Qed.

Lemma shift_roundtrip_witness :
  ∃ b1 b2, bitset_shift_left (bitset_of [5; 70]) 100 = Some b1 ∧
    bitset_get b1 170 = true ∧ bitset_shift_right b1 100 = Some b2 ∧ to_set b2 = {[5; 70]}.
Proof.
  destruct (shift_roundtrip (bitset_of [5; 70]) 100 (bitset_of_wf _)) as (b1 & b2 & E1 & _ & G & E2 & _ & T);
    [vm_compute; lia|].
  exists b1, b2. split_and!; [exact E1|rewrite G; reflexivity|exact E2|rewrite T; vm_compute; reflexivity].
Defined.

(** [bitset_equal] and [bitset_subseteq] look at the common words only, so that neither answer is about
    the sets: a set is "equal" to one with more members in further words, and a set is a
    "subset" of one that lacks its members in further words. Inclusion is never denied
    wrongly, and disjoint sets without trailing zero words are told apart. *)
Theorem comparisons_ignore_tails `{Malloc} b1 b2 (H1 : wf b1) (H2 : wf b2) :
  (bitset_equal b1 b2 = true ↔
     ∀ i, i < minlength b1 b2 * 64 → (i ∈ to_set b1 ↔ i ∈ to_set b2)) ∧
  (bitset_subseteq b1 b2 = true ↔
     ∀ i, i < minlength b1 b2 * 64 → i ∈ to_set b1 → i ∈ to_set b2) ∧
  (to_set b1 ⊆ to_set b2 → bitset_subseteq b1 b2 = true) ∧
  (tight b1 → tight b2 → to_set b1 ≠ ∅ → to_set b2 ≠ ∅ → to_set b1 ## to_set b2 →
     bitset_equal b1 b2 = false).
Proof.
  split_and!.
  - rewrite equal_spec by done. setoid_rewrite elem_of_to_set. apply forall_proper. intros i.
    destruct (bitset_get b1 i), (bitset_get b2 i); naive_solver.
  - rewrite subseteq_spec by done. by setoid_rewrite elem_of_to_set.
  - by apply subseteq_sound.
  - by apply equal_disjoint.
Qed.

Lemma comparisons_ignore_tails_witness :
  bitset_equal (bitset_of [1]) (bitset_of [1; 64]) = true ∧
  bitset_subseteq (bitset_of [1; 64]) (bitset_of [1]) = true ∧ ¬ to_set (bitset_of [1; 64]) ⊆ to_set (bitset_of [1]).
Proof.
  destruct (comparisons_ignore_tails (bitset_of [1]) (bitset_of [1; 64]) (bitset_of_wf _) (bitset_of_wf _))
    as (He & _). split_and!.
  - apply He. intros i Hi. change (minlength _ _ * 64) with 64 in Hi. rewrite !elem_of_to_set.
    change (bitset_of [1; 64]) with (bitset_set (bitset_of [1]) 64).
    rewrite get_set by apply bitset_of_wf. nat_decide. done.
  - vm_compute. reflexivity.
  - intros Hs. specialize (Hs 64). revert Hs. rewrite !elem_of_to_set. vm_compute. intros Hs. discriminate Hs. reflexivity.
Defined.

(** Reading from the middle of a word reports wrong members: the set {5} read from 1 gives 4. *)
Theorem nextSetBits_unaligned_wrong : (nextSetBits (bitset_of [5]) 10 1).1 = [4].
Proof. vm_compute. reflexivity. Qed.

(** Shifting an empty set left inside a word reads before the array. *)
Theorem shift_left_empty_out_of_bounds : bitset_shift_left bitset_create 1 = None.
Proof. reflexivity. Qed.

(** Trimming a set without members frees its block twice when [realloc] to nothing returns null. *)
Theorem trim_empty_aborts : bitset_trim (bitset_create_with_capacity 64) = None.
Proof. reflexivity. Qed.
