(* ===== verification/BitSets.v ===== *)
(** * The class [BitSet] of [util/BitSet.h]

    A C++ wrapper around a C bit set that remembers the number of members until the set is
    changed. The invariant is that a count that is not marked dirty is right; [bset] is the
    finite set an object stands for, and the lemmas at the end are what the quorum intersection
    checker uses of this class. *)
From stdpp Require Import base list gmap.
From Stdlib Require Import ZArith Lia.
From S2P Require Import Prelude CBitset CBitsetSpec.
#[local] Open Scope nat_scope.

Record BitSet := mkBitSet { mCountDirty : bool; mCountCache : nat; mPtr : bitset_t }.

(** ** Constructors and assignment *)

Definition bs_new : BitSet := mkBitSet true 0 bitset_create.
Definition bs_sized (n : nat) : BitSet := mkBitSet true 0 (bitset_create_with_capacity n).
Definition bs_copy (other : BitSet) : BitSet := mkBitSet true 0 (bitset_copy (mPtr other)).
Definition bs_assign (other : BitSet) : BitSet :=
  mkBitSet (mCountDirty other) (mCountCache other) (bitset_copy (mPtr other)).

(** ** Members *)

Definition bs_equal (b other : BitSet) : bool := bitset_equal (mPtr b) (mPtr other).
Definition bs_isSubsetEq (b other : BitSet) : bool := bitset_subseteq (mPtr b) (mPtr other).
Definition bs_size (b : BitSet) : nat := bitset_size_in_bits (mPtr b).
Definition bs_set `{Malloc} (b : BitSet) (i : nat) : BitSet :=
  mkBitSet true (mCountCache b) (bitset_set (mPtr b) i).
Definition bs_unset (b : BitSet) (i : nat) : BitSet :=
  mkBitSet true (mCountCache b) (bitset_unset (mPtr b) i).
Definition bs_get (b : BitSet) (i : nat) : bool := bitset_get (mPtr b) i.
Definition bs_clear (b : BitSet) : BitSet := mkBitSet false 0 (bitset_clear (mPtr b)).

(** [count()] is const but updates the mutable cache. *)
Definition bs_count (b : BitSet) : nat * BitSet :=
  if mCountDirty b
  then let n := bitset_count (mPtr b) in (n, mkBitSet false n (mPtr b))
  else (mCountCache b, b).

Definition bs_nextSet (b : BitSet) (i : nat) : option nat := nextSetBit (mPtr b) i.
Definition bs_empty (b : BitSet) : bool :=
  match bs_nextSet b 0 with Some _ => false | None => true end.
Definition bs_bool (b : BitSet) : bool := negb (bs_empty b).
Definition bs_min (b : BitSet) : nat := bitset_minimum (mPtr b).
Definition bs_max (b : BitSet) : nat := bitset_maximum (mPtr b).

(** [BitSet(std::set<size_t> const&)]: the set is the increasing list [s]. *)
Definition bs_of_set `{Malloc} (s : list nat) : BitSet :=
  fold_left bs_set s (bs_sized (List.last s 0)).

(** ** Set operations *)

Definition bs_inplaceUnion `{Malloc} (b other : BitSet) : BitSet :=
  mkBitSet true (mCountCache b) (bitset_inplace_union (mPtr b) (mPtr other)).
Definition bs_union `{Malloc} (b other : BitSet) : BitSet := bs_inplaceUnion (bs_copy b) other.
Definition bs_inplaceIntersection (b other : BitSet) : BitSet :=
  mkBitSet true (mCountCache b) (bitset_inplace_intersection (mPtr b) (mPtr other)).
Definition bs_inter (b other : BitSet) : BitSet := bs_inplaceIntersection (bs_copy b) other.
Definition bs_inplaceDifference (b other : BitSet) : BitSet :=
  mkBitSet true (mCountCache b) (bitset_inplace_difference (mPtr b) (mPtr other)).
Definition bs_diff (b other : BitSet) : BitSet := bs_inplaceDifference (bs_copy b) other.
Definition bs_inplaceSymmetricDifference `{Malloc} (b other : BitSet) : BitSet :=
  mkBitSet true (mCountCache b) (bitset_inplace_symmetric_difference (mPtr b) (mPtr other)).
Definition bs_symmetricDifference `{Malloc} (b other : BitSet) : BitSet :=
  bs_inplaceSymmetricDifference (bs_copy b) other.

Definition bs_unionCount (b other : BitSet) : nat := bitset_union_count (mPtr b) (mPtr other).
Definition bs_intersectionCount (b other : BitSet) : nat :=
  bitset_intersection_count (mPtr b) (mPtr other).
Definition bs_differenceCount (b other : BitSet) : nat :=
  bitset_difference_count (mPtr b) (mPtr other).
Definition bs_symmetricDifferenceCount (b other : BitSet) : nat :=
  bitset_symmetric_difference_count (mPtr b) (mPtr other).

(** [for (size_t i = 0; b.nextSet(i); ++i)]: the values of [i]; [streamWith] hands them to
    its callback in this order, which changes the state [s]. *)
Definition bs_bits (b : BitSet) : list nat := for_bits (mPtr b).
Definition bs_streamWith {S} (b : BitSet) (item : S → nat → S) (s : S) : S :=
  fold_left item (bs_bits b) s.

(** What [count()] answers; that it also fills the cache changes no later answer. *)
Definition bs_card (b : BitSet) : nat := (bs_count b).1.

(** ** The invariant *)

Record bs_wf (b : BitSet) : Prop := {
  bs_wf_ptr : wf (mPtr b);
  bs_wf_count : mCountDirty b = false → mCountCache b = bitset_count (mPtr b) }.

Definition bset (b : BitSet) : gset nat := to_set (mPtr b).

Create HintDb bs.
Section Laws.
Context `{Malloc}.
Implicit Types b : BitSet.

Lemma mk_bs_wf n p : wf p → bs_wf (mkBitSet true n p).
Proof. by split. Qed.
#[local] Hint Resolve mk_bs_wf bs_wf_ptr : bitset.

Lemma bs_new_wf : bs_wf bs_new.
Proof. unfold bs_new. auto with bitset. Qed.
Lemma bs_sized_wf n : bs_wf (bs_sized n).
Proof. unfold bs_sized. auto with bitset. Qed.
Lemma bs_copy_wf b : bs_wf b → bs_wf (bs_copy b).
Proof. unfold bs_copy. auto with bitset. Qed.
Lemma bs_assign_wf b : bs_wf b → bs_wf (bs_assign b).
Proof.
  intros [Hp Hc]. split; simpl; [auto with bitset|]. intros Hd. rewrite Hc by done.
  by rewrite !count_size, to_set_copy.
Qed.
Lemma bs_set_wf b i : bs_wf b → bs_wf (bs_set b i).
Proof. unfold bs_set. auto with bitset. Qed.
Lemma bs_unset_wf b i : bs_wf b → bs_wf (bs_unset b i).
Proof. unfold bs_unset. auto with bitset. Qed.
Lemma bs_clear_wf b : bs_wf b → bs_wf (bs_clear b).
Proof.
  intros [Hp Hc]. split; simpl; [auto with bitset|]. intros _. by rewrite count_size, to_set_clear.
Qed.
Lemma bs_count_wf b : bs_wf b → bs_wf (bs_count b).2.
Proof. intros Hb. unfold bs_count. destruct (mCountDirty b); [|done]. split; [apply Hb|done]. Qed.
Lemma bs_inplaceUnion_wf b c : bs_wf b → bs_wf c → bs_wf (bs_inplaceUnion b c).
Proof. unfold bs_inplaceUnion. auto with bitset. Qed.
Lemma bs_inplaceIntersection_wf b c : bs_wf b → bs_wf c → bs_wf (bs_inplaceIntersection b c).
Proof. unfold bs_inplaceIntersection. auto with bitset. Qed.
Lemma bs_inplaceDifference_wf b c : bs_wf b → bs_wf c → bs_wf (bs_inplaceDifference b c).
Proof. unfold bs_inplaceDifference. auto with bitset. Qed.
Lemma bs_inplaceSymmetricDifference_wf b c : bs_wf b → bs_wf c → bs_wf (bs_inplaceSymmetricDifference b c).
Proof. unfold bs_inplaceSymmetricDifference. auto with bitset. Qed.
Lemma bs_union_wf b c : bs_wf b → bs_wf c → bs_wf (bs_union b c).
Proof. intros. apply bs_inplaceUnion_wf; auto using bs_copy_wf. Qed.
Lemma bs_inter_wf b c : bs_wf b → bs_wf c → bs_wf (bs_inter b c).
Proof. intros. apply bs_inplaceIntersection_wf; auto using bs_copy_wf. Qed.
Lemma bs_diff_wf b c : bs_wf b → bs_wf c → bs_wf (bs_diff b c).
Proof. intros. apply bs_inplaceDifference_wf; auto using bs_copy_wf. Qed.
Lemma bs_symmetricDifference_wf b c : bs_wf b → bs_wf c → bs_wf (bs_symmetricDifference b c).
Proof. intros. apply bs_inplaceSymmetricDifference_wf; auto using bs_copy_wf. Qed.

(** ** The laws that clients use *)

Lemma bs_get_spec b i : bs_get b i = true ↔ i ∈ bset b.
Proof. symmetry. apply elem_of_to_set. Qed.
Lemma bset_new : bset bs_new = ∅.
Proof. apply to_set_create. Qed.
Lemma bset_sized n : bset (bs_sized n) = ∅.
Proof. apply to_set_create_capacity. Qed.
Lemma bset_copy b : bset (bs_copy b) = bset b.
Proof. apply to_set_copy. Qed.
Lemma bset_assign b : bset (bs_assign b) = bset b.
Proof. apply to_set_copy. Qed.
Lemma bset_clear b : bs_wf b → bset (bs_clear b) = ∅.
Proof. intros [Hp _]. by apply to_set_clear. Qed.
Lemma bset_set b i : bs_wf b → bset (bs_set b i) = {[i]} ∪ bset b.
Proof. intros [Hp _]. by apply to_set_set. Qed.
Lemma bset_unset b i : bs_wf b → bset (bs_unset b i) = bset b ∖ {[i]}.
Proof. intros [Hp _]. by apply to_set_unset. Qed.
Lemma bset_inplaceUnion b c : bs_wf b → bs_wf c → bset (bs_inplaceUnion b c) = bset b ∪ bset c.
Proof. intros [Hb _] [Hc _]. by apply to_set_union. Qed.
Lemma bset_inplaceIntersection b c : bs_wf b → bset (bs_inplaceIntersection b c) = bset b ∩ bset c.
Proof. intros [Hb _]. by apply to_set_inter. Qed.
Lemma bset_inplaceDifference b c : bs_wf b → bs_wf c → bset (bs_inplaceDifference b c) = bset b ∖ bset c.
Proof. intros [Hb _] [Hc _]. by apply to_set_diff. Qed.
Lemma bset_inplaceSymmetricDifference b c : bs_wf b → bs_wf c →
  bset (bs_inplaceSymmetricDifference b c) = (bset b ∖ bset c) ∪ (bset c ∖ bset b).
Proof. intros [Hb _] [Hc _]. by apply to_set_symdiff. Qed.
Lemma bset_union b c : bs_wf b → bs_wf c → bset (bs_union b c) = bset b ∪ bset c.
Proof. intros Hb Hc. unfold bs_union. by rewrite bset_inplaceUnion, bset_copy by auto using bs_copy_wf. Qed.
Lemma bset_inter b c : bs_wf b → bset (bs_inter b c) = bset b ∩ bset c.
Proof. intros Hb. unfold bs_inter. by rewrite bset_inplaceIntersection, bset_copy by auto using bs_copy_wf. Qed.
Lemma bset_diff b c : bs_wf b → bs_wf c → bset (bs_diff b c) = bset b ∖ bset c.
Proof. intros Hb Hc. unfold bs_diff. by rewrite bset_inplaceDifference, bset_copy by auto using bs_copy_wf. Qed.
Lemma bset_symmetricDifference b c : bs_wf b → bs_wf c →
  bset (bs_symmetricDifference b c) = (bset b ∖ bset c) ∪ (bset c ∖ bset b).
Proof.
  intros Hb Hc. unfold bs_symmetricDifference.
  by rewrite bset_inplaceSymmetricDifference, bset_copy by auto using bs_copy_wf.
Qed.
Lemma bset_count b : bset (bs_count b).2 = bset b.
Proof. unfold bs_count. by destruct (mCountDirty b). Qed.

Lemma bs_card_spec b : bs_wf b → bs_card b = size (bset b).
Proof.
  intros [_ Hc]. unfold bs_card, bs_count. destruct (mCountDirty b); simpl; [apply count_size|].
  rewrite Hc by done. apply count_size.
Qed.
Lemma bs_intersectionCount_spec b c : bs_intersectionCount b c = size (bset b ∩ bset c).
Proof. apply intersection_count_size. Qed.

Lemma bs_bits_spec b : bs_wf b → (∀ i, i ∈ bs_bits b ↔ i ∈ bset b) ∧ NoDup (bs_bits b).
Proof.
  intros [Hp _]. unfold bs_bits. rewrite for_bits_members by done. split; [|apply NoDup_members].
  intros i. unfold bset. by rewrite elem_of_members, elem_of_to_set.
Qed.
Lemma elem_of_bs_bits b i : bs_wf b → i ∈ bs_bits b ↔ i ∈ bset b.
Proof. intros Hb. by apply bs_bits_spec. Qed.

Lemma bs_bool_spec b : bs_wf b → bs_bool b = true ↔ bset b ≠ ∅.
Proof.
  intros [Hp _]. unfold bs_bool, bs_empty, bs_nextSet, bset. pose proof (nextSetBit_spec (mPtr b) 0 Hp) as Hn.
  destruct (nextSetBit (mPtr b) 0) as [j|]; simpl; split; try done.
  - destruct Hn as (_ & Hj & _). intros _ He. apply elem_of_to_set in Hj. set_solver.
  - intros He. exfalso. apply He, set_eq. intros i. rewrite elem_of_to_set, Hn by lia. set_solver.
Qed.
Lemma bs_bool_false b : bs_wf b → bs_bool b = false ↔ bset b = ∅.
Proof.
  intros Hb. rewrite <- not_true_iff_false, bs_bool_spec by done. split; [|tauto].
  intros Hn. destruct (decide (bset b = ∅)); tauto.
Qed.
Lemma bs_max_in b : bs_wf b → bset b ≠ ∅ → bs_max b ∈ bset b.
Proof. intros [Hp _] Hne. by apply maximum_spec. Qed.

(** Filling a set member by member. *)
Lemma bs_fill l b : bs_wf b → bs_wf (fold_left bs_set l b) ∧ bset (fold_left bs_set l b) = list_to_set l ∪ bset b.
Proof.
  revert b. induction l as [|i l IH]; intros b Hb; simpl; [split; [done|set_solver]|].
  destruct (IH (bs_set b i) (bs_set_wf b i Hb)) as [Hw Hs]. split; [done|].
  rewrite Hs, bset_set by done. set_solver.
Qed.
End Laws.
#[export] Hint Resolve bs_new_wf bs_sized_wf bs_copy_wf bs_assign_wf bs_set_wf bs_unset_wf bs_clear_wf
  bs_count_wf bs_inplaceUnion_wf bs_inplaceIntersection_wf bs_inplaceDifference_wf
  bs_inplaceSymmetricDifference_wf bs_union_wf bs_inter_wf bs_diff_wf bs_symmetricDifference_wf : bs.
#[export] Hint Rewrite @bset_new @bset_sized @bset_copy @bset_assign @bset_clear @bset_set @bset_unset
  @bset_inplaceUnion @bset_inplaceIntersection @bset_inplaceDifference @bset_union @bset_inter
  @bset_diff @bset_count @bs_card_spec @bs_intersectionCount_spec using (auto with bs) : bset.

(** ** Sets built by adding members

    [tight]: the array ends with the word of the greatest member. *)
Section Tight.
Context `{Malloc}.

Lemma set_tight b i : wf b → tight b → tight (bitset_set b i).
Proof.
  intros Hb Ht. pose proof (set_wf b i Hb) as Hw.
  assert (arraysize (bitset_set b i) = Nat.max (arraysize b) (S (i / 64))) as Hn.
  { unfold bitset_set. cbn [arraysize]. destruct (Nat.leb_spec (arraysize b) (i / 64)).
    - rewrite grow_enlarged. cbn [arraysize]. lia.
    - lia. }
  apply tight_spec; [done|]. intros k Hk. destruct (decide (k = i / 64)) as [->|Hne].
  - exists i. rewrite get_set, Nat.eqb_refl by done. done.
  - destruct (proj1 (tight_spec b Hb) Ht k) as (j & Hj & Hjk); [lia|].
    exists j. rewrite get_set, Hj, orb_true_r by done. done.
Qed.

Lemma copy_tight b : wf b → tight b → tight (bitset_copy b).
Proof.
  intros Hb Ht. apply tight_spec; [auto with bitset|]. intros k Hk.
  destruct (proj1 (tight_spec b Hb) Ht k Hk) as (j & Hj & Hjk). exists j. by rewrite get_copy.
Qed.

(** Comparison is exact on disjoint sets of this kind. *)
Lemma bs_equal_disjoint b c :
  bs_wf b → bs_wf c → tight (mPtr b) → tight (mPtr c) → bset b ≠ ∅ → bset c ≠ ∅ → bset b ## bset c →
  bs_equal b c = false.
Proof. intros [Hb _] [Hc _]. by apply equal_disjoint. Qed.

Lemma bs_isSubsetEq_sound b c : bs_wf b → bs_wf c → bset b ⊆ bset c → bs_isSubsetEq b c = true.
Proof. intros [Hb _] [Hc _]. by apply subseteq_sound. Qed.
End Tight.

(** ** Histories *)

(** The objects that member functions can produce, each with the set it should stand for. *)
Inductive history `{Malloc} : BitSet → gset nat → Prop :=
| h_new : history bs_new ∅
| h_sized n : history (bs_sized n) ∅
| h_of_set l : history (bs_of_set l) (list_to_set l)
| h_copy b X : history b X → history (bs_copy b) X
| h_assign b X : history b X → history (bs_assign b) X
| h_set b X i : history b X → history (bs_set b i) ({[i]} ∪ X)
| h_unset b X i : history b X → history (bs_unset b i) (X ∖ {[i]})
| h_clear b X : history b X → history (bs_clear b) ∅
| h_count b X : history b X → history (bs_count b).2 X
| h_union b X c Y : history b X → history c Y → history (bs_inplaceUnion b c) (X ∪ Y)
| h_inter b X c Y : history b X → history c Y → history (bs_inplaceIntersection b c) (X ∩ Y)
| h_diff b X c Y : history b X → history c Y → history (bs_inplaceDifference b c) (X ∖ Y)
| h_symdiff b X c Y : history b X → history c Y →
    history (bs_inplaceSymmetricDifference b c) ((X ∖ Y) ∪ (Y ∖ X)).

Lemma history_ok `{Malloc} b X : history b X → bs_wf b ∧ bset b = X.
Proof.
  assert (∀ l, bs_wf (bs_of_set l) ∧ bset (bs_of_set l) = list_to_set l) as Hl.
  { intros l. destruct (bs_fill l (bs_sized (List.last l 0)) (bs_sized_wf _)) as [Hw Hs].
    split; [done|]. unfold bs_of_set. rewrite Hs, bset_sized. set_solver. }
  induction 1; destruct_and?; subst; try apply Hl; (split; [auto with bs|]);
    autorewrite with bset; auto using bset_inplaceSymmetricDifference.
Qed.

(** C38: whatever constructors, assignments and operations an object has gone through, with counts taken in
    between or not, its block is well-formed, it stands for the set that the operations
    describe, and [count], [empty], [get], [min], [max] and the loop over [nextSet] answer for this set;
    the cached count is never stale. *)
Theorem bitset_histories `{Malloc} b X (Hh : history b X) :
  bs_wf b ∧ bset b = X ∧
  (bs_count b).1 = size X ∧ (bs_count (bs_count b).2).1 = size X ∧
  (bs_empty b = true ↔ X = ∅) ∧ (∀ i, bs_get b i = true ↔ i ∈ X) ∧
  (X ≠ ∅ → bs_min b ∈ X ∧ bs_max b ∈ X ∧ ∀ i, i ∈ X → bs_min b ≤ i ≤ bs_max b) ∧
  list_to_set (bs_bits b) = X ∧ NoDup (bs_bits b).
Proof.
  destruct (history_ok b X Hh) as [Hb <-]. destruct (bs_bits_spec b Hb) as [Hin Hnd].
  pose proof (bs_card_spec b Hb) as Hc. pose proof (bs_card_spec _ (bs_count_wf b Hb)) as Hc'.
  rewrite bset_count in Hc'. split_and!; auto.
  - rewrite <- bs_bool_false by done. unfold bs_bool. by rewrite negb_false_iff.
  - apply bs_get_spec.
  - intros Hne. destruct Hb as [Hp _].
    destruct (minimum_spec _ Hp Hne) as [M1 M2], (maximum_spec _ Hp Hne) as [N1 N2].
    split_and!; [done|done|]. intros i Hi. split; [by apply M2|by apply N2].
  - apply set_eq. intros i. by rewrite elem_of_list_to_set, Hin.
Qed.

Lemma bitset_histories_witness :
  (bs_count (bs_set (bs_count (bs_set (bs_set bs_new 3) 90)).2 7)).1 = 3.
Proof.
  assert (history (bs_set (bs_count (bs_set (bs_set bs_new 3) 90)).2 7) ({[7]} ∪ ({[90]} ∪ ({[3]} ∪ ∅)))) as Hh
    by repeat constructor.
  destruct (bitset_histories _ _ Hh) as (_ & _ & Hc & _). rewrite Hc. vm_compute. reflexivity.
Defined.
