(* ===== verification/QuorumGraph.v ===== *)
(** * The graph of the quorum intersection checker

    From [herder/QuorumIntersectionCheckerImpl.cpp] and its header: quorum sets on bit sets
    ([QBitSet]), their conversion from the SCP quorum sets of a [QuorumMap] and the search for a
    slice in a set of nodes. The main result of this file is that the search gives the answer that
    federated voting itself gives ([isQuorumSlice] of [LocalNode]) on sane quorum sets, although it
    leaves early in four ways. *)
From stdpp Require Import base list gmap.
From Stdlib Require Import ZArith Lia.
From S2P Require Import Prelude QuorumSet Statement LocalNode CBitset CBitsetSpec BitSets.

Inductive QBitSet : Type :=
| mkQBitSet (mThreshold : Z) (mNodes : BitSet) (mInnerSets : list QBitSet) (mAllSuccessors : BitSet).
Notation QGraph := (list QBitSet) (only parsing).

Definition mThreshold (q : QBitSet) : Z := match q with mkQBitSet t _ _ _ => t end.
Definition mNodes (q : QBitSet) : BitSet := match q with mkQBitSet _ n _ _ => n end.
Definition mInnerSets (q : QBitSet) : QGraph := match q with mkQBitSet _ _ i _ => i end.
Definition mAllSuccessors (q : QBitSet) : BitSet := match q with mkQBitSet _ _ _ s => s end.

Lemma qbs_ind (P : QBitSet → Prop) :
  (∀ t n i s, Forall P i → P (mkQBitSet t n i s)) → ∀ q, P q.
Proof.
  intros IH. fix rec 1. intros [t n i s]. apply IH.
  induction i as [|q i IHi]; constructor; [apply rec|apply IHi].
Qed.

(** ** Construction *)

Definition getSuccessors `{Malloc} (nodes : BitSet) (inner : QGraph) : BitSet :=
  fold_left (λ out i, bs_inplaceUnion out (mAllSuccessors i)) inner (bs_copy nodes).

(** The constructor [QBitSet::QBitSet]. *)
Definition newQBitSet `{Malloc} (threshold : Z) (nodes : BitSet) (innerSets : QGraph) : QBitSet :=
  mkQBitSet threshold (bs_copy nodes) innerSets (getSuccessors nodes innerSets).

Definition qbs_empty (q : QBitSet) : bool := (mThreshold q =? 0) && bs_empty (mAllSuccessors q).

(** Nodes whose quorum set is unknown are left out, the threshold stays. *)
Fixpoint convertSCPQuorumSet `{Malloc} (mPubKeyBitNums : gmap NodeID nat) (sqs : SCPQuorumSet) : QBitSet :=
  match sqs with
  | QSet threshold validators innerSets =>
    let nodeBits :=
      fold_left (λ nodeBits v, match mPubKeyBitNums !! v with
                               | None => nodeBits
                               | Some i => bs_set nodeBits i
                               end) validators (bs_sized (size mPubKeyBitNums)) in
    newQBitSet threshold nodeBits (map (convertSCPQuorumSet mPubKeyBitNums) innerSets)
  end.

(** A [QuorumMap], in the order in which the hash table is iterated. *)
Notation QuorumMap := (list (NodeID * option SCPQuorumSet)) (only parsing).

Record Graph := mkGraph {
  mBitNumPubKeys : list NodeID;
  mPubKeyBitNums : gmap NodeID nat;
  mGraph : QGraph }.

(** First loop: number the nodes whose quorum set is known ([insert] keeps an entry that exists). *)
Fixpoint numberNodes (qmap : QuorumMap) (keys : list NodeID) (nums : gmap NodeID nat)
    : list NodeID * gmap NodeID nat :=
  match qmap with
  | [] => (keys, nums)
  | (k, Some _) :: qmap =>
    let nums := match nums !! k with Some _ => nums | None => <[k := length keys]> nums end in
    numberNodes qmap (keys ++ [k]) nums
  | (_, None) :: qmap => numberNodes qmap keys nums
  end.

(** Second loop: convert the quorum sets; [None] is a failed assertion. *)
Fixpoint convertNodes `{Malloc} (nums : gmap NodeID nat) (qmap : QuorumMap) (g : QGraph) : option QGraph :=
  match qmap with
  | [] => Some g
  | (k, Some q) :: qmap =>
    match nums !! k with
    | None => None
    | Some nodeNum =>
      if decide (nodeNum = length g)
      then convertNodes nums qmap (g ++ [convertSCPQuorumSet nums q]) else None
    end
  | (_, None) :: qmap => convertNodes nums qmap g
  end.

Definition buildGraph `{Malloc} (qmap : QuorumMap) : option Graph :=
  let '(keys, nums) := numberNodes qmap [] ∅ in
  match convertNodes nums qmap [] with
  | Some g => Some (mkGraph keys nums g)
  | None => None
  end.

(** ** Slices *)

Section InnerLoop.
Variable contains : QBitSet → bool.
(** [for (auto const& inner : qbs.mInnerSets)] with its two counters. *)
Fixpoint innerLoop (innerThreshold innerFailLimit : Z) (l : QGraph) : bool :=
  match l with
  | [] => false
  | inner :: l =>
    if contains inner
    then let innerThreshold := innerThreshold - 1 in
         if innerThreshold =? 0 then true else innerLoop innerThreshold innerFailLimit l
    else let innerFailLimit := innerFailLimit - 1 in
         if innerFailLimit =? 0 then false else innerLoop innerThreshold innerFailLimit l
  end.
End InnerLoop.

Fixpoint containsQuorumSlice (bs : BitSet) (qbs : QBitSet) : bool :=
  match qbs with
  | mkQBitSet threshold nodes innerSets allSuccessors =>
    let intersecting := Z.of_nat (bs_intersectionCount bs nodes) in
    if threshold <=? intersecting then true else
    let innerThreshold := threshold - intersecting in
    if Z.of_nat (length innerSets) <? innerThreshold then false else
    if Z.of_nat (bs_intersectionCount bs allSuccessors) <? threshold then false else
    innerLoop (containsQuorumSlice bs) innerThreshold
      (Z.of_nat (length innerSets) - innerThreshold + 1) innerSets
  end.

(** The same on finite sets, without the early exits that only save time. *)
Fixpoint sliceOf (X : gset nat) (q : QBitSet) : bool :=
  match q with
  | mkQBitSet t n i s =>
    let v := Z.of_nat (size (X ∩ bset n)) in
    (t <=? v) || ((t <=? Z.of_nat (size (X ∩ bset s))) && (t <=? v + count (sliceOf X) i))
  end.

Lemma innerLoop_spec p T F l :
  1 <= T → 1 <= F → F = Z.of_nat (length l) - T + 1 → innerLoop p T F l = (T <=? count p l).
Proof.
  revert T F. induction l as [|q l IH]; intros T F HT HF Heq; simpl in *; [lia|].
  rewrite count_cons. pose proof (count_bounds p l). destruct (p q).
  - destruct (Z.eqb_spec (T - 1) 0); [symmetry; apply Z.leb_le; lia|].
    rewrite IH by lia. destruct (Z.leb_spec (T - 1) (count p l)), (Z.leb_spec T (1 + count p l)); lia.
  - destruct (Z.eqb_spec (F - 1) 0); [symmetry; apply Z.leb_gt; lia|].
    rewrite IH by lia. by rewrite Z.add_0_l.
Qed.

Lemma containsQuorumSlice_spec bs q : containsQuorumSlice bs q = sliceOf (bset bs) q.
Proof.
  induction q as [t n i s IH] using qbs_ind. simpl. rewrite !bs_intersectionCount_spec.
  set (v := Z.of_nat (size (bset bs ∩ bset n))). set (w := Z.of_nat (size (bset bs ∩ bset s))).
  destruct (Z.leb_spec t v); [done|]. simpl.
  assert (count (containsQuorumSlice bs) i = count (sliceOf (bset bs)) i) as Hc.
  { apply count_ext. intros q Hq. rewrite Forall_forall in IH. by apply IH. }
  pose proof (count_bounds (sliceOf (bset bs)) i).
  destruct (Z.ltb_spec (Z.of_nat (length i)) (t - v)).
  { symmetry. apply andb_false_iff. rewrite !Z.leb_gt. lia. }
  destruct (Z.ltb_spec w t); [by rewrite (proj2 (Z.leb_gt _ _))|].
  rewrite innerLoop_spec, Hc by lia. rewrite (proj2 (Z.leb_le t w)) by lia. simpl.
  destruct (Z.leb_spec (t - v) (count (sliceOf (bset bs)) i)), (Z.leb_spec t (v + count (sliceOf (bset bs)) i)); lia.
Qed.

(** ** Well-formed graphs *)

Fixpoint qwf (N : nat) (q : QBitSet) : Prop :=
  match q with
  | mkQBitSet t n i s =>
    bs_wf n ∧ bs_wf s ∧ bset s = bset n ∪ ⋃ (map (λ q', bset (mAllSuccessors q')) i) ∧
    (∀ x, x ∈ bset s → (x < N)%nat) ∧ foldr (λ q' P, qwf N q' ∧ P) True i
  end.

Lemma qwf_succ N q : qwf N q → bs_wf (mAllSuccessors q) ∧ ∀ x, x ∈ bset (mAllSuccessors q) → (x < N)%nat.
Proof. destruct q. simpl. tauto. Qed.

Lemma sliceOf_mono X Y q : X ⊆ Y → sliceOf X q = true → sliceOf Y q = true.
Proof.
  intros HXY. induction q as [t n i s IH] using qbs_ind. simpl.
  assert (size (X ∩ bset n) <= size (Y ∩ bset n))%nat by (apply subseteq_size; set_solver).
  assert (size (X ∩ bset s) <= size (Y ∩ bset s))%nat by (apply subseteq_size; set_solver).
  assert (count (sliceOf X) i <= count (sliceOf Y) i).
  { apply count_mono. rewrite Forall_forall in IH. exact IH. }
  rewrite !orb_true_iff, !andb_true_iff, !Z.leb_le. lia.
Qed.

(** Only the successors matter. *)
Lemma sliceOf_local N X Y q :
  qwf N q → X ∩ bset (mAllSuccessors q) = Y ∩ bset (mAllSuccessors q) → sliceOf X q = sliceOf Y q.
Proof.
  induction q as [t n i s IH] using qbs_ind. simpl. rewrite foldr_and_Forall.
  intros (_ & _ & Hs & _ & Hi) HXY. rewrite Forall_forall in IH, Hi.
  assert (X ∩ bset n = Y ∩ bset n) as -> by set_solver. rewrite HXY.
  assert (count (sliceOf X) i = count (sliceOf Y) i) as ->; [|done].
  apply count_ext. intros q Hq. apply IH; [done|by apply Hi|].
  assert (bset (mAllSuccessors q) ⊆ bset s) as Hsub.
  { rewrite Hs. intros x Hx. apply elem_of_union_r, elem_of_union_list. eexists. split; [|exact Hx].
    by apply (list_elem_of_fmap_2 (λ q', bset (mAllSuccessors q'))). }
  apply set_eq. intros x. assert (x ∈ X ∩ bset s ↔ x ∈ Y ∩ bset s) as Hx by by rewrite HXY.
  rewrite !elem_of_intersection in Hx |- *. specialize (Hsub x). tauto.
Qed.

(** ** Conversion *)

Section Convert.
Context `{Malloc}.
Variable nums : gmap NodeID nat.

(** The numbers of the known nodes among [l]. *)
Definition known (l : list NodeID) : list nat := omap (nums !!.) l.

Lemma elem_of_known l i : i ∈ known l ↔ ∃ n, n ∈ l ∧ nums !! n = Some i.
Proof. apply list_elem_of_omap. Qed.
Lemma known_app l k : known (l ++ k) = known l ++ known k.
Proof. apply omap_app. Qed.

(** The number of known nodes that are in [X] is the number of nodes that are in [S]. *)
Lemma count_known (X : gset nat) S l :
  (∀ n, n ∈ l → n ∈ S ↔ ∃ i, nums !! n = Some i ∧ i ∈ X) →
  count (λ i, bool_decide (i ∈ X)) (known l) = count (inNodeSet S) l.
Proof.
  induction l as [|n l IH]; intros HS; [done|]. rewrite count_cons. simpl.
  assert (inNodeSet S n = match nums !! n with Some i => bool_decide (i ∈ X) | None => false end) as ->.
  { unfold inNodeSet. specialize (HS n ltac:(set_solver)).
    destruct (nums !! n) as [i|]; [|apply bool_decide_eq_false; naive_solver].
    apply bool_decide_ext. naive_solver. }
  specialize (IH ltac:(set_solver)). destruct (nums !! n) as [i|]; [|by rewrite IH].
  by rewrite count_cons, IH.
Qed.

Lemma size_known (X : gset nat) l :
  NoDup l → Z.of_nat (size (X ∩ list_to_set l)) = count (λ i, bool_decide (i ∈ X)) l.
Proof.
  intros Hl. unfold count. f_equal. rewrite <- (size_list_to_set (C := gset nat)).
  - f_equal. apply set_eq. intros i. rewrite elem_of_intersection, !elem_of_list_to_set.
    rewrite !list_elem_of_In, filter_In, bool_decide_eq_true. tauto.
  - apply NoDup_ListNoDup, List.NoDup_filter, NoDup_ListNoDup, Hl.
Qed.

Lemma bset_validators v b :
  bs_wf b →
  let b' := fold_left (λ nodeBits v, match nums !! v with
                                     | None => nodeBits
                                     | Some i => bs_set nodeBits i
                                     end) v b in
  bs_wf b' ∧ bset b' = list_to_set (known v) ∪ bset b.
Proof.
  revert b. induction v as [|n v IH]; intros b Hb; simpl; [split; [done|set_solver]|].
  destruct (nums !! n) as [i|]; [|by apply IH].
  destruct (IH (bs_set b i)) as [Hw Hs]; [auto with bs|]. split; [done|].
  rewrite Hs, bset_set by done. simpl. set_solver.
Qed.

Lemma bset_getSuccessors n i :
  bs_wf n → Forall (λ q, bs_wf (mAllSuccessors q)) i →
  bs_wf (getSuccessors n i) ∧
  bset (getSuccessors n i) = bset n ∪ ⋃ (map (λ q, bset (mAllSuccessors q)) i).
Proof.
  intros Hn Hi. unfold getSuccessors. rewrite <- (bset_copy n).
  generalize (bs_copy n) (bs_copy_wf n Hn). clear Hn.
  induction Hi as [|q i Hq Hi IH]; intros b Hb; simpl; [split; [done|set_solver]|].
  destruct (IH (bs_inplaceUnion b (mAllSuccessors q))) as [Hw Hs]; [auto with bs|]. split; [done|].
  rewrite Hs, bset_inplaceUnion by done. set_solver.
Qed.

Definition nodeBits (v : list NodeID) : BitSet :=
  fold_left (λ nodeBits v, match nums !! v with
                           | None => nodeBits
                           | Some i => bs_set nodeBits i
                           end) v (bs_sized (size nums)).

Lemma nodeBits_spec v : bs_wf (nodeBits v) ∧ bset (nodeBits v) = list_to_set (known v).
Proof.
  destruct (bset_validators v (bs_sized (size nums))) as [Hw Hs]; [auto with bs|].
  split; [done|]. unfold nodeBits. rewrite Hs, bset_sized. set_solver.
Qed.

Lemma convert_unfold t v i :
  convertSCPQuorumSet nums (QSet t v i) =
  newQBitSet t (nodeBits v) (map (convertSCPQuorumSet nums) i).
Proof. done. Qed.

Lemma convert_succ q :
  bs_wf (mAllSuccessors (convertSCPQuorumSet nums q)) ∧
  bset (mAllSuccessors (convertSCPQuorumSet nums q)) = list_to_set (known (allNodes q)) ∧
  bset (mAllSuccessors (convertSCPQuorumSet nums q)) =
    bset (mNodes (convertSCPQuorumSet nums q)) ∪
    ⋃ (map (λ q', bset (mAllSuccessors q')) (mInnerSets (convertSCPQuorumSet nums q))).
Proof.
  induction q as [t v i IH] using qset_ind. rewrite convert_unfold.
  destruct (nodeBits_spec v) as [Hvw Hvs]. rewrite Forall_forall in IH. simpl.
  destruct (bset_getSuccessors (nodeBits v) (map (convertSCPQuorumSet nums) i)) as [Hsw Hss]; [done| |].
  { apply Forall_forall. intros q' (q & -> & Hq)%list_elem_of_fmap. by apply IH. }
  split_and!; [done| |by rewrite Hss, bset_copy].
  rewrite Hss, Hvs, known_app, list_to_set_app_L. f_equal.
  clear Hsw Hss. induction i as [|q i IHi]; [done|]. simpl.
  rewrite known_app, list_to_set_app_L, IHi by set_solver. f_equal. apply IH. set_solver.
Qed.

Lemma convert_qwf N q :
  (∀ k i, nums !! k = Some i → (i < N)%nat) → qwf N (convertSCPQuorumSet nums q).
Proof.
  intros HN. induction q as [t v i IH] using qset_ind. destruct (convert_succ (QSet t v i)) as (Hw & Hk & Hs).
  rewrite convert_unfold in *. simpl in *. destruct (nodeBits_spec v) as [Hvw _].
  split_and!; [auto with bs|done|done| |].
  - rewrite Hk. intros x (n & _ & Hx)%elem_of_list_to_set%elem_of_known. by apply (HN n).
  - rewrite foldr_and_Forall. apply Forall_forall. rewrite Forall_forall in IH.
    intros q' (q & -> & Hq)%list_elem_of_fmap. by apply IH.
Qed.

Lemma votable_inner t v i q : votable (QSet t v i) → q ∈ i → votable q.
Proof.
  simpl. rewrite foldr_and_Forall. intros (_ & _ & Hi) Hq. rewrite Forall_forall in Hi. by apply Hi.
Qed.

(** A slice has a member among the nodes of the set, hence satisfied inner sets without common nodes
    take up that many nodes. *)
Lemma slice_has_node q S : votable q → isQuorumSlice q S = true → 1 <= count (inNodeSet S) (allNodes q).
Proof.
  induction q as [t v i IH] using qset_ind. intros Hv. rewrite votable_slice, Z.leb_le by done.
  intros Hh. simpl. rewrite count_app. pose proof (count_bounds (inNodeSet S) (flat_map allNodes i)).
  pose proof (count_bounds (inNodeSet S) v). unfold hits in Hh. simpl in Hh.
  destruct (decide (count (inNodeSet S) v = 0)); [|lia].
  destruct (count_pos (λ q, isQuorumSlice q S) i) as (q & Hq & Hs); [destruct Hv; lia|].
  rewrite Forall_forall in IH. specialize (IH q Hq (votable_inner t v i q Hv Hq) Hs).
  destruct (count_pos _ _ (Z.lt_le_trans 0 1 _ ltac:(lia) IH)) as (n & Hn & Hin).
  assert (n ∈ flat_map allNodes i) as Hf by (apply list_elem_of_In, in_flat_map; exists q; by rewrite <- !list_elem_of_In).
  apply list_elem_of_split in Hf as (l1 & l2 & ->). rewrite count_app, count_cons, Hin.
  pose proof (count_bounds (inNodeSet S) l1). pose proof (count_bounds (inNodeSet S) l2). lia.
Qed.

Lemma slices_take_nodes i S :
  Forall votable i → count (λ q, isQuorumSlice q S) i <= count (inNodeSet S) (flat_map allNodes i).
Proof.
  induction 1 as [|q i Hq Hi IH]; [done|]. simpl. rewrite count_cons, count_app.
  destruct (isQuorumSlice q S) eqn:E; [pose proof (slice_has_node q S Hq E); lia|].
  pose proof (count_bounds (inNodeSet S) (allNodes q)). lia.
Qed.

Hypothesis nums_inj : ∀ k k' i, nums !! k = Some i → nums !! k' = Some i → k = k'.

Lemma NoDup_known l : NoDup l → NoDup (known l).
Proof.
  induction 1 as [|n l Hn Hl IH]; simpl; [constructor|].
  destruct (nums !! n) as [i|] eqn:E; [|done]. constructor; [|done].
  intros (n' & Hn' & E')%elem_of_known. assert (n = n') as -> by eauto. done.
Qed.

Lemma convert_slice (X : gset nat) S q :
  votable q → NoDup (allNodes q) →
  (∀ n, n ∈ allNodes q → n ∈ S ↔ ∃ i, nums !! n = Some i ∧ i ∈ X) →
  sliceOf X (convertSCPQuorumSet nums q) = isQuorumSlice q S.
Proof.
  induction q as [t v i IH] using qset_ind. intros Hv Hnd HS.
  rewrite votable_slice, convert_unfold by done. unfold hits. simpl in Hnd, HS |- *.
  pose proof Hnd as (Hndv & _ & Hndi)%NoDup_app. setoid_rewrite elem_of_app in HS.
  destruct (nodeBits_spec v) as [Hvw Hvs]. rewrite bset_copy, Hvs.

  rewrite size_known, (count_known X S v) by (auto using NoDup_known).
  assert (Forall votable i) as Hvi by (apply Forall_forall; eauto using votable_inner).
  pose proof (slices_take_nodes i S Hvi) as Htake.
  assert (count (sliceOf X) (map (convertSCPQuorumSet nums) i) = count (λ q, isQuorumSlice q S) i) as ->.
  { rewrite count_map. apply count_ext. intros q Hq. rewrite Forall_forall in IH, Hvi.
    assert (∀ n, n ∈ allNodes q → n ∈ flat_map allNodes i) as Hsub.
    { intros n Hn. apply list_elem_of_In, in_flat_map. exists q. by rewrite <- !list_elem_of_In. }
    apply IH; [done|by apply Hvi| |by auto].
    clear -Hndi Hq. induction i as [|q' i IHi]; [set_solver|]. simpl in Hndi.
    apply NoDup_app in Hndi as (H1 & _ & H2). apply elem_of_cons in Hq as [->|Hq]; auto. }
  assert (Z.of_nat (size (X ∩ bset (getSuccessors (nodeBits v) (map (convertSCPQuorumSet nums) i)))) =
    count (inNodeSet S) v + count (inNodeSet S) (flat_map allNodes i)) as ->.
  { destruct (convert_succ (QSet t v i)) as (_ & Hk & _). rewrite convert_unfold in Hk. simpl in Hk.
    rewrite Hk, size_known, (count_known X S), count_app by (auto using NoDup_known; set_solver). done. }
  pose proof (count_bounds (λ q, isQuorumSlice q S) i).
  repeat match goal with |- context [?a <=? ?b] => destruct (Z.leb_spec a b) end; simpl; lia.
Qed.
End Convert.

(** ** Building the graph *)

(** The nodes with a known quorum set, in the order of the table. *)
Definition knownSets (qmap : QuorumMap) : list (NodeID * SCPQuorumSet) :=
  omap (λ '(k, o), pair k <$> o) qmap.

Lemma elem_of_knownSets qmap k q : (k, q) ∈ knownSets qmap ↔ (k, Some q) ∈ qmap.
Proof.
  unfold knownSets. rewrite list_elem_of_omap. split.
  - intros ([k' [q'|]] & Hin & [= -> ->]). done.
  - intros Hin. by exists (k, Some q).
Qed.

Lemma knownSets_keys qmap : NoDup qmap.*1 → NoDup (knownSets qmap).*1 ∧ ∀ k, k ∈ (knownSets qmap).*1 → k ∈ qmap.*1.
Proof.
  induction qmap as [|[k [q|]] qmap IH]; simpl; [split; [constructor|set_solver]| |].
  - intros [Hk Hnd]%NoDup_cons. destruct (IH Hnd) as [IH1 IH2]. split.
    + constructor; [|done]. intros Hin. apply Hk, IH2, Hin.
    + set_solver.
  - intros [Hk Hnd]%NoDup_cons. destruct (IH Hnd) as [IH1 IH2]. split; [done|set_solver].
Qed.

Lemma numberNodes_spec qmap keys nums :
  NoDup (keys ++ (knownSets qmap).*1) →
  (∀ k i, nums !! k = Some i ↔ keys !! i = Some k) →
  let '(keys', nums') := numberNodes qmap keys nums in
  keys' = keys ++ (knownSets qmap).*1 ∧ ∀ k i, nums' !! k = Some i ↔ keys' !! i = Some k.
Proof.
  revert keys nums. induction qmap as [|[k [q|]] qmap IH]; intros keys nums Hnd Hn; simpl in *.
  - by rewrite app_nil_r.
  - assert (k ∉ keys) as Hk by (apply NoDup_app in Hnd as (_ & Hd & _); intros Hin; apply (Hd k Hin); set_solver).
    assert (nums !! k = None) as ->.
    { destruct (nums !! k) as [i|] eqn:E; [|done]. exfalso. apply Hk. apply Hn in E.
      by eapply list_elem_of_lookup_2. }
    specialize (IH (keys ++ [k]) (<[k := length keys]> nums)).
    rewrite <- app_assoc in IH. simpl in IH. apply IH; [done|]. intros k' i.
    destruct (decide (k' = k)) as [->|Hne].
    + rewrite lookup_insert_eq. split.
      * intros [= <-]. by rewrite list_lookup_middle.
      * intros Hl. apply lookup_app_Some in Hl as [Hl|[Hge Hl]].
        -- exfalso. apply Hk. by eapply list_elem_of_lookup_2.
        -- apply list_lookup_singleton_Some in Hl as [Hz _]. f_equal. lia.
    + rewrite lookup_insert_ne by done. rewrite Hn. split.
      * intros Hl. by apply lookup_app_l_Some.
      * intros Hl. apply lookup_app_Some in Hl as [Hl|[Hge Hl]]; [done|].
        apply list_lookup_singleton_Some in Hl as [_ Heq]. congruence.
  - by apply IH.
Qed.

Lemma convertNodes_spec `{Malloc} nums qmap g :
  (∀ i k q, knownSets qmap !! i = Some (k, q) → nums !! k = Some (length g + i)%nat) →
  convertNodes nums qmap g = Some (g ++ map (λ '(_, q), convertSCPQuorumSet nums q) (knownSets qmap)).
Proof.
  revert g. induction qmap as [|[k [q|]] qmap IH]; intros g Hn; simpl in *.
  - by rewrite app_nil_r.
  - rewrite (Hn 0%nat k q eq_refl), Nat.add_0_r, decide_True by done.
    rewrite IH, <- app_assoc; [done|]. intros i k' q' Hi. rewrite length_app. simpl.
    rewrite (Hn (S i) k' q' Hi). f_equal. lia.
  - by apply IH.
Qed.

(** What a client knows of a graph built from [qmap]. *)
Record graph_of `{Malloc} (qmap : QuorumMap) (G : Graph) : Prop := {
  go_keys : mBitNumPubKeys G = (knownSets qmap).*1;
  go_nums k i : mPubKeyBitNums G !! k = Some i ↔ mBitNumPubKeys G !! i = Some k;
  go_graph : mGraph G = map (λ '(_, q), convertSCPQuorumSet (mPubKeyBitNums G) q) (knownSets qmap) }.

Lemma buildGraph_spec `{Malloc} qmap : NoDup qmap.*1 → ∃ G, buildGraph qmap = Some G ∧ graph_of qmap G.
Proof.
  intros [Hnd _]%knownSets_keys. unfold buildGraph.
  pose proof (numberNodes_spec qmap [] ∅ Hnd) as Hn.
  destruct (numberNodes qmap [] ∅) as [keys nums]. destruct Hn as [-> Hn].
  { intros k i. rewrite lookup_empty, lookup_nil. done. }
  rewrite convertNodes_spec.
  - eexists. split; [done|]. by split.
  - intros i k q Hi. apply Hn. simpl. by rewrite list_lookup_fmap, Hi.
Qed.

Lemma graph_of_lookup `{Malloc} qmap G i qb :
  graph_of qmap G → mGraph G !! i = Some qb →
  ∃ k q, mBitNumPubKeys G !! i = Some k ∧ (k, Some q) ∈ qmap ∧
         qb = convertSCPQuorumSet (mPubKeyBitNums G) q.
Proof.
  intros [Hk Hn Hg] Hi. rewrite Hg, list_lookup_fmap in Hi.
  destruct (knownSets qmap !! i) as [[k q]|] eqn:E; [|done]. injection Hi as <-.
  exists k, q. split_and!; [by rewrite Hk, list_lookup_fmap, E| |done].
  apply elem_of_knownSets. by eapply list_elem_of_lookup_2.
Qed.

Lemma graph_of_length `{Malloc} qmap G : graph_of qmap G → length (mGraph G) = length (mBitNumPubKeys G).
Proof. intros [Hk _ Hg]. by rewrite Hg, Hk, length_map, length_fmap. Qed.

Lemma graph_of_inj `{Malloc} qmap G k k' i :
  graph_of qmap G → mPubKeyBitNums G !! k = Some i → mPubKeyBitNums G !! k' = Some i → k = k'.
Proof. intros HG. rewrite !(go_nums _ _ HG). congruence. Qed.

Lemma graph_of_qwf `{Malloc} qmap G : graph_of qmap G → Forall (qwf (length (mGraph G))) (mGraph G).
Proof.
  intros HG. apply Forall_lookup. intros i qb Hi.
  destruct (graph_of_lookup qmap G i qb HG Hi) as (k & q & _ & _ & ->). apply convert_qwf.
  intros k' j Hj%(go_nums _ _ HG). rewrite (graph_of_length qmap G HG). by apply lookup_lt_Some in Hj.
Qed.

(** ** Agreement with federated voting *)

(** A set of node numbers and the corresponding set of nodes. *)
Definition same_nodes (G : Graph) (X : gset nat) (S : list NodeID) : Prop :=
  ∀ n, n ∈ S ↔ ∃ i, mPubKeyBitNums G !! n = Some i ∧ i ∈ X.

(** Every known quorum set of the map has passed the check that received quorum sets must pass. *)
Definition sane_map (qmap : QuorumMap) : Prop :=
  ∀ k q, (k, Some q) ∈ qmap → isQuorumSetSane q false = true.

Lemma graph_slice `{Malloc} qmap G X S i qb :
  graph_of qmap G → sane_map qmap → same_nodes G X S → mGraph G !! i = Some qb →
  ∃ k q, mBitNumPubKeys G !! i = Some k ∧ (k, Some q) ∈ qmap ∧ sliceOf X qb = isQuorumSlice q S.
Proof.
  intros HG Hsane HS Hi. destruct (graph_of_lookup qmap G i qb HG Hi) as (k & q & Hk & Hq & ->).
  exists k, q. split_and!; [done|done|]. specialize (Hsane k q Hq).
  apply convert_slice.
  - intros k1 k2 j. by apply (graph_of_inj qmap).
  - by eapply sane_votable.
  - by apply isQuorumSetSane_iff in Hsane as (_ & ? & _).
  - intros n _. apply HS.
Qed.

(** C22: the graph of a map of sane quorum sets is always built, without a failed assertion, and its slice
    search answers exactly as [LocalNode::isQuorumSlice] does for the node's own quorum set and the
    nodes of the bit set: the early exits on counts of members and successors never change the
    answer, and nodes without a known quorum set never help. *)
Theorem slice_search_agrees_with_voting `{Malloc} qmap (Hnd : NoDup qmap.*1) (Hsane : sane_map qmap) :
  ∃ G, buildGraph qmap = Some G ∧
    (∀ k q, (k, Some q) ∈ qmap → ∃ i, mBitNumPubKeys G !! i = Some k) ∧
    ∀ i qb bs S, mGraph G !! i = Some qb → same_nodes G (bset bs) S →
      ∃ k q, mBitNumPubKeys G !! i = Some k ∧ (k, Some q) ∈ qmap ∧
             containsQuorumSlice bs qb = isQuorumSlice q S.
Proof.
  destruct (buildGraph_spec qmap Hnd) as (G & HG & Hof). exists G. split_and!; [done| |].
  - intros k q Hk%elem_of_knownSets. apply (list_elem_of_fmap_2 fst) in Hk. simpl in Hk.
    rewrite (go_keys _ _ Hof). by apply list_elem_of_lookup_1.
  - intros i qb bs S Hi HS. rewrite containsQuorumSlice_spec. by apply (graph_slice qmap).
Qed.

Lemma all_nodes_same `{Malloc} qmap G X :
  graph_of qmap G → (∀ i, (i < length (mBitNumPubKeys G))%nat → i ∈ X) → same_nodes G X (mBitNumPubKeys G).
Proof.
  intros HG HX n. rewrite list_elem_of_lookup. apply exist_proper. intros i. rewrite (go_nums _ _ HG).
  split; [|tauto]. intros Hi. split; [done|]. apply HX. by apply lookup_lt_Some in Hi.
Qed.

Definition sampleMap : list (NodeID * option SCPQuorumSet) :=
  [(11, Some (QSet 2 [11; 12; 99] [])); (13, None); (12, Some (QSet 2 [11] [QSet 1 [12; 14] []]))].

Lemma sampleMap_ok : NoDup sampleMap.*1 ∧ sane_map sampleMap.
Proof.
  split; [apply (bool_decide_unpack _); vm_compute; exact I|].
  intros k q Hin. unfold sampleMap in Hin.
  repeat (apply elem_of_cons in Hin as [Heq|Hin]; [try discriminate; injection Heq as -> ->; reflexivity|]).
  by apply not_elem_of_nil in Hin.
Qed.

Lemma slice_search_agrees_with_voting_witness :
  ∃ G qb q, buildGraph sampleMap = Some G ∧ mGraph G !! 1%nat = Some qb ∧ (12, Some q) ∈ sampleMap ∧
    containsQuorumSlice (bs_set (bs_set bs_new 0) 1) qb = isQuorumSlice q (mBitNumPubKeys G).
Proof.
  destruct sampleMap_ok as [Hnd Hsane].
  destruct (slice_search_agrees_with_voting sampleMap Hnd Hsane) as (G & HG & _ & Hs).
  destruct (buildGraph_spec sampleMap Hnd) as (G' & HG' & Hof).
  assert (G' = G) as -> by congruence. pose proof (go_keys _ _ Hof) as Hk. simpl in Hk.
  destruct (mGraph G !! 1%nat) as [qb|] eqn:E; [|by rewrite (go_graph _ _ Hof) in E].
  destruct (Hs 1%nat qb (bs_set (bs_set bs_new 0) 1) (mBitNumPubKeys G) E) as (k & q & Hk1 & Hq & Hr).
  - apply (all_nodes_same sampleMap); [done|]. rewrite Hk. simpl. intros [|[|i]] Hi; [..|lia];
      apply bs_get_spec; vm_compute; reflexivity.
  - rewrite Hk in Hk1. simpl in Hk1. injection Hk1 as <-. exists G, qb, q. done.
Defined.
