(* ===== verification/Tarjan.v ===== *)
(** * Strongly connected components: [TarjanSCCCalculator]

    From [herder/QuorumIntersectionCheckerImpl.cpp]: Tarjan's algorithm with indices, low links and a
    stack, on the graph of quorum sets, and [buildSCCs], which keeps the largest component. The
    main result is that the components are exactly the classes of mutually
    reachable nodes, in an order in which edges lead to earlier components. *)
From stdpp Require Import base list sorting gmap strings relations.
From Stdlib Require Import ZArith Lia.
From S2P Require Import Prelude QuorumSet CBitset CBitsetSpec BitSets QuorumGraph.

(** ** The algorithm *)

Record SCCNode := mkSCCNode { mIndex : Z; mLowLink : Z; mOnStack : bool }.

(** [tStack] is the vector [mStack] from its back to its front. *)
Record TarjanState := mkTarjan {
  tNodes : list SCCNode; tStack : list nat; tIndex : Z; tSCCs : list BitSet }.

(** [mNodes.at(i)], and an assignment to a field of it. *)
Definition node_at (i : nat) : M TarjanState SCCNode := λ st,
  match tNodes st !! i with Some n => Ok n st | None => Throw "out_of_range" st end.
Definition setNode (i : nat) (f : SCCNode → SCCNode) (st : TarjanState) : TarjanState :=
  mkTarjan (alter f i (tNodes st)) (tStack st) (tIndex st) (tSCCs st).
Definition setLow (l : Z) (n : SCCNode) : SCCNode := mkSCCNode (mIndex n) l (mOnStack n).
Definition setOff (n : SCCNode) : SCCNode := mkSCCNode (mIndex n) (mLowLink n) false.

(** The [do ... while (j != i)] loop that moves nodes from the stack to the component; it reads the back
    of the vector, which must not be empty. *)
Fixpoint popLoop `{Malloc} (fuel : nat) (i : nat) (newScc : BitSet) : M TarjanState BitSet :=
  match fuel with
  | O => nofuel
  | S fuel => λ st,
    match tStack st with
    | [] => Crash "back of an empty vector" st
    | j :: stack =>
      let newScc := bs_set newScc j in
      let st := mkTarjan (tNodes st) stack (tIndex st) (tSCCs st) in
      (_ ← node_at j;
       _ ← modify (setNode j setOff);
       if decide (j = i) then mret newScc else popLoop fuel i newScc) st
    end
  end.

Section Scc.
Context `{Malloc} (graph : list QBitSet).

(** The [for] loop over the successors of [i]; [rec] is the recursive call. *)
Fixpoint succLoop (rec : nat → M TarjanState unit) (i : nat) (l : list nat) : M TarjanState unit :=
  match l with
  | [] => mret tt
  | j :: l =>
    w ← node_at j;
    _ ← (if mIndex w =? -1 then
           _ ← rec j;
           v ← node_at i;
           w ← node_at j;
           modify (setNode i (setLow (Z.min (mLowLink v) (mLowLink w))))
         else if mOnStack w then
           v ← node_at i;
           modify (setNode i (setLow (Z.min (mLowLink v) (mIndex w))))
         else mret tt);
    succLoop rec i l
  end.

Fixpoint scc (fuel : nat) (i : nat) : M TarjanState unit :=
  match fuel with
  | O => nofuel
  | S fuel =>
    _ ← node_at i;
    _ ← modify (λ st, mkTarjan (<[i := mkSCCNode (tIndex st) (tIndex st) true]> (tNodes st))
                               (i :: tStack st) (tIndex st + 1) (tSCCs st));
    match graph !! i with
    | None => throw "out_of_range"
    | Some q =>
      _ ← succLoop (scc fuel) i (bs_bits (mAllSuccessors q));
      v ← node_at i;
      if mLowLink v =? mIndex v then
        st ← get;
        newScc ← popLoop (length (tStack st)) i (bs_set bs_new i);
        modify (λ st, mkTarjan (tNodes st) (tStack st) (tIndex st) (tSCCs st ++ [bs_copy newScc]))
      else mret tt
    end
  end.

Fixpoint roots (l : list nat) : M TarjanState unit :=
  match l with
  | [] => mret tt
  | i :: l =>
    v ← node_at i;
    _ ← (if mIndex v =? -1 then scc (length graph) i else mret tt);
    roots l
  end.

Definition calculateSCCs : M TarjanState unit :=
  _ ← modify (λ _, mkTarjan (replicate (length graph) (mkSCCNode (-1) (-1) false)) [] 0 []);
  roots (seq 0 (length graph)).
End Scc.

(** [buildSCCs]: the first of the largest components. *)
Definition largestSCC (sccs : list BitSet) (mMaxSCC : BitSet) : BitSet :=
  fold_left (λ mx c, if (bs_card mx <? bs_card c)%nat then bs_assign c else mx) sccs mMaxSCC.

Definition buildSCCs `{Malloc} (graph : list QBitSet) : option (list BitSet * BitSet) :=
  match calculateSCCs graph (mkTarjan [] [] 0 []) with
  | Ok _ st => Some (tSCCs st, largestSCC (tSCCs st) (bs_clear bs_new))
  | _ => None
  end.

(** ** Reachability *)

Section Spec.
Context `{Malloc} (graph : list QBitSet).
Let N := length graph.
Hypothesis g_wf : Forall (qwf N) graph.

Definition edge (i j : nat) : Prop := ∃ q, graph !! i = Some q ∧ j ∈ bset (mAllSuccessors q).
Notation reach := (rtc edge).

Lemma edge_lt i j : edge i j → (i < N)%nat ∧ (j < N)%nat.
Proof.
  intros (q & Hq & Hj). split; [by apply lookup_lt_Some in Hq|].
  rewrite Forall_lookup in g_wf. by apply (qwf_succ N q (g_wf i q Hq)).
Qed.

(** ** The components found so far *)

(** Components are disjoint classes of mutually reachable nodes, and edges out of a component lead
    to earlier ones. *)
Record sccs_ok (l : list BitSet) : Prop := {
  so_wf c : c ∈ l → bs_wf c ∧ tight (mPtr c) ∧ bset c ≠ ∅;
  so_lt c i : c ∈ l → i ∈ bset c → (i < N)%nat;
  so_reach c i j : c ∈ l → i ∈ bset c → j ∈ bset c → reach i j;
  so_edge k c i j : l !! k = Some c → i ∈ bset c → edge i j →
    ∃ k' c', (k' <= k)%nat ∧ l !! k' = Some c' ∧ j ∈ bset c';
  so_disj k c k' c' i : l !! k = Some c → l !! k' = Some c' → i ∈ bset c → i ∈ bset c' → k = k' }.

Definition emitted (st : TarjanState) (i : nat) : Prop := ∃ c, c ∈ tSCCs st ∧ i ∈ bset c.

Definition idx (st : TarjanState) (i : nat) : Z :=
  match tNodes st !! i with Some n => mIndex n | None => -1 end.
Definition low (st : TarjanState) (i : nat) : Z :=
  match tNodes st !! i with Some n => mLowLink n | None => -1 end.

(** The invariant of the calculator. *)
Record tinv (st : TarjanState) : Prop := {
  ti_len : length (tNodes st) = N;
  ti_on i n : tNodes st !! i = Some n → mOnStack n = true ↔ i ∈ tStack st;
  ti_stack i : i ∈ tStack st → (i < N)%nat ∧ 0 <= idx st i < tIndex st ∧ ¬ emitted st i;
  ti_sorted : StronglySorted (λ x y, idx st y < idx st x) (tStack st);
  ti_seen i : (i < N)%nat → idx st i ≠ -1 ↔ i ∈ tStack st ∨ emitted st i;
  ti_sccs : sccs_ok (tSCCs st);
  ti_index : 0 <= tIndex st }.

(** What a call leaves alone: the nodes seen before it and the components found before it. *)
Record tframe (st st' : TarjanState) : Prop := {
  tf_nodes i : idx st i ≠ -1 → tNodes st' !! i = tNodes st !! i;
  tf_sccs : ∃ l, tSCCs st' = tSCCs st ++ l;
  tf_index : tIndex st <= tIndex st' }.

Lemma tframe_refl st : tframe st st.
Proof. split; [done|exists []; by rewrite app_nil_r|lia]. Qed.
Lemma tframe_trans st1 st2 st3 : tframe st1 st2 → tframe st2 st3 → tframe st1 st3.
Proof.
  intros [N1 [l1 S1] I1] [N2 [l2 S2] I2]. split.
  - intros i Hi. rewrite N2; [by apply N1|]. unfold idx in *. by rewrite N1.
  - exists (l1 ++ l2). by rewrite S2, S1, app_assoc.
  - lia.
Qed.
Lemma tframe_idx st st' i : tframe st st' → idx st i ≠ -1 → idx st' i = idx st i.
Proof. intros Hf Hi. unfold idx. by rewrite (tf_nodes _ _ Hf i Hi). Qed.
Lemma tframe_low st st' i : tframe st st' → idx st i ≠ -1 → low st' i = low st i.
Proof. intros Hf Hi. unfold low. by rewrite (tf_nodes _ _ Hf i Hi). Qed.
Lemma tframe_emitted st st' i : tframe st st' → emitted st i → emitted st' i.
Proof.
  intros [_ [l Hl] _] (c & Hc & Hi). exists c. split; [|done]. rewrite Hl. apply elem_of_app. by left.
Qed.

(** ** The segment of a call

    [seg] is what a call has left on the stack above [base]: its nodes are reachable from [i], lead
    to a node that is lower on the stack, and have no edges except to found components and to nodes
    of the stack from the low link [l] on. *)
Record segment (st : TarjanState) (i : nat) (l : Z) (seg : list nat) : Prop := {
  sg_reach x : x ∈ seg → reach i x;
  sg_lower x : x ∈ seg → ∃ y, y ∈ tStack st ∧ idx st y < idx st x ∧ reach x y;
  sg_edge x y : x ∈ seg → edge x y → emitted st y ∨ (y ∈ tStack st ∧ l <= idx st y) }.

(** The postcondition of [scc i] from [st]. *)
Record scc_post (st : TarjanState) (i : nat) (st' : TarjanState) : Prop := {
  sp_inv : tinv st';
  sp_frame : tframe st st';
  sp_idx : idx st' i = tIndex st;
  sp_seg : ∃ seg, tStack st' = seg ++ tStack st ∧ segment st' i (low st' i) seg ∧
    ((seg = [] ∧ emitted st' i ∧ low st' i = idx st' i) ∨
     (i ∈ seg ∧ low st' i < idx st' i ∧
      ∃ y, y ∈ tStack st ∧ idx st' y = low st' i ∧ reach i y)) }.

(** The invariant of the loop over the successors of [i], of which [settled] are done, with low link
    [l]; [st0] is the state at the call. *)
Record loop_inv (st0 : TarjanState) (i : nat) (settled : list nat) (l : Z) (st : TarjanState) : Prop := {
  li_inv : tinv st;
  li_frame : tframe st0 st;
  li_idx : idx st i = tIndex st0;
  li_low : l <= idx st i;
  li_att : ∃ y, y ∈ tStack st ∧ idx st y = l ∧ reach i y;
  li_seg : ∃ seg, tStack st = seg ++ i :: tStack st0 ∧ segment st i l seg;
  li_settled j : j ∈ settled → emitted st j ∨ (j ∈ tStack st ∧ l <= idx st j) }.

(** *** Updates of one node *)

Lemma lookup_setNode i f st j :
  tNodes (setNode i f st) !! j = if decide (j = i) then f <$> tNodes st !! j else tNodes st !! j.
Proof.
  simpl. destruct (decide (j = i)) as [->|Hne]; [apply list_lookup_alter_eq|by apply list_lookup_alter_ne].
Qed.

Lemma idx_setNode i f st j : (∀ n, mIndex (f n) = mIndex n) → idx (setNode i f st) j = idx st j.
Proof.
  intros Hf. unfold idx. rewrite lookup_setNode. destruct (decide (j = i)) as [->|]; [|done].
  destruct (tNodes st !! i); simpl; [apply Hf|done].
Qed.

Lemma low_setLow i l st : (i < length (tNodes st))%nat → low (setNode i (setLow l) st) i = l.
Proof.
  intros Hi. unfold low. rewrite lookup_setNode, decide_True by done.
  by destruct (lookup_lt_is_Some_2 _ _ Hi) as [n ->].
Qed.

Lemma idx_lt st i : tinv st → idx st i ≠ -1 → (i < N)%nat.
Proof.
  intros Hi Hx. unfold idx in Hx. destruct (tNodes st !! i) eqn:E; [|done].
  rewrite <- (ti_len _ Hi). by apply lookup_lt_Some in E.
Qed.

Lemma stack_seen st i : tinv st → i ∈ tStack st → idx st i ≠ -1.
Proof. intros Hi Hs. destruct (ti_stack _ Hi i Hs) as (_ & ? & _). lia. Qed.

Lemma sorted_ext (l : list nat) (f f' : nat → Z) :
  (∀ i, i ∈ l → f i = f' i) → StronglySorted (λ x y, f y < f x) l → StronglySorted (λ x y, f' y < f' x) l.
Proof.
  intros Hf. induction 1 as [|x l Hl IH Hx]; constructor.
  - apply IH. intros i Hi. apply Hf. by right.
  - rewrite Forall_forall in Hx |- *. intros y Hy. rewrite <- !Hf; [by apply Hx|by left|by right].
Qed.

Lemma setLow_inv i l st : tinv st → tinv (setNode i (setLow l) st).
Proof.
  intros Hi. assert (∀ j, idx (setNode i (setLow l) st) j = idx st j) as Hidx by (intros; by apply idx_setNode).
  split; try setoid_rewrite Hidx; try apply Hi.
  - simpl. rewrite length_alter. apply Hi.
  - intros j n. rewrite lookup_setNode. destruct (decide (j = i)) as [->|]; [|apply (ti_on _ Hi)].
    destruct (tNodes st !! i) as [n'|] eqn:E; [|done]. intros [= <-]. exact (ti_on _ Hi i n' E).
  - eapply sorted_ext; [|apply Hi]. intros j _. by rewrite Hidx.
Qed.

Lemma setLow_frame i l st0 st : idx st0 i = -1 → tframe st0 st → tframe st0 (setNode i (setLow l) st).
Proof.
  intros Hi Hf. split; [|apply Hf|apply Hf]. intros j Hj. rewrite lookup_setNode.
  destruct (decide (j = i)) as [->|]; [done|]. by apply Hf.
Qed.

Lemma setLow_loop st0 i settled l st :
  idx st0 i = -1 → (i < N)%nat → loop_inv st0 i settled l st →
  loop_inv st0 i settled l (setNode i (setLow l) st) ∧ low (setNode i (setLow l) st) i = l.
Proof.
  intros Hi0 HiN [Hi Hf Hx Hl Ha Hs Hd].
  assert (∀ j, idx (setNode i (setLow l) st) j = idx st j) as Hidx by (intros; by apply idx_setNode).
  split; [|apply low_setLow; by rewrite (ti_len _ Hi)].
  split; try setoid_rewrite Hidx; auto using setLow_inv, setLow_frame.
  destruct Hs as (seg & Hstk & [S1 S2 S3]). exists seg. split; [done|].
  split; try setoid_rewrite Hidx; auto.
Qed.

(** *** Entering a node *)

Definition push (i : nat) (st : TarjanState) : TarjanState :=
  mkTarjan (<[i := mkSCCNode (tIndex st) (tIndex st) true]> (tNodes st))
           (i :: tStack st) (tIndex st + 1) (tSCCs st).

Lemma push_loop i st :
  tinv st → (i < N)%nat → idx st i = -1 → loop_inv st i [] (tIndex st) (push i st) ∧ low (push i st) i = tIndex st.
Proof.
  intros Hi HiN Hx. pose proof (ti_len _ Hi) as Hlen. pose proof (ti_index _ Hi) as Hix.
  assert (tNodes (push i st) !! i = Some (mkSCCNode (tIndex st) (tIndex st) true)) as Hni
    by (simpl; apply list_lookup_insert_eq; lia).
  assert (∀ j, j ≠ i → tNodes (push i st) !! j = tNodes st !! j) as Hnj
    by (intros; simpl; by apply list_lookup_insert_ne).
  assert (idx (push i st) i = tIndex st) as Hxi by (unfold idx; by rewrite Hni).
  assert (∀ j, j ≠ i → idx (push i st) j = idx st j) as Hxj by (intros j Hj; unfold idx; by rewrite Hnj).
  assert (i ∉ tStack st) as His by (intros Hs; by apply (stack_seen _ _ Hi Hs)).
  assert (¬ emitted st i) as Hie.
  { intros He. assert (idx st i ≠ -1); [|done]. apply (ti_seen _ Hi i HiN). by right. }
  split; [|unfold low; by rewrite Hni].
  assert (tinv (push i st)) as Hinv.
  { split.
    - simpl. by rewrite length_insert.
    - intros j n. destruct (decide (j = i)) as [->|Hj].
      + rewrite Hni. intros [= <-]. simpl. split; [by left|done].
      + rewrite Hnj by done. intros Hn. rewrite (ti_on _ Hi j n Hn). simpl. rewrite elem_of_cons. tauto.
    - simpl. intros j [->|Hj]%elem_of_cons; [rewrite Hxi; split_and!; [done|lia|lia|done]|].
      assert (j ≠ i) by (by intros ->). rewrite Hxj by done.
      destruct (ti_stack _ Hi j Hj) as (? & ? & ?). split_and!; [done|lia|lia|done].
    - simpl. constructor.
      + eapply sorted_ext; [|apply Hi]. intros j Hj. rewrite Hxj; [done|by intros ->].
      + apply Forall_forall. intros j Hj. rewrite Hxi, Hxj by (by intros ->).
        destruct (ti_stack _ Hi j Hj) as (_ & ? & _). lia.
    - intros j Hj. simpl. rewrite elem_of_cons. destruct (decide (j = i)) as [->|Hne].
      + rewrite Hxi. split; [intros _; by left; left|lia].
      + rewrite Hxj, (ti_seen _ Hi j Hj) by done. unfold emitted. simpl. tauto.
    - apply Hi.
    - simpl. lia. }
  split; [done| |done|lia| | |].
  - split; [|exists []; simpl; by rewrite app_nil_r|simpl; lia]. intros j Hj. apply Hnj. by intros ->.
  - exists i. simpl. split_and!; [by left|done|done].
  - exists []. split; [done|]. split; intros x; intros; by (exfalso; eapply not_elem_of_nil).
  - intros j Hj. by apply not_elem_of_nil in Hj.
Qed.

(** *** Settling a successor *)

Lemma segment_weaken st i l l' seg : l' <= l → segment st i l seg → segment st i l' seg.
Proof.
  intros Hl [S1 S2 S3]. split; [done|done|]. intros x y Hx He.
  destruct (S3 x y Hx He) as [?|[? ?]]; [by left|right; split; [done|lia]].
Qed.

Lemma loop_weaken st0 i D l l' st :
  l' <= l → (∃ y, y ∈ tStack st ∧ idx st y = l' ∧ reach i y) → loop_inv st0 i D l st → loop_inv st0 i D l' st.
Proof.
  intros Hl Ha' [Hi Hf Hx Hlo Ha (seg & Hs & Hg) Hd]. split; [done|done|done|lia|done| |].
  - exists seg. split; [done|]. by eapply segment_weaken.
  - intros j Hj. destruct (Hd j Hj) as [?|[? ?]]; [by left|right; split; [done|lia]].
Qed.

Lemma loop_settle st0 i D l st j :
  emitted st j ∨ (j ∈ tStack st ∧ l <= idx st j) → loop_inv st0 i D l st → loop_inv st0 i (j :: D) l st.
Proof.
  intros Hj [Hi Hf Hx Hlo Ha Hs Hd]. split; auto. intros j' [->|Hj']%elem_of_cons; auto.
Qed.

Lemma settle_stack st0 i D l st j :
  edge i j → j ∈ tStack st → loop_inv st0 i D l st → loop_inv st0 i (j :: D) (Z.min l (idx st j)) st.
Proof.
  intros He Hj HL. apply loop_settle; [right; split; [done|lia]|].
  eapply loop_weaken; [| |exact HL]; [lia|]. destruct (Z.min_spec l (idx st j)) as [[_ ->]|[_ ->]].
  - apply HL.
  - exists j. split_and!; [done|done|]. by apply rtc_once.
Qed.

(** What is on the stack stays there, with its index, during a call. *)
Lemma frame_stack st st' seg y :
  tinv st → tframe st st' → tStack st' = seg ++ tStack st → y ∈ tStack st →
  y ∈ tStack st' ∧ idx st' y = idx st y.
Proof.
  intros Hi Hf Hs Hy. split; [rewrite Hs; apply elem_of_app; by right|].
  apply tframe_idx; [done|]. by apply stack_seen.
Qed.

Lemma segment_frame st st' i l seg seg' :
  tinv st → tframe st st' → tStack st' = seg' ++ tStack st → (∀ x, x ∈ seg → x ∈ tStack st) →
  segment st i l seg → segment st' i l seg.
Proof.
  intros Hi Hf Hs Hin [S1 S2 S3]. split; [done| |].
  - intros x Hx. destruct (S2 x Hx) as (y & Hy & Hlt & Hr). exists y.
    destruct (frame_stack st st' seg' y Hi Hf Hs Hy) as [Hy' ->].
    destruct (frame_stack st st' seg' x Hi Hf Hs (Hin x Hx)) as [_ ->]. done.
  - intros x y Hx He. destruct (S3 x y Hx He) as [Hem|[Hy Hl]].
    + left. by eapply tframe_emitted.
    + right. by destruct (frame_stack st st' seg' y Hi Hf Hs Hy) as [Hy' ->].
Qed.

Lemma segment_app st i l s1 s2 : segment st i l s1 → segment st i l s2 → segment st i l (s1 ++ s2).
Proof.
  intros [A1 A2 A3] [B1 B2 B3]. split.
  - intros x [?|?]%elem_of_app; auto.
  - intros x [?|?]%elem_of_app; auto.
  - intros x y [?|?]%elem_of_app; eauto.
Qed.

Lemma segment_from st i j l seg : reach i j → segment st j l seg → segment st i l seg.
Proof. intros Hr [S1 S2 S3]. split; [|done|done]. intros x Hx. trans j; auto. Qed.

(** After the recursive call for the successor [j]. *)
Lemma settle_child st0 i D st st1 j :
  edge i j → loop_inv st0 i D (low st i) st → scc_post st j st1 →
  loop_inv st0 i (j :: D) (Z.min (low st1 i) (low st1 j)) st1.
Proof.
  intros He [Hi Hf Hx Hlo (ya & Hya & Hyl & Hyr) (seg & Hs & Hg) Hd] [Pi Pf Px (sj & Hsj & Hgj & Hcase)].
  assert (i ∈ tStack st) as His by (rewrite Hs; apply elem_of_app; right; by left).
  pose proof (stack_seen st i Hi His) as Hin. destruct (ti_stack _ Hi i His) as (_ & Hib & _).
  rewrite (tframe_low st st1 i Pf Hin). pose proof (tframe_idx st st1 i Pf Hin) as Hix.
  set (l := Z.min (low st i) (low st1 j)). apply loop_settle.
  { destruct Hcase as [(_ & Hem & _)|(Hj & _ & _)]; [by left|right].
    split; [rewrite Hsj; apply elem_of_app; by left|]. rewrite Px. unfold l. lia. }
  split; [done|by eapply tframe_trans|by rewrite Hix|unfold l; lia| | |].
  - destruct Hcase as [(_ & _ & Hl)|(_ & Hl & y & Hy & Hyi & Hjy)].
    + exists ya. destruct (frame_stack st st1 sj ya Hi Pf Hsj Hya) as [? ->].
      split_and!; [done|unfold l; lia|done].
    + destruct (Z.min_spec (low st i) (low st1 j)) as [[_ Hm]|[_ Hm]]; unfold l; rewrite Hm.
      * exists ya. by destruct (frame_stack st st1 sj ya Hi Pf Hsj Hya) as [? ->].
      * exists y. destruct (frame_stack st st1 sj y Hi Pf Hsj Hy) as [? _]. split_and!; [done|done|].
        eapply rtc_l; [exact He|done].
  - exists (sj ++ seg). rewrite Hsj, Hs, app_assoc. split; [done|]. apply segment_app.
    + apply (segment_from _ i j); [by apply rtc_once|]. eapply segment_weaken; [|exact Hgj]. unfold l. lia.
    + eapply segment_weaken; [|apply (segment_frame st st1 i (low st i) seg sj)]; auto.
      * unfold l. lia.
      * intros x Hxs. rewrite Hs. apply elem_of_app. by left.
  - intros k Hk. destruct (Hd k Hk) as [Hem|[Hks Hkl]]; [left; by eapply tframe_emitted|right].
    destruct (frame_stack st st1 sj k Hi Pf Hsj Hks) as [? ->]. split; [done|unfold l; lia].
Qed.

(** *** The loop over the successors *)

Definition unseen (st : TarjanState) : gset nat := filter (λ i, idx st i = -1) (set_seq 0 N).

Lemma elem_of_unseen st i : i ∈ unseen st ↔ idx st i = -1 ∧ (i < N)%nat.
Proof. unfold unseen. rewrite elem_of_filter, elem_of_set_seq. split; intros [? ?]; split; try done; lia. Qed.

Lemma unseen_frame st st' : tframe st st' → (size (unseen st') <= size (unseen st))%nat.
Proof.
  intros Hf. apply subseteq_size. intros i. rewrite !elem_of_unseen. intros [Hx Hi]. split; [|done].
  destruct (decide (idx st i = -1)); [done|]. rewrite (tframe_idx st st') in Hx; done.
Qed.

Lemma unseen_push st i : (i < N)%nat → idx st i = -1 → tframe st (push i st) → idx (push i st) i = tIndex st →
  0 <= tIndex st → (size (unseen (push i st)) < size (unseen st))%nat.
Proof.
  intros Hi Hx Hf Hp Hn. apply subset_size. split.
  - intros j. rewrite !elem_of_unseen. intros [Hj HjN]. split; [|done].
    destruct (decide (idx st j = -1)); [done|]. rewrite (tframe_idx st) in Hj; done.
  - intros Hs. assert (i ∈ unseen (push i st)) as [? _]%elem_of_unseen; [|lia].
    apply Hs, elem_of_unseen. done.
Qed.

Lemma node_at_returns i st (Q : SCCNode → TarjanState → Prop) :
  tinv st → (i < N)%nat → (∀ n, tNodes st !! i = Some n → Q n st) → returns (node_at i) st Q.
Proof.
  intros Hi HiN HQ. unfold returns, wp, node_at.
  destruct (lookup_lt_is_Some_2 (tNodes st) i) as [n Hn]; [by rewrite (ti_len _ Hi)|]. rewrite Hn. by apply HQ.
Qed.

Lemma succLoop_returns rec fuel st0 i l D st :
  (∀ j st, tinv st → (j < N)%nat → idx st j = -1 → (size (unseen st) <= fuel)%nat →
     returns (rec j) st (λ _ st', scc_post st j st')) →
  (i < N)%nat → idx st0 i = -1 → (∀ j, j ∈ l → edge i j) →
  loop_inv st0 i D (low st i) st → (size (unseen st) <= fuel)%nat →
  returns (succLoop rec i l) st (λ _ st', ∃ D', (∀ j, j ∈ D ∨ j ∈ l → j ∈ D') ∧
    loop_inv st0 i D' (low st' i) st').
Proof.
  intros Hrec HiN Hi0. revert D st. induction l as [|j l IH]; intros D st Hl HL Hf; simpl.
  { apply returns_ret. exists D. split; [|done]. intros j [?|Hj]; [done|]. by apply not_elem_of_nil in Hj. }
  assert (edge i j) as He by (apply Hl; by left). destruct (edge_lt i j He) as [_ HjN].
  pose proof (li_inv _ _ _ _ _ HL) as Hi.
  assert (∀ j', j' ∈ l → edge i j') as Hl' by (intros; apply Hl; by right).
  (* each branch establishes the invariant with j settled *)
  assert (∀ st1, loop_inv st0 i (j :: D) (low st1 i) st1 → (size (unseen st1) <= fuel)%nat →
    returns (succLoop rec i l) st1 (λ _ st', ∃ D', (∀ k, k ∈ D ∨ k ∈ j :: l → k ∈ D') ∧
      loop_inv st0 i D' (low st' i) st')) as Hnext.
  { intros st1 HL1 Hf1. eapply returns_mono; [by apply (IH (j :: D))|].
    intros _ st' (D' & HD & HL'). exists D'. split; [|done]. intros k Hk. apply HD.
    rewrite elem_of_cons in *. tauto. }
  apply (returns_bind _ _ _ _ (λ w s', tNodes st !! j = Some w ∧ s' = st)); [by apply node_at_returns|].
  intros w s' [Hw ->].
  assert (idx st j = mIndex w) as Hxj by (unfold idx; by rewrite Hw).
  apply (returns_bind _ _ _ _ (λ _ st1, loop_inv st0 i (j :: D) (low st1 i) st1 ∧ (size (unseen st1) <= fuel)%nat));
    [|by intros _ st1 [? ?]; apply Hnext].
  destruct (Z.eqb_spec (mIndex w) (-1)) as [Hnew|Hold].
  - eapply returns_bind; [apply Hrec; [done|done|congruence|done]|]. intros [] st1 HP.
    pose proof (settle_child st0 i D st st1 j He HL HP) as HL1. pose proof (li_inv _ _ _ _ _ HL1) as Hi1.
    apply (returns_bind _ _ _ _ (λ v s', tNodes st1 !! i = Some v ∧ s' = st1)); [by apply node_at_returns|].
    intros v s' [Hv ->].
    apply (returns_bind _ _ _ _ (λ w s', tNodes st1 !! j = Some w ∧ s' = st1)); [by apply node_at_returns|].
    intros w1 s' [Hw1 ->].
    assert (low st1 i = mLowLink v) as <- by (unfold low; by rewrite Hv).
    assert (low st1 j = mLowLink w1) as <- by (unfold low; by rewrite Hw1).
    destruct (setLow_loop st0 i _ _ st1 Hi0 HiN HL1) as [HL2 Hlow2].
    unfold returns, wp, modify. simpl. rewrite Hlow2. split; [done|].
    etrans; [|exact Hf]. etrans; [|by apply unseen_frame, (sp_frame _ _ _ HP)].
    apply subseteq_size. intros k. rewrite !elem_of_unseen, idx_setNode by done. done.
  - destruct (mOnStack w) eqn:Eon.
    + apply (ti_on _ Hi j w Hw) in Eon.
      apply (returns_bind _ _ _ _ (λ v s', tNodes st !! i = Some v ∧ s' = st)); [by apply node_at_returns|].
      intros v s' [Hv ->]. assert (low st i = mLowLink v) as <- by (unfold low; by rewrite Hv).
      rewrite <- Hxj. pose proof (settle_stack st0 i D _ st j He Eon HL) as HL1.
      destruct (setLow_loop st0 i _ _ st Hi0 HiN HL1) as [HL2 Hlow2].
      unfold returns, wp, modify. simpl. rewrite Hlow2. split; [done|].
      etrans; [|exact Hf]. apply subseteq_size. intros k. rewrite !elem_of_unseen, idx_setNode by done. done.
    + apply returns_ret. split; [|done]. apply loop_settle; [left|done].
      assert (j ∉ tStack st) as Hns by (intros Hs; apply (ti_on _ Hi j w Hw) in Hs; congruence).
      destruct (proj1 (ti_seen _ Hi j HjN)) as [?|?]; [congruence|done|done].
Qed.

(** *** Emitting a component *)

Lemma popLoop_returns fuel i seg base c st :
  length (tNodes st) = N → tStack st = seg ++ i :: base → i ∉ seg → (∀ x, x ∈ seg ++ [i] → (x < N)%nat) →
  bs_wf c → tight (mPtr c) → (length seg < fuel)%nat →
  returns (popLoop fuel i c) st (λ r st', bs_wf r ∧ tight (mPtr r) ∧
    (∀ x, x ∈ bset r ↔ x ∈ seg ++ [i] ∨ x ∈ bset c) ∧
    tStack st' = base ∧ tIndex st' = tIndex st ∧ tSCCs st' = tSCCs st ∧ length (tNodes st') = N ∧
    ∀ x, tNodes st' !! x = if decide (x ∈ seg ++ [i]) then setOff <$> tNodes st !! x else tNodes st !! x).
Proof.
  revert seg c st. induction fuel as [|fuel IH]; intros seg c st Hlen Hst Hi Hlt Hc Ht Hf; [lia|].
  assert (bs_wf (bs_set c i) ∧ tight (mPtr (bs_set c i))) as Hci.
  { split; [auto with bs|]. apply set_tight; [apply Hc|done]. }
  destruct seg as [|j seg]; unfold returns, wp; cbn [popLoop]; rewrite Hst; cbn [app].
  - unfold mbind, M_bind, node_at. cbn [tNodes].
    destruct (lookup_lt_is_Some_2 (tNodes st) i) as [n Hn]; [rewrite Hlen; apply Hlt; by left|]. rewrite Hn.
    unfold modify. rewrite decide_True by done. simpl. destruct Hci as [? ?].
    split_and!; [done|done| |done|done|done|by rewrite length_alter|].
    + intros x. rewrite bset_set, elem_of_union, elem_of_singleton, list_elem_of_singleton by done. done.
    + intros x. destruct (decide (x = i)) as [->|Hx].
      * rewrite decide_True by (by left). apply list_lookup_alter_eq.
      * rewrite decide_False by (by rewrite list_elem_of_singleton). by apply list_lookup_alter_ne.
  - unfold mbind, M_bind, node_at. cbn [tNodes].
    destruct (lookup_lt_is_Some_2 (tNodes st) j) as [n Hn]; [rewrite Hlen; apply Hlt; by left|]. rewrite Hn.
    unfold modify. rewrite decide_False by (intros ->; apply Hi; by left).
    set (st1 := setNode j setOff _).
    assert (returns (popLoop fuel i (bs_set c j)) st1 (λ r st', bs_wf r ∧ tight (mPtr r) ∧
      (∀ x, x ∈ bset r ↔ x ∈ seg ++ [i] ∨ x ∈ bset (bs_set c j)) ∧
      tStack st' = base ∧ tIndex st' = tIndex st1 ∧ tSCCs st' = tSCCs st1 ∧ length (tNodes st') = N ∧
      ∀ x, tNodes st' !! x = if decide (x ∈ seg ++ [i]) then setOff <$> tNodes st1 !! x else tNodes st1 !! x)) as Hr.
    { apply IH; [simpl; by rewrite length_alter|done|intros Hin; apply Hi; by right| |auto with bs| |simpl in Hf; lia].
      - intros x Hx. apply Hlt. by right.
      - apply set_tight; [apply Hc|done]. }
    eapply returns_mono; [exact Hr|]. clear Hr.
    intros r st' (Hr1 & Hr2 & Hr3 & Hr4 & Hr5 & Hr6 & Hr7 & Hr8).
    split_and!; [done|done| |done|done|done|done|].
    + intros x. rewrite Hr3, bset_set, elem_of_union, elem_of_singleton, elem_of_cons by done. tauto.
    + intros x. rewrite Hr8. unfold st1. rewrite lookup_setNode. cbn [tNodes].
      destruct (decide (x = j)) as [->|Hx].
      * rewrite (decide_True (P := j ∈ j :: _)) by (by left).
        destruct (decide _); [|done]. by rewrite Hn.
      * destruct (decide (x ∈ seg ++ [i])); [rewrite decide_True by (by right); done|].
        rewrite decide_False; [done|]. rewrite elem_of_cons. tauto.
Qed.

(** Position on the stack and index agree. *)
Lemma stack_above st i seg base x :
  tinv st → tStack st = seg ++ i :: base → x ∈ tStack st → x ∈ seg ++ [i] ↔ idx st i <= idx st x.
Proof.
  intros Hi Hstk. pose proof (ti_sorted _ Hi) as Hs. rewrite Hstk in Hs |- *. intros Hx.
  rewrite elem_of_app, list_elem_of_singleton.
  apply StronglySorted_app in Hs as (Hsi & _ & Hs). apply StronglySorted_cons in Hs as [Hbase _].
  rewrite Forall_forall in Hbase.
  apply elem_of_app in Hx as [Hx|[-> |Hx]%elem_of_cons].
  - split; [intros _|by left]. specialize (Hsi x i Hx ltac:(by left)). simpl in Hsi. lia.
  - split; [lia|by right].
  - specialize (Hbase x Hx). simpl in Hbase. split; [|lia]. intros [Hxs| ->]; [|lia].
    specialize (Hsi x x Hxs ltac:(by right)). simpl in Hsi. lia.
Qed.

(** The nodes of a finished call whose low link is its index: [seg ++ [i]], a closed and strongly
    connected part of the stack. *)
Section Emit.
Variables (st0 st : TarjanState) (i : nat) (settled seg : list nat).
Hypothesis Hi0 : tinv st0.
Hypothesis HL : loop_inv st0 i settled (idx st i) st.
Hypothesis Hall : ∀ j, edge i j → j ∈ settled.
Hypothesis Hstk : tStack st = seg ++ i :: tStack st0.
Hypothesis Hseg : segment st i (idx st i) seg.
Let P := seg ++ [i].

Lemma P_stack x : x ∈ tStack st ↔ x ∈ P ∨ x ∈ tStack st0.
Proof. unfold P. rewrite Hstk, !elem_of_app, elem_of_cons, list_elem_of_singleton. tauto. Qed.

Lemma P_idx x : x ∈ tStack st → x ∈ P ↔ idx st i <= idx st x.
Proof. apply (stack_above st i seg (tStack st0)); [apply HL|done]. Qed.

Lemma P_fresh x : x ∈ P → x ∈ tStack st ∧ ¬ emitted st x ∧ x ∉ tStack st0 ∧ idx st0 x = -1.
Proof.
  intros Hx. assert (x ∈ tStack st) as Hs by (apply P_stack; by left).
  destruct (ti_stack _ (li_inv _ _ _ _ _ HL) x Hs) as (HxN & _ & Hne).
  assert (x ∉ tStack st0) as Hx0.
  { intros H0. apply P_idx in Hx; [|done]. rewrite (li_idx _ _ _ _ _ HL) in Hx.
    destruct (ti_stack _ Hi0 x H0) as (_ & Hb & _).
    rewrite (tframe_idx st0 st x (li_frame _ _ _ _ _ HL)) in Hx by lia. lia. }
  split_and!; [done|done|done|]. destruct (decide (idx st0 x = -1)) as [|Hseen]; [done|exfalso].
  apply (ti_seen _ Hi0 x HxN) in Hseen as [?|He]; [done|].
  apply Hne. by eapply tframe_emitted, He; apply HL.
Qed.

Lemma P_edge x y : x ∈ P → edge x y → emitted st y ∨ y ∈ P.
Proof.
  intros Hx He. assert (emitted st y ∨ (y ∈ tStack st ∧ idx st i <= idx st y)) as [?|[Hy Hl]].
  - unfold P in Hx. apply elem_of_app in Hx as [Hx| ->%list_elem_of_singleton].
    + by apply (sg_edge _ _ _ _ Hseg x).
    + by apply (li_settled _ _ _ _ _ HL), Hall.
  - by left.
  - right. by apply P_idx.
Qed.

Lemma emitted_edge x y : emitted st x → edge x y → emitted st y.
Proof.
  intros (c & Hc & Hx) He. apply list_elem_of_lookup in Hc as [k Hk].
  destruct (so_edge _ (ti_sccs _ (li_inv _ _ _ _ _ HL)) k c x y Hk Hx He) as (k' & c' & _ & Hk' & Hy).
  exists c'. split; [by eapply list_elem_of_lookup_2|done].
Qed.

Lemma P_reach x y : reach x y → emitted st x ∨ x ∈ P → emitted st y ∨ y ∈ P.
Proof.
  induction 1 as [|x y z He _ IH]; [done|]. intros Hx. apply IH. destruct Hx as [Hx|Hx].
  - left. by eapply emitted_edge.
  - by eapply P_edge.
Qed.

Lemma P_connected x : x ∈ P → reach i x ∧ reach x i.
Proof.
  intros Hx. split.
  { unfold P in Hx. apply elem_of_app in Hx as [Hx| ->%list_elem_of_singleton]; [by apply Hseg|done]. }
  pose proof (proj1 (P_fresh x Hx)) as Hs.
  destruct (ti_stack _ (li_inv _ _ _ _ _ HL) x Hs) as (_ & Hb & _).
  remember (Z.to_nat (idx st x)) as n eqn:En. revert x Hx Hs Hb En.
  induction (lt_wf n) as [n _ IH]; intros x Hx Hs Hb En.
  unfold P in Hx. apply elem_of_app in Hx as [Hx| ->%list_elem_of_singleton]; [|done].
  destruct (sg_lower _ _ _ _ Hseg x Hx) as (y & Hy & Hlt & Hr).
  destruct (ti_stack _ (li_inv _ _ _ _ _ HL) y Hy) as (_ & Hby & Hney).
  assert (y ∈ P) as HyP.
  { destruct (P_reach x y Hr) as [?|?]; [|done|done]. right. unfold P. apply elem_of_app. by left. }
  trans y; [done|]. apply (IH (Z.to_nat (idx st y)) ltac:(lia) y); done.
Qed.

(** The state after the component has been moved to the result. *)
Variables (c : BitSet) (st1 : TarjanState).
Hypothesis Hc : bs_wf c ∧ tight (mPtr c) ∧ ∀ x, x ∈ bset c ↔ x ∈ P.
Hypothesis Hst1 : tStack st1 = tStack st0 ∧ tIndex st1 = tIndex st ∧ tSCCs st1 = tSCCs st ++ [c] ∧
  length (tNodes st1) = N ∧
  ∀ x, tNodes st1 !! x = if decide (x ∈ P) then setOff <$> tNodes st !! x else tNodes st !! x.

Lemma emit_idx x : idx st1 x = idx st x ∧ low st1 x = low st x.
Proof.
  destruct Hst1 as (_ & _ & _ & _ & Hn). unfold idx, low. rewrite Hn.
  destruct (decide (x ∈ P)); [|done]. by destruct (tNodes st !! x).
Qed.

Lemma emit_emitted x : emitted st1 x ↔ emitted st x ∨ x ∈ P.
Proof.
  destruct Hst1 as (_ & _ & Hs & _), Hc as (_ & _ & HcP). unfold emitted. rewrite Hs.
  setoid_rewrite elem_of_app. setoid_rewrite list_elem_of_singleton. split.
  - intros (c' & [Hc'| ->] & Hx); [left; by exists c'|right; by apply HcP].
  - intros [(c' & Hc' & Hx)|Hx]; [exists c'; tauto|exists c; split; [by right|by apply HcP]].
Qed.

Lemma emit_sccs : sccs_ok (tSCCs st1).
Proof.
  destruct Hst1 as (_ & _ & -> & _), Hc as (Hcw & Hct & HcP).
  pose proof (li_inv _ _ _ _ _ HL) as Hi. pose proof (ti_sccs _ Hi) as [W Lt R E D].
  assert (∀ x k c', x ∈ P → tSCCs st !! k = Some c' → x ∈ bset c' → False) as Hnew.
  { intros x k c' Hx Hk Hx'. apply (proj1 (proj2 (P_fresh x Hx))). exists c'.
    split; [by eapply list_elem_of_lookup_2|done]. }
  assert (i ∈ P) as HiP by (unfold P; apply elem_of_app; right; by left).
  split.
  - intros c' [?| ->%list_elem_of_singleton]%elem_of_app; [by apply W|]. split_and!; [done|done|].
    intros He. assert (i ∈ bset c) as Hin by (by apply HcP). rewrite He in Hin. by apply elem_of_empty in Hin.
  - intros c' x [?| ->%list_elem_of_singleton]%elem_of_app Hx; [by eapply Lt|].
    apply HcP, P_fresh in Hx as [Hx _]. by apply (ti_stack _ Hi).
  - intros c' x y [?| ->%list_elem_of_singleton]%elem_of_app Hx Hy; [by eapply R|].
    apply HcP in Hx, Hy. trans i; [by apply P_connected|by apply P_connected].
  - intros k c' x y Hk Hx He. apply lookup_app_Some in Hk as [Hk|[Hge Hk]].
    + destruct (E k c' x y Hk Hx He) as (k' & c'' & Hle & Hk' & Hy). exists k', c''.
      split_and!; [done|by apply lookup_app_l_Some|done].
    + apply list_lookup_singleton_Some in Hk as [Hz <-]. apply HcP in Hx.
      destruct (P_edge x y Hx He) as [(c'' & Hc'' & Hy)|Hy].
      * apply list_elem_of_lookup in Hc'' as [k' Hk']. exists k', c''.
        pose proof (lookup_lt_Some _ _ _ Hk'). split_and!; [lia|by apply lookup_app_l_Some|done].
      * exists k, c. split_and!; [done| |by apply HcP].
        rewrite lookup_app_r by done. by rewrite Hz.
  - intros k c1 k' c2 x Hk Hk' Hx Hx'.
    apply lookup_app_Some in Hk as [Hk|[Hge Hk]], Hk' as [Hk'|[Hge' Hk']].
    + by eapply D.
    + apply list_lookup_singleton_Some in Hk' as [_ <-]. apply HcP in Hx'. exfalso. by eapply Hnew.
    + apply list_lookup_singleton_Some in Hk as [_ <-]. apply HcP in Hx. exfalso. by eapply Hnew.
    + apply list_lookup_singleton_Some in Hk as [? _], Hk' as [? _]. lia.
Qed.

Lemma emit_post : low st i = idx st i → scc_post st0 i st1.
Proof.
  intros Hlow. pose proof emit_sccs as Hsccs. pose proof (li_inv _ _ _ _ _ HL) as Hi.
  pose proof (ti_sorted _ Hi) as Hsort. rewrite Hstk in Hsort.
  apply StronglySorted_app in Hsort as (_ & _ & Hsort). apply StronglySorted_cons in Hsort as [_ Hsort].
  pose proof emit_idx as Hx. pose proof emit_emitted as He. destruct Hst1 as (Hs & Hix & _ & Hlen & Hn).
  assert (i ∈ P) as HiP by (unfold P; apply elem_of_app; right; by left).
  split; [split| |by rewrite (proj1 (Hx i)); apply HL|].
  - done.
  - intros x n. rewrite Hn, Hs. destruct (decide (x ∈ P)) as [HxP|HxP].
    + destruct (tNodes st !! x); [|done]. intros [= <-]. simpl. split; [done|].
      intros H0. by apply P_fresh in HxP as (_ & _ & ? & _).
    + intros Hnx. rewrite (ti_on _ Hi x n Hnx), P_stack. tauto.
  - intros x. rewrite Hs. intros H0. assert (x ∈ tStack st) as Hxs by (apply P_stack; by right).
    rewrite (proj1 (Hx x)), Hix, He. destruct (ti_stack _ Hi x Hxs) as (? & ? & ?).
    split_and!; [done|lia|lia|]. intros [?|HxP]; [done|]. by apply P_fresh in HxP as (_ & _ & ? & _).
  - rewrite Hs. eapply sorted_ext; [|exact Hsort]. intros x _. symmetry. apply Hx.
  - intros x HxN. rewrite (proj1 (Hx x)), (ti_seen _ Hi x HxN), Hs, He, P_stack. tauto.
  - done.
  - rewrite Hix. apply Hi.
  - destruct (li_frame _ _ _ _ _ HL) as [Fn [l Fl] Fi]. split.
    + intros x Hx0. rewrite Hn, decide_False; [by apply Fn|].
      intros HxP. by apply P_fresh in HxP as (_ & _ & _ & ?).
    + exists (l ++ [c]). destruct Hst1 as (_ & _ & -> & _). by rewrite Fl, app_assoc.
    + by rewrite Hix.
  - exists []. split; [done|]. split.
    + split; intros x; intros; by (exfalso; eapply not_elem_of_nil).
    + left. destruct (Hx i) as [-> ->]. split_and!; [done|apply He; by right|done].
Qed.
End Emit.

(** A call that leaves its node on the stack. *)
Lemma stay_post st0 st i settled :
  loop_inv st0 i settled (low st i) st → (∀ j, edge i j → j ∈ settled) → low st i ≠ idx st i →
  scc_post st0 i st.
Proof.
  intros HL Hall Hne. pose proof HL as [Hi Hf Hx Hlo (y & Hy & Hyl & Hyr) (seg & Hstk & Hg) Hd].
  split; [done|done|done|]. exists (seg ++ [i]). split; [by rewrite Hstk, <- app_assoc|]. split.
  - apply segment_app; [done|]. split.
    + intros x ->%list_elem_of_singleton. done.
    + intros x ->%list_elem_of_singleton. exists y. split_and!; [done|lia|done].
    + intros x z ->%list_elem_of_singleton He. by apply Hd, Hall.
  - right. split_and!; [apply elem_of_app; right; by left|lia|]. exists y. split_and!; [|done|done].
    assert (y ∉ seg ++ [i]) as Hn by (rewrite (stack_above st i seg (tStack st0)) by done; lia).
    rewrite Hstk in Hy. rewrite elem_of_app, list_elem_of_singleton in Hn.
    rewrite elem_of_app, elem_of_cons in Hy. tauto.
Qed.

Lemma scc_returns fuel i st :
  tinv st → (i < N)%nat → idx st i = -1 → (size (unseen st) <= fuel)%nat →
  returns (scc graph fuel i) st (λ _ st', scc_post st i st').
Proof.
  revert i st. induction fuel as [|fuel IH]; intros i st Hi HiN Hx Hf.
  { exfalso. assert (i ∈ unseen st) as Hu by (by apply elem_of_unseen).
    assert (unseen st = ∅) as He by (apply leibniz_equiv, size_empty_inv; lia). rewrite He in Hu.
    by apply elem_of_empty in Hu. }
  cbn [scc]. apply (returns_bind _ _ _ _ (λ _ s', s' = st)); [by apply node_at_returns|]. intros _ s' ->.
  apply (returns_bind _ _ _ _ (λ _ s', s' = push i st)); [done|]. intros _ s' ->.
  destruct (push_loop i st Hi HiN Hx) as [HL Hlow].
  destruct (lookup_lt_is_Some_2 graph i HiN) as [q Hq]. rewrite Hq.
  assert (bs_wf (mAllSuccessors q)) as Hqw.
  { rewrite Forall_lookup in g_wf. by apply (qwf_succ N), (g_wf i). }
  assert (∀ j, j ∈ bs_bits (mAllSuccessors q) ↔ edge i j) as Hedge.
  { intros j. rewrite elem_of_bs_bits by done. unfold edge. rewrite Hq. naive_solver. }
  eapply returns_bind.
  { apply (succLoop_returns (scc graph fuel) fuel st i _ []); [apply IH|done|done|by intros j; rewrite Hedge|by rewrite Hlow|].
    pose proof (unseen_push st i HiN Hx (li_frame _ _ _ _ _ HL) (li_idx _ _ _ _ _ HL) (ti_index _ Hi)). lia. }
  intros [] st1 (D & HD & HL1).
  assert (∀ j, edge i j → j ∈ D) as Hall by (intros j Hj; apply HD; right; by apply Hedge).
  pose proof (li_inv _ _ _ _ _ HL1) as Hi1.
  apply (returns_bind _ _ _ _ (λ v s', tNodes st1 !! i = Some v ∧ s' = st1)); [by apply node_at_returns|].
  intros v s' [Hv ->].
  assert (low st1 i = mLowLink v) as <- by (unfold low; by rewrite Hv).
  assert (idx st1 i = mIndex v) as <- by (unfold idx; by rewrite Hv).
  destruct (Z.eqb_spec (low st1 i) (idx st1 i)) as [Heq|Hne].
  2: { apply returns_ret. by eapply stay_post. }
  apply (returns_bind _ _ _ _ (λ s s', s = st1 ∧ s' = st1)); [done|]. intros s s' [-> ->].
  rewrite Heq in HL1. destruct (li_seg _ _ _ _ _ HL1) as (seg & Hstk & Hseg).
  eapply returns_bind.
  { apply (popLoop_returns _ i seg (tStack st)); [apply Hi1|done| | |auto with bs| |].
    - intros Hin. pose proof (ti_sorted _ Hi1) as Hs. rewrite Hstk in Hs.
      apply StronglySorted_app in Hs as (Hsi & _ & _). specialize (Hsi i i Hin ltac:(by left)). simpl in Hsi. lia.
    - intros x Hxs. apply (ti_stack _ Hi1). rewrite Hstk. apply elem_of_app in Hxs as [?| ->%list_elem_of_singleton];
        apply elem_of_app; [by left|right; by left].
    - apply set_tight; [apply bs_new_wf|done].
    - rewrite Hstk, length_app. simpl. lia. }
  intros c st2 (Hcw & Hct & HcP & Hs2 & Hix2 & Hscc2 & Hlen2 & Hn2).
  unfold returns, wp, modify. eapply (emit_post st st1 i D seg Hi HL1 Hall Hstk Hseg (bs_copy c)); [| |done].
  - split_and!; [auto with bs|apply copy_tight; [apply Hcw|done]|]. intros x.
    rewrite bset_copy, HcP, bset_set, bset_new by apply bs_new_wf.
    rewrite elem_of_union, elem_of_singleton, elem_of_app, list_elem_of_singleton. split; [|tauto].
    intros [?|[?|?%elem_of_empty]]; [done|tauto|done].
  - cbn [tStack tIndex tSCCs tNodes]. rewrite Hscc2. done.
Qed.

(** ** The whole calculation *)

Lemma roots_returns l st :
  tinv st → tStack st = [] → (∀ i, i ∈ l → (i < N)%nat) →
  returns (roots graph l) st (λ _ st', tinv st' ∧ tStack st' = [] ∧ tframe st st' ∧
    ∀ i, i ∈ l → idx st' i ≠ -1).
Proof.
  revert st. induction l as [|i l IH]; intros st Hi Hs Hl; simpl.
  { apply returns_ret. split_and!; [done|done|apply tframe_refl|]. intros i Hin. by apply not_elem_of_nil in Hin. }
  assert (i < N)%nat as HiN by (apply Hl; by left).
  apply (returns_bind _ _ _ _ (λ v s', tNodes st !! i = Some v ∧ s' = st)); [by apply node_at_returns|].
  intros v s' [Hv ->]. assert (idx st i = mIndex v) as Hx by (unfold idx; by rewrite Hv).
  apply (returns_bind _ _ _ _ (λ _ st1, tinv st1 ∧ tStack st1 = [] ∧ tframe st st1 ∧ idx st1 i ≠ -1)).
  - destruct (Z.eqb_spec (mIndex v) (-1)) as [Hnew|Hold].
    + eapply returns_mono; [apply (scc_returns _ i st Hi HiN); [congruence|]|].
      { etrans; [apply (subseteq_size _ (set_seq 0 N))|].
        - intros k [_ Hk]%elem_of_unseen. apply elem_of_set_seq. lia.
        - by rewrite size_set_seq. }
      intros [] st1 [Pi Pf Px (seg & Hseg & _ & Hcase)]. rewrite Hs, app_nil_r in Hseg.
      split_and!; [done| |done|rewrite Px; pose proof (ti_index _ Hi); lia].
      destruct Hcase as [(-> & _)|(_ & _ & y & Hy & _)]; [done|]. rewrite Hs in Hy.
      by apply not_elem_of_nil in Hy.
    + apply returns_ret. split_and!; [done|done|apply tframe_refl|congruence].
  - intros [] st1 (Hi1 & Hs1 & Hf1 & Hx1).
    eapply returns_mono; [apply (IH st1 Hi1 Hs1); intros j Hj; apply Hl; by right|].
    intros [] st2 (Hi2 & Hs2 & Hf2 & Hx2). split_and!; [done|done|by eapply tframe_trans|].
    intros j [-> |Hj]%elem_of_cons; [|by apply Hx2]. by rewrite (tframe_idx st1 st2).
Qed.

Definition start : TarjanState := mkTarjan (replicate N (mkSCCNode (-1) (-1) false)) [] 0 [].

Lemma start_inv : tinv start.
Proof.
  assert (∀ i, idx start i = -1) as Hx.
  { intros i. unfold idx, start. cbn [tNodes]. destruct (replicate _ _ !! i) eqn:E; [|done].
    by apply lookup_replicate in E as [-> _]. }
  split.
  - apply length_replicate.
  - intros i n [-> _]%lookup_replicate. simpl. split; [done|]. intros Hi. by apply not_elem_of_nil in Hi.
  - intros i Hi. by apply not_elem_of_nil in Hi.
  - constructor.
  - intros i _. rewrite Hx. split; [done|]. intros [Hi|(c & Hc & _)]; [by apply not_elem_of_nil in Hi|].
    by apply not_elem_of_nil in Hc.
  - split.
    + intros c Hc. by apply not_elem_of_nil in Hc.
    + intros c i Hc. by apply not_elem_of_nil in Hc.
    + intros c i j Hc. by apply not_elem_of_nil in Hc.
    + intros k c i j Hk. simpl in Hk. by rewrite lookup_nil in Hk.
    + intros k c k' c' i Hk. simpl in Hk. by rewrite lookup_nil in Hk.
  - simpl. lia.
Qed.

Lemma calculateSCCs_returns st :
  returns (calculateSCCs graph) st (λ _ st', sccs_ok (tSCCs st') ∧
    ∀ i, (i < N)%nat → ∃ c, c ∈ tSCCs st' ∧ i ∈ bset c).
Proof.
  apply (returns_bind _ _ _ _ (λ _ s', s' = start)); [done|]. intros _ s' ->.
  eapply returns_mono; [apply (roots_returns _ start start_inv); [done|]|].
  { intros i [_ Hi]%elem_of_seq. done. }
  intros [] st1 (Hi & Hs & _ & Hx). split; [apply Hi|]. intros i HiN.
  destruct (proj1 (ti_seen _ Hi i HiN)) as [Hst|He]; [apply Hx, elem_of_seq; lia| |done].
  rewrite Hs in Hst. by apply not_elem_of_nil in Hst.
Qed.

(** Components are closed under mutual reachability. *)
Lemma reach_earlier l k c i j :
  sccs_ok l → l !! k = Some c → i ∈ bset c → reach i j →
  ∃ k' c', (k' <= k)%nat ∧ l !! k' = Some c' ∧ j ∈ bset c'.
Proof.
  intros Hl Hk Hi Hr. revert k c Hk Hi. induction Hr as [i|i x j He _ IH]; intros k c Hk Hi.
  - by exists k, c.
  - destruct (so_edge _ Hl k c i x Hk Hi He) as (k1 & c1 & Hle & Hk1 & Hx).
    destruct (IH k1 c1 Hk1 Hx) as (k2 & c2 & Hle2 & Hk2 & Hj). exists k2, c2. split_and!; [lia|done|done].
Qed.

Lemma scc_mutual l c i j :
  sccs_ok l → c ∈ l → i ∈ bset c → reach i j → reach j i → j ∈ bset c.
Proof.
  intros Hl [k Hk]%list_elem_of_lookup Hi Hij Hji.
  destruct (reach_earlier l k c i j Hl Hk Hi Hij) as (k1 & c1 & Hle1 & Hk1 & Hj).
  destruct (reach_earlier l k1 c1 j i Hl Hk1 Hj Hji) as (k2 & c2 & Hle2 & Hk2 & Hi2).
  pose proof (so_disj _ Hl k2 c2 k c i Hk2 Hk Hi2 Hi). assert (k1 = k) as -> by lia.
  by simplify_eq.
Qed.

(** The largest component. *)
Lemma largestSCC_spec l mx :
  (∀ c, c ∈ l → bs_wf c ∧ tight (mPtr c)) → bs_wf mx → tight (mPtr mx) →
  let r := largestSCC l mx in
  bs_wf r ∧ tight (mPtr r) ∧ (bset r = bset mx ∨ ∃ c, c ∈ l ∧ bset r = bset c) ∧
  (size (bset mx) <= size (bset r))%nat ∧ ∀ c, c ∈ l → (size (bset c) <= size (bset r))%nat.
Proof.
  revert mx. induction l as [|c l IH]; intros mx Hl Hmx Ht; simpl.
  { split_and!; [done|done|by left|done|]. intros c Hc. by apply not_elem_of_nil in Hc. }
  destruct (Hl c) as [Hcw Hct]; [by left|].
  assert (∀ c, c ∈ l → bs_wf c ∧ tight (mPtr c)) as Hl' by (intros; apply Hl; by right).
  destruct (Nat.ltb_spec (bs_card mx) (bs_card c)) as [Hlt|Hge]; rewrite !bs_card_spec in * by done.
  - destruct (IH (bs_assign c)) as (R1 & R2 & R3 & R4 & R5); [done|auto with bs|apply copy_tight; [apply Hcw|done]|].
    rewrite bset_assign in *. split_and!; [done|done| |lia|].
    + right. destruct R3 as [->|(c' & Hc' & ->)]; [exists c; split; [by left|done]|exists c'; split; [by right|done]].
    + intros c' [-> |Hc']%elem_of_cons; [done|by apply R5].
  - destruct (IH mx) as (R1 & R2 & R3 & R4 & R5); [done|done|done|]. split_and!; [done|done| |done|].
    + destruct R3 as [?|(c' & Hc' & ->)]; [by left|]. right. exists c'. split; [by right|done].
    + intros c' [-> |Hc']%elem_of_cons; [lia|by apply R5].
Qed.

(** Everything the search needs to know about the components. *)
Lemma buildSCCs_spec :
  ∃ sccs mx, buildSCCs graph = Some (sccs, mx) ∧ sccs_ok sccs ∧
    (∀ i, (i < N)%nat → ∃ c, c ∈ sccs ∧ i ∈ bset c) ∧
    bs_wf mx ∧ tight (mPtr mx) ∧
    ((sccs = [] ∧ bset mx = ∅) ∨ ∃ c, c ∈ sccs ∧ bset mx = bset c) ∧
    ∀ c, c ∈ sccs → (size (bset c) <= size (bset mx))%nat.
Proof.
  pose proof (calculateSCCs_returns (mkTarjan [] [] 0 [])) as Hc. apply returns_Ok in Hc as ([] & st & E & Hok & Hcov).
  unfold buildSCCs. rewrite E. eexists _, _. split; [done|].
  destruct (largestSCC_spec (tSCCs st) (bs_clear bs_new)) as (R1 & R2 & R3 & R4 & R5).
  { intros c Hin. destruct (so_wf _ Hok c Hin) as (? & ? & _). done. }
  { auto with bs. }
  { done. }
  rewrite bset_clear in R3 by apply bs_new_wf. split_and!; [done|done|done|done| |done].
  destruct R3 as [He|Hex]; [|by right].
  destruct (tSCCs st) as [|c l] eqn:El; [by left|]. right. exists c. split; [by left|].
  exfalso. destruct (so_wf _ Hok c) as (_ & _ & Hne); [by left|].
  specialize (R5 c ltac:(by left)). rewrite He, size_empty in R5.
  apply Hne. apply leibniz_equiv, size_empty_inv. lia.
Qed.
End Spec.

(** ** Theorem *)

(** C23: on every well-formed graph the calculation terminates without an exception, and its result is the
    decomposition into strongly connected components: every node is in exactly one of them,
    two nodes are together exactly when each can be reached from the other, an edge never
    leads to a later component, and the component that [buildSCCs] keeps is one of the largest. *)
Theorem tarjan_correct `{Malloc} graph (Hg : Forall (qwf (length graph)) graph) :
  ∃ sccs mx, buildSCCs graph = Some (sccs, mx) ∧
    (∀ i, (i < length graph)%nat → exists! k, ∃ c, sccs !! k = Some c ∧ i ∈ bset c) ∧
    (∀ c i j, c ∈ sccs → i ∈ bset c →
       j ∈ bset c ↔ rtc (edge graph) i j ∧ rtc (edge graph) j i) ∧
    (∀ k c i j, sccs !! k = Some c → i ∈ bset c → edge graph i j →
       ∃ k' c', (k' <= k)%nat ∧ sccs !! k' = Some c' ∧ j ∈ bset c') ∧
    (∀ c, c ∈ sccs → (size (bset c) <= size (bset mx))%nat) ∧
    (graph ≠ [] → ∃ c, c ∈ sccs ∧ bset mx = bset c).
Proof.
  destruct (buildSCCs_spec graph Hg) as (sccs & mx & E & Hok & Hcov & _ & _ & Hmx & Hlarge).
  exists sccs, mx. split_and!; [done| | |apply Hok|done|].
  - intros i Hi. destruct (Hcov i Hi) as (c & [k Hk]%list_elem_of_lookup & Hin). exists k. split; [by exists c|].
    intros k' (c' & Hk' & Hin'). by eapply (so_disj _ _ Hok).
  - intros c i j Hc Hi. split.
    + intros Hj. split; by eapply (so_reach _ _ Hok).
    + intros [? ?]. by eapply scc_mutual.
  - intros Hne. destruct Hmx as [[-> _]|?]; [|done]. exfalso. destruct graph as [|q graph]; [done|].
    destruct (Hcov 0%nat) as (c & Hc & _); [simpl; lia|]. by apply not_elem_of_nil in Hc.
Qed.

(** Two nodes that need each other, and a third that needs the second. *)
Definition sampleGraph : list QBitSet :=
  let needs i := newQBitSet 1 (bs_set bs_new i) [] in [needs 1%nat; needs 0%nat; needs 1%nat].

Lemma sampleGraph_wf : Forall (qwf (length sampleGraph)) sampleGraph.
Proof.
  assert (∀ i, (i < 3)%nat → qwf 3 (newQBitSet 1 (bs_set bs_new i) [])) as Hq.
  { intros i Hi. unfold newQBitSet. cbn [qwf foldr map]. split_and!; [auto with bs| | | |done].
    - apply (bset_getSuccessors (bs_set bs_new i) []); [auto with bs|constructor].
    - rewrite bset_copy. apply (bset_getSuccessors (bs_set bs_new i) []); [auto with bs|constructor].
    - change (getSuccessors (bs_set bs_new i) []) with (bs_copy (bs_set bs_new i)).
      rewrite bset_copy, bset_set, bset_new by apply bs_new_wf.
      intros x [-> %elem_of_singleton|?%elem_of_empty]%elem_of_union; [lia|done]. }
  change (length sampleGraph) with 3%nat. unfold sampleGraph.
  do 3 (apply Forall_cons; split; [apply Hq; lia|]). apply Forall_nil. done.
Qed.

Lemma tarjan_correct_witness :
  ∃ sccs mx, buildSCCs sampleGraph = Some (sccs, mx) ∧ map bs_bits sccs = [[0; 1]; [2]]%nat ∧
    rtc (edge sampleGraph) 0%nat 1%nat ∧ bs_bits mx = [0; 1]%nat.
Proof.
  destruct (tarjan_correct sampleGraph sampleGraph_wf) as (sccs & mx & E & _ & Hm & _).
  pose proof E as E'. vm_compute in E'. injection E' as Es Em.
  exists sccs, mx. split_and!; [done|subst sccs; vm_compute; reflexivity| |subst mx; vm_compute; reflexivity].
  destruct (sccs !! 0%nat) as [c|] eqn:Ec; [|by subst sccs].
  apply (Hm c 0%nat 1%nat); [by eapply list_elem_of_lookup_2| |];
    (subst sccs; injection Ec as <-; apply bs_get_spec; vm_compute; reflexivity).
Defined.
