(* ===== verification/QuorumSearch.v ===== *)
(** * The search of the quorum intersection checker

    From [herder/QuorumIntersectionCheckerImpl.cpp]: contraction to the maximal quorum, minimal
    quorums, the branch and bound enumeration of minimal quorums ([MinQuorumEnumerator]) and the
    top-level answer [networkEnjoysQuorumIntersection]. Log output is left out; the statistics, the
    reported split and the number of random draws are the state. *)
From stdpp Require Import base list gmap strings.
From Stdlib Require Import ZArith Lia.
From S2P Require Import Prelude QuorumSet CBitset CBitsetSpec BitSets QuorumGraph.
#[local] Open Scope nat_scope.

(** ** State *)

(** The counters of [struct Stats] that change during the search. *)
Inductive counter :=
| CallsStarted | FirstRecursionsTaken | SecondRecursionsTaken | MaxQuorumsSeen | MinQuorumsSeen
| Terminations | EarlyExit1s | EarlyExit21s | EarlyExit22s | EarlyExit31s | EarlyExit32s.
#[global] Instance counter_eq_dec : EqDecision counter.
Proof. solve_decision. Defined.

Record QState := mkQState {
  mStats : counter → nat;
  mPotentialSplit : list NodeID * list NodeID;
  mDraws : nat }.

Definition inc (c : counter) : M QState unit :=
  modify (λ s, mkQState (λ c', if decide (c' = c) then S (mStats s c') else mStats s c')
                        (mPotentialSplit s) (mDraws s)).
Definition setSplit (p : list NodeID * list NodeID) : M QState unit :=
  modify (λ s, mkQState (mStats s) p (mDraws s)).

(** [std::vector::at] *)
Definition vec_at {A} (l : list A) (i : nat) : M QState A :=
  match l !! i with Some x => mret x | None => throw "out_of_range" end.

(** The object during a check: everything that [buildGraph] and [buildSCCs] have computed; [rand_uniform n lo hi] is
    the n-th random draw, [ndebug] says whether assertions are compiled out. *)
Record QIC := mkQIC {
  qic_graph : Graph;
  mSCCs : list BitSet;
  mMaxSCC : BitSet;
  rand_uniform : nat → nat → nat → nat;
  ndebug : bool }.

Section Checker.
Context `{Malloc} (qic : QIC).
Let g := mGraph (qic_graph qic).

(** ** Quorums *)

Definition containsQuorumSliceForNode (bs : BitSet) (node : nat) : M QState bool :=
  if negb (bs_get bs node) then mret false else
  q ← vec_at g node;
  mret (containsQuorumSlice bs q).

(** The [for] loop of [contractToMaximalQuorum]. *)
Fixpoint filterLoop (nodes : BitSet) (l : list nat) (filtered : BitSet) : M QState BitSet :=
  match l with
  | [] => mret filtered
  | i :: l =>
    b ← containsQuorumSliceForNode nodes i;
    filterLoop nodes l (if b : bool then bs_set filtered i else filtered)
  end.

Fixpoint contractLoop (fuel : nat) (nodes : BitSet) : M QState BitSet :=
  match fuel with
  | O => nofuel
  | S fuel =>
    filtered ← filterLoop nodes (bs_bits nodes) (bs_sized (bs_card nodes));
    if (bs_card filtered =? bs_card nodes) || bs_empty filtered then
      _ ← (if bs_bool filtered then inc MaxQuorumsSeen else mret tt);
      mret filtered
    else contractLoop fuel (bs_assign filtered)
  end.
Definition contractToMaximalQuorum (nodes : BitSet) : M QState BitSet :=
  contractLoop (S (bs_card nodes)) (bs_copy nodes).

Definition isAQuorum (nodes : BitSet) : M QState bool :=
  q ← contractToMaximalQuorum nodes; mret (bs_bool q).

Fixpoint minimalLoop (l : list nat) (minQ : BitSet) : M QState bool :=
  match l with
  | [] => _ ← inc MinQuorumsSeen; mret true
  | i :: l =>
    let minQ := bs_unset minQ i in
    b ← isAQuorum minQ;
    if b : bool then mret false else minimalLoop l (bs_set minQ i)
  end.
Definition isMinimalQuorum (nodes : BitSet) : M QState bool :=
  _ ← (if ndebug qic then mret tt else
       q ← contractToMaximalQuorum nodes;
       if bs_equal q nodes then mret tt else crash "assert");
  if negb (bs_bool nodes) then mret false else
  minimalLoop (bs_bits nodes) (bs_copy nodes).

Fixpoint noteNodes (l : list nat) (acc : list NodeID) : M QState (list NodeID) :=
  match l with
  | [] => mret acc
  | i :: l => k ← vec_at (mBitNumPubKeys (qic_graph qic)) i; noteNodes l (acc ++ [k])
  end.
Definition noteFoundDisjointQuorums (nodes disj : BitSet) : M QState unit :=
  _ ← setSplit ([], []);
  first ← noteNodes (bs_bits nodes) [];
  _ ← setSplit (first, []);
  second ← noteNodes (bs_bits disj) [];
  setSplit (first, second).

Definition hasDisjointQuorum (nodes : BitSet) : M QState bool :=
  disj ← contractToMaximalQuorum (bs_diff (mMaxSCC qic) nodes);
  _ ← (if bs_bool disj then noteFoundDisjointQuorums nodes disj else mret tt);
  mret (bs_bool disj).

(** ** Enumeration of minimal quorums *)

(** The locals of [pickSplitNode]. *)
Record Pick := mkPick { inDegrees : list nat; maxNode : nat; maxCount : nat; maxDegree : nat }.

Definition draw (lo hi : nat) : M QState nat :=
  s ← get;
  _ ← modify (λ s, mkQState (mStats s) (mPotentialSplit s) (S (mDraws s)));
  mret (rand_uniform qic (mDraws s) lo hi).

Definition pickEdge (p : Pick) (j : nat) : M QState Pick :=
  d ← vec_at (inDegrees p) j;
  let currDegree := S d in
  let p := mkPick (<[j := currDegree]> (inDegrees p)) (maxNode p) (maxCount p) (maxDegree p) in
  if maxDegree p <=? currDegree then
    if currDegree =? maxDegree p then
      let p := mkPick (inDegrees p) (maxNode p) (S (maxCount p)) (maxDegree p) in
      r ← draw 0 (maxCount p);
      if r =? 0 then mret p
      else mret (mkPick (inDegrees p) j (maxCount p) currDegree)
    else mret (mkPick (inDegrees p) j 1 currDegree)
  else mret p.
Fixpoint pickEdges (p : Pick) (l : list nat) : M QState Pick :=
  match l with [] => mret p | j :: l => p ← pickEdge p j; pickEdges p l end.
Fixpoint pickNodes (mRemaining : BitSet) (p : Pick) (l : list nat) : M QState Pick :=
  match l with
  | [] => mret p
  | i :: l =>
    q ← vec_at g i;
    let avail := bs_inter (mAllSuccessors q) mRemaining in
    p ← pickEdges p (bs_bits avail);
    pickNodes mRemaining p l
  end.
Definition pickSplitNode (mRemaining : BitSet) : M QState nat :=
  _ ← (if negb (ndebug qic) && bs_empty mRemaining then crash "assert" else mret tt);
  p ← pickNodes mRemaining (mkPick (replicate (length g) 0) (bs_max mRemaining) 1 0) (bs_bits mRemaining);
  mret (maxNode p).

Definition maxCommit : nat := bs_card (mMaxSCC qic) / 2 + 1.

(** [MinQuorumEnumerator(mCommitted, mRemaining).anyMinQuorumHasDisjointQuorum()]; the constructor
    copies both sets and computes the perimeter. *)
Fixpoint anyMinQuorumHasDisjointQuorum (fuel : nat) (committed remaining : BitSet) : M QState bool :=
  match fuel with
  | O => nofuel
  | S fuel =>
    let mCommitted := bs_copy committed in
    let mRemaining := bs_copy remaining in
    let mPerimeter := bs_union committed remaining in
    _ ← inc CallsStarted;
    if maxCommit <? bs_card mCommitted then _ ← inc EarlyExit1s; mret false else
    committedQuorum ← contractToMaximalQuorum mCommitted;
    if bs_bool committedQuorum then
      b ← isMinimalQuorum committedQuorum;
      if b : bool then _ ← inc EarlyExit31s; hasDisjointQuorum committedQuorum
      else _ ← inc EarlyExit32s; mret false
    else
    extensionQuorum ← contractToMaximalQuorum mPerimeter;
    if bs_bool extensionQuorum && negb (bs_isSubsetEq mCommitted extensionQuorum) then
      _ ← inc EarlyExit22s; mret false
    else if negb (bs_bool extensionQuorum) then _ ← inc EarlyExit21s; mret false
    else if negb (bs_bool mRemaining) then _ ← inc Terminations; mret false
    else
    split ← pickSplitNode mRemaining;
    let mRemaining := bs_unset mRemaining split in
    _ ← inc FirstRecursionsTaken;
    b ← anyMinQuorumHasDisjointQuorum fuel mCommitted mRemaining;
    if b : bool then mret true else
    let mCommitted := bs_set mCommitted split in
    _ ← inc SecondRecursionsTaken;
    anyMinQuorumHasDisjointQuorum fuel mCommitted mRemaining
  end.

(** ** The answer *)

(** The loop over the strongly connected components: whether it found a quorum outside of the
    maximal one. *)
Fixpoint sccLoop (l : list BitSet) : M QState bool :=
  match l with
  | [] => mret false
  | scc :: l =>
    if bs_equal scc (mMaxSCC qic) then sccLoop l else
    other ← contractToMaximalQuorum scc;
    if bs_bool other then
      q ← contractToMaximalQuorum (mMaxSCC qic);
      _ ← noteFoundDisjointQuorums q other;
      mret true
    else sccLoop l
  end.

Definition networkEnjoysQuorumIntersection : M QState bool :=
  foundDisjoint ← sccLoop (mSCCs qic);
  q ← contractToMaximalQuorum (mMaxSCC qic);
  if negb (bs_bool q) then mret true else
  foundDisjoint ← (if foundDisjoint : bool then mret true else
    anyMinQuorumHasDisjointQuorum (S (bs_card (mMaxSCC qic))) bs_new (bs_copy (mMaxSCC qic)));
  mret (negb foundDisjoint).
End Checker.
