(* ===== verification/QuorumSearchSpec.v ===== *)
(** * What the search of the quorum intersection checker computes

    Quorums on finite sets of node numbers, and the correctness of [QuorumSearch]: contraction
    yields the greatest quorum inside a set, the enumerator finds disjoint quorums in the
    maximal component exactly when they exist, and never gets stuck. *)
From stdpp Require Import base list gmap strings.
From Stdlib Require Import ZArith Lia.
From S2P Require Import Prelude QuorumSet CBitset CBitsetSpec BitSets QuorumGraph QuorumSearch.
#[local] Open Scope nat_scope.

(** ** Sets *)

Lemma subset_missing (X Y : gset nat) : Y ⊆ X → Y ≠ X → ∃ i, i ∈ X ∧ i ∉ Y.
Proof.
  intros HYX Hne. destruct (set_choose_or_empty (X ∖ Y)) as [[i Hi]|He].
  - apply elem_of_difference in Hi. by exists i.
  - exfalso. apply Hne, set_eq. intros i. split; [apply HYX|]. intros Hi.
    destruct (decide (i ∈ Y)); [done|]. exfalso. apply (not_elem_of_empty (C:=gset nat) i), He. by apply elem_of_difference.
Qed.
Lemma subset_size_eq (X Y : gset nat) : Y ⊆ X → size X ≤ size Y → Y = X.
Proof.
  intros HYX Hs. destruct (decide (Y = X)) as [|Hne]; [done|].
  destruct (subset_missing X Y HYX Hne) as (i & Hi & HiY).
  assert (size Y < size X); [|lia]. apply subset_size. split; [done|]. intros Hs'. by apply HiY, Hs'.
Qed.
Lemma remove_subseteq (X Y : gset nat) i : Y ⊆ X → i ∉ Y → Y ⊆ X ∖ {[i]}.
Proof.
  intros HYX Hi j Hj. apply elem_of_difference. split; [by apply HYX|].
  intros ->%elem_of_singleton. done.
Qed.
Lemma remove_size (X : gset nat) i : i ∈ X → S (size (X ∖ {[i]})) = size X.
Proof.
  intros Hi. rewrite size_difference by (intros j ->%elem_of_singleton; done).
  rewrite size_singleton. assert (size X ≠ 0); [|lia]. intros H0%size_empty_inv. set_solver.
Qed.

(** ** Quorums *)

Section Quorums.
Variable g : list QBitSet.
Implicit Types X Y Z : gset nat.

Definition hasSlice X (i : nat) : bool :=
  match g !! i with Some q => sliceOf X q | None => false end.
(** Every node of the set has a slice in it. *)
Definition selfSlicing X : Prop := ∀ i, i ∈ X → hasSlice X i = true.
Definition quorum X : Prop := X ≠ ∅ ∧ selfSlicing X.
Definition minimalQuorum X : Prop := quorum X ∧ ∀ Y, quorum Y → Y ⊆ X → Y = X.
(** [Y] is the greatest quorum inside [X], or empty when there is none. *)
Definition maxQuorum X Y : Prop := Y ⊆ X ∧ selfSlicing Y ∧ ∀ Z, Z ⊆ X → selfSlicing Z → Z ⊆ Y.

Lemma hasSlice_mono X Y i : X ⊆ Y → hasSlice X i = true → hasSlice Y i = true.
Proof. unfold hasSlice. destruct (g !! i); [|done]. apply sliceOf_mono. Qed.

Lemma selfSlicing_empty : selfSlicing ∅.
Proof. intros i Hi. set_solver. Qed.

Lemma selfSlicing_union X Y : selfSlicing X → selfSlicing Y → selfSlicing (X ∪ Y).
Proof.
  intros HX HY i [Hi|Hi]%elem_of_union.
  - apply (hasSlice_mono X); [set_solver|auto].
  - apply (hasSlice_mono Y); [set_solver|auto].
Qed.

Lemma maxQuorum_empty X Y : maxQuorum X Y → Y = ∅ ↔ ¬ ∃ Z, quorum Z ∧ Z ⊆ X.
Proof.
  intros (HYX & HY & Hmax). split.
  - intros -> (Z & [Hne HZ] & HZX). apply Hne. specialize (Hmax Z HZX HZ). set_solver.
  - intros Hno. destruct (decide (Y = ∅)) as [|Hne]; [done|]. exfalso. apply Hno. by exists Y.
Qed.

Lemma maxQuorum_nonempty X Y : maxQuorum X Y → Y ≠ ∅ ↔ ∃ Z, quorum Z ∧ Z ⊆ X.
Proof.
  intros (HYX & HY & Hmax). split.
  - intros Hne. by exists Y.
  - intros (Z & [Hne HZ] & HZX) ->. apply Hne. specialize (Hmax Z HZX HZ). set_solver.
Qed.

Lemma maxQuorum_fixed X : selfSlicing X → maxQuorum X X.
Proof. intros HX. by split_and!. Qed.

Lemma maxQuorum_unique X Y Y' : maxQuorum X Y → maxQuorum X Y' → Y = Y'.
Proof. intros (H1 & H2 & H3) (H1' & H2' & H3'). apply set_eq. set_solver. Qed.

Lemma maxQuorum_filter X Y W :
  (∀ i, i ∈ Y ↔ i ∈ X ∧ hasSlice X i = true) → maxQuorum Y W → maxQuorum X W.
Proof.
  intros HY (HWY & HW & Hmax). split_and!; [set_solver|done|].
  intros Z HZX HZ. apply Hmax; [|done]. intros i Hi. apply HY. split; [by apply HZX|].
  apply (hasSlice_mono Z); auto.
Qed.

(** The greatest quorum, by iteration. *)
Fixpoint shrink (n : nat) X : gset nat :=
  match n with
  | O => X
  | S n => shrink n (filter (λ i, hasSlice X i = true) X)
  end.

Lemma shrink_maxQuorum n X : size X ≤ n → maxQuorum X (shrink n X).
Proof.
  revert X. induction n as [|n IH]; intros X Hn; simpl.
  { apply maxQuorum_fixed. assert (X = ∅) as -> by (apply leibniz_equiv, size_empty_iff; lia).
    apply selfSlicing_empty. }
  set (Y := filter _ X). assert (∀ i, i ∈ Y ↔ i ∈ X ∧ hasSlice X i = true) as HY by set_solver.
  apply (maxQuorum_filter X Y); [done|].
  destruct (decide (Y = X)) as [Heq|Hne].
  - assert (selfSlicing X) as Hs by (intros i Hi; rewrite <- Heq in Hi; by apply HY in Hi as [_ ?]).
    assert (∀ m, shrink m X = X) as Hfix.
    { intros m. clear IH. induction m as [|m IHm]; simpl; [done|].
      change (shrink m Y = X). by rewrite Heq. }
    rewrite Heq, Hfix. by apply maxQuorum_fixed.
  - apply IH. assert (¬ size X ≤ size Y); [|lia]. intros Hs. apply Hne, subset_size_eq; [|done].
    intros i Hi. by apply HY.
Qed.

(** Every quorum contains a minimal one. *)
Lemma minimal_exists X : quorum X → ∃ Y, minimalQuorum Y ∧ Y ⊆ X.
Proof.
  induction (fin_sets.set_wf X) as [X _ IH]. intros HX.
  destruct (decide (set_Exists (λ i, shrink (size X) (X ∖ {[i]}) ≠ ∅) X)) as [(i & Hi & Hq)|Hno].
  - destruct (shrink_maxQuorum (size X) (X ∖ {[i]})) as (Hsub & Hs & _).
    { rewrite <- (remove_size X i Hi). lia. }
    assert (shrink (size X) (X ∖ {[i]}) ⊆ X) as HsX by (intros j Hj; by apply Hsub, elem_of_difference in Hj as [? _]).
    destruct (IH (shrink (size X) (X ∖ {[i]}))) as (Y & HY & HYX); [|done|].
    + split; [done|]. intros Hc. apply Hc, Hsub, elem_of_difference in Hi as [_ Hi]. by apply Hi, elem_of_singleton.
    + exists Y. split; [done|]. by etrans.
  - exists X. split; [|done]. split; [done|]. intros Y HY HYX.
    destruct (decide (Y = X)) as [|Hne]; [done|]. exfalso. apply Hno.
    destruct (subset_missing X Y HYX Hne) as (i & Hi & HiY).
    exists i. split; [done|]. apply (maxQuorum_nonempty (X ∖ {[i]})).
    + apply shrink_maxQuorum. rewrite <- (remove_size X i Hi). lia.
    + exists Y. split; [done|]. by apply remove_subseteq.
Qed.
End Quorums.

(** ** The search *)

Section Search.
Context `{Malloc} (qic : QIC).
Let g := mGraph (qic_graph qic).
Let keys := mBitNumPubKeys (qic_graph qic).

(** A set of existing nodes. *)
Definition nodes_ok (b : BitSet) : Prop := bs_wf b ∧ ∀ i, i ∈ bset b → i < length g.

Lemma nodes_ok_sub b c : bs_wf b → bset b ⊆ bset c → nodes_ok c → nodes_ok b.
Proof. intros Hb Hs [_ Hc]. split; [done|]. intros i Hi. by apply Hc, Hs. Qed.

Lemma vec_at_returns {A} (l : list A) i s (Q : A → QState → Prop) :
  i < length l → (∀ x, l !! i = Some x → Q x s) → returns (vec_at l i) s Q.
Proof.
  intros Hi HQ. unfold vec_at. destruct (lookup_lt_is_Some_2 l i Hi) as [x Hx]. rewrite Hx. by apply HQ.
Qed.

Lemma sliceForNode_returns bs i s (Q : bool → QState → Prop) :
  nodes_ok bs → i ∈ bset bs → Q (hasSlice g (bset bs) i) s → returns (containsQuorumSliceForNode qic bs i) s Q.
Proof.
  intros [Hb Hlt] Hi HQ. unfold containsQuorumSliceForNode.
  rewrite (proj2 (bs_get_spec bs i) Hi). cbn [negb].
  apply (returns_bind _ _ _ _ (λ q s', g !! i = Some q ∧ s' = s)); [by apply vec_at_returns; auto|].
  intros q s' [Hq ->]. apply returns_ret. rewrite containsQuorumSlice_spec.
  unfold hasSlice in HQ. by rewrite Hq in HQ.
Qed.

Lemma filterLoop_returns nodes l filtered s :
  nodes_ok nodes → (∀ i, i ∈ l → i ∈ bset nodes) → bs_wf filtered →
  returns (filterLoop qic nodes l filtered) s (λ r s', s' = s ∧ bs_wf r ∧
    ∀ i, i ∈ bset r ↔ (i ∈ l ∧ hasSlice g (bset nodes) i = true) ∨ i ∈ bset filtered).
Proof.
  intros Hn. revert filtered. induction l as [|j l IH]; intros filtered Hl Hf; simpl.
  { apply returns_ret. split_and!; [done|done|]. intros i. rewrite elem_of_nil. tauto. }
  assert (∀ i, i ∈ l → i ∈ bset nodes) as Hl' by (intros i Hi; apply Hl; by right).
  eapply returns_bind.
  { apply (sliceForNode_returns _ _ _ (λ b s', b = hasSlice g (bset nodes) j ∧ s' = s)); [done|apply Hl; by left|done]. }
  intros b s' [-> ->]. destruct (hasSlice g (bset nodes) j) eqn:E.
  - eapply returns_mono; [apply IH; [done|auto with bs]|].
    intros r s' (-> & Hr & Hi). split_and!; [done|done|]. intros i.
    rewrite Hi, bset_set, elem_of_cons, elem_of_union, elem_of_singleton by done.
    split; [intros [?|[->|?]]; tauto|intros [[[->|?] ?]|?]; tauto].
  - eapply returns_mono; [apply IH; [done|done]|].
    intros r s' (-> & Hr & Hi). split_and!; [done|done|]. intros i.
    rewrite Hi, elem_of_cons. split; [tauto|]. intros [[[->|?] ?]|?]; [congruence|tauto|tauto].
Qed.

(** The state after a call that only counts. *)
Definition same_split (s s' : QState) : Prop := mPotentialSplit s' = mPotentialSplit s.

Lemma contractLoop_returns fuel nodes s :
  nodes_ok nodes → size (bset nodes) < fuel →
  returns (contractLoop qic fuel nodes) s (λ r s', same_split s s' ∧ bs_wf r ∧ maxQuorum g (bset nodes) (bset r)).
Proof.
  revert nodes s. induction fuel as [|fuel IH]; intros nodes s Hn Hf; [lia|]. cbn [contractLoop].
  pose proof Hn as [Hb Hlt]. eapply returns_bind.
  { apply filterLoop_returns; [done| |auto with bs]. intros i. by rewrite elem_of_bs_bits. }
  intros r s' (-> & Hr & Hi). rewrite bset_sized in Hi.
  assert (∀ i, i ∈ bset r ↔ i ∈ bset nodes ∧ hasSlice g (bset nodes) i = true) as Hfil.
  { intros i. rewrite Hi, elem_of_bs_bits by done. rewrite elem_of_empty. tauto. }
  assert (bset r ⊆ bset nodes) as Hsub by (intros i [? _]%Hfil; done).
  rewrite !bs_card_spec by done. destruct (Nat.eqb_spec (size (bset r)) (size (bset nodes))) as [Heq|Hne]; cbn [orb].
  - assert (bset r = bset nodes) as Hrn by (apply subset_size_eq; [done|lia]).
    apply (returns_bind _ _ _ _ (λ _ s', same_split s s')); [by destruct (bs_bool r)|].
    intros [] s' Hs'. apply returns_ret. split_and!; [done|done|]. rewrite Hrn. apply maxQuorum_fixed.
    intros i Hin. rewrite <- Hrn in Hin. by apply Hfil.
  - destruct (bs_empty r) eqn:E.
    + apply (returns_bind _ _ _ _ (λ _ s', same_split s s')); [by destruct (bs_bool r)|].
      intros [] s' Hs'. apply returns_ret. split_and!; [done|done|].
      assert (bset r = ∅) as He by (apply bs_bool_false; [done|unfold bs_bool; by rewrite E]).
      apply (maxQuorum_filter g _ (bset r)); [done|]. rewrite He. apply maxQuorum_fixed, selfSlicing_empty.
    + assert (size (bset r) < size (bset nodes)) by (apply subseteq_size in Hsub; lia).
      eapply returns_mono; [apply IH|].
      * apply (nodes_ok_sub _ nodes); [auto with bs|by rewrite bset_assign|done].
      * rewrite bset_assign. lia.
      * intros r' s' (Hs & Hr' & Hm). rewrite bset_assign in Hm. split_and!; [done|done|].
        by apply (maxQuorum_filter g _ (bset r)).
Qed.

Lemma contract_returns nodes s :
  nodes_ok nodes →
  returns (contractToMaximalQuorum qic nodes) s
    (λ r s', same_split s s' ∧ bs_wf r ∧ maxQuorum g (bset nodes) (bset r)).
Proof.
  intros Hn. pose proof Hn as [Hb _]. unfold contractToMaximalQuorum.
  eapply returns_mono; [apply contractLoop_returns|].
  - apply (nodes_ok_sub _ nodes); [auto with bs|by rewrite bset_copy|done].
  - rewrite bset_copy, bs_card_spec by done. lia.
  - intros r s'. by rewrite bset_copy.
Qed.

Lemma isAQuorum_returns nodes s :
  nodes_ok nodes →
  returns (isAQuorum qic nodes) s
    (λ b s', same_split s s' ∧ (b = true ↔ ∃ Z, quorum g Z ∧ Z ⊆ bset nodes)).
Proof.
  intros Hn. unfold isAQuorum. eapply returns_bind; [by apply contract_returns|].
  intros r s' (Hs & Hr & Hm). apply returns_ret. split; [done|].
  rewrite bs_bool_spec by done. by apply maxQuorum_nonempty.
Qed.

Lemma bs_equal_same b c : bs_wf b → bs_wf c → bset b = bset c → bs_equal b c = true.
Proof.
  intros [Hb _] [Hc _] Heq. apply equal_spec; [done|done|]. intros i _.
  apply eq_true_iff_eq. rewrite <- !elem_of_to_set. unfold bset in Heq. by rewrite Heq.
Qed.

Lemma minimalLoop_returns l nodes minQ s :
  nodes_ok minQ → bset minQ = nodes → (∀ i, i ∈ l → i ∈ nodes) →
  returns (minimalLoop qic l minQ) s (λ b s', same_split s s' ∧
    (b = true ↔ ∀ i, i ∈ l → ¬ ∃ Z, quorum g Z ∧ Z ⊆ nodes ∖ {[i]})).
Proof.
  revert minQ s. induction l as [|i l IH]; intros minQ s Hn Hm Hl; simpl.
  { apply returns_ret. split; [done|]. split; [|done]. intros _ i Hi. by apply elem_of_nil in Hi. }
  pose proof Hn as [Hb Hlt]. assert (bset (bs_unset minQ i) = nodes ∖ {[i]}) as Hu by (rewrite bset_unset, Hm; done).
  eapply returns_bind.
  { apply isAQuorum_returns. apply (nodes_ok_sub _ minQ); [auto with bs| |done]. rewrite Hu, Hm. set_solver. }
  intros b s1 [Hs1 Hiff]. rewrite Hu in Hiff. destruct b.
  { apply returns_ret. split; [done|]. split; [done|]. intros Hall. exfalso.
    apply (Hall i); [by left|]. by apply Hiff. }
  assert (bset (bs_set (bs_unset minQ i) i) = nodes) as Hset.
  { rewrite bset_set, Hu by auto with bs. assert (i ∈ nodes) by (apply Hl; by left).
    apply set_eq. intros j. rewrite elem_of_union, elem_of_difference, elem_of_singleton.
    destruct (decide (j = i)) as [->|]; tauto. }
  eapply returns_mono; [apply IH|].
  - apply (nodes_ok_sub _ minQ); [auto with bs|by rewrite Hset, Hm|done].
  - done.
  - intros j Hj. apply Hl. by right.
  - intros b s2 [Hs2 Hb2]. split; [unfold same_split in *; congruence|]. rewrite Hb2. split.
    + intros Hall j [->|Hj]%elem_of_cons; [|by apply Hall]. intros Hex. by apply Hiff in Hex.
    + intros Hall j Hj. apply Hall. by right.
Qed.

Lemma isMinimalQuorum_returns nodes s :
  nodes_ok nodes → quorum g (bset nodes) →
  returns (isMinimalQuorum qic nodes) s
    (λ b s', same_split s s' ∧ (b = true ↔ minimalQuorum g (bset nodes))).
Proof.
  intros Hn [Hne Hq]. pose proof Hn as [Hb Hlt]. unfold isMinimalQuorum.
  apply (returns_bind _ _ _ _ (λ _ s', same_split s s')).
  { destruct (ndebug qic); [done|]. eapply returns_bind; [by apply contract_returns|].
    intros r s' (Hs & Hr & Hm). rewrite bs_equal_same; [by apply returns_ret|done|done|].
    eapply maxQuorum_unique; [done|]. by apply maxQuorum_fixed. }
  intros [] s1 Hs1. rewrite (proj2 (bs_bool_spec nodes Hb) Hne). cbn [negb].
  eapply returns_mono; [apply (minimalLoop_returns _ (bset nodes))|].
  - apply (nodes_ok_sub _ nodes); [auto with bs|by rewrite bset_copy|done].
  - apply bset_copy.
  - intros i. by rewrite elem_of_bs_bits.
  - intros b s2 [Hs2 Hiff]. split; [unfold same_split in *; congruence|]. rewrite Hiff. split.
    + intros Hall. split; [done|]. intros Y HY HYX.
      destruct (decide (Y = bset nodes)) as [|HneY]; [done|].
      destruct (subset_missing _ _ HYX HneY) as (i & Hi & HiY). exfalso.
      apply (Hall i); [by rewrite elem_of_bs_bits|]. exists Y. split; [done|]. by apply remove_subseteq.
    + intros [_ Hmin] i Hi (Z & HZ & HZs). rewrite elem_of_bs_bits in Hi by done.
      assert (Z = bset nodes) as Heq.
      { apply Hmin; [done|]. intros j Hj. by apply HZs, elem_of_difference in Hj as [? _]. }
      rewrite <- Heq in Hi at 1. apply HZs, elem_of_difference in Hi as [_ Hi]. by apply Hi, elem_of_singleton.
Qed.

Hypothesis keys_length : length keys = length g.

(** [ks] are the names of the nodes of [X]. *)
Definition names (X : gset nat) (ks : list NodeID) : Prop :=
  ∀ k, k ∈ ks ↔ ∃ i, i ∈ X ∧ keys !! i = Some k.

Lemma noteNodes_returns l acc s :
  (∀ i, i ∈ l → i < length g) →
  returns (noteNodes qic l acc) s (λ r s', s' = s ∧ ∀ k, k ∈ r ↔ k ∈ acc ∨ ∃ i, i ∈ l ∧ keys !! i = Some k).
Proof.
  revert acc. induction l as [|i l IH]; intros acc Hl; simpl.
  { apply returns_ret. split; [done|]. intros k. split; [tauto|]. intros [?|(i & Hi & _)]; [done|].
    by apply elem_of_nil in Hi. }
  apply (returns_bind _ _ _ _ (λ k s', keys !! i = Some k ∧ s' = s)).
  { apply vec_at_returns; [|done]. fold keys. rewrite keys_length. apply Hl. by left. }
  intros k s' [Hk ->]. eapply returns_mono; [apply IH; intros j Hj; apply Hl; by right|].
  intros r s' [-> Hr]. split; [done|]. intros k'. rewrite Hr, elem_of_app, list_elem_of_singleton. split.
  - intros [[? | -> ]|(j & Hj & Hk')]; [by left|right; exists i; split; [by left|done]|].
    right. exists j. split; [by right|done].
  - intros [?|(j & Hj & Hk')]; [tauto|]. apply elem_of_cons in Hj as [->|Hj]; [left; right; congruence|].
    right. by exists j.
Qed.

Lemma note_returns nodes disj s :
  nodes_ok nodes → nodes_ok disj →
  returns (noteFoundDisjointQuorums qic nodes disj) s
    (λ _ s', names (bset nodes) (mPotentialSplit s').1 ∧ names (bset disj) (mPotentialSplit s').2).
Proof.
  intros [Hn Hnl] [Hd Hdl]. unfold noteFoundDisjointQuorums.
  apply (returns_bind _ _ _ _ (λ _ _, True)); [done|]. intros _ s1 _.
  eapply returns_bind; [apply noteNodes_returns; intros i; rewrite elem_of_bs_bits by done; apply Hnl|].
  intros ks1 s2 [-> H1]. apply (returns_bind _ _ _ _ (λ _ _, True)); [done|]. intros _ s3 _.
  eapply returns_bind; [apply noteNodes_returns; intros i; rewrite elem_of_bs_bits by done; apply Hdl|].
  intros ks2 s4 [-> H2]. unfold setSplit, returns, wp, modify. simpl. split; intros k.
  - rewrite H1, elem_of_nil. setoid_rewrite (elem_of_bs_bits nodes); [tauto|done].
  - rewrite H2, elem_of_nil. setoid_rewrite (elem_of_bs_bits disj); [tauto|done].
Qed.

(** *** Disjoint quorums in the maximal component *)

Hypothesis maxSCC_ok : nodes_ok (mMaxSCC qic).
Let SCC := bset (mMaxSCC qic).

(** The state reports two disjoint quorums. *)
Definition reportsSplit (s : QState) : Prop :=
  ∃ X Y, quorum g X ∧ quorum g Y ∧ X ## Y ∧
         names X (mPotentialSplit s).1 ∧ names Y (mPotentialSplit s).2.

Lemma hasDisjointQuorum_returns nodes s :
  nodes_ok nodes → quorum g (bset nodes) →
  returns (hasDisjointQuorum qic nodes) s (λ b s',
    (b = true ↔ ∃ Z, quorum g Z ∧ Z ⊆ SCC ∖ bset nodes) ∧
    if b then reportsSplit s' else same_split s s').
Proof.
  intros Hn Hq. pose proof Hn as [Hb Hlt]. pose proof maxSCC_ok as [Hmw Hml]. unfold hasDisjointQuorum.
  assert (bset (bs_diff (mMaxSCC qic) nodes) = SCC ∖ bset nodes) as Hd by (by rewrite bset_diff).
  eapply returns_bind.
  { apply contract_returns. apply (nodes_ok_sub _ (mMaxSCC qic)); [auto with bs|rewrite Hd; apply subseteq_difference_l; done|done]. }
  intros disj s1 (Hs1 & Hdw & Hm). rewrite Hd in Hm. pose proof (maxQuorum_nonempty g _ _ Hm) as Hne.
  destruct (bs_bool disj) eqn:E.
  - apply bs_bool_spec in E; [|done]. destruct Hm as (Hsub & Hself & Hgr).
    eapply returns_bind; [apply note_returns; [done|]|].
    { apply (nodes_ok_sub _ (mMaxSCC qic)); [done| |done]. etrans; [exact Hsub|].
      by apply subseteq_difference_l. }
    intros _ s2 [N1 N2]. apply returns_ret. split; [tauto|]. exists (bset nodes), (bset disj).
    split_and!; [done|done| |done|done]. intros i H1 H2. by apply Hsub, elem_of_difference in H2 as [_ ?].
  - apply bs_bool_false in E; [|done]. apply (returns_bind _ _ _ _ (λ _ s', s' = s1)); [done|].
    intros _ s2 ->. apply returns_ret. split; [|done]. rewrite <- Hne. by rewrite E.
Qed.

(** *** Choosing a split node *)

Definition pick_ok (R : gset nat) (p : Pick) : Prop := length (inDegrees p) = length g ∧ maxNode p ∈ R.

Lemma pickEdge_returns R p j s :
  pick_ok R p → j ∈ R → j < length g →
  returns (pickEdge qic p j) s (λ p' s', pick_ok R p' ∧ same_split s s').
Proof.
  intros [Hl Hm] Hj Hjl. unfold pickEdge.
  apply (returns_bind _ _ _ _ (λ _ s', s' = s)); [by apply vec_at_returns; [lia|]|].
  intros d s1 ->. cbn [maxDegree maxNode maxCount inDegrees].
  assert (∀ m c x, m ∈ R → pick_ok R (mkPick (<[j:=S d]> (inDegrees p)) m c x)) as Hok.
  { intros m c x Hx. split; [|done]. simpl. by rewrite length_insert. }
  destruct (_ <=? _); [|by apply returns_ret; split; [auto|]].
  destruct (_ =? _); [|by apply returns_ret; split; [auto|]].
  apply (returns_bind _ _ _ _ (λ _ s', same_split s s')); [done|].
  intros r s2 Hs2. destruct (r =? 0); apply returns_ret; (split; [auto|done]).
Qed.

Lemma pickEdges_returns R p l s :
  pick_ok R p → (∀ j, j ∈ l → j ∈ R ∧ j < length g) →
  returns (pickEdges qic p l) s (λ p' s', pick_ok R p' ∧ same_split s s').
Proof.
  revert p s. induction l as [|j l IH]; intros p s Hp Hl; simpl; [by apply returns_ret|].
  destruct (Hl j) as [Hj Hjl]; [by left|].
  eapply returns_bind; [by apply (pickEdge_returns R)|]. intros p1 s1 [Hp1 Hs1].
  eapply returns_mono; [apply IH; [done|intros k Hk; apply Hl; by right]|].
  intros p2 s2 [Hp2 Hs2]. split; [done|]. unfold same_split in *. congruence.
Qed.

Hypothesis g_wf : Forall (qwf (length g)) g.

Lemma pickNodes_returns remaining p l s :
  nodes_ok remaining → pick_ok (bset remaining) p → (∀ i, i ∈ l → i < length g) →
  returns (pickNodes qic remaining p l) s (λ p' s', pick_ok (bset remaining) p' ∧ same_split s s').
Proof.
  intros Hr. pose proof Hr as [Hrw Hrl].
  revert p s. induction l as [|i l IH]; intros p s Hp Hl; simpl; [by apply returns_ret|].
  apply (returns_bind _ _ _ _ (λ q s', g !! i = Some q ∧ s' = s)).
  { apply vec_at_returns; [apply Hl; by left|done]. }
  intros q s1 [Hq ->].
  assert (bs_wf (mAllSuccessors q)) as Hqw.
  { rewrite Forall_lookup in g_wf. by apply (qwf_succ (length g)), (g_wf i). }
  eapply returns_bind.
  { apply (pickEdges_returns (bset remaining)); [done|]. intros j.
    rewrite elem_of_bs_bits, bset_inter, elem_of_intersection by auto with bs. intros [_ Hj]. auto. }
  intros p1 s1 [Hp1 Hs1]. eapply returns_mono; [apply IH; [done|intros k Hk; apply Hl; by right]|].
  intros p2 s2 [Hp2 Hs2]. split; [done|]. unfold same_split in *. congruence.
Qed.

Lemma pickSplitNode_returns remaining s :
  nodes_ok remaining → bset remaining ≠ ∅ →
  returns (pickSplitNode qic remaining) s (λ i s', i ∈ bset remaining ∧ same_split s s').
Proof.
  intros Hr Hne. pose proof Hr as [Hrw Hrl]. unfold pickSplitNode.
  apply (returns_bind _ _ _ _ (λ _ s', s' = s)).
  { pose proof (proj2 (bs_bool_spec _ Hrw) Hne) as Hb. unfold bs_bool in Hb. apply negb_true_iff in Hb.
    rewrite Hb, andb_false_r. done. }
  intros _ s1 ->. eapply returns_bind.
  { apply pickNodes_returns; [done| |].
    - split; simpl; [apply length_replicate|by apply bs_max_in].
    - intros i. rewrite elem_of_bs_bits by done. apply Hrl. }
  intros p s1 [[_ Hm] Hs1]. by apply returns_ret.
Qed.

(** *** The enumeration *)

(** No minimal quorum between [C] and [C ∪ R], of a size that has to be looked at, has a disjoint
    quorum in the component. *)
Definition noneBetween (C R : gset nat) : Prop :=
  ∀ Q, minimalQuorum g Q → C ⊆ Q → Q ⊆ C ∪ R → size Q ≤ size SCC / 2 + 1 →
       ¬ ∃ Z, quorum g Z ∧ Z ⊆ SCC ∖ Q.

(** What a call of the enumerator establishes. *)
Definition enumerated (C R : gset nat) (s : QState) (b : bool) (s' : QState) : Prop :=
  if b then reportsSplit s' else same_split s s' ∧ noneBetween C R.

Lemma noneBetween_split C R i :
  i ∈ R → noneBetween C (R ∖ {[i]}) → noneBetween ({[i]} ∪ C) (R ∖ {[i]}) → noneBetween C R.
Proof.
  intros Hi Hex Hin Q HQ HC HR Hs. destruct (decide (i ∈ Q)) as [HiQ|HiQ].
  - apply Hin; [done| | |done].
    + intros j [->%elem_of_singleton|Hj]%elem_of_union; [done|by apply HC].
    + intros j Hj. specialize (HR j Hj). destruct (decide (j = i)) as [->|Hne].
      * by apply elem_of_union_l, elem_of_union_l, elem_of_singleton.
      * apply elem_of_union in HR as [HjC|HjR]; [by apply elem_of_union_l, elem_of_union_r|].
        apply elem_of_union_r, elem_of_difference. split; [done|]. by intros ?%elem_of_singleton.
  - apply Hex; [done|done| |done]. intros j Hj. specialize (HR j Hj).
    apply elem_of_union in HR as [HjC|HjR]; [by apply elem_of_union_l|].
    apply elem_of_union_r, elem_of_difference. split; [done|]. by intros ->%elem_of_singleton.
Qed.

Lemma inc_returns c s (Q : unit → QState → Prop) :
  (∀ s', same_split s s' → Q tt s') → returns (inc c) s Q.
Proof. intros HQ. by apply HQ. Qed.

Lemma inc_false c s0 s C R : same_split s0 s → noneBetween C R →
  returns (_ ← inc c; mret false) s (enumerated C R s0).
Proof.
  intros Hs Hn. apply (returns_bind _ _ _ _ (λ _ s', same_split s0 s')).
  - apply inc_returns. intros s' Hs'. unfold same_split in *. congruence.
  - intros _ s' Hs'. by apply returns_ret.
Qed.

(** Why the early exits lose nothing. *)
Lemma none_extension C R E : maxQuorum g (C ∪ R) E → (C ⊆ E → False) → noneBetween C R.
Proof.
  intros (_ & _ & Hmax) Hno Q [[_ HQ] _] HCQ HQR. exfalso. apply Hno. etrans; [exact HCQ|]. by apply Hmax.
Qed.
Lemma none_no_quorum C R : maxQuorum g (C ∪ R) ∅ → noneBetween C R.
Proof.
  intros Hm Q [HQ _] _ HQR. exfalso. apply (maxQuorum_empty g _ _ Hm); [done|]. by exists Q.
Qed.
Lemma none_exhausted C : maxQuorum g C ∅ → noneBetween C ∅.
Proof. intros Hm. apply none_no_quorum. by rewrite (right_id_L ∅ (∪)). Qed.

Lemma inc_same c s0 s (Q : unit → QState → Prop) :
  same_split s0 s → (∀ s', same_split s0 s' → Q tt s') → returns (inc c) s Q.
Proof. intros Hs HQ. apply inc_returns. intros s' Hs'. apply HQ. unfold same_split in *. congruence. Qed.

(** The committed nodes already contain a quorum. *)
Lemma committedQuorum_returns C R cq s0 s :
  nodes_ok cq → maxQuorum g C (bset cq) → bset cq ≠ ∅ → same_split s0 s →
  returns (b ← isMinimalQuorum qic cq;
           if b : bool then _ ← inc EarlyExit31s; hasDisjointQuorum qic cq
           else _ ← inc EarlyExit32s; mret false) s (enumerated C R s0).
Proof.
  intros Hn (Hsub & Hself & _) Hne Hs.
  assert (∀ Q, minimalQuorum g Q → C ⊆ Q → bset cq = Q) as Hmin.
  { intros Q [_ HQ] HCQ. apply HQ; [done|]. by etrans. }
  eapply returns_bind; [by apply isMinimalQuorum_returns|]. intros b s3 [Hs3 Hb].
  assert (same_split s0 s3) as Hs03 by (unfold same_split in *; congruence). destruct b.
  - apply (returns_bind _ _ _ _ (λ _ s', same_split s0 s')); [by apply (inc_same _ s0)|].
    intros _ s4 Hs4. eapply returns_mono; [by apply hasDisjointQuorum_returns|].
    intros b s5 [Hiff Hpost]. destruct b; [done|]. split; [unfold same_split in *; congruence|].
    intros Q HQ HCQ _ _ Hex. rewrite <- (Hmin Q HQ HCQ) in Hex. by apply Hiff in Hex.
  - apply inc_false; [done|]. intros Q HQ HCQ. exfalso. pose proof (Hmin Q HQ HCQ) as Heq.
    rewrite Heq in Hb. by apply Hb in HQ.
Qed.

Lemma copy_ok b : nodes_ok b → nodes_ok (bs_copy b).
Proof. intros Hb. apply (nodes_ok_sub _ b); [destruct Hb; auto with bs|by rewrite bset_copy|done]. Qed.

(** Both branches on the split node [i]. *)
Lemma branch_returns rec committed remaining i s0 s :
  (∀ committed remaining s, nodes_ok committed → nodes_ok remaining → bset committed ⊆ SCC →
     bset remaining ⊆ SCC → S (size (bset remaining)) ≤ rec.1 →
     returns (rec.2 committed remaining) s (enumerated (bset committed) (bset remaining) s)) →
  nodes_ok committed → nodes_ok remaining → bset committed ⊆ SCC → bset remaining ⊆ SCC →
  i ∈ bset remaining → size (bset remaining) ≤ rec.1 → same_split s0 s →
  returns (_ ← inc FirstRecursionsTaken;
           b ← rec.2 committed (bs_unset remaining i);
           if b : bool then mret true else
           _ ← inc SecondRecursionsTaken;
           rec.2 (bs_set committed i) (bs_unset remaining i)) s
    (enumerated (bset committed) (bset remaining) s0).
Proof.
  intros Hrec Hc Hr HcS HrS Hi Hsz Hs. pose proof Hc as [Hcw Hcl]. pose proof Hr as [Hrw Hrl].
  pose proof (bset_unset remaining i Hrw) as Hun. pose proof (bset_set committed i Hcw) as Hset.
  assert (nodes_ok (bs_unset remaining i)) as Hunn.
  { apply (nodes_ok_sub _ remaining); [auto with bs| |done]. rewrite Hun. by apply subseteq_difference_l. }
  assert (bset remaining ∖ {[i]} ⊆ SCC) as HunS by (by apply subseteq_difference_l).
  pose proof (remove_size (bset remaining) i Hi) as Hsize.
  apply (returns_bind _ _ _ _ (λ _ s', same_split s0 s')); [by apply (inc_same _ s0)|]. intros _ s1 Hs1.
  eapply returns_bind; [apply Hrec; [done|done|done|by rewrite Hun|rewrite Hun; lia]|].
  rewrite Hun. intros b s2 Hex. destruct b; [by apply returns_ret|]. destruct Hex as [Hs2 Hex].
  apply (returns_bind _ _ _ _ (λ _ s', same_split s0 s')).
  { apply (inc_same _ s0); [unfold same_split in *; congruence|done]. }
  intros _ s3 Hs3. eapply returns_mono; [apply Hrec; [|done| |by rewrite Hun|rewrite Hun; lia]|].
  - split; [auto with bs|]. rewrite Hset. intros j [->%elem_of_singleton|Hj]%elem_of_union; auto.
  - rewrite Hset. intros j [->%elem_of_singleton|Hj]%elem_of_union; auto.
  - rewrite Hset, Hun. intros b s4 Hin. destruct b; [done|]. destruct Hin as [Hs4 Hin].
    split; [unfold same_split in *; congruence|]. by apply (noneBetween_split _ _ i).
Qed.

Lemma anyMin_returns fuel committed remaining s :
  nodes_ok committed → nodes_ok remaining → bset committed ⊆ SCC → bset remaining ⊆ SCC →
  S (size (bset remaining)) ≤ fuel →
  returns (anyMinQuorumHasDisjointQuorum qic fuel committed remaining) s
    (enumerated (bset committed) (bset remaining) s).
Proof.
  revert committed remaining s. induction fuel as [|fuel IH]; intros committed remaining s Hc Hr HcS HrS Hf; [lia|].
  cbn [anyMinQuorumHasDisjointQuorum]. pose proof Hc as [Hcw Hcl]. pose proof Hr as [Hrw Hrl].
  apply (returns_bind _ _ _ _ (λ _ s', same_split s s')); [by apply inc_returns|]. intros _ s1 Hs1.
  pose proof maxSCC_ok as [Hmw _].
  destruct (maxCommit qic <? bs_card (bs_copy committed)) eqn:E1.
  { apply Nat.ltb_lt in E1. unfold maxCommit in E1. rewrite !bs_card_spec, bset_copy in E1 by auto with bs.
    apply inc_false; [done|]. intros Q _ HCQ _ HQ. apply subseteq_size in HCQ. fold SCC in E1. lia. }
  eapply returns_bind; [by apply contract_returns, copy_ok|]. rewrite bset_copy.
  intros cq s2 (Hs2 & Hcqw & Hcq).
  assert (same_split s s2) as Hs02 by (unfold same_split in *; congruence).
  destruct (bs_bool cq) eqn:Ecq.
  { apply bs_bool_spec in Ecq; [|done]. apply committedQuorum_returns; auto.
    apply (nodes_ok_sub _ committed); [done|apply Hcq|done]. }
  apply bs_bool_false in Ecq; [|done]. rewrite Ecq in Hcq.
  assert (bset (bs_union committed remaining) = bset committed ∪ bset remaining) as Hper by (by rewrite bset_union).
  eapply returns_bind.
  { apply contract_returns. split; [auto with bs|]. rewrite Hper. intros i [Hi|Hi]%elem_of_union; auto. }
  rewrite Hper. intros eq s3 (Hs3 & Heqw & Heq).
  assert (same_split s s3) as Hs03 by (unfold same_split in *; congruence).
  destruct (bs_bool eq && negb (bs_isSubsetEq (bs_copy committed) eq)) eqn:E22.
  { propify. apply inc_false; [done|]. apply (none_extension _ _ _ Heq). intros Hsub.
    assert (bs_isSubsetEq (bs_copy committed) eq = true); [|congruence].
    apply bs_isSubsetEq_sound; [auto with bs|done|]. by rewrite bset_copy. }
  destruct (bs_bool eq) eqn:Eeq; cbn [negb andb] in *.
  2: { apply bs_bool_false in Eeq; [|done]. rewrite Eeq in Heq. apply inc_false; [done|]. by apply none_no_quorum. }
  destruct (bs_bool (bs_copy remaining)) eqn:Erem; cbn [negb].
  2: { apply bs_bool_false in Erem; [|auto with bs]. rewrite bset_copy in Erem. rewrite Erem.
       apply inc_false; [done|]. by apply none_exhausted. }
  apply bs_bool_spec in Erem; [|auto with bs].
  eapply returns_bind; [by apply pickSplitNode_returns; [apply copy_ok|]|]. intros i s4 [Hi Hs4].
  pose proof (branch_returns (fuel, anyMinQuorumHasDisjointQuorum qic fuel) (bs_copy committed) (bs_copy remaining) i s s4) as Hb.
  rewrite !bset_copy in Hb. rewrite bset_copy in Hi. cbn [fst snd] in Hb.
  apply Hb; auto using copy_ok; [lia|unfold same_split in *; congruence].
Qed.
End Search.

(** ** Theorem *)

(** [contractToMaximalQuorum] terminates on every set of existing nodes and returns the greatest quorum inside
    it: a subset in which every node has a slice, and that contains every other such
    subset; it is empty exactly when the set contains no quorum, and the reported split is not touched. *)
Theorem contraction_greatest_quorum `{Malloc} qic nodes s (Hn : nodes_ok qic nodes) :
  ∃ r s', contractToMaximalQuorum qic nodes s = Ok r s' ∧ bs_wf r ∧
    maxQuorum (mGraph (qic_graph qic)) (bset nodes) (bset r) ∧
    (bs_empty r = true ↔ ¬ ∃ Z, quorum (mGraph (qic_graph qic)) Z ∧ Z ⊆ bset nodes) ∧
    mPotentialSplit s' = mPotentialSplit s.
Proof.
  destruct (proj1 (returns_Ok _ _ _) (contract_returns qic nodes s Hn)) as (r & s' & E & Hs & Hr & Hm).
  exists r, s'. split_and!; [done|done|done| |done].
  rewrite <- (maxQuorum_empty _ _ _ Hm), <- bs_bool_false by done. unfold bs_bool. by rewrite negb_false_iff.
Qed.

(** Two nodes, the first trusting itself, the second needing both. *)
Definition sampleChecker : QIC :=
  mkQIC (mkGraph [7; 8]%Z ∅ [newQBitSet 1 (bs_set bs_new 0) []; newQBitSet 2 (bs_set (bs_set bs_new 0) 1) []])
        [] bs_new (λ _ _ _, 0) true.

Lemma contraction_greatest_quorum_witness :
  ∃ r s', contractToMaximalQuorum sampleChecker (bs_set (bs_set bs_new 0) 1) (mkQState (λ _, 0) ([], []) 0) = Ok r s' ∧
    maxQuorum (mGraph (qic_graph sampleChecker)) (bset (bs_set (bs_set bs_new 0) 1)) (bset r) ∧ bs_bits r = [0; 1].
Proof.
  destruct (contraction_greatest_quorum sampleChecker (bs_set (bs_set bs_new 0) 1) (mkQState (λ _, 0) ([], []) 0))
    as (r & s' & E & _ & Hm & _).
  - split; [auto with bs|]. intros i. rewrite !bset_set, bset_new by auto with bs.
    rewrite !elem_of_union, !elem_of_singleton, elem_of_empty. simpl. lia.
  - exists r, s'. split_and!; [exact E|exact Hm|]. vm_compute in E. injection E as <- _. vm_compute. reflexivity.
Defined.
