(* ===== verification/QuorumIntersection.v ===== *)
(** * Quorum intersection of a network

    The constructor of [QuorumIntersectionCheckerImpl] and the meaning of its answer, stated on nodes and SCP
    quorum sets: when the main component contains a quorum, [networkEnjoysQuorumIntersection]
    returns true exactly when every two quorums of the network have a node in common. When it
    contains none the answer is true in any case; a concrete network shows that it can then be wrong. *)
From stdpp Require Import base list gmap strings relations.
From Stdlib Require Import ZArith Lia.
From S2P Require Import Prelude QuorumSet Statement LocalNode CBitset CBitsetSpec BitSets QuorumGraph Tarjan QuorumSearch QuorumSearchSpec.
#[local] Open Scope nat_scope.

(** The constructor; [None] is a failed assertion or an exception. *)
Definition newChecker `{Malloc} (qmap : list (NodeID * option SCPQuorumSet))
    (rand : nat → nat → nat → nat) (ndebug : bool) : option QIC :=
  match buildGraph qmap with
  | None => None
  | Some G =>
    match buildSCCs (mGraph G) with
    | None => None
    | Some (sccs, mx) => Some (mkQIC G sccs mx rand ndebug)
    end
  end.

(** A new checker has counted nothing and reports nothing. *)
Definition newState : QState := mkQState (λ _, 0) ([], []) 0.
Definition getPotentialSplit (s : QState) : list NodeID * list NodeID := mPotentialSplit s.
Definition getMaxQuorumsFound (s : QState) : nat := mStats s MaxQuorumsSeen.

(** ** Quorums and components *)

Section Components.
Context `{Malloc} (qic : QIC).
Let g := mGraph (qic_graph qic).
Let keys := mBitNumPubKeys (qic_graph qic).
Hypothesis g_wf : Forall (qwf (length g)) g.
Hypothesis keys_length : length keys = length g.
Hypothesis sccs_fine : sccs_ok g (mSCCs qic).
Hypothesis cover : ∀ i, i < length g → ∃ c, c ∈ mSCCs qic ∧ i ∈ bset c.
Hypothesis max_wf : bs_wf (mMaxSCC qic) ∧ tight (mPtr (mMaxSCC qic)).
Hypothesis max_scc : (mSCCs qic = [] ∧ bset (mMaxSCC qic) = ∅) ∨
  ∃ c, c ∈ mSCCs qic ∧ bset (mMaxSCC qic) = bset c.
Let SCC := bset (mMaxSCC qic).

Lemma quorum_lt X i : quorum g X → i ∈ X → i < length g.
Proof.
  intros [_ HX] Hi. specialize (HX i Hi). unfold hasSlice in HX.
  destruct (g !! i) eqn:E; [|done]. by apply lookup_lt_Some in E.
Qed.

(** Every quorum contains a quorum inside one component: its part in the first component it meets. *)
Lemma quorum_in_component X : quorum g X → ∃ c, c ∈ mSCCs qic ∧ quorum g (X ∩ bset c).
Proof.
  intros HX. pose proof HX as [Hne Hself].
  destruct (list_find (λ c, X ∩ bset c ≠ ∅) (mSCCs qic)) as [[k c]|] eqn:E.
  - apply list_find_Some in E as (Hk & Hmeet & Hfirst).
    exists c. split; [by eapply list_elem_of_lookup_2|]. split; [done|].
    intros i [HiX Hic]%elem_of_intersection. specialize (Hself i HiX). unfold hasSlice in *.
    destruct (g !! i) as [q|] eqn:Eq; [|done]. rewrite <- Hself.
    rewrite Forall_lookup in g_wf. apply (sliceOf_local (length g)); [by apply (g_wf i)|].
    apply set_eq. intros j. rewrite !elem_of_intersection. split; [tauto|]. intros [HjX Hj].
    split_and!; [done| |done].
    destruct (so_edge _ _ sccs_fine k c i j Hk Hic) as (k' & c' & Hle & Hk' & Hj'); [by exists q|].
    destruct (decide (k' = k)) as [->|]; [by simplify_eq|].
    exfalso. apply (Hfirst k' c' Hk'); [lia|]. intros He.
    apply (not_elem_of_empty (C := gset nat) j). rewrite <- He. by apply elem_of_intersection.
  - exfalso. apply list_find_None in E. rewrite Forall_forall in E.
    destruct (set_choose_or_empty X) as [[i Hi]|He]; [|by apply Hne, leibniz_equiv].
    destruct (cover i (quorum_lt X i HX Hi)) as (c & Hc & Hic).
    apply (E c Hc). intros He. apply (not_elem_of_empty (C := gset nat) i). rewrite <- He.
    by apply elem_of_intersection.
Qed.

Lemma component_ok c : c ∈ mSCCs qic → nodes_ok qic c.
Proof.
  intros Hc. split; [by apply (so_wf _ _ sccs_fine)|]. intros i Hi. by apply (so_lt _ _ sccs_fine c).
Qed.
Lemma max_ok : nodes_ok qic (mMaxSCC qic).
Proof.
  split; [apply max_wf|]. destruct max_scc as [[_ ->]|(c & Hc & ->)].
  - intros i Hi. by apply elem_of_empty in Hi.
  - by apply component_ok.
Qed.

(** Different components are disjoint, and the comparison of bit sets tells them apart. *)
Lemma component_equal c :
  c ∈ mSCCs qic → if bs_equal c (mMaxSCC qic) then bset c = SCC else bset c ## SCC.
Proof.
  intros Hc. destruct max_scc as [[Hnil _]|(m & Hm & Heq)].
  { rewrite Hnil in Hc. by apply not_elem_of_nil in Hc. }
  pose proof Hc as [k Hk]%list_elem_of_lookup. pose proof Hm as [k' Hk']%list_elem_of_lookup.
  destruct (so_wf _ _ sccs_fine c Hc) as (Hcw & Hct & Hcne). destruct (so_wf _ _ sccs_fine m Hm) as (_ & _ & Hmne).
  destruct max_wf as [Hmw Hmt]. unfold SCC. destruct (decide (k = k')) as [->|Hne].
  - assert (bset c = bset (mMaxSCC qic)) as Hs by (rewrite Heq; by simplify_eq).
    by rewrite (bs_equal_same c (mMaxSCC qic)).
  - assert (bset c ## bset (mMaxSCC qic)) as Hd.
    { intros i Hi Hi'. rewrite Heq in Hi'. apply Hne. by eapply (so_disj _ _ sccs_fine). }
    rewrite bs_equal_disjoint; [done|done|done|done|done|done|by rewrite Heq|done].
Qed.

(** ** The answer *)

(** There is a quorum inside [X]. *)
Definition holdsQuorum (X : gset nat) : Prop := ∃ Z, quorum g Z ∧ Z ⊆ X.

Lemma sccLoop_returns l s :
  (∀ c, c ∈ l → c ∈ mSCCs qic) →
  returns (sccLoop qic l) s (λ b s',
    if b then (∃ c, c ∈ l ∧ bset c ## SCC ∧ holdsQuorum (bset c)) ∧ (holdsQuorum SCC → reportsSplit qic s')
    else same_split s s' ∧ ∀ c, c ∈ l → bset c ≠ SCC → ¬ holdsQuorum (bset c)).
Proof.
  revert s. induction l as [|c l IH]; intros s Hl; simpl.
  { apply returns_ret. split; [done|]. intros c Hc. by apply not_elem_of_nil in Hc. }
  assert (c ∈ mSCCs qic) as Hc by (apply Hl; by left).
  assert (∀ c, c ∈ l → c ∈ mSCCs qic) as Hl' by (intros; apply Hl; by right).
  pose proof (component_equal c Hc) as Heq. destruct (bs_equal c (mMaxSCC qic)).
  - eapply returns_mono; [by apply IH|]. intros b s' Hpost. destruct b.
    + destruct Hpost as [(c' & Hc' & Hrest) Hrep]. split; [|done]. exists c'. split; [by right|done].
    + destruct Hpost as [Hs Hno]. split; [done|]. intros c' [-> |Hc']%elem_of_cons Hne; [done|by apply Hno].
  - eapply returns_bind; [apply contract_returns; by apply component_ok|].
    intros other s1 (Hs1 & How & Hom). destruct (bs_bool other) eqn:Eo.
    + apply bs_bool_spec in Eo; [|done]. pose proof Hom as (Hosub & Hoself & _).
      eapply returns_bind; [apply contract_returns, max_ok|]. intros q s2 (Hs2 & Hqw & Hqm).
      pose proof Hqm as (Hqsub & Hqself & _).
      eapply returns_bind; [apply note_returns; [done| |]|].
      * apply (nodes_ok_sub qic _ (mMaxSCC qic)); [done|done|apply max_ok].
      * apply (nodes_ok_sub qic _ c); [done|done|by apply component_ok].
      * intros _ s3 [N1 N2]. apply returns_ret. split.
        -- exists c. split_and!; [by left|done|]. by exists (bset other).
        -- intros Hq. exists (bset q), (bset other). split_and!; [|done| |done|done].
           ++ split; [|done]. by apply (maxQuorum_nonempty g _ _ Hqm).
           ++ intros i Hi Hi'. by apply (Heq i); [apply Hosub|apply Hqsub].
    + apply bs_bool_false in Eo; [|done]. eapply returns_mono; [by apply IH|]. intros b s' Hpost. destruct b.
      * destruct Hpost as [(c' & Hc' & Hrest) Hrep]. split; [|done]. exists c'. split; [by right|done].
      * destruct Hpost as [Hs Hno]. split; [unfold same_split in *; congruence|].
        intros c' [-> |Hc']%elem_of_cons Hne; [|by apply Hno].
        by apply (maxQuorum_empty g _ _ Hom).
Qed.

(** Two disjoint quorums inside the main component are found by looking at the smaller one. *)
Lemma noneBetween_intersect :
  noneBetween qic ∅ SCC → ∀ X Y, quorum g X → quorum g Y → X ⊆ SCC → Y ⊆ SCC → ¬ X ## Y.
Proof.
  intros Hnone.
  assert (∀ X Y, quorum g X → quorum g Y → X ⊆ SCC → Y ⊆ SCC → X ## Y → size Y < size X) as Hsmall.
  { intros X Y HX HY HXS HYS Hd. apply Nat.nle_gt. intros Hle.
    destruct (minimal_exists g X HX) as (Q & HQ & HQX).
    assert (Q ⊆ SCC) as HQS by (by etrans).
    assert (size X + size Y ≤ size SCC) as Hsz.
    { rewrite <- size_union by done. apply subseteq_size. by apply union_least. }
    apply (Hnone Q HQ); [apply empty_subseteq| | |].
    - intros i Hi. apply elem_of_union_r. by apply HQS.
    - apply subseteq_size in HQX. pose proof (Nat.div_mod_eq (size SCC) 2) as Hdm.
      pose proof (Nat.mod_upper_bound (size SCC) 2 ltac:(lia)). fold SCC. lia.
    - exists Y. split; [done|]. intros i Hi. apply elem_of_difference. split; [by apply HYS|].
      intros HiQ. by apply (Hd i); [apply HQX|]. }
  intros X Y HX HY HXS HYS Hd. pose proof (Hsmall X Y HX HY HXS HYS Hd).
  pose proof (Hsmall Y X HY HX HYS HXS ltac:(by symmetry)). lia.
Qed.

(** All quorums of the graph intersect. *)
Definition intersecting : Prop := ∀ X Y, quorum g X → quorum g Y → ¬ X ## Y.

Lemma network_returns s :
  returns (networkEnjoysQuorumIntersection qic) s (λ b s',
    (¬ holdsQuorum SCC → b = true) ∧
    (holdsQuorum SCC → (b = true ↔ intersecting) ∧ (b = false → reportsSplit qic s'))).
Proof.
  unfold networkEnjoysQuorumIntersection.
  eapply returns_bind; [by apply sccLoop_returns|]. intros found s1 Hfound.
  eapply returns_bind; [apply contract_returns, max_ok|]. intros q s2 (Hs2 & Hqw & Hqm).
  pose proof (maxQuorum_nonempty g _ _ Hqm) as Hne. fold SCC in Hne. change (∃ Z, quorum g Z ∧ Z ⊆ SCC) with (holdsQuorum SCC) in Hne.
  destruct (bs_bool q) eqn:Eq; cbn [negb].
  2: { apply bs_bool_false in Eq; [|done]. apply returns_ret. split; [done|]. intros Hq%Hne. done. }
  apply bs_bool_spec in Eq; [|done]. apply Hne in Eq as Hold.
  destruct found.
  - apply (returns_bind _ _ _ _ (λ b s', b = true ∧ s' = s2)); [done|]. intros b s3 [-> ->].
    apply returns_ret. split; [done|]. intros _. destruct Hfound as [(c & Hc & Hd & (Z & HZ & HZc)) Hrep]. split.
    + split; [done|]. intros Hint. exfalso. destruct Hold as (W & HW & HWS).
      apply (Hint Z W HZ HW). intros i Hi Hi'. by apply (Hd i); [apply HZc|apply HWS].
    + intros _. specialize (Hrep Hold). unfold reportsSplit in *. by rewrite Hs2.
  - destruct Hfound as [_ Hno]. pose proof max_ok as [Hmw Hml]. eapply returns_bind.
    { apply anyMin_returns; [done|apply max_ok|done| | | | |].
      - split; [auto with bs|]. rewrite bset_new. intros i Hi. by apply elem_of_empty in Hi.
      - apply (nodes_ok_sub qic _ (mMaxSCC qic)); [auto with bs|by rewrite bset_copy|apply max_ok].
      - rewrite bset_new. apply empty_subseteq.
      - by rewrite bset_copy.
      - rewrite bset_copy, bs_card_spec by done. lia. }
    rewrite bset_new, bset_copy. intros b s3 Hen. apply returns_ret. split; [done|]. intros _. destruct b; cbn [negb].
    + simpl in Hen. split; [|done]. split; [done|]. intros Hint. destruct Hen as (X & Y & HX & HY & Hd & _).
      exfalso. by apply (Hint X Y).
    + destruct Hen as [_ Hnone]. split; [|done]. split; [|done]. intros _ X Y HX HY Hd.
      assert (∀ X, quorum g X → quorum g (X ∩ SCC)) as Hin.
      { intros Z HZ. destruct (quorum_in_component Z HZ) as (c & Hc & Hq).
        destruct (decide (bset c = SCC)) as [<-|Hnc]; [done|]. exfalso. apply (Hno c Hc Hnc).
        exists (Z ∩ bset c). split; [done|]. apply intersection_subseteq_r. }
      apply (noneBetween_intersect Hnone (X ∩ SCC) (Y ∩ SCC)); auto.
      * apply intersection_subseteq_r.
      * apply intersection_subseteq_r.
      * intros i [Hi _]%elem_of_intersection [Hi' _]%elem_of_intersection. by apply (Hd i).
Qed.
End Components.

(** ** Nodes instead of numbers *)

(** A quorum of the network: a set of nodes with known quorum sets, each with a slice in the set. *)
Definition nodeQuorum (qmap : list (NodeID * option SCPQuorumSet)) (S : list NodeID) : Prop :=
  S ≠ [] ∧ ∀ n, n ∈ S → ∃ q, (n, Some q) ∈ qmap ∧ isQuorumSlice q S = true.

Lemma key_unique {A B} (l : list (A * B)) k x y : NoDup l.*1 → (k, x) ∈ l → (k, y) ∈ l → x = y.
Proof.
  induction l as [|[k' z] l IH]; simpl; intros Hnd Hx Hy; [by apply not_elem_of_nil in Hx|].
  apply NoDup_cons in Hnd as [Hk Hnd].
  apply elem_of_cons in Hx as [Ex|Hx]; apply elem_of_cons in Hy as [Ey|Hy].
  - congruence.
  - exfalso. apply Hk. injection Ex as <- _. by apply (list_elem_of_fmap_2 fst) in Hy.
  - exfalso. apply Hk. injection Ey as <- _. by apply (list_elem_of_fmap_2 fst) in Hx.
  - auto.
Qed.

Section Nodes.
Context `{Malloc} (qmap : list (NodeID * option SCPQuorumSet)) (G : Graph).
Hypothesis qmap_keys : NoDup qmap.*1.
Hypothesis qmap_sane : sane_map qmap.
Hypothesis G_of : graph_of qmap G.
Let g := mGraph G.

Lemma quorum_nodes X S : same_nodes G X S → (∀ i, i ∈ X → i < length g) → quorum g X ↔ nodeQuorum qmap S.
Proof.
  intros HS Hlt.
  assert (∀ i, i ∈ X → ∃ k q, mBitNumPubKeys G !! i = Some k ∧ k ∈ S ∧ (k, Some q) ∈ qmap ∧
    hasSlice g X i = isQuorumSlice q S) as Hslice.
  { intros i Hi. destruct (lookup_lt_is_Some_2 g i (Hlt i Hi)) as [qb Hqb].
    destruct (graph_slice qmap G X S i qb G_of qmap_sane HS Hqb) as (k & q & Hk & Hq & Heq).
    exists k, q. split_and!; [done| |done|unfold hasSlice; fold g; by rewrite Hqb].
    apply HS. exists i. split; [|done]. by apply (go_nums _ _ G_of). }
  split.
  - intros [Hne Hself]. split.
    + destruct (set_choose_or_empty X) as [[i Hi]|He]; [|by apply leibniz_equiv in He].
      destruct (Hslice i Hi) as (k & _ & _ & Hk & _). intros ->. by apply not_elem_of_nil in Hk.
    + intros n (i & Hn & Hi)%HS. destruct (Hslice i Hi) as (k & q & Hk & _ & Hq & Heq).
      apply (go_nums _ _ G_of) in Hn. simplify_eq. exists q. split; [done|]. rewrite <- Heq. by apply Hself.
  - intros [Hne Hself]. split.
    + destruct S as [|n S]; [done|]. destruct (proj1 (HS n)) as (i & _ & Hi); [by left|].
      intros ->. by apply elem_of_empty in Hi.
    + intros i Hi. destruct (Hslice i Hi) as (k & q & _ & Hk & Hq & ->).
      destruct (Hself k Hk) as (q' & Hq' & Hs). pose proof (key_unique _ _ _ _ qmap_keys Hq Hq'). by simplify_eq.
Qed.

Definition numbers (S : list NodeID) : gset nat := list_to_set (omap (mPubKeyBitNums G !!.) S).

Lemma number_lt n i : mPubKeyBitNums G !! n = Some i → i < length g.
Proof.
  intros Hn%(go_nums _ _ G_of). unfold g. rewrite (graph_of_length qmap G G_of). by apply lookup_lt_Some in Hn.
Qed.

Lemma numbers_spec S : nodeQuorum qmap S → same_nodes G (numbers S) S ∧ ∀ i, i ∈ numbers S → i < length g.
Proof.
  intros [_ HS]. unfold numbers. split.
  - intros n. setoid_rewrite elem_of_list_to_set. setoid_rewrite list_elem_of_omap. split.
    + intros Hn. destruct (HS n Hn) as (q & Hq & _).
      apply elem_of_knownSets in Hq. apply (list_elem_of_fmap_2 fst) in Hq. simpl in Hq.
      rewrite <- (go_keys _ _ G_of) in Hq. apply list_elem_of_lookup in Hq as [i Hi].
      apply (go_nums _ _ G_of) in Hi. exists i. split; [done|]. by exists n.
    + intros (i & Hi & n' & Hn' & Hi'). by rewrite (graph_of_inj qmap G n n' i G_of Hi Hi').
  - intros i (n & _ & Hn)%elem_of_list_to_set%list_elem_of_omap. by eapply number_lt.
Qed.

Definition nodesOf (X : gset nat) : list NodeID := omap (mBitNumPubKeys G !!.) (elements X).

Lemma names_same X ks :
  (∀ k, k ∈ ks ↔ ∃ i, i ∈ X ∧ mBitNumPubKeys G !! i = Some k) → same_nodes G X ks.
Proof.
  intros Hk n. rewrite Hk. apply exist_proper. intros i. rewrite (go_nums _ _ G_of). tauto.
Qed.
Lemma nodesOf_spec X : same_nodes G X (nodesOf X).
Proof.
  apply names_same. intros k. unfold nodesOf. rewrite list_elem_of_omap.
  apply exist_proper. intros i. by rewrite elem_of_elements.
Qed.

(** Disjointness is the same for numbers and for nodes. *)
Lemma disjoint_nodes X Y S T :
  same_nodes G X S → same_nodes G Y T → (∀ i, i ∈ X → i < length g) →
  X ## Y ↔ ∀ n, n ∈ S → n ∉ T.
Proof.
  intros HS HT Hlt. split.
  - intros Hd n (i & Hn & Hi)%HS (j & Hn' & Hj)%HT. simplify_eq. by apply (Hd i).
  - intros Hd i Hi Hj. specialize (Hlt i Hi). unfold g in Hlt. rewrite (graph_of_length qmap G G_of) in Hlt.
    apply lookup_lt_is_Some_2 in Hlt as [k Hk]. apply (go_nums _ _ G_of) in Hk.
    apply (Hd k); [apply HS|apply HT]; by exists i.
Qed.
End Nodes.

(** The nodes of [S] are in the main component. *)
Definition inMainComponent (qic : QIC) (S : list NodeID) : Prop :=
  ∀ n, n ∈ S → ∃ i, mPubKeyBitNums (qic_graph qic) !! n = Some i ∧ i ∈ bset (mMaxSCC qic).

Lemma newChecker_spec `{Malloc} qmap rand nd :
  NoDup qmap.*1 →
  ∃ qic, newChecker qmap rand nd = Some qic ∧ graph_of qmap (qic_graph qic) ∧
    ∀ s, returns (networkEnjoysQuorumIntersection qic) s (λ b s',
      (¬ holdsQuorum qic (bset (mMaxSCC qic)) → b = true) ∧
      (holdsQuorum qic (bset (mMaxSCC qic)) →
         (b = true ↔ intersecting qic) ∧ (b = false → reportsSplit qic s'))).
Proof.
  intros Hnd. destruct (buildGraph_spec qmap Hnd) as (G & HG & Hof).
  pose proof (graph_of_qwf qmap G Hof) as Hwf.
  destruct (buildSCCs_spec (mGraph G) Hwf) as (sccs & mx & E & Hok & Hcov & Hmw & Hmt & Hmx & _).
  unfold newChecker. rewrite HG, E. eexists. split; [done|]. split; [done|].
  intros s. apply network_returns; try done. simpl. by rewrite (graph_of_length qmap G Hof).
Qed.

(** C3: for every map of sane quorum sets the checker is built and returns, whatever the random draws and with
    assertions enabled or not. If the main component contains a quorum, the answer is
    true exactly when every two quorums of the network share a node, where a quorum is what
    federated voting takes for one; and when the answer is false, [getPotentialSplit] names two
    disjoint quorums. *)
Theorem intersection_checker_correct `{Malloc} qmap rand nd s
    (Hnd : NoDup qmap.*1) (Hsane : sane_map qmap) :
  ∃ qic b s', newChecker qmap rand nd = Some qic ∧
    networkEnjoysQuorumIntersection qic s = Ok b s' ∧
    ((∃ S, nodeQuorum qmap S ∧ inMainComponent qic S) →
      (b = true ↔ ∀ S T, nodeQuorum qmap S → nodeQuorum qmap T → ∃ n, n ∈ S ∧ n ∈ T) ∧
      (b = false → nodeQuorum qmap (getPotentialSplit s').1 ∧ nodeQuorum qmap (getPotentialSplit s').2 ∧
                   ∀ n, n ∈ (getPotentialSplit s').1 → n ∉ (getPotentialSplit s').2)).
Proof.
  destruct (newChecker_spec qmap rand nd Hnd) as (qic & E & Hof & Hret).
  specialize (Hret s). apply returns_Ok in Hret as (b & s' & Erun & _ & Hpost).
  exists qic, b, s'. split_and!; [done|done|]. intros (S0 & HS0 & Hmain).
  set (G := qic_graph qic) in *.
  assert (∀ X, quorum (mGraph G) X → ∀ i, i ∈ X → i < length (mGraph G)) as Hlt by (intros; by eapply (quorum_lt qic)).
  destruct Hpost as [Hiff Hrep].
  { destruct (numbers_spec qmap G Hof S0 HS0) as [Hn0 Hl0]. exists (numbers G S0).
    split; [by apply (quorum_nodes qmap G Hnd Hsane Hof _ S0)|].
    intros i (n & Hn & Hi)%elem_of_list_to_set%list_elem_of_omap.
    destruct (Hmain n Hn) as (j & Hj & Hin). fold G in Hj. by simplify_eq. }
  split.
  - rewrite Hiff. split.
    + intros Hint S T HS HT. destruct (numbers_spec qmap G Hof S HS) as [HnS HlS], (numbers_spec qmap G Hof T HT) as [HnT HlT].
      destruct (set_choose_or_empty (numbers G S ∩ numbers G T)) as [[i Hi]|He].
      * apply elem_of_intersection in Hi as [Hi1 Hi2]. specialize (HlS i Hi1).
        rewrite (graph_of_length qmap G Hof) in HlS. apply lookup_lt_is_Some_2 in HlS as [k Hk].
        apply (go_nums _ _ Hof) in Hk. exists k. split; [apply HnS|apply HnT]; by exists i.
      * exfalso. apply (Hint (numbers G S) (numbers G T)).
        -- by apply (quorum_nodes qmap G Hnd Hsane Hof _ S).
        -- by apply (quorum_nodes qmap G Hnd Hsane Hof _ T).
        -- by apply disjoint_intersection.
    + intros Hint X Y HX HY Hd.
      pose proof (nodesOf_spec qmap G Hof X) as HnX. pose proof (nodesOf_spec qmap G Hof Y) as HnY.
      destruct (Hint (nodesOf G X) (nodesOf G Y)) as (n & Hn & Hn').
      * apply (quorum_nodes qmap G Hnd Hsane Hof X); eauto.
      * apply (quorum_nodes qmap G Hnd Hsane Hof Y); eauto.
      * by apply (proj1 (disjoint_nodes qmap G Hof X Y _ _ HnX HnY (Hlt X HX)) Hd n).
  - intros Hb. destruct (Hrep Hb) as (X & Y & HX & HY & Hd & N1 & N2). unfold getPotentialSplit.
    apply (names_same qmap G Hof) in N1, N2. split_and!.
    + apply (quorum_nodes qmap G Hnd Hsane Hof X); eauto.
    + apply (quorum_nodes qmap G Hnd Hsane Hof Y); eauto.
    + by apply (disjoint_nodes qmap G Hof X Y _ _ N1 N2 (Hlt X HX)).
Qed.

(** ** Concrete networks *)

(** Four nodes that each need any two of the four. *)
Definition splitNetwork : list (NodeID * option SCPQuorumSet) :=
  map (λ k, (k, Some (QSet 2 [1; 2; 3; 4]%Z []))) [1; 2; 3; 4]%Z.

Definition inMainb (qic : QIC) (S : list NodeID) : bool :=
  forallb (λ n, match mPubKeyBitNums (qic_graph qic) !! n with
                | Some i => bs_get (mMaxSCC qic) i | None => false end) S.
Lemma inMain_check qic S : inMainb qic S = true → inMainComponent qic S.
Proof.
  intros Hall n Hn. unfold inMainb in Hall. rewrite forallb_forall in Hall.
  specialize (Hall n (proj1 (list_elem_of_In _ _) Hn)).
  destruct (mPubKeyBitNums (qic_graph qic) !! n) as [i|]; [|done]. exists i. by rewrite <- bs_get_spec.
Qed.

(** The result of a check of [qmap] with the draw that is always [r]. *)
Definition check (qmap : list (NodeID * option SCPQuorumSet)) (r : nat)
    : option (bool * (list NodeID * list NodeID)) :=
  match newChecker qmap (λ _ _ _, r) false with
  | None => None
  | Some qic =>
    match networkEnjoysQuorumIntersection qic newState with
    | Ok b s => Some (b, getPotentialSplit s)
    | _ => None
    end
  end.

Lemma splitNetwork_ok : NoDup splitNetwork.*1 ∧ sane_map splitNetwork.
Proof.
  split; [apply (bool_decide_unpack _); vm_compute; exact I|].
  intros k q (n & Heq & _)%list_elem_of_fmap. by simplify_eq.
Qed.

Lemma intersection_checker_correct_witness :
  ∃ qic s', newChecker splitNetwork (λ _ _ _, 0) false = Some qic ∧
    networkEnjoysQuorumIntersection qic newState = Ok false s' ∧
    nodeQuorum splitNetwork (getPotentialSplit s').1 ∧ nodeQuorum splitNetwork (getPotentialSplit s').2 ∧
    ∀ n, n ∈ (getPotentialSplit s').1 → n ∉ (getPotentialSplit s').2.
Proof.
  destruct splitNetwork_ok as [Hnd Hsane].
  destruct (intersection_checker_correct splitNetwork (λ _ _ _, 0) false newState Hnd Hsane)
    as (qic & b & s' & E & Erun & Hpost).
  assert (option_map fst (check splitNetwork 0) = Some b) as Hb by (unfold check; by rewrite E, Erun).
  vm_compute in Hb. injection Hb as <-. exists qic, s'.
  assert (∃ S, nodeQuorum splitNetwork S ∧ inMainComponent qic S) as Hmain.
  { exists [1; 2; 3; 4]%Z. split; [split; [done|]|].
    - intros n Hn. exists (QSet 2 [1; 2; 3; 4]%Z []). split; [|vm_compute; reflexivity].
      by apply (list_elem_of_fmap_2 (λ k, (k, Some (QSet 2 [1; 2; 3; 4]%Z [])))).
    - apply inMain_check. assert (option_map (λ qic, inMainb qic [1; 2; 3; 4]%Z)
        (newChecker splitNetwork (λ _ _ _, 0) false) = Some true) as Hc by (vm_compute; reflexivity).
      rewrite E in Hc. by injection Hc. }
  destruct (Hpost Hmain) as [_ Hsplit]. exact (conj E (conj Erun (Hsplit eq_refl))).
Defined.

(** Two nodes that each trust only themselves, and a larger component of three nodes that need each
    other and a fourth node nobody knows. *)
Definition haltedMain : list (NodeID * option SCPQuorumSet) :=
  [(1, Some (QSet 1 [1] [])); (2, Some (QSet 1 [2] []));
   (3, Some (QSet 2 [4; 99] [])); (4, Some (QSet 2 [5; 99] [])); (5, Some (QSet 2 [3; 99] []))]%Z.

(** The checker answers that the network enjoys quorum intersection although [{1}] and [{2}] are disjoint
    quorums: it has found the quorum [{1}] outside of the main component, but forgets it because the main
    component, which has no quorum, is looked at last. *)
Theorem halted_main_component_hides_split :
  option_map fst (check haltedMain 0) = Some true ∧
  nodeQuorum haltedMain [1%Z] ∧ nodeQuorum haltedMain [2%Z].
Proof.
  split; [vm_compute; reflexivity|].
  split; (split; [done|]); intros n ->%list_elem_of_singleton.
  - exists (QSet 1 [1%Z] []). split; [by left|reflexivity].
  - exists (QSet 1 [2%Z] []). split; [right; by left|reflexivity].
Qed.
