(* ===== verification/QuorumTracker.v ===== *)
(** * The quorum tracker

    From [herder/QuorumTracker.cpp]: the map of the nodes known to be in the transitive quorum of the
    local node, with the quorum set of each when it is known. It is rebuilt from scratch by a
    worklist, and expanded in place when a quorum set becomes known. The theorem says that the two
    ways agree: after any history the map is the one that [rebuild] computes from the quorum sets
    in it, and [rebuild] terminates with the nodes that can be reached from the local node.

    [SCPQuorumSetPtr] is compared by identity: it is a number, and [load] gives what it points to. *)
From stdpp Require Import base list sorting gmap relations strings.
From Stdlib Require Import ZArith Lia.
From S2P Require Import Prelude QuorumSet Statement NodeWeight.

Definition QSetPtr : Type := nat.

Record QuorumTracker := mkQuorumTracker { mQuorum : gmap NodeID (option QSetPtr) }.

Section Tracker.
Context (load : QSetPtr → SCPQuorumSet) (local : NodeID).

Definition qt_isNodeDefinitelyInQuorum (t : QuorumTracker) (id : NodeID) : bool :=
  match mQuorum t !! id with Some _ => true | None => false end.

(** [unordered_map::insert]: an entry that exists is kept. *)
Definition insertNull (m : gmap NodeID (option QSetPtr)) (id : NodeID) : gmap NodeID (option QSetPtr) :=
  match m !! id with Some _ => m | None => <[id := None]> m end.

Definition expand (id : NodeID) (qSet : option QSetPtr) : M QuorumTracker bool :=
  t ← get;
  match mQuorum t !! id with
  | None => mret false
  | Some None =>
    modify (λ t, mkQuorumTracker (<[id := qSet]> (mQuorum t)));;
    p ← deref qSet;
    modify (λ t, mkQuorumTracker (forAllNodes insertNull (mQuorum t) (load p)));;
    mret true
  | Some p => mret (bool_decide (p = qSet))
  end.

(** The loop of [rebuild]; [backlog] is a [std::set]. *)
Fixpoint rebuildLoop (lookup : NodeID → option QSetPtr) (fuel : nat) (backlog : list NodeID)
    : M QuorumTracker unit :=
  match backlog with
  | [] => mret tt
  | n :: backlog =>
    match fuel with
    | O => nofuel
    | S fuel =>
      t ← get;
      match mQuorum t !! n with
      | Some (Some _) => rebuildLoop lookup fuel backlog
      | _ =>
        let qSet := lookup n in
        let backlog := match qSet with
                       | Some p => forAllNodes (λ b id, set_insert id b) backlog (load p)
                       | None => backlog
                       end in
        modify (λ t, mkQuorumTracker (<[n := qSet]> (mQuorum t)));;
        rebuildLoop lookup fuel backlog
      end
    end
  end.

Definition rebuild (fuel : nat) (lookup : NodeID → option QSetPtr) : M QuorumTracker unit :=
  modify (λ _, mkQuorumTracker ∅);;
  rebuildLoop lookup fuel (set_insert local []).

Definition getQuorum (t : QuorumTracker) : gmap NodeID (option QSetPtr) := mQuorum t.

(** ** The transitive quorum *)

(** [n] names [k] in its quorum set. *)
Definition names (lookup : NodeID → option QSetPtr) (n k : NodeID) : Prop :=
  ∃ p, lookup n = Some p ∧ k ∈ allNodes (load p).

(** The nodes that can be reached from the local node. *)
Definition inQuorum (lookup : NodeID → option QSetPtr) (n : NodeID) : Prop :=
  rtc (names lookup) local n.

Lemma inQuorum_ind lookup (P : NodeID → Prop) :
  P local → (∀ n p k, inQuorum lookup n → lookup n = Some p → k ∈ allNodes (load p) → P n → P k) →
  ∀ n, inQuorum lookup n → P n.
Proof. intros Hl Hs. apply rtc_ind_r; [done|]. intros n k Hn (p & Hp & Hk). eauto. Qed.

(** The quorum set of a node as a map has it. *)
Definition knownQSet (m : gmap NodeID (option QSetPtr)) (n : NodeID) : option QSetPtr := mjoin (m !! n).

(** A map that holds the transitive quorum as [lookup] knows it, and nothing else. *)
Definition tracks (lookup : NodeID → option QSetPtr) (m : gmap NodeID (option QSetPtr)) : Prop :=
  ∀ n v, m !! n = Some v ↔ inQuorum lookup n ∧ v = lookup n.

Lemma tracks_unique lookup m m' : tracks lookup m → tracks lookup m' → m = m'.
Proof.
  intros Hm Hm'. apply map_eq. intros n. apply option_eq. intros v. by rewrite (Hm n v), (Hm' n v).
Qed.

Lemma inQuorum_mono lookup lookup' n :
  (∀ k p, lookup k = Some p → lookup' k = Some p) → inQuorum lookup n → inQuorum lookup' n.
Proof. intros Hl. apply rtc_congruence with (f := id). intros x y (p & Hp & Hy). exists p. eauto. Qed.

Lemma tracks_self lookup m : tracks lookup m → tracks (knownQSet m) m.
Proof.
  intros Hm.
  assert (Hk : ∀ n, inQuorum lookup n → knownQSet m n = lookup n).
  { intros n Hn. unfold knownQSet. by rewrite (proj2 (Hm n (lookup n))). }
  assert (Hq : ∀ n, inQuorum (knownQSet m) n ↔ inQuorum lookup n).
  { intros n. split.
    - apply inQuorum_mono. intros k p Hp. unfold knownQSet in Hp.
      destruct (m !! k) as [v|] eqn:Ek; [|done]. apply Hm in Ek as [_ ->]. done.
    - revert n. apply inQuorum_ind; [apply rtc_refl|]. intros k p n Hn Hp Hin IH.
      eapply rtc_r; [exact IH|]. exists p. by rewrite Hk. }
  intros n v. rewrite (Hm n v), (Hq n). split; intros [Hn ->]; by rewrite (Hk n Hn).
Qed.

(** ** Termination and correctness of [rebuild] *)

Lemma forAllNodes_set_insert q b :
  SetOk b →
  SetOk (forAllNodes (λ b id, set_insert id b) b q) ∧
  (∀ x, x ∈ forAllNodes (λ b id, set_insert id b) b q ↔ x ∈ b ∨ x ∈ allNodes q) ∧
  (length (forAllNodes (λ b id, set_insert id b) b q) <= length b + length (allNodes q))%nat.
Proof.
  rewrite forAllNodes_list. generalize (allNodes q). intros l. revert b.
  induction l as [|y l IH]; intros b Hb; simpl.
  - split_and!; [done| |lia]. intros x. rewrite elem_of_nil. tauto.
  - destruct (IH (set_insert y b)) as (H1 & H2 & H3); [auto|]. split_and!; [done| |].
    + intros x. rewrite H2, elem_of_set_insert, elem_of_cons. tauto.
    + assert (length (set_insert y b) <= S (length b))%nat; [|lia].
      destruct (decide (y ∈ b)); [rewrite set_insert_mem by done; lia|].
      by rewrite set_insert_length.
Qed.

(** The work that is left for the nodes of [known] without a quorum set in the map. *)
Definition pendingWork (lookup : NodeID → option QSetPtr) (m : gmap NodeID (option QSetPtr)) (n : NodeID) : nat :=
  match knownQSet m n, lookup n with
  | None, Some p => length (allNodes (load p))
  | _, _ => 0
  end.
Definition totalWork lookup (known : list NodeID) m : nat := sum_list_with (pendingWork lookup m) known.

Lemma totalWork_resolve lookup known m n p :
  n ∈ known → knownQSet m n = None → lookup n = Some p →
  (totalWork lookup known (<[n := Some p]> m) + length (allNodes (load p)) <= totalWork lookup known m)%nat.
Proof.
  intros Hn Hm Hl. unfold totalWork.
  assert (Hle : ∀ k, (pendingWork lookup (<[n := Some p]> m) k <= pendingWork lookup m k)%nat).
  { intros k. unfold pendingWork, knownQSet. destruct (decide (k = n)) as [->|Hk].
    - rewrite lookup_insert_eq. simpl. lia.
    - by rewrite lookup_insert_ne by done. }
  assert (Hn' : (pendingWork lookup (<[n := Some p]> m) n + length (allNodes (load p)) <= pendingWork lookup m n)%nat).
  { unfold pendingWork. rewrite Hm, Hl. unfold knownQSet. rewrite lookup_insert_eq. simpl. lia. }
  apply list_elem_of_split in Hn as (l1 & l2 & ->).
  rewrite !sum_list_with_app. cbn [sum_list_with].
  assert (Hs : ∀ l, (sum_list_with (pendingWork lookup (<[n := Some p]> m)) l <= sum_list_with (pendingWork lookup m) l)%nat).
  { induction l as [|k l IH]; [done|]. cbn [sum_list_with]. specialize (Hle k). lia. }
  pose proof (Hs l1). pose proof (Hs l2). lia.
Qed.

Lemma totalWork_null lookup known m n :
  knownQSet m n = None → totalWork lookup known (<[n := None]> m) = totalWork lookup known m.
Proof.
  intros Hm. unfold totalWork. induction known as [|k known IH]; [done|].
  cbn [sum_list_with]. rewrite IH. f_equal. unfold pendingWork. unfold knownQSet in *. destruct (decide (k = n)) as [->|Hk].
  - by rewrite lookup_insert_eq, Hm.
  - by rewrite lookup_insert_ne.
Qed.

(** What the worklist keeps: every entry is right and can be reached, what a resolved node names is
    in the map or in the backlog, and so is the local node. *)
Record LoopInv (lookup : NodeID → option QSetPtr) (m : gmap NodeID (option QSetPtr)) (b : list NodeID) : Prop := {
  li_set : SetOk b;
  li_entry n v : m !! n = Some v → inQuorum lookup n ∧ v = lookup n;
  li_backlog n : n ∈ b → inQuorum lookup n;
  li_closed n p k : m !! n = Some (Some p) → k ∈ allNodes (load p) → is_Some (m !! k) ∨ k ∈ b;
  li_local : is_Some (m !! local) ∨ local ∈ b }.

Lemma loop_done lookup m : LoopInv lookup m [] → tracks lookup m.
Proof.
  intros [_ He _ Hc Hl] n v. split; [apply He|]. intros [Hn ->].
  assert (Hs : is_Some (m !! n)).
  { revert n Hn. apply inQuorum_ind; [|intros k p n Hn Hp Hin IH].
    - destruct Hl as [Hl|Hl]; [done|]. by apply elem_of_nil in Hl.
    - destruct IH as [v Hv]. destruct (He _ _ Hv) as [_ ->]. rewrite Hp in Hv.
      destruct (Hc _ _ _ Hv Hin) as [?|Hb]; [done|]. by apply elem_of_nil in Hb. }
  destruct Hs as [v Hv]. destruct (He _ _ Hv) as [_ ->]. done.
Qed.

(** Taking the first node of the backlog. *)
Lemma loop_skip lookup m n b p :
  LoopInv lookup m (n :: b) → m !! n = Some (Some p) → LoopInv lookup m b.
Proof.
  intros [Hs He Hb Hc Hl] Hn.
  assert (Hor : ∀ k, is_Some (m !! k) ∨ k ∈ n :: b → is_Some (m !! k) ∨ k ∈ b).
  { intros k [?|[->|?]%elem_of_cons]; eauto. }
  split; [by apply StronglySorted_cons in Hs as [_ ?]|done| | |by apply Hor].
  - intros k Hk. apply Hb. by right.
  - intros k q j Hk Hj. apply Hor. eauto.
Qed.

Lemma loop_visit lookup m n b b' :
  LoopInv lookup m (n :: b) → knownQSet m n = None → SetOk b' →
  (∀ k, k ∈ b' ↔ k ∈ b ∨ names lookup n k) → LoopInv lookup (<[n := lookup n]> m) b'.
Proof.
  intros [Hs He Hb Hc Hl] Hn Hs' Hb'.
  assert (Hor : ∀ k, is_Some (m !! k) ∨ k ∈ n :: b → is_Some (<[n := lookup n]> m !! k) ∨ k ∈ b').
  { intros k. destruct (decide (k = n)) as [->|Hk]; [rewrite lookup_insert_eq; eauto|].
    rewrite lookup_insert_ne by done. rewrite elem_of_cons, Hb'. tauto. }
  assert (Hnq : inQuorum lookup n) by (apply Hb; by left).
  split; [done| | | |by apply Hor].
  - intros k v. rewrite lookup_insert_Some. intros [[<- <-]|[_ ?]]; eauto.
  - intros k [Hk|Hk]%Hb'; [apply Hb; by right|]. eapply rtc_r; eauto.
  - intros k p j. rewrite lookup_insert_Some. intros [[<- Hp]|[_ Hk]] Hj; [|apply Hor; eauto].
    right. apply Hb'. right. by exists p.
Qed.

Lemma rebuildLoop_ok lookup known fuel : ∀ m b,
  (∀ n p, lookup n = Some p → n ∈ known) →
  LoopInv lookup m b → (length b + totalWork lookup known m <= fuel)%nat →
  returns (rebuildLoop lookup fuel b) (mkQuorumTracker m) (λ _ t, tracks lookup (mQuorum t)).
Proof.
  induction fuel as [|fuel IH]; intros m [|n b] Hk Hi Hf;
    try (simpl in Hf; lia); try (apply returns_ret; by apply loop_done).
  assert (Hv : knownQSet m n = None → SetOk b → ∀ b', SetOk b' → (∀ k, k ∈ b' ↔ k ∈ b ∨ names lookup n k) →
    (length b' + totalWork lookup known (<[n := lookup n]> m) <= fuel)%nat →
    returns (rebuildLoop lookup fuel b') (mkQuorumTracker (<[n := lookup n]> m)) (λ _ t, tracks lookup (mQuorum t))).
  { intros Hn _ b' Hb' He Hl. apply IH; [done| |done]. by eapply loop_visit. }
  assert (Hb : SetOk b) by (by apply li_set, StronglySorted_cons in Hi as [_ ?]).
  cbn [rebuildLoop]. unfold get, returns, wp, mbind, M_bind. cbn [mQuorum].
  destruct (m !! n) as [[p|]|] eqn:En.
  1: { apply IH; [done|by eapply loop_skip|simpl in Hf; lia]. }
  all: assert (Hn : knownQSet m n = None) by (unfold knownQSet; by rewrite En).
  all: unfold modify; cbn [mQuorum]; apply (Hv Hn Hb); destruct (lookup n) as [p|] eqn:El; [| | | | |];
    try exact (proj1 (forAllNodes_set_insert _ _ Hb)); try exact Hb.
  all: try (intros k; rewrite (proj1 (proj2 (forAllNodes_set_insert (load p) _ Hb)) k); split;
    [intros [?|?]; [tauto|right; by exists p]|intros [?|(p' & Hp' & ?)]; [tauto|right; congruence]]).
  all: try (intros k; split; [tauto|intros [?|(p' & Hp' & _)]; [done|congruence]]).
  all: try (pose proof (proj2 (proj2 (forAllNodes_set_insert (load p) _ Hb)));
    pose proof (totalWork_resolve lookup known m n p (Hk n p El) Hn El); simpl in Hf; lia).
  all: rewrite totalWork_null by done; simpl in Hf; lia.
Qed.

(** The fuel of a rebuild: the local node, and every node that is named by a known quorum set. *)
Definition rebuildFuel (lookup : NodeID → option QSetPtr) (known : list NodeID) : nat :=
  S (totalWork lookup known ∅).

Lemma rebuild_ok lookup known t :
  (∀ n p, lookup n = Some p → n ∈ known) →
  returns (rebuild (rebuildFuel lookup known) lookup) t (λ _ t', tracks lookup (mQuorum t')).
Proof.
  intros Hk. unfold rebuild. eapply returns_bind with (R := λ _ t', t' = mkQuorumTracker ∅); [done|].
  intros _ _ ->. apply rebuildLoop_ok with (known := known); [done| |simpl; unfold rebuildFuel; lia].
  split.
  - by repeat constructor.
  - intros n v. by rewrite lookup_empty.
  - intros n ->%list_elem_of_singleton. apply rtc_refl.
  - intros n p k. by rewrite lookup_empty.
  - right. by apply list_elem_of_singleton.
Qed.

(** ** [expand] *)

Lemma insertNull_all l m n v :
  foldl insertNull m l !! n = Some v ↔ m !! n = Some v ∨ (m !! n = None ∧ n ∈ l ∧ v = None).
Proof.
  revert m. induction l as [|k l IH]; intros m; simpl.
  - rewrite elem_of_nil. tauto.
  - rewrite IH, elem_of_cons. unfold insertNull. destruct (m !! k) eqn:Ek; destruct (decide (n = k)) as [->|Hne].
    + rewrite Ek. naive_solver.
    + naive_solver.
    + rewrite lookup_insert_eq, Ek. naive_solver.
    + rewrite lookup_insert_ne by done. naive_solver.
Qed.

Lemma expand_tracks m id p :
  tracks (knownQSet m) m → m !! id = Some None →
  let m' := forAllNodes insertNull (<[id := Some p]> m) (load p) in
  tracks (knownQSet m') m' ∧ ∀ n, n ≠ id → knownQSet m' n = knownQSet m n.
Proof.
  intros Hm Hid m'. unfold m'. clear m'. rewrite forAllNodes_list. set (m' := foldl _ _ _).
  assert (Hin : ∀ n v, m' !! n = Some v ↔
    (n = id ∧ v = Some p) ∨ (n ≠ id ∧ m !! n = Some v) ∨ (n ≠ id ∧ m !! n = None ∧ n ∈ allNodes (load p) ∧ v = None)).
  { intros n v. unfold m'. rewrite insertNull_all. destruct (decide (n = id)) as [->|Hn].
    - rewrite lookup_insert_eq. naive_solver.
    - rewrite lookup_insert_ne by done. naive_solver. }
  assert (Hk : ∀ n, n ≠ id → knownQSet m' n = knownQSet m n).
  { intros n Hn. unfold knownQSet. destruct (m' !! n) as [v|] eqn:E, (m !! n) as [v'|] eqn:E'; simpl; try done.
    - apply Hin in E. naive_solver.
    - apply Hin in E. naive_solver.
    - assert (m' !! n = Some v') by (apply Hin; tauto). congruence. }
  assert (Hkid : knownQSet m' id = Some p) by (unfold knownQSet; by rewrite (proj2 (Hin id (Some p)))  by tauto).
  assert (Hq : ∀ n, inQuorum (knownQSet m) n → inQuorum (knownQSet m') n).
  { intros n. apply inQuorum_mono. intros k q Hkq. destruct (decide (k = id)) as [->|Hne]; [|by rewrite Hk].
    unfold knownQSet in Hkq. by rewrite Hid in Hkq. }
  split; [|done]. intros n v. split.
  - intros Hn. split; [|unfold knownQSet; by rewrite Hn].
    apply Hin in Hn as [[-> ->]|[[? Hn]|(? & Hn & Hp & ->)]].
    + apply Hq. by apply Hm in Hid as [? _].
    + apply Hq. by apply Hm in Hn as [? _].
    + apply Hm in Hid as [Hid _]. eapply rtc_r; [apply Hq, Hid|]. exists p. done.
  - intros [Hn ->]. assert (Hs : is_Some (m' !! n)).
    { revert n Hn. apply inQuorum_ind; [|intros k q n Hn Hq' Hin' IH].
      - assert (Hl : m !! local = Some (knownQSet m local)) by (apply Hm; split; [apply rtc_refl|done]).
        destruct (decide (local = id)) as [->|Hne]; [exists (Some p); apply Hin; tauto|].
        eexists. apply Hin. right. left. done.
      - destruct (decide (n = id)) as [->|Hnid]; [exists (Some p); apply Hin; tauto|].
        destruct (m !! n) as [v|] eqn:En; [exists v; apply Hin; tauto|].
        destruct (decide (k = id)) as [->|Hkid'].
        + exists None. apply Hin. right; right. rewrite Hkid in Hq'. by simplify_eq.
        + exfalso. rewrite Hk in Hq' by done.
          assert (m !! n = Some (knownQSet m n)); [|congruence]. apply Hm. split; [|done].
          assert (Hkk : m !! k = Some (Some q)).
          { unfold knownQSet in Hq'. destruct (m !! k) as [w|]; [|done]. simpl in Hq'. by subst. }
          apply Hm in Hkk as [Hkk _]. eapply rtc_r; [exact Hkk|]. by exists q. }
    destruct Hs as [v Hv]. unfold knownQSet. by rewrite Hv.
Qed.

(** Answers of [expand] on a quorum set. *)
Lemma expand_ok m id p :
  tracks (knownQSet m) m →
  returns (expand id (Some p)) (mkQuorumTracker m) (λ b t,
    tracks (knownQSet (mQuorum t)) (mQuorum t) ∧
    (∀ n, n ≠ id → knownQSet (mQuorum t) n = knownQSet m n) ∧
    match m !! id with
    | Some None => b = true ∧ knownQSet (mQuorum t) id = Some p
    | Some (Some p') => b = bool_decide (p' = p) ∧ mQuorum t = m
    | None => b = false ∧ mQuorum t = m
    end).
Proof.
  intros Hm. unfold expand, get, modify, returns, wp, mbind, M_bind, deref, mret, M_ret. cbn [mQuorum].
  destruct (m !! id) as [[p'|]|] eqn:E; cbn [mQuorum].
  - split_and!; [done|done| |done]. apply bool_decide_ext. split; congruence.
  - destruct (expand_tracks m id p Hm E) as [H1 H2]. split_and!; [done|done|done|].
    rewrite forAllNodes_list. unfold knownQSet.
    by rewrite (proj2 (insertNull_all (allNodes (load p)) (<[id:=Some p]> m) id (Some p)))
      by (left; apply lookup_insert_eq).
  - done.
Qed.

(** The trackers after a rebuild from finitely many known quorum sets and any expansions. *)
Inductive tracked : QuorumTracker → Prop :=
| tracked_rebuild t lookup known t' :
    (∀ n p, lookup n = Some p → n ∈ known) →
    rebuild (rebuildFuel lookup known) lookup t = Ok tt t' → tracked t'
| tracked_expand t id p b t' : tracked t → expand id (Some p) t = Ok b t' → tracked t'.

Lemma tracked_tracks t : tracked t → tracks (knownQSet (mQuorum t)) (mQuorum t).
Proof.
  induction 1 as [t lookup known t' Hk Hr|[m] id p b t' _ IH He].
  - pose proof (rebuild_ok lookup known t Hk) as H. unfold returns, wp in H. rewrite Hr in H.
    by eapply tracks_self.
  - pose proof (expand_ok m id p IH) as H. unfold returns, wp in H. rewrite He in H. tauto.
Qed.

Lemma rebuild_own t :
  tracks (knownQSet (mQuorum t)) (mQuorum t) →
  let lookup := knownQSet (mQuorum t) in
  rebuild (rebuildFuel lookup (elements (dom (mQuorum t)))) lookup t = Ok tt t.
Proof.
  intros Ht lookup. unfold lookup.
  pose proof (rebuild_ok lookup (elements (dom (mQuorum t))) t) as H. unfold lookup in H.
  apply returns_Ok in H as ([] & [m] & -> & Hm).
  - f_equal. destruct t as [m0]. f_equal. by eapply tracks_unique.
  - intros n p. unfold knownQSet. rewrite elem_of_elements, elem_of_dom. destruct (mQuorum t !! n); [by eexists|done].
Qed.
End Tracker.

(** C36: the quorum tracker. A rebuild from finitely many known quorum sets terminates with the
    map of the nodes that can be reached from the local node, each with its quorum set if it is known.
    After a rebuild and any expansions, [isNodeDefinitelyInQuorum] decides whether a node can be
    reached through the quorum sets in the map, and rebuilding from these would change nothing.
    Expanding by a quorum set always returns; it says whether the tracker now has this very quorum
    set for the node, and leaves the tracker as it was when it has not. *)
Theorem tracker_expand_agrees_with_rebuild load local :
  (∀ lookup known t, (∀ n p, lookup n = Some p → n ∈ known) →
     ∃ t', rebuild load local (rebuildFuel load lookup known) lookup t = Ok tt t' ∧
           tracks load local lookup (getQuorum t')) ∧
  (∀ t, tracked load local t →
     let lookup := knownQSet (getQuorum t) in
     (∀ n, qt_isNodeDefinitelyInQuorum t n = true ↔ inQuorum load local lookup n) ∧
     rebuild load local (rebuildFuel load lookup (elements (dom (getQuorum t)))) lookup t = Ok tt t) ∧
  (∀ t id p, tracked load local t →
     ∃ b t', expand load id (Some p) t = Ok b t' ∧ tracked load local t' ∧
       (b = true ↔ knownQSet (getQuorum t') id = Some p) ∧ (b = false → t' = t) ∧
       (∀ n, n ≠ id → knownQSet (getQuorum t') n = knownQSet (getQuorum t) n)).
Proof.
  split_and!.
  - intros lookup known t Hk. apply rebuild_ok with (load := load) (local := local) (t := t) in Hk.
    apply returns_Ok in Hk as ([] & t' & ? & ?). eauto.
  - intros t Ht lookup. apply tracked_tracks in Ht. split; [|by apply rebuild_own].
    intros n. unfold qt_isNodeDefinitelyInQuorum. destruct (mQuorum t !! n) as [v|] eqn:E.
    + apply Ht in E. tauto.
    + split; [done|]. intros Hn. by rewrite (proj2 (Ht n (lookup n))) in E.
  - intros [m] id p Ht. pose proof (expand_ok load local m id p (tracked_tracks load local _ Ht)) as He.
    apply returns_Ok in He as (b & [m'] & He & _ & Hk & Hb). cbn [mQuorum getQuorum] in *.
    exists b, (mkQuorumTracker m'). unfold getQuorum in *. cbn [mQuorum].
    split_and!; [done|by eapply tracked_expand| | |done];
      unfold knownQSet in *; destruct (m !! id) as [[p'|]|] eqn:E; destruct Hb as [Eb Hb]; subst;
      rewrite ?E, ?bool_decide_eq_true; cbn [mjoin option_join]; try tauto; try done.
    split; congruence.
Qed.

(** Node 1 trusts 2 and 3, node 2 trusts 4: two nodes are expanded, 4 by a null entry. *)
Definition tracker_load (p : QSetPtr) : SCPQuorumSet :=
  if decide (p = 0%nat) then QSet 2 [2; 3] [] else QSet 1 [4; 1] [].
Definition tracker_lookup (n : NodeID) : option QSetPtr := if decide (n = 1) then Some 0%nat else None.
Lemma tracker_expand_agrees_with_rebuild_witness :
  let t := mkQuorumTracker (<[1 := Some 0%nat]> (<[2 := None]> (<[3 := None]> ∅))) in
  let t' := mkQuorumTracker (<[1 := Some 0%nat]> (<[2 := Some 1%nat]> (<[3 := None]> (<[4 := None]> ∅)))) in
  rebuild tracker_load 1 (rebuildFuel tracker_load tracker_lookup [1]) tracker_lookup (mkQuorumTracker ∅) = Ok tt t ∧
  expand tracker_load 2 (Some 1%nat) t = Ok true t' ∧
  rebuild tracker_load 1 (rebuildFuel tracker_load (knownQSet (getQuorum t')) (elements (dom (getQuorum t'))))
    (knownQSet (getQuorum t')) t' = Ok tt t'.
Proof.
  set (t := mkQuorumTracker _). set (t' := mkQuorumTracker _). cbv zeta.
  assert (Hr : rebuild tracker_load 1 (rebuildFuel tracker_load tracker_lookup [1]) tracker_lookup (mkQuorumTracker ∅) = Ok tt t)
    by (vm_compute; reflexivity).
  assert (He : expand tracker_load 2 (Some 1%nat) t = Ok true t') by (vm_compute; reflexivity).
  assert (Ht : tracked tracker_load 1 t).
  { refine (tracked_rebuild _ _ _ tracker_lookup [1] _ _ Hr). intros n p. unfold tracker_lookup.
    destruct (decide (n = 1)) as [->|]; [|done]. intros _. by apply list_elem_of_singleton. }
  split; [exact Hr|]. split; [exact He|].
  exact (proj2 (proj1 (proj2 (tracker_expand_agrees_with_rebuild tracker_load 1)) t' (tracked_expand _ _ _ _ _ _ _ Ht He))).
Defined.

(** Expanding a node without a quorum set by a null pointer dereferences it. *)
Theorem expand_null_crashes load t id :
  expand load id None t = Crash "null dereference" t ↔ mQuorum t !! id = Some None.
Proof.
  unfold expand, get, modify, mbind, M_bind, deref, crash, mret, M_ret. destruct t as [m]; cbn [mQuorum].
  destruct (m !! id) as [[p'|]|] eqn:E; [done| |done]. by rewrite insert_id.
Qed.
