(* ===== verification/Slot.v ===== *)
(** * The state of a slot: [scp/Slot.h], [scp/BallotProtocol.h],
      [scp/NominationProtocol.h], and the environment of the protocol

    One record per class of the source. What the source reaches through
    references ([mSlot.getSCP().getLocalNode()], [mSlot.getSCPDriver()]) is the
    environment [Env] of every operation: the local node, the driver, the clock
    and whether the build has [dbgAssert] enabled. The calls that only inform the
    driver are recorded in the order they are made. *)
From stdpp Require Import base list gmap strings.
From S2P Require Import Prelude QuorumSet Statement LocalNode.

(** ** The environment *)

(** [class LocalNode]. *)
Record LocalNodeT := mkLocalNode {
  mNodeID : NodeID;
  mIsValidator : bool;
  mQSet : SCPQuorumSet;
  mQSetHash : Hash;
  mSingleQSet : SCPQuorumSet;
  gSingleQSetHash : Hash }.

Definition buildSingletonQSet (n : NodeID) : SCPQuorumSet := QSet 1 [n] [].
Definition getSingletonQSet (n : NodeID) : SCPQuorumSet := buildSingletonQSet n.

Section LocalNodeOps.
(** [sha256(xdr_to_opaque(.))]. *)
Variable hashQSet : SCPQuorumSet → Hash.

(** The constructor: the quorum set is normalized first. *)
Definition newLocalNode (n : NodeID) (isValidator : bool) (qSet : SCPQuorumSet) : LocalNodeT :=
  let qSet := normalizeQSet qSet None in
  let single := buildSingletonQSet n in
  mkLocalNode n isValidator qSet (hashQSet qSet) single (hashQSet single).

(** [updateQuorumSet]: the given set is taken as it is. *)
Definition updateQuorumSet (qSet : SCPQuorumSet) (ln : LocalNodeT) : LocalNodeT :=
  mkLocalNode (mNodeID ln) (mIsValidator ln) qSet (hashQSet qSet) (mSingleQSet ln) (gSingleQSetHash ln).
End LocalNodeOps.

Inductive ValidationLevel := kInvalidValue | kFullyValidatedValue | kMaybeValidValue.
#[global] Instance ValidationLevel_eq_dec : EqDecision ValidationLevel.
Proof. solve_decision. Defined.

(** [class SCPDriver]: the calls whose answers the protocol uses. They are
    virtual; the application (the herder) implements them. *)
Record SCPDriver := mkDriver {
  signEnvelope : SCPStatement → list Z;
  getQSet : Hash → option SCPQuorumSet;
  validateValue : Z → Value → bool → ValidationLevel;
  extractValidValue : Z → Value → Value;
  computeHashNode : Z → Value → bool → Z → NodeID → Z;
  computeValueHash : Z → Value → Z → Value → Z;
  combineCandidates : Z → list Value → Value }.

(** [SCPDriver::computeTimeout], in seconds. *)
Definition MAX_TIMEOUT_SECONDS : Z := 30 * 60.
Definition computeTimeout (roundNumber : Z) : Z :=
  if MAX_TIMEOUT_SECONDS <? roundNumber then MAX_TIMEOUT_SECONDS else roundNumber.

Record Env := mkEnv {
  debug : bool;
  clock : nat → Z;
  localNode : LocalNodeT;
  driver : SCPDriver }.

Definition localID (E : Env) : NodeID := mNodeID (localNode E).
Definition localQSet (E : Env) : SCPQuorumSet := mQSet (localNode E).

(** The callbacks of the driver that return nothing, with the timer's payload. *)
Inductive timerID := NOMINATION_TIMER | BALLOT_PROTOCOL_TIMER.
Inductive Event :=
| emitEnvelope (e : SCPEnvelope)
| valueExternalized (v : Value)
| nominatingValue (v : Value)
| updatedCandidateValue (v : Value)
| startedBallotProtocol (b : SCPBallot)
| acceptedBallotPrepared (b : SCPBallot)
| confirmedBallotPrepared (b : SCPBallot)
| acceptedCommit (b : SCPBallot)
| ballotDidHearFromQuorum (b : SCPBallot)
| setupTimer (t : timerID) (seconds : Z) (active : bool).

(** ** The state *)

Inductive SCPPhase := SCP_PHASE_PREPARE | SCP_PHASE_CONFIRM | SCP_PHASE_EXTERNALIZE.
#[global] Instance SCPPhase_eq_dec : EqDecision SCPPhase.
Proof. solve_decision. Defined.

(** A [shared_ptr<SCPEnvelope>]: the number of the allocation and its content. *)
Definition EnvelopePtr : Type := option (nat * SCPEnvelope).

Record BallotProtocol := mkBallotProtocol {
  mHeardFromQuorum : bool;
  mCurrentBallot : option SCPBallot;
  mPrepared : option SCPBallot;
  mPreparedPrime : option SCPBallot;
  mHighBallot : option SCPBallot;
  mCommit : option SCPBallot;
  mLatestEnvelopes : gmap NodeID SCPEnvelope;
  mPhase : SCPPhase;
  mValueOverride : option Value;
  mCurrentMessageLevel : Z;
  mLastEnvelope : EnvelopePtr;
  mLastEnvelopeEmit : EnvelopePtr }.

Definition initBallotProtocol : BallotProtocol :=
  mkBallotProtocol false None None None None None ∅ SCP_PHASE_PREPARE None 0 None None.

Record NominationProtocol := mkNominationProtocol {
  mRoundNumber : Z;
  mVotes : list Value;
  mAccepted : list Value;
  mCandidates : list Value;
  mLatestNominations : gmap NodeID SCPEnvelope;
  mNomLastEnvelope : option SCPEnvelope;
  mRoundLeaders : list NodeID;
  mNominationStarted : bool;
  mLatestCompositeCandidate : Value;
  mPreviousValue : Value }.

Definition initNominationProtocol : NominationProtocol :=
  mkNominationProtocol 0 [] [] [] ∅ None [] false [] [].

Record HistoricalStatement := mkHistorical {
  mWhen : Z; mStatement : SCPStatement; mValidated : bool }.

(** [class Slot], with the number of envelopes allocated so far and the calls made
    to the driver, newest first. *)
Record Slot := mkSlot {
  mSlotIndex : Z;
  mBallotProtocol : BallotProtocol;
  mNominationProtocol : NominationProtocol;
  mStatementsHistory : list HistoricalStatement;
  mFullyValidated : bool;
  allocated : nat;
  calls : list Event }.

Definition newSlot (E : Env) (slotIndex : Z) : Slot :=
  mkSlot slotIndex initBallotProtocol initNominationProtocol [] (mIsValidator (localNode E)) 0 [].

(** ** Assignments *)

Definition setB (f : BallotProtocol → BallotProtocol) (s : Slot) : Slot :=
  mkSlot (mSlotIndex s) (f (mBallotProtocol s)) (mNominationProtocol s) (mStatementsHistory s)
    (mFullyValidated s) (allocated s) (calls s).
Definition setN (f : NominationProtocol → NominationProtocol) (s : Slot) : Slot :=
  mkSlot (mSlotIndex s) (mBallotProtocol s) (f (mNominationProtocol s)) (mStatementsHistory s)
    (mFullyValidated s) (allocated s) (calls s).

Section BallotSetters.
Variable b : BallotProtocol.
Definition set_heard x := mkBallotProtocol x (mCurrentBallot b) (mPrepared b) (mPreparedPrime b)
  (mHighBallot b) (mCommit b) (mLatestEnvelopes b) (mPhase b) (mValueOverride b)
  (mCurrentMessageLevel b) (mLastEnvelope b) (mLastEnvelopeEmit b).
Definition set_current x := mkBallotProtocol (mHeardFromQuorum b) x (mPrepared b) (mPreparedPrime b)
  (mHighBallot b) (mCommit b) (mLatestEnvelopes b) (mPhase b) (mValueOverride b)
  (mCurrentMessageLevel b) (mLastEnvelope b) (mLastEnvelopeEmit b).
Definition set_prepared x := mkBallotProtocol (mHeardFromQuorum b) (mCurrentBallot b) x (mPreparedPrime b)
  (mHighBallot b) (mCommit b) (mLatestEnvelopes b) (mPhase b) (mValueOverride b)
  (mCurrentMessageLevel b) (mLastEnvelope b) (mLastEnvelopeEmit b).
Definition set_preparedPrime x := mkBallotProtocol (mHeardFromQuorum b) (mCurrentBallot b) (mPrepared b) x
  (mHighBallot b) (mCommit b) (mLatestEnvelopes b) (mPhase b) (mValueOverride b)
  (mCurrentMessageLevel b) (mLastEnvelope b) (mLastEnvelopeEmit b).
Definition set_high x := mkBallotProtocol (mHeardFromQuorum b) (mCurrentBallot b) (mPrepared b)
  (mPreparedPrime b) x (mCommit b) (mLatestEnvelopes b) (mPhase b) (mValueOverride b)
  (mCurrentMessageLevel b) (mLastEnvelope b) (mLastEnvelopeEmit b).
Definition set_commit x := mkBallotProtocol (mHeardFromQuorum b) (mCurrentBallot b) (mPrepared b)
  (mPreparedPrime b) (mHighBallot b) x (mLatestEnvelopes b) (mPhase b) (mValueOverride b)
  (mCurrentMessageLevel b) (mLastEnvelope b) (mLastEnvelopeEmit b).
Definition set_latest x := mkBallotProtocol (mHeardFromQuorum b) (mCurrentBallot b) (mPrepared b)
  (mPreparedPrime b) (mHighBallot b) (mCommit b) x (mPhase b) (mValueOverride b)
  (mCurrentMessageLevel b) (mLastEnvelope b) (mLastEnvelopeEmit b).
Definition set_phase x := mkBallotProtocol (mHeardFromQuorum b) (mCurrentBallot b) (mPrepared b)
  (mPreparedPrime b) (mHighBallot b) (mCommit b) (mLatestEnvelopes b) x (mValueOverride b)
  (mCurrentMessageLevel b) (mLastEnvelope b) (mLastEnvelopeEmit b).
Definition set_override x := mkBallotProtocol (mHeardFromQuorum b) (mCurrentBallot b) (mPrepared b)
  (mPreparedPrime b) (mHighBallot b) (mCommit b) (mLatestEnvelopes b) (mPhase b) x
  (mCurrentMessageLevel b) (mLastEnvelope b) (mLastEnvelopeEmit b).
Definition set_level x := mkBallotProtocol (mHeardFromQuorum b) (mCurrentBallot b) (mPrepared b)
  (mPreparedPrime b) (mHighBallot b) (mCommit b) (mLatestEnvelopes b) (mPhase b) (mValueOverride b)
  x (mLastEnvelope b) (mLastEnvelopeEmit b).
Definition set_last x := mkBallotProtocol (mHeardFromQuorum b) (mCurrentBallot b) (mPrepared b)
  (mPreparedPrime b) (mHighBallot b) (mCommit b) (mLatestEnvelopes b) (mPhase b) (mValueOverride b)
  (mCurrentMessageLevel b) x (mLastEnvelopeEmit b).
Definition set_lastEmit x := mkBallotProtocol (mHeardFromQuorum b) (mCurrentBallot b) (mPrepared b)
  (mPreparedPrime b) (mHighBallot b) (mCommit b) (mLatestEnvelopes b) (mPhase b) (mValueOverride b)
  (mCurrentMessageLevel b) (mLastEnvelope b) x.
End BallotSetters.

Section NominationSetters.
Variable n : NominationProtocol.
Definition set_round x := mkNominationProtocol x (mVotes n) (mAccepted n) (mCandidates n)
  (mLatestNominations n) (mNomLastEnvelope n) (mRoundLeaders n) (mNominationStarted n)
  (mLatestCompositeCandidate n) (mPreviousValue n).
Definition set_votes x := mkNominationProtocol (mRoundNumber n) x (mAccepted n) (mCandidates n)
  (mLatestNominations n) (mNomLastEnvelope n) (mRoundLeaders n) (mNominationStarted n)
  (mLatestCompositeCandidate n) (mPreviousValue n).
Definition set_accepted x := mkNominationProtocol (mRoundNumber n) (mVotes n) x (mCandidates n)
  (mLatestNominations n) (mNomLastEnvelope n) (mRoundLeaders n) (mNominationStarted n)
  (mLatestCompositeCandidate n) (mPreviousValue n).
Definition set_candidates x := mkNominationProtocol (mRoundNumber n) (mVotes n) (mAccepted n) x
  (mLatestNominations n) (mNomLastEnvelope n) (mRoundLeaders n) (mNominationStarted n)
  (mLatestCompositeCandidate n) (mPreviousValue n).
Definition set_nominations x := mkNominationProtocol (mRoundNumber n) (mVotes n) (mAccepted n)
  (mCandidates n) x (mNomLastEnvelope n) (mRoundLeaders n) (mNominationStarted n)
  (mLatestCompositeCandidate n) (mPreviousValue n).
Definition set_nomLast x := mkNominationProtocol (mRoundNumber n) (mVotes n) (mAccepted n)
  (mCandidates n) (mLatestNominations n) x (mRoundLeaders n) (mNominationStarted n)
  (mLatestCompositeCandidate n) (mPreviousValue n).
Definition set_leaders x := mkNominationProtocol (mRoundNumber n) (mVotes n) (mAccepted n)
  (mCandidates n) (mLatestNominations n) (mNomLastEnvelope n) x (mNominationStarted n)
  (mLatestCompositeCandidate n) (mPreviousValue n).
Definition set_started x := mkNominationProtocol (mRoundNumber n) (mVotes n) (mAccepted n)
  (mCandidates n) (mLatestNominations n) (mNomLastEnvelope n) (mRoundLeaders n) x
  (mLatestCompositeCandidate n) (mPreviousValue n).
Definition set_composite x := mkNominationProtocol (mRoundNumber n) (mVotes n) (mAccepted n)
  (mCandidates n) (mLatestNominations n) (mNomLastEnvelope n) (mRoundLeaders n) (mNominationStarted n)
  x (mPreviousValue n).
Definition set_previous x := mkNominationProtocol (mRoundNumber n) (mVotes n) (mAccepted n)
  (mCandidates n) (mLatestNominations n) (mNomLastEnvelope n) (mRoundLeaders n) (mNominationStarted n)
  (mLatestCompositeCandidate n) x.
End NominationSetters.

(** Reading a field of the ballot or nomination protocol, assigning one, and
    calling the driver. *)
Definition bget {A} (f : BallotProtocol → A) : M Slot A := λ s, Ok (f (mBallotProtocol s)) s.
Definition nget {A} (f : NominationProtocol → A) : M Slot A := λ s, Ok (f (mNominationProtocol s)) s.
Definition sget {A} (f : Slot → A) : M Slot A := λ s, Ok (f s) s.
Definition bset {A} (f : BallotProtocol → A → BallotProtocol) (x : A) : M Slot unit :=
  modify (setB (λ b, f b x)).
Definition nset {A} (f : NominationProtocol → A → NominationProtocol) (x : A) : M Slot unit :=
  modify (setN (λ n, f n x)).
Definition call (e : Event) : M Slot unit :=
  modify (λ s, mkSlot (mSlotIndex s) (mBallotProtocol s) (mNominationProtocol s)
    (mStatementsHistory s) (mFullyValidated s) (allocated s) (e :: calls s)).
(** [make_shared<SCPEnvelope>]. *)
Definition makeShared (e : SCPEnvelope) : M Slot EnvelopePtr := λ s,
  Ok (Some (allocated s, e)) (mkSlot (mSlotIndex s) (mBallotProtocol s) (mNominationProtocol s)
    (mStatementsHistory s) (mFullyValidated s) (S (allocated s)) (calls s)).

(** ** Operations of [Slot] that both protocols use *)

Section SlotOps.
Variable E : Env.

(** [dbgAssert]: nothing at all in a build with [NDEBUG]; otherwise the
    expression is evaluated (it may dereference a null pointer) and the process
    aborts when it is false. *)
Definition dbgAssertM (m : M Slot bool) : M Slot unit :=
  if debug E then b ← m; if (b : bool) then mret tt else crash "dbgAssert" else mret tt.
Definition dbgAssert (b : bool) : M Slot unit := dbgAssertM (mret b).

Definition setFullyValidated (b : bool) : M Slot unit :=
  modify (λ s, mkSlot (mSlotIndex s) (mBallotProtocol s) (mNominationProtocol s)
    (mStatementsHistory s) b (allocated s) (calls s)).
Definition isFullyValidated : M Slot bool := sget mFullyValidated.

Definition recordStatement (st : SCPStatement) : M Slot unit :=
  modify (λ s, mkSlot (mSlotIndex s) (mBallotProtocol s) (mNominationProtocol s)
    (mStatementsHistory s
       ++ [mkHistorical (clock E (length (mStatementsHistory s))) st (mFullyValidated s)])
    (mFullyValidated s) (allocated s) (calls s)).

Definition createEnvelope (st : SCPStatement) : M Slot SCPEnvelope :=
  i ← sget mSlotIndex;
  let mySt := mkStatement (localID E) i (pledges st) in
  mret (mkEnvelope mySt (signEnvelope (driver E) mySt)).

Definition getQuorumSetFromStatement (st : SCPStatement) : option SCPQuorumSet :=
  match pledges st with
  | externalize _ => Some (getSingletonQSet (nodeID st))
  | prepare p => getQSet (driver E) (p_quorumSetHash p)
  | confirm c => getQSet (driver E) (c_quorumSetHash c)
  | nominate n => getQSet (driver E) (n_quorumSetHash n)
  end.

Definition federatedAccept (voted accepted : SCPStatement → bool) (envs : gmap NodeID SCPEnvelope) : bool :=
  if isVBlocking (localQSet E) envs accepted then true
  else
    let ratifyFilter := λ st, accepted st || voted st in
    if isQuorum envs getQuorumSetFromStatement (localQSet E) ratifyFilter then true else false.

Definition federatedRatify (voted : SCPStatement → bool) (envs : gmap NodeID SCPEnvelope) : bool :=
  isQuorum envs getQuorumSetFromStatement (localQSet E) voted.
End SlotOps.

(** [SCP::EnvelopeState]. *)
Inductive EnvelopeState := INVALID | VALID.
#[global] Instance EnvelopeState_eq_dec : EqDecision EnvelopeState.
Proof. solve_decision. Defined.

(** Federated voting is monotone in what the nodes say. *)
Lemma federatedRatify_mono E envs f f' :
  (∀ n e, envs !! n = Some e → f (statement e) = true → f' (statement e) = true) →
  federatedRatify E f envs = true → federatedRatify E f' envs = true.
Proof. apply isQuorum_mono. Qed.

Lemma federatedAccept_mono E envs v v' a a' :
  (∀ n e, envs !! n = Some e → a (statement e) = true → a' (statement e) = true) →
  (∀ n e, envs !! n = Some e → a (statement e) || v (statement e) = true →
     a' (statement e) || v' (statement e) = true) →
  federatedAccept E v a envs = true → federatedAccept E v' a' envs = true.
Proof.
  intros Ha Hv. unfold federatedAccept.
  destruct (isVBlocking (localQSet E) envs a) eqn:E1.
  - by rewrite (isVBlocking_filter_mono _ _ _ _ Ha E1).
  - destruct (isQuorum envs (getQuorumSetFromStatement E) (localQSet E) (λ st, a st || v st)) eqn:E2; [|done].
    rewrite (isQuorum_mono _ _ _ (λ st, a st || v st) (λ st, a' st || v' st) Hv E2).
    by destruct (isVBlocking _ _ a').
Qed.

(** Federated voting is monotone and its two verdicts are ordered: if every
    node that voted or accepted still does, what was accepted or ratified still is;
    and what a quorum has ratified can be accepted. *)
Theorem federated_voting_monotone E envs (voted voted' accepted accepted' : SCPStatement → bool) :
  (∀ n e, envs !! n = Some e → accepted (statement e) = true → accepted' (statement e) = true) →
  (∀ n e, envs !! n = Some e → voted (statement e) = true → voted' (statement e) = true) →
  (federatedAccept E voted accepted envs = true → federatedAccept E voted' accepted' envs = true) ∧
  (federatedRatify E voted envs = true → federatedRatify E voted' envs = true) ∧
  (federatedRatify E voted envs = true → federatedAccept E voted' accepted' envs = true).
Proof.
  intros Ha Hv. split_and!.
  - apply federatedAccept_mono; [done|]. intros n e He. rewrite !orb_true_iff. intros [?|?]; eauto.
  - by apply federatedRatify_mono.
  - intros Hr. unfold federatedAccept. destruct (isVBlocking _ _ _); [done|].
    unfold federatedRatify in Hr. rewrite (isQuorum_mono _ _ _ voted); [done| |done].
    intros n e He Hn. apply orb_true_iff. eauto.
Qed.

Lemma federated_voting_monotone_witness :
  let ln := mkLocalNode 0 true (QSet 1 [1] []) 0 (QSet 1 [0] []) 0 in
  let d := mkDriver (λ _, []) (λ _, Some (QSet 1 [1] [])) (λ _ _ _, kFullyValidatedValue) (λ _ v, v)
             (λ _ _ _ _ _, 0) (λ _ _ _ _, 0) (λ _ _, []) in
  let st := mkStatement 1 7 (externalize (mkExternalize (mkBallot 1 [5]) 2 0)) in
  federatedAccept (mkEnv false (λ _, 0) ln d) (λ _, true) (λ _, false) {[1 := mkEnvelope st []]} = true.
Proof.
  refine (proj2 (proj2 (federated_voting_monotone _ _ (λ _, true) (λ _, true) (λ _, false) (λ _, false) _ _)) _);
    [intros; assumption..|]. vm_compute. reflexivity.
Defined.
