(* ===== verification/Ballot.v ===== *)
(** * The ballot protocol: [scp/BallotProtocol.cpp]

    Every member function of [BallotProtocol] that reads or changes the state.
    The protocol calls itself through [mSlot.processEnvelope] when it emits a
    statement: the functions below take that call as the argument
    [slot_processEnvelope], and [SlotProtocol] ties the knot. *)
From stdpp Require Import base list gmap strings.
From S2P Require Import Prelude QuorumSet Statement LocalNode Slot.

Definition MAX_ADVANCE_SLOT_RECURSION : Z := 50.

(** ** Functions that only read *)

(** [isNewerStatement(nodeID, st)]: against the latest statement of the node. *)
Definition isNewerThanLatest (latest : gmap NodeID SCPEnvelope) (n : NodeID) (st : SCPStatement) : bool :=
  match latest !! n with
  | None => true
  | Some e => isNewerBallotStatement (statement e) st
  end.

Definition isStatementSane (E : Env) (st : SCPStatement) (self : bool) : bool :=
  match getQuorumSetFromStatement E st with
  | Some q => if isQuorumSetSane q false then pledgesSane (pledges st) self else false
  | None => false
  end.

(** The values that a statement is about, as a [std::set<Value>]. *)
Definition statementValues (p : Pledges) : option (list Value) :=
  match p with
  | prepare p =>
    let values := if negb (counter (p_ballot p) =? 0) then set_insert (value (p_ballot p)) [] else [] in
    Some (match p_prepared p with Some b => set_insert (value b) values | None => values end)
  | confirm c => Some (set_insert (value (c_ballot c)) [])
  | externalize e => Some (set_insert (value (e_commit e)) [])
  | nominate _ => None
  end.

Definition validateValues (E : Env) (slotIndex : Z) (st : SCPStatement) : ValidationLevel :=
  match statementValues (pledges st) with
  | None => kInvalidValue
  | Some values =>
    foldl (λ res v,
      match validateValue (driver E) slotIndex v false with
      | kFullyValidatedValue => res
      | kInvalidValue => kInvalidValue
      | kMaybeValidValue => kMaybeValidValue
      end) kFullyValidatedValue values
  end.

(** *** [getPrepareCandidates] *)

Definition insertOpt (o : option SCPBallot) (l : list SCPBallot) : list SCPBallot :=
  match o with Some b => set_insert b l | None => l end.

Definition hintBallots (hint : SCPStatement) : list SCPBallot :=
  match pledges hint with
  | prepare p => insertOpt (p_preparedPrime p) (insertOpt (p_prepared p) (set_insert (p_ballot p) []))
  | confirm c =>
    set_insert (mkBallot UINT32_MAX (value (c_ballot c)))
      (set_insert (mkBallot (c_nPrepared c) (value (c_ballot c))) [])
  | externalize e => set_insert (mkBallot UINT32_MAX (value (e_commit e))) []
  | nominate _ => []
  end.

Definition insertIf (c : bool) (b : SCPBallot) (l : list SCPBallot) : list SCPBallot :=
  if c then set_insert b l else l.

(** The ballots that the statement [st] adds below [topVote]. *)
Definition addCandidates (topVote : SCPBallot) (candidates : list SCPBallot) (st : SCPStatement)
    : list SCPBallot :=
  match pledges st with
  | prepare p =>
    let insertLess o l :=
      match o with Some b => insertIf (areBallotsLessAndCompatible b topVote) b l | None => l end in
    insertLess (p_preparedPrime p) (insertLess (p_prepared p)
      (insertIf (areBallotsLessAndCompatible (p_ballot p) topVote) (p_ballot p) candidates))
  | confirm c =>
    if areBallotsCompatible topVote (c_ballot c)
    then insertIf (c_nPrepared c <? counter topVote) (mkBallot (c_nPrepared c) (value topVote))
           (set_insert topVote candidates)
    else candidates
  | externalize e => insertIf (areBallotsCompatible topVote (e_commit e)) topVote candidates
  | nominate _ => candidates
  end.

(** The [while] loop takes the hints from the largest. *)
Definition getPrepareCandidates (latest : gmap NodeID SCPEnvelope) (hint : SCPStatement) : list SCPBallot :=
  foldl (λ candidates topVote,
           foldl (λ candidates e, addCandidates topVote candidates (statement e.2))
                 candidates (map_iter latest))
        [] (reverse (hintBallots hint)).

(** *** Commit intervals *)

Definition getCommitBoundariesFromStatements (latest : gmap NodeID SCPEnvelope) (ballot : SCPBallot)
    : list Z :=
  foldl (λ res e,
    match pledges (statement e.2) with
    | prepare p =>
      if areBallotsCompatible ballot (p_ballot p)
      then if negb (p_nC p =? 0) then set_insert (p_nH p) (set_insert (p_nC p) res) else res
      else res
    | confirm c =>
      if areBallotsCompatible ballot (c_ballot c)
      then set_insert (c_nH c) (set_insert (c_nCommit c) res) else res
    | externalize ext =>
      if areBallotsCompatible ballot (e_commit ext)
      then set_insert UINT32_MAX (set_insert (e_nH ext) (set_insert (counter (e_commit ext)) res))
      else res
    | nominate _ => res
    end) [] (map_iter latest).

(** [findExtendedInterval]; the boundaries come in decreasing order. *)
Fixpoint extendInterval (pred : Z * Z → bool) (candidate : Z * Z) (boundaries : list Z) : Z * Z :=
  match boundaries with
  | [] => candidate
  | b :: r =>
    let attempt cur :=
      if pred cur then extendInterval pred cur r
      else if negb (candidate.1 =? 0) then candidate
      else extendInterval pred candidate r in
    if candidate.1 =? 0 then attempt (b, b)
    else if candidate.2 <? b then extendInterval pred candidate r
    else attempt (b, candidate.2)
  end.
Definition findExtendedInterval (candidate : Z * Z) (boundaries : list Z) (pred : Z * Z → bool) : Z * Z :=
  extendInterval pred candidate (reverse boundaries).

Definition hasVBlockingSubsetStrictlyAheadOf (E : Env) (latest : gmap NodeID SCPEnvelope) (n : Z) : bool :=
  isVBlocking (localQSet E) latest (λ st, n <? statementBallotCounter st).

(** The counters of [attemptBump] that are larger than the local one. *)
Definition countersAbove (latest : gmap NodeID SCPEnvelope) (localCounter : Z) : list Z :=
  foldl (λ res e, let c := statementBallotCounter (statement e.2) in
                  if localCounter <? c then set_insert c res else res) [] (map_iter latest).

(** *** The searches of [attemptPreparedConfirmed] *)

(** The first loop: the highest confirmed ballot, with the iterator's rest. *)
Fixpoint findNewH (E : Env) (latest : gmap NodeID SCPEnvelope) (h : option SCPBallot)
    (candidates : list SCPBallot) : option (SCPBallot * list SCPBallot) :=
  match candidates with
  | [] => None
  | ballot :: r =>
    if match h with Some h => 0 <=? compareBallots h ballot | None => false end then None
    else if federatedRatify E (hasPreparedBallot ballot) latest then Some (ballot, candidates)
    else findNewH E latest h r
  end.

(** The second loop: the lowest confirmed ballot down to [b]. *)
Fixpoint findNewC (E : Env) (latest : gmap NodeID SCPEnvelope) (b newH newC : SCPBallot)
    (candidates : list SCPBallot) : SCPBallot :=
  match candidates with
  | [] => newC
  | ballot :: r =>
    if compareBallots ballot b <? 0 then newC
    else if negb (areBallotsLessAndCompatible ballot newH) then findNewC E latest b newH newC r
    else if federatedRatify E (hasPreparedBallot ballot) latest then findNewC E latest b newH ballot r
    else newC
  end.

(** ** Functions that change the state *)

Section BallotOps.
Variable E : Env.
Variable slot_processEnvelope : SCPEnvelope → bool → M Slot EnvelopeState.

Definition recordEnvelope (env : SCPEnvelope) : M Slot unit :=
  latest ← bget mLatestEnvelopes;
  bset set_latest (<[nodeID (statement env) := env]> latest);;
  recordStatement E (statement env).

Definition sendLatestEnvelope : M Slot unit :=
  level ← bget mCurrentMessageLevel;
  last ← bget mLastEnvelope;
  validated ← isFullyValidated;
  match last with
  | Some (id, e) =>
    if (level =? 0) && validated then
      lastEmit ← bget mLastEnvelopeEmit;
      if match lastEmit with Some (id', _) => negb (id =? id')%nat | None => true end then
        bset set_lastEmit last;;
        call (emitEnvelope e)
      else mret tt
    else mret tt
  | None => mret tt
  end.

Definition checkInvariants : M Slot unit :=
  b ← bget mCurrentBallot;
  p ← bget mPrepared;
  pp ← bget mPreparedPrime;
  h ← bget mHighBallot;
  c ← bget mCommit;
  match b with Some b => dbgAssert E (negb (counter b =? 0)) | None => mret tt end;;
  match p, pp with
  | Some p, Some pp => dbgAssert E (areBallotsLessAndIncompatible pp p)
  | _, _ => mret tt
  end;;
  match h with
  | Some h =>
    dbgAssert E (bool_decide (is_Some b));;
    dbgAssertM E (b ← deref b; mret (areBallotsLessAndCompatible h b))
  | None => mret tt
  end;;
  match c with
  | Some c =>
    dbgAssert E (bool_decide (is_Some b));;
    dbgAssertM E (h ← deref h; mret (areBallotsLessAndCompatible c h));;
    dbgAssertM E (h ← deref h; b ← deref b; mret (areBallotsLessAndCompatible h b))
  | None => mret tt
  end;;
  phase ← bget mPhase;
  match phase with
  | SCP_PHASE_PREPARE => mret tt
  | SCP_PHASE_CONFIRM => dbgAssert E (bool_decide (is_Some c))
  | SCP_PHASE_EXTERNALIZE =>
    dbgAssert E (bool_decide (is_Some c));;
    dbgAssert E (bool_decide (is_Some h))
  end.

Definition createStatement (type : SCPStatementType) : M Slot SCPStatement :=
  checkInvariants;;
  b ← bget mCurrentBallot;
  p ← bget mPrepared;
  pp ← bget mPreparedPrime;
  h ← bget mHighBallot;
  c ← bget mCommit;
  let hash := mQSetHash (localNode E) in
  let count o := match o with Some b => counter b | None => 0 end in
  pl ← match type with
       | SCP_ST_PREPARE =>
         mret (prepare (mkPrepare hash (default ballot0 b) p pp (count c) (count h)))
       | SCP_ST_CONFIRM =>
         b ← deref b;
         p ← deref p;
         c ← deref c;
         h ← deref h;
         mret (confirm (mkConfirm b (counter p) (counter c) (counter h) hash))
       | SCP_ST_EXTERNALIZE =>
         c ← deref c;
         h ← deref h;
         mret (externalize (mkExternalize c (counter h) hash))
       | SCP_ST_NOMINATE => crash "dbgAbort"
       end;
  mret (mkStatement 0 0 pl).

Definition emitCurrentStateStatement : M Slot unit :=
  phase ← bget mPhase;
  let t := match phase with
           | SCP_PHASE_PREPARE => SCP_ST_PREPARE
           | SCP_PHASE_CONFIRM => SCP_ST_CONFIRM
           | SCP_PHASE_EXTERNALIZE => SCP_ST_EXTERNALIZE
           end in
  statement_ ← createStatement t;
  envelope ← createEnvelope E statement_;
  b ← bget mCurrentBallot;
  let canEmit := bool_decide (is_Some b) in
  latest ← bget mLatestEnvelopes;
  if match latest !! localID E with
     | None => true
     | Some lastEnv => negb (bool_decide (lastEnv = envelope))
     end
  then
    res ← slot_processEnvelope envelope true;
    match res with
    | VALID =>
      last ← bget mLastEnvelope;
      if canEmit && match last with
                    | None => true
                    | Some (_, l) => isNewerBallotStatement (statement l) (statement envelope)
                    end
      then
        ptr ← makeShared envelope;
        bset set_last ptr;;
        sendLatestEnvelope
      else mret tt
    | INVALID => throw "moved to a bad state (ballot protocol)"
    end
  else mret tt.

Definition bumpToBallot (ballot : SCPBallot) (check : bool) : M Slot unit :=
  phase ← bget mPhase;
  b ← bget mCurrentBallot;
  dbgAssert E (negb (bool_decide (phase = SCP_PHASE_EXTERNALIZE)));;
  (if check
   then dbgAssert E (match b with None => true | Some b => 0 <=? compareBallots ballot b end)
   else mret tt);;
  let gotBumped := match b with None => true | Some b => negb (counter b =? counter ballot) end in
  match b with None => call (startedBallotProtocol ballot) | Some _ => mret tt end;;
  bset set_current (Some ballot);;
  h ← bget mHighBallot;
  match h with
  | Some h => if negb (areBallotsCompatible ballot h) then bset set_high None else mret tt
  | None => mret tt
  end;;
  (if gotBumped then bset set_heard false else mret tt).

Definition startBallotProtocolTimer : M Slot unit :=
  b ← bget mCurrentBallot;
  b ← deref b;
  call (setupTimer BALLOT_PROTOCOL_TIMER (computeTimeout (counter b)) true).
Definition stopBallotProtocolTimer : M Slot unit :=
  call (setupTimer BALLOT_PROTOCOL_TIMER 0 false).

Definition checkHeardFromQuorum : M Slot unit :=
  ob ← bget mCurrentBallot;
  latest ← bget mLatestEnvelopes;
  match ob with
  | None => mret tt
  | Some b =>
    if isQuorum latest (getQuorumSetFromStatement E) (localQSet E)
         (λ st, match pledges st with
                | prepare p => counter b <=? counter (p_ballot p)
                | _ => true
                end)
    then
      oldHQ ← bget mHeardFromQuorum;
      bset set_heard true;;
      phase ← bget mPhase;
      (if negb (oldHQ : bool) then
         call (ballotDidHearFromQuorum b);;
         if negb (bool_decide (phase = SCP_PHASE_EXTERNALIZE)) then startBallotProtocolTimer
         else mret tt
       else mret tt);;
      (if bool_decide (phase = SCP_PHASE_EXTERNALIZE) then stopBallotProtocolTimer else mret tt)
    else
      bset set_heard false;;
      stopBallotProtocolTimer
  end.

Definition updateCurrentIfNeeded (h : SCPBallot) : M Slot bool :=
  b ← bget mCurrentBallot;
  if match b with None => true | Some b => compareBallots b h <? 0 end
  then bumpToBallot h true;; mret true
  else mret false.

Definition updateCurrentValue (ballot : SCPBallot) : M Slot bool :=
  phase ← bget mPhase;
  if bool_decide (phase = SCP_PHASE_EXTERNALIZE) then mret false
  else
    b ← bget mCurrentBallot;
    c ← bget mCommit;
    match b with
    | None => bumpToBallot ballot true;; checkInvariants;; mret true
    | Some b =>
      dbgAssert E (compareBallots b ballot <=? 0);;
      if match c with Some c => negb (areBallotsCompatible c ballot) | None => false end
      then mret false
      else
        let comp := compareBallots b ballot in
        if comp <? 0 then bumpToBallot ballot true;; checkInvariants;; mret true
        else if 0 <? comp then mret false
        else checkInvariants;; mret false
    end.

(** [bumpState(value, n)]. *)
Definition bumpStateTo (v : Value) (n : Z) : M Slot bool :=
  phase ← bget mPhase;
  if bool_decide (phase = SCP_PHASE_EXTERNALIZE) then mret false
  else
    override ← bget mValueOverride;
    let newb := mkBallot n (match override with Some z => z | None => v end) in
    updated ← updateCurrentValue newb;
    if (updated : bool) then
      emitCurrentStateStatement;;
      checkHeardFromQuorum;;
      mret true
    else mret false.

(** [bumpState(value, force)]. *)
Definition bumpState (v : Value) (force : bool) : M Slot bool :=
  b ← bget mCurrentBallot;
  if negb force && bool_decide (is_Some b) then mret false
  else bumpStateTo v (match b with Some b => u32 (counter b + 1) | None => 1 end).

Definition abandonBallot (n : Z) : M Slot bool :=
  v ← nget mLatestCompositeCandidate;
  b ← bget mCurrentBallot;
  let v := if bool_decide (v = []) then match b with Some b => value b | None => v end else v in
  if bool_decide (v = []) then mret false
  else if n =? 0 then bumpState v true
  else bumpStateTo v n.

Definition ballotProtocolTimerExpired : M Slot unit :=
  abandonBallot 0;; mret tt.

(** The counters are tried in increasing order. *)
Fixpoint tryCounters (latest : gmap NodeID SCPEnvelope) (counters : list Z) : M Slot bool :=
  match counters with
  | [] => mret false
  | n :: r =>
    if negb (hasVBlockingSubsetStrictlyAheadOf E latest n) then abandonBallot n
    else tryCounters latest r
  end.

Definition attemptBump : M Slot bool :=
  phase ← bget mPhase;
  if negb (bool_decide (phase = SCP_PHASE_EXTERNALIZE)) then
    b ← bget mCurrentBallot;
    latest ← bget mLatestEnvelopes;
    let localCounter := match b with Some b => counter b | None => 0 end in
    if negb (hasVBlockingSubsetStrictlyAheadOf E latest localCounter) then mret false
    else tryCounters latest (countersAbove latest localCounter)
  else mret false.

(** [setPrepared]: the new [(p, p')] and whether they changed. *)
Definition setPreparedPair (p pp : option SCPBallot) (ballot : SCPBallot)
    : option SCPBallot * option SCPBallot * bool :=
  match p with
  | Some q =>
    let comp := compareBallots q ballot in
    if comp <? 0 then
      (Some ballot, if negb (areBallotsCompatible q ballot) then Some q else pp, true)
    else if 0 <? comp then
      if match pp with
         | None => true
         | Some qq => (compareBallots qq ballot <? 0) && negb (areBallotsCompatible q ballot)
         end
      then (p, Some ballot, true)
      else (p, pp, false)
    else (p, pp, false)
  | None => (Some ballot, pp, true)
  end.

Definition setPrepared (ballot : SCPBallot) : M Slot bool :=
  p ← bget mPrepared;
  pp ← bget mPreparedPrime;
  let '(p', pp', didWork) := setPreparedPair p pp ballot in
  bset set_prepared p';;
  bset set_preparedPrime pp';;
  mret didWork.

Definition setPreparedAccept (ballot : SCPBallot) : M Slot bool :=
  didWork ← setPrepared ballot;
  c ← bget mCommit;
  h ← bget mHighBallot;
  p ← bget mPrepared;
  pp ← bget mPreparedPrime;
  let aborts o h := match o with Some b => areBallotsLessAndIncompatible h b | None => false end in
  didWork ← (match c, h with
             | Some _, Some h =>
               if aborts p h || aborts pp h then
                 phase ← bget mPhase;
                 dbgAssert E (bool_decide (phase = SCP_PHASE_PREPARE));;
                 bset set_commit None;;
                 mret true
               else mret didWork
             | _, _ => mret didWork
             end);
  if (didWork : bool) then
    call (acceptedBallotPrepared ballot);;
    emitCurrentStateStatement;;
    mret true
  else mret false.

(** The loop of [attemptPreparedAccept], over the candidates in decreasing order. *)
Fixpoint acceptLoop (candidates : list SCPBallot) : M Slot bool :=
  match candidates with
  | [] => mret false
  | ballot :: r =>
    phase ← bget mPhase;
    op ← bget mPrepared;
    opp ← bget mPreparedPrime;
    skip ← (if bool_decide (phase = SCP_PHASE_CONFIRM) then
              p ← deref op;
              if negb (areBallotsLessAndCompatible p ballot) then mret true
              else
                c ← bget mCommit;
                dbgAssertM E (c ← deref c; mret (areBallotsCompatible c ballot));;
                mret false
            else mret false);
    if (skip : bool) then acceptLoop r
    else if match opp with Some pp => compareBallots ballot pp <=? 0 | None => false end
    then acceptLoop r
    else if match op with Some p => areBallotsLessAndCompatible ballot p | None => false end
    then acceptLoop r
    else
      latest ← bget mLatestEnvelopes;
      if federatedAccept E (votedPrepare ballot) (hasPreparedBallot ballot) latest
      then setPreparedAccept ballot
      else acceptLoop r
  end.

Definition attemptPreparedAccept (hint : SCPStatement) : M Slot bool :=
  phase ← bget mPhase;
  if bool_decide (phase = SCP_PHASE_EXTERNALIZE) then mret false
  else
    latest ← bget mLatestEnvelopes;
    acceptLoop (reverse (getPrepareCandidates latest hint)).

Definition setPreparedConfirmed (newC newH : SCPBallot) : M Slot bool :=
  bset set_override (Some (value newH));;
  b ← bget mCurrentBallot;
  didWork ← (if match b with None => true | Some b => areBallotsCompatible b newH end then
               h ← bget mHighBallot;
               didWork ← (if match h with None => true | Some h => 0 <? compareBallots newH h end
                          then bset set_high (Some newH);; mret true else mret false);
               didWork ← (if negb (counter newC =? 0) then
                            c ← bget mCommit;
                            dbgAssert E (bool_decide (c = None));;
                            bset set_commit (Some newC);;
                            mret true
                          else mret (didWork : bool));
               (if (didWork : bool) then call (confirmedBallotPrepared newH) else mret tt);;
               mret didWork
             else mret false);
  updated ← updateCurrentIfNeeded newH;
  let didWork := updated || didWork in
  if didWork then emitCurrentStateStatement;; mret true else mret false.

Definition attemptPreparedConfirmed (hint : SCPStatement) : M Slot bool :=
  phase ← bget mPhase;
  if negb (bool_decide (phase = SCP_PHASE_PREPARE)) then mret false
  else
    p ← bget mPrepared;
    match p with
    | None => mret false
    | Some p =>
      latest ← bget mLatestEnvelopes;
      h ← bget mHighBallot;
      match findNewH E latest h (reverse (getPrepareCandidates latest hint)) with
      | None => mret false
      | Some (newH, cur) =>
        ob ← bget mCurrentBallot;
        c ← bget mCommit;
        pp ← bget mPreparedPrime;
        let b := default ballot0 ob in
        let newC :=
          if bool_decide (c = None)
             && negb (areBallotsLessAndIncompatible newH p)
             && match pp with None => true | Some pp => negb (areBallotsLessAndIncompatible newH pp) end
          then findNewC E latest b newH ballot0 cur
          else ballot0 in
        setPreparedConfirmed newC newH
      end
    end.

Definition setAcceptCommit (c h : SCPBallot) : M Slot bool :=
  bset set_override (Some (value h));;
  oh ← bget mHighBallot;
  oc ← bget mCommit;
  didWork ← (if match oh, oc with
                | Some h', Some c' =>
                  negb (compareBallots h' h =? 0) || negb (compareBallots c' c =? 0)
                | _, _ => true
                end
             then bset set_commit (Some c);; bset set_high (Some h);; mret true
             else mret false);
  phase ← bget mPhase;
  didWork ← (if bool_decide (phase = SCP_PHASE_PREPARE) then
               bset set_phase SCP_PHASE_CONFIRM;;
               b ← bget mCurrentBallot;
               match b with
               | Some b =>
                 if negb (areBallotsLessAndCompatible h b) then bumpToBallot h false else mret tt
               | None => mret tt
               end;;
               bset set_preparedPrime None;;
               mret true
             else mret (didWork : bool));
  if (didWork : bool) then
    h' ← bget mHighBallot;
    h' ← deref h';
    updateCurrentIfNeeded h';;
    call (acceptedCommit h);;
    emitCurrentStateStatement;;
    mret true
  else mret false.

Definition attemptAcceptCommit (hint : SCPStatement) : M Slot bool :=
  phase ← bget mPhase;
  if bool_decide (phase = SCP_PHASE_EXTERNALIZE) then mret false
  else
    oballot ← match pledges hint with
              | prepare p =>
                mret (if negb (p_nC p =? 0) then Some (mkBallot (p_nH p) (value (p_ballot p))) else None)
              | confirm c => mret (Some (mkBallot (c_nH c) (value (c_ballot c))))
              | externalize e => mret (Some (mkBallot (e_nH e) (value (e_commit e))))
              | nominate _ => crash "abort"
              end;
    match oballot with
    | None => mret false
    | Some ballot =>
      compatible ← (if bool_decide (phase = SCP_PHASE_CONFIRM) then
                      h ← bget mHighBallot;
                      h ← deref h;
                      mret (areBallotsCompatible ballot h)
                    else mret true);
      if negb (compatible : bool) then mret false
      else
        latest ← bget mLatestEnvelopes;
        let pred cur :=
          federatedAccept E (votedCommit ballot cur) (commitPredicate ballot cur) latest in
        let boundaries := getCommitBoundariesFromStatements latest ballot in
        if bool_decide (boundaries = []) then mret false
        else
          let candidate := findExtendedInterval (0, 0) boundaries pred in
          if negb (candidate.1 =? 0) then
            larger ← (if bool_decide (phase = SCP_PHASE_CONFIRM) then
                        h ← bget mHighBallot;
                        h ← deref h;
                        mret (counter h <? candidate.2)
                      else mret true);
            if (larger : bool) then
              setAcceptCommit (mkBallot candidate.1 (value ballot)) (mkBallot candidate.2 (value ballot))
            else mret false
          else mret false
    end.

(** [mSlot.stopNomination()]. *)
Definition stopNomination : M Slot unit := nset set_started false.

Definition setConfirmCommit (c h : SCPBallot) : M Slot bool :=
  bset set_commit (Some c);;
  bset set_high (Some h);;
  updateCurrentIfNeeded h;;
  bset set_phase SCP_PHASE_EXTERNALIZE;;
  emitCurrentStateStatement;;
  stopNomination;;
  c ← bget mCommit;
  c ← deref c;
  call (valueExternalized (value c));;
  mret true.

Definition attemptConfirmCommit (hint : SCPStatement) : M Slot bool :=
  phase ← bget mPhase;
  if negb (bool_decide (phase = SCP_PHASE_CONFIRM)) then mret false
  else
    h ← bget mHighBallot;
    c ← bget mCommit;
    match h, c with
    | Some _, Some c =>
      oballot ← match pledges hint with
                | prepare _ => mret None
                | confirm con => mret (Some (mkBallot (c_nH con) (value (c_ballot con))))
                | externalize ext => mret (Some (mkBallot (e_nH ext) (value (e_commit ext))))
                | nominate _ => crash "abort"
                end;
      match oballot with
      | None => mret false
      | Some ballot =>
        if negb (areBallotsCompatible ballot c) then mret false
        else
          latest ← bget mLatestEnvelopes;
          let boundaries := getCommitBoundariesFromStatements latest ballot in
          let pred cur := federatedRatify E (commitPredicate ballot cur) latest in
          let candidate := findExtendedInterval (0, 0) boundaries pred in
          if negb (candidate.1 =? 0) then
            setConfirmCommit (mkBallot candidate.1 (value ballot)) (mkBallot candidate.2 (value ballot))
          else mret false
      end
    | _, _ => mret false
    end.

(** The [do ... while (didBump)] loop of [advanceSlot]: whether it did work. *)
Fixpoint bumpLoop (fuel : nat) (didWork : bool) : M Slot bool :=
  match fuel with
  | O => nofuel
  | S fuel =>
    didBump ← attemptBump;
    let didWork := didBump || didWork in
    if (didBump : bool) then bumpLoop fuel didWork else mret didWork
  end.

(** A bump leaves no v-blocking set ahead, and the phase changes at most once in
    between: four turns are enough ([bumpLoop_ok] in [BallotSafety]). *)
Definition bumpFuel : nat := 4.

Definition advanceSlot (hint : SCPStatement) : M Slot unit :=
  level ← bget mCurrentMessageLevel;
  bset set_level (level + 1);;
  if MAX_ADVANCE_SLOT_RECURSION <=? level + 1
  then throw "maximum number of transitions reached in advanceSlot"
  else
    w1 ← attemptPreparedAccept hint;
    w2 ← attemptPreparedConfirmed hint;
    w3 ← attemptAcceptCommit hint;
    w4 ← attemptConfirmCommit hint;
    let didWork := w4 || (w3 || (w2 || w1)) in
    level ← bget mCurrentMessageLevel;
    didWork ← (if level =? 1 then
                 didWork ← bumpLoop bumpFuel didWork;
                 checkHeardFromQuorum;;
                 mret (didWork : bool)
               else mret didWork);
    level ← bget mCurrentMessageLevel;
    bset set_level (level - 1);;
    if (didWork : bool) then sendLatestEnvelope else mret tt.

Definition ballot_processEnvelope (envelope : SCPEnvelope) (self : bool) : M Slot EnvelopeState :=
  i ← sget mSlotIndex;
  dbgAssert E (slotIndex (statement envelope) =? i);;
  let st := statement envelope in
  if negb (isStatementSane E st self) then mret INVALID
  else
    latest ← bget mLatestEnvelopes;
    if negb (isNewerThanLatest latest (nodeID st) st) then mret INVALID
    else
      let validationRes := validateValues E i st in
      if bool_decide (validationRes = kInvalidValue) then mret INVALID
      else
        phase ← bget mPhase;
        if negb (bool_decide (phase = SCP_PHASE_EXTERNALIZE)) then
          (if bool_decide (validationRes = kMaybeValidValue) then setFullyValidated false else mret tt);;
          recordEnvelope envelope;;
          advanceSlot st;;
          mret VALID
        else
          c ← bget mCommit;
          c ← deref c;
          if bool_decide (value c = value (getWorkingBallot st)) then
            recordEnvelope envelope;;
            mret VALID
          else mret INVALID.

(** [BallotProtocol::setStateFromEnvelope]: restore the state of a previous run. *)
Definition ballot_setStateFromEnvelope (e : SCPEnvelope) : M Slot unit :=
  b ← bget mCurrentBallot;
  match b with
  | Some _ => throw "Cannot set state after starting ballot protocol"
  | None =>
    recordEnvelope e;;
    ptr ← makeShared e;
    bset set_last ptr;;
    bset set_lastEmit ptr;;
    match pledges (statement e) with
    | prepare prep =>
      let b := p_ballot prep in
      bumpToBallot b true;;
      match p_prepared prep with Some p => bset set_prepared (Some p) | None => mret tt end;;
      match p_preparedPrime prep with Some p => bset set_preparedPrime (Some p) | None => mret tt end;;
      (if negb (p_nH prep =? 0) then bset set_high (Some (mkBallot (p_nH prep) (value b))) else mret tt);;
      (if negb (p_nC prep =? 0) then bset set_commit (Some (mkBallot (p_nC prep) (value b))) else mret tt);;
      bset set_phase SCP_PHASE_PREPARE
    | confirm c =>
      let v := value (c_ballot c) in
      bumpToBallot (c_ballot c) true;;
      bset set_prepared (Some (mkBallot (c_nPrepared c) v));;
      bset set_high (Some (mkBallot (c_nH c) v));;
      bset set_commit (Some (mkBallot (c_nCommit c) v));;
      bset set_phase SCP_PHASE_CONFIRM
    | externalize ext =>
      let v := value (e_commit ext) in
      bumpToBallot (mkBallot UINT32_MAX v) true;;
      bset set_prepared (Some (mkBallot UINT32_MAX v));;
      bset set_high (Some (mkBallot (e_nH ext) v));;
      bset set_commit (Some (e_commit ext));;
      bset set_phase SCP_PHASE_EXTERNALIZE
    | nominate _ => crash "dbgAbort"
    end
  end.
End BallotOps.

(** ** What others read: [getCurrentState], [getLatestMessage], [getExternalizingState] *)

Definition ballot_getCurrentState (E : Env) (s : Slot) : list SCPEnvelope :=
  (List.filter (λ n, negb (n.1 =? localID E) || mFullyValidated s)
     (map_iter (mLatestEnvelopes (mBallotProtocol s)))).*2.
Definition ballot_getLatestMessage (s : Slot) (id : NodeID) : option SCPEnvelope :=
  mLatestEnvelopes (mBallotProtocol s) !! id.
Definition getExternalizingState (E : Env) (s : Slot) : list SCPEnvelope :=
  let b := mBallotProtocol s in
  match mPhase b, mCommit b with
  | SCP_PHASE_EXTERNALIZE, Some c =>
    (List.filter (λ n,
       if negb (n.1 =? localID E)
       then areBallotsCompatible (getWorkingBallot (statement n.2)) c
       else mFullyValidated s) (map_iter (mLatestEnvelopes b))).*2
  | _, _ => []
  end.
