(* ===== verification/BallotPure.v ===== *)
(** * Facts about the computations of the ballot protocol that only read

    The candidates of [getPrepareCandidates], the intervals of
    [findExtendedInterval], and why a node that accepts a commit has already
    accepted a ballot as prepared. *)
From stdpp Require Import base list sorting gmap strings.
From S2P Require Import Prelude QuorumSet Statement LocalNode Slot Ballot.

(** ** Candidates *)

Lemma elem_of_insertIf c b x l : x ∈ insertIf c b l ↔ (c = true ∧ x = b) ∨ x ∈ l.
Proof. unfold insertIf. destruct c; rewrite ?elem_of_set_insert; naive_solver. Qed.

(** What a statement adds does not depend on what is already there. *)
Lemma addCandidates_split topVote l st x :
  x ∈ addCandidates topVote l st ↔ x ∈ l ∨ x ∈ addCandidates topVote [] st.
Proof.
  unfold addCandidates. destruct (pledges st) as [p|c|e|n].
  - destruct (p_prepared p), (p_preparedPrime p); rewrite ?elem_of_insertIf; set_solver.
  - destruct (areBallotsCompatible _ _); rewrite ?elem_of_insertIf, ?elem_of_set_insert; set_solver.
  - rewrite !elem_of_insertIf. set_solver.
  - set_solver.
Qed.

Lemma elem_of_foldl_add {A} (add : list SCPBallot → A → list SCPBallot) (one : A → SCPBallot → Prop) x :
  (∀ l a, x ∈ add l a ↔ x ∈ l ∨ one a x) →
  ∀ ls l, x ∈ foldl add l ls ↔ x ∈ l ∨ ∃ a, a ∈ ls ∧ one a x.
Proof.
  intros Hadd ls. induction ls as [|a ls IH]; intros l; simpl; [set_solver|].
  rewrite IH, Hadd. set_solver.
Qed.

Lemma elem_of_getPrepareCandidates latest hint x :
  x ∈ getPrepareCandidates latest hint ↔
  ∃ topVote n e, topVote ∈ hintBallots hint ∧ latest !! n = Some e ∧
    x ∈ addCandidates topVote [] (statement e).
Proof.
  unfold getPrepareCandidates.
  rewrite (elem_of_foldl_add _ (λ topVote x, ∃ n e, latest !! n = Some e ∧ x ∈ addCandidates topVote [] (statement e))).
  - setoid_rewrite elem_of_reverse. set_solver.
  - intros l topVote.
    rewrite (elem_of_foldl_add _ (λ e x, x ∈ addCandidates topVote [] (statement e.2))).
    + split; (intros [?|H]; [by left|right]).
      * destruct H as ([n e] & He%elem_of_map_iter & ?). eauto.
      * destruct H as (n & e & He%elem_of_map_iter & ?). by exists (n, e).
    + intros l' e. apply addCandidates_split.
Qed.

(** The ballot on which the statement [hint] votes, as [attemptAcceptCommit] and
    [attemptConfirmCommit] read it: only its value matters below. *)
Definition hintValue (hint : SCPStatement) : Value := value (getWorkingBallot hint).

(** The largest ballot of the hint's value that is looked at. *)
Definition hintTop (hint : SCPStatement) : SCPBallot :=
  match pledges hint with
  | prepare p => p_ballot p
  | confirm c => mkBallot UINT32_MAX (value (c_ballot c))
  | externalize e => mkBallot UINT32_MAX (value (e_commit e))
  | nominate _ => ballot0
  end.

Lemma hintTop_candidate latest hint n e :
  latest !! n = Some e → statement e = hint → pledges_type (pledges hint) ≠ SCP_ST_NOMINATE →
  hintTop hint ∈ hintBallots hint ∧ hintTop hint ∈ getPrepareCandidates latest hint.
Proof.
  intros He Est Ht. assert (hintTop hint ∈ hintBallots hint) as Htop.
  { unfold hintTop, hintBallots. destruct (pledges hint) as [p|c|x|nm]; simpl in Ht.
    - destruct (p_prepared p), (p_preparedPrime p); cbn [insertOpt]; rewrite ?elem_of_set_insert; tauto.
    - rewrite elem_of_set_insert. tauto.
    - rewrite elem_of_set_insert. tauto.
    - done. }
  split; [done|]. apply elem_of_getPrepareCandidates. exists (hintTop hint), n, e. split_and!; [done..|].
  rewrite Est. unfold hintTop, addCandidates in *. destruct (pledges hint) as [p|c|x|nm]; simpl in Ht.
  - assert (p_ballot p ∈ insertIf (areBallotsLessAndCompatible (p_ballot p) (p_ballot p)) (p_ballot p) []) as Hin
      by (apply elem_of_insertIf; left; split; [by apply lessAndCompatible_spec|done]).
    destruct (p_prepared p), (p_preparedPrime p); rewrite ?elem_of_insertIf in *; tauto.
  - rewrite (proj2 (compatible_spec _ _)) by done. rewrite elem_of_insertIf. right. set_solver.
  - apply elem_of_insertIf. left. split; [by apply compatible_spec|done].
  - done.
Qed.

Lemma hintTop_value hint : pledges_type (pledges hint) ≠ SCP_ST_NOMINATE → value (hintTop hint) = hintValue hint.
Proof. unfold hintTop, hintValue, getWorkingBallot. by destruct (pledges hint). Qed.

(** A ballot of least counter among those of a value. *)
Lemma least_counter (l : list SCPBallot) b :
  b ∈ l → ∃ m, m ∈ l ∧ value m = value b ∧ ∀ x, x ∈ l → value x = value b → counter m <= counter x.
Proof.
  revert b. induction l as [|y l IH]; intros b Hb; [set_solver|].
  destruct (decide (Exists (λ z, value z = value b) l)) as [(z & Hz & Ez)%Exists_exists|Hno];
    [|rewrite Exists_exists in Hno].
  - destruct (IH z Hz) as (m & Hm & Em & Hmin). rewrite Ez in Em, Hmin.
    destruct (decide (value y = value b ∧ counter y < counter m)) as [[Ey Hlt]|Hy].
    + exists y. split_and!; [set_solver|done|]. intros x [->|Hx]%elem_of_cons Ex; [lia|].
      specialize (Hmin x Hx Ex). lia.
    + exists m. split_and!; [set_solver|done|]. intros x [->|Hx]%elem_of_cons Ex; [|auto].
      destruct (Z.lt_ge_cases (counter y) (counter m)); [exfalso; auto|lia].
  - exists b. apply elem_of_cons in Hb as [->|Hb]; [|exfalso; eauto].
    split_and!; [set_solver|done|]. intros x [->|Hx]%elem_of_cons Ex; [lia|exfalso; eauto].
Qed.

(** *** Accepting a commit entails accepting a ballot as prepared

    When [attemptAcceptCommit] finds an interval on the value of the statement
    that is being processed, one of the candidates of [attemptPreparedAccept] is
    accepted as well: the one of least counter. *)
Section CommitPrepared.
Context (E : Env) (latest : gmap NodeID SCPEnvelope) (hint : SCPStatement) (n0 : NodeID) (e0 : SCPEnvelope).
Context (He0 : latest !! n0 = Some e0) (Est : statement e0 = hint).
Context (Hty : pledges_type (pledges hint) ≠ SCP_ST_NOMINATE).

Lemma least_candidate :
  ∃ m, m ∈ getPrepareCandidates latest hint ∧ value m = hintValue hint ∧
    ∀ n e, latest !! n = Some e →
      (∀ p, pledges (statement e) = prepare p → value (p_ballot p) = hintValue hint →
         counter m <= counter (p_ballot p)) ∧
      (∀ c, pledges (statement e) = confirm c → value (c_ballot c) = hintValue hint →
         counter m <= c_nPrepared c).
Proof.
  destruct (hintTop_candidate latest hint n0 e0 He0 Est Hty) as [Hh Htop].
  destruct (least_counter _ _ Htop) as (m & Hm & Em & Hmin). rewrite hintTop_value in Em, Hmin by done.
  pose proof (Hmin _ Htop (hintTop_value hint Hty)) as Hmt.
  exists m. split_and!; [done..|]. intros n e He. split.
  - intros p Ep Ev. destruct (Z.le_gt_cases (counter (p_ballot p)) (counter (hintTop hint))); [|lia].
    apply Hmin; [|done]. apply elem_of_getPrepareCandidates. exists (hintTop hint), n, e.
    split_and!; [done..|]. unfold addCandidates. rewrite Ep.
    assert (p_ballot p ∈ insertIf (areBallotsLessAndCompatible (p_ballot p) (hintTop hint)) (p_ballot p) []) as Hin.
    { apply elem_of_insertIf. left. split; [|done]. apply lessAndCompatible_spec.
      by rewrite hintTop_value. }
    destruct (p_prepared p), (p_preparedPrime p); rewrite ?elem_of_insertIf in *; tauto.
  - intros c Ec Ev. destruct (Z.lt_ge_cases (c_nPrepared c) (counter (hintTop hint))); [|lia].
    set (x := mkBallot (c_nPrepared c) (value (hintTop hint))).
    change (c_nPrepared c) with (counter x). apply Hmin; [|simpl; by rewrite hintTop_value].
    apply elem_of_getPrepareCandidates. exists (hintTop hint), n, e. split_and!; [done..|].
    unfold addCandidates. rewrite Ec, (proj2 (compatible_spec _ _)) by (by rewrite hintTop_value).
    apply elem_of_insertIf. left. split; [lia|done].
Qed.

Lemma commit_entails_prepared ballot cur :
  value ballot = hintValue hint →
  federatedAccept E (votedCommit ballot cur) (commitPredicate ballot cur) latest = true →
  ∃ m, m ∈ getPrepareCandidates latest hint ∧
    federatedAccept E (votedPrepare m) (hasPreparedBallot m) latest = true.
Proof.
  intros Ev Hacc. destruct least_candidate as (m & Hm & Em & Hle). exists m. split; [done|].
  assert (∀ n e, latest !! n = Some e → commitPredicate ballot cur (statement e) = true →
            hasPreparedBallot m (statement e) = true) as HA.
  { intros n e He. destruct (Hle n e He) as [_ Hc]. unfold commitPredicate, hasPreparedBallot.
    destruct (pledges (statement e)) as [p|c|x|nm]; try done.
    - destruct (areBallotsCompatible ballot (c_ballot c)) eqn:Ec; [|done]. intros _.
      apply compatible_spec in Ec. apply lessAndCompatible_spec. simpl.
      split; [apply (Hc c); [done|]|]; congruence.
    - destruct (areBallotsCompatible ballot (e_commit x)) eqn:Ec; [|done]. intros _.
      apply compatible_spec in Ec. apply compatible_spec. congruence. }
  eapply federatedAccept_mono; [exact HA| |exact Hacc].
  intros n e He [Ha|Hv]%orb_true_iff; [by rewrite (HA n e)|].
  apply orb_true_iff. right. destruct (Hle n e He) as [Hp _].
  unfold votedCommit, votedPrepare in *. destruct (pledges (statement e)) as [p|c|x|nm]; try done.
  - destruct (areBallotsCompatible ballot (p_ballot p)) eqn:Ec; [|done].
    apply compatible_spec in Ec. apply lessAndCompatible_spec. split; [apply (Hp p); [done|]|]; congruence.
  - destruct (areBallotsCompatible ballot (c_ballot c)) eqn:Ec; [|done].
    apply compatible_spec in Ec. apply compatible_spec. congruence.
  - destruct (areBallotsCompatible ballot (e_commit x)) eqn:Ec; [|done].
    apply compatible_spec in Ec. apply compatible_spec. congruence.
Qed.
End CommitPrepared.

(** ** Intervals *)

Lemma extendInterval_ok pred l cand :
  (cand.1 = 0 ∨ pred cand = true ∧ cand.1 <= cand.2) →
  let r := extendInterval pred cand l in
  (r.1 = 0 ∨ pred r = true ∧ r.1 <= r.2).
Proof.
  revert cand. induction l as [|b l IH]; intros cand Hc; [done|]. simpl.
  destruct (Z.eqb_spec cand.1 0) as [E0|E0]; simpl.
  - destruct (pred (b, b)) eqn:Ep; apply IH; [|by left]. right. simpl. split; [done|lia].
  - destruct (Z.ltb_spec cand.2 b); [by apply IH|].
    destruct (pred (b, cand.2)) eqn:Ep; [|done]. apply IH. right. simpl. split; [done|lia].
Qed.

Lemma findExtendedInterval_ok boundaries pred :
  let r := findExtendedInterval (0, 0) boundaries pred in
  r.1 ≠ 0 → pred r = true ∧ r.1 <= r.2.
Proof.
  intros r Hr. destruct (extendInterval_ok pred (reverse boundaries) (0, 0)) as [H|H]; [by left|done|done].
Qed.

(** A node that can accept a commit of the hinted value can also accept some
    ballot of that value as prepared, among the candidates it would have tried
    first. So no commit is accepted before something was accepted as prepared. *)
Theorem accepted_commit_has_prepared E latest hint n e ballot cur :
  latest !! n = Some e → statement e = hint → pledges_type (pledges hint) ≠ SCP_ST_NOMINATE →
  value ballot = hintValue hint →
  federatedAccept E (votedCommit ballot cur) (commitPredicate ballot cur) latest = true →
  ∃ m, m ∈ getPrepareCandidates latest hint ∧
    federatedAccept E (votedPrepare m) (hasPreparedBallot m) latest = true.
Proof. intros. by eapply commit_entails_prepared. Qed.

Lemma accepted_commit_has_prepared_witness :
  let ln := mkLocalNode 0 true (QSet 1 [1; 2] []) 0 (QSet 1 [0] []) 0 in
  let d := mkDriver (λ _, []) (λ _, Some (QSet 1 [1; 2] [])) (λ _ _ _, kFullyValidatedValue) (λ _ v, v)
             (λ _ _ _ _ _, 0) (λ _ _ _ _, 0) (λ _ _, []) in
  let E := mkEnv false (λ _, 0) ln d in
  let st := mkStatement 1 7 (externalize (mkExternalize (mkBallot 1 [5]) 2 0)) in
  let latest : gmap NodeID SCPEnvelope := {[1 := mkEnvelope st []]} in
  ∃ m, m ∈ getPrepareCandidates latest st ∧
    federatedAccept E (votedPrepare m) (hasPreparedBallot m) latest = true.
Proof.
  refine (accepted_commit_has_prepared _ _ _ 1 _ (mkBallot 1 [5]) (1, 2) _ _ _ _ _); try reflexivity.
  discriminate.
Defined.

Lemma extend_found pred l cand :
  (∀ b, b ∈ l → b ≠ 0) → cand.1 ≠ 0 → let r := extendInterval pred cand l in
  r.1 ≠ 0 ∧ r.2 = cand.2 ∧ (r.1 = cand.1 ∨ r.1 ∈ l).
Proof.
  revert cand. induction l as [|b l IH]; intros cand Hl Hc; [simpl; auto|]. simpl.
  assert (∀ x, x ∈ l → x ≠ 0) as Hl' by set_solver. assert (b ≠ 0) by set_solver.
  rewrite (proj2 (Z.eqb_neq cand.1 0)) by done. simpl.
  destruct (cand.2 <? b); [destruct (IH cand) as (? & ? & ?); [done..|set_solver]|].
  destruct (pred (b, cand.2)); [|set_solver].
  destruct (IH (b, cand.2)) as (? & E2 & H2); [done..|]. rewrite E2. set_solver.
Qed.

Lemma StronglySorted_reverse_ge (l : list Z) : SetOk l → StronglySorted Z.ge (reverse l).
Proof.
  unfold SetOk. induction l as [|x l IH]; intros Hs; [constructor|].
  apply StronglySorted_cons in Hs as [Hx Hs]. rewrite reverse_cons.
  apply StronglySorted_app. split_and!; [|by apply IH|repeat constructor].
  intros y z Hy Hz. rewrite Forall_forall in Hx. rewrite elem_of_reverse in Hy. apply list_elem_of_singleton in Hz as ->.
  specialize (Hx y Hy). unfold ltP in Hx. simpl in Hx. lia.
Qed.

Lemma extend_search pred l :
  (∀ b, b ∈ l → b ≠ 0) → StronglySorted Z.ge l → let r := extendInterval pred (0, 0) l in
  (r = (0, 0) ∧ ∀ b, b ∈ l → pred (b, b) = false) ∨
  (r.1 ≠ 0 ∧ r.1 ∈ l ∧ r.2 ∈ l ∧ pred (r.2, r.2) = true ∧ ∀ b, b ∈ l → pred (b, b) = true → b <= r.2).
Proof.
  induction l as [|b l IH]; intros Hl Hs; [left; set_solver|]. simpl.
  assert (∀ x, x ∈ l → x ≠ 0) as Hl' by set_solver. assert (b ≠ 0) by set_solver.
  apply StronglySorted_cons in Hs as [Hb Hs]. destruct (pred (b, b)) eqn:Ep.
  - right. destruct (extend_found pred l (b, b)) as (H1 & H2 & H3); [done..|]. simpl in H2, H3. rewrite H2.
    split_and!; [done|set_solver..|done|]. intros x [->|Hx]%elem_of_cons _; [lia|].
    rewrite Forall_forall in Hb. specialize (Hb x Hx). lia.
  - destruct (IH Hl' Hs) as [[-> Hn]|(? & ? & ? & ? & Hmax)]; [left; set_solver|right].
    split_and!; [done|set_solver..|done|]. intros x [->|Hx]%elem_of_cons Hx'; [congruence|auto].
Qed.

(** A boundary alone satisfies the predicate. *)
Definition holdsAt (pred : Z * Z → bool) (b : Z) : bool := pred (b, b).

(** On increasing boundaries [findExtendedInterval] finds an interval exactly
    when some boundary alone satisfies the predicate. The interval satisfies the
    predicate, runs between two boundaries, and ends at the highest boundary that
    alone satisfies it. *)
Theorem extended_interval_spec boundaries pred :
  SetOk boundaries → (∀ b, b ∈ boundaries → b ≠ 0) →
  let r := findExtendedInterval (0, 0) boundaries pred in
  (r.1 ≠ 0 ↔ ∃ b, b ∈ boundaries ∧ holdsAt pred b = true) ∧
  (r.1 ≠ 0 → pred r = true ∧ r.1 <= r.2 ∧ r.1 ∈ boundaries ∧ r.2 ∈ boundaries ∧
     holdsAt pred r.2 = true ∧ ∀ b, b ∈ boundaries → holdsAt pred b = true → b <= r.2).
Proof.
  intros Hs H0 r. unfold holdsAt. pose proof (findExtendedInterval_ok boundaries pred) as Hok.
  destruct (extend_search pred (reverse boundaries)) as [[E Hn]|(H1 & H2 & H3 & H4 & H5)].
  - intros b. rewrite elem_of_reverse. auto.
  - apply StronglySorted_reverse_ge, Hs.
  - unfold r, findExtendedInterval. rewrite E. split; [|done]. split; [done|].
    intros (b & Hb & Hp). by rewrite Hn in Hp by (by apply elem_of_reverse).
  - fold (findExtendedInterval (0, 0) boundaries pred) in *. fold r in H1, H2, H3, H4, H5, Hok.
    rewrite elem_of_reverse in H2, H3. split; [split; [eauto|done]|].
    intros _. destruct (Hok H1). split_and!; try done. intros b Hb. apply H5. by apply elem_of_reverse.
Qed.

Lemma extended_interval_spec_witness :
  (findExtendedInterval (0, 0) [1; 2; 5; 9] (λ i, i.2 <? 6)).1 ≠ 0 ↔
  ∃ b, b ∈ [1; 2; 5; 9] ∧ ((b, b).2 <? 6) = true.
Proof.
  refine (proj1 (extended_interval_spec [1; 2; 5; 9] (λ i, i.2 <? 6) _ _)).
  - repeat constructor.
  - intros b Hb Hz. subst b. revert Hb. apply (bool_decide_unpack (0 ∉ _)). vm_compute. exact I.
Defined.
