(* ===== verification/Nomination.v ===== *)
(** * The nomination protocol: [scp/NominationProtocol.cpp]

    Every member function of [NominationProtocol] that reads or changes the
    state. Like the ballot protocol it calls itself through the slot, here when
    it emits a nomination, and it starts the ballot protocol with
    [mSlot.bumpState]. *)
From stdpp Require Import base list gmap strings.
From S2P Require Import Prelude Numeric QuorumSet Statement LocalNode NodeWeight Slot Ballot.

(** [pledges.nominate()]: the accessor of the XDR union throws on another arm. *)
Definition nominateOf (p : Pledges) : M Slot SCPNomination :=
  match p with nominate n => mret n | _ => throw "invalid union access" end.

(** The values of a nomination in the order of [applyAll]. *)
Definition allValues (nom : SCPNomination) : list Value := n_votes nom ++ n_accepted nom.

(** [NominationProtocol::getStatementValues]. *)
Definition getStatementValues (st : SCPStatement) : M Slot (list Value) :=
  nom ← nominateOf (pledges st);
  mret (allValues nom).

Section NominationOps.
Variable E : Env.
Variable slot_processEnvelope : SCPEnvelope → bool → M Slot EnvelopeState.

(** [isNewerStatement(nodeID, st)]. *)
Definition isNewerThanLatestNomination (n : NodeID) (st : SCPNomination) : M Slot bool :=
  latest ← nget mLatestNominations;
  match latest !! n with
  | None => mret true
  | Some old => oldst ← nominateOf (pledges (statement old)); mret (isNewerNomination oldst st)
  end.

Definition nom_recordEnvelope (env : SCPEnvelope) : M Slot unit :=
  latest ← nget mLatestNominations;
  nset set_nominations (<[nodeID (statement env) := env]> latest);;
  recordStatement E (statement env).

Definition emitNomination : M Slot unit :=
  votes ← nget mVotes;
  accepted ← nget mAccepted;
  let nom := mkNomination (mQSetHash (localNode E)) votes accepted in
  envelope ← createEnvelope E (mkStatement (localID E) 0 (nominate nom));
  res ← slot_processEnvelope envelope true;
  match res with
  | VALID =>
    last ← nget mNomLastEnvelope;
    newer ← match last with
            | None => mret true
            | Some l => old ← nominateOf (pledges (statement l)); mret (isNewerNomination old nom)
            end;
    if (newer : bool) then
      nset set_nomLast (Some envelope);;
      validated ← isFullyValidated;
      if (validated : bool) then call (emitEnvelope envelope) else mret tt
    else mret tt
  | INVALID => throw "moved to a bad state (nomination)"
  end.

Definition hashNode (isPriority : bool) (n : NodeID) : M Slot Z :=
  prev ← nget mPreviousValue;
  dbgAssert E (negb (bool_decide (prev = [])));;
  i ← sget mSlotIndex;
  round ← nget mRoundNumber;
  mret (computeHashNode (driver E) i prev isPriority round n).

Definition hashValue (v : Value) : M Slot Z :=
  prev ← nget mPreviousValue;
  dbgAssert E (negb (bool_decide (prev = [])));;
  i ← sget mSlotIndex;
  round ← nget mRoundNumber;
  mret (computeValueHash (driver E) i prev round v).

Definition getNodePriority (n : NodeID) (qset : SCPQuorumSet) : M Slot Z :=
  w ← (if n =? localID E then mret UINT64_MAX else getNodeWeight n qset);
  if 0 <? w then
    h ← hashNode false n;
    if h <=? w then hashNode true n else mret 0
  else mret 0.

(** One turn of the loop over the nodes in [updateRoundLeaders]. *)
Definition considerLeader (myQSet : SCPQuorumSet) (acc : Z * list NodeID) (cur : NodeID)
    : M Slot (Z * list NodeID) :=
  let '(topPriority, newRoundLeaders) := acc in
  w ← getNodePriority cur myQSet;
  let '(topPriority, newRoundLeaders) :=
    if topPriority <? w then (w, []) else (topPriority, newRoundLeaders) in
  mret (topPriority, if (w =? topPriority) && (0 <? w) then set_insert cur newRoundLeaders
                     else newRoundLeaders).

Definition updateRoundLeaders : M Slot unit :=
  let localId := localID E in
  let myQSet := normalizeQSet (localQSet E) (Some localId) in
  topPriority ← getNodePriority localId myQSet;
  '(_, newRoundLeaders) ←
    forAllNodes (λ acc cur, acc ≫= λ a, considerLeader myQSet a cur)
      (mret (topPriority, set_insert localId [])) myQSet;
  leaders ← nget mRoundLeaders;
  nset set_leaders (foldl (λ l n, set_insert n l) leaders newRoundLeaders).

(** The loop of [getNewValueFromNomination]. *)
Fixpoint bestValue (values : list Value) (newVote : Value) (newHash : Z) : M Slot Value :=
  match values with
  | [] => mret newVote
  | v :: r =>
    i ← sget mSlotIndex;
    let valueToNominate :=
      if bool_decide (validateValue (driver E) i v true = kFullyValidatedValue) then v
      else extractValidValue (driver E) i v in
    votes ← nget mVotes;
    if negb (bool_decide (valueToNominate = [])) && negb (set_mem valueToNominate votes) then
      curHash ← hashValue valueToNominate;
      if newHash <=? curHash then bestValue r valueToNominate curHash else bestValue r newVote newHash
    else bestValue r newVote newHash
  end.
Definition getNewValueFromNomination (nom : SCPNomination) : M Slot Value :=
  bestValue (allValues nom) [] 0.

(** The first loop of [processEnvelope]: attempt to promote votes to accepted. *)
Fixpoint acceptVotes (votes : list Value) (modified : bool) : M Slot bool :=
  match votes with
  | [] => mret modified
  | v :: r =>
    accepted ← nget mAccepted;
    if set_mem v accepted then acceptVotes r modified
    else
      latest ← nget mLatestNominations;
      if federatedAccept E (votedNominate v) (acceptPredicate v) latest then
        i ← sget mSlotIndex;
        mVotes_ ← nget mVotes;
        if bool_decide (validateValue (driver E) i v true = kFullyValidatedValue) then
          nset set_accepted (set_insert v accepted);;
          nset set_votes (set_insert v mVotes_);;
          acceptVotes r true
        else
          let toVote := extractValidValue (driver E) i v in
          if negb (bool_decide (toVote = [])) && negb (set_mem toVote mVotes_) then
            nset set_votes (set_insert toVote mVotes_);;
            acceptVotes r true
          else acceptVotes r modified
      else acceptVotes r modified
  end.

(** The second loop: attempt to promote accepted values to candidates. *)
Fixpoint ratifyAccepted (accepted : list Value) (newCandidates : bool) : M Slot bool :=
  match accepted with
  | [] => mret newCandidates
  | a :: r =>
    candidates ← nget mCandidates;
    if set_mem a candidates then ratifyAccepted r newCandidates
    else
      latest ← nget mLatestNominations;
      if federatedRatify E (acceptPredicate a) latest then
        nset set_candidates (set_insert a candidates);;
        ratifyAccepted r true
      else ratifyAccepted r newCandidates
  end.

(** The end of [processEnvelope] when there are new candidates: combine them and
    start the ballot protocol. *)
Definition announceCandidates : M Slot unit :=
  i ← sget mSlotIndex;
  candidates ← nget mCandidates;
  let composite := combineCandidates (driver E) i candidates in
  nset set_composite composite;;
  call (updatedCandidateValue composite);;
  bumpState E slot_processEnvelope composite false;;
  mret tt.

Definition nom_processEnvelope (envelope : SCPEnvelope) : M Slot EnvelopeState :=
  let st := statement envelope in
  nom ← nominateOf (pledges st);
  newer ← isNewerThanLatestNomination (nodeID st) nom;
  if negb (newer : bool) then mret INVALID
  else if negb (isSaneNomination nom) then mret INVALID
  else
    nom_recordEnvelope envelope;;
    started ← nget mNominationStarted;
    if negb (started : bool) then mret VALID
    else
      modified ← acceptVotes (n_votes nom) false;
      accepted ← nget mAccepted;
      newCandidates ← ratifyAccepted accepted false;
      candidates ← nget mCandidates;
      leaders ← nget mRoundLeaders;
      modified ← (if bool_decide (candidates = []) && set_mem (nodeID st) leaders then
                    newVote ← getNewValueFromNomination nom;
                    if negb (bool_decide (newVote = [])) then
                      votes ← nget mVotes;
                      nset set_votes (set_insert newVote votes);;
                      call (nominatingValue newVote);;
                      mret true
                    else mret (modified : bool)
                  else mret modified);
      (if (modified : bool) then emitNomination else mret tt);;
      (if (newCandidates : bool) then announceCandidates else mret tt);;
      mret VALID.

(** The loop of [nominate] over the leaders' nominations. *)
Fixpoint voteWithLeaders (leaders : list NodeID) (nominating : Value) (updated : bool)
    : M Slot (Value * bool) :=
  match leaders with
  | [] => mret (nominating, updated)
  | leader :: r =>
    latest ← nget mLatestNominations;
    match latest !! leader with
    | None => voteWithLeaders r nominating updated
    | Some e =>
      nom ← nominateOf (pledges (statement e));
      v ← getNewValueFromNomination nom;
      if negb (bool_decide (v = [])) then
        votes ← nget mVotes;
        nset set_votes (set_insert v votes);;
        voteWithLeaders r v true
      else voteWithLeaders r v updated
    end
  end.

Definition nom_nominate (v previousValue : Value) (timedout : bool) : M Slot bool :=
  started ← nget mNominationStarted;
  if timedout && negb started then mret false
  else
    nset set_started true;;
    nset set_previous previousValue;;
    round ← nget mRoundNumber;
    nset set_round (s32 (round + 1));;
    updateRoundLeaders;;
    leaders ← nget mRoundLeaders;
    '(nominating, updated) ←
      (if set_mem (localID E) leaders then
         votes ← nget mVotes;
         nset set_votes (set_insert v votes);;
         mret (v, negb (set_mem v votes))
       else mret ([], false));
    '(nominating, updated) ← voteWithLeaders leaders nominating updated;
    round ← nget mRoundNumber;
    let timeout := computeTimeout (u32 round) in
    call (nominatingValue nominating);;
    call (setupTimer NOMINATION_TIMER timeout true);;
    (if (updated : bool) then emitNomination else mret tt);;
    mret updated.

(** [NominationProtocol::setStateFromEnvelope]. *)
Definition nom_setStateFromEnvelope (e : SCPEnvelope) : M Slot unit :=
  started ← nget mNominationStarted;
  if (started : bool) then throw "Cannot set state after nomination is started"
  else
    nom_recordEnvelope e;;
    nom ← nominateOf (pledges (statement e));
    accepted ← nget mAccepted;
    nset set_accepted (foldl (λ l v, set_insert v l) accepted (n_accepted nom));;
    votes ← nget mVotes;
    nset set_votes (foldl (λ l v, set_insert v l) votes (n_votes nom));;
    nset set_nomLast (Some e).
End NominationOps.

Definition nom_getCurrentState (E : Env) (s : Slot) : list SCPEnvelope :=
  (List.filter (λ n, negb (n.1 =? localID E) || mFullyValidated s)
     (map_iter (mLatestNominations (mNominationProtocol s)))).*2.
Definition nom_getLatestMessage (s : Slot) (id : NodeID) : option SCPEnvelope :=
  mLatestNominations (mNominationProtocol s) !! id.
