(* ===== verification/SlotProtocol.v ===== *)
(** * The slot: [scp/Slot.cpp]

    [Slot::processEnvelope] dispatches an envelope to the two protocols, which
    call it back on the statements that they emit. The recursion of the source
    becomes a recursion on fuel; [BallotSafety] shows how much is enough. *)
From stdpp Require Import base list gmap strings.
From S2P Require Import Prelude QuorumSet Statement LocalNode Slot Ballot Nomination.

Section Dispatch.
Variable E : Env.
Variable slot_processEnvelope : SCPEnvelope → bool → M Slot EnvelopeState.

(** The body of [Slot::processEnvelope]. The [catch] only logs and rethrows. *)
Definition dispatchEnvelope (envelope : SCPEnvelope) (self : bool) : M Slot EnvelopeState :=
  i ← sget mSlotIndex;
  dbgAssert E (slotIndex (statement envelope) =? i);;
  match pledges (statement envelope) with
  | nominate _ => nom_processEnvelope E slot_processEnvelope envelope
  | _ => ballot_processEnvelope E slot_processEnvelope envelope self
  end.
End Dispatch.

Fixpoint processEnvelope (E : Env) (fuel : nat) (envelope : SCPEnvelope) (self : bool)
    : M Slot EnvelopeState :=
  match fuel with
  | O => nofuel
  | S fuel => dispatchEnvelope E (processEnvelope E fuel) envelope self
  end.

(** The entry points, with the fuel that the recursion may use. *)
Section EntryPoints.
Variable E : Env.
Variable fuel : nat.

Definition slot_abandonBallot : M Slot bool := abandonBallot E (processEnvelope E fuel) 0.
Definition slot_bumpState (v : Value) (force : bool) : M Slot bool :=
  bumpState E (processEnvelope E fuel) v force.
Definition slot_nominate (v previousValue : Value) (timedout : bool) : M Slot bool :=
  nom_nominate E (processEnvelope E fuel) v previousValue timedout.
Definition slot_timerExpired : M Slot unit :=
  ballotProtocolTimerExpired E (processEnvelope E fuel).
Definition slot_stopNomination : M Slot unit := stopNomination.

Definition slot_setStateFromEnvelope (e : SCPEnvelope) : M Slot unit :=
  i ← sget mSlotIndex;
  if (nodeID (statement e) =? localID E) && (slotIndex (statement e) =? i) then
    match pledges (statement e) with
    | nominate _ => nom_setStateFromEnvelope E e
    | _ => ballot_setStateFromEnvelope E e
    end
  else mret tt.
End EntryPoints.

(** ** What others read *)

Definition slot_getLatestMessagesSend (s : Slot) : list SCPEnvelope :=
  if mFullyValidated s then
    match mNomLastEnvelope (mNominationProtocol s) with Some e => [e] | None => [] end
    ++ match mLastEnvelopeEmit (mBallotProtocol s) with Some (_, e) => [e] | None => [] end
  else [].
Definition slot_getCurrentState (E : Env) (s : Slot) : list SCPEnvelope :=
  nom_getCurrentState E s ++ ballot_getCurrentState E s.
Definition slot_getLatestMessage (s : Slot) (id : NodeID) : option SCPEnvelope :=
  match ballot_getLatestMessage s id with
  | Some e => Some e
  | None => nom_getLatestMessage s id
  end.
(** [getStatementValues]: the values of a nomination, or of the working ballot. *)
Definition slot_getStatementValues (st : SCPStatement) : list Value :=
  match pledges st with
  | nominate nom => allValues nom
  | _ => [value (getWorkingBallot st)]
  end.
(** [getEntireCurrentState] sets and restores the flag around the call. *)
Definition slot_getEntireCurrentState (E : Env) (s : Slot) : list SCPEnvelope :=
  slot_getCurrentState E (mkSlot (mSlotIndex s) (mBallotProtocol s) (mNominationProtocol s)
    (mStatementsHistory s) true (allocated s) (calls s)).
