(* ===== verification/NominationOrder.v ===== *)
(** * The order of nominations and the invariant of the nomination protocol

    Nominations of one node grow: [isNewerStatement] is strict inclusion of the
    sorted vote and accept lists. The invariant and the progress relation of
    [NominationProtocol], used for the whole slot. *)
From stdpp Require Import base list sorting gmap strings.
From S2P Require Import Prelude QuorumSet Statement LocalNode Slot.

(** ** Sorted lists *)

Lemma strictlyIncreasing_SetOk (l : list Value) : strictlyIncreasing l = true ↔ SetOk l.
Proof.
  unfold SetOk. induction l as [|x l IH]; [split; [constructor|done]|].
  rewrite StronglySorted_cons. destruct l as [|y l]; [split; [repeat constructor|done]|].
  change (strictlyIncreasing (x :: y :: l)) with (ltb x y && strictlyIncreasing (y :: l)).
  rewrite andb_true_iff, IH. split.
  - intros [Hxy Hl]. split; [|done]. apply StronglySorted_cons in Hl as [Hy _].
    constructor; [done|]. eapply Forall_impl; [exact Hy|]. intros z Hz. by eapply ltb_trans.
  - intros [Hx Hl]. split; [|done]. by apply Forall_cons in Hx as [? _].
Qed.

(** [std::includes] on sorted ranges decides inclusion. *)
Lemma includes_spec (v p : list Value) :
  SetOk v → SetOk p → includes v p = true ↔ ∀ x, x ∈ p → x ∈ v.
Proof.
  unfold SetOk. revert p. induction v as [|x v IH]; intros [|y p] Hv Hp; cbn [includes].
  1, 3: split; [by intros _ ? Hx%not_elem_of_nil|done].
  { split; [done|]. intros Hin. specialize (Hin y). by apply not_elem_of_nil in Hin; [|left]. }
  apply StronglySorted_cons in Hv as [Hx Hv]. pose proof Hp as Hp0. apply StronglySorted_cons in Hp as [Hy Hp].
  rewrite Forall_forall in Hx, Hy. setoid_rewrite elem_of_cons.
  destruct (ltb_cases y x) as [[E1 E2]|[[E1 E2]| ->]]; rewrite ?E1, ?E2.
  - split; [done|]. intros Hin. destruct (Hin y) as [->|Hyv]; [by left|by rewrite ltb_irrefl in E1|].
    specialize (Hx y Hyv). unfold ltP in Hx. congruence.
  - etrans; [by apply IH|]. split; [intros Hin z Hz; right; apply Hin; by apply elem_of_cons|].
    intros Hin z Hz%elem_of_cons.
    destruct (Hin z Hz) as [->|?]; [|done]. exfalso.
    destruct Hz as [->|Hz]; [by rewrite ltb_irrefl in E2|].
    specialize (Hy x Hz). unfold ltP in Hy. congruence.
  - rewrite ltb_irrefl, IH by done. split; [intros Hin z [->|Hz]; auto|]. intros Hin z Hz.
    destruct (Hin z) as [->|?]; [auto| |done].
    specialize (Hy x Hz). unfold ltP in Hy. by rewrite ltb_irrefl in Hy.
Qed.

Lemma SetOk_NoDup {A} `{StrictOrdB A} (l : list A) : SetOk l → NoDup l.
Proof.
  unfold SetOk. induction l as [|x l IH]; intros Hl; [constructor|].
  apply StronglySorted_cons in Hl as [Hx Hl]. constructor; [|auto]. intros Hin.
  rewrite Forall_forall in Hx. specialize (Hx x Hin). unfold ltP in Hx. by rewrite ltb_irrefl in Hx.
Qed.

Lemma SetOk_subset_length {A} `{StrictOrdB A} (l k : list A) :
  SetOk l → (∀ x, x ∈ l → x ∈ k) → (length l <= length k)%nat.
Proof. intros Hl Hs. apply submseteq_length, NoDup_submseteq; [by apply SetOk_NoDup|done]. Qed.

(** Inclusion with equal lengths is equality. *)
Lemma SetOk_subset_eq {A} `{StrictOrdB A} (l k : list A) :
  SetOk l → SetOk k → (∀ x, x ∈ l → x ∈ k) → length l = length k → l = k.
Proof.
  intros Hl Hk Hs Hlen. apply SetOk_ext; [done..|]. intros x. split; [auto|]. intros Hx.
  assert (l ≡ₚ k) as Hp.
  { apply submseteq_length_Permutation; [|lia]. apply NoDup_submseteq; [by apply SetOk_NoDup|done]. }
  by rewrite Hp.
Qed.

(** ** Newer nominations *)

Definition nomSorted (n : SCPNomination) : Prop := SetOk (n_votes n) ∧ SetOk (n_accepted n).
Definition nomIncluded (o n : SCPNomination) : Prop :=
  (∀ x, x ∈ n_votes o → x ∈ n_votes n) ∧ (∀ x, x ∈ n_accepted o → x ∈ n_accepted n).

Lemma isSubsetHelper_spec p v :
  SetOk p → SetOk v →
  ((isSubsetHelper p v).1 = true ↔ ∀ x, x ∈ p → x ∈ v) ∧
  ((isSubsetHelper p v).1 = true → (isSubsetHelper p v).2 = true ↔ p ≠ v).
Proof.
  intros Hp Hv. unfold isSubsetHelper. destruct (Nat.leb_spec (length p) (length v)) as [Hl|Hl]; cbn [fst snd].
  - pose proof (includes_spec v p Hv Hp) as Hi. split; [done|]. intros Hs. rewrite Hs, negb_true_iff, Nat.eqb_neq.
    pose proof (proj1 Hi Hs) as Hsub. split; [congruence|]. intros Hne Hlen. by apply Hne, SetOk_subset_eq.
  - split; [|done]. split; [done|]. intros Hs. pose proof (SetOk_subset_length p v Hp Hs). lia.
Qed.

(** On sorted nominations [isNewerStatement] is strict inclusion. *)
Lemma isNewerNomination_iff o n :
  nomSorted o → nomSorted n →
  isNewerNomination o n = true ↔
  nomIncluded o n ∧ ¬ (n_votes o = n_votes n ∧ n_accepted o = n_accepted n).
Proof.
  intros [Hov Hoa] [Hnv Hna]. unfold isNewerNomination, nomIncluded.
  destruct (isSubsetHelper_spec (n_votes o) (n_votes n)) as [E1 G1]; [done..|].
  destruct (isSubsetHelper_spec (n_accepted o) (n_accepted n)) as [E2 G2]; [done..|].
  destruct (isSubsetHelper (n_votes o) (n_votes n)) as [s1 g1].
  destruct (isSubsetHelper (n_accepted o) (n_accepted n)) as [s2 g2]. cbn [fst snd] in *.
  rewrite <- E1, <- E2. destruct s1; [|split; [done|tauto]]. destruct s2; [|split; [done|tauto]].
  rewrite orb_true_iff, G1, G2 by done.
  destruct (decide (n_votes o = n_votes n)), (decide (n_accepted o = n_accepted n)); tauto.
Qed.

Definition nominationOf (e : SCPEnvelope) : option SCPNomination :=
  match pledges (statement e) with nominate n => Some n | _ => None end.

Definition nomSupersedes (new old : SCPEnvelope) : Prop :=
  ∃ n o, nominationOf new = Some n ∧ nominationOf old = Some o ∧ nomSorted n ∧ nomSorted o ∧
    isNewerNomination o n = true.

Lemma nomSupersedes_trans x y z : nomSupersedes x y → nomSupersedes y z → nomSupersedes x z.
Proof.
  intros (n & o & En & Eo & Sn & So & H1) (n' & o' & En' & Eo' & Sn' & So' & H2).
  rewrite En' in Eo. injection Eo as ->. exists n, o'. split_and!; [done..|].
  apply isNewerNomination_iff in H1 as [[I1 I1'] N1], H2 as [[I2 I2'] N2]; [|done..].
  apply isNewerNomination_iff; [done..|]. split; [split; auto|]. intros [Ev Ea].
  apply N2. destruct So as [Sov Soa], Sn as [Snv Sna], So' as [So'v So'a].
  split; apply SetOk_ext; try done; intros v; split; auto; intros Hv; rewrite ?Ev, ?Ea; auto.
Qed.

(** ** The invariant of [NominationProtocol] *)

Record NomInv (n : NominationProtocol) : Prop := {
  nom_votes : SetOk (mVotes n);
  nom_accepted : SetOk (mAccepted n);
  nom_candidates : SetOk (mCandidates n);
  nom_accepted_voted : ∀ x, x ∈ mAccepted n → x ∈ mVotes n;
  nom_candidates_accepted : ∀ x, x ∈ mCandidates n → x ∈ mAccepted n;
  nom_latest : ∀ m e, mLatestNominations n !! m = Some e →
    nodeID (statement e) = m ∧ ∃ nom, nominationOf e = Some nom ∧ isSaneNomination nom = true }.

Record NomRel (n n' : NominationProtocol) : Prop := {
  nrel_votes : ∀ x, x ∈ mVotes n → x ∈ mVotes n';
  nrel_accepted : ∀ x, x ∈ mAccepted n → x ∈ mAccepted n';
  nrel_candidates : ∀ x, x ∈ mCandidates n → x ∈ mCandidates n';
  nrel_leaders : ∀ x, x ∈ mRoundLeaders n → x ∈ mRoundLeaders n';
  nrel_latest : ∀ m e, mLatestNominations n !! m = Some e →
    ∃ e', mLatestNominations n' !! m = Some e' ∧ (e' = e ∨ nomSupersedes e' e) }.

#[global] Instance NomRel_preorder : PreOrder NomRel.
Proof.
  split.
  - intros n. split; eauto.
  - intros n1 n2 n3 H1 H2. split.
    1-4: intros x Hx; apply H2, H1, Hx.
    intros m e He. destruct (nrel_latest _ _ H1 m e He) as (e2 & He2 & Hs2).
    destruct (nrel_latest _ _ H2 m e2 He2) as (e3 & He3 & Hs3). exists e3. split; [done|].
    destruct Hs2 as [->|], Hs3 as [->|]; eauto using nomSupersedes_trans.
Qed.

Lemma saneNomination_sorted nom : isSaneNomination nom = true → nomSorted nom.
Proof. unfold isSaneNomination. intros. propify. split; by apply strictlyIncreasing_SetOk. Qed.

(** On sane nominations [isNewerStatement] says that no vote and no accepted
    value has been dropped and that something has been added. *)
Theorem nomination_order_is_inclusion o n :
  isSaneNomination o = true → isSaneNomination n = true →
  isNewerNomination o n = true ↔
  nomIncluded o n ∧ ¬ (n_votes o = n_votes n ∧ n_accepted o = n_accepted n).
Proof. intros Ho Hn. apply isNewerNomination_iff; by apply saneNomination_sorted. Qed.

Lemma nomination_order_is_inclusion_witness :
  let o := mkNomination 0 [[1]] [] in let n := mkNomination 0 [[1]; [2]] [[1]] in
  nomIncluded o n ∧ ¬ (n_votes o = n_votes n ∧ n_accepted o = n_accepted n).
Proof. apply nomination_order_is_inclusion; reflexivity. Defined.
