(* ===== verification/BallotSafety.v ===== *)
(** * Safety and termination of the ballot protocol

    The invariant of a slot, the relation between the states before and after a
    call, and the proof that every member function of [BallotProtocol] keeps
    both, returns within the recursion bound of the source, and never
    dereferences a null pointer in a build without [dbgAssert]. *)
From stdpp Require Import base list sorting gmap strings.
From S2P Require Import Prelude QuorumSet Statement LocalNode Slot Ballot BallotPure NominationOrder.

(** ** The abstract protocol

    Seen from outside, a slot is open, then locked on a value, then has decided
    on that value. *)
Inductive Status := Open | Locked (v : Value) | Decided (v : Value).
Inductive advances : Status → Status → Prop :=
| advances_open x : advances Open x
| advances_locked v : advances (Locked v) (Locked v)
| advances_decide v : advances (Locked v) (Decided v)
| advances_decided v : advances (Decided v) (Decided v).

#[global] Instance advances_preorder : PreOrder advances.
Proof.
  split.
  - intros []; constructor.
  - intros x y z Hxy Hyz. destruct Hxy; [constructor|inversion Hyz; constructor..].
Qed.

Notation bp := mBallotProtocol (only parsing).

Definition statusOf (b : BallotProtocol) : Status :=
  match mPhase b, mCommit b with
  | SCP_PHASE_CONFIRM, Some c => Locked (value c)
  | SCP_PHASE_EXTERNALIZE, Some c => Decided (value c)
  | _, _ => Open
  end.
Definition status (s : Slot) : Status := statusOf (mBallotProtocol s).

Definition phaseNum (p : SCPPhase) : Z :=
  match p with SCP_PHASE_PREPARE => 0 | SCP_PHASE_CONFIRM => 1 | SCP_PHASE_EXTERNALIZE => 2 end.

(** The counter of the current ballot, zero before the first one. *)
Definition bcount (s : Slot) : Z :=
  match mCurrentBallot (mBallotProtocol s) with Some b => counter b | None => 0 end.

(** The ballot envelopes given to [emitEnvelope], newest first, and the values
    given to [valueExternalized]. *)
Definition isNomination (e : SCPEnvelope) : bool :=
  bool_decide (pledges_type (pledges (statement e)) = SCP_ST_NOMINATE).
Fixpoint emitted (l : list Event) : list SCPEnvelope :=
  match l with
  | [] => []
  | emitEnvelope e :: l => if isNomination e then emitted l else e :: emitted l
  | _ :: l => emitted l
  end.
Fixpoint emittedNoms (l : list Event) : list SCPEnvelope :=
  match l with
  | [] => []
  | emitEnvelope e :: l => if isNomination e then e :: emittedNoms l else emittedNoms l
  | _ :: l => emittedNoms l
  end.
Fixpoint externalized (l : list Event) : list Value :=
  match l with
  | [] => []
  | valueExternalized v :: l => v :: externalized l
  | _ :: l => externalized l
  end.

Definition supersedes (new old : SCPEnvelope) : Prop :=
  isNewerBallotStatement (statement old) (statement new) = true.

(** What has been sent: each envelope supersedes all earlier ones, and the last
    envelope generated supersedes the last one sent, unless it is the same. *)
Record SentOk (last lastEmit : EnvelopePtr) (alloc : nat) (l : list Event) : Prop := {
  sent_chain : StronglySorted supersedes (emitted l);
  sent_none : lastEmit = None → emitted l = [];
  sent_top : ∀ i e, lastEmit = Some (i, e) → Forall (λ x, x = e ∨ supersedes e x) (emitted l);
  sent_emit : ∀ i e, lastEmit = Some (i, e) → (i < alloc)%nat ∧
    ∃ j l, last = Some (j, l) ∧ ((i = j ∧ e = l) ∨ (i ≠ j ∧ supersedes l e));
  sent_fresh : ∀ j l, last = Some (j, l) → (j < alloc)%nat ∧ isNomination l = false }.

(** The same for nominations, where the last envelope is sent at once if at all. *)
Record NomSent (last : option SCPEnvelope) (l : list Event) : Prop := {
  nsent_chain : StronglySorted nomSupersedes (emittedNoms l);
  nsent_none : last = None → emittedNoms l = [];
  nsent_last : ∀ e, last = Some e →
    (∃ nom, nominationOf e = Some nom ∧ nomSorted nom) ∧
    Forall (λ x, x = e ∨ nomSupersedes e x) (emittedNoms l) }.

(** ** The invariant *)
Record Inv (s : Slot) : Prop := {
  inv_latest : ∀ n e, mLatestEnvelopes (bp s) !! n = Some e →
    nodeID (statement e) = n ∧ pledgesSane (pledges (statement e)) true = true;
  inv_prime : mPrepared (bp s) = None → mPreparedPrime (bp s) = None;
  inv_commit : mPhase (bp s) ≠ SCP_PHASE_PREPARE → ∃ b p h c,
    mCurrentBallot (bp s) = Some b ∧ mPrepared (bp s) = Some p ∧ mHighBallot (bp s) = Some h ∧
    mCommit (bp s) = Some c ∧ value b = value c ∧ value h = value c ∧
    counter c <= counter h <= counter b;
  inv_level : 0 <= mCurrentMessageLevel (bp s);
  inv_externalized : externalized (calls s) = [] ∨
    mPhase (bp s) = SCP_PHASE_EXTERNALIZE ∧
    ∃ c, mCommit (bp s) = Some c ∧ externalized (calls s) = [value c];
  inv_sent : SentOk (mLastEnvelope (bp s)) (mLastEnvelopeEmit (bp s)) (allocated s) (calls s);
  inv_nom : NomInv (mNominationProtocol s);
  inv_nomsent : NomSent (mNomLastEnvelope (mNominationProtocol s)) (calls s) }.

(** ** The relation between the states around a call

    [n] is a node, besides the local one, whose latest statement may change. *)
Record Rel (self n : NodeID) (s s' : Slot) : Prop := {
  rel_index : mSlotIndex s' = mSlotIndex s;
  rel_status : advances (status s) (status s');
  rel_phase : phaseNum (mPhase (bp s)) <= phaseNum (mPhase (bp s'));
  rel_frozen : mPhase (bp s) = SCP_PHASE_EXTERNALIZE →
    mCurrentBallot (bp s') = mCurrentBallot (bp s) ∧ mPrepared (bp s') = mPrepared (bp s) ∧
    mPreparedPrime (bp s') = mPreparedPrime (bp s) ∧ mHighBallot (bp s') = mHighBallot (bp s) ∧
    mCommit (bp s') = mCommit (bp s) ∧ externalized (calls s') = externalized (calls s);
  rel_current : mPhase (bp s') = mPhase (bp s) →
    compareBallotPtrs (mCurrentBallot (bp s)) (mCurrentBallot (bp s')) <= 0;
  rel_prepared : mPrepared (bp s') = None → mPrepared (bp s) = None;
  rel_latest : ∀ m e, mLatestEnvelopes (bp s) !! m = Some e →
    ∃ e', mLatestEnvelopes (bp s') !! m = Some e' ∧ (e' = e ∨ supersedes e' e);
  rel_others : ∀ m, m ≠ self → m ≠ n → mLatestEnvelopes (bp s') !! m = mLatestEnvelopes (bp s) !! m;
  rel_calls : ∃ l, calls s' = l ++ calls s;
  rel_history : ∃ l, mStatementsHistory s' = mStatementsHistory s ++ l;
  rel_nom : NomRel (mNominationProtocol s) (mNominationProtocol s') }.

Lemma supersedes_trans x y z : supersedes x y → supersedes y z → supersedes x z.
Proof. unfold supersedes. intros. by eapply newer_trans. Qed.

Lemma compareBallotPtrs_le_trans b1 b2 b3 :
  compareBallotPtrs b1 b2 <= 0 → compareBallotPtrs b2 b3 <= 0 → compareBallotPtrs b1 b3 <= 0.
Proof. destruct b1, b2, b3; simpl; try lia. apply compareBallots_le_trans. Qed.
Lemma compareBallotPtrs_refl b : compareBallotPtrs b b = 0.
Proof. by apply compareBallotPtrs_eq. Qed.

#[global] Instance Rel_preorder self n : PreOrder (Rel self n).
Proof.
  split.
  - intros s. split; try done; eauto.
    + rewrite compareBallotPtrs_refl. lia.
    + exists []. done.
    + exists []. by rewrite app_nil_r.
  - intros s1 s2 s3 H1 H2. split.
    + etrans; [apply H2|apply H1].
    + etrans; [apply H1|apply H2].
    + pose proof (rel_phase _ _ _ _ H1). pose proof (rel_phase _ _ _ _ H2). lia.
    + intros Hp. assert (mPhase (bp s2) = SCP_PHASE_EXTERNALIZE) as Hp2.
      { pose proof (rel_phase _ _ _ _ H1) as Hle. rewrite Hp in Hle. by destruct (mPhase (bp s2)). }
      destruct (rel_frozen _ _ _ _ H2 Hp2) as (-> & -> & -> & -> & -> & ->).
      by destruct (rel_frozen _ _ _ _ H1 Hp) as (-> & -> & -> & -> & -> & ->).
    + intros Hp. assert (mPhase (bp s2) = mPhase (bp s1)) as Hp2.
      { pose proof (rel_phase _ _ _ _ H1). pose proof (rel_phase _ _ _ _ H2) as Hle. rewrite Hp in Hle.
        by destruct (mPhase (bp s1)), (mPhase (bp s2)). }
      eapply compareBallotPtrs_le_trans; [by apply (rel_current _ _ _ _ H1)|].
      apply (rel_current _ _ _ _ H2). congruence.
    + intros Hp. by apply (rel_prepared _ _ _ _ H1), (rel_prepared _ _ _ _ H2).
    + intros m e He. destruct (rel_latest _ _ _ _ H1 m e He) as (e2 & He2 & Hs2).
      destruct (rel_latest _ _ _ _ H2 m e2 He2) as (e3 & He3 & Hs3). exists e3. split; [done|].
      destruct Hs2 as [->|], Hs3 as [->|]; eauto using supersedes_trans.
    + intros m Hm Hn. rewrite (rel_others _ _ _ _ H2) by done. by apply (rel_others _ _ _ _ H1).
    + destruct (rel_calls _ _ _ _ H1) as [l1 E1], (rel_calls _ _ _ _ H2) as [l2 E2].
      exists (l2 ++ l1). by rewrite E2, E1, app_assoc.
    + destruct (rel_history _ _ _ _ H1) as [l1 E1], (rel_history _ _ _ _ H2) as [l2 E2].
      exists (l1 ++ l2). by rewrite E2, E1, app_assoc.
    + etrans; [apply H1|apply H2].
Qed.

(** The relation of calls on the node's own statements is the strongest one. *)
Lemma Rel_weaken self n s s' : Rel self self s s' → Rel self n s s'.
Proof. intros []. split; auto. Qed.

(** The node's own latest statement is not ahead of its current ballot. *)
Definition Sync (self : NodeID) (s : Slot) : Prop :=
  mPhase (bp s) ≠ SCP_PHASE_EXTERNALIZE →
  ∀ e, mLatestEnvelopes (bp s) !! self = Some e → statementBallotCounter (statement e) <= bcount s.

(** ** Symbolic execution *)

Section Steps.
Context (C : Slot → Prop) (F : Prop) {A : Type} (Q : A → Slot → Prop) (X : Slot → Prop).

Lemma wp_bget {B} (f : BallotProtocol → B) (k : B → M Slot A) s :
  wp C F (k (f (mBallotProtocol s))) Q X s → wp C F (bget f ≫= k) Q X s.
Proof. done. Qed.
Lemma wp_nget {B} (f : NominationProtocol → B) (k : B → M Slot A) s :
  wp C F (k (f (mNominationProtocol s))) Q X s → wp C F (nget f ≫= k) Q X s.
Proof. done. Qed.
Lemma wp_sget {B} (f : Slot → B) (k : B → M Slot A) s :
  wp C F (k (f s)) Q X s → wp C F (sget f ≫= k) Q X s.
Proof. done. Qed.
Lemma wp_modify (f : Slot → Slot) (k : unit → M Slot A) s :
  wp C F (k tt) Q X (f s) → wp C F (modify f ≫= k) Q X s.
Proof. done. Qed.
Lemma wp_retb {B} (a : B) (k : B → M Slot A) s : wp C F (k a) Q X s → wp C F (mret a ≫= k) Q X s.
Proof. done. Qed.
Lemma wp_makeShared e (k : EnvelopePtr → M Slot A) s :
  wp C F (k (Some (allocated s, e))) Q X
    (mkSlot (mSlotIndex s) (mBallotProtocol s) (mNominationProtocol s)
       (mStatementsHistory s) (mFullyValidated s) (S (allocated s)) (calls s)) →
  wp C F (makeShared e ≫= k) Q X s.
Proof. done. Qed.
Lemma wp_deref {B} (o : option B) b (k : B → M Slot A) s :
  o = Some b → wp C F (k b) Q X s → wp C F (deref o ≫= k) Q X s.
Proof. by intros ->. Qed.
Lemma wp_assoc {B D} (m : M Slot B) (f : B → M Slot D) (k : D → M Slot A) s :
  wp C F (m ≫= λ b, f b ≫= k) Q X s → wp C F ((m ≫= f) ≫= k) Q X s.
Proof. unfold wp, mbind, M_bind. by destruct (m s). Qed.
Lemma wp_throw w (s : Slot) : X s → wp C F (throw w) Q X s.
Proof. done. Qed.
End Steps.

Lemma wp_conseq {A} (C : Slot → Prop) (F : Prop) (m : M Slot A) (Q Q' : A → Slot → Prop) (X X' : Slot → Prop) s :
  wp C F m Q X s → (∀ a s', Q a s' → Q' a s') → (∀ s', X s' → X' s') → wp C F m Q' X' s.
Proof. unfold wp. destruct (m s); naive_solver. Qed.

(** A computation that only reads: it returns in the same state or crashes. *)
Definition readOnly {A} (m : M Slot A) : Prop := ∀ s, (∃ a, m s = Ok a s) ∨ (∃ w, m s = Crash w s).
Lemma readOnly_ret {A} (a : A) : readOnly (mret a).
Proof. intros s. left. by exists a. Qed.
Lemma readOnly_deref {A B} (o : option A) (k : A → M Slot B) :
  (∀ a, readOnly (k a)) → readOnly (deref o ≫= k).
Proof. intros Hk s. destruct o as [a|]; [apply Hk|]. right. by eexists. Qed.

Lemma wp_dbgAssert {A} (E : Env) (C : Slot → Prop) (F : Prop) (m : M Slot bool) (k : unit → M Slot A) Q X s :
  readOnly m → (debug E = true → C s) → wp C F (k tt) Q X s → wp C F (dbgAssertM E m ≫= k) Q X s.
Proof.
  intros Hm HC Hk. unfold dbgAssertM. destruct (debug E); [|done].
  unfold wp, mbind, M_bind in *. destruct (Hm s) as [(a & ->)|(w & ->)]; [|auto].
  destruct a; [done|]. simpl. auto.
Qed.

(** Execute the statements that do not branch. *)
Ltac wp_step :=
  match goal with
  | |- wp _ _ (bget _ ≫= _) _ _ _ => apply wp_bget
  | |- wp _ _ (nget _ ≫= _) _ _ _ => apply wp_nget
  | |- wp _ _ (sget _ ≫= _) _ _ _ => apply wp_sget
  | |- wp _ _ (isFullyValidated ≫= _) _ _ _ => apply wp_sget
  | |- wp _ _ (bset _ _ ≫= _) _ _ _ => apply wp_modify
  | |- wp _ _ (nset _ _ ≫= _) _ _ _ => apply wp_modify
  | |- wp _ _ (call _ ≫= _) _ _ _ => apply wp_modify
  | |- wp _ _ (recordStatement _ _ ≫= _) _ _ _ => apply wp_modify
  | |- wp _ _ (setFullyValidated _ ≫= _) _ _ _ => apply wp_modify
  | |- wp _ _ (mret _ ≫= _) _ _ _ => apply wp_retb
  | |- wp _ _ (makeShared _ ≫= _) _ _ _ => apply wp_makeShared
  | |- wp _ _ ((_ ≫= _) ≫= _) _ _ _ => apply wp_assoc
  | |- wp _ _ (deref (Some _) ≫= _) _ _ _ => eapply wp_deref; [reflexivity|]
  | |- wp _ _ (dbgAssert _ _ ≫= _) _ _ _ => apply wp_dbgAssert; [apply readOnly_ret|first [by left|done]|]
  | |- wp _ _ (dbgAssertM _ _ ≫= _) _ _ _ =>
    apply wp_dbgAssert;
      [repeat first [apply readOnly_deref; intros ?|apply readOnly_ret]|first [by left|done]|]
  | |- wp _ _ (mret _) _ _ _ => apply wp_ret
  | |- wp _ _ (throw _) _ _ _ => apply wp_throw
  end; cbv beta zeta.
Ltac wp_run := repeat wp_step.

(** Branch on the condition of the next statement. *)
Tactic Notation "wp_if" "as" ident(H) :=
  match goal with
  | |- wp _ _ (if ?c then _ else _) _ _ _ => destruct c eqn:H
  | |- wp _ _ ((if ?c then _ else _) ≫= _) _ _ _ => destruct c eqn:H
  end; wp_run.

(** Reduce the fields of an updated state. *)
Ltac fields :=
  cbn [mBallotProtocol mNominationProtocol mSlotIndex mStatementsHistory mFullyValidated allocated calls
       setB setN set_heard set_current set_prepared set_preparedPrime set_high set_commit set_latest
       set_phase set_override set_level set_last set_lastEmit
       mHeardFromQuorum mCurrentBallot mPrepared mPreparedPrime mHighBallot mCommit mLatestEnvelopes
       mPhase mValueOverride mCurrentMessageLevel mLastEnvelope mLastEnvelopeEmit
       set_round set_votes set_accepted set_candidates set_nominations set_nomLast set_leaders set_started
       set_composite set_previous mRoundNumber mVotes mAccepted mCandidates mLatestNominations
       mNomLastEnvelope mRoundLeaders mNominationStarted mLatestCompositeCandidate mPreviousValue] in *.

(** ** Calls that are not emissions *)

Lemma emitted_app l k : emitted (l ++ k) = emitted l ++ emitted k.
Proof. induction l as [|[] l IH]; simpl; rewrite ?IH; try done. by destruct (isNomination e). Qed.
Lemma emittedNoms_app l k : emittedNoms (l ++ k) = emittedNoms l ++ emittedNoms k.
Proof. induction l as [|[] l IH]; simpl; rewrite ?IH; try done. by destruct (isNomination e). Qed.
Lemma NomSent_calls last l k : emittedNoms k = [] → NomSent last l → NomSent last (k ++ l).
Proof. intros Hk []. split; rewrite ?emittedNoms_app, ?Hk; auto. Qed.
Lemma externalized_app l k : externalized (l ++ k) = externalized l ++ externalized k.
Proof. induction l as [|[] l IH]; simpl; rewrite ?IH; done. Qed.

(** Sending an envelope that supersedes the last one sent. *)
Lemma SentOk_calls last lastEmit alloc l k :
  emitted k = [] → SentOk last lastEmit alloc l → SentOk last lastEmit alloc (k ++ l).
Proof. intros Hk []. split; rewrite ?emitted_app, ?Hk; auto. Qed.

Lemma SentOk_send i e lastEmit alloc l :
  SentOk (Some (i, e)) lastEmit alloc l →
  match lastEmit with Some (j, _) => negb (i =? j)%nat | None => true end = true →
  SentOk (Some (i, e)) (Some (i, e)) alloc (emitEnvelope e :: l).
Proof.
  intros [Hchain Hnone Htop Hemit Hfresh] Hne. destruct (Hfresh i e eq_refl) as [Hi Hn].
  assert (Forall (supersedes e) (emitted l)) as Hall.
  { destruct lastEmit as [[j x]|]; [|rewrite Hnone by done; constructor].
    destruct (Hemit j x eq_refl) as (_ & ? & ? & [= <- <-] & [[-> _]|[_ Hs]]).
    { by rewrite Nat.eqb_refl in Hne. }
    eapply Forall_impl; [by eapply Htop|]. simpl. intros y [->|Hy]; [done|].
    by eapply supersedes_trans. }
  split; simpl; rewrite ?Hn.
  - by apply StronglySorted_cons.
  - done.
  - intros ? ? [= <- <-]. constructor; [by left|]. eapply Forall_impl; [exact Hall|]. auto.
  - intros ? ? [= <- <-]. eauto 10.
  - done.
Qed.

Lemma SentOk_generate last lastEmit alloc l e :
  SentOk last lastEmit alloc l → isNomination e = false →
  match last with None => True | Some (_, x) => supersedes e x end →
  SentOk (Some (alloc, e)) lastEmit (S alloc) l.
Proof.
  intros [Hchain Hnone Htop Hemit Hfresh] Hn Hlast. split; [done..| |].
  - intros i x Ex. destruct (Hemit i x Ex) as (Hi & j & y & -> & Hxy). split; [lia|].
    exists alloc, e. split; [done|]. right. split; [lia|].
    destruct Hxy as [[-> ->]|[_ Hs]]; eauto using supersedes_trans.
  - intros j y [= <- <-]. split; [lia|done].
Qed.

(** ** Changes of the ballots

    The fields that the functions below leave alone, with the calls they make. *)
Record Kept (s s' : Slot) : Prop := {
  kept_index : mSlotIndex s' = mSlotIndex s;
  kept_latest : mLatestEnvelopes (bp s') = mLatestEnvelopes (bp s);
  kept_level : mCurrentMessageLevel (bp s') = mCurrentMessageLevel (bp s);
  kept_last : mLastEnvelope (bp s') = mLastEnvelope (bp s);
  kept_emit : mLastEnvelopeEmit (bp s') = mLastEnvelopeEmit (bp s);
  kept_alloc : allocated s' = allocated s;
  kept_history : mStatementsHistory s' = mStatementsHistory s;
  kept_nom : mNominationProtocol s' = mNominationProtocol s;
  kept_calls : ∃ l, calls s' = l ++ calls s ∧ emitted l = [] ∧ externalized l = [] ∧ emittedNoms l = [] }.

#[global] Instance Kept_preorder : PreOrder Kept.
Proof.
  split.
  - intros s. split; try done. by exists [].
  - intros s1 s2 s3 [? ? ? ? ? ? ? ? (l1 & E1 & ? & ? & ?)] [? ? ? ? ? ? ? ? (l2 & E2 & ? & ? & ?)].
    split; try congruence. exists (l2 ++ l1).
    rewrite E2, E1, app_assoc, emitted_app, externalized_app, emittedNoms_app.
    split_and!; [done|..]; by apply app_nil.
Qed.

(** The ballots and the phase. *)
Definition ballots (s : Slot) :=
  (mCurrentBallot (bp s), mPrepared (bp s), mPreparedPrime (bp s), mHighBallot (bp s), mCommit (bp s),
   mPhase (bp s)).

(** The part of the invariant about them. *)
Record BallotsOk (s : Slot) : Prop := {
  ok_prime : mPrepared (bp s) = None → mPreparedPrime (bp s) = None;
  ok_commit : mPhase (bp s) ≠ SCP_PHASE_PREPARE → ∃ b p h c,
    mCurrentBallot (bp s) = Some b ∧ mPrepared (bp s) = Some p ∧ mHighBallot (bp s) = Some h ∧
    mCommit (bp s) = Some c ∧ value b = value c ∧ value h = value c ∧
    counter c <= counter h <= counter b }.
Lemma Inv_BallotsOk s : Inv s → BallotsOk s.
Proof. intros []. by split. Qed.

(** How they may change before an externalization. *)
Record BallotsStep (s s' : Slot) : Prop := {
  step_open : mPhase (bp s) ≠ SCP_PHASE_EXTERNALIZE;
  step_status : advances (status s) (status s');
  step_phase : phaseNum (mPhase (bp s)) <= phaseNum (mPhase (bp s'));
  step_current : mPhase (bp s') = mPhase (bp s) →
    compareBallotPtrs (mCurrentBallot (bp s)) (mCurrentBallot (bp s')) <= 0;
  step_prepared : mPrepared (bp s') = None → mPrepared (bp s) = None }.

Lemma change_ok self s s' :
  Inv s → Kept s s' → BallotsOk s' → BallotsStep s s' → Inv s' ∧ Rel self self s s'.
Proof.
  intros HI [Ei El Ev Ela Ee Ea Eh En (l & Ec & Hl & Hx & Hn)] [] []. destruct HI. split.
  - split; rewrite ?El, ?Ev, ?Ela, ?Ee, ?Ea, ?Ec, ?En; auto using SentOk_calls, NomSent_calls. left.
    rewrite externalized_app, Hx. by destruct inv_externalized0 as [->|[? _]].
  - split; rewrite ?El, ?Eh, ?En; auto; try done; eauto. exists []. by rewrite app_nil_r.
Qed.

(** A change that leaves the ballots alone. *)
Lemma neutral_ok self s s' : Inv s → Kept s s' → ballots s' = ballots s → Inv s' ∧ Rel self self s s'.
Proof.
  intros HI [Ei El Ev Ela Ee Ea Eh En (l & Ec & Hl & Hx & Hn)] [= E1 E2 E3 E4 E5 E6]. destruct HI. split.
  - split; rewrite ?El, ?Ev, ?Ela, ?Ee, ?Ea, ?Ec, ?En, ?E1, ?E2, ?E3, ?E4, ?E5, ?E6;
      auto using SentOk_calls, NomSent_calls.
    by rewrite externalized_app, Hx.
  - split; rewrite ?El, ?Eh, ?Ec, ?En, ?E1, ?E2, ?E3, ?E4, ?E5, ?E6; auto; try done; eauto.
    + unfold status, statusOf. by rewrite E5, E6.
    + by rewrite externalized_app, Hx.
    + rewrite compareBallotPtrs_refl. lia.
    + exists []. by rewrite app_nil_r.
Qed.

Lemma neutral_sync self s s' : Kept s s' → ballots s' = ballots s → Sync self s → Sync self s'.
Proof.
  intros [] [= E1 _ _ _ _ E6]. unfold Sync, bcount. by rewrite E1, E6, kept_latest0.
Qed.

Ltac kept :=
  split; fields; try reflexivity;
  first [exists []; by split_and!|eexists [_]; by split_and!|eexists [_; _]; by split_and!
        |eexists [_; _; _]; by split_and!].

Lemma compareBallots_counter b1 b2 : compareBallots b1 b2 <= 0 → counter b1 <= counter b2.
Proof.
  unfold compareBallots.
  destruct (Z.ltb_spec (counter b1) (counter b2)), (Z.ltb_spec (counter b2) (counter b1)); lia.
Qed.

(** The state after the current ballot has been set: the high ballot is dropped
    when it has another value. *)
Record Bumped (ballot : SCPBallot) (s s' : Slot) : Prop := {
  bumped_kept : Kept s s';
  bumped_current : mCurrentBallot (bp s') = Some ballot;
  bumped_high : mHighBallot (bp s') =
    match mHighBallot (bp s) with
    | Some h => if areBallotsCompatible ballot h then Some h else None
    | None => None
    end;
  bumped_others : (mPrepared (bp s'), mPreparedPrime (bp s'), mCommit (bp s'), mPhase (bp s')) =
    (mPrepared (bp s), mPreparedPrime (bp s), mCommit (bp s), mPhase (bp s)) }.

(** Raising the current ballot keeps the invariant; after a commit has been
    accepted the value must stay. *)
Lemma bumped_change ballot s s' :
  Inv s → Bumped ballot s s' → mPhase (bp s) ≠ SCP_PHASE_EXTERNALIZE →
  (∀ b, mCurrentBallot (bp s) = Some b → compareBallots b ballot <= 0) →
  (mPhase (bp s) = SCP_PHASE_CONFIRM → ∀ c, mCommit (bp s) = Some c → value ballot = value c) →
  BallotsOk s' ∧ BallotsStep s s'.
Proof.
  intros HI [_ Eb Eh [= Ep Epp Ec Eph]] Hph Hle Hval. split.
  - split; rewrite ?Ep, ?Epp, ?Ec, ?Eph; [apply HI|]. intros Hp.
    destruct (inv_commit _ HI Hp) as (b & p & h & c & Eb' & Ep' & Eh' & Ec' & Vb & Vh & Hc).
    assert (value ballot = value c) as Hv by (by apply Hval; [destruct (mPhase (bp s))|]).
    exists ballot, p, h, c. rewrite Eb, Eh, Ep', Ec', Eh'. rewrite (proj2 (compatible_spec _ _)) by congruence.
    specialize (Hle b Eb'). apply compareBallots_counter in Hle. split_and!; try done; lia.
  - split; rewrite ?Ep, ?Eph; try done.
    + unfold status, statusOf. by rewrite Ec, Eph.
    + intros _. rewrite Eb. destruct (mCurrentBallot (bp s)) as [b|] eqn:Eb'; simpl; [by apply Hle|lia].
Qed.

(** ** The member functions *)

(** After it has accepted a commit, the node accepts as prepared a ballot that
    contradicts it. *)
Definition Conflict (s : Slot) : Prop :=
  mPhase (bp s) = SCP_PHASE_CONFIRM ∧ ∃ h b, mHighBallot (bp s) = Some h ∧
    (mPrepared (bp s) = Some b ∨ mPreparedPrime (bp s) = Some b) ∧ areBallotsLessAndIncompatible h b = true.

(** The process may only go down when assertions are enabled, or after a conflict. *)
Definition mayCrash (E : Env) (s : Slot) : Prop := debug E = true ∨ Conflict s.

Section Functions.
Context (E : Env) (F : Prop) (fuel : nat).
Context (rec : SCPEnvelope → bool → M Slot EnvelopeState).
Let self := localID E.
Let C := mayCrash E.
Let level (s : Slot) := mCurrentMessageLevel (bp s).

(** The states from which the guarantees to the caller can be established. *)
Definition Cond (n : NodeID) (s0 s : Slot) : Prop :=
  Inv s ∧ Rel (localID E) n s0 s ∧
  mCurrentMessageLevel (bp s0) <= mCurrentMessageLevel (bp s).
(** What every member function guarantees when it returns. *)
Definition Post (s s' : Slot) : Prop :=
  Inv s' ∧ Rel (localID E) (localID E) s s' ∧
  mCurrentMessageLevel (bp s') = mCurrentMessageLevel (bp s).
Definition fuelOk (s : Slot) : Prop :=
  F ∨ 1 <= Z.of_nat fuel ∧
      MAX_ADVANCE_SLOT_RECURSION <= mCurrentMessageLevel (bp s) + Z.of_nat fuel.

(** A ballot envelope of the local node, not ahead of its current ballot. *)
Definition ownEnvelope (s : Slot) (e : SCPEnvelope) : Prop :=
  nodeID (statement e) = self ∧ isNomination e = false ∧
  (mPhase (bp s) ≠ SCP_PHASE_EXTERNALIZE → statementBallotCounter (statement e) <= bcount s).

(** What the recursive call guarantees. *)
Definition RecSpec : Prop := ∀ e n s0 s (K : EnvelopeState → Slot → Prop),
  Cond n s0 s → fuelOk s → ownEnvelope s e →
  (∀ r s', Post s s' → (r = VALID → Sync self s') → K r s') →
  wp C F (rec e true) K (Cond n s0) s.

Lemma Cond_Post n s0 s s' : Cond n s0 s → Post s s' → Cond n s0 s'.
Proof.
  intros (HI & HR & Hl) (HI' & HR' & Hl'). split_and!; [done| |lia].
  etrans; [done|]. by apply Rel_weaken.
Qed.
Lemma Post_refl s : Inv s → Post s s.
Proof. done. Qed.
Lemma Post_trans s1 s2 s3 : Post s1 s2 → Post s2 s3 → Post s1 s3.
Proof. intros (_ & HR1 & Hl1) (HI2 & HR2 & Hl2). split_and!; [done|by etrans|congruence]. Qed.
Lemma fuelOk_level s s' :
  mCurrentMessageLevel (bp s') = mCurrentMessageLevel (bp s) → fuelOk s → fuelOk s'.
Proof. unfold fuelOk. by intros ->. Qed.
Lemma fuelOk_Post s s' : Post s s' → fuelOk s → fuelOk s'.
Proof. intros (_ & _ & Hl). by apply fuelOk_level. Qed.

Lemma Post_neutral s s' : Inv s → Kept s s' → ballots s' = ballots s → Post s s'.
Proof. intros HI HK HB. destruct (neutral_ok self s s' HI HK HB). split_and!; [done..|apply HK]. Qed.
Lemma Post_change s s' : Inv s → Kept s s' → BallotsOk s' → BallotsStep s s' → Post s s'.
Proof. intros HI HK HB HS. destruct (change_ok self s s' HI HK HB HS). split_and!; [done..|apply HK]. Qed.

Lemma sendLatestEnvelope_ok n s0 s (K : unit → Slot → Prop) :
  Cond n s0 s →
  (∀ s', Post s s' → (Sync self s → Sync self s') → K tt s') →
  wp C F sendLatestEnvelope K (Cond n s0) s.
Proof.
  intros (HI & HR & Hl) HK. unfold sendLatestEnvelope. wp_run.
  destruct (mLastEnvelope (bp s)) as [[id e]|] eqn:El; wp_run; [|by apply HK; [apply Post_refl|]].
  wp_if as Eg; [|by apply HK; [apply Post_refl|]].
  wp_if as Ene; [|by apply HK; [apply Post_refl|]].
  apply HK; [|done]. pose proof (inv_sent _ HI) as HS. rewrite El in HS.
  assert (isNomination e = false) as Hn by (by apply (sent_fresh _ _ _ _ HS id)).
  pose proof (SentOk_send _ _ _ _ _ HS Ene) as HS'. split_and!; [| |done].
  - destruct HI. split; fields; rewrite ?El; try done.
    apply (NomSent_calls _ _ [_]); [|done]. simpl. by rewrite Hn.
  - split; fields; try done; eauto.
    + rewrite compareBallotPtrs_refl. lia.
    + by eexists [_].
    + exists []. by rewrite app_nil_r.
Qed.

Lemma checkInvariants_ok {A} (k : unit → M Slot A) (K : A → Slot → Prop) X s :
  wp C F (k tt) K X s → wp C F (checkInvariants E ≫= k) K X s.
Proof.
  intros Hk. unfold checkInvariants. wp_run.
  destruct (mCurrentBallot (bp s)), (mPrepared (bp s)), (mPreparedPrime (bp s)), (mHighBallot (bp s)),
    (mCommit (bp s)); wp_run; destruct (mPhase (bp s)); wp_run; done.
Qed.

(** The statement of the current state, when the pointers that it reads are set. *)
Lemma createStatement_ok {A} (k : SCPStatement → M Slot A) (K : A → Slot → Prop) X s :
  Inv s →
  (∀ st, isNomination (mkEnvelope st []) = false →
     (mPhase (bp s) ≠ SCP_PHASE_EXTERNALIZE → statementBallotCounter st = bcount s) →
     wp C F (k st) K X s) →
  wp C F (createStatement E (match mPhase (bp s) with
           | SCP_PHASE_PREPARE => SCP_ST_PREPARE
           | SCP_PHASE_CONFIRM => SCP_ST_CONFIRM
           | SCP_PHASE_EXTERNALIZE => SCP_ST_EXTERNALIZE
           end) ≫= k) K X s.
Proof.
  intros HI Hk. unfold createStatement. wp_run. apply checkInvariants_ok. wp_run.
  destruct (mPhase (bp s)) eqn:Ep; wp_run.
  - apply Hk; [done|]. intros _. unfold statementBallotCounter, bcount. simpl.
    by destruct (mCurrentBallot (bp s)).
  - destruct (inv_commit _ HI) as (b & p & h & c & Eb & -> & -> & -> & _); [by rewrite Ep|]. rewrite Eb.
    wp_run. apply Hk; [done|]. intros _. unfold statementBallotCounter, bcount. by rewrite Eb.
  - destruct (inv_commit _ HI) as (b & p & h & c & _ & _ & -> & -> & _); [by rewrite Ep|]. wp_run.
    by apply Hk.
Qed.

Context (Hrec : RecSpec).

Lemma emitCurrentStateStatement_ok n s0 s (K : unit → Slot → Prop) :
  Cond n s0 s → fuelOk s →
  (∀ s', Post s s' → Sync self s' → K tt s') →
  wp C F (emitCurrentStateStatement E rec) K (Cond n s0) s.
Proof.
  intros HC Hf HK. pose proof HC as (HI & HR & Hl). unfold emitCurrentStateStatement. wp_run.
  apply createStatement_ok; [done|]. intros st Hn Hcount. unfold createEnvelope. wp_run.
  set (env := mkEnvelope _ _). assert (isNomination env = false) as Hn' by done.
  assert (ownEnvelope s env) as Hown.
  { split_and!; [done..|]. intros Hp. unfold statementBallotCounter in *. simpl. rewrite Hcount by done. lia. }
  wp_if as Eq.
  2: { apply HK; [by apply Post_refl|]. intros Hp e He. fold self in Eq.
       assert (e = env) as -> by (rewrite He in Eq; by propify). by apply Hown. }
  apply wp_bind, (Hrec env n s0 s); [done..|]. intros r s1 HP Hsync. pose proof HP as (HI1 & HR1 & Hl1).
  destruct r; wp_run; [by eapply Cond_Post|]. specialize (Hsync eq_refl).
  wp_if as Ecan; [|by apply HK]. apply andb_prop in Ecan as [_ Enew].
  match goal with |- wp _ _ _ _ _ ?s2 => set (s2' := s2) end.
  assert (Post s1 s2') as HP2.
  { split_and!; [| |done].
    - destruct HI1. split; fields; auto. eapply SentOk_generate; [done..|].
      by destruct (mLastEnvelope (bp s1)) as [[? ?]|].
    - split; fields; try done; eauto.
      + rewrite compareBallotPtrs_refl. lia.
      + by exists [].
      + exists []. by rewrite app_nil_r. }
  apply (sendLatestEnvelope_ok n s0); [by do 2 (eapply Cond_Post; [|done])|].
  intros s3 HP3 Hs3. apply HK; [by do 2 (eapply Post_trans; [done|])|]. by apply Hs3.
Qed.

Lemma bumpToBallot_ok {A} ballot check (k : unit → M Slot A) (K : A → Slot → Prop) X s :
  (∀ s', Bumped ballot s s' → wp C F (k tt) K X s') →
  wp C F (bumpToBallot E ballot check ≫= k) K X s.
Proof.
  intros Hk. unfold bumpToBallot. wp_run. destruct check; wp_run.
  all: destruct (mCurrentBallot (bp s)) as [b|] eqn:Eb; wp_run; fields;
    destruct (mHighBallot (bp s)) as [h|] eqn:Eh; wp_run;
    try (wp_if as Ec); try (wp_if as Eg); apply Hk; split; fields;
    rewrite ?Eh; try (propify; match goal with H : areBallotsCompatible _ _ = _ |- _ => rewrite H end);
    try done; kept.
Qed.

Lemma startTimer_ok {A} b (k : unit → M Slot A) (K : A → Slot → Prop) X s :
  mCurrentBallot (bp s) = Some b →
  (∀ s', Kept s s' → ballots s' = ballots s → wp C F (k tt) K X s') →
  wp C F (startBallotProtocolTimer ≫= k) K X s.
Proof.
  intros Eb Hk. unfold startBallotProtocolTimer. wp_run. rewrite Eb. wp_run. apply Hk; [kept|done].
Qed.

Lemma checkHeardFromQuorum_ok {A} (k : unit → M Slot A) (K : A → Slot → Prop) X s :
  (∀ s', Kept s s' → ballots s' = ballots s → wp C F (k tt) K X s') →
  wp C F (checkHeardFromQuorum E ≫= k) K X s.
Proof.
  intros Hk. unfold checkHeardFromQuorum. wp_run.
  destruct (mCurrentBallot (bp s)) as [b|] eqn:Eb; wp_run; [|by apply Hk].
  wp_if as Eq; [|unfold stopBallotProtocolTimer; wp_run; apply Hk; [kept|done]].
  wp_if as Eo; [wp_if as Ep1|].
  - apply (startTimer_ok b); [done|]. intros s' HK HB.
    wp_if as Ep2; [unfold stopBallotProtocolTimer; wp_run|]; apply Hk.
    + etrans; [|etrans; [exact HK|kept]]. kept.
    + done.
    + etrans; [|exact HK]. kept.
    + done.
  - wp_if as Ep2; [unfold stopBallotProtocolTimer; wp_run|]; apply Hk; first [kept|done].
  - wp_if as Ep2; [unfold stopBallotProtocolTimer; wp_run|]; apply Hk; first [kept|done].
Qed.

Lemma updateCurrentIfNeeded_ok {A} h (k : bool → M Slot A) (K : A → Slot → Prop) X s :
  (∀ s', (∀ b, mCurrentBallot (bp s) = Some b → compareBallots b h < 0) → Bumped h s s' →
     wp C F (k true) K X s') →
  (∀ b, mCurrentBallot (bp s) = Some b → 0 <= compareBallots b h → wp C F (k false) K X s) →
  wp C F (updateCurrentIfNeeded E h ≫= k) K X s.
Proof.
  intros Ht Hf. unfold updateCurrentIfNeeded. wp_run. wp_if as Eb.
  - apply bumpToBallot_ok. intros s' HB. wp_run. apply Ht; [|done].
    intros b Eb'. rewrite Eb' in Eb. by propify.
  - destruct (mCurrentBallot (bp s)) as [b|]; [|done]. propify. by apply (Hf b).
Qed.

Lemma updateCurrentValue_ok {A} ballot (k : bool → M Slot A) (K : A → Slot → Prop) X s :
  Inv s →
  (∀ s', Bumped ballot s s' → BallotsOk s' → BallotsStep s s' → wp C F (k true) K X s') →
  wp C F (k false) K X s →
  wp C F (updateCurrentValue E ballot ≫= k) K X s.
Proof.
  intros HI Ht Hf. unfold updateCurrentValue. wp_run. wp_if as Ep; [done|]. propify.
  destruct (mCurrentBallot (bp s)) as [b|] eqn:Eb; wp_run.
  2: { apply bumpToBallot_ok. intros s' HB. wp_run. apply checkInvariants_ok. wp_run.
       destruct (bumped_change ballot s s') as [HO HS]; auto; [by rewrite Eb|].
       intros Hc. destruct (inv_commit _ HI) as (? & ? & ? & ? & ? & _); congruence. }
  wp_if as Ec; [done|]. wp_if as Elt.
  - apply bumpToBallot_ok. intros s' HB. wp_run. apply checkInvariants_ok. wp_run. propify.
    destruct (bumped_change ballot s s') as [HO HS]; auto.
    + intros b' Eb'. rewrite Eb' in Eb. injection Eb as ->. lia.
    + intros _ c Ec'. rewrite Ec' in Ec. propify. by apply compatible_spec in Ec.
  - wp_if as Egt; [done|]. apply checkInvariants_ok. by wp_run.
Qed.

(** The bump to a counter: when it happens the current ballot reaches it, unless
    the phase changes on the way. *)
Definition reaches (n : Z) (r : bool) (s s' : Slot) : Prop :=
  r = true → Sync self s' ∧ (mPhase (bp s') = mPhase (bp s) → n <= bcount s').

Lemma bumpStateTo_ok v cnt n s0 s (K : bool → Slot → Prop) :
  Cond n s0 s → fuelOk s →
  (∀ r s', Post s s' → (Sync self s → Sync self s') → reaches cnt r s s' → K r s') →
  wp C F (bumpStateTo E rec v cnt) K (Cond n s0) s.
Proof.
  intros HC Hf HK. pose proof HC as (HI & HR & Hl).
  assert (K false s) as HKf by (by apply HK; [apply Post_refl| |]).
  unfold bumpStateTo. wp_run. wp_if as Ep; [done|]. propify.
  apply updateCurrentValue_ok; [done| |by wp_run]. intros s1 HB HO HS.
  pose proof (Post_change _ _ HI (bumped_kept _ _ _ HB) HO HS) as HP1. wp_run.
  apply wp_bind, (emitCurrentStateStatement_ok n s0 s1);
    [by eapply Cond_Post|by eapply fuelOk_Post|]. intros s2 HP2 Hs2.
  apply checkHeardFromQuorum_ok. intros s3 HK3 HB3. wp_run.
  pose proof (Post_neutral s2 s3 (proj1 HP2) HK3 HB3) as HP3.
  assert (Sync self s3) as Hs3 by (by eapply neutral_sync).
  apply HK; [by do 2 (eapply Post_trans; [done|])|done|]. intros _. split; [done|]. intros Eph.
  assert (Post s1 s3) as (_ & HR13 & _) by (by eapply Post_trans).
  assert (mPhase (bp s1) = mPhase (bp s)) as Eph1 by (by pose proof (bumped_others _ _ _ HB) as [= _ _ _ ->]).
  pose proof (rel_current _ _ _ _ HR13) as Hle. unfold bcount.
  rewrite (bumped_current _ _ _ HB) in Hle. destruct (mCurrentBallot (bp s3)) as [b3|]; simpl in Hle.
  - apply compareBallots_counter in Hle; [done|congruence].
  - lapply Hle; [lia|congruence].
Qed.

Lemma abandonBallot_ok cnt n s0 s (K : bool → Slot → Prop) :
  Cond n s0 s → fuelOk s →
  (∀ r s', Post s s' → (Sync self s → Sync self s') → reaches cnt r s s' → K r s') →
  wp C F (abandonBallot E rec cnt) K (Cond n s0) s.
Proof.
  intros HC Hf HK. pose proof HC as (HI & HR & Hl).
  unfold abandonBallot. wp_run. wp_if as Ev; [by apply HK; [apply Post_refl| |]|].
  wp_if as E0; [|by apply (bumpStateTo_ok _ cnt n s0)]. propify. subst cnt.
  unfold bumpState. wp_run. cbn [negb andb].
  eapply bumpStateTo_ok; [done..|]. intros r s' HP Hsy Hre. apply HK; [done..|].
  intros Hr. destruct (Hre Hr) as [? Hle]. split; [done|]. intros Eph. specialize (Hle Eph).
  destruct (mCurrentBallot (bp s)); [|lia]. pose proof (u32_range (counter s1 + 1)) as [? _]. lia.
Qed.

Lemma bumpState_ok v force n s0 s (K : bool → Slot → Prop) :
  Cond n s0 s → fuelOk s →
  (∀ r s', Post s s' → (Sync self s → Sync self s') → K r s') →
  wp C F (bumpState E rec v force) K (Cond n s0) s.
Proof.
  intros HC Hf HK. pose proof HC as (HI & HR & Hl).
  unfold bumpState. wp_run. wp_if as Ev; [by apply HK; [apply Post_refl|]|].
  eapply bumpStateTo_ok; [done..|]. auto.
Qed.

(** No v-blocking set is ahead of the current ballot: nothing is left to bump to. *)
Definition caughtUp (s : Slot) : Prop :=
  mPhase (bp s) = SCP_PHASE_EXTERNALIZE ∨
  hasVBlockingSubsetStrictlyAheadOf E (mLatestEnvelopes (bp s)) (bcount s) = false.

(** After a bump to a counter that no v-blocking set is ahead of, the node has
    caught up: only its own statement has changed since, and it is not ahead. *)
Lemma reaches_caughtUp cnt s s' :
  Rel self self s s' → hasVBlockingSubsetStrictlyAheadOf E (mLatestEnvelopes (bp s)) cnt = false →
  reaches cnt true s s' → mPhase (bp s') = mPhase (bp s) → caughtUp s'.
Proof.
  intros HR Hno Hre Eph. destruct (Hre eq_refl) as [Hsync Hle]. specialize (Hle Eph).
  destruct (decide (mPhase (bp s') = SCP_PHASE_EXTERNALIZE)); [by left|]. right.
  destruct (hasVBlockingSubsetStrictlyAheadOf _ _ (bcount s')) eqn:Ev; [|done].
  rewrite <- Hno. symmetry. revert Ev. unfold hasVBlockingSubsetStrictlyAheadOf, isVBlocking.
  apply isVBlocking_mono. intros m _. rewrite !elem_of_filterNodes. intros (e & He & Hlt). propify.
  destruct (decide (m = self)) as [->|Hm]; [specialize (Hsync n e He); lia|].
  exists e. rewrite (rel_others _ _ _ _ HR) in He by done. split; [done|]. lia.
Qed.

Lemma tryCounters_ok latest counters n s0 s (K : bool → Slot → Prop) :
  latest = mLatestEnvelopes (bp s) → Cond n s0 s → fuelOk s →
  (∀ r s', Post s s' → (Sync self s → Sync self s') →
     (r = true → mPhase (bp s') = mPhase (bp s) → caughtUp s') → K r s') →
  wp C F (tryCounters E rec latest counters) K (Cond n s0) s.
Proof.
  intros El HC Hf HK. subst latest. induction counters as [|c counters IH]; simpl; wp_run.
  { apply HK; [apply Post_refl, HC|done..]. }
  wp_if as Ev; [|done]. propify. apply (abandonBallot_ok c n s0); [done..|].
  intros r s' HP Hsy Hre. apply HK; [done..|]. intros -> Eph. destruct HP as (_ & HR & _).
  by eapply reaches_caughtUp.
Qed.

Lemma attemptBump_ok n s0 s (K : bool → Slot → Prop) :
  Cond n s0 s → fuelOk s →
  (∀ r s', Post s s' → (Sync self s → Sync self s') →
     (r = true → mPhase (bp s') = mPhase (bp s) → caughtUp s') →
     (caughtUp s → r = false) → K r s') →
  wp C F (attemptBump E rec) K (Cond n s0) s.
Proof.
  intros HC Hf HK. pose proof HC as (HI & _). unfold attemptBump. wp_run.
  wp_if as Ep; [|by apply HK; [apply Post_refl|..]]. propify. wp_if as Ev; [by apply HK; [apply Post_refl|..]|].
  propify. fold (bcount s) in Ev. apply (tryCounters_ok _ _ n s0 s); [done..|]. intros r s' HP Hsy Hcu.
  apply HK; [done..|]. intros [?|Hv]; [done|]. congruence.
Qed.

Lemma bumpLoop_ok turns w n s0 s (K : bool → Slot → Prop) :
  Cond n s0 s → fuelOk s →
  (3 - phaseNum (mPhase (bp s)) <= Z.of_nat turns ∨ 1 <= Z.of_nat turns ∧ caughtUp s) →
  (∀ r s', Post s s' → (Sync self s → Sync self s') → K r s') →
  wp C F (bumpLoop E rec turns w) K (Cond n s0) s.
Proof.
  revert w s. induction turns as [|turns IH]; intros w s HC Hf Ht HK.
  { destruct (mPhase (bp s)); simpl in Ht; lia. }
  simpl. apply wp_bind, (attemptBump_ok n s0); [done..|]. intros r s1 HP Hsy Hcu Hno.
  destruct r; wp_run; [|by apply HK].
  apply IH; [by eapply Cond_Post|by eapply fuelOk_Post| |].
  - destruct HP as (_ & HR & _). pose proof (rel_phase _ _ _ _ HR) as Hle.
    destruct (decide (mPhase (bp s1) = mPhase (bp s))) as [Eph|Nph].
    + right. split; [|by apply Hcu]. destruct Ht as [Ht|[_ Ht]]; [|by apply Hno in Ht].
      destruct (mPhase (bp s)) eqn:Ep; simpl in Ht; try lia.
      assert (caughtUp s) as Hcus by (by left). by apply Hno in Hcus.
    + left. destruct Ht as [Ht|[_ Ht]]; [|by apply Hno in Ht].
      destruct (mPhase (bp s)), (mPhase (bp s1)); simpl in *; try done; lia.
  - intros r s2 HP2 Hs2. apply HK; [by eapply Post_trans|auto].
Qed.

(** What a function that ends with an emission guarantees. *)
Definition Done (s s' : Slot) : Prop := Post s s' ∧ (Sync self s → Sync self s').
Lemma Done_refl s : Inv s → Done s s.
Proof. by split; [apply Post_refl|]. Qed.
Lemma Done_trans s1 s2 s3 : Done s1 s2 → Done s2 s3 → Done s1 s3.
Proof. intros [H1 ?] [H2 ?]. split; [by eapply Post_trans|auto]. Qed.
Lemma Done_neutral s s' : Inv s → Kept s s' → ballots s' = ballots s → Done s s'.
Proof. intros. split; [by apply Post_neutral|by eapply neutral_sync]. Qed.

(** Emission after a change of the ballots. *)
Lemma emit_after {A} (k : unit → M Slot A) n s0 s s1 (K : A → Slot → Prop) :
  Cond n s0 s → fuelOk s → Kept s s1 → BallotsOk s1 → BallotsStep s s1 →
  (∀ s', Done s s' → Rel self self s1 s' → wp C F (k tt) K (Cond n s0) s') →
  wp C F (emitCurrentStateStatement E rec ≫= k) K (Cond n s0) s1.
Proof.
  intros HC Hf HK HO HS Hk. pose proof (Post_change s s1 (proj1 HC) HK HO HS) as HP.
  apply wp_bind, emitCurrentStateStatement_ok; [by eapply Cond_Post|by eapply fuelOk_Post|].
  intros s2 HP2 Hs2. apply Hk; [|apply HP2]. split; [by eapply Post_trans|done].
Qed.

Lemma setPreparedPair_some p pp ballot :
  ∃ b, (setPreparedPair p pp ballot).1.1 = Some b.
Proof. unfold setPreparedPair. destruct p as [q|]; [|eauto]. repeat case_match; simpl; eauto. Qed.

(** Changing the prepared ballots while the others stay. *)
Lemma prepared_change s s' :
  Inv s → mPhase (bp s) ≠ SCP_PHASE_EXTERNALIZE → Kept s s' → is_Some (mPrepared (bp s')) →
  (mCurrentBallot (bp s'), mHighBallot (bp s'), mPhase (bp s')) =
    (mCurrentBallot (bp s), mHighBallot (bp s), mPhase (bp s)) →
  (mCommit (bp s') = mCommit (bp s) ∨ mPhase (bp s) = SCP_PHASE_PREPARE) →
  BallotsOk s' ∧ BallotsStep s s'.
Proof.
  intros HI Hp HK [p Ep] [= Eb Eh Eph] Hc. split.
  - split; [by rewrite Ep|]. rewrite Eb, Eh, Eph. intros Hnp. destruct Hc as [->|]; [|done].
    destruct (inv_commit _ HI Hnp) as (b & p' & h & c & ? & ? & ? & ? & ? & ? & ?). eauto 20.
  - split; rewrite ?Eb, ?Eph, ?Ep; try done.
    + unfold status, statusOf. rewrite Eph. destruct Hc as [->| ->]; [done|constructor].
    + intros _. rewrite compareBallotPtrs_refl. lia.
Qed.

Lemma setPreparedAccept_ok ballot n s0 s (K : bool → Slot → Prop) :
  Cond n s0 s → fuelOk s → mPhase (bp s) ≠ SCP_PHASE_EXTERNALIZE →
  (∀ r s', Done s s' → (mPrepared (bp s') ≠ None) → K r s') →
  wp C F (setPreparedAccept E rec ballot) K (Cond n s0) s.
Proof.
  intros HC Hf Hp HK. pose proof HC as (HI & _). unfold setPreparedAccept, setPrepared. wp_run.
  destruct (setPreparedPair_some (mPrepared (bp s)) (mPreparedPrime (bp s)) ballot) as [p' Ep'].
  destruct (setPreparedPair _ _ ballot) as [[p1 pp1] w]. simpl in Ep'. subst p1. wp_run.
  match goal with |- wp _ _ _ _ _ ?s' => set (s1 := s') end.
  assert (∀ s', Rel self self s1 s' → mPrepared (bp s') ≠ None) as Hsome.
  { intros s' HR Hn. by apply (rel_prepared _ _ _ _ HR) in Hn. }
  assert (Kept s s1) as HK1 by kept.
  assert (∀ s2, Kept s1 s2 → ballots s2 = ballots s1 →
    wp C F (emitCurrentStateStatement E rec;; mret true) K (Cond n s0) s2) as Hemit.
  { intros s2 HK2 [= E1 E2 E3 E4 E5 E6]. assert (Kept s s2) as HK02 by (by etrans).
    destruct (prepared_change s s2) as [HO HS]; eauto; [by rewrite E1, E4, E6|].
    apply (emit_after _ n s0 s s2); [done..|]. intros s' HD HR. wp_run. apply HK; [done|].
    intros Hn. apply (rel_prepared _ _ _ _ HR) in Hn. by rewrite E2 in Hn. }
  assert (K false s1 ∧ wp C F (if w then call (acceptedBallotPrepared ballot);;
      emitCurrentStateStatement E rec;; mret true else mret false) K (Cond n s0) s1) as [_ Hw].
  { destruct (prepared_change s s1) as [HO HS]; [done..|by eexists|done|by left|].
    pose proof (Post_change _ _ HI HK1 HO HS) as HP.
    assert (K false s1) by (by apply HK; [split; [|]|apply Hsome; reflexivity]).
    split; [done|]. destruct w; wp_run; [|done]. by apply Hemit; [kept|]. }
  destruct (mCommit (bp s1)) as [c|] eqn:Ec, (mHighBallot (bp s1)) as [h|] eqn:Eh; wp_run; try done.
  wp_if as Eab; [|done].
  match goal with |- wp _ _ _ _ _ ?s' => set (s2 := s') end.
  destruct (decide (mPhase (bp s) = SCP_PHASE_PREPARE)) as [Eph|Nph].
  - destruct (prepared_change s s2) as [HO HS]; [done..|by etrans; [exact HK1|kept]|by eexists|done|by right|].
    apply (emit_after _ n s0 s s2); [done|done|by etrans; [exact HK1|kept]|done|done|].
    intros s' HD HR. wp_run. apply HK; [done|]. intros Hn. by apply (rel_prepared _ _ _ _ HR) in Hn.
  - assert (mPhase (bp s) = SCP_PHASE_CONFIRM) as Econf by (by destruct (mPhase (bp s))).
    destruct (inv_commit _ HI Nph) as (b & p & h' & c' & Eb & _ & Eh' & _).
    assert (Conflict s2) as Hconf.
    { split; [done|]. exists h. fields. apply orb_true_iff in Eab as [Eab|Eab]; [by exists p'; auto|].
      destruct pp1 as [q|]; [by exists q; auto|done]. }
    unfold emitCurrentStateStatement. wp_run. change (mPhase (bp s2)) with (mPhase (bp s)).
    rewrite Econf. unfold createStatement. wp_run. apply checkInvariants_ok. wp_run.
    change (mCurrentBallot (bp s2)) with (mCurrentBallot (bp s)). rewrite Eb. wp_run. by right.
Qed.

(** Nothing in [cands] is accepted as prepared. *)
Definition noneAccepted (cands : list SCPBallot) (s : Slot) : Prop :=
  ∀ x, x ∈ cands → federatedAccept E (votedPrepare x) (hasPreparedBallot x) (mLatestEnvelopes (bp s)) = false.

Lemma acceptLoop_ok cands n s0 s (K : bool → Slot → Prop) :
  Cond n s0 s → fuelOk s → mPhase (bp s) ≠ SCP_PHASE_EXTERNALIZE →
  (∀ r s', Done s s' → (mPrepared (bp s') = None → s' = s ∧ noneAccepted cands s) → K r s') →
  wp C F (acceptLoop E rec cands) K (Cond n s0) s.
Proof.
  intros HC Hf Hp. pose proof HC as (HI & _).
  revert K. induction cands as [|x cands IH]; intros K HK; simpl; wp_run.
  { apply HK; [by apply Done_refl|]. intros _. split; [done|]. intros x Hx. set_solver. }
  assert (∀ K', (∀ r s', Done s s' → (mPrepared (bp s') = None → s' = s ∧ noneAccepted cands s) → K' r s') →
    wp C F (acceptLoop E rec cands) K' (Cond n s0) s) as Hrest by (intros; by apply IH).
  assert (mPrepared (bp s) ≠ None → wp C F (acceptLoop E rec cands) K (Cond n s0) s) as Hskip.
  { intros Hsome. apply Hrest. intros r s' HD _. apply HK; [done|]. intros Hn.
    destruct HD as [(_ & HR & _) _]. by apply (rel_prepared _ _ _ _ HR) in Hn. }
  assert (wp C F (if match mPreparedPrime (bp s) with
      | Some pp => compareBallots x pp <=? 0 | None => false end then acceptLoop E rec cands
    else if match mPrepared (bp s) with
      | Some p => areBallotsLessAndCompatible x p | None => false end then acceptLoop E rec cands
    else latest ← bget mLatestEnvelopes;
      if federatedAccept E (votedPrepare x) (hasPreparedBallot x) latest
      then setPreparedAccept E rec x else acceptLoop E rec cands) K (Cond n s0) s) as Hbody.
  { wp_if as E1.
    { apply Hskip. intros Hn. apply (inv_prime _ HI) in Hn. by rewrite Hn in E1. }
    wp_if as E2; [apply Hskip; intros Hn; by rewrite Hn in E2|].
    wp_if as E3.
    - apply (setPreparedAccept_ok x n s0 s); [done..|]. intros r s' HD Hs'. by apply HK.
    - apply Hrest. intros r s' HD Hn. apply HK; [done|]. intros Hp'. destruct (Hn Hp') as [-> Hno].
      split; [done|]. intros y [->|Hy]%elem_of_cons; auto. }
  wp_if as Ec; [|done]. propify.
  destruct (inv_commit _ HI) as (b & p & h & c & _ & Ep & _ & _); [by rewrite Ec|]. rewrite Ep. wp_run.
  wp_if as El; [apply Hskip; by rewrite Ep|]. by rewrite Ep in Hbody.
Qed.

Lemma attemptPreparedAccept_ok hint n s0 s (K : bool → Slot → Prop) :
  Cond n s0 s → fuelOk s →
  (∀ r s', Done s s' →
     (mPhase (bp s) ≠ SCP_PHASE_EXTERNALIZE → mPrepared (bp s') = None →
        s' = s ∧ noneAccepted (getPrepareCandidates (mLatestEnvelopes (bp s)) hint) s) → K r s') →
  wp C F (attemptPreparedAccept E rec hint) K (Cond n s0) s.
Proof.
  intros HC Hf HK. pose proof HC as (HI & _). unfold attemptPreparedAccept. wp_run.
  wp_if as Ep; propify; [by apply HK; [apply Done_refl|]|].
  apply (acceptLoop_ok _ n s0 s); [done..|]. intros r s' HD Hn. apply HK; [done|]. intros _ Hp.
  destruct (Hn Hp) as [-> Hno]. split; [done|]. intros x Hx. apply Hno. by apply elem_of_reverse.
Qed.

(** In the PREPARE phase every change that raises the current ballot is fine. *)
Lemma prepare_change s s' :
  Inv s → mPhase (bp s) = SCP_PHASE_PREPARE → Kept s s' →
  (mPrepared (bp s'), mPreparedPrime (bp s'), mPhase (bp s')) =
    (mPrepared (bp s), mPreparedPrime (bp s), mPhase (bp s)) →
  compareBallotPtrs (mCurrentBallot (bp s)) (mCurrentBallot (bp s')) <= 0 →
  BallotsOk s' ∧ BallotsStep s s'.
Proof.
  intros HI Hp HK [= Ep Epp Eph] Hle. split.
  - split; rewrite ?Ep, ?Epp, ?Eph; [apply HI|]. by rewrite Hp.
  - split; rewrite ?Ep, ?Eph; try done; [by rewrite Hp|].
    unfold status at 1, statusOf. rewrite Hp. constructor.
Qed.

Lemma setPreparedConfirmed_ok newC newH n s0 s (K : bool → Slot → Prop) :
  Cond n s0 s → fuelOk s → mPhase (bp s) = SCP_PHASE_PREPARE →
  (∀ r s', Done s s' → K r s') →
  wp C F (setPreparedConfirmed E rec newC newH) K (Cond n s0) s.
Proof.
  intros HC Hf Hp HK. pose proof HC as (HI & _). unfold setPreparedConfirmed. wp_run.
  (* the part after the first block, from any state that keeps the ballots of [s] but [h] and [c] *)
  assert (∀ s1 w, Kept s s1 →
    (mPrepared (bp s1), mPreparedPrime (bp s1), mPhase (bp s1), mCurrentBallot (bp s1)) =
      (mPrepared (bp s), mPreparedPrime (bp s), mPhase (bp s), mCurrentBallot (bp s)) →
    wp C F (updated ← updateCurrentIfNeeded E newH;
            if updated || w then emitCurrentStateStatement E rec;; mret true else mret false)
       K (Cond n s0) s1) as Hrest.
  { intros s1 w HK1 [= Ep Epp Eph Eb]. apply updateCurrentIfNeeded_ok.
    - intros s2 Hlt HB. pose proof HB as [HK2 Eb2 _ [= Ep2 Epp2 _ Eph2]]. cbn [orb].
      assert (Kept s s2) as HK02 by (by etrans).
      destruct (prepare_change s s2) as [HO HS]; [done..|congruence| |].
      { rewrite Eb2. rewrite Eb in Hlt. destruct (mCurrentBallot (bp s)); simpl; [|lia].
        specialize (Hlt _ eq_refl). lia. }
      apply (emit_after _ n s0 s s2); [done..|]. intros s' HD _. wp_run. by apply HK.
    - intros b Eb1 Hge. cbn [orb].
      destruct (prepare_change s s1) as [HO HS]; [done..|congruence|rewrite Eb, compareBallotPtrs_refl; lia|].
      destruct w; [|wp_run].
      + apply (emit_after _ n s0 s s1); [done..|]. intros s' HD _. wp_run. by apply HK.
      + apply HK. split; [by apply Post_change|]. unfold Sync, bcount.
        by rewrite Eb, Eph, (kept_latest _ _ HK1). }
  wp_if as Eb; [|by apply Hrest; [kept|]].
  wp_if as Eh; (wp_if as Ec; [|]); try wp_if as Ew; apply Hrest; fields; try done; kept.
Qed.

Lemma attemptPreparedConfirmed_ok hint n s0 s (K : bool → Slot → Prop) :
  Cond n s0 s → fuelOk s →
  (∀ r s', Done s s' → (mPrepared (bp s) = None → s' = s) → K r s') →
  wp C F (attemptPreparedConfirmed E rec hint) K (Cond n s0) s.
Proof.
  intros HC Hf HK. pose proof HC as (HI & _). unfold attemptPreparedConfirmed. wp_run.
  assert (K false s) as HKf by (apply HK; [by apply Done_refl|done]).
  wp_if as Ep; [done|]. propify. destruct (mPrepared (bp s)) as [p|]; wp_run; [|done].
  destruct (findNewH _ _ _ _) as [[newH cur]|]; wp_run; [|done].
  apply (setPreparedConfirmed_ok _ _ n s0 s); [done..|]. intros r s' HD. by apply HK.
Qed.

(** Entering or staying in CONFIRM with a commit interval [c .. h] of one value. *)
Record Committed (c h : SCPBallot) (s s' : Slot) : Prop := {
  com_kept : Kept s s';
  com_commit : mCommit (bp s') = Some c;
  com_high : mHighBallot (bp s') = Some h;
  com_prepared : mPrepared (bp s') = mPrepared (bp s);
  com_prime : mPreparedPrime (bp s') = mPreparedPrime (bp s) ∨ mPreparedPrime (bp s') = None;
  com_current : ∃ b, mCurrentBallot (bp s') = Some b ∧ value b = value h ∧ counter h <= counter b;
  com_raised : mPhase (bp s') = mPhase (bp s) →
    compareBallotPtrs (mCurrentBallot (bp s)) (mCurrentBallot (bp s')) <= 0 }.

Lemma committed_change c h s s' :
  Inv s → mPhase (bp s) ≠ SCP_PHASE_EXTERNALIZE → mPrepared (bp s) ≠ None →
  value c = value h → counter c <= counter h →
  (mPhase (bp s) = SCP_PHASE_CONFIRM → ∀ c', mCommit (bp s) = Some c' → value h = value c') →
  phaseNum (mPhase (bp s)) <= phaseNum (mPhase (bp s')) → mPhase (bp s') ≠ SCP_PHASE_PREPARE →
  Committed c h s s' → BallotsOk s' ∧ BallotsStep s s'.
Proof.
  intros HI Hp Hs Hv Hc Hlock Hle Hnp [HK Ec Eh Ep Epp (b & Eb & Vb & Hb) Hr]. split.
  - split; [by rewrite Ep|]. intros _. rewrite Ec, Eh, Ep, Eb.
    destruct (mPrepared (bp s)) as [p|]; [|done]. exists b, p, h, c. split_and!; try done; congruence.
  - split; try done; [|by rewrite Ep]. unfold status, statusOf. rewrite Ec.
    destruct (mPhase (bp s)) eqn:Eph; [constructor| |done].
    destruct (inv_commit _ HI) as (b' & p' & h' & c' & _ & _ & _ & Ec' & _); [by rewrite Eph|]. rewrite Ec'.
    specialize (Hlock eq_refl c' Ec'). rewrite Hv, Hlock.
    destruct (mPhase (bp s')); [done|constructor..].
Qed.

(** A ballot at least as large with the same value has a counter at least as large. *)
Lemma ge_counter b h : 0 <= compareBallots b h → counter h <= counter b.
Proof. rewrite <- (Z.opp_involutive (compareBallots b h)), <- compareBallots_flip. intros.
  apply compareBallots_counter. lia. Qed.

(** When [setAcceptCommit] may be called. *)
Record AcceptReady (c h : SCPBallot) (s : Slot) : Prop := {
  ready_open : mPhase (bp s) ≠ SCP_PHASE_EXTERNALIZE;
  ready_prepared : mPrepared (bp s) ≠ None;
  ready_value : value c = value h;
  ready_counter : counter c <= counter h;
  ready_lock : mPhase (bp s) = SCP_PHASE_CONFIRM → ∀ c', mCommit (bp s) = Some c' → value h = value c' }.

(** The end of [setAcceptCommit], and the part from the change of the phase on. *)
Definition acceptEnd (h : SCPBallot) : M Slot bool :=
  h' ← bget mHighBallot; h' ← deref h'; updateCurrentIfNeeded E h';; call (acceptedCommit h);;
  emitCurrentStateStatement E rec;; mret true.
Definition acceptPhase (h : SCPBallot) (w : bool) : M Slot bool :=
  phase ← bget mPhase;
  didWork ← (if bool_decide (phase = SCP_PHASE_PREPARE) then
      bset set_phase SCP_PHASE_CONFIRM;; b ← bget mCurrentBallot;
      match b with
      | Some b => if negb (areBallotsLessAndCompatible h b) then bumpToBallot E h false else mret tt
      | None => mret tt end;;
      bset set_preparedPrime None;; mret true else mret w);
  if didWork : bool then acceptEnd h else mret false.

Lemma acceptEmit_ok c h n s0 s s2 (K : bool → Slot → Prop) :
  Cond n s0 s → fuelOk s → AcceptReady c h s → (∀ r s', Done s s' → K r s') →
  Kept s s2 → mPhase (bp s2) = SCP_PHASE_CONFIRM → Committed c h s s2 →
  wp C F (emitCurrentStateStatement E rec;; mret true) K (Cond n s0) s2.
Proof.
  intros HC Hf [] HK HK2 Eph2 HCm. destruct (committed_change c h s s2) as [HO HS]; [apply HC|done..| | |done|].
  - rewrite Eph2. by destruct (mPhase (bp s)).
  - by rewrite Eph2.
  - apply (emit_after _ n s0 s s2); [done..|]. intros s' HD _. wp_run. by apply HK.
Qed.

(** From a state in CONFIRM with the new interval. *)
Lemma acceptEnd_ok c h n s0 s s1 (K : bool → Slot → Prop) :
  Cond n s0 s → fuelOk s → AcceptReady c h s → (∀ r s', Done s s' → K r s') →
  Kept s s1 → mPhase (bp s1) = SCP_PHASE_CONFIRM → mCommit (bp s1) = Some c →
  mHighBallot (bp s1) = Some h → mPrepared (bp s1) = mPrepared (bp s) →
  (mPreparedPrime (bp s1) = mPreparedPrime (bp s) ∨ mPreparedPrime (bp s1) = None) →
  (∀ b, mCurrentBallot (bp s1) = Some b → value b = value h) →
  (mPhase (bp s) = SCP_PHASE_CONFIRM → mCurrentBallot (bp s1) = mCurrentBallot (bp s)) →
  wp C F (acceptEnd h) K (Cond n s0) s1.
Proof.
  intros HC Hf HA HK HK1 Eph1 Ec1 Eh1 Ep1 Epp1 Vb1 Eb1. pose proof HA as [Hp Hs Hv Hc _].
  unfold acceptEnd. wp_run. rewrite Eh1. wp_run. apply updateCurrentIfNeeded_ok.
  - intros s2 Hlt HB. wp_run. pose proof HB as [HK2 Eb2 Eh2 [= Ep2 Epp2 Ec2 Eph2]].
    assert (Kept s s2) as HK02 by (by etrans). rewrite Eh1, (proj2 (compatible_spec _ _)) in Eh2 by done.
    apply (acceptEmit_ok c h n s0 s); fields; [done..|by etrans; [exact HK02|kept]|congruence|].
    split; fields; try congruence; [by etrans; [exact HK02|kept]|eexists; split_and!; eauto; lia|].
    intros Eph. rewrite Eb2. destruct (mCurrentBallot (bp s)) as [b|] eqn:Eb; simpl; [|lia].
    specialize (Hlt b). rewrite Eb1 in Hlt by congruence. specialize (Hlt eq_refl). lia.
  - intros b Eb Hge. wp_run. apply (acceptEmit_ok c h n s0 s); fields; [done..|by etrans; [exact HK1|kept]|done|].
    split; fields; try done; [by etrans; [exact HK1|kept]| |].
    + exists b. split_and!; [done|auto|by apply ge_counter].
    + intros Eph. rewrite Eb1 by congruence. rewrite compareBallotPtrs_refl. lia.
Qed.

Lemma acceptPhase_ok c h w n s0 s s1 (K : bool → Slot → Prop) :
  Cond n s0 s → fuelOk s → AcceptReady c h s → (∀ r s', Done s s' → K r s') →
  Kept s s1 → mCommit (bp s1) = Some c → mHighBallot (bp s1) = Some h →
  (mPrepared (bp s1), mPreparedPrime (bp s1), mPhase (bp s1), mCurrentBallot (bp s1)) =
    (mPrepared (bp s), mPreparedPrime (bp s), mPhase (bp s), mCurrentBallot (bp s)) →
  (w = false → ballots s1 = ballots s) →
  wp C F (acceptPhase h w) K (Cond n s0) s1.
Proof.
  intros HC Hf HA HK HK1 Ec1 Eh1 [= Ep1 Epp1 Eph1 Eb1] Hw. pose proof HC as (HI & _).
  unfold acceptPhase. wp_run. wp_if as Eph; propify.
  - fields. destruct (mCurrentBallot (bp s1)) as [b|] eqn:Eb; wp_run; [wp_if as El|].
    + apply bumpToBallot_ok. intros s2 HB. wp_run. pose proof HB as [HK2 Eb2 Eh2 [= Ep2 Epp2 Ec2 Eph2]].
      fields. rewrite Eh1, (proj2 (compatible_spec _ _)) in Eh2 by done.
      apply (acceptEnd_ok c h n s0 s); fields; try done; try congruence; [|by right].
      etrans; [exact HK1|]. etrans; [|etrans; [exact HK2|kept]]. kept.
    + propify. apply lessAndCompatible_spec in El as [_ El].
      apply (acceptEnd_ok c h n s0 s); fields; try done; try congruence; [etrans; [exact HK1|kept]|by right].
    + apply (acceptEnd_ok c h n s0 s); fields; try done; try congruence; [etrans; [exact HK1|kept]|by right].
  - destruct w; [|wp_run; apply HK, Done_neutral; [done..|by apply Hw]].
    assert (mPhase (bp s) = SCP_PHASE_CONFIRM) as Econf
      by (pose proof (ready_open _ _ _ HA); rewrite Eph1 in Eph; by destruct (mPhase (bp s))).
    apply (acceptEnd_ok c h n s0 s); try done; try congruence; [by left|].
    intros b Eb. destruct (inv_commit _ HI) as (b' & ? & ? & c' & Eb' & _ & _ & Ec' & Vb & _); [congruence|].
    rewrite (ready_lock _ _ _ HA Econf c' Ec'), <- Vb. congruence.
Qed.

Lemma setAcceptCommit_ok c h n s0 s (K : bool → Slot → Prop) :
  Cond n s0 s → fuelOk s → AcceptReady c h s → (∀ r s', Done s s' → K r s') →
  wp C F (setAcceptCommit E rec c h) K (Cond n s0) s.
Proof.
  intros HC Hf HA HK. unfold setAcceptCommit. fold (acceptEnd h). wp_run. fields. wp_if as Ew.
  - apply (acceptPhase_ok c h true n s0 s); fields; try done. kept.
  - destruct (mHighBallot (bp s)) as [h1|] eqn:Eh, (mCommit (bp s)) as [c1|] eqn:Ec; try done.
    propify. apply compareBallots_eq in H, H0. subst h1 c1.
    apply (acceptPhase_ok c h false n s0 s); fields; try done. kept.
Qed.

(** The hint is the latest statement of its node. *)
Definition recorded (hint : SCPStatement) (s : Slot) : Prop :=
  ∃ m e, mLatestEnvelopes (bp s) !! m = Some e ∧ statement e = hint.
Definition isBallot (st : SCPStatement) : Prop := pledges_type (pledges st) ≠ SCP_ST_NOMINATE.

(** [attemptAcceptCommit] once the ballot of the hint is known. *)
Definition acceptBallot (phase : SCPPhase) (ballot : SCPBallot) : M Slot bool :=
  compatible ← (if bool_decide (phase = SCP_PHASE_CONFIRM) then
                  h ← bget mHighBallot; h ← deref h; mret (areBallotsCompatible ballot h)
                else mret true);
  if negb (compatible : bool) then mret false
  else
    latest ← bget mLatestEnvelopes;
    let pred cur := federatedAccept E (votedCommit ballot cur) (commitPredicate ballot cur) latest in
    let boundaries := getCommitBoundariesFromStatements latest ballot in
    if bool_decide (boundaries = []) then mret false
    else
      let candidate := findExtendedInterval (0, 0) boundaries pred in
      if negb (candidate.1 =? 0) then
        larger ← (if bool_decide (phase = SCP_PHASE_CONFIRM) then
                    h ← bget mHighBallot; h ← deref h; mret (counter h <? candidate.2)
                  else mret true);
        if (larger : bool) then
          setAcceptCommit E rec (mkBallot candidate.1 (value ballot)) (mkBallot candidate.2 (value ballot))
        else mret false
      else mret false.

(** What the attempt to accept a ballot as prepared has left behind. *)
Definition attempted (hint : SCPStatement) (s : Slot) : Prop :=
  mPhase (bp s) = SCP_PHASE_PREPARE → mPrepared (bp s) = None → recorded hint s ∧
    noneAccepted (getPrepareCandidates (mLatestEnvelopes (bp s)) hint) s.

Lemma accept_ready hint ballot l s :
  Inv s → isBallot hint → attempted hint s → mPhase (bp s) ≠ SCP_PHASE_EXTERNALIZE →
  value ballot = hintValue hint → l.1 <= l.2 →
  (mPhase (bp s) = SCP_PHASE_CONFIRM → ∀ c', mCommit (bp s) = Some c' → value ballot = value c') →
  federatedAccept E (votedCommit ballot l) (commitPredicate ballot l) (mLatestEnvelopes (bp s)) = true →
  AcceptReady (mkBallot l.1 (value ballot)) (mkBallot l.2 (value ballot)) s.
Proof.
  intros HI Hty Hnone Hp Hv Hle Hlock Hacc. split; try done. intros Hn. unfold attempted in Hnone.
  destruct (mPhase (bp s)) eqn:Eph; [| |done].
  - destruct (Hnone eq_refl Hn) as [(m & e & He & Hst) Hno].
    destruct (commit_entails_prepared E _ hint m e He Hst Hty ballot l Hv Hacc) as (x & Hx & Hax).
    by rewrite (Hno x Hx) in Hax.
  - destruct (inv_commit _ HI) as (? & ? & ? & ? & ? & ? & _); congruence.
Qed.

Lemma acceptBallot_ok hint ballot n s0 s (K : bool → Slot → Prop) :
  Cond n s0 s → fuelOk s → isBallot hint → attempted hint s → mPhase (bp s) ≠ SCP_PHASE_EXTERNALIZE →
  value ballot = hintValue hint → (∀ r s', Done s s' → K r s') →
  wp C F (acceptBallot (mPhase (bp s)) ballot) K (Cond n s0) s.
Proof.
  intros HC Hf Hty Hnone Hp Hv HK. pose proof HC as (HI & _).
  assert (K false s) as HKf by (by apply HK, Done_refl).
  unfold acceptBallot. destruct (decide (mPhase (bp s) = SCP_PHASE_CONFIRM)) as [Econf|Nconf].
  - rewrite bool_decide_eq_true_2 by done. wp_run.
    destruct (inv_commit _ HI) as (b & p & h & c & _ & _ & Eh & Ec & _ & Vh & _); [congruence|].
    rewrite Eh. wp_run. wp_if as Ecomp; [done|]. wp_if as Eb; [done|]. wp_if as Ec1; [|done].
    rewrite Eh. wp_run. wp_if as El; [|done]. propify.
    destruct (findExtendedInterval_ok _ _ Ec1) as [Hpr Hle].
    apply (setAcceptCommit_ok _ _ n s0 s); try done. apply (accept_ready hint); try done.
    intros _ c' Ec'. apply compatible_spec in Ecomp. congruence.
  - rewrite bool_decide_eq_false_2 by done. wp_run. cbn [negb]. wp_run. wp_if as Eb; [done|].
    wp_if as Ec1; [|done]. propify. destruct (findExtendedInterval_ok _ _ Ec1) as [Hpr Hle].
    apply (setAcceptCommit_ok _ _ n s0 s); try done. by apply (accept_ready hint).
Qed.

Lemma attemptAcceptCommit_ok hint n s0 s (K : bool → Slot → Prop) :
  Cond n s0 s → fuelOk s → isBallot hint → attempted hint s →
  (∀ r s', Done s s' → K r s') →
  wp C F (attemptAcceptCommit E rec hint) K (Cond n s0) s.
Proof.
  intros HC Hf Hty Hnone HK. pose proof HC as (HI & _).
  assert (K false s) as HKf by (by apply HK, Done_refl).
  unfold attemptAcceptCommit. wp_run. wp_if as Ep; [done|]. propify.
  pose proof (λ ballot Hv, acceptBallot_ok hint ballot n s0 s K HC Hf Hty Hnone Ep Hv HK) as Hmain.
  unfold hintValue, getWorkingBallot, isBallot in *.
  destruct (pledges hint) as [p|c|e|nm]; wp_run; [|by apply Hmain..|done].
  destruct (negb (p_nC p =? 0)); wp_run; [by apply Hmain|done].
Qed.

(** The announcement of the externalized value, once. *)
Lemma externalize_ok s s1 s2 c :
  Post s s1 → mPhase (bp s) ≠ SCP_PHASE_EXTERNALIZE →
  mPhase (bp s1) = SCP_PHASE_EXTERNALIZE → mCommit (bp s1) = Some c → externalized (calls s1) = [] →
  mBallotProtocol s2 = mBallotProtocol s1 → mSlotIndex s2 = mSlotIndex s1 → allocated s2 = allocated s1 →
  mStatementsHistory s2 = mStatementsHistory s1 → calls s2 = valueExternalized (value c) :: calls s1 →
  mNominationProtocol s2 = set_started (mNominationProtocol s1) false →
  Post s s2.
Proof.
  intros (HI & HR & Hl) Hp Hp1 Ec Hx Eb Ei Ea Eh Ecl En. split_and!; [| |by rewrite Eb].
  - destruct HI. split; rewrite ?Eb, ?Ea, ?Ecl, ?En; auto.
    + right. split; [done|]. exists c. simpl. by rewrite Hx.
    + by apply (SentOk_calls _ _ _ _ [_]).
    + by destruct inv_nom0; split.
    + by apply (NomSent_calls _ _ [_]).
  - destruct HR as [? ? ? ? ? ? ? ? [l El] ? Hn].
    split; rewrite ?Eb, ?Ei, ?Eh, ?Ecl, ?En; auto; try done; [| |by destruct Hn; split].
    + unfold status in *. by rewrite Eb.
    + exists (valueExternalized (value c) :: l). by rewrite El.
Qed.

Lemma setConfirmCommit_ok c h n s0 s (K : bool → Slot → Prop) :
  Cond n s0 s → fuelOk s → mPhase (bp s) = SCP_PHASE_CONFIRM →
  value c = value h → counter c <= counter h →
  (∀ c', mCommit (bp s) = Some c' → value h = value c') →
  (∀ r s', Done s s' → K r s') →
  wp C F (setConfirmCommit E rec c h) K (Cond n s0) s.
Proof.
  intros HC Hf Hp Hv Hc Hlock HK. pose proof HC as (HI & _). unfold setConfirmCommit. wp_run.
  destruct (inv_commit _ HI) as (b & p & h' & c' & Eb & Ep & Eh & Ec & Vb & Vh & Hcnt); [by rewrite Hp|].
  specialize (Hlock c' Ec).
  assert (∀ s1, Kept s s1 → mPhase (bp s1) = SCP_PHASE_EXTERNALIZE → Committed c h s s1 →
    wp C F (emitCurrentStateStatement E rec;; stopNomination;; c ← bget mCommit; c ← deref c;
            call (valueExternalized (value c));; mret true) K (Cond n s0) s1) as Hemit.
  { intros s1 HK1 Hp1 HCm. destruct (committed_change c h s s1) as [HO HS]; try done.
    - by rewrite Hp.
    - by rewrite Ep.
    - intros _ c2 Ec2. congruence.
    - by rewrite Hp, Hp1.
    - by rewrite Hp1.
    - pose proof (Post_change s s1 HI HK1 HO HS) as HP1.
      apply (emit_after _ n s0 s s1); [done..|]. intros s2 [HP2 Hs2] HR12. unfold stopNomination. wp_run.
      destruct (rel_frozen _ _ _ _ HR12 Hp1) as (_ & _ & _ & _ & Ec2 & Ex2). fields.
      rewrite Ec2, (com_commit _ _ _ _ HCm). wp_run. apply HK.
      assert (mPhase (bp s2) = SCP_PHASE_EXTERNALIZE) as Hp2.
      { pose proof (rel_phase _ _ _ _ HR12) as Hle. rewrite Hp1 in Hle. by destruct (mPhase (bp s2)). }
      split; [|by intros _ Hne].
      apply (externalize_ok s s2 _ c); try done; [by rewrite Hp|by rewrite Ec2, (com_commit _ _ _ _ HCm)|].
      rewrite Ex2. destruct (kept_calls _ _ HK1) as (l & -> & _ & Hl & _).
      rewrite externalized_app, Hl. destruct (inv_externalized _ HI) as [->|[? _]]; [done|congruence]. }
  apply updateCurrentIfNeeded_ok.
  - intros s1 Hlt HB. wp_run. pose proof HB as [HK1 Eb1 Eh1 [= Ep1 Epp1 Ec1 Eph1]]. fields.
    rewrite (proj2 (compatible_spec _ _)) in Eh1 by done.
    apply Hemit; fields; [|done|split; fields; try congruence].
    + etrans; [|etrans; [exact HK1|kept]]. kept.
    + etrans; [|etrans; [exact HK1|kept]]. kept.
    + by left.
    + exists h. split_and!; [done..|lia].
  - intros b1 Eb1 Hge. wp_run. fields. rewrite Eb in Eb1. injection Eb1 as <-.
    apply Hemit; fields; [kept|done|split; fields; try congruence; [kept|by left|]].
    exists b. split_and!; [done|congruence|by apply ge_counter].
Qed.

Lemma attemptConfirmCommit_ok hint n s0 s (K : bool → Slot → Prop) :
  Cond n s0 s → fuelOk s → isBallot hint →
  (∀ r s', Done s s' → K r s') →
  wp C F (attemptConfirmCommit E rec hint) K (Cond n s0) s.
Proof.
  intros HC Hf Hty HK. pose proof HC as (HI & _).
  assert (K false s) as HKf by (by apply HK, Done_refl).
  unfold attemptConfirmCommit. wp_run. wp_if as Ep; [done|]. propify.
  destruct (inv_commit _ HI) as (b & p & h & c & _ & _ & Eh & Ec & _); [by rewrite Ep|]. rewrite Eh, Ec.
  assert (∀ ballot, wp C F (if negb (areBallotsCompatible ballot c) then mret false
    else
      latest ← bget mLatestEnvelopes;
      let boundaries := getCommitBoundariesFromStatements latest ballot in
      let pred cur := federatedRatify E (commitPredicate ballot cur) latest in
      let candidate := findExtendedInterval (0, 0) boundaries pred in
      if negb (candidate.1 =? 0) then
        setConfirmCommit E rec (mkBallot candidate.1 (value ballot)) (mkBallot candidate.2 (value ballot))
      else mret false) K (Cond n s0) s) as Hmain.
  { intros ballot. wp_if as Ecomp; [done|]. wp_if as Ec1; [|done]. propify. apply compatible_spec in Ecomp.
    destruct (findExtendedInterval_ok _ _ Ec1) as [_ Hle].
    apply (setConfirmCommit_ok _ _ n s0 s); try done. intros c' Ec'. simpl. congruence. }
  unfold isBallot in Hty. destruct (pledges hint); wp_run; [done|apply Hmain..|done].
Qed.

Lemma level_ok m s x :
  Inv s → 0 <= x → Inv (setB (λ b, set_level b x) s) ∧ Rel self m s (setB (λ b, set_level b x) s).
Proof.
  intros HI Hx. split.
  - destruct HI. by split; fields.
  - split; fields; try done; eauto.
    + rewrite compareBallotPtrs_refl. lia.
    + by exists [].
    + exists []. by rewrite app_nil_r.
Qed.

Lemma fuelOk_Done s s' : Done s s' → fuelOk s → fuelOk s'.
Proof. intros [HP _]. by apply fuelOk_Post. Qed.
Lemma Cond_Done n s0 s s' : Cond n s0 s → Done s s' → Cond n s0 s'.
Proof. intros HC [HP _]. by eapply Cond_Post. Qed.

(** One turn of the state machine at a level below the bound. *)
Lemma attempts_ok hint n s0 s (K : unit → Slot → Prop) (k : bool → M Slot unit) :
  Cond n s0 s → fuelOk s → isBallot hint → recorded hint s →
  (∀ w s', Done s s' → wp C F (k w) K (Cond n s0) s') →
  wp C F (w1 ← attemptPreparedAccept E rec hint; w2 ← attemptPreparedConfirmed E rec hint;
          w3 ← attemptAcceptCommit E rec hint; w4 ← attemptConfirmCommit E rec hint;
          k (w4 || (w3 || (w2 || w1)))) K (Cond n s0) s.
Proof.
  intros HC Hf Hty Hrc Hk.
  apply wp_bind, (attemptPreparedAccept_ok hint n s0 s); [done..|]. intros w1 s1 HD1 Hn1.
  apply wp_bind, (attemptPreparedConfirmed_ok hint n s0 s1);
    [by eapply Cond_Done|by eapply fuelOk_Done|]. intros w2 s2 HD2 Hn2.
  assert (Done s s2) as HD12 by (by eapply Done_trans).
  apply wp_bind, (attemptAcceptCommit_ok hint n s0 s2);
    [by eapply Cond_Done|by eapply fuelOk_Done|done| |].
  { intros Hp Hnone. destruct HD2 as [(_ & HR2 & _) _].
    pose proof (rel_prepared _ _ _ _ HR2 Hnone) as Hnone1. specialize (Hn2 Hnone1). subst s2.
    destruct (decide (mPhase (bp s) = SCP_PHASE_EXTERNALIZE)) as [Hx|Hx].
    - destruct HD1 as [(_ & HR1 & _) _]. pose proof (rel_phase _ _ _ _ HR1) as Hle. by rewrite Hx, Hp in Hle.
    - by destruct (Hn1 Hx Hnone1) as [-> Hno]. }
  intros w3 s3 HD3. assert (Done s s3) as HD13 by (by eapply Done_trans).
  apply wp_bind, (attemptConfirmCommit_ok hint n s0 s3);
    [by eapply Cond_Done|by eapply fuelOk_Done|done|].
  intros w4 s4 HD4. apply Hk. by eapply Done_trans.
Qed.

Lemma advanceSlot_ok hint n s0 s (K : unit → Slot → Prop) :
  Cond n s0 s → isBallot hint → recorded hint s →
  (F ∨ MAX_ADVANCE_SLOT_RECURSION <= mCurrentMessageLevel (bp s) + 1 + Z.of_nat fuel) →
  (∀ s', Done s s' → K tt s') →
  wp C F (advanceSlot E rec hint) K (Cond n s0) s.
Proof.
  intros (HI & HR & Hl) Hty Hrc Hf HK. pose proof (inv_level _ HI). unfold advanceSlot. wp_run.
  set (s1 := setB _ s). destruct (level_ok n s (mCurrentMessageLevel (bp s) + 1) HI) as [HI1 HR1]; [lia|].
  fold s1 in HI1, HR1.
  assert (mCurrentMessageLevel (bp s1) = mCurrentMessageLevel (bp s) + 1) as El1 by done.
  assert (Cond n s0 s1) as HC1 by (split_and!; [done|by etrans|lia]).
  wp_if as Emax; [done|]. propify.
  assert (fuelOk s1) as Hf1 by (unfold fuelOk; rewrite El1; destruct Hf; [by left|right; lia]).
  assert (∀ w s5, Done s1 s5 → wp C F (level ← bget mCurrentMessageLevel;
      bset set_level (level - 1);; if w : bool then sendLatestEnvelope else mret tt) K (Cond n s0) s5) as Hend.
  { intros w s5 [(HI5 & HR5 & El5) Hs5]. wp_run. set (s6 := setB _ s5).
    destruct (level_ok self s5 (mCurrentMessageLevel (bp s5) - 1) HI5) as [HI6 HR6]; [lia|].
    fold s6 in HI6, HR6. assert (mCurrentMessageLevel (bp s6) = mCurrentMessageLevel (bp s)) as El6
      by (change (mCurrentMessageLevel (bp s6)) with (mCurrentMessageLevel (bp s5) - 1); lia).
    destruct (level_ok self s (mCurrentMessageLevel (bp s) + 1) HI) as [_ HR1']; [lia|].
    assert (Done s s6) as HD6.
    { split; [split_and!; [done| |done]|exact Hs5]. etrans; [exact HR1'|]. by etrans. }
    destruct w; wp_run; [|by apply HK]. apply (sendLatestEnvelope_ok n s0 s6).
    - split_and!; [done| |lia]. etrans; [exact HR|]. apply Rel_weaken. apply HD6.
    - intros s7 HP7 Hs7. apply HK. eapply Done_trans; [done|]. by split. }
  apply (attempts_ok hint n s0 s1 K (λ didWork, level ← bget mCurrentMessageLevel;
    didWork ← (if level =? 1 then didWork ← bumpLoop E rec bumpFuel didWork;
                 checkHeardFromQuorum E;; mret didWork else mret didWork);
    level ← bget mCurrentMessageLevel; bset set_level (level - 1);;
    if didWork : bool then sendLatestEnvelope else mret tt)); [done..|].
  intros w s5 HD5. wp_run.
  wp_if as Elev; [|by apply Hend].
  apply wp_bind, (bumpLoop_ok bumpFuel w n s0 s5);
    [by eapply Cond_Done|by eapply fuelOk_Done|left; by destruct (mPhase (bp s5))|].
  intros w' s6 HP6 Hs6. wp_run. apply checkHeardFromQuorum_ok. intros s7 HK7 HB7. wp_run.
  apply (Hend w' s7). eapply Done_trans; [exact HD5|]. eapply Done_trans; [by split|].
  apply Done_neutral; [apply HP6|done..].
Qed.

Lemma pledgesSane_self p b : pledgesSane p b = true → pledgesSane p true = true.
Proof. destruct p; simpl; [|done..]. rewrite !andb_true_iff. tauto. Qed.

(** The state after a newer statement has been recorded. *)
Lemma record_ok e s :
  Inv s → pledgesSane (pledges (statement e)) true = true →
  isNewerThanLatest (mLatestEnvelopes (bp s)) (nodeID (statement e)) (statement e) = true →
  ∀ s', (mBallotProtocol s' = set_latest (bp s) (<[nodeID (statement e) := e]> (mLatestEnvelopes (bp s)))) →
    mSlotIndex s' = mSlotIndex s → allocated s' = allocated s → calls s' = calls s →
    (∃ l, mStatementsHistory s' = mStatementsHistory s ++ l) →
    mNominationProtocol s' = mNominationProtocol s →
    Inv s' ∧ Rel self (nodeID (statement e)) s s' ∧
    mCurrentMessageLevel (bp s') = mCurrentMessageLevel (bp s) ∧ ballots s' = ballots s ∧
    recorded (statement e) s' ∧ (ownEnvelope s e → Sync self s').
Proof.
  intros HI Hsane Hnew s' Eb Ei Ea Ec Eh En. unfold ballots. rewrite Eb. fields.
  split_and!; try done.
  - destruct HI. split; rewrite ?Eb, ?Ea, ?Ec, ?En; fields; auto. intros m x Hx.
    apply lookup_insert_Some in Hx as [[<- <-]|[_ Hx]]; [done|auto].
  - split; rewrite ?Eb, ?Ei, ?Ec, ?En; fields; try done; eauto.
    + unfold status. by rewrite Eb.
    + rewrite compareBallotPtrs_refl. lia.
    + intros m x Hx. destruct (decide (m = nodeID (statement e))) as [->|Hm].
      * exists e. rewrite lookup_insert. rewrite decide_True by done. split; [done|]. right. unfold supersedes.
        unfold isNewerThanLatest in Hnew. by rewrite Hx in Hnew.
      * exists x. rewrite lookup_insert_ne by done. auto.
    + intros m _ Hm. by rewrite lookup_insert_ne.
    + by exists [].
  - exists (nodeID (statement e)), e. rewrite Eb. fields. by rewrite lookup_insert, decide_True.
  - intros (Hn & _ & Hcnt). unfold Sync, bcount. rewrite Eb. fields. intros Hp x.
    rewrite Hn, lookup_insert, decide_True by done. intros [= <-]. by apply Hcnt.
Qed.

Lemma ballot_processEnvelope_ok e b n s0 s (K : EnvelopeState → Slot → Prop) :
  Cond n s0 s → isBallot (statement e) → (nodeID (statement e) = self ∨ nodeID (statement e) = n) →
  (F ∨ MAX_ADVANCE_SLOT_RECURSION <= mCurrentMessageLevel (bp s) + 1 + Z.of_nat fuel) →
  (∀ r s', Inv s' → Rel self (nodeID (statement e)) s s' →
     mCurrentMessageLevel (bp s') = mCurrentMessageLevel (bp s) →
     (ownEnvelope s e → r = VALID → Sync self s') → K r s') →
  wp C F (ballot_processEnvelope E rec e b) K (Cond n s0) s.
Proof.
  intros HC Hty Hn Hf HK. pose proof HC as (HI & HR & Hl).
  assert (K INVALID s) as HKi by (by apply HK).
  unfold ballot_processEnvelope. wp_run. wp_if as Esane; [done|]. wp_if as Enew; [done|]. wp_if as Eval; [done|].
  propify. assert (pledgesSane (pledges (statement e)) true = true) as Hsane.
  { unfold isStatementSane in Esane. destruct (getQuorumSetFromStatement _ _); [|done].
    destruct (isQuorumSetSane _ _); [|done]. by eapply pledgesSane_self. }
  pose proof (record_ok e s HI Hsane Enew) as Hrecord.
  assert (∀ s', Rel self (nodeID (statement e)) s s' → Rel self n s0 s') as HRn.
  { intros s' HR'. etrans; [done|]. destruct Hn as [Hn|<-]; [|done]. rewrite Hn in HR'. by apply Rel_weaken. }
  wp_if as Ep; propify.
  - assert (∀ s1, (mBallotProtocol s1 = set_latest (bp s) (<[nodeID (statement e) := e]> (mLatestEnvelopes (bp s)))) →
      mSlotIndex s1 = mSlotIndex s → allocated s1 = allocated s → calls s1 = calls s →
      (∃ l, mStatementsHistory s1 = mStatementsHistory s ++ l) →
      mNominationProtocol s1 = mNominationProtocol s →
      wp C F (advanceSlot E rec (statement e);; mret VALID) K (Cond n s0) s1) as Hadv.
    { intros s1 Eb Ei Ea Ec Eh En. destruct (Hrecord s1 Eb Ei Ea Ec Eh En) as (HI1 & HR1 & Hl1 & _ & Hrc & Hsync).
      apply wp_bind, (advanceSlot_ok (statement e) n s0 s1); [|done|done|by rewrite Hl1|].
      - split_and!; [done|by apply HRn|lia].
      - intros s2 [(HI2 & HR2 & Hl2) Hs2]. wp_run. apply HK; [done| |congruence|auto].
        etrans; [exact HR1|]. by apply Rel_weaken. }
    unfold recordEnvelope. wp_if as Emv; apply Hadv; fields; eauto.
  - destruct (inv_commit _ HI) as (b' & p & h & c & _ & _ & _ & Ec & _); [by rewrite Ep|]. rewrite Ec. wp_run.
    unfold recordEnvelope. wp_if as Ev; [|done].
    match goal with |- K _ ?s' => destruct (Hrecord s') as (HI1 & HR1 & Hl1 & _ & _ & Hsync) end;
      fields; eauto.
Qed.
End Functions.
