(* ===== verification/SlotSafety.v ===== *)
(** * Safety of a slot

    The knot of [Slot::processEnvelope] is tied by induction on the fuel. Ballot
    statements are processed within the recursion bound of [advanceSlot]; for
    nominations, whose recursion ends when no new value can be voted for, the
    invariant and the progress relation hold whenever the call returns or
    throws. *)
From stdpp Require Import base list sorting gmap strings.
From S2P Require Import Prelude UInt128 Numeric QuorumSet Statement LocalNode NodeWeight Slot Ballot BallotPure Nomination SlotProtocol NominationOrder BallotSafety.

(** ** Ballot statements *)

Lemma isNomination_false e : isNomination e = false ↔ isBallot (statement e).
Proof. unfold isNomination, isBallot. by rewrite bool_decide_eq_false. Qed.

Lemma dispatch_ballot E rec e b n s0 s F K :
  isBallot (statement e) →
  wp (mayCrash E) F (ballot_processEnvelope E rec e b) K (Cond E n s0) s →
  wp (mayCrash E) F (dispatchEnvelope E rec e b) K (Cond E n s0) s.
Proof.
  intros Hty H. unfold dispatchEnvelope, isBallot in *. wp_run. by destruct (pledges (statement e)).
Qed.

Lemma processEnvelope_RecSpec E F fuel : RecSpec E F fuel (processEnvelope E fuel).
Proof.
  induction fuel as [|fuel IH]; intros e n s0 s K HC Hf Hown HK.
  { destruct Hf as [?|[Hf _]]; [done|]. simpl in Hf. lia. }
  destruct (Hown) as (Hn & Hty & Hcnt). apply isNomination_false in Hty.
  simpl. apply dispatch_ballot; [done|].
  apply (ballot_processEnvelope_ok E F fuel); [done..|by left| |].
  - destruct Hf as [?|[_ Hf]]; [by left|right]. lia.
  - intros r s' HI HR Hl Hs. apply HK; [|intros Hr; by apply Hs].
    split_and!; [done| |done]. by rewrite Hn in HR.
Qed.

(** ** Nominations *)

(** A computation that does not change the state. *)
Definition reads {A} (m : M Slot A) : Prop := ∀ s,
  match m s with Ok _ s' => s' = s | Throw _ s' => s' = s | _ => True end.

Lemma reads_ret {A} (a : A) : reads (mret a).
Proof. done. Qed.
Lemma reads_bind {A B} (m : M Slot A) (k : A → M Slot B) :
  reads m → (∀ a, reads (k a)) → reads (m ≫= k).
Proof.
  intros Hm Hk s. specialize (Hm s). unfold mbind, M_bind. destruct (m s) as [a s'|? s'|? ?|]; try done.
  subst s'. apply Hk.
Qed.
Lemma reads_nget {A} (f : NominationProtocol → A) : reads (nget f).
Proof. done. Qed.
Lemma reads_sget {A} (f : Slot → A) : reads (sget f).
Proof. done. Qed.
Lemma reads_throw {A} w : reads (throw (A:=A) w).
Proof. done. Qed.
Lemma reads_crash {A} w : reads (crash (A:=A) w).
Proof. done. Qed.
Lemma reads_dbgAssert E b : reads (dbgAssert E b).
Proof. intros s. unfold dbgAssert, dbgAssertM. by destruct (debug E), b. Qed.
Create HintDb reads.
#[global] Hint Resolve reads_ret reads_bind reads_nget reads_sget reads_throw reads_crash reads_dbgAssert : reads.

Lemma reads_nominateOf p : reads (nominateOf p).
Proof. destruct p; simpl; auto with reads. Qed.
Lemma reads_hashNode E p n : reads (hashNode E p n).
Proof. unfold hashNode. auto 10 with reads. Qed.
Lemma reads_hashValue E v : reads (hashValue E v).
Proof. unfold hashValue. auto 10 with reads. Qed.
Lemma reads_computeWeight m t d : reads (computeWeight m t d).
Proof.
  unfold computeWeight, assert_, bigDivide_u64, u128_divM. apply reads_bind; [destruct (_ <=? _); auto with reads|].
  intros _. apply reads_bind; [|intros [? ?]; auto with reads].
  apply reads_bind; [|auto with reads]. destruct (u128_div _ _); auto with reads.
Qed.
#[global] Hint Resolve reads_nominateOf reads_hashNode reads_hashValue reads_computeWeight : reads.

Lemma reads_getNodeWeight n q : reads (getNodeWeight n q).
Proof.
  induction q as [t v i IH] using qset_ind. cbn [getNodeWeight]. destruct (bool_decide _); auto with reads.
  generalize (Z.of_nat (length i) + Z.of_nat (length v)). intros d.
  induction IH as [|q i Hq _ IHi]; cbn [innerWeights]; auto with reads.
  apply reads_bind; [done|]. intros w. destruct (negb _); [auto with reads|exact IHi].
Qed.
#[global] Hint Resolve reads_getNodeWeight : reads.
Lemma reads_getNodePriority E n q : reads (getNodePriority E n q).
Proof.
  unfold getNodePriority. apply reads_bind; [destruct (_ =? _); auto with reads|]. intros w.
  destruct (_ <? _); auto with reads. apply reads_bind; auto with reads. intros h.
  destruct (_ <=? _); auto with reads.
Qed.
Lemma reads_bestValue E l v h : reads (bestValue E l v h).
Proof.
  revert v h. induction l as [|x l IH]; intros v h; cbn [bestValue]; auto with reads.
  apply reads_bind; auto with reads. intros i. apply reads_bind; auto with reads. intros votes.
  destruct (_ && _); auto with reads. apply reads_bind; auto with reads. intros c.
  destruct (_ <=? _); auto.
Qed.
#[global] Hint Resolve reads_getNodePriority reads_bestValue : reads.
Lemma reads_foldLeaders E q l : ∀ acc, reads acc →
  reads (foldl (λ acc cur, acc ≫= λ a, considerLeader E q a cur) acc l).
Proof.
  induction l as [|x l IH]; intros acc Hacc; simpl; [done|]. apply IH, reads_bind; [done|].
  intros [top leaders]. unfold considerLeader. apply reads_bind; auto with reads. intros w.
  destruct (if _ <? _ then _ else _). auto with reads.
Qed.
Lemma reads_isNewerThanLatest n st : reads (isNewerThanLatestNomination n st).
Proof.
  unfold isNewerThanLatestNomination. apply reads_bind; auto with reads. intros latest.
  destruct (_ !! _); auto with reads.
Qed.
#[global] Hint Resolve reads_isNewerThanLatest : reads.

(** Only safety is claimed of nominations: a crash or exhausted fuel proves anything. *)
Notation nwp := (wp (λ _, True) True).

Lemma wp_reads {A B} (m : M Slot A) (k : A → M Slot B) K (X : Slot → Prop) s :
  reads m → X s → (∀ a, m s = Ok a s → nwp (k a) K X s) → nwp (m ≫= k) K X s.
Proof.
  intros Hm HX Hk. specialize (Hm s). unfold wp, mbind, M_bind in *.
  destruct (m s) as [a s'|? s'|? ?|]; try done; subst s'; [by apply Hk|done].
Qed.

Section Nominations.
Context (E : Env) (fuel : nat).
Context (rec : SCPEnvelope → bool → M Slot EnvelopeState).
Context (Hrec : RecSpec E True fuel rec).
Let self := localID E.

(** The recursive call on the node's own nomination. *)
Definition NomRecSpec : Prop := ∀ e n s0 s (K : EnvelopeState → Slot → Prop),
  Cond E n s0 s → isNomination e = true → nodeID (statement e) = self →
  (∀ r s', Post E s s' → K r s') → nwp (rec e true) K (Cond E n s0) s.
Context (Hnom : NomRecSpec).

(** A step that leaves the ballot protocol and the sent nominations alone. *)
Lemma nom_post s s' :
  Inv s → mBallotProtocol s' = mBallotProtocol s → mSlotIndex s' = mSlotIndex s →
  allocated s' = allocated s → (∃ l, mStatementsHistory s' = mStatementsHistory s ++ l) →
  (∃ l, calls s' = l ++ calls s ∧ emitted l = [] ∧ externalized l = [] ∧ emittedNoms l = []) →
  mNomLastEnvelope (mNominationProtocol s') = mNomLastEnvelope (mNominationProtocol s) →
  NomInv (mNominationProtocol s') → NomRel (mNominationProtocol s) (mNominationProtocol s') →
  Post E s s'.
Proof.
  intros [] Eb Ei Ea Eh (l & Ec & Hl & Hx & Hn) El HNI HNR. split_and!; [| |by rewrite Eb].
  - split; rewrite ?Eb, ?Ea, ?Ec, ?El; auto using SentOk_calls, NomSent_calls.
    by rewrite externalized_app, Hx.
  - split; rewrite ?Eb, ?Ei, ?Ec; auto; try done; eauto.
    + unfold status. by rewrite Eb.
    + by rewrite externalized_app, Hx.
    + rewrite compareBallotPtrs_refl. lia.
Qed.

(** The node's new nomination replaces the last one. *)
Lemma nominate_post s s' e nom (sent : bool) :
  Inv s → mBallotProtocol s' = mBallotProtocol s → mSlotIndex s' = mSlotIndex s →
  allocated s' = allocated s → mStatementsHistory s' = mStatementsHistory s →
  calls s' = (if sent then emitEnvelope e :: calls s else calls s) →
  mNominationProtocol s' = set_nomLast (mNominationProtocol s) (Some e) →
  nominationOf e = Some nom → nomSorted nom →
  (∀ l old, mNomLastEnvelope (mNominationProtocol s) = Some l → nominationOf l = Some old →
     isNewerNomination old nom = true) →
  Post E s s'.
Proof.
  intros [] Eb Ei Ea Eh Ec En Hnomof Hsorted Hnew.
  assert (isNomination e = true) as Hty.
  { unfold isNomination, nominationOf in *. by destruct (pledges (statement e)). }
  destruct inv_nomsent as [Hchain Hnone Hlast].
  assert (Forall (nomSupersedes e) (emittedNoms (calls s))) as Hall.
  { destruct (mNomLastEnvelope (mNominationProtocol s)) as [l|]; [|rewrite Hnone by done; constructor].
    destruct (Hlast l eq_refl) as [(old & Eold & Sold) Htop].
    assert (nomSupersedes e l) as Hel by (exists nom, old; split_and!; eauto).
    eapply Forall_impl; [exact Htop|]. intros x [->|Hx]; eauto using nomSupersedes_trans. }
  split_and!; [| |by rewrite Eb].
  - split; rewrite ?Eb, ?Ea, ?En; try done.
    + destruct sent; by rewrite Ec.
    + rewrite Ec. destruct sent; [|done]. apply (SentOk_calls _ _ _ _ [_]); [|done]. simpl. by rewrite Hty.
    + by destruct inv_nom; split.
    + rewrite Ec. split; fields.
      * destruct sent; simpl; rewrite ?Hty; [by apply StronglySorted_cons|done].
      * done.
      * intros ? [= <-]. split; [eauto|].
        destruct sent; simpl; rewrite ?Hty; [constructor; [by left|]|];
          (eapply Forall_impl; [exact Hall|]; auto).
  - split; rewrite ?Eb, ?Ei, ?Eh, ?En; try done; eauto.
    + unfold status. by rewrite Eb.
    + destruct sent; by rewrite Ec.
    + rewrite compareBallotPtrs_refl. lia.
    + destruct sent; rewrite Ec; [by eexists [_]|by exists []].
    + exists []. by rewrite app_nil_r.
    + split; fields; eauto.
Qed.

Lemma emitNomination_ok n s0 s (K : unit → Slot → Prop) :
  Cond E n s0 s → (∀ s', Post E s s' → K tt s') →
  nwp (emitNomination E rec) K (Cond E n s0) s.
Proof.
  intros HC HK. pose proof HC as (HI & _). unfold emitNomination, createEnvelope. wp_run.
  set (nom := mkNomination _ _ _). set (env := mkEnvelope _ _).
  assert (nomSorted nom) as Hsorted by (split; apply (inv_nom _ HI)).
  apply wp_bind, (Hnom env n s0 s); [done..|]. intros r s1 HP1. pose proof HP1 as (HI1 & _).
  destruct r; wp_run; [by eapply Cond_Post|].
  assert (∀ b, b = true → (∀ l old, mNomLastEnvelope (mNominationProtocol s1) = Some l →
      nominationOf l = Some old → isNewerNomination old nom = b) →
    nwp (if b then nset set_nomLast (Some env);; validated ← isFullyValidated;
           if validated : bool then call (emitEnvelope env) else mret tt else mret tt) K (Cond E n s0) s1) as Hset.
  { intros b -> Hnew. wp_run. wp_if as Ev; apply HK; (eapply Post_trans; [exact HP1|]).
    - by eapply (nominate_post s1 _ env nom true).
    - by eapply (nominate_post s1 _ env nom false). }
  destruct (mNomLastEnvelope (mNominationProtocol s1)) as [l|] eqn:El; wp_run; [|by apply (Hset true)].
  apply wp_reads; [auto with reads|by eapply Cond_Post|]. intros old Eold. wp_run.
  destruct (isNewerNomination old nom) eqn:Enew; [|wp_run; by apply HK].
  apply (Hset true); [done|]. intros l' old' [= <-] Eold'. unfold nominateOf, nominationOf, mret, M_ret in *.
  destruct (pledges (statement l)); try done. congruence.
Qed.

(** Steps on the three sets of values. *)
Lemma subset_insert (v : Value) l : ∀ x, x ∈ l → x ∈ set_insert v l.
Proof. intros x Hx. apply elem_of_set_insert. by right. Qed.

Lemma vote_post s v :
  Inv s → Post E s (setN (λ n, set_votes n (set_insert v (mVotes (mNominationProtocol s)))) s).
Proof.
  intros HI. destruct (inv_nom _ HI) as [Hv Ha Hc Hav Hca Hl]. apply nom_post; fields; try done.
  - exists []. by rewrite app_nil_r.
  - by exists [].
  - split; fields; auto using set_insert_ok. intros x Hx. by apply subset_insert, Hav.
  - split; fields; eauto using subset_insert.
Qed.

Lemma accept_post s v :
  Inv s → let n := mNominationProtocol s in
  Post E s (setN (λ n', set_votes n' (set_insert v (mVotes n)))
             (setN (λ n', set_accepted n' (set_insert v (mAccepted n))) s)).
Proof.
  intros HI n. destruct (inv_nom _ HI) as [Hv Ha Hc Hav Hca Hl]. apply nom_post; fields; try done.
  - exists []. by rewrite app_nil_r.
  - by exists [].
  - split; fields; auto using set_insert_ok.
    + intros x. rewrite !elem_of_set_insert. intros [->|Hx]; [by left|right; by apply Hav].
    + intros x Hx. by apply subset_insert, Hca.
  - split; fields; eauto using subset_insert.
Qed.

Lemma candidate_post s v :
  Inv s → let n := mNominationProtocol s in v ∈ mAccepted n →
  Post E s (setN (λ n', set_candidates n' (set_insert v (mCandidates n))) s).
Proof.
  intros HI n Hv. destruct (inv_nom _ HI) as [Hvo Ha Hc Hav Hca Hl]. apply nom_post; fields; try done.
  - exists []. by rewrite app_nil_r.
  - by exists [].
  - split; fields; auto using set_insert_ok.
    intros x. rewrite elem_of_set_insert. intros [->|Hx]; [done|by apply Hca].
  - split; fields; eauto using subset_insert.
Qed.

Lemma acceptVotes_ok l m n s0 s (K : bool → Slot → Prop) :
  Cond E n s0 s → (∀ r s', Post E s s' → K r s') →
  nwp (acceptVotes E l m) K (Cond E n s0) s.
Proof.
  revert m s. induction l as [|v l IH]; intros m s HC HK; simpl; wp_run; [apply HK, Post_refl, HC|].
  assert (∀ m' s1, Post E s s1 → nwp (acceptVotes E l m') K (Cond E n s0) s1) as Hnext.
  { intros m' s1 HP. apply IH; [by eapply Cond_Post|]. intros r s' HP'. apply HK. by eapply Post_trans. }
  pose proof HC as (HI & _). pose proof (Post_refl E s HI) as HP0.
  wp_if as E1; [by apply Hnext|]. wp_if as E2; [|by apply Hnext]. wp_if as E3.
  - apply Hnext. by apply accept_post.
  - wp_if as E4; [|by apply Hnext]. apply Hnext. by apply vote_post.
Qed.

Lemma ratifyAccepted_ok l m n s0 s (K : bool → Slot → Prop) :
  Cond E n s0 s → (∀ x, x ∈ l → x ∈ mAccepted (mNominationProtocol s)) →
  (∀ r s', Post E s s' → K r s') →
  nwp (ratifyAccepted E l m) K (Cond E n s0) s.
Proof.
  revert m s. induction l as [|v l IH]; intros m s HC Hl HK; simpl; wp_run; [apply HK, Post_refl, HC|].
  assert (∀ m' s1, Post E s s1 → nwp (ratifyAccepted E l m') K (Cond E n s0) s1) as Hnext.
  { intros m' s1 HP. apply IH; [by eapply Cond_Post| |].
    - intros x Hx. destruct HP as (_ & HR & _). apply (rel_nom _ _ _ _ HR), Hl. by right.
    - intros r s' HP'. apply HK. by eapply Post_trans. }
  pose proof HC as (HI & _). pose proof (Post_refl E s HI) as HP0.
  wp_if as E1; [by apply Hnext|]. wp_if as E2; [|by apply Hnext].
  apply Hnext, candidate_post; [done|]. apply Hl. by left.
Qed.

(** A step that only makes calls of the kinds that nothing depends on, and sets
    fields of the nomination protocol outside the invariant. *)
Definition sameSets (n n' : NominationProtocol) : Prop :=
  mVotes n' = mVotes n ∧ mAccepted n' = mAccepted n ∧ mCandidates n' = mCandidates n ∧
  mLatestNominations n' = mLatestNominations n ∧ mNomLastEnvelope n' = mNomLastEnvelope n ∧
  (∀ x, x ∈ mRoundLeaders n → x ∈ mRoundLeaders n').

Lemma sameSets_post s s' :
  Inv s → mBallotProtocol s' = mBallotProtocol s → mSlotIndex s' = mSlotIndex s →
  allocated s' = allocated s → mStatementsHistory s' = mStatementsHistory s →
  (∃ l, calls s' = l ++ calls s ∧ emitted l = [] ∧ externalized l = [] ∧ emittedNoms l = []) →
  sameSets (mNominationProtocol s) (mNominationProtocol s') → Post E s s'.
Proof.
  intros HI Eb Ei Ea Eh Ec (E1 & E2 & E3 & E4 & E5 & Hle).
  apply nom_post; try done; [rewrite Eh; exists []; by rewrite app_nil_r| |].
  - destruct (inv_nom _ HI). split; rewrite ?E1, ?E2, ?E3, ?E4; auto.
  - split; rewrite ?E1, ?E2, ?E3, ?E4; eauto.
Qed.

Lemma nom_record_post e nom s s' :
  Inv s → nominationOf e = Some nom → isSaneNomination nom = true →
  (∀ old, mLatestNominations (mNominationProtocol s) !! nodeID (statement e) = Some old →
     ∀ o, nominationOf old = Some o → isNewerNomination o nom = true) →
  mBallotProtocol s' = mBallotProtocol s → mSlotIndex s' = mSlotIndex s →
  allocated s' = allocated s → (∃ l, mStatementsHistory s' = mStatementsHistory s ++ l) →
  calls s' = calls s →
  mNominationProtocol s' = set_nominations (mNominationProtocol s)
    (<[nodeID (statement e) := e]> (mLatestNominations (mNominationProtocol s))) →
  Post E s s'.
Proof.
  intros HI Hof Hsane Hnew Eb Ei Ea Eh Ec En. destruct (inv_nom _ HI) as [Hv Ha Hc Hav Hca Hl].
  apply nom_post; rewrite ?En; fields; try done; [by exists []| |].
  - split; fields; auto. intros m x Hx. apply lookup_insert_Some in Hx as [[<- <-]|[_ Hx]]; [|auto]. eauto.
  - split; fields; eauto. intros m x Hx. destruct (decide (m = nodeID (statement e))) as [->|Hm].
    + exists e. rewrite lookup_insert, decide_True by done. split; [done|right].
      destruct (Hl _ _ Hx) as (_ & o & Eo & So).
      exists nom, o. split_and!; eauto using saneNomination_sorted.
    + exists x. rewrite lookup_insert_ne by done. auto.
Qed.

Lemma bumpState_nwp v force n s0 s (K : bool → Slot → Prop) :
  Cond E n s0 s → (∀ r s', Post E s s' → K r s') →
  nwp (bumpState E rec v force) K (Cond E n s0) s.
Proof.
  intros HC HK.
  assert (wp (mayCrash E) True (bumpState E rec v force) K (Cond E n s0) s) as H.
  { apply (bumpState_ok E True fuel rec Hrec v force n s0 s); [done|by left|]. auto. }
  revert H. unfold wp. by destruct (bumpState E rec v force s).
Qed.

(** The composite candidate starts the ballot protocol. *)
Lemma announceCandidates_ok n s0 s (K : EnvelopeState → Slot → Prop) (b : bool) :
  Cond E n s0 s → (∀ s', Post E s s' → K VALID s') →
  nwp ((if b then announceCandidates E rec else mret tt);; mret VALID) K (Cond E n s0) s.
Proof.
  intros HC HK. pose proof HC as (HI & _). unfold announceCandidates.
  destruct b; wp_run; [|by apply HK, Post_refl].
  match goal with |- wp _ _ _ _ _ ?s' => assert (Post E s s') as HP end.
  { apply sameSets_post; fields; try done. by eexists [_]. }
  apply wp_bind, bumpState_nwp; [by eapply Cond_Post|]. intros r s' HP'. wp_run.
  apply HK. by eapply Post_trans.
Qed.

(** The end of [processEnvelope]. *)
Lemma finish_ok modified newC n s0 s (K : EnvelopeState → Slot → Prop) :
  Cond E n s0 s → (∀ s', Post E s s' → K VALID s') →
  nwp ((if modified : bool then emitNomination E rec else mret tt);;
       (if newC : bool then announceCandidates E rec else mret tt);; mret VALID) K (Cond E n s0) s.
Proof.
  intros HC HK. destruct modified; wp_run; [|by apply announceCandidates_ok].
  apply wp_bind, (emitNomination_ok n s0 s); [done|]. intros s' HP.
  apply announceCandidates_ok; [by eapply Cond_Post|]. intros s'' HP'. apply HK. by eapply Post_trans.
Qed.

Lemma nom_processEnvelope_ok e n s0 s (K : EnvelopeState → Slot → Prop) :
  Cond E n s0 s → (∀ r s', Post E s s' → K r s') →
  nwp (nom_processEnvelope E rec e) K (Cond E n s0) s.
Proof.
  intros HC HK. pose proof HC as (HI & _). pose proof (Post_refl E s HI) as HP0.
  unfold nom_processEnvelope. apply wp_reads; [auto with reads|done|]. intros nom Enom.
  assert (nominationOf e = Some nom) as Hof.
  { unfold nominateOf, nominationOf, mret, M_ret in *. destruct (pledges (statement e)); by simplify_eq. }
  apply wp_reads; [auto with reads|done|]. intros newer Enewer.
  destruct newer; wp_run; cbn [negb]; wp_run; [|by apply HK].
  wp_if as Esane; [by apply HK|]. propify. unfold nom_recordEnvelope. wp_run.
  match goal with |- wp _ _ _ _ _ ?s' => set (s1 := s'); assert (Post E s s1) as HP1 end.
  { eapply (nom_record_post e nom); [done..| |done|done|done|by eexists|done|done].
    intros old Eold o Eo. unfold isNewerThanLatestNomination, mbind, M_bind, nget in Enewer.
    rewrite Eold in Enewer. unfold nominateOf, nominationOf, mret, M_ret in *.
    destruct (pledges (statement old)); by simplify_eq. }
  assert (∀ s2, Post E s1 s2 → Cond E n s0 s2) as HCn
    by (intros s2 HP2; eapply Cond_Post; [exact HC|]; by eapply Post_trans).
  wp_if as Est; [by apply HK|]. pose proof HP1 as (HI1 & _).
  apply wp_bind, (acceptVotes_ok _ _ n s0 s1); [by apply HCn, Post_refl|]. intros modified s2 HP2. wp_run.
  apply wp_bind, (ratifyAccepted_ok _ _ n s0 s2); [by apply HCn|done|]. intros newC s3 HP3. wp_run.
  assert (Post E s1 s3) as HP13 by (by eapply Post_trans). pose proof HP3 as (HI3 & _).
  assert (∀ (m : bool) s4, Post E s3 s4 → nwp ((if m then emitNomination E rec else mret tt);;
    (if newC then announceCandidates E rec else mret tt);; mret VALID) K (Cond E n s0) s4) as Hend.
  { intros m s4 HP4. assert (Post E s1 s4) as HP14 by (by eapply Post_trans).
    apply finish_ok; [by apply HCn|]. intros s5 HP5. apply HK.
    eapply Post_trans; [exact HP1|]. by eapply Post_trans. }
  wp_if as Elead; [|by apply Hend, Post_refl].
  unfold getNewValueFromNomination. apply wp_reads; [auto with reads|by apply HCn|]. intros v Ev.
  wp_if as Evote; [|by apply Hend, Post_refl]. apply (Hend true).
  eapply Post_trans; [by apply vote_post|]. apply sameSets_post; fields; try done.
  - by apply (vote_post s3 v).
  - by eexists [_].
Qed.

Lemma voteWithLeaders_ok l v u n s0 s (K : Value * bool → Slot → Prop) :
  Cond E n s0 s → (∀ r s', Post E s s' → K r s') →
  nwp (voteWithLeaders E l v u) K (Cond E n s0) s.
Proof.
  revert v u s. induction l as [|x l IH]; intros v u s HC HK; simpl; wp_run; [apply HK, Post_refl, HC|].
  destruct (_ !! x) as [e|]; [|by apply IH]. apply wp_reads; [auto with reads|done|]. intros nom _.
  unfold getNewValueFromNomination. apply wp_reads; [auto with reads|done|]. intros v' _.
  wp_if as Ev; [|by apply IH]. pose proof (vote_post s v' (proj1 HC)) as HP.
  apply IH; [by eapply Cond_Post|]. intros r s' HP'. apply HK. by eapply Post_trans.
Qed.

Lemma updateRoundLeaders_ok {A} (k : unit → M Slot A) n s0 s (K : A → Slot → Prop) :
  Cond E n s0 s → (∀ s', Post E s s' → nwp (k tt) K (Cond E n s0) s') →
  nwp (updateRoundLeaders E ≫= k) K (Cond E n s0) s.
Proof.
  intros HC Hk. unfold updateRoundLeaders. wp_run. apply wp_reads; [auto with reads|done|]. intros top _.
  wp_run. apply wp_reads.
  - rewrite forAllNodes_list. apply reads_foldLeaders. auto with reads.
  - done.
  - intros [top' leaders] _. wp_run. apply Hk. apply sameSets_post; fields; try done; [apply HC|by exists []|].
    split_and!; try done. intros x Hx. fields. revert Hx.
    generalize (mRoundLeaders (mNominationProtocol s)).
    induction leaders as [|y leaders IH]; intros l Hx; simpl; [done|]. apply IH.
    apply elem_of_set_insert. by right.
Qed.

Lemma nom_nominate_ok v prev timedout n s0 s (K : bool → Slot → Prop) :
  Cond E n s0 s → (∀ r s', Post E s s' → K r s') →
  nwp (nom_nominate E rec v prev timedout) K (Cond E n s0) s.
Proof.
  intros HC HK. pose proof HC as (HI & _). unfold nom_nominate. wp_run.
  wp_if as Et; [by apply HK, Post_refl|].
  match goal with |- wp _ _ _ _ _ ?s' => assert (Post E s s') as HP1 end.
  { apply sameSets_post; fields; try done. by exists []. }
  apply updateRoundLeaders_ok; [by eapply Cond_Post|]. intros s2 HP2. wp_run.
  assert (∀ vu s3, Post E s2 s3 → nwp (
    '(nominating, updated) ← voteWithLeaders E (mRoundLeaders (mNominationProtocol s2)) vu.1 vu.2;
    round ← nget mRoundNumber;
    call (nominatingValue nominating);; call (setupTimer NOMINATION_TIMER (computeTimeout (u32 round)) true);;
    (if (updated : bool) then emitNomination E rec else mret tt);; mret updated) K (Cond E n s0) s3) as Hend.
  { intros vu s3 HP3. assert (Post E s s3) as HP03.
    { eapply Post_trans; [exact HP1|]. by eapply Post_trans. }
    apply wp_bind, (voteWithLeaders_ok _ _ _ n s0 s3); [by eapply Cond_Post|]. intros [v' u'] s4 HP4. wp_run.
    match goal with |- wp _ _ _ _ _ ?s' => set (s5 := s'); assert (Post E s4 s5) as HP5 end.
    { apply sameSets_post; fields; try done; [apply HP4|by eexists [_; _]]. }
    assert (Post E s s5) as HP05.
    { eapply Post_trans; [exact HP03|]. by eapply Post_trans. }
    destruct u'; wp_run; [|by apply HK].
    apply wp_bind, (emitNomination_ok n s0 s5); [by eapply Cond_Post|]. intros s6 HP6. wp_run.
    apply HK. by eapply Post_trans. }
  wp_if as El.
  - match goal with |- wp _ _ (voteWithLeaders _ _ ?a ?b ≫= _) _ _ _ => apply (Hend (a, b)) end.
    by apply vote_post, HP2.
  - apply (Hend ([], false)). apply Post_refl, HP2.
Qed.
End Nominations.

(** ** The whole slot *)

Lemma processEnvelope_NomRecSpec E fuel : NomRecSpec E (processEnvelope E fuel).
Proof.
  induction fuel as [|fuel IH]; intros e n s0 s K HC Hty Hn HK; [done|].
  simpl. unfold dispatchEnvelope. wp_run. unfold isNomination in Hty. propify.
  destruct (pledges (statement e)) eqn:Ep; simpl in Hty; try done.
  apply (nom_processEnvelope_ok E fuel); [apply processEnvelope_RecSpec|done..].
Qed.
