(* ===== verification/SlotTheorems.v ===== *)
(** * The life of a slot: reachable states and their properties

    A slot is created, or restored from the node's own saved statement, and then
    driven by the calls of the application and by its timers, in any order. The
    driver may answer differently at every call, and a call may end with an
    exception. *)
From stdpp Require Import base list sorting gmap strings.
From S2P Require Import Prelude QuorumSet Statement LocalNode NodeWeight Slot Ballot BallotPure Nomination SlotProtocol NominationOrder BallotSafety SlotSafety.

(** ** Operations and runs *)

Inductive SlotOp :=
| OpReceive (e : SCPEnvelope) (self : bool)
| OpNominate (v previousValue : Value) (timedout : bool)
| OpBumpState (v : Value) (force : bool)
| OpAbandonBallot
| OpBallotTimer
| OpStopNomination.

Definition runOp (E : Env) (fuel : nat) (op : SlotOp) : M Slot unit :=
  match op with
  | OpReceive e self => processEnvelope E fuel e self;; mret tt
  | OpNominate v previousValue timedout => slot_nominate E fuel v previousValue timedout;; mret tt
  | OpBumpState v force => slot_bumpState E fuel v force;; mret tt
  | OpAbandonBallot => slot_abandonBallot E fuel;; mret tt
  | OpBallotTimer => slot_timerExpired E fuel
  | OpStopNomination => slot_stopNomination
  end.

(** The state in which a call leaves its object, by returning or by throwing. *)
Definition leaves {S A} (m : M S A) (s s' : S) : Prop :=
  (∃ r, m s = Ok r s') ∨ (∃ w, m s = Throw w s').

(** A statement of the node itself that it may have sent in a previous run. *)
Definition restorable (self i : Z) (e : SCPEnvelope) : Prop :=
  nodeID (statement e) = self ∧ slotIndex (statement e) = i ∧
  match pledges (statement e) with
  | prepare p => pledgesSane (prepare p) true = true ∧ (p_prepared p = None → p_preparedPrime p = None)
  | confirm c => pledgesSane (confirm c) true = true
  | externalize x => pledgesSane (externalize x) true = true ∧ e_nH x <= UINT32_MAX
  | nominate n => isSaneNomination n = true ∧ ∀ v, v ∈ n_accepted n → v ∈ n_votes n
  end.

(** A new slot, into which saved statements of the node have been put back. *)
Inductive restored (self : NodeID) : Slot → Prop :=
| restored_new E i : localID E = self → restored self (newSlot E i)
| restored_envelope E e s s' : localID E = self → restored self s → restorable self (mSlotIndex s) e →
    leaves (slot_setStateFromEnvelope E e) s s' → restored self s'.

Inductive reachable (self : NodeID) : Slot → Prop :=
| reachable_start s : restored self s → reachable self s
| reachable_step E fuel op s s' : localID E = self → reachable self s →
    leaves (runOp E fuel op) s s' → reachable self s'.

(** ** The invariant *)

Lemma newSlot_inv E i : Inv (newSlot E i).
Proof.
  split; simpl; try done.
  - by left.
  - split; simpl; try done. constructor.
  - split; simpl; try done; constructor.
  - split; simpl; try done. constructor.
Qed.

(** The states that an operation can leave. *)
Definition target (self : NodeID) (op : SlotOp) : NodeID :=
  match op with OpReceive e _ => nodeID (statement e) | _ => self end.

Lemma leaves_wp {A} C F (m : M Slot A) (Q X : Slot → Prop) s s' :
  wp C F m (λ _ s', Q s') X s → (∀ x, Q x → X x) → leaves m s s' → X s'.
Proof. unfold wp. intros H HQ [[r E]|[w E]]; rewrite E in H; auto. Qed.

Lemma nwp_weaken {A} C F (m : M Slot A) Q X s : wp C F m Q X s → wp (λ _, True) True m Q X s.
Proof. unfold wp. by destruct (m s). Qed.

Lemma Post_Cond E s s' : Inv s → Post E s s' → Cond E (localID E) s s'.
Proof. intros HI (HI' & HR & Hl). split_and!; [done..|lia]. Qed.

Lemma Cond_refl E n s : Inv s → Cond E n s s.
Proof. intros HI. split_and!; [done|reflexivity|lia]. Qed.

Lemma runOp_cond E fuel op s s' :
  Inv s → leaves (runOp E fuel op) s s' → Cond E (target (localID E) op) s s'.
Proof.
  intros HI. apply (leaves_wp (λ _, True) True _ (Cond E (target (localID E) op) s)); [|done].
  pose proof (processEnvelope_RecSpec E True fuel) as Hrec.
  pose proof (processEnvelope_NomRecSpec E fuel) as Hnom.
  assert (∀ s', Post E s s' → Cond E (localID E) s s') as HPC by (intros; by apply Post_Cond).
  destruct op as [e b|v prev t|v f| | |]; simpl.
  - apply wp_bind. destruct fuel as [|fuel]; [done|]. simpl. clear Hrec Hnom.
    destruct (isNomination e) eqn:Ety.
    + unfold dispatchEnvelope. wp_run. unfold isNomination in Ety. propify.
      destruct (pledges (statement e)); simpl in Ety; try done.
      apply (nom_processEnvelope_ok E fuel); [apply processEnvelope_RecSpec|apply processEnvelope_NomRecSpec| |].
      * by apply Cond_refl.
      * intros r s1 HP. wp_run. destruct (HPC s1 HP) as (? & ? & ?). split_and!; [done|by apply Rel_weaken|done].
    + apply isNomination_false in Ety. apply (nwp_weaken (mayCrash E) True), dispatch_ballot; [done|].
      apply (ballot_processEnvelope_ok E True fuel);
        [apply processEnvelope_RecSpec|by apply Cond_refl|done|by right|by left|].
      intros r s1 HI1 HR1 Hl1 _. wp_run. split_and!; [done..|lia].
  - apply wp_bind, (nom_nominate_ok E (processEnvelope E fuel)); [done..|by apply Cond_refl|]. intros r s1 HP. wp_run. auto.
  - apply wp_bind, (nwp_weaken (mayCrash E) True), (bumpState_ok E True fuel);
      [done|by apply Cond_refl|by left|]. intros r s1 HP _. wp_run. auto.
  - apply wp_bind, (nwp_weaken (mayCrash E) True), (abandonBallot_ok E True fuel);
      [done|by apply Cond_refl|by left|]. intros r s1 HP _ _. wp_run. auto.
  - apply wp_bind, (nwp_weaken (mayCrash E) True), (abandonBallot_ok E True fuel);
      [done|by apply Cond_refl|by left|]. intros r s1 HP _ _. wp_run. auto.
  - change (Cond E (localID E) s (setN (λ n, set_started n false) s)). apply HPC.
    apply (sameSets_post E); fields; try done. by exists [].
Qed.

(** What a restored slot has besides the invariant: nothing has been sent, and
    the ballot protocol is untouched as long as it has no ballot. *)
Record Fresh (i : Z) (s : Slot) : Prop := {
  fresh_index : mSlotIndex s = i;
  fresh_inv : Inv s;
  fresh_sent : emitted (calls s) = [] ∧ emittedNoms (calls s) = [] ∧ externalized (calls s) = [];
  fresh_ballot : mCurrentBallot (bp s) = None →
    mPrepared (bp s) = None ∧ mPreparedPrime (bp s) = None ∧ mHighBallot (bp s) = None ∧
    mCommit (bp s) = None ∧ mPhase (bp s) = SCP_PHASE_PREPARE ∧ mLatestEnvelopes (bp s) = ∅ }.

Lemma newSlot_fresh E i : Fresh i (newSlot E i).
Proof. split; [done|apply newSlot_inv|done|done]. Qed.

Lemma foldl_insert_elem (l acc : list Value) x :
  x ∈ foldl (λ a v, set_insert v a) acc l ↔ x ∈ acc ∨ x ∈ l.
Proof.
  revert acc. induction l as [|v l IH]; intros acc; simpl; [set_solver|].
  rewrite IH, elem_of_set_insert. set_solver.
Qed.
Lemma foldl_insert_ok (l acc : list Value) : SetOk acc → SetOk (foldl (λ a v, set_insert v a) acc l).
Proof. revert acc. induction l as [|v l IH]; intros acc Ha; simpl; [done|]. by apply IH, set_insert_ok. Qed.

Lemma wp_bset_last {B} C F (f : BallotProtocol → B → BallotProtocol) x (Q : unit → Slot → Prop) X s :
  Q tt (setB (λ b, f b x) s) → wp C F (bset f x) Q X s.
Proof. done. Qed.
Lemma wp_nset_last {B} C F (f : NominationProtocol → B → NominationProtocol) x (Q : unit → Slot → Prop) X s :
  Q tt (setN (λ n, f n x) s) → wp C F (nset f x) Q X s.
Proof. done. Qed.

Lemma restore_nomination E e nom i s s' :
  pledges (statement e) = nominate nom → Fresh i s → restorable (localID E) (mSlotIndex s) e → leaves (nom_setStateFromEnvelope E e) s s' → Fresh i s'.
Proof.
  intros Ep HF (Hid & _ & Hr) Hrun. pose proof HF as [Hi HI (He & Hn & Hx) HB].
  revert Hrun. apply (leaves_wp (λ _, True) True _ (Fresh i) (Fresh i)); [|done].
  unfold nom_setStateFromEnvelope, nom_recordEnvelope, nominateOf. wp_run. wp_if as Est; [done|].
  rewrite Ep in *. destruct Hr as [Hs Hsub]. wp_run. apply wp_nset_last. split; fields; try done. pose proof (inv_nom _ HI) as HN. destruct HI. split; fields; try done.
  - split; fields; try by (apply HN || apply foldl_insert_ok, HN).
    + intros x. rewrite !foldl_insert_elem. intros [Hx'|Hx']; [left; by apply HN|right; by apply Hsub].
    + intros x Hx'. apply foldl_insert_elem. left. by apply HN.
    + intros m e' Hl. apply lookup_insert_Some in Hl as [[<- <-]|[_ Hl]]; [|by apply HN].
      split; [done|]. exists nom. unfold nominationOf; by rewrite Ep.
  - split; rewrite Hn; try done; [constructor|]. intros e' [= <-]. split; [|constructor].
    exists nom. split; [unfold nominationOf; by rewrite Ep|by apply saneNomination_sorted].
Qed.

(** The state once the statement has been recorded as the last one sent. *)
Lemma restore_recorded e i s s1 :
  Fresh i s → mCurrentBallot (bp s) = None → isNomination e = false →
  pledgesSane (pledges (statement e)) true = true →
  mBallotProtocol s1 = set_lastEmit (set_last (set_latest (bp s)
    (<[nodeID (statement e) := e]> (mLatestEnvelopes (bp s)))) (Some (allocated s, e))) (Some (allocated s, e)) →
  mNominationProtocol s1 = mNominationProtocol s → calls s1 = calls s → allocated s1 = S (allocated s) →
  Inv s1.
Proof.
  intros [Hi HI (He & Hn & Hx) HB] Hb Hty Hs E1 E2 E3 E4. destruct (HB Hb) as (Ep & Epp & Eh & Ec & Eph & El).
  pose proof (inv_nom _ HI). pose proof (inv_nomsent _ HI). pose proof (inv_level _ HI).
  split; rewrite ?E1, ?E2, ?E3, ?E4; fields; rewrite ?Epp, ?Eph, ?El; try done.
  - intros m e' Hm. apply lookup_insert_Some in Hm as [[<- <-]|[_ Hm]]; [done|by rewrite lookup_empty in Hm].
  - by left.
  - split; rewrite ?He; try done; [constructor| |].
    + intros j e' [= <- <-]. split; [lia|]. exists (allocated s), e. auto.
    + intros j e' [= <- <-]. split; [lia|done].
Qed.

(** Installing ballots in a state without any. *)
Lemma restore_ballots i (s1 s2 : Slot) :
  mSlotIndex s1 = i → Inv s1 → emitted (calls s1) = [] ∧ emittedNoms (calls s1) = [] ∧ externalized (calls s1) = [] →
  ballots s1 = (None, None, None, None, None, SCP_PHASE_PREPARE) →
  Kept s1 s2 → BallotsOk s2 → mCurrentBallot (bp s2) ≠ None → Fresh i s2.
Proof.
  intros Hi HI (He & Hn & Hx) [= E1 E2 E3 E4 E5 E6] HK HO Hb.
  assert (Inv s2 ∧ Rel 0 0 s1 s2) as [HI2 _].
  { apply change_ok; [done..|]. split; rewrite ?E1, ?E2, ?E6; try done.
    - unfold status, statusOf. rewrite E6. constructor.
    - by destruct (mPhase (bp s2)).
    - intros _. by destruct (mCurrentBallot (bp s2)). }
  split; [by rewrite (kept_index _ _ HK)|done| |done]. destruct (kept_calls _ _ HK) as (l & -> & ? & ? & ?).
  rewrite emitted_app, emittedNoms_app, externalized_app. split_and!; by apply app_nil.
Qed.

Lemma restore_ballot E e i s s' :
  Fresh i s → restorable (localID E) (mSlotIndex s) e → isNomination e = false →
  leaves (ballot_setStateFromEnvelope E e) s s' → Fresh i s'.
Proof.
  intros HF (Hid & _ & Hr) Hty Hrun.
  revert Hrun. apply (leaves_wp (mayCrash E) True _ (Fresh i) (Fresh i)); [|done].
  unfold ballot_setStateFromEnvelope, recordEnvelope. wp_run.
  destruct (mCurrentBallot (bp s)) as [b|] eqn:Eb; wp_run; [done|]. fields.
  destruct (fresh_ballot _ _ HF Eb) as (Ep & Epp & Eh & Ec & Eph & _).
  assert (pledgesSane (pledges (statement e)) true = true) as Hs
    by (apply isNomination_false in Hty; unfold isBallot in Hty;
        destruct (pledges (statement e)); [tauto..|done]).
  match goal with |- wp _ _ _ _ _ ?x => set (s1 := x) end.
  assert (Inv s1) as HI by (by apply (restore_recorded e i s)).
  assert (ballots s1 = (None, None, None, None, None, SCP_PHASE_PREPARE)) as HB
    by (unfold ballots, s1; fields; congruence).
  pose proof (fresh_sent _ _ HF) as Hsent. change (calls s) with (calls s1) in Hsent.
  assert (mSlotIndex s1 = i) as Hi1 by apply (fresh_index _ _ HF).
  clearbody s1. destruct (pledges (statement e)) as [prep|c|ext|nom] eqn:Epl; [| | |done]; propify.
  all: apply bumpToBallot_ok; intros s2 [HK E1 E2 [= E3 E4 E5 E6]]; pose proof HB as [= F1 F2 F3 F4 F5 F6].
  - destruct (p_prepared prep) as [p|] eqn:Hp, (p_preparedPrime prep) as [pp|] eqn:Hpp; wp_run;
      wp_if as HnH; wp_if as HnC; apply wp_bset_last, (restore_ballots i s1); fields; try done;
      try congruence; try (etrans; [exact HK|kept]); (split; fields; [|done]); try congruence.
    all: intros _; naive_solver.
  - wp_run. apply wp_bset_last, (restore_ballots i s1); fields; try congruence; [done..|etrans; [exact HK|kept]|].
    split; fields; [done|]. intros _. do 4 eexists. rewrite E1. cbn [pledgesSane] in Hs. propify. split_and!; cbn [counter value]; first [done|lia].
  - wp_run. apply wp_bset_last, (restore_ballots i s1); fields; try congruence; [done..|etrans; [exact HK|kept]|].
    split; fields; [done|]. intros _. do 4 eexists. rewrite E1. cbn [pledgesSane] in Hs. destruct Hr as [_ Hr]. propify.
    split_and!; cbn [counter value]; first [done|lia].
Qed.

Lemma restore_fresh E e i s s' :
  Fresh i s → restorable (localID E) (mSlotIndex s) e → leaves (slot_setStateFromEnvelope E e) s s' → Fresh i s'.
Proof.
  intros HF Hr Hrun. unfold slot_setStateFromEnvelope in Hrun. pose proof Hr as (Hid & Hi & _).
  unfold leaves in Hrun. change (mbind ?k (sget ?f) s) with (k (f s) s) in Hrun. cbv beta in Hrun.
  rewrite Hid, Hi, !Z.eqb_refl in Hrun. simpl in Hrun.
  destruct (isNomination e) eqn:Ety.
  - unfold isNomination in Ety. propify. destruct (pledges (statement e)) eqn:Ep; try done.
    by eapply restore_nomination.
  - apply (restore_ballot E e i s); try done. apply isNomination_false in Ety. unfold isBallot in Ety.
    by destruct (pledges (statement e)).
Qed.

Lemma restored_fresh self s : restored self s → Fresh (mSlotIndex s) s.
Proof.
  induction 1 as [E i _|E e s s' <- _ IH Hr Hrun]; [apply newSlot_fresh|].
  pose proof (restore_fresh E e _ s s' IH Hr Hrun) as HF. by rewrite (fresh_index _ _ HF).
Qed.

Lemma reachable_inv self s : reachable self s → Inv s.
Proof.
  induction 1 as [s Hs|E fuel op s s' _ _ IH Hl]; [by eapply fresh_inv, restored_fresh|].
  by destruct (runOp_cond _ _ _ _ _ IH Hl) as (? & _).
Qed.

(** ** The properties of a slot *)

(** C1: a slot implements the abstract protocol. Whatever call is made in
    whatever reachable state, and whether it returns or throws, the slot moves from
    open to locked on a value to decided on that value, never back and never to
    another value; after the decision no ballot changes and nothing more is
    externalized. *)
Theorem slot_refines_abstract self E fuel op s s' :
  reachable self s → localID E = self → leaves (runOp E fuel op) s s' →
  advances (status s) (status s') ∧
  phaseNum (mPhase (bp s)) <= phaseNum (mPhase (bp s')) ∧
  (mPhase (bp s) = SCP_PHASE_EXTERNALIZE →
     ballots s' = ballots s ∧ externalized (calls s') = externalized (calls s)).
Proof.
  intros Hs _ Hl. destruct (runOp_cond E fuel op s s' (reachable_inv _ _ Hs) Hl) as (_ & HR & _).
  split_and!; [apply HR..|]. intros Hp. destruct (rel_frozen _ _ _ _ HR Hp) as (E1 & E2 & E3 & E4 & E5 & E6).
  split; [|done]. pose proof (rel_phase _ _ _ _ HR) as Hph. unfold ballots. rewrite Hp in *.
  rewrite E1, E2, E3, E4, E5. by destruct (mPhase (bp s')).
Qed.

(** C2: in every reachable state [valueExternalized] has been called at most once,
    and then with the value that the slot has decided on. *)
Theorem externalized_at_most_once self s :
  reachable self s →
  externalized (calls s) = [] ∨ ∃ v, externalized (calls s) = [v] ∧ status s = Decided v.
Proof.
  intros Hs. destruct (inv_externalized _ (reachable_inv _ _ Hs)) as [?|(Hp & c & Hc & Hx)]; [by left|].
  right. exists (value c). split; [done|]. unfold status, statusOf. by rewrite Hp, Hc.
Qed.

(** C12: the data invariant. From the CONFIRM phase on, the current, prepared, high
    and commit ballots are all set; the current, high and commit ballots have one value,
    and their counters are ordered, commit <= high <= current. Of the prepared ballot only
    that it is set: a later one with another value can replace it, as in the run
    [Scenarios.conflict]. A second prepared ballot is only set after the first; and every
    recorded statement is sane and recorded under its sender. *)
Theorem ballot_invariant self s :
  reachable self s →
  (mPhase (bp s) ≠ SCP_PHASE_PREPARE → ∃ b p h c,
     mCurrentBallot (bp s) = Some b ∧ mPrepared (bp s) = Some p ∧ mHighBallot (bp s) = Some h ∧
     mCommit (bp s) = Some c ∧ value b = value c ∧ value h = value c ∧
     counter c <= counter h <= counter b) ∧
  (mPrepared (bp s) = None → mPreparedPrime (bp s) = None) ∧
  (∀ n e, mLatestEnvelopes (bp s) !! n = Some e →
     nodeID (statement e) = n ∧ pledgesSane (pledges (statement e)) true = true).
Proof. intros Hs. destruct (reachable_inv _ _ Hs). auto. Qed.

Lemma Inv_fuel s fuel : Inv s → (50 <= fuel)%nat → fuelOk False fuel s.
Proof.
  intros HI Hf. right. pose proof (inv_level _ HI). unfold MAX_ADVANCE_SLOT_RECURSION. lia.
Qed.

(** A ballot envelope of any node, with the bounds on the recursion and on crashes. *)
Lemma receive_wp E fuel e b s :
  Inv s → isNomination e = false → (50 <= fuel)%nat →
  wp (mayCrash E) False (processEnvelope E fuel e b) (λ _ _, True) (λ _, True) s.
Proof.
  intros HI Hty Hf. destruct fuel as [|fuel]; [lia|]. simpl.
  apply (wp_conseq _ _ _ (λ _ _, True) _ (Cond E (nodeID (statement e)) s)); [|done..].
  apply isNomination_false in Hty. apply dispatch_ballot; [done|].
  apply (ballot_processEnvelope_ok E False fuel);
    [apply processEnvelope_RecSpec|by apply Cond_refl|done|by right| |done].
  right. pose proof (inv_level _ HI). unfold MAX_ADVANCE_SLOT_RECURSION. lia.
Qed.

(** The calls of the local node on the ballot protocol. *)
Definition isBallotCall (op : SlotOp) : bool :=
  match op with
  | OpReceive e _ => negb (isNomination e)
  | OpBumpState _ _ | OpAbandonBallot | OpBallotTimer | OpStopNomination => true
  | OpNominate _ _ _ => false
  end.

Lemma ballotCall_wp E fuel op s :
  Inv s → isBallotCall op = true → (50 <= fuel)%nat →
  wp (mayCrash E) False (runOp E fuel op) (λ _ _, True) (λ _, True) s.
Proof.
  intros HI Hop Hf. pose proof (Inv_fuel s fuel HI Hf) as Hfuel.
  pose proof (processEnvelope_RecSpec E False fuel) as Hrec.
  destruct op as [e b|v prev t|v f| | |]; simpl in *; [|done| | | |done]; try apply wp_bind.
  - apply negb_true_iff in Hop. eapply wp_conseq; [by apply receive_wp|done|done].
  - apply (wp_conseq _ _ _ (λ _ _, True) _ (Cond E (localID E) s)); [|done..].
    by apply (bumpState_ok E False fuel _ Hrec); [apply Cond_refl|..].
  - apply (wp_conseq _ _ _ (λ _ _, True) _ (Cond E (localID E) s)); [|done..].
    by apply (abandonBallot_ok E False fuel _ Hrec); [apply Cond_refl|..].
  - apply (wp_conseq _ _ _ (λ _ _, True) _ (Cond E (localID E) s)); [|done..].
    by apply (abandonBallot_ok E False fuel _ Hrec); [apply Cond_refl|..].
Qed.

(** C13: every call on the ballot protocol comes back. The recursion of
    [processEnvelope] through the statements that a node sends to itself is cut by
    the code's own bound of 50 messages, so fuel 50 is always enough, whatever the
    messages, the quorum sets and the answers of the driver. *)
Theorem ballot_calls_terminate self E fuel op s :
  reachable self s → localID E = self → isBallotCall op = true → (50 <= fuel)%nat →
  runOp E fuel op s ≠ NoFuel.
Proof.
  intros Hs _ Hop Hf Hn. pose proof (ballotCall_wp E fuel op s (reachable_inv _ _ Hs) Hop Hf) as H.
  unfold wp in H. by rewrite Hn in H.
Qed.

(** C14: in a build without assertions, a call on the ballot protocol can only bring
    the process down (a null pointer dereferenced) in a state where the node, in
    the CONFIRM phase, has accepted as prepared a ballot that contradicts the
    commit it has accepted. *)
Theorem release_crash_needs_conflict self E fuel op s w s' :
  reachable self s → localID E = self → isBallotCall op = true → (50 <= fuel)%nat → debug E = false →
  runOp E fuel op s = Crash w s' → Conflict s'.
Proof.
  intros Hs _ Hop Hf Hd Hc. pose proof (ballotCall_wp E fuel op s (reachable_inv _ _ Hs) Hop Hf) as H.
  unfold wp in H. rewrite Hc in H. destruct H as [H|H]; [by rewrite Hd in H|done].
Qed.

(** C15: every ballot statement that a slot sends supersedes all those it sent
    before. *)
Theorem emitted_ballots_supersede self s :
  reachable self s → StronglySorted supersedes (emitted (calls s)).
Proof. intros Hs. apply (inv_sent _ (reachable_inv _ _ Hs)). Qed.

(** Every nomination that a slot sends contains all the votes and accepted
    values of those sent before, and more. *)
Theorem emitted_nominations_grow self s :
  reachable self s → StronglySorted nomSupersedes (emittedNoms (calls s)).
Proof. intros Hs. apply (inv_nomsent _ (reachable_inv _ _ Hs)). Qed.

(** C16: a call leaves the recorded statement of a node as it is or replaces it by a
    newer one, and touches only the sender of the message and the local node. *)
Theorem latest_statements_monotone self E fuel op s s' :
  reachable self s → localID E = self → leaves (runOp E fuel op) s s' →
  (∀ n e, mLatestEnvelopes (bp s) !! n = Some e →
     ∃ e', mLatestEnvelopes (bp s') !! n = Some e' ∧ (e' = e ∨ supersedes e' e)) ∧
  (∀ n, n ≠ self → n ≠ target self op → mLatestEnvelopes (bp s') !! n = mLatestEnvelopes (bp s) !! n).
Proof.
  intros Hs <- Hl. destruct (runOp_cond E fuel op s s' (reachable_inv _ _ Hs) Hl) as (_ & HR & _).
  split; apply HR.
Qed.

(** C17: votes, accepted values, candidates and round leaders are never withdrawn,
    and candidates are accepted values, which are votes. *)
Theorem nomination_monotone self E fuel op s s' :
  reachable self s → localID E = self → leaves (runOp E fuel op) s s' →
  let n := mNominationProtocol s in let n' := mNominationProtocol s' in
  (mVotes n ⊆ mVotes n' ∧ mAccepted n ⊆ mAccepted n' ∧ mCandidates n ⊆ mCandidates n' ∧
   mRoundLeaders n ⊆ mRoundLeaders n') ∧
  mCandidates n' ⊆ mAccepted n' ∧ mAccepted n' ⊆ mVotes n'.
Proof.
  intros Hs _ Hl. destruct (runOp_cond E fuel op s s' (reachable_inv _ _ Hs) Hl) as (HI & HR & _).
  pose proof (inv_nom _ HI) as HN. destruct (rel_nom _ _ _ _ HR). destruct HN. split_and!; intros x; auto.
Qed.

(** Every member of a quorum of the local node declares to have accepted the
    commit of [v] for the counters from [low] to [high]. *)
Definition commitQuorum (E : Env) (latest : gmap NodeID SCPEnvelope) (v : Value) (low high : Z) : Prop :=
  ∃ U, isQuorumSlice (localQSet E) U = true ∧ selfSufficient latest (getQuorumSetFromStatement E) U ∧
    ∀ m, m ∈ U → ∃ e, latest !! m = Some e ∧
      commitPredicate (mkBallot high v) (low, high) (statement e) = true.

Lemma candidate_quorum E latest ballot boundaries :
  let cand := findExtendedInterval (0, 0) boundaries
                (λ cur, federatedRatify E (commitPredicate ballot cur) latest) in
  cand.1 ≠ 0 → cand.1 <= cand.2 ∧ commitQuorum E latest (value ballot) cand.1 cand.2.
Proof.
  intros cand Hne. destruct (findExtendedInterval_ok _ _ Hne) as [Hp Hle]. split; [done|].
  apply isQuorum_iff in Hp as (U & HU & Hs & Hq). by exists U.
Qed.

(** C18: a slot externalizes only on the evidence of a quorum. When
    [attemptConfirmCommit] does anything, it confirms commits of the value the slot
    was locked on, for an interval of counters that every member of a quorum of
    the local node has declared, in its latest statement, to have accepted. *)
Theorem confirm_commit_needs_quorum E rec hint s s' :
  attemptConfirmCommit E rec hint s = Ok true s' →
  ∃ v low high, status s = Locked v ∧ low ≠ 0 ∧ low <= high ∧
    commitQuorum E (mLatestEnvelopes (bp s)) v low high ∧
    setConfirmCommit E rec (mkBallot low v) (mkBallot high v) s = Ok true s'.
Proof.
  unfold attemptConfirmCommit, bget, mbind, M_bind, mret, M_ret.
  destruct (mPhase (bp s)) eqn:Ep; try done. rewrite bool_decide_eq_true_2 by done. simpl.
  destruct (mHighBallot (bp s)) as [h|]; [|done]. destruct (mCommit (bp s)) as [c|] eqn:Ec; [|done].
  destruct (pledges hint); try done; simpl;
    (destruct (areBallotsCompatible _ c) eqn:Eb; [|done]); simpl;
    (match goal with |- context [?x =? 0] => destruct (Z.eqb_spec x 0) as [|Hne]; [done|] end); simpl; intros Hset;
    apply compatible_spec in Eb; destruct (candidate_quorum _ _ _ _ Hne) as [Hle Hq];
    (eexists _, _, _; split_and!; [|exact Hne|exact Hle|exact Hq|exact Hset]);
    unfold status, statusOf; by rewrite Ep, Ec, Eb.
Qed.
