(* ===== verification/SCPNode.v ===== *)
(** * The protocol instance of a node: [scp/SCP.cpp]

    [SCP] owns the local node and the slots it knows. Its operations select a
    slot, creating it when needed, and forward to it. The driver, the clock and
    the kind of build may differ at every call; the local node is state. *)
From stdpp Require Import base list sorting gmap strings.
From S2P Require Import Prelude QuorumSet Statement LocalNode Slot Ballot Nomination SlotProtocol BallotSafety SlotTheorems.

(** [class SCP]. *)
Record SCP := mkSCP {
  mLocalNode : LocalNodeT;
  mKnownSlots : gmap Z Slot }.

(** What surrounds a call: the kind of build, the clock, the driver, the hash of
    quorum sets and the fuel of the recursion between the protocols. *)
Record Ambient := mkAmbient {
  a_debug : bool;
  a_clock : nat → Z;
  a_driver : SCPDriver;
  a_hash : SCPQuorumSet → Hash;
  a_fuel : nat }.

Definition newSCP (A : Ambient) (n : NodeID) (isValidator : bool) (qSetLocal : SCPQuorumSet) : SCP :=
  mkSCP (newLocalNode (a_hash A) n isValidator qSetLocal) ∅.

Section Operations.
Variable A : Ambient.

Definition envOf (scp : SCP) : Env := mkEnv (a_debug A) (a_clock A) (mLocalNode scp) (a_driver A).
Definition putSlot (i : Z) (s : Slot) (scp : SCP) : SCP :=
  mkSCP (mLocalNode scp) (<[i := s]> (mKnownSlots scp)).

(** [getSlot] returns a [shared_ptr], here the index of a known slot. *)
Definition getSlot (slotIndex : Z) (create : bool) : M SCP (option Z) := λ scp,
  match mKnownSlots scp !! slotIndex with
  | Some _ => Ok (Some slotIndex) scp
  | None =>
    if create then Ok (Some slotIndex) (putSlot slotIndex (newSlot (envOf scp) slotIndex) scp)
    else Ok None scp
  end.

(** A member function called through the pointer. *)
Definition onSlot {B} (p : option Z) (f : Env → M Slot B) : M SCP B := λ scp,
  match p ≫= (λ i, pair i <$> mKnownSlots scp !! i) with
  | None => Crash "null dereference" scp
  | Some (i, s) =>
    match f (envOf scp) s with
    | Ok b s' => Ok b (putSlot i s' scp)
    | Throw w s' => Throw w (putSlot i s' scp)
    | Crash w s' => Crash w (putSlot i s' scp)
    | NoFuel => NoFuel
    end
  end.

Definition scp_receiveEnvelope (envelope : SCPEnvelope) : M SCP EnvelopeState :=
  p ← getSlot (slotIndex (statement envelope)) true;
  onSlot p (λ E, processEnvelope E (a_fuel A) envelope false).

Definition isValidator (scp : SCP) : bool := mIsValidator (mLocalNode scp).

Definition scp_nominate (slotIndex : Z) (v previousValue : Value) : M SCP bool :=
  scp ← get;
  (if a_debug A && negb (isValidator scp) then crash "dbgAssert" else mret tt);;
  p ← getSlot slotIndex true;
  onSlot p (λ E, slot_nominate E (a_fuel A) v previousValue false).

Definition scp_stopNomination (slotIndex : Z) : M SCP unit :=
  p ← getSlot slotIndex false;
  match p with
  | Some _ => onSlot p (λ _, slot_stopNomination)
  | None => mret tt
  end.

Definition updateLocalQuorumSet (qSet : SCPQuorumSet) : M SCP unit :=
  modify (λ scp, mkSCP (updateQuorumSet (a_hash A) qSet (mLocalNode scp)) (mKnownSlots scp)).

(** The loop over the iterator: [erase] returns the next one. *)
Definition eraseBelow (maxSlotIndex : Z) (slots : gmap Z Slot) (it : list (Z * Slot)) : gmap Z Slot :=
  foldl (λ slots p, if p.1 <? maxSlotIndex then delete p.1 slots else slots) slots it.
Definition purgeSlots (maxSlotIndex : Z) : M SCP unit :=
  modify (λ scp, mkSCP (mLocalNode scp)
    (eraseBelow maxSlotIndex (mKnownSlots scp) (map_iter (mKnownSlots scp)))).

Definition scp_setStateFromEnvelope (slotIndex : Z) (e : SCPEnvelope) : M SCP unit :=
  p ← getSlot slotIndex true;
  onSlot p (λ E, slot_setStateFromEnvelope E e).

(** The calls that reach a slot through a timer or the herder's own pointer to
    it: the nomination and ballot timers, [bumpState] and [abandonBallot]. *)
Definition slotCallback (slotIndex : Z) (op : SlotOp) : M SCP unit :=
  onSlot (Some slotIndex) (λ E, runOp E (a_fuel A) op).

(** ** What others read *)

Definition getLocalQuorumSet (scp : SCP) : SCPQuorumSet := mQSet (mLocalNode scp).
Definition getLocalNodeID (scp : SCP) : NodeID := mNodeID (mLocalNode scp).

Definition isSlotFullyValidated (scp : SCP) (i : Z) : bool :=
  match mKnownSlots scp !! i with Some s => mFullyValidated s | None => false end.
Definition getKnownSlotsCount (scp : SCP) : Z := Z.of_nat (size (mKnownSlots scp)).
Definition getStatementCount (s : Slot) : Z := Z.of_nat (length (mStatementsHistory s)).
Definition getCumulativeStatemtCount (scp : SCP) : Z :=
  foldl (λ c p, c + getStatementCount p.2) 0 (map_iter (mKnownSlots scp)).
Definition getLatestMessagesSend (scp : SCP) (i : Z) : list SCPEnvelope :=
  match mKnownSlots scp !! i with Some s => slot_getLatestMessagesSend s | None => [] end.
Definition scp_empty (scp : SCP) : bool := bool_decide (map_iter (mKnownSlots scp) = []).

(** [assert(!empty())], then the first and the last key of the map. *)
Definition getLowSlotIndex (scp : SCP) : option Z := fst <$> head (map_iter (mKnownSlots scp)).
Definition getHighSlotIndex (scp : SCP) : option Z := fst <$> last (map_iter (mKnownSlots scp)).

Definition getCurrentState (scp : SCP) (i : Z) : list SCPEnvelope :=
  match mKnownSlots scp !! i with Some s => slot_getCurrentState (envOf scp) s | None => [] end.
Definition scp_getExternalizingState (scp : SCP) (i : Z) : list SCPEnvelope :=
  match mKnownSlots scp !! i with Some s => getExternalizingState (envOf scp) s | None => [] end.

(** The search goes from the highest slot down. *)
Fixpoint latestIn (id : NodeID) (l : list (Z * Slot)) : option SCPEnvelope :=
  match l with
  | [] => None
  | (_, s) :: l =>
    match slot_getLatestMessage s id with Some e => Some e | None => latestIn id l end
  end.
Definition getLatestMessage (scp : SCP) (id : NodeID) : option SCPEnvelope :=
  latestIn id (reverse (map_iter (mKnownSlots scp))).
End Operations.

(** ** The life of a node *)

Inductive SCPOp :=
| NodeReceive (e : SCPEnvelope)
| NodeNominate (i : Z) (v previousValue : Value)
| NodeStopNomination (i : Z)
| NodeUpdateQuorumSet (q : SCPQuorumSet)
| NodePurge (maxSlotIndex : Z)
| NodeCallback (i : Z) (op : SlotOp).

Definition runNode (A : Ambient) (op : SCPOp) : M SCP unit :=
  match op with
  | NodeReceive e => scp_receiveEnvelope A e;; mret tt
  | NodeNominate i v previousValue => scp_nominate A i v previousValue;; mret tt
  | NodeStopNomination i => scp_stopNomination A i
  | NodeUpdateQuorumSet q => updateLocalQuorumSet A q
  | NodePurge i => purgeSlots i
  | NodeCallback i op => slotCallback A i op
  end.

(** A node starts by putting back what it had saved, then runs. *)
Inductive nodeRestored (self : NodeID) : SCP → Prop :=
| nodeRestored_new A isValidator q : nodeRestored self (newSCP A self isValidator q)
| nodeRestored_envelope A i e scp scp' : nodeRestored self scp → restorable self i e →
    leaves (scp_setStateFromEnvelope A i e) scp scp' → nodeRestored self scp'.
Inductive nodeReachable (self : NodeID) : SCP → Prop :=
| nodeReachable_start scp : nodeRestored self scp → nodeReachable self scp
| nodeReachable_step A op scp scp' : nodeReachable self scp →
    leaves (runNode A op) scp scp' → nodeReachable self scp'.

(** All known slots have their index and satisfy [P]. *)
Definition Slots (P : Slot → Prop) (self : NodeID) (scp : SCP) : Prop :=
  mNodeID (mLocalNode scp) = self ∧
  ∀ i s, mKnownSlots scp !! i = Some s → mSlotIndex s = i ∧ P s.

Lemma leaves_bind {S B D} (m : M S B) (k : B → M S D) s s' :
  leaves (m ≫= k) s s' → (∃ w, m s = Throw w s') ∨ ∃ b s1, m s = Ok b s1 ∧ leaves (k b) s1 s'.
Proof.
  unfold leaves, mbind, M_bind. destruct (m s) as [b s1|w s1|w s1|]; intros H; [eauto| |by destruct H as [[]|[]]..].
  destruct H as [[]|[w' [= _ <-]]]; [done|]. eauto.
Qed.
Lemma leaves_forget {S B} (m : M S B) s s' : leaves (m;; mret tt) s s' ↔ leaves m s s'.
Proof.
  split.
  - intros [H|(b & s1 & E & H)]%leaves_bind; [by right|]. left.
    destruct H as [[? [= _ <-]]|[]]; [eauto|done].
  - unfold leaves, mbind, M_bind. intros [[r ->]|[w ->]]; eauto.
Qed.

Lemma onSlot_leaves {B} A p (f : Env → M Slot B) scp scp' :
  leaves (onSlot A p f) scp scp' → ∃ i s s', p = Some i ∧ mKnownSlots scp !! i = Some s ∧
    leaves (f (envOf A scp)) s s' ∧ scp' = putSlot i s' scp.
Proof.
  unfold leaves, onSlot. destruct p as [i|]; simpl; [|by intros [[? ?]|[? ?]]].
  destruct (mKnownSlots scp !! i) as [s|] eqn:Es; simpl; [|by intros [[? ?]|[? ?]]].
  destruct (f (envOf A scp) s) as [b s'|w s'|w s'|] eqn:Ef; intros [[r Er]|[w' Ew]]; try done.
  - injection Er as _ <-. exists i, s, s'. rewrite Ef. eauto 10.
  - injection Ew as _ <-. exists i, s, s'. rewrite Ef. eauto 10.
Qed.

(** The slot with index [i] once [getSlot] has created it if needed. *)
Definition slotOr (A : Ambient) (scp : SCP) (i : Z) : Slot :=
  match mKnownSlots scp !! i with Some s => s | None => newSlot (envOf A scp) i end.

(** Every operation acts on one slot, or on none. *)
Lemma created_leaves {B} A i (f : Env → M Slot B) scp scp' :
  leaves (p ← getSlot A i true; onSlot A p f) scp scp' →
  ∃ s', leaves (f (envOf A scp)) (slotOr A scp i) s' ∧ scp' = putSlot i s' scp.
Proof.
  intros [[w Ew]|(p & scp1 & Ep & Hl)]%leaves_bind; [unfold getSlot in Ew; by case_match|].
  apply onSlot_leaves in Hl as (i' & s & s' & -> & Hs & Hl & ->).
  unfold slotOr, getSlot in *. destruct (mKnownSlots scp !! i) as [s0|] eqn:Ei.
  - injection Ep as <- <-. rewrite Hs in Ei. injection Ei as ->. eauto.
  - injection Ep as <- <-. unfold putSlot in Hs. simpl in Hs. rewrite lookup_insert_eq in Hs.
    injection Hs as <-. exists s'. split; [done|]. unfold putSlot. simpl. by rewrite insert_insert_eq.
Qed.

Lemma slots_put P self i s scp :
  Slots P self scp → mSlotIndex s = i → P s → Slots P self (putSlot i s scp).
Proof.
  intros [Hn HS] Hi HP. split; [done|]. unfold putSlot; simpl. intros j t.
  rewrite lookup_insert_Some. intros [[<- <-]|[_ Ht]]; [done|by apply HS].
Qed.
Lemma slotOr_slots P self A i scp :
  Slots P self scp → (∀ E, localID E = self → P (newSlot E i)) →
  mSlotIndex (slotOr A scp i) = i ∧ P (slotOr A scp i).
Proof.
  intros [Hn HS] HP. unfold slotOr. destruct (mKnownSlots scp !! i) as [s|] eqn:Es; [by apply HS|].
  split; [done|]. by apply HP.
Qed.

Lemma nodeRestored_slots self scp : nodeRestored self scp → Slots (restored self) self scp.
Proof.
  induction 1 as [A iv q|A i e scp scp' _ IH Hr Hl].
  - split; [done|]. intros i s. simpl. by rewrite lookup_empty.
  - apply created_leaves in Hl as (s' & Hl & ->).
    destruct (slotOr_slots _ _ A i _ IH) as [Hi HR]; [intros; by constructor|].
    pose proof (proj1 IH) as Hn. rewrite <- Hi in Hr.
    apply slots_put; [done| |by eapply (restored_envelope self (envOf A scp))].
    rewrite <- Hi. eapply fresh_index, (restore_fresh (envOf A scp)); [|unfold localID; simpl; by rewrite Hn|done].
    by eapply restored_fresh.
Qed.

Lemma reachable_op self E fuel op s s' :
  localID E = self → reachable self s → leaves (runOp E fuel op) s s' →
  reachable self s' ∧ mSlotIndex s' = mSlotIndex s.
Proof.
  intros HE Hs Hl. split; [by eapply reachable_step|].
  destruct (runOp_cond E fuel op s s' (reachable_inv _ _ Hs) Hl) as (_ & HR & _). apply HR.
Qed.

(** The slot that an operation acts on, with what it does there. *)
Definition action (op : SCPOp) : option (Z * SlotOp) :=
  match op with
  | NodeReceive e => Some (slotIndex (statement e), OpReceive e false)
  | NodeNominate i v previousValue => Some (i, OpNominate v previousValue false)
  | NodeStopNomination i => Some (i, OpStopNomination)
  | NodeUpdateQuorumSet _ | NodePurge _ => None
  | NodeCallback i op => Some (i, op)
  end.

Lemma runNode_action A op i sop scp scp' :
  action op = Some (i, sop) → leaves (runNode A op) scp scp' →
  scp' = scp ∨ ∃ s', leaves (runOp (envOf A scp) (a_fuel A) sop) (slotOr A scp i) s' ∧ scp' = putSlot i s' scp.
Proof.
  destruct op as [e|j v prev|j|q|m|j op]; intros [= <- <-] Hl; cbn [runNode runOp] in *.
  - rewrite leaves_forget in Hl. apply created_leaves in Hl as (s' & Hl & ->). right.
    exists s'. by rewrite leaves_forget.
  - rewrite leaves_forget in Hl. apply leaves_bind in Hl as [[w [=]]|(? & ? & [= <- <-] & Hl)].
    apply leaves_bind in Hl as [[w Ew]|(? & scp1 & Es & Hl)]; [by case_match|].
    assert (scp1 = scp) as -> by (case_match; [done|by injection Es]).
    apply created_leaves in Hl as (s' & Hl & ->). right. exists s'. by rewrite leaves_forget.
  - apply leaves_bind in Hl as [[w Ew]|(p & scp1 & Es & Hl)]; [unfold getSlot in Ew; by case_match|].
    unfold getSlot in Es. unfold slotOr. destruct (mKnownSlots scp !! j) as [s|] eqn:Ej; injection Es as <- <-.
    + apply onSlot_leaves in Hl as (? & s1 & s' & [= <-] & Es1 & Hl & ->). right. exists s'.
      by simplify_eq/=.
    + left. by destruct Hl as [[? [= _ <-]]|[]].
  - apply onSlot_leaves in Hl as (? & s1 & s' & [= <-] & Es1 & Hl & ->). right. exists s'.
    unfold slotOr. by rewrite Es1.
Qed.

Lemma eraseBelow_lookup maxSlotIndex slots it i :
  eraseBelow maxSlotIndex slots it !! i =
    if (i <? maxSlotIndex) && bool_decide (i ∈ it.*1) then None else slots !! i.
Proof.
  revert slots. induction it as [|[j s] it IH]; intros slots.
  - rewrite bool_decide_eq_false_2 by set_solver. by rewrite andb_false_r.
  - unfold eraseBelow in *. rewrite fmap_cons. cbn [foldl fst]. rewrite IH.
    destruct (decide (i = j)) as [->|Hij].
    + rewrite (bool_decide_eq_true_2 (j ∈ j :: _)) by set_solver. destruct (j <? maxSlotIndex); cbn [andb]; [|done].
      case_bool_decide; [done|]. apply lookup_delete_eq.
    + assert (bool_decide (i ∈ j :: it.*1) = bool_decide (i ∈ it.*1)) as ->
        by (apply bool_decide_ext; set_solver).
      destruct (j <? maxSlotIndex); [|done]. by rewrite lookup_delete_ne by done.
Qed.
Lemma purge_lookup maxSlotIndex (slots : gmap Z Slot) i :
  eraseBelow maxSlotIndex slots (map_iter slots) !! i = if i <? maxSlotIndex then None else slots !! i.
Proof.
  rewrite eraseBelow_lookup. destruct (i <? maxSlotIndex); [|done]. simpl.
  case_bool_decide as Hi; [done|]. destruct (slots !! i) as [s|] eqn:Es; [|done].
  exfalso. apply Hi, list_elem_of_fmap. exists (i, s). by rewrite elem_of_map_iter.
Qed.

Lemma runNode_other A op scp scp' :
  action op = None → leaves (runNode A op) scp scp' →
  mNodeID (mLocalNode scp') = mNodeID (mLocalNode scp) ∧
  ∀ i s, mKnownSlots scp' !! i = Some s → mKnownSlots scp !! i = Some s.
Proof.
  destruct op as [| | |q|m|]; try done; intros _ [[r [= _ <-]]|[]]; try done; split; try done.
  simpl. intros i s. rewrite purge_lookup. by destruct (_ <? _).
Qed.

Lemma node_step_slots self A op scp scp' :
  Slots (reachable self) self scp → leaves (runNode A op) scp scp' → Slots (reachable self) self scp'.
Proof.
  intros HS Hl. destruct (action op) as [[i sop]|] eqn:Ea.
  - destruct (runNode_action _ _ _ _ _ _ Ea Hl) as [->|(s' & Hs' & ->)]; [done|].
    destruct (slotOr_slots _ _ A i _ HS) as [Hi HR]; [intros; by do 2 constructor|].
    destruct (reachable_op self (envOf A scp) (a_fuel A) sop (slotOr A scp i) s') as [HR' Hi']; [apply HS|done..|].
    apply slots_put; [done|congruence|done].
  - destruct (runNode_other _ _ _ _ Ea Hl) as [Hn Hk]. destruct HS as [HS1 HS2].
    split; [congruence|]. intros i s Hs. by apply HS2, Hk.
Qed.

Lemma nodeReachable_slots self scp : nodeReachable self scp → Slots (reachable self) self scp.
Proof.
  induction 1 as [scp Hr|A op scp scp' _ IH Hl]; [|by eapply node_step_slots].
  destruct (nodeRestored_slots _ _ Hr) as [Hn HS]. split; [done|]. intros i s Hs.
  destruct (HS i s Hs). split; [done|by constructor].
Qed.

(** ** The properties of a node *)

(** Every slot that a node knows is in a state that a slot of this node can
    reach, under its own index; so the node has externalized at most one value per
    known slot, the one the slot has decided on. Changes of the quorum set, other
    slots, purges and exceptions do not matter. *)
Theorem node_slots_reachable self scp i s :
  nodeReachable self scp → mKnownSlots scp !! i = Some s →
  reachable self s ∧ mSlotIndex s = i ∧ Inv s.
Proof.
  intros Hr Hs. destruct (nodeReachable_slots _ _ Hr) as [_ HS]. destruct (HS i s Hs) as [Hi HR].
  split_and!; [done..|by eapply reachable_inv].
Qed.

(** Slots do not interfere. An operation on one slot leaves every other slot
    as it is, and its effect on that slot is a call of the slot itself, started
    in the known state or in a new slot. *)
Theorem node_slot_isolation A op i sop scp scp' :
  action op = Some (i, sop) → leaves (runNode A op) scp scp' →
  mLocalNode scp' = mLocalNode scp ∧
  (∀ j, j ≠ i → mKnownSlots scp' !! j = mKnownSlots scp !! j) ∧
  (scp' = scp ∨ ∃ s', mKnownSlots scp' !! i = Some s' ∧
     leaves (runOp (envOf A scp) (a_fuel A) sop) (slotOr A scp i) s').
Proof.
  intros Ha Hl. destruct (runNode_action _ _ _ _ _ _ Ha Hl) as [->|(s' & Hs' & ->)]; [auto|].
  unfold putSlot. simpl. split_and!; [done| |].
  - intros j Hj. by rewrite lookup_insert_ne.
  - right. exists s'. by rewrite lookup_insert_eq.
Qed.

(** [purgeSlots] forgets exactly the slots below the bound. *)
Theorem purge_keeps_recent maxSlotIndex scp :
  ∃ scp', purgeSlots maxSlotIndex scp = Ok tt scp' ∧ mLocalNode scp' = mLocalNode scp ∧
    ∀ i, mKnownSlots scp' !! i = if i <? maxSlotIndex then None else mKnownSlots scp !! i.
Proof.
  eexists. split; [reflexivity|]. split; [done|]. apply purge_lookup.
Qed.

Lemma latestIn_spec id l e :
  latestIn id l = Some e ↔ ∃ l1 i s l2, l = l1 ++ (i, s) :: l2 ∧ slot_getLatestMessage s id = Some e ∧
    ∀ j t, (j, t) ∈ l1 → slot_getLatestMessage t id = None.
Proof.
  induction l as [|[i s] l IH]; simpl.
  - split; [done|]. by intros ([] & ? & ? & ? & ? & _).
  - destruct (slot_getLatestMessage s id) as [e'|] eqn:Es.
    + split.
      * intros [= ->]. exists [], i, s, l. set_solver.
      * intros ([|[j t] l1] & i' & s' & l2 & [= -> -> El] & Hs & Hn); [congruence|].
        rewrite (Hn j t) in Es; [done|]. set_solver.
    + rewrite IH. split.
      * intros (l1 & i' & s' & l2 & -> & Hs & Hn). exists ((i, s) :: l1), i', s', l2.
        split_and!; [done..|]. intros j t [[= -> ->]|?]%elem_of_cons; eauto.
      * intros ([|[j t] l1] & i' & s' & l2 & [= -> -> El] & Hs & Hn); [congruence|].
        exists l1, i', s', l2. split_and!; [done..|]. set_solver.
Qed.

Lemma map_iter_split {B} (m : gmap Z B) l1 i s l2 :
  reverse (map_iter m) = l1 ++ (i, s) :: l2 →
  m !! i = Some s ∧ (∀ j t, (j, t) ∈ l1 → i < j) ∧ (∀ j t, m !! j = Some t → i < j → (j, t) ∈ l1).
Proof.
  intros E. assert (map_iter m = reverse l2 ++ (i, s) :: reverse l1) as El.
  { rewrite <- (reverse_involutive (map_iter m)), E, reverse_app, reverse_cons, <- app_assoc. done. }
  pose proof (NoDup_map_iter m) as Hnd. pose proof (map_iter_sorted m) as Hs.
  assert (∀ j t, m !! j = Some t ↔ (j, t) ∈ l1 ∨ (j, t) = (i, s) ∨ (j, t) ∈ l2) as Hm.
  { intros j t. rewrite <- elem_of_map_iter, El, elem_of_app, elem_of_cons, !elem_of_reverse. tauto. }
  rewrite El in Hs, Hnd. rewrite fmap_app, fmap_cons in Hnd.
  apply NoDup_app in Hnd as (_ & _ & Hnd). apply NoDup_cons in Hnd as [Hnd _].
  apply StronglySorted_app in Hs as (H2 & _ & Hs). apply StronglySorted_cons in Hs as [H1 _].
  rewrite Forall_forall in H1. split_and!; [apply Hm; auto| |].
  - intros j t Hj. specialize (H1 (j, t)). rewrite elem_of_reverse in H1. specialize (H1 Hj).
    unfold key_le in H1. simpl in H1. enough (j ≠ i) by lia. intros ->. apply Hnd.
    apply list_elem_of_fmap. exists (i, t). by rewrite elem_of_reverse.
  - intros j t Hj Hij. apply Hm in Hj as [?|[[= -> ->]|Hj]]; [done|lia|].
    assert (key_le (j, t) (i, s)) as Hle.
    { apply H2; [by rewrite elem_of_reverse|apply elem_of_cons; by left]. }
    unfold key_le in Hle. simpl in Hle. lia.
Qed.

(** [getLatestMessage] returns the message of a node in the highest slot in
    which it has one. *)
Theorem latest_message_highest_slot scp id e :
  getLatestMessage scp id = Some e ↔
  ∃ i s, mKnownSlots scp !! i = Some s ∧ slot_getLatestMessage s id = Some e ∧
    ∀ j t, mKnownSlots scp !! j = Some t → i < j → slot_getLatestMessage t id = None.
Proof.
  unfold getLatestMessage. rewrite latestIn_spec. split.
  - intros (l1 & i & s & l2 & El & Hs & Hn). exists i, s.
    destruct (map_iter_split _ _ _ _ _ El) as (Hi & _ & Hl). eauto.
  - intros (i & s & Hi & Hs & Hn).
    assert ((i, s) ∈ reverse (map_iter (mKnownSlots scp))) as Hin by (by rewrite elem_of_reverse, elem_of_map_iter).
    apply list_elem_of_split in Hin as (l1 & l2 & El).
    destruct (map_iter_split _ _ _ _ _ El) as (_ & Hl & _). exists l1, i, s, l2. split_and!; try done.
    intros j t Hj. apply (Hn j); [|by eapply Hl]. rewrite <- elem_of_map_iter, <- elem_of_reverse, El.
    apply elem_of_app. by left.
Qed.
