(* ===== verification/Scenarios.v ===== *)
(** * Concrete runs

    Executions of the model on small networks: instances of the theorems about
    slots and nodes, and the runs that show where the code leaves the states it
    means to be in. *)
From stdpp Require Import base list sorting gmap strings.
From S2P Require Import Prelude QuorumSet Statement LocalNode Slot Ballot Nomination SlotProtocol NominationOrder BallotSafety SlotTheorems SCPNode.

(** ** Environments *)

(** The local node 0 listens to the nodes 1 to 4. Quorum sets are found by a
    number, all values are valid and the candidates combine to their first. *)
Definition exQSets (h : Hash) : option SCPQuorumSet :=
  if h =? 1 then Some (QSet 2 [1; 2] [])
  else if h =? 4 then Some (QSet 4 [1; 2; 3; 4] []) else Some (QSet 1 [1; 2] []).
Definition exDriver (validate : Value → ValidationLevel) : SCPDriver :=
  mkDriver (λ _, []) exQSets (λ _ v _, validate v) (λ _ v, v)
    (λ _ _ _ _ _, 0) (λ _ _ _ _, 0) (λ _ l, match l with v :: _ => v | [] => [] end).
Definition exNode (h : Hash) : LocalNodeT :=
  mkLocalNode 0 true (match exQSets h with Some q => q | None => QSet 0 [] [] end) h (QSet 1 [0] []) 0.
Definition exEnv (h : Hash) : Env :=
  mkEnv false (λ _, 0) (exNode h) (exDriver (λ _, kFullyValidatedValue)).
Definition val1 : Value := [1].
Definition val2 : Value := [2].

Definition exSend (n : NodeID) (p : Pledges) : SlotOp := OpReceive (mkEnvelope (mkStatement n 7 p) []) false.
Definition exPrepare (b p : SCPBallot) (pp : option SCPBallot) (nC nH : Z) : Pledges :=
  prepare (mkPrepare 1 b (Some p) pp nC nH).

(** ** Running a list of calls *)

Definition exFuel : nat := 60.
Definition runOps (E : Env) (ops : list SlotOp) : outcome Slot unit :=
  foldl (λ o op, match o with Ok _ s => runOp E exFuel op s | o => o end) (Ok tt (newSlot E 7)) ops.
Definition stateOf (E : Env) (o : outcome Slot unit) : Slot :=
  match o with Ok _ s | Throw _ s | Crash _ s => s | NoFuel => newSlot E 7 end.
Definition returns (o : outcome Slot unit) : bool := match o with Ok _ _ => true | _ => false end.
Definition after (E : Env) (ops : list SlotOp) : Slot := stateOf E (runOps E ops).

Lemma runOps_reachable E ops : returns (runOps E ops) = true → reachable (localID E) (after E ops).
Proof.
  unfold after. induction ops as [|op ops IH] using rev_ind; [intros _; by do 2 constructor|].
  unfold runOps in *. rewrite foldl_app. simpl.
  destruct (foldl _ _ ops) as [[] s|w s|w s|]; try done. intros Hr. specialize (IH eq_refl). simpl in IH.
  destruct (runOp E exFuel op s) as [[] s'|w s'|w s'|] eqn:E'; try done.
  apply (reachable_step _ E exFuel op s s'); [done..|]. left. by exists tt.
Qed.

(** The local node votes for a value, and is joined by two nodes that have
    prepared it and vote to commit it: it is locked. Then one of them decides. *)
Definition lockedOps : list SlotOp :=
  [OpBumpState val1 true;
   exSend 1 (exPrepare (mkBallot 1 val1) (mkBallot 1 val1) None 1 1);
   exSend 2 (exPrepare (mkBallot 1 val1) (mkBallot 1 val1) None 1 1)].
Definition decideOp : SlotOp := exSend 1 (externalize (mkExternalize (mkBallot 1 val1) 3 0)).
Definition locked : Slot := after (exEnv 0) lockedOps.
Definition decided : Slot := after (exEnv 0) (lockedOps ++ [decideOp]).

Lemma locked_reachable : reachable 0 locked.
Proof. apply (runOps_reachable (exEnv 0) lockedOps). vm_compute. reflexivity. Qed.
Lemma decided_reachable : reachable 0 decided.
Proof. apply (runOps_reachable (exEnv 0) (lockedOps ++ [decideOp])). vm_compute. reflexivity. Qed.
Lemma decideOp_leaves : leaves (runOp (exEnv 0) exFuel decideOp) locked decided.
Proof. left. exists tt. vm_compute. reflexivity. Qed.

(** ** Instances of the theorems about a slot *)

Lemma slot_refines_abstract_witness : advances (Locked val1) (Decided val1).
Proof.
  refine (proj1 (slot_refines_abstract 0 (exEnv 0) exFuel decideOp locked decided
                   locked_reachable _ decideOp_leaves)). reflexivity.
Defined.

Lemma externalized_at_most_once_witness :
  externalized (calls decided) = [] ∨ ∃ v, externalized (calls decided) = [v] ∧ status decided = Decided v.
Proof. exact (externalized_at_most_once 0 decided decided_reachable). Defined.

Lemma ballot_invariant_witness : ∃ b p h c,
  mCurrentBallot (mBallotProtocol locked) = Some b ∧ mPrepared (mBallotProtocol locked) = Some p ∧
  mHighBallot (mBallotProtocol locked) = Some h ∧ mCommit (mBallotProtocol locked) = Some c ∧
  value b = value c ∧ value h = value c ∧ counter c <= counter h <= counter b.
Proof. refine (proj1 (ballot_invariant 0 locked locked_reachable) _). vm_compute. discriminate. Defined.

Lemma ballot_calls_terminate_witness : runOp (exEnv 0) 50 decideOp locked ≠ NoFuel.
Proof.
  refine (ballot_calls_terminate 0 (exEnv 0) 50 decideOp locked locked_reachable _ _ _);
    [reflexivity..|apply le_n].
Defined.

Lemma emitted_ballots_supersede_witness : StronglySorted supersedes (emitted (calls decided)).
Proof. exact (emitted_ballots_supersede 0 decided decided_reachable). Defined.

Lemma latest_statements_monotone_witness :
  mLatestEnvelopes (mBallotProtocol decided) !! 2 = mLatestEnvelopes (mBallotProtocol locked) !! 2.
Proof.
  refine (proj2 (latest_statements_monotone 0 (exEnv 0) exFuel decideOp locked decided
                   locked_reachable _ decideOp_leaves) 2 _ _); [reflexivity|discriminate..].
Defined.

(** The hint of a decided node, in a state whose quorum has decided too. *)
Definition ready : Slot :=
  setB (λ b, set_latest b {[1 := mkEnvelope (mkStatement 1 7 (externalize (mkExternalize (mkBallot 1 val1) 3 0))) []]})
    locked.
Definition readyHint : SCPStatement := mkStatement 1 7 (externalize (mkExternalize (mkBallot 1 val1) 3 0)).
Definition confirmed : Slot :=
  match attemptConfirmCommit (exEnv 0) (processEnvelope (exEnv 0) exFuel) readyHint ready with
  | Ok _ s => s | _ => ready end.

Lemma confirm_commit_needs_quorum_witness : ∃ v low high,
  status ready = Locked v ∧ low ≠ 0 ∧ low <= high ∧
  commitQuorum (exEnv 0) (mLatestEnvelopes (mBallotProtocol ready)) v low high ∧
  setConfirmCommit (exEnv 0) (processEnvelope (exEnv 0) exFuel) (mkBallot low v) (mkBallot high v) ready
    = Ok true confirmed.
Proof. refine (confirm_commit_needs_quorum _ _ readyHint _ _ _). vm_compute. reflexivity. Defined.

(** A round of nomination in which every node has the same priority: the local
    node votes, and accepts and confirms with the two others. *)
Definition exNominate (votes accepted : list Value) : Pledges := nominate (mkNomination 1 votes accepted).
Definition nomEnv : Env :=
  mkEnv false (λ _, 0) (exNode 0)
    (mkDriver (λ _, []) exQSets (λ _ _ _, kFullyValidatedValue) (λ _ v, v)
       (λ _ _ isPriority _ n, if (isPriority : bool) then n else 0) (λ _ _ _ _, 0)
       (λ _ l, match l with v :: _ => v | [] => [] end)).
Definition nominatedOps : list SlotOp :=
  [OpNominate val1 [] false; exSend 2 (exNominate [val1; val2] [])].
Definition nominateOp : SlotOp := exSend 1 (exNominate [val1; val2] [val1]).
Definition nominated : Slot := after nomEnv nominatedOps.
Definition accepted : Slot := after nomEnv (nominatedOps ++ [nominateOp]).

Lemma nominated_reachable : reachable 0 nominated.
Proof. apply (runOps_reachable nomEnv nominatedOps). vm_compute. reflexivity. Qed.
Lemma accepted_reachable : reachable 0 accepted.
Proof. apply (runOps_reachable nomEnv (nominatedOps ++ [nominateOp])). vm_compute. reflexivity. Qed.

Lemma emitted_nominations_grow_witness : StronglySorted nomSupersedes (emittedNoms (calls accepted)).
Proof. exact (emitted_nominations_grow 0 accepted accepted_reachable). Defined.

Lemma nomination_monotone_witness :
  mVotes (mNominationProtocol nominated) ⊆ mVotes (mNominationProtocol accepted).
Proof.
  refine (proj1 (proj1 (nomination_monotone 0 nomEnv exFuel nominateOp nominated accepted
                          nominated_reachable _ _))); [reflexivity|].
  left. exists tt. vm_compute. reflexivity.
Defined.

(** ** Instances of the theorems about a node *)

Definition exAmbient : Ambient :=
  mkAmbient false (λ _, 0) (exDriver (λ _, kFullyValidatedValue)) (λ _, 0) exFuel.
Definition exSCP : SCP := newSCP exAmbient 0 true (QSet 1 [1; 2] []).
Definition decideNode : SCPOp :=
  NodeReceive (mkEnvelope (mkStatement 1 7 (externalize (mkExternalize (mkBallot 1 val1) 3 0))) []).
Definition decidedSCP : SCP := match runNode exAmbient decideNode exSCP with Ok _ scp => scp | _ => exSCP end.
Definition decidedSlot : Slot :=
  match mKnownSlots decidedSCP !! 7 with Some s => s | None => newSlot (exEnv 0) 7 end.

Lemma node_slots_reachable_witness : reachable 0 decidedSlot ∧ mSlotIndex decidedSlot = 7 ∧ Inv decidedSlot.
Proof.
  refine (node_slots_reachable 0 decidedSCP 7 decidedSlot _ _); [|vm_compute; reflexivity].
  apply (nodeReachable_step 0 exAmbient decideNode exSCP); [do 2 constructor|].
  left. exists tt. vm_compute. reflexivity.
Defined.

Lemma node_slot_isolation_witness : mKnownSlots decidedSCP !! 8 = mKnownSlots exSCP !! 8.
Proof.
  refine (proj1 (proj2 (node_slot_isolation exAmbient decideNode 7 _ exSCP decidedSCP _ _)) 8 _);
    [reflexivity| |discriminate].
  left. exists tt. vm_compute. reflexivity.
Defined.

(** ** Where the code leaves its own state space *)

(** The local node has confirmed (1, val1) as prepared and votes to commit it. Two
    nodes then accept (2, val2) as prepared, which confirms it: the current ballot
    moves to (2, val2) and the high ballot is dropped, but the commit is not. *)
Definition badStateOps : list SlotOp :=
  [OpBumpState val1 true;
   exSend 1 (exPrepare (mkBallot 1 val1) (mkBallot 1 val1) None 0 0);
   exSend 2 (exPrepare (mkBallot 1 val1) (mkBallot 1 val1) None 0 0);
   exSend 2 (exPrepare (mkBallot 3 val1) (mkBallot 2 val2) None 0 0)].
Definition badStateOp : SlotOp :=
  exSend 1 (exPrepare (mkBallot 3 val1) (mkBallot 3 val1) (Some (mkBallot 2 val2)) 0 0).

(** [bumpToBallot] drops the high ballot but not the commit ballot when the
    value changes, so from a reachable state well-formed messages of two nodes lead
    to a statement that the node itself rejects: the call throws, with a commit
    ballot set whose value is not that of the current ballot. *)
Theorem commit_kept_after_value_change : ∃ s s' b c,
  reachable 0 s ∧
  runOp (exEnv 0) exFuel badStateOp s = Throw "moved to a bad state (ballot protocol)" s' ∧
  mPhase (mBallotProtocol s') = SCP_PHASE_PREPARE ∧ mHighBallot (mBallotProtocol s') = None ∧
  mCurrentBallot (mBallotProtocol s') = Some b ∧ mCommit (mBallotProtocol s') = Some c ∧
  areBallotsCompatible b c = false.
Proof.
  exists (after (exEnv 0) badStateOps), (after (exEnv 0) (badStateOps ++ [badStateOp])),
    (mkBallot 2 val2), (mkBallot 1 val1).
  split; [apply (runOps_reachable (exEnv 0) badStateOps); vm_compute; reflexivity|].
  vm_compute. repeat split.
Qed.

(** A node all of whose slices contain the nodes 1 and 2. Node 1 has prepared
    (2, val2); node 2 has accepted the commit of (1, val1). *)
Definition conflictOps : list SlotOp :=
  [exSend 1 (prepare (mkPrepare 4 (mkBallot 2 val2) (Some (mkBallot 2 val2)) None 0 0));
   exSend 2 (confirm (mkConfirm (mkBallot 1 val1) 1 1 1 4))].
Definition conflictOp : SlotOp :=
  exSend 1 (prepare (mkPrepare 4 (mkBallot 3 val2) (Some (mkBallot 3 val2)) None 0 0)).
Definition conflict : Slot := after (exEnv 4) conflictOps.

Lemma conflict_reachable : reachable 0 conflict.
Proof. apply (runOps_reachable (exEnv 4) conflictOps). vm_compute. reflexivity. Qed.

(** Entering the CONFIRM phase does not drop a prepared ballot of another
    value, and [setPreparedAccept] resets the commit ballot in that phase when
    assertions are off. Three well-formed messages of two nodes make the node
    dereference a null commit ballot while it builds its CONFIRM statement. *)
Theorem null_commit_dereferenced : ∃ s s',
  reachable 0 s ∧ runOp (exEnv 4) exFuel conflictOp s = Crash "null dereference" s' ∧
  mPhase (mBallotProtocol s') = SCP_PHASE_CONFIRM ∧ mCommit (mBallotProtocol s') = None.
Proof.
  exists conflict, (after (exEnv 4) (conflictOps ++ [conflictOp])). split; [apply conflict_reachable|].
  vm_compute. repeat split.
Qed.

Lemma release_crash_needs_conflict_witness : Conflict (after (exEnv 4) (conflictOps ++ [conflictOp])).
Proof.
  refine (release_crash_needs_conflict 0 (exEnv 4) exFuel conflictOp conflict "null dereference" _
            conflict_reachable _ _ _ _ _); [reflexivity..| |reflexivity|vm_compute; reflexivity].
  apply (bool_decide_unpack (50 <= exFuel)%nat). vm_compute. exact I.
Defined.

(** [validateValues] keeps the verdict on the last value that is not fully
    valid instead of the worst one, so a slot records and answers VALID to a
    statement that contains a value the driver has just called invalid. *)
Theorem invalid_value_accepted : ∃ E e s',
  validateValue (driver E) 7 val1 false = kInvalidValue ∧
  (∃ p, pledges (statement e) = prepare p ∧ ∃ b, p_prepared p = Some b ∧ value b = val1) ∧
  processEnvelope E exFuel e false (newSlot E 7) = Ok VALID s' ∧
  mLatestEnvelopes (mBallotProtocol s') !! nodeID (statement e) = Some e.
Proof.
  set (E := mkEnv false (λ _, 0) (exNode 0)
              (exDriver (λ v, if bool_decide (v = val1) then kInvalidValue else kMaybeValidValue))).
  set (e := mkEnvelope (mkStatement 1 7 (exPrepare (mkBallot 2 val2) (mkBallot 1 val1) None 0 0)) []).
  exists E, e, (match processEnvelope E exFuel e false (newSlot E 7) with Ok _ s => s | _ => newSlot E 7 end).
  split; [reflexivity|]. split; [eexists; split; [reflexivity|]; eexists; split; reflexivity|].
  split; vm_compute; reflexivity.
Qed.
